(* ===== verification/_CoqProject ===== *)
-Q . S2P
Prelude.v
Sorting.v
Walks.v
PackedVector.v
QueryHeap.v
Relaxing.v
RoutingBase.v
XorFastHash.v
Permutation.v
DynamicGraph.v
StaticGraph.v
GraphInterface.v
FilteredGraph.v
EdgeBasedEdge.v
EdgeBasedGraphReader.v
MultiLevelPartition.v
Classes.v
MultiLevelGraph.v
CellStorage.v
CellCustomizer.v
Customization.v
BisectionGraph.v
DinicMaxFlow.v
MinimumCut.v
BisectionToPartition.v
Partitioner.v
TrafficProtobuf.v
LiveTraffic.v
Doubles.v
SegmentData.v
RequestParser.v
ContractorSearch.v
GraphContractor.v
Contraction.v
Hierarchy.v
ChSearch.v
ContractorAdaptors.v
Excludable.v
MldSearch.v
MldLabels.v
MldOverlay.v
MldQuery.v
MldPhantoms.v
MldBuilt.v
Customizer.v
RouteAnnotation.v
NextPermutation.v
Trip.v
TripInsertion.v
Polyline.v
IndexedData.v
