(* ===== verification/Prelude.v ===== *)
(** * A verification of the OSRM routing backend with live traffic

    ** The program

    OSRM answers routing queries on road networks.  A road network is
    preprocessed offline and queried online:

    - the extractor (src/extractor) reads OSM data through Lua profiles and
      writes an edge-based graph;
    - the contractor (src/contractor) builds a contraction hierarchy: it takes
      nodes out in rounds and inserts shortcuts that keep all shortest paths;
    - the partitioner (src/partitioner) nests the nodes in cells, and the
      customizer (src/customize) computes the weights between the boundary
      nodes of every cell, level by level, for the multi-level search;
    - the engine (src/engine) answers queries on either structure, and the
      server (src/server) speaks HTTP;
    - this fork receives speed samples over UDP, aggregates them per road
      geometry and serves them (include/engine/traffic_*.hpp,
      live_data_store.hpp).

    ** The files and what they model

    Containers and graphs of include/util:
    - PackedVector: packed_vector.hpp, the words, masks and offsets of a vector
      of [Bits]-bit elements; element access, growth, filling, and the
      compare-and-swap store as steps of an interleaving.
    - QueryHeap: query_heap.hpp, the index storages and the addressable queue.
      [boost::heap] is the class [MutableHeap] with its documented laws;
      [IndexStorage] is the class of the storages.  [qh_repr] relates a heap to
      its abstract queue; searches are proved against that contract only.
    - XorFastHash: xor_fast_hash.hpp and xor_fast_hash_storage.hpp, an
      instance of [IndexStorage] for the contractor.
    - Permutation: permutation.hpp.
    - DynamicGraph, StaticGraph: dynamic_graph.hpp and static_graph.hpp, each
      with the adjacency lists ([adj], [sadj]) as its abstract view; the class
      [Graph] of GraphInterface is what the code that is generic in the graph
      uses of them.  FilteredGraph: filtered_graph.hpp, a graph with a filter
      of edges, another instance of the class.  EdgeBasedEdge: the data of edge_based_edge.hpp.
    - IndexedData: indexed_data.hpp, strings by number; the class
      [GroupBlock] with [GroupBlockLaws] is the policy for the layout of a
      group, with both policies of the code as instances.  Its client is
      name_table.hpp.

    Contraction (src/contractor) and the search on its result:
    - ContractorSearch: contractor_search.cpp, the bounded witness search.
    - GraphContractor: graph_contractor.cpp, contraction of one node.
    - Contraction: the rest of graph_contractor.cpp, priorities, independent
      sets, the rounds and the outer loop.
    - Hierarchy: what the rounds leave behind, as up- and downward entries.
    - ChSearch: routing_base_ch.hpp and .cpp, the bidirectional search with
      stalling.
    - ContractorAdaptors: graph_contractor_adaptors.hpp, from the edges to the
      contractor's graph and from there to the graph of the queries.
    - Excludable: contracted_edge_container.hpp, contract_excludable_graph.hpp
      and contractor.cpp, one hierarchy for all classes that can be excluded.

    Partition (src/partitioner):
    - EdgeBasedGraphReader: edge_based_graph_reader.hpp, the edges as the
      partitioner and the customizer use them.
    - BisectionGraph, DinicMaxFlow, MinimumCut: bisection_graph_view.cpp and
      dinic_max_flow.cpp, the minimum cut.
    - BisectionToPartition, Partitioner: bisection_to_partition.cpp,
      remove_unconnected.hpp, renumber.hpp and the run of partitioner.cpp.
    - MultiLevelPartition: multi_level_partition.hpp and msb.hpp.
    - MultiLevelGraph: multi_level_graph.hpp.
    - CellStorage: cell_storage.hpp, for_each_range.hpp, cell_metric.hpp.

    Customization (src/customize) and the search on its result:
    - CellCustomizer: cell_customizer.hpp, the searches and the levels.
    - Customization: the proof that the matrices are exact, through the record
      [customizable] that says what the customizer needs of the partition, the
      graph and the storage; [constructed_customizable] derives it from the
      three constructors.
    - Relaxing, RoutingBase: the relaxation step and the ends of routes that
      the searches share (routing_base.hpp and .cpp, phantom_node.hpp).
    - MldSearch, MldLabels, MldOverlay, MldQuery, MldPhantoms, MldBuilt:
      routing_base_mld.hpp on the graph of edge_based_graph.hpp; the search,
      its labels, the overlay of the cells, unpacking, phantom nodes, and the
      structures that the constructors build.
    - Classes: class_data.hpp, profile_properties.hpp and the parts of
      extractor.cpp, extractor_callbacks.cpp, exclude_flag.hpp and
      datafacade_factory.hpp that deal with classes of ways that a request can exclude.
    - Customizer: customizer.cpp, and requests on what it writes.

    Routes with live traffic (src/engine):
    - Doubles, SegmentData: segment_data_container.hpp and [MakePhantomNode] of
      geospatial_query.hpp.
    - RouteAnnotation: the rest of routing_base.hpp, internal_route_result.hpp
      and direct_shortest_path.cpp: from a path to the segments of a route.
    - NextPermutation, Trip, TripInsertion: plugins/trip.cpp with
      trip_brute_force.hpp, trip_farthest_insertion.hpp and
      dist_table_wrapper.hpp: the order of the locations of a trip.
    - Polyline: polyline_compressor.hpp and .cpp, geometries as strings.
    - TrafficProtobuf: traffic_protobuf.hpp down to the bytes, with the
      operations of the vendored protozero it uses.
    - LiveTraffic: live_data_store.hpp, traffic_updater.hpp,
      traffic_aggregator.hpp, api/traffic_api.hpp.

    Server: RequestParser models request_parser.cpp.

    Shared: this file (machine integers, floats, list access, tactics),
    Sorting ([tbb::parallel_sort] as the class [ParallelSort]) and Walks (walks
    over weighted arcs).

    ** How code becomes definitions

    A [w]-bit unsigned integer is a [Z] with [wrap w] where it can overflow, a
    signed one uses [swrap w].  Floating-point numbers are [spec_float]s.  An
    array is a list; [l !z i] and [zset i x l] fail outside of it, so [None]
    stands for undefined behaviour and a theorem that gives [Some] shows that
    there is none.  State is passed explicitly.  A loop without a structural
    argument takes fuel, and [None] is also the result without enough of it:
    the theorems show that the fuel the definitions choose (number of nodes,
    slots or remaining bytes, plus one) is enough.  Code outside of the
    repository (boost heaps, the parallel sort, the shuffled hash tables, the
    clock, the data facade behind the traffic code) is an argument with its
    documented behaviour as a class or a hypothesis, and every such class has
    an executable instance.  Parallel loops run in one order: any order for
    the cells of a level, the order of the nodes elsewhere.

    ** What the theorems show

    - Contraction: shortcuts bypass a contracted node exactly, the nodes of a
      round are independent, and a round keeps every distance between the
      remaining nodes.  The loop over the rounds need not end: priorities that
      differ by less than an epsilon can block each other.
    - Contraction hierarchies from end to end: from input edges through the
      rounds to the query graph, the search returns lightest routes.  Where a
      target lies behind its source on the same road the sum at their node is
      negative: the search then offers the loops at the node, and its answer is
      never negative and no heavier than what it is offered.  With
      excludable classes, and provided that the contractions end in proper
      graphs, the view of a filter has exactly the arcs of the shared
      contraction that it allows and of its own contraction of the core; but
      the shared contraction can lose routes of a filter.
    - Cells from end to end: the customization leaves the exact distances
      inside the cells in the matrices of all levels, and a request that
      excludes classes gets a lightest route over the extractor's edges, on
      inputs without opposite turns of equal weight between nodes of different
      weights, which the loader merges and the search mistakes.  When a
      route is negative the answer is a route that weighs at most what is
      reported, or none.
    - Reading: the tidied edges are the lightest ones, once per direction, and
      writing a graph back and reading it again changes nothing.
    - Classes: names, masks, combinations and facades fit together, with the
      errors that are thrown and the inputs that overrun the arrays.
    - Partition: cuts are minimal, the run from bisections to files keeps cells
      nested, packed cell ids describe the given partition, children and
      query levels are right, the boundary lists are those of the definition,
      and the matrices of different cells do not overlap.
    - Trips: the order returned is one that the request asks for; up to nine
      locations no such order is shorter, because the search meets every
      permutation, and for more locations every one gets a place.
    - Polylines and names: what is written is read again, at the precision of
      the polyline and for both layouts of strings.
    - Containers: the packed vector, the queue, the hash table, the
      permutation and both graphs implement their abstract counterparts, with
      the inputs on which they do not (one-bit filling, the last timestamp).
    - Traffic: encoding and decoding are inverse, decoding is total, reception
      queues exactly the samples of packets in range, aggregation leaves the
      averages of the latest samples per user, the response lists the segments with a vertex
      in the box, and the weight factor is bounded.  A speed that is not a
      number and times in the far future lead out of what is defined.
    - Routes with traffic: phantom nodes lie on their geometry for every ratio,
      a route's segments are those of its roads between the phantom nodes, and the
      weights of segments and of joined legs add up, also with negative
      penalties.  The search itself does not look at the traffic, so that
      its weights and those of the segments can disagree.
    - Server: the request parser accepts exactly a grammar, and the path and
      the headers it stores are those of the request.

    ** Not modelled

    The extractor apart from the classes (Lua, OSM files, geometry), guidance,
    the plugins apart from the trips, services and API responses, alternatives
    and many-to-many searches, the inertial flow that chooses sources and sinks in doubles, the
    shared-memory storage and the command-line tools.  Input and output, logs,
    (de)serialisation and timing are left out of the modelled files as well. *)
From stdpp Require Export base option list numbers gmap strings.
From Stdlib Require Export ZArith Lia.
From Stdlib Require SpecFloat.

#[global] Open Scope Z_scope.
#[global] Set Default Goal Selector "!".

(** ** Machine integers

    An unsigned [w]-bit value is a [Z] in [[0, 2^w)]; arithmetic that can
    leave the range is followed by [wrap w]. *)

Definition wrap (w z : Z) : Z := z mod 2 ^ w.

Definition UINT32_MAX : Z := 2 ^ 32 - 1.
Definition INT32_MAX : Z := 2 ^ 31 - 1.

(** Two's complement reading of the low [w] bits. *)
Definition swrap (w z : Z) : Z := (z + 2 ^ (w - 1)) mod 2 ^ w - 2 ^ (w - 1).

Definition in_word (w z : Z) : Prop := 0 <= z < 2 ^ w.
#[global] Instance in_word_dec w z : Decision (in_word w z).
Proof. unfold in_word. apply _. Defined.

Lemma wrap_in_word w z : 0 <= w -> in_word w (wrap w z).
Proof. intros Hw. apply Z.mod_pos_bound. apply Z.pow_pos_nonneg; lia. Qed.

Lemma wrap_small w z : in_word w z -> wrap w z = z.
Proof. intros H. by apply Z.mod_small. Qed.

Lemma in_word_mono w w' z : 0 <= w <= w' -> in_word w z -> in_word w' z.
Proof.
  intros Hw [H1 H2]. split; [done|].
  apply (Z.lt_le_trans _ _ _ H2). apply Z.pow_le_mono_r; lia.
Qed.

Lemma swrap_small w z : 0 < w -> - 2 ^ (w - 1) <= z < 2 ^ (w - 1) -> swrap w z = z.
Proof.
  intros Hw Hz. unfold swrap.
  assert (2 ^ w = 2 * 2 ^ (w - 1)) as Hp.
  { rewrite <- Z.pow_succ_r by lia. f_equal. lia. }
  rewrite Z.mod_small; lia.
Qed.

(** Sum of two [EdgeWeight]s ([int32]); it wraps where C++ leaves the result undefined. *)
Definition weight_add (a b : Z) : Z := swrap 32 (a + b).

(** ** Single precision *)

Definition float32 : Type := SpecFloat.spec_float.
Definition fadd32 (x y : float32) : float32 := SpecFloat.SFadd 24 128 x y.
Definition flt32 (x y : float32) : bool := SpecFloat.SFltb x y.

(** ** Bits *)

Lemma testbit_in_word w z i : in_word w z -> w <= i -> Z.testbit z i = false.
Proof.
  intros [H0 H1] Hi. destruct (decide (z = 0)) as [->|Hz]; [apply Z.bits_0|].
  assert (0 <= w) by (destruct (decide (0 <= w)); [done|]; rewrite Z.pow_neg_r in H1; lia).
  apply Z.bits_above_log2; [done|].
  apply (Z.lt_le_trans _ w); [|done]. apply Z.log2_lt_pow2; lia.
Qed.

Lemma testbit_wrap w z i :
  0 <= w -> Z.testbit (wrap w z) i = (i <? w) && Z.testbit z i.
Proof.
  intros Hw. unfold wrap.
  destruct (Z.ltb_spec i w); simpl.
  - destruct (decide (i < 0)); [by rewrite !Z.testbit_neg_r by lia|].
    apply Z.mod_pow2_bits_low. lia.
  - apply Z.mod_pow2_bits_high. lia.
Qed.

Lemma testbit_ones w i : 0 <= w -> Z.testbit (2 ^ w - 1) i = (0 <=? i) && (i <? w).
Proof.
  intros Hw. replace (2 ^ w - 1) with (Z.ones w) by (rewrite Z.ones_equiv; lia).
  destruct (decide (i < 0)) as [Hn|Hn].
  { rewrite Z.testbit_neg_r by lia. by replace (0 <=? i) with false by lia. }
  rewrite Z.testbit_ones_nonneg by lia. by replace (0 <=? i) with true by lia.
Qed.

Lemma in_word_bits w z :
  0 <= w -> 0 <= z -> (forall i, w <= i -> Z.testbit z i = false) -> in_word w z.
Proof.
  intros Hw Hz Hb. split; [done|].
  destruct (decide (z = 0)) as [->|Hne]; [apply Z.pow_pos_nonneg; lia|].
  apply Z.log2_lt_pow2; [lia|].
  destruct (decide (Z.log2 z < w)); [done|].
  assert (Z.testbit z (Z.log2 z) = true) by (apply Z.bit_log2; lia).
  rewrite Hb in H; [done|lia].
Qed.

(** ** Arrays indexed by machine integers

    C++ vectors are Rocq lists; [l !z i] is [l[i]], which is [None] out of
    range (undefined behaviour in the source), and [zset i x l] the update,
    which is [None] out of range too. *)

Definition zget {A} (l : list A) (i : Z) : option A :=
  if 0 <=? i then l !! Z.to_nat i else None.

Definition zset {A} (i : Z) (x : A) (l : list A) : option (list A) :=
  if (0 <=? i) && (i <? Z.of_nat (length l)) then Some (<[Z.to_nat i := x]> l) else None.

Definition zlen {A} (l : list A) : Z := Z.of_nat (length l).

Declare Scope osrm_scope.
Delimit Scope osrm_scope with osrm.
Notation "l !z i" := (zget l i) (at level 20) : osrm_scope.
#[global] Open Scope osrm_scope.

Section arrays.
Context {A : Type}.
Implicit Types (l : list A) (x y : A) (i j : Z).

Lemma zlen_nonneg l : 0 <= zlen l.
Proof. unfold zlen. lia. Qed.

Lemma zget_nat l (n : nat) : l !z Z.of_nat n = l !! n.
Proof. unfold zget. rewrite Nat2Z.id. by destruct (Z.leb_spec 0 (Z.of_nat n)); [|lia]. Qed.

Lemma zget_some l i x : l !z i = Some x -> 0 <= i < zlen l.
Proof.
  unfold zget, zlen. destruct (Z.leb_spec 0 i); [|done].
  intros H1%lookup_lt_Some. lia.
Qed.

Lemma zget_is_some l i : 0 <= i < zlen l -> exists x, l !z i = Some x.
Proof.
  unfold zget, zlen. intros H. destruct (Z.leb_spec 0 i); [|lia].
  destruct (lookup_lt_is_Some_2 l (Z.to_nat i)) as [x Hx]; [lia|]. by exists x.
Qed.

Lemma zget_none l i : ~ (0 <= i < zlen l) -> l !z i = None.
Proof.
  unfold zget, zlen. intros H. destruct (Z.leb_spec 0 i); [|done].
  apply lookup_ge_None. lia.
Qed.

Lemma zset_some l i x : 0 <= i < zlen l -> exists l', zset i x l = Some l'.
Proof.
  unfold zset, zlen. intros H.
  replace ((0 <=? i) && (i <? Z.of_nat (length l))) with true by lia. eauto.
Qed.

Lemma zset_inv l l' i x :
  zset i x l = Some l' -> 0 <= i < zlen l /\ l' = <[Z.to_nat i := x]> l.
Proof.
  unfold zset, zlen.
  destruct ((0 <=? i) && (i <? Z.of_nat (length l))) eqn:E; [|done].
  intros [= <-]. split; [lia|done].
Qed.

Lemma zset_none l i x : ~ (0 <= i < zlen l) -> zset i x l = None.
Proof.
  unfold zset, zlen. intros H.
  by replace ((0 <=? i) && (i <? Z.of_nat (length l))) with false by lia.
Qed.

Lemma zset_len l l' i x : zset i x l = Some l' -> zlen l' = zlen l.
Proof. intros [_ ->]%zset_inv. unfold zlen. by rewrite length_insert. Qed.

Lemma zset_get l l' i j x :
  zset i x l = Some l' -> l' !z j = if decide (i = j) then Some x else l !z j.
Proof.
  intros [Hi ->]%zset_inv. unfold zlen in Hi. unfold zget.
  destruct (Z.leb_spec 0 j).
  - case_decide as E.
    + subst. apply list_lookup_insert_eq. lia.
    + apply list_lookup_insert_ne. lia.
  - case_decide; [lia|done].
Qed.

Lemma zset_get_eq l l' i x : zset i x l = Some l' -> l' !z i = Some x.
Proof. intros H. rewrite (zset_get _ _ _ _ _ H). by rewrite decide_True. Qed.

Lemma zset_get_ne l l' i j x : zset i x l = Some l' -> i <> j -> l' !z j = l !z j.
Proof. intros H Hne. rewrite (zset_get _ _ _ _ _ H). by rewrite decide_False. Qed.

Lemma zget_app_l l k i : i < zlen l -> (l ++ k) !z i = l !z i.
Proof.
  unfold zget, zlen. intros H. destruct (Z.leb_spec 0 i); [|done].
  apply lookup_app_l. lia.
Qed.

Lemma zget_app_r l k i : zlen l <= i -> (l ++ k) !z i = k !z (i - zlen l).
Proof.
  unfold zget, zlen. intros H.
  destruct (Z.leb_spec 0 i), (Z.leb_spec 0 (i - Z.of_nat (length l))); [|lia|lia|lia].
  rewrite lookup_app_r by lia. f_equal. lia.
Qed.

Lemma zlen_app l k : zlen (l ++ k) = zlen l + zlen k.
Proof. unfold zlen. rewrite length_app. lia. Qed.

Lemma zlen_cons x l : zlen (x :: l) = 1 + zlen l.
Proof. unfold zlen. simpl. lia. Qed.

Lemma zlen_snoc l x : zlen (l ++ [x]) = zlen l + 1.
Proof. unfold zlen. rewrite length_app. simpl. lia. Qed.

Lemma zlen_nil : zlen (@nil A) = 0.
Proof. done. Qed.

Lemma zget_elem l i x : l !z i = Some x -> x ∈ l.
Proof.
  unfold zget. destruct (0 <=? i); [|done]. intros H.
  apply list_elem_of_lookup. eauto.
Qed.

Lemma elem_zget l x : x ∈ l -> exists i, l !z i = Some x.
Proof.
  intros [n Hn]%list_elem_of_lookup. exists (Z.of_nat n). by rewrite zget_nat.
Qed.

Lemma zlist_eq l k :
  zlen l = zlen k -> (forall i, 0 <= i < zlen l -> l !z i = k !z i) -> l = k.
Proof.
  unfold zlen. intros Hlen H. apply list_eq. intros n.
  destruct (decide (n < length l)%nat).
  - rewrite <- !zget_nat. apply H. lia.
  - rewrite !lookup_ge_None_2; [done|lia|lia].
Qed.
End arrays.

#[global] Instance zlen_Permutation_proper {A} : Proper ((≡ₚ) ==> (=)) (@zlen A).
Proof. intros l k H. unfold zlen. by rewrite H. Qed.

Lemma zget_cons_0 {A} (x : A) l : (x :: l) !z 0 = Some x.
Proof. done. Qed.

Lemma zget_cons_S {A} (x : A) l i : 0 < i -> (x :: l) !z i = l !z (i - 1).
Proof.
  intros Hi. unfold zget. destruct (Z.leb_spec 0 i), (Z.leb_spec 0 (i - 1)); try lia.
  by replace (Z.to_nat i) with (S (Z.to_nat (i - 1))) by lia.
Qed.

Lemma zget_cons_inv {A} (x : A) l i y :
  (x :: l) !z i = Some y -> (i = 0 /\ y = x) \/ (0 < i /\ l !z (i - 1) = Some y).
Proof.
  intros H. pose proof (zget_some _ _ _ H). destruct (decide (i = 0)) as [->|Hi].
  - left. by rewrite zget_cons_0 in H; simplify_eq.
  - right. rewrite zget_cons_S in H by lia. split; [lia|done].
Qed.

Create HintDb osrm.
#[export] Hint Resolve zlen_nonneg wrap_in_word wrap_small zset_get_eq zget_some : osrm.

(** ** Slices

    [zslice l first n] is the range [[first, first + n)] of a vector. *)

Definition zslice {A} (l : list A) (first n : Z) : list A :=
  take (Z.to_nat n) (drop (Z.to_nat first) l).

Section slices.
Context {A : Type}.
Implicit Types (l : list A).

Lemma zslice_len l a n : 0 <= a -> 0 <= n -> a + n <= zlen l -> zlen (zslice l a n) = n.
Proof. unfold zslice, zlen. intros. rewrite length_take, length_drop. lia. Qed.

Lemma zslice_get l a n k : 0 <= a -> 0 <= k < n -> zslice l a n !z k = l !z (a + k).
Proof.
  intros Ha Hk. unfold zslice, zget.
  destruct (Z.leb_spec 0 k), (Z.leb_spec 0 (a + k)); try lia.
  rewrite lookup_take_lt, lookup_drop by lia. f_equal. lia.
Qed.

Lemma zslice_ext l l' a n :
  0 <= a -> 0 <= n -> a + n <= zlen l -> a + n <= zlen l' ->
  (forall i, a <= i < a + n -> l' !z i = l !z i) -> zslice l' a n = zslice l a n.
Proof.
  intros Ha Hn H1 H2 H. apply zlist_eq; [by rewrite !zslice_len|].
  rewrite zslice_len by done. intros k Hk. rewrite !zslice_get by lia. apply H. lia.
Qed.

Lemma zslice_shift l l' a a' n :
  0 <= a -> 0 <= a' -> 0 <= n -> a + n <= zlen l -> a' + n <= zlen l' ->
  (forall k, 0 <= k < n -> l' !z (a' + k) = l !z (a + k)) -> zslice l' a' n = zslice l a n.
Proof.
  intros Ha Ha' Hn H1 H2 H. apply zlist_eq; [by rewrite !zslice_len|].
  rewrite zslice_len by done. intros k Hk. rewrite !zslice_get by lia. by apply H.
Qed.

Lemma zslice_snoc l a n x :
  0 <= a -> 0 <= n -> a + n < zlen l -> l !z (a + n) = Some x ->
  zslice l a (n + 1) = zslice l a n ++ [x].
Proof.
  intros Ha Hn Hl Hx. apply zlist_eq.
  - rewrite zlen_snoc, !zslice_len by lia. lia.
  - rewrite zslice_len by lia. intros k Hk. rewrite zslice_get by lia.
    destruct (decide (k < n)).
    + rewrite zget_app_l by (rewrite zslice_len; lia). rewrite zslice_get by lia. done.
    + rewrite zget_app_r by (rewrite zslice_len; lia). rewrite zslice_len by lia.
      assert (k = n) as -> by lia. by rewrite Z.sub_diag, Hx.
Qed.

Lemma zslice_cons l a n x :
  0 <= a -> 0 < n -> a + n <= zlen l -> l !z a = Some x ->
  zslice l a n = x :: zslice l (a + 1) (n - 1).
Proof.
  intros Ha Hn Hl Hx. apply zlist_eq.
  - rewrite zlen_cons, !zslice_len by lia. lia.
  - rewrite zslice_len by lia. intros k Hk. rewrite zslice_get by lia.
    change (x :: ?k) with ([x] ++ k).
    destruct (decide (k = 0)) as [->|Hne].
    + rewrite Z.add_0_r, Hx. done.
    + rewrite zget_app_r by (unfold zlen; simpl; lia). change (zlen [x]) with 1.
      rewrite zslice_get by lia. f_equal. lia.
Qed.

Lemma zslice_nil l a : zslice l a 0 = [].
Proof. done. Qed.

Lemma zset_Permutation l l' i x y :
  l !z i = Some x -> zset i y l = Some l' -> x :: l' ≡ₚ y :: l.
Proof.
  intros Hx [Hi ->]%zset_inv. unfold zget in Hx. destruct (0 <=? i); [|done].
  revert Hx. generalize (Z.to_nat i). clear Hi. induction l as [|a l IH]; intros [|n] Hx;
    simpl in *; simplify_eq; [constructor|].
  rewrite Permutation_swap, (IH n) by done. constructor.
Qed.

(** Replacing the element at [i] of a slice by the one just past its end. *)
Lemma zslice_overwrite l l' a n i x y :
  0 <= a -> 0 <= n -> a + n < zlen l -> zlen l' = zlen l -> a <= i <= a + n ->
  l !z i = Some x -> l !z (a + n) = Some y -> (i < a + n -> l' !z i = Some y) ->
  (forall j, a <= j < a + n -> j <> i -> l' !z j = l !z j) ->
  x :: zslice l' a n ≡ₚ y :: zslice l a n.
Proof.
  intros Ha Hn Hl Hl' Hi Hx Hy Hiy Hrest. destruct (decide (i = a + n)) as [->|Hne].
  - assert (x = y) as -> by congruence. rewrite (zslice_ext l l'); [done|lia|lia|lia|lia|].
    intros j Hj. apply Hrest; lia.
  - destruct (zset_some (zslice l a n) (i - a) y) as [k Hk]; [rewrite zslice_len; lia|].
    assert (zslice l' a n = k) as ->.
    { apply zlist_eq; [rewrite (zset_len _ _ _ _ Hk), !zslice_len; lia|].
      rewrite zslice_len by lia. intros j Hj. rewrite (zset_get _ _ _ _ _ Hk).
      rewrite !zslice_get by lia. case_decide as E.
      - subst j. replace (a + (i - a)) with i by lia. apply Hiy. lia.
      - apply Hrest; lia. }
    eapply zset_Permutation; [|done]. rewrite zslice_get by lia.
    by replace (a + (i - a)) with i by lia.
Qed.

Lemma zslice_elem l a n x :
  0 <= a -> x ∈ zslice l a n -> exists i, a <= i < a + n /\ l !z i = Some x.
Proof.
  intros Ha [k Hk]%elem_zget. pose proof (zget_some _ _ _ Hk) as Hr.
  assert (k < n) as Hkn.
  { unfold zslice, zlen in Hr. rewrite length_take in Hr. lia. }
  rewrite zslice_get in Hk by lia. exists (a + k). split; [lia|done].
Qed.

End slices.

Lemma zget_fmap {A B} (f : A -> B) (l : list A) i : (f <$> l) !z i = f <$> (l !z i).
Proof. unfold zget. destruct (0 <=? i); [apply list_lookup_fmap|done]. Qed.

(** Slices of slices and of concatenations. *)
Lemma zslice_zslice {A} (l : list A) a n s k : 0 <= a -> 0 <= s -> 0 <= k -> s + k <= n -> zslice (zslice l a n) s k = zslice l (a + s) k.
Proof.
  intros Ha Hs Hk Hn. unfold zslice. rewrite skipn_firstn_comm, drop_drop, firstn_firstn. f_equal; [lia|]. f_equal. lia.
Qed.

Lemma zslice_app_r {A} (front l : list A) s k : 0 <= s -> zslice (front ++ l) (zlen front + s) k = zslice l s k.
Proof. intros Hs. unfold zslice, zlen. rewrite Z2Nat.inj_add, Nat2Z.id, drop_app_add by lia. done. Qed.

Lemma zslice_app_l {A} (l back : list A) s k : 0 <= s -> 0 <= k -> s + k <= zlen l -> zslice (l ++ back) s k = zslice l s k.
Proof. intros Hs Hk Hl. unfold zslice, zlen in *. rewrite drop_app_le, take_app_le; [done|rewrite length_drop; lia|lia]. Qed.

Lemma zslice_at {A} (v : list A) p ps k : zslice v p (zlen ps) = ps -> 0 <= p -> 0 <= k < zlen ps -> v !z (p + k) = ps !z k.
Proof. intros Hs Hp Hk. transitivity (zslice v p (zlen ps) !z k); [by rewrite zslice_get|by rewrite Hs]. Qed.

(** ** Filters *)

Lemma filter_all {A} (P : A -> Prop) `{!forall x, Decision (P x)} (l : list A) :
  (forall x, x ∈ l -> P x) -> filter P l = l.
Proof.
  induction l as [|a l IH]; intros Hl; [done|].
  rewrite filter_cons_True by (apply Hl; by left). f_equal. apply IH. intros x Hx. apply Hl. by right.
Qed.

Lemma filter_none {A} (P : A -> Prop) `{!forall x, Decision (P x)} (l : list A) :
  (forall x, x ∈ l -> ~ P x) -> filter P l = [].
Proof.
  induction l as [|a l IH]; intros Hl; [done|].
  rewrite filter_cons_False by (apply Hl; by left). apply IH. intros x Hx. apply Hl. by right.
Qed.

(** Fewer elements pass the stricter filter. *)
Lemma filter_fewer {A} (P Q : A -> Prop) `{!forall x, Decision (P x)} `{!forall x, Decision (Q x)} (l : list A) x :
  x ∈ l -> P x -> ~ Q x -> (forall y, Q y -> P y) -> (length (filter Q l) < length (filter P l))%nat.
Proof.
  intros Hx HP HQ Himp. assert (forall k : list A, (length (filter Q k) <= length (filter P k))%nat) as Hle.
  { induction k as [|y k IH]; [done|]. rewrite !filter_cons. destruct (decide (Q y)), (decide (P y)); simpl; [lia|naive_solver|lia|lia]. }
  apply list_elem_of_split in Hx as (a & b & ->). rewrite !filter_app, !length_app, filter_cons_False, filter_cons_True by done.
  pose proof (Hle a). pose proof (Hle b). simpl. lia.
Qed.

(** ** Fields of a word *)

(** The [w]-bit field of [p] at bit [o]. *)
Definition field (p o w : Z) : Z := wrap w (Z.shiftr p o).

Lemma testbit_field p o w j :
  0 <= o -> 0 <= w -> 0 <= j -> Z.testbit (field p o w) j = (j <? w) && Z.testbit p (j + o).
Proof. intros Ho Hw Hj. unfold field. by rewrite testbit_wrap, Z.shiftr_spec by lia. Qed.

Lemma bits_inj_nonneg x y : (forall j, 0 <= j -> Z.testbit x j = Z.testbit y j) -> x = y.
Proof.
  intros H. apply Z.bits_inj. intros j. destruct (decide (0 <= j)); [by apply H|].
  by rewrite !Z.testbit_neg_r by lia.
Qed.

(** A field above lower bits. *)
Lemma lor_shiftl r x s : 0 <= s -> 0 <= r < 2 ^ s -> Z.lor r (Z.shiftl x s) = r + x * 2 ^ s.
Proof.
  intros Hs Hr. rewrite <- Z.shiftl_mul_pow2 by done. assert (Z.land r (Z.shiftl x s) = 0) as H0.
  { apply bits_inj_nonneg. intros j Hj. rewrite Z.land_spec, Z.bits_0, Z.shiftl_spec by done. destruct (Z.lt_ge_cases j s) as [H|H].
    - by rewrite (Z.testbit_neg_r x) by lia; rewrite andb_false_r.
    - by rewrite (testbit_in_word s r j) by (done || lia). }
  by rewrite Z.add_nocarry_lxor, Z.lxor_lor.
Qed.

Lemma field_ext p q o w :
  0 <= o -> 0 <= w -> (forall j, o <= j < o + w -> Z.testbit p j = Z.testbit q j) ->
  field p o w = field q o w.
Proof.
  intros Ho Hw H. apply bits_inj_nonneg. intros j Hj. rewrite !testbit_field by lia.
  destruct (Z.ltb_spec j w); simpl; [|done]. apply H. lia.
Qed.

(** Remove the [option] plumbing of a model run that is known to succeed. *)
Ltac inv_opt :=
  repeat match goal with
    | H : Some _ = Some _ |- _ => injection H as H; subst
    | H : None = Some _ |- _ => discriminate H
    | H : Some _ = None |- _ => discriminate H
    | H : mbind _ ?m = Some _ |- _ =>
        apply bind_Some in H; let x := fresh "r" in let E := fresh "Hr" in
        destruct H as (x & E & H)
    | H : mret _ = Some _ |- _ => cbn in H
    end.

(** Evaluate a successful step of the option monad in the goal. *)
Ltac step_opt H := rewrite H; cbn [mbind option_bind].

(** Case analysis on the boolean comparisons of the goal. *)
Ltac split_bool :=
  repeat match goal with
    | |- context [?a <? ?b] => destruct (Z.ltb_spec a b); simpl
    | |- context [?a <=? ?b] => destruct (Z.leb_spec a b); simpl
    | |- context [?a =? ?b] => destruct (Z.eqb_spec a b); simpl
    end.

(** The bytes of a string constant. *)
Definition str (s : string) : list Z := (fun a => Z.of_nat (Ascii.nat_of_ascii a)) <$> String.list_ascii_of_string s.

(** ** Sums *)

Definition zsum {A} (f : A -> Z) (l : list A) : Z := foldr (fun x a => f x + a) 0 l.

#[global] Instance zsum_Permutation {A} (f : A -> Z) : Proper ((≡ₚ) ==> (=)) (zsum f).
Proof. intros l k H. induction H; simpl; lia. Qed.

Lemma zsum_app {A} (f : A -> Z) l k : zsum f (l ++ k) = zsum f l + zsum f k.
Proof. induction l as [|x l IH]; simpl; lia. Qed.

Lemma zsum_nonneg {A} (f : A -> Z) l : (forall x, x ∈ l -> 0 <= f x) -> 0 <= zsum f l.
Proof.
  induction l as [|x l IH]; intros H; simpl; [done|]. specialize (IH (fun y Hy => H y (list_elem_of_further _ _ _ Hy))).
  specialize (H x (list_elem_of_here _ _)). lia.
Qed.

Lemma zsum_ext {A} (f g : A -> Z) l : (forall x, x ∈ l -> f x = g x) -> zsum f l = zsum g l.
Proof.
  induction l as [|x l IH]; intros H; [done|]. change (f x + zsum f l = g x + zsum g l). rewrite IH by set_solver. rewrite (H x) by set_solver. done.
Qed.

(** ** Masks

    What a filter with a bit per element leaves of a list. *)

Fixpoint masked {A} (l : list A) (filter : list bool) : list A :=
  match l, filter with
  | x :: l, b :: filter => if b then x :: masked l filter else masked l filter
  | _, _ => []
  end.

Lemma masked_nil {A} (l : list A) : masked l [] = [].
Proof. by destruct l. Qed.

Lemma masked_zip {A} (l : list A) f : masked l f = (filter (fun p => p.2 = true) (zip l f)).*1.
Proof.
  revert f. induction l as [|x l IH]; intros [|b f]; [done..|]. cbn [masked zip_with]. rewrite filter_cons, IH. by destruct b.
Qed.

Lemma masked_elem {A} (l : list A) f x : x ∈ masked l f <-> exists k, l !! k = Some x /\ f !! k = Some true.
Proof.
  rewrite masked_zip, list_elem_of_fmap. split.
  - intros ([y b] & -> & [Hb Hp]%list_elem_of_filter). simpl in Hb. subst b. apply list_elem_of_lookup in Hp as [k Hk].
    apply lookup_zip_with_Some in Hk as (y' & b' & [= <- <-] & H1 & H2). by exists k.
  - intros (k & H1 & H2). exists (x, true). split; [done|]. apply list_elem_of_filter. split; [done|].
    apply list_elem_of_lookup. exists k. apply lookup_zip_with_Some. by exists x, true.
Qed.

Lemma masked_Permutation {A} (l l' : list A) f f' : zip l f ≡ₚ zip l' f' -> masked l f ≡ₚ masked l' f'.
Proof. intros H. by rewrite !masked_zip, H. Qed.

Lemma masked_app {A} (l l' : list A) f f' : length l = length f -> masked (l ++ l') (f ++ f') = masked l f ++ masked l' f'.
Proof.
  revert f. induction l as [|x l IH]; intros [|b f]; try done. intros [= Hl]. simpl. rewrite IH by done. by destruct b.
Qed.

Lemma masked_all {A} (l : list A) b n : (length l <= n)%nat -> masked l (replicate n b) = if b then l else [].
Proof.
  revert n. induction l as [|x l IH]; intros [|n] Hn; simpl in *; [by destruct b|by destruct b|lia|]. rewrite IH by lia. by destruct b.
Qed.
