(* ===== verification/Sorting.v ===== *)
(** * Sorting with the routine of the thread library

    The sources sort with [tbb::parallel_sort], which is not stable and not
    part of the repository: it is an argument of the definitions that use it,
    with the documented contract as a class.  The merge sort of stdpp is an
    instance. *)
From stdpp Require Import sorting.
From S2P Require Import Prelude.

(** What [tbb::parallel_sort] and [std::sort] ask of a comparison. *)
Record strict_weak {A} (lt : A -> A -> bool) : Prop := {
  sw_asym x y : lt x y = true -> lt y x = false;
  sw_split x y z : lt x y = true -> lt x z = true \/ lt z y = true
}.

(** No element is smaller than one before it. *)
Definition ordered {A} (lt : A -> A -> bool) : list A -> Prop :=
  StronglySorted (fun x y => lt y x = false).

Definition sort_function : Type := forall A : Type, (A -> A -> bool) -> list A -> list A.

Class ParallelSort (parallel_sort : sort_function) : Prop := {
  parallel_sort_Permutation {A} (lt : A -> A -> bool) (l : list A) : parallel_sort A lt l ≡ₚ l;
  parallel_sort_ordered {A} (lt : A -> A -> bool) (l : list A) :
    strict_weak lt -> ordered lt (parallel_sort A lt l)
}.

(** ** An instance *)

Definition not_after {A} (lt : A -> A -> bool) (x y : A) : Prop := lt y x = false.

#[export] Instance not_after_dec {A} (lt : A -> A -> bool) x y : Decision (not_after lt x y).
Proof. unfold not_after. apply _. Defined.

Definition sequential_sort : sort_function := fun A lt l => merge_sort (not_after lt) l.

#[export] Instance sequential_sort_ok : ParallelSort sequential_sort.
Proof.
  split.
  - intros A lt l. apply merge_sort_Permutation.
  - intros A lt l [Ha Hs].
    assert (Transitive (not_after lt)).
    { unfold not_after. intros x y z H1 H2. destruct (lt z x) eqn:E; [|done]. destruct (Hs _ _ y E); congruence. }
    assert (Total (not_after lt)).
    { unfold not_after. intros x y. destruct (lt y x) eqn:E; [right; by apply Ha|by left]. }
    exact (StronglySorted_merge_sort (not_after lt) l).
Qed.

(** ** Comparison by keys *)

(** [std::tie] on three integers. *)
Definition lex3 (x y : Z * Z * Z) : bool :=
  let '(a, b, c) := x in
  let '(a', b', c') := y in
  (a <? a') || ((a =? a') && ((b <? b') || ((b =? b') && (c <? c')))).

(** [std::pair]'s [operator<]. *)
Definition lex2 (x y : Z * Z) : bool :=
  let '(a, b) := x in
  let '(a', b') := y in
  (a <? a') || ((a =? a') && (b <? b')).

(** [std::tie] on four integers. *)
Definition lex4 (x y : Z * Z * Z * Z) : bool :=
  let '(a, b, c, d) := x in
  let '(a', b', c', d') := y in
  (a <? a') || ((a =? a') && ((b <? b') || ((b =? b') && ((c <? c') || ((c =? c') && (d <? d')))))).

Lemma lex3_strict_weak {A} (key : A -> Z * Z * Z) : strict_weak (fun x y => lex3 (key x) (key y)).
Proof.
  split.
  - intros x y. destruct (key x) as [[a b] c], (key y) as [[a' b'] c']. simpl. lia.
  - intros x y z. destruct (key x) as [[a b] c], (key y) as [[a' b'] c'], (key z) as [[a'' b''] c'']. simpl.
    split_bool; lia.
Qed.

Lemma lex2_strict_weak : strict_weak lex2.
Proof.
  split.
  - intros [a b] [a' b']. simpl. lia.
  - intros [a b] [a' b'] [a'' b'']. simpl. split_bool; lia.
Qed.

#[export] Hint Resolve lex2_strict_weak : osrm.

(** On distinct pairs the order leaves one result. *)
Lemma ordered_lex2_unique l k : NoDup l -> l ≡ₚ k -> ordered lex2 l -> ordered lex2 k -> l = k.
Proof.
  intros Hnd Hp Hl Hk. apply (StronglySorted_unique_strong (not_after lex2)); [|done..].
  intros [a b] [a' b'] _ _. unfold not_after. simpl. intros H1 H2. f_equal; lia.
Qed.

Lemma StronglySorted_impl_in {A} (R S : A -> A -> Prop) l :
  (forall x y, x ∈ l -> y ∈ l -> R x y -> S x y) -> StronglySorted R l -> StronglySorted S l.
Proof.
  intros HRS Hl. induction Hl as [|x l Hl IH Hx]; constructor.
  - apply IH. intros y z Hy Hz. apply HRS; by right.
  - rewrite Forall_forall in Hx |- *. intros y Hy. apply HRS; [by left|by right|by apply Hx].
Qed.

Lemma StronglySorted_filter {A} (R : A -> A -> Prop) (P : A -> Prop) `{!forall x, Decision (P x)} l :
  StronglySorted R l -> StronglySorted R (filter P l).
Proof.
  induction 1 as [|x l Hl IH Hx]; [constructor|]. rewrite filter_cons. case_decide; [|done].
  constructor; [done|]. rewrite Forall_forall in Hx |- *. intros y [_ Hy]%list_elem_of_filter. by apply Hx.
Qed.

Lemma seqZ_sorted a m : StronglySorted Z.lt (seqZ a m).
Proof.
  destruct (decide (0 <= m)) as [Hm|Hm]; [|rewrite seqZ_nil by lia; constructor].
  revert a. pattern m. apply Zlt_0_ind; [|done]. clear m Hm. intros m IH Hm a.
  destruct (decide (m = 0)) as [->|Hne]; [constructor|]. rewrite seqZ_cons by lia. constructor; [apply IH; lia|].
  apply Forall_forall. intros x Hx%elem_of_seqZ. lia.
Qed.

Lemma filter_bool {A} (b : A -> bool) x (l : list A) :
  filter (fun x => b x = true) (x :: l) = if b x then x :: filter (fun x => b x = true) l else filter (fun x => b x = true) l.
Proof. rewrite filter_cons. by destruct (b x); case_decide. Qed.

(** ** Comparison of sequences *)

(** The lexicographic ordering of sequences of the same length, as [std::tie] compares. *)
Fixpoint lexb (l k : list Z) : bool :=
  match l, k with
  | x :: l', y :: k' => (x <? y) || ((x =? y) && lexb l' k')
  | _, _ => false
  end.

Lemma lexb_cons x y l k : lexb (x :: l) (y :: k) = true <-> x < y \/ (x = y /\ lexb l k = true).
Proof. simpl. rewrite orb_true_iff, andb_true_iff, Z.ltb_lt, Z.eqb_eq. done. Qed.

Lemma lexb_irrefl l : lexb l l = false.
Proof. induction l as [|x l IH]; [done|]. simpl. rewrite IH, Z.ltb_irrefl. by destruct (x =? x). Qed.

Lemma lexb_trans l k m : lexb l k = true -> lexb k m = true -> lexb l m = true.
Proof.
  revert k m. induction l as [|x l IH]; intros [|y k] [|z m]; [done..|]. rewrite !lexb_cons.
  intros [?|[-> ?]] [?|[-> ?]]; [left; lia|by left|by left|right; split; [done|by eapply IH]].
Qed.

Lemma lexb_total l k : length l = length k -> lexb l k = false -> l = k \/ lexb k l = true.
Proof.
  revert k. induction l as [|x l IH]; intros [|y k]; [by left|done|done|]. intros [= Hlen] Hl.
  destruct (Z.lt_trichotomy x y) as [H|[->|H]].
  - assert (lexb (x :: l) (y :: k) = true) by (apply lexb_cons; by left). congruence.
  - destruct (lexb l k) eqn:E; [assert (lexb (y :: l) (y :: k) = true) by (apply lexb_cons; by right); congruence|].
    destruct (IH k Hlen E) as [->|H]; [by left|right]. apply lexb_cons. by right.
  - right. apply lexb_cons. by left.
Qed.

Lemma lexb_strict_weak {A} (key : A -> list Z) : (forall x y, length (key x) = length (key y)) -> strict_weak (fun x y => lexb (key x) (key y)).
Proof.
  intros Hk. split.
  - intros x y H. apply not_true_iff_false. intros H'. pose proof (lexb_trans _ _ _ H H'). by rewrite lexb_irrefl in H0.
  - intros x y z H. destruct (lexb (key x) (key z)) eqn:E; [by left|right]. destruct (lexb_total _ _ (Hk x z) E) as [<-|H']; [done|].
    by eapply lexb_trans.
Qed.
