(* ===== verification/Walks.v ===== *)
(** * Walks in weighted graphs

    Shared by the searches: walks over a relation of weighted arcs. *)
From S2P Require Import Prelude.

Section walks.
Context (E : Z -> Z -> Z -> Prop).

(** [walk s t w]: a walk from [s] to [t] over the weighted edges [E], of total
    weight [w]. *)
Inductive walk : Z -> Z -> Z -> Prop :=
| walk_nil n : walk n n 0
| walk_snoc s u t w w' : walk s u w -> E u t w' -> walk s t (w + w').

Lemma walk_edge u v w : E u v w -> walk u v w.
Proof. intros He. rewrite <- (Z.add_0_l w). econstructor; [constructor|done]. Qed.

Lemma walk_app s u t w w' : walk s u w -> walk u t w' -> walk s t (w + w').
Proof.
  intros H1 H2. induction H2 as [n|s' u' t' a b Hw IH He]; [by rewrite Z.add_0_r|].
  rewrite Z.add_assoc. econstructor; eauto.
Qed.

Lemma walk_first s t p : walk s t p -> (s = t /\ p = 0) \/ exists u w p', E s u w /\ walk u t p' /\ p = w + p'.
Proof.
  induction 1 as [n|s u t p w Hw IH He]; [by left|]. right. destruct IH as [[-> ->]|(x & w' & p' & Hx & Hp & ->)].
  - exists t, w, 0. split_and!; [done|constructor|lia].
  - exists x, w', (p' + w). split; [done|]. split; [by econstructor|lia].
Qed.

Lemma walk_nonneg s t w : (forall u v x, E u v x -> 0 <= x) -> walk s t w -> 0 <= w.
Proof. intros Hp. induction 1 as [|s u t a b _ IH He]; [lia|]. apply Hp in He. lia. Qed.

Lemma walk_positive s t w : (forall u v x, E u v x -> 0 < x) -> walk s t w -> (s = t /\ w = 0) \/ 0 < w.
Proof. intros Hp. induction 1 as [|s u t a b _ IH He]; [by left|]. right. apply Hp in He. lia. Qed.
End walks.

Lemma walk_mono (E E' : Z -> Z -> Z -> Prop) s t w :
  (forall u v x, E u v x -> E' u v x) -> walk E s t w -> walk E' s t w.
Proof. intros HE. induction 1; [constructor|]. econstructor; eauto. Qed.


(** A list of different numbers below [n] has at most [n] elements. *)
Lemma nodup_range_len (L : list Z) n : 0 <= n -> NoDup L -> (forall x, x ∈ L -> 0 <= x < n) -> zlen L <= n.
Proof.
  intros Hn Hnd Hx. assert (list_to_set L ⊆@{gset Z} list_to_set (seqZ 0 n)) as Hs.
  { intros x. rewrite !elem_of_list_to_set, elem_of_seqZ. intros Hx'%Hx. lia. }
  apply subseteq_size in Hs. rewrite !size_list_to_set in Hs by (done || apply NoDup_seqZ). rewrite length_seqZ in Hs.
  unfold zlen. lia.
Qed.

(** ** Walks as lists of nodes *)

(** Neighbours on the list are joined by arcs, which weigh [p] together. *)
Inductive chain (E : Z -> Z -> Z -> Prop) : list Z -> Z -> Prop :=
| chain_one v : chain E [v] 0
| chain_cons u v L w p : E u v w -> chain E (v :: L) p -> chain E (u :: v :: L) (w + p).

Lemma chain_walk E L s t p : chain E L p -> head L = Some s -> last L = Some t -> walk E s t p.
Proof.
  intros Hc. revert s. induction Hc as [v|u v L w p He Hc IH]; intros s; cbn [head last]; [intros [= <-] [= <-]; constructor|].
  intros [= <-] Hl. eapply walk_app; [by apply walk_edge|]. by apply IH.
Qed.

Lemma chain_snoc E L u v w p : chain E (L ++ [u]) p -> E u v w -> chain E (L ++ [u; v]) (p + w).
Proof.
  revert p. induction L as [|a L IH]; intros p Hc He.
  - inversion Hc; subst. simpl. rewrite Z.add_comm. constructor; [done|constructor].
  - destruct L as [|b L]; inversion Hc; subst; simpl in *; rewrite <- Z.add_assoc; (constructor; [done|]); by apply IH.
Qed.

Lemma chain_app E L v L' p p' : chain E (L ++ [v]) p -> chain E (v :: L') p' -> chain E (L ++ v :: L') (p + p').
Proof.
  revert p. induction L as [|a L IH]; intros p Hc Hc'.
  - inversion Hc; subst. by rewrite Z.add_0_l.
  - destruct L as [|b L]; inversion Hc; subst; simpl in *; rewrite <- Z.add_assoc; (constructor; [done|]); by apply IH.
Qed.

Lemma chain_reverse E L p : chain E L p -> chain (fun u v => E v u) (reverse L) p.
Proof.
  induction 1 as [v|u v L w p He Hc IH]; [constructor|]. rewrite reverse_cons in IH.
  rewrite !reverse_cons, <- app_assoc, Z.add_comm. by apply (chain_snoc (fun u v => E v u)).
Qed.

(** ** Walks without repeated nodes *)

Section paths.
Context (E : Z -> Z -> Z -> Prop) (n maxw : Z).
Context (Hrange : forall u v w, E u v w -> 0 <= u < n /\ 0 <= v < n).
Context (Hweight : forall u v w, E u v w -> 0 <= w <= maxw).

(** A path from [s]; the list holds its nodes, last one first. *)
Inductive path (s : Z) : list Z -> Z -> Z -> Prop :=
| path_nil : path s [s] s 0
| path_snoc L u t p w : path s L u p -> E u t w -> t ∉ L -> path s (t :: L) t (p + w).

Lemma path_walk s L t p : path s L t p -> walk E s t p.
Proof. induction 1; [constructor|]. by econstructor. Qed.

Lemma path_prefix s L u p t : path s L u p -> t ∈ L -> exists L' p', path s L' t p'.
Proof.
  induction 1 as [|L u v p w Hp IH He Hn]; intros [->|Ht]%elem_of_cons.
  - by exists [s], 0; constructor.
  - by apply elem_of_nil in Ht.
  - exists (v :: L), (p + w). by econstructor.
  - by apply IH.
Qed.

Lemma walk_path s t p : walk E s t p -> exists L p', path s L t p'.
Proof.
  induction 1 as [n0|s u t p w Hw (L & p' & Hp) He]; [exists [n0], 0; constructor|].
  destruct (decide (t ∈ L)) as [Ht|Ht]; [by eapply path_prefix|]. exists (t :: L), (p' + w). by econstructor.
Qed.

Lemma path_weight s L t p : path s L t p -> NoDup L /\ (L = [s] /\ p = 0 \/
  (0 <= p <= (zlen L - 1) * maxw /\ forall x, x ∈ L -> 0 <= x < n)).
Proof using Hrange Hweight.
  induction 1 as [|L u t p w Hp [Hnd IH] He Hn]; [split; [apply NoDup_singleton|by left]|].
  split; [by apply NoDup_cons|right]. pose proof (Hrange _ _ _ He). pose proof (Hweight _ _ _ He).
  destruct IH as [[-> ->]|[Hw Hx]].
  - split; [unfold zlen; simpl; lia|]. inversion Hp; subst; [|by match goal with H : path _ [] _ _ |- _ => inversion H end].
    intros x [->|[->|Hx]%elem_of_cons]%elem_of_cons; [lia|lia|by apply elem_of_nil in Hx].
  - rewrite zlen_cons. split; [nia|]. intros x [->|Hx']%elem_of_cons; [lia|by apply Hx].
Qed.

(** Where there is a walk, there is a light one. *)
Lemma light_walk s t p : 0 <= n -> 0 <= maxw -> walk E s t p -> exists p', walk E s t p' /\ p' <= n * maxw.
Proof using Hrange Hweight.
  intros Hn Hm Hw. destruct (walk_path _ _ _ Hw) as (L & p' & Hp). exists p'. split; [by eapply path_walk|].
  destruct (path_weight _ _ _ _ Hp) as [Hnd [[_ ->]|[Hle Hx]]]; [nia|].
  assert (zlen L <= n) by (by apply nodup_range_len). nia.
Qed.
End paths.
