(* ===== verification/PackedVector.v ===== *)
(** * Bit-packed vectors

  Model of [util::detail::PackedVector<T, Bits, Ownership>]
  (include/util/packed_vector.hpp): elements of [Bits] bits stored back to
  back in 64-bit words, addressed through per-block tables of masks and
  offsets.  [T] is an unsigned type of [TBits] bits. *)
From S2P Require Import Prelude.

Definition WORD_BITS : Z := 64.
Definition BLOCK_ELEMENTS : Z := WORD_BITS.

Section packed_vector.
Context (Bits TBits : Z).

Definition BLOCK_WORDS : Z := Bits * BLOCK_ELEMENTS / WORD_BITS.

(** ** Word helpers *)

Definition static_cast_T (z : Z) : Z := wrap TBits z.

Definition get_lower_half_value (word mask offset : Z) : Z :=
  static_cast_T (Z.shiftr (Z.land word mask) offset).

Definition get_upper_half_value (word mask offset : Z) : Z :=
  static_cast_T (wrap 64 (Z.shiftl (Z.land word mask) offset)).

Definition set_lower_value (word mask offset value : Z) : Z :=
  Z.lor (Z.land word (Z.lnot mask)) (Z.land (wrap 64 (Z.shiftl value offset)) mask).

Definition set_upper_value (word mask offset value : Z) : Z :=
  Z.lor (Z.land word (Z.lnot mask)) (Z.land (Z.shiftr value offset) mask).

(** ** Per-element tables: a loop over the block with a running [offset] *)

Fixpoint block_loop {A} (n : nat) (offset : Z) (body : Z -> A) : list A :=
  match n with
  | O => []
  | S n => body offset :: block_loop n (offset + Bits) body
  end.

Definition elem_mask : Z := wrap 64 (wrap 64 (Z.shiftl 1 Bits) - 1).

Definition initialize_lower_mask : list Z :=
  block_loop (Z.to_nat BLOCK_ELEMENTS) 0 (fun offset =>
    let local_offset := offset mod WORD_BITS in
    wrap 64 (Z.shiftl elem_mask local_offset)).

Definition initialize_upper_mask : list Z :=
  block_loop (Z.to_nat BLOCK_ELEMENTS) 0 (fun offset =>
    let local_offset := offset mod WORD_BITS in
    if WORD_BITS <? local_offset + Bits
    then Z.shiftr elem_mask (WORD_BITS - local_offset)
    else 0).

Definition initialize_lower_offset : list Z :=
  block_loop (Z.to_nat BLOCK_ELEMENTS) 0 (fun offset => wrap 8 (offset mod WORD_BITS)).

Definition initialize_upper_offset : list Z :=
  block_loop (Z.to_nat BLOCK_ELEMENTS) 0 (fun offset =>
    let local_offset := offset mod WORD_BITS in
    if WORD_BITS <? local_offset + Bits
    then wrap 8 (WORD_BITS - local_offset)
    else wrap 8 Bits).

Definition initialize_word_offset : list Z :=
  block_loop (Z.to_nat BLOCK_ELEMENTS) 0 (fun offset => wrap 8 (offset / WORD_BITS)).

Record PackedVector : Type := mkPackedVector {
  lower_mask : list Z;
  upper_mask : list Z;
  lower_offset : list Z;
  upper_offset : list Z;
  word_offset : list Z;
  vec : list Z;
  num_elements : Z
}.

(** The tables are written once, by [initialize]; everything else touches
    only [vec] and [num_elements]. *)
Definition initialize (vec : list Z) (num_elements : Z) : PackedVector :=
  mkPackedVector initialize_lower_mask initialize_upper_mask initialize_lower_offset
    initialize_upper_offset initialize_word_offset vec num_elements.

Definition with_vec (pv : PackedVector) (v : list Z) : PackedVector :=
  mkPackedVector (lower_mask pv) (upper_mask pv) (lower_offset pv) (upper_offset pv)
    (word_offset pv) v (num_elements pv).

Definition with_num_elements (pv : PackedVector) (n : Z) : PackedVector :=
  mkPackedVector (lower_mask pv) (upper_mask pv) (lower_offset pv) (upper_offset pv)
    (word_offset pv) (vec pv) n.

Record InternalIndex : Type := mkInternalIndex { lower_word : Z; element : Z }.

Definition get_internal_index (pv : PackedVector) (index : Z) : option InternalIndex :=
  let block_offset := BLOCK_WORDS * (index / BLOCK_ELEMENTS) in
  let element_index := index mod BLOCK_ELEMENTS in
  wo ← word_offset pv !z element_index;
  Some (mkInternalIndex (block_offset + wo) element_index).

Definition get_value (pv : PackedVector) (ii : InternalIndex) : option Z :=
  lw ← vec pv !z lower_word ii;
  uw ← vec pv !z (lower_word ii + 1);
  lm ← lower_mask pv !z element ii;
  lo ← lower_offset pv !z element ii;
  um ← upper_mask pv !z element ii;
  uo ← upper_offset pv !z element ii;
  Some (Z.lor (get_lower_half_value lw lm lo) (get_upper_half_value uw um uo)).

(** The store of one thread running alone: both compare-and-swap loops
    succeed at their first attempt.  The interleaved store is [cas_step]
    below. *)
Definition set_value (pv : PackedVector) (ii : InternalIndex) (value : Z)
  : option PackedVector :=
  lm ← lower_mask pv !z element ii;
  lo ← lower_offset pv !z element ii;
  um ← upper_mask pv !z element ii;
  uo ← upper_offset pv !z element ii;
  lw ← vec pv !z lower_word ii;
  v1 ← zset (lower_word ii) (set_lower_value lw lm lo value) (vec pv);
  uw ← v1 !z (lower_word ii + 1);
  v2 ← zset (lower_word ii + 1) (set_upper_value uw um uo value) v1;
  Some (with_vec pv v2).

(** ** Container operations *)

Definition peek (pv : PackedVector) (index : Z) : option Z :=
  ii ← get_internal_index pv index; get_value pv ii.

Definition assign (pv : PackedVector) (index value : Z) : option PackedVector :=
  ii ← get_internal_index pv index; set_value pv ii value.

Inductive at_result : Type := AtValue (v : Z) | AtOutOfRange (index num_elements : Z).

Definition at_ (pv : PackedVector) (index : Z) : option at_result :=
  if index <? num_elements pv
  then v ← peek pv index; Some (AtValue v)
  else Some (AtOutOfRange index (num_elements pv)).

Definition allocate_blocks (pv : PackedVector) (num_blocks : Z) : PackedVector :=
  with_vec pv (vec pv ++ replicate (Z.to_nat (num_blocks * BLOCK_WORDS)) 0).

(** [while (lower_word + 1 >= vec.size()) allocate_blocks(1)]; the fuel is
    the number of words missing, and every round adds at least one. *)
Fixpoint push_back_grow (fuel : nat) (lw : Z) (pv : PackedVector) : PackedVector :=
  match fuel with
  | O => pv
  | S fuel =>
      if zlen (vec pv) <=? lw + 1
      then push_back_grow fuel lw (allocate_blocks pv 1)
      else pv
  end.

Definition push_back (pv : PackedVector) (value : Z) : option PackedVector :=
  ii ← get_internal_index pv (num_elements pv);
  let fuel := Z.to_nat (lower_word ii + 2 - zlen (vec pv)) in
  let pv1 := push_back_grow fuel (lower_word ii) pv in
  pv2 ← set_value pv1 ii value;
  Some (with_num_elements pv2 (num_elements pv2 + 1)).

Definition vector_resize (v : list Z) (n : Z) : list Z :=
  take (Z.to_nat n) v ++ replicate (Z.to_nat (n - zlen v)) 0.

Definition resize (pv : PackedVector) (elements : Z) : PackedVector :=
  let num_blocks := (elements + BLOCK_ELEMENTS - 1) / BLOCK_ELEMENTS in
  with_vec (with_num_elements pv elements)
    (vector_resize (vec pv) (num_blocks * BLOCK_WORDS + 1)).

Fixpoint fill_block (n : nat) (element_index block_offset value : Z) (pv : PackedVector)
  : option PackedVector :=
  match n with
  | O => Some pv
  | S n =>
      wo ← word_offset pv !z element_index;
      pv' ← set_value pv (mkInternalIndex (block_offset + wo) element_index) value;
      fill_block n (element_index + 1) block_offset value pv'
  end.

Fixpoint fill_blocks (n : nat) (block_index value : Z) (pv : PackedVector)
  : option PackedVector :=
  match n with
  | O => Some pv
  | S n =>
      pv' ← fill_block (Z.to_nat BLOCK_ELEMENTS) 0 (block_index * BLOCK_WORDS) value pv;
      fill_blocks n (block_index + 1) value pv'
  end.

Definition fill (pv : PackedVector) (value : Z) : option PackedVector :=
  fill_blocks (Z.to_nat (zlen (vec pv) / BLOCK_WORDS)) 0 value pv.

Definition PackedVector_default : PackedVector := initialize [] 0.
Definition PackedVector_size (size : Z) : PackedVector := resize (initialize [] 0) size.
Definition PackedVector_fill (size initial_value : Z) : option PackedVector :=
  fill (resize (initialize [] 0) size) initial_value.

Fixpoint push_back_all (pv : PackedVector) (l : list Z) : option PackedVector :=
  match l with
  | [] => Some pv
  | value :: l => pv' ← push_back pv value; push_back_all pv' l
  end.
Definition PackedVector_list (l : list Z) : option PackedVector :=
  push_back_all (initialize [] 0) l.

(** ** The lock-free store

    [set_value] as it runs beside other threads: each loop reads the word,
    computes the new word from what it read and swaps it in only if the word
    still holds what was read.  Every read and every [compare_and_swap] is
    one atomic step of the shared vector. *)

Definition compare_and_swap (v : list Z) (ptr old_value new_value : Z)
  : option (bool * list Z) :=
  cur ← v !z ptr;
  if cur =? old_value
  then v' ← zset ptr new_value v; Some (true, v')
  else Some (false, v).

Inductive cas_pc : Type :=
| ReadLower
| SwapLower (local_lower_word : Z)
| ReadUpper
| SwapUpper (local_upper_word : Z)
| StoreDone.

Record cas_thread : Type := mkCasThread {
  ct_index : InternalIndex;
  ct_value : Z;
  ct_pc : cas_pc
}.

Definition with_pc (t : cas_thread) (pc : cas_pc) : cas_thread :=
  mkCasThread (ct_index t) (ct_value t) pc.

Definition cas_thread_step (pv : PackedVector) (t : cas_thread)
  : option (PackedVector * cas_thread) :=
  let ii := ct_index t in
  match ct_pc t with
  | ReadLower =>
      lw ← vec pv !z lower_word ii;
      Some (pv, with_pc t (SwapLower lw))
  | SwapLower local =>
      lm ← lower_mask pv !z element ii;
      lo ← lower_offset pv !z element ii;
      '(ok, v) ← compare_and_swap (vec pv) (lower_word ii) local
                   (set_lower_value local lm lo (ct_value t));
      Some (with_vec pv v, with_pc t (if (ok : bool) then ReadUpper else ReadLower))
  | ReadUpper =>
      uw ← vec pv !z (lower_word ii + 1);
      Some (pv, with_pc t (SwapUpper uw))
  | SwapUpper local =>
      um ← upper_mask pv !z element ii;
      uo ← upper_offset pv !z element ii;
      '(ok, v) ← compare_and_swap (vec pv) (lower_word ii + 1) local
                   (set_upper_value local um uo (ct_value t));
      Some (with_vec pv v, with_pc t (if (ok : bool) then StoreDone else ReadUpper))
  | StoreDone => None
  end.

(** Any thread may take the next step. *)
Inductive cas_step : PackedVector * list cas_thread -> PackedVector * list cas_thread -> Prop :=
| cas_step_thread n pv pv' ts t t' :
    ts !! n = Some t ->
    cas_thread_step pv t = Some (pv', t') ->
    cas_step (pv, ts) (pv', <[n := t']> ts).

(** The run under a given schedule (thread numbers in the order they move). *)
Fixpoint cas_run (schedule : list nat) (st : PackedVector * list cas_thread)
  : option (PackedVector * list cas_thread) :=
  match schedule with
  | [] => Some st
  | n :: schedule =>
      t ← st.2 !! n;
      '(pv', t') ← cas_thread_step st.1 t;
      cas_run schedule (pv', <[n := t']> st.2)
  end.

End packed_vector.

Arguments mkInternalIndex _ _ : assert.

(** ** The bit view

    Seen as one long bit string, element [i] occupies the bits
    [[i * Bits, (i + 1) * Bits)]; word and block boundaries disappear. *)

Definition vbit (v : list Z) (k : Z) : bool :=
  match v !z (k / 64) with Some w => Z.testbit w (k mod 64) | None => false end.

Definition words_ok (v : list Z) : Prop := Forall (in_word 64) v.

Definition tables_ok (Bits : Z) (pv : PackedVector) : Prop :=
  lower_mask pv = initialize_lower_mask Bits /\
  upper_mask pv = initialize_upper_mask Bits /\
  lower_offset pv = initialize_lower_offset Bits /\
  upper_offset pv = initialize_upper_offset Bits /\
  word_offset pv = initialize_word_offset Bits.

(** Word index and bit offset of element [i]. *)
Definition elem_word (Bits i : Z) : Z := i * Bits / 64.
Definition elem_off (Bits i : Z) : Z := i * Bits mod 64.

Section tables.
Context (Bits : Z) (HB : 0 < Bits < 64).

Lemma block_loop_get {A} n off (body : Z -> A) e :
  0 <= e < Z.of_nat n ->
  block_loop Bits n off body !z e = Some (body (off + e * Bits)).
Proof.
  revert off e. induction n as [|n IH]; intros off e He; [lia|].
  simpl. unfold zget. destruct (Z.leb_spec 0 e) as [_|]; [|lia].
  destruct (decide (e = 0)) as [->|Hne].
  - simpl. by rewrite Z.add_0_r.
  - replace (Z.to_nat e) with (S (Z.to_nat (e - 1))) by lia. simpl.
    specialize (IH (off + Bits) (e - 1)). unfold zget in IH.
    destruct (Z.leb_spec 0 (e - 1)); [|lia].
    rewrite IH by lia. do 2 f_equal. lia.
Qed.

Lemma BLOCK_WORDS_eq : BLOCK_WORDS Bits = Bits.
Proof. unfold BLOCK_WORDS, BLOCK_ELEMENTS, WORD_BITS. by rewrite Z.div_mul. Qed.

Lemma elem_mask_eq : elem_mask Bits = 2 ^ Bits - 1.
Proof.
  assert (0 < 2 ^ Bits) by (apply Z.pow_pos_nonneg; lia).
  assert (2 ^ Bits < 2 ^ 64) by (apply Z.pow_lt_mono_r; lia).
  unfold elem_mask. rewrite Z.shiftl_1_l.
  rewrite !wrap_small; [done| unfold in_word; lia |].
  rewrite wrap_small; unfold in_word; lia.
Qed.

Lemma block_off e : 0 <= e < 64 -> 0 <= e * Bits < 64 * 64.
Proof. nia. Qed.

Lemma lower_mask_get e :
  0 <= e < 64 ->
  exists m, initialize_lower_mask Bits !z e = Some m /\
    forall i, Z.testbit m i = (elem_off Bits e <=? i) && (i <? 64)
                              && (i - elem_off Bits e <? Bits).
Proof.
  intros He. eexists. split; [by apply block_loop_get|].
  intros i. cbn zeta. rewrite Z.add_0_l, elem_mask_eq. fold (elem_off Bits e).
  assert (0 <= elem_off Bits e < 64) by (apply Z.mod_pos_bound; lia).
  rewrite testbit_wrap by lia.
  destruct (decide (i < 0)).
  { rewrite Z.testbit_neg_r by lia. destruct (Z.leb_spec (elem_off Bits e) i); [lia|].
    by rewrite andb_false_r. }
  rewrite Z.shiftl_spec by lia. unfold WORD_BITS. fold (elem_off Bits e).
  rewrite testbit_ones by lia. split_bool; first [done|lia].
Qed.

Lemma upper_mask_get e :
  0 <= e < 64 ->
  exists m, initialize_upper_mask Bits !z e = Some m /\ in_word 64 m /\
    forall i, Z.testbit m i = (0 <=? i) && (i <? elem_off Bits e + Bits - 64).
Proof.
  intros He. eexists. split; [by apply block_loop_get|].
  cbn zeta. rewrite Z.add_0_l, elem_mask_eq. unfold WORD_BITS. fold (elem_off Bits e).
  assert (0 <= elem_off Bits e < 64) by (apply Z.mod_pos_bound; lia).
  assert (0 < 2 ^ Bits < 2 ^ 64).
  { split; [apply Z.pow_pos_nonneg; lia|apply Z.pow_lt_mono_r; lia]. }
  destruct (Z.ltb_spec 64 (elem_off Bits e + Bits)).
  - split.
    + rewrite Z.shiftr_div_pow2 by lia. unfold in_word.
      assert (0 < 2 ^ (64 - elem_off Bits e)) by (apply Z.pow_pos_nonneg; lia).
      split; [apply Z.div_pos; lia|]. apply Z.div_lt_upper_bound; [lia|].
      apply (Z.lt_le_trans _ (1 * 2 ^ 64)); [lia|]. apply Z.mul_le_mono_nonneg_r; lia.
    + intros i. destruct (decide (i < 0)).
      { rewrite Z.testbit_neg_r by lia. by replace (0 <=? i) with false by lia. }
      rewrite Z.shiftr_spec, testbit_ones by lia. split_bool; first [done|lia].
  - split; [unfold in_word; lia|].
    intros i. rewrite Z.bits_0. split_bool; first [done|lia].
Qed.

Lemma lower_offset_get e :
  0 <= e < 64 -> initialize_lower_offset Bits !z e = Some (elem_off Bits e).
Proof.
  intros He. unfold initialize_lower_offset. rewrite block_loop_get by done.
  rewrite Z.add_0_l. f_equal. apply wrap_small. unfold in_word, WORD_BITS, elem_off.
  assert (0 <= e * Bits mod 64 < 64) by (apply Z.mod_pos_bound; lia). lia.
Qed.

Lemma upper_offset_get e :
  0 <= e < 64 ->
  initialize_upper_offset Bits !z e =
    Some (if 64 <? elem_off Bits e + Bits then 64 - elem_off Bits e else Bits).
Proof.
  intros He. unfold initialize_upper_offset. rewrite block_loop_get by done.
  cbn zeta. rewrite Z.add_0_l. unfold WORD_BITS. fold (elem_off Bits e).
  assert (0 <= elem_off Bits e < 64) by (apply Z.mod_pos_bound; lia).
  destruct (Z.ltb_spec 64 (elem_off Bits e + Bits)); f_equal; apply wrap_small;
    unfold in_word; lia.
Qed.

Lemma word_offset_get e :
  0 <= e < 64 -> initialize_word_offset Bits !z e = Some (elem_word Bits e).
Proof.
  intros He. unfold initialize_word_offset. rewrite block_loop_get by done.
  rewrite Z.add_0_l. f_equal. apply wrap_small. unfold in_word, WORD_BITS, elem_word.
  pose proof (block_off e He).
  split; [apply Z.div_pos; lia|]. apply Z.div_lt_upper_bound; lia.
Qed.

Lemma elem_off_block i : elem_off Bits (i mod 64) = elem_off Bits i.
Proof.
  unfold elem_off. rewrite Zmult_mod_idemp_l. done.
Qed.

Lemma elem_word_block i :
  Bits * (i / 64) + elem_word Bits (i mod 64) = elem_word Bits i.
Proof.
  unfold elem_word. rewrite (Z.div_mod i 64) at 3 by lia.
  replace ((64 * (i / 64) + i mod 64) * Bits)
    with (i mod 64 * Bits + (i / 64 * Bits) * 64) by ring.
  rewrite Z.div_add by lia. lia.
Qed.

Lemma get_internal_index_eq pv i :
  tables_ok Bits pv -> 0 <= i ->
  get_internal_index Bits pv i = Some (mkInternalIndex (elem_word Bits i) (i mod 64)).
Proof.
  intros (_ & _ & _ & _ & Hwo) Hi. unfold get_internal_index. rewrite Hwo.
  unfold BLOCK_ELEMENTS, WORD_BITS.
  rewrite word_offset_get by (apply Z.mod_pos_bound; lia). cbn [mbind option_bind].
  by rewrite BLOCK_WORDS_eq, elem_word_block.
Qed.

(** Position of bit [j] of element [i] in the bit string. *)
Lemma bit_position i j :
  0 <= i -> 0 <= j < Bits ->
  ((i * Bits + j) / 64, (i * Bits + j) mod 64) =
    if elem_off Bits i + j <? 64
    then (elem_word Bits i, elem_off Bits i + j)
    else (elem_word Bits i + 1, elem_off Bits i + j - 64).
Proof.
  intros Hi Hj. unfold elem_off, elem_word.
  pose proof (Z.div_mod (i * Bits) 64 ltac:(lia)) as E.
  pose proof (Z.mod_pos_bound (i * Bits) 64 ltac:(lia)) as Hm.
  set (q := i * Bits / 64) in *. set (r := i * Bits mod 64) in *.
  destruct (Z.ltb_spec (r + j) 64).
  - f_equal.
    + symmetry. apply (Z.div_unique _ _ _ (r + j)); lia.
    + symmetry. apply (Z.mod_unique _ _ q); lia.
  - f_equal.
    + symmetry. apply (Z.div_unique _ _ _ (r + j - 64)); lia.
    + symmetry. apply (Z.mod_unique _ _ (q + 1)); lia.
Qed.

Lemma vbit_elem v i j :
  0 <= i -> 0 <= j < Bits ->
  vbit v (i * Bits + j) =
    if elem_off Bits i + j <? 64
    then match v !z elem_word Bits i with
         | Some w => Z.testbit w (elem_off Bits i + j) | None => false end
    else match v !z (elem_word Bits i + 1) with
         | Some w => Z.testbit w (elem_off Bits i + j - 64) | None => false end.
Proof.
  intros Hi Hj. unfold vbit. pose proof (bit_position i j Hi Hj) as E.
  destruct (elem_off Bits i + j <? 64); injection E as -> ->; done.
Qed.

Lemma elem_bounds i : 0 <= i -> 0 <= elem_word Bits i /\ 0 <= elem_off Bits i < 64 /\ 0 <= i mod 64 < 64.
Proof.
  intros Hi. split; [apply Z.div_pos; nia|]. split; apply Z.mod_pos_bound; lia.
Qed.

(** Two elements never share a bit. *)
Lemma elem_disjoint i i' j j' :
  i <> i' -> 0 <= j < Bits -> 0 <= j' < Bits -> i * Bits + j <> i' * Bits + j'.
Proof. nia. Qed.

End tables.

(** ** What a read and a write do to the bit string *)

Section values.
Context (Bits TBits : Z) (HB : 0 < Bits < 64) (HT : Bits <= TBits <= 64).

Lemma peek_bits pv i :
  tables_ok Bits pv -> words_ok (vec pv) -> 0 <= i ->
  elem_word Bits i + 1 < zlen (vec pv) ->
  exists v, peek Bits TBits pv i = Some v /\ in_word Bits v /\
    forall j, 0 <= j < Bits -> Z.testbit v j = vbit (vec pv) (i * Bits + j).
Proof.
  intros Ht Hw Hi Hroom. unfold peek. rewrite get_internal_index_eq by done.
  cbn [mbind option_bind]. destruct (elem_bounds Bits HB i Hi) as (He1 & He2 & He3).
  destruct (zget_is_some (vec pv) (elem_word Bits i)) as [lw Hlw]; [lia|].
  destruct (zget_is_some (vec pv) (elem_word Bits i + 1)) as [uw Huw]; [lia|].
  assert (in_word 64 lw) by (eapply (proj1 (Forall_forall _ _) Hw), zget_elem; eauto).
  assert (in_word 64 uw) by (eapply (proj1 (Forall_forall _ _) Hw), zget_elem; eauto).
  destruct (lower_mask_get Bits HB (i mod 64) He3) as (lm & Hlm & Blm).
  destruct (upper_mask_get Bits HB (i mod 64) He3) as (um & Hum & Wum & Bum).
  rewrite elem_off_block in Blm, Bum.
  unfold get_value. cbn [lower_word element]. step_opt Hlw. step_opt Huw.
  destruct Ht as (-> & -> & -> & -> & _). step_opt Hlm.
  rewrite lower_offset_get by done. cbn [mbind option_bind]. step_opt Hum.
  rewrite upper_offset_get by done. cbn [mbind option_bind].
  rewrite !elem_off_block.
  eexists. split; [reflexivity|].
  assert (forall j, 0 <= j -> Z.testbit
    (Z.lor (get_lower_half_value TBits lw lm (elem_off Bits i))
       (get_upper_half_value TBits uw um
          (if 64 <? elem_off Bits i + Bits then 64 - elem_off Bits i else Bits))) j =
    (j <? Bits) && if elem_off Bits i + j <? 64 then Z.testbit lw (elem_off Bits i + j)
                   else Z.testbit uw (elem_off Bits i + j - 64)) as Hbits.
  { intros j Hj. unfold get_lower_half_value, get_upper_half_value, static_cast_T.
    rewrite Z.lor_spec, !testbit_wrap by lia.
    rewrite Z.shiftr_spec, Z.land_spec, Blm by lia.
    rewrite (Z.add_comm j).
    destruct (Z.ltb_spec 64 (elem_off Bits i + Bits)) as [Hs|Hs].
    - rewrite Z.shiftl_spec, Z.land_spec, Bum by lia.
      replace (elem_off Bits i + j - elem_off Bits i) with j by lia.
      replace (j - (64 - elem_off Bits i)) with (elem_off Bits i + j - 64) by lia.
      split_bool; rewrite ?andb_false_r, ?andb_true_r, ?orb_false_r; first [done|lia].
    - rewrite Z.shiftl_spec, Z.land_spec, Bum by lia.
      replace (elem_off Bits i + j - elem_off Bits i) with j by lia.
      split_bool; rewrite ?andb_false_r, ?andb_true_r, ?orb_false_r; first [done|lia]. }
  split.
  - apply in_word_bits; [lia| |].
    + apply Z.lor_nonneg. split; apply wrap_in_word; lia.
    + intros j Hj. rewrite Hbits by lia. by replace (j <? Bits) with false by lia.
  - intros j Hj. rewrite Hbits by lia. replace (j <? Bits) with true by lia. simpl.
    rewrite vbit_elem by (done || lia). by rewrite Hlw, Huw.
Qed.

End values.

(** Word-level effect of the two halves of a store. *)

Section stores.
Context (Bits : Z) (HB : 0 < Bits < 64).

Lemma set_lower_bits i lm w value b :
  initialize_lower_mask Bits !z (i mod 64) = Some lm ->
  0 <= i -> in_word 64 w -> 0 <= b < 64 ->
  Z.testbit (set_lower_value w lm (elem_off Bits i) value) b =
    if (elem_off Bits i <=? b) && (b <? elem_off Bits i + Bits)
    then Z.testbit value (b - elem_off Bits i) else Z.testbit w b.
Proof.
  intros Hlm Hi Hw Hb. destruct (elem_bounds Bits HB i Hi) as (_ & He2 & He3).
  destruct (lower_mask_get Bits HB (i mod 64) He3) as (lm' & Hlm' & B). simplify_eq.
  rewrite elem_off_block in B. unfold set_lower_value.
  rewrite Z.lor_spec, !Z.land_spec, Z.lnot_spec, B, testbit_wrap, Z.shiftl_spec by lia.
  split_bool; rewrite ?andb_false_r, ?andb_true_r, ?orb_false_r; first [done|lia].
Qed.

Lemma set_upper_bits i um uo w value b :
  initialize_upper_mask Bits !z (i mod 64) = Some um ->
  initialize_upper_offset Bits !z (i mod 64) = Some uo ->
  0 <= i -> in_word 64 w -> 0 <= b < 64 ->
  Z.testbit (set_upper_value w um uo value) b =
    if b <? elem_off Bits i + Bits - 64
    then Z.testbit value (b + 64 - elem_off Bits i) else Z.testbit w b.
Proof.
  intros Hum Huo Hi Hw Hb. destruct (elem_bounds Bits HB i Hi) as (_ & He2 & He3).
  destruct (upper_mask_get Bits HB (i mod 64) He3) as (um' & Hum' & _ & B). simplify_eq.
  rewrite upper_offset_get in Huo by done. injection Huo as <-.
  rewrite elem_off_block in B |- *. unfold set_upper_value.
  rewrite Z.lor_spec, !Z.land_spec, Z.lnot_spec, B by lia.
  destruct (Z.ltb_spec b (elem_off Bits i + Bits - 64)) as [Hlt|Hlt].
  - replace (64 <? elem_off Bits i + Bits) with true by lia.
    rewrite Z.shiftr_spec by lia. replace (0 <=? b) with true by lia. simpl.
    rewrite andb_false_r, andb_true_r. simpl. f_equal. lia.
  - rewrite !andb_false_r, andb_true_r. apply orb_false_r.
Qed.

Lemma set_lower_in_word lm w off value :
  in_word 64 w -> in_word 64 (set_lower_value w lm off value).
Proof.
  intros Hw. unfold set_lower_value. apply in_word_bits; [lia| |].
  - apply Z.lor_nonneg. split; apply Z.land_nonneg; left; [apply Hw|].
    apply wrap_in_word. lia.
  - intros b Hb. rewrite Z.lor_spec, !Z.land_spec, testbit_wrap by lia.
    rewrite (testbit_in_word 64 w) by done. by replace (b <? 64) with false by lia.
Qed.

Lemma set_upper_in_word um w off value :
  in_word 64 w -> in_word 64 um -> in_word 64 (set_upper_value w um off value).
Proof.
  intros Hw Hum. unfold set_upper_value. apply in_word_bits; [lia| |].
  - apply Z.lor_nonneg. split; apply Z.land_nonneg; [left; apply Hw|right; apply Hum].
  - intros b Hb. rewrite Z.lor_spec, !Z.land_spec.
    rewrite (testbit_in_word 64 w), (testbit_in_word 64 um) by done.
    by rewrite andb_false_r.
Qed.

(** Effect on the bit string.  [elem_bit i k]: bit [k] belongs to element [i]. *)
Definition elem_bit (i k : Z) : bool := (i * Bits <=? k) && (k <? (i + 1) * Bits).

Lemma elem_bit_spec i k : elem_bit i k = true <-> exists j, 0 <= j < Bits /\ k = i * Bits + j.
Proof.
  unfold elem_bit. split.
  - intros H. exists (k - i * Bits). lia.
  - intros (j & Hj & ->). lia.
Qed.

Lemma elem_bit_unique i i' k : elem_bit i k = true -> elem_bit i' k = true -> i = i'.
Proof.
  rewrite !elem_bit_spec. intros (j & Hj & ->) (j' & Hj' & E).
  destruct (decide (i = i')); [done|]. nia.
Qed.

Lemma vbit_zset v v' n w k :
  zset n w v = Some v' ->
  vbit v' k = if k / 64 =? n then Z.testbit w (k mod 64) else vbit v k.
Proof.
  intros H. unfold vbit. rewrite (zset_get _ _ _ _ _ H).
  case_decide as E; [by rewrite E, Z.eqb_refl|].
  destruct (Z.eqb_spec (k / 64) n); [congruence|done].
Qed.

Lemma words_ok_zset v v' n w :
  words_ok v -> in_word 64 w -> zset n w v = Some v' -> words_ok v'.
Proof. intros Hv Hw [_ ->]%zset_inv. by apply Forall_insert. Qed.

Lemma words_ok_get v n w : words_ok v -> v !z n = Some w -> in_word 64 w.
Proof. intros Hv H%zget_elem. by apply (proj1 (Forall_forall _ _) Hv). Qed.

Lemma lower_store_vbit v v' i lm w value k :
  initialize_lower_mask Bits !z (i mod 64) = Some lm ->
  0 <= i -> words_ok v -> v !z elem_word Bits i = Some w ->
  zset (elem_word Bits i) (set_lower_value w lm (elem_off Bits i) value) v = Some v' ->
  vbit v' k = if elem_bit i k && (k / 64 =? elem_word Bits i)
              then Z.testbit value (k - i * Bits) else vbit v k.
Proof.
  intros Hlm Hi Hv Hw Hs. rewrite (vbit_zset _ _ _ _ _ Hs).
  destruct (Z.eqb_spec (k / 64) (elem_word Bits i)) as [E|E]; [|by rewrite andb_false_r].
  rewrite andb_true_r. pose proof (Z.mod_pos_bound k 64 ltac:(lia)).
  rewrite (set_lower_bits i) by (done || eauto using words_ok_get).
  unfold vbit, elem_bit. rewrite E, Hw.
  pose proof (Z.div_mod k 64 ltac:(lia)). unfold elem_off, elem_word in *.
  pose proof (Z.div_mod (i * Bits) 64 ltac:(lia)).
  split_bool; first [lia | done | f_equal; lia].
Qed.

Lemma upper_store_vbit v v' i um uo w value k :
  initialize_upper_mask Bits !z (i mod 64) = Some um ->
  initialize_upper_offset Bits !z (i mod 64) = Some uo ->
  0 <= i -> words_ok v -> v !z (elem_word Bits i + 1) = Some w ->
  zset (elem_word Bits i + 1) (set_upper_value w um uo value) v = Some v' ->
  vbit v' k = if elem_bit i k && (k / 64 =? elem_word Bits i + 1)
              then Z.testbit value (k - i * Bits) else vbit v k.
Proof.
  intros Hum Huo Hi Hv Hw Hs. rewrite (vbit_zset _ _ _ _ _ Hs).
  destruct (Z.eqb_spec (k / 64) (elem_word Bits i + 1)) as [E|E];
    [|by rewrite andb_false_r].
  rewrite andb_true_r. pose proof (Z.mod_pos_bound k 64 ltac:(lia)).
  rewrite (set_upper_bits i) by (done || eauto using words_ok_get).
  unfold vbit, elem_bit. rewrite E, Hw.
  pose proof (Z.div_mod k 64 ltac:(lia)). unfold elem_off, elem_word in *.
  pose proof (Z.div_mod (i * Bits) 64 ltac:(lia)).
  pose proof (Z.mod_pos_bound (i * Bits) 64 ltac:(lia)).
  split_bool; first [lia | done | f_equal; lia].
Qed.

(** Every bit of element [i] is in its lower word or in the next one. *)
Lemma elem_bit_word i k :
  0 <= i -> elem_bit i k = true ->
  k / 64 = elem_word Bits i \/ k / 64 = elem_word Bits i + 1.
Proof.
  intros Hi (j & Hj & ->)%elem_bit_spec. pose proof (bit_position Bits HB i j Hi Hj) as E.
  destruct (elem_off Bits i + j <? 64); injection E as -> _; auto.
Qed.

Lemma assign_bits pv i value :
  tables_ok Bits pv -> words_ok (vec pv) -> 0 <= i ->
  elem_word Bits i + 1 < zlen (vec pv) ->
  exists v', assign Bits pv i value = Some (with_vec pv v') /\
    words_ok v' /\ zlen v' = zlen (vec pv) /\
    forall k, vbit v' k = if elem_bit i k then Z.testbit value (k - i * Bits)
                          else vbit (vec pv) k.
Proof.
  intros Ht Hw Hi Hroom. unfold assign. rewrite get_internal_index_eq by done.
  cbn [mbind option_bind]. destruct (elem_bounds Bits HB i Hi) as (He1 & He2 & He3).
  destruct (zget_is_some (vec pv) (elem_word Bits i)) as [lw Hlw]; [lia|].
  destruct (lower_mask_get Bits HB (i mod 64) He3) as (lm & Hlm & _).
  destruct (upper_mask_get Bits HB (i mod 64) He3) as (um & Hum & Wum & _).
  assert (exists uo, initialize_upper_offset Bits !z (i mod 64) = Some uo) as [uo Huo]
    by (eexists; by apply upper_offset_get).
  unfold set_value. cbn [lower_word element]. destruct Ht as (-> & -> & -> & -> & _).
  step_opt Hlm. rewrite lower_offset_get by done. cbn [mbind option_bind].
  step_opt Hum. step_opt Huo. step_opt Hlw. rewrite elem_off_block.
  destruct (zset_some (vec pv) (elem_word Bits i)
    (set_lower_value lw lm (elem_off Bits i) value)) as [v1 Hv1]; [lia|].
  step_opt Hv1. pose proof (zset_len _ _ _ _ Hv1) as L1.
  assert (words_ok v1) as Hw1.
  { refine (words_ok_zset _ _ _ _ _ _ Hv1); eauto using set_lower_in_word, words_ok_get. }
  destruct (zget_is_some v1 (elem_word Bits i + 1)) as [uw Huw]; [lia|]. step_opt Huw.
  destruct (zset_some v1 (elem_word Bits i + 1) (set_upper_value uw um uo value))
    as [v2 Hv2]; [lia|].
  step_opt Hv2. pose proof (zset_len _ _ _ _ Hv2) as L2.
  exists v2. split; [done|]. split.
  { refine (words_ok_zset _ _ _ _ _ _ Hv2); eauto using set_upper_in_word, words_ok_get. }
  split; [lia|]. intros k.
  rewrite (upper_store_vbit v1 v2 i um uo uw value) by done.
  rewrite (lower_store_vbit (vec pv) v1 i lm lw value) by done.
  destruct (elem_bit i k) eqn:Ek; [|done]. simpl.
  destruct (elem_bit_word i k Hi Ek) as [E|E]; rewrite E;
    [by rewrite Z.eqb_refl; destruct (_ =? _)|by rewrite Z.eqb_refl].
Qed.

(** ** Refinement to lists

    [pv_repr pv l]: the vector holds exactly the elements [l]. *)

Definition pv_wf (pv : PackedVector) : Prop :=
  tables_ok Bits pv /\ words_ok (vec pv) /\ 0 <= num_elements pv /\
  (forall i, 0 <= i < num_elements pv -> elem_word Bits i + 1 < zlen (vec pv)).

Definition pv_repr (pv : PackedVector) (l : list Z) : Prop :=
  pv_wf pv /\ num_elements pv = zlen l /\ Forall (in_word Bits) l /\
  forall i v, l !z i = Some v ->
    forall j, 0 <= j < Bits -> vbit (vec pv) (i * Bits + j) = Z.testbit v j.

Lemma pv_repr_intro pv l :
  tables_ok Bits pv -> words_ok (vec pv) ->
  (forall i, 0 <= i < num_elements pv -> elem_word Bits i + 1 < zlen (vec pv)) ->
  num_elements pv = zlen l -> Forall (in_word Bits) l ->
  (forall i v, l !z i = Some v ->
    forall j, 0 <= j < Bits -> vbit (vec pv) (i * Bits + j) = Z.testbit v j) ->
  pv_repr pv l.
Proof.
  intros. pose proof (zlen_nonneg l). split; [|done].
  split; [done|]. split; [done|]. split; [lia|done].
Qed.

Lemma in_word_eq_bits a b :
  in_word Bits a -> in_word Bits b ->
  (forall j, 0 <= j < Bits -> Z.testbit a j = Z.testbit b j) -> a = b.
Proof.
  intros Ha Hb H. apply Z.bits_inj'. intros j Hj.
  destruct (decide (j < Bits)); [by apply H|].
  rewrite !(testbit_in_word Bits) by (done || lia). done.
Qed.

Lemma pv_repr_peek TBits pv l i :
  Bits <= TBits <= 64 -> pv_repr pv l -> 0 <= i < zlen l -> peek Bits TBits pv i = l !z i.
Proof.
  intros HT ((Ht & Hw & _ & Hroom) & Hn & Hl & Hb) Hi.
  destruct (zget_is_some l i Hi) as [v Hv]. rewrite Hv.
  destruct (peek_bits Bits TBits HB HT pv i) as (v' & -> & Hv' & Hbits); [done|done|lia|apply Hroom; lia|].
  f_equal. apply in_word_eq_bits; [done|..].
  - eapply (proj1 (Forall_forall _ _) Hl), zget_elem, Hv.
  - intros j Hj. rewrite Hbits by done. by apply (Hb i).
Qed.

Lemma pv_repr_assign pv l i value :
  pv_repr pv l -> 0 <= i < zlen l -> in_word Bits value ->
  exists pv' l', assign Bits pv i value = Some pv' /\ zset i value l = Some l' /\ pv_repr pv' l'.
Proof.
  intros ((Ht & Hw & Hnn & Hroom) & Hn & Hl & Hb) Hi Hval.
  destruct (zset_some l i value Hi) as [l' Hl'].
  destruct (assign_bits pv i value) as (v' & Ha & Hw' & Hlen & Hbits);
    [done|done|lia|apply Hroom; lia|].
  eexists _, l'. split; [done|]. split; [done|]. apply pv_repr_intro.
  - done.
  - done.
  - simpl. rewrite Hlen. intros j Hj. by apply Hroom.
  - simpl. rewrite (zset_len _ _ _ _ Hl'). lia.
  - apply zset_inv in Hl' as [_ ->]. by apply Forall_insert.
  - intros i' v. rewrite (zset_get _ _ _ _ _ Hl'). intros Hv j Hj. simpl. rewrite Hbits.
    case_decide as E.
    + subst i'. injection Hv as <-. replace (elem_bit i (i * Bits + j)) with true
        by (symmetry; apply elem_bit_spec; eauto).
      f_equal. lia.
    + destruct (elem_bit i (i' * Bits + j)) eqn:Eb; [|by apply (Hb i')].
      exfalso. apply E. eapply elem_bit_unique; [done|]. apply elem_bit_spec; eauto.
Qed.

Lemma vbit_app v k j : 0 <= j < 64 * zlen v -> vbit (v ++ k) j = vbit v j.
Proof.
  intros Hj. unfold vbit. rewrite zget_app_l; [done|].
  apply Z.div_lt_upper_bound; lia.
Qed.

Lemma words_ok_zeros n : words_ok (replicate n 0).
Proof. apply Forall_replicate. unfold in_word. lia. Qed.

(** Growing keeps the old words as a prefix and leaves room for the element. *)
Lemma push_back_grow_spec fuel lw pv :
  lw + 2 - zlen (vec pv) <= Z.of_nat fuel ->
  exists n, push_back_grow Bits fuel lw pv = with_vec pv (vec pv ++ replicate n 0) /\
    lw + 1 < zlen (vec pv ++ replicate n 0).
Proof.
  revert pv. induction fuel as [|fuel IH]; intros pv Hf; simpl.
  - exists 0%nat. rewrite app_nil_r. destruct pv. split; [done|simpl in *; lia].
  - destruct (Z.leb_spec (zlen (vec pv)) (lw + 1)).
    + destruct (IH (allocate_blocks Bits pv 1)) as (n & -> & Hn).
      { unfold allocate_blocks. simpl. rewrite BLOCK_WORDS_eq, zlen_app.
        unfold zlen at 2. rewrite length_replicate. lia. }
      unfold allocate_blocks in *. simpl in *. rewrite <- app_assoc, <- replicate_add in *.
      eexists. split; [done|]. done.
    + exists 0%nat. rewrite app_nil_r. destruct pv. split; [done|simpl in *; lia].
Qed.

Lemma elem_word_mono i i' : i <= i' -> elem_word Bits i <= elem_word Bits i'.
Proof. intros H. unfold elem_word. apply Z.div_le_mono; nia. Qed.

Lemma elem_bit_bound i j : 0 <= i -> 0 <= j < Bits -> 0 <= i * Bits + j < 64 * (elem_word Bits i + 2).
Proof.
  intros Hi Hj. unfold elem_word.
  pose proof (Z.div_mod (i * Bits) 64 ltac:(lia)).
  pose proof (Z.mod_pos_bound (i * Bits) 64 ltac:(lia)). nia.
Qed.

Lemma pv_repr_push_back pv l value :
  pv_repr pv l -> in_word Bits value ->
  exists pv', push_back Bits pv value = Some pv' /\ pv_repr pv' (l ++ [value]).
Proof.
  intros ((Ht & Hw & Hnn & Hroom) & Hn & Hl & Hb) Hval.
  unfold push_back. rewrite get_internal_index_eq by done. cbn [mbind option_bind lower_word].
  destruct (push_back_grow_spec (Z.to_nat (elem_word Bits (num_elements pv) + 2 - zlen (vec pv)))
    (elem_word Bits (num_elements pv)) pv) as (n & -> & Hgrow); [lia|].
  set (pv1 := with_vec pv (vec pv ++ replicate n 0)).
  destruct (assign_bits pv1 (num_elements pv) value) as (v' & Ha & Hw' & Hlen & Hbits).
  { done. } { apply Forall_app. split; [done|apply words_ok_zeros]. } { done. } { done. }
  unfold assign in Ha. rewrite get_internal_index_eq in Ha by done.
  cbn [mbind option_bind] in Ha. rewrite Ha. cbn [mbind option_bind].
  eexists. split; [reflexivity|]. simpl in *. apply pv_repr_intro.
  - done.
  - done.
  - simpl. rewrite Hlen. intros i Hi.
    pose proof (elem_word_mono i (num_elements pv) ltac:(lia)). lia.
  - simpl. rewrite zlen_snoc. lia.
  - apply Forall_app. split; [done|by apply Forall_singleton].
  - intros i v Hv j Hj. simpl. rewrite Hbits.
    pose proof (zget_some _ _ _ Hv) as Hi. rewrite zlen_snoc in Hi.
    destruct (decide (i < zlen l)).
    + rewrite zget_app_l in Hv by done.
      destruct (elem_bit (num_elements pv) (i * Bits + j)) eqn:Eb.
      { exfalso. assert (num_elements pv = i); [|lia].
        eapply elem_bit_unique; [done|]. apply elem_bit_spec; eauto. }
      rewrite vbit_app; [by apply (Hb i)|].
      pose proof (Hroom i ltac:(lia)). pose proof (elem_bit_bound i j). lia.
    + assert (i = num_elements pv) as -> by lia.
      rewrite zget_app_r in Hv by lia.
      replace (num_elements pv - zlen l) with 0 in Hv by lia. injection Hv as <-.
      replace (elem_bit (num_elements pv) (num_elements pv * Bits + j)) with true
        by (symmetry; apply elem_bit_spec; eauto).
      f_equal. lia.
Qed.

Lemma pv_repr_empty : pv_repr (PackedVector_default Bits) [].
Proof.
  apply pv_repr_intro; try done.
  - apply Forall_nil_2.
  - simpl. lia.
  - intros i v H%zget_some. unfold zlen in H. simpl in H. lia.
Qed.

End stores.

(** ** Concurrent stores *)

Section concurrent.
Context (Bits : Z) (HB : 0 < Bits < 64).

(** A thread storing [value] at index [e], at program point [pc]. *)
Definition thread_at (ev : Z * Z) (pc : cas_pc) : cas_thread :=
  mkCasThread (mkInternalIndex (elem_word Bits ev.1) (ev.1 mod 64)) ev.2 pc.

(** Whether a thread at [pc] has already written the word that holds bit [k]. *)
Definition written (ev : Z * Z) (pc : cas_pc) (k : Z) : bool :=
  elem_bit Bits ev.1 k &&
  match pc with
  | ReadLower | SwapLower _ => false
  | ReadUpper | SwapUpper _ => k / 64 =? elem_word Bits ev.1
  | StoreDone => true
  end.

(** The interleaving invariant: a bit holds the value of the thread that has
    written it, and its initial value otherwise. *)
Record cas_inv (pv0 : PackedVector) (evs : list (Z * Z))
    (st : PackedVector * list cas_thread) : Prop := {
  ci_tables : tables_ok Bits st.1;
  ci_num : num_elements st.1 = num_elements pv0;
  ci_words : words_ok (vec st.1);
  ci_len : zlen (vec st.1) = zlen (vec pv0);
  ci_threads : exists pcs, length pcs = length evs /\
    st.2 = zip_with thread_at evs pcs /\
    (forall n ev pc k, evs !! n = Some ev -> pcs !! n = Some pc -> written ev pc k = true ->
       vbit (vec st.1) k = Z.testbit ev.2 (k - ev.1 * Bits)) /\
    (forall k, (forall n ev pc, evs !! n = Some ev -> pcs !! n = Some pc ->
                  written ev pc k = false) ->
       vbit (vec st.1) k = vbit (vec pv0) k)
}.

Definition cas_start (evs : list (Z * Z)) : list cas_thread :=
  (fun ev => thread_at ev ReadLower) <$> evs.

Lemma cas_inv_start pv evs :
  tables_ok Bits pv -> words_ok (vec pv) -> cas_inv pv evs (pv, cas_start evs).
Proof.
  intros Ht Hw. constructor; try done. simpl.
  exists (replicate (length evs) ReadLower). rewrite length_replicate. split; [done|].
  split_and!.
  - unfold cas_start. induction evs as [|ev evs IH]; simpl; [done|]. f_equal. exact IH.
  - intros n ev pc k _ [-> _]%lookup_replicate. unfold written. by rewrite andb_false_r.
  - done.
Qed.

Lemma zip_with_insert_r (evs : list (Z * Z)) pcs n ev pc :
  evs !! n = Some ev ->
  <[n := thread_at ev pc]> (zip_with thread_at evs pcs) =
    zip_with thread_at evs (<[n := pc]> pcs).
Proof.
  revert pcs n. induction evs as [|e evs IH]; intros [|p pcs] [|n]; simpl; intros; simplify_eq;
    try done. f_equal. by apply IH.
Qed.

(** One thread moves from [pc] to [pc'] and writes the bits [fresh k]. *)
Lemma cas_inv_advance pv0 evs pv ts n ev pc v' pc' (fresh : Z -> bool) :
  NoDup (fst <$> evs) ->
  cas_inv pv0 evs (pv, ts) ->
  evs !! n = Some ev -> ts !! n = Some (thread_at ev pc) ->
  words_ok v' -> zlen v' = zlen (vec pv) ->
  (forall k, vbit v' k = if elem_bit Bits ev.1 k && fresh k
                         then Z.testbit ev.2 (k - ev.1 * Bits) else vbit (vec pv) k) ->
  (forall k, written ev pc' k = written ev pc k || elem_bit Bits ev.1 k && fresh k) ->
  cas_inv pv0 evs (with_vec pv v', <[n := thread_at ev pc']> ts).
Proof.
  intros Hnd [Ht Hnum Hw Hlen (pcs & Hl & Hts & Hwr & Hun)] Hev Hn Hw' Hlen' Hbits Hwritten.
  simpl in *. subst ts. constructor; simpl; [done|done|done|lia|].
  exists (<[n := pc']> pcs). rewrite length_insert. split; [done|].
  split; [by apply zip_with_insert_r|].
  apply lookup_zip_with_Some in Hn as (ev0 & pc0 & Heq & Hev0 & Hpc0).
  assert (ev0 = ev) as -> by congruence.
  assert (pc0 = pc) as -> by (unfold thread_at in Heq; congruence).
  pose proof (lookup_lt_Some _ _ _ Hpc0) as Hlt.
  assert (forall m ev' k, evs !! m = Some ev' -> m <> n -> elem_bit Bits ev'.1 k = true ->
            elem_bit Bits ev.1 k = false) as Hother.
  { intros m ev' k Hm Hne Hb. destruct (elem_bit Bits ev.1 k) eqn:E; [|done].
    exfalso. apply Hne. eapply (NoDup_lookup (fst <$> evs)); [done|..];
      rewrite list_lookup_fmap; [by rewrite Hm|]. rewrite Hev. simpl. f_equal.
    eapply elem_bit_unique; eauto. }
  split.
  - intros m ev' p' k Hm Hp' Hwk. rewrite Hbits.
    destruct (decide (m = n)) as [->|Hne].
    + rewrite list_lookup_insert_eq in Hp' by done. simplify_eq.
      rewrite Hwritten in Hwk. destruct (elem_bit Bits ev.1 k && fresh k); [done|].
      rewrite orb_false_r in Hwk. by apply (Hwr n ev pc).
    + rewrite list_lookup_insert_ne in Hp' by done.
      assert (elem_bit Bits ev'.1 k = true) by (unfold written in Hwk; by apply andb_true_iff in Hwk as [? _]).
      rewrite (Hother m ev' k) by done. simpl. by apply (Hwr m ev' p').
  - intros k Hk. rewrite Hbits.
    assert (written ev pc' k = false) as Hw0.
    { eapply Hk; [done|]. by apply list_lookup_insert_eq. }
    rewrite Hwritten in Hw0. apply orb_false_iff in Hw0 as [Hw0 ->].
    apply Hun. intros m ev' p' Hm Hp'. destruct (decide (m = n)) as [->|Hne]; [congruence|].
    eapply Hk; [done|]. by rewrite list_lookup_insert_ne.
Qed.

Lemma cas_inv_stutter pv0 evs pv ts n ev pc pc' :
  NoDup (fst <$> evs) -> cas_inv pv0 evs (pv, ts) ->
  evs !! n = Some ev -> ts !! n = Some (thread_at ev pc) ->
  (forall k, written ev pc' k = written ev pc k) ->
  cas_inv pv0 evs (pv, <[n := thread_at ev pc']> ts).
Proof.
  intros Hnd Hinv Hev Hn Hk.
  replace pv with (with_vec pv (vec pv)) by (by destruct pv).
  apply cas_inv_advance with (pc := pc) (fresh := fun _ => false); try done.
  - by destruct Hinv.
  - intros k. by rewrite andb_false_r.
  - intros k. by rewrite andb_false_r, orb_false_r.
Qed.

Lemma compare_and_swap_inv v ptr old new ok v' :
  compare_and_swap v ptr old new = Some (ok, v') ->
  if ok then v !z ptr = Some old /\ zset ptr new v = Some v' else v' = v.
Proof.
  unfold compare_and_swap. intros H. inv_opt.
  destruct (Z.eqb_spec r old) as [->|]; inv_opt; by simplify_eq.
Qed.

Lemma cas_inv_step pv0 evs st st' :
  NoDup (fst <$> evs) -> Forall (fun ev => 0 <= ev.1) evs ->
  cas_inv pv0 evs st -> cas_step st st' -> cas_inv pv0 evs st'.
Proof.
  intros Hnd Hpos Hinv Hstep. destruct Hstep as [n pv pv' ts t t' Hn Hstep].
  assert (exists ev pc, evs !! n = Some ev /\ t = thread_at ev pc) as (ev & pc & Hev & ->).
  { destruct Hinv as [_ _ _ _ (pcs & _ & Hts & _)]. simpl in Hts. subst ts.
    apply lookup_zip_with_Some in Hn as (ev & pc & -> & Hev & _). eauto. }
  pose proof (proj1 (Forall_lookup _ _) Hpos _ _ Hev) as Hpe.
  destruct (elem_bounds Bits HB ev.1 Hpe) as (_ & _ & He3).
  pose proof (ci_tables _ _ _ Hinv) as (Tlm & Tum & Tlo & Tuo & _). simpl in *.
  pose proof (ci_words _ _ _ Hinv) as Hw. simpl in Hw.
  unfold cas_thread_step in Hstep. cbn [ct_pc thread_at ct_index ct_value element lower_word] in Hstep.
  destruct pc as [|local| |local|]; inv_opt.
  - by eapply cas_inv_stutter.
  - rewrite Tlm in Hr. rewrite Tlo, lower_offset_get, elem_off_block in Hr0 by done.
    injection Hr0 as <-. destruct r1 as [ok v'].
    apply compare_and_swap_inv in Hr1. inv_opt. simplify_eq. destruct ok.
    + destruct Hr1 as [Hget Hset].
      eapply (cas_inv_advance pv0 evs pv ts n ev (SwapLower local) v' ReadUpper
        (fun k => k / 64 =? elem_word Bits ev.1)); try done.
      * eapply words_ok_zset; [done| |done]. eauto using set_lower_in_word, words_ok_get.
      * by eapply zset_len.
      * intros k. by eapply lower_store_vbit.
      * intros k. unfold written. by rewrite andb_false_r.
    + subst v'. replace (with_vec pv (vec pv)) with pv by (by destruct pv).
      by eapply cas_inv_stutter.
  - by eapply cas_inv_stutter.
  - rewrite Tum in Hr. rewrite Tuo in Hr0. destruct r1 as [ok v'].
    destruct (upper_mask_get Bits HB _ He3) as (um & Hum & Wum & _).
    assert (r = um) as -> by congruence.
    apply compare_and_swap_inv in Hr1. inv_opt. simplify_eq. destruct ok.
    + destruct Hr1 as [Hget Hset].
      eapply (cas_inv_advance pv0 evs pv ts n ev (SwapUpper local) v' StoreDone
        (fun k => k / 64 =? elem_word Bits ev.1 + 1)); try done.
      * eapply words_ok_zset; [done| |done]. eauto using set_upper_in_word, words_ok_get.
      * by eapply zset_len.
      * intros k. by eapply upper_store_vbit.
      * intros k. unfold written. destruct (elem_bit Bits ev.1 k) eqn:E; [|done]. simpl.
        destruct (elem_bit_word Bits HB ev.1 k Hpe E) as [->| ->]; rewrite Z.eqb_refl; [done|].
        by rewrite orb_true_r.
    + subst v'. replace (with_vec pv (vec pv)) with pv by (by destruct pv).
      by eapply cas_inv_stutter.
Qed.

Lemma cas_inv_reachable pv0 evs st st' :
  NoDup (fst <$> evs) -> Forall (fun ev => 0 <= ev.1) evs ->
  rtc cas_step st st' -> cas_inv pv0 evs st -> cas_inv pv0 evs st'.
Proof.
  intros Hnd Hpos Hrun. induction Hrun as [|a b c Hab _ IH]; [done|].
  intros H. apply IH. by eapply cas_inv_step.
Qed.

Lemma cas_run_sound schedule st st' :
  cas_run schedule st = Some st' -> rtc cas_step st st'.
Proof.
  revert st. induction schedule as [|n schedule IH]; intros [pv ts] H; simpl in H; inv_opt.
  - constructor.
  - destruct r0 as [pv' t']. simpl in *. eapply rtc_l; [|by apply IH].
    by econstructor.
Qed.

(** Threads that are about to start [set_value]. *)
Lemma cas_start_eq pv evs ts :
  tables_ok Bits pv -> Forall (fun ev => 0 <= ev.1) evs ->
  Forall2 (fun ev t => exists ii, get_internal_index Bits pv ev.1 = Some ii /\
             t = mkCasThread ii ev.2 ReadLower) evs ts ->
  ts = cas_start evs.
Proof.
  intros Ht Hev H. induction H as [|ev t evs ts (ii & Hii & ->) _ IH]; [done|].
  apply Forall_cons in Hev as [He Hev]. unfold cas_start in *. simpl.
  rewrite get_internal_index_eq in Hii by done. injection Hii as <-.
  f_equal. by apply IH.
Qed.

(** What the invariant says once a thread, or every thread, has finished. *)
Lemma cas_inv_done pv0 evs pv ts :
  cas_inv pv0 evs (pv, ts) -> Forall (fun t => ct_pc t = StoreDone) ts ->
  (forall ev k, ev ∈ evs -> elem_bit Bits ev.1 k = true ->
     vbit (vec pv) k = Z.testbit ev.2 (k - ev.1 * Bits)) /\
  (forall k, (forall ev, ev ∈ evs -> elem_bit Bits ev.1 k = false) ->
     vbit (vec pv) k = vbit (vec pv0) k).
Proof.
  intros [_ _ _ _ (pcs & Hpl & Hts & Hwr & Hun)] Hdone. simpl in *. subst ts. split.
  - intros ev k [n Hn]%list_elem_of_lookup Hk.
    destruct (lookup_lt_is_Some_2 pcs n) as [pc Hpc].
    { rewrite Hpl. by eapply lookup_lt_Some. }
    assert (pc = StoreDone) as ->.
    { apply (proj1 (Forall_lookup _ _) Hdone n (thread_at ev pc)).
      apply lookup_zip_with_Some. eauto. }
    apply (Hwr n ev StoreDone); [done|done|]. unfold written. by rewrite Hk.
  - intros k Hk. apply Hun. intros n ev pc Hn _. unfold written.
    rewrite Hk; [done|]. apply list_elem_of_lookup; eauto.
Qed.

End concurrent.

(** ** The fill constructor *)

Section fill.
Context (Bits : Z) (HB : 0 < Bits < 64).

Lemma set_value_assign pv b e value wo :
  tables_ok Bits pv -> 0 <= b -> 0 <= e < 64 -> word_offset pv !z e = Some wo ->
  set_value pv (mkInternalIndex (b * BLOCK_WORDS Bits + wo) e) value =
    assign Bits pv (b * 64 + e) value.
Proof.
  intros Ht Hb He Hwo. unfold assign. rewrite get_internal_index_eq by (done || lia).
  cbn [mbind option_bind]. f_equal.
  destruct Ht as (_ & _ & _ & _ & Ht). rewrite Ht, word_offset_get in Hwo by done.
  injection Hwo as <-. rewrite BLOCK_WORDS_eq, <- (elem_word_block Bits (b * 64 + e)).
  replace ((b * 64 + e) / 64) with b by (apply (Z.div_unique _ _ _ e); lia).
  replace ((b * 64 + e) mod 64) with e by (apply (Z.mod_unique _ _ b); lia).
  f_equal. lia.
Qed.

(** The first [m] elements of [v] hold [value]. *)
Definition filled (value m : Z) (v : list Z) : Prop :=
  forall i j, 0 <= i < m -> 0 <= j < Bits -> vbit v (i * Bits + j) = Z.testbit value j.

Lemma filled_assign pv m value :
  tables_ok Bits pv -> words_ok (vec pv) -> 0 <= m ->
  elem_word Bits m + 1 < zlen (vec pv) -> filled value m (vec pv) ->
  exists v', assign Bits pv m value = Some (with_vec pv v') /\
    words_ok v' /\ zlen v' = zlen (vec pv) /\ filled value (m + 1) v'.
Proof.
  intros Ht Hw Hm Hroom Hf.
  destruct (assign_bits Bits HB pv m value) as (v' & Ha & Hw' & Hl & Hb); try done.
  exists v'. split_and!; try done. intros i j Hi Hj. rewrite Hb.
  destruct (elem_bit Bits m (i * Bits + j)) eqn:E.
  - assert (m = i) as -> by (eapply elem_bit_unique; eauto; apply elem_bit_spec; eauto).
    f_equal. lia.
  - apply Hf; [|done]. destruct (decide (i = m)) as [->|]; [|lia].
    exfalso. assert (elem_bit Bits m (m * Bits + j) = true); [|congruence].
    apply elem_bit_spec; eauto.
Qed.

Lemma fill_block_spec n e b value pv :
  tables_ok Bits pv -> words_ok (vec pv) -> 0 <= b -> 0 <= e -> e + Z.of_nat n = 64 ->
  (b + 1) * Bits < zlen (vec pv) -> filled value (b * 64 + e) (vec pv) ->
  exists v', fill_block n e (b * BLOCK_WORDS Bits) value pv = Some (with_vec pv v') /\
    words_ok v' /\ zlen v' = zlen (vec pv) /\ filled value (b * 64 + 64) v'.
Proof.
  revert e pv. induction n as [|n IH]; intros e pv Ht Hw Hb He Hn Hroom Hf.
  - exists (vec pv). split_and!; try done; [by destruct pv|].
    assert (e = 64) as -> by lia. done.
  - simpl. assert (exists wo, word_offset pv !z e = Some wo) as [wo Hwo].
    { destruct Ht as (_ & _ & _ & _ & ->). eexists. apply word_offset_get; [done|lia]. }
    step_opt Hwo. rewrite set_value_assign by (done || lia).
    destruct (filled_assign pv (b * 64 + e) value) as (v1 & -> & Hw1 & Hl1 & Hf1);
      try done; try lia.
    { rewrite <- elem_word_block.
      replace ((b * 64 + e) / 64) with b by (apply (Z.div_unique _ _ _ e); lia).
      replace ((b * 64 + e) mod 64) with e by (apply (Z.mod_unique _ _ b); lia).
      assert (elem_word Bits e < Bits); [|nia].
      apply Z.div_lt_upper_bound; nia. }
    cbn [mbind option_bind].
    destruct (IH (e + 1) (with_vec pv v1)) as (v' & E & Hw' & Hl' & Hf'); simpl; try done; try lia.
    { by rewrite Z.add_assoc. }
    exists v'. rewrite E. split_and!; try done. simpl in Hl'. lia.
Qed.

Lemma fill_blocks_spec n b value pv :
  tables_ok Bits pv -> words_ok (vec pv) -> 0 <= b ->
  (b + Z.of_nat n) * Bits < zlen (vec pv) -> filled value (b * 64) (vec pv) ->
  exists v', fill_blocks Bits n b value pv = Some (with_vec pv v') /\
    words_ok v' /\ zlen v' = zlen (vec pv) /\ filled value ((b + Z.of_nat n) * 64) v'.
Proof.
  revert b pv. induction n as [|n IH]; intros b pv Ht Hw Hb Hroom Hf.
  - exists (vec pv). split_and!; try done; [by destruct pv|]. by rewrite Z.add_0_r.
  - cbn [fill_blocks].
    destruct (fill_block_spec (Z.to_nat BLOCK_ELEMENTS) 0 b value pv)
      as (v1 & -> & Hw1 & Hl1 & Hf1); try done; try nia.
    { by rewrite Z.add_0_r. }
    cbn [mbind option_bind].
    destruct (IH (b + 1) (with_vec pv v1)) as (v' & E & Hw' & Hl' & Hf'); simpl in *;
      try done; try nia.
    { by replace ((b + 1) * 64) with (b * 64 + 64) by lia. }
    exists v'. rewrite E. split_and!; try done; [lia|].
    by replace (b + Z.of_nat (S n)) with (b + 1 + Z.of_nat n) by lia.
Qed.

Lemma fill_blocks_app n m b value pv :
  fill_blocks Bits (n + m) b value pv =
    (pv' ← fill_blocks Bits n b value pv; fill_blocks Bits m (b + Z.of_nat n) value pv').
Proof.
  revert b pv. induction n as [|n IH]; intros b pv.
  - simpl. by rewrite Z.add_0_r.
  - cbn [fill_blocks Nat.add]. destruct (fill_block _ _ _ _ _) as [pv1|]; [|done].
    cbn [mbind option_bind]. rewrite IH.
    by replace (b + 1 + Z.of_nat n) with (b + Z.of_nat (S n)) by lia.
Qed.

(** With one bit per element the sentinel word counts as a block of its own,
    and filling it reaches past the end of the word vector. *)
Lemma fill_block_past_end n b value pv :
  tables_ok Bits pv -> 0 <= b -> b * Bits + 1 = zlen (vec pv) ->
  fill_block (S n) 0 (b * BLOCK_WORDS Bits) value pv = None.
Proof.
  intros Ht Hb Hlen. simpl. destruct Ht as (Hlm & Hum & Hlo & Huo & Hwo).
  rewrite Hwo, word_offset_get by lia. cbn [mbind option_bind].
  unfold set_value. cbn [lower_word element]. rewrite Hlm, Hum, Hlo, Huo.
  destruct (lower_mask_get Bits HB 0 ltac:(lia)) as (lm & -> & _).
  destruct (upper_mask_get Bits HB 0 ltac:(lia)) as (um & -> & _).
  rewrite lower_offset_get, upper_offset_get by lia. cbn [mbind option_bind].
  rewrite BLOCK_WORDS_eq. change (elem_word Bits 0) with (0 / 64). rewrite Z.div_0_l by lia.
  destruct (vec pv !z (b * Bits + 0)) as [lw|]; [|done]. cbn [mbind option_bind].
  destruct (zset (b * Bits + 0) _ (vec pv)) as [v1|] eqn:E; [|done]. cbn [mbind option_bind].
  apply zset_len in E. rewrite zget_none by lia. done.
Qed.

End fill.

(** ** Properties *)

Lemma push_back_all_repr Bits pv l k :
  0 < Bits < 64 -> pv_repr Bits pv l -> Forall (in_word Bits) k ->
  exists pv', push_back_all Bits pv k = Some pv' /\ pv_repr Bits pv' (l ++ k).
Proof.
  intros HB. revert pv l. induction k as [|x k IH]; intros pv l Hr Hk.
  - exists pv. by rewrite app_nil_r.
  - apply Forall_cons in Hk as [Hx Hk].
    destruct (pv_repr_push_back Bits HB pv l x Hr Hx) as (pv1 & E & Hr1).
    destruct (IH pv1 (l ++ [x]) Hr1 Hk) as (pv2 & E2 & Hr2).
    exists pv2. simpl. step_opt E. split; [done|]. by rewrite <- app_assoc in Hr2.
Qed.

(** C17: Building a packed vector from a list and reading it back gives the list:
    construction succeeds for every element width below 64, [size] is the
    length, every in-range index reads its element through [operator[]] and
    [at], and [at] throws [out_of_range] past the end. *)
Theorem packed_vector_roundtrip Bits TBits l :
  0 < Bits < 64 -> Bits <= TBits <= 64 -> Forall (in_word Bits) l ->
  exists pv, PackedVector_list Bits l = Some pv /\ num_elements pv = zlen l /\
    (forall i, 0 <= i < zlen l -> peek Bits TBits pv i = l !z i) /\
    (forall i v, l !z i = Some v -> at_ Bits TBits pv i = Some (AtValue v)) /\
    (forall i, zlen l <= i -> at_ Bits TBits pv i = Some (AtOutOfRange i (zlen l))).
Proof.
  intros HB HT Hl.
  destruct (push_back_all_repr Bits (PackedVector_default Bits) [] l HB
    (pv_repr_empty Bits) Hl) as (pv & E & Hr).
  exists pv. pose proof Hr as (_ & Hn & _). split; [done|]. split; [done|].
  assert (forall i, 0 <= i < zlen l -> peek Bits TBits pv i = l !z i) as Hp
    by (intros; eapply pv_repr_peek; eauto).
  split; [done|]. unfold at_. simpl in Hn. split.
  - intros i v Hv. pose proof (zget_some _ _ _ Hv).
    replace (i <? num_elements pv) with true by lia. rewrite Hp, Hv by done. done.
  - intros i Hi. replace (i <? num_elements pv) with false by lia. by rewrite Hn.
Qed.

Lemma packed_vector_roundtrip_witness :
  exists pv, PackedVector_list 33 [5; 2 ^ 33 - 1; 77] = Some pv /\ peek 33 64 pv 1 = Some (2 ^ 33 - 1).
Proof.
  destruct (packed_vector_roundtrip 33 64 [5; 2 ^ 33 - 1; 77]) as (pv & E & _ & Hp & _);
    [lia|lia|repeat constructor; vm_compute; congruence|].
  exists pv. split; [exact E|]. apply Hp. vm_compute. split; congruence.
Defined.

(** Assignment through the packed reference changes exactly the element it
    names: a vector that represents [l] represents [l] with position [i]
    replaced afterwards, whatever words the elements straddle. *)
Theorem packed_vector_assign Bits TBits pv l i value :
  0 < Bits < 64 -> Bits <= TBits <= 64 -> pv_repr Bits pv l -> 0 <= i < zlen l ->
  in_word Bits value ->
  exists pv', assign Bits pv i value = Some pv' /\
    peek Bits TBits pv' i = Some value /\
    forall j, 0 <= j < zlen l -> j <> i -> peek Bits TBits pv' j = peek Bits TBits pv j.
Proof.
  intros HB HT Hr Hi Hv.
  destruct (pv_repr_assign Bits HB pv l i value Hr Hi Hv) as (pv' & l' & Ha & Hs & Hr').
  pose proof (zset_len _ _ _ _ Hs). exists pv'. split; [done|]. split.
  - rewrite (pv_repr_peek Bits HB TBits pv' l') by (done || lia). eauto with osrm.
  - intros j Hj Hne. rewrite (pv_repr_peek Bits HB TBits pv' l') by (done || lia).
    rewrite (pv_repr_peek Bits HB TBits pv l) by done. by eapply zset_get_ne.
Qed.

Lemma packed_vector_assign_witness :
  exists pv pv', PackedVector_list 5 [1; 2; 3; 4; 5; 6; 7; 8; 9; 10; 11; 12; 13; 14] = Some pv /\
    assign 5 pv 12 30 = Some pv' /\ peek 5 32 pv' 12 = Some 30.
Proof.
  destruct (push_back_all_repr 5 (PackedVector_default 5) []
    [1; 2; 3; 4; 5; 6; 7; 8; 9; 10; 11; 12; 13; 14] ltac:(lia) (pv_repr_empty 5))
    as (pv & E & Hr); [repeat constructor; vm_compute; congruence|].
  destruct (packed_vector_assign 5 32 pv _ 12 30 ltac:(lia) ltac:(lia) Hr) as (pv' & Ha & Hp & _);
    [vm_compute; split; congruence|vm_compute; split; congruence|].
  exists pv, pv'. exact (conj E (conj Ha Hp)).
Defined.

(** C18: Lock-free stores do not lose updates: any number of threads storing to
    pairwise different elements, interleaved at every read and every
    compare-and-swap, leave each element with the value its thread stored
    and every other element unchanged, even where elements share words. *)
Theorem packed_vector_concurrent_stores Bits TBits pv evs ts pv' ts' :
  0 < Bits < 64 -> Bits <= TBits <= 64 -> pv_wf Bits pv ->
  NoDup (fst <$> evs) ->
  Forall (fun ev => 0 <= ev.1 < num_elements pv /\ in_word Bits ev.2) evs ->
  Forall2 (fun ev t => exists ii, get_internal_index Bits pv ev.1 = Some ii /\
             t = mkCasThread ii ev.2 ReadLower) evs ts ->
  rtc cas_step (pv, ts) (pv', ts') ->
  Forall (fun t => ct_pc t = StoreDone) ts' ->
  (forall e v, (e, v) ∈ evs -> peek Bits TBits pv' e = Some v) /\
  (forall i, 0 <= i < num_elements pv -> i ∉ fst <$> evs ->
     peek Bits TBits pv' i = peek Bits TBits pv i).
Proof.
  intros HB HT (Ht & Hw & Hnn & Hroom) Hnd Hev Hstart Hrun Hdone.
  assert (Forall (fun ev => 0 <= ev.1) evs) as Hpos.
  { eapply Forall_impl; [exact Hev|]. simpl. lia. }
  rewrite (cas_start_eq Bits HB pv evs ts) in Hrun by done.
  pose proof (cas_inv_reachable Bits HB pv evs _ _ Hnd Hpos Hrun
    (cas_inv_start Bits pv evs Ht Hw)) as Hinv.
  destruct (cas_inv_done Bits pv evs pv' ts' Hinv Hdone) as [Hwr Hun].
  destruct Hinv as [Ht' Hn' Hw' Hlen _]. simpl in *.
  assert (forall i, 0 <= i < num_elements pv -> exists v, peek Bits TBits pv' i = Some v /\
    in_word Bits v /\ forall j, 0 <= j < Bits -> Z.testbit v j = vbit (vec pv') (i * Bits + j))
    as Hpeek'.
  { intros i Hi. apply peek_bits; try done; [lia|]. rewrite Hlen. by apply Hroom. }
  split.
  - intros e v He. pose proof (proj1 (Forall_forall _ _) Hev _ He) as [Hr Hv]. simpl in *.
    destruct (Hpeek' e Hr) as (v' & -> & Hv' & Hb).
    f_equal. apply (in_word_eq_bits Bits); try done. intros j Hj.
    rewrite Hb, (Hwr _ _ He) by (done || apply elem_bit_spec; eauto). simpl. f_equal. lia.
  - intros i Hi Hni. destruct (Hpeek' i Hi) as (v' & -> & Hv' & Hb').
    destruct (peek_bits Bits TBits HB HT pv i) as (v & -> & Hv & Hb); try done; [lia|by apply Hroom|].
    f_equal. apply (in_word_eq_bits Bits); try done. intros j Hj. rewrite Hb', Hb by done.
    apply Hun. intros ev Hev'. destruct (elem_bit Bits ev.1 (i * Bits + j)) eqn:E; [|done].
    exfalso. apply Hni. assert (i = ev.1) as ->; [|by apply list_elem_of_fmap_2].
    eapply (elem_bit_unique Bits); eauto. apply elem_bit_spec; eauto.
Qed.

(** Elements 12 and 13 of a five-bit vector share word 1; the schedule makes
    the second thread's swap invalidate the first thread's read. *)
Lemma packed_vector_concurrent_stores_witness :
  exists pv pv', PackedVector_list 5 (replicate 14 21) = Some pv /\
    rtc cas_step (pv, [mkCasThread (mkInternalIndex 0 12) 30 ReadLower;
                       mkCasThread (mkInternalIndex 1 13) 7 ReadLower])
      (pv', [mkCasThread (mkInternalIndex 0 12) 30 StoreDone;
             mkCasThread (mkInternalIndex 1 13) 7 StoreDone]) /\
    peek 5 32 pv' 12 = Some 30 /\ peek 5 32 pv' 13 = Some 7 /\ peek 5 32 pv' 11 = peek 5 32 pv 11.
Proof.
  destruct (push_back_all_repr 5 (PackedVector_default 5) [] (replicate 14 21) ltac:(lia)
    (pv_repr_empty 5)) as (pv & E & Hwf & Hn & _); [apply Forall_replicate; vm_compute; split; congruence|].
  assert (exists pv', cas_run [0; 0; 0; 1; 1; 0; 0; 0; 1; 1]%nat
     (pv, [mkCasThread (mkInternalIndex 0 12) 30 ReadLower;
           mkCasThread (mkInternalIndex 1 13) 7 ReadLower]) =
     Some (pv', [mkCasThread (mkInternalIndex 0 12) 30 StoreDone;
                 mkCasThread (mkInternalIndex 1 13) 7 StoreDone])) as [pv' Hrun].
  { vm_compute in E. injection E as <-. eexists. vm_compute. reflexivity. }
  apply cas_run_sound in Hrun.
  assert (num_elements pv = 14) as Hn14 by (rewrite Hn; reflexivity).
  pose proof (proj1 Hwf) as Ht.
  edestruct (fun h1 h2 h3 => packed_vector_concurrent_stores 5 32 pv [(12, 30); (13, 7)] _ pv' _
    ltac:(lia) ltac:(lia) Hwf h1 h2 h3 Hrun) as [H1 H2].
  - apply (bool_decide_unpack _). vm_compute. exact I.
  - repeat constructor; simpl; try lia; vm_compute; congruence.
  - repeat constructor; (eexists; split; [apply get_internal_index_eq; [lia|done|simpl; lia]|reflexivity]).
  - repeat constructor.
  - exists pv, pv'. split; [exact E|]. split; [exact Hrun|].
    split; [apply H1; left|]. split; [apply H1; right; left|].
    apply H2; [lia|]. apply (bool_decide_unpack _). vm_compute. exact I.
Defined.

(** The filling constructor is right for every width of at least two bits:
    it stays inside the word vector it allocated and every element reads the
    initial value. *)
Theorem packed_vector_fill Bits TBits n value :
  1 < Bits < 64 -> Bits <= TBits <= 64 -> 0 <= n -> in_word Bits value ->
  exists pv, PackedVector_fill Bits n value = Some pv /\ num_elements pv = n /\
    forall i, 0 <= i < n -> peek Bits TBits pv i = Some value.
Proof.
  intros HB HT Hn Hv. unfold PackedVector_fill, fill.
  set (nb := (n + BLOCK_ELEMENTS - 1) / BLOCK_ELEMENTS).
  assert (0 <= nb) by (apply Z.div_pos; unfold BLOCK_ELEMENTS, WORD_BITS; lia).
  assert (vec (resize Bits (initialize Bits [] 0) n) = replicate (Z.to_nat (nb * Bits + 1)) 0) as Hvec.
  { unfold resize, vector_resize. simpl. rewrite take_nil, BLOCK_WORDS_eq. simpl.
    change (zlen (@nil Z)) with 0. by rewrite Z.sub_0_r. }
  set (pv := resize Bits (initialize Bits [] 0) n) in *.
  assert (zlen (vec pv) = nb * Bits + 1) as Hlen.
  { rewrite Hvec. unfold zlen. rewrite length_replicate. nia. }
  rewrite BLOCK_WORDS_eq, Hlen.
  replace ((nb * Bits + 1) / Bits) with nb by (apply (Z.div_unique _ _ _ 1); lia).
  destruct (fill_blocks_spec Bits ltac:(lia) (Z.to_nat nb) 0 value pv)
    as (v' & -> & Hw' & Hl' & Hf); try done; try lia.
  { rewrite Hvec. apply words_ok_zeros. }
  { intros i j Hi. lia. }
  eexists. split; [reflexivity|]. split; [done|]. intros i Hi.
  assert (n <= nb * 64).
  { pose proof (Z.div_mod (n + BLOCK_ELEMENTS - 1) BLOCK_ELEMENTS).
    pose proof (Z.mod_pos_bound (n + BLOCK_ELEMENTS - 1) BLOCK_ELEMENTS).
    unfold nb, BLOCK_ELEMENTS, WORD_BITS in *. lia. }
  destruct (peek_bits Bits TBits ltac:(lia) HT (with_vec pv v') i) as (v & -> & Hv1 & Hb);
    simpl; try done; try lia.
  { rewrite Hl', Hlen. assert (elem_word Bits i < nb * Bits); [|lia].
    apply Z.div_lt_upper_bound; nia. }
  f_equal. apply (in_word_eq_bits Bits); try done. intros j Hj. rewrite Hb by done.
  apply Hf; lia.
Qed.

Lemma packed_vector_fill_witness :
  exists pv, PackedVector_fill 10 100 777 = Some pv /\ peek 10 16 pv 99 = Some 777.
Proof.
  destruct (packed_vector_fill 10 16 100 777) as (pv & E & _ & H);
    [lia|lia|lia|vm_compute; split; congruence|].
  exists pv. split; [exact E|]. apply H. lia.
Defined.

(** With one-bit elements the filling constructor runs past the words it
    allocated: the sentinel word is taken for a further block and its store
    touches the word after it, for every size. *)
Theorem packed_vector_fill_one_bit_overruns n value :
  0 <= n -> PackedVector_fill 1 n value = None.
Proof.
  intros Hn. unfold PackedVector_fill, fill.
  set (pv := resize 1 (initialize 1 [] 0) n).
  assert (exists nb, 0 <= nb /\ zlen (vec pv) = nb + 1) as (nb & Hnb & Hlen).
  { exists ((n + BLOCK_ELEMENTS - 1) / BLOCK_ELEMENTS).
    assert (0 <= (n + BLOCK_ELEMENTS - 1) / BLOCK_ELEMENTS)
      by (apply Z.div_pos; unfold BLOCK_ELEMENTS, WORD_BITS; lia).
    split; [done|]. unfold pv, resize, vector_resize, zlen. simpl.
    rewrite take_nil, BLOCK_WORDS_eq. simpl. rewrite length_replicate. lia. }
  rewrite BLOCK_WORDS_eq, Hlen, Z.div_1_r.
  replace (Z.to_nat (nb + 1)) with (S (Z.to_nat nb)) by lia.
  assert (tables_ok 1 pv) as Ht by done.
  assert (words_ok (vec pv)) as Hw.
  { unfold pv, resize, vector_resize. simpl. rewrite take_nil. apply words_ok_zeros. }
  destruct (fill_blocks_spec 1 ltac:(lia) (Z.to_nat nb) 0 value pv)
    as (v' & E & Hw' & Hl' & _); try done; try lia.
  { intros i j Hi. lia. }
  replace (S (Z.to_nat nb)) with (Z.to_nat nb + 1)%nat by lia.
  rewrite fill_blocks_app, E. cbn [mbind option_bind].
  cbn [fill_blocks]. change (Z.to_nat BLOCK_ELEMENTS) with 64%nat.
  rewrite (fill_block_past_end 1 ltac:(lia)); [done|done|lia|].
  simpl. lia.
Qed.

Lemma packed_vector_fill_one_bit_overruns_witness : PackedVector_fill 1 3 1 = None.
Proof. apply (packed_vector_fill_one_bit_overruns 3 1). lia. Defined.
