(* ===== verification/QueryHeap.v ===== *)
(** * The addressable priority queue of the searches

    Model of include/util/query_heap.hpp: the index storages, [QueryHeap] over
    an index storage and a mutable priority queue, and its contract: a map
    from node to weight, data and "already removed".  The priority queue
    itself ([boost::heap::d_ary_heap] with mutable handles) is not part of the
    repository; it is the class [MutableHeap], whose laws are its documented
    behaviour. *)
From S2P Require Import Prelude.

(** ** Index storages

    [peek_index] reads a slot, [store] is the assignment [storage[node] = key],
    [clear_index] is [Clear]; [None] is an access outside the storage or a
    probe that finds no slot. *)

Class IndexStorage (St : Type) : Type := {
  peek_index : St -> Z -> option Z;
  store : St -> Z -> Z -> option St;
  clear_index : St -> St
}.

(** What [QueryHeap] relies on.  [st_ok s X]: since the last [Clear] exactly the
    nodes [X] were stored.  Nothing is promised about the slot of a node
    outside [X]: it may be stale. *)
Class IndexStorageLaws (St : Type) `{IndexStorage St} : Type := {
  st_ok : St -> gset Z -> Prop;
  st_valid : St -> Z -> Prop;
  st_fits : St -> gset Z -> Z -> Prop;
  st_clearable : St -> Prop;
  (** [st_room s c r]: room for [r] nodes between two [Clear]s, and [c] of those. *)
  st_room : St -> Z -> Z -> Prop;
  st_peek_total s X n :
    st_ok s X -> st_valid s n -> exists k, peek_index s n = Some k /\ 0 <= k;
  st_store_ok s X n k :
    st_ok s X -> st_valid s n -> st_fits s X n -> 0 <= k ->
    exists s', store s n k = Some s' /\ st_ok s' ({[n]} ∪ X) /\
      (forall m, st_valid s' m <-> st_valid s m) /\
      peek_index s' n = Some k /\
      (forall m, m ∈ X -> m <> n -> peek_index s' m = peek_index s m);
  st_clear_ok s X : st_ok s X -> st_clearable s -> st_ok (clear_index s) ∅;
  st_clear_valid s n : st_valid (clear_index s) n <-> st_valid s n;
  st_room_fits s X n c r :
    st_ok s X -> st_room s c r -> Z.of_nat (size X) + 1 < r -> st_fits s X n;
  st_room_le s c c' r : c' <= c -> st_room s c r -> st_room s c' r;
  st_room_store s n k s' c r : st_room s c r -> store s n k = Some s' -> st_room s' c r;
  st_room_clear s c r :
    st_room s (c + 1) r -> 0 <= c -> st_clearable s /\ st_room (clear_index s) c r
}.

(** [ArrayStorage]: a slot per node, never cleared. *)
Record ArrayStorage : Type := mkArrayStorage { as_positions : list Z }.

Definition ArrayStorage_new (size : Z) : ArrayStorage :=
  mkArrayStorage (replicate (Z.to_nat size) 0).

#[global] Instance ArrayStorage_ops : IndexStorage ArrayStorage := {
  peek_index s node := as_positions s !z node;
  store s node key := p ← zset node key (as_positions s); Some (mkArrayStorage p);
  clear_index s := s
}.

#[global] Instance ArrayStorage_laws : IndexStorageLaws ArrayStorage.
Proof.
  refine {| st_ok s _ := Forall (fun k => 0 <= k) (as_positions s); st_valid s n := 0 <= n < zlen (as_positions s);
            st_fits _ _ _ := True; st_clearable _ := True; st_room _ _ _ := True |}.
  - intros s X n Hs Hn. destruct (zget_is_some (as_positions s) n Hn) as [k Hk].
    exists k. split; [done|]. eapply (proj1 (Forall_forall _ _) Hs), zget_elem, Hk.
  - intros s X n k Hs Hn _ Hk. destruct (zset_some (as_positions s) n k Hn) as [p Hp].
    exists (mkArrayStorage p). simpl. rewrite Hp. simpl. split; [done|].
    split; [by apply zset_inv in Hp as [_ ->]; apply Forall_insert|].
    rewrite (zset_len _ _ _ _ Hp). split; [done|]. split; [eauto with osrm|].
    intros m _ Hne. by eapply zset_get_ne.
  - done.
  - done.
  - done.
  - done.
  - done.
  - done.
Defined.

(** [MapStorage] and [UnorderedMapStorage]: a map; an absent node reads as
    [numeric_limits<Key>::max()], and assignment through [operator[]] inserts. *)
Record MapStorage : Type := mkMapStorage { ms_nodes : gmap Z Z; ms_key_max : Z }.

#[global] Instance MapStorage_ops : IndexStorage MapStorage := {
  peek_index s node :=
    match ms_nodes s !! node with Some key => Some key | None => Some (ms_key_max s) end;
  store s node key := Some (mkMapStorage (<[node := key]> (ms_nodes s)) (ms_key_max s));
  clear_index s := mkMapStorage ∅ (ms_key_max s)
}.

#[global] Instance MapStorage_laws : IndexStorageLaws MapStorage.
Proof.
  refine {| st_ok s X := dom (ms_nodes s) = X /\ 0 <= ms_key_max s /\
                         map_Forall (fun _ k => 0 <= k) (ms_nodes s);
            st_valid _ _ := True;
            st_fits _ _ _ := True; st_clearable _ := True; st_room _ _ _ := True |}.
  - intros s X n (_ & Hm & Ha) _. simpl. destruct (ms_nodes s !! n) eqn:E; eauto.
  - intros s X n k (Hd & Hm & Ha) _ _ Hk. eexists. split; [reflexivity|]. simpl. split_and!.
    + by rewrite dom_insert_L, Hd.
    + done.
    + by apply map_Forall_insert_2.
    + done.
    + by rewrite lookup_insert_eq.
    + intros m _ Hne. by rewrite lookup_insert_ne.
  - intros s X (_ & Hm & _) _. simpl. split_and!; [apply dom_empty_L|done|apply map_Forall_empty].
  - done.
  - done.
  - done.
  - done.
  - done.
Defined.

(** [TwoLevelStorage]: nodes below [number_of_overlay_nodes] in one storage,
    the rest in another. *)
Record TwoLevelStorage (Base Overlay : Type) : Type := mkTwoLevelStorage {
  number_of_overlay_nodes : Z;
  tl_base : Base;
  tl_overlay : Overlay
}.
Arguments mkTwoLevelStorage {_ _}.
Arguments number_of_overlay_nodes {_ _}.
Arguments tl_base {_ _}.
Arguments tl_overlay {_ _}.

#[global] Instance TwoLevelStorage_ops Base Overlay `{IndexStorage Base, IndexStorage Overlay}
  : IndexStorage (TwoLevelStorage Base Overlay) := {
  peek_index s node :=
    if node <? number_of_overlay_nodes s
    then peek_index (tl_overlay s) node
    else peek_index (tl_base s) node;
  store s node key :=
    if node <? number_of_overlay_nodes s
    then o ← store (tl_overlay s) node key;
         Some (mkTwoLevelStorage (number_of_overlay_nodes s) (tl_base s) o)
    else b ← store (tl_base s) node key;
         Some (mkTwoLevelStorage (number_of_overlay_nodes s) b (tl_overlay s));
  clear_index s :=
    mkTwoLevelStorage (number_of_overlay_nodes s) (clear_index (tl_base s))
      (clear_index (tl_overlay s))
}.

Definition overlay_part (num : Z) (X : gset Z) : gset Z := filter (fun n => n < num) X.
Definition base_part (num : Z) (X : gset Z) : gset Z := filter (fun n => num <= n) X.

Lemma overlay_part_add num X n :
  overlay_part num ({[n]} ∪ X) =
    if decide (n < num) then {[n]} ∪ overlay_part num X else overlay_part num X.
Proof.
  apply set_eq. intros m. unfold overlay_part.
  case_decide; rewrite ?elem_of_union, !elem_of_filter, ?elem_of_union, ?elem_of_singleton;
    intuition (subst; auto; lia).
Qed.

Lemma base_part_add num X n :
  base_part num ({[n]} ∪ X) =
    if decide (n < num) then base_part num X else {[n]} ∪ base_part num X.
Proof.
  apply set_eq. intros m. unfold base_part.
  case_decide; rewrite ?elem_of_union, !elem_of_filter, ?elem_of_union, ?elem_of_singleton;
    intuition (subst; auto; lia).
Qed.

#[global] Instance TwoLevelStorage_laws Base Overlay
  `{IndexStorageLaws Base, IndexStorageLaws Overlay}
  : IndexStorageLaws (TwoLevelStorage Base Overlay).
Proof.
  refine {| st_ok s X := st_ok (tl_overlay s) (overlay_part (number_of_overlay_nodes s) X) /\
                         st_ok (tl_base s) (base_part (number_of_overlay_nodes s) X);
            st_valid s n := if n <? number_of_overlay_nodes s
                            then st_valid (tl_overlay s) n else st_valid (tl_base s) n;
            st_fits s X n := if n <? number_of_overlay_nodes s
              then st_fits (tl_overlay s) (overlay_part (number_of_overlay_nodes s) X) n
              else st_fits (tl_base s) (base_part (number_of_overlay_nodes s) X) n;
            st_clearable s := st_clearable (tl_overlay s) /\ st_clearable (tl_base s);
            st_room s c r := st_room (tl_overlay s) c r /\ st_room (tl_base s) c r |}.
  - intros s X n [Ho Hb] Hv. simpl. destruct (n <? _); eauto using st_peek_total.
  - intros s X n k [Ho Hb] Hv Hf Hk. simpl. setoid_rewrite overlay_part_add.
    setoid_rewrite base_part_add.
    destruct (Z.ltb_spec n (number_of_overlay_nodes s)) as [Hlt|Hge].
    + destruct (st_store_ok (tl_overlay s) _ n k Ho Hv Hf Hk) as (o & E & Hok & Hval & Hp & Hr).
      rewrite E. eexists. split; [reflexivity|]. simpl.
      rewrite !decide_True, (proj2 (Z.ltb_lt n _)) by lia. split_and!; try done.
      * intros m. destruct (m <? _); [apply Hval|done].
      * intros m Hm Hne. destruct (Z.ltb_spec m (number_of_overlay_nodes s)); [|done].
        apply Hr; [|done]. by apply elem_of_filter.
    + destruct (st_store_ok (tl_base s) _ n k Hb Hv Hf Hk) as (b & E & Hok & Hval & Hp & Hr).
      rewrite E. eexists. split; [reflexivity|]. simpl.
      rewrite !decide_False, (proj2 (Z.ltb_ge n _)) by lia. split_and!; try done.
      * intros m. destruct (m <? _); [done|apply Hval].
      * intros m Hm Hne. destruct (Z.ltb_spec m (number_of_overlay_nodes s)); [done|].
        apply Hr; [|done]. by apply elem_of_filter.
  - intros s X [Ho Hb] [Hco Hcb]. simpl. unfold overlay_part, base_part.
    rewrite !filter_empty_L by apply _.
    split; eapply st_clear_ok; eauto.
  - intros s n. simpl. destruct (n <? _); apply st_clear_valid.
  - intros s X n c r [Ho Hb] [Ro Rb] Hsz.
    assert (size (overlay_part (number_of_overlay_nodes s) X) <= size X)%nat
      by (apply subseteq_size; intros m Hm; by apply elem_of_filter in Hm as [_ Hm]).
    assert (size (base_part (number_of_overlay_nodes s) X) <= size X)%nat
      by (apply subseteq_size; intros m Hm; by apply elem_of_filter in Hm as [_ Hm]).
    destruct (n <? _); eapply st_room_fits; eauto; lia.
  - intros s c c' r Hle [Ro Rb]. split; by eapply st_room_le.
  - intros s n k s' c r [Ro Rb]. simpl. destruct (n <? _); intros E; inv_opt; simpl;
      split; eauto using st_room_store.
  - intros s c r [Ro Rb] Hc. simpl. destruct (st_room_clear (tl_overlay s) c r Ro Hc).
    destruct (st_room_clear (tl_base s) c r Rb Hc). done.
Defined.

(** ** The mutable priority queue

    Elements are [(weight, index)] pairs ordered by [std::greater] on pairs, so
    [top] is a least pair; [heap_end] is the handle made from [end()]. *)

Definition pair_le (x y : Z * Z) : Prop := x.1 < y.1 \/ (x.1 = y.1 /\ x.2 <= y.2).

Class MutableHeap (H Handle : Type) : Type := {
  heap_empty : H;
  heap_size : H -> Z;
  heap_push : H -> Z * Z -> H * Handle;
  heap_top : H -> option (Z * Z);
  heap_pop : H -> option H;
  heap_increase : H -> Handle -> Z * Z -> option H;
  heap_deref : H -> Handle -> option (Z * Z);
  heap_end : Handle;
  handle_eqb : Handle -> Handle -> bool
}.

Class MutableHeapLaws (H Handle : Type) `{MutableHeap H Handle, Countable Handle} : Type := {
  heap_repr : H -> gmap Handle (Z * Z) -> Prop;
  handle_eqb_spec a b : handle_eqb a b = true <-> a = b;
  heap_repr_end h m : heap_repr h m -> m !! (heap_end : Handle) = None;
  heap_repr_empty : heap_repr heap_empty ∅;
  heap_repr_size h m : heap_repr h m -> heap_size h = Z.of_nat (size m);
  heap_repr_push h m x :
    heap_repr h m ->
    m !! (heap_push h x).2 = None /\
    heap_repr (heap_push h x).1 (<[(heap_push h x).2 := x]> m);
  heap_repr_pop h m :
    heap_repr h m -> m <> ∅ ->
    exists hd x h', heap_top h = Some x /\ heap_pop h = Some h' /\ m !! hd = Some x /\
      (forall hd' y, m !! hd' = Some y -> pair_le x y) /\ heap_repr h' (delete hd m);
  heap_repr_increase h m hd x y :
    heap_repr h m -> m !! hd = Some y -> pair_le x y ->
    exists h', heap_increase h hd x = Some h' /\ heap_repr h' (<[hd := x]> m);
  heap_repr_deref h m hd x : heap_repr h m -> m !! hd = Some x -> heap_deref h hd = Some x
}.

(** ** QueryHeap *)

Section query_heap.
Context {St H Handle Data : Type} `{IndexStorage St, MutableHeap H Handle}.

Record HeapNode : Type := mkHeapNode {
  hn_handle : Handle;
  hn_node : Z;
  hn_weight : Z;
  hn_data : Data
}.

Record QueryHeap : Type := mkQueryHeap {
  inserted_nodes : list HeapNode;
  heap : H;
  node_index : St
}.

Definition QueryHeap_new (storage : St) : QueryHeap :=
  mkQueryHeap [] heap_empty (clear_index storage).

Definition Clear (q : QueryHeap) : QueryHeap :=
  mkQueryHeap [] heap_empty (clear_index (node_index q)).

Definition Size (q : QueryHeap) : Z := heap_size (heap q).
Definition Empty (q : QueryHeap) : bool := 0 =? Size q.

Definition Insert (q : QueryHeap) (node weight : Z) (data : Data) : option QueryHeap :=
  let index := zlen (inserted_nodes q) in
  let '(h, handle) := heap_push (heap q) (weight, index) in
  ni ← store (node_index q) node index;
  Some (mkQueryHeap (inserted_nodes q ++ [mkHeapNode handle node weight data]) h ni).

Definition getHeapNode (q : QueryHeap) (node : Z) : option HeapNode :=
  index ← peek_index (node_index q) node;
  inserted_nodes q !z index.

Definition GetData (q : QueryHeap) (node : Z) : option Data := hn_data <$> getHeapNode q node.
Definition GetKey (q : QueryHeap) (node : Z) : option Z := hn_weight <$> getHeapNode q node.

Definition with_data (hn : HeapNode) (d : Data) : HeapNode :=
  mkHeapNode (hn_handle hn) (hn_node hn) (hn_weight hn) d.
Definition with_weight (hn : HeapNode) (w : Z) : HeapNode :=
  mkHeapNode (hn_handle hn) (hn_node hn) w (hn_data hn).
Definition with_handle (hn : HeapNode) (hd : Handle) : HeapNode :=
  mkHeapNode hd (hn_node hn) (hn_weight hn) (hn_data hn).

(** [GetData(node) = data] *)
Definition SetData (q : QueryHeap) (node : Z) (data : Data) : option QueryHeap :=
  index ← peek_index (node_index q) node;
  hn ← inserted_nodes q !z index;
  ins ← zset index (with_data hn data) (inserted_nodes q);
  Some (mkQueryHeap ins (heap q) (node_index q)).

Definition WasRemoved (q : QueryHeap) (node : Z) : option bool :=
  hn ← getHeapNode q node;
  Some (handle_eqb (hn_handle hn) heap_end).

Definition WasInserted (q : QueryHeap) (node : Z) : option bool :=
  index ← peek_index (node_index q) node;
  if zlen (inserted_nodes q) <=? index
  then Some false
  else hn ← inserted_nodes q !z index; Some (hn_node hn =? node).

(** The optional reference, as the index of the heap node it refers to. *)
Definition GetHeapNodeIfWasInserted (q : QueryHeap) (node : Z) : option (option Z) :=
  index ← peek_index (node_index q) node;
  if zlen (inserted_nodes q) <=? index
  then Some None
  else hn ← inserted_nodes q !z index;
       Some (if hn_node hn =? node then Some index else None).

Definition Min (q : QueryHeap) : option Z :=
  t ← heap_top (heap q); hn ← inserted_nodes q !z t.2; Some (hn_node hn).

Definition MinKey (q : QueryHeap) : option Z := t ← heap_top (heap q); Some t.1.

Definition DeleteMin (q : QueryHeap) : option (Z * QueryHeap) :=
  t ← heap_top (heap q);
  let removedIndex := t.2 in
  h ← heap_pop (heap q);
  hn ← inserted_nodes q !z removedIndex;
  ins ← zset removedIndex (with_handle hn heap_end) (inserted_nodes q);
  Some (hn_node hn, mkQueryHeap ins h (node_index q)).

Definition DeleteMinGetHeapNode (q : QueryHeap) : option (HeapNode * QueryHeap) :=
  t ← heap_top (heap q);
  let removedIndex := t.2 in
  h ← heap_pop (heap q);
  hn ← inserted_nodes q !z removedIndex;
  ins ← zset removedIndex (with_handle hn heap_end) (inserted_nodes q);
  Some (with_handle hn heap_end, mkQueryHeap ins h (node_index q)).

Definition DeleteAll (q : QueryHeap) : QueryHeap :=
  mkQueryHeap ((fun hn => with_handle hn heap_end) <$> inserted_nodes q) heap_empty (node_index q).

Definition DecreaseKey (q : QueryHeap) (node weight : Z) : option QueryHeap :=
  index ← peek_index (node_index q) node;
  hn ← inserted_nodes q !z index;
  ins ← zset index (with_weight hn weight) (inserted_nodes q);
  h ← heap_increase (heap q) (hn_handle hn) (weight, index);
  Some (mkQueryHeap ins h (node_index q)).

(** [DecreaseKey(heapNode)]: the caller has already lowered the weight stored in
    the node that [index] refers to. *)
Definition DecreaseKey_node (q : QueryHeap) (index : Z) : option QueryHeap :=
  hn ← inserted_nodes q !z index;
  x ← heap_deref (heap q) (hn_handle hn);
  h ← heap_increase (heap q) (hn_handle hn) (hn_weight hn, x.2);
  Some (mkQueryHeap (inserted_nodes q) h (node_index q)).

(** [heapNode.weight = weight] through the reference. *)
Definition set_weight_at (q : QueryHeap) (index weight : Z) : option QueryHeap :=
  hn ← inserted_nodes q !z index;
  ins ← zset index (with_weight hn weight) (inserted_nodes q);
  Some (mkQueryHeap ins (heap q) (node_index q)).

Definition set_data_at (q : QueryHeap) (index : Z) (data : Data) : option QueryHeap :=
  hn ← inserted_nodes q !z index;
  ins ← zset index (with_data hn data) (inserted_nodes q);
  Some (mkQueryHeap ins (heap q) (node_index q)).

End query_heap.

Arguments HeapNode : clear implicits.
Arguments QueryHeap : clear implicits.
Arguments mkHeapNode {_ _}.
Arguments mkQueryHeap {_ _ _ _}.

(** ** The contract

    Abstractly the queue is a map from node to [qentry]. *)

Record qentry (Data : Type) : Type := mkQentry { qe_weight : Z; qe_data : Data; qe_removed : bool }.
Arguments mkQentry {_}.
Arguments qe_weight {_}.
Arguments qe_data {_}.
Arguments qe_removed {_}.

Section contract.
Context {St H Handle Data : Type}.
Context `{SL : IndexStorageLaws St, HL : MutableHeapLaws H Handle}.
Implicit Types (q : QueryHeap St H Handle Data) (M : gmap Z (qentry Data)).

Definition entry_of (hn : HeapNode Handle Data) : qentry Data :=
  mkQentry (hn_weight hn) (hn_data hn) (handle_eqb (hn_handle hn) heap_end).

(** The representation invariant of the queue. *)
Record qh_repr q M : Prop := {
  qr_storage : st_ok (node_index q) (dom M);
  qr_index : forall i hn, inserted_nodes q !z i = Some hn ->
    st_valid (node_index q) (hn_node hn) /\
    peek_index (node_index q) (hn_node hn) = Some i /\ M !! hn_node hn = Some (entry_of hn);
  qr_dom : forall n e, M !! n = Some e ->
    exists i hn, inserted_nodes q !z i = Some hn /\ hn_node hn = n;
  qr_heap : exists m, heap_repr (heap q) m /\
    (forall i hn, inserted_nodes q !z i = Some hn -> hn_handle hn <> heap_end ->
       m !! hn_handle hn = Some (hn_weight hn, i)) /\
    (forall hd x, m !! hd = Some x ->
       exists hn, inserted_nodes q !z x.2 = Some hn /\ hn_handle hn = hd)
}.

Lemma handle_eqb_false (a b : Handle) : handle_eqb a b = false <-> a <> b.
Proof.
  destruct (handle_eqb a b) eqn:E.
  - apply handle_eqb_spec in E. split; [done|]. by intros [].
  - split; [|done]. intros _ ->. by rewrite (proj2 (handle_eqb_spec b b)) in E.
Qed.

Lemma qh_index_unique q M i j hn hn' :
  qh_repr q M -> inserted_nodes q !z i = Some hn -> inserted_nodes q !z j = Some hn' ->
  hn_node hn = hn_node hn' -> i = j.
Proof.
  intros R Hi Hj E. destruct (qr_index _ _ R _ _ Hi) as (_ & Hp & _).
  destruct (qr_index _ _ R _ _ Hj) as (_ & Hp' & _). congruence.
Qed.

Lemma qh_lookup q M n e :
  qh_repr q M -> M !! n = Some e ->
  exists i hn, peek_index (node_index q) n = Some i /\ inserted_nodes q !z i = Some hn /\
    hn_node hn = n /\ entry_of hn = e.
Proof.
  intros R Hn. destruct (qr_dom _ _ R _ _ Hn) as (i & hn & Hi & <-).
  destruct (qr_index _ _ R _ _ Hi) as (_ & Hp & Hm). exists i, hn. split_and!; try done. congruence.
Qed.

Lemma getHeapNode_spec q M n e :
  qh_repr q M -> M !! n = Some e ->
  exists hn, getHeapNode q n = Some hn /\ entry_of hn = e.
Proof.
  intros R Hn. destruct (qh_lookup _ _ _ _ R Hn) as (i & hn & Hp & Hi & _ & He).
  exists hn. unfold getHeapNode. step_opt Hp. done.
Qed.

Lemma GetKey_spec q M n e : qh_repr q M -> M !! n = Some e -> GetKey q n = Some (qe_weight e).
Proof. intros R Hn. unfold GetKey. by destruct (getHeapNode_spec _ _ _ _ R Hn) as (hn & -> & <-). Qed.

Lemma GetData_spec q M n e : qh_repr q M -> M !! n = Some e -> GetData q n = Some (qe_data e).
Proof. intros R Hn. unfold GetData. by destruct (getHeapNode_spec _ _ _ _ R Hn) as (hn & -> & <-). Qed.

Lemma WasRemoved_spec q M n e :
  qh_repr q M -> M !! n = Some e -> WasRemoved q n = Some (qe_removed e).
Proof.
  intros R Hn. unfold WasRemoved.
  destruct (getHeapNode_spec _ _ _ _ R Hn) as (hn & E & <-). step_opt E. done.
Qed.

(** [WasInserted] is exact, whatever a stale slot of the storage contains. *)
Lemma WasInserted_spec q M n :
  qh_repr q M -> st_valid (node_index q) n ->
  WasInserted q n = Some (bool_decide (is_Some (M !! n))).
Proof.
  intros R Hv. unfold WasInserted.
  destruct (M !! n) as [e|] eqn:Hn.
  - destruct (qh_lookup _ _ _ _ R Hn) as (i & hn & Hp & Hi & Hnode & _).
    step_opt Hp. pose proof (zget_some _ _ _ Hi).
    destruct (Z.leb_spec (zlen (inserted_nodes q)) i); [lia|].
    step_opt Hi. rewrite Hnode, Z.eqb_refl. by rewrite bool_decide_eq_true_2 by eauto.
  - destruct (st_peek_total (node_index q) _ n (qr_storage _ _ R) Hv) as (i & Hp & Hi0). step_opt Hp.
    rewrite bool_decide_eq_false_2 by (by intros []).
    destruct (Z.leb_spec (zlen (inserted_nodes q)) i); [done|].
    destruct (inserted_nodes q !z i) as [hn|] eqn:Hi.
    + cbn. f_equal. apply Z.eqb_neq. intros E.
      destruct (qr_index _ _ R _ _ Hi) as (_ & _ & Hm). congruence.
    + exfalso. destruct (zget_is_some (inserted_nodes q) i) as [? ?]; [lia|congruence].
Qed.

Lemma GetHeapNodeIfWasInserted_spec q M n :
  qh_repr q M -> st_valid (node_index q) n ->
  match M !! n with
  | Some e => exists i hn, GetHeapNodeIfWasInserted q n = Some (Some i) /\
                inserted_nodes q !z i = Some hn /\ hn_node hn = n /\ entry_of hn = e
  | None => GetHeapNodeIfWasInserted q n = Some None
  end.
Proof.
  intros R Hv. pose proof (WasInserted_spec q M n R Hv) as W.
  unfold WasInserted in W. unfold GetHeapNodeIfWasInserted.
  destruct (M !! n) as [e|] eqn:Hn.
  - destruct (qh_lookup _ _ _ _ R Hn) as (i & hn & Hp & Hi & Hnode & He).
    exists i, hn. step_opt Hp. pose proof (zget_some _ _ _ Hi).
    destruct (Z.leb_spec (zlen (inserted_nodes q)) i); [lia|].
    step_opt Hi. by rewrite Hnode, Z.eqb_refl.
  - rewrite bool_decide_eq_false_2 in W by (by intros []). inv_opt. step_opt Hr.
    destruct (zlen (inserted_nodes q) <=? r); [done|]. inv_opt. step_opt Hr0. by rewrite W.
Qed.

Lemma Insert_spec q M n w d :
  qh_repr q M -> M !! n = None ->
  st_valid (node_index q) n -> st_fits (node_index q) (dom M) n ->
  exists q', Insert q n w d = Some q' /\ qh_repr q' (<[n := mkQentry w d false]> M) /\
    (forall m, st_valid (node_index q') m <-> st_valid (node_index q) m).
Proof.
  intros R Hn Hv Hf. unfold Insert.
  destruct (qr_heap _ _ R) as (m & Hm & Hlive & Hback).
  destruct (heap_repr_push (heap q) m (w, zlen (inserted_nodes q)) Hm) as [Hfresh Hm'].
  destruct (heap_push (heap q) (w, zlen (inserted_nodes q))) as [h hd]. simpl in *.
  destruct (st_store_ok (node_index q) (dom M) n (zlen (inserted_nodes q)) (qr_storage _ _ R) Hv Hf)
    as (ni & E & Hok & Hval & Hpn & Hpm); [apply zlen_nonneg|].
  step_opt E. eexists. split; [reflexivity|]. split; [|done].
  assert (hd <> heap_end) as Hne.
  { intros ->. pose proof (heap_repr_end _ _ Hm') as He. by rewrite lookup_insert_eq in He. }
  constructor; simpl.
  - by rewrite dom_insert_L.
  - intros i hn Hi. pose proof (zget_some _ _ _ Hi) as Hr. rewrite zlen_snoc in Hr.
    destruct (decide (i < zlen (inserted_nodes q))) as [Hlt|Hge].
    + rewrite zget_app_l in Hi by done. destruct (qr_index _ _ R _ _ Hi) as (Hv' & Hp & HM).
      assert (hn_node hn <> n) by congruence.
      rewrite Hval, Hpm, lookup_insert_ne by (done || by apply elem_of_dom).
      split_and!; done.
    + assert (i = zlen (inserted_nodes q)) as -> by lia.
      rewrite zget_app_r, Z.sub_diag in Hi by lia. injection Hi as <-. simpl.
      rewrite Hval, lookup_insert_eq. unfold entry_of. simpl.
      rewrite (proj2 (handle_eqb_false hd heap_end)) by done. done.
  - intros n' e. rewrite lookup_insert. case_decide as En.
    + intros _. subst n'. exists (zlen (inserted_nodes q)). eexists.
      rewrite zget_app_r, Z.sub_diag by lia. split; reflexivity.
    + intros He. destruct (qr_dom _ _ R _ _ He) as (i & hn & Hi & Hnode).
      exists i, hn. rewrite zget_app_l by (apply zget_some in Hi; lia). done.
  - exists (<[hd := (w, zlen (inserted_nodes q))]> m). split; [done|]. split.
    + intros i hn Hi Hne'. pose proof (zget_some _ _ _ Hi) as Hr. rewrite zlen_snoc in Hr.
      destruct (decide (i < zlen (inserted_nodes q))) as [Hlt|Hge].
      * rewrite zget_app_l in Hi by done. pose proof (Hlive _ _ Hi Hne') as Hmm.
        rewrite lookup_insert_ne by congruence. done.
      * assert (i = zlen (inserted_nodes q)) as -> by lia.
        rewrite zget_app_r, Z.sub_diag in Hi by lia. injection Hi as <-. simpl.
        by rewrite lookup_insert_eq.
    + intros hd' x. rewrite lookup_insert. case_decide as Eh.
      * intros [= <-]. simpl. eexists. rewrite zget_app_r, Z.sub_diag by lia.
        split; [reflexivity|done].
      * intros Hx. destruct (Hback _ _ Hx) as (hn & Hi & Hh). exists hn.
        rewrite zget_app_l by (apply zget_some in Hi; lia). done.
Qed.

(** Replacing the record of one inserted node. *)
Lemma qh_replace q M i hn hn' ins h m :
  qh_repr q M -> inserted_nodes q !z i = Some hn -> hn_node hn' = hn_node hn ->
  zset i hn' (inserted_nodes q) = Some ins -> heap_repr h m ->
  (forall j x, ins !z j = Some x -> hn_handle x <> heap_end ->
     m !! hn_handle x = Some (hn_weight x, j)) ->
  (forall hd x, m !! hd = Some x -> exists y, ins !z x.2 = Some y /\ hn_handle y = hd) ->
  qh_repr (mkQueryHeap ins h (node_index q)) (<[hn_node hn := entry_of hn']> M).
Proof.
  intros R Hi Hnode Hs Hm Hfw Hbw.
  destruct (qr_index _ _ R _ _ Hi) as (Hv & Hp & HM).
  constructor; simpl.
  - rewrite dom_insert_L, subseteq_union_1_L; [apply R|].
    apply singleton_subseteq_l, elem_of_dom. eauto.
  - intros j x. rewrite (zset_get _ _ _ _ _ Hs). case_decide as E.
    + intros [= <-]. subst j. rewrite Hnode, lookup_insert_eq. done.
    + intros Hj. destruct (qr_index _ _ R _ _ Hj) as (Hv' & Hp' & HM').
      rewrite lookup_insert_ne; [done|]. intros En. apply E.
      by eapply qh_index_unique.
  - intros n e. rewrite lookup_insert. case_decide as E.
    + intros _. exists i, hn'. rewrite (zset_get_eq _ _ _ _ Hs). split; [done|congruence].
    + intros He. destruct (qr_dom _ _ R _ _ He) as (j & x & Hj & Hx).
      exists j, x. rewrite (zset_get_ne _ _ _ _ _ Hs); [done|]. congruence.
  - exists m. done.
Qed.

(** Replacing data or weight but not the handle leaves the heap entries as
    they are, unless the weight changes. *)
Lemma SetData_spec q M n e d :
  qh_repr q M -> M !! n = Some e ->
  exists q', SetData q n d = Some q' /\
    qh_repr q' (<[n := mkQentry (qe_weight e) d (qe_removed e)]> M) /\
    node_index q' = node_index q.
Proof.
  intros R Hn. destruct (qh_lookup _ _ _ _ R Hn) as (i & hn & Hp & Hi & <- & <-).
  destruct (zset_some (inserted_nodes q) i (with_data hn d)) as [ins Hs]; [eauto with osrm|].
  unfold SetData. step_opt Hp. step_opt Hi. step_opt Hs.
  eexists. split; [reflexivity|]. split; [|done].
  destruct (qr_heap _ _ R) as (m & Hm & Hlive & Hback).
  refine (qh_replace q M i hn (with_data hn d) ins (heap q) m R Hi _ Hs Hm _ _); [done|..].
  - intros j x. rewrite (zset_get _ _ _ _ _ Hs). case_decide; [|by apply Hlive].
    intros [= <-]. subst. by apply (Hlive j hn).
  - intros hd x Hx. destruct (Hback _ _ Hx) as (y & Hy & Hh).
    rewrite (zset_get _ _ _ _ _ Hs). case_decide; [|eauto].
    eexists. split; [done|]. simpl. congruence.
Qed.

(** Lowering a key: [DecreaseKey(node, weight)] and the two-step variant
    (write the weight through the reference, then [DecreaseKey(heapNode)])
    reach the same state. *)
Lemma decrease_repr q M i hn w ins :
  qh_repr q M -> inserted_nodes q !z i = Some hn -> hn_handle hn <> heap_end ->
  w <= hn_weight hn -> zset i (with_weight hn w) (inserted_nodes q) = Some ins ->
  heap_deref (heap q) (hn_handle hn) = Some (hn_weight hn, i) /\
  exists h, heap_increase (heap q) (hn_handle hn) (w, i) = Some h /\
    qh_repr (mkQueryHeap ins h (node_index q))
      (<[hn_node hn := mkQentry w (hn_data hn) false]> M).
Proof.
  intros R Hi Hlv Hw Hs. destruct (qr_heap _ _ R) as (m & Hm & Hlive & Hback).
  pose proof (Hlive _ _ Hi Hlv) as Hmh.
  split; [by eapply heap_repr_deref|].
  destruct (heap_repr_increase (heap q) m (hn_handle hn) (w, i) (hn_weight hn, i) Hm Hmh)
    as (h & E & Hm'); [unfold pair_le; simpl; lia|].
  exists h. split; [done|].
  assert (entry_of (with_weight hn w) = mkQentry w (hn_data hn) false) as <-.
  { unfold entry_of. simpl. by rewrite (proj2 (handle_eqb_false _ _) Hlv). }
  refine (qh_replace q M i hn (with_weight hn w) ins h _ R Hi _ Hs Hm' _ _); [done|..].
  - intros j x. rewrite (zset_get _ _ _ _ _ Hs). case_decide as E1.
    + intros [= <-] _. subst. simpl. by rewrite lookup_insert_eq.
    + intros Hj Hx. pose proof (Hlive _ _ Hj Hx) as Hmx.
      rewrite lookup_insert_ne; [done|]. intros E2. rewrite E2 in Hmh. congruence.
  - intros hd x. rewrite lookup_insert. case_decide as E1.
    + intros [= <-]. simpl. exists (with_weight hn w).
      rewrite (zset_get_eq _ _ _ _ Hs). done.
    + intros Hx. destruct (Hback _ _ Hx) as (y & Hy & Hh). exists y.
      rewrite (zset_get_ne _ _ _ _ _ Hs); [done|]. intros E2. subst i. congruence.
Qed.

Lemma DecreaseKey_spec q M n e w :
  qh_repr q M -> M !! n = Some e -> qe_removed e = false -> w <= qe_weight e ->
  exists q', DecreaseKey q n w = Some q' /\ qh_repr q' (<[n := mkQentry w (qe_data e) false]> M) /\
    node_index q' = node_index q.
Proof.
  intros R Hn Hrm Hw. destruct (qh_lookup _ _ _ _ R Hn) as (i & hn & Hp & Hi & <- & <-).
  simpl in *. apply handle_eqb_false in Hrm.
  destruct (zset_some (inserted_nodes q) i (with_weight hn w)) as [ins Hs]; [eauto with osrm|].
  destruct (decrease_repr q M i hn w ins R Hi Hrm Hw Hs) as (_ & h & E & R').
  unfold DecreaseKey. step_opt Hp. step_opt Hi. step_opt Hs. step_opt E. eauto.
Qed.

Lemma set_weight_DecreaseKey_spec q M i hn w :
  qh_repr q M -> inserted_nodes q !z i = Some hn -> qe_removed (entry_of hn) = false ->
  w <= hn_weight hn ->
  exists q' hn', (q1 ← set_weight_at q i w; DecreaseKey_node q1 i) = Some q' /\
    qh_repr q' (<[hn_node hn := mkQentry w (hn_data hn) false]> M) /\
    inserted_nodes q' !z i = Some hn' /\ hn_node hn' = hn_node hn /\
    entry_of hn' = mkQentry w (hn_data hn) false /\ node_index q' = node_index q.
Proof.
  intros R Hi Hrm Hw. apply handle_eqb_false in Hrm.
  destruct (zset_some (inserted_nodes q) i (with_weight hn w)) as [ins Hs]; [eauto with osrm|].
  destruct (decrease_repr q M i hn w ins R Hi Hrm Hw Hs) as (Hd & h & E & R').
  exists (mkQueryHeap ins h (node_index q)), (with_weight hn w).
  unfold set_weight_at, DecreaseKey_node. step_opt Hi. step_opt Hs.
  cbn [inserted_nodes]. rewrite (zset_get_eq _ _ _ _ Hs). cbn [mbind option_bind].
  cbn [heap hn_handle with_weight]. step_opt Hd. cbn [snd hn_weight hn_handle with_weight heap node_index].
  step_opt E. split; [done|]. split; [exact R'|].
  split; [done|]. split; [done|]. split; [|done].
  unfold entry_of. simpl. by rewrite (proj2 (handle_eqb_false _ _) Hrm).
Qed.

Lemma set_data_at_spec q M i hn d :
  qh_repr q M -> inserted_nodes q !z i = Some hn ->
  exists q', set_data_at q i d = Some q' /\
    qh_repr q' (<[hn_node hn := mkQentry (hn_weight hn) d (qe_removed (entry_of hn))]> M) /\
    node_index q' = node_index q.
Proof.
  intros R Hi. destruct (qr_index _ _ R _ _ Hi) as (_ & Hp & HM).
  destruct (SetData_spec q M (hn_node hn) (entry_of hn) d R HM) as (q' & E & R' & Hni).
  exists q'. split; [|done]. unfold SetData in E. rewrite Hp in E. exact E.
Qed.

Lemma heap_nonempty_live q M m :
  heap_repr (heap q) m ->
  (forall i hn, inserted_nodes q !z i = Some hn -> hn_handle hn <> heap_end ->
     m !! hn_handle hn = Some (hn_weight hn, i)) ->
  qh_repr q M -> (exists n e, M !! n = Some e /\ qe_removed e = false) -> m <> ∅.
Proof.
  intros Hm Hlive R (n & e & Hn & Hrm) ->.
  destruct (qh_lookup _ _ _ _ R Hn) as (i & hn & _ & Hi & _ & <-).
  apply handle_eqb_false in Hrm. pose proof (Hlive _ _ Hi Hrm) as Hl.
  by rewrite lookup_empty in Hl.
Qed.

(** [DeleteMin] removes a node of least weight among those not yet removed. *)
Lemma DeleteMin_spec q M :
  qh_repr q M -> (exists n e, M !! n = Some e /\ qe_removed e = false) ->
  exists n e q', DeleteMin q = Some (n, q') /\ M !! n = Some e /\ qe_removed e = false /\
    (forall n' e', M !! n' = Some e' -> qe_removed e' = false -> qe_weight e <= qe_weight e') /\
    qh_repr q' (<[n := mkQentry (qe_weight e) (qe_data e) true]> M) /\
    node_index q' = node_index q /\ Min q = Some n /\ MinKey q = Some (qe_weight e).
Proof.
  intros R Hex. destruct (qr_heap _ _ R) as (m & Hm & Hlive & Hback).
  destruct (heap_repr_pop _ _ Hm (heap_nonempty_live q M m Hm Hlive R Hex))
    as (hd & x & h & Htop & Hpop & Hx & Hmin & Hm').
  destruct (Hback _ _ Hx) as (hn & Hi & Hh). subst hd.
  assert (hn_handle hn <> heap_end) as Hne.
  { intros E. rewrite E in Hx. by rewrite (heap_repr_end _ _ Hm) in Hx. }
  assert (x = (hn_weight hn, x.2)) as Hxe by (pose proof (Hlive _ _ Hi Hne); congruence).
  destruct (qr_index _ _ R _ _ Hi) as (_ & _ & HM).
  destruct (zset_some (inserted_nodes q) x.2 (with_handle hn heap_end)) as [ins Hs];
    [eauto with osrm|].
  exists (hn_node hn), (entry_of hn), (mkQueryHeap ins h (node_index q)).
  unfold DeleteMin, Min, MinKey. step_opt Htop. step_opt Hpop. step_opt Hi. step_opt Hs.
  split; [done|]. split; [done|].
  split; [by apply handle_eqb_false|]. split_and!; try done.
  - intros n' e' Hn' Hrm'. destruct (qh_lookup _ _ _ _ R Hn') as (j & hn' & _ & Hj & _ & <-).
    apply handle_eqb_false in Hrm'. pose proof (Hmin _ _ (Hlive _ _ Hj Hrm')) as Hle.
    rewrite Hxe in Hle. unfold pair_le in Hle. simpl in *. lia.
  - assert (entry_of (with_handle hn heap_end) = mkQentry (hn_weight hn) (hn_data hn) true) as Ee.
    { unfold entry_of. simpl. by rewrite (proj2 (handle_eqb_spec _ _)). }
    simpl. rewrite <- Ee.
    refine (qh_replace q M x.2 hn _ ins h _ R Hi _ Hs Hm' _ _); [done|..].
    + intros j y. rewrite (zset_get _ _ _ _ _ Hs). case_decide as E1; [by intros [= <-]|].
      intros Hj Hy. pose proof (Hlive _ _ Hj Hy) as Hmy. rewrite lookup_delete_ne; [done|].
      intros E2. rewrite E2 in Hx. apply E1. by rewrite Hmy in Hx; injection Hx as <-.
    + intros hd' y Hy. apply lookup_delete_Some in Hy as [Hne' Hy].
      destruct (Hback _ _ Hy) as (z & Hz & Hzh). exists z.
      rewrite (zset_get_ne _ _ _ _ _ Hs); [done|]. intros E2. rewrite E2 in Hi. congruence.
  - simpl. by rewrite Hxe.
Qed.

Lemma DeleteMinGetHeapNode_spec q M :
  qh_repr q M -> (exists n e, M !! n = Some e /\ qe_removed e = false) ->
  exists hn e q', DeleteMinGetHeapNode q = Some (hn, q') /\ M !! hn_node hn = Some e /\ qe_removed e = false /\
    entry_of hn = mkQentry (qe_weight e) (qe_data e) true /\
    (forall n' e', M !! n' = Some e' -> qe_removed e' = false -> qe_weight e <= qe_weight e') /\
    qh_repr q' (<[hn_node hn := entry_of hn]> M) /\ node_index q' = node_index q.
Proof.
  intros R Hex. destruct (DeleteMin_spec q M R Hex) as (n & e & q' & E & Hn & Hrm & Hmin & R' & Hni & _).
  unfold DeleteMin in E. inv_opt. unfold DeleteMinGetHeapNode.
  repeat match goal with H : ?x = Some _ |- context [mbind _ ?x] => rewrite H; cbn [mbind option_bind] end.
  eexists _, e, _. split; [done|]. cbn [hn_node with_handle].
  match goal with H : zset _ _ _ = Some _ |- _ => pose proof (zset_get_eq _ _ _ _ H) as Hi end.
  destruct (qr_index _ _ R' _ _ Hi) as (_ & _ & He). cbn [hn_node with_handle] in He. rewrite lookup_insert_eq in He.
  apply (inj Some) in He. rewrite He in R'. by rewrite He.
Qed.

Lemma Empty_spec q M :
  qh_repr q M -> Empty q = true <-> forall n e, M !! n = Some e -> qe_removed e = true.
Proof.
  intros R. destruct (qr_heap _ _ R) as (m & Hm & Hlive & Hback).
  unfold Empty, Size. rewrite (heap_repr_size _ _ Hm). split.
  - intros E n e Hn. destruct (qe_removed e) eqn:Hrm; [done|]. exfalso.
    eapply (heap_nonempty_live q M m); eauto. apply map_size_empty_iff. lia.
  - intros Hall. destruct (decide (m = ∅)) as [->|Hne]; [by rewrite map_size_empty|].
    exfalso. apply map_choose in Hne as (hd & x & Hx).
    destruct (Hback _ _ Hx) as (hn & Hi & <-). destruct (qr_index _ _ R _ _ Hi) as (_ & _ & HM).
    apply Hall in HM. simpl in HM. apply handle_eqb_spec in HM. rewrite HM in Hx.
    by rewrite (heap_repr_end _ _ Hm) in Hx.
Qed.

Lemma qh_repr_nil (ni : St) :
  st_ok ni ∅ -> qh_repr (mkQueryHeap [] heap_empty ni) ∅.
Proof.
  intros Hok. constructor; simpl.
  - by rewrite dom_empty_L.
  - intros i hn Hi%zget_some. unfold zlen in Hi. simpl in Hi. lia.
  - intros n e. by rewrite lookup_empty.
  - exists ∅. split; [apply heap_repr_empty|]. split.
    + intros i hn Hi%zget_some. unfold zlen in Hi. simpl in Hi. lia.
    + intros hd x. by rewrite lookup_empty.
Qed.

Lemma Clear_spec q M :
  qh_repr q M -> st_clearable (node_index q) -> qh_repr (Clear q) ∅.
Proof. intros R Hc. apply qh_repr_nil. eapply st_clear_ok; [apply R|done]. Qed.

Lemma DeleteAll_spec q M :
  qh_repr q M ->
  qh_repr (DeleteAll q) ((fun e => mkQentry (qe_weight e) (qe_data e) true) <$> M) /\
  Empty (DeleteAll q) = true.
Proof.
  intros R.
  assert (forall i hn, ((fun hn => with_handle hn heap_end) <$> inserted_nodes q) !z i = Some hn ->
    exists hn0, inserted_nodes q !z i = Some hn0 /\ hn = with_handle hn0 heap_end) as Hget.
  { intros i hn. unfold zget. destruct (0 <=? i); [|done].
    rewrite list_lookup_fmap. intros (hn0 & Hh & ->)%fmap_Some. eauto. }
  assert (qh_repr (DeleteAll q) ((fun e => mkQentry (qe_weight e) (qe_data e) true) <$> M)) as R'.
  { constructor; simpl.
    - rewrite dom_fmap_L. apply R.
    - intros i hn (hn0 & Hi & ->)%Hget. destruct (qr_index _ _ R _ _ Hi) as (Hv & Hp & HM).
      simpl. rewrite lookup_fmap, HM. simpl. split_and!; try done.
      unfold entry_of. simpl. by rewrite (proj2 (handle_eqb_spec _ _)).
    - intros n e. rewrite lookup_fmap. intros (e0 & He & _)%fmap_Some.
      destruct (qr_dom _ _ R _ _ He) as (i & hn & Hi & Hn).
      exists i, (with_handle hn heap_end). split; [|done].
      revert Hi. unfold zget. destruct (0 <=? i); [|done]. rewrite list_lookup_fmap.
      by intros ->.
    - exists ∅. split; [apply heap_repr_empty|]. split.
      + intros i hn (hn0 & _ & ->)%Hget. done.
      + intros hd x. by rewrite lookup_empty. }
  split; [done|]. apply (Empty_spec _ _ R'). intros n e. rewrite lookup_fmap.
  by intros (e0 & _ & ->)%fmap_Some.
Qed.

(** The size is the number of nodes that have not been removed. *)
Definition live_nodes M : gset Z := dom (filter (fun p => qe_removed p.2 = false) M).

Lemma elem_of_live_nodes M n : n ∈ live_nodes M <-> exists e, M !! n = Some e /\ qe_removed e = false.
Proof.
  unfold live_nodes. rewrite elem_of_dom. split.
  - intros (e & [He Hr]%map_lookup_filter_Some). by exists e.
  - intros (e & He & Hr). exists e. by apply map_lookup_filter_Some.
Qed.

Lemma Size_spec q M : qh_repr q M -> Size q = Z.of_nat (size (live_nodes M)).
Proof.
  intros R. destruct (qr_heap _ _ R) as (m & Hm & Hlive & Hback). unfold Size. rewrite (heap_repr_size _ _ Hm). f_equal.
  set (node_at := fun x : Handle * (Z * Z) => default 0 (hn_node <$> inserted_nodes q !z x.2.2)).
  assert (forall x, x ∈ map_to_list m -> exists hn, inserted_nodes q !z x.2.2 = Some hn /\ hn_handle hn = x.1 /\ node_at x = hn_node hn) as Hx.
  { intros [hd x] Hx%elem_of_map_to_list. destruct (Hback _ _ Hx) as (hn & Hi & Hh). exists hn. unfold node_at. simpl. by rewrite Hi. }
  assert (live_nodes M = list_to_set (node_at <$> map_to_list m)) as ->.
  { apply set_eq. intros n. rewrite elem_of_live_nodes, elem_of_list_to_set, list_elem_of_fmap. split.
    - intros (e & He & Hr). destruct (qh_lookup _ _ _ _ R He) as (i & hn & _ & Hi & Hn & <-). apply handle_eqb_false in Hr.
      exists (hn_handle hn, (hn_weight hn, i)). split; [unfold node_at; simpl; by rewrite Hi|]. apply elem_of_map_to_list. by apply Hlive.
    - intros (x & -> & Hin). destruct (Hx x Hin) as (hn & Hi & Hh & ->). destruct (qr_index _ _ R _ _ Hi) as (_ & _ & HM).
      exists (entry_of hn). split; [done|]. apply handle_eqb_false. rewrite Hh. intros E. destruct x as [hd x]. simpl in *. subst hd.
      apply elem_of_map_to_list in Hin. rewrite E in Hin. by rewrite (heap_repr_end _ _ Hm) in Hin. }
  rewrite size_list_to_set, length_fmap; [by rewrite length_map_to_list|].
  apply NoDup_fmap_2_strong; [|apply NoDup_map_to_list]. intros x y Hin Hin' E.
  destruct (Hx x Hin) as (hn & Hi & Hh & En), (Hx y Hin') as (hn' & Hi' & Hh' & En').
  assert (x.2.2 = y.2.2) as Ei by (eapply (qh_index_unique q M); [exact R|exact Hi|exact Hi'|congruence]).
  rewrite Ei in Hi. assert (hn = hn') as -> by congruence. destruct x as [hd x], y as [hd' y]. simpl in *. subst.
  apply elem_of_map_to_list in Hin, Hin'. congruence.
Qed.

Lemma Size_Empty q M : qh_repr q M -> 0 <= Size q /\ (Empty q = true <-> Size q = 0).
Proof.
  intros Hr. destruct (qr_heap _ _ Hr) as (m & Hm & _). unfold Empty. rewrite Z.eqb_eq. unfold Size.
  rewrite (heap_repr_size _ _ Hm). lia.
Qed.

(** A queue that is not empty has a live entry, and its first key is the least. *)
Lemma nonempty_live q M : qh_repr q M -> Empty q = false -> exists n e, M !! n = Some e /\ qe_removed e = false.
Proof.
  intros R Hne. apply dec_stable. intros Hno. apply not_true_iff_false in Hne. apply Hne, (Empty_spec _ _ R).
  intros v e Hv. destruct (qe_removed e) eqn:Er; [done|]. destruct Hno. eauto.
Qed.

Lemma MinKey_least q M : qh_repr q M -> Empty q = false -> exists n e, M !! n = Some e /\ qe_removed e = false /\ MinKey q = Some (qe_weight e) /\
  forall n' e', M !! n' = Some e' -> qe_removed e' = false -> qe_weight e <= qe_weight e'.
Proof.
  intros R Hne. destruct (DeleteMin_spec q M R (nonempty_live q M R Hne)) as (v & e & _ & _ & Hv & Hl & Hmin & _ & _ & _ & Emin).
  by exists v, e.
Qed.

(** The queue [q] stands for [M], takes the nodes below [num], and its storage
    has room for [r] nodes and [c] more [Clear]s. *)
Record good (num : Z) q M (c r : Z) : Prop := {
  gd_repr : qh_repr q M;
  gd_valid : forall n, 0 <= n < num -> st_valid (node_index q) n;
  gd_room : st_room (node_index q) c r
}.

Lemma good_keep num q q' M M' c r :
  good num q M c r -> qh_repr q' M' -> node_index q' = node_index q -> good num q' M' c r.
Proof. intros [R V Rm] R' E. constructor; [done| |]; by rewrite E. Qed.

Lemma good_Insert num q M c r n w d :
  good num q M c r -> M !! n = None -> 0 <= n < num -> Z.of_nat (size M) + 1 < r ->
  exists q', Insert q n w d = Some q' /\ good num q' (<[n := mkQentry w d false]> M) c r.
Proof.
  intros [R V Rm] Hn Hv Hsz.
  destruct (Insert_spec q M n w d R Hn (V n Hv)) as (q' & E & R' & V').
  { eapply st_room_fits; [apply R|done|]. by rewrite size_dom. }
  exists q'. split; [done|]. constructor; [done|intros m Hm; by apply V', V|].
  unfold Insert in E. destruct (heap_push _ _) as [h hd]. inv_opt. by eapply st_room_store.
Qed.


Lemma good_fewer num q M c c' r : c' <= c -> good num q M c r -> good num q M c' r.
Proof. intros Hc [R V Rm]. split; [done|done|]. by eapply st_room_le. Qed.

Lemma good_Clear num q M c r : good num q M (c + 1) r -> 0 <= c -> good num (Clear q) ∅ c r.
Proof.
  intros [R V Rm] Hc. destruct (st_room_clear _ _ _ Rm Hc) as [Hcl Hr].
  constructor; [by eapply Clear_spec| |done]. intros n Hn. simpl. by apply st_clear_valid, V.
Qed.
End contract.

(** ** The nodes a search has settled *)

Section settled.
Context {Data : Type}.
Implicit Types (M : gmap Z (qentry Data)).

Lemma size_bound num M : 0 <= num -> (forall m e, M !! m = Some e -> 0 <= m < num) -> Z.of_nat (size M) <= num.
Proof.
  intros Hn HM. rewrite <- size_dom. assert (dom M ⊆@{gset Z} list_to_set (seqZ 0 num)) as Hs.
  { intros m [e Hm]%elem_of_dom. apply elem_of_list_to_set, elem_of_seqZ. apply HM in Hm. lia. }
  apply subseteq_size in Hs. rewrite size_list_to_set in Hs by apply NoDup_seqZ. rewrite length_seqZ in Hs. lia.
Qed.

Definition settled_set M : gset Z := dom (filter (fun p => qe_removed (snd p) = true) M).

Lemma elem_of_settled_set M m : m ∈ settled_set M <-> exists e, M !! m = Some e /\ qe_removed e = true.
Proof.
  unfold settled_set. rewrite elem_of_dom. split.
  - intros [e [Hm Hr]%map_lookup_filter_Some]. by exists e.
  - intros (e & Hm & Hr). exists e. by apply map_lookup_filter_Some.
Qed.

Lemma settled_set_size num M : 0 <= num -> (forall m e, M !! m = Some e -> 0 <= m < num) -> Z.of_nat (size (settled_set M)) <= num.
Proof.
  intros Hn HM. etransitivity; [|apply (size_bound num M Hn HM)]. rewrite <- size_dom. apply inj_le, subseteq_size.
  intros m (e & Hm & _)%elem_of_settled_set. apply elem_of_dom. by exists e.
Qed.

Lemma settled_grows M M2 v e : M !! v = Some e -> qe_removed e = false ->
  (forall a ea, (<[v := mkQentry (qe_weight e) (qe_data e) true]> M) !! a = Some ea -> qe_removed ea = true ->
     exists ea', M2 !! a = Some ea' /\ qe_removed ea' = true) ->
  (size (settled_set M) < size (settled_set M2))%nat.
Proof.
  intros Hv Hl Hk. assert (v ∉ settled_set M) as Hv' by (intros (e' & He' & Hr)%elem_of_settled_set; congruence).
  assert ({[v]} ∪ settled_set M ⊆ settled_set M2) as Hs%subseteq_size; [|rewrite size_union, size_singleton in Hs by set_solver; lia].
  intros a [->%elem_of_singleton|(ea & Ha & Hr)%elem_of_settled_set]%elem_of_union; apply elem_of_settled_set.
  - eapply Hk; [apply lookup_insert_eq|done].
  - eapply Hk; [rewrite lookup_insert_ne; [done|congruence]|done].
Qed.

End settled.

(** ** A reference priority queue

    A map from handles to pairs whose top is found by a scan; it satisfies the
    laws and makes the searches executable. *)

Record RefHeap : Type := mkRefHeap { rh_next : Z; rh_items : gmap Z (Z * Z) }.

Definition pair_leb (x y : Z * Z) : bool :=
  (x.1 <? y.1) || ((x.1 =? y.1) && (x.2 <=? y.2)).

Definition least_item (l : list (Z * (Z * Z))) : option (Z * (Z * Z)) :=
  foldr (fun it best =>
    match best with
    | None => Some it
    | Some b => Some (if pair_leb it.2 b.2 then it else b)
    end) None l.

Definition ref_top (h : RefHeap) : option (Z * (Z * Z)) := least_item (map_to_list (rh_items h)).

#[global] Instance RefHeap_ops : MutableHeap RefHeap Z := {
  heap_empty := mkRefHeap 0 ∅;
  heap_size h := Z.of_nat (size (rh_items h));
  heap_push h x :=
    (mkRefHeap (rh_next h + 1) (<[rh_next h := x]> (rh_items h)), rh_next h);
  heap_top h := snd <$> ref_top h;
  heap_pop h := t ← ref_top h; Some (mkRefHeap (rh_next h) (delete t.1 (rh_items h)));
  heap_increase h hd x :=
    _ ← rh_items h !! hd; Some (mkRefHeap (rh_next h) (<[hd := x]> (rh_items h)));
  heap_deref h hd := rh_items h !! hd;
  heap_end := (-1);
  handle_eqb := Z.eqb
}.

Lemma pair_leb_spec x y : pair_leb x y = true <-> pair_le x y.
Proof. unfold pair_leb, pair_le. lia. Qed.

Lemma least_item_spec l :
  match least_item l with
  | None => l = []
  | Some it => it ∈ l /\ forall it', it' ∈ l -> pair_le it.2 it'.2
  end.
Proof.
  induction l as [|a l IH]; [done|]. simpl. destruct (least_item l) as [b|].
  - destruct IH as [Hb Hmin]. destruct (pair_leb a.2 b.2) eqn:E.
    + apply pair_leb_spec in E. split; [left|].
      intros it' [->|Hin]%elem_of_cons; [unfold pair_le; lia|].
      specialize (Hmin _ Hin). unfold pair_le in *. lia.
    + assert (~ pair_le a.2 b.2) by (rewrite <- pair_leb_spec; congruence).
      split; [by right|]. intros it' [->|Hin]%elem_of_cons; [unfold pair_le in *; lia|auto].
  - subst l. split; [left|]. intros it' ->%list_elem_of_singleton. unfold pair_le. lia.
Qed.

#[global] Instance RefHeap_laws : MutableHeapLaws RefHeap Z.
Proof.
  refine {| heap_repr h m := rh_items h = m /\ 0 <= rh_next h /\
                             (forall hd x, m !! hd = Some x -> 0 <= hd < rh_next h) |}.
  - intros a b. simpl. lia.
  - intros h m (_ & _ & Hb). simpl. destruct (m !! (-1)) eqn:E; [|done]. apply Hb in E. lia.
  - simpl. split_and!; [done|lia|]. intros hd x. by rewrite lookup_empty.
  - by intros h m (<- & _).
  - intros h m x (<- & Hn & Hb). simpl. split.
    + destruct (rh_items h !! rh_next h) eqn:E; [|done]. apply Hb in E. lia.
    + split_and!; [done|lia|]. intros hd y. rewrite lookup_insert.
      case_decide; [lia|]. intros Hy%Hb. lia.
  - intros h m (<- & Hn & Hb) Hne. unfold heap_top, heap_pop. simpl. unfold ref_top.
    pose proof (least_item_spec (map_to_list (rh_items h))) as Hl.
    destruct (least_item _) as [[hd x]|].
    + destruct Hl as [Hin Hmin]. apply elem_of_map_to_list in Hin. simpl in *.
      exists hd, x. eexists. split_and!; try done.
      * intros hd' y Hy. apply (Hmin (hd', y)). by apply elem_of_map_to_list.
      * simpl. intros hd' y [_ Hy]%lookup_delete_Some. eauto.
    + by apply map_to_list_empty_iff in Hl.
  - intros h m hd x y (<- & Hn & Hb) Hy _. simpl. rewrite Hy. simpl. eexists.
    split; [reflexivity|]. split_and!; [done|done|].
    intros hd' z. rewrite lookup_insert. case_decide; [|by apply Hb].
    intros _. subst. by eapply Hb.
  - by intros h m hd x (<- & _) Hx.
Defined.

(** ** Properties *)

Inductive qop (Data : Type) : Type :=
| OpInsert (node weight : Z) (data : Data)
| OpDeleteMin
| OpDeleteMinGetHeapNode
| OpDecreaseKey (node weight : Z)
| OpDecreaseHeapNode (node weight : Z)
| OpSetData (node : Z) (data : Data)
| OpDeleteAll
| OpClear.
Arguments OpInsert {_}.
Arguments OpDeleteMin {_}.
Arguments OpDeleteMinGetHeapNode {_}.
Arguments OpDecreaseKey {_}.
Arguments OpDecreaseHeapNode {_}.
Arguments OpSetData {_}.
Arguments OpDeleteAll {_}.
Arguments OpClear {_}.

(** What an operation returns: nothing, a node, or a node with what is stored for it. *)
Inductive qout (Data : Type) : Type :=
| OutNothing
| OutNode (node : Z)
| OutHeapNode (node : Z) (e : qentry Data).
Arguments OutNothing {_}.
Arguments OutNode {_}.
Arguments OutHeapNode {_}.

(** The operations of the class that change it.  A heap node is decreased through the
    reference that [GetHeapNodeIfWasInserted] returns: its weight is assigned
    and [DecreaseKey(heapNode)] is called. *)
Definition qh_exec {St H Handle Data} `{IndexStorage St, MutableHeap H Handle}
    (op : qop Data) (q : QueryHeap St H Handle Data)
  : option (qout Data * QueryHeap St H Handle Data) :=
  match op with
  | OpInsert n w d => q' ← Insert q n w d; Some (OutNothing, q')
  | OpDeleteMin => '(n, q') ← DeleteMin q; Some (OutNode n, q')
  | OpDeleteMinGetHeapNode => '(hn, q') ← DeleteMinGetHeapNode q; Some (OutHeapNode (hn_node hn) (entry_of hn), q')
  | OpDecreaseKey n w => q' ← DecreaseKey q n w; Some (OutNothing, q')
  | OpDecreaseHeapNode n w =>
      reference ← GetHeapNodeIfWasInserted q n;
      index ← reference;
      q' ← (q1 ← set_weight_at q index w; DecreaseKey_node q1 index);
      Some (OutNothing, q')
  | OpSetData n d => q' ← SetData q n d; Some (OutNothing, q')
  | OpDeleteAll => Some (OutNothing, DeleteAll q)
  | OpClear => Some (OutNothing, Clear q)
  end.

(** A live node of least weight. *)
Definition least_live {Data} (M : gmap Z (qentry Data)) (n : Z) (e : qentry Data) : Prop :=
  M !! n = Some e /\ qe_removed e = false /\
  forall n' e', M !! n' = Some e' -> qe_removed e' = false -> qe_weight e <= qe_weight e'.

(** The abstract queue. *)
Inductive qspec {Data} : gmap Z (qentry Data) -> qop Data -> qout Data -> gmap Z (qentry Data) -> Prop :=
| spec_insert M n w d :
    M !! n = None -> qspec M (OpInsert n w d) OutNothing (<[n := mkQentry w d false]> M)
| spec_delete_min M n e : least_live M n e ->
    qspec M OpDeleteMin (OutNode n) (<[n := mkQentry (qe_weight e) (qe_data e) true]> M)
| spec_delete_min_node M n e : least_live M n e ->
    qspec M OpDeleteMinGetHeapNode (OutHeapNode n (mkQentry (qe_weight e) (qe_data e) true)) (<[n := mkQentry (qe_weight e) (qe_data e) true]> M)
| spec_decrease M n e w :
    M !! n = Some e ->
    qspec M (OpDecreaseKey n w) OutNothing (<[n := mkQentry w (qe_data e) false]> M)
| spec_decrease_node M n e w :
    M !! n = Some e ->
    qspec M (OpDecreaseHeapNode n w) OutNothing (<[n := mkQentry w (qe_data e) false]> M)
| spec_set_data M n e d :
    M !! n = Some e ->
    qspec M (OpSetData n d) OutNothing (<[n := mkQentry (qe_weight e) d (qe_removed e)]> M)
| spec_delete_all M :
    qspec M OpDeleteAll OutNothing ((fun e => mkQentry (qe_weight e) (qe_data e) true) <$> M)
| spec_clear M : qspec M OpClear OutNothing ∅.

(** When an operation may be called: the source's assertions. *)
Definition qop_pre {St Data} `{IndexStorageLaws St} (s : St) (M : gmap Z (qentry Data))
    (op : qop Data) : Prop :=
  match op with
  | OpInsert n _ _ => M !! n = None /\ st_valid s n /\ st_fits s (dom M) n
  | OpDeleteMin | OpDeleteMinGetHeapNode => exists n e, M !! n = Some e /\ qe_removed e = false
  | OpDecreaseKey n w => exists e, M !! n = Some e /\ qe_removed e = false /\ w <= qe_weight e
  | OpDecreaseHeapNode n w => exists e, M !! n = Some e /\ qe_removed e = false /\ w <= qe_weight e
  | OpSetData n _ => is_Some (M !! n)
  | OpDeleteAll => True
  | OpClear => st_clearable s
  end.

(** The queries of the class on a queue that stands for [M], for the nodes that its storage takes. *)
Record queries_exact {St H Handle Data} `{IndexStorageLaws St, MutableHeapLaws H Handle}
    (q : QueryHeap St H Handle Data) (M : gmap Z (qentry Data)) (valid : Z -> Prop) : Prop := {
  qx_size : Size q = Z.of_nat (size (live_nodes M));
  qx_empty : Empty q = true <-> forall n e, M !! n = Some e -> qe_removed e = true;
  qx_min : Empty q = false -> exists n e, least_live M n e /\ Min q = Some n /\ MinKey q = Some (qe_weight e);
  qx_inserted n : valid n -> WasInserted q n = Some (bool_decide (is_Some (M !! n)));
  qx_node n : valid n -> match M !! n with
    | None => GetHeapNodeIfWasInserted q n = Some None
    | Some e => exists i hn, GetHeapNodeIfWasInserted q n = Some (Some i) /\ inserted_nodes q !z i = Some hn /\
        hn_node hn = n /\ hn_weight hn = qe_weight e /\ hn_data hn = qe_data e
    end;
  qx_stored n e : M !! n = Some e ->
    WasRemoved q n = Some (qe_removed e) /\ GetKey q n = Some (qe_weight e) /\ GetData q n = Some (qe_data e)
}.

Lemma queries_ok {St H Handle Data} `{IndexStorageLaws St, MutableHeapLaws H Handle} (q : QueryHeap St H Handle Data) M (valid : Z -> Prop) :
  qh_repr q M -> (forall n, valid n -> st_valid (node_index q) n) -> queries_exact q M valid.
Proof.
  intros R Hv. split.
  - by apply Size_spec.
  - by apply Empty_spec.
  - intros Hne. destruct (DeleteMin_spec q M R (nonempty_live q M R Hne)) as (n & e & _ & _ & Hn & Hr & Hmin & _ & _ & E1 & E2). by exists n, e.
  - intros n Hn. apply WasInserted_spec; auto.
  - intros n Hn. pose proof (GetHeapNodeIfWasInserted_spec q M n R (Hv n Hn)) as Hg. destruct (M !! n) as [e|]; [|done].
    destruct Hg as (i & hn & E & Hi & Hnode & <-). by exists i, hn.
  - intros n e Hn. split_and!; [by eapply WasRemoved_spec|by eapply GetKey_spec|by eapply GetData_spec].
Qed.

(** C10: [QueryHeap] implements the abstract addressable queue over every index
    storage and every mutable heap that keep their laws.  An operation whose
    assertion holds returns, and its result and effect are those of the abstract
    queue: [Insert], [DeleteMin] and [DeleteMinGetHeapNode], which return a live
    node of least weight, both [DecreaseKey]s, assignments through [GetData],
    [DeleteAll] and [Clear].  Afterwards every query is exact: [Size],
    [Empty], [Min], [MinKey], [WasInserted] and [GetHeapNodeIfWasInserted] (also
    when the storage holds stale slots), [WasRemoved], [GetKey] and [GetData]. *)
Theorem query_heap_refines {St H Handle Data}
    `{IndexStorageLaws St, MutableHeapLaws H Handle}
    (q : QueryHeap St H Handle Data) M op :
  qh_repr q M -> qop_pre (node_index q) M op ->
  exists out q' M', qh_exec op q = Some (out, q') /\ qspec M op out M' /\ qh_repr q' M' /\
    queries_exact q' M' (st_valid (node_index q)).
Proof.
  intros R Hpre.
  assert (exists out q' M', qh_exec op q = Some (out, q') /\ qspec M op out M' /\ qh_repr q' M' /\
    (forall n, st_valid (node_index q) n -> st_valid (node_index q') n))
    as (out & q' & M' & E & Hs & R' & Hv); [|exists out, q', M'; split_and!; [done..|by apply queries_ok]].
  destruct op as [n w d| | |n w|n w|n d| |]; simpl in *.
  - destruct Hpre as (Hn & Hv & Hf).
    destruct (Insert_spec q M n w d R Hn Hv Hf) as (q' & -> & R' & Hv').
    eexists _, _, _. split; [reflexivity|]. split; [by constructor|]. split; [done|].
    intros m. by rewrite Hv'.
  - destruct (DeleteMin_spec q M R Hpre) as (n & e & q' & -> & Hn & Hrm & Hmin & R' & Hni & _).
    eexists _, _, _. split; [reflexivity|]. split; [by apply spec_delete_min|]. by rewrite Hni.
  - destruct (DeleteMinGetHeapNode_spec q M R Hpre) as (hn & e & q' & -> & Hn & Hrm & He & Hmin & R' & Hni).
    cbn [mbind option_bind]. rewrite He in *. eexists _, _, _. split; [reflexivity|]. split; [by apply spec_delete_min_node|]. by rewrite Hni.
  - destruct Hpre as (e & Hn & Hrm & Hw).
    destruct (DecreaseKey_spec q M n e w R Hn Hrm Hw) as (q' & -> & R' & Hni).
    eexists _, _, _. split; [reflexivity|]. split; [by constructor|]. by rewrite Hni.
  - destruct Hpre as (e & Hn & Hrm & Hw). destruct (qh_lookup _ _ _ _ R Hn) as (i0 & hn0 & _ & Hi0 & Hn0 & _).
    destruct (qr_index _ _ R _ _ Hi0) as (Hv & _). rewrite Hn0 in Hv. pose proof (GetHeapNodeIfWasInserted_spec q M n R Hv) as Hg.
    rewrite Hn in Hg. destruct Hg as (i & hn & -> & Hi & Hnode & <-). cbn [mbind option_bind].
    destruct (set_weight_DecreaseKey_spec q M i hn w R Hi Hrm Hw) as (q' & hn' & E & R' & _ & _ & _ & Hni).
    rewrite E. cbn [mbind option_bind]. rewrite Hnode in R'. eexists _, _, _. split; [reflexivity|].
    split; [apply (spec_decrease_node M n (entry_of hn) w Hn)|]. by rewrite Hni.
  - destruct Hpre as [e Hn].
    destruct (SetData_spec q M n e d R Hn) as (q' & -> & R' & Hni).
    eexists _, _, _. split; [reflexivity|]. split; [by constructor|]. by rewrite Hni.
  - eexists _, _, _. split; [reflexivity|]. split; [by constructor|].
    split; [by apply DeleteAll_spec|done].
  - eexists _, _, _. split; [reflexivity|]. split; [by constructor|].
    split; [by eapply Clear_spec|]. intros n. simpl. by rewrite st_clear_valid.
Qed.

(** A queue over [ArrayStorage] with the reference heap, one node inserted. *)
Definition example_queue : option (QueryHeap ArrayStorage RefHeap Z unit) :=
  q ← Insert (QueryHeap_new (ArrayStorage_new 4)) 2 7 tt; Insert q 1 5 tt.

Lemma query_heap_refines_witness :
  exists q q', example_queue = Some q /\ qh_exec OpDeleteMinGetHeapNode q = Some (OutHeapNode 1 (mkQentry 5 tt true), q') /\
    WasRemoved q' 1 = Some true /\ WasInserted q' 3 = Some false /\ Size q' = 1.
Proof.
  destruct (Insert_spec (H := RefHeap) (QueryHeap_new (ArrayStorage_new 4)) ∅ 2 7 tt)
    as (q1 & E1 & R1 & V1).
  { apply qh_repr_nil. simpl. repeat constructor; lia. }
  { done. } { vm_compute. split; congruence. } { done. }
  destruct (Insert_spec q1 _ 1 5 tt R1) as (q2 & E2 & R2 & V2).
  { done. } { apply V1. vm_compute. split; congruence. } { done. }
  assert (example_queue = Some q2) as E by (unfold example_queue; rewrite E1; exact E2).
  destruct (query_heap_refines q2 _ OpDeleteMinGetHeapNode R2) as (out & q' & M' & Hx & Hspec & _ & Hq).
  { exists 1, (mkQentry 5 tt false). done. }
  exists q2, q'. assert (out = OutHeapNode 1 (mkQentry 5 tt true)) as ->.
  { vm_compute in E. injection E as <-. vm_compute in Hx. congruence. }
  split; [exact E|]. split; [exact Hx|].
  inversion Hspec as [| |M n e (Hn & Hr & Hm)| | | | |]; subst. split.
  - apply (qx_stored _ _ _ Hq 1 (mkQentry 5 tt true)). rewrite lookup_insert_eq. congruence.
  - split; [|rewrite (qx_size _ _ _ Hq); injection Hn as <-; vm_compute; reflexivity].
    rewrite (qx_inserted _ _ _ Hq); [done|]. apply V2, V1. vm_compute. split; congruence.
Defined.
