(* ===== verification/Relaxing.v ===== *)
(** * Relaxing arcs

    The step the label-setting searches of the engine share: a node reached
    over an arc is inserted into the queue, or moved forward when it is closer
    than before.  Here on the queue, on its abstract counterpart, and what a
    list of arcs does to it; the data kept with a node is any type. *)
From S2P Require Import Prelude QueryHeap.

Section relax.
Context {St H Handle Data : Type} `{IndexStorage St, MutableHeap H Handle}.

Definition relax (heap : QueryHeap St H Handle Data) (to to_weight : Z) (d : Data) : option (QueryHeap St H Handle Data) :=
  toHeapNode ← GetHeapNodeIfWasInserted heap to;
  match toHeapNode with
  | None => Insert heap to to_weight d
  | Some i =>
      hn ← inserted_nodes heap !z i;
      if to_weight <? hn_weight hn then
        h0 ← set_data_at heap i d;
        h1 ← set_weight_at h0 i to_weight;
        DecreaseKey_node h1 i
      else Some heap
  end.

(** Arcs out of a node of weight [w], one after the other. *)
Fixpoint relax_each (heap : QueryHeap St H Handle Data) (arcs : list (Z * Z)) (w : Z) (d : Data) : option (QueryHeap St H Handle Data) :=
  match arcs with
  | [] => Some heap
  | a :: arcs => heap' ← relax heap (fst a) (weight_add w (snd a)) d; relax_each heap' arcs w d
  end.
End relax.

Section relaxing.
Context {Data : Type}.

(** ** On the abstract queue *)

Abbreviation qmap := (gmap Z (qentry Data)).

Definition relax_map (M : qmap) (to w : Z) (d : Data) : qmap :=
  match M !! to with
  | None => <[to := mkQentry w d false]> M
  | Some e => if w <? qe_weight e then <[to := mkQentry w d false]> M else M
  end.

(** Arcs out of a node: where they lead and what they weigh. *)
Fixpoint relax_all (M : qmap) (arcs : list (Z * Z)) (w : Z) (d : Data) : qmap :=
  match arcs with
  | [] => M
  | a :: arcs => relax_all (relax_map M (fst a) (w + snd a) d) arcs w d
  end.

(** What relaxing arcs of a node of weight [w] leaves: lighter entries for
    their heads, settled ones as they were.  [T v wv d]: an arc offers [v] the
    weight [wv] and the data [d]. *)
Record relaxed (M M' : qmap) (T : Z -> Z -> Data -> Prop) : Prop := {
  rx_old v e : M !! v = Some e -> exists e', M' !! v = Some e' /\ qe_weight e' <= qe_weight e /\ qe_removed e' = qe_removed e;
  rx_reached v w d : T v w d -> exists e', M' !! v = Some e' /\ qe_weight e' <= w;
  rx_new v e : M' !! v = Some e -> M !! v = Some e \/ (qe_removed e = false /\ T v (qe_weight e) (qe_data e));
  rx_settled v e : M !! v = Some e -> qe_removed e = true -> M' !! v = Some e
}.

Lemma relaxed_iff M M' (T T' : Z -> Z -> Data -> Prop) : relaxed M M' T -> (forall v w d, T v w d <-> T' v w d) -> relaxed M M' T'.
Proof.
  intros [A B C D] HT. constructor; [done|intros v w d Hv; eapply B; by apply HT| |done].
  intros v e Hv. destruct (C v e Hv) as [?|[? ?]]; [by left|right]. split; [done|by apply HT].
Qed.

Lemma relaxed_refl M T : (forall v w d, ~ T v w d) -> relaxed M M T.
Proof. intros HT. constructor; [intros v e Hv; by exists e|by intros v w d []%HT|by left|done]. Qed.

Lemma relaxed_trans M1 M2 M3 (T1 T2 T : Z -> Z -> Data -> Prop) : relaxed M1 M2 T1 -> relaxed M2 M3 T2 ->
  (forall v w d, T v w d <-> T1 v w d \/ T2 v w d) -> relaxed M1 M3 T.
Proof.
  intros [A1 B1 C1 D1] [A2 B2 C2 D2] HT. constructor.
  - intros v e Hv. destruct (A1 v e Hv) as (e1 & K1 & W1 & R1). destruct (A2 v e1 K1) as (e2 & K2 & W2 & R2).
    exists e2. split; [done|]. split; [lia|congruence].
  - intros v w d [Hv|Hv]%HT; [|by eapply B2]. destruct (B1 v w d Hv) as (e1 & K1 & W1).
    destruct (A2 v e1 K1) as (e2 & K2 & W2 & _). exists e2. split; [done|lia].
  - intros v e Hv. destruct (C2 v e Hv) as [Hv1|(Hr & Ht)]; [|right; split; [done|apply HT; by right]].
    destruct (C1 v e Hv1) as [?|(Hr & Ht)]; [by left|]. right. split; [done|apply HT; by left].
  - intros v e Hv Hr. by apply D2; [apply D1|].
Qed.

Lemma relax_map_relaxed M to w d :
  (forall e, M !! to = Some e -> qe_removed e = true -> qe_weight e <= w) ->
  relaxed M (relax_map M to w d) (fun v w' d' => v = to /\ w' = w /\ d' = d).
Proof.
  intros Hrem. unfold relax_map. destruct (M !! to) as [e|] eqn:E; [destruct (Z.ltb_spec w (qe_weight e)) as [Hlt|Hge]|].
  - assert (qe_removed e = false) as Hl.
    { destruct (qe_removed e) eqn:Er; [|done]. specialize (Hrem e eq_refl Er). lia. }
    constructor.
    + intros v e' Hv. destruct (decide (v = to)) as [->|Hne].
      * rewrite lookup_insert_eq. eexists. split; [done|]. simplify_eq. simpl. split; [lia|done].
      * rewrite lookup_insert_ne by done. by exists e'.
    + intros v w' d' (-> & -> & ->). rewrite lookup_insert_eq. by eexists.
    + intros v e' [[<- <-]|[_ Hv]]%lookup_insert_Some; [by right|by left].
    + intros v e' Hv Hr. rewrite lookup_insert_ne; [done|]. intros ->. congruence.
  - constructor; [intros v e' Hv; by exists e'| |by left|done]. intros v w' d' (-> & -> & ->). by exists e.
  - constructor.
    + intros v e' Hv. rewrite lookup_insert_ne by congruence. by exists e'.
    + intros v w' d' (-> & -> & ->). rewrite lookup_insert_eq. by eexists.
    + intros v e' [[<- <-]|[_ Hv]]%lookup_insert_Some; [by right|by left].
    + intros v e' Hv Hr. rewrite lookup_insert_ne; [done|]. congruence.
Qed.

Definition offered (arcs : list (Z * Z)) (w : Z) (d : Data) (v wv : Z) (d' : Data) : Prop :=
  d' = d /\ exists x, (v, x) ∈ arcs /\ wv = w + x.

Lemma relax_all_relaxed arcs w d : (forall a, a ∈ arcs -> 0 < snd a) -> forall M,
  (forall v e, M !! v = Some e -> qe_removed e = true -> qe_weight e <= w) ->
  relaxed M (relax_all M arcs w d) (offered arcs w d).
Proof.
  induction arcs as [|[to x] arcs IH]; intros Hpos M Hrem; cbn [relax_all fst snd].
  { apply relaxed_refl. by intros v wv d' (_ & x & Hx%elem_of_nil & _). }
  assert (0 < x) as Hx by (apply (Hpos (to, x)); by left).
  assert (forall e, M !! to = Some e -> qe_removed e = true -> qe_weight e <= w + x) as Hle
    by (intros e He Hr; pose proof (Hrem _ _ He Hr); lia).
  pose proof (relax_map_relaxed M to (w + x) d Hle) as Hm.
  eapply relaxed_trans; [exact Hm|apply IH|].
  - intros a Ha. apply Hpos. by right.
  - intros v e Hv Hr. destruct (rx_new _ _ _ Hm v e Hv) as [Ho|(Hn & _)]; [by eapply Hrem|congruence].
  - intros v wv d'. unfold offered. split.
    + intros (-> & y & [[= -> ->]|Hy]%elem_of_cons & ->); [by left|right]. split; [done|]. by exists y.
    + intros [(-> & -> & ->)|(-> & y & Hy & ->)]; (split; [done|]); [exists x; split; [by left|done]|exists y; split; [by right|done]].
Qed.

End relaxing.

(** ** The queue relaxes as the map does *)

Section refinement.
Context {St H Handle Data : Type} `{SL : IndexStorageLaws St, HL : MutableHeapLaws H Handle}.
Context (num : Z).
Implicit Types (q : QueryHeap St H Handle Data) (M : gmap Z (qentry Data)).

Lemma relax_ok q M c r to w d :
  good num q M c r -> 0 <= to < num -> Z.of_nat (size M) + 1 < r ->
  (forall e, M !! to = Some e -> qe_removed e = true -> qe_weight e <= w) ->
  exists q', relax q to w d = Some q' /\ good num q' (relax_map M to w d) c r.
Proof.
  intros Hq Hto Hsz Hrem. pose proof Hq as [R V Rm]. unfold relax, relax_map.
  pose proof (GetHeapNodeIfWasInserted_spec q M to R (V to Hto)) as Hget.
  destruct (M !! to) as [e|] eqn:E; [|rewrite Hget; cbn [mbind option_bind]; by apply good_Insert].
  destruct Hget as (i & hn & Hg & Hi & Hnode & He). rewrite Hg. cbn [mbind option_bind].
  rewrite Hi. cbn [mbind option_bind]. subst to e. cbn [entry_of qe_weight].
  destruct (Z.ltb_spec w (hn_weight hn)) as [Hlt|Hge]; [|by exists q].
  assert (qe_removed (entry_of hn) = false) as Hl.
  { destruct (qe_removed (entry_of hn)) eqn:Er; [|done]. specialize (Hrem _ eq_refl Er). simpl in Hrem. lia. }
  destruct (set_data_at_spec q M i hn d R Hi) as (q1 & E1 & R1 & Hni1).
  rewrite E1. cbn [mbind option_bind].
  assert (inserted_nodes q1 !z i = Some (with_data hn d)) as Hi1.
  { unfold set_data_at in E1. rewrite Hi in E1. cbn [mbind option_bind] in E1. inv_opt. simpl.
    match goal with Hs : zset _ _ _ = Some _ |- _ => exact (zset_get_eq _ _ _ _ Hs) end. }
  destruct (set_weight_DecreaseKey_spec q1 _ i (with_data hn d) w R1 Hi1 Hl) as (q2 & hn2 & E2 & R2 & _ & _ & _ & Hni2);
    [simpl; lia|].
  cbn [mbind option_bind] in E2. exists q2. split; [exact E2|].
  cbn [hn_node with_data hn_data] in R2. rewrite insert_insert_eq in R2. eapply good_keep; [exact Hq|exact R2|congruence].
Qed.

Lemma relax_each_ok arcs w d maxw c r : 0 <= num -> num + 1 < r -> - 2 ^ 30 <= w -> w + maxw < 2 ^ 31 ->
  (forall v x, (v, x) ∈ arcs -> 0 <= v < num /\ 0 < x <= maxw) -> forall q M,
  good num q M c r -> (forall v e, M !! v = Some e -> 0 <= v < num) ->
  (forall v e, M !! v = Some e -> qe_removed e = true -> qe_weight e <= w) ->
  exists q' M', relax_each q arcs w d = Some q' /\ good num q' M' c r /\ relaxed M M' (offered arcs w d) /\
    forall v e, M' !! v = Some e -> 0 <= v < num.
Proof.
  intros Hn Hr Hw1 Hw2. induction arcs as [|[to x] arcs IH]; intros Ha q M Hq Hdom Hrem; cbn [relax_each fst snd].
  { exists q, M. split; [done|]. split; [done|]. split; [|done]. apply relaxed_refl. by intros v wv d' (_ & y & Hy%elem_of_nil & _). }
  destruct (Ha to x ltac:(by left)) as [Hto Hx]. unfold weight_add. rewrite swrap_small by lia.
  assert (forall e, M !! to = Some e -> qe_removed e = true -> qe_weight e <= w + x) as Hle
    by (intros e He Hr0; pose proof (Hrem _ _ He Hr0); lia).
  destruct (relax_ok q M c r to (w + x) d Hq Hto) as (q1 & E1 & Hq1); [pose proof (size_bound num M Hn Hdom); lia|done|].
  rewrite E1. cbn [mbind option_bind]. pose proof (relax_map_relaxed M to (w + x) d Hle) as HR.
  destruct (IH ltac:(intros v y Hy; apply Ha; by right) q1 _ Hq1) as (q2 & M2 & E2 & Hq2 & HR2 & Hdom2).
  { intros v e Hv. destruct (rx_new _ _ _ HR v e Hv) as [Ho|(_ & -> & _)]; [by eapply Hdom|done]. }
  { intros v e Hv Hr0. destruct (rx_new _ _ _ HR v e Hv) as [Ho|(? & _)]; [by eapply Hrem|congruence]. }
  exists q2, M2. split; [done|]. split; [done|]. split; [|done]. eapply relaxed_trans; [exact HR|exact HR2|].
  intros v wv d'. unfold offered. split.
  - intros (-> & y & [[= -> ->]|Hy]%elem_of_cons & ->); [by left|right]. split; [done|]. by exists y.
  - intros [(-> & -> & ->)|(-> & y & Hy & ->)]; (split; [done|]); [exists x; split; [by left|done]|exists y; split; [by right|done]].
Qed.
End refinement.
