(* ===== verification/RoutingBase.v ===== *)
(** * What the routing algorithms share

    Model of src/engine/routing_algorithms/routing_base.cpp and the first part of
    include/engine/routing_algorithms/routing_base.hpp: the phantom nodes at the
    ends of routes (include/engine/phantom_node.hpp), how they enter the queues
    of a bidirectional search, and which of them force a loop.  The data a search
    keeps with a node is a type with a parent. *)
From S2P Require Import Prelude QueryHeap.

Definition FORWARD_DIRECTION : bool := true.
Definition REVERSE_DIRECTION : bool := false.

(** ** Ends of routes *)

Record SegmentID : Type := mkSegmentID { segment_id : Z; enabled : bool }.

(** The fields that routing uses; distances, component, locations and bearing
    are left out. *)
Record PhantomNode : Type := mkPhantomNode {
  forward_segment_id : SegmentID;
  reverse_segment_id : SegmentID;
  forward_weight : Z;
  reverse_weight : Z;
  forward_weight_offset : Z;
  reverse_weight_offset : Z;
  forward_duration : Z;
  reverse_duration : Z;
  fwd_segment_position : Z;
  is_valid_forward_source : bool;
  is_valid_forward_target : bool;
  is_valid_reverse_source : bool;
  is_valid_reverse_target : bool
}.

Definition GetForwardWeightPlusOffset (p : PhantomNode) : Z := weight_add (forward_weight_offset p) (forward_weight p).
Definition GetReverseWeightPlusOffset (p : PhantomNode) : Z := weight_add (reverse_weight_offset p) (reverse_weight p).
Definition IsValidForwardSource (p : PhantomNode) : bool := enabled (forward_segment_id p) && is_valid_forward_source p.
Definition IsValidForwardTarget (p : PhantomNode) : bool := enabled (forward_segment_id p) && is_valid_forward_target p.
Definition IsValidReverseSource (p : PhantomNode) : bool := enabled (reverse_segment_id p) && is_valid_reverse_source p.
Definition IsValidReverseTarget (p : PhantomNode) : bool := enabled (reverse_segment_id p) && is_valid_reverse_target p.

(** ** Loops *)

Definition requiresForwardLoop (source target : PhantomNode) : bool :=
  IsValidForwardSource source && IsValidForwardTarget target &&
  (segment_id (forward_segment_id source) =? segment_id (forward_segment_id target)) &&
  (GetForwardWeightPlusOffset target <? GetForwardWeightPlusOffset source).

Definition requiresBackwardLoop (source target : PhantomNode) : bool :=
  IsValidReverseSource source && IsValidReverseTarget target &&
  (segment_id (reverse_segment_id source) =? segment_id (reverse_segment_id target)) &&
  (GetReverseWeightPlusOffset target <? GetReverseWeightPlusOffset source).

Definition getForwardLoopNodes (source_phantoms target_phantoms : list PhantomNode) : list Z :=
  source_phantom ← source_phantoms;
  if existsb (requiresForwardLoop source_phantom) target_phantoms then [segment_id (forward_segment_id source_phantom)] else [].

Definition getBackwardLoopNodes (source_phantoms target_phantoms : list PhantomNode) : list Z :=
  source_phantom ← source_phantoms;
  if existsb (requiresBackwardLoop source_phantom) target_phantoms then [segment_id (reverse_segment_id source_phantom)] else [].

(** ** Which candidates a path joins *)

Definition on_phantom (node : Z) (p : PhantomNode) : bool :=
  (node =? segment_id (forward_segment_id p)) || (node =? segment_id (reverse_segment_id p)).

(** [std::find_if]; the assertions that a candidate is found are the [None]. *)
Definition endpointsFromCandidates (source_phantoms target_phantoms : list PhantomNode) (path : list Z) : option (PhantomNode * PhantomNode) :=
  front ← head path;
  back ← last path;
  source ← List.find (on_phantom front) source_phantoms;
  target ← List.find (on_phantom back) target_phantoms;
  Some (source, target).

(** ** Queues *)

(** [HeapData(NodeID)] and its field [parent]. *)
Class HasParent (Data : Type) : Type := { of_parent : Z -> Data; parent_of : Data -> Z }.

Section heaps.
Context {St H Handle Data : Type} `{IndexStorage St, MutableHeap H Handle, HasParent Data}.
Abbreviation Heap := (QueryHeap St H Handle Data).
Implicit Types (heap forward_heap reverse_heap : Heap).

Definition force_loop (force_nodes : list Z) (heap_node : HeapNode Handle Data) : bool :=
  bool_decide (hn_node heap_node ∈ force_nodes) && (parent_of (hn_data heap_node) =? hn_node heap_node).

Definition insertSourceInForwardHeap heap (source : PhantomNode) : option Heap :=
  heap' ← (if IsValidForwardSource source
           then Insert heap (segment_id (forward_segment_id source)) (swrap 32 (0 - GetForwardWeightPlusOffset source))
                  (of_parent (segment_id (forward_segment_id source)))
           else Some heap);
  if IsValidReverseSource source
  then Insert heap' (segment_id (reverse_segment_id source)) (swrap 32 (0 - GetReverseWeightPlusOffset source))
         (of_parent (segment_id (reverse_segment_id source)))
  else Some heap'.

Definition insertTargetInReverseHeap heap (target : PhantomNode) : option Heap :=
  heap' ← (if IsValidForwardTarget target
           then Insert heap (segment_id (forward_segment_id target)) (GetForwardWeightPlusOffset target)
                  (of_parent (segment_id (forward_segment_id target)))
           else Some heap);
  if IsValidReverseTarget target
  then Insert heap' (segment_id (reverse_segment_id target)) (GetReverseWeightPlusOffset target)
         (of_parent (segment_id (reverse_segment_id target)))
  else Some heap'.

(** The two loops over phantom nodes of [insertNodesInHeaps]. *)
Fixpoint insert_phantoms (insert : Heap -> PhantomNode -> option Heap) heap (phantoms : list PhantomNode) : option Heap :=
  match phantoms with
  | [] => Some heap
  | p :: phantoms => heap' ← insert heap p; insert_phantoms insert heap' phantoms
  end.

Definition insertNodesInHeaps forward_heap reverse_heap (sources targets : list PhantomNode) : option (Heap * Heap) :=
  f ← insert_phantoms insertSourceInForwardHeap forward_heap sources;
  r ← insert_phantoms insertTargetInReverseHeap reverse_heap targets;
  Some (f, r).
End heaps.

Lemma force_loop_nil {Handle Data} `{HasParent Data} (hn : HeapNode Handle Data) : force_loop [] hn = false.
Proof. unfold force_loop. by rewrite bool_decide_eq_false_2 by apply not_elem_of_nil. Qed.

(** ** The nodes and weights that enter the queues *)

(** The nodes a phantom node starts or ends a route with, and their weights. *)
Definition source_ends (p : PhantomNode) : list (Z * Z) :=
  (if IsValidForwardSource p then [(segment_id (forward_segment_id p), swrap 32 (0 - GetForwardWeightPlusOffset p))] else []) ++
  (if IsValidReverseSource p then [(segment_id (reverse_segment_id p), swrap 32 (0 - GetReverseWeightPlusOffset p))] else []).

Definition target_ends (p : PhantomNode) : list (Z * Z) :=
  (if IsValidForwardTarget p then [(segment_id (forward_segment_id p), GetForwardWeightPlusOffset p)] else []) ++
  (if IsValidReverseTarget p then [(segment_id (reverse_segment_id p), GetReverseWeightPlusOffset p)] else []).

Definition end_list (sources targets : list PhantomNode) (DIRECTION : bool) : list (Z * Z) :=
  if DIRECTION then p ← sources; source_ends p else p ← targets; target_ends p.

(** The segments of a phantom node that are enabled. *)
Definition segments (p : PhantomNode) : list Z :=
  (if enabled (forward_segment_id p) then [segment_id (forward_segment_id p)] else []) ++
  (if enabled (reverse_segment_id p) then [segment_id (reverse_segment_id p)] else []).

Definition all_segments (ps : list PhantomNode) : list Z := p ← ps; segments p.

Lemma elem_of_segments p s : s ∈ segments p <-> (enabled (forward_segment_id p) = true /\ s = segment_id (forward_segment_id p)) \/
  (enabled (reverse_segment_id p) = true /\ s = segment_id (reverse_segment_id p)).
Proof.
  unfold segments. rewrite elem_of_app. destruct (enabled (forward_segment_id p)), (enabled (reverse_segment_id p));
    rewrite ?elem_of_nil, ?list_elem_of_singleton; intuition congruence.
Qed.

Lemma all_segments_cons p ps t : t ∈ all_segments (p :: ps) <-> t ∈ segments p \/ t ∈ all_segments ps.
Proof. unfold all_segments. rewrite bind_cons, elem_of_app. done. Qed.

Lemma end_list_segment sources targets DIRECTION s w : (s, w) ∈ end_list sources targets DIRECTION ->
  s ∈ all_segments sources \/ s ∈ all_segments targets.
Proof.
  assert (forall (v : bool) (x : SegmentID) p y, (x = forward_segment_id p \/ x = reverse_segment_id p) ->
    (s, w) ∈ (if enabled x && v then [(segment_id x, y)] else []) -> s ∈ segments p) as Hone.
  { intros v x p y Hx Hin. apply elem_of_segments. destruct (enabled x) eqn:E; simpl in Hin; [|by apply elem_of_nil in Hin].
    destruct v; [|by apply elem_of_nil in Hin]. apply list_elem_of_singleton in Hin as [= -> _]. destruct Hx; subst x; tauto. }
  unfold end_list, all_segments. destruct DIRECTION; intros (p & Hin & Hp)%list_elem_of_bind; [left|right];
    apply list_elem_of_bind; exists p; (split; [|done]); unfold source_ends, target_ends in Hin; apply elem_of_app in Hin as [Hin|Hin];
    by eapply Hone in Hin; eauto.
Qed.

Section insertion.
Context {St H Handle Data : Type} `{SL : IndexStorageLaws St, HL : MutableHeapLaws H Handle, HP : HasParent Data}.
Implicit Types (q : QueryHeap St H Handle Data).

(** The queue that holds the ends. *)
Definition end_map (l : list (Z * Z)) : gmap Z (qentry Data) := list_to_map ((fun x => (fst x, mkQentry (snd x) (of_parent (fst x)) false)) <$> l).

Lemma end_map_lookup l s e : NoDup (fst <$> l) -> end_map l !! s = Some e <-> exists w, (s, w) ∈ l /\ e = mkQentry w (of_parent s) false.
Proof.
  intros Hnd. unfold end_map. rewrite <- elem_of_list_to_map.
  - rewrite list_elem_of_fmap. split.
    + intros ([s' w] & [= -> ->] & Hin). by exists w.
    + intros (w & Hin & ->). by exists (s, w).
  - rewrite <- list_fmap_compose. exact Hnd.
Qed.

Fixpoint insert_ends q (l : list (Z * Z)) : option (QueryHeap St H Handle Data) :=
  match l with
  | [] => Some q
  | (s, w) :: l => q' ← Insert q s w (of_parent s); insert_ends q' l
  end.

Lemma insert_ends_app q l l' : insert_ends q (l ++ l') = (q' ← insert_ends q l; insert_ends q' l').
Proof.
  revert q. induction l as [|[s w] l IH]; intros q; [done|]. cbn [app insert_ends].
  destruct (Insert q s w (of_parent s)) as [q1|]; cbn [mbind option_bind]; [apply IH|done].
Qed.

Lemma insert_phantoms_ends insert (f : PhantomNode -> list (Z * Z)) : (forall q p, insert q p = insert_ends q (f p)) ->
  forall ps q, insert_phantoms insert q ps = insert_ends q (p ← ps; f p).
Proof.
  intros Hi. induction ps as [|p ps IH]; intros q; [done|]. cbn [insert_phantoms]. rewrite bind_cons, insert_ends_app, Hi.
  destruct (insert_ends q (f p)) as [q1|]; cbn [mbind option_bind]; [apply IH|done].
Qed.

Lemma insertNodesInHeaps_ends q q' sources targets : insertNodesInHeaps q q' sources targets =
  (f ← insert_ends q (end_list sources targets true); r ← insert_ends q' (end_list sources targets false); Some (f, r)).
Proof.
  unfold insertNodesInHeaps. rewrite (insert_phantoms_ends insertSourceInForwardHeap source_ends), (insert_phantoms_ends insertTargetInReverseHeap target_ends);
    [reflexivity|..];
    intros q0 p; [unfold insertTargetInReverseHeap, target_ends|unfold insertSourceInForwardHeap, source_ends]; rewrite insert_ends_app;
    [destruct (IsValidForwardTarget p), (IsValidReverseTarget p)|destruct (IsValidForwardSource p), (IsValidReverseSource p)];
    cbn [insert_ends mbind option_bind];
    repeat match goal with |- context [Insert ?a ?b ?c ?d] => destruct (Insert a b c d); cbn [mbind option_bind insert_ends] end; done.
Qed.

Lemma insert_ends_ok num l : NoDup (fst <$> l) -> (forall s w, (s, w) ∈ l -> 0 <= s < num) -> forall q c r,
  good num q ∅ c r -> num + 1 < r -> 0 <= num -> exists q', insert_ends q l = Some q' /\ good num q' (end_map l) c r.
Proof.
  intros Hnd Hr q c r Hq Hroom Hn.
  assert (forall done todo q0, l = done ++ todo -> good num q0 (end_map done) c r ->
    exists q', insert_ends q0 todo = Some q' /\ good num q' (end_map l) c r) as Hgo; [|by apply (Hgo [] l q)].
  intros dn todo. revert dn. induction todo as [|[s w] todo IH]; intros dn q0 -> Hq0; cbn [insert_ends].
  { exists q0. by rewrite app_nil_r. }
  rewrite fmap_app, fmap_cons in Hnd. apply NoDup_app in Hnd as (Hnd1 & Hdis & Hnd2).
  destruct (good_Insert num q0 (end_map dn) c r s w (of_parent s) Hq0) as (q1 & E & Hq1).
  - destruct (end_map dn !! s) as [e|] eqn:E; [|done]. apply (end_map_lookup dn s e Hnd1) in E as (w' & Hin & _).
    exfalso. apply (Hdis s); [by apply (list_elem_of_fmap_2 fst _ (s, w'))|left].
  - apply (Hr s w). apply elem_of_app. right. left.
  - assert (Z.of_nat (size (end_map dn)) <= num); [|lia]. apply size_bound; [done|]. intros x e Hx.
    apply (end_map_lookup dn x e Hnd1) in Hx as (w' & Hin & _). apply (Hr x w'). apply elem_of_app. by left.
  - rewrite E. cbn [mbind option_bind]. apply (IH (dn ++ [(s, w)]) q1); [by rewrite <- app_assoc|].
    assert (end_map (dn ++ [(s, w)]) = <[s := mkQentry w (of_parent s) false]> (end_map dn)) as ->; [|done].
    unfold end_map. rewrite fmap_app, fmap_cons, fmap_nil, list_to_map_snoc; [done|]. rewrite <- list_fmap_compose. intros Hin. apply (Hdis s); [exact Hin|left].
Qed.
End insertion.
