(* ===== verification/XorFastHash.v ===== *)
(** * The timestamped hash table behind the contractor's heap

    Model of [util::XORFastHash] (include/util/xor_fast_hash.hpp) and
    [util::XORFastHashStorage] (include/util/xor_fast_hash_storage.hpp):
    tabulation hashing and open addressing with linear probing, where a cell
    counts as occupied only if its timestamp is the current one, so that
    [Clear] is a counter increment.  The shuffled hash tables depend on the
    standard library's generator and are parameters. *)
From S2P Require Import Prelude QueryHeap.

Definition XORFastHash (table1 table2 : list Z) (originalValue : Z) : option Z :=
  let lsb := Z.land originalValue 65535 in
  let msb := wrap 16 (Z.shiftr originalValue 16) in
  t1 ← table1 !z lsb;
  t2 ← table2 !z msb;
  Some (Z.lxor t1 t2).

Record HashCell : Type := mkHashCell { hc_time : Z; hc_id : Z; hc_key : Z }.

Definition HashCell_new : HashCell := mkHashCell UINT32_MAX UINT32_MAX UINT32_MAX.

(** The copy constructor as written: [time(other.key), id(other.id),
    key(other.time)]. *)
Definition HashCell_copy (other : HashCell) : HashCell :=
  mkHashCell (hc_key other) (hc_id other) (hc_time other).

Record XORFastHashStorage : Type := mkXORFastHashStorage {
  MaxNumElements : Z;
  table1 : list Z;
  table2 : list Z;
  positions : list HashCell;
  current_timestamp : Z
}.

Definition XORFastHashStorage_new (max : Z) (t1 t2 : list Z) : XORFastHashStorage :=
  mkXORFastHashStorage max t1 t2 (replicate (Z.to_nat max) HashCell_new) 0.

(** The probing loop; one round per unit of fuel, [None] when the fuel runs
    out before a cell qualifies. *)
Fixpoint probe (fuel : nat) (max time : Z) (cells : list HashCell) (node position : Z) : option Z :=
  match fuel with
  | O => None
  | S fuel =>
      c ← cells !z position;
      if (hc_time c =? time) && negb (hc_id c =? node)
      then probe fuel max time cells node (wrap 16 (position + 1) mod max)
      else Some position
  end.

Definition find_cell (s : XORFastHashStorage) (node : Z) : option Z :=
  h ← XORFastHash (table1 s) (table2 s) node;
  probe (length (positions s)) (MaxNumElements s) (current_timestamp s) (positions s) node h.

(** [storage[node] = key] *)
Definition xor_store (s : XORFastHashStorage) (node key : Z) : option XORFastHashStorage :=
  position ← find_cell s node;
  ps ← zset position (mkHashCell (current_timestamp s) node key) (positions s);
  Some (mkXORFastHashStorage (MaxNumElements s) (table1 s) (table2 s) ps (current_timestamp s)).

Definition xor_peek_index (s : XORFastHashStorage) (node : Z) : option Z :=
  position ← find_cell s node;
  c ← positions s !z position;
  Some (hc_key c).

Definition xor_Clear (s : XORFastHashStorage) : XORFastHashStorage :=
  let t := wrap 32 (current_timestamp s + 1) in
  if UINT32_MAX =? t
  then mkXORFastHashStorage (MaxNumElements s) (table1 s) (table2 s)
         (replicate (Z.to_nat (MaxNumElements s)) HashCell_new) t
  else mkXORFastHashStorage (MaxNumElements s) (table1 s) (table2 s) (positions s) t.

#[global] Instance XORFastHashStorage_ops : IndexStorage XORFastHashStorage := {
  peek_index := xor_peek_index;
  store := xor_store;
  clear_index := xor_Clear
}.

(** ** Probing *)

Section probing.
Context (max time : Z) (Hmax : 0 < max <= 2 ^ 16).

Definition occupied (c : HashCell) : Prop := hc_time c = time.

Lemma next_position p : 0 <= p < max -> wrap 16 (p + 1) mod max = (p + 1) mod max.
Proof.
  intros Hp. destruct (decide (p + 1 < 2 ^ 16)) as [Hlt|Hge].
  - rewrite wrap_small; [done|]. unfold in_word. lia.
  - assert (p + 1 = 2 ^ 16) as E by lia. assert (max = 2 ^ 16) as -> by lia. by rewrite E.
Qed.

Lemma next_position_range p : 0 <= p < max -> 0 <= (p + 1) mod max < max.
Proof. intros. apply Z.mod_pos_bound. lia. Qed.

(** A probe that reaches a qualifying cell within its fuel returns. *)
Lemma probe_total fuel cells node p :
  zlen cells = max -> 0 <= p < max ->
  (exists d c, 0 <= d < Z.of_nat fuel /\ cells !z ((p + d) mod max) = Some c /\
     (hc_time c =? time) && negb (hc_id c =? node) = false) ->
  exists q c, probe fuel max time cells node p = Some q /\ 0 <= q < max /\
    cells !z q = Some c /\ (hc_time c =? time) && negb (hc_id c =? node) = false.
Proof.
  intros Hlen. revert p. induction fuel as [|fuel IH]; intros p Hp (d & c & Hd & Hc & Hq); [lia|].
  simpl. destruct (zget_is_some cells p) as [c0 Hc0]; [lia|]. step_opt Hc0.
  destruct ((hc_time c0 =? time) && negb (hc_id c0 =? node)) eqn:E.
  - rewrite next_position by done. apply IH; [by apply next_position_range|].
    assert (d <> 0).
    { intros ->. rewrite Z.add_0_r, Z.mod_small in Hc by done. congruence. }
    exists (d - 1), c. split; [lia|]. split; [|done].
    rewrite Zplus_mod_idemp_l. rewrite <- Hc. f_equal. f_equal. lia.
  - exists p, c0. done.
Qed.

(** Rewriting one cell does not disturb a probe that stops elsewhere at an
    occupied cell of its own node, as long as the rewritten cell was free or
    keeps its timestamp and node. *)
Lemma probe_stable fuel cells cells' node p q r c0 c1 :
  zlen cells = max -> 0 <= p < max ->
  probe fuel max time cells node p = Some q ->
  (exists c, cells !z q = Some c /\ hc_time c = time) ->
  cells !z r = Some c0 -> zset r c1 cells = Some cells' ->
  (hc_time c0 = time -> hc_time c1 = time /\ hc_id c1 = hc_id c0) ->
  (hc_time c0 <> time -> hc_id c1 <> node) ->
  probe fuel max time cells' node p = Some q.
Proof.
  intros Hlen. revert p. induction fuel as [|fuel IH]; intros p Hp Hpr Hq Hr Hs H1 H2; [done|].
  simpl in *. destruct (zget_is_some cells p) as [cp Hcp]; [lia|].
  rewrite Hcp in Hpr. cbn in Hpr. rewrite (zset_get _ _ _ _ _ Hs).
  destruct (decide (hc_time cp = time)) as [Ht|Ht].
  - assert (exists cp', (if decide (r = p) then Some c1 else cells !z p) = Some cp' /\
      hc_time cp' = time /\ hc_id cp' = hc_id cp) as (cp' & -> & Ht' & Hid).
    { case_decide; [|by exists cp]. subst r. assert (c0 = cp) as -> by congruence.
      destruct (H1 Ht). by exists c1. }
    cbn. rewrite Ht', Hid. rewrite Ht in Hpr.
    destruct ((time =? time) && negb (hc_id cp =? node)); [|done].
    rewrite next_position in * by done. apply IH; auto using next_position_range.
  - exfalso. rewrite (proj2 (Z.eqb_neq _ _)) in Hpr by done. simpl in Hpr.
    injection Hpr as <-. destruct Hq as (c & Hc & Hct). congruence.
Qed.

(** If every cell is taken by another node the loop never ends. *)
Lemma probe_diverges fuel cells node p :
  (forall c, c ∈ cells -> hc_time c = time /\ hc_id c <> node) ->
  probe fuel max time cells node p = None.
Proof.
  intros Hall. revert p. induction fuel as [|fuel IH]; intros p; [done|]. simpl.
  destruct (cells !z p) as [c|] eqn:Hc; [|done]. cbn.
  destruct (Hall c (zget_elem _ _ _ Hc)) as [-> Hne].
  rewrite Z.eqb_refl, (proj2 (Z.eqb_neq _ _) Hne). apply IH.
Qed.

End probing.

(** ** The table as an index storage *)

Definition xor_valid (s : XORFastHashStorage) (n : Z) : Prop :=
  exists h, XORFastHash (table1 s) (table2 s) n = Some h /\ 0 <= h < MaxNumElements s.

Record xor_ok (s : XORFastHashStorage) (X : gset Z) : Prop := {
  xo_max : 0 < MaxNumElements s <= 2 ^ 16;
  xo_len : zlen (positions s) = MaxNumElements s;
  xo_time : 0 <= current_timestamp s < UINT32_MAX;
  xo_cells : forall p c, positions s !z p = Some c ->
    0 <= hc_key c /\ (hc_time c = UINT32_MAX \/ 0 <= hc_time c <= current_timestamp s);
  xo_size : Z.of_nat (size X) < MaxNumElements s;
  xo_occ : forall p c, positions s !z p = Some c -> hc_time c = current_timestamp s ->
    hc_id c ∈ X /\ find_cell s (hc_id c) = Some p;
  xo_in : forall n, n ∈ X -> xor_valid s n /\ exists p c, find_cell s n = Some p /\
    positions s !z p = Some c /\ hc_time c = current_timestamp s /\ hc_id c = n
}.

Lemma xor_free_cell s X :
  xor_ok s X -> exists p c, positions s !z p = Some c /\ hc_time c <> current_timestamp s.
Proof.
  intros Hok.
  destruct (decide (Exists (fun c => hc_time c <> current_timestamp s) (positions s))) as [He|Hn].
  { apply Exists_exists in He as (c & [p Hp]%elem_zget & Ht). eauto. }
  exfalso. apply not_Exists_Forall in Hn; [|apply _].
  assert (forall p c, positions s !z p = Some c -> hc_time c = current_timestamp s) as Hall.
  { intros p c Hp. apply dec_stable.
    exact (proj1 (Forall_forall _ _) Hn c (zget_elem _ _ _ Hp)). }
  assert ((hc_id <$> positions s) ⊆+ elements X) as Hsub.
  { apply NoDup_submseteq.
    - apply NoDup_alt. intros i j x Hi Hj. rewrite list_lookup_fmap in Hi, Hj.
      apply fmap_Some in Hi as (ci & Hi & ->). apply fmap_Some in Hj as (cj & Hj & E).
      rewrite <- zget_nat in Hi, Hj.
      destruct (xo_occ _ _ Hok _ _ Hi (Hall _ _ Hi)) as [_ F1].
      destruct (xo_occ _ _ Hok _ _ Hj (Hall _ _ Hj)) as [_ F2]. rewrite <- E, F1 in F2.
      injection F2. lia.
    - intros x (c & -> & [p Hp]%elem_zget)%list_elem_of_fmap. apply elem_of_elements.
      by destruct (xo_occ _ _ Hok p c Hp (Hall _ _ Hp)). }
  apply submseteq_length in Hsub. rewrite length_fmap in Hsub.
  pose proof (xo_size _ _ Hok) as Hs. pose proof (xo_len _ _ Hok) as Hl.
  unfold zlen in Hl. unfold size, set_size in Hs. simpl in Hs. lia.
Qed.

Lemma find_cell_total s X n :
  xor_ok s X -> xor_valid s n ->
  exists p c, find_cell s n = Some p /\ positions s !z p = Some c /\
    (hc_time c = current_timestamp s -> hc_id c = n).
Proof.
  intros Hok (h & Hh & Hr). destruct (xor_free_cell _ _ Hok) as (u & c & Hu & Ht).
  pose proof (zget_some _ _ _ Hu) as Hur. rewrite (xo_len _ _ Hok) in Hur.
  unfold find_cell. step_opt Hh.
  destruct (probe_total (MaxNumElements s) (current_timestamp s) (xo_max _ _ Hok)
    (length (positions s)) (positions s) n h (xo_len _ _ Hok) Hr) as (q & cq & E & _ & Hq & Hc).
  - exists ((u - h) mod MaxNumElements s), c.
    pose proof (Z.mod_pos_bound (u - h) (MaxNumElements s) ltac:(lia)).
    pose proof (xo_len _ _ Hok) as Hl. unfold zlen in Hl. split; [lia|].
    rewrite Zplus_mod_idemp_r. replace (h + (u - h)) with u by lia.
    rewrite Z.mod_small by done. split; [done|].
    by rewrite (proj2 (Z.eqb_neq _ _) Ht).
  - exists q, cq. split_and!; try done. intros Hct. lia.
Qed.

Lemma probe_qualifies fuel max time cells node p q :
  probe fuel max time cells node p = Some q ->
  exists c, cells !z q = Some c /\ (hc_time c =? time) && negb (hc_id c =? node) = false.
Proof.
  revert p. induction fuel as [|fuel IH]; intros p Hp; [done|]. simpl in Hp. inv_opt.
  destruct ((hc_time r =? time) && negb (hc_id r =? node)) eqn:E; [by eapply IH|].
  injection Hp as <-. eauto.
Qed.

(** The cell that was found stays the node's cell after it is written. *)
Lemma probe_self fuel max time cells cells' node p q c1 :
  probe fuel max time cells node p = Some q ->
  zset q c1 cells = Some cells' -> hc_id c1 = node ->
  probe fuel max time cells' node p = Some q.
Proof.
  intros Hp Hs Hid. destruct (probe_qualifies _ _ _ _ _ _ _ Hp) as (cq & Hcq & Eq).
  revert p Hp. induction fuel as [|fuel IH]; intros p Hp; [done|]. simpl in *. inv_opt.
  rewrite (zset_get _ _ _ _ _ Hs). case_decide as E.
  - subst p. cbn. rewrite Hid, Z.eqb_refl, andb_false_r. done.
  - rewrite Hr. cbn. destruct ((hc_time r =? time) && negb (hc_id r =? node)); [by apply IH|done].
Qed.

Lemma find_cell_stable s s' X n m p :
  xor_ok s X -> m ∈ X -> m <> n -> find_cell s n = Some p ->
  MaxNumElements s' = MaxNumElements s -> table1 s' = table1 s -> table2 s' = table2 s ->
  current_timestamp s' = current_timestamp s ->
  (exists c1, hc_time c1 = current_timestamp s /\ hc_id c1 = n /\
     zset p c1 (positions s) = Some (positions s')) ->
  find_cell s' m = find_cell s m.
Proof.
  intros Hok Hm Hne Hp E1 E2 E3 E4 (c1 & Ht & Hid & Hs).
  destruct (xo_in _ _ Hok _ Hm) as ((h & Hh & Hr) & q & c & Hq & Hc & Hct & Hcid).
  rewrite Hq. unfold find_cell in *. rewrite E1, E2, E3, E4, Hh in *. cbn in *.
  inv_opt. pose proof (zset_len _ _ _ _ Hs) as Hl. unfold zlen in Hl.
  destruct (probe_qualifies _ _ _ _ _ _ _ Hp) as (c0 & Hc0 & Eq0).
  replace (length (positions s')) with (length (positions s)) by lia.
  eapply (probe_stable _ _ (xo_max _ _ Hok)); eauto.
  - apply Hok.
  - intros Hct0. split; [done|]. lia.
  - intros _. by rewrite Hid.
Qed.

Lemma xor_store_ok s X n k :
  xor_ok s X -> xor_valid s n -> Z.of_nat (size ({[n]} ∪ X)) < MaxNumElements s -> 0 <= k ->
  exists s', xor_store s n k = Some s' /\ xor_ok s' ({[n]} ∪ X) /\
    (forall m, xor_valid s' m <-> xor_valid s m) /\ xor_peek_index s' n = Some k /\
    (forall m, m ∈ X -> m <> n -> xor_peek_index s' m = xor_peek_index s m).
Proof.
  intros Hok Hv Hsz Hk. destruct (find_cell_total s X n Hok Hv) as (p & c0 & Hp & Hc0 & Hid0).
  destruct (zset_some (positions s) p (mkHashCell (current_timestamp s) n k)) as [ps Hs];
    [eauto with osrm|].
  unfold xor_store. step_opt Hp. step_opt Hs. eexists. split; [reflexivity|].
  set (s' := mkXORFastHashStorage _ _ _ _ _).
  assert (find_cell s' n = Some p) as Hp'.
  { unfold find_cell in *. simpl. inv_opt. step_opt Hr.
    pose proof (zset_len _ _ _ _ Hs) as Hl. unfold zlen in Hl.
    replace (length ps) with (length (positions s)) by lia. by eapply probe_self. }
  assert (forall m, m ∈ X -> m <> n -> find_cell s' m = find_cell s m) as Hst.
  { intros m Hm Hne. eapply find_cell_stable; eauto. eexists. split_and!; [| |exact Hs]; done. }
  assert (forall m, m ∈ X -> m <> n -> find_cell s m <> Some p) as Hdiff.
  { intros m Hm Hne E. destruct (xo_in _ _ Hok _ Hm) as (_ & q & c & Hq & Hc & Hct & Hcid).
    assert (q = p) as -> by congruence. assert (c = c0) as -> by congruence.
    apply Hne. rewrite <- Hcid. auto. }
  split; [constructor|split; [done|split]].
  - apply Hok.
  - simpl. rewrite (zset_len _ _ _ _ Hs). apply Hok.
  - apply Hok.
  - intros q c. simpl. rewrite (zset_get _ _ _ _ _ Hs). case_decide; [|apply (xo_cells _ _ Hok)].
    intros [= <-]. simpl. pose proof (xo_time _ _ Hok). lia.
  - done.
  - intros q c. simpl. rewrite (zset_get _ _ _ _ _ Hs). case_decide as E.
    + intros [= <-] _. simpl. subst q. split; [set_solver|done].
    + intros Hc Ht. destruct (xo_occ _ _ Hok _ _ Hc Ht) as [Hin Hf].
      assert (hc_id c <> n) by (intros En; rewrite En in Hf; congruence).
      split; [set_solver|]. by rewrite Hst.
  - intros m. rewrite elem_of_union, elem_of_singleton. intros Hm.
    destruct (decide (m = n)) as [->|Hne].
    + split; [done|]. exists p. eexists. split; [done|]. simpl.
      rewrite (zset_get_eq _ _ _ _ Hs). split_and!; reflexivity.
    + destruct Hm as [?|Hm]; [done|].
      destruct (xo_in _ _ Hok _ Hm) as (Hvm & q & c & Hq & Hc & Hct & Hcid).
      split; [done|]. exists q, c. rewrite Hst by done. simpl.
      rewrite (zset_get_ne _ _ _ _ _ Hs); [done|]. intros <-. by eapply Hdiff.
  - unfold xor_peek_index. step_opt Hp'. simpl. rewrite (zset_get_eq _ _ _ _ Hs). done.
  - intros m Hm Hne. unfold xor_peek_index. rewrite Hst by done.
    destruct (find_cell s m) as [q|] eqn:Eq; [|done]. cbn.
    rewrite (zset_get_ne _ _ _ _ _ Hs); [done|]. intros <-. by eapply Hdiff.
Qed.

Lemma xor_Clear_ok s X :
  xor_ok s X -> current_timestamp s + 1 < UINT32_MAX -> xor_ok (xor_Clear s) ∅.
Proof.
  intros Hok Ht. pose proof (xo_time _ _ Hok).
  assert (wrap 32 (current_timestamp s + 1) = current_timestamp s + 1) as Ew.
  { apply wrap_small. unfold in_word, UINT32_MAX in *. lia. }
  unfold xor_Clear. rewrite Ew, (proj2 (Z.eqb_neq _ _)) by lia.
  assert (forall p c, positions s !z p = Some c -> hc_time c <> current_timestamp s + 1) as Hold.
  { intros p c Hp. destruct (xo_cells _ _ Hok _ _ Hp) as [_ [?|?]]; lia. }
  constructor; simpl; try (by apply Hok); try lia.
  - intros p c Hp. destruct (xo_cells _ _ Hok _ _ Hp). lia.
  - intros p c Hp E. by apply Hold in Hp.
  - intros n Hn. set_solver.
Qed.

#[global] Instance XORFastHashStorage_laws : IndexStorageLaws XORFastHashStorage.
Proof.
  refine {| st_ok := xor_ok; st_valid := xor_valid;
            st_fits s X n := Z.of_nat (size ({[n]} ∪ X)) < MaxNumElements s;
            st_clearable s := current_timestamp s + 1 < UINT32_MAX;
            st_room s c r := 0 <= current_timestamp s /\ current_timestamp s + c < UINT32_MAX /\
                             r <= MaxNumElements s |}.
  - intros s X n Hok Hv. destruct (find_cell_total s X n Hok Hv) as (p & c & Hp & Hc & _).
    exists (hc_key c). simpl. unfold xor_peek_index. rewrite Hp. cbn. rewrite Hc.
    split; [done|]. by apply (xo_cells _ _ Hok p).
  - intros s X n k Hok Hv Hf Hk. by apply xor_store_ok.
  - intros s X Hok Hc. by eapply xor_Clear_ok.
  - intros s n. simpl. unfold xor_valid, xor_Clear. by destruct (UINT32_MAX =? _).
  - intros s X n c r Hok (_ & _ & Hr) Hsz.
    assert (size ({[n]} ∪ X) <= 1 + size X)%nat; [|lia].
    rewrite <- (size_singleton n (C := gset Z)). rewrite size_union_alt.
    assert (size (X ∖ {[n]}) <= size X)%nat; [|lia].
    apply subseteq_size. intros m Hm. by apply elem_of_difference in Hm as [Hm _].
  - intros s c c' r Hle (H0 & Ht & Hr). split; [done|]. split; [lia|done].
  - intros s n k s' c r Hr. simpl. unfold xor_store. intros E. inv_opt. exact Hr.
  - intros s c r (H0 & Ht & Hr) Hc. simpl. split; [lia|]. unfold xor_Clear, UINT32_MAX in *.
    rewrite (wrap_small 32) by (unfold in_word; lia). destruct (Z.eqb_spec (2 ^ 32 - 1) (current_timestamp s + 1)); simpl; lia.
Defined.

(** ** Properties *)

(** The table as constructed is empty. *)
Lemma xor_new_ok max t1 t2 :
  0 < max <= 2 ^ 16 -> xor_ok (xor_Clear (XORFastHashStorage_new max t1 t2)) ∅.
Proof.
  intros Hm. unfold xor_Clear, XORFastHashStorage_new. simpl.
  assert (forall p c, replicate (Z.to_nat max) HashCell_new !z p = Some c -> c = HashCell_new) as Hr.
  { intros p c Hp%zget_elem. by apply elem_of_replicate in Hp as [-> _]. }
  change (UINT32_MAX =? wrap 32 (0 + 1)) with false. cbv iota.
  change (wrap 32 (0 + 1)) with 1.
  constructor; simpl.
  - done.
  - unfold zlen. rewrite length_replicate. lia.
  - unfold UINT32_MAX. lia.
  - intros p c ->%Hr. split; [vm_compute; congruence|by left].
  - change (0 < max). lia.
  - intros p c ->%Hr E. vm_compute in E. discriminate.
  - intros n Hn. set_solver.
Qed.

(** C19: Until the timestamp is exhausted the hash table is an exact map for the
    nodes stored since the last [Clear]: with fewer than [MaxNumElements]
    nodes every probe terminates, a store is read back, the other nodes keep
    their keys, and [Clear] empties the table without touching a cell. *)
Theorem xor_storage_exact s X n k :
  xor_ok s X -> xor_valid s n -> Z.of_nat (size ({[n]} ∪ X)) < MaxNumElements s -> 0 <= k ->
  exists s', xor_store s n k = Some s' /\ xor_ok s' ({[n]} ∪ X) /\
    xor_peek_index s' n = Some k /\
    (forall m, m ∈ X -> m <> n -> xor_peek_index s' m = xor_peek_index s m) /\
    (forall m, xor_valid s m -> is_Some (xor_peek_index s' m)) /\
    (current_timestamp s + 1 < UINT32_MAX ->
       xor_ok (xor_Clear s') ∅ /\ positions (xor_Clear s') = positions s').
Proof.
  intros Hok Hv Hf Hk. destruct (xor_store_ok s X n k Hok Hv Hf Hk) as (s' & E & Hok' & Hv' & Hp & Hst).
  exists s'. split_and!; try done.
  - intros m Hm. destruct (find_cell_total s' _ m Hok') as (p & c & Hpm & Hc & _); [by apply Hv'|].
    unfold xor_peek_index. rewrite Hpm. cbn. rewrite Hc. eauto.
  - intros Ht. assert (current_timestamp s' = current_timestamp s) as Et.
    { unfold xor_store in E. inv_opt. done. }
    split; [eapply xor_Clear_ok; eauto; lia|].
    unfold xor_Clear. pose proof (xo_time _ _ Hok).
    rewrite Et, wrap_small, (proj2 (Z.eqb_neq _ _)) by (unfold in_word, UINT32_MAX in *; lia).
    done.
Qed.

(** A four-cell table in which nodes 1 and 5 collide. *)
Definition example_table : XORFastHashStorage :=
  xor_Clear (XORFastHashStorage_new 4 [0; 1; 2; 3; 0; 1] [0]).

Lemma xor_storage_exact_witness :
  exists s s', xor_store example_table 1 10 = Some s /\ xor_store s 5 20 = Some s' /\
    xor_peek_index s' 1 = Some 10 /\ xor_peek_index s' 5 = Some 20.
Proof.
  destruct (xor_storage_exact example_table ∅ 1 10) as (s & E & Hok & Hp & _).
  { apply xor_new_ok. lia. } { exists 1. split; [reflexivity|simpl; lia]. }
  { vm_compute. reflexivity. } { lia. }
  assert (s = mkXORFastHashStorage 4 [0; 1; 2; 3; 0; 1] [0]
    [HashCell_new; mkHashCell 1 1 10; HashCell_new; HashCell_new] 1) as Es.
  { vm_compute in E. injection E as <-. reflexivity. }
  destruct (xor_storage_exact s ({[1]} ∪ ∅) 5 20 Hok) as (s' & E' & _ & Hp' & Hst & _).
  { exists 1. rewrite Es. split; [reflexivity|simpl; lia]. }
  { rewrite Es. vm_compute. reflexivity. } { lia. }
  exists s, s'. split; [exact E|]. split; [exact E'|]. split; [|exact Hp'].
  rewrite (Hst 1); [exact Hp|set_solver|lia].
Defined.

(** The [Clear] that brings the timestamp to [UINT_MAX] makes the table
    unusable: it refills the table with fresh cells, but a fresh cell carries
    exactly that timestamp and node [UINT_MAX], so every cell counts as taken
    and the probing loop of [operator[]] and [peek_index] runs forever for
    every real node, however long it is allowed to run. *)
Theorem xor_storage_last_clear_hangs s node fuel p :
  current_timestamp s = UINT32_MAX - 1 -> node <> UINT32_MAX ->
  let s' := xor_Clear s in
  probe fuel (MaxNumElements s') (current_timestamp s') (positions s') node p = None.
Proof.
  intros Ht Hn. unfold xor_Clear. rewrite Ht.
  change (UINT32_MAX =? wrap 32 (UINT32_MAX - 1 + 1)) with true. simpl.
  apply probe_diverges. intros c [-> _]%elem_of_replicate. split; [reflexivity|].
  simpl. congruence.
Qed.

Definition exhausted_table : XORFastHashStorage :=
  mkXORFastHashStorage 4 [0; 1; 2; 3] [0] (replicate 4 HashCell_new) (UINT32_MAX - 1).

Lemma xor_storage_last_clear_hangs_witness :
  probe 1000 (MaxNumElements (xor_Clear exhausted_table))
    (current_timestamp (xor_Clear exhausted_table)) (positions (xor_Clear exhausted_table)) 2 2 = None.
Proof.
  apply (xor_storage_last_clear_hangs exhausted_table 2 1000 2); [reflexivity|discriminate].
Defined.
