(* ===== verification/Permutation.v ===== *)
(** * In-place permutations

    Model of include/util/permutation.hpp: [inplacePermutation] moves element
    [i] of a sequence to slot [old_to_new[i]] by walking the cycles of the
    permutation, with a bit vector of the slots already handled;
    [orderingToPermutation] inverts an ordering. *)
From S2P Require Import Prelude.

Section definitions.
Context {A : Type}.
Implicit Types (l : list A) (old_to_new : list Z) (was_replaced : list bool).

(** The [for] loop over one cycle; it returns the final [old_index] and
    [buffer] with the two arrays. *)
Fixpoint cycle_loop (fuel : nat) old_to_new (index old_index new_index : Z) (buffer : A)
    l was_replaced : option (Z * A * list A * list bool) :=
  match fuel with
  | O => None
  | S fuel =>
      if new_index =? index then Some (old_index, buffer, l, was_replaced)
      else
        rep ← zset old_index true was_replaced;
        tmp ← l !z new_index;
        l' ← zset new_index buffer l;
        next ← old_to_new !z new_index;
        cycle_loop fuel old_to_new index new_index next tmp l' rep
  end.

(** The loop body of [inplacePermutation] at [index]. *)
Definition permute_index old_to_new (st : list A * list bool) (index : Z)
  : option (list A * list bool) :=
  let '(l, was_replaced) := st in
  done ← was_replaced !z index;
  if (done : bool) then Some st
  else
    new_index ← old_to_new !z index;
    if new_index =? index then
      rep ← zset index true was_replaced; Some (l, rep)
    else
      buffer ← l !z index;
      '(old_index, buffer', l', rep) ←
        cycle_loop (S (length l)) old_to_new index index new_index buffer l was_replaced;
      rep' ← zset old_index true rep;
      l'' ← zset index buffer' l';
      Some (l'', rep').

Fixpoint permute_indices old_to_new (st : list A * list bool) (indices : list Z)
  : option (list A * list bool) :=
  match indices with
  | [] => Some st
  | i :: indices => st' ← permute_index old_to_new st i; permute_indices old_to_new st' indices
  end.

Definition inplacePermutation old_to_new l : option (list A) :=
  '(l', _) ← permute_indices old_to_new (l, replicate (length l) false) (seqZ 0 (zlen l));
  Some l'.
End definitions.

Fixpoint ordering_loop (index : Z) (ordering permutation : list Z) : option (list Z) :=
  match ordering with
  | [] => Some permutation
  | o :: ordering =>
      p ← zset o index permutation; ordering_loop (index + 1) ordering p
  end.

Definition orderingToPermutation (ordering : list Z) : option (list Z) :=
  ordering_loop 0 ordering (replicate (length ordering) 0).

(** ** Permutations of the indices [0 .. n-1] *)

Definition is_permutation (n : Z) (p : list Z) : Prop := p ≡ₚ seqZ 0 n.

Section index_permutations.
Context (n : Z) (p : list Z) (Hn : 0 <= n) (Hp : is_permutation n p).

Lemma perm_len : zlen p = n.
Proof using Hn Hp. unfold zlen. rewrite Hp, length_seqZ. lia. Qed.

Lemma perm_range i j : p !z i = Some j -> 0 <= j < n.
Proof using Hp. intros H%zget_elem. rewrite Hp, elem_of_seqZ in H. lia. Qed.

Lemma perm_inj i i' j : p !z i = Some j -> p !z i' = Some j -> i = i'.
Proof using Hp.
  intros H1 H2. pose proof (zget_some _ _ _ H1). pose proof (zget_some _ _ _ H2).
  unfold zget in *. destruct (Z.leb_spec 0 i), (Z.leb_spec 0 i'); try done.
  assert (NoDup p) as Hnd by (rewrite Hp; apply NoDup_seqZ).
  pose proof (proj1 (NoDup_alt p) Hnd _ _ _ H1 H2). lia.
Qed.

Lemma perm_surj j : 0 <= j < n -> exists i, p !z i = Some j.
Proof using Hp. intros Hj. apply elem_zget. rewrite Hp, elem_of_seqZ. lia. Qed.
End index_permutations.

Lemma is_permutation_intro n p :
  0 <= n -> zlen p = n -> (forall i j, p !z i = Some j -> 0 <= j < n) ->
  (forall i i' j, p !z i = Some j -> p !z i' = Some j -> i = i') -> is_permutation n p.
Proof.
  intros Hn Hlen Hr Hinj. unfold is_permutation.
  apply submseteq_length_Permutation.
  - apply NoDup_submseteq.
    + apply NoDup_alt. intros i j x Hi Hj. rewrite <- !zget_nat in *.
      pose proof (Hinj _ _ _ Hi Hj). lia.
    + intros x [i Hi]%elem_zget. rewrite elem_of_seqZ. apply Hr in Hi. lia.
  - rewrite length_seqZ. unfold zlen in Hlen. lia.
Qed.

#[global] Instance is_permutation_dec n p : Decision (is_permutation n p).
Proof. unfold is_permutation. apply _. Defined.

(** ** Marking slots *)

Definition unmarked (rep : list bool) : nat := length (filter (fun b => b = false) rep).

Lemma unmarked_set rep rep' i :
  rep !z i = Some false -> zset i true rep = Some rep' -> S (unmarked rep') = unmarked rep.
Proof.
  intros Hi [_ ->]%zset_inv. unfold zget in Hi. destruct (0 <=? i); [|done].
  revert Hi. unfold unmarked. generalize (Z.to_nat i). induction rep as [|b rep IH];
    intros [|k] Hk; simpl in *; simplify_eq; [done|].
  specialize (IH k Hk). rewrite !filter_cons. case_decide; simpl; lia.
Qed.

Lemma unmarked_le rep : (unmarked rep <= length rep)%nat.
Proof. apply length_filter. Qed.

(** ** The cycle walk *)

Section cycles.
Context {A : Type} (o2n : list Z) (L0 : list A).
Let n : Z := zlen L0.
Context (Hp : is_permutation n o2n).
Implicit Types (l : list A) (rep : list bool).

Lemma o2n_len : zlen o2n = n.
Proof using Hp. apply perm_len; [unfold n; eauto with osrm|done]. Qed.

Lemma o2n_dom i j : o2n !z i = Some j -> 0 <= i < n.
Proof using Hp. intros H%zget_some. by rewrite o2n_len in H. Qed.

(** Marked elements are in their new slot, the slots that unmarked elements go
    to still hold the original contents. *)
Record moved l rep : Prop := {
  mv_len : zlen l = n;
  mv_rep : zlen rep = n;
  mv_done : forall i j, rep !z i = Some true -> o2n !z i = Some j -> l !z j = L0 !z i;
  mv_todo : forall i j, rep !z i = Some false -> o2n !z i = Some j -> l !z j = L0 !z j
}.

(** Between two cycles the marks are closed under the permutation. *)
Record settled l rep : Prop := {
  st_moved : moved l rep;
  st_closed : forall i j b, o2n !z i = Some j -> rep !z i = Some b -> rep !z j = Some b
}.

(** Inside the cycle of [s], [old] being the next slot to mark. *)
Record walking (s : Z) l rep (old new : Z) (buffer : A) : Prop := {
  wk_moved : moved l rep;
  wk_old : rep !z old = Some false;
  wk_new : o2n !z old = Some new;
  wk_buffer : L0 !z old = Some buffer;
  wk_start : s = old \/ rep !z s = Some true;
  wk_prev : old = s \/ exists prev, o2n !z prev = Some old /\ rep !z prev = Some true;
  wk_back : forall i j, o2n !z i = Some j -> rep !z j = Some true ->
    rep !z i = Some true \/ j = s;
  wk_fwd : forall i j, o2n !z i = Some j -> rep !z i = Some true ->
    rep !z j = Some true \/ j = old
}.

Lemma mark_moved l l' rep rep' old new buffer :
  moved l rep -> o2n !z old = Some new -> L0 !z old = Some buffer -> rep !z old = Some false ->
  zset old true rep = Some rep' -> zset new buffer l = Some l' -> moved l' rep'.
Proof using Hp.
  intros [M1 M2 M3 M4] Ho Hb Hf Hr Hl. constructor.
  - by rewrite (zset_len _ _ _ _ Hl).
  - by rewrite (zset_len _ _ _ _ Hr).
  - intros i j. rewrite (zset_get _ _ _ _ _ Hr), (zset_get _ _ _ _ _ Hl).
    case_decide as E1.
    + subst i. intros _ Hi. assert (j = new) as -> by congruence. by rewrite decide_True.
    + intros Hi Hj. rewrite decide_False; [by apply M3|]. intros <-. by eapply E1, perm_inj.
  - intros i j. rewrite (zset_get _ _ _ _ _ Hr), (zset_get _ _ _ _ _ Hl).
    case_decide as E1; [done|].
    intros Hi Hj. rewrite decide_False; [by eapply M4|]. intros <-. by eapply E1, perm_inj.
Qed.

Lemma cycle_loop_ok fuel s l rep old new buffer :
  walking s l rep old new buffer -> (unmarked rep <= fuel)%nat -> (1 <= fuel)%nat ->
  exists old' buffer' l' rep',
    cycle_loop fuel o2n s old new buffer l rep = Some (old', buffer', l', rep') /\
    walking s l' rep' old' s buffer' /\
    (forall i, rep !z i = Some true -> rep' !z i = Some true).
Proof using Hp.
  revert l rep old new buffer. induction fuel as [|fuel IH];
    intros l rep old new buffer Hw Hfuel H1; [lia|].
  simpl. destruct (Z.eqb_spec new s) as [->|Hne]; [by exists old, buffer, l, rep|].
  destruct Hw as [M Ho Hn Hb Hs Hprev Hback Hfwd]. pose proof M as [M1 M2 M3 M4].
  pose proof (zget_some _ _ _ Ho) as Ro.
  assert (0 <= new < n) as Rn by (by eapply perm_range).
  destruct (zset_some rep old true Ro) as [rep' Hr]. rewrite Hr. cbn.
  assert (l !z new = L0 !z new) as Hlnew by (by eapply M4).
  destruct (zget_is_some L0 new Rn) as [x Hx]. rewrite Hlnew, Hx. cbn.
  destruct (zset_some l new buffer) as [l' Hl]; [lia|]. rewrite Hl. cbn.
  destruct (zget_is_some o2n new) as [nn Hnn]; [by rewrite o2n_len|].
  rewrite Hnn. cbn.
  assert (new <> old) as Hno.
  { intros ->. destruct Hprev as [->|(q & Hq & Hq')]; [done|].
    assert (q = old) as -> by (by eapply perm_inj). congruence. }
  assert (rep !z new = Some false) as Hnew.
  { destruct (zget_is_some rep new) as [[|] E]; [lia| |done].
    destruct (Hback old new Hn E); congruence. }
  pose proof (unmarked_set _ _ _ Ho Hr) as Hcnt.
  assert (0 < unmarked rep')%nat as Hpos.
  { destruct (zset_some rep' new true) as [rep'' Hr'']; [rewrite (zset_len _ _ _ _ Hr); lia|].
    assert (rep' !z new = Some false) as Hn' by (rewrite (zset_get_ne _ _ _ _ _ Hr); done).
    pose proof (unmarked_set _ _ _ Hn' Hr''). lia. }
  assert (forall i, rep' !z i = if decide (old = i) then Some true else rep !z i) as G
    by (intros i; by apply (zset_get _ _ _ _ _ Hr)).
  edestruct (IH l' rep' new nn x) as (old' & b' & l2 & rep2 & E & Hw & Hmono); [|lia|lia|].
  2:{ exists old', b', l2, rep2. split; [done|]. split; [done|].
      intros i Hi. apply Hmono. rewrite G. by case_decide. }
  constructor; try done.
  - by eapply (mark_moved l l' rep rep' old new).
  - rewrite G. rewrite decide_False; done.
  - right. rewrite G. case_decide; [done|]. by destruct Hs.
  - right. exists old. rewrite G, decide_True; done.
  - intros i j Hij. rewrite !G. case_decide as E1.
    + subst j. intros _. destruct Hprev as [->|(q & Hq & Hq')]; [by right|].
      assert (i = q) as -> by (by eapply perm_inj). left. by case_decide.
    + intros Hj. destruct (Hback i j Hij Hj); [left; by case_decide|by right].
  - intros i j Hij. rewrite !G. case_decide as E1.
    + subst i. intros _. right. congruence.
    + intros Hi. destruct (Hfwd i j Hij Hi) as [Hj| ->]; left; by case_decide.
Qed.

(** Marking the last element of the cycle closes it. *)
Lemma walking_end s l rep old buffer l' rep' :
  walking s l rep old s buffer -> zset old true rep = Some rep' -> zset s buffer l = Some l' ->
  settled l' rep'.
Proof using Hp.
  intros [M Ho Hn Hb Hs Hprev Hback Hfwd] Hr Hl. constructor; [by eapply mark_moved|].
  assert (forall i, rep' !z i = if decide (old = i) then Some true else rep !z i) as G
    by (intros i; by apply (zset_get _ _ _ _ _ Hr)).
  intros i j b Hij. rewrite !G. destruct (decide (old = i)) as [<-|Hi].
  - assert (j = s) as -> by congruence. intros [= <-]. case_decide; [done|].
    by destruct Hs.
  - intros Hib. destruct b.
    + destruct (Hfwd i j Hij Hib) as [Hj| ->]; by case_decide.
    + rewrite decide_False.
      * destruct (zget_is_some rep j) as [[|] E];
          [rewrite (mv_rep _ _ M); by eapply perm_range| |done].
        destruct (Hback i j Hij E) as [|Hjs]; [congruence|]. subst j.
        destruct Hi. by eapply perm_inj.
      * intros <-. destruct Hprev as [->|(q & Hq & Hq')].
        -- apply Hi. by eapply perm_inj.
        -- assert (i = q) as -> by (by eapply perm_inj). congruence.
Qed.

Lemma permute_index_ok l rep s :
  settled l rep -> 0 <= s < n ->
  exists l' rep', permute_index o2n (l, rep) s = Some (l', rep') /\ settled l' rep' /\
    rep' !z s = Some true /\ (forall i, rep !z i = Some true -> rep' !z i = Some true).
Proof using Hp.
  intros [M C] Hs. pose proof M as [M1 M2 M3 M4]. unfold permute_index.
  destruct (zget_is_some rep s) as [b Hb]; [lia|]. rewrite Hb. cbn [mbind option_bind].
  destruct b; [exists l, rep; by repeat split|].
  destruct (zget_is_some o2n s) as [new Hnew];
    [by rewrite o2n_len|].
  rewrite Hnew. cbn [mbind option_bind]. destruct (Z.eqb_spec new s) as [->|Hne].
  - destruct (zset_some rep s true) as [rep' Hr]; [lia|]. rewrite Hr. cbn. exists l, rep'.
    assert (forall i, rep' !z i = if decide (s = i) then Some true else rep !z i) as G
      by (intros i; by apply (zset_get _ _ _ _ _ Hr)).
    split; [done|]. split; [constructor; [constructor|]|].
    + done.
    + by rewrite (zset_len _ _ _ _ Hr).
    + intros i j. rewrite G. case_decide as E; [subst i|by apply M3].
      intros _ Hj. assert (j = s) as -> by congruence. by eapply M4.
    + intros i j. rewrite G. case_decide as E; [done|by apply M4].
    + intros i j b Hij. rewrite !G. case_decide as E.
      * subst i. assert (j = s) as -> by congruence. by rewrite decide_True.
      * intros Hi. rewrite decide_False; [by eapply C|]. intros <-. by eapply E, perm_inj.
    + rewrite G, decide_True by done. split; [done|]. intros i. rewrite G. by case_decide.
  - destruct (perm_surj n o2n Hp s Hs) as [q Hq].
    assert (rep !z q = Some false) as Hqf.
    { destruct (zget_is_some rep q) as [[|] E]; [|by rewrite (C q s true Hq E) in Hb|done].
      rewrite M2. by eapply o2n_dom. }
    destruct (zget_is_some L0 s Hs) as [x Hx].
    rewrite (M4 q s Hqf Hq), Hx. cbn [mbind option_bind].
    destruct (cycle_loop_ok (S (length l)) s l rep s new x) as (old' & b' & l' & rep' & E & Hw & Hm).
    + constructor; try done; try by left.
      * intros i j Hij Hj. left. destruct (zget_is_some rep i) as [[|] Ei]; [|done|].
        -- rewrite M2. by eapply o2n_dom.
        -- pose proof (C i j false Hij Ei). congruence.
      * intros i j Hij Hi. left. by eapply C.
    + pose proof (unmarked_le rep). unfold zlen in *. lia.
    + lia.
    + rewrite E. cbn [mbind option_bind].
      pose proof (wk_old _ _ _ _ _ _ Hw) as Ho. pose proof (mv_len _ _ (wk_moved _ _ _ _ _ _ Hw)).
      destruct (zset_some rep' old' true) as [rep2 Hr]; [eauto with osrm|]. rewrite Hr. cbn [mbind option_bind].
      destruct (zset_some l' s b') as [l2 Hl]; [lia|]. rewrite Hl. cbn.
      exists l2, rep2. split; [done|]. split; [by eapply walking_end|].
      rewrite !(zset_get _ _ _ _ _ Hr).
      split; [case_decide; [done|]; by destruct (wk_start _ _ _ _ _ _ Hw)|].
      intros i Hi. rewrite (zset_get _ _ _ _ _ Hr). case_decide; [done|]. by apply Hm.
Qed.

Lemma permute_indices_ok idx l rep :
  settled l rep -> (forall i, i ∈ idx -> 0 <= i < n) ->
  exists l' rep', permute_indices o2n (l, rep) idx = Some (l', rep') /\ settled l' rep' /\
    (forall i, i ∈ idx -> rep' !z i = Some true) /\
    (forall i, rep !z i = Some true -> rep' !z i = Some true).
Proof using Hp.
  revert l rep. induction idx as [|s idx IH]; intros l rep Hst Hr.
  - exists l, rep. split; [done|]. split; [done|]. split; [|done]. by intros i Hi%elem_of_nil.
  - cbn [permute_indices].
    destruct (permute_index_ok l rep s) as (l1 & rep1 & -> & Hst1 & Hs1 & Hm1); [done|apply Hr; by left|].
    cbn [mbind option_bind].
    destruct (IH l1 rep1) as (l2 & rep2 & -> & Hst2 & Hs2 & Hm2); [done|intros i Hi; apply Hr; by right|].
    exists l2, rep2. split; [done|]. split; [done|]. split; [|by auto].
    intros i [->|Hi]%elem_of_cons; auto.
Qed.

Lemma inplacePermutation_ok :
  exists l', inplacePermutation o2n L0 = Some l' /\ zlen l' = n /\
    forall i j, o2n !z i = Some j -> l' !z j = L0 !z i.
Proof using Hp.
  unfold inplacePermutation.
  assert (forall i b, replicate (length L0) false !z i = Some b -> b = false) as Hrep.
  { intros i b Hi%zget_elem. by apply elem_of_replicate in Hi as [-> _]. }
  destruct (permute_indices_ok (seqZ 0 (zlen L0)) L0 (replicate (length L0) false))
    as (l' & rep' & E & Hst & Hall & _).
  - constructor; [constructor|]; try done.
    + unfold n, zlen. by rewrite length_replicate.
    + by intros i j Hi%Hrep.
    + intros i j b Hij Hi. pose proof (Hrep _ _ Hi) as ->.
      destruct (zget_is_some (replicate (length L0) false) j) as [b Hj].
      { unfold zlen at 1. rewrite length_replicate. by eapply perm_range. }
      by pose proof (Hrep _ _ Hj) as ->.
  - intros i Hi. apply elem_of_seqZ in Hi. unfold n. lia.
  - rewrite E. cbn [mbind option_bind]. exists l'. split; [done|].
    destruct Hst as [[M1 M2 M3 M4] _]. split; [done|]. intros i j Hij. apply M3; [|done].
    apply Hall, elem_of_seqZ. apply o2n_dom in Hij. unfold n in Hij. lia.
Qed.
End cycles.

(** ** Orderings *)

Lemma ordering_loop_ok k ordering p :
  (forall i o, ordering !z i = Some o -> 0 <= o < zlen p) ->
  (forall i i' o, ordering !z i = Some o -> ordering !z i' = Some o -> i = i') ->
  exists p', ordering_loop k ordering p = Some p' /\ zlen p' = zlen p /\
    (forall i o, ordering !z i = Some o -> p' !z o = Some (k + i)) /\
    (forall o, (forall i, ordering !z i <> Some o) -> p' !z o = p !z o).
Proof.
  revert k p. induction ordering as [|o ordering IH]; intros k p Hr Hinj.
  - exists p. split; [done|]. split; [done|]. split; [|done].
    by intros i o Hi%zget_elem%elem_of_nil.
  - assert (forall i, (o :: ordering) !z (i + 1) = if 0 <=? i + 1 then
        (if 0 <=? i then ordering !z i else Some o) else None) as Hcons.
    { intros i. unfold zget. destruct (Z.leb_spec 0 (i + 1)), (Z.leb_spec 0 i); try lia; try done.
      - by replace (Z.to_nat (i + 1)) with (S (Z.to_nat i)) by lia.
      - by replace (Z.to_nat (i + 1)) with O by lia. }
    assert (forall i x, ordering !z i = Some x -> (o :: ordering) !z (i + 1) = Some x) as Hshift.
    { intros i x Hx. pose proof (zget_some _ _ _ Hx). rewrite Hcons.
      by replace (0 <=? i + 1) with true by lia; replace (0 <=? i) with true by lia. }
    assert ((o :: ordering) !z 0 = Some o) as H0 by done.
    cbn [ordering_loop]. destruct (zset_some p o k (Hr _ _ H0)) as [p1 Hp1]. rewrite Hp1.
    cbn [mbind option_bind]. pose proof (zset_len _ _ _ _ Hp1) as L1.
    destruct (IH (k + 1) p1) as (p' & -> & L' & G & F).
    + intros i x Hx. rewrite L1. by eapply Hr, Hshift.
    + intros i i' x Hx Hx'. pose proof (Hinj _ _ _ (Hshift _ _ Hx) (Hshift _ _ Hx')). lia.
    + exists p'. split; [done|]. split; [lia|]. split.
      * intros i x Hx. destruct (decide (i = 0)) as [->|Hi].
        -- assert (x = o) as -> by congruence. rewrite F; [rewrite Z.add_0_r; eauto with osrm|].
           intros i Hi. pose proof (zget_some _ _ _ Hi).
           pose proof (Hinj _ _ _ H0 (Hshift _ _ Hi)). lia.
        -- pose proof (zget_some _ _ _ Hx). pose proof (Hcons (i - 1)) as E.
           replace (i - 1 + 1) with i in E by lia. rewrite Hx in E.
           replace (0 <=? i) with true in E by lia. replace (0 <=? i - 1) with true in E by lia.
           rewrite (G (i - 1) x) by done. f_equal. lia.
      * intros x Hx. rewrite F; [|intros i Hi; by eapply Hx, Hshift].
        eapply zset_get_ne; [done|]. intros <-. by apply (Hx 0).
Qed.

Lemma orderingToPermutation_ok ordering :
  is_permutation (zlen ordering) ordering ->
  exists p, orderingToPermutation ordering = Some p /\ is_permutation (zlen ordering) p /\
    forall i o, ordering !z i = Some o -> p !z o = Some i.
Proof.
  intros Ho. unfold orderingToPermutation.
  assert (zlen (replicate (length ordering) 0) = zlen ordering) as Hl
    by (unfold zlen; by rewrite length_replicate).
  destruct (ordering_loop_ok 0 ordering (replicate (length ordering) 0)) as (p & E & L & G & F).
  { intros i o Hi. rewrite Hl. by eapply perm_range. }
  { intros i i' o. by apply (perm_inj (zlen ordering)). }
  exists p. split; [done|]. split; [|done].
  assert (forall o j, p !z o = Some j -> ordering !z j = Some o) as Hinv.
  { intros o j Hj. destruct (perm_surj _ _ Ho o) as [i Hi].
    - apply zget_some in Hj. lia.
    - rewrite (G i o Hi) in Hj. simplify_eq. by rewrite Z.add_0_l. }
  apply is_permutation_intro; [eauto with osrm|lia| |].
  - intros i j Hj%Hinv%zget_some. lia.
  - intros i i' j Hi%Hinv Hi'%Hinv. congruence.
Qed.

(** ** Claims *)

Lemma moved_Permutation {A} (p : list Z) (l l' : list A) :
  is_permutation (zlen l) p -> zlen l' = zlen l ->
  (forall i j, p !z i = Some j -> l' !z j = l !z i) -> l ≡ₚ l'.
Proof.
  intros Hp Hl G. pose proof (o2n_len p l Hp) as Lp. unfold zlen in *.
  apply Permutation_inj. split; [lia|].
  exists (fun i => match p !! i with Some j => Z.to_nat j | None => i end).
  assert (forall i j, p !! i = Some j -> 0 <= j < zlen l) as Hr.
  { intros i j. rewrite <- zget_nat. by apply perm_range. }
  split.
  - intros i i'. cbn beta. destruct (p !! i) eqn:Ei, (p !! i') eqn:Ei'; intros E.
    + pose proof (Hr _ _ Ei). pose proof (Hr _ _ Ei'). rewrite <- zget_nat in Ei, Ei'.
      assert (z = z0) as -> by lia. pose proof (perm_inj _ _ Hp _ _ _ Ei Ei'). lia.
    + pose proof (Hr _ _ Ei) as R. apply lookup_ge_None in Ei'. unfold zlen in R. lia.
    + pose proof (Hr _ _ Ei') as R. apply lookup_ge_None in Ei. unfold zlen in R. lia.
    + done.
  - intros i. destruct (p !! i) as [j|] eqn:Ei.
    + pose proof (Hr _ _ Ei). rewrite <- zget_nat in Ei. rewrite <- zget_nat, <- (G _ _ Ei).
      unfold zget. by replace (0 <=? j) with true by lia.
    + apply lookup_ge_None in Ei. rewrite !lookup_ge_None_2; [done|lia|lia].
Qed.

(** C21: [inplacePermutation(begin, end, old_to_new)] terminates for every
    permutation [old_to_new] of the indices, stays in bounds, and leaves
    element [i] in slot [old_to_new[i]]; nothing is lost. *)
Theorem inplacePermutation_permutes {A} (old_to_new : list Z) (l : list A)
    (Hp : is_permutation (zlen l) old_to_new) :
  exists l', inplacePermutation old_to_new l = Some l' /\ l' ≡ₚ l /\
    forall i j, old_to_new !z i = Some j -> l' !z j = l !z i.
Proof.
  destruct (inplacePermutation_ok old_to_new l Hp) as (l' & E & L & G).
  exists l'. split; [done|]. split; [|done]. symmetry. by eapply moved_Permutation.
Qed.

Lemma inplacePermutation_permutes_witness :
  exists l', inplacePermutation [2; 0; 1; 3] [10; 11; 12; 13] = Some l' /\ l' !z 2 = Some 10.
Proof.
  destruct (inplacePermutation_permutes [2; 0; 1; 3] [10; 11; 12; 13]) as (l' & E & _ & G).
  - apply (bool_decide_unpack _). vm_compute. exact I.
  - exists l'. split; [done|]. by apply (G 0 2).
Defined.

(** [orderingToPermutation(ordering)] is the inverse of an ordering of the
    indices, and applying it with [inplacePermutation] sorts a sequence into
    that ordering: slot [k] holds what was at [ordering[k]]. *)
Theorem orderingToPermutation_sorts {A} (ordering : list Z) (l : list A)
    (Hlen : zlen ordering = zlen l) (Ho : is_permutation (zlen l) ordering) :
  exists p l', orderingToPermutation ordering = Some p /\ is_permutation (zlen l) p /\
    inplacePermutation p l = Some l' /\
    forall k o, ordering !z k = Some o -> p !z o = Some k /\ l' !z k = l !z o.
Proof.
  destruct (orderingToPermutation_ok ordering) as (p & E & Hp & G); [by rewrite Hlen|].
  rewrite Hlen in Hp. destruct (inplacePermutation_ok p l Hp) as (l' & E' & _ & G').
  exists p, l'. split; [done|]. split; [done|]. split; [done|].
  intros k o Hk. split; [by apply G|]. by apply G', G.
Qed.

Lemma orderingToPermutation_sorts_witness :
  exists p l', orderingToPermutation [2; 0; 1] = Some p /\
    inplacePermutation p [10; 11; 12] = Some l' /\ l' !z 0 = Some 12.
Proof.
  destruct (orderingToPermutation_sorts [2; 0; 1] [10; 11; 12]) as (p & l' & E & _ & E' & G).
  - done.
  - apply (bool_decide_unpack _). vm_compute. exact I.
  - exists p, l'. split; [done|]. split; [done|]. by apply (G 0 2).
Defined.
