(* ===== verification/DynamicGraph.v ===== *)
(** * The adjacency structure of graphs under construction

    Model of [util::DynamicGraph<EdgeDataT>] (include/util/dynamic_graph.hpp):
    every node owns a contiguous range of the edge list, free slots are dummy
    edges (target [UINT32_MAX]), and an insertion uses the slot after the
    range, the slot before it, or moves the range to the end. *)
From S2P Require Import Prelude Permutation.

Definition SPECIAL_NODEID : Z := UINT32_MAX.
Definition SPECIAL_EDGEID : Z := UINT32_MAX.
Definition INVALID_EDGE_WEIGHT : Z := INT32_MAX.

Record DynamicNode : Type := mkDynamicNode { first_edge : Z; edges : Z }.

Record DynamicEdge (D : Type) : Type := mkDynamicEdge { target : Z; data : D }.
Arguments mkDynamicEdge {_}.
Arguments target {_}.
Arguments data {_}.

Record InputEdge (D : Type) : Type := mkInputEdge { ie_source : Z; ie_target : Z; ie_data : D }.
Arguments mkInputEdge {_}.
Arguments ie_source {_}.
Arguments ie_target {_}.
Arguments ie_data {_}.

Record DynamicGraph (D : Type) : Type := mkDynamicGraph {
  number_of_nodes : Z;
  number_of_edges : Z;
  node_array : list DynamicNode;
  edge_list : list (DynamicEdge D)
}.
Arguments mkDynamicGraph {_}.
Arguments number_of_nodes {_}.
Arguments number_of_edges {_}.
Arguments node_array {_}.
Arguments edge_list {_}.

Section dynamic_graph.
Context {D : Type} (dflt : DynamicEdge D).
Implicit Types (g : DynamicGraph D) (l : list (DynamicEdge D)).

(** [dflt] is what [resize] leaves in a new slot of the edge list. *)
Definition edges_resize l (n : Z) : list (DynamicEdge D) :=
  take (Z.to_nat n) l ++ replicate (Z.to_nat (n - zlen l)) dflt.

Definition DynamicGraph_empty (nodes : Z) : DynamicGraph D :=
  mkDynamicGraph nodes 0 (replicate (Z.to_nat nodes) (mkDynamicNode 0 0))
    (edges_resize [] nodes).

(** ** Construction from sorted edges *)

Fixpoint skip_source (node : Z) (es : list (InputEdge D)) : Z * list (InputEdge D) :=
  match es with
  | e :: es' =>
      if ie_source e =? node
      then let '(n, rest) := skip_source node es' in (n + 1, rest)
      else (0, es)
  | [] => (0, [])
  end.

(** First loop: a node entry per node, counting the run of its edges. *)
Fixpoint build_nodes (n : nat) (node position : Z) (es : list (InputEdge D))
  : list DynamicNode * Z :=
  match n with
  | O => ([], position)
  | S n =>
      let '(cnt, rest) := skip_source node es in
      let '(ns, p) := build_nodes n (node + 1) (position + cnt) rest in
      (mkDynamicNode position cnt :: ns, p)
  end.

(** Second loop: the edges of the runs, in order. *)
Definition build_edges (position : Z) (es : list (InputEdge D)) : list (DynamicEdge D) :=
  (fun e => mkDynamicEdge (ie_target e) (ie_data e)) <$> take (Z.to_nat position) es.

Definition DynamicGraph_new (nodes : Z) (graph : list (InputEdge D)) : DynamicGraph D :=
  let '(ns, position) := build_nodes (Z.to_nat nodes) 0 0 graph in
  mkDynamicGraph nodes (zlen graph) ns (build_edges position graph).

(** ** Queries *)

Definition GetNumberOfNodes g : Z := number_of_nodes g.
Definition GetNumberOfEdges g : Z := number_of_edges g.
Definition GetEdgeCapacity g : Z := zlen (edge_list g).
Definition GetOutDegree g (n : Z) : option Z := nd ← node_array g !z n; Some (edges nd).
Definition BeginEdges g (n : Z) : option Z := nd ← node_array g !z n; Some (first_edge nd).
Definition EndEdges g (n : Z) : option Z :=
  nd ← node_array g !z n; Some (wrap 32 (first_edge nd + edges nd)).
Definition GetTarget g (e : Z) : option Z := x ← edge_list g !z e; Some (target x).
Definition GetEdgeData g (e : Z) : option D := x ← edge_list g !z e; Some (data x).

Definition irange (a b : Z) : list Z := seqZ a (b - a).

Definition GetAdjacentEdgeRange g (n : Z) : option (list Z) :=
  b ← BeginEdges g n; e ← EndEdges g n; Some (irange b e).

(** The last node's entry is duplicated. *)
Definition InsertNode g : option (Z * DynamicGraph D) :=
  back ← last (node_array g);
  let n := wrap 32 (number_of_nodes g + 1) in
  Some (n, mkDynamicGraph n (number_of_edges g) (node_array g ++ [back]) (edge_list g)).

Fixpoint directed_degree (reversed : D -> bool) l (range : list Z) (degree : Z) : option Z :=
  match range with
  | [] => Some degree
  | i :: range =>
      e ← l !z i;
      directed_degree reversed l range (if reversed (data e) then degree else degree + 1)
  end.

Definition GetDirectedOutDegree (reversed : D -> bool) g (n : Z) : option Z :=
  range ← GetAdjacentEdgeRange g n; directed_degree reversed (edge_list g) range 0.

Definition SetTarget g (e n : Z) : option (DynamicGraph D) :=
  x ← edge_list g !z e;
  l ← zset e (mkDynamicEdge n (data x)) (edge_list g);
  Some (mkDynamicGraph (number_of_nodes g) (number_of_edges g) (node_array g) l).

Definition SetEdgeData g (e : Z) (d : D) : option (DynamicGraph D) :=
  x ← edge_list g !z e;
  l ← zset e (mkDynamicEdge (target x) d) (edge_list g);
  Some (mkDynamicGraph (number_of_nodes g) (number_of_edges g) (node_array g) l).

(** [for (i : range) if (to == edge_list[i].target) return i;] *)
Fixpoint find_edge_loop l (range : list Z) (to : Z) : option Z :=
  match range with
  | [] => Some SPECIAL_EDGEID
  | i :: range =>
      e ← l !z i;
      if to =? target e then Some i else find_edge_loop l range to
  end.

Definition FindEdge g (from to : Z) : option Z :=
  range ← GetAdjacentEdgeRange g from;
  find_edge_loop (edge_list g) range to.

Definition FindEdgeInEitherDirection g (from to : Z) : option Z :=
  tmp ← FindEdge g from to;
  if negb (SPECIAL_NODEID =? tmp) then Some tmp else FindEdge g to from.

Definition FindEdgeIndicateIfReverse g (from to : Z) (result : bool) : option (Z * bool) :=
  current ← FindEdge g from to;
  if SPECIAL_NODEID =? current
  then current' ← FindEdge g to from;
       Some (current', if negb (SPECIAL_NODEID =? current') then true else result)
  else Some (current, result).

Fixpoint find_smallest_loop l (weight_of : D -> Z) (range : list Z) (to smallest_edge smallest_weight : Z)
  : option Z :=
  match range with
  | [] => Some smallest_edge
  | i :: range =>
      e ← l !z i;
      if (target e =? to) && (weight_of (data e) <? smallest_weight)
      then find_smallest_loop l weight_of range to i (weight_of (data e))
      else find_smallest_loop l weight_of range to smallest_edge smallest_weight
  end.

Definition FindSmallestEdge g (weight_of : D -> Z) (from to : Z) : option Z :=
  range ← GetAdjacentEdgeRange g from;
  find_smallest_loop (edge_list g) weight_of range to SPECIAL_EDGEID INVALID_EDGE_WEIGHT.

(** ** Updates *)

Definition is_dummy (e : DynamicEdge D) : bool := target e =? UINT32_MAX.
Definition isDummy l (i : Z) : option bool := e ← l !z i; Some (is_dummy e).
Definition makeDummy l (i : Z) : option (list (DynamicEdge D)) :=
  e ← l !z i; zset i (mkDynamicEdge UINT32_MAX (data e)) l.

(** [edge_list[to] = edge_list[from]] *)
Definition copy_edge l (to from : Z) : option (list (DynamicEdge D)) :=
  e ← l !z from; zset to e l.

(** [newSize = node.edges * 1.1 + 2] truncated to [unsigned]: in binary64 the
    product with 1.1 is off by less than one part in 10^15, and a multiple of
    1/10 is either an integer, which it then reaches, or at least 1/10 away
    from one, so for 32-bit counts the truncation is that of 11/10. *)
Definition grown_size (n : Z) : Z := wrap 32 (11 * n / 10 + 2).

Fixpoint move_edges (n : nat) (i newFirst first : Z) l : option (list (DynamicEdge D)) :=
  match n with
  | O => Some l
  | S n =>
      l1 ← copy_edge l (newFirst + i) (first + i);
      l2 ← makeDummy l1 (first + i);
      move_edges n (i + 1) newFirst first l2
  end.

Fixpoint make_dummies (n : nat) (i : Z) l : option (list (DynamicEdge D)) :=
  match n with
  | O => Some l
  | S n => l' ← makeDummy l i; make_dummies n (i + 1) l'
  end.

(** Finds or makes room after the range of a node; the new first edge and list. *)
Definition make_room (first cnt : Z) l : option (Z * list (DynamicEdge D)) :=
  let one_beyond_last_of_node := wrap 32 (cnt + first) in
  end_taken ←
    (if one_beyond_last_of_node =? zlen l then Some true
     else d ← isDummy l one_beyond_last_of_node; Some (negb d));
  if (end_taken : bool) then
    before_free ← (if first =? 0 then Some false else isDummy l (first - 1));
    if (before_free : bool) then
      l' ← copy_edge l (first - 1) (first - 1 + cnt);
      Some (first - 1, l')
    else
      let newFirstEdge := wrap 32 (zlen l) in
      let newSize := grown_size cnt in
      let l1 := edges_resize l (zlen l + newSize) in
      l2 ← move_edges (Z.to_nat cnt) 0 newFirstEdge first l1;
      l3 ← make_dummies (Z.to_nat (newSize - (cnt + 1))) (newFirstEdge + (cnt + 1)) l2;
      Some (newFirstEdge, l3)
  else Some (first, l).

Definition InsertEdge g (from to : Z) (d : D) : option (Z * DynamicGraph D) :=
  node ← node_array g !z from;
  '(first, l) ← make_room (first_edge node) (edges node) (edge_list g);
  l' ← zset (first + edges node) (mkDynamicEdge to d) l;
  let cnt := wrap 32 (edges node + 1) in
  ns ← zset from (mkDynamicNode first cnt) (node_array g);
  Some (wrap 32 (first + cnt),
        mkDynamicGraph (number_of_nodes g) (wrap 32 (number_of_edges g + 1)) ns l').

Definition DeleteEdge g (source e : Z) : option (DynamicGraph D) :=
  node ← node_array g !z source;
  let cnt := wrap 32 (edges node - 1) in
  let last := wrap 32 (first_edge node + cnt) in
  l1 ← copy_edge (edge_list g) e last;
  l2 ← makeDummy l1 last;
  ns ← zset source (mkDynamicNode (first_edge node) cnt) (node_array g);
  Some (mkDynamicGraph (number_of_nodes g) (wrap 32 (number_of_edges g - 1)) ns l2).

(** The [do ... while] of [DeleteEdgesTo]: overwrite slot [i] with the last
    edge until it no longer leads to [tgt] or the range is used up. *)
Fixpoint delete_run (fuel : nat) (tgt i iend deleted : Z) l
  : option (Z * list (DynamicEdge D)) :=
  match fuel with
  | O => None
  | S fuel =>
      let deleted := deleted + 1 in
      l1 ← copy_edge l i (iend - deleted);
      l2 ← makeDummy l1 (iend - deleted);
      if i <? iend - deleted then
        e ← l2 !z i;
        if target e =? tgt then delete_run fuel tgt i iend deleted l2 else Some (deleted, l2)
      else Some (deleted, l2)
  end.

Fixpoint delete_loop (fuel : nat) (tgt i iend deleted : Z) l
  : option (Z * list (DynamicEdge D)) :=
  match fuel with
  | O => None
  | S fuel =>
      if i <? iend - deleted then
        e ← l !z i;
        '(deleted', l') ←
          (if target e =? tgt
           then delete_run (Z.to_nat (iend - i)) tgt i iend deleted l
           else Some (deleted, l));
        delete_loop fuel tgt (i + 1) iend deleted' l'
      else Some (deleted, l)
  end.

Definition DeleteEdgesTo g (source tgt : Z) : option (Z * DynamicGraph D) :=
  b ← BeginEdges g source;
  iend ← EndEdges g source;
  '(deleted, l) ← delete_loop (S (Z.to_nat (iend - b))) tgt b iend 0 (edge_list g);
  node ← node_array g !z source;
  ns ← zset source (mkDynamicNode (first_edge node) (wrap 32 (edges node - deleted))) (node_array g);
  Some (deleted, mkDynamicGraph (number_of_nodes g) (wrap 32 (number_of_edges g - deleted)) ns l).

(** ** Filtering *)

Fixpoint filter_nodes (keep : Z -> bool) l (node_id : Z) (ns : list DynamicNode)
    (out : list (DynamicEdge D)) : list DynamicNode * list (DynamicEdge D) :=
  match ns with
  | [] => ([], out)
  | nd :: ns =>
      let first := zlen out in
      if keep node_id then
        let out' := out ++ filter (fun e => keep (target e) = true) (zslice l (first_edge nd) (edges nd)) in
        let '(ns', res) := filter_nodes keep l (node_id + 1) ns out' in
        (mkDynamicNode first (zlen out' - first) :: ns', res)
      else
        let '(ns', res) := filter_nodes keep l (node_id + 1) ns out in
        (mkDynamicNode first 0 :: ns', res)
  end.

Definition Filter g (keep : Z -> bool) : DynamicGraph D :=
  let '(ns, l) := filter_nodes keep (edge_list g) 0 (node_array g) [] in
  mkDynamicGraph (number_of_nodes g) (number_of_edges g) ns l.

(** ** Renumbering *)

(** Retarget the edges of one node and give them the next edge indices. *)
Fixpoint renumber_edges (old_to_new_node : list Z) (range : list Z) l
    (old_to_new_edge : list Z) (new_edge_index : Z)
  : option (list (DynamicEdge D) * list Z * Z) :=
  match range with
  | [] => Some (l, old_to_new_edge, new_edge_index)
  | e :: range =>
      x ← l !z e;
      t ← old_to_new_node !z target x;
      l' ← zset e (mkDynamicEdge t (data x)) l;
      o ← zset e new_edge_index old_to_new_edge;
      renumber_edges old_to_new_node range l' o (wrap 32 (new_edge_index + 1))
  end.

(** The loop over the (already permuted) nodes. *)
Fixpoint renumber_nodes (old_to_new_node : list Z) (n : nat) (node : Z)
    (ns : list DynamicNode) l (old_to_new_edge : list Z) (new_edge_index : Z)
  : option (list DynamicNode * list (DynamicEdge D) * list Z * Z) :=
  match n with
  | O => Some (ns, l, old_to_new_edge, new_edge_index)
  | S n =>
      nd ← ns !z node;
      '(l', o, next) ← renumber_edges old_to_new_node
        (irange (first_edge nd) (wrap 32 (first_edge nd + edges nd))) l old_to_new_edge new_edge_index;
      ns' ← zset node (mkDynamicNode new_edge_index (edges nd)) ns;
      renumber_nodes old_to_new_node n (node + 1) ns' l' o next
  end.

(** The free slots get the remaining indices. *)
Fixpoint renumber_free (old_to_new_edge : list Z) (new_edge_index : Z) : list Z :=
  match old_to_new_edge with
  | [] => []
  | o :: os =>
      if o =? SPECIAL_EDGEID
      then new_edge_index :: renumber_free os (wrap 32 (new_edge_index + 1))
      else o :: renumber_free os new_edge_index
  end.

(** The outer option is undefined behaviour, the inner one the exception
    thrown for more than [2^32] edges. *)
Definition Renumber g (old_to_new_node : list Z) : option (option (DynamicGraph D)) :=
  ns ← inplacePermutation old_to_new_node (node_array g);
  if UINT32_MAX <=? zlen (edge_list g) then Some None
  else
    '(ns', l, o, valid) ← renumber_nodes old_to_new_node (Z.to_nat (number_of_nodes g)) 0 ns
      (edge_list g) (replicate (length (edge_list g)) SPECIAL_EDGEID) 0;
    l' ← inplacePermutation (renumber_free o valid) l;
    Some (Some (mkDynamicGraph (number_of_nodes g) valid ns' (edges_resize l' valid))).

End dynamic_graph.

(** ** Representation invariant and adjacency *)

Section invariant.
Context {D : Type}.
Implicit Types (g : DynamicGraph D) (l : list (DynamicEdge D)).

Definition adj g (n : Z) : list (DynamicEdge D) :=
  match node_array g !z n with
  | Some nd => zslice (edge_list g) (first_edge nd) (edges nd)
  | None => []
  end.

Definition owns (nd : DynamicNode) (i : Z) : Prop := first_edge nd <= i < first_edge nd + edges nd.

Record dg_wf g : Prop := {
  dw_nodes : zlen (node_array g) = number_of_nodes g;
  dw_range : forall n nd, node_array g !z n = Some nd ->
    0 <= first_edge nd /\ 0 <= edges nd /\ first_edge nd + edges nd <= zlen (edge_list g);
  dw_disjoint : forall n m nd md i, node_array g !z n = Some nd -> node_array g !z m = Some md ->
    n <> m -> owns nd i -> owns md i -> False;
  dw_live : forall n nd i e, node_array g !z n = Some nd -> owns nd i ->
    edge_list g !z i = Some e -> is_dummy e = false;
  dw_size : zlen (edge_list g) < 2 ^ 32
}.

(** ** Slot operations *)

Lemma isDummy_true l i b : isDummy l i = Some b -> exists e, l !z i = Some e /\ is_dummy e = b.
Proof. unfold isDummy. intros H. inv_opt. eauto. Qed.

Lemma makeDummy_ok l i :
  0 <= i < zlen l -> exists l', makeDummy l i = Some l' /\ zlen l' = zlen l /\
    (forall j, j <> i -> l' !z j = l !z j) /\
    exists e, l' !z i = Some e /\ is_dummy e = true.
Proof.
  intros Hi. destruct (zget_is_some l i Hi) as [e He]. unfold makeDummy. rewrite He. cbn.
  destruct (zset_some l i (mkDynamicEdge UINT32_MAX (data e)) Hi) as [l' Hl'].
  exists l'. split; [done|]. split; [by eapply zset_len|]. split.
  - intros j Hj. by eapply zset_get_ne.
  - eexists. split; [by eapply zset_get_eq|done].
Qed.

Lemma copy_edge_ok l i j e :
  0 <= i < zlen l -> l !z j = Some e ->
  exists l', copy_edge l i j = Some l' /\ zlen l' = zlen l /\ l' !z i = Some e /\
    (forall k, k <> i -> l' !z k = l !z k).
Proof.
  intros Hi He. unfold copy_edge. rewrite He. cbn.
  destruct (zset_some l i e Hi) as [l' Hl']. exists l'. split; [done|].
  split; [by eapply zset_len|]. split; [by eapply zset_get_eq|].
  intros k Hk. by eapply zset_get_ne.
Qed.

Lemma move_edges_ok n i newFirst first l :
  0 <= i -> 0 <= first -> first + i + Z.of_nat n <= newFirst ->
  newFirst + i + Z.of_nat n <= zlen l ->
  exists l', move_edges n i newFirst first l = Some l' /\ zlen l' = zlen l /\
    (forall k, i <= k < i + Z.of_nat n -> l' !z (newFirst + k) = l !z (first + k)) /\
    (forall j, ~ (first + i <= j < first + i + Z.of_nat n) ->
       ~ (newFirst + i <= j < newFirst + i + Z.of_nat n) -> l' !z j = l !z j).
Proof.
  revert i l. induction n as [|n IH]; intros i l Hi Hf Hn Hl.
  - exists l. split; [done|]. split; [done|]. split; [intros; lia|done].
  - simpl. destruct (zget_is_some l (first + i)) as [e He]; [lia|].
    destruct (copy_edge_ok l (newFirst + i) (first + i) e) as (l1 & -> & L1 & G1 & F1); [lia|done|].
    cbn. destruct (makeDummy_ok l1 (first + i)) as (l2 & -> & L2 & F2 & _); [lia|]. cbn.
    destruct (IH (i + 1) l2) as (l' & E & L' & G' & F'); [lia|lia|lia|lia|].
    exists l'. split; [done|]. split; [lia|]. split.
    + intros k Hk. destruct (decide (k = i)) as [->|Hne].
      * rewrite F' by lia. rewrite F2 by lia. by rewrite G1.
      * rewrite G' by lia. rewrite F2 by lia. rewrite F1 by lia. done.
    + intros j H1 H2. rewrite F' by lia. rewrite F2 by lia. rewrite F1 by lia. done.
Qed.

Lemma make_dummies_ok n i l :
  0 <= i -> i + Z.of_nat n <= zlen l ->
  exists l', make_dummies n i l = Some l' /\ zlen l' = zlen l /\
    (forall j, ~ (i <= j < i + Z.of_nat n) -> l' !z j = l !z j).
Proof.
  revert i l. induction n as [|n IH]; intros i l Hi Hl.
  - exists l. done.
  - simpl. destruct (makeDummy_ok l i) as (l1 & -> & L1 & F1 & _); [lia|]. cbn.
    destruct (IH (i + 1) l1) as (l' & E & L' & F'); [lia|lia|].
    exists l'. split; [done|]. split; [lia|]. intros j Hj. rewrite F' by lia. apply F1. lia.
Qed.

Lemma edges_resize_grow (dflt : DynamicEdge D) l k :
  0 <= k -> zlen (edges_resize dflt l (zlen l + k)) = zlen l + k /\
    forall j, j < zlen l -> edges_resize dflt l (zlen l + k) !z j = l !z j.
Proof.
  intros Hk. unfold edges_resize. rewrite take_ge by (unfold zlen; lia). split.
  - rewrite zlen_app. unfold zlen at 2. rewrite length_replicate. lia.
  - intros j Hj. by apply zget_app_l.
Qed.

(** What [make_room] must achieve for the node that owns [[first, first + cnt)]
    while [other i] says that another node owns slot [i]. *)
Record room (other : Z -> Prop) (first cnt : Z) l (first' : Z) (l' : list (DynamicEdge D)) : Prop := {
  rm_slot : 0 <= first' /\ first' + cnt < zlen l';
  rm_free : forall i, first' <= i <= first' + cnt -> ~ other i;
  rm_perm : zslice l' first' cnt ≡ₚ zslice l first cnt;
  rm_other : forall i, other i -> l' !z i = l !z i;
  rm_len : zlen l <= zlen l' <= zlen l + grown_size cnt
}.

Lemma grown_size_ge cnt : 0 <= cnt -> 11 * cnt / 10 + 2 < 2 ^ 32 -> cnt + 2 <= grown_size cnt.
Proof.
  intros Hc Hb. unfold grown_size.
  assert (cnt <= 11 * cnt / 10) by (apply Z.div_le_lower_bound; lia).
  rewrite wrap_small; unfold in_word; lia.
Qed.

Lemma make_room_ok (dflt : DynamicEdge D) other first cnt l :
  0 <= first -> 0 <= cnt -> first + cnt <= zlen l ->
  zlen l + (11 * cnt / 10 + 2) < 2 ^ 32 ->
  (forall i, other i -> ~ (first <= i < first + cnt) /\ 
     exists e, l !z i = Some e /\ is_dummy e = false) ->
  exists first' l', make_room dflt first cnt l = Some (first', l') /\
    room other first cnt l first' l'.
Proof.
  intros Hf Hc Hl Hcap Hoth.
  assert (cnt <= 11 * cnt / 10) as Hgrow by (apply Z.div_le_lower_bound; lia).
  assert (grown_size cnt = 11 * cnt / 10 + 2) as Hgs.
  { apply wrap_small. unfold in_word. pose proof (zlen_nonneg l). lia. }
  unfold make_room. rewrite (wrap_small 32 (cnt + first)) by (unfold in_word; lia).
  rewrite (wrap_small 32 (zlen l)) by (unfold in_word; pose proof (zlen_nonneg l); lia).
  assert (exists b, (if cnt + first =? zlen l then Some true
     else d ← isDummy l (cnt + first); Some (negb d)) = Some b /\
     (b = false -> cnt + first < zlen l /\
        exists e, l !z (cnt + first) = Some e /\ is_dummy e = true)) as (b & -> & Hb).
  { destruct (Z.eqb_spec (cnt + first) (zlen l)); [by exists true|].
    destruct (zget_is_some l (cnt + first)) as [e He]; [lia|].
    unfold isDummy. rewrite He. cbn. exists (negb (is_dummy e)). split; [done|].
    intros Hn. split; [lia|]. exists e. split; [done|]. by destruct (is_dummy e). }
  cbn. destruct b.
  2:{ destruct (Hb eq_refl) as (Hlt & e & He & Hd). exists first, l. split; [done|].
      constructor; try done; try lia. intros i Hi Ho.
      destruct (Hoth i Ho) as (Hni & e' & He' & Hd').
      assert (i = cnt + first) as -> by lia. congruence. }
  assert (exists b, (if first =? 0 then Some false else isDummy l (first - 1)) = Some b /\
     (b = true -> 0 < first /\ exists e, l !z (first - 1) = Some e /\ is_dummy e = true))
    as (b' & -> & Hb').
  { destruct (Z.eqb_spec first 0); [by exists false|].
    destruct (zget_is_some l (first - 1)) as [e He]; [lia|].
    unfold isDummy. rewrite He. cbn. exists (is_dummy e). split; [done|]. intros. split; [lia|eauto]. }
  cbn. destruct b'.
  - destruct (Hb' eq_refl) as (Hpos & e & He & Hd).
    destruct (zget_is_some l (first - 1 + cnt)) as [x Hx]; [lia|].
    destruct (copy_edge_ok l (first - 1) (first - 1 + cnt) x) as (l' & -> & L & G & F); [lia|done|].
    cbn. exists (first - 1), l'. split; [done|]. constructor; try lia.
    + intros i Hi Ho. destruct (Hoth i Ho) as (Hni & e' & He' & Hd').
      assert (i = first - 1) as -> by lia. congruence.
    + destruct (decide (cnt = 0)) as [->|Hne]; [done|].
      rewrite (zslice_cons l' (first - 1) cnt x) by (lia || done).
      replace (first - 1 + 1) with first by lia.
      replace cnt with (cnt - 1 + 1) at 2 by lia.
      rewrite (zslice_snoc l first (cnt - 1) x); [|lia|lia|lia|by rewrite <- Hx; f_equal; lia].
      rewrite (zslice_ext l l' first (cnt - 1)) by (lia || (intros; apply F; lia)).
      by rewrite Permutation_cons_append.
    + intros i Ho. apply F. intros ->. destruct (Hoth _ Ho) as (_ & e' & He' & Hd'). congruence.
  - destruct (edges_resize_grow dflt l (grown_size cnt)) as [L1 G1]; [lia|].
    set (l1 := edges_resize dflt l (zlen l + grown_size cnt)) in *.
    destruct (move_edges_ok (Z.to_nat cnt) 0 (zlen l) first l1) as (l2 & -> & L2 & M2 & F2);
      [lia|lia|lia|lia|].
    cbn. destruct (make_dummies_ok (Z.to_nat (grown_size cnt - (cnt + 1)))
      (zlen l + (cnt + 1)) l2) as (l3 & -> & L3 & F3); [pose proof (zlen_nonneg l); lia|lia|].
    cbn. exists (zlen l), l3. split; [done|].
    assert (forall i, other i -> 0 <= i < zlen l) as Hin.
    { intros i Ho. destruct (Hoth i Ho) as (_ & e & He & _). eauto with osrm. }
    pose proof (zlen_nonneg l). constructor; try lia.
    + intros i Hi Ho. apply Hin in Ho. lia.
    + rewrite (zslice_shift l l3 first (zlen l) cnt); [done|lia|lia|lia|lia|lia|].
      intros k Hk. rewrite F3 by lia. rewrite M2 by lia. apply G1. lia.
    + intros i Ho. pose proof (Hin i Ho). destruct (Hoth i Ho) as (Hni & _).
      rewrite F3 by lia. rewrite F2 by lia. apply G1. lia.
Qed.

End invariant.

(** ** Insertion and deletion *)

Section updates.
Context {D : Type}.
Implicit Types (g : DynamicGraph D) (l : list (DynamicEdge D)).

(** Slots owned by nodes other than [n]. *)
Definition owned_by_other g (n : Z) (i : Z) : Prop :=
  exists m md, m <> n /\ node_array g !z m = Some md /\ owns md i.

Lemma owned_by_other_live g n nd i :
  dg_wf g -> node_array g !z n = Some nd -> owned_by_other g n i ->
  ~ owns nd i /\ exists e, edge_list g !z i = Some e /\ is_dummy e = false.
Proof.
  intros Hwf Hn (m & md & Hne & Hm & Hi). split.
  - intros Ho. by apply (dw_disjoint _ Hwf n m nd md i).
  - destruct (dw_range _ Hwf _ _ Hm) as (H1 & H2 & H3). unfold owns in Hi.
    destruct (zget_is_some (edge_list g) i) as [e He]; [lia|].
    exists e. split; [done|]. by apply (dw_live _ Hwf m md i).
Qed.

(** Rewriting the edge list and one node's range keeps the invariant when the
    other nodes' slots are untouched and the new range is theirs to take. *)
Lemma dg_wf_replace g n nd nd' l' ne ns :
  dg_wf g -> node_array g !z n = Some nd -> zset n nd' (node_array g) = Some ns ->
  0 <= first_edge nd' -> 0 <= edges nd' -> first_edge nd' + edges nd' <= zlen l' ->
  zlen (edge_list g) <= zlen l' < 2 ^ 32 ->
  (forall i, owned_by_other g n i -> l' !z i = edge_list g !z i) ->
  (forall i, owned_by_other g n i -> ~ owns nd' i) ->
  (forall i e, owns nd' i -> l' !z i = Some e -> is_dummy e = false) ->
  dg_wf (mkDynamicGraph (number_of_nodes g) ne ns l') /\
  forall m, m <> n -> adj (mkDynamicGraph (number_of_nodes g) ne ns l') m = adj g m.
Proof.
  intros Hwf Hn Hs H1 H2 H3 H4 Hkeep Hfree Hlive.
  assert (forall m md, m <> n -> node_array g !z m = Some md -> forall i, owns md i ->
    owned_by_other g n i) as Hob by (intros m md Hne Hm i Hi; exists m, md; done).
  split.
  - constructor; simpl; [|intros m md|intros m m' md md' i|intros m md i e|lia].
    + rewrite (zset_len _ _ _ _ Hs). apply Hwf.
    + rewrite (zset_get _ _ _ _ _ Hs). case_decide; [by intros [= <-]|]. intros Hm.
      destruct (dw_range _ Hwf _ _ Hm). lia.
    + rewrite !(zset_get _ _ _ _ _ Hs). repeat case_decide; subst; try done.
      * intros [= <-] Hm' _ Hi Hi'. by apply (Hfree i); eauto.
      * intros Hm [= <-] _ Hi Hi'. by apply (Hfree i); eauto.
      * intros Hm Hm' Hne Hi Hi'. by apply (dw_disjoint _ Hwf m m' md md' i).
    + rewrite (zset_get _ _ _ _ _ Hs). case_decide; [intros [= <-]; by apply Hlive|].
      intros Hm Hi He. rewrite Hkeep in He by eauto. by apply (dw_live _ Hwf m md i).
  - intros m Hne. unfold adj. simpl. rewrite (zset_get_ne _ _ _ _ _ Hs) by done.
    destruct (node_array g !z m) as [md|] eqn:Hm; [|done].
    destruct (dw_range _ Hwf _ _ Hm) as (R1 & R2 & R3).
    apply zslice_ext; eauto; lia.
Qed.

Lemma is_dummy_target (to : Z) (d : D) :
  0 <= to < UINT32_MAX -> is_dummy (mkDynamicEdge to d) = false.
Proof. intros H. unfold is_dummy. simpl. lia. Qed.

Lemma InsertEdge_ok dflt g from nd to d :
  dg_wf g -> node_array g !z from = Some nd -> 0 <= to < UINT32_MAX ->
  zlen (edge_list g) + (11 * edges nd / 10 + 2) < 2 ^ 32 ->
  exists e g', InsertEdge dflt g from to d = Some (e, g') /\ dg_wf g' /\
    number_of_nodes g' = number_of_nodes g /\
    number_of_edges g' = wrap 32 (number_of_edges g + 1) /\
    adj g' from ≡ₚ mkDynamicEdge to d :: adj g from /\
    (forall m, m <> from -> adj g' m = adj g m) /\
    zlen (edge_list g') <= zlen (edge_list g) + (11 * edges nd / 10 + 2).
Proof.
  intros Hwf Hn Hto Hcap. destruct (dw_range _ Hwf _ _ Hn) as (R1 & R2 & R3).
  destruct (make_room_ok dflt (owned_by_other g from) (first_edge nd) (edges nd) (edge_list g))
    as (first & l & Er & Hroom); try done.
  { intros i Hi. exact (owned_by_other_live g from nd i Hwf Hn Hi). }
  destruct Hroom as [Hslot Hfree Hperm Hoth Hlen].
  assert (grown_size (edges nd) = 11 * edges nd / 10 + 2) as Egs.
  { apply wrap_small. unfold in_word. pose proof (zlen_nonneg (edge_list g)).
    assert (0 <= 11 * edges nd / 10) by (apply Z.div_pos; lia). lia. }
  unfold InsertEdge. rewrite Hn. cbn. rewrite Er. cbn.
  destruct (zset_some l (first + edges nd) (mkDynamicEdge to d)) as [l' Hl']; [lia|].
  rewrite Hl'. cbn [mbind option_bind]. pose proof (zset_len _ _ _ _ Hl') as Ll.
  rewrite (wrap_small 32 (edges nd + 1)) by (unfold in_word; pose proof (zlen_nonneg (edge_list g)); lia).
  destruct (zset_some (node_array g) from (mkDynamicNode first (edges nd + 1))) as [ns Hns];
    [eauto with osrm|].
  rewrite Hns. cbn. eexists _, _. split; [reflexivity|].
  assert (zslice l' first (edges nd + 1) = zslice l first (edges nd) ++ [mkDynamicEdge to d]) as Hsl.
  { rewrite (zslice_snoc l' first (edges nd) (mkDynamicEdge to d)); [|lia|lia|lia|eauto with osrm].
    f_equal. apply zslice_ext; try lia. intros i Hi. eapply zset_get_ne; [done|lia]. }
  assert (forall e, e ∈ zslice l first (edges nd) -> is_dummy e = false) as Hlv.
  { intros e He. rewrite Hperm in He. apply zslice_elem in He as (i & Hi & He); [|done].
    eapply (dw_live _ Hwf from nd i); eauto. }
  destruct (dg_wf_replace g from nd (mkDynamicNode first (edges nd + 1)) l'
    (wrap 32 (number_of_edges g + 1)) ns) as [Hwf' Hadj]; simpl; try done; try lia.
  { intros i Hi. rewrite <- (Hoth i Hi). eapply zset_get_ne; [done|].
    intros <-. apply (Hfree (first + edges nd)); [lia|done]. }
  { intros i Hi Ho. unfold owns in Ho. simpl in Ho. apply (Hfree i); [lia|done]. }
  { intros i e Ho He. unfold owns in Ho. simpl in Ho.
    assert (e ∈ zslice l' first (edges nd + 1)) as Hin.
    { apply (zget_elem _ (i - first)). rewrite zslice_get by lia.
      by replace (first + (i - first)) with i by lia. }
    rewrite Hsl in Hin. apply elem_of_app in Hin as [Hin|Hin]; [by apply Hlv|].
    apply list_elem_of_singleton in Hin as ->. by apply is_dummy_target. }
  split; [done|]. split; [done|]. split; [done|]. split; [|split; [done|simpl; lia]].
  unfold adj at 1. simpl. rewrite (zset_get_eq _ _ _ _ Hns). simpl. rewrite Hsl.
  unfold adj. rewrite Hn, Hperm. symmetry. apply Permutation_cons_append.
Qed.

Lemma DeleteEdge_ok g source nd e x :
  dg_wf g -> node_array g !z source = Some nd -> owns nd e -> edge_list g !z e = Some x ->
  edges nd <= UINT32_MAX ->
  exists g', DeleteEdge g source e = Some g' /\ dg_wf g' /\
    number_of_nodes g' = number_of_nodes g /\
    x :: adj g' source ≡ₚ adj g source /\ (forall m, m <> source -> adj g' m = adj g m).
Proof.
  intros Hwf Hn Ho Hx Hmax. destruct (dw_range _ Hwf _ _ Hn) as (R1 & R2 & R3).
  pose proof (dw_size _ Hwf) as Hsz. unfold owns in Ho.
  unfold DeleteEdge. rewrite Hn. cbn.
  rewrite (wrap_small 32 (edges nd - 1)) by (unfold in_word, UINT32_MAX in *; lia).
  rewrite (wrap_small 32 (first_edge nd + _)) by (unfold in_word, UINT32_MAX in *; lia).
  set (last := first_edge nd + (edges nd - 1)).
  destruct (zget_is_some (edge_list g) last) as [y Hy]; [lia|].
  destruct (copy_edge_ok (edge_list g) e last y) as (l1 & -> & L1 & G1 & F1); [lia|done|]. cbn.
  destruct (makeDummy_ok l1 last) as (l2 & -> & L2 & F2 & _); [lia|]. cbn.
  destruct (zset_some (node_array g) source (mkDynamicNode (first_edge nd) (edges nd - 1))) as [ns Hns];
    [eauto with osrm|].
  rewrite Hns. cbn. eexists. split; [reflexivity|].
  assert (forall i, owned_by_other g source i -> i <> e /\ i <> last) as Hne.
  { intros i Hi. destruct (owned_by_other_live _ _ _ _ Hwf Hn Hi) as [Hno _].
    unfold owns in Hno. lia. }
  destruct (dg_wf_replace g source nd (mkDynamicNode (first_edge nd) (edges nd - 1)) l2
    (wrap 32 (number_of_edges g - 1)) ns) as [Hwf' Hadj]; simpl; try done; try lia.
  { intros i Hi. destruct (Hne i Hi). rewrite F2 by done. by rewrite F1. }
  { intros i Hi Hw. destruct (owned_by_other_live _ _ _ _ Hwf Hn Hi) as [Hno _].
    unfold owns in *. simpl in *. lia. }
  { intros i z Hw Hz. unfold owns in Hw. simpl in Hw. rewrite F2 in Hz by lia.
    destruct (decide (i = e)) as [->|Hie].
    - assert (z = y) as -> by congruence. apply (dw_live _ Hwf source nd last); try done.
      unfold owns. lia.
    - rewrite F1 in Hz by done. apply (dw_live _ Hwf source nd i); try done. unfold owns. lia. }
  split; [done|]. split; [done|]. split; [|done].
  unfold adj. simpl. rewrite (zset_get_eq _ _ _ _ Hns), Hn. simpl.
  replace (edges nd) with (edges nd - 1 + 1) at 2 by lia.
  rewrite (zslice_snoc (edge_list g) (first_edge nd) (edges nd - 1) y) by (lia || done).
  rewrite <- Permutation_cons_append.
  eapply (zslice_overwrite (edge_list g) l2 (first_edge nd) (edges nd - 1) e); try done; try lia.
  - intros Hlt. rewrite F2 by lia. done.
  - intros j Hj Hje. rewrite F2 by lia. by apply F1.
Qed.

End updates.

(** ** Deleting every edge to a target *)

Section delete_edges_to.
Context {D : Type}.
Implicit Types (g : DynamicGraph D) (l : list (DynamicEdge D)).
Context (l0 : list (DynamicEdge D)) (tgt b iend : Z).
Context (Hb : 0 <= b <= iend) (Hend : iend <= zlen l0).

(** [deleted] edges to [tgt] have left the range so far. *)
Record deleting (deleted : Z) l : Prop := {
  dl_len : zlen l = zlen l0;
  dl_cnt : 0 <= deleted <= iend - b;
  dl_perm : exists gone, zlen gone = deleted /\ Forall (fun e => target e = tgt) gone /\
    gone ++ zslice l b (iend - deleted - b) ≡ₚ zslice l0 b (iend - b);
  dl_frame : forall j, ~ (b <= j < iend) -> l !z j = l0 !z j
}.

Lemma delete_run_ok fuel i deleted l e :
  deleting deleted l -> b <= i < iend - deleted -> l !z i = Some e -> target e = tgt ->
  (Z.to_nat (iend - deleted - i) <= fuel)%nat ->
  exists deleted' l', delete_run fuel tgt i iend deleted l = Some (deleted', l') /\
    deleting deleted' l' /\ deleted < deleted' /\
    (forall x, i < iend - deleted' -> l' !z i = Some x -> target x <> tgt) /\
    (forall j, j < i -> l' !z j = l !z j).
Proof using Hb Hend.
  revert deleted l e. induction fuel as [|fuel IH]; intros deleted l e HD Hi He Ht Hf; [lia|].
  destruct HD as [L C P F]. cbn [delete_run].
  set (last := iend - (deleted + 1)).
  destruct (zget_is_some l last) as [y Hy]; [lia|].
  destruct (copy_edge_ok l i last y) as (l1 & -> & L1 & G1 & F1); [lia|done|].
  cbn [mbind option_bind].
  destruct (makeDummy_ok l1 last) as (l2 & -> & L2 & F2 & _); [lia|]. cbn [mbind option_bind].
  assert (deleting (deleted + 1) l2) as HD2.
  { constructor; [lia|lia| |].
    - destruct P as (gone & Hlen & Hall & HP). exists (gone ++ [e]).
      split; [rewrite zlen_snoc; lia|]. split; [by apply Forall_app; auto using Forall_cons|].
      rewrite <- HP, <- app_assoc. apply Permutation_app_head. simpl.
      replace (iend - (deleted + 1) - b) with (last - b) by lia.
      replace (iend - deleted - b) with (last - b + 1) by lia.
      rewrite (zslice_snoc l b (last - b) y) by
        (lia || by replace (b + (last - b)) with last by lia).
      rewrite <- Permutation_cons_append.
      apply (zslice_overwrite l l2 b (last - b) i); try done; try lia.
      + by replace (b + (last - b)) with last by lia.
      + intros Hlt. rewrite F2 by lia. done.
      + intros j Hj Hji. rewrite F2 by lia. by apply F1.
    - intros j Hj. rewrite F2, F1 by lia. by apply F. }
  assert (forall j, j < i -> l2 !z j = l !z j) as Hlow.
  { intros j Hj. rewrite F2, F1 by lia. done. }
  destruct (Z.ltb_spec i last) as [Hlt|Hge].
  - rewrite F2, G1 by lia. cbn [mbind option_bind].
    destruct (Z.eqb_spec (target y) tgt) as [Ey|Ey].
    + destruct (IH (deleted + 1) l2 y) as (d' & l' & E & HD' & Hd & Hx & Hl); try done; try lia.
      { rewrite F2 by lia. done. }
      exists d', l'. split; [done|]. split; [done|]. split; [lia|]. split; [done|].
      intros j Hj. rewrite Hl by done. by apply Hlow.
    + exists (deleted + 1), l2. split; [done|]. split; [done|]. split; [lia|]. split; [|done].
      intros x _ Hx. rewrite F2, G1 in Hx by lia. by simplify_eq.
  - exists (deleted + 1), l2. split; [done|]. split; [done|]. split; [lia|]. split; [lia|done].
Qed.

Lemma delete_loop_ok fuel i deleted l :
  deleting deleted l -> b <= i -> (Z.to_nat (iend - i) < fuel)%nat ->
  (forall j x, b <= j < i -> j < iend - deleted -> l !z j = Some x -> target x <> tgt) ->
  exists deleted' l', delete_loop fuel tgt i iend deleted l = Some (deleted', l') /\
    deleting deleted' l' /\
    (forall j x, b <= j < iend - deleted' -> l' !z j = Some x -> target x <> tgt).
Proof using Hb Hend.
  revert i deleted l. induction fuel as [|fuel IH]; intros i deleted l HD Hi Hf Hdone; [lia|].
  cbn [delete_loop]. destruct (Z.ltb_spec i (iend - deleted)) as [Hlt|Hge].
  2:{ exists deleted, l. split; [done|]. split; [done|]. intros j x Hj. apply Hdone; lia. }
  pose proof HD as [L C P F].
  destruct (zget_is_some l i) as [e He]; [lia|]. rewrite He. cbn [mbind option_bind].
  destruct (Z.eqb_spec (target e) tgt) as [Et|Et].
  - destruct (delete_run_ok (Z.to_nat (iend - i)) i deleted l e) as (d' & l' & -> & HD' & Hd & Hx & Hl);
      try done; try lia.
    cbn [mbind option_bind]. apply IH; [done|lia|lia|].
    intros j x Hj Hjd Hjx. destruct (decide (j = i)) as [->|Hne]; [by apply Hx|].
    rewrite Hl in Hjx by lia. apply (Hdone j x); try done; lia.
  - cbn [mbind option_bind]. apply IH; [done|lia|lia|].
    intros j x Hj Hjd Hjx. destruct (decide (j = i)) as [->|Hne]; [by simplify_eq|].
    apply (Hdone j x); try done; lia.
Qed.

End delete_edges_to.

Section delete_spec.
Context {D : Type}.
Implicit Types (g : DynamicGraph D) (l : list (DynamicEdge D)).

Lemma DeleteEdgesTo_ok g source nd tgt :
  dg_wf g -> node_array g !z source = Some nd ->
  exists deleted g', DeleteEdgesTo g source tgt = Some (deleted, g') /\ dg_wf g' /\
    number_of_nodes g' = number_of_nodes g /\
    deleted = zlen (filter (fun e => target e = tgt) (adj g source)) /\
    adj g' source ≡ₚ filter (fun e => target e <> tgt) (adj g source) /\
    (forall m, m <> source -> adj g' m = adj g m) /\
    number_of_edges g' = wrap 32 (number_of_edges g - deleted) /\
    zlen (edge_list g') = zlen (edge_list g).
Proof.
  intros Hwf Hn. destruct (dw_range _ Hwf _ _ Hn) as (R1 & R2 & R3).
  pose proof (dw_size _ Hwf) as Hsz. unfold DeleteEdgesTo, BeginEdges, EndEdges. rewrite Hn.
  cbn [mbind option_bind]. rewrite (wrap_small 32 (_ + _)) by (unfold in_word; lia).
  set (b := first_edge nd) in *. set (iend := b + edges nd).
  edestruct (delete_loop_ok (edge_list g) tgt b iend) with
    (fuel := S (Z.to_nat (iend - b))) (i := b) (deleted := 0) (l := edge_list g)
    as (deleted & l & E & HD & Hno); [lia|lia| |lia|lia|intros; lia|].
  { constructor; [done|lia| |done]. exists []. split; [done|]. split; [constructor|].
    by replace (iend - 0 - b) with (iend - b) by lia. }
  rewrite E. cbn [mbind option_bind]. destruct HD as [L C (gone & Lg & Hall & HP) F].
  rewrite (wrap_small 32 (edges nd - deleted)) by (unfold in_word; lia).
  destruct (zset_some (node_array g) source (mkDynamicNode b (edges nd - deleted))) as [ns Hns];
    [eauto with osrm|].
  rewrite Hns. cbn [mbind option_bind]. eexists _, _. split; [done|].
  replace (iend - deleted - b) with (edges nd - deleted) in HP by lia.
  replace (iend - b) with (edges nd) in HP by lia.
  assert (zslice l b (edges nd - deleted) ⊆ zslice (edge_list g) b (edges nd)) as Hsub.
  { intros x Hx. rewrite <- HP. apply elem_of_app. by right. }
  assert (forall i, owned_by_other g source i -> ~ (b <= i < iend)) as Hne.
  { intros i Hi. by destruct (owned_by_other_live _ _ _ _ Hwf Hn Hi). }
  destruct (dg_wf_replace g source nd (mkDynamicNode b (edges nd - deleted)) l
    (wrap 32 (number_of_edges g - deleted)) ns) as [Hwf' Hadj]; simpl; try done; try lia.
  { intros i Hi. by apply F, Hne. }
  { intros i Hi Hw. apply (Hne i Hi). unfold owns in Hw. simpl in Hw. lia. }
  { intros i e Hw He. unfold owns in Hw. simpl in Hw.
    assert (e ∈ zslice (edge_list g) b (edges nd)) as Hin.
    { apply Hsub. apply (zget_elem _ (i - b)). rewrite zslice_get by lia.
      by replace (b + (i - b)) with i by lia. }
    apply zslice_elem in Hin as (k & Hk & Hin); [|done]. by eapply (dw_live _ Hwf source nd k). }
  split; [done|]. split; [done|].
  assert (forall x, x ∈ zslice l b (edges nd - deleted) -> target x <> tgt) as Hkeep.
  { intros x Hx. apply zslice_elem in Hx as (k & Hk & Hx); [|done]. apply (Hno k); [lia|done]. }
  rewrite Forall_forall in Hall.
  assert (adj g source = zslice (edge_list g) b (edges nd)) as -> by (unfold adj; by rewrite Hn).
  split; [|split; [|done]].
  - unfold zlen at 1. rewrite <- HP, filter_app, filter_all, filter_none by done.
    by rewrite app_nil_r.
  - unfold adj. simpl. rewrite (zset_get_eq _ _ _ _ Hns). simpl.
    rewrite <- HP, filter_app, filter_none, (filter_all _ (zslice _ _ _)); [done|done|].
    intros x Hx Hnt. by apply Hnt, Hall.
Qed.

(** ** Searching an adjacency list *)

Lemma adjacent_range g n nd :
  dg_wf g -> node_array g !z n = Some nd ->
  GetAdjacentEdgeRange g n = Some (seqZ (first_edge nd) (edges nd)).
Proof.
  intros Hwf Hn. destruct (dw_range _ Hwf _ _ Hn) as (R1 & R2 & R3).
  pose proof (dw_size _ Hwf). unfold GetAdjacentEdgeRange, BeginEdges, EndEdges. rewrite Hn.
  cbn [mbind option_bind]. rewrite wrap_small by (unfold in_word; lia).
  unfold irange. do 2 f_equal. lia.
Qed.

Lemma find_edge_loop_ok l (range : list Z) to :
  (forall i, i ∈ range -> 0 <= i < zlen l) ->
  (exists e x, find_edge_loop l range to = Some e /\ e ∈ range /\ l !z e = Some x /\ target x = to) \/
  (find_edge_loop l range to = Some SPECIAL_EDGEID /\
   forall i x, i ∈ range -> l !z i = Some x -> target x <> to).
Proof.
  induction range as [|i range IH]; intros Hr; simpl.
  { right. split; [done|]. by intros i x Hi%elem_of_nil. }
  destruct (zget_is_some l i) as [x Hx]; [apply Hr; by left|]. rewrite Hx. cbn [mbind option_bind].
  destruct (Z.eqb_spec to (target x)) as [->|Hne].
  { left. exists i, x. repeat split; try done. by left. }
  destruct IH as [(e & y & E & Hin & Hy & Ht)|[E Hno]].
  - intros j Hj. apply Hr. by right.
  - left. exists e, y. repeat split; try done. by right.
  - right. split; [done|]. intros j y [->|Hj]%elem_of_cons Hy; [congruence|by eapply Hno].
Qed.

(** An edge id of node [n] is an index into its adjacency list. *)
Definition edge_of g (n e : Z) (x : DynamicEdge D) : Prop :=
  exists nd, node_array g !z n = Some nd /\ owns nd e /\ edge_list g !z e = Some x.

Lemma edge_of_adj g n x : dg_wf g -> x ∈ adj g n <-> exists e, edge_of g n e x.
Proof.
  intros Hwf. unfold adj, edge_of. destruct (node_array g !z n) as [nd|] eqn:Hn.
  - destruct (dw_range _ Hwf _ _ Hn) as (R1 & R2 & R3). split.
    + intros Hx. apply zslice_elem in Hx as (e & He & Hx); [|done]. eauto.
    + intros (e & nd' & [= <-] & Ho & Hx). unfold owns in Ho.
      apply (zget_elem _ (e - first_edge nd)). rewrite zslice_get by lia.
      by replace (first_edge nd + (e - first_edge nd)) with e by lia.
  - split; [by intros Hx%elem_of_nil|]. by intros (e & nd & ? & _).
Qed.

Lemma edge_of_not_special g n e x : dg_wf g -> edge_of g n e x -> e <> SPECIAL_EDGEID.
Proof.
  intros Hwf (nd & Hn & Ho & Hx). destruct (dw_range _ Hwf _ _ Hn) as (R1 & R2 & R3).
  pose proof (dw_size _ Hwf). pose proof (zget_some _ _ _ Hx). unfold SPECIAL_EDGEID, UINT32_MAX. lia.
Qed.

Lemma FindEdge_ok g from nd to :
  dg_wf g -> node_array g !z from = Some nd ->
  (exists e x, FindEdge g from to = Some e /\ edge_of g from e x /\ target x = to) \/
  (FindEdge g from to = Some SPECIAL_EDGEID /\ forall x, x ∈ adj g from -> target x <> to).
Proof.
  intros Hwf Hn. destruct (dw_range _ Hwf _ _ Hn) as (R1 & R2 & R3).
  unfold FindEdge. rewrite (adjacent_range _ _ _ Hwf Hn). cbn [mbind option_bind].
  destruct (find_edge_loop_ok (edge_list g) (seqZ (first_edge nd) (edges nd)) to)
    as [(e & x & E & Hin & Hx & Ht)|[E Hno]].
  - intros i Hi%elem_of_seqZ. lia.
  - left. exists e, x. split; [done|]. split; [|done]. exists nd. apply elem_of_seqZ in Hin.
    split; [done|]. split; [unfold owns; lia|done].
  - right. split; [done|]. intros x Hx. apply edge_of_adj in Hx as (e & nd' & Hn' & Ho & Hx); [|done].
    simplify_eq. apply (Hno e); [|done]. apply elem_of_seqZ. unfold owns in Ho. lia.
Qed.

(** The running minimum of [FindSmallestEdge]. *)
Lemma find_smallest_loop_ok l (w : D -> Z) range to se sw :
  (forall i, i ∈ range -> 0 <= i < zlen l) ->
  exists e, find_smallest_loop l w range to se sw = Some e /\
    ((e = se /\ forall i x, i ∈ range -> l !z i = Some x -> target x = to -> sw <= w (data x)) \/
     (exists x, e ∈ range /\ l !z e = Some x /\ target x = to /\ w (data x) < sw /\
        forall i y, i ∈ range -> l !z i = Some y -> target y = to -> w (data x) <= w (data y))).
Proof.
  revert se sw. induction range as [|i range IH]; intros se sw Hr; simpl.
  { exists se. split; [done|]. left. split; [done|]. by intros i x Hi%elem_of_nil. }
  destruct (zget_is_some l i) as [x Hx]; [apply Hr; by left|]. rewrite Hx. cbn [mbind option_bind].
  assert (forall j, j ∈ range -> 0 <= j < zlen l) as Hr' by (intros j Hj; apply Hr; by right).
  destruct ((target x =? to) && (w (data x) <? sw)) eqn:Eb.
  - destruct (IH i (w (data x)) Hr') as (e & E & [[-> Hmin]|(y & Hin & Hy & Ht & Hlt & Hmin)]);
      exists e || exists i; (split; [done|]); right.
    + exists x. split; [by left|]. split; [done|]. split; [lia|]. split; [lia|].
      intros j z [->|Hj]%elem_of_cons Hz Htz; [simplify_eq; lia|by eapply Hmin].
    + exists y. split; [by right|]. split; [done|]. split; [done|]. split; [lia|].
      intros j z [->|Hj]%elem_of_cons Hz Htz; [simplify_eq; lia|by eapply Hmin].
  - destruct (IH se sw Hr') as (e & E & [[-> Hmin]|(y & Hin & Hy & Ht & Hlt & Hmin)]).
    + exists se. split; [done|]. left. split; [done|].
      intros j z [->|Hj]%elem_of_cons Hz Htz; [simplify_eq; lia|by eapply Hmin].
    + exists e. split; [done|]. right. exists y. split; [by right|]. repeat (split; [done|]).
      intros j z [->|Hj]%elem_of_cons Hz Htz; [simplify_eq; lia|by eapply Hmin].
Qed.

Lemma FindSmallestEdge_ok g (w : D -> Z) from nd to :
  dg_wf g -> node_array g !z from = Some nd ->
  exists e, FindSmallestEdge g w from to = Some e /\
    ((e = SPECIAL_EDGEID /\
      forall x, x ∈ adj g from -> target x = to -> INVALID_EDGE_WEIGHT <= w (data x)) \/
     exists x, edge_of g from e x /\ target x = to /\ w (data x) < INVALID_EDGE_WEIGHT /\
      forall y, y ∈ adj g from -> target y = to -> w (data x) <= w (data y)).
Proof.
  intros Hwf Hn. destruct (dw_range _ Hwf _ _ Hn) as (R1 & R2 & R3).
  unfold FindSmallestEdge. rewrite (adjacent_range _ _ _ Hwf Hn). cbn [mbind option_bind].
  destruct (find_smallest_loop_ok (edge_list g) w (seqZ (first_edge nd) (edges nd)) to
    SPECIAL_EDGEID INVALID_EDGE_WEIGHT) as (e & E & H); [intros i Hi%elem_of_seqZ; lia|].
  assert (forall x, x ∈ adj g from -> exists i, i ∈ seqZ (first_edge nd) (edges nd) /\
    edge_list g !z i = Some x) as Hadj.
  { intros x Hx. apply edge_of_adj in Hx as (i & nd' & Hn' & Ho & Hx); [|done]. simplify_eq.
    exists i. split; [|done]. apply elem_of_seqZ. unfold owns in Ho. lia. }
  exists e. split; [done|]. destruct H as [[-> Hmin]|(x & Hin & Hx & Ht & Hlt & Hmin)].
  - left. split; [done|]. intros x (i & Hi & Hx)%Hadj. by apply (Hmin i).
  - right. exists x. split.
    + exists nd. apply elem_of_seqZ in Hin. split; [done|]. split; [unfold owns; lia|done].
    + split; [done|]. split; [done|]. intros y (i & Hi & Hy)%Hadj. by apply (Hmin i).
Qed.
End delete_spec.

(** ** Writing edge data in place *)

Lemma zset_id {A} (l : list A) i x : l !z i = Some x -> zset i x l = Some l.
Proof.
  intros Hx. destruct (zset_some l i x (zget_some _ _ _ Hx)) as [l' Hl']. rewrite Hl'. f_equal.
  apply zlist_eq; [by eapply zset_len|]. intros j _. rewrite (zset_get _ _ _ _ _ Hl').
  case_decide; congruence.
Qed.

Lemma zslice_zset {A} (l l' : list A) a n i y :
  0 <= a -> 0 <= n -> a + n <= zlen l -> a <= i < a + n -> zset i y l = Some l' ->
  zset (i - a) y (zslice l a n) = Some (zslice l' a n).
Proof.
  intros Ha Hn Hl Hi Hs. pose proof (zset_len _ _ _ _ Hs) as L.
  destruct (zset_some (zslice l a n) (i - a) y) as [k Hk]; [rewrite zslice_len; lia|].
  rewrite Hk. f_equal. apply zlist_eq; [rewrite (zset_len _ _ _ _ Hk), !zslice_len; lia|].
  rewrite (zset_len _ _ _ _ Hk), zslice_len by lia. intros j Hj.
  rewrite (zset_get _ _ _ _ _ Hk), !zslice_get, (zset_get _ _ _ _ _ Hs) by lia.
  destruct (decide (i - a = j)), (decide (i = a + j)); try done; lia.
Qed.

Lemma SetEdgeData_ok {D} (g : DynamicGraph D) source e x d :
  dg_wf g -> edge_of g source e x ->
  exists g', SetEdgeData g e d = Some g' /\ dg_wf g' /\
    number_of_nodes g' = number_of_nodes g /\ zlen (edge_list g') = zlen (edge_list g) /\
    x :: adj g' source ≡ₚ mkDynamicEdge (target x) d :: adj g source /\
    (forall m, m <> source -> adj g' m = adj g m) /\
    node_array g' = node_array g.
Proof.
  intros Hwf (nd & Hn & Ho & Hx). destruct (dw_range _ Hwf _ _ Hn) as (R1 & R2 & R3).
  pose proof (dw_size _ Hwf). pose proof (zget_some _ _ _ Hx) as Rx. unfold SetEdgeData. rewrite Hx. cbn [mbind option_bind].
  destruct (zset_some (edge_list g) e (mkDynamicEdge (target x) d) Rx) as [l Hl]. rewrite Hl. cbn [mbind option_bind].
  pose proof (zset_len _ _ _ _ Hl) as L. eexists. split; [reflexivity|].
  assert (forall i, owned_by_other g source i -> i <> e) as Hne.
  { intros i Hi ->. by destruct (owned_by_other_live _ _ _ _ Hwf Hn Hi) as [Hno _]. }
  destruct (dg_wf_replace g source nd nd l (number_of_edges g) (node_array g)) as [Hwf' Hadj]; try done; try lia.
  { by apply zset_id. }
  { intros i Hi. eapply zset_get_ne; [done|]. apply not_eq_sym, Hne, Hi. }
  { intros i Hi Hw. by destruct (owned_by_other_live _ _ _ _ Hwf Hn Hi) as [Hno _]. }
  { intros i z Hw Hz. rewrite (zset_get _ _ _ _ _ Hl) in Hz. case_decide as Ei.
    - injection Hz as <-. change (is_dummy x = false). by apply (dw_live _ Hwf source nd e).
    - by apply (dw_live _ Hwf source nd i). }
  split; [done|]. split; [done|]. split; [done|]. split; [|done].
  unfold adj. simpl. rewrite Hn. unfold owns in Ho.
  eapply zset_Permutation; [|apply (zslice_zset _ _ _ _ e); try done; lia].
  rewrite zslice_get by lia. by replace (first_edge nd + (e - first_edge nd)) with e by lia.
Qed.

(** ** Contiguous layouts

    Construction, filtering and renumbering all lay the ranges out one after
    the other, without free slots. *)

Fixpoint layout (pos : Z) (ns : list DynamicNode) (fin : Z) : Prop :=
  match ns with
  | [] => fin = pos
  | nd :: ns => first_edge nd = pos /\ 0 <= edges nd /\ layout (pos + edges nd) ns fin
  end.

Lemma layout_end pos ns fin : layout pos ns fin -> pos <= fin.
Proof.
  revert pos. induction ns as [|nd ns IH]; intros pos; simpl; [lia|].
  intros (_ & H & Hl%IH). lia.
Qed.

Lemma layout_range pos ns fin k nd :
  layout pos ns fin -> ns !z k = Some nd ->
  pos <= first_edge nd /\ 0 <= edges nd /\ first_edge nd + edges nd <= fin.
Proof.
  revert pos k. induction ns as [|md ns IH]; intros pos k Hl Hk; [by apply zget_elem, elem_of_nil in Hk|].
  destruct Hl as (H1 & H2 & H3). pose proof (layout_end _ _ _ H3).
  apply zget_cons_inv in Hk as [[-> ->]|[Hk Hn]]; [lia|].
  apply IH with (pos := pos + edges md) in Hn; [lia|done].
Qed.

Lemma layout_order pos ns fin k k' nd nd' :
  layout pos ns fin -> ns !z k = Some nd -> ns !z k' = Some nd' -> k < k' ->
  first_edge nd + edges nd <= first_edge nd'.
Proof.
  revert pos k k'. induction ns as [|md ns IH]; intros pos k k' Hl Hk Hk' Hlt;
    [by apply zget_elem, elem_of_nil in Hk|].
  destruct Hl as (H1 & H2 & H3).
  apply zget_cons_inv in Hk' as [[-> ->]|[Hk' Hn']]; [apply zget_some in Hk; lia|].
  apply zget_cons_inv in Hk as [[-> ->]|[Hk Hn]].
  - pose proof (layout_range _ _ _ _ _ H3 Hn'). lia.
  - eapply (IH (pos + edges md) (k - 1) (k' - 1)); try done. lia.
Qed.

Lemma layout_wf {D} (g : DynamicGraph D) :
  zlen (node_array g) = number_of_nodes g -> layout 0 (node_array g) (zlen (edge_list g)) ->
  (forall e, e ∈ edge_list g -> is_dummy e = false) -> zlen (edge_list g) < 2 ^ 32 -> dg_wf g.
Proof.
  intros Hn Hl Hd Hs. constructor; try done.
  - intros n nd Hnd. by apply (layout_range _ _ _ _ _ Hl Hnd).
  - intros n m nd md i Hnd Hmd Hne Hi Hi'. unfold owns in *.
    destruct (decide (n < m)).
    + pose proof (layout_order _ _ _ _ _ _ _ Hl Hnd Hmd). lia.
    + pose proof (layout_order _ _ _ _ _ _ _ Hl Hmd Hnd). lia.
  - intros n nd i e _ _ He. eauto using zget_elem.
Qed.

Section construction.
Context {D : Type}.
Implicit Types (g : DynamicGraph D) (l : list (DynamicEdge D)) (es : list (InputEdge D)).

Definition edge_of_input (e : InputEdge D) : DynamicEdge D := mkDynamicEdge (ie_target e) (ie_data e).

(** The input is sorted by source, with sources in [[lo, hi)]. *)
Fixpoint sources_sorted (lo hi : Z) es : Prop :=
  match es with
  | [] => True
  | e :: es => lo <= ie_source e < hi /\ sources_sorted (ie_source e) hi es
  end.

Lemma sources_sorted_weaken lo lo' hi es : lo' <= lo -> sources_sorted lo hi es -> sources_sorted lo' hi es.
Proof. destruct es; simpl; [done|]. intros H [H1 H2]. split; [lia|done]. Qed.

Lemma sources_sorted_ge lo hi es e : sources_sorted lo hi es -> e ∈ es -> lo <= ie_source e.
Proof.
  revert lo. induction es as [|a es IH]; intros lo Hs He; [by apply elem_of_nil in He|].
  destruct Hs as [H1 H2]. apply elem_of_cons in He as [->|He]; [lia|]. apply (IH _ H2) in He. lia.
Qed.

Lemma skip_source_ok lo hi es node :
  lo <= node -> sources_sorted lo hi es -> (forall e, e ∈ es -> node <= ie_source e) ->
  exists run rest, skip_source node es = (zlen run, rest) /\ es = run ++ rest /\
    (forall e, e ∈ run -> ie_source e = node) /\ sources_sorted (node + 1) hi rest.
Proof.
  revert lo. induction es as [|a es IH]; intros lo Hlo Hs Hge.
  - exists [], []. repeat split; try done. by intros e He%elem_of_nil.
  - destruct Hs as [H1 H2]. simpl. destruct (Z.eqb_spec (ie_source a) node) as [Ea|Ea].
    + destruct (IH node) as (run & rest & E & Ees & Hr & Hs); [done|by rewrite <- Ea|intros; apply Hge; by right|].
      rewrite E. exists (a :: run), rest. rewrite zlen_cons. split; [f_equal; lia|].
      split; [by rewrite Ees|]. split; [|done].
      intros e [->|He]%elem_of_cons; [done|by apply Hr].
    + exists [], (a :: es). split; [done|]. split; [done|]. split; [by intros e He%elem_of_nil|].
      simpl. assert (node <= ie_source a) by (apply Hge; by left). split; [lia|done].
Qed.

Lemma build_nodes_ok n node pos es :
  0 <= pos -> sources_sorted node (node + Z.of_nat n) es ->
  exists ns, build_nodes n node pos es = (ns, pos + zlen es) /\ zlen ns = Z.of_nat n /\
    layout pos ns (pos + zlen es) /\
    forall k nd, ns !z k = Some nd ->
      zslice es (first_edge nd - pos) (edges nd) = filter (fun e => ie_source e = node + k) es.
Proof.
  revert node pos es. induction n as [|n IH]; intros node pos es Hpos Hs.
  - destruct es as [|e es]; [|destruct Hs as [Hs _]; lia].
    exists []. rewrite zlen_nil, Z.add_0_r. repeat split; try done. by intros k nd Hk%zget_elem%elem_of_nil.
  - destruct (skip_source_ok node (node + Z.of_nat (S n)) es node)
      as (run & rest & E & -> & Hrun & Hrest); [lia|done|by intros; eapply sources_sorted_ge|].
    cbn [build_nodes]. rewrite E.
    destruct (IH (node + 1) (pos + zlen run) rest) as (ns & E' & Ln & Hl & Hsl);
      [pose proof (zlen_nonneg run); lia|by replace (node + 1 + Z.of_nat n) with (node + Z.of_nat (S n)) by lia|].
    rewrite E', zlen_app. exists (mkDynamicNode pos (zlen run) :: ns).
    split; [f_equal; lia|]. split; [rewrite zlen_cons; lia|].
    split; [simpl; split; [done|]; split; [eauto with osrm|]; by rewrite Z.add_assoc|].
    intros k nd [[-> ->]|[Hk Hnd]]%zget_cons_inv.
    + simpl. rewrite Z.sub_diag. unfold zslice, zlen. change (Z.to_nat 0) with 0%nat. rewrite drop_0, Nat2Z.id, take_app_length.
      rewrite filter_app, filter_all, filter_none; [by rewrite app_nil_r| |].
      * intros e He. pose proof (sources_sorted_ge _ _ _ _ Hrest He). lia.
      * intros e He. rewrite (Hrun e He). lia.
    + pose proof (layout_range _ _ _ _ _ Hl Hnd) as (R1 & R2 & R3). pose proof (zlen_nonneg run).
      rewrite filter_app, filter_none; [simpl|intros e He; rewrite (Hrun e He); lia].
      transitivity (zslice rest (first_edge nd - (pos + zlen run)) (edges nd)).
      * apply zslice_shift; rewrite ?zlen_app; try lia.
        intros j Hj. rewrite zget_app_r by lia. f_equal. lia.
      * rewrite (Hsl _ _ Hnd). apply list_filter_iff. intros e. lia.
Qed.

Lemma zslice_fmap {A B} (f : A -> B) (l : list A) a n : zslice (f <$> l) a n = f <$> zslice l a n.
Proof. unfold zslice. by rewrite <- fmap_drop, <- fmap_take. Qed.

Lemma DynamicGraph_new_ok nodes es :
  0 <= nodes -> sources_sorted 0 nodes es -> zlen es < 2 ^ 32 ->
  (forall e, e ∈ es -> 0 <= ie_target e < UINT32_MAX) ->
  dg_wf (DynamicGraph_new nodes es) /\
  forall n, 0 <= n < nodes ->
    adj (DynamicGraph_new nodes es) n = edge_of_input <$> filter (fun e => ie_source e = n) es.
Proof.
  intros Hn Hs Hlen Ht. unfold DynamicGraph_new.
  destruct (build_nodes_ok (Z.to_nat nodes) 0 0 es) as (ns & -> & Ln & Hl & Hsl);
    [lia|by replace (0 + Z.of_nat (Z.to_nat nodes)) with nodes by lia|].
  rewrite Z.add_0_l in *.
  assert (build_edges (zlen es) es = edge_of_input <$> es) as Eb.
  { unfold build_edges, zlen. by rewrite Nat2Z.id, take_ge. }
  assert (zlen (build_edges (zlen es) es) = zlen es) as Lb.
  { rewrite Eb. unfold zlen. by rewrite length_fmap. }
  split.
  - apply layout_wf; simpl; try lia; [by rewrite Lb|].
    rewrite Eb. intros x (e & -> & He)%list_elem_of_fmap. apply Ht in He.
    by apply is_dummy_target.
  - intros n Hr. unfold adj. simpl. destruct (zget_is_some ns n) as [nd Hnd]; [lia|].
    rewrite Hnd, Eb, zslice_fmap. f_equal. rewrite <- (Z.sub_0_r (first_edge nd)).
    rewrite (Hsl n nd Hnd). apply list_filter_iff. intros e. lia.
Qed.

(** ** Filter *)

(** [e] sits in a slot that one of the nodes owns. *)
Definition owned_edge l (ns : list DynamicNode) (e : DynamicEdge D) : Prop :=
  exists k nd i, ns !z k = Some nd /\ owns nd i /\ l !z i = Some e.

Lemma owned_edge_app l nd ns (mine suffix : list (DynamicEdge D)) :
  0 <= first_edge nd -> mine ⊆ zslice l (first_edge nd) (edges nd) ->
  (forall e, e ∈ suffix -> owned_edge l ns e) ->
  forall e, e ∈ mine ++ suffix -> owned_edge l (nd :: ns) e.
Proof.
  intros Hpos Hm Hs e [He%Hm|(k & md & i & Hk & Ho & He)%Hs]%elem_of_app.
  - apply zslice_elem in He as (i & Hi & He); [|done]. by exists 0, nd, i.
  - pose proof (zget_some _ _ _ Hk). exists (k + 1), md, i. rewrite zget_cons_S by lia.
    by replace (k + 1 - 1) with k by lia.
Qed.

Lemma filter_nodes_ok (keep : Z -> bool) l id ns out :
  (forall k nd, ns !z k = Some nd -> 0 <= first_edge nd) ->
  exists ns' suffix, filter_nodes keep l id ns out = (ns', out ++ suffix) /\
    zlen ns' = zlen ns /\ layout (zlen out) ns' (zlen (out ++ suffix)) /\
    (forall e, e ∈ suffix -> owned_edge l ns e) /\
    forall k nd, ns !z k = Some nd -> exists nd', ns' !z k = Some nd' /\
      zslice (out ++ suffix) (first_edge nd') (edges nd') =
        if keep (id + k) then filter (fun e => keep (target e) = true) (zslice l (first_edge nd) (edges nd))
        else [].
Proof.
  revert id out. induction ns as [|nd ns IH]; intros id out Hpos; cbn [filter_nodes].
  - exists [], []. rewrite app_nil_r. split; [done|]. split; [done|]. split; [done|]. split; [by intros x Hx%elem_of_nil|].
    by intros k nd Hk%zget_elem%elem_of_nil.
  - set (kept := filter (fun e => keep (target e) = true) (zslice l (first_edge nd) (edges nd))).
    assert (forall (mine : list (DynamicEdge D)), mine ⊆ zslice l (first_edge nd) (edges nd) -> exists ns' suffix,
      (let '(ns', res) := filter_nodes keep l (id + 1) ns (out ++ mine) in
        (mkDynamicNode (zlen out) (zlen mine) :: ns', res)) = (ns', out ++ suffix) /\
      zlen ns' = zlen (nd :: ns) /\ layout (zlen out) ns' (zlen (out ++ suffix)) /\
      (forall e, e ∈ suffix -> owned_edge l (nd :: ns) e) /\
      forall k md, (nd :: ns) !z k = Some md -> exists nd', ns' !z k = Some nd' /\
        zslice (out ++ suffix) (first_edge nd') (edges nd') =
          if decide (k = 0) then mine else
          if keep (id + k) then filter (fun e => keep (target e) = true) (zslice l (first_edge md) (edges md))
          else []) as Hgen.
    { intros mine Hm. destruct (IH (id + 1) (out ++ mine)) as (ns' & suffix & -> & L & Hl & Hsub & Hk).
      { intros k md Hk. pose proof (zget_some _ _ _ Hk). apply (Hpos (k + 1)). rewrite zget_cons_S by lia.
        by replace (k + 1 - 1) with k by lia. }
      exists (mkDynamicNode (zlen out) (zlen mine) :: ns'), (mine ++ suffix).
      rewrite app_assoc. split; [done|]. split; [rewrite !zlen_cons; lia|].
      split; [simpl; split; [done|]; split; [eauto with osrm|]; by rewrite <- zlen_app|].
      split; [apply owned_edge_app; [by apply (Hpos 0)|done|done]|]. intros k md [[-> ->]|[Hkp Hmd]]%zget_cons_inv.
      - eexists. split; [done|]. rewrite decide_True by done. cbn [first_edge edges].
        unfold zslice, zlen. rewrite !Nat2Z.id, <- app_assoc, drop_app_length. by rewrite take_app_length.
      - rewrite zget_cons_S by done. rewrite decide_False by lia.
        destruct (Hk (k - 1) md Hmd) as (nd' & Hnd' & Hsl). exists nd'. split; [done|].
        rewrite Hsl. by replace (id + 1 + (k - 1)) with (id + k) by lia. }
    destruct (keep id) eqn:Ek.
    + destruct (Hgen kept) as (ns' & suffix & E & L & Hl & Hsub & Hk).
      { by intros x [_ Hx]%list_elem_of_filter. }
      exists ns', suffix. rewrite <- E. split.
      { replace (zlen (out ++ kept) - zlen out) with (zlen kept) by (rewrite zlen_app; lia). done. }
      repeat (split; [done|]). intros k md Hmd. destruct (Hk k md Hmd) as (nd' & Hnd' & Hsl).
      exists nd'. split; [done|]. rewrite Hsl. case_decide as E0; [|done]. subst k.
      rewrite Z.add_0_r, Ek. rewrite zget_cons_0 in Hmd. by simplify_eq.
    + destruct (Hgen []) as (ns' & suffix & E & L & Hl & Hsub & Hk); [by intros x Hx%elem_of_nil|].
      rewrite app_nil_r in E. exists ns', suffix. rewrite <- E. split; [done|].
      repeat (split; [done|]). intros k md Hmd. destruct (Hk k md Hmd) as (nd' & Hnd' & Hsl).
      exists nd'. split; [done|]. rewrite Hsl. case_decide as E0; [|done]. subst k.
      by rewrite Z.add_0_r, Ek.
Qed.
End construction.

(** ** Renumbering *)

Lemma layout_snoc pos ns fin nd :
  layout pos ns fin -> first_edge nd = fin -> 0 <= edges nd ->
  layout pos (ns ++ [nd]) (fin + edges nd).
Proof.
  revert pos. induction ns as [|md ns IH]; intros pos; simpl.
  - intros -> -> H. repeat split; done.
  - intros (H1 & H2 & H3) H4 H5. split; [done|]. split; [done|]. by apply IH.
Qed.

Section renumber.
Context {D : Type}.
Implicit Types (g : DynamicGraph D) (l : list (DynamicEdge D)).

Definition assigned (o : list Z) : list Z := filter (fun v => v <> SPECIAL_EDGEID) o.

Lemma assigned_set o o' i v :
  o !z i = Some SPECIAL_EDGEID -> zset i v o = Some o' -> v <> SPECIAL_EDGEID ->
  assigned o' ≡ₚ v :: assigned o.
Proof.
  intros Hi Hs Hv. pose proof (zset_Permutation _ _ _ _ _ Hi Hs) as HP.
  apply (filter_Permutation (fun v => v <> SPECIAL_EDGEID)) in HP.
  rewrite filter_cons_False, filter_cons_True in HP; [done|done|]. intros Hc. by apply Hc.
Qed.

Lemma assigned_le o : zlen (assigned o) <= zlen o.
Proof. unfold zlen, assigned. pose proof (length_filter (fun v => v <> SPECIAL_EDGEID) o). lia. Qed.

Lemma renumber_free_ok o next :
  0 <= next -> next + zlen o - zlen (assigned o) < UINT32_MAX ->
  exists k, 0 <= k <= zlen o /\ k + zlen (assigned o) = zlen o /\
    renumber_free o next ≡ₚ assigned o ++ seqZ next k /\
    zlen (renumber_free o next) = zlen o /\
    forall i v, o !z i = Some v -> v <> SPECIAL_EDGEID -> renumber_free o next !z i = Some v.
Proof.
  revert next. induction o as [|v o IH]; intros next Hn Hl.
  - exists 0. unfold zlen. simpl. repeat split; try done; try lia.
  - rewrite zlen_cons in *. pose proof (assigned_le o). cbn [renumber_free].
    destruct (Z.eqb_spec v SPECIAL_EDGEID) as [->|Hv].
    + unfold assigned in Hl. rewrite filter_cons_False in Hl by (intros Hc'; by apply Hc').
      fold (assigned o) in Hl. unfold UINT32_MAX in *. rewrite wrap_small by (unfold in_word; lia).
      destruct (IH (next + 1)) as (k & Hk & Hc & HP & L & G); [lia|lia|].
      exists (k + 1). split; [lia|]. unfold assigned in *. rewrite filter_cons_False by (intros Hc'; by apply Hc').
      split; [lia|]. split; [|split; [rewrite zlen_cons; lia|]].
      * rewrite HP. rewrite (seqZ_cons next (k + 1)) by lia. rewrite <- Permutation_middle.
        unfold Z.succ. by replace (Z.pred (k + 1)) with k by lia.
      * intros i w [[-> ->]|[Hi Hw]]%zget_cons_inv Hs; [done|]. rewrite zget_cons_S by done. by apply G.
    + unfold assigned in Hl. rewrite filter_cons_True, zlen_cons in Hl by done.
      fold (assigned o) in Hl. destruct (IH next) as (k & Hk & Hc & HP & L & G); [lia|lia|].
      exists k. split; [lia|]. unfold assigned in *. rewrite filter_cons_True by done.
      rewrite !zlen_cons. split; [lia|]. split; [simpl; by rewrite HP|]. split; [lia|].
      intros i w [[-> ->]|[Hi Hw]]%zget_cons_inv Hs; [done|]. rewrite zget_cons_S by done. by apply G.
Qed.

Context (o2n : list Z).

(** [y] is [x] with its target renumbered. *)
Definition retargets (x y : DynamicEdge D) : Prop :=
  o2n !z target x = Some (target y) /\ data y = data x.

Lemma renumber_edges_ok n f l o idx :
  0 <= f -> f + Z.of_nat n <= zlen l -> zlen o = zlen l -> 0 <= idx ->
  idx + Z.of_nat n < UINT32_MAX ->
  (forall i x, f <= i < f + Z.of_nat n -> l !z i = Some x -> 0 <= target x < zlen o2n) ->
  (forall i, f <= i < f + Z.of_nat n -> o !z i = Some SPECIAL_EDGEID) ->
  exists l' o', renumber_edges o2n (seqZ f (Z.of_nat n)) l o idx = Some (l', o', idx + Z.of_nat n) /\
    zlen l' = zlen l /\ zlen o' = zlen o /\
    assigned o' ≡ₚ seqZ idx (Z.of_nat n) ++ assigned o /\
    (forall k, 0 <= k < Z.of_nat n -> o' !z (f + k) = Some (idx + k)) /\
    (forall i x, f <= i < f + Z.of_nat n -> l !z i = Some x ->
       exists y, l' !z i = Some y /\ retargets x y) /\
    (forall i, ~ (f <= i < f + Z.of_nat n) -> o' !z i = o !z i /\ l' !z i = l !z i).
Proof.
  revert f l o idx. induction n as [|n IH]; intros f l o idx Hf Hl Ho Hidx Hmax Ht Hs.
  - exists l, o. rewrite Z.add_0_r. simpl. repeat split; try done; intros; lia.
  - rewrite (seqZ_cons f) by lia. unfold Z.succ. replace (Z.pred (Z.of_nat (S n))) with (Z.of_nat n) by lia.
    cbn [renumber_edges]. destruct (zget_is_some l f) as [x Hx]; [lia|]. rewrite Hx. cbn [mbind option_bind].
    destruct (zget_is_some o2n (target x)) as [t Hxt]; [apply (Ht f); [lia|done]|].
    rewrite Hxt. cbn [mbind option_bind].
    destruct (zset_some l f (mkDynamicEdge t (data x))) as [l1 Hl1]; [lia|]. rewrite Hl1. cbn [mbind option_bind].
    destruct (zset_some o f idx) as [o1 Ho1]; [lia|]. rewrite Ho1. cbn [mbind option_bind].
    unfold UINT32_MAX in *. rewrite wrap_small by (unfold in_word; lia).
    pose proof (zset_len _ _ _ _ Hl1) as L1. pose proof (zset_len _ _ _ _ Ho1) as L2.
    destruct (IH (f + 1) l1 o1 (idx + 1)) as (l' & o' & E & Ll & Lo & HP & Ho' & Hl' & Hfr); try lia.
    + intros i y Hi. rewrite (zset_get_ne _ _ _ _ _ Hl1) by lia. apply Ht. lia.
    + intros i Hi. rewrite (zset_get_ne _ _ _ _ _ Ho1) by lia. apply Hs. lia.
    + exists l', o'. rewrite E. split; [do 2 f_equal; lia|]. split; [lia|]. split; [lia|].
      split.
      { rewrite HP, (assigned_set _ _ _ _ (Hs f ltac:(lia)) Ho1) by (unfold SPECIAL_EDGEID, UINT32_MAX; lia).
        rewrite (seqZ_cons idx (Z.of_nat (S n))) by lia. unfold Z.succ.
        replace (Z.pred (Z.of_nat (S n))) with (Z.of_nat n) by lia. by rewrite <- Permutation_middle. }
      split; [|split].
      * intros k Hk. destruct (decide (k = 0)) as [->|Hne].
        -- rewrite !Z.add_0_r. rewrite (proj1 (Hfr f ltac:(lia))). eauto with osrm.
        -- replace (f + k) with (f + 1 + (k - 1)) by lia. rewrite Ho' by lia. f_equal. lia.
      * intros i y Hi Hy. destruct (decide (i = f)) as [->|Hne].
        -- rewrite Hx in Hy. injection Hy as <-. rewrite (proj2 (Hfr f ltac:(lia))).
           eexists. split; [eauto with osrm|]. done.
        -- apply Hl'; [lia|]. by rewrite (zset_get_ne _ _ _ _ _ Hl1) by lia.
      * intros i Hi. destruct (Hfr i ltac:(lia)) as [-> ->].
        rewrite (zset_get_ne _ _ _ _ _ Ho1), (zset_get_ne _ _ _ _ _ Hl1) by lia. done.
Qed.

(** The state of the loop over the nodes, [node] nodes being done. *)
Section node_loop.
Context (ns0 : list DynamicNode) (l0 : list (DynamicEdge D)).
Context (Hrange : forall m nd, ns0 !z m = Some nd ->
  0 <= first_edge nd /\ 0 <= edges nd /\ first_edge nd + edges nd <= zlen l0).
Context (Hdisj : forall m m' nd nd' i, ns0 !z m = Some nd -> ns0 !z m' = Some nd' ->
  m <> m' -> owns nd i -> owns nd' i -> False).
Context (Hsize : zlen l0 < UINT32_MAX).
Context (Htgt : forall m nd i x, ns0 !z m = Some nd -> owns nd i -> l0 !z i = Some x ->
  0 <= target x < zlen o2n).

Record renumbering (node : Z) (ns : list DynamicNode) l (o : list Z) (idx : Z) : Prop := {
  rn_node : 0 <= node;
  rn_ns : zlen ns = zlen ns0;
  rn_l : zlen l = zlen l0;
  rn_o : zlen o = zlen l0;
  rn_idx : 0 <= idx;
  rn_todo : forall m, node <= m -> ns !z m = ns0 !z m;
  rn_layout : layout 0 (take (Z.to_nat node) ns) idx;
  rn_assigned : assigned o ≡ₚ seqZ 0 idx;
  rn_done : forall m nd0, m < node -> ns0 !z m = Some nd0 ->
    exists f, ns !z m = Some (mkDynamicNode f (edges nd0)) /\
      forall k x, 0 <= k < edges nd0 -> l0 !z (first_edge nd0 + k) = Some x ->
        o !z (first_edge nd0 + k) = Some (f + k) /\ f + k < idx /\
        exists y, l !z (first_edge nd0 + k) = Some y /\ retargets x y;
  rn_untouched : forall i, 0 <= i < zlen l0 ->
    (forall m nd0, m < node -> ns0 !z m = Some nd0 -> ~ owns nd0 i) ->
    o !z i = Some SPECIAL_EDGEID /\ l !z i = l0 !z i;
  rn_live : forall i v, o !z i = Some v -> v <> SPECIAL_EDGEID ->
    exists x y, l !z i = Some y /\ o2n !z x = Some (target y)
}.

Lemma renumber_node_step node ns l o idx nd :
  renumbering node ns l o idx -> ns0 !z node = Some nd ->
  exists l' o' ns', renumber_edges o2n
      (irange (first_edge nd) (wrap 32 (first_edge nd + edges nd))) l o idx
      = Some (l', o', idx + edges nd) /\
    zset node (mkDynamicNode idx (edges nd)) ns = Some ns' /\
    renumbering (node + 1) ns' l' o' (idx + edges nd).
Proof using Hrange Hdisj Hsize Htgt.
  intros [N Lns Ll Lo I Todo Lay Asg Done Unt Live] Hnd.
  destruct (Hrange _ _ Hnd) as (R1 & R2 & R3). unfold UINT32_MAX in *.
  rewrite wrap_small by (unfold in_word; lia). unfold irange.
  replace (first_edge nd + edges nd - first_edge nd) with (Z.of_nat (Z.to_nat (edges nd))) by lia.
  assert (forall i, owns nd i -> o !z i = Some SPECIAL_EDGEID /\ l !z i = l0 !z i) as Hfree.
  { intros i Hi. apply Unt; [unfold owns in Hi; lia|]. intros m nd0 Hm Hm0 Ho.
    eapply (Hdisj m node nd0 nd i); eauto; lia. }
  assert (zlen (assigned o) + edges nd <= zlen l0) as Hroom.
  { unfold assigned. assert (zlen (filter (fun v => v = SPECIAL_EDGEID) (zslice o (first_edge nd) (edges nd))) = edges nd) as Hc.
    { rewrite filter_all; [rewrite zslice_len; lia|]. intros v Hv.
      apply zslice_elem in Hv as (i & Hi & Hv); [|done]. destruct (Hfree i Hi) as [E _]. congruence. }
    assert (zlen (filter (fun v => v <> SPECIAL_EDGEID) o) + zlen (filter (fun v => v = SPECIAL_EDGEID) o) = zlen o) as Hsum.
    { unfold zlen. rewrite <- (filter_app_complement (fun v => v <> SPECIAL_EDGEID) o) at 3.
      rewrite length_app. rewrite (list_filter_iff (fun x => ~ x <> SPECIAL_EDGEID) (fun v => v = SPECIAL_EDGEID)) by lia. lia. }
    assert (zlen (filter (fun v => v = SPECIAL_EDGEID) (zslice o (first_edge nd) (edges nd))) <=
      zlen (filter (fun v => v = SPECIAL_EDGEID) o)) as Hle.
    { rewrite <- (take_drop (Z.to_nat (first_edge nd)) o) at 2. unfold zslice.
      rewrite <- (take_drop (Z.to_nat (edges nd)) (drop (Z.to_nat (first_edge nd)) o)) at 2.
      rewrite !filter_app, !zlen_app. pose proof (zlen_nonneg (filter (fun v => v = SPECIAL_EDGEID) (take (Z.to_nat (first_edge nd)) o))).
      pose proof (zlen_nonneg (filter (fun v => v = SPECIAL_EDGEID) (drop (Z.to_nat (edges nd)) (drop (Z.to_nat (first_edge nd)) o)))). lia. }
    lia. }
  assert (zlen (assigned o) = idx) as Hidx.
  { unfold zlen. rewrite Asg, length_seqZ. lia. }
  destruct (renumber_edges_ok (Z.to_nat (edges nd)) (first_edge nd) l o idx)
    as (l' & o' & E & Ll' & Lo' & HP & Ho & Hl & Hfr); try (unfold UINT32_MAX; lia).
  { intros i x Hi Hx. assert (owns nd i) as Hw by (unfold owns; lia).
    rewrite (proj2 (Hfree i Hw)) in Hx. by apply (Htgt node nd i). }
  { intros i Hi. apply Hfree. unfold owns. lia. }
  rewrite !Z2Nat.id in * by lia.
  destruct (zset_some ns node (mkDynamicNode idx (edges nd))) as [ns' Hns];
    [apply zget_some in Hnd; lia|].
  exists l', o', ns'. split; [done|]. split; [done|].
  pose proof (zset_len _ _ _ _ Hns) as Lns'. constructor; try lia.
  - intros m Hm. rewrite (zset_get_ne _ _ _ _ _ Hns) by lia. apply Todo. lia.
  - replace (Z.to_nat (node + 1)) with (S (Z.to_nat node)) by lia.
    pose proof (zset_get_eq _ _ _ _ Hns) as Hg. unfold zget in Hg.
    replace (0 <=? node) with true in Hg by lia.
    rewrite (take_S_r _ _ _ Hg). apply zset_inv in Hns as [_ ->].
    rewrite take_insert_ge by lia. by apply (layout_snoc 0 _ idx (mkDynamicNode idx (edges nd))).
  - rewrite HP, Asg, Permutation_app_comm. by rewrite (seqZ_app 0 idx (edges nd)) by lia.
  - intros m nd0 Hm Hm0. destruct (decide (m = node)) as [->|Hne].
    + assert (nd0 = nd) as -> by congruence. exists idx. split; [eauto with osrm|].
      intros k x Hk Hx. split; [by apply Ho|]. split; [lia|]. apply Hl; [lia|].
      rewrite (proj2 (Hfree (first_edge nd + k) ltac:(unfold owns; lia))). done.
    + destruct (Done m nd0 ltac:(lia) Hm0) as (f & Hf & Hk). exists f.
      split; [by rewrite (zset_get_ne _ _ _ _ _ Hns) by lia|].
      intros k x Hkr Hx. destruct (Hk k x Hkr Hx) as (H1 & H2 & H3).
      destruct (Hfr (first_edge nd0 + k)) as [-> ->].
      { intros Hc. eapply (Hdisj m node nd0 nd); eauto; unfold owns; lia. }
      split; [done|]. split; [lia|done].
  - intros i Hi Hno. destruct (Hfr i) as [-> ->].
    { intros Hc. eapply (Hno node nd); [lia|done|]. unfold owns. lia. }
    apply Unt; [done|]. intros m nd0 Hm. apply Hno. lia.
  - intros i v Hv Hs. destruct (decide (first_edge nd <= i < first_edge nd + edges nd)) as [Hi|Hi].
    + destruct (zget_is_some l i) as [x Hx]; [lia|]. destruct (Hl i x Hi Hx) as (y & Hy & Ht & _). eauto.
    + destruct (Hfr i Hi) as [E1 ->]. rewrite E1 in Hv. by eapply Live.
Qed.

Lemma renumber_nodes_ok n node ns l o idx :
  renumbering node ns l o idx -> node + Z.of_nat n = zlen ns0 ->
  exists ns' l' o' idx', renumber_nodes o2n n node ns l o idx = Some (ns', l', o', idx') /\
    renumbering (zlen ns0) ns' l' o' idx'.
Proof using Hrange Hdisj Hsize Htgt.
  revert node ns l o idx. induction n as [|n IH]; intros node ns l o idx HR Hn.
  - exists ns, l, o, idx. split; [done|]. by replace (zlen ns0) with node by lia.
  - cbn [renumber_nodes]. pose proof (rn_node _ _ _ _ _ HR).
    destruct (zget_is_some ns0 node) as [nd Hnd]; [lia|].
    rewrite (rn_todo _ _ _ _ _ HR) by lia. rewrite Hnd. cbn [mbind option_bind].
    destruct (renumber_node_step _ _ _ _ _ _ HR Hnd) as (l' & o' & ns' & -> & -> & HR').
    cbn [mbind option_bind]. apply IH; [done|lia].
Qed.
End node_loop.

Lemma renumber_start ns l :
  zlen l < UINT32_MAX -> renumbering ns l 0 ns l (replicate (length l) SPECIAL_EDGEID) 0.
Proof.
  intros Hl. assert (forall i v, replicate (length l) SPECIAL_EDGEID !z i = Some v -> v = SPECIAL_EDGEID) as Hr.
  { intros i v Hi%zget_elem. by apply elem_of_replicate in Hi as [-> _]. }
  assert (zlen (replicate (length l) SPECIAL_EDGEID) = zlen l) as Lr
    by (unfold zlen; by rewrite length_replicate).
  constructor; try done; try lia.
  - unfold assigned. rewrite filter_none; [done|].
    intros v [-> _]%elem_of_replicate Hc. by apply Hc.
  - intros m nd Hm Hnd%zget_some. lia.
  - intros i Hi _. split; [|done]. destruct (zget_is_some (replicate (length l) SPECIAL_EDGEID) i) as [v Hv];
      [lia|]. by rewrite Hv, (Hr _ _ Hv).
  - intros i v Hv Hs. by apply Hr in Hv.
Qed.

Lemma Renumber_ok dflt g :
  dg_wf g -> is_permutation (number_of_nodes g) o2n -> number_of_nodes g <= UINT32_MAX ->
  zlen (edge_list g) < UINT32_MAX ->
  (forall n x, x ∈ adj g n -> 0 <= target x < number_of_nodes g) ->
  exists g', Renumber dflt g o2n = Some (Some g') /\ dg_wf g' /\
    number_of_nodes g' = number_of_nodes g /\ number_of_edges g' = zlen (edge_list g') /\
    forall n n', o2n !z n = Some n' -> Forall2 retargets (adj g n) (adj g' n').
Proof.
  intros Hwf Hp Hnn Hsz Htgt. pose proof (dw_nodes _ Hwf) as Ln. unfold Renumber.
  rewrite <- Ln in Hp. destruct (inplacePermutation_ok o2n _ Hp) as (ns & -> & Lns & Hns).
  cbn [mbind option_bind]. pose proof (zlen_nonneg (edge_list g)).
  destruct (Z.leb_spec UINT32_MAX (zlen (edge_list g))); [lia|].
  pose proof (o2n_len _ _ Hp) as Lo2n.
  assert (forall m nd, ns !z m = Some nd -> exists n, o2n !z n = Some m /\ node_array g !z n = Some nd) as Hback.
  { intros m nd Hm. destruct (perm_surj _ _ Hp m) as [n Hn]; [apply zget_some in Hm; lia|].
    exists n. split; [done|]. by rewrite <- (Hns _ _ Hn). }
  edestruct (renumber_nodes_ok ns (edge_list g)) with (n := Z.to_nat (number_of_nodes g))
    (node := 0) (ns := ns) (l := edge_list g) (o := replicate (length (edge_list g)) SPECIAL_EDGEID) (idx := 0)
    as (ns' & l & o & idx & -> & HR); [..|cbn [mbind option_bind]].
  - intros m nd (n & _ & Hnd)%Hback. by apply (dw_range _ Hwf n).
  - intros m m' nd nd' i (n & Hn & Hnd)%Hback (n' & Hn' & Hnd')%Hback Hne.
    apply (dw_disjoint _ Hwf n n'); try done. intros ->. congruence.
  - done.
  - intros m nd i x (n & _ & Hnd)%Hback Ho Hx. rewrite Lo2n, Ln. apply (Htgt n).
    apply edge_of_adj; [done|]. exists i, nd. done.
  - by apply renumber_start.
  - pose proof (zlen_nonneg ns). lia.
  - destruct HR as [_ R1 R2 R3 R4 _ R6 R7 R8 _ R10].
    assert (zlen (assigned o) = idx) as Hidx by (unfold zlen; rewrite R7, length_seqZ; lia).
    pose proof (assigned_le o) as Hle.
    destruct (renumber_free_ok o idx) as (k & Hk & Hc & HP & Lf & G); [lia|lia|].
    assert (is_permutation (zlen l) (renumber_free o idx)) as Hp2.
    { unfold is_permutation. replace (zlen l) with (idx + k) by lia.
      by rewrite HP, R7, (seqZ_app 0 idx k) by lia. }
    destruct (inplacePermutation_ok _ _ Hp2) as (l2 & -> & L2 & G2). cbn [mbind option_bind].
    eexists. split; [reflexivity|].
    assert (edges_resize dflt l2 idx = take (Z.to_nat idx) l2) as Er.
    { unfold edges_resize. replace (Z.to_nat (idx - zlen l2)) with O by lia. by rewrite app_nil_r. }
    rewrite Er. assert (zlen (take (Z.to_nat idx) l2) = idx) as Lt.
    { unfold zlen in *. rewrite length_take. lia. }
    assert (forall i, i < idx -> take (Z.to_nat idx) l2 !z i = l2 !z i) as Ht.
    { intros i Hi. unfold zget. destruct (Z.leb_spec 0 i); [|done]. apply lookup_take_lt. lia. }
    split; [|split; [done|split; [done|]]].
    + apply layout_wf; simpl; try lia.
      * rewrite Lt. rewrite firstn_all2 in R6; [done|]. unfold zlen in *. lia.
      * intros x [i Hi]%elem_zget. pose proof (zget_some _ _ _ Hi) as Ri. rewrite Lt in Ri.
        rewrite Ht in Hi by lia.
        assert (i ∈ assigned o) as [Hs [j Hj]%elem_zget]%list_elem_of_filter.
        { rewrite R7, elem_of_seqZ. lia. }
        destruct (R10 j i Hj Hs) as (a & y & Hy & Ha). rewrite (G2 j i (G j i Hj Hs)), Hy in Hi.
        injection Hi as ->. apply (perm_range _ _ Hp) in Ha. unfold is_dummy. lia.
      * unfold UINT32_MAX in *. lia.
    + intros n n' Hn. unfold adj. simpl. pose proof (Hns _ _ Hn) as E.
      pose proof (zget_some _ _ _ Hn) as Rn. rewrite Lo2n in Rn.
      destruct (zget_is_some (node_array g) n Rn) as [nd Hnd]. rewrite Hnd in E |- *.
      destruct (dw_range _ Hwf _ _ Hnd) as (A1 & A2 & A3).
      destruct (R8 n' nd) as (f & Hf & Hk'); [apply zget_some in E; lia|done|]. rewrite Hf. simpl.
      destruct (layout_range 0 ns' idx n' (mkDynamicNode f (edges nd))) as (B1 & _ & B2); [|done|].
      { rewrite firstn_all2 in R6; [done|]. unfold zlen in *. lia. }
      simpl in B1, B2. apply Forall2_same_length_lookup. split.
      { pose proof (zslice_len (edge_list g) (first_edge nd) (edges nd)).
        pose proof (zslice_len (take (Z.to_nat idx) l2) f (edges nd)). unfold zlen in *. lia. }
      intros j x y Hx Hy. rewrite <- zget_nat in Hx, Hy. pose proof (zget_some _ _ _ Hx) as Hj.
      rewrite zslice_len in Hj by lia. rewrite zslice_get in Hx, Hy by lia.
      destruct (Hk' _ _ Hj Hx) as (C1 & C2 & z & C3 & C4).
      rewrite Ht in Hy by lia. erewrite G2 in Hy; [|apply G; [done|unfold SPECIAL_EDGEID; lia]].
      congruence.
Qed.
End renumber.

(** ** Size of a filtered graph *)

(** The slots the nodes own. *)
Fixpoint slots (ns : list DynamicNode) : list Z :=
  match ns with
  | [] => []
  | nd :: ns => seqZ (first_edge nd) (edges nd) ++ slots ns
  end.

Lemma slots_elem ns i : i ∈ slots ns -> exists k nd, ns !z k = Some nd /\ owns nd i.
Proof.
  induction ns as [|nd ns IH]; [by intros Hi%elem_of_nil|].
  intros [Hi%elem_of_seqZ|(k & md & Hk & Ho)%IH]%elem_of_app.
  - exists 0, nd. split; [done|]. unfold owns. lia.
  - exists (k + 1), md. pose proof (zget_some _ _ _ Hk). rewrite zget_cons_S by lia.
    by replace (k + 1 - 1) with k by lia.
Qed.

Lemma slots_NoDup ns :
  (forall n m nd md i, ns !z n = Some nd -> ns !z m = Some md -> n <> m ->
     owns nd i -> owns md i -> False) -> NoDup (slots ns).
Proof.
  induction ns as [|nd ns IH]; intros Hd; [constructor|]. apply NoDup_app. split; [apply NoDup_seqZ|].
  split.
  - intros i Hi%elem_of_seqZ (k & md & Hk & Ho)%slots_elem. pose proof (zget_some _ _ _ Hk).
    apply (Hd 0 (k + 1) nd md i); [done| |lia|unfold owns; lia|done].
    rewrite zget_cons_S by lia. by replace (k + 1 - 1) with k by lia.
  - apply IH. intros n m md md' i Hn Hm Hne. pose proof (zget_some _ _ _ Hn). pose proof (zget_some _ _ _ Hm).
    apply (Hd (n + 1) (m + 1)); [..|lia]; rewrite zget_cons_S by lia.
    + by replace (n + 1 - 1) with n by lia.
    + by replace (m + 1 - 1) with m by lia.
Qed.

Lemma slots_le {D} (g : DynamicGraph D) : dg_wf g -> zlen (slots (node_array g)) <= zlen (edge_list g).
Proof.
  intros Hwf. unfold zlen. apply inj_le.
  rewrite <- (Nat2Z.id (length (edge_list g))), <- (length_seqZ 0).
  apply submseteq_length, NoDup_submseteq; [apply slots_NoDup, Hwf|].
  intros i (k & nd & Hk & Ho)%slots_elem. destruct (dw_range _ Hwf _ _ Hk). unfold owns, zlen in *.
  apply elem_of_seqZ. lia.
Qed.

Lemma filter_nodes_size {D} (keep : Z -> bool) (l : list (DynamicEdge D)) id ns out :
  zlen (filter_nodes keep l id ns out).2 <= zlen out + zlen (slots ns).
Proof.
  revert id out. induction ns as [|nd ns IH]; intros id out; cbn [filter_nodes]; [simpl; unfold zlen; simpl; lia|].
  cbn [slots]. rewrite (zlen_app (seqZ _ _)). destruct (keep id).
  - set (mine := filter _ _). specialize (IH (id + 1) (out ++ mine)). revert IH.
    destruct filter_nodes as [ns' res]. simpl. rewrite zlen_app. intros IH.
    assert (zlen mine <= zlen (seqZ (first_edge nd) (edges nd))); [|lia].
    unfold zlen, mine. rewrite length_seqZ. etransitivity; [apply inj_le, length_filter|].
    unfold zslice. rewrite length_take. lia.
  - specialize (IH (id + 1) out). revert IH. destruct filter_nodes as [ns' res]. simpl. intros IH.
    pose proof (zlen_nonneg (seqZ (first_edge nd) (edges nd))). lia.
Qed.

(** ** Claims *)

Section claims.
Context {D : Type}.
Implicit Types (g : DynamicGraph D).

(** [InsertEdge] on a well-formed graph with room in the 32-bit edge index
    space succeeds whichever slot it uses, keeps the invariant, adds exactly
    the new edge to the adjacency list of [from] and changes no other list. *)
Theorem dynamic_graph_insert (dflt : DynamicEdge D) g from nd to d
    (Hwf : dg_wf g) (Hfrom : node_array g !z from = Some nd) (Hto : 0 <= to < UINT32_MAX)
    (Hcap : zlen (edge_list g) + (11 * edges nd / 10 + 2) < 2 ^ 32) :
  exists e g', InsertEdge dflt g from to d = Some (e, g') /\ dg_wf g' /\
    adj g' from ≡ₚ mkDynamicEdge to d :: adj g from /\
    (forall m, m <> from -> adj g' m = adj g m) /\
    number_of_edges g' = wrap 32 (number_of_edges g + 1).
Proof.
  destruct (InsertEdge_ok dflt g from nd to d Hwf Hfrom Hto Hcap)
    as (e & g' & E & Hwf' & _ & Hn & Ha & Ho & _).
  exists e, g'. done.
Qed.


(** [FindEdge] returns an edge of [from] that leads to [to], or
    [SPECIAL_EDGEID] exactly when there is none; [FindSmallestEdge] returns one
    of least weight among them, if that weight is valid. *)
Theorem dynamic_graph_find g (weight_of : D -> Z) from nd to
    (Hwf : dg_wf g) (Hf : node_array g !z from = Some nd) :
  (exists e, FindEdge g from to = Some e /\
     (e = SPECIAL_EDGEID <-> forall x, x ∈ adj g from -> target x <> to) /\
     (e <> SPECIAL_EDGEID -> exists x, edge_of g from e x /\ target x = to)) /\
  (exists e, FindSmallestEdge g weight_of from to = Some e /\
     (e = SPECIAL_EDGEID <->
        forall x, x ∈ adj g from -> target x = to -> INVALID_EDGE_WEIGHT <= weight_of (data x)) /\
     (e <> SPECIAL_EDGEID -> exists x, edge_of g from e x /\ target x = to /\
        forall y, y ∈ adj g from -> target y = to -> weight_of (data x) <= weight_of (data y))).
Proof.
  split.
  - destruct (FindEdge_ok g from nd to Hwf Hf) as [(e & x & E & Hx & Ht)|[E Hno]].
    + exists e. split; [done|]. pose proof (edge_of_not_special _ _ _ _ Hwf Hx).
      split; [split; [done|]|by eauto]. intros Hno. destruct (Hno x); [|done].
      apply edge_of_adj; eauto.
    + by exists SPECIAL_EDGEID.
  - destruct (FindSmallestEdge_ok g weight_of from nd to Hwf Hf) as (e & E & [[-> Hno]|(x & Hx & Ht & Hlt & Hm)]).
    + by exists SPECIAL_EDGEID.
    + exists e. split; [done|]. pose proof (edge_of_not_special _ _ _ _ Hwf Hx).
      split; [split; [done|]|by eauto]. intros Hno. specialize (Hno x). 
      rewrite edge_of_adj in Hno by done. specialize (Hno (ex_intro _ e Hx) Ht). lia.
Qed.

(** The constructor from edges sorted by source yields a well-formed graph
    that gives every node exactly its edges, in input order. *)
Theorem dynamic_graph_construct nodes (es : list (InputEdge D))
    (Hn : 0 <= nodes) (Hsorted : sources_sorted 0 nodes es) (Hlen : zlen es < 2 ^ 32)
    (Ht : forall e, e ∈ es -> 0 <= ie_target e < UINT32_MAX) :
  dg_wf (DynamicGraph_new nodes es) /\
  forall n, 0 <= n < nodes ->
    adj (DynamicGraph_new nodes es) n = edge_of_input <$> filter (fun e => ie_source e = n) es.
Proof. by apply DynamicGraph_new_ok. Qed.

(** [Filter] keeps, for the nodes that satisfy the predicate, the edges to
    nodes that satisfy it, in order, and no edge for the other nodes; the
    result is a well-formed graph over the same node ids without free slots. *)
Theorem dynamic_graph_filter g (keep : Z -> bool) (Hwf : dg_wf g) :
  dg_wf (Filter g keep) /\ number_of_nodes (Filter g keep) = number_of_nodes g /\
  layout 0 (node_array (Filter g keep)) (zlen (edge_list (Filter g keep))) /\
  forall n, 0 <= n < number_of_nodes g -> adj (Filter g keep) n =
    if keep n then filter (fun e => keep (target e) = true) (adj g n) else [].
Proof.
  pose proof (dw_nodes _ Hwf) as Ln.
  destruct (filter_nodes_ok keep (edge_list g) 0 (node_array g) [])
    as (ns & l & E & L & Hl & Hsub & Hk); [intros k nd Hk; apply (dw_range _ Hwf _ _ Hk)|]. simpl in *.
  assert (Filter g keep = mkDynamicGraph (number_of_nodes g) (number_of_edges g) ns l) as ->
    by (unfold Filter; by rewrite E).
  assert (zlen l <= zlen (edge_list g)) as Hsz.
  { pose proof (filter_nodes_size keep (edge_list g) 0 (node_array g) []) as Hs. rewrite E in Hs. simpl in Hs.
    pose proof (slots_le _ Hwf). rewrite zlen_nil in Hs. lia. }
  pose proof (dw_size _ Hwf). split; [|split; [done|split; [done|]]].
  - apply layout_wf; simpl; [lia|done| |lia].
    intros e (n & nd & i & Hn & Ho & He)%Hsub. by apply (dw_live _ Hwf n nd i).
  - intros n Hr. destruct (zget_is_some (node_array g) n) as [nd Hnd]; [lia|].
    destruct (Hk n nd Hnd) as (nd' & Hnd' & Hsl). unfold adj. simpl. by rewrite Hnd', Hnd, Hsl.
Qed.

(** [Renumber] with a permutation of the nodes succeeds on every closed
    well-formed graph below the edge limit: node [n] becomes [old_to_new[n]]
    with its edges in order, their targets renumbered and their data kept, and
    the free slots are gone. *)
Theorem dynamic_graph_renumber (dflt : DynamicEdge D) g old_to_new
    (Hwf : dg_wf g) (Hp : is_permutation (number_of_nodes g) old_to_new)
    (Hn : number_of_nodes g <= UINT32_MAX) (Hsz : zlen (edge_list g) < UINT32_MAX)
    (Ht : forall n x, x ∈ adj g n -> 0 <= target x < number_of_nodes g) :
  exists g', Renumber dflt g old_to_new = Some (Some g') /\ dg_wf g' /\
    number_of_nodes g' = number_of_nodes g /\ number_of_edges g' = zlen (edge_list g') /\
    forall n n', old_to_new !z n = Some n' ->
      Forall2 (fun x y => old_to_new !z target x = Some (target y) /\ data y = data x)
        (adj g n) (adj g' n').
Proof. by apply Renumber_ok. Qed.
End claims.

(** ** Concrete runs *)

Definition demo_edges : list (InputEdge Z) :=
  [mkInputEdge 0 1 5; mkInputEdge 0 2 7; mkInputEdge 1 2 1; mkInputEdge 2 0 9; mkInputEdge 2 0 3].
Definition demo_graph : DynamicGraph Z := DynamicGraph_new 3 demo_edges.

Lemma dynamic_graph_construct_witness :
  dg_wf demo_graph /\ adj demo_graph 2 = [mkDynamicEdge 0 9; mkDynamicEdge 0 3].
Proof.
  destruct (dynamic_graph_construct 3 demo_edges) as [Hwf Ha]; [lia|cbn; lia|done| |].
  - intros e He. unfold demo_edges in He. set_unfold. unfold UINT32_MAX.
    by destruct He as [->|[->|[->|[->|[->|[]]]]]].
  - split; [exact Hwf|]. exact (Ha 2 ltac:(lia)).
Defined.

Lemma demo_wf : dg_wf demo_graph.
Proof.
  apply DynamicGraph_new_ok; [lia|cbn; lia|done|]. intros e He. unfold demo_edges in He. set_unfold.
  unfold UINT32_MAX. by destruct He as [->|[->|[->|[->|[->|[]]]]]].
Qed.

Lemma dynamic_graph_insert_witness :
  exists e g', InsertEdge (mkDynamicEdge 0 0) demo_graph 1 0 4 = Some (e, g') /\
    adj g' 1 ≡ₚ [mkDynamicEdge 0 4; mkDynamicEdge 2 1].
Proof.
  destruct (dynamic_graph_insert (mkDynamicEdge 0 0) demo_graph 1 (mkDynamicNode 2 1) 0 4)
    as (e & g' & E & _ & Ha & _); [exact demo_wf|done|by vm_compute|by vm_compute|].
  exists e, g'. split; [exact E|]. exact Ha.
Defined.


Lemma dynamic_graph_find_witness :
  exists e, FindSmallestEdge demo_graph id 2 0 = Some e /\ e <> SPECIAL_EDGEID.
Proof.
  destruct (dynamic_graph_find demo_graph id 2 (mkDynamicNode 3 2) 0 demo_wf eq_refl) as [_ (e & E & H & _)].
  exists e. split; [exact E|]. rewrite H. intros Hc.
  specialize (Hc (mkDynamicEdge 0 3)). vm_compute in Hc. apply Hc; [|done|done].
  right. left.
Defined.

Lemma dynamic_graph_filter_witness :
  dg_wf (Filter demo_graph (fun n => negb (n =? 1))) /\
  adj (Filter demo_graph (fun n => negb (n =? 1))) 0 = [mkDynamicEdge 2 7].
Proof.
  destruct (dynamic_graph_filter demo_graph (fun n => negb (n =? 1)) demo_wf) as (Hwf & _ & _ & Ha).
  split; [exact Hwf|]. by rewrite (Ha 0) by (vm_compute; split; congruence).
Defined.

Lemma dynamic_graph_renumber_witness :
  exists g', Renumber (mkDynamicEdge 0 0) demo_graph [2; 0; 1] = Some (Some g') /\
    number_of_edges g' = zlen (edge_list g').
Proof.
  destruct (dynamic_graph_renumber (mkDynamicEdge 0 0) demo_graph [2; 0; 1]) as (g' & E & _ & _ & Hn & _).
  - exact demo_wf.
  - apply (bool_decide_unpack _). vm_compute. exact I.
  - by vm_compute.
  - by vm_compute.
  - intros n x (e & nd & _ & _ & He)%edge_of_adj; [|exact demo_wf]. apply zget_elem in He.
    vm_compute in He. set_unfold. vm_compute number_of_nodes.
    by destruct He as [->|[->|[->|[->|[->|[]]]]]].
  - by exists g'.
Defined.
