(* ===== verification/StaticGraph.v ===== *)
(** * The adjacency structure of finished graphs

    Model of [util::StaticGraph] (include/util/static_graph.hpp): an offset per
    node plus a sentinel, and one array of edges.  Edge entries and input edges
    are those of the dynamic graph model. *)
From S2P Require Import Prelude Permutation DynamicGraph.

Module Static.

Record StaticGraph (D : Type) : Type := mkStaticGraph {
  number_of_nodes : Z;
  number_of_edges : Z;
  node_array : list Z;
  edge_array : list (DynamicEdge D)
}.
Arguments mkStaticGraph {_}.
Arguments number_of_nodes {_}.
Arguments number_of_edges {_}.
Arguments node_array {_}.
Arguments edge_array {_}.

Section static_graph.
Context {D : Type}.
Implicit Types (g : StaticGraph D) (l : list (DynamicEdge D)).

(** ** Construction *)

(** The offsets after each node: [find_if] stops at the first edge of another source. *)
Fixpoint offsets (n : nat) (node offset : Z) (es : list (InputEdge D)) : list Z :=
  match n with
  | O => []
  | S n =>
      let '(cnt, rest) := skip_source node es in
      wrap 32 (offset + cnt) :: offsets n (node + 1) (offset + cnt) rest
  end.

Definition InitializeFromSortedEdgeRange (nodes : Z) (es : list (InputEdge D)) : StaticGraph D :=
  mkStaticGraph nodes (wrap 32 (zlen es)) (0 :: offsets (Z.to_nat nodes) 0 0 es)
    ((fun e => mkDynamicEdge (ie_target e) (ie_data e)) <$> es).

(** The constructor from the two arrays. *)
Definition StaticGraph_from_arrays (node_array_ : list Z) (edge_array_ : list (DynamicEdge D))
  : option (StaticGraph D) :=
  back ← last node_array_;
  Some (mkStaticGraph (wrap 32 (zlen node_array_ - 1)) back node_array_ edge_array_).

(** ** Queries *)

Definition GetNumberOfNodes g : Z := number_of_nodes g.
Definition GetNumberOfEdges g : Z := number_of_edges g.
(** [node_array.at] throws where these are [None]. *)
Definition BeginEdges g (n : Z) : option Z := node_array g !z n.
Definition EndEdges g (n : Z) : option Z := node_array g !z wrap 32 (n + 1).
Definition GetOutDegree g (n : Z) : option Z :=
  e ← EndEdges g n; b ← BeginEdges g n; Some (wrap 32 (e - b)).
Definition GetTarget g (e : Z) : option Z := x ← edge_array g !z e; Some (target x).
Definition GetEdgeData g (e : Z) : option D := x ← edge_array g !z e; Some (data x).
Definition GetAdjacentEdgeRange g (n : Z) : option (list Z) :=
  b ← BeginEdges g n; e ← EndEdges g n; Some (irange b e).

Definition FindEdge g (from to : Z) : option Z :=
  range ← GetAdjacentEdgeRange g from; find_edge_loop (edge_array g) range to.

Fixpoint find_smallest_filtered l (weight_of : D -> Z) (keep : D -> bool) (range : list Z)
    (to smallest_edge smallest_weight : Z) : option Z :=
  match range with
  | [] => Some smallest_edge
  | i :: range =>
      e ← l !z i;
      if (target e =? to) && (weight_of (data e) <? smallest_weight) && keep (data e)
      then find_smallest_filtered l weight_of keep range to i (weight_of (data e))
      else find_smallest_filtered l weight_of keep range to smallest_edge smallest_weight
  end.

Definition FindSmallestEdge g (weight_of : D -> Z) (keep : D -> bool) (from to : Z) : option Z :=
  range ← GetAdjacentEdgeRange g from;
  find_smallest_filtered (edge_array g) weight_of keep range to SPECIAL_EDGEID INVALID_EDGE_WEIGHT.

Definition FindEdgeInEitherDirection g (from to : Z) : option Z :=
  tmp ← FindEdge g from to;
  if negb (SPECIAL_NODEID =? tmp) then Some tmp else FindEdge g to from.

Definition FindEdgeIndicateIfReverse g (from to : Z) (result : bool) : option (Z * bool) :=
  current ← FindEdge g from to;
  if SPECIAL_NODEID =? current
  then current' ← FindEdge g to from;
       Some (current', if negb (SPECIAL_NODEID =? current') then true else result)
  else Some (current, result).

(** ** Renumbering

    The edges of a node are handled as in the dynamic graph; the counter is an
    [int] here, so the same below [2^31] edges. *)
Fixpoint renumber_static_nodes (old_to_new_node new_to_old_node offs : list Z) (n : nat) (node : Z) l
    (old_to_new_edge : list Z) (new_edge_index : Z)
  : option (list Z * list (DynamicEdge D) * list Z * Z) :=
  match n with
  | O => Some ([], l, old_to_new_edge, new_edge_index)
  | S n =>
      old ← new_to_old_node !z node;
      b ← offs !z old;
      e ← offs !z wrap 32 (old + 1);
      '(l', o, next) ← renumber_edges old_to_new_node (irange b e) l old_to_new_edge new_edge_index;
      '(firsts, l'', o', fin) ←
        renumber_static_nodes old_to_new_node new_to_old_node offs n (node + 1) l' o next;
      Some (new_edge_index :: firsts, l'', o', fin)
  end.

Definition Renumber g (old_to_new_node : list Z) : option (StaticGraph D) :=
  new_to_old_node ← orderingToPermutation old_to_new_node;
  '(firsts, l, o, fin) ← renumber_static_nodes old_to_new_node new_to_old_node (node_array g)
      (Z.to_nat (number_of_nodes g)) 0 (edge_array g)
      (replicate (length (edge_array g)) SPECIAL_EDGEID) 0;
  l' ← inplacePermutation o l;
  Some (mkStaticGraph (number_of_nodes g) (number_of_edges g) (firsts ++ [fin]) l').

(** ** Adjacency and invariant *)

Definition sadj g (n : Z) : list (DynamicEdge D) :=
  match node_array g !z n, node_array g !z (n + 1) with
  | Some b, Some e => zslice (edge_array g) b (e - b)
  | _, _ => []
  end.

(** The ranges between consecutive offsets. *)
Fixpoint spans (offs : list Z) : list DynamicNode :=
  match offs with
  | b :: (e :: _) as offs' => mkDynamicNode b (e - b) :: spans offs'
  | _ => []
  end.

Record sg_wf g : Prop := {
  sw_nodes : zlen (node_array g) = number_of_nodes g + 1;
  sw_layout : layout 0 (spans (node_array g)) (zlen (edge_array g));
  sw_num : 0 <= number_of_nodes g < UINT32_MAX;
  sw_size : zlen (edge_array g) < UINT32_MAX
}.

(** ** Offsets and ranges *)

Lemma spans_get offs n nd :
  spans offs !z n = Some nd <->
  offs !z n = Some (first_edge nd) /\ offs !z (n + 1) = Some (first_edge nd + edges nd).
Proof.
  revert n. induction offs as [|b [|e offs] IH]; intros n.
  - split; [by intros H%zget_elem%elem_of_nil|]. by intros [H%zget_elem%elem_of_nil _].
  - split; [by intros H%zget_elem%elem_of_nil|]. intros [H1 H2].
    apply zget_some in H1, H2. unfold zlen in *. simpl in *. lia.
  - cbn [spans]. split.
    + intros [[-> ->]|[Hn Hnd]]%zget_cons_inv.
      * cbn [first_edge edges]. split; [done|]. rewrite zget_cons_S by lia.
        change (0 + 1 - 1) with 0. rewrite zget_cons_0. f_equal. lia.
      * apply IH in Hnd as [H1 H2]. rewrite !(zget_cons_S b) by lia. split; [done|].
        by replace (n + 1 - 1) with (n - 1 + 1) by lia.
    + intros [H1 H2]. pose proof (zget_some _ _ _ H1). destruct (decide (n = 0)) as [->|Hne].
      * rewrite zget_cons_0 in H1. rewrite zget_cons_S in H2 by lia. cbn in H2.
        rewrite zget_cons_0. destruct nd as [f c]. simpl in *. f_equal. injection H1 as ->. injection H2 as ->.
        f_equal. lia.
      * rewrite zget_cons_S by lia. apply IH. rewrite !(zget_cons_S b) in * by lia. split; [done|].
        by replace (n - 1 + 1) with (n + 1 - 1) by lia.
Qed.

Lemma spans_len offs : offs <> [] -> zlen (spans offs) = zlen offs - 1.
Proof.
  induction offs as [|b [|e offs] IH]; [done|done|]. intros _.
  change (spans (b :: e :: offs)) with (mkDynamicNode b (e - b) :: spans (e :: offs)). rewrite zlen_cons, IH by done.
  rewrite (zlen_cons b). lia.
Qed.

Lemma spans_cons b e offs : spans (b :: e :: offs) = mkDynamicNode b (e - b) :: spans (e :: offs).
Proof. done. Qed.

Lemma spans_of_layout pos ns fin :
  layout pos ns fin -> spans (pos :: ((fun nd => first_edge nd + edges nd) <$> ns)) = ns /\
    spans ((first_edge <$> ns) ++ [fin]) = ns.
Proof.
  revert pos. induction ns as [|nd ns IH]; intros pos Hl; [done|].
  destruct Hl as (H1 & H2 & H3). destruct (IH _ H3) as [E1 E2]. split.
  - rewrite fmap_cons, spans_cons. rewrite H1, E1. f_equal. destruct nd as [f c]. simpl in *. f_equal; lia.
  - rewrite fmap_cons. simpl app. destruct ns as [|nd' ns].
    + simpl in *. destruct nd as [f c]. simpl in *. subst fin. do 2 f_equal; lia.
    + destruct H3 as (H3 & _). rewrite fmap_cons in E2 |- *. simpl app in E2 |- *. rewrite spans_cons, E2, H3.
      f_equal. destruct nd as [f c]. simpl in *. f_equal; lia.
Qed.

Lemma layout_cover pos ns fin i :
  layout pos ns fin -> pos <= i < fin -> exists k nd, ns !z k = Some nd /\ owns nd i.
Proof.
  revert pos. induction ns as [|nd ns IH]; intros pos Hl Hi; simpl in Hl; [lia|].
  destruct Hl as (H1 & H2 & H3). destruct (decide (i < pos + edges nd)).
  - exists 0, nd. split; [done|]. unfold owns. lia.
  - destruct (IH _ H3) as (k & md & Hk & Ho); [lia|]. exists (k + 1), md.
    pose proof (zget_some _ _ _ Hk). rewrite zget_cons_S by lia. by replace (k + 1 - 1) with k by lia.
Qed.

Lemma sadj_spans g n nd : spans (node_array g) !z n = Some nd ->
  sadj g n = zslice (edge_array g) (first_edge nd) (edges nd).
Proof. intros [H1 H2]%spans_get. unfold sadj. rewrite H1, H2. f_equal. lia. Qed.

(** ** Construction *)

Lemma offsets_ok n node pos es ns fin :
  build_nodes n node pos es = (ns, fin) -> 0 <= pos -> layout pos ns fin -> fin < 2 ^ 32 ->
  offsets n node pos es = (fun nd => first_edge nd + edges nd) <$> ns.
Proof.
  revert node pos es ns. induction n as [|n IH]; intros node pos es ns; cbn [build_nodes offsets].
  { by intros [= <- <-]. }
  destruct (skip_source node es) as [cnt rest].
  destruct (build_nodes n (node + 1) (pos + cnt) rest) as [ns' p] eqn:E. intros [= <- <-] Hp Hl Hf.
  simpl in Hl. destruct Hl as (_ & Hc & Hl). pose proof (layout_end _ _ _ Hl).
  rewrite wrap_small by (unfold in_word; lia). simpl. f_equal. by apply IH; [|lia|..].
Qed.

Lemma construct_ok nodes es :
  0 <= nodes < UINT32_MAX -> sources_sorted 0 nodes es -> zlen es < UINT32_MAX ->
  sg_wf (InitializeFromSortedEdgeRange nodes es) /\
  forall n, 0 <= n < nodes -> sadj (InitializeFromSortedEdgeRange nodes es) n =
    edge_of_input <$> filter (fun e => ie_source e = n) es.
Proof.
  intros Hn Hs Hlen. unfold UINT32_MAX in *.
  destruct (build_nodes_ok (Z.to_nat nodes) 0 0 es) as (ns & E & Ln & Hl & Hsl);
    [lia|by replace (0 + Z.of_nat (Z.to_nat nodes)) with nodes by lia|].
  rewrite Z.add_0_l in *.
  assert (offsets (Z.to_nat nodes) 0 0 es = (fun nd => first_edge nd + edges nd) <$> ns) as Eo
    by (eapply offsets_ok; [done|lia|done|lia]).
  destruct (spans_of_layout 0 ns (zlen es) Hl) as [Es _].
  unfold InitializeFromSortedEdgeRange. rewrite Eo.
  assert (zlen (edge_of_input <$> es) = zlen es) as Lm by (unfold zlen; by rewrite length_fmap).
  assert (zlen ((fun nd => first_edge nd + edges nd) <$> ns) = zlen ns) as Lf by (unfold zlen; by rewrite length_fmap).
  split.
  - constructor; cbn [number_of_nodes node_array edge_array].
    + rewrite zlen_cons. lia.
    + rewrite Es. change (layout 0 ns (zlen (edge_of_input <$> es))). by rewrite Lm.
    + unfold UINT32_MAX. lia.
    + change (zlen (edge_of_input <$> es) < UINT32_MAX). rewrite Lm. unfold UINT32_MAX. lia.
  - intros n Hr. destruct (zget_is_some ns n) as [nd Hnd]; [lia|].
    rewrite (sadj_spans _ n nd); [|cbn [node_array]; by rewrite Es].
    change (zslice (edge_of_input <$> es) (first_edge nd) (edges nd) = edge_of_input <$> filter (fun e => ie_source e = n) es).
    rewrite zslice_fmap. f_equal. rewrite <- (Z.sub_0_r (first_edge nd)).
    rewrite (Hsl n nd Hnd). apply list_filter_iff. intros e. lia.
Qed.

(** ** Renumbering *)

Lemma renumber_nodes_frame o2n n node (ns ns' : list DynamicNode) l l' o o' idx idx' :
  renumber_nodes o2n n node ns l o idx = Some (ns', l', o', idx') ->
  forall m, m < node -> ns' !z m = ns !z m.
Proof.
  revert node ns l o idx. induction n as [|n IH]; intros node ns l o idx; cbn [renumber_nodes].
  { by intros [= <- _ _ _]. }
  intros E m Hm. inv_opt. destruct r0 as [[l1 o1] next]. inv_opt.
  rewrite (IH _ _ _ _ _ E) by lia. eapply zset_get_ne; [done|lia].
Qed.

(** The loop over the new node ids does what the loop of the dynamic graph does
    on the permuted ranges. *)
Lemma renumber_static_sim o2n n2o offs n node ns l o idx ns' l' o' idx' :
  renumber_nodes o2n n node ns l o idx = Some (ns', l', o', idx') ->
  (forall m nd, node <= m -> ns !z m = Some nd -> exists old, n2o !z m = Some old /\ spans offs !z old = Some nd) ->
  (forall m nd, spans offs !z m = Some nd -> 0 <= first_edge nd + edges nd < 2 ^ 32) -> zlen offs < 2 ^ 32 ->
  exists firsts, renumber_static_nodes o2n n2o offs n node l o idx = Some (firsts, l', o', idx') /\
    zlen firsts = Z.of_nat n /\
    forall k, 0 <= k < Z.of_nat n -> exists nd, ns' !z (node + k) = Some nd /\ firsts !z k = Some (first_edge nd).
Proof.
  revert node ns l o idx. induction n as [|n IH]; intros node ns l o idx; cbn [renumber_nodes renumber_static_nodes].
  { intros [= <- <- <- <-] _ _ _. exists []. split; [done|]. split; [done|]. intros k Hk. lia. }
  intros E Hns Hw Ho. inv_opt. destruct r0 as [[l1 o1] next]. inv_opt.
  destruct (Hns node r ltac:(lia) Hr) as (old & Hold & Hspan). rewrite Hold. cbn [mbind option_bind].
  pose proof (Hw _ _ Hspan) as Hw'. apply spans_get in Hspan as [H1 H2]. rewrite H1. cbn [mbind option_bind].
  pose proof (zget_some _ _ _ H1). pose proof (zget_some _ _ _ H2).
  rewrite (wrap_small 32 (old + 1)) by (unfold in_word; lia). rewrite H2. cbn [mbind option_bind].
  rewrite wrap_small in Hr0 by (unfold in_word; lia). rewrite Hr0. cbn [mbind option_bind].
  destruct (IH _ _ _ _ _ E) as (firsts & E' & Lf & Hf); [|done|done|].
  { intros m nd Hm. rewrite (zset_get_ne _ _ _ _ _ Hr1) by lia. apply Hns. lia. }
  rewrite E'. cbn [mbind option_bind]. exists (idx :: firsts). split; [done|]. rewrite zlen_cons. split; [lia|].
  intros k Hk. destruct (decide (k = 0)) as [->|Hne].
  - exists (mkDynamicNode idx (edges r)). split; [|done]. rewrite Z.add_0_r.
    rewrite (renumber_nodes_frame _ _ _ _ _ _ _ _ _ _ _ E) by lia. eauto with osrm.
  - destruct (Hf (k - 1)) as (nd & Hnd & Hfk); [lia|]. exists nd. rewrite zget_cons_S by lia.
    split; [|done]. by replace (node + k) with (node + 1 + (k - 1)) by lia.
Qed.

Lemma static_renumber_ok g o2n :
  sg_wf g -> is_permutation (number_of_nodes g) o2n ->
  (forall n x, x ∈ sadj g n -> 0 <= target x < number_of_nodes g) ->
  exists g', Renumber g o2n = Some g' /\ sg_wf g' /\ number_of_nodes g' = number_of_nodes g /\
    forall n n', o2n !z n = Some n' -> Forall2 (retargets o2n) (sadj g n) (sadj g' n').
Proof.
  intros [Wn Wl Wm Ws] Hp Htgt. unfold Renumber.
  assert (zlen o2n = number_of_nodes g) as Lo by (apply perm_len; [lia|done]).
  destruct (orderingToPermutation_ok o2n) as (n2o & -> & Hp2 & Hn2o); [by rewrite Lo|].
  cbn [mbind option_bind]. rewrite Lo in Hp2.
  assert (node_array g <> []) as Hne by (intros E; rewrite E in Wn; unfold zlen in Wn; simpl in Wn; lia).
  assert (zlen (spans (node_array g)) = number_of_nodes g) as Lsp by (rewrite spans_len by done; lia).
  rewrite <- Lsp in Hp. destruct (inplacePermutation_ok o2n _ Hp) as (ns0 & _ & Lns & Hns).
  assert (forall m nd, ns0 !z m = Some nd -> exists n, o2n !z n = Some m /\ spans (node_array g) !z n = Some nd) as Hback.
  { intros m nd Hm. destruct (perm_surj _ _ Hp m) as [n Hn]; [apply zget_some in Hm; lia|].
    exists n. split; [done|]. by rewrite <- (Hns _ _ Hn). }
  edestruct (renumber_nodes_ok o2n ns0 (edge_array g)) with (n := Z.to_nat (number_of_nodes g))
    (node := 0) (ns := ns0) (l := edge_array g) (o := replicate (length (edge_array g)) SPECIAL_EDGEID) (idx := 0)
    as (ns' & l & o & idx & E & HR).
  { intros m nd (n & _ & Hnd)%Hback. by apply (layout_range _ _ _ _ _ Wl Hnd). }
  { intros m m' nd nd' i (n & Hn & Hnd)%Hback (n' & Hn' & Hnd')%Hback Hmm Hi Hi'. unfold owns in *.
    assert (n <> n') by congruence. destruct (decide (n < n')).
    - pose proof (layout_order _ _ _ _ _ _ _ Wl Hnd Hnd'). lia.
    - pose proof (layout_order _ _ _ _ _ _ _ Wl Hnd' Hnd). lia. }
  { done. }
  { intros m nd i x (n & _ & Hnd)%Hback Ho Hx. rewrite Lo. apply (Htgt n). rewrite (sadj_spans _ _ _ Hnd).
    destruct (layout_range _ _ _ _ _ Wl Hnd) as (R1 & R2 & R3). unfold owns in Ho.
    apply (zget_elem _ (i - first_edge nd)). rewrite zslice_get by lia.
    by replace (first_edge nd + (i - first_edge nd)) with i by lia. }
  { by apply renumber_start. }
  { lia. }
  unfold UINT32_MAX in *.
  destruct (renumber_static_sim o2n n2o (node_array g) _ _ _ _ _ _ _ _ _ _ E) as (firsts & -> & Lf & Hf).
  { intros m nd _ (n & Hn & Hnd)%Hback. exists n. split; [by apply Hn2o|done]. }
  { intros m nd Hnd. pose proof (layout_range _ _ _ _ _ Wl Hnd). lia. }
  { lia. }
  cbn [mbind option_bind]. destruct HR as [_ R1 R2 R3 R4 _ R6 R7 R8 _ _].
  rewrite firstn_all2 in R6 by (unfold zlen in *; lia).
  assert (forall i v, o !z i = Some v -> v <> SPECIAL_EDGEID) as Hfull.
  { intros i v Hv. destruct (layout_cover _ _ _ i Wl) as (n & nd & Hn & Ho); [apply zget_some in Hv; lia|].
    destruct (zget_is_some o2n n) as [m Hm]; [apply zget_some in Hn; lia|].
    rewrite <- (Hns _ _ Hm) in Hn. destruct (R8 m nd) as (f & _ & Hk); [apply zget_some in Hn; lia|done|].
    unfold owns in Ho. destruct (zget_is_some (edge_array g) i) as [x Hx]; [apply zget_some in Hv; lia|].
    destruct (Hk (i - first_edge nd) x) as (H1 & H2 & _); [lia|by replace (first_edge nd + (i - first_edge nd)) with i by lia|].
    replace (first_edge nd + (i - first_edge nd)) with i in H1 by lia.
    assert (idx <= zlen o).
    { pose proof (assigned_le o) as Hle. unfold zlen in Hle at 1. rewrite R7, length_seqZ in Hle. lia. }
    unfold SPECIAL_EDGEID, UINT32_MAX. rewrite H1 in Hv. injection Hv as <-. lia. }
  assert (assigned o = o) as Eas by (apply filter_all; intros v [i Hi]%elem_zget; by eapply Hfull).
  rewrite Eas in R7. assert (zlen o = idx) as Lidx by (unfold zlen; rewrite R7, length_seqZ; lia).
  assert (is_permutation (zlen l) o) as Hpo by (unfold is_permutation; by replace (zlen l) with idx by lia).
  destruct (inplacePermutation_ok o l Hpo) as (l2 & -> & L2 & G2). cbn [mbind option_bind].
  assert (firsts = first_edge <$> ns') as ->.
  { apply zlist_eq; [unfold zlen in *; rewrite length_fmap; lia|]. intros k Hk.
    destruct (Hf k) as (nd & Hnd & ->); [lia|]. rewrite Z.add_0_l in Hnd. unfold zget in *.
    destruct (0 <=? k); [|done]. by rewrite list_lookup_fmap, Hnd. }
  destruct (spans_of_layout 0 ns' idx R6) as [_ Es].
  eexists. split; [reflexivity|]. split; [|split; [done|]].
  - constructor; cbn [number_of_nodes node_array edge_array]; unfold UINT32_MAX.
    + rewrite zlen_snoc. unfold zlen in *. rewrite length_fmap. lia.
    + rewrite Es. by replace (zlen l2) with idx by lia.
    + lia.
    + lia.
  - intros n n' Hn. pose proof (zget_some _ _ _ Hn) as Rn. rewrite Lo in Rn.
    destruct (zget_is_some (spans (node_array g)) n) as [nd Hnd]; [lia|].
    pose proof (Hns _ _ Hn) as Hm. rewrite Hnd in Hm.
    destruct (layout_range _ _ _ _ _ Wl Hnd) as (A1 & A2 & A3).
    destruct (R8 n' nd) as (f & Hf' & Hk'); [apply zget_some in Hm; lia|done|].
    destruct (layout_range _ _ _ _ _ R6 Hf') as (B1 & _ & B2). simpl in B1, B2.
    rewrite (sadj_spans g n nd Hnd), (sadj_spans _ n' (mkDynamicNode f (edges nd)));
      [|cbn [node_array]; by rewrite Es].
    cbn [first_edge edges edge_array]. apply Forall2_same_length_lookup. split.
    { pose proof (zslice_len (edge_array g) (first_edge nd) (edges nd)).
      pose proof (zslice_len l2 f (edges nd)). unfold zlen in *. lia. }
    intros j x y Hx Hy. rewrite <- zget_nat in Hx, Hy. pose proof (zget_some _ _ _ Hx) as Hj.
    rewrite zslice_len in Hj by lia. rewrite zslice_get in Hx, Hy by lia.
    destruct (Hk' _ _ Hj Hx) as (C1 & C2 & z & C3 & C4). rewrite (G2 _ _ C1) in Hy. congruence.
Qed.

Lemma adjacent_bounds g n :
  sg_wf g -> 0 <= n < number_of_nodes g ->
  exists b e, BeginEdges g n = Some b /\ EndEdges g n = Some e /\ 0 <= b <= e /\ e <= zlen (edge_array g) /\
    sadj g n = zslice (edge_array g) b (e - b).
Proof.
  intros [W1 W2 W3 W4] Hn. assert (node_array g <> []) as Hne by (intros E; rewrite E in W1; unfold zlen in W1; simpl in W1; lia).
  destruct (zget_is_some (spans (node_array g)) n) as [nd Hnd]; [rewrite spans_len by done; lia|].
  pose proof (layout_range _ _ _ _ _ W2 Hnd) as (R1 & R2 & R3). pose proof (sadj_spans _ _ _ Hnd) as Es.
  apply spans_get in Hnd as [H1 H2]. exists (first_edge nd), (first_edge nd + edges nd).
  unfold BeginEdges, EndEdges, UINT32_MAX in *. rewrite (wrap_small 32 (n + 1)) by (unfold in_word; lia).
  split_and!; [done|done|lia|lia|lia|]. rewrite Es. f_equal. lia.
Qed.

(** ** Claims *)

(** A static graph built from edges sorted by source is well formed (offsets
    cover the edge array without gaps) and every node's range holds exactly
    its edges, in input order. *)
Theorem static_graph_construct nodes (es : list (InputEdge D))
    (Hn : 0 <= nodes < UINT32_MAX) (Hsorted : sources_sorted 0 nodes es) (Hlen : zlen es < UINT32_MAX) :
  let g := InitializeFromSortedEdgeRange nodes es in
  sg_wf g /\ forall n, 0 <= n < nodes ->
    sadj g n = edge_of_input <$> filter (fun e => ie_source e = n) es /\
    GetAdjacentEdgeRange g n <> None /\ GetOutDegree g n = Some (zlen (sadj g n)).
Proof.
  intros g. destruct (construct_ok nodes es Hn Hsorted Hlen) as [Hwf Hadj]. split; [done|].
  intros n Hr. split; [by apply Hadj|].
  destruct (adjacent_bounds g n Hwf Hr) as (b & e & Hb & He & Hbe & Hle & ->).
  unfold GetAdjacentEdgeRange, GetOutDegree. rewrite Hb, He. cbn [mbind option_bind]. split; [done|].
  rewrite zslice_len by lia. f_equal. apply wrap_small. pose proof (sw_size g Hwf). unfold in_word, UINT32_MAX in *. lia.
Qed.

(** [Renumber] with a permutation of the nodes keeps the graph well formed;
    node [n] becomes [old_to_new[n]] with its edges in order, their targets
    renumbered and their data kept. *)
Theorem static_graph_renumber g old_to_new (Hwf : sg_wf g)
    (Hp : is_permutation (number_of_nodes g) old_to_new)
    (Ht : forall n x, x ∈ sadj g n -> 0 <= target x < number_of_nodes g) :
  exists g', Renumber g old_to_new = Some g' /\ sg_wf g' /\ number_of_nodes g' = number_of_nodes g /\
    forall n n', old_to_new !z n = Some n' ->
      Forall2 (fun x y => old_to_new !z target x = Some (target y) /\ data y = data x)
        (sadj g n) (sadj g' n').
Proof. by apply static_renumber_ok. Qed.
End static_graph.

Definition demo_static : StaticGraph Z := InitializeFromSortedEdgeRange 3 demo_edges.

Lemma static_graph_construct_witness :
  sg_wf demo_static /\ sadj demo_static 0 = [mkDynamicEdge 1 5; mkDynamicEdge 2 7].
Proof.
  destruct (static_graph_construct 3 demo_edges) as [Hwf Ha]; [done|cbn; lia|done|].
  split; [exact Hwf|]. exact (proj1 (Ha 0 ltac:(lia))).
Defined.

Lemma static_graph_renumber_witness :
  exists g', Renumber demo_static [2; 0; 1] = Some g' /\ sg_wf g'.
Proof.
  destruct (static_graph_renumber demo_static [2; 0; 1]) as (g' & E & Hwf & _).
  - apply construct_ok; [done|cbn; lia|done].
  - apply (bool_decide_unpack _). vm_compute. exact I.
  - intros n x Hx. unfold sadj in Hx. destruct (node_array demo_static !z n) as [b|] eqn:Eb; [|by apply elem_of_nil in Hx].
    destruct (node_array demo_static !z (n + 1)) as [e|] eqn:Ee; [|by apply elem_of_nil in Hx].
    apply zget_elem in Eb. assert (0 <= b) as Hb.
    { unfold demo_static in Eb. vm_compute in Eb. set_unfold. lia. }
    apply zslice_elem in Hx as (i & _ & Hx); [|done]. apply zget_elem in Hx. vm_compute in Hx. set_unfold.
    vm_compute number_of_nodes. by destruct Hx as [->|[->|[->|[->|[->|[]]]]]].
  - exists g'. split; [exact E|exact Hwf].
Defined.
End Static.
