(* ===== verification/GraphInterface.v ===== *)
(** * Graphs as searches and builders see them

    The partitioner, the customizer and the searches of the engine are templates
    over the graph type.  [Graph] holds the operations they use, [GraphLaws] what
    they rely on; both graph types of src/include/util are instances. *)
From S2P Require Import Prelude DynamicGraph StaticGraph.

(** The operations. *)
Class Graph (G D : Type) : Type := {
  graph_nodes : G -> Z;
  graph_range : G -> Z -> option (list Z);
  graph_target : G -> Z -> option Z;
  graph_data : G -> Z -> option D
}.

(** The contract: on a well-formed graph the edge range of a node lists its adjacency. *)
Class GraphLaws (G D : Type) `{!Graph G D} : Type := {
  graph_wf : G -> Prop;
  adjacency : G -> Z -> list (DynamicEdge D);
  graph_range_ok g n : graph_wf g -> 0 <= n < graph_nodes g ->
    exists range, graph_range g n = Some range /\
      Forall2 (fun e x => graph_target g e = Some (target x) /\ graph_data g e = Some (data x)) range (adjacency g n)
}.

#[export] Instance static_graph {D} : Graph (Static.StaticGraph D) D := {|
  graph_nodes := Static.GetNumberOfNodes;
  graph_range := Static.GetAdjacentEdgeRange;
  graph_target := Static.GetTarget;
  graph_data := Static.GetEdgeData
|}.

#[export] Instance dynamic_graph {D} : Graph (DynamicGraph D) D := {|
  graph_nodes := GetNumberOfNodes;
  graph_range := GetAdjacentEdgeRange;
  graph_target := GetTarget;
  graph_data := GetEdgeData
|}.

Lemma range_slice {A} (l : list A) b e :
  0 <= b <= e -> e <= zlen l -> Forall2 (fun i x => l !z i = Some x) (irange b e) (zslice l b (e - b)).
Proof.
  intros Hb He. apply Forall2_same_length_lookup. split.
  { pose proof (zslice_len l b (e - b)) as H. unfold irange, zlen in *. rewrite length_seqZ. lia. }
  intros k i x Hi Hx. unfold irange in Hi. apply lookup_seqZ in Hi as [-> Hi].
  rewrite <- zget_nat, zslice_get in Hx by lia. done.
Qed.

#[export] Instance static_graph_laws {D} : GraphLaws (Static.StaticGraph D) D.
Proof.
  refine {| graph_wf := Static.sg_wf; adjacency := Static.sadj |}. intros g n Hwf Hn.
  destruct (Static.adjacent_bounds g n Hwf Hn) as (b & e & Hb & He & Hbe & Hle & ->).
  exists (irange b e). simpl. unfold Static.GetAdjacentEdgeRange. rewrite Hb, He. split; [done|].
  eapply Forall2_impl; [by apply range_slice; lia|]. intros i x Hx. unfold Static.GetTarget, Static.GetEdgeData.
  by rewrite Hx.
Defined.

#[export] Instance dynamic_graph_laws {D} : GraphLaws (DynamicGraph D) D.
Proof.
  refine {| graph_wf := dg_wf; adjacency := adj |}. intros g n Hwf Hn.
  destruct (zget_is_some (node_array g) n) as [nd Hnd]; [rewrite (dw_nodes _ Hwf); exact Hn|].
  destruct (dw_range _ Hwf _ _ Hnd) as (H1 & H2 & H3). pose proof (dw_size _ Hwf).
  exists (irange (first_edge nd) (first_edge nd + edges nd)). simpl.
  unfold GetAdjacentEdgeRange, BeginEdges, EndEdges, adj. rewrite Hnd. cbn [mbind option_bind].
  rewrite wrap_small by (split; lia). split; [done|].
  eapply Forall2_impl.
  { replace (edges nd) with (first_edge nd + edges nd - first_edge nd) at 2 by lia. apply range_slice; lia. }
  intros i x Hx. unfold GetTarget, GetEdgeData. by rewrite Hx.
Defined.
