(* ===== verification/FilteredGraph.v ===== *)
(** * Graphs with a filter of edges

    Model of the views of a finished graph in include/util/filtered_graph.hpp and
    include/util/filtered_integer_range.hpp: a [StaticGraph] and a bit per edge;
    ranges of edges skip the ones without the bit.  The hierarchy is stored once
    for all combinations of classes that can be excluded, with a filter for each.
    The view is an instance of the interface of graphs, so that the theorems on
    the searches apply to it. *)
From S2P Require Import Prelude DynamicGraph StaticGraph GraphInterface.

Module Filtered.

Record FilteredGraph (D : Type) : Type := mkFilteredGraph {
  graph : Static.StaticGraph D;
  edge_filter : list bool
}.
Arguments mkFilteredGraph {_}.
Arguments graph {_}.
Arguments edge_filter {_}.

(** The values of a range that the filter admits; reading past the filter is undefined. *)
Fixpoint filtered_range (filter : list bool) (range : list Z) : option (list Z) :=
  match range with
  | [] => Some []
  | value :: range =>
      admitted ← filter !z value;
      rest ← filtered_range filter range;
      Some (if (admitted : bool) then value :: rest else rest)
  end.

Section filtered_graph.
Context {D : Type}.
Implicit Types (g : FilteredGraph D).

Definition GetNumberOfNodes g : Z := Static.GetNumberOfNodes (graph g).
Definition GetNumberOfEdges g : Z := Static.GetNumberOfEdges (graph g).
Definition GetTarget g (e : Z) : option Z := Static.GetTarget (graph g) e.
Definition GetEdgeData g (e : Z) : option D := Static.GetEdgeData (graph g) e.

Definition GetAdjacentEdgeRange g (n : Z) : option (list Z) :=
  b ← Static.BeginEdges (graph g) n; e ← Static.EndEdges (graph g) n; filtered_range (edge_filter g) (irange b e).

(** [count_if] over the range of the graph without the filter. *)
Fixpoint count_admitted (filter : list bool) (range : list Z) : option Z :=
  match range with
  | [] => Some 0
  | edge :: range => admitted ← filter !z edge; n ← count_admitted filter range; Some (if (admitted : bool) then n + 1 else n)
  end.

Definition GetOutDegree g (n : Z) : option Z :=
  range ← Static.GetAdjacentEdgeRange (graph g) n; count ← count_admitted (edge_filter g) range; Some (wrap 32 count).

Definition FindEdge g (from to : Z) : option Z :=
  range ← GetAdjacentEdgeRange g from; find_edge_loop (Static.edge_array (graph g)) range to.

Definition FindSmallestEdge g (weight_of : D -> Z) (keep : D -> bool) (from to : Z) : option Z :=
  range ← GetAdjacentEdgeRange g from;
  Static.find_smallest_filtered (Static.edge_array (graph g)) weight_of keep range to SPECIAL_EDGEID INVALID_EDGE_WEIGHT.

Definition FindEdgeInEitherDirection g (from to : Z) : option Z :=
  tmp ← FindEdge g from to;
  if negb (SPECIAL_NODEID =? tmp) then Some tmp else FindEdge g to from.

Definition FindEdgeIndicateIfReverse g (from to : Z) (result : bool) : option (Z * bool) :=
  current_iterator ← FindEdge g from to;
  if SPECIAL_NODEID =? current_iterator
  then current_iterator' ← FindEdge g to from;
       Some (current_iterator', if negb (SPECIAL_NODEID =? current_iterator') then true else result)
  else Some (current_iterator, result).
End filtered_graph.

(** ** The view as an instance of the interface *)

Definition adjacency {D} (g : FilteredGraph D) (n : Z) : list (DynamicEdge D) :=
  match Static.BeginEdges (graph g) n, Static.EndEdges (graph g) n with
  | Some b, Some e => masked (zslice (Static.edge_array (graph g)) b (e - b)) (zslice (edge_filter g) b (e - b))
  | _, _ => []
  end.

Record fg_wf {D} (g : FilteredGraph D) : Prop := {
  fw_filter : length (edge_filter g) = length (Static.edge_array (graph g));
  fw_range n : 0 <= n < GetNumberOfNodes g -> exists b e, Static.BeginEdges (graph g) n = Some b /\ Static.EndEdges (graph g) n = Some e /\
    0 <= b <= e /\ e <= zlen (Static.edge_array (graph g))
}.

#[global] Instance filtered_graph {D} : Graph (FilteredGraph D) D := {|
  graph_nodes := GetNumberOfNodes;
  graph_range := GetAdjacentEdgeRange;
  graph_target := GetTarget;
  graph_data := GetEdgeData
|}.

Lemma filtered_range_ok {A} (P : Z -> A -> Prop) filter range l : Forall2 P range l -> forall f, Forall2 (fun i b => filter !z i = Some b) range f ->
  exists range', filtered_range filter range = Some range' /\ Forall2 P range' (masked l f).
Proof.
  induction 1 as [|i x range l Hx HF IH]; intros f Hf; inversion Hf as [|? b ? f' Hb Hf']; subst; [by exists []|].
  destruct (IH f' Hf') as (range' & E & Hr). simpl. rewrite Hb. cbn [mbind option_bind]. rewrite E. cbn [mbind option_bind].
  eexists. split; [done|]. destruct b; [by constructor|done].
Qed.

#[global] Instance filtered_graph_laws {D} : GraphLaws (FilteredGraph D) D.
Proof.
  refine {| graph_wf := fg_wf; GraphInterface.adjacency := adjacency |}. intros g n [Hf Hr] Hn.
  destruct (Hr n Hn) as (b & e & Hb & He & Hbe & Hle). simpl. unfold GetAdjacentEdgeRange, adjacency. rewrite Hb, He. cbn [mbind option_bind].
  apply filtered_range_ok.
  - eapply Forall2_impl; [by apply range_slice; lia|]. intros i x Hx.
    unfold GetTarget, GetEdgeData, Static.GetTarget, Static.GetEdgeData. by rewrite Hx.
  - apply range_slice; [lia|]. unfold zlen in *. lia.
Defined.

(** The degree is the length of the adjacency. *)
Lemma count_admitted_ok filter range f : Forall2 (fun i b => filter !z i = Some b) range f ->
  count_admitted filter range = Some (zlen (masked range f)).
Proof.
  induction 1 as [|i b range f Hb HF IH]; [done|]. simpl. rewrite Hb. cbn [mbind option_bind]. rewrite IH. cbn [mbind option_bind].
  f_equal. destruct b; [rewrite zlen_cons; lia|done].
Qed.

(** The range of a node lists the ids of its admitted edges. *)
Lemma filtered_range_slots {D} (g : FilteredGraph D) n : fg_wf g -> 0 <= n < GetNumberOfNodes g ->
  exists range, GetAdjacentEdgeRange g n = Some range /\ Forall2 (fun i x => Static.edge_array (graph g) !z i = Some x) range (adjacency g n).
Proof.
  intros [Hf Hr] Hn. destruct (Hr n Hn) as (b & e & Hb & He & Hbe & Hle). unfold GetAdjacentEdgeRange, adjacency. rewrite Hb, He. cbn [mbind option_bind].
  apply filtered_range_ok; apply range_slice; try lia. unfold zlen in *. lia.
Qed.

(** Degrees and edges between nodes on a view: hidden edges are neither counted nor found. *)
Theorem filtered_graph_lookups {D} (g : FilteredGraph D) n (Hwf : fg_wf g) (Hn : 0 <= n < GetNumberOfNodes g) :
  GetOutDegree g n = Some (wrap 32 (zlen (adjacency g n))) /\
  forall to, (exists e x, FindEdge g n to = Some e /\ x ∈ adjacency g n /\ Static.edge_array (graph g) !z e = Some x /\ target x = to) \/
    (FindEdge g n to = Some SPECIAL_EDGEID /\ forall x, x ∈ adjacency g n -> target x <> to).
Proof.
  split.
  - destruct Hwf as [Hf Hr]. destruct (Hr n Hn) as (b & e & Hb & He & Hbe & Hle). unfold GetOutDegree, Static.GetAdjacentEdgeRange, adjacency.
    rewrite Hb, He. cbn [mbind option_bind]. rewrite (count_admitted_ok _ _ (zslice (edge_filter g) b (e - b))) by (apply range_slice; unfold zlen in *; lia).
    cbn [mbind option_bind]. do 2 f_equal. unfold zlen. f_equal. rewrite !masked_zip, !length_fmap.
    rewrite <- (length_fmap snd (filter _ (zip (irange b e) _))), <- (length_fmap snd (filter _ (zip (zslice _ _ _) _))). f_equal.
    pose proof (range_slice (Static.edge_array (graph g)) b e Hbe Hle) as Hlen%Forall2_length. revert Hlen.
    generalize (irange b e) as l, (zslice (Static.edge_array (graph g)) b (e - b)) as k, (zslice (edge_filter g) b (e - b)) as f.
    induction l as [|i l IH]; intros [|x k] [|c f] Hl; try done. cbn [zip_with]. rewrite !filter_cons. simpl.
    case_decide; simpl; [f_equal|]; apply IH; by injection Hl.
  - intros to. destruct (filtered_range_slots g n Hwf Hn) as (range & E & HF). unfold FindEdge. rewrite E. cbn [mbind option_bind].
    destruct (find_edge_loop_ok (Static.edge_array (graph g)) range to) as [(e & x & Ee & Hin & Hx & Ht)|[Ee Hno]].
    + intros i Hi. apply list_elem_of_lookup in Hi as [k Hk]. destruct (Forall2_lookup_l _ _ _ _ _ HF Hk) as (x & _ & Hx). by eapply zget_some.
    + left. exists e, x. split_and!; try done. apply list_elem_of_lookup in Hin as [k Hk]. destruct (Forall2_lookup_l _ _ _ _ _ HF Hk) as (y & Hy & Hx').
      assert (x = y) as -> by congruence. by eapply list_elem_of_lookup_2.
    + right. split; [done|]. intros x Hx. apply list_elem_of_lookup in Hx as [k Hk]. destruct (Forall2_lookup_r _ _ _ _ _ HF Hk) as (i & Hi & Hx).
      eapply Hno; [by eapply list_elem_of_lookup_2|done].
Qed.

(** ** Construction

    A graph of sorted edges with their filter. *)

Section construction.
Context {D : Type}.
Implicit Types (es : list (InputEdge D)) (f : list bool).

Definition tag (e : InputEdge D) (b : bool) : InputEdge (D * bool) := mkInputEdge (ie_source e) (ie_target e) (ie_data e, b).

Definition untag (l : list (DynamicEdge (D * bool))) : list (DynamicEdge D) :=
  (fun x => mkDynamicEdge (target x) (data x).1) <$> filter (fun x => (data x).2 = true) l.

Lemma untag_tagged es f : untag (edge_of_input <$> zip_with tag es f) = masked (edge_of_input <$> es) f.
Proof.
  unfold untag. revert f. induction es as [|e es IH]; intros [|b f]; [done..|]. cbn [zip_with fmap list_fmap masked].
  rewrite filter_cons, <- IH. by destruct b.
Qed.

Lemma untag_filter es f u :
  untag (edge_of_input <$> filter (fun e => ie_source e = u) (zip_with tag es f)) = edge_of_input <$> filter (fun e => ie_source e = u) (masked es f).
Proof.
  unfold untag. revert f. induction es as [|e es IH]; intros [|b f]; [done..|]. cbn [zip_with masked]. rewrite filter_cons. simpl (ie_source (tag e b)).
  case_decide as Hu.
  - rewrite fmap_cons, filter_cons. destruct b; simpl.
    + rewrite filter_cons, decide_True by done. rewrite fmap_cons. f_equal. apply IH.
    + apply IH.
  - destruct b; [rewrite filter_cons, decide_False by done|]; apply IH.
Qed.

Lemma slice_tagged (l : list (InputEdge (D * bool))) es f a n : l = zip_with tag es f ->
  untag (zslice (edge_of_input <$> l) a n) = masked (zslice (edge_of_input <$> es) a n) (zslice f a n).
Proof.
  intros ->. unfold zslice. rewrite <- !fmap_drop, <- !fmap_take. rewrite <- untag_tagged. do 2 f_equal.
  rewrite zip_with_drop, zip_with_take. done.
Qed.

Lemma skip_source_tagged node es (l : list (InputEdge (D * bool))) : ie_source <$> es = ie_source <$> l ->
  (skip_source node es).1 = (skip_source node l).1 /\ ie_source <$> (skip_source node es).2 = ie_source <$> (skip_source node l).2.
Proof.
  revert l. induction es as [|e es IH]; intros [|y l] Hs; try done. injection Hs as Hey Hs. simpl. rewrite <- Hey.
  destruct (ie_source e =? node); [|simpl; by rewrite Hey, Hs]. destruct (IH l Hs) as [H1 H2].
  destruct (skip_source node es), (skip_source node l). simpl in *. by rewrite H1.
Qed.

Lemma offsets_tagged n node offset es (l : list (InputEdge (D * bool))) : ie_source <$> es = ie_source <$> l ->
  Static.offsets n node offset es = Static.offsets n node offset l.
Proof.
  revert node offset es l. induction n as [|n IH]; intros node offset es l Hs; [done|]. cbn [Static.offsets].
  destruct (skip_source_tagged node es l Hs) as [H1 H2]. destruct (skip_source node es), (skip_source node l). simpl in *. subst.
  f_equal. by apply IH.
Qed.

Lemma sources_sorted_ext lo hi es (l : list (InputEdge (D * bool))) : ie_source <$> es = ie_source <$> l ->
  sources_sorted lo hi es -> sources_sorted lo hi l.
Proof.
  revert lo l. induction es as [|e es IH]; intros lo [|y l] Hsrc Hs; try done. simpl in *. injection Hsrc as E Hsrc.
  rewrite <- E. split; [apply Hs|]. apply IH; [done|apply Hs].
Qed.

(** The view of the graph constructed from sorted edges and a filter. *)
Lemma construct_filtered nodes es f : 0 <= nodes < UINT32_MAX -> sources_sorted 0 nodes es -> zlen es < UINT32_MAX -> length f = length es ->
  let g := mkFilteredGraph (Static.InitializeFromSortedEdgeRange nodes es) f in
  fg_wf g /\ GetNumberOfNodes g = nodes /\
  forall u, 0 <= u < nodes -> adjacency g u = edge_of_input <$> filter (fun e => ie_source e = u) (masked es f).
Proof.
  intros Hn Hs Hlen Hf g. set (l := zip_with tag es f).
  assert (ie_source <$> es = ie_source <$> l) as Hsrc.
  { unfold l. clear -Hf. revert f Hf. induction es as [|e es IH]; intros [|b f] Hf; try done. simpl. f_equal. apply IH. by injection Hf. }
  assert (length l = length es) as Ll by (by rewrite <- !(length_fmap ie_source), Hsrc).
  destruct (Static.construct_ok nodes es Hn Hs Hlen) as [Hwf _].
  destruct (Static.construct_ok nodes l Hn) as [Hwf' Hadj]; [by eapply sources_sorted_ext|unfold zlen in *; lia|].
  assert (Static.node_array (graph g) = Static.node_array (Static.InitializeFromSortedEdgeRange nodes l)) as En.
  { cbn. f_equal. by apply offsets_tagged. }
  split; [split|split; [done|]].
  - cbn. by rewrite length_fmap.
  - intros u Hu. destruct (Static.adjacent_bounds _ u Hwf Hu) as (b & e & H1 & H2 & H3 & H4 & _). by exists b, e.
  - intros u Hu. destruct (Static.adjacent_bounds _ u Hwf' Hu) as (b & e & H1 & H2 & _ & _ & H5).
    unfold adjacency. unfold Static.BeginEdges, Static.EndEdges in *. rewrite En, H1, H2. cbn [graph edge_filter g Static.edge_array Static.InitializeFromSortedEdgeRange] in *.
    rewrite <- untag_filter, <- (slice_tagged l) by done. by rewrite <- Hadj, H5.
Qed.
End construction.
End Filtered.
