(* ===== verification/EdgeBasedEdge.v ===== *)
(** * Edges of the edge-based graph

    Model of include/extractor/edge_based_edge.hpp: what the extractor writes
    and the contractor, the partitioner and the customizer read. *)
From S2P Require Import Prelude.

(** The data of an edge-based edge; flags of one bit. *)
Record EdgeData : Type := mkEdgeData {
  turn_id : Z; weight : Z; distance : float32; duration : Z; forward : bool; backward : bool
}.
