(* ===== verification/EdgeBasedGraphReader.v ===== *)
(** * Reading the edge-based graph

    Model of include/partitioner/edge_based_graph_reader.hpp: what the
    partitioner and the customizer make of the edges that the extractor wrote.
    [splitBidirectionalEdges] stores every edge at both of its ends,
    [prepareEdgesForUsageInGraph] keeps a lightest edge per direction and merges
    the two when they weigh the same, and [graphToEdges] goes back from a graph
    to the list of edges, one per turn. *)
From stdpp Require Import sorting.
From S2P Require Import Prelude Sorting DynamicGraph GraphInterface EdgeBasedEdge.

(** ** Edges sorted by source *)

Lemma ordered_sources_by {D} (lt : InputEdge D -> InputEdge D -> bool) (l : list (InputEdge D)) lo hi :
  (forall x y, lt y x = false -> ie_source x <= ie_source y) ->
  ordered lt l -> (forall e, e ∈ l -> lo <= ie_source e < hi) -> sources_sorted lo hi l.
Proof.
  intros Hlt Ho. revert lo. induction Ho as [|e l Ho IH Hf]; intros lo Hr; simpl; [done|]. split; [apply Hr; by left|].
  apply IH. intros x Hx. rewrite Forall_forall in Hf. specialize (Hlt e x (Hf x Hx)). pose proof (Hr x ltac:(by right)). lia.
Qed.

Lemma sources_sorted_app {D} (l1 l2 : list (InputEdge D)) lo mid hi : lo <= mid < hi ->
  (forall e, e ∈ l1 -> ie_source e = mid) -> sources_sorted mid hi l2 -> sources_sorted lo hi (l1 ++ l2).
Proof.
  intros Hm Hl1 Hl2. revert lo Hm. induction l1 as [|e l1 IH]; intros lo Hm; simpl; [eapply sources_sorted_weaken; [|done]; lia|].
  rewrite (Hl1 e) by left. split; [lia|]. apply IH; [|lia]. intros x Hx. apply Hl1. by right.
Qed.

Lemma sources_sorted_drop {D} (l1 l2 : list (InputEdge D)) lo hi : sources_sorted lo hi (l1 ++ l2) -> sources_sorted lo hi l2.
Proof.
  revert lo. induction l1 as [|e l1 IH]; intros lo; [done|]. simpl. intros [Hb Hs]. eapply sources_sorted_weaken; [|by apply IH]. lia.
Qed.

Module Reader.
Abbreviation Edge := (InputEdge EdgeData).
Implicit Types (e : Edge).

(** The edge as it is stored at its source and at its target. *)
Definition split_edge e : list Edge :=
  let d := ie_data e in
  if weight d =? INVALID_EDGE_WEIGHT then []
  else
    [mkInputEdge (ie_source e) (ie_target e) (mkEdgeData (turn_id d) (Z.max (weight d) 1) (distance d) (duration d) (forward d) (backward d));
     mkInputEdge (ie_target e) (ie_source e) (mkEdgeData (turn_id d) (Z.max (weight d) 1) (distance d) (duration d) (backward d) (forward d))].

Definition splitBidirectionalEdges (edges : list Edge) : list Edge := edges ≫= split_edge.

(** Edges with the same ends together, forward edges first, lighter ones first. *)
Definition edge_before (lhs rhs : Edge) : bool :=
  lex4 (ie_source lhs, ie_target lhs, Z.b2z (forward (ie_data rhs)), weight (ie_data lhs))
       (ie_source rhs, ie_target rhs, Z.b2z (forward (ie_data lhs)), weight (ie_data rhs)).

(** [std::find_if_not]: the edges with the given ends at the front, and the rest. *)
Fixpoint interval_of (source target : Z) (edges : list Edge) : list Edge * list Edge :=
  match edges with
  | e :: rest =>
      if (ie_source e =? source) && (ie_target e =? target)
      then let '(interval, rest') := interval_of source target rest in (e :: interval, rest')
      else ([], edges)
  | [] => ([], [])
  end.

Definition mark_backward (d : EdgeData) : EdgeData :=
  mkEdgeData (turn_id d) (weight d) (distance d) (duration d) (forward d) true.

(** The edges written for one interval, which is not empty. *)
Definition prepare_interval (source target : Z) (interval : list Edge) : list Edge :=
  match interval with
  | [] => []
  | begin_interval :: _ =>
      if backward (ie_data begin_interval) then [mkInputEdge source target (ie_data begin_interval)]
      else
        match List.find (fun e => backward (ie_data e)) interval with
        | None => [mkInputEdge source target (ie_data begin_interval)]
        | Some first_backward =>
            if weight (ie_data begin_interval) =? weight (ie_data first_backward)
            then [mkInputEdge source target (mark_backward (ie_data begin_interval))]
            else [mkInputEdge source target (ie_data begin_interval); mkInputEdge source target (ie_data first_backward)]
        end
  end.

(** The loop over the intervals. *)
Fixpoint prepare_edges (fuel : nat) (edges : list Edge) : list Edge :=
  match fuel, edges with
  | S fuel, e :: _ =>
      let '(interval, rest) := interval_of (ie_source e) (ie_target e) edges in
      (if ie_source e =? ie_target e then [] else prepare_interval (ie_source e) (ie_target e) interval) ++ prepare_edges fuel rest
  | _, _ => []
  end.

Definition prepareEdgesForUsageInGraph (sort : sort_function) (edges : list Edge) : list Edge :=
  let edges := sort _ edge_before edges in prepare_edges (length edges) edges.

Definition LoadEdgeBasedGraph (sort : sort_function) (number_of_edge_based_nodes : Z) (edges : list Edge) : DynamicGraph EdgeData :=
  DynamicGraph_new number_of_edge_based_nodes (prepareEdgesForUsageInGraph sort (splitBidirectionalEdges edges)).

(** ** Back to edges *)

Fixpoint max_turn (graph : DynamicGraph EdgeData) (range : list Z) (max_turn_id : Z) : option Z :=
  match range with
  | [] => Some max_turn_id
  | edge :: range => d ← GetEdgeData graph edge; max_turn graph range (Z.max max_turn_id (turn_id d))
  end.

Fixpoint max_turns (graph : DynamicGraph EdgeData) (nodes : list Z) (max_turn_id : Z) : option Z :=
  match nodes with
  | [] => Some max_turn_id
  | node :: nodes => range ← GetAdjacentEdgeRange graph node; m ← max_turn graph range max_turn_id; max_turns graph nodes m
  end.

(** The constructor without arguments. *)
Definition EdgeBasedEdge_new : Edge := mkInputEdge 0 0 (mkEdgeData 0 0 (SpecFloat.S754_zero false) 0 false false).

Fixpoint save_edges (graph : DynamicGraph EdgeData) (node : Z) (range : list Z) (edges : list Edge) : option (list Edge) :=
  match range with
  | [] => Some edges
  | edge :: range =>
      d ← GetEdgeData graph edge;
      edges' ← (if forward d
                then t ← GetTarget graph edge;
                     zset (turn_id d) (mkInputEdge node t (mkEdgeData (turn_id d) (weight d) (distance d) (duration d) true false)) edges
                else Some edges);
      save_edges graph node range edges'
  end.

Fixpoint save_nodes (graph : DynamicGraph EdgeData) (nodes : list Z) (edges : list Edge) : option (list Edge) :=
  match nodes with
  | [] => Some edges
  | node :: nodes => range ← GetAdjacentEdgeRange graph node; edges' ← save_edges graph node range edges; save_nodes graph nodes edges'
  end.

(** The parallel loops visit the nodes in some order. *)
Definition graphToEdges (order : list Z) (graph : DynamicGraph EdgeData) : option (list Edge) :=
  max_turn_id ← max_turns graph order 0;
  save_nodes graph order (replicate (Z.to_nat (wrap 32 (max_turn_id + 1))) EdgeBasedEdge_new).

(** ** What is kept *)

Definition same_ends (x e : Edge) : Prop := ie_source x = ie_source e /\ ie_target x = ie_target e.
Definition directed e : Prop := forward (ie_data e) = negb (backward (ie_data e)).
Definition one_way e : Prop := ie_source e <> ie_target e -> directed e.
Definition usable (dir : bool) e : bool := if dir then forward (ie_data e) else backward (ie_data e).

(** An entry of a direction carries the least weight of the edges with its ends;
    its turn is that of such an edge, unless it is the backward direction of a merged entry. *)
Definition lightest_edge (l : list Edge) (dir : bool) (e : Edge) : Prop := exists x, x ∈ l /\ same_ends x e /\ usable dir x = true /\
  weight (ie_data x) = weight (ie_data e) /\ (turn_id (ie_data x) = turn_id (ie_data e) \/ (dir = false /\ forward (ie_data e) = true)) /\
  forall y, y ∈ l -> same_ends y e -> usable dir y = true -> weight (ie_data e) <= weight (ie_data y).

(** The entries of a direction at [u] that lead to [v]. *)
Abbreviation entries_of dir u v l := (filter (fun e => usable dir e = true /\ ie_source e = u /\ ie_target e = v) l).

Record prepared (l l' : list Edge) : Prop := {
  pd_ends e : e ∈ l' -> ie_source e <> ie_target e /\ exists dir, usable dir e = true;
  pd_lightest dir e : e ∈ l' -> usable dir e = true -> lightest_edge l dir e;
  pd_keeps dir x : x ∈ l -> ie_source x <> ie_target x -> usable dir x = true -> exists e, e ∈ l' /\ same_ends x e /\ usable dir e = true;
  pd_degree n : zlen (filter (fun e => ie_source e = n) l') <= zlen (filter (fun e => ie_source e = n) l);
  pd_len : zlen l' <= zlen l;
  pd_once dir u v : (length (entries_of dir u v l') <= 1)%nat;
  pd_merged e e' : e ∈ l' -> e' ∈ l' -> same_ends e e' -> usable true e = true -> usable false e' = true ->
    weight (ie_data e) = weight (ie_data e') -> e = e'
}.

(** An entry has the ends of an edge. *)
Lemma prepared_origin l l' e : prepared l l' -> e ∈ l' -> exists x, x ∈ l /\ same_ends x e.
Proof.
  intros Hp He. destruct (pd_ends _ _ Hp e He) as (_ & dir & Hu). destruct (pd_lightest _ _ Hp dir e He Hu) as (x & Hx & Hs & _). by exists x.
Qed.

Lemma prepared_nil : prepared [] [].
Proof. split; try done; [by intros e He%elem_of_nil|by intros dir e He%elem_of_nil|by intros dir e He%elem_of_nil|intros dir u v; simpl; lia|by intros e e' He%elem_of_nil]. Qed.

Lemma prepared_app l1 l1' l2 l2' : prepared l1 l1' -> prepared l2 l2' -> (forall x y, x ∈ l1 -> y ∈ l2 -> ~ same_ends x y) ->
  prepared (l1 ++ l2) (l1' ++ l2').
Proof.
  intros HA HB Hdis. assert (forall x y, x ∈ l1' -> y ∈ l2' -> ~ same_ends x y) as Hdis'.
  { intros x y Hx Hy [E1 E2]. destruct (prepared_origin _ _ x HA Hx) as (x0 & Hx0 & [E3 E4]). destruct (prepared_origin _ _ y HB Hy) as (y0 & Hy0 & [E5 E6]).
    apply (Hdis x0 y0 Hx0 Hy0). split; congruence. }
  destruct HA as [A1 A2 A3 A4 A5 A6 A7], HB as [B1 B2 B3 B4 B5 B6 B7]. split.
  - intros e [He|He]%elem_of_app; [by apply A1|by apply B1].
  - intros dir e [He|He]%elem_of_app Hu; [destruct (A2 dir e He Hu) as (x & Hx & Hs & Hux & Hw & Ht & Hm)|
      destruct (B2 dir e He Hu) as (x & Hx & Hs & Hux & Hw & Ht & Hm)]; exists x; (split; [apply elem_of_app; tauto|]);
      (split_and!; [done..|]); intros y [Hy|Hy]%elem_of_app Hys Huy; try (by apply Hm); exfalso.
    + apply (Hdis x y Hx Hy). unfold same_ends in *. split; etransitivity; try apply Hs; symmetry; apply Hys.
    + apply (Hdis y x Hy Hx). unfold same_ends in *. split; etransitivity; try apply Hys; symmetry; apply Hs.
  - intros dir x [Hx|Hx]%elem_of_app Hne Hu; [destruct (A3 dir x Hx Hne Hu) as (e & He & ?)|destruct (B3 dir x Hx Hne Hu) as (e & He & ?)];
      exists e; (split; [apply elem_of_app; tauto|done]).
  - intros n. rewrite !filter_app, !zlen_app. specialize (A4 n). specialize (B4 n). lia.
  - rewrite !zlen_app. lia.
  - intros dir u v. rewrite filter_app, length_app. specialize (A6 dir u v). specialize (B6 dir u v).
    destruct (entries_of dir u v l1') as [|x m] eqn:Ex; [simpl; lia|]. destruct (entries_of dir u v l2') as [|y m'] eqn:Ey; [simpl in *; lia|]. exfalso.
    assert (x ∈ entries_of dir u v l1') as [(_ & Xs & Xt) Hx]%list_elem_of_filter by (rewrite Ex; left).
    assert (y ∈ entries_of dir u v l2') as [(_ & Ys & Yt) Hy]%list_elem_of_filter by (rewrite Ey; left). apply (Hdis' x y Hx Hy). split; congruence.
  - intros e e' [He|He]%elem_of_app [He'|He']%elem_of_app Hs Hu Hu' Hw; [by apply A7|by destruct (Hdis' e e')| |by apply B7].
    destruct (Hdis' e' e He' He). destruct Hs. by split.
Qed.

(** ** Intervals *)

Lemma edge_before_strict_weak : strict_weak edge_before.
Proof.
  split; unfold edge_before, lex4; intros x y; [|intros z]; destruct (forward (ie_data x)), (forward (ie_data y)); try destruct (forward (ie_data z));
    simpl; split_bool; lia.
Qed.

(** Inside an interval. *)
Lemma before_same_ends x y : edge_before y x = false -> same_ends x y ->
  (forward (ie_data y) = true -> forward (ie_data x) = true) /\
  (forward (ie_data x) = forward (ie_data y) -> weight (ie_data x) <= weight (ie_data y)).
Proof.
  unfold edge_before, lex4. intros Hb [Hs Ht]. rewrite Hs, Ht, !Z.ltb_irrefl, !Z.eqb_refl in Hb. simpl in Hb.
  destruct (forward (ie_data x)), (forward (ie_data y)); simpl in Hb; split; try done; lia.
Qed.

Lemma interval_of_ok source target l : exists interval rest, interval_of source target l = (interval, rest) /\ l = interval ++ rest /\
  (forall x, x ∈ interval -> ie_source x = source /\ ie_target x = target) /\
  match rest with [] => True | y :: _ => ~ (ie_source y = source /\ ie_target y = target) end.
Proof.
  induction l as [|e l (interval & rest & E & -> & Hin & Hout)]; cbn [interval_of].
  { exists [], []. split_and!; [done..| |done]. by intros x Hx%elem_of_nil. }
  rewrite E. destruct (Z.eqb_spec (ie_source e) source), (Z.eqb_spec (ie_target e) target); cbn [andb].
  2-4: exists [], (e :: interval ++ rest); split_and!; [done..|by intros x Hx%elem_of_nil|tauto].
  exists (e :: interval), rest. split_and!; [done..| |done]. intros x [->|Hx]%elem_of_cons; [done|by apply Hin].
Qed.

(** No edge after the interval has its ends. *)
Lemma interval_rest_apart source target interval rest : ordered edge_before (interval ++ rest) -> interval <> [] ->
  (forall x, x ∈ interval -> ie_source x = source /\ ie_target x = target) ->
  match rest with [] => True | y :: _ => ~ (ie_source y = source /\ ie_target y = target) end ->
  forall x y, x ∈ interval -> y ∈ rest -> ~ same_ends x y.
Proof.
  intros Ho Hne Hin Hout x y Hx Hy [Hs Ht]. destruct (Hin x Hx) as [Ex Ex']. destruct rest as [|z rest]; [by apply elem_of_nil in Hy|].
  unfold ordered in Ho. rewrite StronglySorted_app in Ho. destruct Ho as (Hxy & _ & Hrest).
  apply StronglySorted_inv in Hrest as [_ Hz]. rewrite Forall_forall in Hz.
  pose proof (Hxy x z Hx ltac:(by left)) as Hxz. unfold edge_before, lex4 in Hxz.
  apply elem_of_cons in Hy as [->|Hy]; [apply Hout; split; congruence|]. specialize (Hz y Hy). unfold edge_before, lex4 in Hz.
  apply Hout. split; lia.
Qed.

Lemma find_first {A} (R : A -> A -> Prop) (p : A -> bool) l b : StronglySorted R l -> List.find p l = Some b ->
  b ∈ l /\ p b = true /\ forall a, a ∈ l -> p a = true -> a = b \/ R b a.
Proof.
  induction 1 as [|a l Hl IH Ha]; simpl; [done|]. destruct (p a) eqn:Ep.
  - intros [= <-]. split; [by left|]. split; [done|]. intros y [->|Hy]%elem_of_cons _; [by left|right]. rewrite Forall_forall in Ha. by apply Ha.
  - intros E. destruct (IH E) as (Hb & Hpb & Hm). split; [by right|]. split; [done|].
    intros y [->|Hy]%elem_of_cons Hpy; [congruence|by apply Hm].
Qed.

(** What an interval leaves for a direction is a first edge of it. *)
Lemma interval_direction source target interval (dir : bool) f :
  ordered edge_before interval -> (forall x, x ∈ interval -> ie_source x = source /\ ie_target x = target) ->
  (forall x, x ∈ interval -> directed x) -> List.find (usable dir) interval = Some f ->
  f ∈ interval /\ usable dir f = true /\ forall y, y ∈ interval -> usable dir y = true -> weight (ie_data f) <= weight (ie_data y).
Proof.
  intros Ho Hin H1 E. destruct (find_first _ _ _ _ Ho E) as (Hf & Hu & Hm). split_and!; [done..|]. intros y Hy Huy.
  destruct (Hm y Hy Huy) as [->|Hb]; [done|]. apply (before_same_ends f y Hb).
  - destruct (Hin f Hf), (Hin y Hy). split; congruence.
  - pose proof (H1 f Hf) as O1. pose proof (H1 y Hy) as O2. unfold directed, usable in *. destruct dir; [congruence|]. rewrite O1, O2. congruence.
Qed.

Lemma find_usable interval (dir : bool) x : x ∈ interval -> usable dir x = true -> exists f, List.find (usable dir) interval = Some f.
Proof.
  intros Hx Hu. destruct (List.find (usable dir) interval) as [f|] eqn:E; [by exists f|].
  apply list_elem_of_In in Hx. pose proof (List.find_none _ _ E x Hx). congruence.
Qed.

Lemma single_entry (e0 : Edge) : (forall dir u v, (length (entries_of dir u v [e0]) <= 1)%nat) /\
  (forall e e', e ∈ [e0] -> e' ∈ [e0] -> usable true e = true -> usable false e' = true -> weight (ie_data e) = weight (ie_data e') -> e = e').
Proof. split; [intros dir u v; rewrite filter_cons, filter_nil; case_decide; simpl; lia|]. by intros e e' ->%list_elem_of_singleton ->%list_elem_of_singleton. Qed.

(** The entries of an interval are its lightest edges in both directions. *)
Lemma prepare_interval_ok source target interval : source <> target -> interval <> [] -> ordered edge_before interval ->
  (forall x, x ∈ interval -> ie_source x = source /\ ie_target x = target) -> (forall x, x ∈ interval -> directed x) ->
  let out := prepare_interval source target interval in
  (length out <= length interval)%nat /\
  (forall e, e ∈ out -> ie_source e = source /\ ie_target e = target /\ exists dir, usable dir e = true) /\
  (forall dir e, e ∈ out -> usable dir e = true -> exists x, List.find (usable dir) interval = Some x /\
     weight (ie_data x) = weight (ie_data e) /\ (turn_id (ie_data x) = turn_id (ie_data e) \/ (dir = false /\ forward (ie_data e) = true))) /\
  (forall dir x, List.find (usable dir) interval = Some x -> exists e, e ∈ out /\ usable dir e = true) /\
  (forall dir u v, (length (entries_of dir u v out) <= 1)%nat) /\
  (forall e e', e ∈ out -> e' ∈ out -> usable true e = true -> usable false e' = true -> weight (ie_data e) = weight (ie_data e') -> e = e').
Proof.
  intros Hst Hne Ho Hin H1. destruct interval as [|f l]; [done|]. pose proof (H1 f ltac:(by left)) as Hf. unfold directed in Hf. cbv zeta.
  cbn [prepare_interval]. destruct (backward (ie_data f)) eqn:Eb; cbn [negb] in Hf.
  - assert (List.find (usable true) (f :: l) = None) as Enone.
    { destruct (List.find (usable true) (f :: l)) as [x|] eqn:E; [|done]. destruct (find_first _ _ _ _ Ho E) as (Hx & Hu & _).
      apply elem_of_cons in Hx as [->|Hx]; [unfold usable in Hu; congruence|]. apply StronglySorted_inv in Ho as [_ Ho]. rewrite Forall_forall in Ho.
      destruct (before_same_ends f x (Ho x Hx)) as [Hfx _]; [destruct (Hin f ltac:(by left)), (Hin x ltac:(by right)); split; congruence|].
      unfold usable in Hu. specialize (Hfx Hu). congruence. }
    assert (List.find (usable false) (f :: l) = Some f) as Efirst by (simpl; by rewrite Eb).
    split; [simpl; lia|]. split; [|split; [|split; [|apply single_entry]]].
    + intros e ->%list_elem_of_singleton. split_and!; [done..|by exists false].
    + intros [] e ->%list_elem_of_singleton Hu; [simpl in Hu; congruence|]. exists f. split_and!; [done..|by left].
    + intros [] x E; [congruence|]. eexists. split; [by left|done].
  - assert (List.find (usable true) (f :: l) = Some f) as Efirst by (simpl; by rewrite Hf).
    assert (List.find (usable false) (f :: l) = List.find (fun e => backward (ie_data e)) (f :: l)) as Eback by done. rewrite <- Eback.
    destruct (List.find (usable false) (f :: l)) as [b|] eqn:Efb.
    2:{ split; [simpl; lia|]. split; [|split; [|split; [|apply single_entry]]].
        - intros e ->%list_elem_of_singleton. split_and!; [done..|by exists true].
        - intros [] e ->%list_elem_of_singleton Hu; [|simpl in Hu; congruence]. exists f. split_and!; [done..|by left].
        - intros [] x E; [|congruence]. eexists. split; [by left|done]. }
    destruct (find_first _ _ _ _ Ho Efb) as (Hbin & Hub & _). assert (b ∈ l) as Hbl by (apply elem_of_cons in Hbin as [->|?]; [simpl in Hub; congruence|done]).
    destruct l as [|x0 l0]; [by apply elem_of_nil in Hbl|]. destruct (Z.eqb_spec (weight (ie_data f)) (weight (ie_data b))) as [Ew|Ew].
    + split; [simpl; lia|]. split; [|split; [|split; [|apply single_entry]]].
      * intros e ->%list_elem_of_singleton. split_and!; [done..|by exists false].
      * intros [] e ->%list_elem_of_singleton Hu; [exists f|exists b]; split_and!; try done; [by left|right; by split].
      * intros [] x E; eexists; (split; [by left|]); [done|done].
    + split; [simpl; lia|]. pose proof (H1 b Hbin) as Hb1. unfold directed in Hb1. simpl in Hub. rewrite Hub in Hb1. simpl in Hb1. split; [|split; [|split; [|split]]].
      * intros e [Ee|Ee%list_elem_of_singleton]%elem_of_cons; subst e; (split_and!; [done..|]); [by exists true|by exists false].
      * intros [] e [Ee|Ee%list_elem_of_singleton]%elem_of_cons Hu; subst e; simpl in Hu; try congruence; [exists f|exists b]; (split_and!; [done..|by left]).
      * intros [] x E; [eexists; (split; [by left|done])|]. eexists. split; [right; by left|done].
      * intros [] u v; rewrite !filter_cons, filter_nil; repeat case_decide; simpl in *; try lia; naive_solver congruence.
      * intros e e' [Ee|Ee%list_elem_of_singleton]%elem_of_cons [Ee'|Ee'%list_elem_of_singleton]%elem_of_cons Hu Hu' Hw; subst e e'; simpl in *; congruence.
Qed.

Lemma prepared_interval source target interval : source <> target -> interval <> [] -> ordered edge_before interval ->
  (forall x, x ∈ interval -> ie_source x = source /\ ie_target x = target) -> (forall x, x ∈ interval -> directed x) ->
  prepared interval (prepare_interval source target interval).
Proof.
  intros Hst Hne Ho Hin H1. destruct (prepare_interval_ok source target interval Hst Hne Ho Hin H1) as (Hlen & Hends & Hout & Hkeep & Honce & Hmerge). split.
  - intros e He. destruct (Hends e He) as (-> & -> & ?). done.
  - intros dir e He Hu. destruct (Hout dir e He Hu) as (x & E & Hw & Ht). destruct (interval_direction _ _ _ dir x Ho Hin H1 E) as (Hx & Hux & Hm).
    exists x. destruct (Hends e He) as (E1 & E2 & _). destruct (Hin x Hx) as [E3 E4]. split_and!; [done|split; congruence|done..|].
    intros y Hy _ Huy. rewrite <- Hw. by apply Hm.
  - intros dir x Hx _ Hu. destruct (find_usable _ dir x Hx Hu) as [f E]. destruct (Hkeep dir f E) as (e & He & Hue). exists e.
    destruct (Hends e He) as (E1 & E2 & _). destruct (Hin x Hx) as [E3 E4]. split_and!; [done|split; congruence|done].
  - intros n. assert (forall k : list Edge, (forall x, x ∈ k -> ie_source x = source) ->
      zlen (filter (fun e => ie_source e = n) k) = if decide (source = n) then zlen k else 0) as Hall.
    { intros k Hk. destruct (decide (source = n)) as [<-|Hn]; [by rewrite filter_all by done|].
      rewrite filter_none; [done|]. intros x Hx. by rewrite (Hk x Hx). }
    rewrite (Hall interval) by (intros x Hx; by apply Hin). rewrite Hall by (intros x Hx; by apply Hends).
    unfold zlen. destruct (decide (source = n)); lia.
  - unfold zlen. lia.
  - done.
  - intros e e' He He' _. by apply Hmerge.
Qed.

Lemma prepared_loop l : (forall x, x ∈ l -> ie_source x = ie_target x) -> prepared l [].
Proof.
  intros Hl. split.
  - by intros e He%elem_of_nil.
  - by intros dir e He%elem_of_nil.
  - intros dir x Hx Hne. by apply Hl in Hx.
  - intros n. rewrite filter_nil. unfold zlen. simpl. lia.
  - unfold zlen. simpl. lia.
  - intros dir u v. simpl. lia.
  - by intros e e' He%elem_of_nil.
Qed.

Lemma prepare_edges_ok fuel l : (length l <= fuel)%nat -> ordered edge_before l -> (forall x, x ∈ l -> one_way x) -> prepared l (prepare_edges fuel l).
Proof.
  revert l. induction fuel as [|fuel IH]; intros [|e l] Hl Ho H1; cbn [prepare_edges]; try apply prepared_nil; [simpl in Hl; lia|].
  destruct (interval_of_ok (ie_source e) (ie_target e) (e :: l)) as (interval & rest & -> & El & Hin & Hout).
  assert (interval <> []) as Hne by (intros ->; simpl in El; subst rest; by apply Hout). rewrite El in *.
  assert (length rest <= fuel)%nat as Hr by (rewrite length_app in Hl; destruct interval; [done|simpl in *; lia]).
  pose proof (interval_rest_apart _ _ _ _ Ho Hne Hin Hout) as Hap. unfold ordered in Ho. apply StronglySorted_app in Ho as (_ & Ho1 & Ho2).
  apply prepared_app; [|apply IH; [done..|]; intros x Hx; apply H1, elem_of_app; by right|done].
  destruct (Z.eqb_spec (ie_source e) (ie_target e)) as [Es|Es].
  2:{ apply prepared_interval; try done. intros x Hx. apply H1; [apply elem_of_app; by left|]. by destruct (Hin x Hx) as [-> ->]. }
  apply prepared_loop. intros x [-> ->]%Hin. done.
Qed.

Lemma prepared_Permutation l1 l2 l' : l1 ≡ₚ l2 -> prepared l1 l' -> prepared l2 l'.
Proof.
  intros Hp [A1 A2 A3 A4 A5 A6 A7]. split; [done| | | | |done|done].
  - intros dir e He Hu. destruct (A2 dir e He Hu) as (x & Hx & Hs & Hux & Hw & Ht & Hm). exists x. rewrite <- Hp.
    split_and!; [done..|]. intros y Hy. apply Hm. by rewrite Hp.
  - intros dir x Hx. apply A3. by rewrite Hp.
  - intros n. etransitivity; [apply A4|]. unfold zlen. by rewrite Hp.
  - unfold zlen in *. by rewrite <- Hp.
Qed.

(** ** The arcs of the edges *)

(** A way from [u] to [v] that an edge allows, and its weight: at least 1. *)
Definition arc (edges : list Edge) (u v w : Z) : Prop := exists e, e ∈ edges /\ weight (ie_data e) <> INVALID_EDGE_WEIGHT /\
  w = Z.max (weight (ie_data e)) 1 /\
  ((ie_source e = u /\ ie_target e = v /\ forward (ie_data e) = true) \/ (ie_source e = v /\ ie_target e = u /\ backward (ie_data e) = true)).

(** The edges usable in a direction at [u] that lead to [v]. *)
Definition entry (l : list Edge) (dir : bool) (u v w : Z) : Prop :=
  exists x, x ∈ l /\ ie_source x = u /\ ie_target x = v /\ usable dir x = true /\ weight (ie_data x) = w.

Lemma split_edge_elem x e : x ∈ split_edge e -> weight (ie_data e) <> INVALID_EDGE_WEIGHT /\ weight (ie_data x) = Z.max (weight (ie_data e)) 1 /\
  turn_id (ie_data x) = turn_id (ie_data e) /\
  ((ie_source x = ie_source e /\ ie_target x = ie_target e /\ forward (ie_data x) = forward (ie_data e) /\ backward (ie_data x) = backward (ie_data e)) \/
   (ie_source x = ie_target e /\ ie_target x = ie_source e /\ forward (ie_data x) = backward (ie_data e) /\ backward (ie_data x) = forward (ie_data e))).
Proof.
  unfold split_edge. destruct (Z.eqb_spec (weight (ie_data e)) INVALID_EDGE_WEIGHT); [by intros ?%elem_of_nil|].
  intros [->|Hx]%elem_of_cons; [by split_and!; try done; left|]. apply list_elem_of_singleton in Hx as ->. by split_and!; try done; right.
Qed.

Lemma split_edge_both e : weight (ie_data e) <> INVALID_EDGE_WEIGHT -> exists x y, x ∈ split_edge e /\ y ∈ split_edge e /\
  ie_source x = ie_source e /\ ie_target x = ie_target e /\ forward (ie_data x) = forward (ie_data e) /\ backward (ie_data x) = backward (ie_data e) /\
  ie_source y = ie_target e /\ ie_target y = ie_source e /\ forward (ie_data y) = backward (ie_data e) /\ backward (ie_data y) = forward (ie_data e).
Proof.
  intros Hv. unfold split_edge. rewrite (proj2 (Z.eqb_neq _ _) Hv). eexists _, _. split; [by left|]. split; [right; by left|]. done.
Qed.

(** Every arc is an entry at both of its ends. *)
Lemma split_arc edges dir u v w : entry (splitBidirectionalEdges edges) dir u v w <-> arc edges (if dir then u else v) (if dir then v else u) w.
Proof.
  unfold splitBidirectionalEdges, entry, arc. split.
  - intros (x & (e & Hx & He)%list_elem_of_bind & Hs & Ht & Hu & Hw). destruct (split_edge_elem x e Hx) as (Hv & Hwx & _ & Hc). exists e.
    split_and!; [done..|congruence|]. unfold usable in Hu.
    destruct dir, Hc as [(E1 & E2 & E3 & E4)|(E1 & E2 & E3 & E4)]; [left|right|right|left]; split_and!; congruence.
  - intros (e & He & Hv & -> & Hc). destruct (split_edge_both e Hv) as (x & y & Hx & Hy & X1 & X2 & X3 & X4 & Y1 & Y2 & Y3 & Y4).
    destruct (split_edge_elem x e Hx) as (_ & Wx & _). destruct (split_edge_elem y e Hy) as (_ & Wy & _).
    destruct dir, Hc as [(E1 & E2 & E3)|(E1 & E2 & E3)]; [exists x|exists y|exists y|exists x];
      (split; [apply list_elem_of_bind; by exists e|]); simpl; split_and!; congruence.
Qed.

Lemma split_one_way edges : (forall e, e ∈ edges -> one_way e) -> forall x, x ∈ splitBidirectionalEdges edges -> one_way x.
Proof.
  intros H1 x (e & Hx & He)%list_elem_of_bind. specialize (H1 e He). unfold one_way, directed in *.
  destruct (split_edge_elem x e Hx) as (_ & _ & _ & [(-> & -> & -> & ->)|(-> & -> & -> & ->)]); [done|]. intros Hne. rewrite H1 by congruence.
  by destruct (backward (ie_data e)).
Qed.

(** ** The edges that are left *)

Section prepared.
Context (sort : sort_function) `{!ParallelSort sort} (edges : list Edge) (Hone : forall e, e ∈ edges -> one_way e).
Abbreviation tidied := (prepareEdgesForUsageInGraph sort (splitBidirectionalEdges edges)).

Lemma tidied_prepared : prepared (splitBidirectionalEdges edges) tidied.
Proof using Hone ParallelSort0.
  unfold prepareEdgesForUsageInGraph. eapply prepared_Permutation; [apply parallel_sort_Permutation|]. apply prepare_edges_ok; [done| |].
  - apply parallel_sort_ordered, edge_before_strict_weak.
  - intros x Hx. apply (split_one_way edges Hone). by rewrite parallel_sort_Permutation in Hx.
Qed.

Definition least_arc (u v w : Z) : Prop := arc edges u v w /\ forall w', arc edges u v w' -> w <= w'.

(** An entry of a direction is a lightest arc. *)
Lemma tidied_least dir u v w : entry tidied dir u v w -> u <> v /\ least_arc (if dir then u else v) (if dir then v else u) w.
Proof using Hone ParallelSort0.
  intros (e & He & <- & <- & Hu & <-). destruct tidied_prepared as [P1 P2 _ _ _ _ _]. split; [by apply P1|].
  destruct (P2 dir e He Hu) as (x & Hx & [Hs Ht] & Hux & Hw & _ & Hm). split.
  - apply split_arc. by exists x.
  - intros w' (y & Hy & Hys & Hyt & Huy & <-)%(split_arc edges dir). by apply Hm.
Qed.

Lemma tidied_keeps (dir : bool) u v w : arc edges (if dir then u else v) (if dir then v else u) w -> u <> v -> exists w', entry tidied dir u v w'.
Proof using Hone ParallelSort0.
  intros (x & Hx & <- & <- & Hu & _)%(split_arc edges dir) Hne. destruct (pd_keeps _ _ tidied_prepared dir x Hx Hne Hu) as (e & He & [-> ->] & Hue).
  exists (weight (ie_data e)). by exists e.
Qed.

Lemma tidied_entries dir u v w : u <> v -> entry tidied dir u v w <-> least_arc (if dir then u else v) (if dir then v else u) w.
Proof using Hone ParallelSort0.
  intros Hne. split; [by intros [_ ?]%tidied_least|]. intros [Ha Hm]. destruct (tidied_keeps dir u v w Ha Hne) as [w' He].
  destruct (tidied_least dir u v w' He) as [_ [Ha' Hm']]. assert (w = w') as ->; [|done]. specialize (Hm w' Ha'). specialize (Hm' w Ha). lia.
Qed.

Lemma prepared_edges_len : zlen tidied <= 2 * zlen edges.
Proof using Hone ParallelSort0.
  etransitivity; [apply tidied_prepared|]. unfold splitBidirectionalEdges, zlen. clear. induction edges as [|e l IH]; [done|].
  rewrite bind_cons, length_app. assert (length (split_edge e) <= 2)%nat by (unfold split_edge; destruct (_ =? _); simpl; lia).
  cbn [length]. lia.
Qed.

(** C30: the edges for the graph.  From edges of one direction each (loops aside),
    [splitBidirectionalEdges] and [prepareEdgesForUsageInGraph] make a list
    without loops in which, between different nodes, the forward entries at [u]
    to [v] and the backward entries at [v] to [u] are exactly the lightest of
    the ways from [u] to [v], with weights of at least 1.  There is at most one
    entry per direction, source and target; the forward and the backward
    entry with the same ends are one entry if they weigh the same; and there are at
    most two entries per edge. *)
Theorem prepared_edges_exact u v w :
  (entry tidied true u v w <-> u <> v /\ least_arc u v w) /\ (entry tidied false v u w <-> u <> v /\ least_arc u v w) /\
  (forall w', arc edges u v w' -> u <> v -> exists w, entry tidied true u v w /\ entry tidied false v u w) /\
  (forall dir, (length (entries_of dir u v tidied) <= 1)%nat) /\
  (forall e e', e ∈ tidied -> e' ∈ tidied -> same_ends e e' -> usable true e = true -> usable false e' = true ->
     weight (ie_data e) = weight (ie_data e') -> e = e') /\
  zlen tidied <= 2 * zlen edges.
Proof using Hone ParallelSort0.
  split; [|split; [|split; [|split; [|split]]]].
  - split; [apply (tidied_least true)|intros [? ?]; by apply (tidied_entries true)].
  - split; [intros [? ?]%(tidied_least false); split; [done|]; done|intros [? ?]; by apply (tidied_entries false)].
  - intros w' Ha Hne. destruct (tidied_keeps true u v w' Ha Hne) as [w0 He]. exists w0. split; [done|].
    apply (tidied_entries false); [done|]. by apply (tidied_least true) in He as [_ ?].
  - intros dir. apply (pd_once _ _ tidied_prepared).
  - apply (pd_merged _ _ tidied_prepared).
  - apply prepared_edges_len.
Qed.
End prepared.

(** ** The graph of the partitioner *)

Lemma prepare_interval_ends source target interval e : e ∈ prepare_interval source target interval -> ie_source e = source /\ ie_target e = target.
Proof.
  destruct interval as [|f l]; cbn [prepare_interval]; [by intros ?%elem_of_nil|].
  destruct (backward (ie_data f)); [|destruct (List.find _ _) as [b|]; [destruct (_ =? _)|]]; intros He;
    repeat (apply elem_of_cons in He as [->|He]; [done|]); by apply elem_of_nil in He.
Qed.

Lemma prepare_edges_sorted fuel l lo hi : sources_sorted lo hi l -> sources_sorted lo hi (prepare_edges fuel l).
Proof.
  revert l lo. induction fuel as [|fuel IH]; intros [|e l] lo Hs; cbn [prepare_edges]; try done.
  destruct (interval_of_ok (ie_source e) (ie_target e) (e :: l)) as (interval & rest & -> & El & Hin & Hout).
  destruct interval as [|f interval]; [simpl in El; subst rest; by destruct Hout|]. injection El as <- ->. destruct Hs as [He Hs].
  apply (sources_sorted_app _ _ _ (ie_source e)); [done| |apply IH; by eapply sources_sorted_drop].
  intros x Hx. destruct (_ =? _); [by apply elem_of_nil in Hx|]. by apply prepare_interval_ends in Hx as [? _].
Qed.

(** Edges over the nodes of a graph. *)
Record input_ok (nodes : Z) (edges : list Edge) : Prop := {
  in_nodes : 0 <= nodes <= UINT32_MAX;
  in_ends e : e ∈ edges -> 0 <= ie_source e < nodes /\ 0 <= ie_target e < nodes;
  in_one_way e : e ∈ edges -> one_way e;
  in_size : 2 * zlen edges < UINT32_MAX
}.

Section loaded.
Context (sort : sort_function) `{!ParallelSort sort} (nodes : Z) (edges : list Edge) (Hin : input_ok nodes edges).
Abbreviation tidied := (prepareEdgesForUsageInGraph sort (splitBidirectionalEdges edges)).

Lemma split_ends x : x ∈ splitBidirectionalEdges edges -> 0 <= ie_source x < nodes /\ 0 <= ie_target x < nodes.
Proof using Hin.
  intros (e & Hx & He)%list_elem_of_bind. pose proof (in_ends _ _ Hin e He).
  destruct (split_edge_elem x e Hx) as (_ & _ & _ & [(-> & -> & _)|(-> & -> & _)]); tauto.
Qed.

Lemma tidied_ends e : e ∈ tidied -> ie_source e <> ie_target e /\ 0 <= ie_source e < nodes /\ 0 <= ie_target e < nodes.
Proof using Hin ParallelSort0.
  intros He. destruct (tidied_prepared sort edges (in_one_way _ _ Hin)) as [P1 P2 _ _ _]. destruct (P1 e He) as [Hne [dir Hu]]. split; [done|].
  destruct (P2 dir e He Hu) as (x & Hx & [<- <-] & _). by apply split_ends.
Qed.

Lemma tidied_size : zlen tidied <= 2 * zlen edges.
Proof using Hin ParallelSort0. by apply (prepared_edges_len sort edges (in_one_way _ _ Hin)). Qed.

Lemma loaded_graph : dg_wf (LoadEdgeBasedGraph sort nodes edges) /\ number_of_nodes (LoadEdgeBasedGraph sort nodes edges) = nodes /\
  forall n, 0 <= n < nodes -> adj (LoadEdgeBasedGraph sort nodes edges) n = edge_of_input <$> filter (fun e => ie_source e = n) tidied.
Proof using Hin ParallelSort0.
  pose proof tidied_size. pose proof (in_size _ _ Hin). pose proof (in_nodes _ _ Hin). unfold LoadEdgeBasedGraph, UINT32_MAX in *.
  destruct (DynamicGraph_new_ok nodes tidied) as [Hwf Hadj].
  - lia.
  - apply prepare_edges_sorted, (ordered_sources_by edge_before).
    + intros x y. unfold edge_before, lex4. split_bool; lia.
    + apply parallel_sort_ordered, edge_before_strict_weak.
    + intros e He. rewrite parallel_sort_Permutation in He. by apply split_ends.
  - lia.
  - intros e He. pose proof (tidied_ends e He). unfold UINT32_MAX. lia.
  - split; [done|]. split; [|done]. unfold DynamicGraph_new. by destruct (build_nodes _ _ _ _).
Qed.
End loaded.

(** ** Back to edges *)

(** The edge written for an entry of a node. *)
Definition saved (node : Z) (x : DynamicEdge EdgeData) : Edge :=
  mkInputEdge node (target x) (mkEdgeData (turn_id (data x)) (weight (data x)) (distance (data x)) (duration (data x)) true false).

(** Writing some forward entries over a list of edges. *)
Record written (P : Z -> DynamicEdge EdgeData -> Prop) (l l' : list Edge) : Prop := {
  wr_len : zlen l' = zlen l;
  wr_edge t e : l' !z t = Some e -> (l !z t = Some e /\ forall u x, P u x -> turn_id (data x) <> t) \/
    exists u x, P u x /\ turn_id (data x) = t /\ e = saved u x
}.

Lemma written_none (P : Z -> DynamicEdge EdgeData -> Prop) l : (forall u x, ~ P u x) -> written P l l.
Proof. intros HP. split; [done|]. intros t e He. left. split; [done|]. by intros u x ?%HP. Qed.

Lemma written_trans (P Q R : Z -> DynamicEdge EdgeData -> Prop) l1 l2 l3 : written P l1 l2 -> written Q l2 l3 -> (forall u x, R u x <-> P u x \/ Q u x) ->
  written R l1 l3.
Proof.
  intros [L1 W1] [L2 W2] HR. split; [lia|]. intros t e [[He Hno]|(u & x & Hq & Ht & ->)]%W2.
  - apply W1 in He as [[He Hno']|(u & x & Hp & Ht & ->)]; [left|right].
    + split; [done|]. intros u x [Hp|Hq]%HR; [by eapply Hno'|by eapply Hno].
    + exists u, x. split; [apply HR; by left|done].
  - right. exists u, x. split; [apply HR; by right|done].
Qed.

Section saving.
Context (graph : DynamicGraph EdgeData) (Hwf : dg_wf graph) (Hturns : forall u x, x ∈ adj graph u -> 0 <= turn_id (data x) < UINT32_MAX).

(** The forward entries of some nodes. *)
Definition forward_entry (nodes : list Z) (u : Z) (x : DynamicEdge EdgeData) : Prop := u ∈ nodes /\ x ∈ adj graph u /\ forward (data x) = true.

Lemma save_edges_ok node range xs : Forall2 (fun i x => GetTarget graph i = Some (target x) /\ GetEdgeData graph i = Some (data x)) range xs ->
  forall l, (forall x, x ∈ xs -> 0 <= turn_id (data x) < zlen l) -> exists l', save_edges graph node range l = Some l' /\
    written (fun u x => u = node /\ x ∈ xs /\ forward (data x) = true) l l'.
Proof.
  induction 1 as [|e x range xs [Ht Hd] _ IH]; intros l Hr; cbn [save_edges].
  { exists l. split; [done|]. apply written_none. by intros u x (_ & ?%elem_of_nil & _). }
  rewrite Hd. cbn [mbind option_bind].
  assert (exists l1, (if forward (data x) then t ← GetTarget graph e; zset (turn_id (data x)) (mkInputEdge node t (mkEdgeData (turn_id (data x)) (weight (data x))
      (distance (data x)) (duration (data x)) true false)) l else Some l) = Some l1 /\
    written (fun u y => u = node /\ y = x /\ forward (data x) = true) l l1) as (l1 & -> & W1).
  { destruct (forward (data x)) eqn:Ef; [|exists l; split; [done|]; apply written_none; by intros u y (_ & _ & ?)].
    rewrite Ht. cbn [mbind option_bind]. destruct (zset_some l (turn_id (data x)) (saved node x)) as [l1 E]; [by apply Hr; left|]. exists l1.
    split; [done|]. split; [by eapply zset_len|]. intros t e0. rewrite (zset_get _ _ _ _ _ E).
    destruct (decide (turn_id (data x) = t)) as [<-|Hne]; [intros [= <-]; right; by exists node, x|]. intros He. left. split; [done|].
    intros u y (_ & -> & _). done. }
  cbn [mbind option_bind]. destruct (IH l1) as (l' & -> & W2); [rewrite (wr_len _ _ _ W1); intros y Hy; apply Hr; by right|]. exists l'. split; [done|].
  eapply written_trans; [exact W1|exact W2|]. intros u y. rewrite elem_of_cons. split; [|naive_solver].
  intros (-> & [->|Hy] & Hf); [by left|by right].
Qed.

Lemma adjacent_entries u : 0 <= u < number_of_nodes graph -> exists range, GetAdjacentEdgeRange graph u = Some range /\
  Forall2 (fun i x => GetTarget graph i = Some (target x) /\ GetEdgeData graph i = Some (data x)) range (adj graph u).
Proof using Hwf. intros Hu. exact (graph_range_ok graph u Hwf Hu). Qed.

Lemma save_nodes_ok nodes : (forall u, u ∈ nodes -> 0 <= u < number_of_nodes graph) -> forall l,
  (forall u x, u ∈ nodes -> x ∈ adj graph u -> 0 <= turn_id (data x) < zlen l) -> exists l', save_nodes graph nodes l = Some l' /\
    written (forward_entry nodes) l l'.
Proof using Hwf Hturns.
  induction nodes as [|u nodes IH]; intros Hn l Hr; cbn [save_nodes].
  { exists l. split; [done|]. apply written_none. by intros u x (?%elem_of_nil & _). }
  destruct (adjacent_entries u) as (range & -> & HF); [apply Hn; by left|]. cbn [mbind option_bind].
  destruct (save_edges_ok u range _ HF l) as (l1 & -> & W1); [intros x Hx; apply (Hr u); [by left|done]|]. cbn [mbind option_bind].
  destruct (IH ltac:(intros v Hv; apply Hn; by right) l1) as (l' & -> & W2).
  { intros v x Hv Hx. rewrite (wr_len _ _ _ W1). apply (Hr v); [by right|done]. }
  exists l'. split; [done|]. eapply written_trans; [exact W1|exact W2|]. intros v x. unfold forward_entry. rewrite elem_of_cons. naive_solver.
Qed.

Lemma max_turn_ok range xs : Forall2 (fun i x => GetTarget graph i = Some (target x) /\ GetEdgeData graph i = Some (data x)) range xs ->
  forall m, exists m', max_turn graph range m = Some m' /\ m <= m' /\ (forall x, x ∈ xs -> turn_id (data x) <= m') /\
    (m' = m \/ exists x, x ∈ xs /\ m' = turn_id (data x)).
Proof.
  induction 1 as [|e x range xs [_ Hd] _ IH]; intros m; cbn [max_turn].
  { exists m. split_and!; [done|lia|by intros x ?%elem_of_nil|by left]. }
  rewrite Hd. cbn [mbind option_bind]. destruct (IH (Z.max m (turn_id (data x)))) as (m' & -> & Hle & Hall & Hat). exists m'.
  split; [done|]. split; [lia|]. split; [intros y [->|Hy]%elem_of_cons; [lia|by apply Hall]|].
  destruct Hat as [->|(y & Hy & ->)]; [|right; exists y; split; [by right|done]].
  destruct (Z.max_spec m (turn_id (data x))) as [[_ ->]|[_ ->]]; [right; exists x; split; [by left|done]|by left].
Qed.

Lemma max_turns_ok nodes : (forall u, u ∈ nodes -> 0 <= u < number_of_nodes graph) -> forall m, 0 <= m < UINT32_MAX ->
  exists m', max_turns graph nodes m = Some m' /\ m <= m' < UINT32_MAX /\ forall u x, u ∈ nodes -> x ∈ adj graph u -> turn_id (data x) <= m'.
Proof using Hwf Hturns.
  induction nodes as [|u nodes IH]; intros Hn m Hm; cbn [max_turns].
  { exists m. split; [done|]. split; [lia|]. by intros u x ?%elem_of_nil. }
  destruct (adjacent_entries u) as (range & -> & HF); [apply Hn; by left|]. cbn [mbind option_bind].
  destruct (max_turn_ok range _ HF m) as (m1 & -> & Hle & Hall & Hat). cbn [mbind option_bind].
  assert (0 <= m1 < UINT32_MAX) as Hm1 by (destruct Hat as [->|(x & Hx & ->)]; [lia|]; pose proof (Hturns u x Hx); lia).
  destruct (IH ltac:(intros v Hv; apply Hn; by right) m1 Hm1) as (m' & -> & Hr & Hall'). exists m'. split; [done|]. split; [lia|].
  intros v x [->|Hv]%elem_of_cons Hx; [specialize (Hall x Hx); lia|by apply (Hall' v)].
Qed.

Lemma graphToEdges_ok order : order ≡ₚ seqZ 0 (number_of_nodes graph) -> exists l, graphToEdges order graph = Some l /\
  (forall u x, 0 <= u < number_of_nodes graph -> x ∈ adj graph u -> forward (data x) = true -> exists v y, l !z turn_id (data x) = Some (saved v y) /\
     0 <= v < number_of_nodes graph /\ y ∈ adj graph v /\ forward (data y) = true /\ turn_id (data y) = turn_id (data x)) /\
  (forall e, e ∈ l -> e = EdgeBasedEdge_new \/ exists u x, 0 <= u < number_of_nodes graph /\ x ∈ adj graph u /\ forward (data x) = true /\ e = saved u x).
Proof using Hwf Hturns.
  intros Ho. assert (forall u, u ∈ order <-> 0 <= u < number_of_nodes graph) as Hin by (intros u; rewrite Ho, elem_of_seqZ; lia).
  unfold graphToEdges. destruct (max_turns_ok order (fun u Hu => proj1 (Hin u) Hu) 0) as (m & -> & Hm & Hall); [done|]. cbn [mbind option_bind].
  rewrite wrap_small by (unfold in_word, UINT32_MAX in *; lia). set (l0 := replicate _ _).
  assert (zlen l0 = m + 1) as Hl0 by (unfold l0, zlen; rewrite length_replicate; lia).
  assert (forall u x, u ∈ order -> x ∈ adj graph u -> 0 <= turn_id (data x) < zlen l0) as Hr
    by (intros u x Hu Hx; pose proof (Hall u x Hu Hx); pose proof (Hturns u x Hx); lia).
  destruct (save_nodes_ok order (fun u Hu => proj1 (Hin u) Hu) l0 Hr) as (l & -> & [Hlen W]). exists l. split; [done|]. split.
  - intros u x Hu%Hin Hx Hf. destruct (zget_is_some l (turn_id (data x))) as [e He]; [rewrite Hlen; by eapply Hr|].
    destruct (W _ _ He) as [[_ Hno]|(v & y & (Hv & Hy & Hfy) & Ht & ->)]; [by destruct (Hno u x)|].
    apply Hin in Hv. exists v, y. by repeat (split; [done|]).
  - intros e (t & He)%elem_zget. destruct (W _ _ He) as [[H0 _]|(v & y & (Hv & Hy & Hfy) & _ & ->)]; [left|right; apply Hin in Hv; exists v, y; by repeat (split; [done|])].
    apply zget_elem in H0. unfold l0 in H0. by apply elem_of_replicate in H0 as [-> _].
Qed.
End saving.

(** Edges as the extractor and [graphToEdges] write them: forward only, one turn each. *)
Record turns_ok (edges : list Edge) : Prop := {
  to_forward e : e ∈ edges -> forward (ie_data e) = true /\ backward (ie_data e) = false;
  to_turns e : e ∈ edges -> 0 <= turn_id (ie_data e) < UINT32_MAX;
  to_once e e' : e ∈ edges -> e' ∈ edges -> turn_id (ie_data e) = turn_id (ie_data e') -> e = e'
}.

Section roundtrip.
Context (sort : sort_function) `{!ParallelSort sort} (nodes : Z) (edges : list Edge) (Hin : input_ok nodes edges) (Hto : turns_ok edges).
Abbreviation tidied := (prepareEdgesForUsageInGraph sort (splitBidirectionalEdges edges)).

(** An entry carries the turn of an edge with its ends. *)
Lemma tidied_turn dir e : e ∈ tidied -> usable dir e = true -> exists e0, e0 ∈ edges /\
  ie_source e0 = (if dir then ie_source e else ie_target e) /\ ie_target e0 = (if dir then ie_target e else ie_source e) /\
  weight (ie_data e0) <> INVALID_EDGE_WEIGHT /\ weight (ie_data e) = Z.max (weight (ie_data e0)) 1 /\
  (turn_id (ie_data e0) = turn_id (ie_data e) \/ (dir = false /\ forward (ie_data e) = true)).
Proof using Hin Hto ParallelSort0.
  intros He Hu. destruct (pd_lightest _ _ (tidied_prepared sort edges (in_one_way _ _ Hin)) dir e He Hu) as (x & Hx & [Hs Ht] & Hux & Hw & Hid & _).
  unfold splitBidirectionalEdges in Hx. apply list_elem_of_bind in Hx as (e0 & Hx & He0).
  destruct (split_edge_elem x e0 Hx) as (Hv & Hwx & Htx & Hc). destruct (to_forward _ Hto e0 He0) as [Hf Hb]. exists e0.
  assert (turn_id (ie_data e0) = turn_id (ie_data e) \/ (dir = false /\ forward (ie_data e) = true)) as Hid' by (rewrite <- Htx; done).
  unfold usable in Hux. destruct dir, Hc as [(E1 & E2 & E3 & E4)|(E1 & E2 & E3 & E4)]; try congruence; split_and!; congruence || done.
Qed.

Lemma tidied_range e : e ∈ tidied -> 0 <= turn_id (ie_data e) < UINT32_MAX.
Proof using Hin Hto ParallelSort0.
  intros He. destruct (pd_ends _ _ (tidied_prepared sort edges (in_one_way _ _ Hin)) e He) as [_ [dir Hu]].
  destruct (tidied_turn dir e He Hu) as (e0 & He0 & _ & _ & _ & _ & [<-|[_ Hf]]); [by apply (to_turns _ Hto)|].
  destruct (tidied_turn true e He Hf) as (e1 & He1 & _ & _ & _ & _ & [<-|[? _]]); [by apply (to_turns _ Hto)|done].
Qed.

Lemma loaded_turns u x : x ∈ adj (LoadEdgeBasedGraph sort nodes edges) u -> 0 <= turn_id (data x) < UINT32_MAX.
Proof using Hin Hto ParallelSort0.
  intros Hx. destruct (loaded_graph sort nodes edges Hin) as (Hwf & Hn & Hadj). destruct (decide (0 <= u < nodes)) as [Hu|Hu].
  - rewrite (Hadj u Hu) in Hx. apply list_elem_of_fmap in Hx as (e & -> & [_ He]%list_elem_of_filter). by apply tidied_range.
  - unfold adj in Hx. rewrite (zget_none (node_array _) u) in Hx; [by apply elem_of_nil in Hx|]. rewrite (dw_nodes _ Hwf). by rewrite Hn.
Qed.

Lemma saved_arc order edges' u v w : order ≡ₚ seqZ 0 nodes -> graphToEdges order (LoadEdgeBasedGraph sort nodes edges) = Some edges' -> u <> v ->
  arc edges' u v w <-> least_arc edges u v w.
Proof using Hin Hto ParallelSort0.
  intros Ho E Hne. destruct (loaded_graph sort nodes edges Hin) as (Hwf & Hn & Hadj).
  destruct (graphToEdges_ok (LoadEdgeBasedGraph sort nodes edges) Hwf) with (order := order) as (l & E' & Hall & Hl).
  { exact loaded_turns. }
  { by rewrite Hn. }
  assert (l = edges') as -> by congruence. rewrite Hn in *. clear E E'.
  assert (forall a x, 0 <= a < nodes -> x ∈ adj (LoadEdgeBasedGraph sort nodes edges) a -> exists e, e ∈ tidied /\ ie_source e = a /\ x = edge_of_input e) as Hentry.
  { intros a x Ha Hx. rewrite (Hadj a Ha) in Hx. apply list_elem_of_fmap in Hx as (e & -> & [Hs He]%list_elem_of_filter). by exists e. }
  split.
  - intros (e & [->|(a & x & Ha & Hx & Hf & ->)]%Hl & Hv & -> & Hc); [by destruct Hc as [(_ & _ & ?)|(_ & _ & ?)]|].
    destruct (Hentry a x Ha Hx) as (e & He & Hs & ->). destruct Hc as [(E1 & E2 & _)|(_ & _ & ?)]; [|done]. simpl in *. subst a. subst u v.
    destruct (tidied_turn true e He Hf) as (e0 & _ & _ & _ & _ & Hw & _). replace (Z.max (weight (ie_data e)) 1) with (weight (ie_data e)) by lia.
    apply (tidied_entries sort edges (in_one_way _ _ Hin) true _ _ _ Hne). by exists e.
  - intros Hle. pose proof Hle as Hle'. apply (tidied_entries sort edges (in_one_way _ _ Hin) true _ _ _ Hne) in Hle' as (e & He & <- & <- & Hu & <-).
    destruct (tidied_ends sort nodes edges Hin e He) as (_ & Hse & _).
    destruct (Hall (ie_source e) (edge_of_input e)) as (a & y & Hg & Ha & Hy & Hfy & Hid); [done| |done|].
    { rewrite (Hadj _ Hse). apply list_elem_of_fmap_2, list_elem_of_filter. done. }
    destruct (Hentry a y Ha Hy) as (e' & He' & <- & ->). exists (saved (ie_source e') (edge_of_input e')). split; [by eapply zget_elem|].
    destruct (tidied_turn true e He Hu) as (e0 & He0 & S0 & T0 & V0 & W0 & [I0|[? _]]); [|done].
    destruct (tidied_turn true e' He' Hfy) as (e1 & He1 & S1 & T1 & V1 & W1 & [I1|[? _]]); [|done]. simpl in Hid.
    assert (e1 = e0) as -> by (apply (to_once _ Hto); [done..|congruence]). simpl. unfold INVALID_EDGE_WEIGHT, INT32_MAX in *.
    split; [lia|]. split; [lia|]. left. split_and!; congruence.
Qed.

(** C31: a graph survives being written and read.  For edges with a turn each,
    [graphToEdges] of the graph that [LoadEdgeBasedGraph] makes of them
    succeeds in any order of the nodes, and reading the result again gives the
    same entries: in both directions, between the same nodes and with the same weights. *)
Theorem graph_edges_roundtrip order : order ≡ₚ seqZ 0 nodes ->
  exists edges', graphToEdges order (LoadEdgeBasedGraph sort nodes edges) = Some edges' /\
    forall dir u v w, entry (prepareEdgesForUsageInGraph sort (splitBidirectionalEdges edges')) dir u v w <-> entry tidied dir u v w.
Proof using Hin Hto ParallelSort0.
  intros Ho. destruct (loaded_graph sort nodes edges Hin) as (Hwf & Hn & Hadj).
  destruct (graphToEdges_ok (LoadEdgeBasedGraph sort nodes edges) Hwf) with (order := order) as (edges' & E & _ & Hl).
  { exact loaded_turns. }
  { by rewrite Hn. }
  exists edges'. split; [done|].
  assert (forall e, e ∈ edges' -> one_way e) as H1 by (intros e [->|(a & x & _ & _ & _ & ->)]%Hl; [by intros []|done]).
  assert (forall u v w, u <> v -> least_arc edges' u v w <-> least_arc edges u v w) as Hleast.
  { intros u v w Hne. pose proof (saved_arc order edges' u v) as Ha. split.
    - intros [H _]. by apply (Ha w Ho E Hne).
    - intros H. split; [by apply (Ha w Ho E Hne)|]. intros w' [H' _]%(Ha w' Ho E Hne). by apply H. }
  intros dir u v w. destruct (decide (u = v)) as [->|Hne].
  - split; intros He; apply tidied_least in He as [? _]; try done. by apply (in_one_way _ _ Hin).
  - rewrite !tidied_entries by (done || apply (in_one_way _ _ Hin)). destruct dir; apply Hleast; congruence.
Qed.
End roundtrip.

(** ** Concrete edges *)

(** Two opposite turns of the same weight, a heavier parallel edge, an edge
    without weight and a loop. *)
Definition turn (source target w id : Z) : Edge := mkInputEdge source target (mkEdgeData id w (SpecFloat.S754_zero false) w true false).
Definition turn_edges : list Edge := [turn 0 1 5 0; turn 1 0 5 1; turn 1 2 0 2; turn 0 1 7 3; turn 2 2 4 4].

Example turn_edges_prepared : (fun e => (ie_source e, ie_target e, turn_id (ie_data e), weight (ie_data e), forward (ie_data e), backward (ie_data e))) <$>
  prepareEdgesForUsageInGraph sequential_sort (splitBidirectionalEdges turn_edges) =
  [(0, 1, 0, 5, true, true); (1, 0, 1, 5, true, true); (1, 2, 2, 1, true, false); (2, 1, 2, 1, false, true)].
Proof. by vm_compute. Qed.

Lemma turn_edges_ok : input_ok 3 turn_edges /\ turns_ok turn_edges.
Proof.
  assert (forall e, e ∈ turn_edges -> 0 <= ie_source e < 3 /\ 0 <= ie_target e < 3 /\ forward (ie_data e) = true /\ backward (ie_data e) = false /\
    0 <= turn_id (ie_data e) < UINT32_MAX /\ turn_edges !z turn_id (ie_data e) = Some e) as Hall.
  { apply Forall_forall. unfold UINT32_MAX. repeat constructor; done. }
  split; split.
  - unfold UINT32_MAX. lia.
  - intros e He. by destruct (Hall e He) as (? & ? & _).
  - intros e He _. unfold directed. by destruct (Hall e He) as (_ & _ & -> & -> & _).
  - done.
  - intros e He. by destruct (Hall e He) as (_ & _ & ? & ? & _).
  - intros e He. by destruct (Hall e He) as (_ & _ & _ & _ & ? & _).
  - intros e e' He He' Ht. destruct (Hall e He) as (_ & _ & _ & _ & _ & G). destruct (Hall e' He') as (_ & _ & _ & _ & _ & G'). congruence.
Qed.

Lemma prepared_edges_exact_witness :
  entry (prepareEdgesForUsageInGraph sequential_sort (splitBidirectionalEdges turn_edges)) true 0 1 5 /\ least_arc turn_edges 0 1 5.
Proof.
  destruct (prepared_edges_exact sequential_sort turn_edges (in_one_way _ _ (proj1 turn_edges_ok)) 0 1 5) as (H & _).
  assert (entry (prepareEdgesForUsageInGraph sequential_sort (splitBidirectionalEdges turn_edges)) true 0 1 5) as He.
  { exists (mkInputEdge 0 1 (mark_backward (ie_data (turn 0 1 5 0)))). split; [|by vm_compute]. vm_compute. left. }
  split; [exact He|]. exact (proj2 (proj1 H He)).
Defined.

Lemma graph_edges_roundtrip_witness :
  exists edges', graphToEdges (seqZ 0 3) (LoadEdgeBasedGraph sequential_sort 3 turn_edges) = Some edges' /\
    entry (prepareEdgesForUsageInGraph sequential_sort (splitBidirectionalEdges edges')) false 1 0 5.
Proof.
  destruct (graph_edges_roundtrip sequential_sort 3 turn_edges (proj1 turn_edges_ok) (proj2 turn_edges_ok) (seqZ 0 3) (reflexivity _))
    as (edges' & E & H).
  exists edges'. split; [exact E|]. apply (proj2 (H false 1 0 5)).
  exists (mkInputEdge 1 0 (mark_backward (ie_data (turn 1 0 5 1)))). split; [|by vm_compute]. vm_compute. right. left.
Defined.
End Reader.
