(* ===== verification/MultiLevelPartition.v ===== *)
(** * The multi-level partition

    Model of include/partitioner/multi_level_partition.hpp and
    include/util/msb.hpp: the cell ids of a node at all levels are packed into
    one 64-bit integer, whose layout is computed from the number of cells per
    level.  Cell ids are assigned top down along an order of the nodes sorted
    bottom up. *)
From stdpp Require Import sorting.
From S2P Require Import Prelude.

(** ** Most significant bit *)

(** The counting loop of [util::msb]; [value] is shifted out. *)
Fixpoint msb_loop (fuel : nat) (value count : Z) : Z :=
  match fuel with
  | O => count
  | S fuel => if value =? 0 then count else msb_loop fuel (Z.shiftr value 1) (count + 1)
  end.

(** [msb] of a 64-bit value; the result for 0 wraps around in [size_t]. *)
Definition msb (value : Z) : Z := wrap 64 (msb_loop 64 value 0 - 1).

(** ** Layout of the levels *)

Definition MAX_NUM_LEVEL : Z := 16.
Definition NUM_PARTITION_BITS : Z := 64.

(** Entries of the arrays that the code leaves uninitialised do not exist here. *)
Record LevelData : Type := mkLevelData {
  num_level : Z;
  lidx_to_offset : list Z;
  lidx_to_mask : list Z;
  bit_to_level : list Z;
  lidx_to_children_offsets : list Z
}.

(** [ceil(log2(num_cells + 1))] *)
Definition cell_bits (num_cells : Z) : Z := Z.log2_up (wrap 32 (num_cells + 1)).

(** The offsets array has [MAX_NUM_LEVEL - 1] entries: the outer [None] is a
    write past its end, the inner one the exception for too many bits. *)
Fixpoint level_offsets (lidx_to_num_cells : list Z) (lidx sum_bits : Z) : option (option (list Z)) :=
  if MAX_NUM_LEVEL - 1 <=? lidx then None
  else match lidx_to_num_cells with
  | [] => Some (Some [sum_bits])
  | num_cells :: rest =>
      let sum := sum_bits + cell_bits num_cells in
      if NUM_PARTITION_BITS <? sum then Some None
      else offs ← level_offsets rest (lidx + 1) sum; Some (option_map (cons sum_bits) offs)
  end.

Definition MakeLevelOffsets (lidx_to_num_cells : list Z) : option (option (list Z)) :=
  level_offsets lidx_to_num_cells 0 0.

(** The mask between two offsets. *)
Definition level_mask (offset next_offset : Z) : Z :=
  let mask := wrap 64 (Z.shiftl 1 offset - 1) in
  let next_mask := if next_offset =? NUM_PARTITION_BITS then 2 ^ 64 - 1
                   else wrap 64 (Z.shiftl 1 next_offset - 1) in
  Z.lxor next_mask mask.

(** [for_each_pair] over the offsets. *)
Fixpoint MakeLevelMasks (offs : list Z) : list Z :=
  match offs with
  | o :: (o' :: _) as offs' => level_mask o o' :: MakeLevelMasks offs'
  | _ => []
  end.

(** Level [l] claims all bits from its offset up. *)
Definition claim_bits (bits : list Z) (offset l : Z) : list Z :=
  imap (fun i old => if offset <=? Z.of_nat i then l else old) bits.

Fixpoint claim_levels (offs : list Z) (l : Z) (bits : list Z) : list Z :=
  match offs with
  | o :: (_ :: _) as offs' => claim_levels offs' (l + 1) (claim_bits bits o l)
  | _ => bits
  end.

Definition MakeBitToLevel (offs : list Z) : list Z :=
  claim_levels offs 1 (replicate (Z.to_nat NUM_PARTITION_BITS) 0).

Definition MakeLevelData (lidx_to_num_cells : list Z) : option (option LevelData) :=
  let n := wrap 32 (zlen lidx_to_num_cells + 1) in
  r ← MakeLevelOffsets lidx_to_num_cells;
  Some (option_map (fun offs => mkLevelData n offs (MakeLevelMasks offs) (MakeBitToLevel offs)
                       (replicate (Z.to_nat (MAX_NUM_LEVEL - 1)) 0)) r).

(** ** The partition *)

Record MultiLevelPartition : Type := mkMultiLevelPartition {
  level_data : LevelData;
  partition : list Z;
  cell_to_children : list Z
}.

Section partition.
Implicit Types (mlp : MultiLevelPartition).

Definition LevelIDToIndex (l : Z) : Z := l - 1.
Definition GetSentinelNode mlp : Z := wrap 32 (zlen (partition mlp) - 1).

Definition GetCell mlp (l node : Z) : option Z :=
  p ← partition mlp !z node;
  mask ← lidx_to_mask (level_data mlp) !z LevelIDToIndex l;
  off ← lidx_to_offset (level_data mlp) !z LevelIDToIndex l;
  Some (wrap 32 (Z.shiftr (Z.land p mask) off)).

Definition GetHighestDifferentLevel mlp (first second : Z) : option Z :=
  p ← partition mlp !z first;
  q ← partition mlp !z second;
  if p =? q then Some 0 else bit_to_level (level_data mlp) !z msb (Z.lxor p q).

Definition GetQueryLevel mlp (start target node : Z) : option Z :=
  a ← GetHighestDifferentLevel mlp start node;
  b ← GetHighestDifferentLevel mlp target node;
  Some (Z.min a b).

Definition GetNumberOfLevels mlp : Z := wrap 8 (num_level (level_data mlp)).

Definition GetNumberOfCells mlp (level : Z) : option Z := GetCell mlp level (GetSentinelNode mlp).

Definition BeginChildren mlp (level cell : Z) : option Z :=
  off ← lidx_to_children_offsets (level_data mlp) !z LevelIDToIndex level;
  cell_to_children mlp !z wrap 32 (off + cell).

Definition EndChildren mlp (level cell : Z) : option Z :=
  off ← lidx_to_children_offsets (level_data mlp) !z LevelIDToIndex level;
  cell_to_children mlp !z wrap 32 (off + cell + 1).

Definition SetCellID mlp (l node cell_id : Z) : option MultiLevelPartition :=
  off ← lidx_to_offset (level_data mlp) !z LevelIDToIndex l;
  mask ← lidx_to_mask (level_data mlp) !z LevelIDToIndex l;
  p ← partition mlp !z node;
  let shifted_id := wrap 64 (Z.shiftl cell_id off) in
  let cleared_cell := Z.land p (Z.lxor mask (2 ^ 64 - 1)) in
  ps ← zset node (Z.lor cleared_cell shifted_id) (partition mlp);
  Some (mkMultiLevelPartition (level_data mlp) ps (cell_to_children mlp)).

(** ** Initialisation *)

(** [std::stable_sort] by a key: insertion before the first larger key. *)
Fixpoint stable_insert (key : Z -> Z) (x : Z) (l : list Z) : list Z :=
  match l with
  | [] => [x]
  | y :: l' => if key y <=? key x then y :: stable_insert key x l' else x :: l
  end.

Fixpoint stable_sort (key : Z -> Z) (acc l : list Z) : list Z :=
  match l with
  | [] => acc
  | x :: l => stable_sort key (stable_insert key x acc) l
  end.

(** The raw cell of a node in an input partition. *)
Definition raw (p : list Z) (node : Z) : Z := default 0 (p !z node).

Definition sort_nodes (partitions : list (list Z)) (nodes : list Z) : list Z :=
  foldl (fun perm p => stable_sort (raw p) [] perm) nodes partitions.

(** New ids along the order: the id grows where the raw cell changes. *)
Fixpoint assign_cells mlp (level : Z) (p : list Z) (nodes : list Z) (last_cell_id cell_id : Z)
  : option (MultiLevelPartition * Z) :=
  match nodes with
  | [] => Some (mlp, cell_id)
  | node :: nodes =>
      c ← p !z node;
      let id := if negb (last_cell_id =? c) then wrap 32 (cell_id + 1) else cell_id in
      mlp' ← SetCellID mlp level node id;
      assign_cells mlp' level p nodes c id
  end.

Definition assign_level mlp (level : Z) (p : list Z) (permutation : list Z) (sentinel : Z)
  : option MultiLevelPartition :=
  front ← head permutation;
  first ← p !z front;
  '(mlp', last) ← assign_cells mlp level p permutation first 0;
  SetCellID mlp' level sentinel (wrap 32 (last + 1)).

(** Top down: [partitions] reversed, level counting down. *)
Fixpoint assign_levels mlp (reversed : list (list Z)) (level : Z) (permutation : list Z) (sentinel : Z)
  : option MultiLevelPartition :=
  match reversed with
  | [] => Some mlp
  | p :: reversed =>
      mlp' ← assign_level mlp level p permutation sentinel;
      assign_levels mlp' reversed (level - 1) permutation sentinel
  end.

Fixpoint collect_children mlp (level : Z) (parent : list Z) (nodes : list Z) (last_parent_id : Z)
  : option (list Z) :=
  match nodes with
  | [] => Some []
  | node :: nodes =>
      c ← parent !z node;
      if negb (last_parent_id =? c) then
        cell ← GetCell mlp level node;
        l ← collect_children mlp level parent nodes c;
        Some (cell :: l)
      else collect_children mlp level parent nodes last_parent_id
  end.

Fixpoint children_levels mlp (parents : list (list Z)) (level_idx : Z) (permutation : list Z)
  : option MultiLevelPartition :=
  match parents with
  | [] => Some mlp
  | parent :: parents =>
      let ld := level_data mlp in
      offs ← zset (level_idx + 1) (wrap 32 (zlen (cell_to_children mlp))) (lidx_to_children_offsets ld);
      front ← head permutation;
      back ← last permutation;
      first_parent ← parent !z front;
      first_cell ← GetCell mlp (level_idx + 1) front;
      l ← collect_children mlp (level_idx + 1) parent permutation first_parent;
      last_cell ← GetCell mlp (level_idx + 1) back;
      children_levels
        (mkMultiLevelPartition
           (mkLevelData (num_level ld) (lidx_to_offset ld) (lidx_to_mask ld) (bit_to_level ld) offs)
           (partition mlp)
           (cell_to_children mlp ++ first_cell :: l ++ [wrap 32 (last_cell + 1)]))
        parents (level_idx + 1) permutation
  end.

Definition InitializePartitionIDs (ld : LevelData) (partitions : list (list Z)) : option MultiLevelPartition :=
  front ← head partitions;
  let num_nodes := zlen front in
  let permutation := sort_nodes partitions (seqZ 0 num_nodes) in
  let mlp := mkMultiLevelPartition ld (replicate (Z.to_nat (num_nodes + 1)) 0) [] in
  mlp' ← assign_levels mlp (reverse partitions) (zlen partitions) permutation num_nodes;
  offs ← zset 0 0 (lidx_to_children_offsets (level_data mlp'));
  let ld' := level_data mlp' in
  children_levels
    (mkMultiLevelPartition
       (mkLevelData (num_level ld') (lidx_to_offset ld') (lidx_to_mask ld') (bit_to_level ld') offs)
       (partition mlp') (cell_to_children mlp'))
    (tail partitions) 0 permutation.

(** The constructor: the inner [None] is the exception of [MakeLevelOffsets]. *)
Definition MultiLevelPartition_new (partitions : list (list Z)) (lidx_to_num_cells : list Z)
  : option (option MultiLevelPartition) :=
  r ← MakeLevelData lidx_to_num_cells;
  match r with
  | None => Some None
  | Some ld => mlp ← InitializePartitionIDs ld partitions; Some (Some mlp)
  end.
End partition.

(** The example of the comment in the source. *)
Example initialize_comment :
  exists mlp, MultiLevelPartition_new [[2; 1; 3; 4; 3; 4]; [2; 2; 0; 1; 0; 1]] [4; 3] = Some (Some mlp) /\
    (fun n => GetCell mlp 1 n) <$> [0; 1; 2; 3; 4; 5] = [Some 3; Some 2; Some 0; Some 1; Some 0; Some 1] /\
    (fun n => GetCell mlp 2 n) <$> [0; 1; 2; 3; 4; 5] = [Some 2; Some 2; Some 0; Some 1; Some 0; Some 1] /\
    GetNumberOfCells mlp 1 = Some 4 /\ GetNumberOfCells mlp 2 = Some 3 /\
    BeginChildren mlp 2 2 = Some 2 /\ EndChildren mlp 2 2 = Some 4.
Proof. eexists. split; [vm_compute; reflexivity|]. vm_compute. done. Qed.

(** ** The layout of the words *)

(** [levels] levels are laid out one after the other from bit 0 up, each at
    most 32 bits wide. *)
Record layout (ld : LevelData) (levels : Z) : Prop := {
  layout_len : zlen (lidx_to_offset ld) = levels + 1;
  layout_first : lidx_to_offset ld !z 0 = Some 0;
  layout_step i o o' : lidx_to_offset ld !z i = Some o -> lidx_to_offset ld !z (i + 1) = Some o' ->
                       o <= o' <= o + 32;
  layout_last o : lidx_to_offset ld !z levels = Some o -> o <= 64;
  layout_masks : lidx_to_mask ld = MakeLevelMasks (lidx_to_offset ld);
  layout_bits : bit_to_level ld = MakeBitToLevel (lidx_to_offset ld)
}.

(** Bits of level [l] start at [level_off ld l] and end where the next level starts. *)
Definition level_off (ld : LevelData) (l : Z) : Z := default 0 (lidx_to_offset ld !z (l - 1)).
Definition level_width (ld : LevelData) (l : Z) : Z := level_off ld (l + 1) - level_off ld l.

Lemma testbit_level_mask o o' j :
  0 <= o <= o' -> o' <= 64 -> 0 <= j -> Z.testbit (level_mask o o') j = (o <=? j) && (j <? o').
Proof.
  intros Ho Ho' Hj. unfold level_mask, NUM_PARTITION_BITS.
  assert (forall k, 0 <= k <= 64 -> wrap 64 (Z.shiftl 1 k - 1) = 2 ^ k - 1) as Hw.
  { intros k Hk. rewrite Z.shiftl_mul_pow2, Z.mul_1_l by lia. apply wrap_small.
    pose proof (Z.pow_pos_nonneg 2 k). pose proof (Z.pow_le_mono_r 2 k 64). split; lia. }
  rewrite !Hw by lia.
  replace (if o' =? 64 then 2 ^ 64 - 1 else 2 ^ o' - 1) with (2 ^ o' - 1)
    by (destruct (Z.eqb_spec o' 64); [by subst|done]).
  rewrite Z.lxor_spec, !testbit_ones by lia. split_bool; lia.
Qed.

Lemma MakeLevelMasks_get offs i o o' :
  offs !z i = Some o -> offs !z (i + 1) = Some o' -> MakeLevelMasks offs !z i = Some (level_mask o o').
Proof.
  revert i. induction offs as [|a [|b offs] IH]; intros i H1 H2.
  - apply zget_some in H1. unfold zlen in H1. simpl in H1. lia.
  - apply zget_some in H1, H2. unfold zlen in *. simpl in *. lia.
  - pose proof (zget_some _ _ _ H1). change (MakeLevelMasks (a :: b :: offs))
      with (level_mask a b :: MakeLevelMasks (b :: offs)).
    apply zget_cons_inv in H1 as [[-> ->]|[Hi H1]].
    + by injection H2 as ->.
    + rewrite zget_cons_S in H2 by lia. rewrite zget_cons_S by lia. apply IH; [done|].
      by replace (i - 1 + 1) with (i + 1 - 1) by lia.
Qed.

Lemma claim_bits_get bits o l j x :
  bits !z j = Some x -> claim_bits bits o l !z j = Some (if o <=? j then l else x).
Proof.
  intros H. pose proof (zget_some _ _ _ H). unfold claim_bits, zget in *.
  destruct (Z.leb_spec 0 j); [|lia]. rewrite list_lookup_imap, H. simpl. by rewrite Z2Nat.id by lia.
Qed.

(** Levels that start above a bit do not claim it. *)
Lemma claim_levels_above offs l bits j x :
  bits !z j = Some x ->
  (forall k ok, 0 <= k < zlen offs - 1 -> offs !z k = Some ok -> j < ok) ->
  claim_levels offs l bits !z j = Some x.
Proof.
  revert l bits. induction offs as [|a [|b offs] IH]; intros l bits Hc Hr; [done|done|].
  change (claim_levels (a :: b :: offs) l bits)
      with (claim_levels (b :: offs) (l + 1) (claim_bits bits a l)). apply IH.
  - rewrite (claim_bits_get _ a l _ _ Hc).
    assert (j < a) by (apply (Hr 0); [rewrite !zlen_cons; pose proof (zlen_nonneg offs); lia|done]).
    by replace (a <=? j) with false by lia.
  - intros k ok Hk Hok. apply (Hr (k + 1)); [rewrite (zlen_cons a); lia|].
    rewrite zget_cons_S by lia. by replace (k + 1 - 1) with k by lia.
Qed.

(** The last level that starts at or below a bit claims it. *)
Lemma claim_levels_get offs l bits j x i o o' :
  bits !z j = Some x -> offs !z i = Some o -> offs !z (i + 1) = Some o' -> o <= j ->
  (forall k ok, i < k < zlen offs - 1 -> offs !z k = Some ok -> j < ok) ->
  claim_levels offs l bits !z j = Some (l + i).
Proof.
  revert l bits x i. induction offs as [|a [|b offs] IH]; intros l bits x i Hx H1 H2 Hj Hrest.
  - apply zget_some in H1. unfold zlen in H1. simpl in H1. lia.
  - apply zget_some in H1, H2. unfold zlen in *. simpl in *. lia.
  - pose proof (zget_some _ _ _ H1). change (claim_levels (a :: b :: offs) l bits)
      with (claim_levels (b :: offs) (l + 1) (claim_bits bits a l)).
    pose proof (claim_bits_get _ a l _ _ Hx) as Hc. rewrite zget_cons_S in H2 by lia.
    assert (forall k ok, i <= k < zlen (b :: offs) - 1 -> (b :: offs) !z k = Some ok -> j < ok) as Hr.
    { intros k ok Hk Hok. apply (Hrest (k + 1)); [rewrite (zlen_cons a); lia|].
      rewrite zget_cons_S by lia. by replace (k + 1 - 1) with k by lia. }
    apply zget_cons_inv in H1 as [[-> ->]|[Hi H1]].
    + replace (a <=? j) with true in Hc by lia. rewrite Z.add_0_r. by apply claim_levels_above.
    + replace (l + i) with (l + 1 + (i - 1)) by lia.
      apply (IH _ _ _ (i - 1) Hc H1); [by replace (i - 1 + 1) with (i + 1 - 1) by lia|done|].
      intros k ok Hk. apply Hr. lia.
Qed.

Section layout.
Context (ld : LevelData) (levels : Z) (Hld : layout ld levels).

Lemma level_off_get l : 1 <= l <= levels + 1 -> lidx_to_offset ld !z (l - 1) = Some (level_off ld l).
Proof using Hld.
  intros Hl. pose proof (layout_len _ _ Hld). unfold level_off.
  destruct (zget_is_some (lidx_to_offset ld) (l - 1)) as [o Ho]; [lia|]. by rewrite Ho.
Qed.

Lemma level_off_1 : 0 <= levels -> level_off ld 1 = 0.
Proof using Hld. intros _. unfold level_off. change (1 - 1) with 0. by rewrite (layout_first _ _ Hld). Qed.

Lemma level_width_range l : 1 <= l <= levels -> 0 <= level_width ld l <= 32.
Proof using Hld.
  intros Hl. unfold level_width.
  pose proof (level_off_get l ltac:(lia)) as H1.
  pose proof (level_off_get (l + 1) ltac:(lia)) as H2.
  replace (l + 1 - 1) with (l - 1 + 1) in H2 by lia.
  pose proof (layout_step _ _ Hld _ _ _ H1 H2). lia.
Qed.

Lemma level_off_mono l m : 1 <= l <= m -> m <= levels + 1 -> level_off ld l <= level_off ld m.
Proof using Hld.
  intros [H1 Hlm]. revert m Hlm. apply (Zlt_lower_bound_ind (fun m => m <= levels + 1 -> _) l). intros m IH Hlm Hm.
  destruct (decide (l = m)) as [->|Hne]; [lia|].
  pose proof (level_width_range (m - 1) ltac:(lia)) as Hw. unfold level_width in Hw.
  replace (m - 1 + 1) with m in Hw by lia. specialize (IH (m - 1)). lia.
Qed.

Lemma level_off_range l : 0 <= levels -> 1 <= l <= levels + 1 -> 0 <= level_off ld l <= 64.
Proof using Hld.
  intros H0 Hl. pose proof (level_off_1 H0). pose proof (level_off_mono 1 l ltac:(lia) ltac:(lia)).
  pose proof (level_off_mono l (levels + 1) ltac:(lia) ltac:(lia)).
  pose proof (level_off_get (levels + 1) ltac:(lia)) as Hs.
  replace (levels + 1 - 1) with levels in Hs by lia. pose proof (layout_last _ _ Hld _ Hs). lia.
Qed.

Lemma level_mask_get l :
  1 <= l <= levels -> lidx_to_mask ld !z (l - 1) = Some (level_mask (level_off ld l) (level_off ld (l + 1))).
Proof using Hld.
  intros Hl. rewrite (layout_masks _ _ Hld). apply MakeLevelMasks_get; [apply level_off_get; lia|].
  replace (l - 1 + 1) with (l + 1 - 1) by lia. apply level_off_get. lia.
Qed.

Lemma bit_to_level_get l j :
  1 <= l <= levels -> level_off ld l <= j < level_off ld (l + 1) -> bit_to_level ld !z j = Some l.
Proof using Hld.
  intros Hl Hj. pose proof (level_off_range l ltac:(lia) ltac:(lia)).
  pose proof (level_off_range (l + 1) ltac:(lia) ltac:(lia)).
  rewrite (layout_bits _ _ Hld). unfold MakeBitToLevel, NUM_PARTITION_BITS.
  replace (Some l) with (Some (1 + (l - 1))) by (f_equal; lia).
  eapply (claim_levels_get _ _ _ _ 0 (l - 1) (level_off ld l) (level_off ld (l + 1))).
  - unfold zget. destruct (Z.leb_spec 0 j); [|lia]. apply lookup_replicate. lia.
  - apply level_off_get. lia.
  - replace (l - 1 + 1) with (l + 1 - 1) by lia. apply level_off_get. lia.
  - lia.
  - intros k ok Hk Hok. rewrite (layout_len _ _ Hld) in Hk.
    pose proof (level_off_get (k + 1) ltac:(lia)) as Hk'. replace (k + 1 - 1) with k in Hk' by lia.
    pose proof (level_off_mono (l + 1) (k + 1) ltac:(lia) ltac:(lia)). simplify_eq. lia.
Qed.

(** Every bit below the end of the last level belongs to one level. *)
Lemma level_of_bit j :
  0 <= levels -> 0 <= j < level_off ld (levels + 1) ->
  exists l, 1 <= l <= levels /\ level_off ld l <= j < level_off ld (l + 1).
Proof using Hld.
  intros Hlev Hj.
  assert (forall n, 0 <= n <= levels -> j < level_off ld (n + 1) ->
    exists l, 1 <= l <= levels /\ level_off ld l <= j < level_off ld (l + 1)) as H.
  { intros n [Hn0 Hn]. revert n Hn0 Hn.
    apply (natlike_ind (fun n => n <= levels -> j < level_off ld (n + 1) -> _)).
    - intros _ H. change (0 + 1) with 1 in H. rewrite level_off_1 in H by done. lia.
    - intros n Hn IH Hle Hlt. destruct (decide (j < level_off ld (n + 1))); [apply IH; lia|].
      exists (n + 1). replace (Z.succ n) with (n + 1) in * by lia. lia. }
  apply (H levels); lia.
Qed.
End layout.

(** ** Cells *)

(** The invariant of a partition with [levels] levels: the layout, and words
    that use no bit past the last level. *)
Record mlp_ok (mlp : MultiLevelPartition) (levels : Z) : Prop := {
  mlp_levels : 0 <= levels;
  mlp_layout : layout (level_data mlp) levels;
  mlp_words node p : partition mlp !z node = Some p -> in_word (level_off (level_data mlp) (levels + 1)) p
}.

Section cells.
Context (mlp : MultiLevelPartition) (levels : Z) (Hok : mlp_ok mlp levels).
Abbreviation ld := (level_data mlp).

Lemma layout_bounds l :
  1 <= l <= levels -> 0 <= level_off ld l <= level_off ld (l + 1) /\
    level_off ld (l + 1) <= level_off ld (levels + 1) <= 64 /\
    level_off ld (l + 1) <= level_off ld l + 32.
Proof using Hok.
  intros Hl. pose proof (mlp_levels _ _ Hok). pose proof (mlp_layout _ _ Hok) as HL.
  pose proof (level_off_range _ _ HL l ltac:(lia) ltac:(lia)).
  pose proof (level_off_range _ _ HL (levels + 1) ltac:(lia) ltac:(lia)).
  pose proof (level_width_range _ _ HL l Hl) as Hw. unfold level_width in Hw.
  pose proof (level_off_mono _ _ HL (l + 1) (levels + 1) ltac:(lia) ltac:(lia)). lia.
Qed.

Lemma GetCell_field l node p :
  1 <= l <= levels -> partition mlp !z node = Some p ->
  GetCell mlp l node = Some (field p (level_off ld l) (level_width ld l)).
Proof using Hok.
  intros Hl Hp. pose proof (layout_bounds l Hl). pose proof (mlp_layout _ _ Hok) as HL.
  unfold GetCell, LevelIDToIndex. step_opt Hp.
  rewrite (level_mask_get _ _ HL) by done. rewrite (level_off_get _ _ HL) by lia.
  cbn [mbind option_bind]. f_equal. apply bits_inj_nonneg. intros j Hj. unfold level_width.
  rewrite testbit_field, testbit_wrap, Z.shiftr_spec, Z.land_spec, testbit_level_mask by lia.
  destruct (Z.testbit p (j + level_off ld l)); split_bool; try lia; done.
Qed.

End cells.

(** The word [SetCellID] writes. *)
Definition set_word (p o o' cell_id : Z) : Z :=
  Z.lor (Z.land p (Z.lxor (level_mask o o') (2 ^ 64 - 1))) (wrap 64 (Z.shiftl cell_id o)).

Section set_word.
Context (p o o' cell_id sum : Z).
Context (Ho : 0 <= o <= o') (Hsum : o' <= sum <= 64) (Hp : in_word sum p) (Hid : in_word (o' - o) cell_id).

Lemma testbit_set_word j :
  0 <= j -> Z.testbit (set_word p o o' cell_id) j =
            if (o <=? j) && (j <? o') then Z.testbit cell_id (j - o) else Z.testbit p j.
Proof using Ho Hsum Hp Hid.
  intros Hj. unfold set_word.
  rewrite Z.lor_spec, Z.land_spec, Z.lxor_spec, testbit_level_mask, testbit_ones, testbit_wrap,
    Z.shiftl_spec by lia.
  destruct (decide (j < o)).
  { rewrite (Z.testbit_neg_r cell_id) by lia. destruct (Z.testbit p j); split_bool; try lia; done. }
  destruct (decide (j < o')).
  { destruct (Z.testbit p j), (Z.testbit cell_id (j - o)); split_bool; try lia; done. }
  rewrite (testbit_in_word _ _ (j - o) Hid) by lia.
  destruct (decide (j < 64)).
  - destruct (Z.testbit p j); split_bool; try lia; done.
  - rewrite (testbit_in_word _ _ j Hp) by lia. split_bool; try lia; done.
Qed.

Lemma set_word_in_word : in_word sum (set_word p o o' cell_id).
Proof using Ho Hsum Hp Hid.
  apply in_word_bits; [lia| |].
  - apply Z.lor_nonneg. split; [apply Z.land_nonneg; left; apply Hp|]. apply (wrap_in_word 64). lia.
  - intros j Hj. rewrite testbit_set_word, (testbit_in_word _ _ j Hp) by lia. split_bool; try lia; done.
Qed.

Lemma field_set_word_same : field (set_word p o o' cell_id) o (o' - o) = cell_id.
Proof using Ho Hsum Hp Hid.
  apply bits_inj_nonneg. intros j Hj. rewrite testbit_field, testbit_set_word by lia.
  replace (j + o - o) with j by lia. destruct (decide (j < o' - o)).
  - split_bool; try lia; done.
  - rewrite (testbit_in_word _ _ j Hid) by lia. split_bool; try lia; done.
Qed.

Lemma field_set_word_other a w :
  0 <= a -> 0 <= w -> a + w <= o \/ o' <= a ->
  field (set_word p o o' cell_id) a w = field p a w.
Proof using Ho Hsum Hp Hid.
  intros Ha Hw Hd. apply field_ext; [done|done|]. intros j Hj. rewrite testbit_set_word by lia.
  split_bool; try lia; done.
Qed.
End set_word.

(** A cell that fits its level is stored there; every other level and every
    other node keeps its cell, and no bit past the last level is set. *)
Lemma SetCellID_get mlp levels l node cell_id :
  mlp_ok mlp levels -> 1 <= l <= levels -> 0 <= node < zlen (partition mlp) ->
  in_word (level_width (level_data mlp) l) cell_id ->
  exists mlp', SetCellID mlp l node cell_id = Some mlp' /\ mlp_ok mlp' levels /\
    level_data mlp' = level_data mlp /\ cell_to_children mlp' = cell_to_children mlp /\
    zlen (partition mlp') = zlen (partition mlp) /\
    forall l' node', 1 <= l' <= levels ->
      GetCell mlp' l' node' = if decide (l' = l /\ node' = node) then Some cell_id else GetCell mlp l' node'.
Proof.
  intros Hok Hl Hn Hid. pose proof (layout_bounds _ _ Hok l Hl) as Hb.
  pose proof (mlp_layout _ _ Hok) as HL.
  destruct (zget_is_some _ _ Hn) as [p Hp]. pose proof (mlp_words _ _ Hok _ _ Hp) as Hpw.
  set (ld := level_data mlp) in *.
  destruct (zset_some (partition mlp) node (set_word p (level_off ld l) (level_off ld (l + 1)) cell_id) Hn)
    as [ps Hps].
  assert (mlp_ok (mkMultiLevelPartition ld ps (cell_to_children mlp)) levels) as Hok'.
  { split; [apply (mlp_levels _ _ Hok)|done|]. intros n x. cbn. rewrite (zset_get _ _ _ _ _ Hps).
    case_decide; [|apply (mlp_words _ _ Hok)]. intros [= <-]. apply set_word_in_word; lia || done. }
  exists (mkMultiLevelPartition ld ps (cell_to_children mlp)). split.
  { unfold SetCellID, LevelIDToIndex. fold ld. rewrite (level_mask_get _ _ HL) by done.
    rewrite (level_off_get _ _ HL) by lia. cbn [mbind option_bind]. step_opt Hp. fold ld.
    unfold set_word in Hps. by rewrite Hps. }
  split; [done|]. do 2 (split; [done|]). split; [by apply zset_len in Hps|].
  intros l' n' Hl'. pose proof (layout_bounds _ _ Hok l' Hl') as Hb'. fold ld in Hb'.
  destruct (decide (n' = node)) as [->|Hne].
  - rewrite (GetCell_field _ _ Hok' _ node _ Hl' (zset_get_eq _ _ _ _ Hps)). cbn.
    destruct (decide (l' = l)) as [->|Hl''].
    + rewrite decide_True by done. f_equal. eapply field_set_word_same; [..|done]; try done; lia.
    + rewrite decide_False by (by intros [? ?]). rewrite (GetCell_field _ _ Hok _ _ _ Hl' Hp). f_equal.
      fold ld. unfold level_width. eapply field_set_word_other; [..|done| | | |]; try done; try lia.
      destruct (decide (l' < l)).
      * left. pose proof (level_off_mono _ _ HL (l' + 1) l ltac:(lia) ltac:(lia)). lia.
      * right. pose proof (level_off_mono _ _ HL (l + 1) l' ltac:(lia) ltac:(lia)). lia.
  - rewrite decide_False by (by intros [? ?]). unfold GetCell. cbn.
    by rewrite (zset_get_ne _ _ _ _ _ Hps) by done.
Qed.

(** SetCellID on a valid partition succeeds for a cell id that fits its
    level: reading the cell back gives that id, every other level of the node
    and every other node keeps its cell, and the word uses no bit past the
    last level. *)
Theorem set_cell_roundtrip mlp levels l node cell_id :
  mlp_ok mlp levels -> 1 <= l <= levels -> 0 <= node < zlen (partition mlp) ->
  in_word (level_width (level_data mlp) l) cell_id ->
  exists mlp', SetCellID mlp l node cell_id = Some mlp' /\ mlp_ok mlp' levels /\
    level_data mlp' = level_data mlp /\ cell_to_children mlp' = cell_to_children mlp /\
    zlen (partition mlp') = zlen (partition mlp) /\
    forall l' node', 1 <= l' <= levels ->
      GetCell mlp' l' node' = if decide (l' = l /\ node' = node) then Some cell_id else GetCell mlp l' node'.
Proof. apply SetCellID_get. Qed.

(** ** The highest level at which two nodes differ *)

Lemma msb_loop_spec fuel value count :
  0 <= value < 2 ^ Z.of_nat fuel ->
  msb_loop fuel value count = if value =? 0 then count else count + Z.log2 value + 1.
Proof.
  revert value count. induction fuel as [|fuel IH]; intros value count Hv.
  { replace value with 0 by (simpl in Hv; lia). done. }
  cbn [msb_loop]. destruct (Z.eqb_spec value 0); [done|].
  rewrite Nat2Z.inj_succ, Z.pow_succ_r in Hv by lia.
  rewrite Z.shiftr_div_pow2 by lia. change (2 ^ 1) with 2.
  rewrite IH by (split; [apply Z.div_pos; lia|apply Z.div_lt_upper_bound; lia]).
  destruct (Z.eqb_spec (value / 2) 0) as [E|E].
  - apply Z.div_small_iff in E; [|lia]. replace value with 1 by lia. simpl. lia.
  - replace (value / 2) with (Z.shiftr value 1) by (rewrite Z.shiftr_div_pow2; [done|lia]).
    rewrite Z.log2_shiftr by lia.
    assert (2 <= value) by (destruct (decide (value = 1)) as [->|]; [done|lia]).
    pose proof (Z.log2_le_mono 2 value ltac:(lia)) as Hl. change (Z.log2 2) with 1 in Hl. lia.
Qed.

Lemma msb_log2 value : 0 < value < 2 ^ 64 -> msb value = Z.log2 value.
Proof.
  intros Hv. unfold msb. rewrite msb_loop_spec by lia.
  replace (value =? 0) with false by lia.
  replace (0 + Z.log2 value + 1 - 1) with (Z.log2 value) by lia. apply wrap_small.
  pose proof (Z.log2_nonneg value). pose proof (Z.log2_lt_pow2 value 64). split; lia.
Qed.

(** The two words differ at the most significant bit of their difference and
    agree above it. *)
Lemma msb_difference p q :
  in_word 64 p -> in_word 64 q -> p <> q ->
  0 <= msb (Z.lxor p q) < 64 /\
  Z.testbit p (msb (Z.lxor p q)) <> Z.testbit q (msb (Z.lxor p q)) /\
  forall j, msb (Z.lxor p q) < j -> Z.testbit p j = Z.testbit q j.
Proof.
  intros Hp Hq Hne.
  assert (in_word 64 (Z.lxor p q)) as Hx.
  { apply in_word_bits; [lia|apply Z.lxor_nonneg; unfold in_word in *; lia|].
    intros j Hj. by rewrite Z.lxor_spec, !(testbit_in_word 64) by done. }
  assert (Z.lxor p q <> 0) by (intros E; by apply Z.lxor_eq in E).
  assert (0 < Z.lxor p q < 2 ^ 64) as Hx' by (unfold in_word in Hx; lia).
  rewrite msb_log2 by done. pose proof (Z.log2_lt_pow2 (Z.lxor p q) 64).
  pose proof (Z.log2_nonneg (Z.lxor p q)). split; [lia|]. split.
  - pose proof (Z.bit_log2 (Z.lxor p q) ltac:(lia)) as Hb. rewrite Z.lxor_spec in Hb.
    intros E. rewrite E in Hb. by destruct (Z.testbit q _).
  - intros j Hj. pose proof (Z.bits_above_log2 (Z.lxor p q) j ltac:(lia) Hj) as Hb.
    rewrite Z.lxor_spec in Hb. by apply xorb_eq.
Qed.

Lemma GetHighestDifferentLevel_ok mlp levels first second :
  mlp_ok mlp levels -> 0 <= first < zlen (partition mlp) -> 0 <= second < zlen (partition mlp) ->
  exists L, GetHighestDifferentLevel mlp first second = Some L /\ 0 <= L <= levels /\
    (forall l, L < l <= levels -> GetCell mlp l first = GetCell mlp l second) /\
    (0 < L -> GetCell mlp L first <> GetCell mlp L second).
Proof.
  intros Hok Hf Hs. destruct (zget_is_some _ _ Hf) as [p Hp]. destruct (zget_is_some _ _ Hs) as [q Hq].
  pose proof (mlp_layout _ _ Hok) as HL. pose proof (mlp_levels _ _ Hok).
  pose proof (level_off_range _ _ HL (levels + 1) ltac:(lia) ltac:(lia)) as Hsum.
  pose proof (mlp_words _ _ Hok _ _ Hp) as Hpw. pose proof (mlp_words _ _ Hok _ _ Hq) as Hqw.
  unfold GetHighestDifferentLevel. step_opt Hp. step_opt Hq.
  destruct (Z.eqb_spec p q) as [->|Hne].
  { exists 0. split; [done|]. split; [done|]. split; [|lia]. intros l Hl.
    by rewrite !(GetCell_field _ _ Hok l _ q) by lia || done. }
  destruct (msb_difference p q) as (Hm & Hb & Habove);
    [by eapply in_word_mono; [|done]; lia|by eapply in_word_mono; [|done]; lia|done|].
  set (j := msb (Z.lxor p q)) in *.
  assert (j < level_off (level_data mlp) (levels + 1)).
  { destruct (decide (j < level_off (level_data mlp) (levels + 1))); [done|].
    by rewrite !(testbit_in_word _ _ j Hpw), !(testbit_in_word _ _ j Hqw) in Hb by lia. }
  destruct (level_of_bit _ _ HL j) as (L & HLr & Hj); [done|lia|].
  exists L. rewrite (bit_to_level_get _ _ HL L j) by done. split; [done|]. split; [lia|].
  assert (forall l, 1 <= l <= levels -> 0 <= level_off (level_data mlp) l /\ 0 <= level_width (level_data mlp) l) as Hlr.
  { intros l Hl. pose proof (level_off_range _ _ HL l ltac:(lia) ltac:(lia)).
    pose proof (level_width_range _ _ HL l Hl). lia. }
  split.
  - intros l Hl. rewrite (GetCell_field _ _ Hok l _ p), (GetCell_field _ _ Hok l _ q) by lia || done.
    f_equal. pose proof (Hlr l ltac:(lia)). apply field_ext; [lia|lia|]. intros k Hk. apply Habove.
    pose proof (level_off_mono _ _ HL (L + 1) l ltac:(lia) ltac:(lia)). lia.
  - intros _. rewrite (GetCell_field _ _ Hok L _ p), (GetCell_field _ _ Hok L _ q) by lia || done.
    intros [= E]. apply Hb. pose proof (Hlr L ltac:(lia)).
    assert (Z.testbit (field p (level_off (level_data mlp) L) (level_width (level_data mlp) L)) (j - level_off (level_data mlp) L)
      = Z.testbit (field q (level_off (level_data mlp) L) (level_width (level_data mlp) L)) (j - level_off (level_data mlp) L)) as Et
      by (by rewrite E).
    unfold level_width in *. rewrite !testbit_field in Et by lia.
    replace (j - level_off (level_data mlp) L + level_off (level_data mlp) L) with j in Et by lia.
    by replace (j - _ <? _) with true in Et by lia.
Qed.

(** Cells are nested: nodes that share a cell share the cell above it. The
    last word of the partition is the sentinel and not a node. *)
Definition is_node (mlp : MultiLevelPartition) (a : Z) : Prop := 0 <= a < zlen (partition mlp) - 1.

Definition nested_cells (mlp : MultiLevelPartition) (levels : Z) : Prop :=
  forall l a b, 1 <= l -> l + 1 <= levels -> is_node mlp a -> is_node mlp b ->
    GetCell mlp l a = GetCell mlp l b -> GetCell mlp (l + 1) a = GetCell mlp (l + 1) b.

Lemma nested_cells_le mlp levels l m a b :
  nested_cells mlp levels -> is_node mlp a -> is_node mlp b -> 1 <= l <= m -> m <= levels ->
  GetCell mlp l a = GetCell mlp l b -> GetCell mlp m a = GetCell mlp m b.
Proof.
  intros Hn Ha Hb [H1 Hlm] Hm HE. revert m Hlm Hm.
  apply (Zlt_lower_bound_ind (fun m => m <= levels -> _) l). intros m IH Hlm Hm.
  destruct (decide (l = m)) as [->|Hne]; [done|].
  replace m with (m - 1 + 1) by lia. apply Hn; [lia|lia|done|done|]. apply IH; lia.
Qed.

(** GetQueryLevel, the level on which the multi-level search may relax a
    node: it is computed by two xors, and it is the highest level at which the
    node lies in the cell of neither the start nor the target; above it the
    node shares its cell with one of them at every level. *)
Theorem query_level mlp levels start target node :
  mlp_ok mlp levels -> nested_cells mlp levels ->
  is_node mlp start -> is_node mlp target -> is_node mlp node ->
  exists L, GetQueryLevel mlp start target node = Some L /\ 0 <= L <= levels /\
    (0 < L -> GetCell mlp L start <> GetCell mlp L node /\ GetCell mlp L target <> GetCell mlp L node) /\
    ((forall l, L < l <= levels -> GetCell mlp l start = GetCell mlp l node) \/
     (forall l, L < l <= levels -> GetCell mlp l target = GetCell mlp l node)).
Proof.
  intros Hok Hn Hs Ht Hv.
  assert (forall a, is_node mlp a -> 0 <= a < zlen (partition mlp)) as Hr by (unfold is_node; lia).
  destruct (GetHighestDifferentLevel_ok _ _ start node Hok ltac:(auto) ltac:(auto)) as (A & HA & HAr & HAs & HAd).
  destruct (GetHighestDifferentLevel_ok _ _ target node Hok ltac:(auto) ltac:(auto)) as (B & HB & HBr & HBs & HBd).
  exists (Z.min A B). unfold GetQueryLevel. step_opt HA. step_opt HB. split; [done|]. split; [lia|].
  split.
  - intros HL. split; intros E.
    + apply HAd; [lia|]. eapply nested_cells_le; [done|done|done|..|exact E]; lia.
    + apply HBd; [lia|]. eapply nested_cells_le; [done|done|done|..|exact E]; lia.
  - destruct (decide (A <= B)) as [Hab|Hab].
    + left. intros l Hl. apply HAs. lia.
    + right. intros l Hl. apply HBs. lia.
Qed.

(** ** The layout computed from the cell counts *)

Fixpoint total_bits (nums : list Z) : Z :=
  match nums with [] => 0 | n :: nums => cell_bits n + total_bits nums end.

Lemma cell_bits_range n : 0 <= n < UINT32_MAX -> 0 <= cell_bits n <= 32.
Proof.
  unfold UINT32_MAX. intros Hn. unfold cell_bits. rewrite wrap_small by (split; lia).
  split; [apply Z.log2_up_nonneg|]. change 32 with (Z.log2_up (2 ^ 32)). apply Z.log2_up_le_mono. lia.
Qed.

(** All ids up to the number of cells itself fit. *)
Lemma cell_bits_fit n c : 0 <= n < UINT32_MAX -> 0 <= c <= n -> in_word (cell_bits n) c.
Proof.
  unfold UINT32_MAX. intros Hn Hc. unfold cell_bits. rewrite wrap_small by (split; lia). split; [lia|].
  destruct (decide (n = 0)) as [->|H0]; [replace c with 0 by lia; done|].
  pose proof (Z.log2_up_spec (n + 1)). lia.
Qed.

Definition counts_ok (nums : list Z) : Prop :=
  zlen nums <= 14 /\ total_bits nums <= 64 /\ Forall (fun n => 0 <= n < UINT32_MAX) nums.

Lemma total_bits_nonneg nums : Forall (fun n => 0 <= n < UINT32_MAX) nums -> 0 <= total_bits nums.
Proof. induction 1 as [|n nums Hn _ IH]; simpl; [done|]. pose proof (cell_bits_range n Hn). lia. Qed.

Lemma level_offsets_spec nums lidx sum :
  Forall (fun n => 0 <= n < UINT32_MAX) nums -> lidx + zlen nums <= 14 -> sum + total_bits nums <= 64 ->
  exists offs, level_offsets nums lidx sum = Some (Some offs) /\
    zlen offs = zlen nums + 1 /\ offs !z 0 = Some sum /\ offs !z zlen nums = Some (sum + total_bits nums) /\
    forall i o o', offs !z i = Some o -> offs !z (i + 1) = Some o' ->
      exists n, nums !z i = Some n /\ o' = o + cell_bits n.
Proof.
  intros HF. revert lidx sum. induction HF as [|n nums Hn HF IH]; intros lidx sum Hi Hs.
  - exists [sum]. cbn in *. unfold MAX_NUM_LEVEL. replace (16 - 1 <=? lidx) with false by (unfold zlen in Hi; simpl in Hi; lia).
    split; [done|]. do 2 (split; [done|]). rewrite Z.add_0_r. split; [done|].
    intros i o o' H1 H2. apply zget_some in H1, H2. unfold zlen in *. simpl in *. lia.
  - rewrite zlen_cons in Hi. cbn [total_bits] in Hs.
    destruct (IH (lidx + 1) (sum + cell_bits n)) as (offs & Ho & Hl & H0 & Hlast & Hstep); [lia|lia|].
    pose proof (total_bits_nonneg nums HF) as Ht. pose proof (zlen_nonneg nums) as Hz.
    exists (sum :: offs). cbn [level_offsets]. unfold MAX_NUM_LEVEL, NUM_PARTITION_BITS.
    replace (16 - 1 <=? lidx) with false by lia.
    replace (64 <? sum + cell_bits n) with false by lia. step_opt Ho.
    split; [done|]. rewrite !zlen_cons. split; [lia|]. split; [done|]. split.
    + rewrite zget_cons_S by lia. replace (1 + zlen nums - 1) with (zlen nums) by lia.
      rewrite Hlast. cbn. f_equal. lia.
    + intros i o o' H1 H2. pose proof (zget_some _ _ _ H1) as Hr. rewrite zget_cons_S in H2 by lia.
      apply zget_cons_inv in H1 as [[-> ->]|[Hip H1]].
      * exists n. change (0 + 1 - 1) with 0 in H2. split; [done|]. congruence.
      * destruct (Hstep (i - 1) o o') as (m & Hm & ->); [done|by replace (i - 1 + 1) with (i + 1 - 1) by lia|].
        exists m. by rewrite zget_cons_S by lia.
Qed.

Lemma MakeLevelData_layout nums :
  counts_ok nums ->
  exists ld, MakeLevelData nums = Some (Some ld) /\ layout ld (zlen nums) /\
    lidx_to_children_offsets ld = replicate 15 0 /\
    forall l n, nums !z (l - 1) = Some n -> level_width ld l = cell_bits n.
Proof.
  intros (Hlen & Hsum & HF).
  destruct (level_offsets_spec nums 0 0 HF) as (offs & Ho & Hl & H0 & Hlast & Hstep); [lia|lia|].
  unfold MakeLevelData, MakeLevelOffsets. step_opt Ho. eexists. split; [done|].
  split; [split; cbn|]; [done|done| |rewrite Hlast; intros o [= <-]; lia|done|done|].
  - intros i o o' H1 H2. destruct (Hstep _ _ _ H1 H2) as (n & Hn & ->).
    rewrite Forall_forall in HF. pose proof (cell_bits_range n (HF n (zget_elem _ _ _ Hn))). lia.
  - split; [done|]. intros l n Hn. unfold level_width, level_off. cbn.
    pose proof (zget_some _ _ _ Hn) as Hr.
    destruct (zget_is_some offs (l - 1)) as [o H1]; [lia|].
    destruct (zget_is_some offs (l - 1 + 1)) as [o' H2]; [lia|].
    destruct (Hstep _ _ _ H1 H2) as (n' & Hn' & ->). replace (l + 1 - 1) with (l - 1 + 1) by lia.
    rewrite H1, H2. cbn. simplify_eq. lia.
Qed.

(** ** The order of the nodes *)

Lemma StronglySorted_lookup {A} (R : A -> A -> Prop) l i j x y :
  StronglySorted R l -> l !! i = Some x -> l !! j = Some y -> (i < j)%nat -> R x y.
Proof.
  intros Hs. revert i j. induction Hs as [|a l Hs IH Ha]; intros [|i] [|j] Hx Hy Hij; try done; try lia.
  - simplify_eq/=. rewrite Forall_forall in Ha. apply Ha. by eapply list_elem_of_lookup_2.
  - apply (IH i j); [done|done|lia].
Qed.

Section stable_sort.
Context (key : Z -> Z).

(** Ties of the key keep the earlier order. *)
Definition refine (R : Z -> Z -> Prop) (x y : Z) : Prop := key x < key y \/ (key x = key y /\ R x y).

Lemma stable_insert_Permutation x l : stable_insert key x l ≡ₚ x :: l.
Proof.
  induction l as [|y l IH]; simpl; [done|]. destruct (key y <=? key x); [|done].
  rewrite IH. constructor.
Qed.

Lemma stable_sort_Permutation acc l : stable_sort key acc l ≡ₚ acc ++ l.
Proof.
  revert acc. induction l as [|x l IH]; intros acc; simpl; [by rewrite app_nil_r|].
  rewrite IH, stable_insert_Permutation. by rewrite <- Permutation_middle.
Qed.

Lemma stable_insert_sorted R x l :
  StronglySorted (refine R) l -> (forall a, a ∈ l -> R a x) -> StronglySorted (refine R) (stable_insert key x l).
Proof.
  induction 1 as [|y l Hs IH Hy]; intros Hx; simpl; [by repeat constructor|].
  rewrite Forall_forall in Hy. destruct (Z.leb_spec (key y) (key x)).
  - constructor; [apply IH; intros; apply Hx; by right|]. rewrite Forall_forall.
    intros z. rewrite stable_insert_Permutation. intros [->|Hz]%elem_of_cons; [|by apply Hy].
    assert (R y x) by (apply Hx; by left). unfold refine.
    destruct (decide (key y = key x)); [by right|left; lia].
  - constructor; [by constructor; [|rewrite Forall_forall]|]. rewrite Forall_forall.
    intros z [->|Hz]%elem_of_cons; left; [done|]. destruct (Hy z Hz) as [?|[? ?]]; lia.
Qed.

Lemma stable_sort_sorted R acc l :
  StronglySorted (refine R) acc -> StronglySorted R l -> (forall a b, a ∈ acc -> b ∈ l -> R a b) ->
  StronglySorted (refine R) (stable_sort key acc l).
Proof.
  revert acc. induction l as [|x l IH]; intros acc Ha Hl Hal; simpl; [done|].
  apply StronglySorted_inv in Hl as [Hl Hx]. rewrite Forall_forall in Hx. apply IH; [|done|].
  - apply stable_insert_sorted; [done|]. intros a Hin. apply Hal; [done|by left].
  - intros a b. rewrite stable_insert_Permutation. intros [->|Hin]%elem_of_cons Hb; [by apply Hx|].
    apply Hal; [done|by right].
Qed.
End stable_sort.

(** Lexicographic order along the partitions, the first one most significant. *)
Fixpoint lexle (ps : list (list Z)) (x y : Z) : Prop :=
  match ps with
  | [] => True
  | p :: ps => refine (raw p) (lexle ps) x y
  end.

Lemma sort_nodes_Permutation ps nodes : sort_nodes ps nodes ≡ₚ nodes.
Proof.
  unfold sort_nodes. revert nodes. induction ps as [|p ps IH]; intros nodes; simpl; [done|].
  by rewrite IH, stable_sort_Permutation.
Qed.

Lemma sort_nodes_sorted ps nodes : StronglySorted (lexle (reverse ps)) (sort_nodes ps nodes).
Proof.
  induction ps as [|p ps IH] using rev_ind.
  - simpl. induction nodes; constructor; [done|]. by rewrite Forall_forall.
  - unfold sort_nodes in *. rewrite foldl_snoc, reverse_snoc. cbn [lexle].
    apply stable_sort_sorted; [constructor|done|]. intros a b Ha. by apply elem_of_nil in Ha.
Qed.

(** Nodes between two nodes that agree on a prefix of the keys agree on it too. *)
Lemma lexle_between ps a b c :
  lexle ps a b -> lexle ps b c ->
  forall k, (forall p, p ∈ take k ps -> raw p a = raw p c) -> forall p, p ∈ take k ps -> raw p b = raw p a.
Proof.
  induction ps as [|q ps IH]; intros Hab Hbc k Hk p Hp; [by rewrite take_nil, elem_of_nil in Hp|].
  destruct k as [|k]; [by apply elem_of_nil in Hp|]. simpl in Hk, Hp.
  assert (raw q a = raw q c) by (apply Hk; by left).
  assert (raw q b = raw q a /\ lexle ps a b /\ lexle ps b c) as (? & Hab' & Hbc').
  { cbn in Hab, Hbc. destruct Hab as [?|[? ?]], Hbc as [?|[? ?]]; try lia. split; [lia|done]. }
  apply elem_of_cons in Hp as [->|Hp]; [done|]. apply (IH Hab' Hbc' k); [|done].
  intros r Hr. apply Hk. by right.
Qed.

(** ** New cell ids along a grouped sequence *)

(** Equal raw cells form one run, the first of which may be [last]'s. *)
Fixpoint grouped (last : Z) (vs : list Z) : Prop :=
  match vs with
  | [] => True
  | v :: vs => (v <> last -> last ∉ vs) /\ grouped v vs
  end.

Definition next_id (v last id : Z) : Z := if negb (last =? v) then id + 1 else id.

Fixpoint new_ids (vs : list Z) (last id : Z) : list Z :=
  match vs with
  | [] => []
  | v :: vs => next_id v last id :: new_ids vs v (next_id v last id)
  end.

Fixpoint final_id (vs : list Z) (last id : Z) : Z :=
  match vs with
  | [] => id
  | v :: vs => final_id vs v (next_id v last id)
  end.

Definition distinct (vs : list Z) : Z := Z.of_nat (size (list_to_set vs : gset Z)).

Lemma next_id_same v id : next_id v v id = id.
Proof. unfold next_id. by rewrite Z.eqb_refl. Qed.

Lemma next_id_new v last id : v <> last -> next_id v last id = id + 1.
Proof. intros H. unfold next_id. by replace (last =? v) with false by lia. Qed.

Lemma next_id_ge v last id : id <= next_id v last id <= id + 1.
Proof. unfold next_id. destruct (negb _); lia. Qed.

Lemma new_ids_len vs last id : length (new_ids vs last id) = length vs.
Proof. revert last id. induction vs; intros; simpl; [done|]. by rewrite IHvs. Qed.

Lemma new_ids_range vs last id k c :
  new_ids vs last id !! k = Some c -> id <= c <= final_id vs last id.
Proof.
  revert last id k. induction vs as [|v vs IH]; intros last id k H; [done|].
  pose proof (next_id_ge v last id). simpl in *. destruct k as [|k]; simpl in H.
  - simplify_eq. assert (forall us l i, i <= final_id us l i) as Hf.
    { clear. induction us as [|u us IH]; intros l i; simpl; [lia|].
      pose proof (next_id_ge u l i). pose proof (IH u (next_id u l i)). lia. }
    pose proof (Hf vs v (next_id v last id)). lia.
  - apply IH in H. lia.
Qed.

Lemma new_ids_first vs last id k v c :
  grouped last vs -> vs !! k = Some v -> new_ids vs last id !! k = Some c -> (c = id <-> v = last).
Proof.
  revert last id k. induction vs as [|u vs IH]; intros last id k Hg Hv Hc; [done|].
  destruct Hg as [Hl Hg]. pose proof (next_id_ge u last id). destruct k as [|k]; simpl in *; simplify_eq.
  - unfold next_id in *. destruct (Z.eqb_spec last v); simpl in *; split; lia.
  - destruct (decide (u = last)) as [->|Hne].
    + rewrite next_id_same in Hc. by apply (IH last id k).
    + rewrite next_id_new in Hc by done. apply new_ids_range in Hc. split; [lia|]. intros ->.
      exfalso. apply Hl; [done|]. by eapply list_elem_of_lookup_2.
Qed.

Lemma new_ids_pair vs last id i j vi vj ci cj :
  grouped last vs -> vs !! i = Some vi -> vs !! j = Some vj ->
  new_ids vs last id !! i = Some ci -> new_ids vs last id !! j = Some cj -> (i <= j)%nat ->
  ci <= cj /\ (ci = cj <-> vi = vj).
Proof.
  revert last id i j. induction vs as [|u vs IH]; intros last id i j Hg Hi Hj Hci Hcj Hij; [done|].
  destruct Hg as [_ Hg]. destruct i as [|i], j as [|j]; simpl in *; simplify_eq; try lia.
  - pose proof (new_ids_range _ _ _ _ _ Hcj). pose proof (new_ids_first _ _ _ _ _ _ Hg Hj Hcj). lia.
  - apply (IH u (next_id u last id) i j); [done..|lia].
Qed.

Lemma final_id_distinct vs last id : grouped last vs -> final_id vs last id + 1 = id + distinct (last :: vs).
Proof.
  unfold distinct. revert last id. induction vs as [|v vs IH]; intros last id Hg; cbn [final_id].
  - rewrite list_to_set_cons, list_to_set_nil, (right_id_L ∅ (∪)), size_singleton. lia.
  - destruct Hg as [Hl Hg]. rewrite (IH _ _ Hg). destruct (decide (v = last)) as [->|Hne].
    + rewrite next_id_same. do 3 f_equal. set_solver.
    + rewrite next_id_new by done. rewrite (list_to_set_cons last), size_union, size_singleton; [lia|].
      apply disjoint_singleton_l. rewrite list_to_set_cons, elem_of_union, elem_of_singleton, elem_of_list_to_set.
      specialize (Hl Hne). intros [?|?]; [by apply Hne|done].
Qed.

(** ** Assigning the ids *)

Lemma assign_cells_ok levels level p nodes : 1 <= level <= levels -> NoDup nodes ->
  forall mlp last id, mlp_ok mlp levels ->
  (forall node, node ∈ nodes -> 0 <= node < zlen (partition mlp) /\ node < zlen p) ->
  (forall c, 0 <= c <= final_id (raw p <$> nodes) last id -> in_word (level_width (level_data mlp) level) c) ->
  0 <= id -> final_id (raw p <$> nodes) last id < 2 ^ 32 ->
  exists mlp', assign_cells mlp level p nodes last id = Some (mlp', final_id (raw p <$> nodes) last id) /\
    mlp_ok mlp' levels /\ level_data mlp' = level_data mlp /\ cell_to_children mlp' = cell_to_children mlp /\
    zlen (partition mlp') = zlen (partition mlp) /\
    (forall k node, nodes !! k = Some node -> GetCell mlp' level node = new_ids (raw p <$> nodes) last id !! k) /\
    (forall l' node', 1 <= l' <= levels -> (l' <> level \/ node' ∉ nodes) ->
       GetCell mlp' l' node' = GetCell mlp l' node').
Proof.
  intros Hl. induction 1 as [|node nodes Hnin Hnd IH]; intros mlp last id Hok Hr Hfit Hid HF.
  { exists mlp. do 5 (split; [done|]). split; [intros ? ? [=]|done]. }
  destruct (Hr node) as [Hn Hnp]; [by left|].
  destruct (zget_is_some p node) as [v Hv]; [lia|].
  assert (raw p node = v) as Hraw by (unfold raw; by rewrite Hv).
  cbn [assign_cells]. step_opt Hv. cbn in HF, Hfit. rewrite Hraw in HF, Hfit.
  set (id' := next_id v last id) in *. pose proof (next_id_ge v last id) as Hge. fold id' in Hge.
  assert (id' <= final_id (raw p <$> nodes) v id') as Hf.
  { apply (new_ids_range (v :: (raw p <$> nodes)) last id 0). done. }
  replace (if negb (last =? v) then wrap 32 (id + 1) else id) with id'.
  2:{ unfold id', next_id in *. destruct (negb _); [|done]. rewrite wrap_small; [done|split; lia]. }
  destruct (SetCellID_get mlp levels level node id') as (m1 & H1 & Hok1 & Hld1 & Hc1 & Hlen1 & Hget1);
    [done|done|done|apply Hfit; lia|].
  step_opt H1.
  destruct (IH m1 v id') as (m2 & H2 & Hok2 & Hld2 & Hc2 & Hlen2 & Hget2 & Hoth2);
    [done| |by rewrite Hld1|lia|done|].
  { intros x Hx. rewrite Hlen1. apply Hr. by right. }
  exists m2. rewrite H2. cbn. rewrite Hraw. fold id'. split; [done|]. split; [done|].
  split; [congruence|]. split; [congruence|]. split; [congruence|]. split.
  - intros [|k] x; cbn; [|apply Hget2].
    intros [= ->]. rewrite Hoth2, Hget1, decide_True by auto. done.
  - intros l' x Hl' Hd. rewrite Hoth2, Hget1 by (done || rewrite not_elem_of_cons in Hd; naive_solver).
    rewrite decide_False; [done|]. intros [-> ->]. destruct Hd as [?|Hd]; [done|]. apply Hd. by left.
Qed.

(** The new ids of a partition along the order of the nodes, and their number. *)
Definition perm_ids (p perm : list Z) : list Z := new_ids (raw p <$> perm) (raw p (default 0 (head perm))) 0.
Definition perm_cells (p perm : list Z) : Z := final_id (raw p <$> perm) (raw p (default 0 (head perm))) 0 + 1.

(** What a level holds once its ids are assigned. *)
Definition level_cells (mlp : MultiLevelPartition) (level : Z) (p perm : list Z) (sentinel : Z) : Prop :=
  (forall k node, perm !! k = Some node -> GetCell mlp level node = perm_ids p perm !! k) /\
  GetCell mlp level sentinel = Some (perm_cells p perm).

Lemma perm_cells_pos p perm : perm <> [] -> 0 < perm_cells p perm.
Proof.
  intros Hne. unfold perm_cells. destruct perm as [|x rest]; [done|].
  pose proof (new_ids_range (raw p <$> x :: rest) (raw p x) 0 0 0) as H. cbn in H.
  rewrite next_id_same in H. specialize (H eq_refl). cbn. rewrite next_id_same. lia.
Qed.

Section assign.
Context (levels sentinel : Z) (perm : list Z).
Context (Hnd : NoDup perm) (Hne : perm <> []) (Hperm : forall node, node ∈ perm -> 0 <= node < sentinel).

Lemma assign_level_ok mlp level p :
  mlp_ok mlp levels -> 1 <= level <= levels -> zlen (partition mlp) = sentinel + 1 -> zlen p = sentinel ->
  (forall c, 0 <= c <= perm_cells p perm -> in_word (level_width (level_data mlp) level) c) ->
  perm_cells p perm < 2 ^ 32 ->
  exists mlp', assign_level mlp level p perm sentinel = Some mlp' /\ mlp_ok mlp' levels /\
    level_data mlp' = level_data mlp /\ cell_to_children mlp' = cell_to_children mlp /\
    zlen (partition mlp') = zlen (partition mlp) /\ level_cells mlp' level p perm sentinel /\
    (forall l' node, 1 <= l' <= levels -> l' <> level -> GetCell mlp' l' node = GetCell mlp l' node).
Proof using Hnd Hne Hperm.
  intros Hok Hl Hlen Hp Hfit HF. pose proof (perm_cells_pos p perm Hne) as Hpos.
  destruct (head perm) as [x|] eqn:Hx; [|by destruct perm].
  assert (x ∈ perm) as Hxin by (destruct perm; simplify_eq/=; by left).
  pose proof (Hperm x Hxin) as Hxr. destruct (zget_is_some p x) as [v Hv]; [lia|].
  assert (raw p x = v) as Hraw by (unfold raw; by rewrite Hv).
  unfold perm_cells in *. rewrite Hx in *. cbn in Hfit, HF, Hpos. rewrite Hraw in *.
  destruct (assign_cells_ok levels level p perm Hl Hnd mlp v 0) as (m1 & H1 & Hok1 & Hld1 & Hc1 & Hlen1 & Hg1 & Ho1);
    [done| |intros c Hc; apply Hfit; lia|lia|lia|].
  { intros node Hin. specialize (Hperm node Hin). lia. }
  unfold assign_level. rewrite Hx. cbn [mbind option_bind]. step_opt Hv. step_opt H1.
  rewrite wrap_small by (split; lia).
  destruct (SetCellID_get m1 levels level sentinel (final_id (raw p <$> perm) v 0 + 1))
    as (m2 & H2 & Hok2 & Hld2 & Hc2 & Hlen2 & Hg2); [done|done|lia|rewrite Hld1; apply Hfit; lia|].
  exists m2. split; [done|]. split; [done|]. split; [congruence|]. split; [congruence|]. split; [congruence|].
  split; [split|].
  - intros k node Hk. assert (node ∈ perm) as Hin by (by eapply list_elem_of_lookup_2).
    specialize (Hperm node Hin). rewrite Hg2, decide_False by (done || (intros [_ ->]; lia)). unfold perm_ids.
    rewrite Hx. cbn. rewrite Hraw. by apply Hg1.
  - rewrite Hg2, decide_True by done. unfold perm_cells. rewrite Hx. cbn. by rewrite Hraw.
  - intros l' node Hl' Hne'. rewrite Hg2, decide_False by (done || naive_solver). apply Ho1; [done|by left].
Qed.

Lemma assign_levels_ok ps : forall mlp,
  mlp_ok mlp levels -> zlen ps <= levels -> zlen (partition mlp) = sentinel + 1 ->
  (forall i p, ps !z i = Some p -> zlen p = sentinel /\ perm_cells p perm < 2 ^ 32 /\
     forall c, 0 <= c <= perm_cells p perm -> in_word (level_width (level_data mlp) (i + 1)) c) ->
  exists mlp', assign_levels mlp (reverse ps) (zlen ps) perm sentinel = Some mlp' /\ mlp_ok mlp' levels /\
    level_data mlp' = level_data mlp /\ cell_to_children mlp' = cell_to_children mlp /\
    zlen (partition mlp') = zlen (partition mlp) /\
    (forall i p, ps !z i = Some p -> level_cells mlp' (i + 1) p perm sentinel) /\
    (forall l' node, zlen ps < l' <= levels -> GetCell mlp' l' node = GetCell mlp l' node).
Proof using Hnd Hne Hperm.
  induction ps as [|p ps IH] using rev_ind; intros mlp Hok Hlev Hlen Hps.
  { exists mlp. do 5 (split; [done|]). split; [|done]. intros i p Hi%zget_some. unfold zlen in Hi. simpl in Hi. lia. }
  pose proof (zlen_nonneg ps) as H0. rewrite zlen_snoc in Hlev. rewrite reverse_snoc, zlen_snoc. cbn [assign_levels].
  destruct (Hps (zlen ps) p) as (Hp & HF & Hfit).
  { rewrite zget_app_r by lia. by rewrite Z.sub_diag. }
  destruct (assign_level_ok mlp (zlen ps + 1) p) as (m1 & H1 & Hok1 & Hld1 & Hc1 & Hlen1 & Hg1 & Ho1);
    [done|lia|done|done|done|done|].
  step_opt H1. replace (zlen ps + 1 - 1) with (zlen ps) by lia.
  destruct (IH m1) as (m2 & H2 & Hok2 & Hld2 & Hc2 & Hlen2 & Hg2 & Ho2); [done|lia|lia| |].
  { intros i q Hi. pose proof (zget_some _ _ _ Hi). rewrite Hld1. apply Hps. by rewrite zget_app_l by lia. }
  exists m2. split; [done|]. split; [done|]. split; [congruence|]. split; [congruence|]. split; [congruence|]. split.
  - intros i q Hi. pose proof (zget_some _ _ _ Hi) as Hir. rewrite zlen_snoc in Hir.
    destruct (decide (i < zlen ps)); [apply Hg2; by rewrite zget_app_l in Hi by lia|].
    rewrite zget_app_r in Hi by lia. assert (i = zlen ps) as -> by lia. rewrite Z.sub_diag in Hi.
    injection Hi as <-. destruct Hg1 as [Hga Hgb].
    split; [intros k node Hk|]; rewrite Ho2 by lia; [by apply Hga|done].
  - intros l' node Hl'. rewrite Ho2 by lia. apply Ho1; lia.
Qed.
End assign.

(** ** Children *)

(** The child ids at which a new parent starts. *)
Fixpoint starts (vs cs : list Z) (last : Z) : list Z :=
  match vs, cs with
  | v :: vs, c :: cs => if negb (last =? v) then c :: starts vs cs v else starts vs cs last
  | _, _ => []
  end.

(** Child ids never shrink, and grow where the parent changes. *)
Fixpoint aligned (vs cs : list Z) (bound : Z) : Prop :=
  match vs, cs with
  | v :: vs, c :: cs =>
      c < bound /\ (forall k v' c', vs !! k = Some v' -> cs !! k = Some c' -> c <= c' /\ (v <> v' -> c < c')) /\
      aligned vs cs bound
  | _, _ => True
  end.

Lemma starts_head vs cs last bound c :
  (forall k v' c', vs !! k = Some v' -> cs !! k = Some c' -> last <> v' -> c < c') -> c < bound ->
  exists x, (starts vs cs last ++ [bound]) !z 0 = Some x /\ c < x.
Proof.
  revert cs. induction vs as [|v vs IH]; intros [|c' cs] H Hb; cbn [starts]; try by exists bound.
  destruct (Z.eqb_spec last v) as [->|Hne]; simpl.
  - apply IH; [|done]. intros k v' d Hv Hd. apply (H (S k)); done.
  - exists c'. split; [done|]. by apply (H 0%nat v).
Qed.

Lemma starts_interval vs cs last id bound k c pid :
  aligned vs cs bound -> cs !! k = Some c -> new_ids vs last id !! k = Some pid ->
  (id < pid -> exists b, (starts vs cs last ++ [bound]) !z (pid - id - 1) = Some b /\ b <= c) /\
  (exists e, (starts vs cs last ++ [bound]) !z (pid - id) = Some e /\ c < e).
Proof.
  revert cs last id k. induction vs as [|v vs IH]; intros [|c0 cs] last id k Ha Hc Hp; [done..|].
  destruct Ha as (Hb & Hlt & Ha).
  assert (exists x, (starts vs cs v ++ [bound]) !z 0 = Some x /\ c0 < x) as (x & Hx & Hcx).
  { apply starts_head; [|done]. intros k' v' c' Hv' Hc' Hne. by eapply Hlt. }
  cbn [starts new_ids] in *. unfold next_id in Hp.
  destruct (Z.eqb_spec last v) as [->|Hne]; simpl in *.
  - destruct k as [|k]; simpl in *; simplify_eq; [|by apply (IH cs v id k)].
    split; [lia|]. rewrite Z.sub_diag. eauto.
  - rewrite (zget_cons_S _ _ (pid - id)) by (destruct k; simpl in *; simplify_eq; [lia|]; apply new_ids_range in Hp; lia).
    destruct k as [|k]; simpl in *; simplify_eq.
    + replace (id + 1 - id - 1) with 0 by lia. split; [intros _; exists c; split; [done|lia]|eauto].
    + pose proof (new_ids_range _ _ _ _ _ Hp) as Hr.
      destruct (IH cs v (id + 1) k) as [Hlo Hhi]; [done|done|done|].
      replace (pid - id - 1) with (pid - (id + 1)) by lia. split; [|done]. intros _.
      destruct (decide (pid = id + 1)) as [->|Hgt].
      * rewrite Z.sub_diag. exists c0. split; [done|].
        destruct (lookup_lt_is_Some_2 vs k) as [v' Hv'].
        { apply lookup_lt_Some in Hp. by rewrite new_ids_len in Hp. }
        by apply (Hlt k v' c).
      * rewrite zget_cons_S by lia. apply Hlo. lia.
Qed.

Lemma starts_elem vs cs last x :
  x ∈ starts vs cs last -> exists k v, vs !! k = Some v /\ cs !! k = Some x.
Proof.
  revert cs last. induction vs as [|v vs IH]; intros [|c cs] last Hx; simpl in Hx; try by apply elem_of_nil in Hx.
  destruct (negb (last =? v)); [apply elem_of_cons in Hx as [->|Hx]; [by exists 0%nat, v|]|];
    destruct (IH _ _ Hx) as (k & w & ? & ?); by exists (S k), w.
Qed.

Lemma starts_sorted vs cs last bound :
  aligned vs cs bound -> StronglySorted Z.le (starts vs cs last ++ [bound]).
Proof.
  revert cs last. induction vs as [|v vs IH]; intros [|c cs] last Ha; simpl; try by repeat constructor.
  destruct Ha as (Hb & Hlt & Ha). destruct (negb (last =? v)); [|by apply IH].
  simpl. constructor; [by apply IH|]. rewrite Forall_forall. intros x Hx.
  apply elem_of_app in Hx as [(k & w & Hk & Hx)%starts_elem|Hx]; [by eapply Hlt|].
  apply list_elem_of_singleton in Hx as ->. lia.
Qed.

Lemma starts_length vs cs last : (length (starts vs cs last) <= length vs)%nat.
Proof.
  revert cs last. induction vs as [|v vs IH]; intros [|c cs] last; simpl; try lia.
  destruct (negb (last =? v)); simpl; [specialize (IH cs v)|specialize (IH cs last)]; lia.
Qed.

Lemma aligned_intro vs cs bound :
  (forall k c, cs !! k = Some c -> c < bound) ->
  (forall i j vi vj ci cj, (i <= j)%nat -> vs !! i = Some vi -> vs !! j = Some vj -> cs !! i = Some ci ->
     cs !! j = Some cj -> ci <= cj /\ (vi <> vj -> ci < cj)) ->
  aligned vs cs bound.
Proof.
  revert cs. induction vs as [|v vs IH]; intros [|c cs] Hb Hp; simpl; try done.
  split; [by apply (Hb 0%nat)|]. split.
  - intros k v' c' Hv Hc. apply (Hp 0%nat (S k) v v' c c'); [lia|done..].
  - apply IH; [intros k c' Hc; by apply (Hb (S k))|].
    intros i j vi vj ci cj Hij. apply (Hp (S i) (S j)). lia.
Qed.

(** The children list of a parent partition, with its sentinel. *)
Definition child_list (parent child perm : list Z) : list Z :=
  let cs := perm_ids child perm in
  default 0 (head cs) :: starts (raw parent <$> perm) cs (raw parent (default 0 (head perm)))
    ++ [default 0 (last cs) + 1].

Lemma collect_children_ok mlp level parent nodes cs last :
  length cs = length nodes ->
  (forall node, node ∈ nodes -> 0 <= node < zlen parent) ->
  (forall k node, nodes !! k = Some node -> GetCell mlp level node = cs !! k) ->
  collect_children mlp level parent nodes last = Some (starts (raw parent <$> nodes) cs last).
Proof.
  revert cs last. induction nodes as [|node nodes IH]; intros [|c cs] last Hl Hn Hg; try done.
  destruct (zget_is_some parent node) as [v Hv]; [apply Hn; by left|].
  assert (raw parent node = v) as Hraw by (unfold raw; by rewrite Hv).
  cbn [collect_children]. step_opt Hv. pose proof (Hg 0%nat node eq_refl) as H0. simpl in Hl.
  assert (forall l, collect_children mlp level parent nodes l = Some (starts (raw parent <$> nodes) cs l)) as Hr.
  { intros l. apply IH; [lia|intros n Hin; apply Hn; by right|intros k n Hk; by apply (Hg (S k))]. }
  cbn [fmap list_fmap starts]. rewrite Hraw. destruct (negb (last =? v)); [|done].
  cbn in H0. step_opt H0. by rewrite Hr.
Qed.

Definition same_cells (m m' : MultiLevelPartition) : Prop :=
  partition m' = partition m /\ lidx_to_offset (level_data m') = lidx_to_offset (level_data m) /\
  lidx_to_mask (level_data m') = lidx_to_mask (level_data m) /\
  bit_to_level (level_data m') = bit_to_level (level_data m) /\
  num_level (level_data m') = num_level (level_data m).

Lemma same_cells_GetCell m m' l node : same_cells m m' -> GetCell m' l node = GetCell m l node.
Proof. intros (H1 & H2 & H3 & _). unfold GetCell. by rewrite H1, H2, H3. Qed.

Lemma same_cells_trans m m' m'' : same_cells m m' -> same_cells m' m'' -> same_cells m m''.
Proof. unfold same_cells. intros (? & ? & ? & ? & ?) (? & ? & ? & ? & ?). repeat split; congruence. Qed.

Lemma same_cells_ok m m' levels : same_cells m m' -> mlp_ok m levels -> mlp_ok m' levels.
Proof.
  intros (H1 & H2 & H3 & H4 & H5) Hok. destruct (mlp_layout _ _ Hok).
  split; [apply (mlp_levels _ _ Hok)|split; rewrite ?H2, ?H3, ?H4; done|].
  intros node p Hp. unfold level_off. rewrite H2. rewrite H1 in Hp. by apply (mlp_words _ _ Hok node).
Qed.

Lemma perm_ids_len p perm : length (perm_ids p perm) = length perm.
Proof. unfold perm_ids. by rewrite new_ids_len, length_fmap. Qed.

Section children.
Context (n : Z) (perm : list Z) (ps : list (list Z)).
Context (Hne : perm <> []) (Hperm : forall node, node ∈ perm -> 0 <= node < n) (Hplen : zlen perm = n).
Context (Hps : forall i p, ps !z i = Some p -> zlen p = n /\ perm_cells p perm < 2 ^ 32) (Hlev : zlen ps <= 14).

(** One round of the loop appends the child list of one parent partition. *)
Lemma children_level_ok mlp idx child parent :
  0 <= idx -> ps !z idx = Some child -> zlen parent = n ->
  level_cells mlp (idx + 1) child perm n ->
  exists front back first_parent first_cell l last_cell,
    head perm = Some front /\ last perm = Some back /\ parent !z front = Some first_parent /\
    GetCell mlp (idx + 1) front = Some first_cell /\
    collect_children mlp (idx + 1) parent perm first_parent = Some l /\
    GetCell mlp (idx + 1) back = Some last_cell /\
    first_cell :: l ++ [wrap 32 (last_cell + 1)] = child_list parent child perm.
Proof using Hne Hperm Hplen Hps.
  intros Hi Hc Hp [Hcells _]. destruct (Hps _ _ Hc) as [_ HF].
  destruct (head perm) as [front|] eqn:Hf; [|by destruct perm].
  destruct (last perm) as [back|] eqn:Hb; [|by apply last_None in Hb].
  assert (perm !! 0%nat = Some front) as Hf0 by (by destruct perm).
  rewrite last_lookup in Hb.
  destruct (zget_is_some parent front) as [v Hv].
  { rewrite Hp. apply Hperm. by eapply list_elem_of_lookup_2. }
  destruct (lookup_lt_is_Some_2 (perm_ids child perm) 0) as [c0 Hc0];
    [rewrite perm_ids_len; by eapply lookup_lt_Some|].
  destruct (lookup_lt_is_Some_2 (perm_ids child perm) (pred (length perm))) as [cl Hcl];
    [rewrite perm_ids_len; by eapply lookup_lt_Some|].
  exists front, back, v, c0, (starts (raw parent <$> perm) (perm_ids child perm) v), cl.
  do 3 (split; [done|]). split; [by rewrite (Hcells _ _ Hf0)|]. split.
  { apply collect_children_ok; [by rewrite perm_ids_len| |done]. intros node Hin. rewrite Hp. by apply Hperm. }
  split; [by rewrite (Hcells _ _ Hb)|]. unfold child_list. rewrite last_lookup, perm_ids_len, Hcl, Hf. cbn.
  unfold raw at 3. rewrite Hv. cbn. rewrite head_lookup, Hc0. cbn.
  assert (0 <= cl <= perm_cells child perm - 1) as Hr.
  { unfold perm_ids in Hcl. apply new_ids_range in Hcl. unfold perm_cells. lia. }
  rewrite wrap_small by (split; lia). done.
Qed.

Lemma child_list_len parent child : zlen (child_list parent child perm) <= n + 2.
Proof using Hplen.
  unfold child_list. cbn. rewrite zlen_cons, zlen_snoc. rewrite <- Hplen. unfold zlen.
  pose proof (starts_length (raw parent <$> perm) (perm_ids child perm) (raw parent (default 0 (head perm)))) as H.
  rewrite length_fmap in H. lia.
Qed.

Lemma children_levels_ok parents : forall mlp idx,
  (forall i p, ps !z i = Some p -> level_cells mlp (i + 1) p perm n) ->
  (forall j p, parents !z j = Some p -> ps !z (idx + 1 + j) = Some p) ->
  0 <= idx -> idx + zlen parents < zlen ps -> zlen (lidx_to_children_offsets (level_data mlp)) = 15 ->
  zlen (cell_to_children mlp) + zlen parents * (n + 2) < 2 ^ 32 ->
  exists mlp', children_levels mlp parents idx perm = Some mlp' /\ same_cells mlp mlp' /\
    (forall m x, cell_to_children mlp !z m = Some x -> cell_to_children mlp' !z m = Some x) /\
    (forall i, i <= idx -> lidx_to_children_offsets (level_data mlp') !z i = lidx_to_children_offsets (level_data mlp) !z i) /\
    (forall j parent child, parents !z j = Some parent -> ps !z (idx + j) = Some child ->
       exists off, lidx_to_children_offsets (level_data mlp') !z (idx + 1 + j) = Some off /\ 0 <= off /\
         forall m x, child_list parent child perm !z m = Some x ->
           off + m < 2 ^ 32 /\ cell_to_children mlp' !z (off + m) = Some x).
Proof using Hne Hperm Hps Hlev Hplen.
  induction parents as [|parent parents IH]; intros mlp idx Hcells Hpar Hidx Hlen H15 Hsz.
  { exists mlp. split; [done|]. split; [done|]. split; [done|]. split; [done|].
    intros j ? ? Hj%zget_some. unfold zlen in Hj. simpl in Hj. lia. }
  rewrite zlen_cons in Hlen, Hsz. pose proof (zlen_nonneg parents) as H0. pose proof (zlen_nonneg perm) as Hn0.
  pose proof (zlen_nonneg (cell_to_children mlp)) as Hctc.
  destruct (zget_is_some ps idx) as [child Hchild]; [lia|].
  pose proof (Hpar 0 parent eq_refl) as Hparent. destruct (Hps _ _ Hparent) as [Hpl _].
  destruct (children_level_ok mlp idx child parent) as
    (front & back & fp & fc & l & lc & H1 & H2 & H3 & H4 & H5 & H6 & H7); [done|done|done|by apply Hcells|].
  cbn [children_levels].
  destruct (zset_some (lidx_to_children_offsets (level_data mlp)) (idx + 1) (wrap 32 (zlen (cell_to_children mlp))))
    as [offs Hoffs]; [lia|].
  step_opt Hoffs. step_opt H1. step_opt H2. step_opt H3. step_opt H4. step_opt H5. step_opt H6. rewrite H7.
  set (m1 := mkMultiLevelPartition _ _ _).
  assert (same_cells mlp m1) as Hs1 by done.
  pose proof (child_list_len parent child) as Hcl.
  rewrite wrap_small in Hoffs by (split; nia).
  destruct (IH m1 (idx + 1)) as (m2 & Hm2 & Hs2 & Hpre & Hoff & Hnew).
  - intros i p Hi. destruct (Hcells _ _ Hi) as [Ha Hb].
    split; [intros k node Hk|]; rewrite (same_cells_GetCell _ _ _ _ Hs1); [by apply Ha|done].
  - intros j p Hj. replace (idx + 1 + 1 + j) with (idx + 1 + (j + 1)) by lia. apply Hpar.
    pose proof (zget_some _ _ _ Hj). rewrite zget_cons_S by lia. by replace (j + 1 - 1) with j by lia.
  - lia.
  - lia.
  - unfold m1. cbn. by rewrite (zset_len _ _ _ _ Hoffs).
  - unfold m1. cbn. rewrite zlen_app. nia.
  - exists m2. split; [done|]. split; [by apply (same_cells_trans _ m1)|]. split; [|split].
    + intros m x Hm. apply Hpre. unfold m1. cbn. pose proof (zget_some _ _ _ Hm). by rewrite zget_app_l by lia.
    + intros i Hi. rewrite Hoff by lia. unfold m1. cbn. by rewrite (zset_get_ne _ _ _ _ _ Hoffs) by lia.
    + intros j q ch [[-> ->]|[Hj Hq]]%zget_cons_inv Hch.
      * rewrite Z.add_0_r in Hch. simplify_eq. exists (zlen (cell_to_children mlp)).
        rewrite Z.add_0_r, Hoff by lia. unfold m1 at 1. cbn. rewrite (zset_get_eq _ _ _ _ Hoffs).
        split; [done|]. split; [done|]. intros m x Hm. pose proof (zget_some _ _ _ Hm). split; [nia|].
        apply Hpre. unfold m1. cbn. rewrite zget_app_r by lia.
        by replace (zlen (cell_to_children mlp) + m - zlen (cell_to_children mlp)) with m by lia.
      * replace (idx + 1 + j) with (idx + 1 + 1 + (j - 1)) by lia. apply Hnew; [done|].
        by replace (idx + 1 + (j - 1)) with (idx + j) by lia.
Qed.
End children.

(** ** The whole constructor *)

(** Nested input partitions of the same [n] nodes, with enough room for the
    cells of every level. *)
Record input_ok (ps : list (list Z)) (nums : list Z) (n : Z) : Prop := {
  in_some : 0 < zlen ps;
  in_nodes : 0 < n;
  in_len i p : ps !z i = Some p -> zlen p = n;
  in_nested i p q a b : ps !z i = Some p -> ps !z (i + 1) = Some q -> 0 <= a < n -> 0 <= b < n ->
    raw p a = raw p b -> raw q a = raw q b;
  in_nums : zlen nums = zlen ps;
  in_counts : counts_ok nums;
  in_room i p m : ps !z i = Some p -> nums !z i = Some m -> distinct p <= m;
  in_size : zlen ps * (n + 2) < 2 ^ 32
}.

Section constructor.
Context (ps : list (list Z)) (nums : list Z) (n : Z) (Hin : input_ok ps nums n).

Definition order : list Z := sort_nodes ps (seqZ 0 n).

Lemma order_Permutation : order ≡ₚ seqZ 0 n.
Proof. apply sort_nodes_Permutation. Qed.

Lemma elem_of_order x : x ∈ order <-> 0 <= x < n.
Proof. rewrite order_Permutation, elem_of_seqZ. lia. Qed.

Lemma order_NoDup : NoDup order.
Proof. rewrite order_Permutation. apply NoDup_seqZ. Qed.

Lemma order_len : zlen order = n.
Proof using Hin.
  unfold zlen. rewrite order_Permutation, length_seqZ. pose proof (in_nodes _ _ _ Hin). lia.
Qed.

Lemma order_nonempty : order <> [].
Proof using Hin. intros E. pose proof order_len as H. rewrite E in H. pose proof (in_nodes _ _ _ Hin). unfold zlen in H. simpl in H. lia. Qed.

Lemma nested_above i j p q a b :
  ps !z i = Some p -> ps !z j = Some q -> i <= j -> 0 <= a < n -> 0 <= b < n ->
  raw p a = raw p b -> raw q a = raw q b.
Proof using Hin.
  intros Hp Hq Hij Ha Hb E. revert q Hq. pattern j. revert j Hij.
  apply (Zlt_lower_bound_ind _ i). intros j IH Hij q Hq.
  destruct (decide (i = j)) as [->|Hne]; [by simplify_eq|].
  pose proof (zget_some _ _ _ Hq). pose proof (zget_some _ _ _ Hp).
  destruct (zget_is_some ps (j - 1)) as [r Hr]; [lia|].
  apply (in_nested _ _ _ Hin (j - 1) r q); [done|by replace (j - 1 + 1) with j by lia|done|done|].
  apply (IH (j - 1)); [lia|done].
Qed.

Lemma order_grouped i p : ps !z i = Some p -> grouped (raw p (default 0 (head order))) (raw p <$> order).
Proof using Hin.
  intros Hp.
  assert (forall a b c, a ∈ order -> b ∈ order -> c ∈ order -> lexle (reverse ps) a b -> lexle (reverse ps) b c ->
    raw p a = raw p c -> raw p b = raw p a) as Hbtw.
  { intros a b c Ha%elem_of_order Hb%elem_of_order Hc%elem_of_order Hab Hbc E.
    pose proof (zget_some _ _ _ Hp) as Hi.
    assert (take (length ps - Z.to_nat i) (reverse ps) = reverse (drop (Z.to_nat i) ps)) as Ht
      by (rewrite take_reverse; do 2 f_equal; unfold zlen in Hi; lia).
    apply (lexle_between _ _ _ _ Hab Hbc (length ps - Z.to_nat i)); rewrite Ht.
    - intros q. rewrite elem_of_reverse. intros [k Hk]%list_elem_of_lookup. rewrite lookup_drop in Hk.
      eapply (nested_above i (i + Z.of_nat k) p q); [done| |lia|done|done|done].
      rewrite <- Hk, <- zget_nat. f_equal. lia.
    - rewrite elem_of_reverse. apply list_elem_of_lookup. exists 0%nat. rewrite lookup_drop, <- Hp, <- zget_nat.
      f_equal. lia. }
  pose proof (sort_nodes_sorted ps (seqZ 0 n)) as Hs. fold order in Hs. clear -Hbtw Hs.
  destruct order as [|x l]; [done|]. cbn. split; [done|]. revert x Hbtw Hs.
  induction l as [|y l IH]; intros x Hbtw Hs; cbn; [done|].
  apply StronglySorted_inv in Hs as [Hs Hx]. rewrite Forall_forall in Hx.
  pose proof (StronglySorted_inv Hs) as [_ Hy]. rewrite Forall_forall in Hy. split.
  - intros Hne Hel. apply list_elem_of_fmap in Hel as (z & Hz & Hzl). apply Hne.
    apply (Hbtw x y z); [by left|by right; left|by right; right|apply Hx; by left|by apply Hy|done].
  - apply IH; [|done]. intros a b c Ha Hb Hc. apply Hbtw; by right.
Qed.

Lemma raw_order_distinct i p : ps !z i = Some p -> perm_cells p order = distinct p.
Proof using Hin.
  intros Hp. unfold perm_cells. rewrite final_id_distinct by (by eapply order_grouped). rewrite Z.add_0_l.
  unfold distinct. do 2 f_equal. rewrite list_to_set_cons.
  assert (list_to_set (raw p <$> order) = (list_to_set p : gset Z)) as ->.
  { apply set_eq. intros v. rewrite !elem_of_list_to_set, list_elem_of_fmap. split.
    - intros (x & -> & Hx%elem_of_order). destruct (zget_is_some p x) as [v Hv];
        [by rewrite (in_len _ _ _ Hin _ _ Hp)|].
      unfold raw. rewrite Hv. by eapply zget_elem.
    - intros [x Hx]%elem_zget. exists x. unfold raw. rewrite Hx. split; [done|].
      apply elem_of_order. rewrite <- (in_len _ _ _ Hin _ _ Hp). by eapply zget_some. }
  apply (subseteq_union_1_L). apply singleton_subseteq_l, elem_of_list_to_set.
  assert (exists x, head order = Some x) as [x Hx].
  { pose proof order_nonempty as Hne. destruct order as [|x l]; [done|]. by exists x. }
  assert (x ∈ order) as Hxo%elem_of_order by (destruct order; simplify_eq/=; by left).
  rewrite Hx. cbn. destruct (zget_is_some p x) as [v Hv]; [by rewrite (in_len _ _ _ Hin _ _ Hp)|].
  unfold raw. rewrite Hv. by eapply zget_elem.
Qed.

Lemma zget_tail {A} (l : list A) j : 0 <= j -> tail l !z j = l !z (1 + j).
Proof.
  intros Hj. destruct l as [|a l]; [by rewrite !zget_none by (unfold zlen; simpl; lia)|].
  cbn [tail]. rewrite zget_cons_S by lia. f_equal. lia.
Qed.

(** The fresh partition of [InitializePartitionIDs]: all words are 0. *)
Lemma initial_ok ld levels : 0 <= levels -> layout ld levels ->
  mlp_ok (mkMultiLevelPartition ld (replicate (Z.to_nat (n + 1)) 0) []) levels.
Proof.
  intros H0 HL. split; [done|done|]. cbn. intros node w Hw%zget_elem.
  apply elem_of_replicate in Hw as [-> _].
  pose proof (level_off_range _ _ HL (levels + 1) ltac:(lia) ltac:(lia)).
  split; [lia|]. apply Z.pow_pos_nonneg; lia.
Qed.

Lemma constructor_ok :
  exists mlp, MultiLevelPartition_new ps nums = Some (Some mlp) /\ mlp_ok mlp (zlen ps) /\
    zlen (partition mlp) = n + 1 /\
    (forall i p, ps !z i = Some p -> level_cells mlp (i + 1) p order n) /\
    (forall j parent child, ps !z (1 + j) = Some parent -> ps !z j = Some child ->
       exists off, lidx_to_children_offsets (level_data mlp) !z (1 + j) = Some off /\ 0 <= off /\
         forall m x, child_list parent child order !z m = Some x ->
           off + m < 2 ^ 32 /\ cell_to_children mlp !z (off + m) = Some x).
Proof using Hin.
  pose proof (in_some _ _ _ Hin) as H0. pose proof (in_nodes _ _ _ Hin) as Hn.
  pose proof (in_nums _ _ _ Hin) as Hnums. pose proof (in_size _ _ _ Hin) as Hsz.
  destruct (MakeLevelData_layout nums (in_counts _ _ _ Hin)) as (ld & Hld & HL & Hch & Hw).
  rewrite Hnums in HL. unfold MultiLevelPartition_new. step_opt Hld.
  assert (exists front, head ps = Some front) as [front Hf].
  { destruct ps as [|x l]; [unfold zlen in H0; simpl in H0; lia|by exists x]. }
  assert (ps !z 0 = Some front) as Hf0 by (by destruct ps).
  unfold InitializePartitionIDs. rewrite Hf. cbn [mbind option_bind].
  rewrite (in_len _ _ _ Hin _ _ Hf0). fold order.
  assert (forall i p, ps !z i = Some p -> zlen p = n /\ perm_cells p order < 2 ^ 32 /\
    forall c, 0 <= c <= perm_cells p order -> in_word (level_width ld (i + 1)) c) as Hps.
  { intros i p Hp. split; [by apply (in_len _ _ _ Hin _ _ Hp)|]. rewrite (raw_order_distinct _ _ Hp).
    destruct (zget_is_some nums i) as [m Hm]; [pose proof (zget_some _ _ _ Hp); lia|].
    pose proof (in_room _ _ _ Hin _ _ _ Hp Hm). destruct (in_counts _ _ _ Hin) as (_ & _ & HF).
    rewrite Forall_forall in HF. specialize (HF m (zget_elem _ _ _ Hm)).
    split; [unfold UINT32_MAX in HF; lia|]. intros c Hc.
    rewrite (Hw (i + 1) m) by (by replace (i + 1 - 1) with i by lia). apply cell_bits_fit; [done|lia]. }
  destruct (assign_levels_ok (zlen ps) n order order_NoDup order_nonempty
    (fun x => proj1 (elem_of_order x)) ps (mkMultiLevelPartition ld (replicate (Z.to_nat (n + 1)) 0) []))
    as (m1 & H1 & Hok1 & Hld1 & Hc1 & Hlen1 & Hcells & _).
  { apply initial_ok; [lia|done]. }
  { lia. }
  { cbn. unfold zlen. rewrite length_replicate. lia. }
  { done. }
  step_opt H1. cbn in Hld1, Hc1, Hlen1.
  destruct (zset_some (lidx_to_children_offsets (level_data m1)) 0 0) as [offs Hoffs].
  { rewrite Hld1, Hch. done. }
  step_opt Hoffs. set (m2 := mkMultiLevelPartition _ _ _).
  assert (same_cells m1 m2) as Hs2 by done.
  assert (zlen (tail ps) = zlen ps - 1) as Htl.
  { destruct ps; [unfold zlen in H0; simpl in H0; lia|]. rewrite zlen_cons. cbn. lia. }
  destruct (children_levels_ok n order ps order_nonempty (fun x => proj1 (elem_of_order x)) order_len
    (fun i p Hp => conj (proj1 (Hps i p Hp)) (proj1 (proj2 (Hps i p Hp)))))
    with (parents := tail ps) (mlp := m2) (idx := 0) as (m3 & H3 & Hs3 & _ & _ & Hnew).
  { rewrite <- Hnums. apply (in_counts _ _ _ Hin). }
  { intros i p Hp. destruct (Hcells _ _ Hp) as [Ha Hb].
    split; [intros k node Hk|]; rewrite (same_cells_GetCell _ _ _ _ Hs2); [by apply Ha|done]. }
  { intros j p Hj. pose proof (zget_some _ _ _ Hj). rewrite zget_tail in Hj by lia. done. }
  { done. }
  { lia. }
  { unfold m2. cbn. rewrite (zset_len _ _ _ _ Hoffs), Hld1, Hch. done. }
  { unfold m2. cbn. rewrite Hc1. unfold zlen at 1. simpl. nia. }
  rewrite H3. cbn. exists m3. pose proof (same_cells_trans _ _ _ Hs2 Hs3) as Hs.
  split; [done|]. split; [by eapply same_cells_ok|]. split; [|split].
  - destruct Hs as [-> _]. rewrite Hlen1. unfold zlen. rewrite length_replicate. lia.
  - intros i p Hp. destruct (Hcells _ _ Hp) as [Ha Hb].
    split; [intros k node Hk|]; rewrite (same_cells_GetCell _ _ _ _ Hs); [by apply Ha|done].
  - intros j parent child Hp Hc. pose proof (zget_some _ _ _ Hc). apply Hnew; [|done].
    by rewrite zget_tail by lia.
Qed.
Lemma order_index a : 0 <= a < n -> exists k, order !! k = Some a.
Proof. intros Ha. apply list_elem_of_lookup. by apply elem_of_order. Qed.

(** The cell of the node at position [k] of the order. *)
Lemma level_cells_at mlp l p k a :
  level_cells mlp l p order n -> order !! k = Some a ->
  exists c, GetCell mlp l a = Some c /\ perm_ids p order !! k = Some c /\
    (raw p <$> order) !! k = Some (raw p a) /\ 0 <= c < perm_cells p order.
Proof.
  intros [Hl _] Hk. rewrite (Hl _ _ Hk).
  destruct (lookup_lt_is_Some_2 (perm_ids p order) k) as [c Hc];
    [rewrite perm_ids_len; by eapply lookup_lt_Some|].
  exists c. split; [done|]. split; [done|]. split; [by rewrite list_lookup_fmap, Hk|].
  unfold perm_ids in Hc. apply new_ids_range in Hc. unfold perm_cells. lia.
Qed.

(** Along the order cells grow, and they change exactly where the raw cells do. *)
Lemma level_cells_pair mlp l i p a b k k' ca cb :
  level_cells mlp l p order n -> ps !z i = Some p ->
  order !! k = Some a -> order !! k' = Some b -> (k <= k')%nat ->
  GetCell mlp l a = Some ca -> GetCell mlp l b = Some cb -> ca <= cb /\ (ca = cb <-> raw p a = raw p b).
Proof using Hin.
  intros Hl Hp Hk Hk' Hkk Ha Hb.
  destruct (level_cells_at _ _ _ _ _ Hl Hk) as (c & Hc & Hi & Hv & _).
  destruct (level_cells_at _ _ _ _ _ Hl Hk') as (c' & Hc' & Hi' & Hv' & _). simplify_eq.
  eapply new_ids_pair; [by eapply order_grouped|exact Hv|exact Hv'|exact Hi|exact Hi'|done].
Qed.

Lemma level_cells_iff mlp l i p a b :
  level_cells mlp l p order n -> ps !z i = Some p -> 0 <= a < n -> 0 <= b < n ->
  exists ca cb, GetCell mlp l a = Some ca /\ GetCell mlp l b = Some cb /\
    0 <= ca < distinct p /\ (ca = cb <-> raw p a = raw p b).
Proof using Hin.
  intros Hl Hp Ha Hb. destruct (order_index a Ha) as [k Hk]. destruct (order_index b Hb) as [k' Hk'].
  destruct (level_cells_at _ _ _ _ _ Hl Hk) as (ca & Hca & _ & _ & Hra).
  destruct (level_cells_at _ _ _ _ _ Hl Hk') as (cb & Hcb & _ & _ & Hrb).
  exists ca, cb. split; [done|]. split; [done|]. split; [by rewrite <- (raw_order_distinct _ _ Hp)|].
  destruct (decide (k <= k')%nat).
  - by eapply (level_cells_pair mlp l i p a b k k').
  - destruct (level_cells_pair mlp l i p b a k' k cb ca) as [_ H]; [done|done|done|done|lia|done|done|].
    split; intros E; symmetry; apply H; done.
Qed.

Section child_lists.
Context (mlp : MultiLevelPartition) (i : Z) (child parent : list Z).
Context (Hc : level_cells mlp (i + 1) child order n) (Hpa : level_cells mlp (i + 2) parent order n).
Context (Hchild : ps !z i = Some child) (Hparent : ps !z (i + 1) = Some parent).

Lemma child_ids_mono j j' cj cj' v v' :
  (j <= j')%nat -> (raw parent <$> order) !! j = Some v -> (raw parent <$> order) !! j' = Some v' ->
  perm_ids child order !! j = Some cj -> perm_ids child order !! j' = Some cj' ->
  cj <= cj' /\ (v <> v' -> cj < cj').
Proof using Hin Hc Hchild Hparent.
  intros Hj Hv Hv' Hcj Hcj'. rewrite list_lookup_fmap in Hv, Hv'.
  destruct (order !! j) as [x|] eqn:Hx; [|done]. destruct (order !! j') as [y|] eqn:Hy; [|done].
  injection Hv as <-. injection Hv' as <-.
  assert (0 <= x < n) by (apply elem_of_order; by eapply list_elem_of_lookup_2).
  assert (0 <= y < n) by (apply elem_of_order; by eapply list_elem_of_lookup_2).
  destruct (level_cells_pair mlp (i + 1) i child x y j j' cj cj') as [Hle Hiff];
    [done|done|done|done|done|by rewrite (proj1 Hc _ _ Hx)|by rewrite (proj1 Hc _ _ Hy)|].
  split; [done|]. intros Hne. destruct (decide (cj = cj')) as [E|]; [|lia]. exfalso. apply Hne.
  apply (in_nested _ _ _ Hin i child parent); [done..|]. by apply Hiff.
Qed.

Lemma parent_cell_at k c : perm_ids child order !! k = Some c -> exists v, (raw parent <$> order) !! k = Some v.
Proof.
  intros H%lookup_lt_Some. rewrite perm_ids_len in H. apply lookup_lt_is_Some_2. by rewrite length_fmap.
Qed.

(** The first and the last child id. *)
Lemma child_ids_ends : exists f l, head (perm_ids child order) = Some f /\ last (perm_ids child order) = Some l /\
  forall k c, perm_ids child order !! k = Some c -> f <= c <= l.
Proof using Hin Hc Hchild Hparent.
  assert (perm_ids child order <> []) as Hne.
  { intros E%(f_equal length). rewrite perm_ids_len in E. apply order_nonempty. by apply nil_length_inv. }
  destruct (head (perm_ids child order)) as [f|] eqn:Hf; [|by apply head_None in Hf].
  destruct (last (perm_ids child order)) as [l|] eqn:Hl; [|by apply last_None in Hl].
  exists f, l. split; [done|]. split; [done|]. intros k c Hk. rewrite head_lookup in Hf. rewrite last_lookup in Hl.
  destruct (parent_cell_at _ _ Hk) as [v Hv]. destruct (parent_cell_at _ _ Hf) as [vf Hvf].
  destruct (parent_cell_at _ _ Hl) as [vl Hvl]. pose proof (lookup_lt_Some _ _ _ Hk).
  destruct (child_ids_mono 0 k f c vf v) as [? _]; [lia|done..|].
  destruct (child_ids_mono k (pred (length (perm_ids child order))) c l v vl) as [? _]; [lia|done..|]. done.
Qed.

Lemma child_ids_aligned l : last (perm_ids child order) = Some l ->
  aligned (raw parent <$> order) (perm_ids child order) (l + 1).
Proof using Hin Hc Hchild Hparent.
  intros Hl. destruct child_ids_ends as (f & l' & _ & Hl' & Hr). simplify_eq.
  apply aligned_intro; [|intros; by eapply child_ids_mono]. intros k c Hk. specialize (Hr k c Hk). lia.
Qed.

Lemma child_list_sorted : StronglySorted Z.le (child_list parent child order).
Proof using Hin Hc Hchild Hparent.
  destruct child_ids_ends as (f & l & Hf & Hl & Hr). unfold child_list. rewrite Hf, Hl. cbn [default].
  constructor; [apply starts_sorted; by apply child_ids_aligned|]. rewrite Forall_forall. intros x Hx.
  apply elem_of_app in Hx as [(k & v & _ & Hk)%starts_elem|Hx].
  - cbn. apply Hr in Hk. lia.
  - apply list_elem_of_singleton in Hx as ->. rewrite head_lookup in Hf. apply Hr in Hf. cbn. lia.
Qed.

(** The child ids of a parent cell lie between two entries of its child list. *)
Lemma child_list_interval a ca ka :
  0 <= a < n -> GetCell mlp (i + 2) a = Some ca -> GetCell mlp (i + 1) a = Some ka ->
  exists b e, child_list parent child order !z ca = Some b /\ child_list parent child order !z (ca + 1) = Some e /\
    b <= ka < e.
Proof using Hin Hc Hpa Hchild Hparent.
  intros Ha Hca Hka. destruct (order_index a Ha) as [k Hk].
  destruct (level_cells_at _ _ _ _ _ Hc Hk) as (c & Hc1 & Hci & _ & Hcr).
  destruct (level_cells_at _ _ _ _ _ Hpa Hk) as (pc & Hp1 & Hpi & _ & Hpr). simplify_eq.
  destruct child_ids_ends as (f & l & Hf & Hl & Hr).
  destruct (starts_interval _ _ _ _ _ _ _ _ (child_ids_aligned l Hl) Hci Hpi) as [Hlo (e & He & Hlt)].
  rewrite Z.sub_0_r in *. unfold child_list. rewrite Hl, Hf. cbn [default].
  rewrite (zget_cons_S _ _ (ca + 1)) by lia. replace (ca + 1 - 1) with ca by lia.
  destruct (decide (ca = 0)) as [->|Hnz].
  - exists f, e. apply Hr in Hci. split; [done|]. split; [done|]. lia.
  - destruct Hlo as (b & Hb & Hle); [lia|]. exists b, e. rewrite zget_cons_S by lia. done.
Qed.

Lemma child_list_iff a ca b e w cw kw :
  0 <= a < n -> GetCell mlp (i + 2) a = Some ca ->
  child_list parent child order !z ca = Some b -> child_list parent child order !z (ca + 1) = Some e ->
  0 <= w < n -> GetCell mlp (i + 2) w = Some cw -> GetCell mlp (i + 1) w = Some kw ->
  (b <= kw < e <-> cw = ca).
Proof using Hin Hc Hpa Hchild Hparent.
  intros Ha Hca Hb He Hw Hcw Hkw.
  destruct (child_list_interval _ _ _ Hw Hcw Hkw) as (b' & e' & Hb' & He' & Hr).
  assert (forall m m' x y, child_list parent child order !z m = Some x ->
    child_list parent child order !z m' = Some y -> m <= m' -> x <= y) as Hmono.
  { intros m m' x y Hx Hy Hm. destruct (decide (m = m')) as [->|Hne]; [simplify_eq; lia|].
    pose proof (zget_some _ _ _ Hx). pose proof (zget_some _ _ _ Hy). unfold zget in Hx, Hy.
    destruct (Z.leb_spec 0 m), (Z.leb_spec 0 m'); try lia.
    eapply (StronglySorted_lookup _ _ _ _ _ _ child_list_sorted Hx Hy). lia. }
  split; [|intros ->; by simplify_eq]. intros Hi. destruct (decide (cw < ca)).
  { pose proof (Hmono (cw + 1) ca e' b He' Hb ltac:(lia)). lia. }
  destruct (decide (ca < cw)); [|lia]. pose proof (Hmono (ca + 1) cw e b' He Hb' ltac:(lia)). lia.
Qed.
End child_lists.
End constructor.

Lemma constructor_nested ps nums n mlp :
  input_ok ps nums n -> zlen (partition mlp) = n + 1 ->
  (forall i p, ps !z i = Some p -> level_cells mlp (i + 1) p (order ps n) n) -> nested_cells mlp (zlen ps).
Proof.
  intros Hin Hlen Hcells l a b H1 H2 Ha Hb E. unfold is_node in Ha, Hb.
  destruct (zget_is_some ps (l - 1)) as [p Hp]; [lia|]. destruct (zget_is_some ps l) as [q Hq]; [lia|].
  pose proof (Hcells _ _ Hp) as Hlp. replace (l - 1 + 1) with l in Hlp by lia. pose proof (Hcells _ _ Hq) as Hlq.
  destruct (level_cells_iff ps nums n Hin mlp l _ p a b Hlp Hp ltac:(lia) ltac:(lia)) as (ca & cb & Hca & Hcb & _ & Hiff).
  destruct (level_cells_iff ps nums n Hin mlp (l + 1) _ q a b Hlq Hq ltac:(lia) ltac:(lia)) as (da & db & Hda & Hdb & _ & Hiff').
  rewrite Hda, Hdb. f_equal. apply Hiff'. apply (in_nested _ _ _ Hin (l - 1) p q); [done| |lia|lia|].
  - by replace (l - 1 + 1) with l by lia.
  - apply Hiff. congruence.
Qed.

Lemma constructor_cells ps nums n :
  input_ok ps nums n ->
  exists mlp, MultiLevelPartition_new ps nums = Some (Some mlp) /\ mlp_ok mlp (zlen ps) /\
    nested_cells mlp (zlen ps) /\ zlen (partition mlp) = n + 1 /\
    forall l p, ps !z (l - 1) = Some p -> GetNumberOfCells mlp l = Some (distinct p) /\
      forall a b, 0 <= a < n -> 0 <= b < n ->
        exists ca cb, GetCell mlp l a = Some ca /\ GetCell mlp l b = Some cb /\
          0 <= ca < distinct p /\ (ca = cb <-> raw p a = raw p b).
Proof.
  intros Hin. destruct (constructor_ok ps nums n Hin) as (mlp & H & Hok & Hlen & Hcells & _).
  exists mlp. split; [done|]. split; [done|]. split; [by eapply constructor_nested|]. split; [done|].
  intros l p Hp. pose proof (Hcells _ _ Hp) as Hl. replace (l - 1 + 1) with l in Hl by lia. split.
  - unfold GetNumberOfCells, GetSentinelNode. rewrite Hlen. pose proof (in_size _ _ _ Hin).
    pose proof (in_some _ _ _ Hin). pose proof (in_nodes _ _ _ Hin).
    rewrite wrap_small by (split; nia). replace (n + 1 - 1) with n by lia.
    rewrite (proj2 Hl). f_equal. by eapply raw_order_distinct.
  - intros a b. by eapply level_cells_iff.
Qed.

(** The number of levels that the layout was computed for. *)
Lemma assign_cells_num mlp level p vs last id mlp' r : assign_cells mlp level p vs last id = Some (mlp', r) ->
  level_data mlp' = level_data mlp.
Proof.
  revert mlp last id. induction vs as [|v vs IH]; intros mlp last id H; simpl in H; inv_opt; [congruence|].
  apply IH in H. rewrite H. unfold SetCellID in *. by inv_opt.
Qed.

Lemma assign_levels_num ps mlp level perm sentinel mlp' : assign_levels mlp ps level perm sentinel = Some mlp' ->
  level_data mlp' = level_data mlp.
Proof.
  revert mlp level. induction ps as [|p ps IH]; intros mlp level H; simpl in H; [by inv_opt|]. inv_opt. apply IH in H. rewrite H.
  unfold assign_level in *. inv_opt. destruct r2 as [m last]. unfold SetCellID in *. inv_opt. simpl. by eapply assign_cells_num.
Qed.

Lemma children_levels_num parents mlp idx perm mlp' : children_levels mlp parents idx perm = Some mlp' ->
  num_level (level_data mlp') = num_level (level_data mlp).
Proof.
  revert mlp idx. induction parents as [|p parents IH]; intros mlp idx H; simpl in H; [by inv_opt|]. inv_opt. by apply IH in H.
Qed.

Lemma constructor_num_levels ps nums n mlp : input_ok ps nums n -> MultiLevelPartition_new ps nums = Some (Some mlp) ->
  GetNumberOfLevels mlp = zlen ps + 1.
Proof.
  intros Hin H. destruct (in_counts _ _ _ Hin) as (Hle & _). pose proof (in_nums _ _ _ Hin). pose proof (zlen_nonneg ps).
  assert (num_level (level_data mlp) = wrap 32 (zlen nums + 1)) as E; [|unfold GetNumberOfLevels; rewrite E, (wrap_small 32), (wrap_small 8); unfold in_word; lia].
  unfold MultiLevelPartition_new, MakeLevelData in H. inv_opt. destruct r0 as [r0|]; simpl in H; inv_opt.
  unfold InitializePartitionIDs in *. inv_opt. apply children_levels_num in Hr. simpl in Hr. rewrite Hr.
  match goal with H : assign_levels _ _ _ _ _ = Some _ |- _ => by rewrite (assign_levels_num _ _ _ _ _ _ H) end.
Qed.

(** C14: the constructor of MultiLevelPartition, on nested input partitions
    whose cells fit 64 bits, succeeds; the packed words are valid, cells are
    nested, every level has as many cells as its input partition, numbered
    from 0, and two nodes share a cell exactly when the input says so. *)
Theorem partition_cells ps nums n :
  input_ok ps nums n ->
  exists mlp, MultiLevelPartition_new ps nums = Some (Some mlp) /\ mlp_ok mlp (zlen ps) /\
    nested_cells mlp (zlen ps) /\ zlen (partition mlp) = n + 1 /\
    forall l p, ps !z (l - 1) = Some p -> GetNumberOfCells mlp l = Some (distinct p) /\
      forall a b, 0 <= a < n -> 0 <= b < n ->
        exists ca cb, GetCell mlp l a = Some ca /\ GetCell mlp l b = Some cb /\
          0 <= ca < distinct p /\ (ca = cb <-> raw p a = raw p b).
Proof. apply constructor_cells. Qed.

(** BeginChildren and EndChildren of a cell at level l delimit exactly the
    cells of level l - 1 inside it: a node lies in the cell if and only if its
    cell one level below lies in the interval. *)
Theorem partition_children ps nums n :
  input_ok ps nums n ->
  exists mlp, MultiLevelPartition_new ps nums = Some (Some mlp) /\
    forall l a ca, 2 <= l <= zlen ps -> 0 <= a < n -> GetCell mlp l a = Some ca ->
      exists b e, BeginChildren mlp l ca = Some b /\ EndChildren mlp l ca = Some e /\ b < e /\
        forall w kw, 0 <= w < n -> GetCell mlp (l - 1) w = Some kw -> (b <= kw < e <-> GetCell mlp l w = Some ca).
Proof.
  intros Hin. destruct (constructor_ok ps nums n Hin) as (mlp & H & Hok & Hlen & Hcells & Hch).
  exists mlp. split; [done|]. intros l a ca Hl Ha Hca.
  destruct (zget_is_some ps (l - 2)) as [child Hchild]; [lia|].
  destruct (zget_is_some ps (l - 2 + 1)) as [parent Hparent]; [lia|].
  pose proof (Hcells _ _ Hchild) as Hlc. pose proof (Hcells _ _ Hparent) as Hlp.
  replace (l - 2 + 1 + 1) with (l - 2 + 2) in Hlp by lia.
  replace (l - 1) with (l - 2 + 1) by lia. replace l with (l - 2 + 2) in Hca by lia.
  destruct (Hch (l - 2) parent child) as (off & Hoff & Hoff0 & Hlist);
    [by replace (1 + (l - 2)) with (l - 2 + 1) by lia|done|].
  destruct (level_cells_iff ps nums n Hin mlp _ _ child a a Hlc Hchild Ha Ha) as (ka & _ & Hka & _).
  destruct (level_cells_iff ps nums n Hin mlp _ _ parent a a Hlp Hparent Ha Ha) as (ca' & _ & Hca' & _ & Hcr & _).
  assert (ca' = ca) as -> by congruence.
  destruct (child_list_interval ps nums n Hin mlp (l - 2) child parent Hlc Hlp Hchild Hparent a ca ka Ha Hca Hka)
    as (b & e & Hb & He & Hbe).
  destruct (Hlist _ _ Hb) as [Hs1 Hg1]. destruct (Hlist _ _ He) as [Hs2 Hg2].
  exists b, e. unfold BeginChildren, EndChildren, LevelIDToIndex. replace (l - 1) with (1 + (l - 2)) by lia.
  step_opt Hoff. rewrite !wrap_small by (split; lia). rewrite Hg1, <- Z.add_assoc, Hg2.
  split; [done|]. split; [done|]. split; [lia|]. intros w kw Hw Hkw.
  destruct (level_cells_iff ps nums n Hin mlp _ _ parent w w Hlp Hparent Hw Hw) as (cw & _ & Hcw & _).
  rewrite (child_list_iff ps nums n Hin mlp (l - 2) child parent Hlc Hlp Hchild Hparent a ca b e w cw kw) by done.
  replace l with (l - 2 + 2) by lia. rewrite Hcw. split; [by intros ->|by intros [= ->]].
Qed.

(** ** Witnesses *)

Definition example_partitions : list (list Z) := [[2; 1; 3; 4; 3; 4]; [2; 2; 0; 1; 0; 1]].

Lemma below_6 a : 0 <= a < 6 -> a = 0 \/ a = 1 \/ a = 2 \/ a = 3 \/ a = 4 \/ a = 5.
Proof. lia. Qed.

Lemma example_input_ok : input_ok example_partitions [4; 3] 6.
Proof.
  assert (forall i p, example_partitions !z i = Some p ->
    (i = 0 /\ p = [2; 1; 3; 4; 3; 4]) \/ (i = 1 /\ p = [2; 2; 0; 1; 0; 1])) as Hget.
  { intros i p Hp. pose proof (zget_some _ _ _ Hp) as Hr. change (zlen example_partitions) with 2 in Hr.
    assert (i = 0 \/ i = 1) as [->| ->] by lia; injection Hp as <-; auto. }
  split.
  - by vm_compute.
  - lia.
  - intros i p Hp. by destruct (Hget _ _ Hp) as [[-> ->]|[-> ->]].
  - intros i p q a b Hp Hq Ha Hb.
    destruct (Hget _ _ Hp) as [[-> ->]|[-> ->]], (Hget _ _ Hq) as [[? ->]|[? ->]]; try lia.
    destruct (below_6 a Ha) as [->|[->|[->|[->|[->| ->]]]]], (below_6 b Hb) as [->|[->|[->|[->|[->| ->]]]]];
      vm_compute; congruence.
  - done.
  - split; [by vm_compute|]. split; [by vm_compute|]. repeat constructor; unfold UINT32_MAX; lia.
  - intros i p m Hp Hm. destruct (Hget _ _ Hp) as [[-> ->]|[-> ->]]; injection Hm as <-; by vm_compute.
  - by vm_compute.
Qed.

Lemma partition_cells_witness :
  exists mlp, MultiLevelPartition_new example_partitions [4; 3] = Some (Some mlp) /\ mlp_ok mlp 2.
Proof.
  destruct (partition_cells example_partitions [4; 3] 6 example_input_ok) as (mlp & H & Hok & _).
  exists mlp. exact (conj H Hok).
Defined.

Lemma partition_children_witness :
  exists mlp, MultiLevelPartition_new example_partitions [4; 3] = Some (Some mlp) /\
    forall w kw, 0 <= w < 6 -> GetCell mlp 1 w = Some kw -> (2 <= kw < 4 <-> GetCell mlp 2 w = Some 2).
Proof.
  destruct (partition_children example_partitions [4; 3] 6 example_input_ok) as (mlp & H & Hch).
  exists mlp. split; [exact H|]. vm_compute in H. injection H as <-.
  destruct (Hch 2 0 2 ltac:(by vm_compute) ltac:(lia) eq_refl) as (b & e & Hb & He & _ & Hiff).
  injection Hb as <-. injection He as <-. exact Hiff.
Defined.

Lemma example_mlp : exists mlp, MultiLevelPartition_new example_partitions [4; 3] = Some (Some mlp) /\
  mlp_ok mlp 2 /\ nested_cells mlp 2 /\ zlen (partition mlp) = 7.
Proof.
  destruct (constructor_ok example_partitions [4; 3] 6 example_input_ok) as (mlp & H & Hok & Hlen & Hcells & _).
  exists mlp. split; [exact H|]. split; [exact Hok|]. split; [|exact Hlen].
  exact (constructor_nested _ _ _ _ example_input_ok Hlen Hcells).
Qed.

Lemma set_cell_roundtrip_witness :
  exists mlp mlp', MultiLevelPartition_new example_partitions [4; 3] = Some (Some mlp) /\
    SetCellID mlp 2 3 2 = Some mlp' /\ GetCell mlp' 2 3 = Some 2 /\ GetCell mlp' 1 3 = GetCell mlp 1 3.
Proof.
  destruct example_mlp as (mlp & H & Hok & _ & Hlen).
  destruct (set_cell_roundtrip mlp 2 2 3 2 Hok ltac:(lia) ltac:(lia)) as (mlp' & H' & _ & _ & _ & _ & Hget).
  { vm_compute in H. injection H as <-. by vm_compute. }
  exists mlp, mlp'. split; [exact H|]. split; [exact H'|]. rewrite !Hget by lia. split; reflexivity.
Defined.

Lemma query_level_witness :
  exists mlp, MultiLevelPartition_new example_partitions [4; 3] = Some (Some mlp) /\
    GetQueryLevel mlp 0 1 2 = Some 2 /\ GetCell mlp 2 0 <> GetCell mlp 2 2.
Proof.
  destruct example_mlp as (mlp & H & Hok & Hn & Hlen).
  destruct (query_level mlp 2 0 1 2 Hok Hn) as (L & HL & _ & Hd & _); [unfold is_node; lia..|].
  exists mlp. split; [exact H|]. vm_compute in H. injection H as <-. vm_compute in HL. injection HL as <-.
  split; [done|]. by apply Hd.
Defined.
