(* ===== verification/Classes.v ===== *)
(** * Classes of roads and what a request may exclude

    Model of include/extractor/class_data.hpp, of the parts of
    include/extractor/profile_properties.hpp and src/extractor/extractor.cpp that
    number the classes and the combinations that can be excluded, of
    include/util/exclude_flag.hpp, which turns each combination into a filter of
    nodes (one metric per filter), and of include/engine/datafacade_factory.hpp,
    which picks the metric for a request.  Names are lists of bytes. *)
From S2P Require Import Prelude MultiLevelPartition.

(** ** Outcomes *)

(** A result, an exception with its text, or undefined behaviour. *)
Inductive outcome (A : Type) : Type :=
| Done (a : A)
| Throws (message : list Z)
| Undefined.
Arguments Done {A} a.
Arguments Throws {A} message.
Arguments Undefined {A}.

Definition outcome_bind {A B} (f : A -> outcome B) (o : outcome A) : outcome B :=
  match o with Done a => f a | Throws m => Throws m | Undefined => Undefined end.
#[export] Instance outcome_mbind : MBind outcome := @outcome_bind.

(** Access outside of an array is undefined. *)
Definition or_undefined {A} (o : option A) : outcome A := match o with Some a => Done a | None => Undefined end.

(** ** Classes *)

Definition INAVLID_CLASS_DATA : Z := 255.
Definition MAX_CLASS_INDEX : Z := 7.
Definition MAX_EXCLUDABLE_CLASSES : Z := 8.
Definition MAX_CLASS_NAME_LENGTH : Z := 255.

Definition isSubset (lhs rhs : Z) : bool := Z.land lhs rhs =? lhs.

(** The bit of a class, stored in a [ClassData]. *)
Definition getClassData (index : Z) : Z := wrap 8 (Z.shiftl 1 index).

(** [std::isalnum] of the C locale. *)
Definition isalnum (c : Z) : bool := ((48 <=? c) && (c <=? 57)) || ((65 <=? c) && (c <=? 90)) || ((97 <=? c) && (c <=? 122)).

Definition isValidClassName (name : list Z) : bool := forallb isalnum name.

(** The masks of the classes met so far; [std::unordered_map]. *)
Abbreviation ClassesMap := (gmap (list Z) Z).

(** [classStringToMask] of the extractor's callbacks: a new class takes the next bit. *)
Definition classStringToMask (classes_map : ClassesMap) (class_name : list Z) : outcome (Z * ClassesMap) :=
  match classes_map !! class_name with
  | Some mask => Done (mask, classes_map)
  | None =>
      if MAX_CLASS_INDEX <? Z.of_nat (size classes_map) then Throws (str "Maximum number of classes is 8")
      else
        let class_mask := getClassData (Z.of_nat (size classes_map)) in
        Done (class_mask, <[class_name := class_mask]> classes_map)
  end.

(** [classesToMask]: the mask of a way with the given flags. *)
Fixpoint classesToMask (classes_map : ClassesMap) (classes : list (list Z * bool)) (mask : Z) : outcome (Z * ClassesMap) :=
  match classes with
  | [] => Done (mask, classes_map)
  | (name, flag) :: classes =>
      if negb (isValidClassName name) then Throws (str "Invalid class name " ++ name ++ str " only [a-Z0-9] allowed.")
      else if flag : bool then
        '(class_mask, classes_map') ← classStringToMask classes_map name;
        classesToMask classes_map' classes (Z.lor mask class_mask)
      else classesToMask classes_map classes mask
  end.

(** ** Properties *)

(** Names in arrays of characters, ended by a zero. *)
Record ProfileProperties : Type := mkProfileProperties {
  class_names : list (list Z);
  excludable_classes : list Z
}.

Definition ProfileProperties_new : ProfileProperties :=
  mkProfileProperties (replicate 8 (replicate 256 0)) (replicate 8 INAVLID_CLASS_DATA).

Definition SetExcludableClasses (p : ProfileProperties) (index classes : Z) : option ProfileProperties :=
  l ← zset index classes (excludable_classes p);
  Some (mkProfileProperties (class_names p) l).

(** The first position of a mask. *)
Fixpoint find_index (classes : Z) (l : list Z) (index : Z) : option Z :=
  match l with
  | [] => None
  | m :: l => if m =? classes then Some index else find_index classes l (index + 1)
  end.

Definition ClassesAreExcludable (p : ProfileProperties) (classes : Z) : option Z := find_index classes (excludable_classes p) 0.

Definition SetClassName (p : ProfileProperties) (index : Z) (name : list Z) : option ProfileProperties :=
  name_ptr ← class_names p !z index;
  let count := Z.to_nat (Z.min (zlen name) MAX_CLASS_NAME_LENGTH + 1) in
  l ← zset index (take count (name ++ [0]) ++ drop count name_ptr) (class_names p);
  Some (mkProfileProperties l (excludable_classes p)).

(** [std::string] of an array: up to the first zero, which must be there. *)
Fixpoint read_c_string (chars : list Z) : option (list Z) :=
  match chars with
  | [] => None
  | c :: chars => if c =? 0 then Some [] else rest ← read_c_string chars; Some (c :: rest)
  end.

Definition GetClassName (p : ProfileProperties) (index : Z) : option (list Z) := name ← class_names p !z index; read_c_string name.

(** ** The extractor *)

(** Names of the profile that no way has used get the next bits. *)
Fixpoint add_class_names (names : list (list Z)) (classes_map : ClassesMap) : outcome ClassesMap :=
  match names with
  | [] => Done classes_map
  | name :: names =>
      if negb (isValidClassName name) then Throws (str "Invalid class name " ++ name ++ str " only [a-Z0-9] allowed.")
      else
        match classes_map !! name with
        | Some _ => add_class_names names classes_map
        | None =>
            if MAX_CLASS_INDEX <? Z.of_nat (size classes_map) then Throws (str "Maximum number of classes is 8")
            else add_class_names names (<[name := getClassData (Z.of_nat (size classes_map))]> classes_map)
        end
  end.

Fixpoint check_class_names (names : list (list Z)) (pairs : list (list Z * Z)) : outcome unit :=
  match pairs with
  | [] => Done tt
  | (name, _) :: pairs =>
      if bool_decide (name ∈ names) then check_class_names names pairs else Throws (str "Profile used unknown class name: " ++ name)
  end.

(** [range.front()] is the highest bit. *)
Fixpoint write_class_names (pairs : list (list Z * Z)) (p : ProfileProperties) : option ProfileProperties :=
  match pairs with
  | [] => Some p
  | (name, mask) :: pairs => p' ← SetClassName p (msb mask) name; write_class_names pairs p'
  end.

(** [iterate] is the order in which the hash map lists its pairs. *)
Definition SetClassNames (iterate : ClassesMap -> list (list Z * Z)) (names : list (list Z)) (classes_map : ClassesMap) (p : ProfileProperties)
  : outcome (ClassesMap * ProfileProperties) :=
  classes_map ← (if bool_decide (names = []) then Done classes_map
                 else classes_map' ← add_class_names names classes_map;
                      _ ← check_class_names names (iterate classes_map');
                      Done classes_map');
  p' ← or_undefined (write_class_names (iterate classes_map) p);
  Done (classes_map, p').

(** The mask of a combination; unknown names are left out. *)
Definition combination_mask (classes_map : ClassesMap) (combination : list (list Z)) : Z :=
  foldl (fun mask name => match classes_map !! name with Some m => Z.lor mask m | None => mask end) 0 combination.

Fixpoint write_excludable (classes_map : ClassesMap) (combinations : list (list (list Z))) (combination_index : Z) (p : ProfileProperties)
  : option ProfileProperties :=
  match combinations with
  | [] => Some p
  | combination :: combinations =>
      let mask := combination_mask classes_map combination in
      if 0 <? mask then p' ← SetExcludableClasses p combination_index mask; write_excludable classes_map combinations (combination_index + 1) p'
      else write_excludable classes_map combinations combination_index p
  end.

Definition SetExcludableCombinations (classes_map : ClassesMap) (combinations : list (list (list Z))) (p : ProfileProperties)
  : outcome ProfileProperties :=
  if MAX_EXCLUDABLE_CLASSES <? zlen combinations then Throws (str "Only 8 excludable combinations allowed.")
  else p' ← or_undefined (SetExcludableClasses p 0 0); or_undefined (write_excludable classes_map combinations 1 p').

(** ** Filters and metrics *)

Fixpoint node_filter (class_data : list Z) (nodes : list Z) (mask : Z) : option (list bool) :=
  match nodes with
  | [] => Some []
  | node :: nodes => c ← class_data !z node; rest ← node_filter class_data nodes mask; Some ((Z.land c mask =? 0) :: rest)
  end.

Fixpoint node_filters (number_of_nodes : Z) (class_data masks : list Z) : option (list (list bool)) :=
  match masks with
  | [] => Some []
  | mask :: masks =>
      if negb (mask =? INAVLID_CLASS_DATA)
      then f ← node_filter class_data (seqZ 0 number_of_nodes) mask; rest ← node_filters number_of_nodes class_data masks; Some (f :: rest)
      else node_filters number_of_nodes class_data masks
  end.

Definition excludeFlagsToNodeFilter (number_of_nodes : Z) (class_data : list Z) (p : ProfileProperties) : option (list (list bool)) :=
  node_filters number_of_nodes class_data (excludable_classes p).

(** ** Requests *)

(** The constructor of the factory: the classes with a name. *)
Fixpoint name_to_class (p : ProfileProperties) (indices : list Z) (m : ClassesMap) : option ClassesMap :=
  match indices with
  | [] => Some m
  | index :: indices =>
      name ← GetClassName p index;
      name_to_class p indices (match name with [] => m | _ => <[name := getClassData index]> m end)
  end.

(** The loop of [Get] over the names; [None] for an unknown one. *)
Fixpoint exclude_mask_of (m : ClassesMap) (exclude : list (list Z)) (mask : Z) : option Z :=
  match exclude with
  | [] => Some mask
  | name :: exclude => c ← m !! name; exclude_mask_of m exclude (Z.lor mask c)
  end.

(** [Get] over facades of any type; [Done None] is the empty pointer. *)
Definition Get {F} (facades : list F) (p : ProfileProperties) (m : ClassesMap) (exclude : list (list Z)) : outcome (option F) :=
  match exclude with
  | [] => facade ← or_undefined (facades !z 0); Done (Some facade)
  | _ =>
      match exclude_mask_of m exclude 0 with
      | None => Done None
      | Some mask =>
          match find_index mask (excludable_classes p) 0 with
          | Some exclude_index => facade ← or_undefined (facades !z exclude_index); Done (Some facade)
          | None => Done None
          end
      end
  end.

(** ** The classes *)

Lemma getClassData_pow i : 0 <= i < 8 -> getClassData i = 2 ^ i.
Proof.
  intros Hi. unfold getClassData. rewrite Z.shiftl_1_l. apply wrap_small. split; [lia|]. apply Z.pow_lt_mono_r; lia.
Qed.

(** Every class has a bit of its own; the bits in use are the lowest ones. *)
Record classes_ok (m : ClassesMap) : Prop := {
  co_size : Z.of_nat (size m) <= 8;
  co_bit name c : m !! name = Some c -> exists i, 0 <= i < Z.of_nat (size m) /\ c = 2 ^ i;
  co_once name name' c : m !! name = Some c -> m !! name' = Some c -> name = name'
}.

Lemma classes_ok_empty : classes_ok ∅.
Proof. split; [rewrite map_size_empty; lia|by intros ? ? ?%lookup_empty_Some|by intros ? ? ? ?%lookup_empty_Some]. Qed.

Lemma classes_ok_insert m name : classes_ok m -> m !! name = None -> Z.of_nat (size m) <= MAX_CLASS_INDEX ->
  classes_ok (<[name := getClassData (Z.of_nat (size m))]> m).
Proof.
  unfold MAX_CLASS_INDEX. intros [Hs Hb Ho] Hn Hsz. rewrite getClassData_pow by lia.
  assert (size (<[name := 2 ^ Z.of_nat (size m)]> m) = S (size m)) as Es by (by apply map_size_insert_None).
  split; [rewrite Es; lia| |].
  - rewrite Es. intros n c [[-> <-]|[_ Hc]]%lookup_insert_Some; [exists (Z.of_nat (size m)); split; [lia|done]|].
    destruct (Hb n c Hc) as (i & Hi & ->). exists i. split; [lia|done].
  - assert (forall n c, m !! n = Some c -> c <> 2 ^ Z.of_nat (size m)) as Hne.
    { intros n c Hc. destruct (Hb n c Hc) as (i & Hi & ->). intros E%Z.pow_inj_r; lia. }
    intros n n' c [[<- <-]|[H1 H2]]%lookup_insert_Some [[<- E]|[H3 H4]]%lookup_insert_Some; [done| | |by eapply Ho]; subst; by eapply Hne in H2 || by eapply Hne in H4.
Qed.

Lemma classStringToMask_ok m name : classes_ok m ->
  match classStringToMask m name with
  | Done (mask, m') => classes_ok m' /\ m ⊆ m' /\ m' !! name = Some mask /\ dom m' = dom m ∪ {[name]}
  | Throws _ => m !! name = None /\ Z.of_nat (size m) = 8
  | Undefined => False
  end.
Proof.
  intros Hm. unfold classStringToMask. destruct (m !! name) as [mask|] eqn:E.
  { split_and!; try done. apply elem_of_dom_2 in E. set_solver. }
  destruct (Z.ltb_spec MAX_CLASS_INDEX (Z.of_nat (size m))) as [Hlt|Hge].
  - split; [done|]. pose proof (co_size _ Hm). unfold MAX_CLASS_INDEX in Hlt. lia.
  - split; [by apply classes_ok_insert|]. split; [by apply insert_subseteq|]. split; [by simplify_map_eq|]. rewrite dom_insert_L. set_solver.
Qed.

(** The names with a true flag. *)
Definition flagged (classes : list (list Z * bool)) : gset (list Z) := list_to_set (fst <$> filter (fun x => snd x = true) classes).

(** The classes of ways.  From classes with a bit each, the mask of a way
    holds the bits of exactly the classes with a true flag, whose names are
    valid, on top of what it held before; classes that are new take free bits,
    and no other class changes.  An exception means an
    invalid name or more than eight classes. *)
Theorem way_classes classes : forall m mask, classes_ok m ->
  match classesToMask m classes mask with
  | Done (mask', m') => classes_ok m' /\ m ⊆ m' /\
      forall b, Z.testbit mask' b = true <-> Z.testbit mask b = true \/ exists name c, (name, true) ∈ classes /\ m' !! name = Some c /\ Z.testbit c b = true
  | Throws _ => exists name flag, (name, flag) ∈ classes /\ (isValidClassName name = false \/ 8 < Z.of_nat (size (dom m ∪ flagged classes)))
  | Undefined => False
  end.
Proof.
  induction classes as [|[name flag] classes IH]; intros m mask Hm; cbn [classesToMask].
  { split; [done|]. split; [done|]. intros b. split; [by left|]. intros [?|(n & c & ?%elem_of_nil & _)]; done. }
  destruct (isValidClassName name) eqn:Ev; cbn [negb]; [|exists name, flag; split; [by left|by left]].
  assert (forall n c b (m' : ClassesMap), (n, true) ∈ classes /\ m' !! n = Some c /\ Z.testbit c b = true -> (n, true) ∈ (name, flag) :: classes /\ m' !! n = Some c /\ Z.testbit c b = true)
    as Hmono by (intros n c b m' (? & ?); split; [by right|done]).
  destruct flag.
  - pose proof (classStringToMask_ok m name Hm) as Hc. destruct (classStringToMask m name) as [[c m1]|msg|] eqn:Ec; cbn [mbind outcome_mbind outcome_bind].
    + destruct Hc as (Hm1 & Hsub & Hname & Hdom). specialize (IH m1 (Z.lor mask c) Hm1). destruct (classesToMask m1 classes (Z.lor mask c)) as [[mask' m']|msg|]; [| |done].
      * destruct IH as (Hm' & Hsub' & Hbits). split; [done|]. split; [by etransitivity|]. assert (m' !! name = Some c) as Hname' by (by eapply lookup_weaken).
        intros b. rewrite Hbits, Z.lor_spec, orb_true_iff. split.
        -- intros [[?|?]|(n & c' & H)]; [by left|right; exists name, c; split; [by left|done]|right; exists n, c'; by apply Hmono].
        -- intros [?|(n & c' & [[= ->]|Hin]%elem_of_cons & Hn & Hb)]; [by left; left|left; right; congruence|right; by exists n, c'].
      * destruct IH as (n & f & Hin & Hbad). exists n, f. split; [by right|]. destruct Hbad as [?|Hbad]; [by left|right].
        rewrite Hdom in Hbad. unfold flagged in *. rewrite filter_cons_True by done. rewrite fmap_cons, list_to_set_cons. by rewrite (assoc_L (∪)).
    + exists name, true. split; [by left|]. right. destruct Hc as [Hnone Hsz].
      assert (size (dom m ∪ {[name]}) = 9)%nat as E9 by (rewrite size_union by (apply not_elem_of_dom in Hnone; set_solver); rewrite size_dom, size_singleton; lia).
      assert (size (dom m ∪ {[name]}) <= size (dom m ∪ flagged ((name, true) :: classes)))%nat; [|lia]. apply subseteq_size.
      unfold flagged. rewrite filter_cons_True by done. set_solver.
    + done.
  - specialize (IH m mask Hm). destruct (classesToMask m classes mask) as [[mask' m']|msg|]; [| |done].
    + destruct IH as (Hm' & Hsub' & Hbits). split; [done|]. split; [done|]. intros b. rewrite Hbits. split.
      * intros [?|(n & c' & H)]; [by left|right; exists n, c'; by apply Hmono].
      * intros [?|(n & c' & [[=]|Hin]%elem_of_cons & Hn & Hb)]; [by left|right; by exists n, c'].
    + destruct IH as (n & f & Hin & Hbad). exists n, f. split; [by right|]. destruct Hbad as [?|Hbad]; [by left|right].
      unfold flagged in *. by rewrite filter_cons_False by done.
Qed.

(** ** Names of classes *)

Definition name_ok (name : list Z) : Prop := isValidClassName name = true /\ name <> [] /\ zlen name <= MAX_CLASS_NAME_LENGTH.

Lemma valid_nonzero name c : isValidClassName name = true -> c ∈ name -> c <> 0.
Proof.
  unfold isValidClassName. rewrite forallb_forall. intros Hv Hc ->. apply list_elem_of_In in Hc. by specialize (Hv 0 Hc).
Qed.

Lemma read_c_string_ok name rest : (forall c, c ∈ name -> c <> 0) -> read_c_string (name ++ 0 :: rest) = Some name.
Proof.
  induction name as [|c name IH]; intros Hc; [done|]. cbn [app read_c_string]. rewrite (proj2 (Z.eqb_neq c 0)) by (apply Hc; by left).
  by rewrite IH by (intros c' Hc'; apply Hc; by right).
Qed.

Lemma SetClassName_ok p i name : zlen (class_names p) = 8 -> 0 <= i < 8 -> name_ok name -> exists p', SetClassName p i name = Some p' /\
  zlen (class_names p') = 8 /\ excludable_classes p' = excludable_classes p /\
  GetClassName p' i = Some name /\ forall j, j <> i -> GetClassName p' j = GetClassName p j.
Proof.
  intros Hl Hi (Hv & _ & Hlen). unfold SetClassName. destruct (zget_is_some (class_names p) i) as [arr E]; [lia|]. rewrite E. cbn [mbind option_bind].
  rewrite Z.min_l by done. assert (Z.to_nat (zlen name + 1) = length (name ++ [0])) as -> by (unfold zlen; rewrite length_app; simpl; lia).
  rewrite take_ge by done. destruct (zset_some (class_names p) i ((name ++ [0]) ++ drop (length (name ++ [0])) arr)) as [l El]; [lia|]. rewrite El.
  cbn [mbind option_bind]. eexists. split; [done|]. simpl. split; [by rewrite (zset_len _ _ _ _ El)|]. split; [done|]. unfold GetClassName. simpl. split.
  - rewrite (zset_get_eq _ _ _ _ El). cbn [mbind option_bind]. rewrite <- app_assoc. apply read_c_string_ok. by intros c; apply valid_nonzero.
  - intros j Hj. by rewrite (zset_get_ne _ _ _ _ _ El) by done.
Qed.

Lemma write_class_names_ok pairs : NoDup (snd <$> pairs) -> (forall name mask, (name, mask) ∈ pairs -> name_ok name /\ exists i, 0 <= i < 8 /\ mask = 2 ^ i) ->
  forall p, zlen (class_names p) = 8 -> exists p', write_class_names pairs p = Some p' /\ zlen (class_names p') = 8 /\
    excludable_classes p' = excludable_classes p /\ (forall name i, 0 <= i < 8 -> (name, 2 ^ i) ∈ pairs -> GetClassName p' i = Some name) /\
    forall i, 0 <= i < 8 -> (forall name, (name, 2 ^ i) ∉ pairs) -> GetClassName p' i = GetClassName p i.
Proof.
  induction pairs as [|[name mask] pairs IH]; intros Hnd Hok p Hl; cbn [write_class_names].
  { exists p. do 3 (split; [done|]). split; [|done]. by intros n i _ Hx%elem_of_nil. }
  destruct (Hok name mask ltac:(by left)) as (Hn & i & Hi & ->). apply NoDup_cons in Hnd as [Hnin Hnd]. simpl in Hnin.
  assert (msb (2 ^ i) = i) as Hmsb.
  { rewrite msb_log2; [apply Z.log2_pow2; lia|]. split; [apply Z.pow_pos_nonneg; lia|apply Z.pow_lt_mono_r; lia]. }
  rewrite Hmsb. destruct (SetClassName_ok p i name Hl Hi Hn) as (p1 & -> & Hl1 & He1 & Hget & Hrest). cbn [mbind option_bind].
  destruct (IH Hnd ltac:(intros ? ? ?; apply Hok; by right) p1 Hl1) as (p' & -> & Hl' & He' & Hin & Hout). exists p'. split; [done|]. split; [done|].
  split; [congruence|].
  assert (forall n, (n, 2 ^ i) ∉ pairs) as Hno by (intros n Hx; apply Hnin; by apply (list_elem_of_fmap_2 snd _ (n, 2 ^ i))).
  split.
  - intros n j Hj [[= -> Ej]|Hx]%elem_of_cons; [|by apply Hin]. apply Z.pow_inj_r in Ej; [|lia..]. subst j. by rewrite Hout.
  - intros j Hj Hx. rewrite Hout; [|done|intros n Hn'; apply (Hx n); by right]. apply Hrest. intros ->. apply (Hx name). by left.
Qed.

(** The properties hold the names of the classes. *)
Definition named (m : ClassesMap) (p : ProfileProperties) : Prop := forall i, 0 <= i < 8 ->
  (exists name, m !! name = Some (2 ^ i) /\ GetClassName p i = Some name) \/ ((forall name, m !! name <> Some (2 ^ i)) /\ GetClassName p i = Some []).

Lemma write_names_named m pairs : classes_ok m -> (forall name c, m !! name = Some c -> name_ok name) -> pairs ≡ₚ map_to_list m ->
  exists p, write_class_names pairs ProfileProperties_new = Some p /\ named m p /\ excludable_classes p = replicate 8 INAVLID_CLASS_DATA /\ zlen (class_names p) = 8.
Proof.
  intros Hm Hn Hp. assert (forall name c, (name, c) ∈ pairs <-> m !! name = Some c) as Hin by (intros; rewrite Hp; apply elem_of_map_to_list).
  destruct (write_class_names_ok pairs) with (p := ProfileProperties_new) as (p & E & Hl & He & Hget & Hrest); [| |done|].
  - rewrite Hp. apply NoDup_fmap_2_strong; [|apply NoDup_map_to_list].
    intros [n c] [n' c'] H1%elem_of_map_to_list H2%elem_of_map_to_list Hc. simpl in Hc. subst c'. f_equal. by eapply (co_once _ Hm).
  - intros name mask Hx%Hin. split; [by eapply Hn|]. destruct (co_bit _ Hm name mask Hx) as (i & Hi & ->). exists i. pose proof (co_size _ Hm). split; [lia|done].
  - exists p. split; [done|]. split; [|done]. intros i Hi.
    destruct (decide (Exists (fun nc => snd nc = 2 ^ i) pairs)) as [Hex|Hno]; [left|right].
    + apply Exists_exists in Hex as ([name c] & Hx & E'). simpl in E'. subst c. exists name. split; [by apply Hin|by apply Hget].
    + assert (forall name, (name, 2 ^ i) ∉ pairs) as Hno' by (intros name Hx; apply Hno, Exists_exists; by exists (name, 2 ^ i)).
      split; [intros name Hx%Hin; by apply (Hno' name)|]. rewrite (Hrest i Hi Hno'). unfold GetClassName, ProfileProperties_new. cbn [class_names].
      unfold zget. rewrite (proj2 (Z.leb_le 0 i)) by lia. by rewrite lookup_replicate_2 by lia.
Qed.

Lemma name_to_class_ok m p indices : classes_ok m -> (forall name c, m !! name = Some c -> name_ok name) -> named m p ->
  (forall i, i ∈ indices -> 0 <= i < 8) -> forall acc, acc ⊆ m -> exists r, name_to_class p indices acc = Some r /\ acc ⊆ r /\ r ⊆ m /\
    forall i name, i ∈ indices -> m !! name = Some (2 ^ i) -> r !! name = Some (2 ^ i).
Proof.
  intros Hm Hn Hp. induction indices as [|i indices IH]; intros Hi acc Hacc; cbn [name_to_class].
  { exists acc. do 3 (split; [done|]). by intros i name Hx%elem_of_nil. }
  assert (0 <= i < 8) as Hi' by (apply Hi; by left). specialize (IH ltac:(intros j Hj; apply Hi; by right)).
  destruct (Hp i Hi') as [(name & Hname & ->)|(Hnone & ->)]; cbn [mbind option_bind].
  - destruct (Hn name _ Hname) as (_ & Hne & _). destruct name as [|c name]; [done|]. rewrite getClassData_pow by done.
    destruct (IH (<[c :: name := 2 ^ i]> acc)) as (r & -> & Hsub & Hrm & Hall).
    { apply map_subseteq_spec. intros n x [[<- <-]|[_ Hx]]%lookup_insert_Some; [done|by eapply lookup_weaken]. }
    assert (r !! (c :: name) = Some (2 ^ i)) as Hr by (eapply lookup_weaken; [|exact Hsub]; by simplify_map_eq).
    exists r. split; [done|]. split.
    { apply map_subseteq_spec. intros n x Hx. destruct (decide (n = c :: name)) as [->|Hnn].
      - pose proof (lookup_weaken _ _ _ _ Hx Hacc). congruence.
      - eapply lookup_weaken; [|exact Hsub]. by rewrite lookup_insert_ne. }
    split; [done|]. intros j n [->|Hj]%elem_of_cons Hx; [|by apply Hall]. by rewrite (co_once _ Hm n (c :: name) (2 ^ i) Hx Hname).
  - destruct (IH acc Hacc) as (r & -> & Hsub & Hrm & Hall). exists r. split_and!; try done.
    intros j n [->|Hj]%elem_of_cons Hx; [by apply Hnone in Hx|by apply Hall].
Qed.

Lemma name_to_class_all m p : classes_ok m -> (forall name c, m !! name = Some c -> name_ok name) -> named m p ->
  name_to_class p (seqZ 0 (MAX_CLASS_INDEX + 1)) ∅ = Some m.
Proof.
  intros Hm Hn Hp. destruct (name_to_class_ok m p (seqZ 0 (MAX_CLASS_INDEX + 1)) Hm Hn Hp) with (acc := ∅ : ClassesMap) as (r & -> & _ & Hsub & Hall).
  { intros i Hi%elem_of_seqZ. unfold MAX_CLASS_INDEX in Hi. lia. }
  { apply map_empty_subseteq. }
  f_equal. apply (anti_symm (⊆)); [done|]. apply map_subseteq_spec. intros n c Hc. destruct (co_bit _ Hm n c Hc) as (i & Hi & ->).
  apply Hall; [|done]. apply elem_of_seqZ. pose proof (co_size _ Hm). unfold MAX_CLASS_INDEX. lia.
Qed.

(** ** Combinations *)

Lemma combination_bits (m : ClassesMap) names : forall acc b,
  Z.testbit (foldl (fun mask name => match m !! name with Some c => Z.lor mask c | None => mask end) acc names) b = true <->
  Z.testbit acc b = true \/ exists name c, name ∈ names /\ m !! name = Some c /\ Z.testbit c b = true.
Proof.
  induction names as [|n names IH]; intros acc b; cbn [foldl]; [split; [by left|]; intros [?|(n & c & ?%elem_of_nil & _)]; done|].
  rewrite IH. split.
  - intros [Ha|(name & c & Hn & Hc & Hb)]; [|right; exists name, c; split; [by right|done]].
    destruct (m !! n) as [c|] eqn:E; [rewrite Z.lor_spec, orb_true_iff in Ha|by left]. destruct Ha as [?|Hb]; [by left|].
    right. exists n, c. split; [by left|done].
  - intros [Ha|(name & c & [->|Hn]%elem_of_cons & Hc & Hb)]; [left; destruct (m !! n)|left; rewrite Hc|right; by exists name, c];
      rewrite ?Z.lor_spec, ?Ha, ?Hb, ?orb_true_r; done.
Qed.

Lemma mask_bits m names b : Z.testbit (combination_mask m names) b = true <-> exists name c, name ∈ names /\ m !! name = Some c /\ Z.testbit c b = true.
Proof. unfold combination_mask. rewrite combination_bits, Z.bits_0. naive_solver. Qed.

Lemma mask_nonneg m names : classes_ok m -> 0 <= combination_mask m names.
Proof.
  intros Hm. unfold combination_mask. assert (forall acc, 0 <= acc ->
    0 <= foldl (fun mask name => match m !! name with Some c => Z.lor mask c | None => mask end) acc names) as H; [|by apply H].
  induction names as [|n names IH]; intros acc Ha; cbn [foldl]; [done|]. apply IH. destruct (m !! n) as [c|] eqn:E; [|done].
  destruct (co_bit _ Hm n c E) as (i & Hi & ->). apply Z.lor_nonneg. split; [done|]. apply Z.pow_nonneg. lia.
Qed.

(** With a class to spare no mask looks invalid. *)
Lemma mask_valid m names : classes_ok m -> Z.of_nat (size m) < 8 -> combination_mask m names <> INAVLID_CLASS_DATA.
Proof.
  intros Hm Hs E. assert (Z.testbit (combination_mask m names) 7 = true) as Hb by (by rewrite E).
  apply mask_bits in Hb as (n & c & _ & Hc & Hb). destruct (co_bit _ Hm n c Hc) as (i & Hi & ->). rewrite Z.pow2_bits_false in Hb by lia. done.
Qed.

(** A node has none of the classes of a combination. *)
Lemma mask_free m names c : Z.land c (combination_mask m names) = 0 <-> forall name cm, name ∈ names -> m !! name = Some cm -> Z.land c cm = 0.
Proof.
  split.
  - intros H0 name cm Hn Hc. apply Z.bits_inj_0. intros b. rewrite Z.land_spec. destruct (Z.testbit cm b) eqn:Eb; [|by rewrite andb_false_r].
    assert (Z.testbit (combination_mask m names) b = true) as Hb by (apply mask_bits; by exists name, cm).
    assert (Z.testbit (Z.land c (combination_mask m names)) b = false) as Hz by (rewrite H0; apply Z.bits_0). rewrite Z.land_spec, Hb in Hz. done.
  - intros Hall. apply Z.bits_inj_0. intros b. rewrite Z.land_spec. destruct (Z.testbit (combination_mask m names) b) eqn:Eb; [|by rewrite andb_false_r].
    apply mask_bits in Eb as (name & cm & Hn & Hc & Hb). specialize (Hall name cm Hn Hc).
    assert (Z.testbit (Z.land c cm) b = false) as Hz by (rewrite Hall; apply Z.bits_0). rewrite Z.land_spec, Hb in Hz. by rewrite andb_true_r in *.
Qed.

(** The masks that can be excluded. *)
Definition masks_of (m : ClassesMap) (combinations : list (list (list Z))) : list Z :=
  filter (fun x => 0 < x) (combination_mask m <$> combinations).

Lemma zset_middle {A} (pre rest : list A) x y : zset (zlen pre) x (pre ++ y :: rest) = Some (pre ++ x :: rest).
Proof.
  destruct (zset_some (pre ++ y :: rest) (zlen pre) x) as [l E]; [rewrite zlen_app, zlen_cons; pose proof (zlen_nonneg pre); pose proof (zlen_nonneg rest); lia|].
  rewrite E. apply zset_inv in E as (_ & ->). f_equal. unfold zlen. rewrite Nat2Z.id, insert_app_r_alt by lia. by rewrite Nat.sub_diag.
Qed.

Lemma write_excludable_ok m combinations : forall p pre k, excludable_classes p = pre ++ replicate k INAVLID_CLASS_DATA ->
  (length (masks_of m combinations) <= k)%nat -> exists p', write_excludable m combinations (zlen pre) p = Some p' /\ class_names p' = class_names p /\
    excludable_classes p' = pre ++ masks_of m combinations ++ replicate (k - length (masks_of m combinations)) INAVLID_CLASS_DATA.
Proof.
  unfold masks_of. induction combinations as [|combination combinations IH]; intros p pre k Hp Hk; cbn [write_excludable].
  { exists p. split; [done|]. split; [done|]. by rewrite Hp, Nat.sub_0_r. }
  rewrite fmap_cons, filter_cons in *. destruct (Z.ltb_spec 0 (combination_mask m combination)) as [Hpos|Hneg]; case_decide; try lia; [|by apply IH].
  destruct k as [|k]; [simpl in Hk; lia|]. unfold SetExcludableClasses. rewrite Hp. cbn [replicate]. rewrite zset_middle. cbn [mbind option_bind].
  destruct (IH (mkProfileProperties (class_names p) (pre ++ combination_mask m combination :: replicate k INAVLID_CLASS_DATA))
    (pre ++ [combination_mask m combination]) k) as (p' & E & Hn & He); [by rewrite <- app_assoc|simpl in Hk; lia|].
  rewrite zlen_app in E. change (zlen [combination_mask m combination]) with 1 in E. rewrite E. exists p'. split; [done|]. split; [done|].
  rewrite He, <- app_assoc. simpl. done.
Qed.

Lemma find_index_ok x l : forall i, match find_index x l i with
  | Some j => exists k, j = i + Z.of_nat k /\ l !! k = Some x
  | None => x ∉ l
  end.
Proof.
  induction l as [|a l IH]; intros i; cbn [find_index]; [apply not_elem_of_nil|]. destruct (Z.eqb_spec a x) as [->|Hne]; [exists 0%nat; split; [lia|done]|].
  specialize (IH (i + 1)). destruct (find_index x l (i + 1)) as [j|]; [destruct IH as (k & -> & Hk); exists (S k); split; [lia|done]|].
  rewrite not_elem_of_cons. by split.
Qed.

(** ** Filters *)

Definition filter_of (class_data : list Z) (mask : Z) : list bool := (fun c => Z.land c mask =? 0) <$> class_data.

Lemma node_filter_ok class_data mask : node_filter class_data (seqZ 0 (zlen class_data)) mask = Some (filter_of class_data mask).
Proof.
  assert (forall pre l, class_data = pre ++ l -> node_filter class_data (seqZ (zlen pre) (zlen l)) mask = Some (filter_of l mask)) as Hgo; [|by apply (Hgo [])].
  intros pre l. revert pre. induction l as [|c l IH]; intros pre E; [done|].
  rewrite zlen_cons, seqZ_cons by (pose proof (zlen_nonneg l); lia). cbn [node_filter].
  assert (class_data !z zlen pre = Some c) as ->.
  { rewrite E. unfold zlen. rewrite zget_nat. by apply list_lookup_middle. }
  cbn [mbind option_bind]. specialize (IH (pre ++ [c])). rewrite zlen_app, <- app_assoc in IH. change (zlen [c]) with 1 in IH.
  replace (Z.succ (zlen pre)) with (zlen pre + 1) by lia. replace (Z.pred (1 + zlen l)) with (zlen l) by lia. by rewrite (IH E).
Qed.

Lemma node_filters_ok class_data masks : node_filters (zlen class_data) class_data masks =
  Some (filter_of class_data <$> filter (fun x => x <> INAVLID_CLASS_DATA) masks).
Proof.
  induction masks as [|mask masks IH]; [done|]. cbn [node_filters]. rewrite filter_cons. destruct (Z.eqb_spec mask INAVLID_CLASS_DATA) as [E|E]; cbn [negb];
    case_decide; try done. rewrite node_filter_ok, IH. done.
Qed.

(** ** The checks of names *)

Lemma add_class_names_ok names : forall m, classes_ok m ->
  match add_class_names names m with
  | Done m' => classes_ok m' /\ m ⊆ m' /\ dom m' = dom m ∪ list_to_set names /\ forall name, name ∈ names -> isValidClassName name = true
  | Throws _ => (exists name, name ∈ names /\ isValidClassName name = false) \/ 8 < Z.of_nat (size (dom m ∪ list_to_set names))
  | Undefined => False
  end.
Proof.
  induction names as [|n names IH]; intros m Hm; cbn [add_class_names].
  { split; [done|]. split; [done|]. split; [set_solver|]. by intros name Hn%elem_of_nil. }
  destruct (isValidClassName n) eqn:Ev; cbn [negb]; [|left; exists n; split; [by left|done]].
  assert (forall m1, classes_ok m1 -> m ⊆ m1 -> dom m1 = dom m ∪ {[n]} ->
    match add_class_names names m1 with
    | Done m' => classes_ok m' /\ m ⊆ m' /\ dom m' = dom m ∪ list_to_set (n :: names) /\ forall name, name ∈ n :: names -> isValidClassName name = true
    | Throws _ => (exists name, name ∈ n :: names /\ isValidClassName name = false) \/ 8 < Z.of_nat (size (dom m ∪ list_to_set (n :: names)))
    | Undefined => False
    end) as Hstep.
  { intros m1 Hm1 Hsub Hdom. specialize (IH m1 Hm1). rewrite Hdom in IH. rewrite list_to_set_cons, (assoc_L (∪)).
    destruct (add_class_names names m1) as [m'|msg|]; [| |done].
    - destruct IH as (Hm' & Hsub' & Hdom' & Hv). split; [done|]. split; [by etransitivity|]. split; [done|]. intros name [->|Hn]%elem_of_cons; [done|by apply Hv].
    - destruct IH as [(name & Hn & Hv)|?]; [left; exists name; split; [by right|done]|by right]. }
  destruct (m !! n) as [c|] eqn:E; [apply Hstep; try done; apply elem_of_dom_2 in E; set_solver|].
  destruct (Z.ltb_spec MAX_CLASS_INDEX (Z.of_nat (size m))) as [Hlt|Hge].
  - right. unfold MAX_CLASS_INDEX in Hlt. rewrite list_to_set_cons, (assoc_L (∪)).
    assert (size (dom m ∪ {[n]}) = S (size m)) as E9 by (rewrite size_union by (apply not_elem_of_dom in E; set_solver); rewrite size_dom, size_singleton; lia).
    assert (size (dom m ∪ {[n]}) <= size (dom m ∪ {[n]} ∪ list_to_set names))%nat by (apply subseteq_size; set_solver). lia.
  - apply Hstep; [by apply classes_ok_insert|by apply insert_subseteq|]. rewrite dom_insert_L. set_solver.
Qed.

Lemma check_class_names_ok names pairs :
  match check_class_names names pairs with
  | Done _ => forall name c, (name, c) ∈ pairs -> name ∈ names
  | Throws _ => exists name c, (name, c) ∈ pairs /\ name ∉ names
  | Undefined => False
  end.
Proof.
  induction pairs as [|[n c] pairs IH]; cbn [check_class_names]; [by intros ? ? ?%elem_of_nil|]. case_bool_decide as Hn.
  - destruct (check_class_names names pairs) as [u|msg|]; [| |done].
    + intros name c' [[= -> ->]|Hin]%elem_of_cons; [done|by eapply IH].
    + destruct IH as (name & c' & Hin & Hx). exists name, c'. split; [by right|done].
  - exists n, c. split; [by left|done].
Qed.


(** ** Requests *)

Lemma exclude_mask_ok (m : ClassesMap) exclude : forall acc,
  match exclude_mask_of m exclude acc with
  | Some mask => (forall name, name ∈ exclude -> is_Some (m !! name)) /\
      mask = foldl (fun mask name => match m !! name with Some c => Z.lor mask c | None => mask end) acc exclude
  | None => exists name, name ∈ exclude /\ m !! name = None
  end.
Proof.
  induction exclude as [|n exclude IH]; intros acc; cbn [exclude_mask_of foldl].
  { split; [|done]. by intros name Hn%elem_of_nil. }
  destruct (m !! n) as [c|] eqn:E; cbn [mbind option_bind]; [|exists n; split; [by left|done]].
  specialize (IH (Z.lor acc c)). destruct (exclude_mask_of m exclude (Z.lor acc c)) as [mask|].
  - destruct IH as [Hall ->]. split; [|done]. intros name [->|Hn]%elem_of_cons; [by exists c|by apply Hall].
  - destruct IH as (name & Hn & Hnone). exists name. split; [by right|done].
Qed.

(** What the profile sets up: the masks that can be excluded, after the empty one. *)
Lemma combinations_set m combinations p : excludable_classes p = replicate 8 INAVLID_CLASS_DATA -> zlen combinations < MAX_EXCLUDABLE_CLASSES ->
  exists p', SetExcludableCombinations m combinations p = Done p' /\ class_names p' = class_names p /\
    excludable_classes p' = (0 :: masks_of m combinations) ++ replicate (7 - length (masks_of m combinations)) INAVLID_CLASS_DATA.
Proof.
  intros Hp Hlen. unfold SetExcludableCombinations, MAX_EXCLUDABLE_CLASSES in *. rewrite (proj2 (Z.ltb_ge 8 _)) by lia.
  unfold SetExcludableClasses at 1. rewrite Hp. change (zset 0 0 (replicate 8 INAVLID_CLASS_DATA)) with (Some (0 :: replicate 7 INAVLID_CLASS_DATA)).
  cbn [mbind option_bind or_undefined outcome_mbind outcome_bind].
  assert (length (masks_of m combinations) <= 7)%nat as Hm.
  { unfold masks_of. etransitivity; [apply length_filter|]. rewrite length_fmap. unfold zlen in Hlen. lia. }
  destruct (write_excludable_ok m combinations (mkProfileProperties (class_names p) (0 :: replicate 7 INAVLID_CLASS_DATA)) [0] 7 eq_refl Hm)
    as (p' & E & Hn & He). change (zlen [0]) with 1 in E. rewrite E. exists p'. done.
Qed.

Section request.
Context (m : ClassesMap) (combinations : list (list (list Z))) (class_data : list Z) (p : ProfileProperties).
Context (Hm : classes_ok m) (Hspare : Z.of_nat (size m) < 8).
Context (Hp : excludable_classes p = (0 :: masks_of m combinations) ++ replicate (7 - length (masks_of m combinations)) INAVLID_CLASS_DATA).

Lemma masks_valid : filter (fun x => x <> INAVLID_CLASS_DATA) (excludable_classes p) = 0 :: masks_of m combinations.
Proof using Hm Hspare Hp.
  rewrite Hp, filter_app, (filter_none _ (replicate _ _)) by (intros x [-> _]%elem_of_replicate; auto). rewrite app_nil_r. apply filter_all.
  intros x [->|Hx]%elem_of_cons; [done|]. unfold masks_of in Hx. apply list_elem_of_filter in Hx as [_ (c & -> & _)%list_elem_of_fmap]. by apply mask_valid.
Qed.

Lemma filters_set : excludeFlagsToNodeFilter (zlen class_data) class_data p = Some (filter_of class_data <$> 0 :: masks_of m combinations).
Proof using Hm Hspare Hp. unfold excludeFlagsToNodeFilter. by rewrite node_filters_ok, masks_valid. Qed.

(** The index of a mask is the index of its filter. *)
Lemma index_valid mask k : excludable_classes p !! k = Some mask -> mask <> INAVLID_CLASS_DATA -> (0 :: masks_of m combinations) !! k = Some mask.
Proof using Hp.
  rewrite Hp. intros [Hk|[_ Hk]]%lookup_app_Some Hv; [done|]. by apply lookup_replicate in Hk as [-> _].
Qed.
(** A request to a factory with a facade per filter. *)
Lemma Get_ok {F} (facades : list F) exclude : length facades = length (0 :: masks_of m combinations) ->
  match Get facades p m exclude with
  | Done (Some facade) => exists i mask, facades !! i = Some facade /\ excludable_classes p !! i = Some mask /\
      (0 :: masks_of m combinations) !! i = Some mask /\
      (forall c, Z.land c mask = 0 <-> forall name cm, name ∈ exclude -> m !! name = Some cm -> Z.land c cm = 0) /\
      forall name, name ∈ exclude -> is_Some (m !! name)
  | Done None => (exists name, name ∈ exclude /\ m !! name = None) \/
      (forall combination, combination ∈ combinations -> combination_mask m combination <> combination_mask m exclude)
  | _ => False
  end.
Proof using Hm Hspare Hp.
  intros Hf. unfold Get. destruct exclude as [|n exclude].
  { destruct facades as [|f facades]; [done|]. cbn. exists 0%nat, 0. rewrite Hp. split_and!; try done.
    - intros c. rewrite Z.land_0_r. split; [by intros _ ? ? ?%elem_of_nil|done].
    - by intros ? ?%elem_of_nil. }
  pose proof (exclude_mask_ok m (n :: exclude) 0) as Hmask. destruct (exclude_mask_of m (n :: exclude) 0) as [mask|]; [|by left].
  destruct Hmask as [Hknown Emask]. change (foldl _ 0 _) with (combination_mask m (n :: exclude)) in Emask. subst mask.
  pose proof (find_index_ok (combination_mask m (n :: exclude)) (excludable_classes p) 0) as Hfind.
  destruct (find_index (combination_mask m (n :: exclude)) (excludable_classes p) 0) as [j|].
  - destruct Hfind as (k & -> & Hk). rewrite Z.add_0_l, zget_nat. pose proof (index_valid _ k Hk (mask_valid _ _ Hm Hspare)) as Hk'.
    destruct (lookup_lt_is_Some_2 facades k) as [f Ef]; [rewrite Hf; by eapply lookup_lt_Some|]. rewrite Ef. cbn.
    exists k, (combination_mask m (n :: exclude)). split_and!; try done. intros c. apply mask_free.
  - right. intros combination Hc Heq. apply Hfind. rewrite Hp, <- Heq. apply elem_of_app. left.
    destruct (decide (0 < combination_mask m combination)) as [Hpos|Hneg].
    + right. apply list_elem_of_filter. split; [done|]. by apply list_elem_of_fmap_2.
    + pose proof (mask_nonneg m combination Hm). replace (combination_mask m combination) with 0 by lia. left.
Qed.
End request.

Lemma SetClassNames_classes iterate (names : list (list Z)) classes_map p m p' : classes_ok classes_map ->
  SetClassNames iterate names classes_map p = Done (m, p') -> classes_ok m.
Proof.
  intros Hm. unfold SetClassNames. case_bool_decide as Hne; cbn [mbind outcome_mbind outcome_bind].
  { destruct (or_undefined _); cbn [mbind outcome_mbind outcome_bind]; [|done..]. by intros [= <- _]. }
  pose proof (add_class_names_ok names classes_map Hm) as Hadd. destruct (add_class_names names classes_map) as [m'|msg|]; cbn [mbind outcome_mbind outcome_bind]; [|done..].
  destruct (check_class_names names (iterate m')); cbn [mbind outcome_mbind outcome_bind]; [|done..]. destruct (or_undefined _); cbn [mbind outcome_mbind outcome_bind]; [|done..].
  intros [= <- _]. apply Hadd.
Qed.

(** The properties after the set-up. *)
Lemma profile_set iterate (names : list (list Z)) classes_map m p1 (combinations : list (list (list Z))) :
  (forall m, iterate m ≡ₚ map_to_list m) -> SetClassNames iterate names classes_map ProfileProperties_new = Done (m, p1) ->
  classes_ok classes_map -> (forall name c, m !! name = Some c -> name_ok name) -> zlen combinations < MAX_EXCLUDABLE_CLASSES ->
  classes_ok m /\ exists p, SetExcludableCombinations m combinations p1 = Done p /\ name_to_class p (seqZ 0 (MAX_CLASS_INDEX + 1)) ∅ = Some m /\
    excludable_classes p = (0 :: masks_of m combinations) ++ replicate (7 - length (masks_of m combinations)) INAVLID_CLASS_DATA.
Proof.
  intros Hit E Hcm Hn Hlen. pose proof (SetClassNames_classes _ _ _ _ _ _ Hcm E) as Hm. split; [done|]. unfold SetClassNames in E.
  destruct (if bool_decide (names = []) then _ else _) as [m'| |]; cbn [mbind outcome_mbind outcome_bind] in E; [|done..].
  destruct (write_class_names (iterate m') ProfileProperties_new) as [p'|] eqn:Ew; cbn [or_undefined outcome_bind] in E; [|done].
  injection E as -> ->. destruct (write_names_named m (iterate m) Hm Hn (Hit m)) as (p1' & Ew' & Hnamed & Hex & _). assert (p1' = p1) as -> by congruence.
  destruct (combinations_set m combinations p1 Hex Hlen) as (p & Ep & Hnames & Hp). exists p.
  assert (named m p) as Hnamed' by (intros i Hi; unfold GetClassName; rewrite Hnames; by apply Hnamed).
  split; [done|]. split; [by apply name_to_class_all|done].
Qed.

(** C32: requests that exclude classes.  Classes with a bit each and at least one
    bit to spare, fewer than eight combinations: the set-up of the names, the
    combinations, the filters of nodes and the table of names succeeds
    (when the names pass the checks), and with a facade per filter [Get] is
    defined for every request.  It returns the facade with the filter that
    allows exactly the nodes with none of the classes named; or nothing,
    when a name is unknown or the combination cannot be excluded. *)
Theorem excluded_requests (iterate : ClassesMap -> list (list Z * Z)) (names : list (list Z)) (classes_map m : ClassesMap) (p1 : ProfileProperties)
    (combinations : list (list (list Z))) (class_data : list Z) :
  (forall m, iterate m ≡ₚ map_to_list m) -> SetClassNames iterate names classes_map ProfileProperties_new = Done (m, p1) ->
  classes_ok classes_map -> (forall name c, m !! name = Some c -> name_ok name) -> Z.of_nat (size m) < 8 -> zlen combinations < MAX_EXCLUDABLE_CLASSES ->
  exists p filters, SetExcludableCombinations m combinations p1 = Done p /\ excludeFlagsToNodeFilter (zlen class_data) class_data p = Some filters /\
    name_to_class p (seqZ 0 (MAX_CLASS_INDEX + 1)) ∅ = Some m /\
    forall F (facades : list F) exclude, length facades = length filters ->
      match Get facades p m exclude with
      | Done (Some facade) => exists i mask nodes, facades !! i = Some facade /\ excludable_classes p !! i = Some mask /\ filters !! i = Some nodes /\
          nodes = filter_of class_data mask /\
          (forall c, Z.land c mask = 0 <-> forall name cm, name ∈ exclude -> m !! name = Some cm -> Z.land c cm = 0) /\
          forall name, name ∈ exclude -> is_Some (m !! name)
      | Done None => (exists name, name ∈ exclude /\ m !! name = None) \/
          (forall combination, combination ∈ combinations -> combination_mask m combination <> combination_mask m exclude)
      | _ => False
      end.
Proof.
  intros Hit E Hcm Hn Hs Hlen. destruct (profile_set iterate names classes_map m p1 combinations Hit E Hcm Hn Hlen) as (Hm & p & Ep & Hnames & Hp).
  exists p, (filter_of class_data <$> 0 :: masks_of m combinations).
  split; [done|]. split; [by apply filters_set|]. split; [done|]. intros F facades exclude Hf. rewrite length_fmap in Hf.
  pose proof (Get_ok m combinations p Hm Hs Hp facades exclude Hf) as HG.
  destruct (Get facades p m exclude) as [[f|]| |]; try done. destruct HG as (i & mask & H1 & H2 & H3 & H4 & H5).
  exists i, mask, (filter_of class_data mask). split_and!; try done. by rewrite (list_lookup_fmap (filter_of class_data) (0 :: masks_of m combinations)), H3.
Qed.

(** C33: the names of the classes are checked and stored.  From classes with a
    bit each, [SetClassNames] either throws, because a name of the profile is
    not valid, there are more than eight classes or a way used a class that
    the profile does not name; or it leaves every class with a bit of its own
    and its name in the properties, the classes being those of the profile
    when it has any.  It is never undefined as long as names are not empty
    and fit the arrays. *)
Theorem class_names_checked (iterate : ClassesMap -> list (list Z * Z)) (names : list (list Z)) (classes_map : ClassesMap) :
  (forall m, iterate m ≡ₚ map_to_list m) -> classes_ok classes_map -> (forall name, name ∈ names -> name <> [] /\ zlen name <= MAX_CLASS_NAME_LENGTH) ->
  (forall name c, classes_map !! name = Some c -> name_ok name) ->
  match SetClassNames iterate names classes_map ProfileProperties_new with
  | Done (m, p) => classes_ok m /\ classes_map ⊆ m /\ named m p /\ (names = [] -> m = classes_map) /\ (names <> [] -> dom m = list_to_set names)
  | Throws _ => names <> [] /\ ((exists name, name ∈ names /\ isValidClassName name = false) \/
      8 < Z.of_nat (size (dom classes_map ∪ list_to_set names)) \/ exists name, name ∈ dom classes_map /\ name ∉ names)
  | Undefined => False
  end.
Proof.
  intros Hit Hm Hnames Hkeys. unfold SetClassNames. case_bool_decide as Hne; cbn [mbind outcome_mbind outcome_bind].
  { destruct (write_names_named classes_map (iterate classes_map) Hm Hkeys (Hit _)) as (p & -> & Hp & _). by split_and!. }
  pose proof (add_class_names_ok names classes_map Hm) as Hadd. destruct (add_class_names names classes_map) as [m|msg|]; cbn [mbind outcome_mbind outcome_bind]; [|naive_solver|done].
  destruct Hadd as (Hm' & Hsub & Hdom & Hv). pose proof (check_class_names_ok names (iterate m)) as Hc.
  assert (forall name c, (name, c) ∈ iterate m <-> m !! name = Some c) as Hin by (intros; rewrite (Hit m); apply elem_of_map_to_list).
  destruct (check_class_names names (iterate m)) as [u|msg|]; cbn [mbind outcome_mbind outcome_bind]; [| |done].
  - assert (forall name, is_Some (m !! name) -> name ∈ names) as Hk by (intros name [c Hx]; eapply Hc; by apply Hin).
    destruct (write_names_named m (iterate m) Hm') as (p & -> & Hp & _); [|done|].
    { intros name c Hx. assert (name ∈ names) as Hnm by (apply Hk; by exists c). split; [by apply Hv|by apply Hnames]. }
    cbn. split_and!; try done. intros _. rewrite Hdom. apply set_eq. intros x. rewrite elem_of_union, elem_of_list_to_set. split; [|by right].
    intros [[c Hx]%elem_of_dom|?]; [|done]. apply Hk. exists c. by eapply lookup_weaken.
  - split; [done|]. right. right. destruct Hc as (name & c & Hx%Hin & Hnot). exists name. split; [|done].
    apply elem_of_dom_2 in Hx. rewrite Hdom in Hx. set_solver.
Qed.

(** ** Concrete profiles *)

Definition letter (i : Z) : list Z := [97 + i].
Definition letters (k : nat) : list (list Z) := letter <$> seqZ 0 (Z.of_nat k).

Definition profile (k : nat) (combinations : list (list (list Z))) : outcome (ClassesMap * ProfileProperties) :=
  '(m, p) ← SetClassNames map_to_list (letters k) ∅ ProfileProperties_new;
  p' ← SetExcludableCombinations m combinations p;
  Done (m, p').

(** Eight combinations pass the check, but the first entry is taken by the empty one. *)
Theorem eight_combinations_overrun : profile 3 (replicate 8 (letters 1)) = Undefined.
Proof. by vm_compute. Qed.

(** The mask of all eight classes is the mark of an unused entry. *)
Theorem all_classes_excluded : exists m p filters, profile 8 [] = Done (m, p) /\ excludeFlagsToNodeFilter 2 [0; 1] p = Some filters /\
  Get filters p m (letters 8) = Undefined.
Proof. eexists _, _, _. split; [by vm_compute|]. split; by vm_compute. Qed.

(** A name that is too long loses its terminator. *)
Theorem long_class_name : exists p, SetClassName ProfileProperties_new 0 (replicate 256 97) = Some p /\ GetClassName p 0 = None.
Proof. eexists. split; by vm_compute. Qed.

Lemma letters_names k : (k <= 8)%nat -> forall name, name ∈ letters k -> name_ok name.
Proof.
  intros Hk name (i & -> & Hi%elem_of_seqZ)%list_elem_of_fmap. unfold name_ok, letter, isValidClassName, MAX_CLASS_NAME_LENGTH, isalnum.
  cbn [forallb]. split; [|by split]. rewrite (proj2 (Z.leb_le 97 (97 + i))), (proj2 (Z.leb_le (97 + i) 122)) by lia. by rewrite orb_true_r.
Qed.

Lemma way_classes_witness : exists mask m, classesToMask ∅ [(letter 0, true); (letter 1, false); (letter 2, true)] 0 = Done (mask, m) /\
  Z.testbit mask 1 = true /\ classes_ok m.
Proof.
  pose proof (way_classes [(letter 0, true); (letter 1, false); (letter 2, true)] ∅ 0 classes_ok_empty) as H.
  eexists _, _. split; [vm_compute; reflexivity|]. split; [by vm_compute|]. vm_compute in H. exact (proj1 H).
Defined.

Lemma class_names_checked_witness : exists m p, SetClassNames map_to_list (letters 3) ∅ ProfileProperties_new = Done (m, p) /\ classes_ok m /\ named m p.
Proof.
  pose proof (class_names_checked map_to_list (letters 3) ∅ ltac:(done) classes_ok_empty
    ltac:(intros name Hn%letters_names; [exact (proj2 Hn)|lia]) ltac:(by intros ? ? ?%lookup_empty_Some)) as H.
  destruct (SetClassNames map_to_list (letters 3) ∅ ProfileProperties_new) as [[m p]|msg|] eqn:E; [|vm_compute in E; discriminate E..].
  exists m, p. split; [reflexivity|]. destruct H as (H1 & _ & H3 & _). split; [exact H1|exact H3].
Defined.

(** Three letters as classes. *)
Lemma letters_profile : exists m p, SetClassNames map_to_list (letters 3) ∅ ProfileProperties_new = Done (m, p) /\
  (forall name c, m !! name = Some c -> name_ok name) /\ Z.of_nat (size m) = 3 /\ m !! letter 0 = Some 1 /\ m !! letter 1 = Some 2.
Proof.
  destruct (SetClassNames map_to_list (letters 3) ∅ ProfileProperties_new) as [[m p]|msg|] eqn:E; [|vm_compute in E; discriminate E..].
  exists m, p. split; [done|]. vm_compute in E. injection E as <- _. split; [|split; [|split]; vm_compute; reflexivity].
  intros name c Hc. apply (letters_names 3); [lia|]. apply elem_of_dom_2 in Hc. revert Hc.
  apply (bool_decide_unpack (set_Forall (fun x => x ∈ letters 3) _)). by vm_compute.
Qed.

Lemma excluded_requests_witness : exists m p p' filters, SetClassNames map_to_list (letters 3) ∅ ProfileProperties_new = Done (m, p) /\
  SetExcludableCombinations m [[letter 0]; [letter 0; letter 1]] p = Done p' /\ excludeFlagsToNodeFilter 3 [0; 1; 2] p' = Some filters /\
  Get filters p' m [letter 1; letter 0] = Done (Some [true; false; false]).
Proof.
  destruct letters_profile as (m & p & E & Hn & Hs & _ & _).
  destruct (excluded_requests map_to_list (letters 3) ∅ m p [[letter 0]; [letter 0; letter 1]] [0; 1; 2] ltac:(done) E classes_ok_empty Hn ltac:(lia) ltac:(done))
    as (p' & filters & E1 & E2 & _ & _).
  exists m, p, p', filters. split; [exact E|]. split; [exact E1|]. split; [exact E2|].
  clear Hn Hs. vm_compute in E. injection E as <- <-. vm_compute in E1. injection E1 as <-. vm_compute in E2. injection E2 as <-. by vm_compute.
Defined.
