(* ===== verification/MultiLevelGraph.v ===== *)
(** * The graph of the multi-level search

    Model of include/partitioner/multi_level_graph.hpp: a static graph whose
    edges are sorted, per node, by the highest level at which they leave a
    cell.  One byte per node and level says how many edges of the node stay
    inside its cell below that level, so that the edges relevant to a level
    are a suffix of the edges of the node. *)
From stdpp Require Import sorting.
From S2P Require Import Prelude Sorting Permutation DynamicGraph StaticGraph MultiLevelPartition.
Import Static.

Module Multi.

Record MultiLevelGraph (D : Type) : Type := mkMultiLevelGraph {
  base : StaticGraph D;
  node_to_edge_offset : list Z;
  connectivity_checksum : Z
}.
Arguments mkMultiLevelGraph {_}.
Arguments base {_}.
Arguments node_to_edge_offset {_}.
Arguments connectivity_checksum {_}.

Section multi_level_graph.
Context {D : Type}.
Implicit Types (g : MultiLevelGraph D) (mlp : MultiLevelPartition) (edges : list (InputEdge D)).

(** ** Construction *)

Definition GetHighestBorderLevel mlp edges : option (list Z) :=
  mapM (fun e => GetHighestDifferentLevel mlp (ie_source e) (ie_target e)) edges.

(** What the comparison ties together; only indices in range are compared. *)
Definition edge_key edges (highest_border_level : list Z) (i : Z) : Z * Z * Z :=
  (default 0 (ie_source <$> edges !z i), default 0 (highest_border_level !z i),
   default 0 (ie_target <$> edges !z i)).

Definition SortEdgesByHighestLevel (parallel_sort : sort_function) (highest_border_level : list Z) edges
  : list Z :=
  parallel_sort Z (fun lhs rhs => lex3 (edge_key edges highest_border_level lhs)
                                       (edge_key edges highest_border_level rhs))
    (wrap 32 <$> seqZ 0 (zlen edges)).

(** [find_if] for the next edge of another source or another level. *)
Fixpoint skip_level (node level : Z) (es : list (InputEdge D * Z)) : Z * list (InputEdge D * Z) :=
  match es with
  | [] => (0, [])
  | e :: es' =>
      if negb (ie_source (fst e) =? node) || negb (snd e =? level) then (0, es)
      else let '(n, rest) := skip_level node level es' in (n + 1, rest)
  end.

(** The bytes pushed for the levels of a node; [distance] edges of the node precede [es]. *)
Fixpoint node_levels (levels : nat) (node level distance : Z) (es : list (InputEdge D * Z))
  : list Z * list (InputEdge D * Z) :=
  match levels with
  | O => ([], es)
  | S levels =>
      let '(n, rest) := skip_level node level es in
      let '(offs, rest') := node_levels levels node (level + 1) (distance + n) rest in
      (wrap 8 (distance + n) :: offs, rest')
  end.

Fixpoint nodes_levels (nodes : nat) (levels : Z) (node : Z) (es : list (InputEdge D * Z)) : list Z :=
  match nodes with
  | O => []
  | S nodes =>
      let '(offs, rest) := node_levels (Z.to_nat levels) node 0 0 es in
      removelast (0 :: offs) ++ nodes_levels nodes levels (node + 1) rest
  end.

Definition InitializeOffsetsFromSortedEdges mlp (max_border_node_id : Z) (es : list (InputEdge D * Z))
  : list Z :=
  nodes_levels (Z.to_nat (wrap 32 (max_border_node_id + 1))) (GetNumberOfLevels mlp) 0 es
    ++ [GetNumberOfLevels mlp].

Definition max_border_node edges (highest_border_level : list Z) : Z :=
  foldl (fun m e => if 0 <? snd e then Z.max m (Z.max (ie_source (fst e)) (ie_target (fst e))) else m)
    0 (zip edges highest_border_level).

Definition MultiLevelGraph_new (parallel_sort : sort_function) mlp (num_nodes : Z) edges
  : option (MultiLevelGraph D) :=
  highest_border_level ← GetHighestBorderLevel mlp edges;
  let permutation := SortEdgesByHighestLevel parallel_sort highest_border_level edges in
  sorted ← mapM (fun i => e ← edges !z i; h ← highest_border_level !z i; Some (e, h)) permutation;
  Some (mkMultiLevelGraph (InitializeFromSortedEdgeRange num_nodes (fst <$> sorted))
          (InitializeOffsetsFromSortedEdges mlp (max_border_node edges highest_border_level) sorted) 0).

(** ** Queries *)

Definition GetNumberOfLevels g : option Z := last (node_to_edge_offset g).

Definition BeginBorderEdges g (level node : Z) : option Z :=
  levels ← GetNumberOfLevels g;
  let index := wrap 32 (node * levels) in
  if wrap 64 (zlen (node_to_edge_offset g) - 1) <=? index then
    if level =? 0 then BeginEdges (base g) node else EndEdges (base g) node
  else
    b ← BeginEdges (base g) node;
    o ← node_to_edge_offset g !z wrap 32 (index + level);
    Some (wrap 32 (b + o)).

Definition GetBorderEdgeRange g (level node : Z) : option (list Z) :=
  b ← BeginBorderEdges g level node;
  e ← EndEdges (base g) node;
  Some (irange b e).

Definition GetInternalEdgeRange g (level node : Z) : option (list Z) :=
  b ← BeginEdges (base g) node;
  e ← BeginBorderEdges g level node;
  Some (irange b e).

(** [None] without levels: a division by zero. *)
Definition GetMaxBorderNodeID g : option Z :=
  levels ← GetNumberOfLevels g;
  if levels =? 0 then None
  else Some (wrap 32 (wrap 64 (wrap 64 (zlen (node_to_edge_offset g) - 1) / levels - 1))).

(** ** Levels of a node in the sorted edges *)

Abbreviation leveled := (InputEdge D * Z)%type.
Implicit Types (es : list leveled).

(** Nothing before [(node, level)] remains. *)
Definition from_level (node level : Z) (e : leveled) : Prop :=
  node < ie_source (fst e) \/ (ie_source (fst e) = node /\ level <= snd e).

Definition level_le (e e' : leveled) : Prop :=
  ie_source (fst e) < ie_source (fst e') \/ (ie_source (fst e) = ie_source (fst e') /\ snd e <= snd e').

(** How many edges of a node stay inside its cell below [level]. *)
Definition inner_edges es (node level : Z) : Z :=
  zlen (filter (fun e => ie_source (fst e) = node /\ snd e < level) es).

Lemma skip_level_ok node level es :
  StronglySorted level_le es -> Forall (from_level node level) es ->
  exists run rest, es = run ++ rest /\ skip_level node level es = (zlen run, rest) /\
    (forall e, e ∈ run -> ie_source (fst e) = node /\ snd e = level) /\
    Forall (from_level node (level + 1)) rest /\ StronglySorted level_le rest.
Proof.
  induction 1 as [|e es Hes IH He]; intros Hf; cbn [skip_level].
  { exists [], []. split_and!; [done|done|by intros e He%elem_of_nil|constructor|constructor]. }
  inversion Hf as [|? ? Hfe Hfes]; subst.
  destruct (negb (ie_source (fst e) =? node) || negb (snd e =? level)) eqn:Ec.
  - exists [], (e :: es). split_and!; [done|done|by intros ? ?%elem_of_nil| |by constructor].
    assert (from_level node (level + 1) e) by (unfold from_level in *; lia). constructor; [done|].
    rewrite Forall_forall in He |- *. intros x Hx%He. unfold from_level, level_le in *. lia.
  - destruct (IH Hfes) as (run & rest & -> & E & Hrun & Hrest & Hs). rewrite E.
    exists (e :: run), rest. split_and!; [done|by rewrite zlen_cons, Z.add_comm| |done|done].
    intros x [->|Hx]%elem_of_cons; [lia|by apply Hrun].
Qed.

Lemma inner_edges_app es es' node level :
  inner_edges (es ++ es') node level = inner_edges es node level + inner_edges es' node level.
Proof. unfold inner_edges. by rewrite filter_app, zlen_app. Qed.

Lemma inner_edges_all es node level :
  (forall e, e ∈ es -> ie_source (fst e) = node /\ snd e < level) -> inner_edges es node level = zlen es.
Proof. intros H. unfold inner_edges. by rewrite filter_all. Qed.

Lemma inner_edges_none es node level :
  (forall e, e ∈ es -> ~ (ie_source (fst e) = node /\ snd e < level)) -> inner_edges es node level = 0.
Proof. intros H. unfold inner_edges. by rewrite filter_none. Qed.

Lemma inner_edges_from es node level : Forall (from_level node level) es -> inner_edges es node level = 0.
Proof.
  intros H. apply inner_edges_none. rewrite Forall_forall in H. intros e He%H. unfold from_level in He. lia.
Qed.

Lemma node_levels_ok levels : forall node level distance es,
  StronglySorted level_le es -> Forall (from_level node level) es ->
  exists run rest offs, es = run ++ rest /\ node_levels levels node level distance es = (offs, rest) /\
    (forall e, e ∈ run -> ie_source (fst e) = node) /\ zlen offs = Z.of_nat levels /\
    Forall (from_level node (level + Z.of_nat levels)) rest /\ StronglySorted level_le rest /\
    forall j, 0 <= j < Z.of_nat levels -> offs !z j = Some (wrap 8 (distance + inner_edges es node (level + j + 1))).
Proof.
  induction levels as [|levels IH]; intros node level distance es Hs Hf; cbn [node_levels].
  { exists [], es, []. split_and!; [done|done|by intros e He%elem_of_nil|done| |done|lia]. by rewrite Z.add_0_r. }
  destruct (skip_level_ok node level es Hs Hf) as (run & rest & -> & -> & Hrun & Hrest & Hsr).
  destruct (IH node (level + 1) (distance + zlen run) rest Hsr Hrest)
    as (run' & rest' & offs & -> & -> & Hrun' & Hlen & Hrest' & Hsr' & Hoffs).
  exists (run ++ run'), rest', (wrap 8 (distance + zlen run) :: offs).
  split_and!; [by rewrite app_assoc|done| |rewrite zlen_cons; lia| |done|].
  - intros e [He|He]%elem_of_app; [by apply Hrun|by apply Hrun'].
  - by replace (level + Z.of_nat (S levels)) with (level + 1 + Z.of_nat levels) by lia.
  - intros j Hj. rewrite inner_edges_app, (inner_edges_all run) by (intros e He%Hrun; lia).
    destruct (decide (j = 0)) as [->|Hne].
    + rewrite Z.add_0_r, (inner_edges_from _ _ _ Hrest), Z.add_0_r. done.
    + rewrite zget_cons_S, Hoffs by lia. do 2 f_equal. rewrite Z.add_assoc. do 2 f_equal. lia.
Qed.

Lemma removelast_get {A} (l : list A) j : 0 <= j < zlen l - 1 -> removelast l !z j = l !z j.
Proof.
  destruct l as [|x l _] using rev_ind; intros Hj; [unfold zlen in Hj; simpl in Hj; lia|].
  rewrite removelast_last. rewrite zlen_snoc in Hj. by rewrite zget_app_l by lia.
Qed.

Lemma removelast_len {A} (l : list A) : l <> [] -> zlen (removelast l) = zlen l - 1.
Proof.
  destruct l as [|x l _] using rev_ind; [done|]. intros _. rewrite removelast_last, zlen_snoc. lia.
Qed.

Lemma nodes_levels_ok levels nodes : 0 < levels -> forall node es,
  StronglySorted level_le es -> Forall (from_level node 0) es -> (forall e, e ∈ es -> 0 <= snd e < levels) ->
  zlen (nodes_levels nodes levels node es) = Z.of_nat nodes * levels /\
  forall k l, 0 <= k < Z.of_nat nodes -> 0 <= l < levels ->
    nodes_levels nodes levels node es !z (k * levels + l) = Some (wrap 8 (inner_edges es (node + k) l)).
Proof.
  intros Hl. induction nodes as [|nodes IH]; intros node es Hs Hf Hh; cbn [nodes_levels]; [split; [done|lia]|].
  destruct (node_levels_ok (Z.to_nat levels) node 0 0 es Hs Hf)
    as (run & rest & offs & -> & -> & Hrun & Hlen & Hrest & Hsr & Hoffs).
  rewrite !Z2Nat.id in * by lia.
  assert (Forall (from_level (node + 1) 0) rest) as Hrest'.
  { rewrite Forall_forall in Hrest |- *. intros e He. pose proof (Hrest e He).
    pose proof (Hh e ltac:(apply elem_of_app; by right)). unfold from_level in *. lia. }
  destruct (IH (node + 1) rest Hsr Hrest') as [IHl IHg]; [intros e He; apply Hh, elem_of_app; by right|].
  assert (zlen (removelast (0 :: offs)) = levels) as Lr by (rewrite removelast_len, zlen_cons by done; lia).
  split; [rewrite zlen_app, Lr, IHl; lia|]. intros k l Hk Hlr. destruct (decide (k = 0)) as [->|Hne].
  - rewrite zget_app_l by (rewrite Lr; lia). rewrite removelast_get by (rewrite zlen_cons; lia).
    rewrite Z.add_0_r. change (0 * levels + l) with l. destruct (decide (l = 0)) as [->|Hl0].
    + rewrite zget_cons_0. by rewrite (inner_edges_from (run ++ rest)).
    + rewrite zget_cons_S, Hoffs by lia. do 2 f_equal. rewrite Z.add_0_l. f_equal. lia.
  - rewrite zget_app_r by (rewrite Lr; nia). rewrite Lr.
    replace (k * levels + l - levels) with ((k - 1) * levels + l) by lia. rewrite IHg by lia.
    rewrite inner_edges_app, (inner_edges_none run) by (intros e He%Hrun; lia).
    by replace (node + 1 + (k - 1)) with (node + k) by lia.
Qed.

(** In a list sorted by level the edges below a level come first. *)
Lemma inner_prefix es level :
  StronglySorted (fun e e' => snd e <= snd e') es -> forall i e, es !z i = Some e ->
  (i < zlen (filter (fun e => snd e < level) es) <-> snd e < level).
Proof.
  induction 1 as [|x es Hes IH Hx]; intros i e Hi; [by apply zget_elem, elem_of_nil in Hi|].
  rewrite filter_cons. case_decide as Hc.
  - rewrite zlen_cons. apply zget_cons_inv in Hi as [[-> ->]|[Hi Hg]].
    + pose proof (zlen_nonneg (filter (fun e => snd e < level) es)). lia.
    + rewrite <- (IH _ _ Hg). lia.
  - rewrite Forall_forall in Hx. rewrite filter_none by (intros y Hy%Hx; lia). rewrite zlen_nil.
    pose proof (zget_some _ _ _ Hi). apply zget_cons_inv in Hi as [[-> ->]|[Hi Hg]]; [lia|].
    apply zget_elem in Hg. pose proof (Hx _ Hg). lia.
Qed.

(** ** The sorted edges *)

(** A partition, and edges between its nodes whose number per node fits a byte. *)
Record mlg_input mlp (levels nodes : Z) edges : Prop := {
  mi_partition : mlp_ok mlp levels;
  mi_nested : nested_cells mlp levels;
  mi_num_level : num_level (level_data mlp) = levels + 1;
  mi_levels : levels + 1 < 256;
  mi_nonempty : 0 < nodes;
  mi_nodes : zlen (partition mlp) = nodes + 1;
  mi_ends e : e ∈ edges -> 0 <= ie_source e < nodes /\ 0 <= ie_target e < nodes;
  mi_degree n : zlen (filter (fun e => ie_source e = n) edges) <= 255;
  mi_size : zlen edges < UINT32_MAX;
  mi_index : (nodes + 1) * (levels + 1) < 2 ^ 32
}.

(** The level of an edge. *)
Definition leveled_ok mlp (levels : Z) (e : leveled) : Prop :=
  GetHighestDifferentLevel mlp (ie_source (fst e)) (ie_target (fst e)) = Some (snd e) /\ 0 <= snd e <= levels.

Lemma GetHighestBorderLevel_ok mlp levels nodes edges :
  mlg_input mlp levels nodes edges ->
  exists hs, GetHighestBorderLevel mlp edges = Some hs /\ length hs = length edges /\
    forall e, e ∈ zip edges hs -> leveled_ok mlp levels e.
Proof.
  intros Hin. unfold GetHighestBorderLevel. pose proof (mi_ends _ _ _ _ Hin) as Hends.
  pose proof (mi_nodes _ _ _ _ Hin). pose proof (mi_partition _ _ _ _ Hin). clear Hin.
  induction edges as [|e edges IH]; [by exists []; split_and!; [| |by intros e He%elem_of_nil]|].
  destruct IH as (hs & E & Hl & Hok); [intros x Hx; apply Hends; by right|].
  destruct (Hends e) as [Hs Ht]; [by left|].
  destruct (GetHighestDifferentLevel_ok mlp levels (ie_source e) (ie_target e)) as (h & Hh & Hr & _); [done|lia|lia|].
  exists (h :: hs). cbn [mapM mbind option_bind]. rewrite Hh. cbn [mbind option_bind]. rewrite E.
  split_and!; [done|simpl; lia|]. simpl. intros x [->|Hx]%elem_of_cons; [by split|by apply Hok].
Qed.

Lemma StronglySorted_Forall2 {A B} (R : A -> A -> Prop) (S : B -> B -> Prop) (P : A -> B -> Prop) l k :
  (forall x y x' y', P x x' -> P y y' -> R x y -> S x' y') -> Forall2 P l k -> StronglySorted R l -> StronglySorted S k.
Proof.
  intros HRS Hlk. induction Hlk as [|x x' l k Hx Hl IH]; intros HR; [constructor|].
  apply StronglySorted_inv in HR as [HRl HRx]. constructor; [by apply IH|].
  rewrite Forall_forall in HRx. apply Forall_forall. intros y' [i Hy']%list_elem_of_lookup.
  destruct (Forall2_lookup_r _ _ _ _ _ Hl Hy') as (y & Hy & HP). eapply HRS; [done|done|].
  apply HRx. apply list_elem_of_lookup. eauto.
Qed.

Lemma zip_get {A B} (l : list A) (k : list B) i a b :
  zip l k !z i = Some (a, b) <-> l !z i = Some a /\ k !z i = Some b.
Proof.
  unfold zget. destruct (0 <=? i); [|split; [done|by intros [? ?]]]. rewrite lookup_zip_with.
  destruct (l !! Z.to_nat i) as [x|], (k !! Z.to_nat i) as [y|]; simpl; split; try done; try by intros [? ?].
  - by intros [= -> ->].
  - by intros [[= ->] [= ->]].
Qed.

Lemma sorted_edges_ok parallel_sort `{!ParallelSort parallel_sort} edges hs :
  length hs = length edges -> zlen edges < UINT32_MAX ->
  exists sorted, mapM (fun i => e ← edges !z i; h ← hs !z i; Some (e, h))
      (SortEdgesByHighestLevel parallel_sort hs edges) = Some sorted /\
    sorted ≡ₚ zip edges hs /\ StronglySorted level_le sorted.
Proof.
  intros Hlen Hsz. set (perm := SortEdgesByHighestLevel parallel_sort hs edges).
  assert (perm ≡ₚ seqZ 0 (zlen edges)) as Hperm.
  { unfold perm, SortEdgesByHighestLevel. rewrite parallel_sort_Permutation.
    rewrite (list_fmap_ext _ id); [by rewrite list_fmap_id|]. intros i x Hx. apply lookup_seqZ in Hx as [-> Hi].
    apply wrap_small. unfold UINT32_MAX, in_word, id in *. lia. }
  assert (Forall2 (fun i y => (e ← edges !z i; h ← hs !z i; Some (e, h)) = Some y) (seqZ 0 (zlen edges)) (zip edges hs)) as HZ.
  { apply Forall2_same_length_lookup. split; [rewrite length_seqZ, length_zip_with_l_eq by done; unfold zlen; lia|].
    intros i x [a b] Hx Hy. apply lookup_seqZ in Hx as [-> Hi]. rewrite <- zget_nat in Hy.
    apply zip_get in Hy as [Ha Hb]. rewrite Z.add_0_l, Ha, Hb. done. }
  destruct (Permutation_Forall2 (symmetry Hperm) HZ) as (sorted & Hp & HF).
  exists sorted. split; [by apply mapM_Some|]. split; [done|].
  assert (ordered (fun i j => lex3 (edge_key edges hs i) (edge_key edges hs j)) perm) as Ho
    by (unfold perm, SortEdgesByHighestLevel; apply parallel_sort_ordered, lex3_strict_weak).
  eapply (StronglySorted_Forall2 _ _ _ perm); [|exact HF|exact Ho].
  intros i j [a ha] [b hb]. cbv beta. intros H1 H2. inv_opt. simplify_eq. unfold edge_key, level_le, lex3.
  rewrite Hr, Hr0, Hr1, Hr2. simpl. lia.
Qed.

Lemma sources_sorted_leveled (sorted : list leveled) lo hi :
  StronglySorted level_le sorted -> (forall e, e ∈ sorted -> lo <= ie_source (fst e) < hi) ->
  sources_sorted lo hi (fst <$> sorted).
Proof.
  intros Hs. revert lo. induction Hs as [|e es Hes IH He]; intros lo Hr; [done|]. simpl. split; [apply Hr; by left|].
  apply IH. intros x Hx. rewrite Forall_forall in He. pose proof (He x Hx). unfold level_le in *.
  pose proof (Hr x ltac:(by right)). lia.
Qed.

Lemma filter_fst (sorted : list leveled) n :
  filter (fun e => ie_source e = n) (fst <$> sorted) = fst <$> filter (fun e => ie_source (fst e) = n) sorted.
Proof.
  induction sorted as [|e es IH]; [done|]. rewrite fmap_cons, !filter_cons. case_decide; simpl; by rewrite IH.
Qed.

Lemma max_border_node_ok edges hs :
  0 <= max_border_node edges hs /\
  (forall e, e ∈ zip edges hs -> 0 < snd e -> ie_source (fst e) <= max_border_node edges hs) /\
  forall b, 0 <= b -> (forall e, e ∈ zip edges hs -> ie_source (fst e) <= b /\ ie_target (fst e) <= b) ->
    max_border_node edges hs <= b.
Proof.
  unfold max_border_node. generalize (zip edges hs). clear hs. intros es.
  set (f := fun (m : Z) (e : leveled) => _).
  cut (forall m, m <= foldl f m es /\ (forall e, e ∈ es -> 0 < snd e -> ie_source (fst e) <= foldl f m es) /\
    forall b, m <= b -> (forall e, e ∈ es -> ie_source (fst e) <= b /\ ie_target (fst e) <= b) -> foldl f m es <= b);
    [intros H; apply (H 0)|].
  induction es as [|e es IH]; intros m; simpl.
  { split; [lia|]. split; [by intros ? ?%elem_of_nil|done]. }
  destruct (IH (f m e)) as (H1 & H2 & H3). unfold f in H1 at 1.
  split; [destruct (0 <? snd e); lia|]. split.
  - intros x [->|Hx]%elem_of_cons Hh; [|by apply H2]. destruct (Z.ltb_spec 0 (snd e)); lia.
  - intros b Hb Hall. apply H3.
    + destruct (Hall e); [by left|]. unfold f. destruct (0 <? snd e); lia.
    + intros x Hx. apply Hall. by right.
Qed.

(** ** Border edges *)

(** An edge that belongs to a level: every edge at level 0, above it the edges that leave the cell. *)
Definition leaves mlp (level n m : Z) : Prop := level = 0 \/ GetCell mlp level n <> GetCell mlp level m.

Section border.
Context (parallel_sort : sort_function) `{!ParallelSort parallel_sort}.
Context (mlp : MultiLevelPartition) (levels nodes : Z) (edges : list (InputEdge D)).
Context (Hin : mlg_input mlp levels nodes edges).

Lemma leaves_level n m h level :
  0 <= n < nodes -> 0 <= m < nodes -> GetHighestDifferentLevel mlp n m = Some h -> 0 <= level <= levels ->
  level <= h <-> leaves mlp level n m.
Proof using Hin.
  intros Hn Hm Hh Hl. pose proof (mi_nodes _ _ _ _ Hin) as Hp.
  destruct (GetHighestDifferentLevel_ok mlp levels n m (mi_partition _ _ _ _ Hin)) as (h' & Hh' & Hr & Hsame & Hdiff);
    [lia|lia|]. assert (h' = h) as -> by congruence. unfold leaves. split.
  - intros Hle. destruct (decide (level = 0)); [by left|]. right. intros E. apply Hdiff; [lia|].
    apply (nested_cells_le mlp levels level h n m (mi_nested _ _ _ _ Hin)); unfold is_node; done || lia.
  - intros [->|Hne]; [lia|]. destruct (decide (level <= h)); [done|]. destruct Hne. apply Hsame. lia.
Qed.

(** The constructor succeeds; the static graph holds the edges of every node,
    and the bytes count the inner edges of the nodes up to the last border node. *)
Lemma new_ok : exists g sorted border, MultiLevelGraph_new parallel_sort mlp nodes edges = Some g /\
  sg_wf (base g) /\ number_of_nodes (base g) = nodes /\ (fst <$> sorted) ≡ₚ edges /\
  StronglySorted level_le sorted /\ (forall e, e ∈ sorted -> leveled_ok mlp levels e) /\
  (forall n, 0 <= n < nodes -> sadj (base g) n =
     edge_of_input <$> (fst <$> filter (fun e => ie_source (fst e) = n) sorted)) /\
  0 <= border < nodes /\ (forall e, e ∈ sorted -> 0 < snd e -> ie_source (fst e) <= border) /\
  zlen (node_to_edge_offset g) = (border + 1) * (levels + 1) + 1 /\
  last (node_to_edge_offset g) = Some (levels + 1) /\
  forall n l, 0 <= n <= border -> 0 <= l <= levels ->
    node_to_edge_offset g !z (n * (levels + 1) + l) = Some (wrap 8 (inner_edges sorted n l)).
Proof using Hin ParallelSort0.
  destruct (GetHighestBorderLevel_ok _ _ _ _ Hin) as (hs & Eh & Hlen & Hok).
  pose proof (mi_size _ _ _ _ Hin) as Hsize. pose proof (mi_index _ _ _ _ Hin) as Hidx.
  pose proof (mlp_levels _ _ (mi_partition _ _ _ _ Hin)) as Hlv. pose proof (mi_levels _ _ _ _ Hin) as Hlv'.
  destruct (sorted_edges_ok parallel_sort edges hs Hlen Hsize) as (sorted & Es & Hp & Hs).
  unfold MultiLevelGraph_new. step_opt Eh. step_opt Es. eexists _, sorted, (max_border_node edges hs).
  split; [reflexivity|]. cbn [base node_to_edge_offset].
  pose proof (mi_nonempty _ _ _ _ Hin) as Hnn.
  assert ((fst <$> sorted) ≡ₚ edges) as Hpe by (rewrite Hp, fst_zip by lia; done).
  assert (forall e, e ∈ sorted -> 0 <= ie_source (fst e) < nodes /\ 0 <= ie_target (fst e) < nodes) as Hr.
  { intros e He. apply (mi_ends _ _ _ _ Hin). rewrite <- Hpe. by apply list_elem_of_fmap_2. }
  destruct (construct_ok nodes (fst <$> sorted)) as [Hwf Hadj];
    [unfold UINT32_MAX; nia|by apply sources_sorted_leveled; [|intros e He%Hr; lia]|
     unfold zlen in *; by rewrite Hpe|].
  destruct (max_border_node_ok edges hs) as (B0 & B1 & B2).
  assert (max_border_node edges hs <= nodes - 1) as Hb.
  { apply B2; [lia|]. intros e He. rewrite <- Hp in He. apply Hr in He. lia. }
  assert (MultiLevelPartition.GetNumberOfLevels mlp = levels + 1) as EL.
  { unfold MultiLevelPartition.GetNumberOfLevels. rewrite (mi_num_level _ _ _ _ Hin). apply wrap_small. split; lia. }
  unfold InitializeOffsetsFromSortedEdges. rewrite EL, wrap_small by (split; nia).
  destruct (nodes_levels_ok (levels + 1) (Z.to_nat (max_border_node edges hs + 1)) ltac:(lia) 0 sorted Hs) as [Hol Hog].
  { apply Forall_forall. intros e He. pose proof (Hr _ He). rewrite Hp in He. destruct (Hok _ He) as [_ ?].
    unfold from_level. lia. }
  { intros e He. rewrite Hp in He. destruct (Hok _ He) as [_ ?]. lia. }
  rewrite Z2Nat.id in Hol, Hog by lia. split_and!; try done; try lia.
  - intros e He. rewrite Hp in He. by apply Hok.
  - intros n Hn. by rewrite Hadj, filter_fst by lia.
  - intros e He. rewrite Hp in He. by apply B1.
  - rewrite zlen_snoc, Hol. lia.
  - by rewrite last_snoc.
  - intros n l Hn Hl. rewrite zget_app_l by (rewrite Hol; nia). rewrite Hog by lia. by rewrite Z.add_0_l.
Qed.

Lemma inner_edges_filter (sorted : list leveled) n l :
  inner_edges sorted n l = zlen (filter (fun e => snd e < l) (filter (fun e => ie_source (fst e) = n) sorted)).
Proof.
  unfold inner_edges. f_equal. rewrite list_filter_filter. apply list_filter_iff. intros e. tauto.
Qed.

Lemma filter_length {A} (P : A -> Prop) `{!forall x, Decision (P x)} (l : list A) : zlen (filter P l) <= zlen l.
Proof. unfold zlen. pose proof (length_filter P l). lia. Qed.

Lemma degree_byte (sorted : list leveled) n :
  (fst <$> sorted) ≡ₚ edges -> zlen (filter (fun e => ie_source (fst e) = n) sorted) <= 255.
Proof using Hin.
  intros Hp. pose proof (mi_degree _ _ _ _ Hin n) as Hd. rewrite <- Hp in Hd.
  rewrite filter_fst in Hd. unfold zlen in *. by rewrite length_fmap in Hd.
Qed.

(** The border edges of a node start after its inner edges. *)
Lemma BeginBorderEdges_ok : exists g sorted, MultiLevelGraph_new parallel_sort mlp nodes edges = Some g /\
  sg_wf (base g) /\ number_of_nodes (base g) = nodes /\ (fst <$> sorted) ≡ₚ edges /\
  StronglySorted level_le sorted /\ (forall e, e ∈ sorted -> leveled_ok mlp levels e) /\
  (forall n, 0 <= n < nodes -> sadj (base g) n =
     edge_of_input <$> (fst <$> filter (fun e => ie_source (fst e) = n) sorted)) /\
  forall n l b e, 0 <= n < nodes -> 0 <= l <= levels -> BeginEdges (base g) n = Some b -> EndEdges (base g) n = Some e ->
    0 <= b <= e -> e < UINT32_MAX -> e - b = zlen (filter (fun e => ie_source (fst e) = n) sorted) ->
    BeginBorderEdges g l n = Some (b + inner_edges sorted n l).
Proof using Hin ParallelSort0.
  destruct new_ok as (g & sorted & border & E & Hwf & Hn & Hp & Hs & Hlv & Hadj & Hb & Hbord & Hlen & Hlast & Hoff).
  exists g, sorted. split_and!; try done. intros n l b e Hnr Hl Hbe Hee Hr He32 Hcnt.
  pose proof (mi_index _ _ _ _ Hin) as Hidx. pose proof (mlp_levels _ _ (mi_partition _ _ _ _ Hin)).
  unfold BeginBorderEdges, GetNumberOfLevels. step_opt Hlast. rewrite Hlen, !(wrap_small 32 (n * _)) by (split; nia).
  rewrite (wrap_small 64) by (split; nia). unfold UINT32_MAX in *.
  rewrite inner_edges_filter. pose proof (degree_byte sorted n Hp) as Hdeg.
  pose proof (filter_length (fun e => snd e < l) (filter (fun e => ie_source (fst e) = n) sorted)) as Hfl.
  pose proof (zlen_nonneg (filter (fun e => snd e < l) (filter (fun e => ie_source (fst e) = n) sorted))) as Hfp.
  destruct (decide (n <= border)) as [Hle|Hgt].
  - replace (_ <=? _) with false by nia. step_opt Hbe. rewrite (wrap_small 32) by (split; nia).
    rewrite Hoff by lia. cbn [mbind option_bind]. rewrite inner_edges_filter.
    rewrite !wrap_small; [done|split; lia..|]. rewrite wrap_small by (split; lia). split; lia.
  - replace (_ <=? _) with true by nia.
    assert (forall e, e ∈ filter (fun e => ie_source (fst e) = n) sorted -> snd e = 0) as H0.
    { intros x [Hx1 Hx2]%list_elem_of_filter. destruct (Hlv _ Hx2) as [_ ?]. pose proof (Hbord _ Hx2). lia. }
    destruct (Z.eqb_spec l 0) as [->|Hl0].
    + rewrite filter_none by (intros x Hx%H0; lia). by rewrite zlen_nil, Z.add_0_r.
    + rewrite filter_all by (intros x Hx%H0; lia). rewrite Hee, <- Hcnt. f_equal. lia.
Qed.
End border.

(** Both ranges of a node at a level. *)
Lemma border_ranges parallel_sort `{!ParallelSort parallel_sort} mlp levels nodes edges :
  mlg_input mlp levels nodes edges ->
  exists g, MultiLevelGraph_new parallel_sort mlp nodes edges = Some g /\ sg_wf (base g) /\
    forall n, 0 <= n < nodes ->
      sadj (base g) n ≡ₚ edge_of_input <$> filter (fun e => ie_source e = n) edges /\
      forall l, 0 <= l <= levels -> exists b m e,
        BeginEdges (base g) n = Some b /\ BeginBorderEdges g l n = Some m /\ EndEdges (base g) n = Some e /\
        b <= m <= e /\ GetInternalEdgeRange g l n = Some (irange b m) /\
        GetBorderEdgeRange g l n = Some (irange m e) /\
        forall i x, b <= i < e -> edge_array (base g) !z i = Some x -> (m <= i <-> leaves mlp l n (target x)).
Proof.
  intros Hin. destruct (BeginBorderEdges_ok parallel_sort _ _ _ _ Hin)
    as (g & sorted & E & Hwf & Hn & Hp & Hs & Hlv & Hadj & Hbeg).
  exists g. split; [done|]. split; [done|]. intros n Hnr. split; [by rewrite Hadj, <- filter_fst, Hp by done|].
  intros l Hl. destruct (adjacent_bounds (base g) n Hwf ltac:(lia)) as (b & e & Hb & He & Hbe & Hez & Hadj').
  rewrite Hadj in Hadj' by done. set (F := filter (fun e => ie_source (fst e) = n) sorted) in *.
  assert (e - b = zlen F) as HF.
  { rewrite <- (zslice_len (edge_array (base g)) b (e - b)) by lia. rewrite <- Hadj'. unfold zlen. by rewrite !length_fmap. }
  pose proof (sw_size _ Hwf). pose proof (filter_length (fun e => snd e < l) F).
  pose proof (zlen_nonneg (filter (fun e => snd e < l) F)).
  exists b, (b + inner_edges sorted n l), e. pose proof (Hbeg n l b e Hnr Hl Hb He Hbe ltac:(lia) HF) as Hm.
  unfold GetInternalEdgeRange, GetBorderEdgeRange. rewrite Hb, He, Hm. rewrite inner_edges_filter. fold F.
  split_and!; try done; try lia. intros i x Hi Hx. rewrite <- (Z.add_0_r i) in Hx.
  replace (i + 0) with (b + (i - b)) in Hx by lia. rewrite <- (zslice_get _ _ (e - b)), <- Hadj' in Hx by lia.
  destruct (zget_is_some F (i - b)) as [f Hf]; [lia|].
  assert (x = edge_of_input (fst f)) as ->.
  { unfold zget in Hx, Hf. destruct (0 <=? i - b); [|done]. rewrite !list_lookup_fmap, Hf in Hx. by injection Hx. }
  assert (StronglySorted (fun e e' => snd e <= snd e') F) as HsF.
  { eapply StronglySorted_impl_in; [|by apply StronglySorted_filter]. unfold level_le.
    intros y z [Hy _]%list_elem_of_filter [Hz _]%list_elem_of_filter. lia. }
  pose proof (inner_prefix F l HsF _ _ Hf) as Hpre. apply zget_elem in Hf.
  apply list_elem_of_filter in Hf as [Hsrc Hf]. destruct (Hlv _ Hf) as [Hh _]. rewrite Hsrc in Hh.
  assert (fst f ∈ edges) as Hfe by (rewrite <- Hp; by apply list_elem_of_fmap_2).
  destruct (mi_ends _ _ _ _ Hin _ Hfe) as [_ Ht].
  rewrite <- (leaves_level mlp levels nodes edges Hin n _ _ l Hnr Ht Hh Hl). lia.
Qed.

(** ** Claims *)

(** The multi-level graph.  On a nested partition and edges between its nodes,
    at most 255 per node, the constructor succeeds for every order that the
    sort may produce; every node keeps exactly its edges; and at every level
    BeginBorderEdges splits the edges of the node into the internal range,
    the edges that stay in the cell of the node at that level, and the border
    range, the edges that leave it (all of them at level 0). *)
Theorem border_edges parallel_sort `{!ParallelSort parallel_sort} mlp levels nodes edges :
  mlg_input mlp levels nodes edges ->
  exists g, MultiLevelGraph_new parallel_sort mlp nodes edges = Some g /\ sg_wf (base g) /\
    forall n, 0 <= n < nodes ->
      sadj (base g) n ≡ₚ edge_of_input <$> filter (fun e => ie_source e = n) edges /\
      forall l, 0 <= l <= levels -> exists b m e,
        BeginEdges (base g) n = Some b /\ BeginBorderEdges g l n = Some m /\ EndEdges (base g) n = Some e /\
        b <= m <= e /\ GetInternalEdgeRange g l n = Some (irange b m) /\
        GetBorderEdgeRange g l n = Some (irange m e) /\
        forall i x, b <= i < e -> edge_array (base g) !z i = Some x -> (m <= i <-> leaves mlp l n (target x)).
Proof. by apply border_ranges. Qed.
End multi_level_graph.

(** ** Witnesses *)

(** Edges over the partition of the comment in the source: 2 and 4 share all
    cells, 0 and 1 the cell of level 2. *)
Definition example_edges : list (InputEdge Z) :=
  [mkInputEdge 2 0 10; mkInputEdge 0 1 11; mkInputEdge 1 0 12; mkInputEdge 2 4 13; mkInputEdge 0 2 14;
   mkInputEdge 4 2 15; mkInputEdge 3 5 16].

Lemma example_mlg_input mlp :
  MultiLevelPartition_new example_partitions [4; 3] = Some (Some mlp) -> mlg_input mlp 2 6 example_edges.
Proof.
  intros E. destruct example_mlp as (mlp' & E' & Hok & Hn & Hlen). assert (mlp' = mlp) as -> by congruence.
  split; [done|done| |lia|lia|done| | |by vm_compute|lia].
  - vm_compute in E. by injection E as <-.
  - intros e. revert e. apply Forall_forall. repeat constructor; simpl; lia.
  - intros n. etransitivity; [apply filter_length|]. by vm_compute.
Qed.

Lemma border_edges_witness :
  exists mlp g, MultiLevelPartition_new example_partitions [4; 3] = Some (Some mlp) /\
    MultiLevelGraph_new sequential_sort mlp 6 example_edges = Some g /\
    GetBorderEdgeRange g 1 0 = Some [0; 1] /\ GetBorderEdgeRange g 2 0 = Some [1] /\
    GetInternalEdgeRange g 2 2 = Some [3] /\ leaves mlp 2 0 2.
Proof.
  destruct example_mlp as (mlp & E & _). exists mlp.
  destruct (border_edges sequential_sort mlp 2 6 example_edges (example_mlg_input mlp E)) as (g & Eg & _ & Hg).
  exists g. split; [exact E|]. split; [exact Eg|]. destruct (Hg 0 ltac:(lia)) as [_ Hb].
  destruct (Hb 2 ltac:(lia)) as (b & m & e & Hbg & Hm & He & _ & _ & _ & Hiff).
  vm_compute in E. injection E as <-. vm_compute in Eg. injection Eg as <-.
  vm_compute in Hm. injection Hm as <-. vm_compute in Hbg. injection Hbg as <-.
  vm_compute in He. injection He as <-. do 3 (split; [by vm_compute|]).
  apply (Hiff 1 (mkDynamicEdge 2 14) ltac:(by vm_compute) eq_refl). by vm_compute.
Defined.

(** A node with 256 edges inside its cell: the byte wraps to 0, and the border
    range of level 1 starts with the internal edges. *)
Definition wide_edges : list (InputEdge Z) := replicate 256 (mkInputEdge 2 4 0) ++ [mkInputEdge 2 0 0].

Lemma wide_node_offset_wraps :
  exists mlp g, MultiLevelPartition_new example_partitions [4; 3] = Some (Some mlp) /\
    MultiLevelGraph_new sequential_sort mlp 6 wide_edges = Some g /\
    BeginEdges (base g) 2 = Some 0 /\ BeginBorderEdges g 1 2 = Some 0 /\
    GetTarget (base g) 0 = Some 4 /\ GetCell mlp 1 2 = GetCell mlp 1 4.
Proof. do 2 eexists. split; [vm_compute; reflexivity|]. split; [vm_compute; reflexivity|]. by vm_compute. Qed.

End Multi.
