(* ===== verification/CellStorage.v ===== *)
(** * Cells and their boundaries

    Model of include/partitioner/cell_storage.hpp, include/util/for_each_range.hpp
    and include/customizer/cell_metric.hpp: per level and cell the boundary
    nodes the cell is entered and left through, stored in two arrays, and the
    place of the cell's matrix of weights in the arrays of a metric. *)
From stdpp Require Import sorting.
From S2P Require Import Prelude Sorting Permutation DynamicGraph StaticGraph GraphInterface EdgeBasedEdge MultiLevelPartition.

(** ** Data *)

Definition INVALID_VALUE_OFFSET : Z := 2 ^ 64 - 1.
Definition INVALID_BOUNDARY_OFFSET : Z := 2 ^ 64 - 1.

Record CellData : Type := mkCellData {
  value_offset : Z;
  source_boundary_offset : Z;
  destination_boundary_offset : Z;
  num_source_nodes : Z;
  num_destination_nodes : Z
}.

Definition CellData_default : CellData :=
  mkCellData INVALID_VALUE_OFFSET INVALID_BOUNDARY_OFFSET INVALID_BOUNDARY_OFFSET 0 0.

Record CellStorage : Type := mkCellStorage {
  source_boundary : list Z;
  destination_boundary : list Z;
  cells : list CellData;
  level_to_cell_offset : list Z
}.

Record CellMetric : Type := mkCellMetric { weights : list Z; durations : list Z; distances : list float32 }.

Definition MAXIMAL_EDGE_DURATION : Z := INT32_MAX.
Definition INVALID_EDGE_DISTANCE : float32 := SpecFloat.S754_finite false 16777215 104.

(** ** Construction *)

(** Runs of pairs with the same first component. *)
Fixpoint take_key (key : Z) (l : list (Z * Z)) : list (Z * Z) * list (Z * Z) :=
  match l with
  | [] => ([], [])
  | x :: l' =>
      if fst x =? key then let '(run, rest) := take_key key l' in (x :: run, rest) else ([], l)
  end.

(** [f] is called on every run in order; [None] is a failing [f] or too little fuel. *)
Fixpoint for_each_range {S} (fuel : nat) (f : S -> list (Z * Z) -> option S) (s : S) (l : list (Z * Z)) : option S :=
  match fuel, l with
  | _, [] => Some s
  | O, _ => None
  | Datatypes.S fuel, x :: _ =>
      let '(run, rest) := take_key (fst x) l in
      s' ← f s run;
      for_each_range fuel f s' rest
  end.

Definition set_source_boundary (cell : CellData) (num offset : Z) : CellData :=
  mkCellData (value_offset cell) offset (destination_boundary_offset cell) num (num_destination_nodes cell).

Definition set_destination_boundary (cell : CellData) (num offset : Z) : CellData :=
  mkCellData (value_offset cell) (source_boundary_offset cell) offset (num_source_nodes cell) num.

Definition insert_cell_boundary (set_cell : CellData -> Z -> Z -> CellData) (level_offset : Z)
    (st : list Z * list CellData) (run : list (Z * Z)) : option (list Z * list CellData) :=
  let '(boundary, cells) := st in
  first ← head run;
  let cell_id := fst first in
  cell ← cells !z (level_offset + cell_id);
  cells' ← zset (level_offset + cell_id) (set_cell cell (wrap 32 (zlen run)) (zlen boundary)) cells;
  Some (boundary ++ (snd <$> run), cells').

(** The offset of every level, and the total number of cells. *)
Fixpoint cell_offsets (levels : nat) (mlp : MultiLevelPartition) (level number_of_cells : Z) : option (list Z) :=
  match levels with
  | O => Some [number_of_cells]
  | S levels =>
      n ← GetNumberOfCells mlp level;
      l ← cell_offsets levels mlp (level + 1) (wrap 32 (number_of_cells + n));
      Some (number_of_cells :: l)
  end.

Section storage.
Context {G D : Type} `{!Graph G D} (forward backward : D -> bool).
Implicit Types (g : G) (mlp : MultiLevelPartition) (st : CellStorage).

Record NodeFlags : Type := mkNodeFlags { is_source_node : bool; is_destination_node : bool; is_boundary_node : bool }.

Fixpoint node_flags mlp g (level cell_id : Z) (range : list Z) (fl : NodeFlags) : option NodeFlags :=
  match range with
  | [] => Some fl
  | edge :: range =>
      other ← graph_target g edge;
      d ← graph_data g edge;
      c ← GetCell mlp level other;
      node_flags mlp g level cell_id range
        (mkNodeFlags (is_source_node fl || ((c =? cell_id) && forward d))
                     (is_destination_node fl || ((c =? cell_id) && backward d))
                     (is_boundary_node fl || negb (c =? cell_id)))
  end.

(** The boundary nodes of a level as pairs of cell and node, in node order. *)
Fixpoint scan_nodes mlp g (level : Z) (nodes : list Z) (sources destinations : list (Z * Z))
  : option (list (Z * Z) * list (Z * Z)) :=
  match nodes with
  | [] => Some (sources, destinations)
  | node :: nodes =>
      cell_id ← GetCell mlp level node;
      range ← graph_range g node;
      fl ← node_flags mlp g level cell_id range (mkNodeFlags false false false);
      if is_boundary_node fl then
        let sources' := if is_source_node fl then sources ++ [(cell_id, node)] else sources in
        let destinations' := if is_destination_node fl then destinations ++ [(cell_id, node)] else destinations in
        let destinations'' := if negb (is_source_node fl) && negb (is_destination_node fl)
          then destinations' ++ [(cell_id, node)] else destinations' in
        scan_nodes mlp g level nodes sources' destinations''
      else scan_nodes mlp g level nodes sources destinations
  end.

Definition storage_level (parallel_sort : sort_function) mlp g (level : Z) st : option CellStorage :=
  level_offset ← level_to_cell_offset st !z LevelIDToIndex level;
  '(sources, destinations) ← scan_nodes mlp g level (seqZ 0 (graph_nodes g)) [] [];
  let sources' := parallel_sort _ lex2 sources in
  let destinations' := parallel_sort _ lex2 destinations in
  '(sb, cs) ← for_each_range (length sources') (insert_cell_boundary set_source_boundary level_offset)
      (source_boundary st, cells st) sources';
  '(db, cs') ← for_each_range (length destinations') (insert_cell_boundary set_destination_boundary level_offset)
      (destination_boundary st, cs) destinations';
  Some (mkCellStorage sb db cs' (level_to_cell_offset st)).

Fixpoint storage_levels (levels : nat) (parallel_sort : sort_function) mlp g (level : Z) st : option CellStorage :=
  match levels with
  | O => Some st
  | S levels =>
      st' ← storage_level parallel_sort mlp g level st;
      storage_levels levels parallel_sort mlp g (level + 1) st'
  end.

(** The product of the two counts is a 32-bit one. *)
Definition cell_size (cell : CellData) : Z := wrap 32 (num_source_nodes cell * num_destination_nodes cell).

Fixpoint set_value_offsets (value_offset : Z) (cs : list CellData) : list CellData :=
  match cs with
  | [] => []
  | c :: cs =>
      mkCellData value_offset (source_boundary_offset c) (destination_boundary_offset c)
        (num_source_nodes c) (num_destination_nodes c)
      :: set_value_offsets (wrap 64 (value_offset + cell_size c)) cs
  end.

Definition CellStorage_new (parallel_sort : sort_function) mlp g : option CellStorage :=
  let levels := Z.to_nat (GetNumberOfLevels mlp - 1) in
  offs ← cell_offsets levels mlp 1 0;
  number_of_cells ← last offs;
  st ← storage_levels levels parallel_sort mlp g 1
    (mkCellStorage [] [] (replicate (Z.to_nat number_of_cells) CellData_default) offs);
  Some (mkCellStorage (source_boundary st) (destination_boundary st) (set_value_offsets 0 (cells st)) offs).

(** ** Metrics and cells *)

Definition MakeMetric st : CellMetric :=
  match last (cells st) with
  | None => mkCellMetric [] [] []
  | Some last_cell =>
      let n := Z.to_nat (wrap 64 (wrap 64 (value_offset last_cell + cell_size last_cell) + 1)) in
      mkCellMetric (replicate n INVALID_EDGE_WEIGHT) (replicate n MAXIMAL_EDGE_DURATION)
                   (replicate n INVALID_EDGE_DISTANCE)
  end.

(** The view of a cell: its data, whose offsets play the pointers. *)
Definition GetCellData st (level id : Z) : option CellData :=
  offset ← level_to_cell_offset st !z LevelIDToIndex level;
  cells st !z (offset + id).

Definition GetSourceNodes st (cell : CellData) : option (list Z) :=
  mapM (zget (source_boundary st)) (seqZ (source_boundary_offset cell) (num_source_nodes cell)).

Definition GetDestinationNodes st (cell : CellData) : option (list Z) :=
  mapM (zget (destination_boundary st)) (seqZ (destination_boundary_offset cell) (num_destination_nodes cell)).

(** [std::find] in a range: the position, or the end. *)
Fixpoint find_node (node : Z) (l : list Z) : Z :=
  match l with
  | [] => 0
  | x :: l => if x =? node then 0 else 1 + find_node node l
  end.

(** The positions, in the arrays of a metric, of the row of a source node. *)
Definition GetOutRange st (cell : CellData) (node : Z) : option (list Z) :=
  sources ← GetSourceNodes st cell;
  let row := find_node node sources in
  if row =? num_source_nodes cell then Some []
  else Some (seqZ (value_offset cell + num_destination_nodes cell * row) (num_destination_nodes cell)).

(** And of the column of a destination node: a strided range. *)
Definition GetInRange st (cell : CellData) (node : Z) : option (list Z) :=
  destinations ← GetDestinationNodes st cell;
  let column := find_node node destinations in
  if column =? num_destination_nodes cell then Some []
  else Some ((fun k => value_offset cell + column + k * num_destination_nodes cell) <$>
             seqZ 0 (cell_size cell / num_destination_nodes cell)).

Definition GetOutWeight st (metric : CellMetric) cell node : option (list Z) :=
  range ← GetOutRange st cell node; mapM (zget (weights metric)) range.
Definition GetInWeight st (metric : CellMetric) cell node : option (list Z) :=
  range ← GetInRange st cell node; mapM (zget (weights metric)) range.
Definition GetOutDuration st (metric : CellMetric) cell node : option (list Z) :=
  range ← GetOutRange st cell node; mapM (zget (durations metric)) range.
Definition GetInDuration st (metric : CellMetric) cell node : option (list Z) :=
  range ← GetInRange st cell node; mapM (zget (durations metric)) range.
Definition GetOutDistance st (metric : CellMetric) cell node : option (list float32) :=
  range ← GetOutRange st cell node; mapM (zget (distances metric)) range.
Definition GetInDistance st (metric : CellMetric) cell node : option (list float32) :=
  range ← GetInRange st cell node; mapM (zget (distances metric)) range.
End storage.

(** ** Runs of boundary nodes *)

Definition fst_le (x y : Z * Z) : Prop := fst x <= fst y.

Lemma take_key_ok key l :
  StronglySorted fst_le l -> (forall x, x ∈ l -> key <= fst x) ->
  exists run rest, take_key key l = (run, rest) /\ l = run ++ rest /\ (forall x, x ∈ run -> fst x = key) /\
    (forall x, x ∈ rest -> key < fst x) /\ StronglySorted fst_le rest.
Proof.
  induction 1 as [|x l Hl IH Hx]; intros Hk; cbn [take_key].
  { exists [], []. split_and!; [done|done|by intros ? ?%elem_of_nil|by intros ? ?%elem_of_nil|constructor]. }
  destruct (Z.eqb_spec (fst x) key) as [E|E].
  - destruct IH as (run & rest & -> & -> & Hrun & Hrest & Hs); [intros y Hy; apply Hk; by right|].
    exists (x :: run), rest. split_and!; try done. intros y [->|Hy]%elem_of_cons; [done|by apply Hrun].
  - exists [], (x :: l). split_and!; [done|done|by intros ? ?%elem_of_nil| |by constructor].
    rewrite Forall_forall in Hx. pose proof (Hk x ltac:(by left)).
    intros y [->|Hy]%elem_of_cons; [lia|]. pose proof (Hx _ Hy). unfold fst_le in *. lia.
Qed.

(** [L] is the part of [boundary] that starts at [off]; where an empty part starts does not matter. *)
Definition segment (boundary : list Z) (off num : Z) (L : list Z) : Prop :=
  num = zlen L /\ (L = [] \/ (0 <= off /\ off + num <= zlen boundary /\ zslice boundary off num = L)).

Lemma zslice_app_mid {A} (l m k : list A) : zslice (l ++ m ++ k) (zlen l) (zlen m) = m.
Proof.
  unfold zslice, zlen. rewrite !Nat2Z.id, drop_app_length. by apply take_app_length.
Qed.

Lemma segment_app boundary more off num L : segment boundary off num L -> segment (boundary ++ more) off num L.
Proof.
  intros [Hn Hs]. split; [done|]. destruct Hs as [->|(H1 & H2 & H3)]; [by left|right].
  pose proof (zlen_nonneg L). split_and!; [done|rewrite zlen_app; pose proof (zlen_nonneg more); lia|].
  rewrite zslice_app_l by lia. done.
Qed.

Lemma segment_nodes boundary off num L :
  segment boundary off num L -> mapM (zget boundary) (seqZ off num) = Some L.
Proof.
  intros [-> [->|(H1 & H2 & H3)]]; [done|]. apply mapM_Some, Forall2_same_length_lookup.
  split; [rewrite length_seqZ; unfold zlen; lia|]. intros i x y [-> Hi]%lookup_seqZ Hy.
  rewrite <- H3, <- zget_nat, zslice_get in Hy by lia. done.
Qed.

Section boundary_half.
(** One half of the data of a cell, and what the other half is. *)
Context (put : CellData -> Z -> Z -> CellData) (num off : CellData -> Z) {X : Type} (others : CellData -> X).
Context (put_num : forall c n o, num (put c n o) = n) (put_off : forall c n o, off (put c n o) = o).
Context (put_others : forall c n o, others (put c n o) = others c).

Definition nodes_of (l : list (Z * Z)) (c : Z) : list Z := snd <$> filter (fun x => fst x = c) l.

(** What one pass over the pairs of a level does to the cells of that level
    whose half is empty. *)
Record half_ok (lo m : Z) (l : list (Z * Z)) (boundary boundary' : list Z) (cs cs' : list CellData) : Prop := {
  ho_boundary : boundary' = boundary ++ (snd <$> l);
  ho_len : zlen cs' = zlen cs;
  ho_frame i : ~ (lo <= i < lo + m) -> cs' !z i = cs !z i;
  ho_cell c cell : 0 <= c < m -> cs !z (lo + c) = Some cell -> (nodes_of l c = [] \/ num cell = 0) ->
    exists cell', cs' !z (lo + c) = Some cell' /\ others cell' = others cell /\
      (nodes_of l c = [] -> cell' = cell) /\
      (nodes_of l c <> [] -> segment boundary' (off cell') (num cell') (nodes_of l c))
}.

Lemma nodes_of_app l k c : nodes_of (l ++ k) c = nodes_of l c ++ nodes_of k c.
Proof. unfold nodes_of. by rewrite filter_app, fmap_app. Qed.

Lemma nodes_of_all l c : (forall x, x ∈ l -> fst x = c) -> nodes_of l c = snd <$> l.
Proof. intros H. unfold nodes_of. by rewrite filter_all. Qed.

Lemma nodes_of_none l c : (forall x, x ∈ l -> fst x <> c) -> nodes_of l c = [].
Proof. intros H. unfold nodes_of. by rewrite filter_none. Qed.

Lemma insert_ok lo x run boundary cs cell cs' :
  cs !z (lo + fst x) = Some cell -> zlen (x :: run) < 2 ^ 32 ->
  zset (lo + fst x) (put cell (zlen (x :: run)) (zlen boundary)) cs = Some cs' ->
  insert_cell_boundary put lo (boundary, cs) (x :: run) = Some (boundary ++ (snd <$> x :: run), cs').
Proof.
  intros Hc Hl Hs. unfold insert_cell_boundary. cbn [head mbind option_bind]. step_opt Hc.
  rewrite wrap_small by (split; [apply zlen_nonneg|done]). by step_opt Hs.
Qed.

Lemma for_each_boundary lo m fuel : forall l boundary cs,
  (length l <= fuel)%nat -> StronglySorted fst_le l -> (forall x, x ∈ l -> 0 <= fst x < m) ->
  zlen l < 2 ^ 32 -> 0 <= lo -> lo + m <= zlen cs ->
  exists boundary' cs', for_each_range fuel (insert_cell_boundary put lo) (boundary, cs) l = Some (boundary', cs') /\
    half_ok lo m l boundary boundary' cs cs'.
Proof using put_num put_off put_others.
  induction fuel as [|fuel IH]; intros l boundary cs Hf Hs Hr Hl Hlo Hm.
  - destruct l as [|x l]; [|simpl in Hf; lia]. exists boundary, cs. split; [done|].
    split; [by rewrite app_nil_r|done|done|]. intros c cell _ Hc _. exists cell. split_and!; try done.
  - destruct l as [|x l].
    { exists boundary, cs. split; [done|]. split; [by rewrite app_nil_r|done|done|].
      intros c cell _ Hc _. exists cell. split_and!; try done. }
    cbn [for_each_range].
    destruct (take_key_ok (fst x) (x :: l) Hs) as (run & rest & E & El & Hrun & Hrest & Hsr).
    { apply StronglySorted_inv in Hs as [_ Hx]. rewrite Forall_forall in Hx.
      intros y [->|Hy]%elem_of_cons; [lia|by apply Hx]. }
    rewrite E. destruct run as [|x' run].
    { simpl in El. pose proof (Hrest x). rewrite <- El in H. exfalso. assert (fst x < fst x) by (apply H; by left). lia. }
    simpl in El. injection El as <- El.
    assert (0 <= fst x < m) as Hx by (apply Hr; by left).
    destruct (zget_is_some cs (lo + fst x)) as [cell Hcell]; [lia|].
    assert (zlen (x :: run) + zlen rest = zlen (x :: l)) as Hlen by (rewrite El, !zlen_cons, zlen_app; lia).
    pose proof (zlen_nonneg rest). pose proof (zlen_nonneg (x :: run)).
    destruct (zset_some cs (lo + fst x) (put cell (zlen (x :: run)) (zlen boundary))) as [cs1 Hcs1]; [lia|].
    rewrite (insert_ok lo x run boundary cs cell cs1 Hcell ltac:(lia) Hcs1). cbn [mbind option_bind].
    pose proof (zset_len _ _ _ _ Hcs1) as Lcs1.
    destruct (IH rest (boundary ++ (snd <$> x :: run)) cs1) as (boundary' & cs' & Efe & [Hb Hlen' Hfr Hc]).
    { rewrite El in Hf. simpl in Hf. rewrite length_app in Hf. lia. }
    { done. }
    { intros y Hy. apply Hr. right. rewrite El. apply elem_of_app. by right. }
    { lia. }
    { lia. }
    { lia. }
    exists boundary', cs'. split; [exact Efe|]. rewrite El. split.
    + rewrite Hb, <- app_assoc, <- fmap_app. done.
    + lia.
    + intros i Hi. rewrite Hfr by done. eapply zset_get_ne; [done|lia].
    + intros c cell0 Hcr Hc0 Hempty. change (x :: run ++ rest) with ((x :: run) ++ rest) in *.
      rewrite nodes_of_app in *. destruct (decide (c = fst x)) as [->|Hne].
      * assert (cell0 = cell) as -> by congruence.
        rewrite (nodes_of_none rest), app_nil_r in * by (intros y Hy%Hrest; lia).
        rewrite (nodes_of_all (x :: run)) in * by done.
        destruct (Hc (fst x) (put cell (zlen (x :: run)) (zlen boundary))) as (cell' & Hcell' & Ho & Hsame & _);
          [done|by rewrite (zset_get_eq _ _ _ _ Hcs1)|left; apply nodes_of_none; intros y Hy%Hrest; lia|].
        rewrite Hsame in * by (apply nodes_of_none; intros y Hy%Hrest; lia).
        exists (put cell (zlen (x :: run)) (zlen boundary)). rewrite put_others, put_num, put_off.
        split_and!; [done|done|done|]. intros _.
        split; [unfold zlen; by rewrite length_fmap|right]. rewrite Hb.
        assert (zlen (snd <$> x :: run) = zlen (x :: run)) as Lf by (unfold zlen; by rewrite length_fmap).
        split_and!; [apply zlen_nonneg|rewrite !zlen_app, Lf; pose proof (zlen_nonneg (snd <$> rest)); lia|].
        rewrite <- app_assoc, <- Lf. apply zslice_app_mid.
      * rewrite (nodes_of_none (x :: run)) in * by (intros y Hy%Hrun; congruence). rewrite app_nil_l in *.
        apply Hc; [done| |done]. rewrite (zset_get_ne _ _ _ _ _ Hcs1) by lia. done.
Qed.
End boundary_half.

(** ** The boundary nodes of a level *)

Section levels.
Context {G D : Type} `{!Graph G D} `{!GraphLaws G D} (forward backward : D -> bool).
Context (mlp : MultiLevelPartition) (g : G).
Abbreviation n := (graph_nodes g).

Definition cell_of (l v : Z) : Z := default 0 (GetCell mlp l v).

(** The node has an edge that leaves its cell. *)
Definition crosses (l v : Z) : bool :=
  existsb (fun x => negb (cell_of l (target x) =? cell_of l v)) (adjacency g v).

(** The node has an edge in the direction of [flag] inside its cell. *)
Definition connected (flag : D -> bool) (l v : Z) : bool :=
  existsb (fun x => (cell_of l (target x) =? cell_of l v) && flag (data x)) (adjacency g v).

Definition source_node (l v : Z) : bool := crosses l v && connected forward l v.
Definition destination_node (l v : Z) : bool := crosses l v && (connected backward l v || negb (connected forward l v)).

(** The specification: the boundary nodes of a cell in ascending order. *)
Definition source_nodes (l c : Z) : list Z :=
  filter (fun v => source_node l v = true /\ cell_of l v = c) (seqZ 0 n).
Definition destination_nodes (l c : Z) : list Z :=
  filter (fun v => destination_node l v = true /\ cell_of l v = c) (seqZ 0 n).

Definition num_cells (l : Z) : Z := default 0 (GetNumberOfCells mlp l).

(** The first cell of level [k + 1]. *)
Fixpoint level_start (k : nat) : Z :=
  match k with O => 0 | S k => level_start k + num_cells (Z.of_nat k + 1) end.

Record storage_input (levels : Z) : Prop := {
  si_levels : 0 <= levels;
  si_num_levels : GetNumberOfLevels mlp = levels + 1;
  si_cells l : 1 <= l <= levels -> exists m, GetNumberOfCells mlp l = Some m /\
    forall v, 0 <= v < n -> exists c, GetCell mlp l v = Some c /\ 0 <= c < m;
  si_num_cells l : 1 <= l <= levels -> 0 <= num_cells l;
  si_graph : graph_wf g;
  si_targets v x : 0 <= v < n -> x ∈ adjacency g v -> 0 <= target x < n;
  si_nodes : 0 <= n < 2 ^ 32;
  si_total : level_start (Z.to_nat levels) < 2 ^ 32
}.

Context (levels : Z) (Hin : storage_input levels).

Lemma cell_of_get l v : 1 <= l <= levels -> 0 <= v < n -> GetCell mlp l v = Some (cell_of l v) /\ 0 <= cell_of l v < num_cells l.
Proof using Hin.
  intros Hl Hv. destruct (si_cells _ Hin l Hl) as (m & Hm & Hc). destruct (Hc v Hv) as (c & E & Hr).
  unfold cell_of, num_cells. by rewrite E, Hm.
Qed.

Lemma node_flags_ok l v range xs fl :
  1 <= l <= levels -> Forall2 (fun e x => graph_target g e = Some (target x) /\ graph_data g e = Some (data x)) range xs ->
  (forall x, x ∈ xs -> 0 <= target x < n) ->
  node_flags forward backward mlp g l (cell_of l v) range fl =
    Some (mkNodeFlags
      (is_source_node fl || existsb (fun x => (cell_of l (target x) =? cell_of l v) && forward (data x)) xs)
      (is_destination_node fl || existsb (fun x => (cell_of l (target x) =? cell_of l v) && backward (data x)) xs)
      (is_boundary_node fl || existsb (fun x => negb (cell_of l (target x) =? cell_of l v)) xs)).
Proof using Hin.
  intros Hl HF. revert fl. induction HF as [|e x range xs [Ht Hd] HF IH]; intros fl Hr; cbn [node_flags existsb].
  { by rewrite !orb_false_r; destruct fl. }
  step_opt Ht. step_opt Hd. destruct (cell_of_get l (target x) Hl) as [E _]; [apply Hr; by left|]. step_opt E.
  rewrite IH by (intros y Hy; apply Hr; by right). simpl. by rewrite !orb_assoc.
Qed.

Definition pair_of (l v : Z) : Z * Z := (cell_of l v, v).

Lemma scan_nodes_ok l nodes ss ds :
  1 <= l <= levels -> (forall v, v ∈ nodes -> 0 <= v < n) ->
  scan_nodes forward backward mlp g l nodes ss ds =
    Some (ss ++ (pair_of l <$> filter (fun v => source_node l v = true) nodes),
          ds ++ (pair_of l <$> filter (fun v => destination_node l v = true) nodes)).
Proof using Hin.
  intros Hl. revert ss ds. induction nodes as [|v nodes IH]; intros ss ds Hr; cbn [scan_nodes].
  { by rewrite !filter_nil, !app_nil_r. }
  assert (0 <= v < n) as Hv by (apply Hr; by left). destruct (cell_of_get l v Hl Hv) as [E _]. step_opt E.
  destruct (graph_range_ok g v (si_graph _ Hin) Hv) as (range & Er & HF). step_opt Er.
  rewrite (node_flags_ok l v range (adjacency g v)) by (done || (intros x; by apply (si_targets _ Hin))).
  cbn [mbind option_bind is_source_node is_destination_node is_boundary_node]. rewrite !orb_false_l.
  fold (connected forward l v) (connected backward l v) (crosses l v).
  rewrite !filter_bool. replace (source_node l v) with (crosses l v && connected forward l v) by done.
  replace (destination_node l v) with (crosses l v && (connected backward l v || negb (connected forward l v))) by done.
  destruct (crosses l v), (connected forward l v), (connected backward l v); simpl;
    rewrite IH by (intros w Hw; apply Hr; by right); simpl; by rewrite <- ?app_assoc.
Qed.

(** Sorting the pairs groups the nodes by cell, in ascending order. *)
Lemma nodes_of_sorted parallel_sort `{!ParallelSort parallel_sort} l c (b : Z -> bool) :
  nodes_of (parallel_sort _ lex2 (pair_of l <$> filter (fun v => b v = true) (seqZ 0 n))) c =
    filter (fun v => b v = true /\ cell_of l v = c) (seqZ 0 n).
Proof.
  set (ps := parallel_sort _ _ _).
  assert (ps ≡ₚ pair_of l <$> filter (fun v => b v = true) (seqZ 0 n)) as Hp by apply parallel_sort_Permutation.
  assert (ordered lex2 ps) as Ho by (apply parallel_sort_ordered, lex2_strict_weak).
  apply (StronglySorted_unique Z.le).
  - unfold nodes_of. apply (StronglySorted_fmap snd (fun x y => snd x <= snd y)); [done|].
    eapply StronglySorted_impl_in; [|by apply StronglySorted_filter].
    intros [x1 x2] [y1 y2] [Hx _]%list_elem_of_filter [Hy _]%list_elem_of_filter. simpl in *. lia.
  - apply StronglySorted_filter. eapply StronglySorted_impl_in; [|apply seqZ_sorted]. simpl. lia.
  - unfold nodes_of. rewrite Hp. clear. induction (seqZ 0 n) as [|v vs IH]; [done|]. rewrite filter_bool, filter_cons.
    destruct (b v) eqn:Eb.
    + rewrite fmap_cons, filter_cons. simpl. case_decide as E; case_decide as E'; try tauto.
      rewrite fmap_cons. simpl. by rewrite IH.
    + rewrite decide_False by naive_solver. by rewrite IH.
Qed.

Lemma level_sorted parallel_sort `{!ParallelSort parallel_sort} l (b : Z -> bool) :
  1 <= l <= levels ->
  let ps := parallel_sort _ lex2 (pair_of l <$> filter (fun v => b v = true) (seqZ 0 n)) in
  StronglySorted fst_le ps /\ (forall x, x ∈ ps -> 0 <= fst x < num_cells l) /\ zlen ps < 2 ^ 32.
Proof using Hin.
  intros Hl ps.
  assert (ps ≡ₚ pair_of l <$> filter (fun v => b v = true) (seqZ 0 n)) as Hp by apply parallel_sort_Permutation.
  split_and!.
  - eapply StronglySorted_impl_in; [|apply parallel_sort_ordered, lex2_strict_weak].
    intros [x1 x2] [y1 y2] _ _. unfold fst_le. simpl. lia.
  - intros x Hx. rewrite Hp in Hx. apply list_elem_of_fmap in Hx as (v & -> & [_ Hv%elem_of_seqZ]%list_elem_of_filter).
    apply (cell_of_get l v Hl). lia.
  - rewrite Hp. unfold zlen. rewrite length_fmap.
    pose proof (length_filter (fun v => b v = true) (seqZ 0 n)). rewrite length_seqZ in *.
    pose proof (si_nodes _ Hin). lia.
Qed.

(** *** Offsets of the levels *)

Lemma level_start_nonneg k : Z.of_nat k <= levels -> 0 <= level_start k.
Proof using Hin.
  induction k as [|k IH]; simpl; intros Hk; [lia|].
  pose proof (si_num_cells _ Hin (Z.of_nat k + 1) ltac:(lia)). specialize (IH ltac:(lia)). lia.
Qed.

Lemma level_start_mono j k : (j <= k)%nat -> Z.of_nat k <= levels -> 0 <= level_start j <= level_start k.
Proof using Hin.
  intros Hjk Hk. split; [apply level_start_nonneg; lia|]. induction Hjk as [|k Hjk IH]; [lia|]. simpl.
  pose proof (si_num_cells _ Hin (Z.of_nat k + 1) ltac:(lia)). specialize (IH ltac:(lia)). lia.
Qed.

Lemma cell_offsets_ok k m :
  Z.of_nat (k + m) <= levels ->
  exists offs, cell_offsets m mlp (Z.of_nat k + 1) (level_start k) = Some offs /\
    zlen offs = Z.of_nat m + 1 /\ last offs = Some (level_start (k + m)) /\
    forall j, (j <= m)%nat -> offs !z Z.of_nat j = Some (level_start (k + j)).
Proof using Hin.
  revert k. induction m as [|m IH]; intros k Hk; cbn [cell_offsets].
  { exists [level_start k]. rewrite Nat.add_0_r. split_and!; [done|done|done|]. intros j Hj.
    assert (j = O) as -> by lia. by rewrite Nat.add_0_r. }
  destruct (si_cells _ Hin (Z.of_nat k + 1) ltac:(lia)) as (c & Hc & _). rewrite Hc. cbn [mbind option_bind].
  assert (level_start (S k) = level_start k + c) as Es by (simpl; unfold num_cells; by rewrite Hc).
  pose proof (level_start_mono (S k) (Z.to_nat levels) ltac:(lia) ltac:(lia)). pose proof (si_total _ Hin).
  rewrite wrap_small by (split; lia). rewrite <- Es.
  destruct (IH (S k) ltac:(lia)) as (offs & E & Hlen & Hlast & Hget).
  replace (Z.of_nat k + 1 + 1) with (Z.of_nat (S k) + 1) by lia. rewrite E. cbn [mbind option_bind].
  exists (level_start k :: offs). split_and!; [done|rewrite zlen_cons; lia| |].
  - destruct offs as [|o offs]; [unfold zlen in Hlen; simpl in Hlen; lia|]. rewrite last_cons_cons, Hlast. do 2 f_equal. lia.
  - intros [|j] Hj; [by rewrite Nat.add_0_r|]. rewrite zget_cons_S by lia.
    replace (Z.of_nat (S j) - 1) with (Z.of_nat j) by lia. rewrite Hget by lia. do 2 f_equal. lia.
Qed.

(** *** The loop over the levels *)

(** The first [k] levels are done, the cells of the others are untouched. *)
Record levels_done (offs : list Z) (k : nat) (st : CellStorage) : Prop := {
  ld_offs : level_to_cell_offset st = offs;
  ld_len : zlen (cells st) = level_start (Z.to_nat levels);
  ld_done j c : (j < k)%nat -> 0 <= c < num_cells (Z.of_nat j + 1) ->
    exists cell, cells st !z (level_start j + c) = Some cell /\
      segment (source_boundary st) (source_boundary_offset cell) (num_source_nodes cell) (source_nodes (Z.of_nat j + 1) c) /\
      segment (destination_boundary st) (destination_boundary_offset cell) (num_destination_nodes cell)
        (destination_nodes (Z.of_nat j + 1) c);
  ld_rest j c : (k <= j)%nat -> Z.of_nat j + 1 <= levels -> 0 <= c < num_cells (Z.of_nat j + 1) ->
    cells st !z (level_start j + c) = Some CellData_default
}.

Lemma level_start_S j : level_start (S j) = level_start j + num_cells (Z.of_nat j + 1).
Proof. done. Qed.

(** Cells of different levels do not overlap. *)
Lemma levels_apart j k c :
  j <> k -> Z.of_nat j + 1 <= levels -> Z.of_nat k + 1 <= levels -> 0 <= c < num_cells (Z.of_nat j + 1) ->
  ~ (level_start k <= level_start j + c < level_start k + num_cells (Z.of_nat k + 1)).
Proof using Hin.
  intros Hjk Hj Hk Hc Hr. rewrite <- level_start_S in Hr. destruct (decide (j < k)%nat).
  - pose proof (level_start_mono (S j) k ltac:(lia) ltac:(lia)). rewrite level_start_S in *. lia.
  - pose proof (level_start_mono (S k) j ltac:(lia) ltac:(lia)). lia.
Qed.

Definition source_others (c : CellData) : Z * Z * Z :=
  (value_offset c, destination_boundary_offset c, num_destination_nodes c).
Definition destination_others (c : CellData) : Z * Z * Z :=
  (value_offset c, source_boundary_offset c, num_source_nodes c).

Abbreviation source_half := (half_ok num_source_nodes source_boundary_offset source_others).
Abbreviation destination_half := (half_ok num_destination_nodes destination_boundary_offset destination_others).

(** Both passes over the cells of a level, whose cells were untouched. *)
Lemma both_halves lo m ls ds sb sb' db db' cs cs1 cs2 c :
  source_half lo m ls sb sb' cs cs1 -> destination_half lo m ds db db' cs1 cs2 -> 0 <= c < m ->
  cs !z (lo + c) = Some CellData_default ->
  exists cell, cs2 !z (lo + c) = Some cell /\
    segment sb' (source_boundary_offset cell) (num_source_nodes cell) (nodes_of ls c) /\
    segment db' (destination_boundary_offset cell) (num_destination_nodes cell) (nodes_of ds c).
Proof.
  intros [Hb1 Hl1 Hf1 Hc1] [Hb2 Hl2 Hf2 Hc2] Hc Hcell.
  destruct (Hc1 c _ Hc Hcell) as (cell1 & Hcell1 & Ho1 & He1 & Hs1); [by right|].
  destruct (Hc2 c _ Hc Hcell1) as (cell2 & Hcell2 & Ho2 & He2 & Hs2); [right; by injection Ho1 as _ _ ->|].
  exists cell2. split; [done|]. injection Ho2 as _ -> ->. split.
  - destruct (nodes_of ls c) as [|v vs] eqn:En; [rewrite He1 by done; by split; [|left]|by apply Hs1].
  - destruct (nodes_of ds c) as [|v vs] eqn:En; [|by apply Hs2]. rewrite He2 by done.
    split; [by injection Ho1 as _ _ ->|by left].
Qed.

Lemma storage_level_ok parallel_sort `{!ParallelSort parallel_sort} offs k st :
  (forall j, Z.of_nat j <= levels -> offs !z Z.of_nat j = Some (level_start j)) ->
  Z.of_nat k + 1 <= levels -> levels_done offs k st ->
  exists st', storage_level forward backward parallel_sort mlp g (Z.of_nat k + 1) st = Some st' /\ levels_done offs (S k) st'.
Proof using Hin.
  intros Hoffs Hk [Lo Ll Ld Lr]. unfold storage_level, LevelIDToIndex. rewrite Lo.
  replace (Z.of_nat k + 1 - 1) with (Z.of_nat k) by lia. rewrite Hoffs by lia. cbn [mbind option_bind].
  rewrite scan_nodes_ok by (lia || (intros v Hv%elem_of_seqZ; lia)). cbn [mbind option_bind]. rewrite !app_nil_l.
  set (l := Z.of_nat k + 1) in *.
  destruct (level_sorted parallel_sort l (source_node l) ltac:(lia)) as (Ss & Sr & Sl).
  destruct (level_sorted parallel_sort l (destination_node l) ltac:(lia)) as (Ds & Dr & Dl).
  pose proof (nodes_of_sorted parallel_sort l) as Hno.
  set (ls := parallel_sort _ lex2 (pair_of l <$> filter (fun v => source_node l v = true) (seqZ 0 n))) in *.
  set (ds := parallel_sort _ lex2 (pair_of l <$> filter (fun v => destination_node l v = true) (seqZ 0 n))) in *.
  pose proof (level_start_nonneg k ltac:(lia)) as Hlo.
  pose proof (level_start_mono (S k) (Z.to_nat levels) ltac:(lia) ltac:(lia)) as Htot. rewrite level_start_S in Htot. fold l in Htot.
  destruct (for_each_boundary set_source_boundary num_source_nodes source_boundary_offset source_others
    ltac:(done) ltac:(done) ltac:(done) (level_start k) (num_cells l) (length ls) ls (source_boundary st) (cells st))
    as (sb & cs1 & E1 & H1); [done|done|done|done|lia|lia|].
  rewrite E1. cbn [mbind option_bind].
  destruct (for_each_boundary set_destination_boundary num_destination_nodes destination_boundary_offset destination_others
    ltac:(done) ltac:(done) ltac:(done) (level_start k) (num_cells l) (length ds) ds (destination_boundary st) cs1)
    as (db & cs2 & E2 & H2); [done|done|done|done|lia|rewrite (ho_len _ _ _ _ _ _ _ _ _ _ H1); lia|].
  rewrite E2. cbn [mbind option_bind]. eexists. split; [done|].
  assert (forall j c, j <> k -> Z.of_nat j + 1 <= levels -> 0 <= c < num_cells (Z.of_nat j + 1) ->
    cs2 !z (level_start j + c) = cells st !z (level_start j + c)) as Hframe.
  { intros j c Hjk Hj Hc. pose proof (levels_apart j k c Hjk Hj Hk Hc).
    by rewrite (ho_frame _ _ _ _ _ _ _ _ _ _ H2), (ho_frame _ _ _ _ _ _ _ _ _ _ H1). }
  split; cbn [level_to_cell_offset cells source_boundary destination_boundary].
  - done.
  - rewrite (ho_len _ _ _ _ _ _ _ _ _ _ H2), (ho_len _ _ _ _ _ _ _ _ _ _ H1). done.
  - intros j c Hj Hc. destruct (decide (j = k)) as [->|Hne].
    + destruct (both_halves _ _ _ _ _ _ _ _ _ _ _ c H1 H2 Hc) as (cell & Hcell & Hs & Hd).
      { apply Lr; [done|lia|done]. }
      exists cell. unfold ls in Hs. unfold ds in Hd. rewrite Hno in Hs, Hd. by split_and!.
    + destruct (Ld j c ltac:(lia) Hc) as (cell & Hcell & Hs & Hd). exists cell. rewrite Hframe by lia. split; [done|].
      rewrite (ho_boundary _ _ _ _ _ _ _ _ _ _ H1), (ho_boundary _ _ _ _ _ _ _ _ _ _ H2). by split; apply segment_app.
  - intros j c Hj Hjl Hc. rewrite Hframe by lia. apply Lr; lia.
Qed.

Lemma storage_levels_ok parallel_sort `{!ParallelSort parallel_sort} offs m : forall k st,
  (forall j, Z.of_nat j <= levels -> offs !z Z.of_nat j = Some (level_start j)) ->
  Z.of_nat (k + m) <= levels -> levels_done offs k st ->
  exists st', storage_levels forward backward m parallel_sort mlp g (Z.of_nat k + 1) st = Some st' /\ levels_done offs (k + m) st'.
Proof using Hin.
  induction m as [|m IH]; intros k st Ho Hk Hd; cbn [storage_levels].
  { exists st. by rewrite Nat.add_0_r. }
  destruct (storage_level_ok parallel_sort offs k st Ho ltac:(lia) Hd) as (st1 & E & Hd1). rewrite E. cbn [mbind option_bind].
  replace (Z.of_nat k + 1 + 1) with (Z.of_nat (S k) + 1) by lia.
  destruct (IH (S k) st1 Ho ltac:(lia) Hd1) as (st2 & E2 & Hd2). exists st2. split; [done|].
  by replace (k + S m)%nat with (S k + m)%nat by lia.
Qed.

(** *** Places in the metric *)

Definition with_value (c : CellData) (v : Z) : CellData :=
  mkCellData v (source_boundary_offset c) (destination_boundary_offset c) (num_source_nodes c) (num_destination_nodes c).

Fixpoint sizes (cs : list CellData) : Z :=
  match cs with [] => 0 | c :: cs => cell_size c + sizes cs end.

Lemma cell_size_range c : 0 <= cell_size c < 2 ^ 32.
Proof. apply wrap_in_word. lia. Qed.

Lemma sizes_range cs : 0 <= sizes cs <= zlen cs * 2 ^ 32.
Proof.
  induction cs as [|c cs IH]; simpl; [done|]. rewrite zlen_cons. pose proof (cell_size_range c). lia.
Qed.

Lemma sizes_app cs cs' : sizes (cs ++ cs') = sizes cs + sizes cs'.
Proof. induction cs as [|c cs IH]; simpl; [done|]. lia. Qed.

Lemma set_value_offsets_get cs : forall v i c, 0 <= v -> v + sizes cs < 2 ^ 64 -> cs !z i = Some c ->
  set_value_offsets v cs !z i = Some (with_value c (v + sizes (take (Z.to_nat i) cs))).
Proof.
  induction cs as [|x cs IH]; intros v i c Hv Hs Hi; [by apply zget_elem, elem_of_nil in Hi|].
  cbn [set_value_offsets]. pose proof (cell_size_range x). pose proof (sizes_range cs). simpl in Hs.
  apply zget_cons_inv in Hi as [[-> ->]|[Hi Hc]].
  - simpl. by rewrite Z.add_0_r.
  - rewrite zget_cons_S by lia. rewrite wrap_small by (split; lia). rewrite (IH (v + cell_size x) (i - 1) c) by lia || done.
    replace (Z.to_nat i) with (S (Z.to_nat (i - 1))) by lia. simpl. do 2 f_equal. lia.
Qed.

Lemma set_value_offsets_len cs v : zlen (set_value_offsets v cs) = zlen cs.
Proof. revert v. induction cs as [|x cs IH]; intros v; simpl; [done|]. by rewrite !zlen_cons, IH. Qed.

(** The matrix of a cell ends before the matrix of the next one starts. *)
Lemma sizes_take cs i j c : cs !z i = Some c -> i < j ->
  sizes (take (Z.to_nat i) cs) + cell_size c <= sizes (take (Z.to_nat j) cs) /\ sizes (take (Z.to_nat j) cs) <= sizes cs.
Proof.
  intros Hi Hij. pose proof (zget_some _ _ _ Hi). split.
  - replace (Z.to_nat j) with (S (Z.to_nat i) + (Z.to_nat j - S (Z.to_nat i)))%nat by lia.
    rewrite <- take_take_drop, sizes_app. rewrite (take_S_r _ _ c) by (unfold zget in Hi; by destruct (0 <=? i)).
    rewrite sizes_app. simpl. pose proof (sizes_range (take (Z.to_nat j - S (Z.to_nat i)) (drop (S (Z.to_nat i)) cs))). lia.
  - rewrite <- (take_drop (Z.to_nat j) cs) at 2. rewrite sizes_app.
    pose proof (sizes_range (drop (Z.to_nat j) cs)). lia.
Qed.

Lemma cell_size_with c v : cell_size (with_value c v) = cell_size c.
Proof. done. Qed.

(** The constructor: every cell has its boundary nodes and its place. *)
Lemma CellStorage_new_ok parallel_sort `{!ParallelSort parallel_sort} :
  exists st cs, CellStorage_new forward backward parallel_sort mlp g = Some st /\
    zlen cs = zlen (cells st) /\ sizes cs + 1 < 2 ^ 64 /\
    (forall i c, cs !z i = Some c -> cells st !z i = Some (with_value c (sizes (take (Z.to_nat i) cs)))) /\
    forall l c, 1 <= l <= levels -> 0 <= c < num_cells l ->
      exists cell, GetCellData st l c = cells st !z (level_start (Z.to_nat (l - 1)) + c) /\
        cs !z (level_start (Z.to_nat (l - 1)) + c) = Some cell /\
        segment (source_boundary st) (source_boundary_offset cell) (num_source_nodes cell) (source_nodes l c) /\
        segment (destination_boundary st) (destination_boundary_offset cell) (num_destination_nodes cell)
          (destination_nodes l c).
Proof using Hin.
  unfold CellStorage_new. rewrite (si_num_levels _ Hin). replace (levels + 1 - 1) with levels by lia.
  pose proof (si_levels _ Hin). pose proof (si_total _ Hin).
  destruct (cell_offsets_ok 0 (Z.to_nat levels)) as (offs & E & Hlen & Hlast & Hget); [simpl; lia|].
  change (Z.of_nat 0 + 1) with 1 in E. simpl in E, Hlast, Hget. rewrite E. cbn [mbind option_bind]. rewrite Hlast. cbn [mbind option_bind].
  assert (forall j, Z.of_nat j <= levels -> offs !z Z.of_nat j = Some (level_start j)) as Ho
    by (intros j Hj; apply Hget; lia).
  pose proof (level_start_nonneg (Z.to_nat levels) ltac:(lia)) as Htot.
  destruct (storage_levels_ok parallel_sort offs (Z.to_nat levels) 0
    (mkCellStorage [] [] (replicate (Z.to_nat (level_start (Z.to_nat levels))) CellData_default) offs) Ho)
    as (st & E2 & [Lo Ll Ld Lr]); [simpl; lia| |].
  { split; cbn [level_to_cell_offset cells source_boundary destination_boundary]; [done| |lia|].
    - unfold zlen. rewrite length_replicate. lia.
    - intros j c _ Hj Hc. pose proof (level_start_mono (S j) (Z.to_nat levels) ltac:(lia) ltac:(lia)).
      pose proof (level_start_nonneg j ltac:(lia)). rewrite level_start_S in *. unfold zget.
      replace (0 <=? level_start j + c) with true by lia. apply lookup_replicate. split; [done|lia]. }
  change (Z.of_nat 0 + 1) with 1 in E2. rewrite E2. cbn [mbind option_bind].
  exists (mkCellStorage (source_boundary st) (destination_boundary st) (set_value_offsets 0 (cells st)) offs), (cells st).
  split; [done|]. cbn [cells source_boundary destination_boundary level_to_cell_offset].
  pose proof (sizes_range (cells st)) as Hsz. rewrite Ll in Hsz.
  assert (sizes (cells st) + 1 < 2 ^ 64) as Hsz' by nia. split; [by rewrite set_value_offsets_len|]. split; [done|]. split.
  - intros i c Hi. by rewrite (set_value_offsets_get _ 0 i c) by lia || done.
  - intros l c Hl Hc. destruct (Ld (Z.to_nat (l - 1)) c) as (cell & Hcell & Hs & Hd).
    { simpl. lia. }
    { by replace (Z.of_nat (Z.to_nat (l - 1)) + 1) with l by lia. }
    replace (Z.of_nat (Z.to_nat (l - 1)) + 1) with l in * by lia. exists cell. split; [|done].
    unfold GetCellData, LevelIDToIndex. cbn [level_to_cell_offset cells].
    replace (l - 1) with (Z.of_nat (Z.to_nat (l - 1))) at 1 by lia. by rewrite Ho by lia.
Qed.

(** ** Slots of the matrices *)

(** The position of the weight from [s] to [d] of a cell, read along the row of [s]. *)
Definition out_slot (st : CellStorage) (l c s d idx : Z) : Prop :=
  exists cell row ds k, GetCellData st l c = Some cell /\ GetOutRange st cell s = Some row /\
    GetDestinationNodes st cell = Some ds /\ ds !z k = Some d /\ row !z k = Some idx.

(** And along the column of [d]. *)
Definition in_slot (st : CellStorage) (l c s d idx : Z) : Prop :=
  exists cell column ss k, GetCellData st l c = Some cell /\ GetInRange st cell d = Some column /\
    GetSourceNodes st cell = Some ss /\ ss !z k = Some s /\ column !z k = Some idx.

Lemma find_node_get v L : find_node v L <= zlen L /\ 0 <= find_node v L /\ (find_node v L < zlen L -> L !z find_node v L = Some v) /\
  (v ∈ L -> find_node v L < zlen L).
Proof.
  induction L as [|x L (H1 & H2 & H3 & H4)]; cbn [find_node].
  { split_and!; [done|done|unfold zlen; simpl; lia|by intros ?%elem_of_nil]. }
  rewrite zlen_cons. destruct (Z.eqb_spec x v) as [->|Hne].
  - pose proof (zlen_nonneg L). split_and!; [lia|lia|done|lia].
  - split_and!; [lia|lia| |].
    + intros Hlt. rewrite zget_cons_S by lia. replace (1 + find_node v L - 1) with (find_node v L) by lia. apply H3. lia.
    + intros [->|Hv]%elem_of_cons; [done|]. specialize (H4 Hv). lia.
Qed.

Lemma find_node_pos v L k : NoDup L -> L !z k = Some v -> find_node v L = k.
Proof.
  intros Hnd Hk. destruct (find_node_get v L) as (H1 & H2 & H3 & H4).
  specialize (H3 (H4 (zget_elem _ _ _ Hk))). pose proof (zget_some _ _ _ Hk). unfold zget in H3, Hk.
  destruct (Z.leb_spec 0 (find_node v L)), (Z.leb_spec 0 k); try lia.
  pose proof (NoDup_lookup _ _ _ _ Hnd H3 Hk). lia.
Qed.

Lemma seqZ_get a m k : 0 <= k < m -> seqZ a m !z k = Some (a + k).
Proof.
  intros Hk. unfold zget. destruct (Z.leb_spec 0 k); [|lia]. rewrite lookup_seqZ_lt by lia. f_equal. lia.
Qed.

Lemma seqZ_get_inv a m k x : seqZ a m !z k = Some x -> 0 <= k < m /\ x = a + k.
Proof.
  intros Hx. unfold zget in Hx. destruct (Z.leb_spec 0 k); [|done]. apply lookup_seqZ in Hx as [-> Hk]. lia.
Qed.

(** A cell with its boundary nodes and place. *)
Record cell_at (st : CellStorage) (cell : CellData) (ss ds : list Z) : Prop := {
  ca_sources : GetSourceNodes st cell = Some ss;
  ca_destinations : GetDestinationNodes st cell = Some ds;
  ca_num_sources : num_source_nodes cell = zlen ss;
  ca_num_destinations : num_destination_nodes cell = zlen ds;
  ca_sources_once : NoDup ss;
  ca_destinations_once : NoDup ds;
  ca_size : zlen ss * zlen ds < 2 ^ 32
}.

Section one_cell.
Context (st : CellStorage) (cell : CellData) (ss ds : list Z) (Hc : cell_at st cell ss ds).

Lemma cell_size_product : cell_size cell = zlen ss * zlen ds.
Proof using Hc.
  unfold cell_size. rewrite (ca_num_sources _ _ _ _ Hc), (ca_num_destinations _ _ _ _ Hc).
  apply wrap_small. split; [|apply (ca_size _ _ _ _ Hc)]. pose proof (zlen_nonneg ss). pose proof (zlen_nonneg ds). nia.
Qed.

Lemma out_range i v : ss !z i = Some v -> GetOutRange st cell v = Some (seqZ (value_offset cell + zlen ds * i) (zlen ds)).
Proof using Hc.
  intros Hi. unfold GetOutRange. rewrite (ca_sources _ _ _ _ Hc). cbn [mbind option_bind].
  rewrite (find_node_pos _ _ _ (ca_sources_once _ _ _ _ Hc) Hi), (ca_num_sources _ _ _ _ Hc), (ca_num_destinations _ _ _ _ Hc).
  apply zget_some in Hi. by replace (i =? zlen ss) with false by lia.
Qed.

Lemma in_range j v : ds !z j = Some v ->
  GetInRange st cell v = Some ((fun k => value_offset cell + j + k * zlen ds) <$> seqZ 0 (zlen ss)).
Proof using Hc.
  intros Hj. unfold GetInRange. rewrite (ca_destinations _ _ _ _ Hc). cbn [mbind option_bind].
  rewrite (find_node_pos _ _ _ (ca_destinations_once _ _ _ _ Hc) Hj), cell_size_product, (ca_num_destinations _ _ _ _ Hc).
  apply zget_some in Hj. replace (j =? zlen ds) with false by lia. by rewrite Z.div_mul by lia.
Qed.

Lemma out_range_inv v row k idx : GetOutRange st cell v = Some row -> row !z k = Some idx ->
  exists i, ss !z i = Some v /\ 0 <= k < zlen ds /\ idx = value_offset cell + zlen ds * i + k.
Proof using Hc.
  unfold GetOutRange. rewrite (ca_sources _ _ _ _ Hc). cbn [mbind option_bind].
  destruct (find_node_get v ss) as (H1 & H2 & H3 & _). rewrite (ca_num_sources _ _ _ _ Hc), (ca_num_destinations _ _ _ _ Hc).
  destruct (Z.eqb_spec (find_node v ss) (zlen ss)); intros [= <-] Hk; [by apply zget_elem, elem_of_nil in Hk|].
  apply seqZ_get_inv in Hk as [Hk ->]. exists (find_node v ss). split; [apply H3; lia|]. split; [done|]. lia.
Qed.
End one_cell.

Lemma MakeMetric_len st cs :
  zlen cs = zlen (cells st) -> sizes cs + 1 < 2 ^ 64 ->
  (forall i c, cs !z i = Some c -> cells st !z i = Some (with_value c (sizes (take (Z.to_nat i) cs)))) ->
  cs <> [] -> zlen (weights (MakeMetric st)) = sizes cs + 1.
Proof.
  intros Hlen Hsz Hget Hne. destruct cs as [|x cs _] using rev_ind; [done|].
  assert (cells st !z zlen cs = Some (with_value x (sizes cs))) as Hx.
  { rewrite (Hget (zlen cs) x).
    - f_equal. f_equal. unfold zlen. by rewrite Nat2Z.id, take_app_length.
    - by rewrite zget_app_r, Z.sub_diag by lia. }
  unfold MakeMetric. rewrite zlen_snoc in Hlen. unfold zlen in Hx. rewrite zget_nat in Hx.
  rewrite last_lookup. unfold zlen in Hlen. replace (Nat.pred (length (cells st))) with (length cs) by lia. rewrite Hx.
  cbn [weights]. unfold zlen. rewrite length_replicate, cell_size_with. cbn [value_offset with_value].
  rewrite sizes_app in Hsz |- *. simpl in *. pose proof (cell_size_range x). pose proof (sizes_range cs).
  rewrite (wrap_small 64 (sizes cs + cell_size x)) by (split; lia). rewrite wrap_small by (split; lia). lia.
Qed.

(** Every cell of the storage, with its number and place. *)
Lemma storage_cells parallel_sort `{!ParallelSort parallel_sort} :
  (forall l c, 1 <= l <= levels -> 0 <= c < num_cells l ->
     zlen (source_nodes l c) * zlen (destination_nodes l c) < 2 ^ 32) ->
  exists st, CellStorage_new forward backward parallel_sort mlp g = Some st /\
    forall l c, 1 <= l <= levels -> 0 <= c < num_cells l ->
      exists cell, GetCellData st l c = Some cell /\ cell_at st cell (source_nodes l c) (destination_nodes l c) /\
        0 <= value_offset cell /\ value_offset cell + cell_size cell < zlen (weights (MakeMetric st)) /\
        forall l' c' cell', 1 <= l' <= levels -> 0 <= c' < num_cells l' -> GetCellData st l' c' = Some cell' ->
          (l = l' /\ c = c') \/ value_offset cell + cell_size cell <= value_offset cell' \/
          value_offset cell' + cell_size cell' <= value_offset cell.
Proof using Hin.
  intros Hprod. destruct (CellStorage_new_ok parallel_sort) as (st & cs & E & Hlen & Hsz & Hget & Hcells).
  exists st. split; [done|]. intros l c Hl Hc.
  destruct (Hcells l c Hl Hc) as (cell & Hg & Hcs & Hs & Hd). rewrite (Hget _ _ Hcs) in Hg. eexists. split; [exact Hg|].
  pose proof (zget_some _ _ _ Hcs) as Hir. set (i := level_start (Z.to_nat (l - 1)) + c) in *.
  destruct (sizes_take cs i (i + 1) cell Hcs ltac:(lia)) as [T1 T2].
  pose proof (sizes_range (take (Z.to_nat i) cs)). rewrite cell_size_with. cbn [value_offset with_value].
  split; [|split; [lia|split]].
  - split; cbn [num_source_nodes num_destination_nodes with_value].
    + by apply segment_nodes.
    + by apply segment_nodes.
    + apply Hs.
    + apply Hd.
    + apply NoDup_filter, NoDup_seqZ.
    + apply NoDup_filter, NoDup_seqZ.
    + by apply Hprod.
  - rewrite (MakeMetric_len st cs) by (try done; intros ->; by apply zget_elem, elem_of_nil in Hcs). lia.
  - intros l' c' cell' Hl' Hc' Hg'. destruct (Hcells l' c' Hl' Hc') as (cell1 & Hg1 & Hcs1 & _ & _).
    rewrite Hg1, (Hget _ _ Hcs1) in Hg'. injection Hg' as <-. rewrite cell_size_with. cbn [value_offset with_value].
    set (i' := level_start (Z.to_nat (l' - 1)) + c') in *. destruct (Z.lt_trichotomy i i') as [Hlt|[Heq|Hgt]].
    + right. left. by apply sizes_take.
    + left. destruct (decide (l = l')) as [->|Hne]; [split; [done|]; unfold i, i' in Heq; lia|].
      exfalso. apply (levels_apart (Z.to_nat (l - 1)) (Z.to_nat (l' - 1)) c); [lia|lia|lia| |].
      * by replace (Z.of_nat (Z.to_nat (l - 1)) + 1) with l by lia.
      * replace (Z.of_nat (Z.to_nat (l' - 1)) + 1) with l' by lia. fold i. rewrite Heq. unfold i'. lia.
    + right. right. by apply sizes_take.
Qed.

(** ** Claims *)

Lemma storage_lists parallel_sort `{!ParallelSort parallel_sort} :
  exists st, CellStorage_new forward backward parallel_sort mlp g = Some st /\
    forall l c, 1 <= l <= levels -> 0 <= c < num_cells l ->
      exists cell, GetCellData st l c = Some cell /\
        GetSourceNodes st cell = Some (source_nodes l c) /\
        GetDestinationNodes st cell = Some (destination_nodes l c).
Proof using Hin.
  destruct (CellStorage_new_ok parallel_sort) as (st & cs & E & Hlen & Hsz & Hget & Hcells).
  exists st. split; [done|]. intros l c Hl Hc. destruct (Hcells l c Hl Hc) as (cell & Hg & Hcs & Hs & Hd).
  rewrite (Hget _ _ Hcs) in Hg. eexists. split; [exact Hg|]. split; by apply segment_nodes.
Qed.

(** C13: the constructor of the cell storage, for every sort that keeps its
    contract: each cell of each level lists, in ascending order, exactly its
    source nodes (an edge leaves the cell, and a forward edge stays inside) and
    its destination nodes (an edge leaves the cell, and a backward edge stays
    inside or no edge of the node does). *)
Theorem storage_boundaries parallel_sort `{!ParallelSort parallel_sort} :
  exists st, CellStorage_new forward backward parallel_sort mlp g = Some st /\
    forall l c, 1 <= l <= levels -> 0 <= c < num_cells l ->
      exists cell, GetCellData st l c = Some cell /\
        GetSourceNodes st cell = Some (source_nodes l c) /\
        GetDestinationNodes st cell = Some (destination_nodes l c).
Proof using Hin. by apply storage_lists. Qed.

(** C29: the weights of a cell form a matrix of its own.  As long as no cell has
    2^32 pairs of boundary nodes, the row of a source and the column of a
    destination meet in one slot, which lies inside the arrays of the metric;
    and different pairs, of the same cell or of different ones, have different
    slots. *)
Theorem matrix_slots parallel_sort `{!ParallelSort parallel_sort}
    (Hprod : forall l c, 1 <= l <= levels -> 0 <= c < num_cells l ->
       zlen (source_nodes l c) * zlen (destination_nodes l c) < 2 ^ 32) :
  exists st, CellStorage_new forward backward parallel_sort mlp g = Some st /\
    (forall l c s d, 1 <= l <= levels -> 0 <= c < num_cells l ->
       s ∈ source_nodes l c -> d ∈ destination_nodes l c ->
       exists idx, out_slot st l c s d idx /\ in_slot st l c s d idx /\ 0 <= idx < zlen (weights (MakeMetric st))) /\
    (forall l c s d l' c' s' d' idx, 1 <= l <= levels -> 0 <= c < num_cells l -> 1 <= l' <= levels -> 0 <= c' < num_cells l' ->
       out_slot st l c s d idx -> out_slot st l' c' s' d' idx -> (l, c, s, d) = (l', c', s', d')).
Proof using Hin.
  destruct (storage_cells parallel_sort Hprod) as (st & E & Hcells). exists st. split; [done|]. split.
  - intros l c s d Hl Hc Hs Hd. destruct (Hcells l c Hl Hc) as (cell & Hg & Hat & Hv & Hin' & _).
    apply elem_zget in Hs as [i Hi], Hd as [j Hj]. pose proof (zget_some _ _ _ Hi). pose proof (zget_some _ _ _ Hj).
    rewrite (cell_size_product _ _ _ _ Hat) in Hin'.
    exists (value_offset cell + zlen (destination_nodes l c) * i + j). split; [|split; [|split; nia]].
    + exists cell. do 3 eexists. split; [done|]. split; [by apply (out_range _ _ _ _ Hat)|].
      split; [apply (ca_destinations _ _ _ _ Hat)|]. split; [exact Hj|]. by rewrite seqZ_get by lia.
    + exists cell. do 3 eexists. split; [done|]. split; [by apply (in_range _ _ _ _ Hat)|].
      split; [apply (ca_sources _ _ _ _ Hat)|]. split; [exact Hi|]. unfold zget.
      destruct (Z.leb_spec 0 i); [|lia]. rewrite list_lookup_fmap, lookup_seqZ_lt by lia.
      simpl. rewrite Z2Nat.id by lia. f_equal. lia.
  - intros l c s d l' c' s' d' idx Hl Hc Hl' Hc' (cell & row & ds & k & Hg & Hrow & Hds & Hk & Hidx)
      (cell' & row' & ds' & k' & Hg' & Hrow' & Hds' & Hk' & Hidx').
    destruct (Hcells l c Hl Hc) as (cell0 & Hg0 & Hat & Hv & _ & Hapart). assert (cell0 = cell) as -> by congruence.
    destruct (Hcells l' c' Hl' Hc') as (cell1 & Hg1 & Hat' & Hv' & _ & _). assert (cell1 = cell') as -> by congruence.
    destruct (out_range_inv _ _ _ _ Hat _ _ _ _ Hrow Hidx) as (i & Hi & Hkr & E1).
    destruct (out_range_inv _ _ _ _ Hat' _ _ _ _ Hrow' Hidx') as (i' & Hi' & Hkr' & E2).
    pose proof (zget_some _ _ _ Hi). pose proof (zget_some _ _ _ Hi').
    pose proof (cell_size_product _ _ _ _ Hat) as Sz. pose proof (cell_size_product _ _ _ _ Hat') as Sz'.
    destruct (Hapart l' c' cell' Hl' Hc' Hg') as [[-> ->]|[Hap|Hap]]; [|nia|nia].
    assert (cell' = cell) as -> by congruence. 
    assert (i = i' /\ k = k') as [-> ->] by (apply (Z.div_mod_unique (zlen (destination_nodes l' c'))); lia).
    pose proof (ca_destinations _ _ _ _ Hat). assert (ds = ds') as -> by congruence. congruence.
Qed.
End levels.

(** ** Witnesses *)

(** The partition of the comment in the source; 2 and 4 share all cells, and
    so do 3 and 5. *)
Definition example_data (w : Z) (fwd bwd : bool) : EdgeData :=
  mkEdgeData 0 w (SpecFloat.S754_zero false) w fwd bwd.

Definition flagged_edges : list (InputEdge EdgeData) :=
  [mkInputEdge 0 1 (example_data 1 true true); mkInputEdge 1 0 (example_data 1 true true);
   mkInputEdge 2 0 (example_data 5 true false); mkInputEdge 2 4 (example_data 2 true false);
   mkInputEdge 3 5 (example_data 2 true true); mkInputEdge 4 2 (example_data 2 false true);
   mkInputEdge 4 3 (example_data 3 true true); mkInputEdge 5 3 (example_data 2 true true)].

Definition example_graph : Static.StaticGraph EdgeData := Static.InitializeFromSortedEdgeRange 6 flagged_edges.

Lemma example_graph_ok : Static.sg_wf example_graph /\
  forall v x, 0 <= v < 6 -> x ∈ Static.sadj example_graph v -> 0 <= target x < 6.
Proof.
  destruct (Static.construct_ok 6 flagged_edges) as [Hwf Hadj]; [by vm_compute|simpl; lia|by vm_compute|].
  split; [exact Hwf|]. intros v x Hv. unfold example_graph. rewrite Hadj by done.
  intros (e & -> & [_ He]%list_elem_of_filter)%list_elem_of_fmap. revert e He. apply Forall_forall.
  repeat constructor; simpl; lia.
Qed.

Lemma example_storage_input mlp :
  MultiLevelPartition_new example_partitions [4; 3] = Some (Some mlp) -> storage_input mlp example_graph 2.
Proof.
  intros E. destruct (constructor_ok example_partitions [4; 3] 6 example_input_ok) as (mlp' & E' & Hok & Hlen & Hcells & _).
  assert (mlp' = mlp) as -> by congruence.
  assert (forall l, 1 <= l <= 2 -> l = 1 \/ l = 2) as Hl2 by lia.
  assert (GetNumberOfCells mlp 1 = Some 4 /\ GetNumberOfCells mlp 2 = Some 3 /\ GetNumberOfLevels mlp = 3) as (N1 & N2 & NL).
  { clear -E. vm_compute in E. injection E as <-. by vm_compute. }
  clear E E'. split; [lia|exact NL| | |apply example_graph_ok|apply example_graph_ok|by vm_compute|].
  - intros l Hl. destruct (zget_is_some example_partitions (l - 1)) as [p Hp]; [change (zlen example_partitions) with 2; lia|].
    exists (distinct p). pose proof (Hcells _ _ Hp) as Hc. replace (l - 1 + 1) with l in Hc by lia. split.
    + destruct (Hl2 l Hl) as [->| ->]; injection Hp as <-; [rewrite N1|rewrite N2]; by vm_compute.
    + intros v Hv. change (graph_nodes example_graph) with 6 in Hv.
      destruct (level_cells_iff example_partitions [4; 3] 6 example_input_ok mlp l _ p v v Hc Hp Hv Hv) as (c & _ & Hv' & _ & Hr & _).
      by exists c.
  - intros l Hl. unfold num_cells. destruct (Hl2 l Hl) as [->| ->]; [by rewrite N1|by rewrite N2].
  - change (level_start mlp (Z.to_nat 2)) with (0 + num_cells mlp 1 + num_cells mlp 2).
    unfold num_cells. rewrite N1, N2. by vm_compute.
Qed.

Lemma storage_boundaries_witness :
  exists mlp st cell, MultiLevelPartition_new example_partitions [4; 3] = Some (Some mlp) /\
    CellStorage_new forward backward sequential_sort mlp example_graph = Some st /\
    GetCellData st 1 0 = Some cell /\ GetSourceNodes st cell = Some [2] /\ GetDestinationNodes st cell = Some [4].
Proof.
  destruct example_mlp as (mlp & E & _). exists mlp.
  destruct (storage_boundaries forward backward mlp example_graph 2 (example_storage_input mlp E) sequential_sort)
    as (st & Est & Hst). exists st.
  destruct (Hst 1 0 ltac:(lia)) as (cell & Hc & Hs & Hd); [clear -E; vm_compute in E; injection E as <-; by vm_compute|].
  exists cell. split; [exact E|]. split; [exact Est|]. split; [exact Hc|]. rewrite Hs, Hd. clear -E.
  vm_compute in E. injection E as <-. split; by vm_compute.
Defined.

Lemma example_products mlp l c :
  zlen (source_nodes forward mlp example_graph l c) * zlen (destination_nodes forward backward mlp example_graph l c) < 2 ^ 32.
Proof.
  unfold source_nodes, destination_nodes, zlen.
  pose proof (length_filter (fun v => source_node forward mlp example_graph l v = true /\ cell_of mlp l v = c) (seqZ 0 (graph_nodes example_graph))).
  pose proof (length_filter (fun v => destination_node forward backward mlp example_graph l v = true /\ cell_of mlp l v = c)
    (seqZ 0 (graph_nodes example_graph))).
  change (length (seqZ 0 (graph_nodes example_graph))) with 6%nat in *. nia.
Qed.

Lemma matrix_slots_witness :
  exists mlp st, MultiLevelPartition_new example_partitions [4; 3] = Some (Some mlp) /\
    CellStorage_new forward backward sequential_sort mlp example_graph = Some st /\
    exists idx, out_slot st 1 0 2 4 idx /\ in_slot st 1 0 2 4 idx.
Proof.
  destruct example_mlp as (mlp & E & _). exists mlp.
  destruct (matrix_slots forward backward mlp example_graph 2 (example_storage_input mlp E) sequential_sort
    (fun l c _ _ => example_products mlp l c)) as (st & Est & Hst & _). exists st.
  split; [exact E|]. split; [exact Est|]. destruct (Hst 1 0 2 4 ltac:(lia)) as (idx & Ho & Hi & _).
  - clear -E. vm_compute in E. injection E as <-. by vm_compute.
  - clear -E. vm_compute in E. injection E as <-. apply (bool_decide_unpack _). by vm_compute.
  - clear -E. vm_compute in E. injection E as <-. apply (bool_decide_unpack _). by vm_compute.
  - exists idx. exact (conj Ho Hi).
Defined.
