(* ===== verification/CellCustomizer.v ===== *)
(** * Customization: the weights of a cell

    Model of include/customizer/cell_customizer.hpp: for every source node of a
    cell a search inside the cell, over the matrices of the sub-cells and the
    edges between sub-cells (over all edges at the first level), whose keys
    become the row of the source in the matrix of the cell.

    The first part of the proofs treats the search for any arcs out of a node:
    under the triangle inequality on the matrices of the sub-cells it is exact,
    although nodes reached through a matrix are not relaxed through it again. *)
From S2P Require Import Prelude Walks Sorting QueryHeap Permutation DynamicGraph StaticGraph MultiLevelPartition.
From S2P Require Import MultiLevelGraph GraphInterface EdgeBasedEdge CellStorage.
Import Static Multi.

(** ** Relaxing a node *)

Record HeapData : Type := mkHeapData { from_clique : bool; hd_duration : Z; hd_distance : float32 }.

(** [std::tie(weight, duration, distance) < ...] *)
Definition tie_lt (w d : Z) (x : float32) (w' d' : Z) (x' : float32) : bool :=
  (w <? w') || ((w =? w') && ((d <? d') || ((d =? d') && flt32 x x'))).

Section customizer.
Context {St H Handle : Type} `{IndexStorage St, MutableHeap H Handle}.
Context (partition : MultiLevelPartition).
Abbreviation Heap := (QueryHeap St H Handle HeapData).
Implicit Types (heap : Heap) (graph : MultiLevelGraph EdgeData) (st : CellStorage) (metric : CellMetric).
Implicit Types (allowed_nodes : list bool).

Definition relax_arc heap (to to_weight to_duration : Z) (to_distance : float32) (clique : bool) : option Heap :=
  inserted ← WasInserted heap to;
  if negb inserted then Insert heap to to_weight (mkHeapData clique to_duration to_distance)
  else
    key ← GetKey heap to;
    d ← GetData heap to;
    if tie_lt to_weight to_duration to_distance key (hd_duration d) (hd_distance d) then
      heap' ← DecreaseKey heap to to_weight;
      SetData heap' to (mkHeapData clique to_duration to_distance)
    else Some heap.

(** The loop over the row of [node] in its sub-cell.  The four iterators are the
    remaining parts of their ranges; a [continue] advances the weights only. *)
Fixpoint relax_subcell heap allowed_nodes (ws subcell_destination subcell_duration : list Z)
    (subcell_distance : list float32) (weight duration : Z) (distance : float32) : option Heap :=
  match ws with
  | [] => Some heap
  | subcell_weight :: ws =>
      if negb (subcell_weight =? INVALID_EDGE_WEIGHT) then
        to ← head subcell_destination;
        allowed ← allowed_nodes !z to;
        if negb allowed
        then relax_subcell heap allowed_nodes ws subcell_destination subcell_duration subcell_distance
               weight duration distance
        else
          d ← head subcell_duration;
          x ← head subcell_distance;
          heap' ← relax_arc heap to (weight_add weight subcell_weight) (weight_add duration d) (fadd32 distance x) true;
          relax_subcell heap' allowed_nodes ws (tail subcell_destination) (tail subcell_duration)
            (tail subcell_distance) weight duration distance
      else relax_subcell heap allowed_nodes ws (tail subcell_destination) (tail subcell_duration)
             (tail subcell_distance) weight duration distance
  end.

Definition crosses_subcell (level node to : Z) : option bool :=
  if level =? 1 then Some true
  else a ← GetCell partition (level - 1) node; b ← GetCell partition (level - 1) to; Some (negb (a =? b)).

Fixpoint relax_edges heap graph allowed_nodes (level node : Z) (range : list Z) (node_weight duration : Z)
    (distance : float32) : option Heap :=
  match range with
  | [] => Some heap
  | edge :: range =>
      to ← GetTarget (base graph) edge;
      allowed ← allowed_nodes !z to;
      if negb allowed then relax_edges heap graph allowed_nodes level node range node_weight duration distance
      else
        data ← GetEdgeData (base graph) edge;
        taken ← (if forward data then crosses_subcell level node to else Some false);
        if taken : bool then
          heap' ← relax_arc heap to (weight_add node_weight (weight data))
                    (weight_add duration (EdgeBasedEdge.duration data)) (fadd32 distance (EdgeBasedEdge.distance data)) false;
          relax_edges heap' graph allowed_nodes level node range node_weight duration distance
        else relax_edges heap graph allowed_nodes level node range node_weight duration distance
  end.

Definition RelaxNode heap graph st allowed_nodes metric (level node weight duration : Z) (distance : float32)
  : option Heap :=
  d ← GetData heap node;
  heap' ← (if negb (level =? 1) && negb (from_clique d) then
             subcell_id ← GetCell partition (level - 1) node;
             subcell ← GetCellData st (level - 1) subcell_id;
             destinations ← GetDestinationNodes st subcell;
             durs ← GetOutDuration st metric subcell node;
             dists ← GetOutDistance st metric subcell node;
             ws ← GetOutWeight st metric subcell node;
             relax_subcell heap allowed_nodes ws destinations durs dists weight duration distance
           else Some heap);
  range ← GetInternalEdgeRange graph level node;
  relax_edges heap' graph allowed_nodes level node range weight duration distance.

(** ** A cell *)

(** The search from one source; [destinations_set] holds the destinations not yet settled. *)
Fixpoint search_cell (fuel : nat) heap graph st allowed_nodes metric (level : Z) (destinations_set : gset Z)
  : option Heap :=
  match fuel with
  | O => None
  | S fuel =>
      if Empty heap || bool_decide (destinations_set = ∅) then Some heap
      else
        '(node, heap1) ← DeleteMin heap;
        weight ← GetKey heap1 node;
        d ← GetData heap1 node;
        heap2 ← RelaxNode heap1 graph st allowed_nodes metric level node weight (hd_duration d) (hd_distance d);
        search_cell fuel heap2 graph st allowed_nodes metric level (destinations_set ∖ {[node]})
  end.

(** The row of the source, at the positions [row] of the three arrays. *)
Fixpoint fill_row heap (destinations row : list Z) metric : option CellMetric :=
  match destinations with
  | [] => Some metric
  | destination :: destinations =>
      i ← head row;
      inserted ← WasInserted heap destination;
      key ← (if inserted : bool then GetKey heap destination else Some INVALID_EDGE_WEIGHT);
      d ← (if inserted : bool then GetData heap destination
           else Some (mkHeapData false MAXIMAL_EDGE_DURATION INVALID_EDGE_DISTANCE));
      ws ← zset i key (weights metric);
      ds ← zset i (hd_duration d) (durations metric);
      xs ← zset i (hd_distance d) (distances metric);
      fill_row heap destinations (tail row) (mkCellMetric ws ds xs)
  end.

Fixpoint allowed_set allowed_nodes (destinations : list Z) : option (gset Z) :=
  match destinations with
  | [] => Some ∅
  | d :: destinations =>
      a ← allowed_nodes !z d;
      s ← allowed_set allowed_nodes destinations;
      Some (if a : bool then {[d]} ∪ s else s)
  end.

Definition customize_source heap graph st allowed_nodes metric (level : Z) (cell : CellData) (destinations : list Z)
    (source : Z) : option (Heap * CellMetric) :=
  destinations_set ← allowed_set allowed_nodes destinations;
  heap1 ← Insert (Clear heap) source 0 (mkHeapData false 0 (SpecFloat.S754_zero false));
  heap2 ← search_cell (S (Z.to_nat (GetNumberOfNodes (base graph)))) heap1 graph st allowed_nodes metric level
            destinations_set;
  row ← GetOutRange st cell source;
  metric' ← fill_row heap2 destinations row metric;
  Some (heap2, metric').

Fixpoint customize_sources heap graph st allowed_nodes metric (level : Z) (cell : CellData) (destinations sources : list Z)
  : option (Heap * CellMetric) :=
  match sources with
  | [] => Some (heap, metric)
  | source :: sources =>
      a ← allowed_nodes !z source;
      if negb a then customize_sources heap graph st allowed_nodes metric level cell destinations sources
      else
        '(heap', metric') ← customize_source heap graph st allowed_nodes metric level cell destinations source;
        customize_sources heap' graph st allowed_nodes metric' level cell destinations sources
  end.

Definition Customize heap graph st allowed_nodes metric (level id : Z) : option (Heap * CellMetric) :=
  cell ← GetCellData st level id;
  destinations ← GetDestinationNodes st cell;
  sources ← GetSourceNodes st cell;
  customize_sources heap graph st allowed_nodes metric level cell destinations sources.

(** ** All cells *)

Fixpoint customize_cells heap graph st allowed_nodes metric (level : Z) (ids : list Z) : option (Heap * CellMetric) :=
  match ids with
  | [] => Some (heap, metric)
  | id :: ids =>
      '(heap', metric') ← Customize heap graph st allowed_nodes metric level id;
      customize_cells heap' graph st allowed_nodes metric' level ids
  end.

(** Level by level.  [schedule level] is the order in which the cells of a level
    are taken by the workers; a worker clears its heap before every search. *)
Fixpoint customize_levels (levels : nat) (schedule : Z -> list Z) heap graph st allowed_nodes metric (level : Z)
  : option (Heap * CellMetric) :=
  match levels with
  | O => Some (heap, metric)
  | S levels =>
      '(heap', metric') ← customize_cells heap graph st allowed_nodes metric level (schedule level);
      customize_levels levels schedule heap' graph st allowed_nodes metric' (level + 1)
  end.

Definition Customize_all (schedule : Z -> list Z) heap graph st allowed_nodes metric : option CellMetric :=
  '(_, metric') ← customize_levels (Z.to_nat (MultiLevelPartition.GetNumberOfLevels partition - 1)) schedule heap
                    graph st allowed_nodes metric 1;
  Some metric'.
End customizer.

(** ** Arcs out of a node *)

Record OutArc : Type := mkOutArc { oa_to : Z; oa_weight : Z; oa_duration : Z; oa_distance : float32 }.

Section relax_arcs.
Context {St H Handle : Type} `{IndexStorage St, MutableHeap H Handle}.

Fixpoint relax_arcs (heap : QueryHeap St H Handle HeapData) (arcs : list OutArc) (clique : bool) (weight duration : Z)
    (distance : float32) : option (QueryHeap St H Handle HeapData) :=
  match arcs with
  | [] => Some heap
  | a :: arcs =>
      heap' ← relax_arc heap (oa_to a) (weight_add weight (oa_weight a)) (weight_add duration (oa_duration a))
                (fadd32 distance (oa_distance a)) clique;
      relax_arcs heap' arcs clique weight duration distance
  end.
End relax_arcs.

(** ** Relaxing on the abstract queue *)

Abbreviation cmap := (gmap Z (qentry HeapData)).
Implicit Types (M : cmap) (e : qentry HeapData) (a : OutArc).

Definition entry_lt (w d : Z) (x : float32) e : bool :=
  tie_lt w d x (qe_weight e) (hd_duration (qe_data e)) (hd_distance (qe_data e)).

Definition relax_entry M (to w d : Z) (x : float32) (clique : bool) : cmap :=
  match M !! to with
  | None => <[to := mkQentry w (mkHeapData clique d x) false]> M
  | Some e => if entry_lt w d x e then <[to := mkQentry w (mkHeapData clique d x) false]> M else M
  end.

Fixpoint relax_list M (arcs : list OutArc) (clique : bool) (w d : Z) (x : float32) : cmap :=
  match arcs with
  | [] => M
  | a :: arcs =>
      relax_list (relax_entry M (oa_to a) (w + oa_weight a) (weight_add d (oa_duration a)) (fadd32 x (oa_distance a)) clique)
        arcs clique w d x
  end.

Definition in_int32 (z : Z) : Prop := - 2 ^ 31 <= z < 2 ^ 31.

Lemma swrap_in_int32 z : in_int32 (swrap 32 z).
Proof. unfold in_int32, swrap. pose proof (Z.mod_pos_bound (z + 2 ^ (32 - 1)) (2 ^ 32) ltac:(lia)). lia. Qed.

Lemma fadd32_zero x : flt32 (fadd32 x (SpecFloat.S754_zero false)) x = false.
Proof.
  unfold flt32, fadd32, SpecFloat.SFltb, SpecFloat.SFadd, SpecFloat.SFcompare.
  destruct x as [[]|[]| |[] m ex]; try done; by rewrite Z.compare_refl, Pos.compare_refl.
Qed.

(** An arc from [n]: to another node with a positive weight, or the arc from
    the node to itself that the diagonal of a matrix holds. *)
Definition arc_ok (n : Z) a : Prop :=
  1 <= oa_weight a \/
  (oa_to a = n /\ oa_weight a = 0 /\ oa_duration a = 0 /\ oa_distance a = SpecFloat.S754_zero false).

Section relax_list.
(** The node [n], just settled, and its entry. *)
Context (n : Z) (en : qentry HeapData) (clique : bool).
Abbreviation w := (qe_weight en).
Abbreviation d := (hd_duration (qe_data en)).
Abbreviation x := (hd_distance (qe_data en)).
Context (Hen : qe_removed en = true) (Hd : in_int32 d).

(** What holds of the queue while the arcs of [n] are relaxed. *)
Record settled_below M : Prop := {
  sb_node : M !! n = Some en;
  sb_removed m e : M !! m = Some e -> qe_removed e = true -> qe_weight e <= w
}.

(** An entry written by relaxing one of [arcs]. *)
Definition written (arcs : list OutArc) (m : Z) e : Prop :=
  qe_removed e = false /\ from_clique (qe_data e) = clique /\ in_int32 (hd_duration (qe_data e)) /\
  exists a, a ∈ arcs /\ oa_to a = m /\ 1 <= oa_weight a /\ qe_weight e = w + oa_weight a.

(** Weights only go down, settled entries stay. *)
Record relaxed M M' (arcs : list OutArc) : Prop := {
  rx_old m e : M !! m = Some e -> exists e', M' !! m = Some e' /\ qe_weight e' <= qe_weight e /\
    qe_removed e' = qe_removed e;
  rx_reached a : a ∈ arcs -> exists e, M' !! oa_to a = Some e /\ qe_weight e <= w + oa_weight a;
  rx_new m e : M' !! m = Some e -> M !! m = Some e \/ written arcs m e;
  rx_settled m e : M !! m = Some e -> qe_removed e = true -> M' !! m = Some e;
  rx_light m e : M !! m = Some e -> qe_weight e <= w -> M' !! m = Some e
}.

Lemma relax_self a : arc_ok n a -> ~ 1 <= oa_weight a ->
  forall M, M !! n = Some en ->
  relax_entry M (oa_to a) (w + oa_weight a) (weight_add d (oa_duration a)) (fadd32 x (oa_distance a)) clique = M.
Proof using Hd.
  intros [?|(Hto & Hw & Hdu & Hx)] Hn M HM; [done|]. unfold relax_entry. rewrite Hto, HM.
  unfold entry_lt, tie_lt. rewrite Hw, Hdu, Hx. unfold weight_add. rewrite !Z.add_0_r.
  rewrite swrap_small by (unfold in_int32 in Hd; lia). rewrite fadd32_zero. by rewrite !Z.ltb_irrefl, !andb_false_r.
Qed.

Lemma relax_entry_ok M a :
  settled_below M -> arc_ok n a ->
  let M' := relax_entry M (oa_to a) (w + oa_weight a) (weight_add d (oa_duration a)) (fadd32 x (oa_distance a)) clique in
  settled_below M' /\ relaxed M M' [a].
Proof using Hd Hen.
  intros [Sn Sr] Ha M'. destruct (decide (1 <= oa_weight a)) as [Hw|Hw].
  2:{ assert (M' = M) as -> by (by apply relax_self). split; [done|]. split.
      - intros m e Hm. exists e. split_and!; try done.
      - intros b [->|Hb]%elem_of_cons; [|by apply elem_of_nil in Hb]. destruct Ha as [?|(-> & -> & _)]; [done|].
        exists en. split; [done|lia].
      - by left.
      - done.
      - done. }
  assert (forall m e, M' !! m = Some e -> M !! m = Some e \/ (m = oa_to a /\ written [a] m e)) as Hnew.
  { intros m e. unfold M', relax_entry. destruct (M !! oa_to a) as [e0|] eqn:E0; [destruct (entry_lt _ _ _ e0)|];
      [|by left|]; (destruct (decide (m = oa_to a)) as [->|Hne];
        [rewrite lookup_insert_eq; intros [= <-]; right; split; [done|]; split_and!; try done;
           [apply swrap_in_int32|exists a; split_and!; try done; by left]
        |rewrite lookup_insert_ne by done; by left]). }
  assert (forall m e, M !! m = Some e -> qe_removed e = true \/ qe_weight e <= w -> M' !! m = Some e) as Hset.
  { intros m e Hm Hr. assert (qe_weight e <= w) as Hle by (destruct Hr as [Hr|?]; [by apply (Sr _ _ Hm Hr)|done]).
    unfold M', relax_entry. destruct (M !! oa_to a) as [e0|] eqn:E0.
    - destruct (entry_lt _ _ _ e0) eqn:El; [|done]. rewrite lookup_insert_ne; [done|]. intros <-.
      assert (e0 = e) as -> by congruence. unfold entry_lt, tie_lt in El. lia.
    - rewrite lookup_insert_ne; [done|]. intros <-. congruence. }
  split; [split|split].
  - apply Hset; [done|by left].
  - intros m e Hm Hr. destruct (Hnew m e Hm) as [Ho|(_ & Hl & _)]; [by eapply Sr|congruence].
  - intros m e Hm. destruct (qe_removed e) eqn:Er; [exists e; split_and!; try done; by apply Hset; [|left]|].
    unfold M', relax_entry. destruct (M !! oa_to a) as [e0|] eqn:E0.
    + destruct (entry_lt _ _ _ e0) eqn:El; [|exists e; by split_and!]. destruct (decide (m = oa_to a)) as [->|Hne].
      * rewrite lookup_insert_eq. eexists. split; [done|]. assert (e0 = e) as -> by congruence. simpl.
        unfold entry_lt, tie_lt in El. split; [lia|done].
      * rewrite lookup_insert_ne by done. exists e. by split_and!.
    + rewrite lookup_insert_ne by congruence. exists e. by split_and!.
  - intros b [->|Hb]%elem_of_cons; [|by apply elem_of_nil in Hb]. unfold M', relax_entry.
    destruct (M !! oa_to a) as [e0|] eqn:E0; [destruct (entry_lt _ _ _ e0) eqn:El|].
    + rewrite lookup_insert_eq. eexists. split; [done|simpl; lia].
    + exists e0. split; [done|]. unfold entry_lt, tie_lt in El. lia.
    + rewrite lookup_insert_eq. eexists. split; [done|simpl; lia].
  - intros m e Hm. destruct (Hnew m e Hm) as [?|[_ ?]]; [by left|by right].
  - intros m e Hm Hr. apply Hset; [done|by left].
  - intros m e Hm Hr. apply Hset; [done|by right].
Qed.

Lemma written_mono arcs arcs' m e : (forall a, a ∈ arcs -> a ∈ arcs') -> written arcs m e -> written arcs' m e.
Proof. intros Hs (H1 & H2 & H3 & a & Ha & H4). split_and!; try done. exists a. split; [by apply Hs|done]. Qed.

Lemma relax_list_ok arcs : forall M, settled_below M -> (forall a, a ∈ arcs -> arc_ok n a) ->
  settled_below (relax_list M arcs clique w d x) /\ relaxed M (relax_list M arcs clique w d x) arcs.
Proof using Hd Hen.
  induction arcs as [|a arcs IH]; intros M HS Ha; cbn [relax_list].
  { split; [done|]. split; [|by intros a ?%elem_of_nil|by left|done|done]. intros m e Hm. exists e. by split_and!. }
  destruct (relax_entry_ok M a HS ltac:(apply Ha; by left)) as [HS1 R1].
  set (M1 := relax_entry _ _ _ _ _ _) in *.
  destruct (IH M1 HS1) as [HS2 R2]; [intros b Hb; apply Ha; by right|]. split; [done|]. split.
  - intros m e Hm. destruct (rx_old _ _ _ R1 m e Hm) as (e1 & H1 & W1 & D1).
    destruct (rx_old _ _ _ R2 m e1 H1) as (e2 & H2 & W2 & D2). exists e2. split; [done|]. split; [lia|congruence].
  - intros b [->|Hb]%elem_of_cons; [|by apply (rx_reached _ _ _ R2)].
    destruct (rx_reached _ _ _ R1 a ltac:(by left)) as (e1 & H1 & W1).
    destruct (rx_old _ _ _ R2 _ _ H1) as (e2 & H2 & W2 & _). exists e2. split; [done|lia].
  - intros m e Hm. destruct (rx_new _ _ _ R2 m e Hm) as [H1|H1].
    + destruct (rx_new _ _ _ R1 m e H1) as [?|Hw]; [by left|right]. eapply written_mono; [|done].
      intros b [->|Hb]%elem_of_cons; [by left|by apply elem_of_nil in Hb].
    + right. eapply written_mono; [|done]. intros b Hb. by right.
  - intros m e Hm Hr. apply (rx_settled _ _ _ R2); [|done]. by apply (rx_settled _ _ _ R1).
  - intros m e Hm Hr. apply (rx_light _ _ _ R2); [|done]. by apply (rx_light _ _ _ R1).
Qed.
End relax_list.

(** ** The queue relaxes as the map does *)

Section refinement.
Context {St H Handle : Type}.
Context `{SL : IndexStorageLaws St, HL : MutableHeapLaws H Handle}.
Context (num : Z).
Implicit Types (q : QueryHeap St H Handle HeapData).

Lemma relax_arc_ok q M c r to w d x clique :
  good num q M c r -> 0 <= to < num -> (forall m e, M !! m = Some e -> 0 <= m < num) -> num + 1 < r ->
  (forall e, M !! to = Some e -> entry_lt w d x e = true -> qe_removed e = false) ->
  exists q', relax_arc q to w d x clique = Some q' /\ good num q' (relax_entry M to w d x clique) c r.
Proof.
  intros G Hto Hdom Hr Hlive. pose proof G as [R V _]. unfold relax_arc, relax_entry.
  rewrite (WasInserted_spec _ _ _ R (V _ Hto)). cbn [mbind option_bind].
  destruct (M !! to) as [e|] eqn:E; [rewrite bool_decide_eq_true_2 by eauto|rewrite bool_decide_eq_false_2 by (by intros [? ?])]; simpl.
  - rewrite (GetKey_spec _ _ _ _ R E). cbn [mbind option_bind]. rewrite (GetData_spec _ _ _ _ R E). cbn [mbind option_bind].
    change (tie_lt w d x (qe_weight e) (hd_duration (qe_data e)) (hd_distance (qe_data e))) with (entry_lt w d x e).
    destruct (entry_lt w d x e) eqn:El; [|by exists q].
    destruct (DecreaseKey_spec q M to e w R E (Hlive _ eq_refl El)) as (q1 & E1 & R1 & N1);
      [unfold entry_lt, tie_lt in El; lia|].
    rewrite E1. cbn [mbind option_bind].
    destruct (SetData_spec q1 _ to (mkQentry w (qe_data e) false) (mkHeapData clique d x) R1) as (q2 & E2 & R2 & N2);
      [by rewrite lookup_insert_eq|].
    exists q2. split; [done|]. rewrite insert_insert_eq in R2. eapply good_keep; [exact G|exact R2|congruence].
  - apply good_Insert; [done|done|done|]. pose proof (size_bound num M ltac:(lia) Hdom). lia.
Qed.

Lemma relax_arcs_ok n en clique arcs : qe_removed en = true -> in_int32 (hd_duration (qe_data en)) -> forall q M c r,
  good num q M c r -> (forall m e, M !! m = Some e -> 0 <= m < num) -> num + 1 < r -> settled_below n en M ->
  (forall a, a ∈ arcs -> arc_ok n a /\ 0 <= oa_to a < num /\ 0 <= qe_weight en + oa_weight a < 2 ^ 31) ->
  exists q', relax_arcs q arcs clique (qe_weight en) (hd_duration (qe_data en)) (hd_distance (qe_data en)) = Some q' /\
    good num q' (relax_list M arcs clique (qe_weight en) (hd_duration (qe_data en)) (hd_distance (qe_data en))) c r.
Proof.
  intros Hen Hd. induction arcs as [|a arcs IH]; intros q M c r G Hdom Hr HS Ha; cbn [relax_arcs relax_list]; [by exists q|].
  destruct (Ha a ltac:(by left)) as (Hok & Hto & Hw). unfold weight_add at 1. rewrite swrap_small by lia.
  destruct (relax_entry_ok n en clique Hen Hd M a HS Hok) as [HS1 R1].
  destruct (relax_arc_ok q M c r (oa_to a) (qe_weight en + oa_weight a)
    (weight_add (hd_duration (qe_data en)) (oa_duration a)) (fadd32 (hd_distance (qe_data en)) (oa_distance a)) clique G Hto Hdom Hr)
    as (q1 & -> & G1).
  { intros e He El. destruct (qe_removed e) eqn:Er; [exfalso|done].
    pose proof (sb_removed _ _ _ HS _ _ He Er) as Hle. destruct (decide (1 <= oa_weight a)) as [Hp|Hp].
    - unfold entry_lt, tie_lt in El. lia.
    - pose proof (relax_self n en clique Hd a Hok Hp M (sb_node _ _ _ HS)) as Hself. unfold relax_entry in Hself.
      rewrite He, El in Hself. assert (e = en) as ->.
      { destruct Hok as [?|(Hto' & _)]; [done|]. rewrite Hto', (sb_node _ _ _ HS) in He. congruence. }
      rewrite <- Hself, lookup_insert_eq in He. injection He as He. by rewrite <- He in Er. }
  cbn [mbind option_bind]. apply IH; [done| |done|done|intros b Hb; apply Ha; by right].
  intros m e Hm. destruct (rx_new _ _ _ _ _ R1 m e Hm) as [?|(_ & _ & _ & b & Hb & <- & _)]; [by eapply Hdom|].
  apply elem_of_cons in Hb as [->|Hb]; [done|by apply elem_of_nil in Hb].
Qed.
End refinement.

(** ** The search *)

Section search.
(** The arcs out of a node: those of the matrix of its sub-cell, and the others. *)
Context (cl ba : Z -> list OutArc) (num s : Z).

Definition out_arc (u v w : Z) : Prop := exists a, a ∈ cl u ++ ba u /\ oa_to a = v /\ oa_weight a = w.

Context (Hok : forall u a, a ∈ cl u ++ ba u -> arc_ok u a /\ 0 <= oa_to a < num).
Context (Htriangle : forall p a b, a ∈ cl p -> b ∈ cl (oa_to a) ->
  exists c, c ∈ cl p /\ oa_to c = oa_to b /\ oa_weight c <= oa_weight a + oa_weight b).

Lemma out_arc_nonneg u v w : out_arc u v w -> 0 <= w.
Proof using Hok. intros (a & Ha & _ & <-). destruct (Hok u a Ha) as [[?|(_ & -> & _)] _]; lia. Qed.

(** The loop invariant. *)
Record exploring M : Prop := {
  ex_dom m e : M !! m = Some e -> 0 <= m < num;
  ex_sound m e : M !! m = Some e -> walk out_arc s m (qe_weight e);
  ex_source : exists e, M !! s = Some e /\ qe_weight e = 0 /\ qe_data e = mkHeapData false 0 (SpecFloat.S754_zero false);
  ex_order m e m' e' : M !! m = Some e -> M !! m' = Some e' -> qe_removed e = true -> qe_removed e' = false ->
    qe_weight e <= qe_weight e';
  ex_relaxed m e a : M !! m = Some e -> qe_removed e = true -> a ∈ cl m ++ ba m ->
    exists e', M !! oa_to a = Some e' /\ qe_weight e' <= qe_weight e + oa_weight a;
  ex_clique m e : M !! m = Some e -> from_clique (qe_data e) = true -> exists p ep a,
    M !! p = Some ep /\ qe_removed ep = true /\ a ∈ cl p /\ oa_to a = m /\ qe_weight e = qe_weight ep + oa_weight a;
  ex_int32 m e : M !! m = Some e -> in_int32 (hd_duration (qe_data e))
}.

Lemma explore_frontier M v p :
  exploring M -> walk out_arc s v p ->
  (exists e, M !! v = Some e /\ qe_removed e = true /\ qe_weight e <= p) \/
  (exists u e, M !! u = Some e /\ qe_removed e = false /\ qe_weight e <= p).
Proof using Hok.
  intros [_ _ (e0 & He0 & Hw0 & _) _ Hrel _ _] Hw. remember s as s0 eqn:Es in Hw.
  induction Hw as [n|s0 u t w w' Hw IH He]; subst.
  - destruct (qe_removed e0) eqn:E; [left|right]; [exists e0|exists s, e0]; (split_and!; try done; lia).
  - pose proof (out_arc_nonneg _ _ _ He). destruct (IH eq_refl) as [(e & Hu & Hr & Hle)|(u' & e & Hu & Hl & Hle)].
    + destruct He as (a & Ha & <- & <-). destruct (Hrel u e a Hu Hr Ha) as (e' & He' & Hle').
      destruct (qe_removed e') eqn:E; [left|right]; [exists e'|exists (oa_to a), e']; (split_and!; try done; lia).
    + right. exists u', e. split_and!; try done. lia.
Qed.

Lemma exploring_exact M m e p : exploring M -> M !! m = Some e -> qe_removed e = true -> walk out_arc s m p -> qe_weight e <= p.
Proof using Hok.
  intros HE Hm Hr Hp. destruct (explore_frontier M m p HE Hp) as [(e' & Hm' & _ & Hle)|(u & e' & Hu & Hl & Hle)].
  - congruence.
  - pose proof (ex_order _ HE _ _ _ _ Hm Hu Hr Hl). lia.
Qed.

(** Settling the closest node [n] of the queue. *)
Section settle.
Context (M : cmap) (n : Z) (e : qentry HeapData) (HE : exploring M).
Context (Hn : M !! n = Some e) (Hl : qe_removed e = false).
Context (Hmin : forall m e', M !! m = Some e' -> qe_removed e' = false -> qe_weight e <= qe_weight e').
Let en : qentry HeapData := mkQentry (qe_weight e) (qe_data e) true.
Let M1 : cmap := <[n := en]> M.

Lemma settle_lookup m e' : M1 !! m = Some e' -> (m = n /\ e' = en) \/ (m <> n /\ M !! m = Some e').
Proof.
  unfold M1. destruct (decide (m = n)) as [->|Hne].
  - rewrite lookup_insert_eq. intros [= <-]. by left.
  - rewrite lookup_insert_ne by done. by right.
Qed.

Lemma settle_has m e' : M !! m = Some e' -> exists e'', M1 !! m = Some e'' /\ qe_weight e'' = qe_weight e' /\ qe_data e'' = qe_data e' /\
  (qe_removed e' = true -> e'' = e').
Proof using Hn Hl.
  intros Hm. unfold M1. destruct (decide (m = n)) as [->|Hne].
  - rewrite lookup_insert_eq. exists en. assert (e' = e) as -> by congruence. split_and!; try done. congruence.
  - rewrite lookup_insert_ne by done. exists e'. by split_and!.
Qed.

Lemma settle_exact p : walk out_arc s n p -> qe_weight e <= p.
Proof using HE Hn Hl Hmin Hok.
  intros Hp. destruct (explore_frontier M n p HE Hp) as [(e' & Hm & Hr & Hle)|(u & e' & Hu & Hr & Hle)].
  - congruence.
  - pose proof (Hmin _ _ Hu Hr). lia.
Qed.

Lemma settle_below : settled_below n en M1.
Proof using HE Hn Hl.
  split; [apply lookup_insert_eq|]. intros m e' [[-> ->]|[_ Hm]]%settle_lookup Hr; [simpl; lia|].
  by apply (ex_order _ HE _ _ _ _ Hm Hn).
Qed.

(** The arcs that the code relaxes: the matrix is left out for a node that was
    reached through it. *)
Definition taken_cl : list OutArc := if from_clique (qe_data e) then [] else cl n.

Definition explored : cmap :=
  relax_list (relax_list M1 taken_cl true (qe_weight e) (hd_duration (qe_data e)) (hd_distance (qe_data e)))
    (ba n) false (qe_weight e) (hd_duration (qe_data e)) (hd_distance (qe_data e)).

Lemma taken_elem a : a ∈ taken_cl -> a ∈ cl n /\ from_clique (qe_data e) = false.
Proof. unfold taken_cl. destruct (from_clique (qe_data e)); [by intros ?%elem_of_nil|done]. Qed.

Lemma explored_ok : exists M2, relaxed en true M1 M2 taken_cl /\ relaxed en false M2 explored (ba n) /\
  settled_below n en M2 /\ settled_below n en explored /\
  M2 = relax_list M1 taken_cl true (qe_weight e) (hd_duration (qe_data e)) (hd_distance (qe_data e)).
Proof using HE Hn Hl Hok.
  pose proof (ex_int32 _ HE _ _ Hn) as Hi.
  destruct (relax_list_ok n en true eq_refl Hi taken_cl M1 settle_below) as [S2 R2].
  { intros a [Ha _]%taken_elem. apply Hok, elem_of_app. by left. }
  destruct (relax_list_ok n en false eq_refl Hi (ba n) _ S2) as [S3 R3].
  { intros a Ha. apply Hok, elem_of_app. by right. }
  eexists. split; [exact R2|]. split; [exact R3|]. by split_and!.
Qed.

(** An entry of the relaxed map is an old one or was written from [n]. *)
Lemma explored_new m e' : explored !! m = Some e' -> M1 !! m = Some e' \/
  (qe_removed e' = false /\ in_int32 (hd_duration (qe_data e')) /\
   exists a, a ∈ cl n ++ ba n /\ oa_to a = m /\ 1 <= oa_weight a /\ qe_weight e' = qe_weight e + oa_weight a /\
     (from_clique (qe_data e') = true -> a ∈ cl n)).
Proof using HE Hn Hl Hok.
  destruct explored_ok as (M2 & R2 & R3 & _ & _ & _). intros Hm.
  destruct (rx_new _ _ _ _ _ R3 m e' Hm) as [H2|(H1 & H2 & H3 & a & Ha & H4 & H5 & H6)].
  - destruct (rx_new _ _ _ _ _ R2 m e' H2) as [H1|(H3 & H4 & H5 & a & [Ha _]%taken_elem & H6 & H7 & H8)]; [by left|right].
    split_and!; try done. exists a. split_and!; try done. apply elem_of_app. by left.
  - right. split_and!; try done. exists a. split_and!; try done; [apply elem_of_app; by right|congruence].
Qed.

Lemma explored_old m e' : M1 !! m = Some e' ->
  exists e'', explored !! m = Some e'' /\ qe_weight e'' <= qe_weight e' /\ qe_removed e'' = qe_removed e'.
Proof using HE Hn Hl Hok.
  destruct explored_ok as (M2 & R2 & R3 & _ & _ & _). intros Hm.
  destruct (rx_old _ _ _ _ _ R2 m e' Hm) as (e1 & H1 & W1 & D1).
  destruct (rx_old _ _ _ _ _ R3 m e1 H1) as (e2 & H2 & W2 & D2). exists e2. split; [done|]. split; [lia|congruence].
Qed.

Lemma explored_settled m e' : M1 !! m = Some e' -> qe_removed e' = true \/ qe_weight e' <= qe_weight e -> explored !! m = Some e'.
Proof using HE Hn Hl Hok.
  destruct explored_ok as (M2 & R2 & R3 & _ & _ & _). intros Hm [Hr|Hr].
  - apply (rx_settled _ _ _ _ _ R3); [|done]. by apply (rx_settled _ _ _ _ _ R2).
  - apply (rx_light _ _ _ _ _ R3); [|done]. by apply (rx_light _ _ _ _ _ R2).
Qed.

(** All arcs of [n] are covered, also those that were left out. *)
Lemma explored_reached a : a ∈ cl n ++ ba n ->
  exists e', explored !! oa_to a = Some e' /\ qe_weight e' <= qe_weight e + oa_weight a.
Proof using HE Hn Hl Hok Htriangle.
  destruct explored_ok as (M2 & R2 & R3 & _ & _ & _). intros [Ha|Ha]%elem_of_app.
  2:{ exact (rx_reached _ _ _ _ _ R3 a Ha). }
  destruct (from_clique (qe_data e)) eqn:Ec.
  - destruct (ex_clique _ HE _ _ Hn Ec) as (p & ep & b & Hp & Hr & Hb & Hbn & Hw).
    destruct (Htriangle p b a Hb ltac:(by rewrite Hbn)) as (c & Hc & Hto & Hle).
    destruct (ex_relaxed _ HE p ep c Hp Hr ltac:(apply elem_of_app; by left)) as (e1 & He1 & Hw1).
    destruct (settle_has _ _ He1) as (e2 & He2 & Hw2 & _). destruct (explored_old _ _ He2) as (e3 & He3 & Hw3 & _).
    exists e3. rewrite <- Hto. split; [done|lia].
  - assert (taken_cl = cl n) as Et by (unfold taken_cl; by rewrite Ec). rewrite Et in R2.
    destruct (rx_reached _ _ _ _ _ R2 a Ha) as (e1 & He1 & Hw1).
    destruct (rx_old _ _ _ _ _ R3 _ _ He1) as (e2 & He2 & Hw2 & _). exists e2. split; [done|].
    cbn [en qe_weight] in Hw1. lia.
Qed.

Lemma settle_exploring : exploring explored.
Proof using HE Hn Hl Hmin Hok Htriangle.
  split.
  - intros m e' [Ho|(_ & _ & a & Ha & <- & _)]%explored_new.
    + apply settle_lookup in Ho as [[-> _]|[_ Ho]]; by eapply (ex_dom _ HE).
    + by apply (Hok n).
  - intros m e' [Ho|(_ & _ & a & Ha & <- & _ & Hw & _)]%explored_new.
    + apply settle_lookup in Ho as [[-> ->]|[_ Ho]]; [exact (ex_sound _ HE _ _ Hn)|by apply (ex_sound _ HE)].
    + rewrite Hw. econstructor; [exact (ex_sound _ HE _ _ Hn)|]. by exists a.
  - destruct (ex_source _ HE) as (e0 & He0 & Hw0 & Hd0). destruct (settle_has _ _ He0) as (e1 & He1 & Hw1 & Hd1 & _).
    exists e1. split; [|split; congruence]. apply explored_settled; [done|right].
    pose proof (walk_nonneg out_arc _ _ _ out_arc_nonneg (ex_sound _ HE _ _ Hn)). lia.
  - intros m e1 m' e2 H1 H2 Hr1 Hl2.
    assert (qe_weight e1 <= qe_weight e) as Hle.
    { destruct (explored_new _ _ H1) as [Ho|(Hl1 & _)]; [|congruence]. exact (sb_removed _ _ _ settle_below _ _ Ho Hr1). }
    destruct (explored_new _ _ H2) as [Ho|(_ & _ & a & _ & _ & Ha & -> & _)]; [|lia].
    apply settle_lookup in Ho as [[_ ->]|[_ Ho]]; [done|]. pose proof (Hmin _ _ Ho Hl2). lia.
  - intros m e1 a H1 Hr1 Ha. destruct (explored_new _ _ H1) as [Ho|(Hl1 & _)]; [|congruence].
    apply settle_lookup in Ho as [[-> ->]|[_ Ho]]; [by apply explored_reached|].
    destruct (ex_relaxed _ HE m e1 a Ho Hr1 Ha) as (e2 & He2 & Hw2).
    destruct (settle_has _ _ He2) as (e3 & He3 & Hw3 & _). destruct (explored_old _ _ He3) as (e4 & He4 & Hw4 & _).
    exists e4. split; [done|lia].
  - intros m e1 H1 Hc. destruct (explored_new _ _ H1) as [Ho|(_ & _ & a & _ & Hto & _ & Hw & Hcl)].
    + assert (exists e0, M !! m = Some e0 /\ qe_data e0 = qe_data e1 /\ qe_weight e0 = qe_weight e1) as (e0 & He0 & Hd0 & Hw0).
      { apply settle_lookup in Ho as [[-> ->]|[_ Ho]]; [by exists e|by exists e1]. }
      destruct (ex_clique _ HE m e0 He0 ltac:(congruence)) as (p & ep & a & Hp & Hr & Ha & Hto & Hw).
      destruct (settle_has _ _ Hp) as (ep1 & Hp1 & _ & _ & Hs1). rewrite (Hs1 Hr) in Hp1.
      exists p, ep, a. split_and!; try done; [by apply explored_settled; [|left]|congruence].
    + exists n, en, a. split_and!; try done; [|by apply Hcl].
      apply explored_settled; [apply lookup_insert_eq|by left].
  - intros m e1 [Ho|(_ & Hi & _)]%explored_new; [|done].
    apply settle_lookup in Ho as [[-> ->]|[_ Ho]]; [exact (ex_int32 _ HE _ _ Hn)|by eapply (ex_int32 _ HE)].
Qed.
End settle.
End search.

Section run.
Context {St H Handle : Type}.
Context `{SL : IndexStorageLaws St, HL : MutableHeapLaws H Handle}.
Context (cl ba : Z -> list OutArc) (num s bound maxw : Z).
Context (Hok : forall u a, a ∈ cl u ++ ba u -> arc_ok u a /\ 0 <= oa_to a < num).
Context (Htriangle : forall p a b, a ∈ cl p -> b ∈ cl (oa_to a) ->
  exists c, c ∈ cl p /\ oa_to c = oa_to b /\ oa_weight c <= oa_weight a + oa_weight b).
(** Distances from the source stay below [bound], and the weights of arcs below [maxw]. *)
Context (Hbound : forall v p, walk (out_arc cl ba) s v p -> exists p', walk (out_arc cl ba) s v p' /\ p' <= bound).
Context (Hmaxw : forall u a, a ∈ cl u ++ ba u -> oa_weight a <= maxw) (Hsum : bound + maxw < 2 ^ 31).
(** What [RelaxNode] does for these arcs. *)
Context (partition : MultiLevelPartition) (graph : MultiLevelGraph EdgeData) (st : CellStorage).
Context (allowed_nodes : list bool) (metric : CellMetric) (level : Z).
Context (Hrelax : forall (q : QueryHeap St H Handle HeapData) node w d x hd,
  (exists p, walk (out_arc cl ba) s node p) -> GetData q node = Some hd ->
  RelaxNode partition q graph st allowed_nodes metric level node w d x =
    (q' ← relax_arcs q (if from_clique hd then [] else cl node) true w d x; relax_arcs q' (ba node) false w d x)).
Implicit Types (q : QueryHeap St H Handle HeapData).
Abbreviation arcs := (out_arc cl ba).
Abbreviation exploring := (exploring cl ba num s).

(** One settled node. *)
Lemma search_step q M c r n e q1 :
  good num q M c r -> exploring M -> num + 1 < r -> M !! n = Some e -> qe_removed e = false ->
  (forall m e', M !! m = Some e' -> qe_removed e' = false -> qe_weight e <= qe_weight e') ->
  good num q1 (<[n := mkQentry (qe_weight e) (qe_data e) true]> M) c r ->
  exists q2 M2, RelaxNode partition q1 graph st allowed_nodes metric level n (qe_weight e) (hd_duration (qe_data e))
      (hd_distance (qe_data e)) = Some q2 /\ good num q2 M2 c r /\ exploring M2 /\
    (exists e', M2 !! n = Some e' /\ qe_removed e' = true) /\
    (forall m e', M !! m = Some e' -> qe_removed e' = true -> M2 !! m = Some e') /\
    settled_set M2 = {[n]} ∪ settled_set M.
Proof using Hok Htriangle Hbound Hmaxw Hsum Hrelax.
  intros G HE Hr Hn Hl Hmin G1. set (en := mkQentry (qe_weight e) (qe_data e) true) in *. set (M1 := <[n := en]> M) in *.
  assert (M1 !! n = Some en) as Hn1 by apply lookup_insert_eq.
  pose proof (ex_dom _ _ _ _ _ HE _ _ Hn) as Hnr. pose proof (ex_int32 _ _ _ _ _ HE _ _ Hn) as Hi.
  rewrite (Hrelax q1 n _ _ _ (qe_data e)
    (ex_intro _ _ (ex_sound _ _ _ _ _ HE _ _ Hn))) by exact (GetData_spec _ _ _ _ (gd_repr _ _ _ _ _ G1) Hn1).
  destruct (explored_ok cl ba num s Hok M n e HE Hn Hl) as (M2 & R2 & R3 & S2 & S3 & EM2).
  assert (forall m e', M1 !! m = Some e' -> 0 <= m < num) as Hdom1.
  { intros m e' [[-> _]|[_ Hm]]%settle_lookup; [done|by eapply (ex_dom _ _ _ _ _ HE)]. }
  assert (0 <= qe_weight e <= bound) as Hw.
  { pose proof (ex_sound _ _ _ _ _ HE _ _ Hn) as Hs. split.
    - eapply walk_nonneg; [|exact Hs]. intros u v w Ha. eapply out_arc_nonneg; [exact Hok|exact Ha].
    - destruct (Hbound _ _ Hs) as (p' & Hp' & Hle). pose proof (settle_exact cl ba num s Hok M n e HE Hn Hl Hmin p' Hp'). lia. }
  assert (forall a, a ∈ cl n ++ ba n -> arc_ok n a /\ 0 <= oa_to a < num /\ 0 <= qe_weight e + oa_weight a < 2 ^ 31) as Harc.
  { intros a Ha. destruct (Hok n a Ha) as [Hoa Ht]. pose proof (Hmaxw n a Ha). split_and!; try done; try lia.
    destruct Hoa as [?|(_ & -> & _)]; lia. }
  destruct (relax_arcs_ok num n en true (taken_cl cl n e) eq_refl Hi q1 M1 c r G1 Hdom1 Hr) as (q2 & E2 & G2);
    [exact (settle_below cl ba num s M n e HE Hn Hl)|intros a [Ha _]%taken_elem; apply Harc, elem_of_app; by left|].
  unfold taken_cl in E2 at 1. cbn [en qe_weight qe_data] in E2, G2. rewrite E2. cbn [mbind option_bind].
  assert (good num q2 M2 c r) as G2' by (rewrite EM2; exact G2). clear G2.
  destruct (relax_arcs_ok num n en false (ba n) eq_refl Hi q2 M2 c r G2') as (q3 & E3 & G3); [|done|done|intros a Ha; apply Harc, elem_of_app; by right|].
  { intros m e' Hm. destruct (rx_new _ _ _ _ _ R2 m e' Hm) as [Ho|(_ & _ & _ & a & [Ha _]%taken_elem & <- & _)]; [by eapply Hdom1|].
    apply (Hok n). apply elem_of_app. by left. }
  cbn [en qe_weight qe_data] in E3, G3. rewrite EM2 in G3. fold (explored cl ba M n e) in G3.
  exists q3, (explored cl ba M n e). split; [done|]. split; [done|].
  assert (forall m e', M !! m = Some e' -> qe_removed e' = true -> explored cl ba M n e !! m = Some e') as Hkeep.
  { intros m e' Hm Hr'. apply (explored_settled cl ba num s Hok M n e HE Hn Hl); [|by left].
    rewrite lookup_insert_ne; [done|]. intros <-. congruence. }
  assert (explored cl ba M n e !! n = Some en) as Hen by (apply (explored_settled cl ba num s Hok M n e HE Hn Hl); [done|by left]).
  split; [by apply settle_exploring|]. split; [by exists en|]. split; [done|].
  apply set_eq. intros m. rewrite elem_of_union, elem_of_singleton, !elem_of_settled_set. split.
  - intros (e' & Hm & Hr'). destruct (explored_new cl ba num s Hok M n e HE Hn Hl _ _ Hm) as [Ho|(Hl' & _)]; [|congruence].
    apply settle_lookup in Ho as [[-> _]|[_ Ho]]; [by left|right; by exists e'].
  - intros [->|(e' & Hm & Hr')]; [by exists en|]. exists e'. split; [by apply Hkeep|done].
Qed.

(** The search: exact keys for all destinations. *)
Lemma search_cell_ok (D0 : gset Z) fuel : forall q M c r (R : gset Z),
  good num q M c r -> exploring M -> 0 <= num -> num + 1 < r ->
  (forall d, d ∈ D0 -> d ∈ R \/ exists e, M !! d = Some e /\ qe_removed e = true) ->
  num - Z.of_nat (size (settled_set M)) < Z.of_nat fuel ->
  exists q' M', search_cell partition fuel q graph st allowed_nodes metric level R = Some q' /\ good num q' M' c r /\
    exploring M' /\
    forall d, d ∈ D0 -> (exists e, M' !! d = Some e /\ forall p, walk arcs s d p -> qe_weight e <= p) \/
      (M' !! d = None /\ forall p, ~ walk arcs s d p).
Proof using Hok Htriangle Hbound Hmaxw Hsum Hrelax.
  induction fuel as [|fuel IH]; intros q M c r R G HE Hnum Hr HD Hfuel.
  { pose proof (settled_set_size num M Hnum (ex_dom _ _ _ _ _ HE)). lia. }
  cbn [search_cell]. pose proof (gd_repr _ _ _ _ _ G) as Rp. destruct (Empty q) eqn:Eq; simpl.
  { exists q, M. split; [done|]. split; [done|]. split; [done|]. intros d Hd.
    pose proof (proj1 (Empty_spec _ _ Rp) Eq) as Hall. destruct (M !! d) as [e|] eqn:Ed; [left|right].
    - exists e. split; [done|]. intros p Hp. by eapply exploring_exact; [exact Hok|exact HE|exact Ed|by eapply Hall|].
    - split; [done|]. intros p Hp.
      destruct (explore_frontier cl ba num s Hok M d p HE Hp) as [(e & He & _)|(u & e & Hu & Hl & _)]; [congruence|].
      apply Hall in Hu. congruence. }
  destruct (decide (R = ∅)) as [->|HR].
  { rewrite bool_decide_eq_true_2 by done. exists q, M. split; [done|]. split; [done|]. split; [done|].
    intros d Hd. left. destruct (HD d Hd) as [Hd'|(e & He & Hre)]; [by apply elem_of_empty in Hd'|].
    exists e. split; [done|]. intros p Hp. by eapply exploring_exact. }
  rewrite bool_decide_eq_false_2 by done.
  destruct (DeleteMin_spec q M Rp) as (n & e & q1 & E1 & Hn & Hl & Hmin & R1 & Hni & _).
  { apply dec_stable. intros Hno. apply not_true_iff_false in Eq. apply Eq, (Empty_spec _ _ Rp).
    intros m e Hm. destruct (qe_removed e) eqn:Er; [done|]. destruct Hno. eauto. }
  rewrite E1. cbn [mbind option_bind].
  assert (good num q1 (<[n := mkQentry (qe_weight e) (qe_data e) true]> M) c r) as G1 by (by eapply good_keep).
  rewrite (GetKey_spec _ _ n _ R1) by apply lookup_insert_eq. cbn [mbind option_bind qe_weight].
  rewrite (GetData_spec _ _ n _ R1) by apply lookup_insert_eq. cbn [mbind option_bind qe_data].
  destruct (search_step q M c r n e q1 G HE Hr Hn Hl Hmin G1) as (q2 & M2 & E2 & G2 & HE2 & (e2 & Hn2 & Hr2) & Hkeep & Hset).
  rewrite E2. cbn [mbind option_bind]. apply (IH q2 M2 c r); [done|done|done|done| |].
  - intros d Hd. destruct (decide (d = n)) as [->|Hne]; [right; by exists e2|].
    destruct (HD d Hd) as [Hd'|(e' & He' & Hre')]; [left; set_solver|right; exists e'; split; [by apply Hkeep|done]].
  - assert (n ∉ settled_set M) by (intros (e' & He' & Hre')%elem_of_settled_set; congruence).
    rewrite Hset, size_union, size_singleton by set_solver. lia.
Qed.

(** The search from the cleared queue. *)
Lemma search_from_source q M c r (D0 : gset Z) :
  good num q M (c + 1) r -> 0 <= c -> 0 <= s < num -> num + 1 < r -> num = GetNumberOfNodes (base graph) ->
  exists q1 q' M', Insert (Clear q) s 0 (mkHeapData false 0 (SpecFloat.S754_zero false)) = Some q1 /\
    search_cell partition (S (Z.to_nat (GetNumberOfNodes (base graph)))) q1 graph st allowed_nodes metric level D0 = Some q' /\
    good num q' M' c r /\ exploring M' /\
    forall d, d ∈ D0 -> (exists e, M' !! d = Some e /\ forall p, walk arcs s d p -> qe_weight e <= p) \/
      (M' !! d = None /\ forall p, ~ walk arcs s d p).
Proof using Hok Htriangle Hbound Hmaxw Hsum Hrelax.
  intros G Hc Hs Hr Hnum. pose proof (good_Clear _ _ _ _ _ G Hc) as G0.
  destruct (good_Insert num _ _ _ _ s 0 (mkHeapData false 0 (SpecFloat.S754_zero false)) G0) as (q1 & E1 & G1);
    [done|done|rewrite map_size_empty; lia|].
  exists q1. set (M1 := <[s := mkQentry 0 (mkHeapData false 0 (SpecFloat.S754_zero false)) false]> (∅ : cmap)) in *.
  assert (forall m e, M1 !! m = Some e -> m = s /\ e = mkQentry 0 (mkHeapData false 0 (SpecFloat.S754_zero false)) false) as HM1.
  { intros m e [[<- <-]|[_ Hm]]%lookup_insert_Some; [done|]. by rewrite lookup_empty in Hm. }
  destruct (search_cell_ok D0 (S (Z.to_nat (GetNumberOfNodes (base graph)))) q1 M1 c r D0 G1) as (q' & M' & E' & G' & HE' & HD');
    [|lia|done|by left|lia|exists q', M'; by split_and!].
  split.
  - by intros m e [-> _]%HM1.
  - intros m e [-> ->]%HM1. constructor.
  - eexists. split; [apply lookup_insert_eq|done].
  - intros m e m' e' [-> ->]%HM1 _ Hr'. done.
  - intros m e a [-> ->]%HM1 Hr'. done.
  - intros m e [-> ->]%HM1 Hr'. done.
  - intros m e [-> ->]%HM1. done.
Qed.
End run.
