(* ===== verification/Customization.v ===== *)
(** * Customization is exact

    The cells of a level are customized from the matrices of the level below.
    When those hold the distances inside the sub-cells, a walk inside a cell
    splits at the borders of the sub-cells into pieces that the matrices and
    the edges between sub-cells cover, so the search of cell_customizer.hpp
    finds the distances inside the cell.  By induction over the levels every
    matrix that the customization leaves behind is exact. *)
From S2P Require Import Prelude Walks Sorting QueryHeap Permutation DynamicGraph StaticGraph MultiLevelPartition.
From S2P Require Import MultiLevelGraph GraphInterface EdgeBasedEdge CellStorage CellCustomizer.
Import Static Multi.

(** ** Rows of matrices and edges as arcs *)

Fixpoint row_arcs (ws vs durs : list Z) (dists : list float32) : list OutArc :=
  match ws, vs, durs, dists with
  | w :: ws, v :: vs, d :: durs, x :: dists =>
      if w =? INVALID_EDGE_WEIGHT then row_arcs ws vs durs dists else mkOutArc v w d x :: row_arcs ws vs durs dists
  | _, _, _, _ => []
  end.

Lemma row_arcs_elem ws vs durs dists a : a ∈ row_arcs ws vs durs dists <->
  exists j, ws !z j = Some (oa_weight a) /\ vs !z j = Some (oa_to a) /\ durs !z j = Some (oa_duration a) /\
    dists !z j = Some (oa_distance a) /\ oa_weight a <> INVALID_EDGE_WEIGHT.
Proof.
  revert vs durs dists. induction ws as [|w ws IH]; intros [|v vs] [|d durs] [|x dists]; cbn [row_arcs];
    try (split; [by intros ?%elem_of_nil|];
      intros (j & H1 & H2 & H3 & H4 & _); apply zget_elem in H1, H2, H3, H4;
      first [by apply elem_of_nil in H1|by apply elem_of_nil in H2|by apply elem_of_nil in H3|by apply elem_of_nil in H4]).
  assert (a ∈ row_arcs ws vs durs dists <-> exists j, 0 < j /\ (w :: ws) !z j = Some (oa_weight a) /\ (v :: vs) !z j = Some (oa_to a) /\
    (d :: durs) !z j = Some (oa_duration a) /\ (x :: dists) !z j = Some (oa_distance a) /\ oa_weight a <> INVALID_EDGE_WEIGHT) as IH'.
  { rewrite IH. split.
    - intros (j & H1 & H2 & H3 & H4 & H5). pose proof (zget_some _ _ _ H1). exists (j + 1).
      rewrite !zget_cons_S by lia. replace (j + 1 - 1) with j by lia. split_and!; try done. lia.
    - intros (j & Hj & H1 & H2 & H3 & H4 & H5). rewrite !zget_cons_S in * by lia. by exists (j - 1). }
  destruct (Z.eqb_spec w INVALID_EDGE_WEIGHT) as [Ew|Ew].
  - rewrite IH'. split; [intros (j & _ & Hj); by exists j|]. intros (j & H1 & H2 & H3 & H4 & H5). exists j. split_and!; try done.
    pose proof (zget_some _ _ _ H1). destruct (decide (j = 0)) as [->|]; [|lia]. rewrite zget_cons_0 in H1. congruence.
  - rewrite elem_of_cons, IH'. split.
    + intros [->|(j & _ & Hj)]; [by exists 0|by exists j].
    + intros (j & H1 & H2 & H3 & H4 & H5). destruct (decide (j = 0)) as [->|Hj].
      * left. rewrite !zget_cons_0 in *. destruct a. simpl in *. congruence.
      * right. exists j. pose proof (zget_some _ _ _ H1). split_and!; try done. lia.
Qed.

Section relax_equations.
Context {St H Handle : Type} `{IndexStorage St, MutableHeap H Handle}.
Implicit Types (q : QueryHeap St H Handle HeapData).

(** The iterators stay aligned, because a destination that is excluded has no
    weight and is passed by the branch that advances all of them. *)
Lemma relax_subcell_eq allowed ws : forall q vs durs dists w d x,
  length vs = length ws -> length durs = length ws -> length dists = length ws ->
  (forall j wj v, ws !z j = Some wj -> wj <> INVALID_EDGE_WEIGHT -> vs !z j = Some v -> allowed !z v = Some true) ->
  relax_subcell q allowed ws vs durs dists w d x = relax_arcs q (row_arcs ws vs durs dists) true w d x.
Proof.
  induction ws as [|w0 ws IH]; intros q vs durs dists w d x L1 L2 L3 Ha; [done|].
  destruct vs as [|v vs]; [done|]. destruct durs as [|d0 durs]; [done|]. destruct dists as [|x0 dists]; [done|].
  assert (forall j wj v, ws !z j = Some wj -> wj <> INVALID_EDGE_WEIGHT -> vs !z j = Some v -> allowed !z v = Some true) as Ha'.
  { intros j wj v' J1 J2 J3. pose proof (zget_some _ _ _ J1). apply (Ha (j + 1) wj v'); [|done|];
      rewrite zget_cons_S by lia; by replace (j + 1 - 1) with j by lia. }
  cbn [relax_subcell row_arcs head tail]. destruct (Z.eqb_spec w0 INVALID_EDGE_WEIGHT) as [E|E]; simpl.
  - apply IH; [simpl in *; lia..|done].
  - rewrite (Ha 0 w0 v) by done. simpl. destruct (relax_arc _ _ _ _ _ _); simpl; [|done]. apply IH; [simpl in *; lia..|done].
Qed.

(** Without that invariant a [continue] leaves the other iterators behind: the
    weight 7 of node 2 is read for the excluded node 1 again and lost. *)
Lemma continue_keeps_iterators q x :
  relax_subcell q [true; false; true] [5; 7] [1; 2] [0; 0] [x; x] 0 0 x = Some q.
Proof. done. Qed.
End relax_equations.

Section customization.
Context {G : Type} `{!Graph G EdgeData} `{!GraphLaws G EdgeData}.
(** The graph the storage was built from, and the graph with the current weights. *)
Context (gp : G) (graph : MultiLevelGraph EdgeData).
Context (mlp : MultiLevelPartition) (st : CellStorage) (allowed : list bool) (levels num bound : Z).

Abbreviation cell_of := (cell_of mlp).
Abbreviation ss := (source_nodes forward mlp gp).
Abbreviation ds := (destination_nodes forward backward mlp gp).
Abbreviation crosses := (crosses mlp gp).

Definition is_allowed (v : Z) : Prop := allowed !z v = Some true.

#[global] Instance is_allowed_dec v : Decision (is_allowed v).
Proof. unfold is_allowed. apply _. Defined.

(** Arcs inside a cell of level [l], between nodes that are not excluded. *)
Definition inner (l u v w : Z) : Prop :=
  is_allowed u /\ is_allowed v /\ cell_of l u = cell_of l v /\
  exists x, x ∈ sadj (base graph) u /\ target x = v /\ forward (data x) = true /\ weight (data x) = w.

(** What the customization relies on. *)
Record customizable : Prop := {
  cu_num : GetNumberOfNodes (base graph) = num;
  cu_gp_num : graph_nodes gp = num;
  cu_input : storage_input mlp gp levels;
  cu_nested : nested_cells mlp levels;
  cu_partition : zlen (partition mlp) = num + 1;
  cu_allowed : zlen allowed = num;
  cu_range l u : 1 <= l <= levels -> 0 <= u < num -> exists range xs, GetInternalEdgeRange graph l u = Some range /\
    Forall2 (fun e x => GetTarget (base graph) e = Some (target x) /\ GetEdgeData (base graph) e = Some (data x)) range xs /\
    forall x, x ∈ xs <-> x ∈ sadj (base graph) u /\ GetCell mlp l u = GetCell mlp l (target x);
  cu_targets u x : x ∈ sadj (base graph) u -> 0 <= target x < num;
  cu_weights u x : x ∈ sadj (base graph) u -> forward (data x) = true -> 1 <= weight (data x) <= bound;
  cu_symmetric u x : 0 <= u < num -> x ∈ sadj (base graph) u -> forward (data x) = true ->
    exists y, y ∈ sadj (base graph) (target x) /\ target y = u /\ backward (data y) = true;
  cu_same u x : x ∈ sadj (base graph) u -> exists y, y ∈ adjacency gp u /\ target y = target x /\
    forward (data y) = forward (data x) /\ backward (data y) = backward (data x);
  cu_cells l c : 1 <= l <= levels -> 0 <= c < num_cells mlp l ->
    exists cell, GetCellData st l c = Some cell /\ cell_at st cell (ss l c) (ds l c) /\
      0 <= value_offset cell /\ value_offset cell + cell_size cell < zlen (weights (MakeMetric st)) /\
      forall l' c' cell', 1 <= l' <= levels -> 0 <= c' < num_cells mlp l' -> GetCellData st l' c' = Some cell' ->
        (l = l' /\ c = c') \/ value_offset cell + cell_size cell <= value_offset cell' \/
        value_offset cell' + cell_size cell' <= value_offset cell;
  cu_bound : 2 * bound < INT32_MAX;
  cu_distances l u v p : 1 <= l <= levels -> walk (inner l) u v p -> exists p', walk (inner l) u v p' /\ p' <= bound
}.

Context (Hcu : customizable).

(** ** Cells and boundary nodes *)

Lemma allowed_range v : is_allowed v -> 0 <= v < num.
Proof using Hcu. intros Hv. rewrite <- (cu_allowed Hcu). by eapply zget_some. Qed.

Lemma cell_get l v : 1 <= l <= levels -> 0 <= v < num -> GetCell mlp l v = Some (cell_of l v) /\ 0 <= cell_of l v < num_cells mlp l.
Proof using Hcu. intros Hl Hv. apply (cell_of_get mlp gp levels (cu_input Hcu) l v Hl). by rewrite (cu_gp_num Hcu). Qed.

Lemma cell_of_nested l u v : 1 < l <= levels -> 0 <= u < num -> 0 <= v < num ->
  cell_of (l - 1) u = cell_of (l - 1) v -> cell_of l u = cell_of l v.
Proof using Hcu.
  intros Hl Hu Hv E. assert (GetCell mlp (l - 1) u = GetCell mlp (l - 1) v) as E'.
  { destruct (cell_get (l - 1) u ltac:(lia) Hu) as [-> _]. destruct (cell_get (l - 1) v ltac:(lia) Hv) as [-> _]. by rewrite E. }
  pose proof (cu_partition Hcu) as Hp.
  pose proof (cu_nested Hcu (l - 1) u v ltac:(lia) ltac:(lia) ltac:(unfold is_node; lia) ltac:(unfold is_node; lia) E') as En.
  replace (l - 1 + 1) with l in En by lia. unfold CellStorage.cell_of. by rewrite En.
Qed.

Lemma elem_of_sources l c u : u ∈ ss l c <-> (0 <= u < num /\ crosses l u = true /\ connected mlp gp forward l u = true /\ cell_of l u = c).
Proof using Hcu.
  unfold source_nodes, source_node. rewrite list_elem_of_filter, elem_of_seqZ, (cu_gp_num Hcu), andb_true_iff.
  split; [intros [[[H1 H2] H3] H4]; split_and!; try done; lia|intros (H1 & H2 & H3 & H4); split_and!; try done; lia].
Qed.

Lemma elem_of_destinations l c v : v ∈ ds l c -> 0 <= v < num /\ crosses l v = true /\ cell_of l v = c.
Proof using Hcu.
  unfold destination_nodes, destination_node. rewrite list_elem_of_filter, elem_of_seqZ, (cu_gp_num Hcu), andb_true_iff.
  intros [[[H1 H2] H3] H4]. split_and!; try done; lia.
Qed.

Lemma destination_intro l v : 0 <= v < num -> crosses l v = true -> connected mlp gp backward l v = true -> v ∈ ds l (cell_of l v).
Proof using Hcu.
  intros Hv H1 H2. unfold destination_nodes, destination_node. rewrite list_elem_of_filter, elem_of_seqZ, (cu_gp_num Hcu).
  rewrite H1, H2. split; [done|lia].
Qed.

Lemma crosses_intro l u x : x ∈ sadj (base graph) u -> cell_of l (target x) <> cell_of l u -> crosses l u = true.
Proof using Hcu.
  intros Hx Hne. destruct (cu_same Hcu u x Hx) as (y & Hy & Ht & _). unfold CellStorage.crosses.
  apply existsb_exists. exists y. split; [by apply list_elem_of_In|]. rewrite Ht. lia.
Qed.

Lemma connected_intro (fl : EdgeData -> bool) l u x : fl = forward \/ fl = backward ->
  x ∈ sadj (base graph) u -> cell_of l (target x) = cell_of l u -> fl (data x) = true -> connected mlp gp fl l u = true.
Proof using Hcu.
  intros Hfl Hx He Hf. destruct (cu_same Hcu u x Hx) as (y & Hy & Ht & E1 & E2). unfold connected.
  apply existsb_exists. exists y. split; [by apply list_elem_of_In|]. rewrite Ht, He, Z.eqb_refl.
  destruct Hfl as [->| ->]; simpl; congruence.
Qed.

(** A node at the border of its cell is at the border of its sub-cell. *)
Lemma crosses_down l u : 1 < l <= levels -> 0 <= u < num -> crosses l u = true -> crosses (l - 1) u = true.
Proof using Hcu.
  intros Hl Hu Hc. unfold CellStorage.crosses in *. apply existsb_exists in Hc as (y & Hy & Hne). apply existsb_exists.
  exists y. split; [done|]. apply list_elem_of_In in Hy.
  assert (0 <= target y < num) as Ht.
  { rewrite <- (cu_gp_num Hcu). apply (si_targets _ _ _ (cu_input Hcu) u); [by rewrite (cu_gp_num Hcu)|done]. }
  destruct (Z.eqb_spec (cell_of (l - 1) (target y)) (cell_of (l - 1) u)) as [E|]; [|done].
  apply (cell_of_nested l) in E; [|done..]. rewrite E, Z.eqb_refl in Hne. done.
Qed.

(** ** Walks inside cells *)

Lemma inner_down l u v w : 1 < l <= levels -> inner (l - 1) u v w -> inner l u v w.
Proof using Hcu.
  intros Hl (Hu & Ha & Hc & Hx). split; [done|]. split; [done|]. split; [|done].
  apply cell_of_nested; [done|by apply allowed_range|by apply allowed_range|done].
Qed.

Lemma inner_positive l u v w : inner l u v w -> 1 <= w <= bound.
Proof using Hcu. intros (_ & _ & _ & x & Hx & _ & Hf & <-). by eapply (cu_weights Hcu). Qed.

Lemma inner_walk_nonneg l u v p : walk (inner l) u v p -> 0 <= p.
Proof using Hcu. apply walk_nonneg. intros ? ? ? ?%inner_positive. lia. Qed.

(** A walk that is not empty: its ends, its first and its last arc. *)
Lemma walk_ends l u v p : walk (inner l) u v p -> (u = v /\ p = 0) \/
  (1 <= p /\ is_allowed u /\ is_allowed v /\ cell_of l u = cell_of l v /\ (exists a w, inner l u a w) /\ exists b w, inner l b v w).
Proof using Hcu.
  induction 1 as [n|s u t p w Hw IH He]; [by left|right]. pose proof (inner_positive _ _ _ _ He).
  pose proof (inner_walk_nonneg _ _ _ _ Hw). split; [lia|]. pose proof He as (H1 & H2 & H3 & H4).
  destruct IH as [[-> ->]|(_ & Hs & Ha & Hc & Hf & _)].
  - split_and!; try done; [by exists t, w|by exists u, w].
  - split_and!; try done; [congruence|]. by exists u, w.
Qed.

(** ** Matrices *)

(** The entry of a matrix for [u] and [v]. *)
Definition entry (m : CellMetric) (l c u v w d : Z) (x : float32) : Prop :=
  exists cell i j, GetCellData st l c = Some cell /\ ss l c !z i = Some u /\ ds l c !z j = Some v /\
    let k := value_offset cell + zlen (ds l c) * i + j in
    weights m !z k = Some w /\ durations m !z k = Some d /\ distances m !z k = Some x.

(** The distance from [u] to [v] inside the cells of a level. *)
Definition is_distance (l u v w : Z) : Prop :=
  (w = INVALID_EDGE_WEIGHT /\ forall p, ~ walk (inner l) u v p) \/
  (w <> INVALID_EDGE_WEIGHT /\ walk (inner l) u v w /\ forall p, walk (inner l) u v p -> w <= p).

Definition exact_row (m : CellMetric) (l c u : Z) : Prop :=
  forall v, v ∈ ds l c -> exists w d x, entry m l c u v w d x /\ is_distance l u v w /\
    (u = v -> d = 0 /\ x = SpecFloat.S754_zero false).

(** All rows of nodes that are not excluded are exact. *)
Definition exact_level (m : CellMetric) (l : Z) : Prop :=
  forall c u, 0 <= c < num_cells mlp l -> u ∈ ss l c -> is_allowed u -> exact_row m l c u.

Definition metric_ok (m : CellMetric) : Prop :=
  let n := zlen (weights (MakeMetric st)) in
  zlen (weights m) = n /\ zlen (durations m) = n /\ zlen (distances m) = n.

Lemma source_nodes_NoDup l c : NoDup (ss l c).
Proof. apply NoDup_filter, NoDup_seqZ. Qed.

Lemma destination_nodes_NoDup l c : NoDup (ds l c).
Proof. apply NoDup_filter, NoDup_seqZ. Qed.

Lemma NoDup_zget {A} (L : list A) i j v : NoDup L -> L !z i = Some v -> L !z j = Some v -> i = j.
Proof.
  intros Hnd Hi Hj. pose proof (zget_some _ _ _ Hi). pose proof (zget_some _ _ _ Hj). unfold zget in *.
  destruct (Z.leb_spec 0 i), (Z.leb_spec 0 j); try lia. pose proof (NoDup_lookup _ _ _ _ Hnd Hi Hj). lia.
Qed.

Lemma entry_unique m l c u v w d x w' d' x' : entry m l c u v w d x -> entry m l c u v w' d' x' -> w = w' /\ d = d' /\ x = x'.
Proof.
  intros (cell & i & j & Hc & Hi & Hj & Hw & Hd & Hx) (cell' & i' & j' & Hc' & Hi' & Hj' & Hw' & Hd' & Hx').
  rewrite (NoDup_zget _ _ _ _ (source_nodes_NoDup l c) Hi' Hi) in Hw', Hd', Hx'.
  rewrite (NoDup_zget _ _ _ _ (destination_nodes_NoDup l c) Hj' Hj) in Hw', Hd', Hx'.
  assert (cell' = cell) as -> by congruence. split_and!; congruence.
Qed.

(** Reading a row. *)
Lemma read_row {A} (arr : list A) k n : 0 <= k -> 0 <= n -> k + n <= zlen arr -> mapM (zget arr) (seqZ k n) = Some (zslice arr k n).
Proof.
  intros Hk Hn Hl. apply mapM_Some, Forall2_same_length_lookup.
  split; [rewrite length_seqZ; pose proof (zslice_len arr k n Hk Hn Hl); unfold zlen in *; lia|].
  intros i x y [-> Hi]%lookup_seqZ Hy. rewrite <- zget_nat, zslice_get in Hy by lia. done.
Qed.

Lemma GetOutRange_none cell L R u : cell_at st cell L R -> u ∉ L -> GetOutRange st cell u = Some [].
Proof.
  intros Hat Hu. unfold GetOutRange. rewrite (ca_sources _ _ _ _ Hat). cbn [mbind option_bind].
  destruct (find_node_get u L) as (H1 & H2 & H3 & _). rewrite (ca_num_sources _ _ _ _ Hat).
  destruct (Z.eqb_spec (find_node u L) (zlen L)); [done|]. destruct Hu. eapply zget_elem, H3. lia.
Qed.

(** The row of a node: its position and the three slices. *)
Lemma row_read m l c cell u i :
  metric_ok m -> 1 <= l <= levels -> 0 <= c < num_cells mlp l -> GetCellData st l c = Some cell -> ss l c !z i = Some u ->
  let k := value_offset cell + zlen (ds l c) * i in let n := zlen (ds l c) in
  0 <= k /\ k + n <= zlen (weights (MakeMetric st)) /\
  GetOutRange st cell u = Some (seqZ k n) /\ GetDestinationNodes st cell = Some (ds l c) /\
  GetOutWeight st m cell u = Some (zslice (weights m) k n) /\
  GetOutDuration st m cell u = Some (zslice (durations m) k n) /\
  GetOutDistance st m cell u = Some (zslice (distances m) k n).
Proof using Hcu.
  intros (Hm1 & Hm2 & Hm3) Hl Hc Hcell Hi k n.
  destruct (cu_cells Hcu l c Hl Hc) as (cell' & Hcell' & Hat & Hvo & Hfit & _). assert (cell' = cell) as -> by congruence.
  rewrite (cell_size_product _ _ _ _ Hat) in Hfit. pose proof (zget_some _ _ _ Hi) as Hir.
  pose proof (zlen_nonneg (ds l c)) as Hn0.
  assert (0 <= k /\ k + n <= zlen (weights (MakeMetric st))) as [Hk0 Hk1] by (unfold k, n; nia).
  pose proof (out_range _ _ _ _ Hat _ _ Hi) as Hor. fold k n in Hor.
  unfold GetOutWeight, GetOutDuration, GetOutDistance. rewrite Hor. cbn [mbind option_bind].
  rewrite !read_row by lia. pose proof (ca_destinations _ _ _ _ Hat). by split_and!.
Qed.

Lemma entry_row m l c cell u v i j :
  GetCellData st l c = Some cell -> ss l c !z i = Some u -> ds l c !z j = Some v ->
  let k := value_offset cell + zlen (ds l c) * i in let n := zlen (ds l c) in
  0 <= k ->
  forall w d x, entry m l c u v w d x <->
    zslice (weights m) k n !z j = Some w /\ zslice (durations m) k n !z j = Some d /\ zslice (distances m) k n !z j = Some x.
Proof.
  intros Hc Hi Hj k n Hk w d x. pose proof (zget_some _ _ _ Hj). rewrite !zslice_get by (unfold n; lia). split.
  - intros (cell' & i' & j' & Hc' & Hi' & Hj' & Hw).
    rewrite (NoDup_zget _ _ _ _ (source_nodes_NoDup l c) Hi' Hi) in Hw.
    rewrite (NoDup_zget _ _ _ _ (destination_nodes_NoDup l c) Hj' Hj) in Hw. by assert (cell' = cell) as -> by congruence.
  - intros Hw. by exists cell, i, j.
Qed.

(** ** Arcs at a level *)

Section level.
Context (l : Z) (Hl : 1 <= l <= levels) (m : CellMetric) (Hm : metric_ok m).

(** Arcs between sub-cells; at the first level every node is its own. *)
Definition between (u v : Z) : bool := (l =? 1) || negb (cell_of (l - 1) u =? cell_of (l - 1) v).

Fixpoint edge_arcs (u : Z) (xs : list (DynamicEdge EdgeData)) : list OutArc :=
  match xs with
  | [] => []
  | x :: xs =>
      if bool_decide (is_allowed (target x)) && forward (data x) && between u (target x)
      then mkOutArc (target x) (weight (data x)) (EdgeBasedEdge.duration (data x)) (EdgeBasedEdge.distance (data x)) :: edge_arcs u xs
      else edge_arcs u xs
  end.

Definition edges_in (u : Z) : list (DynamicEdge EdgeData) :=
  match GetInternalEdgeRange graph l u with Some range => omap (zget (edge_array (base graph))) range | None => [] end.

Definition subcell_row (u : Z) : list OutArc :=
  default [] (cell ← GetCellData st (l - 1) (cell_of (l - 1) u);
              vs ← GetDestinationNodes st cell;
              durs ← GetOutDuration st m cell u;
              dists ← GetOutDistance st m cell u;
              ws ← GetOutWeight st m cell u;
              Some (row_arcs ws vs durs dists)).

Definition cl (u : Z) : list OutArc := if bool_decide (is_allowed u /\ 1 < l) then subcell_row u else [].
Definition ba (u : Z) : list OutArc := if bool_decide (is_allowed u) then edge_arcs u (edges_in u) else [].

Lemma edge_arcs_elem u xs a : a ∈ edge_arcs u xs <-> exists x, x ∈ xs /\ is_allowed (target x) /\ forward (data x) = true /\
  between u (target x) = true /\
  a = mkOutArc (target x) (weight (data x)) (EdgeBasedEdge.duration (data x)) (EdgeBasedEdge.distance (data x)).
Proof.
  induction xs as [|x xs IH]; cbn [edge_arcs].
  { split; [by intros ?%elem_of_nil|by intros (x & ?%elem_of_nil & _)]. }
  destruct (bool_decide (is_allowed (target x)) && forward (data x) && between u (target x)) eqn:E.
  - rewrite elem_of_cons, IH. apply andb_true_iff in E as [[E1%bool_decide_eq_true E2]%andb_true_iff E3]. split.
    + intros [->|(y & Hy & ?)]; [exists x; split_and!; try done; by left|exists y; split; [by right|done]].
    + intros (y & [->|Hy]%elem_of_cons & H1 & H2 & H3 & ->); [by left|right]. exists y. by split_and!.
  - rewrite IH. split.
    + intros (y & Hy & ?). exists y. split; [by right|done].
    + intros (y & [->|Hy]%elem_of_cons & H1 & H2 & H3 & H4); [|exists y; by split_and!].
      rewrite H2, H3, bool_decide_eq_true_2 in E by done. done.
Qed.

Lemma edges_in_ok u : 0 <= u < num -> exists range, GetInternalEdgeRange graph l u = Some range /\
  Forall2 (fun e x => GetTarget (base graph) e = Some (target x) /\ GetEdgeData (base graph) e = Some (data x)) range (edges_in u) /\
  forall x, x ∈ edges_in u <-> x ∈ sadj (base graph) u /\ cell_of l u = cell_of l (target x).
Proof using Hcu Hl.
  intros Hu. destruct (cu_range Hcu l u Hl Hu) as (range & xs & Hr & HF & Hx).
  assert (edges_in u = xs) as Exs.
  { unfold edges_in. rewrite Hr. clear Hr Hx. induction HF as [|e x range xs [H1 H2] HF IH]; [done|].
    change (omap (zget (edge_array (base graph))) (e :: range)) with
      (match edge_array (base graph) !z e with Some y => y :: omap (zget (edge_array (base graph))) range
       | None => omap (zget (edge_array (base graph))) range end).
    unfold GetTarget, GetEdgeData in H1, H2. destruct (edge_array (base graph) !z e) as [y|]; [|done]. simpl in H1, H2.
    cbv iota beta. rewrite IH. destruct x, y. simpl in *. congruence. }
  exists range. rewrite Exs. split; [done|]. split; [done|]. intros x. rewrite Hx. split; intros [H1 H2]; (split; [done|]).
  - unfold CellStorage.cell_of. by rewrite H2.
  - pose proof (cu_targets Hcu _ _ H1) as Ht.
    destruct (cell_get l u Hl Hu) as [-> _]. destruct (cell_get l _ Hl Ht) as [-> _]. by rewrite H2.
Qed.

Lemma ba_elem u a : a ∈ ba u <-> is_allowed u /\ exists x, x ∈ sadj (base graph) u /\ cell_of l u = cell_of l (target x) /\
  is_allowed (target x) /\ forward (data x) = true /\ between u (target x) = true /\
  a = mkOutArc (target x) (weight (data x)) (EdgeBasedEdge.duration (data x)) (EdgeBasedEdge.distance (data x)).
Proof using Hcu Hl.
  unfold ba. case_bool_decide as Hu; [|split; [by intros ?%elem_of_nil|by intros [? _]]].
  destruct (edges_in_ok u (allowed_range _ Hu)) as (_ & _ & _ & Hx). rewrite edge_arcs_elem. split.
  - intros (x & [H1 H2]%Hx & H3 & H4 & H5 & H6). split; [done|]. exists x. by split_and!.
  - intros [_ (x & H1 & H2 & H3 & H4 & H5 & H6)]. exists x. split; [by apply Hx|by split_and!].
Qed.

(** The row of a node in its sub-cell; empty for a node that is no source. *)
Lemma subcell_read u : is_allowed u -> 1 < l -> exists cell ws durs dists vs,
  GetCellData st (l - 1) (cell_of (l - 1) u) = Some cell /\ GetDestinationNodes st cell = Some vs /\
  GetOutDuration st m cell u = Some durs /\ GetOutDistance st m cell u = Some dists /\ GetOutWeight st m cell u = Some ws /\
  length durs = length ws /\ length dists = length ws /\ (length vs = length ws \/ ws = []) /\
  (forall a, a ∈ row_arcs ws vs durs dists <-> u ∈ ss (l - 1) (cell_of (l - 1) u) /\ oa_to a ∈ ds (l - 1) (cell_of (l - 1) u) /\
    entry m (l - 1) (cell_of (l - 1) u) u (oa_to a) (oa_weight a) (oa_duration a) (oa_distance a) /\
    oa_weight a <> INVALID_EDGE_WEIGHT) /\
  forall j w v, ws !z j = Some w -> vs !z j = Some v -> u ∈ ss (l - 1) (cell_of (l - 1) u) /\ v ∈ ds (l - 1) (cell_of (l - 1) u) /\
    exists d x, entry m (l - 1) (cell_of (l - 1) u) u v w d x.
Proof using Hcu Hl Hm.
  intros Hu Hl1. set (c := cell_of (l - 1) u).
  destruct (cell_get (l - 1) u ltac:(lia) (allowed_range _ Hu)) as [_ Hc]. fold c in Hc.
  destruct (cu_cells Hcu (l - 1) c ltac:(lia) Hc) as (cell & Hcell & Hat & _).
  destruct (decide (u ∈ ss (l - 1) c)) as [Hs|Hs].
  - apply elem_zget in Hs as [i Hi].
    destruct (row_read m (l - 1) c cell u i Hm ltac:(lia) Hc Hcell Hi) as (Hk0 & Hk1 & Hrange & Hds & Hw & Hd & Hx).
    destruct Hm as (Hm1 & Hm2 & Hm3). pose proof (zlen_nonneg (ds (l - 1) c)) as Hn.
    set (k := value_offset cell + zlen (ds (l - 1) c) * i) in *.
    pose proof (zslice_len (weights m) k (zlen (ds (l - 1) c)) Hk0 Hn ltac:(lia)) as Lw.
    pose proof (zslice_len (durations m) k (zlen (ds (l - 1) c)) Hk0 Hn ltac:(lia)) as Ld.
    pose proof (zslice_len (distances m) k (zlen (ds (l - 1) c)) Hk0 Hn ltac:(lia)) as Lx.
    eexists cell, _, _, _, _. split; [exact Hcell|]. split; [exact Hds|]. split; [exact Hd|]. split; [exact Hx|]. split; [exact Hw|].
    split; [unfold zlen in *; lia|]. split; [unfold zlen in *; lia|]. split; [left; unfold zlen in *; lia|]. split.
    + intros a. rewrite row_arcs_elem. split.
      * intros (j & H1 & H2 & H3 & H4 & H5). split; [by eapply zget_elem|]. split; [by eapply zget_elem|]. split; [|done].
        by apply (entry_row m (l - 1) c cell u (oa_to a) i j Hcell Hi H2 Hk0).
      * intros (_ & [j Hj]%elem_zget & He & Hne). exists j.
        apply (entry_row m (l - 1) c cell u (oa_to a) i j Hcell Hi Hj Hk0) in He as (H1 & H2 & H3). by split_and!.
    + intros j w v Hj Hv. split; [by eapply zget_elem|]. split; [by eapply zget_elem|].
      pose proof (zget_some _ _ _ Hj) as Hjr. rewrite Lw in Hjr.
      destruct (zget_is_some (zslice (durations m) k (zlen (ds (l - 1) c))) j) as [d Hd']; [lia|].
      destruct (zget_is_some (zslice (distances m) k (zlen (ds (l - 1) c))) j) as [x Hx']; [lia|].
      exists d, x. by apply (entry_row m (l - 1) c cell u v i j Hcell Hi Hv Hk0).
  - exists cell, [], [], [], (ds (l - 1) c). pose proof (GetOutRange_none cell _ _ u Hat Hs) as Hr.
    unfold GetOutDuration, GetOutDistance, GetOutWeight. rewrite Hr. cbn [mbind option_bind mapM].
    split_and!; try done; [apply (ca_destinations _ _ _ _ Hat)|by right| |].
    + intros a. simpl. split; [by intros ?%elem_of_nil|by intros [? _]].
    + intros j w v Hj. by apply zget_elem, elem_of_nil in Hj.
Qed.

Lemma cl_elem u a : a ∈ cl u <-> is_allowed u /\ 1 < l /\ u ∈ ss (l - 1) (cell_of (l - 1) u) /\ oa_to a ∈ ds (l - 1) (cell_of (l - 1) u) /\
  entry m (l - 1) (cell_of (l - 1) u) u (oa_to a) (oa_weight a) (oa_duration a) (oa_distance a) /\
  oa_weight a <> INVALID_EDGE_WEIGHT.
Proof using Hcu Hl Hm.
  unfold cl. case_bool_decide as Hu; [|split; [by intros ?%elem_of_nil|intros (? & ? & _); by destruct Hu]].
  destruct Hu as [Hu Hl1].
  destruct (subcell_read u Hu Hl1) as (cell & ws & durs & dists & vs & H1 & H2 & H3 & H4 & H5 & _ & _ & _ & Hel & _).
  unfold subcell_row. rewrite H1. cbn [mbind option_bind]. rewrite H2. cbn [mbind option_bind]. rewrite H3. cbn [mbind option_bind].
  rewrite H4. cbn [mbind option_bind]. rewrite H5. cbn [mbind option_bind default]. unfold id. rewrite Hel. tauto.
Qed.

(** The matrices below the level are exact. *)
Context (Hbelow : 1 < l -> exact_level m (l - 1)).

Lemma cl_distance u a : a ∈ cl u -> is_distance (l - 1) u (oa_to a) (oa_weight a) /\ walk (inner (l - 1)) u (oa_to a) (oa_weight a) /\
  (u = oa_to a -> oa_duration a = 0 /\ oa_distance a = SpecFloat.S754_zero false).
Proof using Hcu Hl Hm Hbelow.
  intros (Hu & Hl1 & Hs & Hd & He & Hne)%cl_elem.
  destruct (cell_get (l - 1) u ltac:(lia) (allowed_range _ Hu)) as [_ Hc].
  destruct (Hbelow Hl1 _ u Hc Hs Hu _ Hd) as (w & d & x & He' & Hdist & Hself).
  destruct (entry_unique _ _ _ _ _ _ _ _ _ _ _ He' He) as (-> & -> & ->). split; [done|]. split; [|done].
  destruct Hdist as [[? _]|(_ & Hw & _)]; [done|exact Hw].
Qed.

Lemma cl_allowed u a : a ∈ cl u -> is_allowed (oa_to a).
Proof using Hcu Hl Hm Hbelow.
  intros Ha. destruct (cl_distance u a Ha) as (_ & Hw & _). apply cl_elem in Ha as (Hu & _).
  destruct (walk_ends _ _ _ _ Hw) as [[<- _]|(_ & _ & ? & _)]; done.
Qed.

Section equations.
Context {St H Handle : Type} `{IndexStorage St, MutableHeap H Handle}.
Implicit Types (q : QueryHeap St H Handle HeapData).

Lemma relax_edges_eq u range xs : 0 <= u < num -> (forall x, x ∈ xs -> 0 <= target x < num) ->
  Forall2 (fun e x => GetTarget (base graph) e = Some (target x) /\ GetEdgeData (base graph) e = Some (data x)) range xs ->
  forall q w d x, relax_edges mlp q graph allowed l u range w d x = relax_arcs q (edge_arcs u xs) false w d x.
Proof using Hcu Hl Hbelow.
  intros Hu Hxs HF. induction HF as [|e y range xs [Ht Hd] HF IH]; intros q w d x; [done|].
  assert (0 <= target y < num) as Hy by (apply Hxs; by left).
  assert (forall z, z ∈ xs -> 0 <= target z < num) as Hxs' by (intros z Hz; apply Hxs; by right).
  specialize (IH Hxs'). cbn [relax_edges edge_arcs]. rewrite Ht. cbn [mbind option_bind].
  destruct (zget_is_some allowed (target y)) as [b Hb]; [rewrite (cu_allowed Hcu); lia|]. rewrite Hb. cbn [mbind option_bind].
  destruct b; simpl.
  2:{ rewrite bool_decide_eq_false_2 by (unfold is_allowed; congruence). simpl. apply IH. }
  rewrite bool_decide_eq_true_2 by done. simpl. rewrite Hd. cbn [mbind option_bind].
  destruct (forward (data y)); simpl; [|apply IH].
  assert (crosses_subcell mlp l u (target y) = Some (between u (target y))) as ->.
  { unfold crosses_subcell, between. destruct (Z.eqb_spec l 1) as [->|Hl1]; [done|]. simpl.
    destruct (cell_get (l - 1) u ltac:(lia) Hu) as [-> _]. destruct (cell_get (l - 1) _ ltac:(lia) Hy) as [-> _]. done. }
  cbn [mbind option_bind]. destruct (between u (target y)); [|apply IH]. cbn [relax_arcs oa_to oa_weight oa_duration oa_distance].
  destruct (relax_arc _ _ _ _ _ _); simpl; [apply IH|done].
Qed.

Lemma RelaxNode_eq q u w d x hd : is_allowed u -> GetData q u = Some hd ->
  RelaxNode mlp q graph st allowed m l u w d x =
    (q' ← relax_arcs q (if from_clique hd then [] else cl u) true w d x; relax_arcs q' (ba u) false w d x).
Proof using Hcu Hl Hm Hbelow.
  intros Hu Hq. pose proof (allowed_range _ Hu) as Hur. unfold RelaxNode. rewrite Hq. cbn [mbind option_bind].
  assert ((if negb (l =? 1) && negb (from_clique hd)
    then subcell_id ← GetCell mlp (l - 1) u;
         subcell ← GetCellData st (l - 1) subcell_id;
         destinations ← GetDestinationNodes st subcell;
         durs ← GetOutDuration st m subcell u;
         dists ← GetOutDistance st m subcell u;
         ws ← GetOutWeight st m subcell u;
         relax_subcell q allowed ws destinations durs dists w d x
    else Some q) = relax_arcs q (if from_clique hd then [] else cl u) true w d x) as ->.
  { destruct (from_clique hd); simpl; [by rewrite andb_false_r|]. rewrite andb_true_r. unfold cl.
    destruct (Z.eqb_spec l 1) as [E1|Hl1]; simpl; [rewrite bool_decide_eq_false_2 by lia; done|].
    rewrite bool_decide_eq_true_2 by (split; [done|lia]).
    destruct (cell_get (l - 1) u ltac:(lia) Hur) as [-> _]. cbn [mbind option_bind].
    destruct (subcell_read u Hu ltac:(lia)) as (cell & ws & durs & dists & vs & E1 & E2 & E3 & E4 & E5 & L1 & L2 & L3 & Hel & Hent).
    unfold subcell_row. rewrite E1. cbn [mbind option_bind]. rewrite E2. cbn [mbind option_bind]. rewrite E3. cbn [mbind option_bind].
    rewrite E4. cbn [mbind option_bind]. rewrite E5. cbn [mbind option_bind default].
    destruct L3 as [L3| ->]; [|by destruct durs; [|done]; destruct vs, dists].
    apply relax_subcell_eq; [done..|]. intros j wj v Hj Hne Hv.
    destruct (Hent j wj v Hj Hv) as (Hs & Hd & dj & xj & He).
    apply (cl_allowed u (mkOutArc v wj dj xj)). apply cl_elem. split_and!; try done. lia. }
  destruct (relax_arcs q _ true w d x) as [q1|]; [|done]. cbn [mbind option_bind].
  destruct (edges_in_ok u Hur) as (range & Hr & HF & Hx). rewrite Hr. cbn [mbind option_bind].
  unfold ba. rewrite bool_decide_eq_true_2 by done. apply relax_edges_eq; [done| |done].
  intros y [Hy _]%Hx. by eapply (cu_targets Hcu).
Qed.
End equations.

(** ** The overlay *)

Abbreviation arcs := (out_arc cl ba).

Lemma overlay_arc u v w : arcs u v w -> walk (inner l) u v w /\ is_allowed u /\ is_allowed v.
Proof using Hcu Hl Hm Hbelow.
  intros (a & [Ha|Ha]%elem_of_app & <- & <-).
  - destruct (cl_distance u a Ha) as (_ & Hw & _). pose proof (cl_allowed u a Ha).
    apply cl_elem in Ha as (Hu & Hl1 & _). split; [|done]. eapply walk_mono; [|exact Hw]. intros x y z. apply inner_down. lia.
  - apply ba_elem in Ha as (Hu & x & Hx & Hc & Hv & Hf & _ & ->). simpl. split; [|done].
    apply walk_edge. split_and!; try done. exists x. by split_and!.
Qed.

Lemma overlay_sound s v p : walk arcs s v p -> walk (inner l) s v p.
Proof using Hcu Hl Hm Hbelow.
  induction 1 as [n|s u t p w Hw IH He]; [constructor|]. eapply walk_app; [exact IH|]. by apply overlay_arc.
Qed.

(** The end of a crossing arc is at the border of its sub-cell. *)
Lemma crossing_ends k u x : 1 <= k <= levels -> 0 <= u < num -> x ∈ sadj (base graph) u -> forward (data x) = true ->
  cell_of k u <> cell_of k (target x) -> crosses k u = true /\ crosses k (target x) = true.
Proof using Hcu.
  intros Hk Hu Hx Hf Hne. split; [by apply (crosses_intro k u x Hx)|].
  destruct (cu_symmetric Hcu u x Hu Hx Hf) as (y & Hy & Ht & _). apply (crosses_intro k _ y Hy). by rewrite Ht.
Qed.

(** A walk inside a sub-cell from border to border is covered by its matrix. *)
Lemma covered u v p : 1 < l -> is_allowed u -> crosses (l - 1) u = true -> crosses (l - 1) v = true -> walk (inner (l - 1)) u v p ->
  exists p', walk arcs u v p' /\ p' <= p.
Proof using Hcu Hl Hm Hbelow.
  intros Hl1 Hu Cu Cv Hw. destruct (walk_ends _ _ _ _ Hw) as [[-> ->]|(_ & _ & Hv & Hc & (a & wa & Ha) & b & wb & Hb)].
  { exists 0. split; [constructor|lia]. }
  pose proof (allowed_range _ Hu) as Hur. pose proof (allowed_range _ Hv) as Hvr.
  assert (u ∈ ss (l - 1) (cell_of (l - 1) u)) as Hs.
  { apply elem_of_sources. split_and!; try done; try lia. destruct Ha as (_ & _ & Hca & x & Hx & <- & Hf & _).
    by apply (connected_intro forward (l - 1) u x (or_introl eq_refl) Hx). }
  assert (v ∈ ds (l - 1) (cell_of (l - 1) u)) as Hd.
  { rewrite Hc. apply destination_intro; [done|done|]. destruct Hb as (Hba & _ & Hcb & x & Hx & <- & Hf & _).
    destruct (cu_symmetric Hcu b x (allowed_range _ Hba) Hx Hf) as (y & Hy & Ht & Hbk).
    by apply (connected_intro backward (l - 1) _ y (or_intror eq_refl) Hy); [rewrite Ht|]. }
  destruct (cell_get (l - 1) u ltac:(lia) Hur) as [_ Hcr].
  destruct (Hbelow Hl1 _ u Hcr Hs Hu v Hd) as (w & d & x & He & Hdist & _).
  destruct Hdist as [[_ Hno]|(Hne & _ & Hle)]; [by destruct (Hno p)|]. exists w. split; [|by apply Hle].
  apply walk_edge. exists (mkOutArc v w d x). split; [|done]. apply elem_of_app. left. by apply cl_elem.
Qed.

(** A walk inside the cell: up to the last border of a sub-cell in the overlay, then inside that sub-cell. *)
Lemma overlay_prefix s v p : 1 < l -> is_allowed s -> crosses (l - 1) s = true -> walk (inner l) s v p ->
  exists u p1 p2, walk arcs s u p1 /\ walk (inner (l - 1)) u v p2 /\ p1 + p2 <= p /\ is_allowed u /\ crosses (l - 1) u = true.
Proof using Hcu Hl Hm Hbelow.
  intros Hl1 Hs Cs Hw. induction Hw as [n|s v t p w Hw IH He].
  { exists n, 0, 0. split_and!; try done; constructor. }
  destruct (IH Hs Cs) as (u & p1 & p2 & Hw1 & Hw2 & Hle & Hu & Cu). pose proof He as (Hv & Ht & Hc & x & Hx & <- & Hf & <-).
  destruct (decide (cell_of (l - 1) v = cell_of (l - 1) (target x))) as [Ec|Ec].
  - exists u, p1, (p2 + weight (data x)). split_and!; try done; [|lia]. econstructor; [exact Hw2|]. split_and!; try done. exists x. by split_and!.
  - destruct (crossing_ends (l - 1) v x ltac:(lia) (allowed_range _ Hv) Hx Hf Ec) as [Cv Ct].
    destruct (covered u v p2 Hl1 Hu Cu Cv Hw2) as (p3 & Hw3 & Hle3).
    exists (target x), (p1 + p3 + weight (data x)), 0. split_and!; [|constructor|lia|done|done].
    eapply walk_snoc; [by eapply walk_app|]. eexists. split; [apply elem_of_app; right; apply ba_elem; split; [done|]; exists x; split_and!; try done|done].
    unfold between. rewrite (proj2 (Z.eqb_neq _ _) Ec). by rewrite orb_true_r.
Qed.

Lemma overlay_complete s v p : is_allowed s -> (1 < l -> crosses (l - 1) s = true /\ crosses (l - 1) v = true) ->
  walk (inner l) s v p -> exists p', walk arcs s v p' /\ p' <= p.
Proof using Hcu Hl Hm Hbelow.
  intros Hs Hc Hw. destruct (decide (1 < l)) as [Hl1|Hl1].
  - destruct (Hc Hl1) as [Cs Cv]. destruct (overlay_prefix s v p Hl1 Hs Cs Hw) as (u & p1 & p2 & H1 & H2 & Hle & Hu & Cu).
    destruct (covered u v p2 Hl1 Hu Cu Cv H2) as (p3 & H3 & Hle3). exists (p1 + p3). split; [by eapply walk_app|lia].
  - exists p. split; [|lia]. eapply walk_mono; [|exact Hw]. intros u t w (Hu & Ht & Hcell & x & Hx & <- & Hf & <-).
    eexists. split; [apply elem_of_app; right; apply ba_elem; split; [done|]; exists x; split_and!; try done|done].
    unfold between. by replace (l =? 1) with true by lia.
Qed.

(** Nodes of the overlay lie at borders of sub-cells. *)
Lemma overlay_border s v p : 1 < l -> crosses (l - 1) s = true -> walk arcs s v p -> crosses (l - 1) v = true.
Proof using Hcu Hl Hm Hbelow.
  intros Hl1 Cs Hw. destruct Hw as [n|s u t p w _ (a & [Ha|Ha]%elem_of_app & <- & _)]; [done| |].
  - apply cl_elem in Ha as (_ & _ & _ & Hd & _). by apply elem_of_destinations in Hd as (_ & ? & _).
  - apply ba_elem in Ha as (Hu & x & Hx & _ & _ & Hf & Hb & ->). simpl. unfold between in Hb.
    destruct (Z.eqb_spec l 1); [lia|]. simpl in Hb.
    apply (crossing_ends (l - 1) u x ltac:(lia) (allowed_range _ Hu) Hx Hf). lia.
Qed.

(** ** The search of one source *)

Lemma arcs_ok u a : a ∈ cl u ++ ba u -> arc_ok u a /\ 0 <= oa_to a < num.
Proof using Hcu Hl Hm Hbelow.
  intros Ha. assert (arcs u (oa_to a) (oa_weight a)) as Harc by (by exists a).
  destruct (overlay_arc _ _ _ Harc) as (_ & _ & Hv). split; [|by apply allowed_range].
  apply elem_of_app in Ha as [Ha|Ha].
  - destruct (cl_distance u a Ha) as (_ & Hw & Hself). destruct (walk_ends _ _ _ _ Hw) as [[Eu Ew]|(? & _)]; [right|by left].
    destruct (Hself Eu). by split_and!.
  - left. apply ba_elem in Ha as (_ & x & Hx & _ & _ & Hf & _ & ->). simpl. by apply (cu_weights Hcu u x Hx).
Qed.

Lemma arcs_bounded u a : a ∈ cl u ++ ba u -> oa_weight a <= bound.
Proof using Hcu Hl Hm Hbelow.
  intros [Ha|Ha]%elem_of_app.
  - destruct (cl_distance u a Ha) as (Hd & Hw & _). apply cl_elem in Ha as (_ & Hl1 & _ & _ & _ & Hne).
    destruct (cu_distances Hcu (l - 1) _ _ _ ltac:(lia) Hw) as (p' & Hp' & Hle).
    destruct Hd as [[? _]|(_ & _ & Hleast)]; [done|]. pose proof (Hleast _ Hp'). lia.
  - apply ba_elem in Ha as (_ & x & Hx & _ & _ & Hf & _ & ->). simpl. by apply (cu_weights Hcu u x Hx).
Qed.

Lemma arcs_triangle p a b : a ∈ cl p -> b ∈ cl (oa_to a) ->
  exists c, c ∈ cl p /\ oa_to c = oa_to b /\ oa_weight c <= oa_weight a + oa_weight b.
Proof using Hcu Hl Hm Hbelow.
  intros Ha Hb. destruct (cl_distance p a Ha) as (_ & Hw1 & _). destruct (cl_distance _ b Hb) as (_ & Hw2 & _).
  apply cl_elem in Ha as (Hp & Hl1 & Hs & Hd & _ & _). apply cl_elem in Hb as (_ & _ & _ & Hd' & _ & _).
  destruct (elem_of_destinations _ _ _ Hd) as (_ & _ & Ec). rewrite Ec in Hd'.
  destruct (cell_get (l - 1) p ltac:(lia) (allowed_range _ Hp)) as [_ Hcr].
  destruct (Hbelow Hl1 _ p Hcr Hs Hp _ Hd') as (w & d & x & He & Hdist & _).
  pose proof (walk_app _ _ _ _ _ _ Hw1 Hw2) as Hw.
  destruct Hdist as [[_ Hno]|(Hne & _ & Hle)]; [by destruct (Hno _ Hw)|].
  exists (mkOutArc (oa_to b) w d x). split; [by apply cl_elem|]. split; [done|]. by apply Hle.
Qed.

Section one_source.
Context {St H Handle : Type}.
Context `{SL : IndexStorageLaws St, HL : MutableHeapLaws H Handle}.
Implicit Types (q : QueryHeap St H Handle HeapData).
Context (c s : Z) (Hs : s ∈ ss l c) (Ha : is_allowed s).

Lemma source_border : 1 < l -> crosses (l - 1) s = true.
Proof using Hcu Hl Hs. intros Hl1. apply elem_of_sources in Hs as (Hr & Hc & _). apply crosses_down; [lia|done|done]. Qed.

Lemma overlay_bounded v p : walk arcs s v p -> exists p', walk arcs s v p' /\ p' <= bound.
Proof using Hcu Hl Hm Hbelow Hs Ha.
  intros Hw. destruct (cu_distances Hcu l s v p Hl (overlay_sound _ _ _ Hw)) as (p1 & Hp1 & Hle1).
  destruct (overlay_complete s v p1 Ha) as (p2 & Hp2 & Hle2); [|done|exists p2; split; [done|lia]].
  intros Hl1. pose proof (source_border Hl1) as Hb. split; [exact Hb|exact (overlay_border s v p Hl1 Hb Hw)].
Qed.

(** The search from a source leaves the distances inside the cell. *)
Lemma source_search q M k r (D0 : gset Z) :
  good num q M (k + 1) r -> 0 <= k -> num + 1 < r -> (forall d, d ∈ D0 <-> d ∈ ds l c /\ is_allowed d) ->
  exists q1 q' M', Insert (Clear q) s 0 (mkHeapData false 0 (SpecFloat.S754_zero false)) = Some q1 /\
    search_cell mlp (S (Z.to_nat (GetNumberOfNodes (base graph)))) q1 graph st allowed m l D0 = Some q' /\
    good num q' M' k r /\
    forall d, d ∈ ds l c ->
      (exists e, M' !! d = Some e /\ is_distance l s d (qe_weight e) /\
         (s = d -> hd_duration (qe_data e) = 0 /\ hd_distance (qe_data e) = SpecFloat.S754_zero false)) \/
      (M' !! d = None /\ is_distance l s d INVALID_EDGE_WEIGHT /\ s <> d).
Proof using Hcu Hl Hm Hbelow Hs Ha.
  intros Gq Hk Hr HD. pose proof (cu_bound Hcu) as Hbd. unfold INT32_MAX in Hbd.
  destruct (search_from_source cl ba num s bound bound arcs_ok arcs_triangle overlay_bounded arcs_bounded ltac:(lia)
    mlp graph st allowed m l) with (q := q) (M := M) (c := k) (r := r) (D0 := D0) as (q1 & q' & M' & E1 & E2 & G' & HE & Hd).
  { intros q0 node w d x hd [p Hp] Hq0. apply RelaxNode_eq; [|done].
    destruct (walk_ends _ _ _ _ (overlay_sound _ _ _ Hp)) as [[<- _]|(_ & _ & ? & _)]; done. }
  { done. }
  { done. }
  { by apply allowed_range. }
  { done. }
  { by rewrite (cu_num Hcu). }
  exists q1, q', M'. split; [done|]. split; [done|]. split; [done|]. intros d Hdd.
  destruct (elem_of_destinations _ _ _ Hdd) as (Hdr & Cd & _).
  assert (forall p, walk (inner l) s d p -> exists p', walk arcs s d p' /\ p' <= p) as Hcomp.
  { intros p Hp. apply overlay_complete; [done| |done]. intros Hl1. split; [by apply source_border|].
    apply crosses_down; [lia|done|done]. }
  destruct (M' !! d) as [e|] eqn:Ed.
  - left. exists e. split; [done|]. pose proof (ex_sound _ _ _ _ _ HE _ _ Ed) as Hsnd.
    assert (is_allowed d) as Had by (destruct (walk_ends _ _ _ _ (overlay_sound _ _ _ Hsnd)) as [[<- _]|(_ & _ & ? & _)]; done).
    destruct (Hd d ltac:(by apply HD)) as [(e' & He' & Hle)|[? _]]; [|congruence]. assert (e' = e) as -> by congruence. split.
    + right. split; [|split; [by apply overlay_sound|]].
      * destruct (overlay_bounded _ _ Hsnd) as (p' & Hp' & Hb). pose proof (Hle _ Hp'). unfold INVALID_EDGE_WEIGHT, INT32_MAX. lia.
      * intros p Hp. destruct (Hcomp p Hp) as (p' & Hp' & Hle'). pose proof (Hle _ Hp'). lia.
    + intros <-. destruct (ex_source _ _ _ _ _ HE) as (e0 & He0 & _ & Hdata). assert (e0 = e) as -> by congruence. by rewrite Hdata.
  - right. split; [done|]. assert (s <> d) as Hsd.
    { intros <-. destruct (ex_source _ _ _ _ _ HE) as (e0 & He0 & _). congruence. }
    split; [|done]. left. split; [done|]. intros p Hp. destruct (Hcomp p Hp) as (p' & Hp' & _).
    destruct (walk_ends _ _ _ _ Hp) as [[? _]|(_ & _ & Had & _)]; [done|].
    destruct (Hd d ltac:(by apply HD)) as [(e & He & _)|[_ Hno]]; [congruence|]. by apply (Hno p').
Qed.
End one_source.
End level.

(** ** Writing a row *)

Section heaps.
Context {St H Handle : Type}.
Context `{SL : IndexStorageLaws St, HL : MutableHeapLaws H Handle}.
Implicit Types (q : QueryHeap St H Handle HeapData) (M : cmap) (m : CellMetric).

(** What the queue holds for a destination. *)
Definition found M (d : Z) : Z * Z * float32 :=
  match M !! d with
  | Some e => (qe_weight e, hd_duration (qe_data e), hd_distance (qe_data e))
  | None => (INVALID_EDGE_WEIGHT, MAXIMAL_EDGE_DURATION, INVALID_EDGE_DISTANCE)
  end.

Definition at_slot m (k : Z) : option Z * option Z * option float32 := (weights m !z k, durations m !z k, distances m !z k).

Lemma fill_row_ok q M c r L : good num q M c r -> (forall d, d ∈ L -> 0 <= d < num) -> forall k m,
  metric_ok m -> 0 <= k -> k + zlen L <= zlen (weights (MakeMetric st)) ->
  exists m', fill_row q L (seqZ k (zlen L)) m = Some m' /\ metric_ok m' /\
    (forall i, ~ (k <= i < k + zlen L) -> at_slot m' i = at_slot m i) /\
    forall j d, L !z j = Some d -> at_slot m' (k + j) =
      (Some (fst (fst (found M d))), Some (snd (fst (found M d))), Some (snd (found M d))).
Proof.
  intros Gq. induction L as [|d L IH]; intros Hr k m Hm Hk Hfit.
  { exists m. split_and!; try done. intros j d Hj. by apply zget_elem, elem_of_nil in Hj. }
  rewrite zlen_cons in *. pose proof (zlen_nonneg L) as HLn. rewrite seqZ_cons by lia. cbn [fill_row head tail mbind option_bind].
  assert (0 <= d < num) as Hd by (apply Hr; by left). pose proof Gq as [R V _]. rewrite (WasInserted_spec _ _ _ R (V _ Hd)).
  cbn [mbind option_bind].
  assert ((if bool_decide (is_Some (M !! d)) then GetKey q d else Some INVALID_EDGE_WEIGHT) = Some (fst (fst (found M d)))) as ->.
  { unfold found. destruct (M !! d) as [e|] eqn:E; [rewrite bool_decide_eq_true_2 by eauto; by apply (GetKey_spec _ _ _ _ R E)|].
    by rewrite bool_decide_eq_false_2 by (by intros [? ?]). }
  cbn [mbind option_bind].
  assert (exists hd, (if bool_decide (is_Some (M !! d)) then GetData q d
      else Some (mkHeapData false MAXIMAL_EDGE_DURATION INVALID_EDGE_DISTANCE)) = Some hd /\
      hd_duration hd = snd (fst (found M d)) /\ hd_distance hd = snd (found M d)) as (hd & -> & Hhd1 & Hhd2).
  { unfold found. destruct (M !! d) as [e|] eqn:E; [rewrite bool_decide_eq_true_2 by eauto|].
    - exists (qe_data e). split; [by apply (GetData_spec _ _ _ _ R E)|done].
    - rewrite bool_decide_eq_false_2 by (by intros [? ?]). by eexists. }
  cbn [mbind option_bind]. rewrite Hhd1, Hhd2. destruct Hm as (M1 & M2 & M3).
  destruct (zset_some (weights m) k (fst (fst (found M d)))) as [ws Hws]; [lia|]. rewrite Hws. cbn [mbind option_bind].
  destruct (zset_some (durations m) k (snd (fst (found M d)))) as [dd Hdd]; [lia|]. rewrite Hdd. cbn [mbind option_bind].
  destruct (zset_some (distances m) k (snd (found M d))) as [xs Hxs]; [lia|]. rewrite Hxs. cbn [mbind option_bind].
  pose proof (zset_len _ _ _ _ Hws). pose proof (zset_len _ _ _ _ Hdd). pose proof (zset_len _ _ _ _ Hxs).
  replace (Z.pred (1 + zlen L)) with (zlen L) by lia. rewrite <- (Z.add_1_r k).
  destruct (IH ltac:(intros y Hy; apply Hr; by right) (k + 1) (mkCellMetric ws dd xs)) as (m' & E & Hm' & Hfr & Hrow);
    [split_and!; simpl; lia|lia|lia|].
  exists m'. split; [done|]. split; [done|].
  assert (forall i, i <> k -> at_slot (mkCellMetric ws dd xs) i = at_slot m i) as Hne.
  { intros i Hi. unfold at_slot. cbn [weights durations distances].
    by rewrite (zset_get_ne _ _ _ _ _ Hws), (zset_get_ne _ _ _ _ _ Hdd), (zset_get_ne _ _ _ _ _ Hxs) by congruence. }
  split.
  - intros i Hi. rewrite Hfr by lia. apply Hne. lia.
  - intros j y [[-> ->]|[Hj Hy]]%zget_cons_inv.
    + rewrite Hfr by lia. rewrite Z.add_0_r. unfold at_slot. cbn [weights durations distances].
      by rewrite (zset_get_eq _ _ _ _ Hws), (zset_get_eq _ _ _ _ Hdd), (zset_get_eq _ _ _ _ Hxs).
    + rewrite <- (Hrow _ _ Hy). f_equal. lia.
Qed.

Lemma allowed_set_ok L : (forall d, d ∈ L -> 0 <= d < num) ->
  exists D0, allowed_set allowed L = Some D0 /\ forall d, d ∈ D0 <-> d ∈ L /\ is_allowed d.
Proof using Hcu.
  induction L as [|d L IH]; intros Hr; cbn [allowed_set].
  { exists ∅. split; [done|]. intros d. split; [by intros ?%elem_of_empty|by intros [?%elem_of_nil _]]. }
  destruct (zget_is_some allowed d) as [b Hb]; [rewrite (cu_allowed Hcu); apply Hr; by left|]. rewrite Hb. cbn [mbind option_bind].
  destruct IH as (D0 & -> & HD); [intros y Hy; apply Hr; by right|]. cbn [mbind option_bind]. eexists. split; [done|].
  intros y. rewrite elem_of_cons. destruct b.
  - rewrite elem_of_union, elem_of_singleton, HD. unfold is_allowed. split; [intros [->|?]; tauto|intros [[->|?] ?]; tauto].
  - rewrite HD. split; [tauto|]. intros [[->|?] ?]; [unfold is_allowed in *; congruence|tauto].
Qed.

(** Entries of other rows. *)
Definition other_rows m m' (P : Z -> Z -> Z -> Prop) : Prop :=
  forall l c u v w d x, 1 <= l <= levels -> 0 <= c < num_cells mlp l -> ~ P l c u -> entry m l c u v w d x -> entry m' l c u v w d x.

Lemma other_rows_refl m P : other_rows m m P.
Proof. by intros l c u v w d x. Qed.

Lemma other_rows_trans m1 m2 m3 (P Q R : Z -> Z -> Z -> Prop) :
  (forall l c u, P l c u -> R l c u) -> (forall l c u, Q l c u -> R l c u) ->
  other_rows m1 m2 P -> other_rows m2 m3 Q -> other_rows m1 m3 R.
Proof. intros HP HQ H1' H2' l c u v w d x Hl Hc Hn He. apply H2'; [done..|naive_solver|]. apply H1'; [done..|naive_solver|done]. Qed.

Lemma exact_row_other m m' P l c u : 1 <= l <= levels -> 0 <= c < num_cells mlp l -> other_rows m m' P -> ~ P l c u ->
  exact_row m l c u -> exact_row m' l c u.
Proof.
  intros Hl Hc Ho Hn He v Hv. destruct (He v Hv) as (w & d & x & Hen & Hd & Hs). exists w, d, x. split; [|done]. by eapply Ho.
Qed.

(** ** One cell *)

Context (r : Z) (Hr : num + 1 < r).

(** Positions of different rows are different. *)
Lemma rows_apart l c cell u i l' c' cell' u' i' j' :
  1 <= l <= levels -> 0 <= c < num_cells mlp l -> GetCellData st l c = Some cell -> ss l c !z i = Some u ->
  1 <= l' <= levels -> 0 <= c' < num_cells mlp l' -> GetCellData st l' c' = Some cell' -> ss l' c' !z i' = Some u' ->
  0 <= j' < zlen (ds l' c') -> ~ (l' = l /\ c' = c /\ u' = u) ->
  let k := value_offset cell + zlen (ds l c) * i in
  ~ (k <= value_offset cell' + zlen (ds l' c') * i' + j' < k + zlen (ds l c)).
Proof using Hcu.
  intros Hl Hc Hcell Hi Hl' Hc' Hcell' Hi' Hj' Hne k Hin.
  destruct (cu_cells Hcu l c Hl Hc) as (cell0 & E0 & Hat & _ & _ & Hap). assert (cell0 = cell) as -> by congruence.
  destruct (cu_cells Hcu l' c' Hl' Hc') as (cell1 & E1 & Hat' & _). assert (cell1 = cell') as -> by congruence.
  pose proof (cell_size_product _ _ _ _ Hat) as Sz. pose proof (cell_size_product _ _ _ _ Hat') as Sz'.
  pose proof (zget_some _ _ _ Hi). pose proof (zget_some _ _ _ Hi'). unfold k in *.
  destruct (Hap l' c' cell' Hl' Hc' Hcell') as [[-> ->]|[Ha|Ha]]; [|nia|nia].
  assert (cell' = cell) as -> by congruence. assert (i' = i) as -> by nia.
  apply Hne. split_and!; try done. congruence.
Qed.

Lemma customize_source_ok l c cell s q M k m :
  1 <= l <= levels -> 0 <= c < num_cells mlp l -> GetCellData st l c = Some cell -> s ∈ ss l c -> is_allowed s ->
  metric_ok m -> (1 < l -> exact_level m (l - 1)) -> good num q M (k + 1) r -> 0 <= k ->
  exists q' M' m', customize_source mlp q graph st allowed m l cell (ds l c) s = Some (q', m') /\ good num q' M' k r /\
    metric_ok m' /\ exact_row m' l c s /\ other_rows m m' (fun l' c' u => l' = l /\ c' = c /\ u = s).
Proof using Hcu Hr.
  intros Hl Hc Hcell Hs Ha Hm Hbelow Gq Hk.
  assert (forall d, d ∈ ds l c -> 0 <= d < num) as Hds by (intros d Hd; by apply elem_of_destinations in Hd as (? & _)).
  unfold customize_source. destruct (allowed_set_ok (ds l c) Hds) as (D0 & -> & HD). cbn [mbind option_bind].
  destruct (source_search l Hl m Hm Hbelow c s Hs Ha q M k r D0 Gq Hk Hr HD) as (q1 & q2 & M2 & E1 & E2 & G2 & Hfound).
  rewrite E1. cbn [mbind option_bind]. rewrite E2. cbn [mbind option_bind].
  pose proof Hs as [i Hi]%elem_zget.
  destruct (row_read m l c cell s i Hm Hl Hc Hcell Hi) as (Hk0 & Hk1 & Hor & _). rewrite Hor. cbn [mbind option_bind].
  set (k0 := value_offset cell + zlen (ds l c) * i) in *.
  destruct (fill_row_ok q2 M2 k r (ds l c) G2 Hds k0 m Hm Hk0 Hk1) as (m' & E3 & Hm' & Hfr & Hrow). rewrite E3. cbn [mbind option_bind].
  exists q2, M2, m'. split; [done|]. split; [done|]. split; [done|]. split.
  - intros v Hv. pose proof Hv as [j Hj]%elem_zget. pose proof (Hrow j v Hj) as Hat. unfold at_slot in Hat. injection Hat as A1 A2 A3.
    exists (fst (fst (found M2 v))), (snd (fst (found M2 v))), (snd (found M2 v)).
    split; [by exists cell, i, j|]. unfold found. destruct (Hfound v Hv) as [(e & -> & Hd & Hself)|(-> & Hd & Hne)]; simpl; [done|]. done.
  - intros l' c' u v w d x Hl' Hc' Hne (cell' & i' & j' & Hcell' & Hi' & Hj' & Hw).
    exists cell', i', j'. split_and!; try done.
    pose proof (rows_apart l c cell s i l' c' cell' u i' j' Hl Hc Hcell Hi Hl' Hc' Hcell' Hi'
      ltac:(by eapply zget_some) Hne) as Hap. fold k0 in Hap.
    pose proof (Hfr _ Hap) as Hat. unfold at_slot in Hat. injection Hat as A1 A2 A3. cbv zeta. by rewrite A1, A2, A3.
Qed.

Lemma exact_level_other m m' P l : 1 <= l <= levels -> other_rows m m' P -> (forall c u, ~ P l c u) -> exact_level m l -> exact_level m' l.
Proof. intros Hl Ho Hn He c u Hc Hu Ha. eapply exact_row_other; [done|done|exact Ho|apply Hn|by apply He]. Qed.

Lemma customize_sources_ok l c cell : 1 <= l <= levels -> 0 <= c < num_cells mlp l -> GetCellData st l c = Some cell ->
  forall srcs q M k m, NoDup srcs -> (forall s, s ∈ srcs -> s ∈ ss l c) ->
  metric_ok m -> (1 < l -> exact_level m (l - 1)) -> good num q M (k + zlen srcs) r -> 0 <= k ->
  exists q' M' m', customize_sources mlp q graph st allowed m l cell (ds l c) srcs = Some (q', m') /\ good num q' M' k r /\
    metric_ok m' /\ (forall s, s ∈ srcs -> is_allowed s -> exact_row m' l c s) /\
    other_rows m m' (fun l' c' u => l' = l /\ c' = c /\ u ∈ srcs /\ is_allowed u).
Proof using Hcu Hr.
  intros Hl Hc Hcell. induction srcs as [|s srcs IH]; intros q M k m Hnd Hsub Hm Hbelow Gq Hk; cbn [customize_sources].
  { exists q, M, m. split; [done|]. split; [by rewrite zlen_nil, Z.add_0_r in Gq|]. split; [done|]. split; [by intros s ?%elem_of_nil|apply other_rows_refl]. }
  apply NoDup_cons in Hnd as [Hs Hnd]. rewrite zlen_cons in Gq. pose proof (zlen_nonneg srcs) as Hz.
  assert (s ∈ ss l c) as Hss by (apply Hsub; by left). pose proof (elem_of_sources l c s) as Hel. apply Hel in Hss as (Hsr & _).
  destruct (zget_is_some allowed s) as [b Hb]; [by rewrite (cu_allowed Hcu)|]. rewrite Hb. cbn [mbind option_bind]. destruct b; simpl.
  - replace (k + (1 + zlen srcs)) with (k + zlen srcs + 1) in Gq by lia.
    destruct (customize_source_ok l c cell s q M (k + zlen srcs) m Hl Hc Hcell ltac:(apply Hsub; by left) Hb Hm Hbelow Gq ltac:(lia))
      as (q1 & M1 & m1 & E1 & G1 & Hm1 & Hrow & Ho1). rewrite E1. cbn [mbind option_bind].
    destruct (IH q1 M1 k m1 Hnd ltac:(intros y Hy; apply Hsub; by right) Hm1) as (q2 & M2 & m2 & E2 & G2 & Hm2 & Hrows & Ho2); [|done|done|].
    { intros Hl1. eapply exact_level_other; [lia|exact Ho1|intros c' u [? _]; lia|by apply Hbelow]. }
    exists q2, M2, m2. split; [done|]. split; [done|]. split; [done|]. split.
    + intros y [->|Hy]%elem_of_cons Hya; [|by apply Hrows].
      eapply exact_row_other; [done|done|exact Ho2| |exact Hrow]. by intros (_ & _ & ? & _).
    + eapply other_rows_trans; [| |exact Ho1|exact Ho2]; intros l' c' u (-> & -> & Hu); (split; [done|]); (split; [done|]).
      * subst. split; [by left|done].
      * split; [right; tauto|tauto].
  - destruct (IH q M k m Hnd ltac:(intros y Hy; apply Hsub; by right) Hm Hbelow) as (q2 & M2 & m2 & E2 & G2 & Hm2 & Hrows & Ho2);
      [by eapply good_fewer; [|exact Gq]; lia|done|].
    exists q2, M2, m2. split; [done|]. split; [done|]. split; [done|]. split.
    + intros y [->|Hy]%elem_of_cons Hya; [unfold is_allowed in Hya; congruence|by apply Hrows].
    + eapply other_rows_trans; [| |apply (other_rows_refl m (fun _ _ _ => False))|exact Ho2]; [done|].
      intros l' c' u (-> & -> & Hu & Hua). split_and!; try done. by right.
Qed.

Lemma Customize_ok l c q M k m : 1 <= l <= levels -> 0 <= c < num_cells mlp l ->
  metric_ok m -> (1 < l -> exact_level m (l - 1)) -> good num q M (k + num) r -> 0 <= k ->
  exists q' M' m', Customize mlp q graph st allowed m l c = Some (q', m') /\ good num q' M' k r /\ metric_ok m' /\
    (forall s, s ∈ ss l c -> is_allowed s -> exact_row m' l c s) /\ other_rows m m' (fun l' c' u => l' = l /\ c' = c /\ is_allowed u).
Proof using Hcu Hr.
  intros Hl Hc Hm Hbelow Gq Hk. destruct (cu_cells Hcu l c Hl Hc) as (cell & Hcell & Hat & _). unfold Customize.
  rewrite Hcell. cbn [mbind option_bind]. rewrite (ca_destinations _ _ _ _ Hat). cbn [mbind option_bind].
  rewrite (ca_sources _ _ _ _ Hat). cbn [mbind option_bind].
  assert (zlen (ss l c) <= num) as Hz.
  { unfold source_nodes, zlen. pose proof (length_filter (fun v => source_node forward mlp gp l v = true /\ cell_of l v = c) (seqZ 0 (graph_nodes gp))) as Hlen.
    rewrite length_seqZ, (cu_gp_num Hcu) in Hlen. rewrite (cu_gp_num Hcu). pose proof (si_nodes _ _ _ (cu_input Hcu)). rewrite (cu_gp_num Hcu) in *. lia. }
  destruct (customize_sources_ok l c cell Hl Hc Hcell (ss l c) q M k m (source_nodes_NoDup l c) ltac:(done) Hm Hbelow) as (q' & M' & m' & E & G' & Hm' & Hrows & Ho);
    [by eapply good_fewer; [|exact Gq]; lia|done|].
  exists q', M', m'. split_and!; try done. eapply other_rows_trans; [| |apply (other_rows_refl m (fun _ _ _ => False))|exact Ho]; [done|].
  intros l' c' u (-> & -> & _ & ?). done.
Qed.

(** ** All cells *)

Lemma customize_cells_ok l : 1 <= l <= levels -> forall ids q M k m,
  NoDup ids -> (forall c, c ∈ ids -> 0 <= c < num_cells mlp l) ->
  metric_ok m -> (1 < l -> exact_level m (l - 1)) -> good num q M (k + zlen ids * num) r -> 0 <= k -> 0 <= num ->
  exists q' M' m', customize_cells mlp q graph st allowed m l ids = Some (q', m') /\ good num q' M' k r /\ metric_ok m' /\
    (forall c s, c ∈ ids -> s ∈ ss l c -> is_allowed s -> exact_row m' l c s) /\ other_rows m m' (fun l' c u => l' = l /\ c ∈ ids /\ is_allowed u).
Proof using Hcu Hr.
  intros Hl. induction ids as [|c ids IH]; intros q M k m Hnd Hsub Hm Hbelow Gq Hk Hnum; cbn [customize_cells].
  { exists q, M, m. split; [done|]. split; [eapply good_fewer; [|exact Gq]; unfold zlen; simpl; lia|].
    split; [done|]. split; [by intros c s ?%elem_of_nil|apply other_rows_refl]. }
  apply NoDup_cons in Hnd as [Hc Hnd]. rewrite zlen_cons in Gq. pose proof (zlen_nonneg ids) as Hz.
  replace (k + (1 + zlen ids) * num) with (k + zlen ids * num + num) in Gq by lia.
  destruct (Customize_ok l c q M (k + zlen ids * num) m Hl ltac:(apply Hsub; by left) Hm Hbelow Gq ltac:(nia))
    as (q1 & M1 & m1 & E1 & G1 & Hm1 & Hrow & Ho1). rewrite E1. cbn [mbind option_bind].
  destruct (IH q1 M1 k m1 Hnd ltac:(intros y Hy; apply Hsub; by right) Hm1) as (q2 & M2 & m2 & E2 & G2 & Hm2 & Hrows & Ho2); [|done|done|done|].
  { intros Hl1. eapply exact_level_other; [lia|exact Ho1|intros c' u [? _]; lia|by apply Hbelow]. }
  exists q2, M2, m2. split; [done|]. split; [done|]. split; [done|]. split.
  - intros c' s [->|Hc']%elem_of_cons Hs Ha; [|by apply Hrows].
    eapply exact_row_other; [done|apply Hsub; by left|exact Ho2| |by apply Hrow]. by intros (_ & ? & _).
  - eapply other_rows_trans; [| |exact Ho1|exact Ho2]; intros l' c' u [-> [Hu ?]]; (split; [done|]); (split; [|done]); [subst; by left|by right].
Qed.

Context (schedule : Z -> list Z) (Hschedule : forall l, 1 <= l <= levels -> schedule l ≡ₚ seqZ 0 (num_cells mlp l)).

(** The number of searches of the remaining levels. *)
Fixpoint searches (n : nat) (l : Z) : Z :=
  match n with O => 0 | S n => num_cells mlp l * num + searches n (l + 1) end.

Lemma customize_levels_ok n : forall l q M k m, 1 <= l -> l + Z.of_nat n = levels + 1 ->
  metric_ok m -> (forall l', 1 <= l' < l -> exact_level m l') -> good num q M (k + searches n l) r -> 0 <= k ->
  exists q' M' m', customize_levels mlp n schedule q graph st allowed m l = Some (q', m') /\ good num q' M' k r /\ metric_ok m' /\
    (forall l', 1 <= l' <= levels -> exact_level m' l') /\ other_rows m m' (fun _ _ u => is_allowed u).
Proof using Hcu Hr Hschedule.
  induction n as [|n IH]; intros l q M k m Hl Hn Hm Hex Gq Hk; cbn [customize_levels].
  { exists q, M, m. split; [done|]. split; [simpl in Gq; by rewrite Z.add_0_r in Gq|]. split; [done|]. split; [|apply other_rows_refl]. intros l' Hl'. apply Hex. lia. }
  cbn [searches] in Gq. pose proof (si_num_cells _ _ _ (cu_input Hcu) l ltac:(lia)) as Hnc.
  pose proof (Hschedule l ltac:(lia)) as Hp.
  assert (zlen (schedule l) = num_cells mlp l) as Hlen by (rewrite Hp; unfold zlen; rewrite length_seqZ; lia).
  assert (0 <= num) as Hnum by (rewrite <- (cu_gp_num Hcu); apply (si_nodes _ _ _ (cu_input Hcu))).
  assert (forall n' l'', 1 <= l'' -> l'' + Z.of_nat n' <= levels + 1 -> 0 <= searches n' l'') as Hsn.
  { induction n' as [|n' IHn]; intros l'' H1' H2'; cbn [searches]; [lia|].
    pose proof (si_num_cells _ _ _ (cu_input Hcu) l'' ltac:(lia)). specialize (IHn (l'' + 1) ltac:(lia) ltac:(lia)). nia. }
  pose proof (Hsn n (l + 1) ltac:(lia) ltac:(lia)) as Hs0.
  destruct (customize_cells_ok l ltac:(lia) (schedule l) q M (k + searches n (l + 1)) m) as (q1 & M1 & m1 & E1 & G1 & Hm1 & Hrows & Ho1).
  { rewrite Hp. apply NoDup_seqZ. }
  { intros c Hc. rewrite Hp in Hc. apply elem_of_seqZ in Hc. lia. }
  { done. }
  { intros Hl1. apply Hex. lia. }
  { rewrite Hlen. by replace (k + searches n (l + 1) + num_cells mlp l * num) with (k + (num_cells mlp l * num + searches n (l + 1))) by lia. }
  { lia. }
  { done. }
  rewrite E1. cbn [mbind option_bind].
  destruct (IH (l + 1) q1 M1 k m1 ltac:(lia) ltac:(lia) Hm1) as (q2 & M2 & m2 & E2 & G2 & Hm2 & Hex2 & Ho2); [|done|done|].
  2:{ exists q2, M2, m2. do 4 (split; [done|]). eapply other_rows_trans; [| |exact Ho1|exact Ho2]; [by intros l' c u (_ & _ & ?)|done]. }
  intros l' Hl'. destruct (decide (l' = l)) as [->|Hne].
  - intros c u Hc Hu Ha. apply Hrows; [|done|done]. rewrite Hp. apply elem_of_seqZ. lia.
  - eapply exact_level_other; [lia|exact Ho1|intros c u [? _]; done|]. apply Hex. lia.
Qed.

Lemma MakeMetric_ok : metric_ok (MakeMetric st).
Proof.
  unfold metric_ok, MakeMetric. destruct (last (cells st)); simpl; [|done]. unfold zlen. by rewrite !length_replicate.
Qed.

Lemma exact_row_read m l c u : 1 <= l <= levels -> 0 <= c < num_cells mlp l -> metric_ok m -> u ∈ ss l c -> exact_row m l c u ->
  exists cell ws, GetCellData st l c = Some cell /\ GetOutWeight st m cell u = Some ws /\ Forall2 (is_distance l u) (ds l c) ws.
Proof using Hcu.
  intros Hl Hc Hm Hu Hex. destruct (cu_cells Hcu l c Hl Hc) as (cell & Hcell & _). pose proof Hu as [i Hi]%elem_zget.
  destruct (row_read m l c cell u i Hm Hl Hc Hcell Hi) as (Hk0 & Hk1 & _ & _ & Hw & _). exists cell. eexists.
  split; [done|]. split; [exact Hw|]. destruct Hm as (M1 & _). pose proof (zlen_nonneg (ds l c)) as Hz.
  pose proof (zslice_len (weights m) _ (zlen (ds l c)) Hk0 Hz ltac:(lia)) as Lw.
  apply Forall2_same_length_lookup. split; [unfold zlen in *; lia|]. intros j v w Hj Hwj.
  rewrite <- zget_nat in Hj, Hwj. destruct (Hex v ltac:(by eapply zget_elem)) as (w' & d & x & He & Hd & _).
  apply (entry_row m l c cell u v i _ Hcell Hi Hj Hk0) in He as (He & _). congruence.
Qed.

(** What the customization of all levels leaves: exact rows, and nothing in the
    rows of excluded nodes. *)
Record customized_metric (m : CellMetric) : Prop := {
  cm_ok : metric_ok m;
  cm_exact l : 1 <= l <= levels -> exact_level m l;
  cm_excluded l c u v w d x : 1 <= l <= levels -> 0 <= c < num_cells mlp l -> ~ is_allowed u -> u ∈ ss l c -> v ∈ ds l c ->
    entry m l c u v w d x -> w = INVALID_EDGE_WEIGHT
}.

Lemma Customize_all_ok q M : good num q M (searches (Z.to_nat levels) 1) r ->
  exists m, Customize_all mlp schedule q graph st allowed (MakeMetric st) = Some m /\ customized_metric m.
Proof using Hcu Hr Hschedule.
  intros Gq. pose proof (si_levels _ _ _ (cu_input Hcu)) as Hlv. unfold Customize_all.
  rewrite (si_num_levels _ _ _ (cu_input Hcu)). replace (levels + 1 - 1) with levels by lia.
  destruct (customize_levels_ok (Z.to_nat levels) 1 q M 0 (MakeMetric st)) as (q' & M' & m & E & _ & Hm & Hex & Ho);
    [lia|lia|apply MakeMetric_ok|lia|by rewrite Z.add_0_l|lia|].
  rewrite E. cbn [mbind option_bind]. exists m. split; [done|]. split; [done|done|].
  intros l c u v w d x Hl Hc Hu [i Hi]%elem_zget [j Hj]%elem_zget He.
  destruct (cu_cells Hcu l c Hl Hc) as (cell & Hcell & Hat & Hvo & Hfit & _). rewrite (cell_size_product _ _ _ _ Hat) in Hfit.
  pose proof (zget_some _ _ _ Hi). pose proof (zget_some _ _ _ Hj).
  assert (0 <= value_offset cell + zlen (ds l c) * i + j < zlen (weights (MakeMetric st))) as Hk by nia.
  destruct MakeMetric_ok as (_ & L2 & L3).
  destruct (zget_is_some _ _ Hk) as [w0 Hw]. rewrite <- L2 in Hk. destruct (zget_is_some _ _ Hk) as [d0 Hd].
  rewrite L2, <- L3 in Hk. destruct (zget_is_some _ _ Hk) as [x0 Hx].
  assert (entry (MakeMetric st) l c u v w0 d0 x0) as He0 by (by exists cell, i, j).
  pose proof (Ho l c u v w0 d0 x0 Hl Hc Hu He0) as He1. destruct (entry_unique _ _ _ _ _ _ _ _ _ _ _ He He1) as [-> _].
  clear -Hw. unfold MakeMetric in Hw. destruct (last (cells st)); [|by apply zget_elem, elem_of_nil in Hw].
  apply zget_elem, elem_of_replicate in Hw as [-> _]. done.
Qed.

(** ** Claims *)

(** C4: customization is exact.  For every order in which the workers take the
    cells of a level, the customization of all levels succeeds, starting from
    an empty metric, and every row of every matrix that belongs to a source
    node that is not excluded holds the distances inside the cell: the weight
    for a destination is the least weight of a walk that stays inside the cell
    and avoids excluded nodes, and INVALID_EDGE_WEIGHT when there is none. *)
Theorem customization_exact q M :
  good num q M (searches (Z.to_nat levels) 1) r ->
  exists m, Customize_all mlp schedule q graph st allowed (MakeMetric st) = Some m /\
    forall l c u, 1 <= l <= levels -> 0 <= c < num_cells mlp l -> u ∈ ss l c -> is_allowed u ->
      exists cell ws, GetCellData st l c = Some cell /\ GetOutWeight st m cell u = Some ws /\
        Forall2 (fun v w =>
          (w = INVALID_EDGE_WEIGHT /\ forall p, ~ walk (inner l) u v p) \/
          (w <> INVALID_EDGE_WEIGHT /\ walk (inner l) u v w /\ forall p, walk (inner l) u v p -> w <= p)) (ds l c) ws.
Proof using Hcu Hr Hschedule.
  intros Gq. destruct (Customize_all_ok q M Gq) as (m & E & [Hm Hex _]). exists m. split; [done|]. intros l c u Hl Hc Hu Ha.
  apply (exact_row_read m l c u Hl Hc Hm Hu). by apply Hex.
Qed.
End heaps.
End customization.

(** ** From the constructors *)

(** Edges over a partition: stored at both ends, with positive weights that
    cannot add up to the largest one. *)
Record customization_input (mlp : MultiLevelPartition) (levels nodes maxw : Z) (edges : list (InputEdge EdgeData))
    (allowed : list bool) : Prop := {
  ci_graph : mlg_input mlp levels nodes edges;
  ci_cells l : 1 <= l <= levels -> exists m, GetNumberOfCells mlp l = Some m /\ 0 <= m /\
    forall v, 0 <= v < nodes -> exists c, GetCell mlp l v = Some c /\ 0 <= c < m;
  ci_total : level_start mlp (Z.to_nat levels) < 2 ^ 32;
  ci_allowed : zlen allowed = nodes;
  ci_maxw : 0 <= maxw;
  ci_weights e : e ∈ edges -> forward (ie_data e) = true -> 1 <= weight (ie_data e) <= maxw;
  ci_symmetric e : e ∈ edges -> forward (ie_data e) = true ->
    exists e', e' ∈ edges /\ ie_source e' = ie_target e /\ ie_target e' = ie_source e /\ backward (ie_data e') = true;
  ci_bound : 2 * (nodes * maxw) < INT32_MAX;
  ci_pairs : nodes * nodes < 2 ^ 32
}.

Section constructed.
Context (parallel_sort : sort_function) `{!ParallelSort parallel_sort}.
Context (mlp : MultiLevelPartition) (levels nodes maxw : Z) (edges : list (InputEdge EdgeData)) (allowed : list bool).
Context (Hci : customization_input mlp levels nodes maxw edges allowed).

Lemma sadj_outside (g : StaticGraph EdgeData) u : sg_wf g -> ~ (0 <= u < number_of_nodes g) -> sadj g u = [].
Proof.
  intros Hwf Hu. unfold sadj. pose proof (sw_nodes _ Hwf). destruct (decide (u < 0)).
  - by rewrite (zget_none (node_array g) u) by lia.
  - rewrite (zget_none (node_array g) (u + 1)) by lia. by destruct (node_array g !z u).
Qed.

Lemma new_number_of_nodes g : MultiLevelGraph_new parallel_sort mlp nodes edges = Some g -> number_of_nodes (base g) = nodes.
Proof. unfold MultiLevelGraph_new. intros E. inv_opt. done. Qed.

Section built.
Context (g : MultiLevelGraph EdgeData) (Eg : MultiLevelGraph_new parallel_sort mlp nodes edges = Some g).
Context (Hwf : sg_wf (base g)).
Context (Hadj : forall u, 0 <= u < nodes -> sadj (base g) u ≡ₚ edge_of_input <$> filter (fun e => ie_source e = u) edges).

Lemma sadj_edge u x : x ∈ sadj (base g) u ->
  0 <= u < nodes /\ exists e, e ∈ edges /\ ie_source e = u /\ ie_target e = target x /\ ie_data e = data x.
Proof using Hwf Hadj Eg.
  intros Hx. pose proof (new_number_of_nodes g Eg) as Hn. destruct (decide (0 <= u < nodes)) as [Hu|Hu].
  - split; [done|]. rewrite (Hadj u Hu) in Hx. apply list_elem_of_fmap in Hx as (e & -> & [Hs He]%list_elem_of_filter).
    by exists e.
  - rewrite sadj_outside in Hx; [by apply elem_of_nil in Hx|done|by rewrite Hn].
Qed.

Lemma edge_sadj e : e ∈ edges -> edge_of_input e ∈ sadj (base g) (ie_source e).
Proof using Hci Hadj.
  intros He. destruct (mi_ends _ _ _ _ (ci_graph _ _ _ _ _ _ Hci) e He) as [Hs _]. rewrite (Hadj _ Hs).
  apply list_elem_of_fmap_2, list_elem_of_filter. done.
Qed.

Lemma sadj_targets u x : x ∈ sadj (base g) u -> 0 <= target x < nodes.
Proof using Hci Hwf Hadj Eg.
  intros Hx. destruct (sadj_edge u x Hx) as (_ & e & He & _ & <- & _). by apply (mi_ends _ _ _ _ (ci_graph _ _ _ _ _ _ Hci)).
Qed.

End built.

(** Another graph with the same edges, on which the cells are laid out. *)
Section holder.
Context {G : Type} `{!Graph G EdgeData} `{!GraphLaws G EdgeData} (gp : G).

Record holds_edges : Prop := {
  he_wf : graph_wf gp;
  he_nodes : graph_nodes gp = nodes;
  he_adjacency u : 0 <= u < nodes -> adjacency gp u ≡ₚ edge_of_input <$> filter (fun e => ie_source e = u) edges
}.

Context (Hgp : holds_edges).

Lemma holder_edge u x : 0 <= u < nodes -> x ∈ adjacency gp u -> exists e, e ∈ edges /\ ie_source e = u /\ x = edge_of_input e.
Proof using Hgp.
  intros Hu Hx. rewrite (he_adjacency Hgp u Hu) in Hx. apply list_elem_of_fmap in Hx as (e & -> & [Hs He]%list_elem_of_filter). by exists e.
Qed.

Lemma holder_storage_input : storage_input mlp gp levels.
Proof using Hci Hgp.
  pose proof (ci_graph _ _ _ _ _ _ Hci) as Hg. pose proof (mi_levels _ _ _ _ Hg). pose proof (mi_index _ _ _ _ Hg).
  pose proof (mi_nonempty _ _ _ _ Hg). pose proof (mlp_levels _ _ (mi_partition _ _ _ _ Hg)) as Hlv.
  pose proof (he_nodes Hgp) as Hgn. split; rewrite ?Hgn.
  - done.
  - unfold MultiLevelPartition.GetNumberOfLevels. rewrite (mi_num_level _ _ _ _ Hg). apply wrap_small. split; lia.
  - intros l Hl. destruct (ci_cells _ _ _ _ _ _ Hci l Hl) as (m & E & _ & Hc). by exists m.
  - intros l Hl. destruct (ci_cells _ _ _ _ _ _ Hci l Hl) as (m & E & Hm & _). unfold num_cells. by rewrite E.
  - exact (he_wf Hgp).
  - intros v x Hv Hx. destruct (holder_edge v x Hv Hx) as (e & He & _ & ->). by apply (mi_ends _ _ _ _ Hg).
  - nia.
  - exact (ci_total _ _ _ _ _ _ Hci).
Qed.

Lemma holder_products l c : zlen (source_nodes forward mlp gp l c) * zlen (destination_nodes forward backward mlp gp l c) < 2 ^ 32.
Proof using Hci Hgp.
  pose proof (ci_pairs _ _ _ _ _ _ Hci). pose proof (mi_nonempty _ _ _ _ (ci_graph _ _ _ _ _ _ Hci)).
  unfold source_nodes, destination_nodes, zlen.
  pose proof (length_filter (fun v => source_node forward mlp gp l v = true /\ cell_of mlp l v = c) (seqZ 0 (graph_nodes gp))) as L1.
  pose proof (length_filter (fun v => destination_node forward backward mlp gp l v = true /\ cell_of mlp l v = c) (seqZ 0 (graph_nodes gp))) as L2.
  rewrite length_seqZ, (he_nodes Hgp) in L1, L2. rewrite (he_nodes Hgp). nia.
Qed.
End holder.

(** The internal edges of a node are the edges that stay in its cell. *)
Lemma internal_edges (g : MultiLevelGraph EdgeData) l u b mid e :
  sg_wf (base g) -> 1 <= l -> BeginEdges (base g) u = Some b -> EndEdges (base g) u = Some e -> 0 <= u < number_of_nodes (base g) ->
  b <= mid <= e ->
  (forall i x, b <= i < e -> edge_array (base g) !z i = Some x -> (mid <= i <-> leaves mlp l u (target x))) ->
  let xs := zslice (edge_array (base g)) b (mid - b) in
  Forall2 (fun e x => GetTarget (base g) e = Some (target x) /\ GetEdgeData (base g) e = Some (data x)) (irange b mid) xs /\
  forall x, x ∈ xs <-> x ∈ sadj (base g) u /\ GetCell mlp l u = GetCell mlp l (target x).
Proof.
  intros Hwf Hl Hb He Hu Hmid Hiff xs.
  destruct (adjacent_bounds (base g) u Hwf Hu) as (b' & e' & Hb' & He' & Hbe & Hez & Hadj).
  assert (b' = b) as -> by congruence. assert (e' = e) as -> by congruence. split.
  - eapply Forall2_impl; [apply range_slice; lia|]. intros i x Hx. unfold GetTarget, GetEdgeData. by rewrite Hx.
  - intros x. rewrite Hadj. split.
    + intros (i & Hi & Hx)%zslice_elem; [|lia]. split.
      * apply (zget_elem _ (i - b)). rewrite zslice_get by lia. by replace (b + (i - b)) with i by lia.
      * apply dec_stable. intros Hne. pose proof (Hiff i x ltac:(lia) Hx) as Hi'.
        assert (mid <= i) by (apply Hi'; by right). lia.
    + intros [(i & Hi & Hx)%zslice_elem Hc]; [|lia]. pose proof (Hiff i x ltac:(lia) Hx) as Hi'.
      assert (i < mid) as Him.
      { destruct (decide (i < mid)); [done|]. destruct (proj1 Hi' ltac:(lia)) as [?|?]; [lia|done]. }
      apply (zget_elem xs (i - b)). unfold xs. rewrite zslice_get by lia. by replace (b + (i - b)) with i by lia.
Qed.

(** The graph and the storage that the constructors build can be customized. *)
Lemma constructed_customizable_on {G} `{!Graph G EdgeData} `{!GraphLaws G EdgeData} (gp : G) : holds_edges gp ->
  exists g st, MultiLevelGraph_new parallel_sort mlp nodes edges = Some g /\
    CellStorage_new forward backward parallel_sort mlp gp = Some st /\
    customizable gp g mlp st allowed levels nodes (nodes * maxw).
Proof using Hci ParallelSort0.
  intros Hgp.
  pose proof (ci_graph _ _ _ _ _ _ Hci) as Hg. pose proof (mi_nonempty _ _ _ _ Hg) as Hne.
  destruct (border_ranges parallel_sort mlp levels nodes edges Hg) as (g & Eg & Hwf & Hrange). exists g.
  assert (forall u, 0 <= u < nodes -> sadj (base g) u ≡ₚ edge_of_input <$> filter (fun e => ie_source e = u) edges) as Hadj
    by (intros u Hu; by apply Hrange).
  pose proof (new_number_of_nodes g Eg) as Hn. pose proof (holder_storage_input gp Hgp) as Hsi.
  destruct (storage_cells forward backward mlp gp levels Hsi parallel_sort (fun l c _ _ => holder_products gp Hgp l c)) as (st & Est & Hcells).
  exists st. split; [done|]. split; [done|].
  pose proof (ci_maxw _ _ _ _ _ _ Hci) as Hmw.
  assert (forall u x, x ∈ sadj (base g) u -> forward (data x) = true -> 1 <= weight (data x) <= maxw) as Hw.
  { intros u x Hx Hf. destruct (sadj_edge g Eg Hwf Hadj u x Hx) as (_ & e & He & _ & _ & Hd). rewrite <- Hd in *.
    by apply (ci_weights _ _ _ _ _ _ Hci). }
  split.
  - exact Hn.
  - exact (he_nodes gp Hgp).
  - exact Hsi.
  - exact (mi_nested _ _ _ _ Hg).
  - exact (mi_nodes _ _ _ _ Hg).
  - exact (ci_allowed _ _ _ _ _ _ Hci).
  - intros l u Hl Hu. destruct (Hrange u Hu) as [_ Hr]. destruct (Hr l ltac:(lia)) as (b & mid & e & Hb & _ & He & Hbe & Hint & _ & Hiff).
    destruct (internal_edges g l u b mid e Hwf ltac:(lia) Hb He ltac:(lia) Hbe Hiff) as [HF Hx]. by eexists _, _.
  - intros u x Hx. exact (sadj_targets g Eg Hwf Hadj u x Hx).
  - intros u x Hx Hf. pose proof (Hw u x Hx Hf). nia.
  - intros u x Hu Hx Hf. destruct (sadj_edge g Eg Hwf Hadj u x Hx) as (_ & e & He & Hs & Ht & Hd). rewrite <- Hd in Hf.
    destruct (ci_symmetric _ _ _ _ _ _ Hci e He Hf) as (e' & He' & Hs' & Ht' & Hb'). exists (edge_of_input e').
    pose proof (edge_sadj g Hadj e' He') as Hin. rewrite Hs', Ht in Hin. split; [done|]. split; [simpl; congruence|done].
  - intros u x Hx. destruct (sadj_edge g Eg Hwf Hadj u x Hx) as (Hu & _). exists x. split; [|done].
    rewrite (he_adjacency gp Hgp u Hu). by rewrite <- (Hadj u Hu).
  - intros l c Hl Hc. exact (Hcells l c Hl Hc).
  - exact (ci_bound _ _ _ _ _ _ Hci).
  - intros l u v p Hl Hwk. apply (light_walk (inner g mlp allowed l) nodes maxw) with (p := p); [| |lia|done|done].
    + intros a b w (Ha & Hb & _). unfold is_allowed in Ha, Hb. apply zget_some in Ha, Hb.
      rewrite (ci_allowed _ _ _ _ _ _ Hci) in Ha, Hb. done.
    + intros a b w (_ & _ & _ & x & Hx & _ & Hf & <-). pose proof (Hw a x Hx Hf). lia.
Qed.

Lemma constructed_customizable :
  exists g st, MultiLevelGraph_new parallel_sort mlp nodes edges = Some g /\
    CellStorage_new forward backward parallel_sort mlp (base g) = Some st /\
    customizable (base g) g mlp st allowed levels nodes (nodes * maxw).
Proof using Hci ParallelSort0.
  destruct (border_ranges parallel_sort mlp levels nodes edges (ci_graph _ _ _ _ _ _ Hci)) as (g & Eg & Hwf & Hrange).
  destruct (constructed_customizable_on (base g)) as (g' & st & Eg' & Est & Hcu).
  - split; [exact Hwf|exact (new_number_of_nodes g Eg)|]. intros u Hu. exact (proj1 (Hrange u Hu)).
  - exists g, st. assert (g' = g) as -> by congruence. done.
Qed.
End constructed.

(** ** Witness *)

(** Roads over the partition of the comment in the source; every road is stored
    at both ends with the number of its turn, [2 -> 4] and [2 -> 0] are one way. *)
Definition road_data (w : Z) (fwd bwd : bool) : EdgeData := mkEdgeData w w (SpecFloat.S754_zero false) w fwd bwd.

Definition road_edges : list (InputEdge EdgeData) :=
  [mkInputEdge 0 1 (road_data 1 true true); mkInputEdge 1 0 (road_data 1 true true);
   mkInputEdge 2 4 (road_data 2 true false); mkInputEdge 4 2 (road_data 2 false true);
   mkInputEdge 4 3 (road_data 3 true true); mkInputEdge 3 4 (road_data 3 true true);
   mkInputEdge 3 5 (road_data 2 true true); mkInputEdge 5 3 (road_data 2 true true);
   mkInputEdge 2 0 (road_data 5 true false); mkInputEdge 0 2 (road_data 5 false true)].

Lemma road_input mlp : MultiLevelPartition_new example_partitions [4; 3] = Some (Some mlp) ->
  customization_input mlp 2 6 5 road_edges (replicate 6 true).
Proof.
  intros E. pose proof (example_storage_input mlp E) as Hsi. destruct example_mlp as (mlp' & E' & Hok & Hn & Hlen).
  assert (mlp' = mlp) as -> by congruence.
  assert (num_level (level_data mlp) = 3) as NL by (clear -E; vm_compute in E; by injection E as <-). clear E E'.
  assert (forall e, e ∈ road_edges -> e ∈ road_edges /\ 0 <= ie_source e < 6 /\ 0 <= ie_target e < 6 /\ 1 <= weight (ie_data e) <= 5) as Hall.
  { intros e He. split; [done|]. revert e He. apply Forall_forall. repeat constructor; simpl; lia. }
  split.
  - split; [done|done|exact NL|lia|lia|done| | |by vm_compute|lia].
    + intros e He. apply Hall in He. lia.
    + intros n. etransitivity; [apply filter_length|]. by vm_compute.
  - intros l Hl. destruct (si_cells _ _ _ Hsi l Hl) as (m & Hm & Hc). exists m. split; [done|]. split; [|exact Hc].
    pose proof (si_num_cells _ _ _ Hsi l Hl) as Hnc. unfold num_cells in Hnc. by rewrite Hm in Hnc.
  - exact (si_total _ _ _ Hsi).
  - done.
  - lia.
  - intros e He _. apply Hall in He. lia.
  - assert (Forall (fun e => existsb (fun e' => (ie_source e' =? ie_target e) && (ie_target e' =? ie_source e) &&
      (negb (forward (ie_data e)) || backward (ie_data e'))) road_edges = true) road_edges) as Hrev by (repeat constructor).
    intros e He Hf. rewrite Forall_forall in Hrev. pose proof (Hrev e He) as Hex. rewrite Hf in Hex.
    apply existsb_exists in Hex as (e' & He' & Hb). exists e'. apply list_elem_of_In in He'.
    apply andb_true_iff in Hb as [[Hb1 Hb2]%andb_true_iff Hb3]. split_and!; try done; lia.
  - by vm_compute.
  - lia.
Qed.

Lemma fresh_queue {Data} c r : good 6 (QueryHeap_new (ArrayStorage_new 6) : QueryHeap ArrayStorage RefHeap Z Data) ∅ c r.
Proof.
  split; [apply qh_repr_nil; simpl; repeat constructor; done|intros n Hn; simpl; unfold zlen; simpl; lia|done].
Qed.

Lemma customization_exact_witness :
  exists mlp g st m cell ws, MultiLevelPartition_new example_partitions [4; 3] = Some (Some mlp) /\
    MultiLevelGraph_new sequential_sort mlp 6 road_edges = Some g /\
    Customize_all mlp (fun l => seqZ 0 (num_cells mlp l))
      (QueryHeap_new (ArrayStorage_new 6) : QueryHeap ArrayStorage RefHeap Z HeapData) g st (replicate 6 true) (MakeMetric st) = Some m /\
    GetCellData st 1 0 = Some cell /\ GetOutWeight st m cell 2 = Some ws /\
    Forall2 (is_distance g mlp (replicate 6 true) 1 2) [4] ws.
Proof.
  destruct example_mlp as (mlp & E & _).
  destruct (constructed_customizable sequential_sort mlp 2 6 5 road_edges (replicate 6 true) (road_input mlp E)) as (g & st & Eg & Est & Hcu).
  destruct (customization_exact (base g) g mlp st (replicate 6 true) 2 6 (6 * 5) Hcu (St := ArrayStorage) (H := RefHeap)
    10000 ltac:(clear; lia) (fun l => seqZ 0 (num_cells mlp l)) (fun l _ => reflexivity _) (QueryHeap_new (ArrayStorage_new 6)) ∅
    (fresh_queue _ _)) as (m & Em & Hm).
  assert (source_nodes forward mlp (base g) 1 0 = [2] /\ destination_nodes forward backward mlp (base g) 1 0 = [4] /\ num_cells mlp 1 = 4)
    as (Hs & Hd & Hnc).
  { clear -E Eg. vm_compute in E. injection E as <-. vm_compute in Eg. injection Eg as <-. by vm_compute. }
  destruct (Hm 1 0 2 ltac:(clear; lia) ltac:(rewrite Hnc; clear; lia) ltac:(rewrite Hs; left) eq_refl) as (cell & ws & Hcell & Hws & HF).
  exists mlp, g, st, m, cell, ws. split; [exact E|]. split; [exact Eg|]. split; [exact Em|]. split; [exact Hcell|]. split; [exact Hws|].
  rewrite Hd in HF. exact HF.
Defined.
