(* ===== verification/BisectionGraph.v ===== *)
(** * The graph of the bisection

    Model of include/partitioner/partition_graph.hpp, bisection_graph.hpp and
    bisection_graph_view.hpp / .cpp: an array of nodes, each with a range of the
    array of edges, and views of a contiguous range of the nodes.  The target of
    an edge counts from the first node of the view it belongs to. *)
From stdpp Require Import sorting.
From S2P Require Import Prelude.

Record Coordinate : Type := mkCoordinate { lon : Z; lat : Z }.

(** [NodeEntryWrapper<BisectionNode>] *)
Record BisectionNode : Type := mkBisectionNode {
  coordinate : Coordinate; original_id : Z; edges_begin : Z; edges_end : Z }.

(** An edge is its target. *)
Record BisectionGraph : Type := mkBisectionGraph { nodes : list BisectionNode; edges : list Z }.

Record BisectionInputEdge : Type := mkBisectionInputEdge { be_source : Z; be_target : Z }.

(** [RemappableGraph::Edges]; [None] when the range is not one of the array. *)
Definition Edges (g : BisectionGraph) (node : BisectionNode) : option (list Z) :=
  if (0 <=? edges_begin node) && (edges_begin node <=? edges_end node) && (edges_end node <=? zlen (edges g))
  then Some (zslice (edges g) (edges_begin node) (edges_end node - edges_begin node))
  else None.

(** ** Construction *)

Fixpoint advance_edge_itr (node_id : Z) (itr : list BisectionInputEdge) : list Z * list BisectionInputEdge :=
  match itr with
  | e :: itr' =>
      if be_source e =? node_id then
        let '(out, rest) := advance_edge_itr node_id itr' in (be_target e :: out, rest)
      else ([], itr)
  | [] => ([], [])
  end.

(** [edge] is the distance of [itr] from the first edge. *)
Fixpoint make_bisection_nodes (coordinates : list Coordinate) (node_id edge : Z) (itr : list BisectionInputEdge)
  : list BisectionNode * list Z :=
  match coordinates with
  | [] => ([], [])
  | c :: coordinates =>
      let '(out, rest) := advance_edge_itr node_id itr in
      let '(ns, es) := make_bisection_nodes coordinates (node_id + 1) (edge + zlen out) rest in
      (mkBisectionNode c node_id edge (edge + zlen out) :: ns, out ++ es)
  end.

Definition makeBisectionGraph (coordinates : list Coordinate) (input : list BisectionInputEdge) : BisectionGraph :=
  let '(ns, es) := make_bisection_nodes coordinates 0 0 input in mkBisectionGraph ns es.

(** ** Views *)

Record BisectionGraphView : Type := mkView { bisection_graph : BisectionGraph; view_begin : Z; view_end : Z }.

Definition BisectionGraphView_new (g : BisectionGraph) : BisectionGraphView := mkView g 0 (zlen (nodes g)).

Definition NumberOfNodes (view : BisectionGraphView) : Z := view_end view - view_begin view.

Definition Node (view : BisectionGraphView) (nid : Z) : option BisectionNode :=
  nodes (bisection_graph view) !z (view_begin view + nid).

Definition view_Edges (view : BisectionGraphView) (nid : Z) : option (list Z) :=
  node ← Node view nid; Edges (bisection_graph view) node.

(** ** The graph of a view *)

(** The targets of the edges of a node. *)
Definition out (view : BisectionGraphView) (u : Z) : list Z := default [] (view_Edges view u).

(** What the partitioner maintains of a view: the ranges of the nodes are
    ranges of the array, edges stay inside the view, and every edge has its
    reverse. *)
Record view_ok (view : BisectionGraphView) : Prop := {
  vo_nodes : 0 <= NumberOfNodes view < UINT32_MAX;
  vo_edges : forall u, 0 <= u < NumberOfNodes view -> view_Edges view u = Some (out view u);
  vo_target : forall u v, 0 <= u < NumberOfNodes view -> v ∈ out view u -> 0 <= v < NumberOfNodes view;
  vo_sym : forall u v, 0 <= u < NumberOfNodes view -> v ∈ out view u -> u ∈ out view v
}.

(** The constructor gives every node the edges of the input, in their order,
    when these are sorted by their source. *)
Lemma advance_edge_itr_split node_id itr out rest :
  advance_edge_itr node_id itr = (out, rest) ->
  exists run, itr = run ++ rest /\ out = be_target <$> run /\ (forall e, e ∈ run -> be_source e = node_id) /\
    (forall e rest', rest = e :: rest' -> be_source e <> node_id).
Proof.
  revert out. induction itr as [|e itr IH]; intros out; simpl.
  - intros [= <- <-]. exists []. split_and!; try done. by intros ? ?%not_elem_of_nil.
  - destruct (Z.eqb_spec (be_source e) node_id) as [He|He].
    + destruct (advance_edge_itr node_id itr) as [out' rest'] eqn:E. intros [= <- <-].
      destruct (IH _ eq_refl) as (run & -> & -> & Hr & Hn). exists (e :: run). split_and!; try done.
      intros x [->|Hx]%elem_of_cons; [done|by apply Hr].
    + intros [= <- <-]. exists []. split_and!; try done; [by intros ? ?%not_elem_of_nil|by intros ? ? [= <- <-]].
Qed.

Lemma zslice_app_first {A} (l k : list A) : zslice (l ++ k) 0 (zlen l) = l.
Proof. unfold zslice, zlen. rewrite drop_0, Nat2Z.id, take_app_length. done. Qed.

Lemma zslice_app_rest {A} (l k : list A) a m : zlen l <= a -> zslice (l ++ k) a m = zslice k (a - zlen l) m.
Proof.
  intros Ha. unfold zslice, zlen in *. rewrite drop_app_ge by lia. do 2 f_equal. lia.
Qed.

Lemma make_bisection_nodes_ok coordinates id edge itr :
  StronglySorted (fun a b => be_source a <= be_source b) itr ->
  (forall e, e ∈ itr -> id <= be_source e < id + zlen coordinates) ->
  exists ns, make_bisection_nodes coordinates id edge itr = (ns, be_target <$> itr) /\ zlen ns = zlen coordinates /\
    forall k, 0 <= k < zlen coordinates -> exists node, ns !z k = Some node /\ coordinates !z k = Some (coordinate node) /\
      original_id node = id + k /\
      edge <= edges_begin node <= edges_end node /\ edges_end node <= edge + zlen itr /\
      zslice (be_target <$> itr) (edges_begin node - edge) (edges_end node - edges_begin node) =
        be_target <$> filter (fun e => be_source e = id + k) itr.
Proof.
  revert id edge itr. induction coordinates as [|c coordinates IH]; intros id edge itr Hsort Hrange.
  { exists []. destruct itr as [|e itr]; [split_and!; [done..|intros k Hk; unfold zlen in Hk; simpl in Hk; lia]|].
    specialize (Hrange e ltac:(left)). unfold zlen in Hrange. simpl in Hrange. lia. }
  simpl. destruct (advance_edge_itr id itr) as [out rest] eqn:E.
  apply advance_edge_itr_split in E as (run & -> & -> & Hrun & Hhead). rewrite zlen_cons in *.
  apply StronglySorted_app in Hsort as (_ & _ & Hsort).
  assert (forall e, e ∈ rest -> id + 1 <= be_source e < id + 1 + zlen coordinates) as Hrest.
  { intros e He. assert (id <> be_source e) as Hne; [|specialize (Hrange e ltac:(set_solver)); lia].
    destruct rest as [|e' rest]; [set_solver|]. specialize (Hhead e' rest eq_refl).
    specialize (Hrange e' ltac:(set_solver)). apply StronglySorted_inv in Hsort as [_ Hsort]. rewrite Forall_forall in Hsort.
    apply elem_of_cons in He as [->|He]; [lia|]. specialize (Hsort e He). lia. }
  destruct (IH (id + 1) (edge + zlen (be_target <$> run)) rest Hsort Hrest) as (ns & -> & Hlen & Hns).
  assert (zlen (be_target <$> run) = zlen run) as Elen by (unfold zlen; by rewrite length_fmap). rewrite Elen in *.
  eexists. split; [by rewrite fmap_app|]. rewrite zlen_cons, Hlen. split; [done|]. intros k Hk. rewrite zlen_app. pose proof (zlen_nonneg run).
  pose proof (zlen_nonneg rest). rewrite filter_app, !fmap_app. destruct (decide (k = 0)) as [->|Hk0].
  - eexists. rewrite !zget_cons_0. split_and!; try done; simpl; try lia. rewrite Z.add_0_r, Z.sub_diag.
    replace (edge + zlen run - edge) with (zlen (be_target <$> run)) by lia. rewrite zslice_app_first.
    rewrite filter_all by done. rewrite filter_none; [by rewrite fmap_nil, app_nil_r|]. intros e He%Hrest. lia.
  - destruct (Hns (k - 1)) as (node & Hnode & Hc & Hid & Hb & He & Hs); [lia|]. exists node.
    rewrite !zget_cons_S by lia. split_and!; try done; try lia.
    rewrite zslice_app_rest by lia. rewrite Elen. replace (edges_begin node - edge - zlen run) with (edges_begin node - (edge + zlen run)) by lia.
    rewrite Hs. replace (id + 1 + (k - 1)) with (id + k) by lia. rewrite (filter_none _ run); [done|]. intros e ->%Hrun. lia.
Qed.

(** Every node of the new graph has its edges of the input, in their order. *)
Lemma makeBisectionGraph_edges coordinates input u :
  StronglySorted (fun a b => be_source a <= be_source b) input ->
  (forall e, e ∈ input -> 0 <= be_source e < zlen coordinates) -> 0 <= u < zlen coordinates ->
  NumberOfNodes (BisectionGraphView_new (makeBisectionGraph coordinates input)) = zlen coordinates /\
  view_Edges (BisectionGraphView_new (makeBisectionGraph coordinates input)) u =
    Some (be_target <$> filter (fun e => be_source e = u) input).
Proof.
  intros Hsort Hrange Hu. destruct (make_bisection_nodes_ok coordinates 0 0 input Hsort Hrange) as (ns & E & Hlen & Hns).
  unfold makeBisectionGraph, BisectionGraphView_new, NumberOfNodes, view_Edges, Node. rewrite E. simpl. split; [lia|].
  rewrite ?Z.add_0_l. destruct (Hns u Hu) as (node & -> & _ & _ & Hb & He & Hs). cbn [mbind option_bind]. unfold Edges. simpl.
  assert (zlen (be_target <$> input) = zlen input) as -> by (unfold zlen; by rewrite length_fmap).
  do 3 (rewrite (proj2 (Z.leb_le _ _)) by lia). simpl. rewrite Z.sub_0_r in Hs. by rewrite Hs.
Qed.

Lemma makeBisectionGraph_view coordinates input :
  StronglySorted (fun a b => be_source a <= be_source b) input -> zlen coordinates < UINT32_MAX ->
  (forall e, e ∈ input -> 0 <= be_source e < zlen coordinates /\ 0 <= be_target e < zlen coordinates) ->
  (forall e, e ∈ input -> mkBisectionInputEdge (be_target e) (be_source e) ∈ input) ->
  view_ok (BisectionGraphView_new (makeBisectionGraph coordinates input)).
Proof.
  intros Hsort Hlen Hrange Hsym. pose proof (zlen_nonneg coordinates).
  assert (forall u, 0 <= u < zlen coordinates ->
    NumberOfNodes (BisectionGraphView_new (makeBisectionGraph coordinates input)) = zlen coordinates /\
    view_Edges (BisectionGraphView_new (makeBisectionGraph coordinates input)) u =
    Some (be_target <$> filter (fun e => be_source e = u) input)) as Hv.
  { intros u Hu. apply makeBisectionGraph_edges; try done. intros e He. by apply Hrange. }
  assert (NumberOfNodes (BisectionGraphView_new (makeBisectionGraph coordinates input)) = zlen coordinates) as Hn.
  { destruct (make_bisection_nodes_ok coordinates 0 0 input Hsort (fun e He => proj1 (Hrange e He))) as (ns & E & Hl & _).
    unfold makeBisectionGraph, BisectionGraphView_new, NumberOfNodes. rewrite E. simpl. lia. }
  assert (forall u v, 0 <= u < zlen coordinates ->
    v ∈ out (BisectionGraphView_new (makeBisectionGraph coordinates input)) u <-> mkBisectionInputEdge u v ∈ input) as Hout.
  { intros u v Hu. unfold out. rewrite (proj2 (Hv u Hu)). simpl. rewrite list_elem_of_fmap. split.
    - intros ([s t] & -> & [Hs He]%list_elem_of_filter). simpl in *. by subst.
    - intros He. eexists. split; [|apply list_elem_of_filter; split; [|exact He]]; done. }
  split; rewrite Hn.
  - lia.
  - intros u Hu. unfold out. by rewrite (proj2 (Hv u Hu)).
  - intros u v Hu He%Hout; [|done]. apply (Hrange _ He).
  - intros u v Hu He%Hout; [|done]. apply Hout; [apply (Hrange _ He)|]. apply (Hsym _ He).
Qed.
