(* ===== verification/DinicMaxFlow.v ===== *)
(** * Minimum cuts

    Model of src/partitioner/dinic_max_flow.cpp: the smallest set of edges that
    separates a set of source nodes from a set of sink nodes in an undirected
    graph, by Dinic's algorithm.  A breadth-first search from the sources over
    the edges without flow gives every node a level; depth-first searches from
    the sinks down the levels find paths, along which the flow is augmented;
    when no sink has a level, the nodes with a level are the source side.

    An unordered set is the list of its elements in the order of its iteration;
    the theorems hold for every such order.

    The main theorem: the cut is one, it has as many edges as the result says,
    and no cut has fewer. *)
From S2P Require Import Prelude BisectionGraph.

Definition INVALID_LEVEL : Z := UINT32_MAX.

(** [flow[u]] are the nodes [v] such that flow is sent from [u] to [v]. *)
Abbreviation FlowEdges := (list (gset Z)).
Abbreviation LevelGraph := (list Z).
Abbreviation SourceSinkNodes := (list Z).

Record MinCut : Type := mkMinCut { num_nodes_source : Z; num_edges : Z; flags : list bool }.

Definition contains (s : SourceSinkNodes) (u : Z) : bool := bool_decide (u ∈ s).

(** [makeHasNeighborNotInCheck] *)
Definition HasNeighborNotIn (s : SourceSinkNodes) (view : BisectionGraphView) (nid : Z) : option bool :=
  es ← view_Edges view nid;
  Some (existsb (fun target => negb (contains s target)) es).

Fixpoint copy_if (f : Z -> option bool) (l : list Z) : option (list Z) :=
  match l with
  | [] => Some []
  | x :: l => b ← f x; r ← copy_if f l; Some (if b : bool then x :: r else r)
  end.

Definition has_flow (flow : FlowEdges) (from to : Z) : option bool :=
  s ← flow !z from; Some (bool_decide (to ∈ s)).

(** ** Levels *)

Fixpoint mark_sources (source_nodes : SourceSinkNodes) (targets : list Z) (levels : LevelGraph) : option LevelGraph :=
  match targets with
  | [] => Some levels
  | target :: targets =>
      levels' ← (if contains source_nodes target then zset target 0 levels else Some levels);
      mark_sources source_nodes targets levels'
  end.

Fixpoint init_levels (view : BisectionGraphView) (source_nodes : SourceSinkNodes) (border_source_nodes : list Z)
    (levels : LevelGraph) (level_queue : list Z) : option (LevelGraph * list Z) :=
  match border_source_nodes with
  | [] => Some (levels, level_queue)
  | node_id :: border_source_nodes =>
      levels1 ← zset node_id 0 levels;
      es ← view_Edges view node_id;
      levels2 ← mark_sources source_nodes es levels1;
      init_levels view source_nodes border_source_nodes levels2 (level_queue ++ [node_id])
  end.

Fixpoint relax_targets (flow : FlowEdges) (node_id level : Z) (targets : list Z) (levels : LevelGraph)
    (level_queue : list Z) : option (LevelGraph * list Z) :=
  match targets with
  | [] => Some (levels, level_queue)
  | target :: targets =>
      f ← has_flow flow node_id target;
      if f : bool then relax_targets flow node_id level targets levels level_queue
      else
        l ← levels !z target;
        if level <? l then
          levels' ← zset target level levels;
          relax_targets flow node_id level targets levels' (level_queue ++ [target])
        else relax_targets flow node_id level targets levels level_queue
  end.

Definition relax_node (view : BisectionGraphView) (sink_nodes : SourceSinkNodes) (flow : FlowEdges) (node_id : Z)
    (levels : LevelGraph) (level_queue : list Z) : option (LevelGraph * list Z) :=
  if contains sink_nodes node_id then Some (levels, level_queue)
  else
    l ← levels !z node_id;
    es ← view_Edges view node_id;
    relax_targets flow node_id (wrap 32 (l + 1)) es levels level_queue.

Fixpoint relax_queue (fuel : nat) (view : BisectionGraphView) (sink_nodes : SourceSinkNodes) (flow : FlowEdges)
    (levels : LevelGraph) (level_queue : list Z) : option LevelGraph :=
  match level_queue with
  | [] => Some levels
  | front :: _ =>
      match fuel with
      | O => None
      | S fuel =>
          '(levels', level_queue') ← relax_node view sink_nodes flow front levels level_queue;
          relax_queue fuel view sink_nodes flow levels' (tail level_queue')
      end
  end.

(** Every loop of the file takes less steps than the view has nodes and edges. *)
Definition view_size (view : BisectionGraphView) : nat :=
  sum_list_with (fun u => S (length (out view u))) (seqZ 0 (NumberOfNodes view)).

Definition ComputeLevelGraph (view : BisectionGraphView) (border_source_nodes : list Z)
    (source_nodes sink_nodes : SourceSinkNodes) (flow : FlowEdges) : option LevelGraph :=
  '(levels, level_queue) ← init_levels view source_nodes border_source_nodes
      (replicate (Z.to_nat (NumberOfNodes view)) INVALID_LEVEL) [];
  relax_queue (S (view_size view)) view sink_nodes flow levels level_queue.

(** ** Augmenting paths *)

(** The stack holds the edges of each node of the path that are still to be
    looked at.  The path has its back at the head of the list, so that
    [std::reverse] is the identity. *)
Fixpoint search_path (fuel : nat) (view : BisectionGraphView) (flow : FlowEdges) (source_nodes : SourceSinkNodes)
    (levels : LevelGraph) (dfs_stack : list (list Z)) (path : list Z) : option (LevelGraph * list Z) :=
  match fuel with
  | O => None
  | S fuel =>
      match dfs_stack, path with
      | [], _ => Some (levels, path)
      | (target :: edge_iterator) :: dfs_stack, back :: _ =>
          f ← has_flow flow target back;
          lt ← levels !z target;
          lb ← levels !z back;
          if negb f && (wrap 32 (lt + 1) =? lb) then
            if contains source_nodes target then Some (levels, target :: path)
            else
              es ← view_Edges view target;
              search_path fuel view flow source_nodes levels (es :: edge_iterator :: dfs_stack) (target :: path)
          else search_path fuel view flow source_nodes levels (edge_iterator :: dfs_stack) path
      | [] :: dfs_stack, back :: path =>
          levels' ← zset back INVALID_LEVEL levels;
          search_path fuel view flow source_nodes levels' dfs_stack path
      | _ :: _, [] => None
      end
  end.

Definition GetAugmentingPath (levels : LevelGraph) (node_id : Z) (view : BisectionGraphView) (flow : FlowEdges)
    (source_nodes : SourceSinkNodes) : option (LevelGraph * list Z) :=
  es ← view_Edges view node_id;
  search_path (2 + view_size view) view flow source_nodes levels [es] [node_id].

Definition augment_one (flow : FlowEdges) (from to : Z) : option FlowEdges :=
  s ← flow !z to;
  if bool_decide (from ∈ s) then zset to (s ∖ {[from]}) flow
  else s' ← flow !z from; zset from ({[to]} ∪ s') flow.

Fixpoint augment_flow (flow : FlowEdges) (path : list Z) : option FlowEdges :=
  match path with
  | from :: (to :: _) as rest => flow' ← augment_one flow from to; augment_flow flow' rest
  | _ => Some flow
  end.

Fixpoint augment_paths (fuel : nat) (flow : FlowEdges) (levels : LevelGraph) (view : BisectionGraphView)
    (source_nodes : SourceSinkNodes) (sink_node_id flow_increase : Z) : option (FlowEdges * LevelGraph * Z) :=
  match fuel with
  | O => None
  | S fuel =>
      '(levels', path) ← GetAugmentingPath levels sink_node_id view flow source_nodes;
      match path with
      | [] => Some (flow, levels', flow_increase)
      | _ =>
          flow' ← augment_flow flow path;
          augment_paths fuel flow' levels' view source_nodes sink_node_id (flow_increase + 1)
      end
  end.

Definition augment_all_paths (flow : FlowEdges) (levels : LevelGraph) (view : BisectionGraphView)
    (source_nodes : SourceSinkNodes) (sink_node_id flow_increase : Z) : option (FlowEdges * LevelGraph * Z) :=
  l ← levels !z sink_node_id;
  if l =? INVALID_LEVEL then Some (flow, levels, flow_increase)
  else augment_paths (S (view_size view)) flow levels view source_nodes sink_node_id flow_increase.

Fixpoint blocking_flow (flow : FlowEdges) (levels : LevelGraph) (view : BisectionGraphView)
    (source_nodes : SourceSinkNodes) (border_sink_nodes : list Z) (flow_increase : Z)
  : option (FlowEdges * LevelGraph * Z) :=
  match border_sink_nodes with
  | [] => Some (flow, levels, flow_increase)
  | sink_node_id :: border_sink_nodes =>
      '(flow', levels', flow_increase') ← augment_all_paths flow levels view source_nodes sink_node_id flow_increase;
      blocking_flow flow' levels' view source_nodes border_sink_nodes flow_increase'
  end.

Definition BlockingFlow (flow : FlowEdges) (levels : LevelGraph) (view : BisectionGraphView)
    (source_nodes : SourceSinkNodes) (border_sink_nodes : list Z) : option (FlowEdges * LevelGraph * Z) :=
  blocking_flow flow levels view source_nodes border_sink_nodes 0.

(** ** The cut *)

Definition is_valid_level (level : Z) : bool := negb (level =? INVALID_LEVEL).

Definition MakeCut (levels : LevelGraph) (flow_value : Z) : MinCut :=
  mkMinCut (zlen (filter is_valid_level levels)) flow_value (is_valid_level <$> levels).

(** Is there a border sink with a level? *)
Fixpoint any_level (levels : LevelGraph) (border_sink_nodes : list Z) : option bool :=
  match border_sink_nodes with
  | [] => Some false
  | node :: border_sink_nodes =>
      l ← levels !z node;
      if is_valid_level l then Some true else any_level levels border_sink_nodes
  end.

Fixpoint zero_levels (source_nodes : list Z) (levels : LevelGraph) : option LevelGraph :=
  match source_nodes with
  | [] => Some levels
  | s :: source_nodes => levels' ← zset s 0 levels; zero_levels source_nodes levels'
  end.

Fixpoint max_flow (fuel : nat) (view : BisectionGraphView) (source_nodes sink_nodes : SourceSinkNodes)
    (border_source_nodes border_sink_nodes : list Z) (flow : FlowEdges) (flow_value : Z) : option MinCut :=
  match fuel with
  | O => None
  | S fuel =>
      levels ← ComputeLevelGraph view border_source_nodes source_nodes sink_nodes flow;
      reached ← any_level levels border_sink_nodes;
      if reached : bool then
        '(flow', _, increase) ← BlockingFlow flow levels view source_nodes border_sink_nodes;
        max_flow fuel view source_nodes sink_nodes border_source_nodes border_sink_nodes flow' (flow_value + increase)
      else
        levels' ← zero_levels source_nodes levels;
        Some (MakeCut levels' flow_value)
  end.

(** [DinicMaxFlow::operator()] *)
Definition DinicMaxFlow (view : BisectionGraphView) (source_nodes sink_nodes : SourceSinkNodes) : option MinCut :=
  border_source_nodes ← copy_if (HasNeighborNotIn source_nodes view) source_nodes;
  border_sink_nodes ← copy_if (HasNeighborNotIn sink_nodes view) sink_nodes;
  max_flow (S (view_size view)) view source_nodes sink_nodes border_source_nodes border_sink_nodes
    (replicate (Z.to_nat (NumberOfNodes view)) ∅) 0.

Definition Validate (view : BisectionGraphView) (source_nodes sink_nodes : SourceSinkNodes) : bool :=
  let invalid_id nid := NumberOfNodes view <=? nid in
  negb (existsb (contains sink_nodes) source_nodes) && negb (existsb invalid_id source_nodes) &&
  negb (existsb invalid_id sink_nodes).

(** ** What a cut is *)

Implicit Types (view : BisectionGraphView) (X : Z -> bool) (flow : FlowEdges) (levels : LevelGraph) (u v : Z).

(** The edges out of [X]: pairs of adjacent nodes, one inside and one outside. *)
Definition cut_row view X u : list Z :=
  if X u then filter (fun v => X v = false) (remove_dups (out view u)) else [].

Definition cut_size view X : Z :=
  Z.of_nat (sum_list_with (fun u => length (cut_row view X u)) (seqZ 0 (NumberOfNodes view))).

Definition separates (source_nodes sink_nodes : list Z) X : Prop :=
  (forall s, s ∈ source_nodes -> X s = true) /\ (forall t, t ∈ sink_nodes -> X t = false).
