(* ===== verification/MinimumCut.v ===== *)
(** * The cut of Dinic's algorithm is a minimum cut

    Proofs about DinicMaxFlow: the flow is one (it sends nothing twice and as
    much as the counter says across every cut), the breadth-first search finds
    the nodes that can be reached, and the depth-first searches terminate and
    find a path whenever the breadth-first search has reached a sink. *)
From stdpp Require Import sorting.
From S2P Require Import Prelude BisectionGraph DinicMaxFlow.

Implicit Types (view : BisectionGraphView) (X : Z -> bool) (flow : FlowEdges) (levels : LevelGraph) (u v : Z).

(** ** Sums *)

Lemma sum_list_with_ext {A} (f g : A -> nat) l : (forall x, x ∈ l -> f x = g x) -> sum_list_with f l = sum_list_with g l.
Proof.
  induction l as [|x l IH]; intros H; simpl; [done|]. rewrite (H x) by left. f_equal. apply IH. intros y Hy. apply H. by right.
Qed.

Lemma sum_list_with_le {A} (f g : A -> nat) l :
  (forall x, x ∈ l -> (f x <= g x)%nat) -> (sum_list_with f l <= sum_list_with g l)%nat.
Proof.
  induction l as [|x l IH]; intros H; simpl; [lia|]. specialize (IH (fun y Hy => H y (list_elem_of_further _ _ _ Hy))).
  specialize (H x (list_elem_of_here _ _)). lia.
Qed.

(** Two functions that differ at one element. *)
Lemma sum_list_with_update {A} (f g : A -> nat) l x : NoDup l -> x ∈ l -> (forall y, y ∈ l -> y <> x -> f y = g y) ->
  (sum_list_with f l + g x = sum_list_with g l + f x)%nat.
Proof.
  intros Hnd Hx Hfg. apply list_elem_of_split in Hx as (l1 & l2 & ->). rewrite !sum_list_with_app. simpl.
  apply NoDup_app in Hnd as (_ & Hd & Hnd2). apply NoDup_cons in Hnd2 as [Hn _].
  rewrite (sum_list_with_ext f g l1), (sum_list_with_ext f g l2); [lia| |].
  - intros y Hy. apply Hfg; [set_solver|]. intros ->. done.
  - intros y Hy. apply Hfg; [set_solver|]. intros ->. apply (Hd x Hy). left.
Qed.

Lemma seqZ_nodup n : NoDup (seqZ 0 n).
Proof. apply NoDup_seqZ. Qed.

(** ** The flow across a cut *)

Definition ind X u : Z := if X u then 1 else 0.

Definition net_row X u (s : gset Z) : Z := zsum (fun v => ind X u - ind X v) (elements s).

Fixpoint net_from X (i : Z) flow : Z :=
  match flow with
  | [] => 0
  | s :: flow => net_row X i s + net_from X (i + 1) flow
  end.

Definition net X flow : Z := net_from X 0 flow.

Lemma net_row_insert X u v s : v ∉ s -> net_row X u ({[v]} ∪ s) = net_row X u s + (ind X u - ind X v).
Proof. intros Hv. unfold net_row. rewrite elements_union_singleton by done. simpl. lia. Qed.

Lemma net_row_delete X u v s : v ∈ s -> net_row X u (s ∖ {[v]}) = net_row X u s - (ind X u - ind X v).
Proof.
  intros Hv. rewrite (union_difference_singleton_L v s) at 2 by done. rewrite net_row_insert by set_solver. lia.
Qed.

Lemma net_from_set X i flow flow' u s s' : flow !z u = Some s -> zset u s' flow = Some flow' ->
  net_from X i flow' = net_from X i flow - net_row X (i + u) s + net_row X (i + u) s'.
Proof.
  revert i flow' u. induction flow as [|s0 flow IH]; intros i flow' u Hs Hset.
  { apply zget_some in Hs. unfold zlen in Hs. simpl in Hs. lia. }
  pose proof (zget_some _ _ _ Hs) as Hu. apply zset_inv in Hset as [_ ->].
  destruct (decide (u = 0)) as [->|Hne].
  - rewrite zget_cons_0 in Hs. injection Hs as ->. simpl. rewrite Z.add_0_r. lia.
  - rewrite zget_cons_S in Hs by lia. destruct (zset_some flow (u - 1) s') as [fl Hfl]; [by apply zget_some in Hs|].
    pose proof (zset_inv _ _ _ _ Hfl) as [_ Efl].
    replace (Z.to_nat u) with (S (Z.to_nat (u - 1))) by lia. simpl. rewrite <- Efl.
    rewrite (IH (i + 1) fl (u - 1) Hs Hfl). replace (i + 1 + (u - 1)) with (i + u) by lia. lia.
Qed.

Lemma net_set X flow flow' u s s' : flow !z u = Some s -> zset u s' flow = Some flow' ->
  net X flow' = net X flow - net_row X u s + net_row X u s'.
Proof. apply (net_from_set X 0). Qed.

Definition flows flow u v : Prop := exists s, flow !z u = Some s /\ v ∈ s.

Lemma has_flow_ok flow u v : 0 <= u < zlen flow -> exists b, has_flow flow u v = Some b /\ (b = true <-> flows flow u v).
Proof.
  intros [s Hs]%zget_is_some. unfold has_flow, flows. rewrite Hs. simpl. eexists; split; [done|].
  rewrite bool_decide_eq_true. naive_solver.
Qed.

(** One step of the augmentation along an edge without flow. *)
Lemma augment_one_ok flow from to : 0 <= from < zlen flow -> 0 <= to < zlen flow -> from <> to -> ~ flows flow from to ->
  exists flow', augment_one flow from to = Some flow' /\ zlen flow' = zlen flow /\
    (forall X, net X flow' = net X flow + (ind X from - ind X to)) /\
    (forall u v, flows flow' u v <-> (flows flow u v /\ (u, v) <> (to, from)) \/
       (u = from /\ v = to /\ ~ flows flow to from)).
Proof.
  intros Hf [st Ht]%zget_is_some Hne Hno. unfold augment_one. rewrite Ht. cbn [mbind option_bind].
  case_bool_decide as Hin.
  - destruct (zset_some flow to (st ∖ {[from]})) as [flow' E]; [by apply zget_some in Ht|]. exists flow'.
    split; [done|]. split; [by eapply zset_len|]. split.
    + intros X. rewrite (net_set X _ _ _ _ _ Ht E), net_row_delete by done. lia.
    + intros u v. unfold flows. destruct (decide (to = u)) as [->|Hu].
      * rewrite (zset_get_eq _ _ _ _ E), Ht. split.
        -- intros (s & [= <-] & Hv). left. set_solver.
        -- intros [[(s & [= <-] & Hv) Hp]|(_ & _ & Hn)]; [|naive_solver]. eexists; split; [done|].
           apply elem_of_difference. split; [done|]. intros ->%elem_of_singleton. done.
      * rewrite (zset_get_ne _ _ _ _ _ E) by done. naive_solver.
  - apply zget_is_some in Hf as [sf Hf]. rewrite Hf. cbn [mbind option_bind].
    destruct (zset_some flow from ({[to]} ∪ sf)) as [flow' E]; [by apply zget_some in Hf|]. exists flow'.
    assert (to ∉ sf) as Hto by (intros ?; apply Hno; by exists sf).
    assert (~ flows flow to from) as Hnr by (intros (s & Hs & ?); congruence).
    split; [done|]. split; [by eapply zset_len|]. split.
    + intros X. rewrite (net_set X _ _ _ _ _ Hf E), net_row_insert by done. lia.
    + intros u v. unfold flows in *. destruct (decide (from = u)) as [->|Hu].
      * rewrite (zset_get_eq _ _ _ _ E), Hf. split.
        -- intros (s & [= <-] & [->%elem_of_singleton|Hv]%elem_of_union); [by right|]. left. split; [eauto|]. intros [= ? ?]. done.
        -- intros [[(s & [= <-] & Hv) _]|(_ & -> & _)]; eexists; (split; [done|]); set_solver.
      * rewrite (zset_get_ne _ _ _ _ _ E) by done. split; [|naive_solver].
        intros Hv. left. split; [done|]. intros [= -> ->]. done.
Qed.

(** ** Flows and cuts *)

Lemma net_row_in X u s : X u = true -> net_row X u s = zlen (filter (fun v => X v = false) (elements s)).
Proof.
  intros Hu. unfold net_row. induction (elements s) as [|v l IH]; [done|]. cbn [zsum foldr].
  fold (zsum (fun v => ind X u - ind X v) l). rewrite IH, filter_cons. unfold ind. rewrite Hu.
  destruct (X v) eqn:Hv; [rewrite decide_False by done; lia|]. rewrite decide_True, zlen_cons by done. lia.
Qed.

Lemma net_row_out X u s : X u = false -> net_row X u s = - zlen (filter (fun v => X v = true) (elements s)).
Proof.
  intros Hu. unfold net_row. induction (elements s) as [|v l IH]; [done|]. cbn [zsum foldr].
  fold (zsum (fun v => ind X u - ind X v) l). rewrite IH, filter_cons. unfold ind. rewrite Hu.
  destruct (X v) eqn:Hv; [rewrite decide_True, zlen_cons by done; lia|]. rewrite decide_False by done. lia.
Qed.

Section flow.
Context (view : BisectionGraphView) (source_nodes sink_nodes : list Z).
Abbreviation n := (NumberOfNodes view).
Abbreviation out := (out view).

Lemma net_row_le X u (s : gset Z) : (forall v, v ∈ s -> v ∈ out u) -> net_row X u s <= zlen (cut_row view X u).
Proof.
  intros Hs. unfold cut_row. destruct (X u) eqn:Hu.
  - rewrite net_row_in by done. apply inj_le, submseteq_length, NoDup_submseteq.
    + apply NoDup_filter, NoDup_elements.
    + intros v [? Hv]%list_elem_of_filter. apply list_elem_of_filter. split; [done|]. apply elem_of_remove_dups. set_solver.
  - rewrite net_row_out by done. rewrite zlen_nil. pose proof (zlen_nonneg (filter (fun v => X v = true) (elements s))). lia.
Qed.

(** Every edge out of [X] carries flow, and no edge into [X] does. *)
Lemma net_row_eq X u (s : gset Z) : (forall v, v ∈ s -> v ∈ out u) ->
  (forall v, X u = true -> v ∈ out u -> X v = false -> v ∈ s) -> (forall v, X u = false -> v ∈ s -> X v = false) ->
  net_row X u s = zlen (cut_row view X u).
Proof.
  intros Hs Hfull Hnone. unfold cut_row. destruct (X u) eqn:Hu.
  - rewrite net_row_in by done. unfold zlen. f_equal. apply Permutation_length, NoDup_Permutation.
    + apply NoDup_filter, NoDup_elements.
    + apply NoDup_filter, NoDup_remove_dups.
    + intros v. rewrite !list_elem_of_filter, elem_of_elements, elem_of_remove_dups. naive_solver.
  - rewrite net_row_out by done. rewrite filter_none; [done|]. intros v Hv%elem_of_elements.
    rewrite (Hnone v); done.
Qed.

Lemma net_from_rows X (R : Z -> Z -> Prop) flow i :
  R 0 0 -> (forall a b c d, R a b -> R c d -> R (a + c) (b + d)) ->
  (forall j s, flow !z j = Some s -> R (net_row X (i + j) s) (zlen (cut_row view X (i + j)))) ->
  R (net_from X i flow) (Z.of_nat (sum_list_with (fun u => length (cut_row view X u)) (seqZ i (zlen flow)))).
Proof.
  intros H0 Hplus. revert i. induction flow as [|s flow IH]; intros i Hrow; [done|].
  rewrite zlen_cons. pose proof (zlen_nonneg flow). rewrite seqZ_cons by lia. simpl. rewrite Nat2Z.inj_add. apply Hplus.
  - specialize (Hrow 0 s (zget_cons_0 _ _)). by rewrite Z.add_0_r in Hrow.
  - replace (Z.pred (1 + zlen flow)) with (zlen flow) by lia. apply (IH (Z.succ i)). intros j s' Hj.
    specialize (Hrow (1 + j) s'). replace (i + (1 + j)) with (Z.succ i + j) in Hrow by lia. apply Hrow.
    pose proof (zget_some _ _ _ Hj). rewrite zget_cons_S by lia. by replace (1 + j - 1) with j by lia.
Qed.

Record flow_ok flow (value : Z) : Prop := {
  fo_len : zlen flow = n;
  fo_edge : forall u v, flows flow u v -> v ∈ out u;
  fo_anti : forall u v, flows flow u v -> ~ flows flow v u;
  fo_value : forall X, separates source_nodes sink_nodes X -> net X flow = value
}.

(** No cut is smaller than the flow. *)
Lemma flow_le_cut flow value X : flow_ok flow value -> separates source_nodes sink_nodes X -> value <= cut_size view X.
Proof.
  intros Hf HX. rewrite <- (fo_value _ _ Hf X HX). unfold net, cut_size. rewrite <- (fo_len _ _ Hf).
  apply (net_from_rows X Z.le); [done|lia|]. intros j s Hs. apply net_row_le. intros v Hv. apply (fo_edge _ _ Hf). by exists s.
Qed.

(** A cut whose edges all carry flow has its size. *)
Lemma flow_eq_cut flow value X : view_ok view -> flow_ok flow value -> separates source_nodes sink_nodes X ->
  (forall u v, 0 <= u < n -> X u = true -> v ∈ out u -> X v = false -> flows flow u v) -> value = cut_size view X.
Proof.
  intros Hview Hf HX Hfull. rewrite <- (fo_value _ _ Hf X HX). unfold net, cut_size. rewrite <- (fo_len _ _ Hf).
  apply (net_from_rows X eq); [done|lia|]. intros j s Hs. simpl.
  assert (0 <= j < n) as Hj by (rewrite <- (fo_len _ _ Hf); by eapply zget_some).
  assert (forall v, v ∈ s -> v ∈ out j) as Hsub by (intros v Hv; apply (fo_edge _ _ Hf); by exists s).
  apply net_row_eq; [done|..].
  - intros v Hu Hv HXv. destruct (Hfull j v Hj Hu Hv HXv) as (s' & Hs' & ?). congruence.
  - intros v Hu Hv. destruct (X v) eqn:HXv; [|done]. exfalso.
    assert (flows flow j v) as Hjv by (by exists s). apply (fo_anti _ _ Hf _ _ Hjv).
    apply Hfull; [by eapply (vo_target _ Hview j), Hsub|done|by apply (vo_sym _ Hview), Hsub|done].
Qed.

(** ** Augmentation along a path *)

Fixpoint consecutive (R : Z -> Z -> Prop) (p : list Z) : Prop :=
  match p with
  | a :: (b :: _) as r => R a b /\ consecutive R r
  | _ => True
  end.

Lemma consecutive_impl (R R' : Z -> Z -> Prop) p : (forall a b, a ∈ p -> R a b -> R' a b) -> consecutive R p -> consecutive R' p.
Proof.
  induction p as [|a [|b p] IH]; try done. intros H [H1 H2]. split; [apply H; [left|done]|].
  apply IH; [|done]. intros x y Hx. apply H. by right.
Qed.

Definition open_edge flow a b : Prop := 0 <= a < n /\ 0 <= b < n /\ b ∈ out a /\ ~ flows flow a b.

Lemma augment_flow_ok flow a p : zlen flow = n -> NoDup (a :: p) -> consecutive (open_edge flow) (a :: p) ->
  (forall u v, flows flow u v -> v ∈ out u) -> (forall u v, flows flow u v -> ~ flows flow v u) ->
  exists flow', augment_flow flow (a :: p) = Some flow' /\ zlen flow' = n /\
    (forall u v, flows flow' u v -> v ∈ out u) /\ (forall u v, flows flow' u v -> ~ flows flow' v u) /\
    forall X t, last (a :: p) = Some t -> net X flow' = net X flow + (ind X a - ind X t).
Proof.
  revert flow a. induction p as [|b p IH]; intros flow a Hlen Hnd Hc Hedge Hanti.
  { exists flow. split_and!; try done. intros X t [= <-]. lia. }
  destruct Hc as [(Ha & Hb & Hab & Hno) Hc]. apply NoDup_cons in Hnd as [Hnin Hnd].
  destruct (augment_one_ok flow a b) as (flow1 & E1 & Hlen1 & Hnet1 & Hfl1); [by rewrite Hlen..|set_solver|done|].
  destruct (IH flow1 b) as (flow2 & E2 & Hlen2 & He2 & Ha2 & Hnet2).
  - by rewrite Hlen1.
  - done.
  - eapply consecutive_impl; [|exact Hc]. intros x y Hx (? & ? & ? & Hxy). do 3 (split; [done|]).
    rewrite Hfl1. intros [[? _]|(-> & _)]; [done|]. done.
  - intros u v [[? _]|(-> & -> & _)]%Hfl1; [by apply Hedge|done].
  - intros u v Huv Hvu. apply Hfl1 in Huv as [[Huv Hne]|(Eu & Ev & Hr)]; apply Hfl1 in Hvu as [[Hvu Hne']|(Eu' & Ev' & Hr')];
      [by apply (Hanti u v)|subst; done..|subst; set_solver].
  - exists flow2. change (augment_flow flow (a :: b :: p)) with (f ← augment_one flow a b; augment_flow f (b :: p)).
    rewrite E1. cbn [mbind option_bind]. split_and!; try done.
    intros X t Ht. rewrite (Hnet2 X t Ht), Hnet1. lia.
Qed.

Lemma augment_path_ok flow value a p : flow_ok flow value -> NoDup (a :: p) -> consecutive (open_edge flow) (a :: p) ->
  a ∈ source_nodes -> forall t, last (a :: p) = Some t -> t ∈ sink_nodes ->
  exists flow', augment_flow flow (a :: p) = Some flow' /\ flow_ok flow' (value + 1).
Proof.
  intros Hf Hnd Hc Ha t Hl Ht.
  destruct (augment_flow_ok flow a p (fo_len _ _ Hf) Hnd Hc (fo_edge _ _ Hf) (fo_anti _ _ Hf)) as (flow' & E & ? & ? & ? & Hnet).
  exists flow'. split; [done|]. split; try done. intros X HX. rewrite (Hnet X t Hl), (fo_value _ _ Hf X HX).
  destruct HX as [HXs HXt]. unfold ind. rewrite HXs, HXt by done. lia.
Qed.

End flow.

(** ** Levels *)

Definition lev levels u : Z := default INVALID_LEVEL (levels !z u).

Lemma lev_get levels u : 0 <= u < zlen levels -> levels !z u = Some (lev levels u).
Proof. intros [l Hl]%zget_is_some. unfold lev. by rewrite Hl. Qed.

Lemma lev_set levels u x : 0 <= u < zlen levels -> exists levels', zset u x levels = Some levels' /\
  zlen levels' = zlen levels /\ forall v, lev levels' v = if decide (v = u) then x else lev levels v.
Proof.
  intros Hu. destruct (zset_some levels u x Hu) as [levels' E]. exists levels'. split; [done|]. split; [by eapply zset_len|].
  intros v. unfold lev. destruct (decide (v = u)) as [->|Hne]; [by rewrite (zset_get_eq _ _ _ _ E)|].
  by rewrite (zset_get_ne _ _ _ _ _ E) by done.
Qed.

Definition invalid_count levels : Z := zlen (filter (fun l => l = INVALID_LEVEL) levels).

Lemma invalid_count_set levels levels' u x : 0 <= u < zlen levels -> lev levels u = INVALID_LEVEL -> x <> INVALID_LEVEL ->
  zset u x levels = Some levels' -> invalid_count levels' + 1 = invalid_count levels.
Proof.
  intros Hu Hl Hx E. pose proof (lev_get _ _ Hu) as Hg. rewrite Hl in Hg. unfold invalid_count.
  assert (filter (fun l => l = INVALID_LEVEL) (INVALID_LEVEL :: levels') ≡ₚ filter (fun l => l = INVALID_LEVEL) (x :: levels)) as HP
    by (by rewrite (zset_Permutation _ _ _ _ _ Hg E)).
  rewrite !filter_cons, decide_True, (decide_False (P := x = _)) in HP by done.
  apply (zlen_Permutation_proper (A := Z)) in HP. rewrite zlen_cons in HP. lia.
Qed.

Lemma copy_if_ok (f : Z -> option bool) (P : Z -> Prop) l : (forall x, x ∈ l -> exists b, f x = Some b /\ (b = true <-> P x)) ->
  exists r, copy_if f l = Some r /\ (forall x, x ∈ r <-> x ∈ l /\ P x) /\ r `sublist_of` l.
Proof.
  induction l as [|x l IH]; intros Hf; [exists []; split_and!; [done|set_solver|done]|].
  destruct (Hf x) as (b & Ex & Hb); [left|]. destruct IH as (r & Er & Hr & Hs); [intros y Hy; apply Hf; by right|].
  simpl. rewrite Ex. cbn [mbind option_bind]. rewrite Er. cbn [mbind option_bind]. eexists; split; [done|]. destruct b.
  - split; [|by constructor]. intros y. rewrite !elem_of_cons, Hr. naive_solver.
  - split; [|by constructor]. intros y. rewrite elem_of_cons, Hr. split; [naive_solver|]. intros [[->|?] HP]; [|done].
    by apply Hb in HP.
Qed.

Record flow_input view (source_nodes sink_nodes : list Z) : Prop := {
  fi_view : view_ok view;
  fi_sources : forall s, s ∈ source_nodes -> 0 <= s < NumberOfNodes view;
  fi_sinks : forall t, t ∈ sink_nodes -> 0 <= t < NumberOfNodes view;
  fi_disjoint : forall s, s ∈ source_nodes -> s ∉ sink_nodes;
  fi_nodup : NoDup source_nodes
}.

Section search.
Context (view : BisectionGraphView) (source_nodes sink_nodes : list Z).
Context (Hin : flow_input view source_nodes sink_nodes).
Abbreviation n := (NumberOfNodes view).
Abbreviation out := (out view).

Lemma view_out u : 0 <= u < n -> view_Edges view u = Some (out u).
Proof using Hin. apply (vo_edges _ (fi_view _ _ _ Hin)). Qed.

Lemma view_out_range u v : 0 <= u < n -> v ∈ out u -> 0 <= v < n.
Proof using Hin. apply (vo_target _ (fi_view _ _ _ Hin)). Qed.

Lemma out_sym u v : 0 <= u < n -> v ∈ out u -> u ∈ out v.
Proof using Hin. apply (vo_sym _ (fi_view _ _ _ Hin)). Qed.

Definition border (s : list Z) u : Prop := u ∈ s /\ exists v, v ∈ out u /\ v ∉ s.

Lemma border_nodes_ok s : (forall u, u ∈ s -> 0 <= u < n) ->
  exists b, copy_if (HasNeighborNotIn s view) s = Some b /\ (forall u, u ∈ b <-> border s u) /\ b `sublist_of` s.
Proof using Hin.
  intros Hs. apply copy_if_ok. intros u Hu. unfold HasNeighborNotIn. rewrite view_out by by apply Hs. simpl.
  eexists; split; [done|]. rewrite existsb_exists. unfold contains. split.
  - intros (v & Hv & Hc). exists v. split; [by apply list_elem_of_In|]. by case_bool_decide.
  - intros (v & Hv & Hc). exists v. split; [by apply list_elem_of_In|]. by rewrite bool_decide_false.
Qed.

(** The sources next to the rest of the graph start the search; the sources
    next to them are marked, so that the search does not go back. *)
Lemma mark_sources_ok targets levels : zlen levels = n -> (forall v, v ∈ targets -> 0 <= v < n) ->
  exists levels', mark_sources source_nodes targets levels = Some levels' /\ zlen levels' = n /\
    forall u, (u ∈ targets -> u ∈ source_nodes -> lev levels' u = 0) /\
      (lev levels' u = lev levels u \/ (u ∈ source_nodes /\ lev levels' u = 0)).
Proof.
  revert levels. induction targets as [|v targets IH]; intros levels Hlen Ht.
  { exists levels. split_and!; try done. intros u. split; [by intros ?%not_elem_of_nil|by left]. }
  assert (exists levels1, (if contains source_nodes v then zset v 0 levels else Some levels) = Some levels1 /\ zlen levels1 = n /\
    forall u, (u = v -> u ∈ source_nodes -> lev levels1 u = 0) /\
      (lev levels1 u = lev levels u \/ (u ∈ source_nodes /\ lev levels1 u = 0))) as (levels1 & E1 & Hl1 & H1).
  { unfold contains. case_bool_decide as Hv.
    - destruct (lev_set levels v 0) as (l' & E & Hl & Hlev); [rewrite Hlen; apply Ht; left|]. exists l'. split; [done|].
      split; [lia|]. intros u. rewrite Hlev. destruct (decide (u = v)) as [->|]; [naive_solver|]. split; [done|by left].
    - exists levels. split_and!; try done. intros u. split; [by intros -> ?|by left]. }
  destruct (IH levels1 Hl1) as (levels2 & E2 & Hl2 & H2); [intros w Hw; apply Ht; by right|].
  simpl. rewrite E1. cbn [mbind option_bind]. exists levels2. split_and!; try done. intros u.
  specialize (H1 u) as [H1a H1b]. specialize (H2 u) as [H2a H2b]. split.
  - intros [->|Hu]%elem_of_cons Hs; [|by apply H2a]. destruct H2b as [->|[_ ?]]; [by apply H1a|done].
  - destruct H2b as [->|?]; [done|by right].
Qed.

Lemma init_levels_ok border_nodes levels queue : zlen levels = n ->
  (forall u, u ∈ border_nodes -> u ∈ source_nodes) ->
  exists levels', init_levels view source_nodes border_nodes levels queue = Some (levels', queue ++ border_nodes) /\
    zlen levels' = n /\
    forall u, (u ∈ border_nodes -> lev levels' u = 0) /\
      (forall b, b ∈ border_nodes -> u ∈ source_nodes -> u ∈ out b -> lev levels' u = 0) /\
      (lev levels' u = lev levels u \/ (u ∈ source_nodes /\ lev levels' u = 0)).
Proof using Hin.
  revert levels queue. induction border_nodes as [|b bs IH]; intros levels queue Hlen Hb.
  { exists levels. rewrite app_nil_r. split_and!; try done. intros u. split_and!; [by intros ?%not_elem_of_nil|by intros ? ?%not_elem_of_nil|by left]. }
  assert (b ∈ source_nodes) as Hbs by (apply Hb; left). pose proof (fi_sources _ _ _ Hin _ Hbs) as Hbr.
  destruct (lev_set levels b 0) as (levels1 & E1 & Hl1 & H1); [by rewrite Hlen|].
  destruct (mark_sources_ok (out b) levels1) as (levels2 & E2 & Hl2 & H2); [lia|by intros v; apply view_out_range|].
  destruct (IH levels2 (queue ++ [b]) Hl2) as (levels3 & E3 & Hl3 & H3); [intros u Hu; apply Hb; by right|].
  simpl. rewrite E1. cbn [mbind option_bind]. rewrite view_out by done. cbn [mbind option_bind]. rewrite E2. cbn [mbind option_bind].
  rewrite E3. exists levels3. rewrite <- app_assoc. split_and!; try done. intros u.
  specialize (H1 u). specialize (H2 u) as [H2a H2b]. specialize (H3 u) as (H3a & H3b & H3c).
  assert (lev levels2 u = 0 -> lev levels3 u = 0) as Hstay by (destruct H3c as [->|[_ ?]]; done).
  assert (lev levels1 u = 0 -> lev levels2 u = 0) as Hstay1 by (destruct H2b as [->|[_ ?]]; done).
  split_and!.
  - intros [->|Hu]%elem_of_cons; [|by apply H3a]. apply Hstay, Hstay1. rewrite H1. by rewrite decide_True.
  - intros b' [->|Hb']%elem_of_cons Hs Ho; [by apply Hstay, H2a|by eapply H3b].
  - destruct H3c as [->|?]; [|by right]. destruct H2b as [->|?]; [|by right]. rewrite H1.
    destruct (decide (u = b)) as [->|]; [by right|by left].
Qed.

(** ** Breadth-first search *)

Section bfs.
Context (flow : FlowEdges) (Hflow : zlen flow = n).

Lemma relax_targets_ok node level targets levels queue : 0 <= node < n -> level < INVALID_LEVEL -> zlen levels = n ->
  (forall v, v ∈ targets -> 0 <= v < n) -> (forall u, lev levels u <> INVALID_LEVEL -> lev levels u <= level) ->
  exists levels' new, relax_targets flow node level targets levels queue = Some (levels', queue ++ new) /\
    zlen levels' = n /\ invalid_count levels' + zlen new = invalid_count levels /\
    (forall u, (lev levels u = INVALID_LEVEL /\ u ∈ new /\ lev levels' u = level /\ u ∈ targets /\ ~ flows flow node u) \/
       (lev levels' u = lev levels u /\ (u ∉ new))) /\
    (forall v, v ∈ targets -> ~ flows flow node v -> lev levels' v <> INVALID_LEVEL).
Proof using Hflow Hin.
  intros Hnode Hlevel. revert levels queue. induction targets as [|v targets IH]; intros levels queue Hlen Ht Hle.
  { exists levels, []. rewrite app_nil_r, zlen_nil. split_and!; try done; [lia|set_solver|set_solver]. }
  assert (0 <= v < n) as Hv by (apply Ht; left).
  assert (forall w, w ∈ targets -> 0 <= w < n) as Ht' by (intros w Hw; apply Ht; by right).
  simpl. destruct (has_flow_ok flow node v) as (b & -> & Hb); [by rewrite Hflow|]. cbn [mbind option_bind]. destruct b.
  { destruct (IH levels queue Hlen Ht' Hle) as (levels' & new & E & ? & ? & Hu & Hd). exists levels', new. split_and!; try done.
    - intros u. destruct (Hu u) as [(?&?&?&?&?)|?]; [left; set_solver|by right].
    - intros w [->|Hw]%elem_of_cons Hf; [by destruct Hf; apply Hb|by apply Hd]. }
  assert (~ flows flow node v) as Hnf by (intros Hf; by apply Hb in Hf).
  rewrite lev_get by (by rewrite Hlen). cbn [mbind option_bind].
  destruct (Z.ltb_spec level (lev levels v)) as [Hlt|Hge].
  - assert (lev levels v = INVALID_LEVEL) as Hinv.
    { destruct (decide (lev levels v = INVALID_LEVEL)) as [|Hn]; [done|]. specialize (Hle v Hn). lia. }
    destruct (lev_set levels v level) as (levels1 & E1 & Hl1 & H1); [by rewrite Hlen|]. rewrite E1. cbn [mbind option_bind].
    destruct (IH levels1 (queue ++ [v])) as (levels' & new & E & Hl' & Hcount & Hu & Hd); [lia|done| |].
    { intros u. rewrite H1. destruct (decide (u = v)); [lia|apply Hle]. }
    exists levels', (v :: new). rewrite E, <- app_assoc. split_and!; try done.
    + rewrite zlen_cons. pose proof (invalid_count_set levels levels1 v level ltac:(by rewrite Hlen) Hinv ltac:(lia) E1). lia.
    + intros u. specialize (Hu u). rewrite H1 in Hu. destruct (decide (u = v)) as [->|Hne].
      * left. destruct Hu as [(? & _)|[-> _]]; [lia|]. set_solver.
      * destruct Hu as [(?&?&?&?&?)|[? ?]]; [left|right]; set_solver.
    + intros w [->|Hw]%elem_of_cons Hf; [|by apply Hd]. specialize (Hu v). rewrite H1, decide_True in Hu by done.
      destruct Hu as [(?&?&?&?&?)|[-> ?]]; lia.
  - destruct (IH levels queue Hlen Ht' Hle) as (levels' & new & E & ? & ? & Hu & Hd). exists levels', new. split_and!; try done.
    + intros u. destruct (Hu u) as [(?&?&?&?&?)|?]; [left; set_solver|by right].
    + intros w [->|Hw]%elem_of_cons Hf; [|by apply Hd]. destruct (Hu v) as [(?&?&?&?&?)|[-> ?]]; lia.
Qed.

(** A node whose edges the search follows. *)
Definition relaxed u : Prop := (u ∉ sink_nodes) /\ (u ∈ source_nodes -> border source_nodes u).

Record bfs_inv levels (queue : list Z) (c : Z) : Prop := {
  bi_len : zlen levels = n;
  bi_nonneg : forall u, 0 <= lev levels u;
  bi_zero : forall u, lev levels u = 0 -> u ∈ source_nodes;
  bi_source : forall s, s ∈ source_nodes -> lev levels s = 0 \/ lev levels s = INVALID_LEVEL;
  bi_front : forall s, border source_nodes s -> lev levels s = 0;
  bi_inner : forall b s, border source_nodes b -> s ∈ source_nodes -> s ∈ out b -> lev levels s = 0;
  bi_pred : forall v, lev levels v <> INVALID_LEVEL -> v ∉ source_nodes ->
    exists u, 0 <= u < n /\ v ∈ out u /\ ~ flows flow u v /\ lev levels u + 1 = lev levels v;
  bi_sink : forall t, t ∈ sink_nodes -> lev levels t <> INVALID_LEVEL -> border sink_nodes t;
  bi_queue : forall q, q ∈ queue -> 0 <= q < n /\ lev levels q <> INVALID_LEVEL /\ (q ∈ source_nodes -> border source_nodes q);
  bi_sorted : StronglySorted (fun a b => lev levels a <= lev levels b) queue;
  bi_near : forall u q, lev levels u <> INVALID_LEVEL -> q ∈ queue -> lev levels u <= lev levels q + 1;
  bi_bound : forall u, lev levels u <> INVALID_LEVEL -> lev levels u <= c;
  bi_count : c + zlen queue + invalid_count levels <= n;
  bi_done : forall u v, 0 <= u < n -> lev levels u <> INVALID_LEVEL -> u ∉ queue -> relaxed u ->
    v ∈ out u -> ~ flows flow u v -> lev levels v <> INVALID_LEVEL
}.

Lemma sorted_change (f g : Z -> Z) l : (forall x, x ∈ l -> f x = g x) ->
  StronglySorted (fun a b => f a <= f b) l -> StronglySorted (fun a b => g a <= g b) l.
Proof.
  intros Hfg. induction 1 as [|a l Hl IH Ha]; constructor; [apply IH; intros x Hx; apply Hfg; by right|].
  rewrite Forall_forall in Ha |- *. intros b Hb. rewrite <- (Hfg a), <- (Hfg b); [by apply Ha|by right|left].
Qed.

Lemma sorted_app_const (f : Z -> Z) l k x : StronglySorted (fun a b => f a <= f b) l -> (forall a, a ∈ l -> f a <= x) ->
  (forall b, b ∈ k -> f b = x) -> StronglySorted (fun a b => f a <= f b) (l ++ k).
Proof.
  induction 1 as [|a l Hl IH Ha]; intros Hle Hk; simpl.
  - clear Hle. induction k as [|b k IHk]; constructor; [apply IHk; set_solver|]. apply Forall_forall. intros c Hc.
    rewrite !Hk by set_solver. done.
  - constructor; [apply IH; set_solver|]. rewrite Forall_forall in Ha |- *. intros b [Hb|Hb]%elem_of_app; [by apply Ha|].
    rewrite (Hk b Hb). apply Hle. left.
Qed.

(** The targets of a node that is followed are no sources that lack a level. *)
Lemma new_not_source levels queue c u v : bfs_inv levels queue c -> 0 <= u < n -> relaxed u -> v ∈ out u ->
  lev levels v = INVALID_LEVEL -> v ∉ source_nodes.
Proof using Hin.
  intros Hi Hu [_ Hr] Hv Hl Hs. assert (lev levels v = 0) as H0; [|by rewrite H0 in Hl].
  destruct (decide (u ∈ source_nodes)) as [Hus|Hus].
  - eapply (bi_inner _ _ _ Hi); [apply Hr; exact Hus|done..].
  - apply (bi_front _ _ _ Hi). split; [done|]. exists u. split; [by apply out_sym|done].
Qed.

Lemma relax_node_ok levels front rest c : bfs_inv levels (front :: rest) c ->
  exists levels' new, relax_node view sink_nodes flow front levels (front :: rest) = Some (levels', (front :: rest) ++ new) /\
    zlen (rest ++ new) + invalid_count levels' + 1 = zlen (front :: rest) + invalid_count levels /\
    bfs_inv levels' (rest ++ new) (c + 1).
Proof using Hflow Hin.
  intros Hi. destruct (bi_queue _ _ _ Hi front) as (Hf & Hfl & Hfs); [left|].
  pose proof (bi_sorted _ _ _ Hi) as Hsort. apply StronglySorted_inv in Hsort as [Hsort Hhead]. rewrite Forall_forall in Hhead.
  pose proof (bi_count _ _ _ Hi) as Hcount. rewrite zlen_cons in Hcount. pose proof (zlen_nonneg rest).
  assert (0 <= invalid_count levels) by apply zlen_nonneg.
  unfold relax_node, contains. case_bool_decide as Hsink.
  { exists levels, []. rewrite !app_nil_r. split; [done|]. split; [rewrite zlen_cons; lia|]. split; try apply Hi.
    - intros q Hq. apply (bi_queue _ _ _ Hi). by right.
    - done.
    - intros u q Hu Hq. apply (bi_near _ _ _ Hi); [done|by right].
    - intros u Hu. pose proof (bi_bound _ _ _ Hi u Hu). lia.
    - lia.
    - intros u v Hu Hl Hq Hr. apply (bi_done _ _ _ Hi); try done. apply not_elem_of_cons. split; [|done]. intros ->. by destruct Hr. }
  assert (relaxed front) as Hr by done.
  pose proof (bi_bound _ _ _ Hi front Hfl) as Hfc. pose proof (bi_nonneg _ _ _ Hi front) as Hf0.
  pose proof (vo_nodes _ (fi_view _ _ _ Hin)) as Hn.
  rewrite lev_get by (by rewrite (bi_len _ _ _ Hi)). cbn [mbind option_bind]. rewrite view_out by done. cbn [mbind option_bind].
  rewrite wrap_small by (unfold in_word; unfold UINT32_MAX in Hn; lia).
  destruct (relax_targets_ok front (lev levels front + 1) (out front) levels (front :: rest)) as (levels' & new & E & Hlen & Hc & Hu & Hd).
  { done. } { unfold INVALID_LEVEL. lia. } { apply Hi. } { by intros v; apply view_out_range. }
  { intros u Hu. apply (bi_near _ _ _ Hi); [done|left]. }
  exists levels', new. split; [done|]. split; [rewrite zlen_app, zlen_cons; lia|].
  assert (forall u, lev levels u <> INVALID_LEVEL -> lev levels' u = lev levels u) as Hold.
  { intros u Hl. destruct (Hu u) as [(?&_)|[? _]]; done. }
  assert (forall u, lev levels' u <> INVALID_LEVEL -> lev levels u <> INVALID_LEVEL \/
    (lev levels u = INVALID_LEVEL /\ u ∈ new /\ lev levels' u = lev levels front + 1 /\ u ∈ out front /\ ~ flows flow front u)) as Hnew.
  { intros u Hl. destruct (Hu u) as [?|[Hsame _]]; [by right|left; congruence]. }
  assert (forall q, q ∈ new -> lev levels q = INVALID_LEVEL /\ lev levels' q = lev levels front + 1 /\ q ∈ out front /\ ~ flows flow front q) as Hnq.
  { intros q Hq. destruct (Hu q) as [(?&?&?&?&?)|[_ ?]]; done. }
  assert (forall q, q ∈ rest -> lev levels' q = lev levels q) as Hrest.
  { intros q Hq. apply Hold. destruct (bi_queue _ _ _ Hi q) as (_&?&_); [by right|done]. }
  split.
  - done.
  - intros u. destruct (Hu u) as [(_&_&->&_)|[-> _]]; [lia|apply Hi].
  - intros u Hz. destruct (Hu u) as [(_&_&?&_)|[Hs _]]; [lia|]. apply (bi_zero _ _ _ Hi). congruence.
  - intros s Hs. destruct (Hu s) as [(Hl&_&_&Ho&_)|[-> _]]; [|by apply Hi]. exfalso.
    by eapply (new_not_source levels (front :: rest) c front s).
  - intros s Hs. rewrite Hold; [by apply Hi|]. by rewrite (bi_front _ _ _ Hi).
  - intros b s Hb Hs Ho. pose proof (bi_inner _ _ _ Hi b s Hb Hs Ho) as Hz. rewrite Hold; [done|by rewrite Hz].
  - intros v [Hl|(?&?&Hl&Ho&Hnf)]%Hnew Hv.
    + destruct (bi_pred _ _ _ Hi v Hl Hv) as (u & ? & ? & ? & Hp). exists u. do 3 (split; [done|]). rewrite (Hold v Hl), Hold; [done|].
      pose proof (bi_bound _ _ _ Hi v Hl). unfold INVALID_LEVEL. lia.
    + exists front. do 3 (split; [done|]). rewrite Hold by done. lia.
  - intros t Ht [Hl|(?&?&Hl&Ho&Hnf)]%Hnew; [by apply Hi|]. split; [done|]. exists front. split; [by apply out_sym|done].
  - intros q [Hq|Hq]%elem_of_app.
    + destruct (bi_queue _ _ _ Hi q) as (?&?&?); [by right|]. rewrite Hold by done. done.
    + destruct (Hnq q Hq) as (Hl & -> & Ho & _). split; [by eapply view_out_range|]. split; [unfold INVALID_LEVEL; lia|].
      intros Hs. by destruct (new_not_source levels (front :: rest) c front q).
  - apply (sorted_app_const _ _ _ (lev levels front + 1)).
    + by eapply (sorted_change (lev levels)), Hsort; intros q Hq; rewrite Hrest.
    + intros q Hq. rewrite Hrest by done. apply (bi_near _ _ _ Hi); [|left]. by destruct (bi_queue _ _ _ Hi q) as (_&?&_); [by right|].
    + intros q Hq. by destruct (Hnq q Hq) as (_&?&_).
  - assert (forall q, q ∈ rest ++ new -> lev levels front <= lev levels' q) as Hge.
    { intros q [Hq|Hq]%elem_of_app; [rewrite Hrest by done; by apply Hhead|]. destruct (Hnq q Hq) as (_&->&_). lia. }
    intros u q Hl Hq%Hge. apply Hnew in Hl as [Hl|(_&_&->&_)]; [|lia]. rewrite Hold by done.
    pose proof (bi_near _ _ _ Hi u front Hl ltac:(left)). lia.
  - intros u [Hl|(_&_&->&_)]%Hnew; [|lia]. rewrite Hold by done. pose proof (bi_bound _ _ _ Hi u Hl). lia.
  - rewrite zlen_app. lia.
  - intros u v Hur Hl Hq Hru Ho Hnf. apply not_elem_of_app in Hq as [Hq Hqn].
    destruct (decide (u = front)) as [->|Hne]; [by apply Hd|].
    apply Hnew in Hl as [Hl|(_&?&_)]; [|done].
    assert (lev levels v <> INVALID_LEVEL) as Hlv by (apply (bi_done _ _ _ Hi u v); try done; by apply not_elem_of_cons).
    by rewrite Hold.
Qed.

Lemma relax_queue_ok fuel levels queue c : bfs_inv levels queue c -> zlen queue + invalid_count levels <= Z.of_nat fuel ->
  exists levels' c', relax_queue fuel view sink_nodes flow levels queue = Some levels' /\ bfs_inv levels' [] c'.
Proof using Hflow Hin.
  revert levels queue c. induction fuel as [|fuel IH]; intros levels queue c Hi Hfuel.
  - destruct queue as [|q queue]; [by exists levels, c|]. rewrite zlen_cons in Hfuel. pose proof (zlen_nonneg queue).
    assert (0 <= invalid_count levels) by apply zlen_nonneg. lia.
  - destruct queue as [|q queue]; [by exists levels, c|]. simpl.
    destruct (relax_node_ok levels q queue c Hi) as (levels1 & new & E & Hc & Hi1).
    rewrite E. cbn [mbind option_bind]. apply (IH levels1 (queue ++ new) (c + 1)); [done|lia].
Qed.

Lemma levels_seq levels : levels = lev levels <$> seqZ 0 (zlen levels).
Proof.
  apply zlist_eq; [unfold zlen; rewrite length_fmap, length_seqZ; lia|]. intros i Hi. rewrite lev_get by done.
  unfold zget. rewrite (proj2 (Z.leb_le 0 i)) by lia. rewrite list_lookup_fmap, lookup_seqZ_lt by lia. simpl. do 2 f_equal. lia.
Qed.

Lemma invalid_count_seq levels : invalid_count levels = zlen (filter (fun u => lev levels u = INVALID_LEVEL) (seqZ 0 (zlen levels))).
Proof.
  unfold invalid_count. rewrite (levels_seq levels) at 1. generalize (seqZ 0 (zlen levels)) as l.
  induction l as [|u l IH]; [done|]. rewrite fmap_cons, !filter_cons. repeat case_decide; try done; rewrite ?zlen_cons; lia.
Qed.

Lemma invalid_count_le levels (b : list Z) : NoDup b -> (forall u, u ∈ b -> 0 <= u < zlen levels /\ lev levels u <> INVALID_LEVEL) ->
  zlen b + invalid_count levels <= zlen levels.
Proof.
  intros Hnd Hb. rewrite invalid_count_seq.
  rewrite <- zlen_app. transitivity (zlen (seqZ 0 (zlen levels))); [|unfold zlen at 1; rewrite length_seqZ; pose proof (zlen_nonneg levels); lia].
  apply inj_le, submseteq_length, NoDup_submseteq.
  - apply NoDup_app. split; [done|]. split; [|apply NoDup_filter, NoDup_seqZ].
    intros u [_ Hu]%Hb [? _]%list_elem_of_filter. done.
  - intros u [[Hu _]%Hb|[_ Hu]%list_elem_of_filter]%elem_of_app; [|done]. apply elem_of_seqZ. lia.
Qed.

Lemma view_size_nodes : n <= Z.of_nat (view_size view).
Proof using Hin.
  pose proof (vo_nodes _ (fi_view _ _ _ Hin)). unfold view_size. transitivity (zlen (seqZ 0 n)); [unfold zlen; rewrite length_seqZ; lia|].
  apply inj_le. induction (seqZ 0 n) as [|u l IH]; simpl; lia.
Qed.

Lemma ComputeLevelGraph_ok border_nodes : NoDup border_nodes -> (forall u, u ∈ border_nodes <-> border source_nodes u) ->
  exists levels c, ComputeLevelGraph view border_nodes source_nodes sink_nodes flow = Some levels /\ bfs_inv levels [] c.
Proof using Hflow Hin.
  intros Hnd Hb. pose proof (vo_nodes _ (fi_view _ _ _ Hin)) as Hn.
  assert (zlen (replicate (Z.to_nat n) INVALID_LEVEL) = n) as Hlen0 by (unfold zlen; rewrite length_replicate; lia).
  assert (forall u, lev (replicate (Z.to_nat n) INVALID_LEVEL) u = INVALID_LEVEL) as Hlev0.
  { intros u. unfold lev, zget. destruct (0 <=? u); [|done].
    destruct (replicate _ _ !! Z.to_nat u) as [l|] eqn:E; [|done]. by apply lookup_replicate in E as [-> _]. }
  destruct (init_levels_ok border_nodes (replicate (Z.to_nat n) INVALID_LEVEL) []) as (levels & E & Hlen & Hl).
  { done. } { intros u Hu. by apply Hb in Hu as [? _]. }
  unfold ComputeLevelGraph. rewrite E. cbn [mbind option_bind app].
  assert (forall u, lev levels u = INVALID_LEVEL \/ (u ∈ source_nodes /\ lev levels u = 0)) as Hcases.
  { intros u. destruct (Hl u) as (_ & _ & H). by rewrite Hlev0 in H. }
  assert (forall u, lev levels u <> INVALID_LEVEL -> u ∈ source_nodes /\ lev levels u = 0) as Hvalid by (intros u Hu; by destruct (Hcases u)).
  assert (forall u, u ∈ border_nodes -> lev levels u = 0) as Hbz by (intros u Hu; by apply (Hl u)).
  assert (zlen border_nodes + invalid_count levels <= n) as Hcount.
  { rewrite <- Hlen. apply invalid_count_le; [done|]. intros u Hu. rewrite Hbz by done. rewrite Hlen. split; [|done].
    apply Hb in Hu as [Hu _]. by apply (fi_sources _ _ _ Hin). }
  apply (relax_queue_ok _ levels border_nodes 0); [|pose proof view_size_nodes; lia]. split.
  - done.
  - intros u. destruct (Hcases u) as [->|[_ ->]]; done.
  - intros u Hu. destruct (Hcases u) as [Hc|[? _]]; [by rewrite Hc in Hu|done].
  - intros s Hs. destruct (Hcases s) as [?|[_ ?]]; [by right|by left].
  - intros s Hs. by apply Hbz, Hb.
  - intros b s Hb' Hs Ho. destruct (Hl s) as (_ & H & _). apply (H b); [by apply Hb|done..].
  - intros v [? _]%Hvalid. done.
  - intros t Ht [Hs _]%Hvalid. by destruct (fi_disjoint _ _ _ Hin t Hs).
  - intros q Hq. rewrite Hbz by done. apply Hb in Hq. split; [|done]. destruct Hq as [Hq _]. by apply (fi_sources _ _ _ Hin).
  - apply (sorted_app_const _ [] border_nodes 0); [constructor|set_solver|done].
  - intros u q [_ ->]%Hvalid Hq. rewrite (Hbz q Hq). lia.
  - intros u [_ ->]%Hvalid. lia.
  - lia.
  - intros u v Hu [Hs _]%Hvalid Hq [_ Hr]. destruct Hq. apply Hb. by apply Hr.
Qed.
End bfs.

(** ** Depth-first search *)

Section dfs.
Context (flow : FlowEdges) (Hflow : zlen flow = n).

(** Levels as the depth-first searches leave them. *)
Record phase_inv levels : Prop := {
  pi_len : zlen levels = n;
  pi_range : forall u, lev levels u <> INVALID_LEVEL -> 0 <= lev levels u <= n;
  pi_zero : forall u, lev levels u = 0 -> u ∈ source_nodes
}.

Lemma bfs_phase levels c : bfs_inv flow levels [] c -> phase_inv levels.
Proof.
  intros Hi. split; [apply Hi| |apply Hi]. intros u Hu. split; [apply Hi|].
  pose proof (bi_bound _ _ _ _ Hi u Hu). pose proof (bi_count _ _ _ _ Hi) as Hc.
  assert (0 <= invalid_count levels) by apply zlen_nonneg. rewrite zlen_nil in Hc. lia.
Qed.

(** The edge from [a] to [b] is open and goes up one level. *)
Definition descends levels a b : Prop := open_edge view flow a b /\ lev levels a <> INVALID_LEVEL /\ lev levels a + 1 = lev levels b.

Definition has_pred levels : Prop :=
  forall v, lev levels v <> INVALID_LEVEL -> v ∉ source_nodes -> 0 <= v < n -> exists u, descends levels u v.

Lemma bfs_has_pred levels c : bfs_inv flow levels [] c -> has_pred levels.
Proof.
  intros Hi v Hv Hs Hr. destruct (bi_pred _ _ _ _ Hi v Hv Hs) as (u & Hu & Ho & Hf & Hl). exists u. split; [done|].
  split; [|done]. pose proof (bi_nonneg _ _ _ _ Hi v) as H0. pose proof (pi_range _ (bfs_phase _ _ Hi) v Hv).
  pose proof (vo_nodes _ (fi_view _ _ _ Hin)). unfold INVALID_LEVEL. lia.
Qed.

Record dfs_inv (t : Z) levels (stack : list (list Z)) (path : list Z) : Prop := {
  di_stack : Forall2 (fun it v => forall x, x ∈ it -> x ∈ out v) stack path;
  di_path : forall v, v ∈ path -> 0 <= v < n /\ (v ∉ source_nodes) /\ lev levels v <> INVALID_LEVEL;
  di_chain : consecutive (descends levels) path;
  di_last : path = [] \/ last path = Some t
}.

Lemma chain_above levels a p : consecutive (fun x y => lev levels x + 1 = lev levels y) (a :: p) ->
  forall x, x ∈ p -> lev levels a < lev levels x.
Proof.
  revert a. induction p as [|b p IH]; intros a; [set_solver|]. intros [Hab Hc] x [->|Hx]%elem_of_cons; [lia|].
  specialize (IH b Hc x Hx). lia.
Qed.

Lemma chain_nodup levels p : consecutive (fun x y => lev levels x + 1 = lev levels y) p -> NoDup p.
Proof.
  induction p as [|a p IH]; intros Hc; constructor.
  - intros Ha. pose proof (chain_above _ _ _ Hc a Ha). lia.
  - apply IH. destruct p; [done|]. by destruct Hc.
Qed.

Lemma descends_chain levels p : consecutive (descends levels) p -> consecutive (fun x y => lev levels x + 1 = lev levels y) p.
Proof. apply consecutive_impl. by intros a b _ (_ & _ & ?). Qed.

Definition pot levels (path : list Z) : nat :=
  sum_list_with (fun u => if decide (lev levels u <> INVALID_LEVEL /\ u ∉ path) then S (length (out u)) else O) (seqZ 0 n).

Definition work (stack : list (list Z)) : nat := sum_list_with (fun it => S (length it)) stack.

Lemma pot_push levels path u : 0 <= u < n -> lev levels u <> INVALID_LEVEL -> u ∉ path ->
  (pot levels (u :: path) + S (length (out u)) = pot levels path)%nat.
Proof.
  intros Hu Hl Hp. unfold pot.
  set (f := fun v => if decide (lev levels v <> INVALID_LEVEL /\ v ∉ u :: path) then S (length (out v)) else O).
  set (g := fun v => if decide (lev levels v <> INVALID_LEVEL /\ v ∉ path) then S (length (out v)) else O).
  assert (f u = O) as Ef by (unfold f; rewrite decide_False by set_solver; done).
  assert (g u = S (length (out u))) as Eg by (unfold g; rewrite decide_True by done; done).
  assert (sum_list_with f (seqZ 0 n) + g u = sum_list_with g (seqZ 0 n) + f u)%nat as Hsum; [|lia].
  apply sum_list_with_update; [apply NoDup_seqZ|apply elem_of_seqZ; lia|].
  intros v _ Hv. unfold f, g. do 2 case_decide; set_solver.
Qed.

Lemma pot_pop levels levels' path u :
  (forall v, lev levels' v = if decide (v = u) then INVALID_LEVEL else lev levels v) ->
  pot levels' path = pot levels (u :: path).
Proof.
  intros Hl. apply sum_list_with_ext. intros v _. rewrite Hl. destruct (decide (v = u)) as [->|Hne].
  - do 2 rewrite decide_False by set_solver. done.
  - do 2 case_decide; set_solver.
Qed.

Lemma pot_start levels t : 0 <= t < n -> (pot levels [t] + S (length (out t)) <= view_size view)%nat.
Proof.
  intros Ht. unfold pot, view_size.
  set (f := fun v => if decide (lev levels v <> INVALID_LEVEL /\ v ∉ [t]) then S (length (out v)) else O).
  set (g := fun v => if decide (v = t) then O else S (length (out v))).
  assert (sum_list_with (fun v => S (length (out v))) (seqZ 0 n) + g t = sum_list_with g (seqZ 0 n) + S (length (out t)))%nat as Hsum.
  { apply (sum_list_with_update (fun v => S (length (out v))) g); [apply NoDup_seqZ|apply elem_of_seqZ; lia|].
    intros v _ Hv. unfold g. by rewrite decide_False. }
  assert (g t = O) as Eg by (unfold g; by rewrite decide_True).
  assert (sum_list_with f (seqZ 0 n) <= sum_list_with g (seqZ 0 n))%nat; [|lia].
  apply sum_list_with_le. intros v _. unfold f, g. do 2 case_decide; try lia. set_solver.
Qed.

Lemma descend_test levels target back : phase_inv levels -> 0 <= target < n -> 0 <= back < n -> back ∈ out target ->
  (back ∉ source_nodes) -> lev levels back <> INVALID_LEVEL ->
  exists f, has_flow flow target back = Some f /\
    (negb f && (wrap 32 (lev levels target + 1) =? lev levels back) = true <-> descends levels target back).
Proof using Hflow Hin.
  intros Hp Ht Hb Ho Hs Hl. destruct (has_flow_ok flow target back) as (f & Ef & Hf); [by rewrite Hflow|]. exists f. split; [done|].
  pose proof (vo_nodes _ (fi_view _ _ _ Hin)) as Hn. pose proof (pi_range _ Hp back Hl) as Hlb.
  assert (lev levels back <> 0) as Hb0 by (intros ?%(pi_zero _ Hp); done).
  unfold descends, open_edge. rewrite andb_true_iff, negb_true_iff, Z.eqb_eq.
  destruct (decide (lev levels target = INVALID_LEVEL)) as [E|Hlt].
  - rewrite E. split; [|intuition congruence]. intros [_ Hw]. exfalso. apply Hb0. rewrite <- Hw. done.
  - pose proof (pi_range _ Hp target Hlt). rewrite wrap_small by (unfold in_word; unfold UINT32_MAX in Hn; lia).
    destruct f; intuition congruence.
Qed.

(** The search terminates; it returns an open path from a source to [t], or
    finds that there is none. *)
Definition found (t : Z) levels (path : list Z) : Prop :=
  exists a p, path = a :: p /\ a ∈ source_nodes /\ NoDup path /\ consecutive (open_edge view flow) path /\ last path = Some t /\
    lev levels t <> INVALID_LEVEL.

(** The next edges of the top of the stack lead down. *)
Definition ready levels (stack : list (list Z)) (path : list Z) : Prop :=
  match stack, path with
  | it :: _, back :: _ => exists x, x ∈ it /\ descends levels x back
  | _, _ => False
  end.

Lemma search_path_ok t fuel levels stack path : phase_inv levels -> dfs_inv t levels stack path ->
  (pot levels path + work stack < fuel)%nat ->
  exists levels' path', search_path fuel view flow source_nodes levels stack path = Some (levels', path') /\
    phase_inv levels' /\ (forall u, lev levels' u = lev levels u \/ lev levels' u = INVALID_LEVEL) /\
    (path' = [] \/ found t levels' path') /\ (has_pred levels -> ready levels stack path -> path' <> []).
Proof using Hflow Hin.
  revert levels stack path. induction fuel as [|fuel IH]; intros levels stack path Hp Hd Hfuel; [lia|].
  pose proof (di_stack _ _ _ _ Hd) as Hst. inversion Hst as [|it back stack' path' Hit Hst' Es Ep].
  { subst. exists levels, []. simpl. split_and!; try done; by left. }
  subst stack path. destruct (di_path _ _ _ _ Hd back) as (Hb & Hbs & Hbl); [left|].
  pose proof (chain_nodup _ _ (descends_chain _ _ (di_chain _ _ _ _ Hd))) as Hnd. apply NoDup_cons in Hnd as [Hbn Hnd].
  destruct it as [|target it]; cbn [search_path].
  { destruct (lev_set levels back INVALID_LEVEL) as (levels1 & E1 & Hl1 & H1); [by rewrite (pi_len _ Hp)|].
    rewrite E1. cbn [mbind option_bind]. destruct (IH levels1 stack' path') as (levels' & path2 & E & Hp' & Hl' & Hres & _).
    - split; [rewrite Hl1; apply Hp|..]; intros u; rewrite H1; destruct (decide (u = back)); try done; apply Hp.
    - split; [done|..].
      + intros v Hv. rewrite H1, decide_False by (intros ->; done). apply (di_path _ _ _ _ Hd). by right.
      + assert (consecutive (descends levels) path') as Hc by (destruct path'; [done|by destruct (di_chain _ _ _ _ Hd)]).
        clear -Hc Hbn H1. induction path' as [|a [|b p] IHp]; try done. destruct Hc as [(Ho & Hl & He) Hc]. split; [|apply IHp; set_solver].
        split; [done|]. rewrite !H1. do 2 rewrite decide_False by set_solver. done.
      + destruct path'; [by left|]. right. by destruct (di_last _ _ _ _ Hd).
    - rewrite (pot_pop levels levels1 path' back H1). change (work ([] :: stack')) with (S (work stack')) in Hfuel. lia.
    - exists levels', path2. split_and!; try done.
      + intros u. destruct (Hl' u) as [->|?]; [|by right]. rewrite H1. destruct (decide (u = back)); [by right|by left].
      + intros _ (x & ?%not_elem_of_nil & _). done. }
  assert (0 <= target < n) as Ht by (eapply view_out_range; [exact Hb|apply Hit; left]).
  assert (back ∈ out target) as Hbo by (apply out_sym; [done|apply Hit; left]).
  destruct (descend_test levels target back Hp Ht Hb Hbo Hbs Hbl) as (f & -> & Hf). cbn [mbind option_bind].
  rewrite lev_get by (by rewrite (pi_len _ Hp)). cbn [mbind option_bind].
  rewrite lev_get by (by rewrite (pi_len _ Hp)). cbn [mbind option_bind].
  change (work ((target :: it) :: stack')) with (S (S (length it) + work stack')) in Hfuel.
  destruct (negb f && _) eqn:Etest.
  - destruct (proj1 Hf eq_refl) as (Hopen & Htl & Hlev). pose proof (di_chain _ _ _ _ Hd) as Hc.
    assert (consecutive (descends levels) (target :: back :: path')) as Hc' by done.
    pose proof (chain_nodup _ _ (descends_chain _ _ Hc')) as Hnd'.
    unfold contains. case_bool_decide as Hsrc.
    { exists levels, (target :: back :: path'). split_and!; try done; [by left|right].
      exists target, (back :: path'). assert (last (back :: path') = Some t) as Hlast by (by destruct (di_last _ _ _ _ Hd)).
      split_and!; try done.
      - eapply consecutive_impl; [|exact Hc']. by intros a b _ [? _].
      - by destruct (di_path _ _ _ _ Hd t) as (_ & _ & ?); [by eapply last_Some_elem_of|]. }
    rewrite view_out by done. cbn [mbind option_bind].
    destruct (IH levels (out target :: it :: stack') (target :: back :: path')) as (levels' & path2 & E & Hp' & Hl' & Hres & Hready).
    + done.
    + split; [repeat constructor; try done; intros x Hx; apply Hit; by right| |done|right; by destruct (di_last _ _ _ _ Hd)].
      intros v [->|Hv]%elem_of_cons; [done|by apply (di_path _ _ _ _ Hd)].
    + change (work (out target :: it :: stack')) with (S (length (out target)) + (S (length it) + work stack'))%nat.
      apply NoDup_cons in Hnd' as [Htn _]. pose proof (pot_push levels (back :: path') target Ht Htl Htn). lia.
    + exists levels', path2. split_and!; try done. intros Hpred _. apply Hready; [done|].
      destruct (Hpred target) as (u & Hu); [done..|]. exists u. split; [|done]. destruct Hu as ((?&_&?&_)&_). by apply out_sym.
  - destruct (IH levels (it :: stack') (back :: path')) as (levels' & path2 & E & Hp' & Hl' & Hres & Hready).
    + done.
    + split; [constructor; [intros x Hx; apply Hit; by right|done]|apply Hd..].
    + change (work (it :: stack')) with (S (length it) + work stack')%nat. lia.
    + exists levels', path2. split_and!; try done. intros Hpred (x & [->|Hx]%elem_of_cons & Hdx).
      * by apply Hf in Hdx.
      * apply Hready; [done|]. by exists x.
Qed.

Lemma GetAugmentingPath_ok t levels : phase_inv levels -> 0 <= t < n -> (t ∉ source_nodes) -> lev levels t <> INVALID_LEVEL ->
  exists levels' path, GetAugmentingPath levels t view flow source_nodes = Some (levels', path) /\
    phase_inv levels' /\ (forall u, lev levels' u = lev levels u \/ lev levels' u = INVALID_LEVEL) /\
    (path = [] \/ found t levels' path) /\ (has_pred levels -> path <> []).
Proof using Hflow Hin.
  intros Hp Ht Hs Hl. unfold GetAugmentingPath. rewrite view_out by done. cbn [mbind option_bind].
  destruct (search_path_ok t (2 + view_size view) levels [out t] [t]) as (levels' & path & E & ? & ? & ? & Hready); [done|..].
  - split; [by repeat constructor|by intros v ->%list_elem_of_singleton|done|by right].
  - pose proof (pot_start levels t Ht). change (work [out t]) with (S (length (out t)) + 0)%nat. lia.
  - exists levels', path. split_and!; try done. intros Hpred. apply Hready; [done|].
    destruct (Hpred t) as (u & Hu); [done..|]. exists u. split; [|done]. destruct Hu as ((?&_&?&_)&_). by apply out_sym.
Qed.
End dfs.

(** ** Rounds *)

Abbreviation flow_ok := (flow_ok view source_nodes sink_nodes).
Abbreviation smallest := (cut_size view (contains source_nodes)).

Lemma sources_separate : separates source_nodes sink_nodes (contains source_nodes).
Proof using Hin.
  unfold contains. split; intros u Hu; [by rewrite bool_decide_true|]. apply bool_decide_false. intros Hs.
  by destruct (fi_disjoint _ _ _ Hin u Hs).
Qed.

Lemma flow_bounded flow value : flow_ok flow value -> value <= smallest.
Proof using Hin. intros Hf. eapply flow_le_cut; [exact Hf|apply sources_separate]. Qed.

Lemma smallest_fits : smallest <= Z.of_nat (view_size view).
Proof.
  apply inj_le, sum_list_with_le. intros u _. unfold cut_row. destruct (contains source_nodes u); simpl; [|lia].
  rewrite length_filter. transitivity (length (out u)); [apply submseteq_length, sublist_submseteq|lia].
  induction (out u) as [|v l IH]; simpl; [done|]. case_decide; by constructor.
Qed.

Definition lower levels levels' : Prop := forall u, lev levels' u = lev levels u \/ lev levels' u = INVALID_LEVEL.

Lemma augment_paths_ok t fuel flow levels value incr : t ∈ sink_nodes -> flow_ok flow value -> phase_inv levels ->
  lev levels t <> INVALID_LEVEL -> smallest - value < Z.of_nat fuel ->
  exists flow' levels' k, augment_paths fuel flow levels view source_nodes t incr = Some (flow', levels', incr + k) /\
    0 <= k /\ flow_ok flow' (value + k) /\ phase_inv levels' /\ (has_pred flow levels -> 1 <= k).
Proof using Hin.
  intros Ht. pose proof (fi_sinks _ _ _ Hin t Ht) as Htr.
  assert (t ∉ source_nodes) as Hts by (intros Hs; by destruct (fi_disjoint _ _ _ Hin t Hs)).
  revert flow levels value incr. induction fuel as [|fuel IH]; intros flow levels value incr Hf Hp Hl Hfuel.
  { pose proof (flow_bounded _ _ Hf). lia. }
  destruct (GetAugmentingPath_ok flow (fo_len _ _ _ _ _ Hf) t levels Hp Htr Hts Hl) as (levels1 & path & E & Hp1 & Hlow & Hres & Hpred).
  cbn [augment_paths]. rewrite E. cbn [mbind option_bind].
  destruct Hres as [->|(a & p & -> & Ha & Hnd & Hc & Hlast & Hl1)].
  { exists flow, levels1, 0. rewrite !Z.add_0_r. split_and!; try done. intros Hh. by destruct (Hpred Hh). }
  destruct (augment_path_ok view source_nodes sink_nodes flow value a p Hf Hnd Hc Ha t Hlast Ht) as (flow1 & E1 & Hf1).
  rewrite E1. cbn [mbind option_bind].
  destruct (IH flow1 levels1 (value + 1) (incr + 1) Hf1 Hp1 Hl1) as (flow' & levels' & k & -> & Hk & Hf' & Hp' & _); [lia|].
  exists flow', levels', (1 + k). split; [do 2 f_equal; lia|]. split; [lia|]. split; [|split; [done|lia]].
  by replace (value + (1 + k)) with (value + 1 + k) by lia.
Qed.

Lemma blocking_flow_ok sinks flow levels value incr : (forall t, t ∈ sinks -> t ∈ sink_nodes) ->
  0 <= value -> flow_ok flow value -> phase_inv levels ->
  exists flow' levels' k, blocking_flow flow levels view source_nodes sinks incr = Some (flow', levels', incr + k) /\
    0 <= k /\ flow_ok flow' (value + k) /\
    (has_pred flow levels -> (exists t, t ∈ sinks /\ lev levels t <> INVALID_LEVEL) -> 1 <= k).
Proof using Hin.
  revert flow levels value incr. induction sinks as [|t sinks IH]; intros flow levels value incr Hs Hv Hf Hp.
  { exists flow, levels, 0. rewrite !Z.add_0_r. split_and!; try done. intros _ (t & ?%not_elem_of_nil & _). done. }
  assert (t ∈ sink_nodes) as Ht by (apply Hs; left).
  assert (forall t', t' ∈ sinks -> t' ∈ sink_nodes) as Hs' by (intros t' Ht'; apply Hs; by right).
  cbn [blocking_flow]. unfold augment_all_paths.
  rewrite lev_get by (rewrite (pi_len _ Hp); by apply (fi_sinks _ _ _ Hin)). cbn [mbind option_bind].
  destruct (Z.eqb_spec (lev levels t) INVALID_LEVEL) as [Hl|Hl].
  - cbn [mbind option_bind]. destruct (IH flow levels value incr) as (flow' & levels' & k & E & ? & ? & Hk); try done.
    exists flow', levels', k. split_and!; try done. intros Hpred (t' & [->|Ht']%elem_of_cons & Hl'); [done|]. eauto.
  - destruct (augment_paths_ok t (S (view_size view)) flow levels value incr Ht Hf Hp Hl) as (flow1 & levels1 & k1 & -> & Hk1 & Hf1 & Hp1 & Hpos).
    { pose proof smallest_fits. lia. }
    cbn [mbind option_bind].
    destruct (IH flow1 levels1 (value + k1) (incr + k1)) as (flow' & levels' & k & -> & Hk & Hf' & _); [done|lia|done..|].
    exists flow', levels', (k1 + k). split; [do 2 f_equal; lia|]. split; [lia|]. split.
    + by replace (value + (k1 + k)) with (value + k1 + k) by lia.
    + intros Hpred _. specialize (Hpos Hpred). lia.
Qed.

Lemma any_level_ok levels sinks : (forall t, t ∈ sinks -> 0 <= t < zlen levels) ->
  exists b, any_level levels sinks = Some b /\ (b = true <-> exists t, t ∈ sinks /\ lev levels t <> INVALID_LEVEL).
Proof.
  induction sinks as [|t sinks IH]; intros Hs; [exists false; split; [done|]; split; [done|]; by intros (t & ?%not_elem_of_nil & _)|].
  destruct IH as (b & E & Hb); [intros t' Ht'; apply Hs; by right|]. simpl. rewrite lev_get by (apply Hs; left). cbn [mbind option_bind].
  unfold is_valid_level. destruct (Z.eqb_spec (lev levels t) INVALID_LEVEL) as [Hl|Hl]; simpl.
  - exists b. split; [done|]. rewrite Hb. split; [intros (t' & ? & ?); exists t'; split; [by right|done]|].
    intros (t' & [->|?]%elem_of_cons & ?); [done|eauto].
  - exists true. split; [done|]. split; [|done]. intros _. exists t. split; [left|done].
Qed.

Lemma zero_levels_ok sources levels : (forall s, s ∈ sources -> 0 <= s < zlen levels) ->
  exists levels', zero_levels sources levels = Some levels' /\ zlen levels' = zlen levels /\
    forall u, lev levels' u = if decide (u ∈ sources) then 0 else lev levels u.
Proof.
  revert levels. induction sources as [|s sources IH]; intros levels Hs; [by exists levels|].
  destruct (lev_set levels s 0) as (levels1 & E1 & Hl1 & H1); [apply Hs; left|].
  destruct (IH levels1) as (levels' & E & Hl & H'); [intros u Hu; rewrite Hl1; apply Hs; by right|].
  simpl. rewrite E1. cbn [mbind option_bind]. exists levels'. split; [done|]. split; [lia|]. intros u. rewrite H', H1.
  repeat case_decide; set_solver.
Qed.

(** ** The result *)

Definition side (cut : MinCut) u : bool := default false (flags cut !z u).

Record min_cut (cut : MinCut) : Prop := {
  mc_flags : zlen (flags cut) = n;
  mc_separates : separates source_nodes sink_nodes (side cut);
  mc_edges : num_edges cut = cut_size view (side cut);
  mc_nodes : num_nodes_source cut = zlen (filter (fun b => b = true) (flags cut));
  mc_least : forall X, separates source_nodes sink_nodes X -> num_edges cut <= cut_size view X
}.

Lemma MakeCut_side levels value u : side (MakeCut levels value) u = is_valid_level (lev levels u).
Proof.
  unfold side, MakeCut, lev, zget. simpl. destruct (0 <=? u); [|done]. rewrite list_lookup_fmap. by destruct (levels !! Z.to_nat u).
Qed.

Lemma MakeCut_ok flow value levels levels' c : flow_ok flow value -> bfs_inv flow levels [] c ->
  (forall t, border sink_nodes t -> lev levels t = INVALID_LEVEL) -> zlen levels' = n ->
  (forall u, lev levels' u = if decide (u ∈ source_nodes) then 0 else lev levels u) -> min_cut (MakeCut levels' value).
Proof using Hin.
  intros Hf Hi Hsep Hlen Hl'.
  assert (forall t, t ∈ sink_nodes -> lev levels t = INVALID_LEVEL) as Hsinks.
  { intros t Ht. destruct (decide (lev levels t = INVALID_LEVEL)) as [|Hne]; [done|]. by apply Hsep, (bi_sink _ _ _ _ Hi). }
  assert (separates source_nodes sink_nodes (side (MakeCut levels' value))) as Hs.
  { split; intros u Hu; rewrite MakeCut_side, Hl'; [by rewrite decide_True|].
    rewrite decide_False by (intros ?; by destruct (fi_disjoint _ _ _ Hin u)). by rewrite Hsinks. }
  assert (forall u v, 0 <= u < n -> side (MakeCut levels' value) u = true -> v ∈ out u ->
    side (MakeCut levels' value) v = false -> flows flow u v) as Hfull.
  { intros u v Hu. rewrite !MakeCut_side, !Hl'. unfold is_valid_level. rewrite negb_true_iff, negb_false_iff, Z.eqb_neq, Z.eqb_eq.
    intros Hlu Hv Hlv. destruct (decide (v ∈ source_nodes)) as [|Hvs]; [done|].
    destruct (has_flow_ok flow u v) as ([] & _ & Hb); [by rewrite (fo_len _ _ _ _ _ Hf)|by apply Hb|].
    exfalso. assert (~ flows flow u v) as Hnf by (intros ?%Hb; done). revert Hlv.
    assert (u ∈ source_nodes -> border source_nodes u) as Hub by (intros ?; split; [done|eauto]).
    apply (bi_done _ _ _ _ Hi u v); try done; [|by apply not_elem_of_nil|split; [|done]].
    - destruct (decide (u ∈ source_nodes)) as [Hus|]; [|done]. by rewrite (bi_front _ _ _ _ Hi u (Hub Hus)).
    - intros Hut. destruct (decide (u ∈ source_nodes)) as [Hus|Hus]; [by destruct (fi_disjoint _ _ _ Hin u)|]. by rewrite Hsinks in Hlu. }
  split.
  - unfold MakeCut, zlen. simpl. by rewrite length_fmap.
  - done.
  - by eapply flow_eq_cut, Hfull; [apply Hin|exact Hf|].
  - simpl. clear. induction levels' as [|l levels IH]; [done|]. rewrite fmap_cons, !filter_cons.
    destruct (decide (Is_true (is_valid_level l))) as [H|H], (decide (is_valid_level l = true)) as [H'|H'];
      rewrite Is_true_true in H; try done; by rewrite ?zlen_cons, IH.
  - intros X HX. by eapply flow_le_cut.
Qed.

Lemma max_flow_ok fuel border_sources border_sinks flow value : NoDup border_sources ->
  (forall u, u ∈ border_sources <-> border source_nodes u) -> (forall u, u ∈ border_sinks <-> border sink_nodes u) ->
  0 <= value -> flow_ok flow value -> smallest - value < Z.of_nat fuel ->
  exists cut, max_flow fuel view source_nodes sink_nodes border_sources border_sinks flow value = Some cut /\ min_cut cut.
Proof using Hin.
  intros Hnd Hbs Hbt. revert flow value. induction fuel as [|fuel IH]; intros flow value Hv Hf Hfuel.
  { pose proof (flow_bounded _ _ Hf). lia. }
  destruct (ComputeLevelGraph_ok flow (fo_len _ _ _ _ _ Hf) border_sources Hnd Hbs) as (levels & c & E & Hi).
  cbn [max_flow]. rewrite E. cbn [mbind option_bind].
  assert (forall t, t ∈ border_sinks -> t ∈ sink_nodes) as Hts by (intros t Ht; by apply Hbt in Ht as [? _]).
  destruct (any_level_ok levels border_sinks) as (b & -> & Hb).
  { intros t Ht. rewrite (bi_len _ _ _ _ Hi). by apply (fi_sinks _ _ _ Hin), Hts. }
  cbn [mbind option_bind]. destruct b.
  - destruct (blocking_flow_ok border_sinks flow levels value 0 Hts Hv Hf (bfs_phase _ _ _ Hi)) as (flow' & levels' & k & Ek & Hk & Hf' & Hpos).
    unfold BlockingFlow. rewrite Ek. cbn [mbind option_bind]. rewrite Z.add_0_l.
    specialize (Hpos (bfs_has_pred _ _ _ Hi) (proj1 Hb eq_refl)). apply IH; [lia|done|lia].
  - destruct (zero_levels_ok source_nodes levels) as (levels' & -> & Hl & H').
    { intros s Hs. rewrite (bi_len _ _ _ _ Hi). by apply (fi_sources _ _ _ Hin). }
    cbn [mbind option_bind]. eexists; split; [done|]. eapply MakeCut_ok; [done|exact Hi| |by rewrite Hl; apply Hi|done].
    intros t Ht%Hbt. destruct (decide (lev levels t = INVALID_LEVEL)) as [|Hne]; [done|]. exfalso.
    assert (false = true) by (apply Hb; eauto). done.
Qed.

Lemma net_empty X m i : net_from X i (replicate m ∅) = 0.
Proof. revert i. induction m as [|m IH]; intros i; [done|]. simpl. rewrite IH. unfold net_row. by rewrite elements_empty. Qed.

Lemma no_flow u v : ~ flows (replicate (Z.to_nat n) ∅) u v.
Proof.
  intros (s & Hs & Hv). unfold zget in Hs. destruct (0 <=? u); [|done]. apply lookup_replicate in Hs as [-> _]. set_solver.
Qed.

Lemma DinicMaxFlow_ok : exists cut, DinicMaxFlow view source_nodes sink_nodes = Some cut /\ min_cut cut.
Proof using Hin.
  unfold DinicMaxFlow. destruct (border_nodes_ok source_nodes) as (bs & -> & Hbs & Hsub); [apply Hin|]. cbn [mbind option_bind].
  destruct (border_nodes_ok sink_nodes) as (bt & -> & Hbt & _); [apply Hin|]. cbn [mbind option_bind].
  apply max_flow_ok; try done; [eapply sublist_NoDup; [apply Hin|exact Hsub]|..].
  - pose proof (vo_nodes _ (fi_view _ _ _ Hin)). split.
    + unfold zlen. rewrite length_replicate. lia.
    + by intros u v ?%no_flow.
    + by intros u v ?%no_flow.
    + intros X _. apply net_empty.
  - pose proof smallest_fits. lia.
Qed.
End search.

Lemma Validate_ok view (source_nodes sink_nodes : list Z) : Validate view source_nodes sink_nodes = true ->
  (forall s, s ∈ source_nodes -> s < NumberOfNodes view /\ (s ∉ sink_nodes)) /\ (forall t, t ∈ sink_nodes -> t < NumberOfNodes view).
Proof.
  unfold Validate. rewrite !andb_true_iff, !negb_true_iff, <- !not_true_iff_false, !existsb_exists. intros [[Hd Hs] Ht].
  split; [intros s Hin; split|intros t Hin].
  - apply Z.nle_gt. intros Hle. apply Hs. exists s. split; [by apply list_elem_of_In|]. by apply Z.leb_le.
  - intros Hsink. apply Hd. exists s. split; [by apply list_elem_of_In|]. by apply bool_decide_true.
  - apply Z.nle_gt. intros Hle. apply Ht. exists t. split; [by apply list_elem_of_In|]. by apply Z.leb_le.
Qed.

(** ** Claims *)

(** C6: the max-flow computation returns a minimum cut.  For every view whose
    edges have their reverse, and for sources and sinks that pass [Validate], in
    whatever order the sets are iterated, the computation terminates.  Its flags
    put all sources on one side and all sinks on the other, its number of nodes
    is that of the source side, its number of edges is the number of adjacent
    pairs that the flags separate, and no set of nodes that contains the sources
    and none of the sinks is left by fewer edges. *)
Theorem dinic_min_cut view (source_nodes sink_nodes : list Z) (Hview : view_ok view) (Hnd : NoDup source_nodes)
    (Hs : Forall (fun s => 0 <= s) source_nodes) (Ht : Forall (fun t => 0 <= t) sink_nodes)
    (Hvalid : Validate view source_nodes sink_nodes = true) :
  exists cut, DinicMaxFlow view source_nodes sink_nodes = Some cut /\ zlen (flags cut) = NumberOfNodes view /\
    separates source_nodes sink_nodes (side cut) /\ num_edges cut = cut_size view (side cut) /\
    num_nodes_source cut = zlen (filter (fun b => b = true) (flags cut)) /\
    forall X, separates source_nodes sink_nodes X -> num_edges cut <= cut_size view X.
Proof.
  rewrite Forall_forall in Hs, Ht. apply Validate_ok in Hvalid as [Hsource Hsink].
  destruct (DinicMaxFlow_ok view source_nodes sink_nodes) as (cut & E & Hc).
  - split; try done.
    + intros s Hin. destruct (Hsource s Hin) as [? _]. by specialize (Hs s Hin).
    + intros t Hin. by specialize (Ht t Hin); specialize (Hsink t Hin).
    + intros s Hin. by apply Hsource.
  - exists cut. split; [done|]. by destruct Hc.
Qed.

(** ** An example *)

(** A grid of three rows and three columns. *)
Definition grid_edges : list BisectionInputEdge :=
  (fun e => mkBisectionInputEdge e.1 e.2) <$>
  [(0, 1); (0, 3); (1, 0); (1, 2); (1, 4); (2, 1); (2, 5); (3, 0); (3, 4); (3, 6); (4, 1); (4, 3);
   (4, 5); (4, 7); (5, 2); (5, 4); (5, 8); (6, 3); (6, 7); (7, 4); (7, 6); (7, 8); (8, 5); (8, 7)].

Definition grid : BisectionGraphView :=
  BisectionGraphView_new (makeBisectionGraph (replicate 9 (mkCoordinate 0 0)) grid_edges).

#[local] Instance input_edge_eq_dec : EqDecision BisectionInputEdge.
Proof. solve_decision. Defined.

Lemma grid_ok : view_ok grid.
Proof.
  apply makeBisectionGraph_view.
  - repeat (constructor; [|by repeat (constructor; [done|])]). constructor.
  - done.
  - apply Forall_forall. by repeat (constructor; [done|]).
  - apply (proj1 (Forall_forall (fun e => mkBisectionInputEdge (be_target e) (be_source e) ∈ grid_edges) grid_edges)).
    apply (bool_decide_unpack _). by vm_compute.
Qed.

Lemma dinic_min_cut_witness : exists cut, DinicMaxFlow grid [0; 3] [8] = Some cut /\ num_edges cut = 2 /\
  num_edges cut = cut_size grid (side cut) /\ forall X, separates [0; 3] [8] X -> 2 <= cut_size grid X.
Proof.
  destruct (dinic_min_cut grid [0; 3] [8] grid_ok) as (cut & E & _ & _ & Hsize & _ & Hleast).
  - apply (bool_decide_unpack _). by vm_compute.
  - repeat constructor; done.
  - repeat constructor; done.
  - by vm_compute.
  - assert (num_edges cut = 2) as H2 by (clear -E; vm_compute in E; by injection E as <-).
    exists cut. split; [exact E|]. split; [exact H2|]. split; [exact Hsize|]. rewrite <- H2. exact Hleast.
Defined.
