(* ===== verification/BisectionToPartition.v ===== *)
(** * From bisections to partitions

    Model of src/partitioner/bisection_to_partition.cpp.  The bisection id of a
    node tells on which side of each bisection it lies, the first bisection in
    the highest bit.  From the top level down, cells that are too large are
    split at the highest bit in which their nodes differ, until they are small
    enough or their nodes have the same id; a cell is a range of an array of
    node ids that the splits permute.

    [std::partition] leaves the order inside the two parts open: it is an
    argument with its contract as a class. *)
From S2P Require Import Prelude MultiLevelPartition.

Record CellBisection : Type := mkCellBisection { cb_begin : Z; cb_end : Z; cb_bit : Z; cb_tabu : bool }.

Definition NUM_BISECTION_BITS : Z := 32.
Definition INVALID_CELL_ID : Z := UINT32_MAX.

(** [std::partition] on a range: the elements that satisfy the predicate first. *)
Class StdPartition (part : (Z -> bool) -> list Z -> list Z) : Prop :=
  std_partition_spec p l : exists yes no, part p l = yes ++ no /\ yes ++ no ≡ₚ l /\
    Forall (fun x => p x = true) yes /\ Forall (fun x => p x = false) no.

Definition stable_partition (p : Z -> bool) (l : list Z) : list Z :=
  filter (fun x => p x = true) l ++ filter (fun x => p x = false) l.

#[global] Instance stable_partition_spec : StdPartition stable_partition.
Proof.
  intros p l. exists (filter (fun x => p x = true) l), (filter (fun x => p x = false) l). split; [done|]. split_and!.
  - induction l as [|x l IH]; [done|]. rewrite !filter_cons. destruct (p x).
    + rewrite decide_True, decide_False by done. by apply perm_skip.
    + rewrite decide_False, decide_True by done. by rewrite <- Permutation_middle, IH.
  - apply Forall_forall. by intros x [? _]%list_elem_of_filter.
  - apply Forall_forall. by intros x [? _]%list_elem_of_filter.
Qed.

(** ** Large cells *)

Fixpoint getLargeCells_from (max_cell_size index : Z) (cells : list CellBisection) : list Z :=
  match cells with
  | [] => []
  | cell :: cells =>
      let rest := getLargeCells_from max_cell_size (index + 1) cells in
      if negb (cb_tabu cell) && (max_cell_size <? wrap 32 (cb_end cell - cb_begin cell)) then index :: rest else rest
  end.

Definition getLargeCells (max_cell_size : Z) (cells : list CellBisection) : list Z :=
  getLargeCells_from max_cell_size 0 cells.

(** ** Splitting a cell *)

(** The elements of a range of an array; [None] when it is not one. *)
Definition zrange {A} (l : list A) (first last : Z) : option (list A) :=
  if (0 <=? first) && (first <=? last) && (last <=? zlen l) then Some (zslice l first (last - first)) else None.

Definition zreplace {A} (l : list A) (first : Z) (new : list A) : list A :=
  take (Z.to_nat first) l ++ new ++ drop (Z.to_nat first + length new) l.

(** [std::accumulate] of the ids with bitwise or. *)
Fixpoint or_ids (node_to_bisection_id : list Z) (nodes : list Z) (acc : Z) : option Z :=
  match nodes with
  | [] => Some acc
  | node :: nodes => id ← node_to_bisection_id !z node; or_ids node_to_bisection_id nodes (Z.lor acc id)
  end.

(** The side of a node, whose id has been looked up before. *)
Definition is_left (node_to_bisection_id : list Z) (is_left_mask node : Z) : bool :=
  negb (Z.land (default 0 (node_to_bisection_id !z node)) is_left_mask =? 0).

Section bisection.
Context (part : (Z -> bool) -> list Z -> list Z).

(** The second half of the loop body: the split at [bit]. *)
Definition split_at (node_to_bisection_id permutation : list Z) (cells : list CellBisection) (cell_index : Z)
    (cell : CellBisection) (nodes : list Z) (bit : Z) : option (list Z * list CellBisection) :=
  let is_left_mask := wrap 32 (Z.shiftl 1 bit) in
  let left := is_left node_to_bisection_id is_left_mask in
  let permutation' := zreplace permutation (cb_begin cell) (part left nodes) in
  let middle := wrap 32 (cb_begin cell + zlen (filter (fun node => left node = true) nodes)) in
  let bit' := if 0 <? bit then wrap 8 (bit - 1) else cb_bit cell in
  let tabu' := if 0 <? bit then cb_tabu cell else true in
  if negb (middle =? cb_begin cell) && negb (middle =? cb_end cell) then
    cells' ← zset cell_index (mkCellBisection (cb_begin cell) middle bit' tabu') cells;
    Some (permutation', cells' ++ [mkCellBisection middle (cb_end cell) bit' tabu'])
  else
    cells' ← zset cell_index (mkCellBisection (cb_begin cell) (cb_end cell) bit' tabu') cells;
    Some (permutation', cells').

(** The body of the loop over the large cells. *)
Definition split_cell (node_to_bisection_id permutation : list Z) (cells : list CellBisection) (cell_index : Z)
  : option (list Z * list CellBisection) :=
  cell ← cells !z cell_index;
  nodes ← zrange permutation (cb_begin cell) (cb_end cell);
  sum ← or_ids node_to_bisection_id nodes 0;
  let mask := wrap 32 (Z.shiftl 1 (cb_bit cell + 1) - 1) in
  let masked_sum := Z.land sum mask in
  if masked_sum =? 0 then
    cells' ← zset cell_index (mkCellBisection (cb_begin cell) (cb_end cell) (cb_bit cell) true) cells;
    Some (permutation, cells')
  else split_at node_to_bisection_id permutation cells cell_index cell nodes (msb masked_sum).

Fixpoint split_cells (node_to_bisection_id permutation : list Z) (cells : list CellBisection) (large_cells : list Z)
  : option (list Z * list CellBisection) :=
  match large_cells with
  | [] => Some (permutation, cells)
  | cell_index :: large_cells =>
      '(permutation', cells') ← split_cell node_to_bisection_id permutation cells cell_index;
      split_cells node_to_bisection_id permutation' cells' large_cells
  end.

Fixpoint partition_rounds (fuel : nat) (node_to_bisection_id : list Z) (max_cell_size : Z) (permutation : list Z)
    (cells : list CellBisection) : option (list Z * list CellBisection) :=
  match fuel with
  | O => None
  | S fuel =>
      let large_cells := getLargeCells max_cell_size cells in
      if 0 <? zlen large_cells then
        '(permutation', cells') ← split_cells node_to_bisection_id permutation cells large_cells;
        partition_rounds fuel node_to_bisection_id max_cell_size permutation' cells'
      else Some (permutation, cells)
  end.

(** Every round takes a bit from all large cells, so that one more round than
    there are bits is enough. *)
Definition partitionLevel (node_to_bisection_id : list Z) (max_cell_size : Z) (permutation : list Z)
    (cells : list CellBisection) : option (list Z * list CellBisection) :=
  partition_rounds 33 node_to_bisection_id max_cell_size permutation cells.

(** ** All levels *)

Fixpoint set_cell_ids (partition nodes : list Z) (cell_id : Z) : option (list Z) :=
  match nodes with
  | [] => Some partition
  | node :: nodes => partition' ← zset node cell_id partition; set_cell_ids partition' nodes cell_id
  end.

Fixpoint assign_cell_ids (partition permutation : list Z) (cells : list CellBisection) (cell_id : Z) : option (list Z) :=
  match cells with
  | [] => Some partition
  | cell :: cells =>
      nodes ← zrange permutation (cb_begin cell) (cb_end cell);
      partition' ← set_cell_ids partition nodes cell_id;
      assign_cell_ids partition' permutation cells (wrap 32 (cell_id + 1))
  end.

Definition cellsToPartition (cells : list CellBisection) (permutation : list Z) : option (list Z) :=
  assign_cell_ids (replicate (length permutation) INVALID_CELL_ID) permutation cells 0.

(** The loop over the sizes from the last to the first; the results of the
    levels above are [partitions] and [num_cells]. *)
Fixpoint partition_levels (node_to_bisection_id permutation : list Z) (cells : list CellBisection)
    (max_cell_sizes : list Z) (partitions : list (list Z)) (num_cells : list Z) : option (list (list Z) * list Z) :=
  match max_cell_sizes with
  | [] => Some (partitions, num_cells)
  | max_cell_size :: max_cell_sizes =>
      '(permutation', cells') ← partitionLevel node_to_bisection_id max_cell_size permutation cells;
      p ← cellsToPartition cells' permutation';
      partition_levels node_to_bisection_id permutation' cells' max_cell_sizes (p :: partitions)
        (wrap 32 (zlen cells') :: num_cells)
  end.

Definition bisectionToPartition (node_to_bisection_id max_cell_sizes : list Z) : option (list (list Z) * list Z) :=
  partition_levels node_to_bisection_id (seqZ 0 (zlen node_to_bisection_id))
    [mkCellBisection 0 (wrap 32 (zlen node_to_bisection_id)) (NUM_BISECTION_BITS - 1) false]
    (reverse max_cell_sizes) [] [].
End bisection.

(** ** Ranges *)

Section ranges.
Context {A : Type}.
Implicit Types (l new : list A).

Lemma zrange_ok l a b : 0 <= a <= b -> b <= zlen l -> zrange l a b = Some (zslice l a (b - a)).
Proof. intros. unfold zrange. by do 3 (rewrite (proj2 (Z.leb_le _ _)) by lia). Qed.

Lemma zreplace_len l a new : 0 <= a -> a + zlen new <= zlen l -> zlen (zreplace l a new) = zlen l.
Proof. intros. unfold zreplace, zlen in *. rewrite !length_app, length_take, length_drop. lia. Qed.

Lemma zreplace_get l a new k : 0 <= a -> a + zlen new <= zlen l ->
  zreplace l a new !z k = if decide (a <= k < a + zlen new) then new !z (k - a) else l !z k.
Proof.
  intros Ha Hn. unfold zreplace, zget, zlen in *. destruct (Z.leb_spec 0 k); [|by rewrite decide_False by lia].
  destruct (decide (a <= k < a + Z.of_nat (length new))) as [Hk|Hk].
  - rewrite (proj2 (Z.leb_le 0 (k - a))) by lia. rewrite lookup_app_r by (rewrite length_take; lia).
    rewrite length_take, Nat.min_l by lia. rewrite lookup_app_l by lia. f_equal. lia.
  - destruct (decide (k < a)) as [Hlt|Hge].
    + rewrite lookup_app_l by (rewrite length_take; lia). rewrite lookup_take_lt by lia. done.
    + rewrite lookup_app_r by (rewrite length_take; lia). rewrite length_take, Nat.min_l by lia.
      rewrite lookup_app_r by lia. rewrite lookup_drop. f_equal. lia.
Qed.

Lemma zslice_mem l a m x : 0 <= a -> 0 <= m -> a + m <= zlen l ->
  x ∈ zslice l a m <-> exists k, a <= k < a + m /\ l !z k = Some x.
Proof.
  intros Ha Hm Hl. split; [by apply zslice_elem|]. intros (k & Hk & Hx). apply (zget_elem _ (k - a)).
  rewrite zslice_get by lia. by replace (a + (k - a)) with k by lia.
Qed.

(** A slice inside the replaced part, and one outside of it. *)
Lemma zreplace_inside l a new b m : 0 <= a -> a + zlen new <= zlen l -> a <= b -> 0 <= m -> b + m <= a + zlen new ->
  zslice (zreplace l a new) b m = zslice new (b - a) m.
Proof.
  intros Ha Hl Hb Hm Hbm. apply zslice_shift; try lia; [rewrite zreplace_len by lia; lia|].
  intros k Hk. rewrite zreplace_get by lia. rewrite decide_True by lia. f_equal. lia.
Qed.

Lemma zreplace_outside l a new b m : 0 <= a -> a + zlen new <= zlen l -> 0 <= b -> 0 <= m -> b + m <= zlen l ->
  b + m <= a \/ a + zlen new <= b -> zslice (zreplace l a new) b m = zslice l b m.
Proof.
  intros Ha Hl Hb Hm Hbm Hd. apply zslice_shift; try lia; [rewrite zreplace_len by lia; lia|].
  intros k Hk. rewrite zreplace_get by lia. by rewrite decide_False by lia.
Qed.

Lemma zreplace_Permutation l a new : 0 <= a -> a + zlen new <= zlen l -> new ≡ₚ zslice l a (zlen new) ->
  zreplace l a new ≡ₚ l.
Proof.
  intros Ha Hl Hp. unfold zreplace.
  transitivity (take (Z.to_nat a) l ++ zslice l a (zlen new) ++ drop (Z.to_nat a + length new) l).
  - apply Permutation_app_head, Permutation_app_tail, Hp.
  - unfold zslice, zlen. by rewrite Nat2Z.id, <- drop_drop, !take_drop.
Qed.
End ranges.

Lemma or_ids_ok ids nodes acc : (forall x, x ∈ nodes -> 0 <= x < zlen ids) -> exists sum, or_ids ids nodes acc = Some sum /\
  forall j, Z.testbit sum j = true <-> Z.testbit acc j = true \/ exists x id, x ∈ nodes /\ ids !z x = Some id /\ Z.testbit id j = true.
Proof.
  revert acc. induction nodes as [|x nodes IH]; intros acc Hr.
  { exists acc. split; [done|]. intros j. split; [by left|]. intros [?|(x & _ & ?%not_elem_of_nil & _)]; done. }
  destruct (zget_is_some ids x) as [id Hid]; [apply Hr; left|]. simpl. rewrite Hid. cbn [mbind option_bind].
  destruct (IH (Z.lor acc id)) as (sum & -> & Hs); [intros y Hy; apply Hr; by right|]. exists sum. split; [done|].
  intros j. rewrite Hs, Z.lor_spec, orb_true_iff. split.
  - intros [[?|?]|(y & id' & ? & ? & ?)]; [by left|right; exists x, id; split; [left|done]|right; exists y, id'; split; [by right|done]].
  - intros [?|(y & id' & [->|Hy]%elem_of_cons & Hy' & ?)]; [by do 2 left| |right; eauto].
    left. right. congruence.
Qed.

(** ** The invariant of the splits *)

Section splits.
Context (ids : list Z) (Hids : Forall (in_word 32) ids).
Abbreviation n := (zlen ids).
Context (Hn : 0 < n < 2 ^ 32).
Context (part : (Z -> bool) -> list Z -> list Z) `{!StdPartition part}.
Implicit Types (perm : list Z) (cells : list CellBisection) (c d : CellBisection).

Definition idof (x : Z) : Z := default 0 (ids !z x).

Lemma idof_word x : in_word 32 (idof x).
Proof using Hids.
  unfold idof. destruct (ids !z x) as [id|] eqn:E; simpl; [|done]. rewrite Forall_forall in Hids. apply Hids. by eapply zget_elem.
Qed.

Definition cell_nodes perm c : list Z := zslice perm (cb_begin c) (cb_end c - cb_begin c).

Definition in_cell perm cells (i x : Z) : Prop := exists c, cells !z i = Some c /\ x ∈ cell_nodes perm c.

(** The nodes of a cell agree above its bit, and on all bits when it is tabu. *)
Definition agree c (x y : Z) : Prop := forall j, 0 <= j -> cb_tabu c = true \/ cb_bit c < j -> Z.testbit (idof x) j = Z.testbit (idof y) j.

Record split_inv perm cells : Prop := {
  si_perm : perm ≡ₚ seqZ 0 n;
  si_cell i c : cells !z i = Some c -> 0 <= cb_begin c < cb_end c /\ cb_end c <= n /\ 0 <= cb_bit c < 32;
  si_disjoint i j c d : cells !z i = Some c -> cells !z j = Some d -> i <> j -> cb_end c <= cb_begin d \/ cb_end d <= cb_begin c;
  si_cover x : 0 <= x < n -> exists i, in_cell perm cells i x;
  si_agree i c x y : cells !z i = Some c -> x ∈ cell_nodes perm c -> y ∈ cell_nodes perm c -> agree c x y;
  si_apart i j x y : in_cell perm cells i x -> in_cell perm cells j y -> i <> j -> idof x <> idof y
}.

Lemma split_perm_len perm cells : split_inv perm cells -> zlen perm = n.
Proof. intros Hi. rewrite (si_perm _ _ Hi). unfold zlen at 1. rewrite length_seqZ. lia. Qed.

Lemma split_perm_elem perm cells x : split_inv perm cells -> x ∈ perm <-> 0 <= x < n.
Proof. intros Hi. rewrite (si_perm _ _ Hi), elem_of_seqZ. lia. Qed.

Lemma in_cell_unique perm cells i j x : split_inv perm cells -> in_cell perm cells i x -> in_cell perm cells j x -> i = j.
Proof.
  intros Hi Hx Hy. destruct (decide (i = j)) as [|Hne]; [done|]. by destruct (si_apart _ _ Hi i j x x Hx Hy Hne).
Qed.

Lemma in_cell_range perm cells i x : split_inv perm cells -> in_cell perm cells i x -> 0 <= x < n.
Proof.
  intros Hi (c & Hc & Hx). destruct (si_cell _ _ Hi i c Hc) as (? & ? & _). rewrite <- (split_perm_elem perm cells x Hi).
  apply zslice_elem in Hx as (k & _ & Hk); [|lia]. by eapply zget_elem.
Qed.

(** Cells of the state after come from cells of the state before. *)
Definition refines perm cells perm' cells' : Prop :=
  exists parent : Z -> Z, forall i x, in_cell perm' cells' i x -> in_cell perm cells (parent i) x.

Lemma refines_refl perm cells : refines perm cells perm cells.
Proof. by exists (fun i => i). Qed.

Lemma refines_trans p1 k1 p2 k2 p3 k3 : refines p1 k1 p2 k2 -> refines p2 k2 p3 k3 -> refines p1 k1 p3 k3.
Proof. intros [f Hf] [g Hg]. exists (fun i => f (g i)). intros i x Hx. by apply Hf, Hg. Qed.

(** A cell whose nodes change nothing but its bit. *)
Lemma split_inv_update perm cells cells' i c b t : split_inv perm cells -> cells !z i = Some c -> 0 <= b < 32 ->
  zset i (mkCellBisection (cb_begin c) (cb_end c) b t) cells = Some cells' ->
  (forall x y, x ∈ cell_nodes perm c -> y ∈ cell_nodes perm c -> agree (mkCellBisection (cb_begin c) (cb_end c) b t) x y) ->
  split_inv perm cells' /\ refines perm cells perm cells'.
Proof.
  intros Hi Hc Hb E Hagree. destruct (si_cell _ _ Hi i c Hc) as (Hr & He & _).
  assert (forall j d, cells' !z j = Some d -> exists d0, cells !z j = Some d0 /\ cb_begin d = cb_begin d0 /\ cb_end d = cb_end d0 /\
    ((j = i /\ d = mkCellBisection (cb_begin c) (cb_end c) b t) \/ d = d0)) as Hback.
  { intros j d Hd. destruct (decide (i = j)) as [<-|Hne].
    - rewrite (zset_get_eq _ _ _ _ E) in Hd. injection Hd as <-. exists c. split_and!; try done. by left.
    - rewrite (zset_get_ne _ _ _ _ _ E) in Hd by done. exists d. split_and!; try done. by right. }
  assert (forall j x, in_cell perm cells' j x -> in_cell perm cells j x) as Hin.
  { intros j x (d & Hd & Hx). apply Hback in Hd as (d0 & Hd0 & Eb & Ee & _). exists d0. split; [done|]. unfold cell_nodes in *. by rewrite <- Eb, <- Ee. }
  assert (forall j x, in_cell perm cells j x -> in_cell perm cells' j x) as Hout.
  { intros j x (d & Hd & Hx). destruct (decide (i = j)) as [<-|Hne].
    - eexists. split; [by eapply zset_get_eq|]. by simplify_eq.
    - exists d. split; [|done]. by rewrite (zset_get_ne _ _ _ _ _ E). }
  split; [|by exists (fun j => j)]. split.
  - apply Hi.
  - intros j d (d0 & Hd0 & -> & -> & Hcase)%Hback. destruct (si_cell _ _ Hi j d0 Hd0) as (? & ? & ?).
    destruct Hcase as [[_ ->]| ->]; done.
  - intros j k d e (d0 & Hd0 & -> & -> & _)%Hback (e0 & He0 & -> & -> & _)%Hback Hne. by eapply (si_disjoint _ _ Hi).
  - intros x [j Hx]%(si_cover _ _ Hi). exists j. by apply Hout.
  - intros j d x y (d0 & Hd0 & Eb & Ee & Hcase)%Hback. unfold cell_nodes. rewrite Eb, Ee.
    destruct Hcase as [[-> ->]| ->]; [simplify_eq; apply Hagree|by apply (si_agree _ _ Hi j d0)].
  - intros j k x y Hx%Hin Hy%Hin. by apply (si_apart _ _ Hi).
Qed.

(** Permuting the nodes of a cell. *)
Lemma split_inv_permute perm cells i c new : split_inv perm cells -> cells !z i = Some c -> new ≡ₚ cell_nodes perm c ->
  split_inv (zreplace perm (cb_begin c) new) cells /\ refines perm cells (zreplace perm (cb_begin c) new) cells /\
  cell_nodes (zreplace perm (cb_begin c) new) c = new.
Proof.
  intros Hi Hc Hnew. destruct (si_cell _ _ Hi i c Hc) as (Hr & He & _). pose proof (split_perm_len _ _ Hi) as Hlen.
  assert (zlen new = cb_end c - cb_begin c) as Hnl by (rewrite Hnew; apply zslice_len; lia).
  assert (cell_nodes (zreplace perm (cb_begin c) new) c = new) as Hown.
  { unfold cell_nodes. rewrite zreplace_inside by lia. rewrite Z.sub_diag, <- Hnl. unfold zslice, zlen.
    by rewrite Nat2Z.id, drop_0, firstn_all. }
  assert (forall j d x, cells !z j = Some d -> x ∈ cell_nodes (zreplace perm (cb_begin c) new) d <-> x ∈ cell_nodes perm d) as Hsame.
  { intros j d x Hd. destruct (decide (j = i)) as [->|Hne]; [simplify_eq; by rewrite Hown, Hnew|].
    destruct (si_cell _ _ Hi j d Hd) as (? & ? & _). unfold cell_nodes. rewrite zreplace_outside; [done|lia..|].
    destruct (si_disjoint _ _ Hi j i d c Hd Hc Hne); lia. }
  assert (forall j x, in_cell (zreplace perm (cb_begin c) new) cells j x <-> in_cell perm cells j x) as Hin.
  { intros j x. split; intros (d & Hd & Hx); exists d; (split; [done|]); by eapply Hsame. }
  split_and!; [split|exists (fun j => j); intros j x; by apply Hin|done].
  - rewrite zreplace_Permutation; [apply Hi|lia..|]. by rewrite Hnl.
  - apply Hi.
  - apply Hi.
  - intros x [j Hx]%(si_cover _ _ Hi). exists j. by apply Hin.
  - intros j d x y Hd Hx%(Hsame _ _ _ Hd) Hy%(Hsame _ _ _ Hd). by eapply (si_agree _ _ Hi).
  - intros j k x y Hx%Hin Hy%Hin. by apply (si_apart _ _ Hi).
Qed.

(** Cutting a cell in two. *)
Lemma split_inv_cut perm cells cells' i c b t yes no : split_inv perm cells -> cells !z i = Some c -> 0 <= b < 32 ->
  cell_nodes perm c = yes ++ no -> 0 < zlen yes -> 0 < zlen no ->
  zset i (mkCellBisection (cb_begin c) (cb_begin c + zlen yes) b t) cells = Some cells' ->
  (forall x y, x ∈ yes -> y ∈ yes -> agree (mkCellBisection 0 0 b t) x y) ->
  (forall x y, x ∈ no -> y ∈ no -> agree (mkCellBisection 0 0 b t) x y) ->
  (forall x y, x ∈ yes -> y ∈ no -> idof x <> idof y) ->
  let cells2 := cells' ++ [mkCellBisection (cb_begin c + zlen yes) (cb_end c) b t] in
  split_inv perm cells2 /\ refines perm cells perm cells2.
Proof.
  intros Hi Hc Hb Hnodes Hy0 Hn0 E Hyes Hno Hyn cells2. destruct (si_cell _ _ Hi i c Hc) as (Hr & He & _).
  pose proof (split_perm_len _ _ Hi) as Hlen. pose proof (zset_len _ _ _ _ E) as Hl'. pose proof (zget_some _ _ _ Hc) as Hir.
  assert (zlen yes + zlen no = cb_end c - cb_begin c) as Hsum.
  { rewrite <- zlen_app, <- Hnodes. apply zslice_len; lia. }
  set (c1 := mkCellBisection (cb_begin c) (cb_begin c + zlen yes) b t) in *.
  set (c2 := mkCellBisection (cb_begin c + zlen yes) (cb_end c) b t) in *.
  assert (cell_nodes perm c1 = yes) as H1.
  { apply zlist_eq; [unfold cell_nodes; simpl; rewrite zslice_len; lia|]. intros k Hk.
    unfold cell_nodes in *. simpl. rewrite zslice_len in Hk by (simpl; lia). simpl in Hk. rewrite zslice_get by lia.
    rewrite <- (zget_app_l yes no) by lia. rewrite <- Hnodes, zslice_get by lia. done. }
  assert (cell_nodes perm c2 = no) as H2.
  { apply zlist_eq; [unfold cell_nodes; simpl; rewrite zslice_len; lia|]. intros k Hk.
    unfold cell_nodes in *. simpl. rewrite zslice_len in Hk by (simpl; lia). simpl in Hk. rewrite zslice_get by lia.
    replace k with (zlen yes + k - zlen yes) at 2 by lia. rewrite <- (zget_app_r yes no) by lia.
    rewrite <- Hnodes, zslice_get by lia. f_equal. lia. }
  assert (forall j d, cells2 !z j = Some d -> (j <> i /\ cells !z j = Some d) \/ (j = i /\ d = c1) \/ (j = zlen cells /\ d = c2)) as Hget.
  { intros j d Hd. unfold cells2 in Hd. destruct (decide (j < zlen cells)) as [Hj|Hj].
    - rewrite zget_app_l in Hd by lia. destruct (decide (i = j)) as [<-|Hne].
      + rewrite (zset_get_eq _ _ _ _ E) in Hd. injection Hd as <-. by right; left.
      + rewrite (zset_get_ne _ _ _ _ _ E) in Hd by done. by left.
    - rewrite zget_app_r in Hd by lia. apply zget_cons_inv in Hd as [[Hj0 ->]|[_ Hd]].
      + right. right. split; [lia|done].
      + apply zget_some in Hd. unfold zlen in Hd. simpl in Hd. lia. }
  assert (cells2 !z i = Some c1) as Hg1 by (unfold cells2; rewrite zget_app_l by lia; by eapply zset_get_eq).
  assert (cells2 !z zlen cells = Some c2) as Hg2 by (unfold cells2; rewrite zget_app_r by lia; by replace (zlen cells - zlen cells') with 0 by lia).
  assert (forall j d, j <> i -> cells !z j = Some d -> cells2 !z j = Some d) as Hg.
  { intros j d Hne Hd. pose proof (zget_some _ _ _ Hd). unfold cells2. rewrite zget_app_l by lia. by rewrite (zset_get_ne _ _ _ _ _ E). }
  assert (forall j x, in_cell perm cells2 j x -> in_cell perm cells (if decide (j = zlen cells) then i else j) x) as Hback.
  { intros j x (d & Hd & Hx). pose proof (Hget _ _ Hd) as [[Hne Hd']|[[-> ->]|[-> ->]]].
    - rewrite decide_False by (apply zget_some in Hd'; lia). by exists d.
    - rewrite decide_False by lia. exists c. split; [done|]. rewrite Hnodes, <- H1. set_solver.
    - rewrite decide_True by done. exists c. split; [done|]. rewrite Hnodes, <- H2. set_solver. }
  split; [split|by exists (fun j => if decide (j = zlen cells) then i else j)].
  - apply Hi.
  - intros j d [[_ Hd]|[[_ ->]|[_ ->]]]%Hget; [by apply (si_cell _ _ Hi j)|simpl; lia..].
  - intros j k d e Hd He' Hne. apply Hget in Hd, He'.
    destruct Hd as [[Hji Hd]|[[-> ->]|[-> ->]]], He' as [[Hki He']|[[-> ->]|[-> ->]]]; simpl; try done; try lia.
    + by eapply (si_disjoint _ _ Hi j k).
    + destruct (si_disjoint _ _ Hi j i d c Hd Hc Hji); lia.
    + destruct (si_disjoint _ _ Hi j i d c Hd Hc Hji); lia.
    + destruct (si_disjoint _ _ Hi k i e c He' Hc Hki); lia.
    + destruct (si_disjoint _ _ Hi k i e c He' Hc Hki); lia.
  - intros x (j & d & Hd & Hx)%(si_cover _ _ Hi). destruct (decide (j = i)) as [->|Hne]; [|exists j, d; split; [by apply Hg|done]].
    assert (d = c) as -> by congruence. rewrite Hnodes in Hx. apply elem_of_app in Hx as [Hx|Hx]; [exists i, c1|exists (zlen cells), c2]; (split; [done|]).
    + by rewrite H1.
    + by rewrite H2.
  - intros j d x y [[_ Hd]|[[_ ->]|[_ ->]]]%Hget; [by apply (si_agree _ _ Hi j)|rewrite H1; apply Hyes|rewrite H2; apply Hno].
  - intros j k x y Hx Hy Hne. pose proof (Hback j x Hx) as Hx'. pose proof (Hback k y Hy) as Hy'.
    destruct (decide ((if decide (j = zlen cells) then i else j) = (if decide (k = zlen cells) then i else k))) as [Heq|];
      [|by eapply (si_apart _ _ Hi)].
    destruct Hx as (d & Hd & Hx), Hy as (e & He' & Hy). apply Hget in Hd, He'.
    destruct Hd as [[Hji Hd]|[[-> ->]|[-> ->]]], He' as [[Hki He']|[[-> ->]|[-> ->]]]; try done;
      repeat match goal with H : _ !z ?j = Some _ |- _ => apply zget_some in H end;
      clear Hx' Hy'; repeat case_decide; try lia.
    + rewrite H1 in Hx. rewrite H2 in Hy. by apply Hyn.
    + rewrite H2 in Hx. rewrite H1 in Hy. intros Eq. by apply (Hyn y x).
Qed.

Lemma idof_get x : 0 <= x < n -> ids !z x = Some (idof x).
Proof. intros [id Hid]%zget_is_some. unfold idof. by rewrite Hid. Qed.

Lemma land_pow2 a m : 0 <= m -> (Z.land a (2 ^ m) =? 0) = negb (Z.testbit a m).
Proof.
  intros Hm. destruct (Z.testbit a m) eqn:E; simpl.
  - apply Z.eqb_neq. intros H. apply (f_equal (fun z => Z.testbit z m)) in H.
    rewrite Z.land_spec, Z.pow2_bits_true, E, Z.bits_0 in H by done. done.
  - apply Z.eqb_eq. apply Z.bits_inj'. intros j Hj. rewrite Z.land_spec, Z.bits_0. destruct (decide (j = m)) as [->|Hne].
    + by rewrite E.
    + by rewrite Z.pow2_bits_false, andb_false_r.
Qed.

(** The highest bit up to [b] that a node of the cell has. *)
Lemma top_bit nodes b : (forall x, x ∈ nodes -> 0 <= x < n) -> 0 <= b < 32 ->
  exists sum, or_ids ids nodes 0 = Some sum /\
    let masked := Z.land sum (wrap 32 (Z.shiftl 1 (b + 1) - 1)) in
    (masked = 0 /\ forall x j, x ∈ nodes -> 0 <= j <= b -> Z.testbit (idof x) j = false) \/
    (masked <> 0 /\ 0 <= msb masked <= b /\ (exists x, x ∈ nodes /\ Z.testbit (idof x) (msb masked) = true) /\
      forall x j, x ∈ nodes -> msb masked < j <= b -> Z.testbit (idof x) j = false).
Proof using Hids.
  intros Hr Hb. destruct (or_ids_ok ids nodes 0 Hr) as (sum & E & Hsum). exists sum. split; [done|]. simpl.
  rewrite Z.shiftl_1_l, wrap_small.
  2: { pose proof (Z.pow_le_mono_r 2 (b + 1) 32 ltac:(lia) ltac:(lia)). pose proof (Z.pow_pos_nonneg 2 (b + 1)). unfold in_word. lia. }
  set (masked := Z.land sum (2 ^ (b + 1) - 1)).
  assert (forall j, 0 <= j -> Z.testbit masked j = true <-> j <= b /\ exists x, x ∈ nodes /\ Z.testbit (idof x) j = true) as Hbits.
  { intros j Hj. unfold masked. rewrite Z.land_spec, testbit_ones, !andb_true_iff, Z.leb_le, Z.ltb_lt by lia.
    rewrite Hsum, Z.bits_0. split.
    - intros [[?|(x & id & Hx & Hid & ?)] ?]; [done|]. split; [lia|]. exists x. split; [done|]. unfold idof. by rewrite Hid.
    - intros [? (x & Hx & Hj')]. split; [|lia]. right. exists x, (idof x). split_and!; try done. by apply idof_get, Hr. }
  assert (0 <= masked) as Hm0.
  { apply Z.land_nonneg. right. pose proof (Z.pow_pos_nonneg 2 (b + 1)). lia. }
  assert (masked < 2 ^ 64) as Hm64.
  { apply (in_word_bits 64 masked); [lia|done|]. intros j Hj. apply not_true_iff_false. rewrite Hbits by lia. lia. }
  destruct (decide (masked = 0)) as [Hz|Hz].
  - left. split; [done|]. intros x j Hx Hj. apply not_true_iff_false. intros Ht.
    assert (Z.testbit masked j = true) as H by (apply Hbits; [lia|]; split; [lia|eauto]). by rewrite Hz, Z.bits_0 in H.
  - right. rewrite msb_log2 by lia. pose proof (Z.log2_nonneg masked) as Hl.
    destruct (proj1 (Hbits _ Hl) (Z.bit_log2 masked ltac:(lia))) as [Hlb Hex]. split_and!; try done.
    intros x j Hx Hj. apply not_true_iff_false. intros Ht.
    assert (Z.testbit masked j = true) as H by (apply Hbits; [lia|]; split; [lia|eauto]).
    by rewrite Z.bits_above_log2 in H by lia.
Qed.

(** What a split of cell [i] does to the list of cells. *)
Definition split_step perm cells (i : Z) c perm' cells' : Prop :=
  split_inv perm' cells' /\ refines perm cells perm' cells' /\ zlen cells <= zlen cells' /\
  (forall j d, j <> i -> cells !z j = Some d -> cells' !z j = Some d) /\
  (forall j d, cells' !z j = Some d -> (j <> i /\ cells !z j = Some d) \/ cb_tabu d = true \/ cb_bit d < cb_bit c).

Lemma split_step_intro perm cells i c perm' cells1 d new :
  split_inv perm' (cells1 ++ new) -> refines perm cells perm' (cells1 ++ new) -> zset i d cells = Some cells1 ->
  (forall e, e ∈ d :: new -> cb_tabu e = true \/ cb_bit e < cb_bit c) -> split_step perm cells i c perm' (cells1 ++ new).
Proof.
  intros Hi' Href E Hless. pose proof (zset_len _ _ _ _ E) as Hl. split; [done|]. split; [done|].
  split; [rewrite zlen_app; pose proof (zlen_nonneg new); lia|]. split.
  - intros j e Hji He. pose proof (zget_some _ _ _ He). rewrite zget_app_l by lia. by rewrite (zset_get_ne _ _ _ _ _ E).
  - intros j e He. destruct (decide (j < zlen cells)).
    + rewrite zget_app_l in He by lia. destruct (decide (i = j)) as [<-|Hji].
      * rewrite (zset_get_eq _ _ _ _ E) in He. injection He as <-. right. apply Hless. left.
      * rewrite (zset_get_ne _ _ _ _ _ E) in He by done. by left.
    + rewrite zget_app_r in He by lia. right. apply Hless. right. by eapply zget_elem.
Qed.

Lemma is_left_bit m x : 0 <= m < 32 -> is_left ids (wrap 32 (Z.shiftl 1 m)) x = Z.testbit (idof x) m.
Proof.
  intros Hm. rewrite Z.shiftl_1_l, wrap_small by (split; [lia|]; apply Z.pow_lt_mono_r; lia).
  unfold is_left. rewrite land_pow2 by lia. apply negb_involutive.
Qed.

Lemma split_at_ok perm cells i c m : split_inv perm cells -> cells !z i = Some c -> 0 <= m <= cb_bit c ->
  (exists x, x ∈ cell_nodes perm c /\ Z.testbit (idof x) m = true) ->
  (forall x j, x ∈ cell_nodes perm c -> m < j <= cb_bit c -> Z.testbit (idof x) j = false) ->
  exists perm' cells', split_at part ids perm cells i c (cell_nodes perm c) m = Some (perm', cells') /\
    split_step perm cells i c perm' cells'.
Proof using All.
  intros Hi Hc Hm (x0 & Hx0 & Hbit0) Hzero. destruct (si_cell _ _ Hi i c Hc) as (Hr & He & Hb).
  pose proof (split_perm_len _ _ Hi) as Hlen. pose proof (zget_some _ _ _ Hc) as Hir. unfold split_at. cbv zeta.
  set (left := is_left ids (wrap 32 (Z.shiftl 1 m))). set (nodes := cell_nodes perm c) in *.
  assert (forall x, left x = Z.testbit (idof x) m) as Hleft by (intros x; apply is_left_bit; lia).
  destruct (std_partition_spec (part := part) left nodes) as (yes & no & -> & Hperm & Hyes & Hno). rewrite Forall_forall in Hyes, Hno.
  assert (zlen (filter (fun x => left x = true) nodes) = zlen yes) as ->.
  { rewrite <- Hperm, filter_app, (filter_all _ yes), (filter_none _ no); [by rewrite app_nil_r| |done]. intros x Hx. by rewrite Hno. }
  assert (zlen yes + zlen no = cb_end c - cb_begin c) as Hsizes by (rewrite <- zlen_app, Hperm; apply zslice_len; lia).
  pose proof (zlen_nonneg yes). pose proof (zlen_nonneg no). rewrite (wrap_small 32 (_ + _)) by (unfold in_word; lia).
  set (bit' := if 0 <? m then wrap 8 (m - 1) else cb_bit c). set (tabu' := if 0 <? m then cb_tabu c else true).
  assert ((0 < m /\ bit' = m - 1 /\ tabu' = cb_tabu c) \/ (m = 0 /\ bit' = cb_bit c /\ tabu' = true)) as Hnew.
  { unfold bit', tabu'. destruct (Z.ltb_spec 0 m); [left|right; split_and!; [lia|done..]].
    rewrite wrap_small by (unfold in_word; lia). done. }
  assert (tabu' = true \/ bit' < cb_bit c) as Hless by (destruct Hnew as [(?&?&_)|(_&_&?)]; [right; lia|by left]).
  assert (0 <= bit' < 32) as Hbit' by lia.
  assert (forall a e x y, x ∈ nodes -> y ∈ nodes -> left x = left y -> agree (mkCellBisection a e bit' tabu') x y) as Hagree.
  { intros a e x y Hx Hy Hxy j Hj Hcase. simpl in Hcase.
    destruct (decide (cb_bit c < j)); [by apply (si_agree _ _ Hi i c x y Hc Hx Hy j Hj); right|].
    destruct (decide (m < j)); [by rewrite !Hzero by (done || lia)|]. destruct (decide (j = m)) as [->|]; [by rewrite <- !Hleft|].
    apply (si_agree _ _ Hi i c x y Hc Hx Hy j Hj). left. destruct Hnew as [(? & ? & Et)|(? & _)]; [|lia]. rewrite Et in Hcase.
    destruct Hcase; [done|lia]. }
  assert (forall x, x ∈ yes -> x ∈ nodes) as Hyn by (intros x Hx; rewrite <- Hperm; set_solver).
  assert (forall x, x ∈ no -> x ∈ nodes) as Hnn by (intros x Hx; rewrite <- Hperm; set_solver).
  destruct (split_inv_permute perm cells i c (yes ++ no) Hi Hc Hperm) as (Hi1 & Href1 & Hown).
  assert (0 < zlen yes) as Hy0.
  { rewrite <- Hperm in Hx0. apply elem_of_app in Hx0 as [Hx0|Hx0]; [|apply Hno in Hx0; rewrite Hleft in Hx0; congruence].
    destruct yes as [|y yes]; [set_solver|]. rewrite zlen_cons. pose proof (zlen_nonneg yes). lia. }
  rewrite (proj2 (Z.eqb_neq (cb_begin c + zlen yes) (cb_begin c))) by lia. simpl.
  destruct (Z.eqb_spec (cb_begin c + zlen yes) (cb_end c)) as [Hend|Hend]; simpl.
  - destruct (zset_some cells i (mkCellBisection (cb_begin c) (cb_end c) bit' tabu')) as [cells' E]; [done|].
    destruct (split_inv_update _ cells cells' i c bit' tabu' Hi1 Hc Hbit' E) as [Hi' Href].
    { rewrite Hown. assert (no = []) as -> by (destruct no; [done|rewrite zlen_cons in Hsizes; pose proof (zlen_nonneg no); lia]).
      rewrite app_nil_r. intros x y Hx Hy. apply Hagree; [by apply Hyn..|]. by rewrite !Hyes. }
    rewrite E. cbn [mbind option_bind]. eexists _, cells'. split; [done|]. rewrite <- (app_nil_r cells') in *.
    eapply split_step_intro; [done|by eapply refines_trans|by rewrite app_nil_r in E|]. by intros e ->%list_elem_of_singleton.
  - destruct (zset_some cells i (mkCellBisection (cb_begin c) (cb_begin c + zlen yes) bit' tabu')) as [cells' E]; [done|].
    destruct (split_inv_cut _ cells cells' i c bit' tabu' yes no Hi1 Hc Hbit' Hown Hy0 ltac:(lia) E) as [Hi' Href].
    { intros x y Hx Hy. apply Hagree; [by apply Hyn..|]. by rewrite !Hyes. }
    { intros x y Hx Hy. apply Hagree; [by apply Hnn..|]. by rewrite !Hno. }
    { intros x y Hx Hy Eq. apply Hyes in Hx. apply Hno in Hy. rewrite Hleft, Eq, <- Hleft in Hx. congruence. }
    rewrite E. cbn [mbind option_bind]. eexists _, _. split; [done|].
    eapply split_step_intro; [done|by eapply refines_trans|done|]. by intros e [->| ->%list_elem_of_singleton]%elem_of_cons.
Qed.

Lemma split_cell_ok perm cells i c : split_inv perm cells -> cells !z i = Some c ->
  exists perm' cells', split_cell part ids perm cells i = Some (perm', cells') /\ split_step perm cells i c perm' cells'.
Proof using All.
  intros Hi Hc. destruct (si_cell _ _ Hi i c Hc) as (Hr & He & Hb). pose proof (split_perm_len _ _ Hi) as Hlen.
  unfold split_cell. rewrite Hc. cbn [mbind option_bind].
  rewrite zrange_ok by lia. cbn [mbind option_bind]. fold (cell_nodes perm c).
  destruct (top_bit (cell_nodes perm c) (cb_bit c)) as (sum & -> & Hmask); [|done|].
  { intros x Hx. eapply (in_cell_range perm cells i); [done|by exists c]. }
  cbn [mbind option_bind]. cbv zeta in *. destruct Hmask as [[-> Hzero]|(Hne & Hmb & Hex & Hzero)].
  - rewrite Z.eqb_refl. destruct (zset_some cells i (mkCellBisection (cb_begin c) (cb_end c) (cb_bit c) true)) as [cells' E]; [by eapply zget_some|].
    destruct (split_inv_update perm cells cells' i c (cb_bit c) true Hi Hc Hb E) as [Hi' Href].
    { intros x y Hx Hy j Hj _. destruct (decide (j <= cb_bit c)); [by rewrite !Hzero by (done || lia)|].
      apply (si_agree _ _ Hi i c x y Hc Hx Hy j Hj). right. lia. }
    rewrite E. cbn [mbind option_bind]. exists perm, cells'. split; [done|]. rewrite <- (app_nil_r cells') in *.
    eapply split_step_intro; [done..|by rewrite app_nil_r in E|]. intros e ->%list_elem_of_singleton. by left.
  - rewrite (proj2 (Z.eqb_neq _ _) Hne). by apply split_at_ok.
Qed.

(** ** Rounds *)

Definition large (max_cell_size : Z) c : Prop := cb_tabu c = false /\ max_cell_size < cb_end c - cb_begin c.

Lemma getLargeCells_ok max_cell_size perm cells : split_inv perm cells -> NoDup (getLargeCells max_cell_size cells) /\
  forall i, i ∈ getLargeCells max_cell_size cells <-> exists c, cells !z i = Some c /\ large max_cell_size c.
Proof using Hn.
  intros Hi. assert (forall i c, cells !z i = Some c -> wrap 32 (cb_end c - cb_begin c) = cb_end c - cb_begin c) as Hw.
  { intros i c Hc. destruct (si_cell _ _ Hi i c Hc) as (? & ? & _). apply wrap_small. unfold in_word. lia. }
  clear Hi. unfold getLargeCells.
  assert (forall k, NoDup (getLargeCells_from max_cell_size k cells) /\
    forall i, i ∈ getLargeCells_from max_cell_size k cells <-> exists c, cells !z (i - k) = Some c /\ large max_cell_size c) as H.
  2: { destruct (H 0) as [H1 H2]. split; [done|]. intros i. rewrite H2. by rewrite Z.sub_0_r. }
  induction cells as [|c cells IH]; intros k; simpl.
  { split; [constructor|]. intros i. split; [by intros ?%not_elem_of_nil|]. intros (c & Hc%zget_some & _). unfold zlen in Hc. simpl in Hc. lia. }
  destruct IH with (k := k + 1) as [Hnd Hiff].
  { intros i d Hd. apply (Hw (i + 1)). pose proof (zget_some _ _ _ Hd). rewrite zget_cons_S by lia. by replace (i + 1 - 1) with i by lia. }
  assert (forall i, (exists d, (c :: cells) !z (i - k) = Some d /\ large max_cell_size d) <->
    (i = k /\ large max_cell_size c) \/ i ∈ getLargeCells_from max_cell_size (k + 1) cells) as Hcons.
  { intros i. rewrite Hiff. split.
    - intros (d & Hd & Hlarge). apply zget_cons_inv in Hd as [[Hj ->]|[Hj Hd]]; [left; split; [lia|done]|].
      right. exists d. split; [|done]. by replace (i - (k + 1)) with (i - k - 1) by lia.
    - intros [[-> Hlarge]|(d & Hd & Hlarge)]; [exists c; by rewrite Z.sub_diag|]. exists d. split; [|done].
      pose proof (zget_some _ _ _ Hd). rewrite zget_cons_S by lia. by replace (i - k - 1) with (i - (k + 1)) by lia. }
  assert (k ∉ getLargeCells_from max_cell_size (k + 1) cells) as Hk.
  { rewrite Hiff. intros (d & Hd%zget_some & _). lia. }
  destruct (negb (cb_tabu c) && _) eqn:El.
  - split; [by constructor|]. intros i. rewrite elem_of_cons, Hcons.
    apply andb_true_iff in El as [Et%negb_true_iff Es%Z.ltb_lt]. rewrite (Hw 0 c (zget_cons_0 _ _)) in Es. split; [|tauto].
    intros [->|?]; [by left|by right].
  - split; [done|]. intros i. rewrite Hcons. split; [by right|]. intros [[-> [Ht Hs]]|?]; [|done].
    exfalso. rewrite Ht, (Hw 0 c (zget_cons_0 _ _)) in El. simpl in El. apply Z.ltb_ge in El. lia.
Qed.

Lemma split_cells_ok max_cell_size B large_cells perm cells : split_inv perm cells -> NoDup large_cells ->
  (forall i, i ∈ large_cells -> exists c, cells !z i = Some c /\ cb_bit c <= B) ->
  (forall i c, cells !z i = Some c -> large max_cell_size c -> i ∈ large_cells \/ cb_bit c < B) ->
  exists perm' cells', split_cells part ids perm cells large_cells = Some (perm', cells') /\ split_inv perm' cells' /\
    refines perm cells perm' cells' /\ forall i c, cells' !z i = Some c -> large max_cell_size c -> cb_bit c < B.
Proof using All.
  revert perm cells. induction large_cells as [|i large_cells IH]; intros perm cells Hi Hnd Hex Hlarge.
  { exists perm, cells. split; [done|]. split; [done|]. split; [apply refines_refl|]. intros i c Hc Hl.
    by destruct (Hlarge i c Hc Hl) as [?%not_elem_of_nil|]. }
  apply NoDup_cons in Hnd as [Hni Hnd]. destruct (Hex i) as (c & Hc & Hb); [left|].
  destruct (split_cell_ok perm cells i c Hi Hc) as (perm1 & cells1 & E1 & Hi1 & Href1 & _ & Hkeep & Hcells1).
  destruct (IH perm1 cells1 Hi1 Hnd) as (perm2 & cells2 & E2 & Hi2 & Href2 & Hdone).
  - intros j Hj. destruct (Hex j) as (d & Hd & Hbd); [by right|]. exists d. split; [|done]. apply Hkeep; [|done]. by intros ->.
  - intros j d Hd Hl. destruct (Hcells1 j d Hd) as [[Hne Hd']|[Ht|Hless]]; [|by destruct Hl; congruence|right; lia].
    destruct (Hlarge j d Hd' Hl) as [[->|?]%elem_of_cons|?]; [done|by left|by right].
  - exists perm2, cells2. simpl. rewrite E1. cbn [mbind option_bind]. split; [done|]. split; [done|].
    split; [by eapply refines_trans|done].
Qed.

Lemma partition_rounds_ok fuel max_cell_size B perm cells : split_inv perm cells -> -1 <= B ->
  (forall i c, cells !z i = Some c -> large max_cell_size c -> cb_bit c <= B) -> B + 1 < Z.of_nat fuel ->
  exists perm' cells', partition_rounds part fuel ids max_cell_size perm cells = Some (perm', cells') /\ split_inv perm' cells' /\
    refines perm cells perm' cells' /\ forall i c, cells' !z i = Some c -> ~ large max_cell_size c.
Proof using All.
  revert B perm cells. induction fuel as [|fuel IH]; intros B perm cells Hi HB0 HB Hfuel; [lia|].
  destruct (getLargeCells_ok max_cell_size perm cells Hi) as [Hnd Hiff]. cbn [partition_rounds]. cbv zeta.
  set (L := getLargeCells max_cell_size cells) in *. destruct (Z.ltb_spec 0 (zlen L)) as [HL|HL].
  - destruct (split_cells_ok max_cell_size B L perm cells Hi Hnd) as (perm1 & cells1 & E1 & Hi1 & Href1 & Hless).
    + intros i (c & Hc & Hl)%Hiff. exists c. split; [done|]. by eapply HB.
    + intros i c Hc Hl. left. apply Hiff. eauto.
    + rewrite E1. cbn [mbind option_bind]. destruct (IH (B - 1) perm1 cells1) as (perm2 & cells2 & E2 & Hi2 & Href2 & Hdone); [done|..].
      * destruct L as [|i L']; [unfold zlen in HL; simpl in HL; lia|]. destruct (proj1 (Hiff i) ltac:(left)) as (c & Hc & Hl).
        specialize (HB i c Hc Hl). destruct (si_cell _ _ Hi i c Hc) as (_ & _ & ?). lia.
      * intros i c Hc Hl. specialize (Hless i c Hc Hl). lia.
      * lia.
      * exists perm2, cells2. split; [done|]. split; [done|]. split; [by eapply refines_trans|done].
  - exists perm, cells. split; [done|]. split; [done|]. split; [apply refines_refl|]. intros i c Hc Hl.
    assert (i ∈ L) as Hin by (apply Hiff; eauto). destruct L as [|j L']; [by apply not_elem_of_nil in Hin|].
    rewrite zlen_cons in HL. pose proof (zlen_nonneg L'). lia.
Qed.

Lemma partitionLevel_ok max_cell_size perm cells : split_inv perm cells ->
  exists perm' cells', partitionLevel part ids max_cell_size perm cells = Some (perm', cells') /\ split_inv perm' cells' /\
    refines perm cells perm' cells' /\ forall i c, cells' !z i = Some c -> ~ large max_cell_size c.
Proof using All.
  intros Hi. apply (partition_rounds_ok 33 max_cell_size 31); [done|lia| |lia].
  intros i c Hc _. destruct (si_cell _ _ Hi i c Hc) as (_ & _ & ?). lia.
Qed.

(** ** The partition of a level *)

Lemma cells_le perm cells : split_inv perm cells -> zlen cells <= n.
Proof using Hn.
  intros Hi. transitivity (zlen (seqZ 0 n)); [|unfold zlen at 1; rewrite length_seqZ; lia].
  transitivity (zlen (cb_begin <$> cells)); [unfold zlen; by rewrite length_fmap|]. apply inj_le, submseteq_length, NoDup_submseteq.
  - apply NoDup_alt. intros i j b. rewrite !list_lookup_fmap, !fmap_Some. intros (c & Hc & ->) (d & Hd & Heq).
    rewrite <- zget_nat in Hc, Hd. destruct (decide (i = j)) as [|Hne]; [done|]. exfalso.
    destruct (si_cell _ _ Hi _ c Hc) as (? & _), (si_cell _ _ Hi _ d Hd) as (? & _).
    destruct (si_disjoint _ _ Hi _ _ c d Hc Hd ltac:(lia)); lia.
  - intros b (c & -> & [i Hc]%elem_zget)%list_elem_of_fmap. destruct (si_cell _ _ Hi i c Hc) as (? & ? & _). apply elem_of_seqZ. lia.
Qed.

Lemma set_cell_ids_ok p nodes id : (forall x, x ∈ nodes -> 0 <= x < zlen p) -> exists p', set_cell_ids p nodes id = Some p' /\
  zlen p' = zlen p /\ forall x, (x ∈ nodes -> p' !z x = Some id) /\ (p' !z x = p !z x \/ x ∈ nodes).
Proof.
  revert p. induction nodes as [|a nodes IH]; intros p Hr.
  { exists p. split_and!; try done. intros x. split; [by intros ?%not_elem_of_nil|by left]. }
  destruct (zset_some p a id) as [p1 E1]; [apply Hr; left|]. pose proof (zset_len _ _ _ _ E1) as Hl1.
  destruct (IH p1) as (p' & E & Hl & H); [intros x Hx; rewrite Hl1; apply Hr; by right|].
  simpl. rewrite E1. cbn [mbind option_bind]. exists p'. split; [done|]. split; [lia|]. intros x. destruct (H x) as [Ha Hb]. split.
  - intros [->|Hx]%elem_of_cons; [|by apply Ha]. destruct Hb as [->|Hb]; [by eapply zset_get_eq|by apply Ha].
  - destruct Hb as [->|Hb]; [|right; by right]. destruct (decide (a = x)) as [->|Hne]; [right; left|].
    left. by eapply zset_get_ne.
Qed.

Lemma assign_cell_ids_ok perm cells pre cs p : split_inv perm cells -> cells = pre ++ cs -> zlen p = n ->
  exists p', assign_cell_ids p perm cs (zlen pre) = Some p' /\ zlen p' = n /\
    forall x, (p' !z x = p !z x \/ exists i, zlen pre <= i /\ in_cell perm cells i x) /\
      (forall i, zlen pre <= i -> in_cell perm cells i x -> p' !z x = Some i).
Proof using Hn.
  intros Hi. revert pre p. induction cs as [|c cs IH]; intros pre p Hcells Hp.
  { exists p. split; [done|]. split; [done|]. intros x. split; [by left|]. intros i Hpre (c & Hc%zget_some & _).
    rewrite Hcells, app_nil_r in Hc. lia. }
  assert (cells !z zlen pre = Some c) as Hc by (rewrite Hcells, zget_app_r, Z.sub_diag by lia; apply zget_cons_0).
  destruct (si_cell _ _ Hi _ c Hc) as (? & ? & _). pose proof (split_perm_len _ _ Hi). simpl. rewrite zrange_ok by lia. cbn [mbind option_bind].
  fold (cell_nodes perm c). destruct (set_cell_ids_ok p (cell_nodes perm c) (zlen pre)) as (p1 & -> & Hl1 & Hp1).
  { intros x Hx. rewrite Hp. eapply (in_cell_range perm cells (zlen pre)); [done|by exists c]. }
  cbn [mbind option_bind]. pose proof (cells_le _ _ Hi) as Hle. pose proof (zlen_nonneg pre).
  assert (zlen pre + 1 = zlen (pre ++ [c])) as Hpre by (by rewrite zlen_snoc).
  rewrite wrap_small by (rewrite Hcells, zlen_app, zlen_cons in Hle; pose proof (zlen_nonneg cs); unfold in_word; lia).
  rewrite Hpre. destruct (IH (pre ++ [c]) p1) as (p' & -> & Hl & H'); [by rewrite <- app_assoc|lia|]. rewrite <- Hpre in H'.
  exists p'. split; [done|]. split; [done|]. intros x. destruct (Hp1 x) as [H1a H1b]. destruct (H' x) as [Ha Hb]. split.
  - destruct Ha as [->|(i & Hge & Hx)]; [|right; exists i; split; [lia|done]].
    destruct H1b as [->|Hx]; [by left|]. right. exists (zlen pre). split; [lia|]. by exists c.
  - intros i Hge Hx. destruct (decide (i = zlen pre)) as [->|Hne]; [|apply Hb; [lia|done]].
    destruct Ha as [->|(j & Hj & Hx')]; [|pose proof (in_cell_unique _ _ _ _ _ Hi Hx Hx'); lia].
    apply H1a. destruct Hx as (d & Hd & Hx). by simplify_eq.
Qed.

Lemma cellsToPartition_ok perm cells : split_inv perm cells -> exists p, cellsToPartition cells perm = Some p /\ zlen p = n /\
  forall i x, in_cell perm cells i x -> p !z x = Some i.
Proof using Hn.
  intros Hi. pose proof (split_perm_len _ _ Hi) as Hl.
  destruct (assign_cell_ids_ok perm cells [] cells (replicate (length perm) INVALID_CELL_ID) Hi eq_refl) as (p & E & Hp & H).
  { unfold zlen in *. rewrite length_replicate. lia. }
  exists p. split; [done|]. split; [done|]. intros i x Hx. apply (H x); [|done]. destruct Hx as (c & Hc%zget_some & _). rewrite zlen_nil. lia.
Qed.

(** ** Claims about a level *)

(** What the partition of a level with at most [max] nodes per cell promises. *)
Record level_spec (max : Z) (p : list Z) (num : Z) : Prop := {
  ls_len : zlen p = n;
  ls_num : 0 < num <= n;
  ls_range x : 0 <= x < n -> 0 <= raw p x < num;
  ls_used i : 0 <= i < num -> exists x, 0 <= x < n /\ raw p x = i;
  ls_together x y : 0 <= x < n -> 0 <= y < n -> idof x = idof y -> raw p x = raw p y;
  ls_size i : 0 <= i < num -> zlen (filter (fun x => raw p x = i) (seqZ 0 n)) <= max \/
    forall x y, 0 <= x < n -> 0 <= y < n -> raw p x = i -> raw p y = i -> idof x = idof y
}.

Lemma level_spec_intro max perm cells p : split_inv perm cells -> zlen p = n ->
  (forall i x, in_cell perm cells i x -> p !z x = Some i) -> (forall i c, cells !z i = Some c -> ~ large max c) ->
  level_spec max p (zlen cells) /\ forall x y, 0 <= x < n -> 0 <= y < n -> raw p x = raw p y ->
    exists i, in_cell perm cells i x /\ in_cell perm cells i y.
Proof using Hids Hn.
  intros Hi Hp Hcell Hsmall.
  assert (forall x, 0 <= x < n -> in_cell perm cells (raw p x) x) as Hraw.
  { intros x Hx. destruct (si_cover _ _ Hi x Hx) as [i Hin]. unfold raw. by rewrite (Hcell i x Hin). }
  assert (forall i x, in_cell perm cells i x -> raw p x = i) as Hrawi by (intros i x Hin; unfold raw; by rewrite (Hcell i x Hin)).
  assert (forall x, 0 <= x < n -> 0 <= raw p x < zlen cells) as Hrange.
  { intros x Hx. destruct (Hraw x Hx) as (c & Hc & _). by eapply zget_some. }
  split; [|intros x y Hx Hy Heq; exists (raw p x); split; [by apply Hraw|rewrite Heq; by apply Hraw]]. split.
  - done.
  - split; [specialize (Hrange 0 ltac:(lia)); lia|by eapply cells_le].
  - done.
  - intros i Hr. destruct (zget_is_some cells i Hr) as [c Hc]. destruct (si_cell _ _ Hi i c Hc) as (? & ? & _).
    pose proof (split_perm_len _ _ Hi). destruct (zget_is_some perm (cb_begin c)) as [x Hx]; [lia|].
    assert (in_cell perm cells i x) as Hin by (exists c; split; [done|]; apply zslice_mem; [lia..|]; exists (cb_begin c); split; [lia|done]).
    exists x. split; [by eapply in_cell_range|by apply Hrawi].
  - intros x y Hx Hy Heq. destruct (decide (raw p x = raw p y)) as [|Hne]; [done|]. exfalso.
    by apply (si_apart _ _ Hi (raw p x) (raw p y) x y (Hraw x Hx) (Hraw y Hy) Hne).
  - intros i Hr. destruct (zget_is_some cells i Hr) as [c Hc]. destruct (si_cell _ _ Hi i c Hc) as (? & ? & _).
    pose proof (split_perm_len _ _ Hi). specialize (Hsmall i c Hc). destruct (cb_tabu c) eqn:Ht.
    + right. intros x y Hx Hy Ex Ey. pose proof (Hraw x Hx) as (d & Hd & Hxd). pose proof (Hraw y Hy) as (e & He & Hye). rewrite Ex in Hd.
      rewrite Ey in He. simplify_eq. apply Z.bits_inj'. intros j Hj. apply (si_agree _ _ Hi (raw p x) c x y Hc Hxd Hye j Hj). by left.
    + left. assert (cb_end c - cb_begin c <= max) as Hle by (apply Z.nlt_ge; intros Hgt; by apply Hsmall).
      etransitivity; [|exact Hle]. rewrite <- (zslice_len perm (cb_begin c) (cb_end c - cb_begin c)) by lia.
      apply inj_le, submseteq_length, NoDup_submseteq; [apply NoDup_filter, NoDup_seqZ|].
      intros x [Hx Hxr%elem_of_seqZ]%list_elem_of_filter. destruct (Hraw x ltac:(lia)) as (d & Hd & Hxd). rewrite Hx in Hd. by simplify_eq.
Qed.

(** Partitions from the finest to the coarsest. *)
Definition nested_partitions (ps : list (list Z)) : Prop :=
  forall i p q x y, ps !z i = Some p -> ps !z (i + 1) = Some q -> 0 <= x < n -> 0 <= y < n -> raw p x = raw p y -> raw q x = raw q y.

Definition levels_spec (sizes : list Z) (ps : list (list Z)) (nums : list Z) : Prop :=
  zlen ps = zlen sizes /\ zlen nums = zlen sizes /\
  (forall l max p num, sizes !z l = Some max -> ps !z l = Some p -> nums !z l = Some num -> level_spec max p num) /\
  nested_partitions ps.

(** A finer level in front. *)
Lemma levels_spec_cons sizes ps nums max p num : levels_spec sizes ps nums -> level_spec max p num ->
  (forall q x y, ps !z 0 = Some q -> 0 <= x < n -> 0 <= y < n -> raw p x = raw p y -> raw q x = raw q y) ->
  levels_spec (max :: sizes) (p :: ps) (num :: nums).
Proof.
  intros (Hl1 & Hl2 & Hspec & Hnest) Hp Hfirst. split; [rewrite !zlen_cons; lia|]. split; [rewrite !zlen_cons; lia|]. split.
  - intros l m q k Hm Hq Hk. apply zget_cons_inv in Hm as [[-> ->]|[Hl Hm]].
    + rewrite zget_cons_0 in Hq. rewrite zget_cons_0 in Hk. by simplify_eq.
    + rewrite zget_cons_S in Hq by lia. rewrite zget_cons_S in Hk by lia. by eapply Hspec.
  - intros i q r x y Hq Hr Hx Hy. apply zget_cons_inv in Hq as [[-> ->]|[Hl Hq]].
    + rewrite zget_cons_S in Hr by lia. by apply Hfirst.
    + rewrite zget_cons_S in Hr by lia. apply (Hnest (i - 1)); try done. by replace (i - 1 + 1) with (i + 1 - 1) by lia.
Qed.

Lemma partition_levels_ok todo perm cells done ps nums : split_inv perm cells -> levels_spec done ps nums ->
  (forall q i x y, ps !z 0 = Some q -> in_cell perm cells i x -> in_cell perm cells i y -> raw q x = raw q y) ->
  exists ps' nums', partition_levels part ids perm cells todo ps nums = Some (ps', nums') /\
    levels_spec (reverse todo ++ done) ps' nums'.
Proof using All.
  revert perm cells done ps nums. induction todo as [|max todo IH]; intros perm cells dn ps nums Hi Hdone Hcur.
  { exists ps, nums. done. }
  destruct (partitionLevel_ok max perm cells Hi) as (perm1 & cells1 & E1 & Hi1 & [parent Hparent] & Hsmall).
  destruct (cellsToPartition_ok perm1 cells1 Hi1) as (p & Ep & Hlp & Hcell). simpl. rewrite E1. cbn [mbind option_bind].
  rewrite Ep. cbn [mbind option_bind]. destruct (level_spec_intro max perm1 cells1 p Hi1 Hlp Hcell Hsmall) as [Hspec Hsame].
  pose proof (ls_num _ _ _ Hspec) as Hnum. rewrite wrap_small by (unfold in_word; lia). rewrite reverse_cons, <- app_assoc. simpl.
  apply IH; [done|apply levels_spec_cons; [done..|]|].
  - intros q x y Hq Hx Hy (i & Hix & Hiy)%Hsame; [|done..]. apply (Hcur q (parent i)); [done|by apply Hparent..].
  - intros q i x y Hq Hx Hy. rewrite zget_cons_0 in Hq. injection Hq as <-. unfold raw. by rewrite (Hcell i x Hx), (Hcell i y Hy).
Qed.

Lemma bisectionToPartition_ok sizes : exists ps nums, bisectionToPartition part ids sizes = Some (ps, nums) /\ levels_spec sizes ps nums.
Proof using All.
  unfold bisectionToPartition. rewrite (wrap_small 32) by (unfold in_word; lia).
  set (c := mkCellBisection 0 n (NUM_BISECTION_BITS - 1) false).
  assert (forall i d, [c] !z i = Some d -> i = 0 /\ d = c) as Hget.
  { intros i d Hd. apply zget_cons_inv in Hd as [[-> ->]|[_ Hd%zget_some]]; [done|]. unfold zlen in Hd. simpl in Hd. lia. }
  assert (cell_nodes (seqZ 0 n) c = seqZ 0 n) as Hnodes.
  { unfold cell_nodes, zslice. simpl. rewrite drop_0. apply take_ge. rewrite length_seqZ. lia. }
  destruct (partition_levels_ok (reverse sizes) (seqZ 0 n) [c] [] [] []) as (ps & nums & E & H).
  - split.
    + done.
    + intros i d [_ ->]%Hget. simpl. unfold NUM_BISECTION_BITS. lia.
    + intros i j d e [-> _]%Hget [-> _]%Hget. done.
    + intros x Hx. exists 0, c. split; [done|]. rewrite Hnodes. apply elem_of_seqZ. lia.
    + intros i d x y [_ ->]%Hget Hx Hy j Hj [Ht|Hj']; [done|]. assert (31 < j) by exact Hj'.
      rewrite !(testbit_in_word 32) by (apply idof_word || lia). done.
    + intros i j x y (d & Hd & _) (e & He & _). apply Hget in Hd as [-> _], He as [-> _]. done.
  - split_and!; try done; [intros l m p num Hp%zget_some|intros i p q x y Hp%zget_some]; unfold zlen in Hp; simpl in Hp; lia.
  - intros q i x y Hq%zget_some. unfold zlen in Hq. simpl in Hq. lia.
  - exists ps, nums. split; [done|]. by rewrite reverse_involutive, app_nil_r in H.
Qed.
End splits.

(** ** Claim *)

(** C12: bisections become nested partitions.  For 32-bit bisection ids of at
    least one node and any sizes, and whatever order [std::partition] leaves
    inside its parts, the computation terminates.  Every level uses exactly the
    cell ids below its number of cells; nodes that share a cell share the cell
    of the next level; nodes with the same id always share their cell; and a
    cell has at most as many nodes as its level allows, unless all of them have
    the same id. *)
Theorem bisection_to_partition ids sizes part `{!StdPartition part} (Hids : Forall (in_word 32) ids)
    (Hn : 0 < zlen ids < 2 ^ 32) :
  exists ps nums, bisectionToPartition part ids sizes = Some (ps, nums) /\ levels_spec ids sizes ps nums.
Proof. by apply bisectionToPartition_ok. Qed.

Definition example_ids : list Z := [2 ^ 31; 0; 2 ^ 31 + 2 ^ 30; 2 ^ 30; 0; 2 ^ 31].

Lemma example_ids_words : Forall (in_word 32) example_ids.
Proof. repeat constructor; done. Qed.

Lemma bisection_to_partition_witness :
  bisectionToPartition stable_partition example_ids [1; 4] = Some ([[2; 3; 0; 1; 3; 2]; [0; 1; 0; 1; 1; 0]], [4; 2]) /\
  levels_spec example_ids [1; 4] [[2; 3; 0; 1; 3; 2]; [0; 1; 0; 1; 1; 0]] [4; 2].
Proof.
  assert (bisectionToPartition stable_partition example_ids [1; 4] = Some ([[2; 3; 0; 1; 3; 2]; [0; 1; 0; 1; 1; 0]], [4; 2])) as E
    by (by vm_compute).
  split; [exact E|].
  destruct (bisection_to_partition example_ids [1; 4] stable_partition example_ids_words (conj eq_refl eq_refl)) as (ps & nums & E' & H).
  rewrite E in E'. injection E' as <- <-. exact H.
Defined.
