(* ===== verification/Partitioner.v ===== *)
(** * The partitioner

    Model of include/partitioner/remove_unconnected.hpp, of
    src/partitioner/renumber.cpp with the overloads of renumber.hpp it needs,
    and of the part of src/partitioner/partitioner.cpp between reading and
    writing files: bisections become partitions, nodes without an edge into
    their cell move to a neighbouring one, nodes are renumbered so that border
    nodes of high levels come first, and the multi-level partition and the cell
    storage are built from the result. *)
From stdpp Require Import sorting.
From S2P Require Import Prelude Sorting Permutation DynamicGraph StaticGraph MultiLevelPartition GraphInterface EdgeBasedEdge CellStorage BisectionToPartition.

(** ** Unconnected boundary nodes *)

Section unconnected.
Context {G : Type} `{!Graph G EdgeData}.

(** The loop over the edges of a node: does one of them stay in the cell, and
    where do the others lead? *)
Fixpoint scan_witnesses (g : G) (partition : list Z) (cell_id : Z) (range : list Z) (is_source is_target : bool)
    (witnesses : list Z) : option (bool * bool * list Z) :=
  match range with
  | [] => Some (is_source, is_target, witnesses)
  | edge :: range =>
      data ← graph_data g edge;
      target ← graph_target g edge;
      target_cell_id ← partition !z target;
      if target_cell_id =? cell_id
      then scan_witnesses g partition cell_id range (is_source || forward data) (is_target || backward data) witnesses
      else scan_witnesses g partition cell_id range is_source is_target (witnesses ++ [target])
  end.

(** [std::remove_if]: only witnesses in the same cell of the next level. *)
Fixpoint same_parent (parents : list Z) (node : Z) (witnesses : list Z) : option (list Z) :=
  match witnesses with
  | [] => Some []
  | w :: witnesses =>
      a ← parents !z node;
      b ← parents !z w;
      rest ← same_parent parents node witnesses;
      Some (if a =? b then w :: rest else rest)
  end.

(** The number of levels from [sublevel_index] down at which the cells differ. *)
Fixpoint differing_levels (partitions : list (list Z)) (sublevel_index : nat) (target witness : Z) : option Z :=
  p ← partitions !! sublevel_index;
  a ← p !z target;
  b ← p !z witness;
  rest ← match sublevel_index with O => Some 0 | S s => differing_levels partitions s target witness end;
  Some ((if a =? b then 0 else 1) + rest).

Fixpoint induced_border_edges (g : G) (partitions : list (list Z)) (level_index : nat) (range : list Z) (witness : Z)
  : option Z :=
  match range with
  | [] => Some 0
  | edge :: range =>
      target ← graph_target g edge;
      d ← differing_levels partitions level_index target witness;
      rest ← induced_border_edges g partitions level_index range witness;
      Some (d + rest)
  end.

Fixpoint weigh_witnesses (g : G) (partitions : list (list Z)) (level_index : nat) (range witnesses : list Z)
  : option (list (Z * Z)) :=
  match witnesses with
  | [] => Some []
  | w :: witnesses =>
      k ← induced_border_edges g partitions level_index range w;
      rest ← weigh_witnesses g partitions level_index range witnesses;
      Some ((w, k) :: rest)
  end.

(** [std::min_element]: the first of the smallest. *)
Fixpoint min_witness (best : Z * Z) (witnesses : list (Z * Z)) : Z * Z :=
  match witnesses with
  | [] => best
  | w :: witnesses => min_witness (if w.2 <? best.2 then w else best) witnesses
  end.

Fixpoint move_node (partitions : list (list Z)) (sublevel_index : nat) (node best_witness : Z) : option (list (list Z)) :=
  p ← partitions !! sublevel_index;
  b ← p !z best_witness;
  p' ← zset node b p;
  let partitions' := <[sublevel_index := p']> partitions in
  match sublevel_index with O => Some partitions' | S s => move_node partitions' s node best_witness end.

(** The body of the loop over the nodes, for an unconnected node with witnesses. *)
Definition reassign (g : G) (partitions : list (list Z)) (level_index : nat) (node : Z) (range witnesses : list Z)
  : option (list (list Z)) :=
  witnesses' ← match partitions !! S level_index with
               | Some parents => same_parent parents node witnesses
               | None => Some witnesses
               end;
  weighed ← weigh_witnesses g partitions level_index range witnesses';
  match weighed with
  | [] => Some partitions
  | w :: rest => move_node partitions level_index node (min_witness w rest).1
  end.

Definition fix_node (g : G) (partitions : list (list Z)) (level_index : nat) (node num_unconnected : Z)
  : option (list (list Z) * Z) :=
  p ← partitions !! level_index;
  cell_id ← p !z node;
  range ← graph_range g node;
  '(is_source, is_target, witnesses) ← scan_witnesses g p cell_id range false false [];
  if (0 <? zlen witnesses) && negb is_source && negb is_target then
    partitions' ← reassign g partitions level_index node range witnesses;
    Some (partitions', num_unconnected + 1)
  else Some (partitions, num_unconnected).

Fixpoint fix_nodes (g : G) (partitions : list (list Z)) (level_index : nat) (nodes : list Z) (num_unconnected : Z)
  : option (list (list Z) * Z) :=
  match nodes with
  | [] => Some (partitions, num_unconnected)
  | node :: nodes =>
      '(partitions', num') ← fix_node g partitions level_index node num_unconnected;
      fix_nodes g partitions' level_index nodes num'
  end.

(** The loop from the highest level down; [levels] levels remain. *)
Fixpoint fix_levels (g : G) (partitions : list (list Z)) (levels : nat) (num_unconnected : Z) : option (list (list Z) * Z) :=
  match levels with
  | O => Some (partitions, num_unconnected)
  | S level_index =>
      '(partitions', num') ← fix_nodes g partitions level_index (seqZ 0 (graph_nodes g)) num_unconnected;
      fix_levels g partitions' level_index num'
  end.

(** The new partitions and the number of unconnected nodes. *)
Definition removeUnconnectedBoundaryNodes (g : G) (partitions : list (list Z)) : option (list (list Z) * Z) :=
  fix_levels g partitions (length partitions) 0.

(** ** Renumbering *)

Fixpoint mark_border (g : G) (partition : list Z) (level node : Z) (range border_level : list Z) : option (list Z) :=
  match range with
  | [] => Some border_level
  | edge :: range =>
      target ← graph_target g edge;
      a ← partition !z node;
      b ← partition !z target;
      border_level' ← (if a =? b then Some border_level
                       else bl ← zset node level border_level; zset target level bl);
      mark_border g partition level node range border_level'
  end.

Fixpoint mark_border_nodes (g : G) (partition : list Z) (level : Z) (nodes border_level : list Z) : option (list Z) :=
  match nodes with
  | [] => Some border_level
  | node :: nodes =>
      range ← graph_range g node;
      border_level' ← mark_border g partition level node range border_level;
      mark_border_nodes g partition level nodes border_level'
  end.

(** [level] is the level of the first of [partitions]; a [LevelID] has 8 bits. *)
Fixpoint mark_border_levels (g : G) (partitions : list (list Z)) (level : Z) (border_level : list Z) : option (list Z) :=
  match partitions with
  | [] => Some border_level
  | partition :: partitions =>
      border_level' ← mark_border_nodes g partition (wrap 8 level) (seqZ 0 (graph_nodes g)) border_level;
      mark_border_levels g partitions (level + 1) border_level'
  end.

Definition getHighestBorderLevel (g : G) (partitions : list (list Z)) : option (list Z) :=
  mark_border_levels g partitions 1 (replicate (Z.to_nat (graph_nodes g)) 0).

(** Both sorts are stable; the second one is descending. *)
Definition makePermutation (g : G) (partitions : list (list Z)) : option (list Z) :=
  let ordering := sort_nodes partitions (seqZ 0 (graph_nodes g)) in
  border_level ← getHighestBorderLevel g partitions;
  orderingToPermutation (stable_sort (fun node => - raw border_level node) [] ordering).
End unconnected.

Fixpoint renumber_partitions (partitions : list (list Z)) (permutation : list Z) : option (list (list Z)) :=
  match partitions with
  | [] => Some []
  | p :: partitions =>
      p' ← inplacePermutation permutation p;
      rest ← renumber_partitions partitions permutation;
      Some (p' :: rest)
  end.

(** ** The run *)

Record PartitionerResult : Type := mkPartitionerResult {
  pr_graph : DynamicGraph EdgeData; pr_partition : MultiLevelPartition; pr_storage : CellStorage; pr_permutation : list Z }.

(** The steps of [Partitioner::Run] between the files; [dflt] fills the slots
    of a vector that grows.  The inner [None] is an exception: too many edges in
    the renumbered graph, or cells that do not fit 64 bits. *)
Definition Partitioner_Run (part : (Z -> bool) -> list Z -> list Z)
    (parallel_sort : sort_function) (dflt : DynamicEdge EdgeData)
    (edge_based_graph : DynamicGraph EdgeData) (edge_based_partition_ids max_cell_sizes : list Z)
  : option (option PartitionerResult) :=
  '(partitions, level_to_num_cells) ← bisectionToPartition part edge_based_partition_ids max_cell_sizes;
  '(partitions1, _) ← removeUnconnectedBoundaryNodes edge_based_graph partitions;
  permutation ← makePermutation edge_based_graph partitions1;
  r ← Renumber dflt edge_based_graph permutation;
  match r with
  | None => Some None
  | Some graph =>
      partitions2 ← renumber_partitions partitions1 permutation;
      m ← MultiLevelPartition_new partitions2 level_to_num_cells;
      match m with
      | None => Some None
      | Some mlp =>
          storage ← CellStorage_new forward backward parallel_sort mlp graph;
          Some (Some (mkPartitionerResult graph mlp storage permutation))
      end
  end.

(** ** Nested partitions stay nested *)

Section repair.
Context {G : Type} `{!Graph G EdgeData, !GraphLaws G EdgeData} (g : G).
Abbreviation n := (graph_nodes g).
Context (Hwf : graph_wf g) (Htargets : forall v x, 0 <= v < n -> x ∈ adjacency g v -> 0 <= target x < n).
Implicit Types (ps : list (list Z)) (p q : list Z).

(** Partitions of the nodes, from the finest to the coarsest, with ids below [nums]. *)
Record partitions_ok ps (nums : list Z) : Prop := {
  po_len i p : ps !! i = Some p -> zlen p = n;
  po_nums : length nums = length ps;
  po_range i p m x : ps !! i = Some p -> nums !! i = Some m -> 0 <= x < n -> 0 <= raw p x < m;
  po_nested i p q x y : ps !! i = Some p -> ps !! S i = Some q -> 0 <= x < n -> 0 <= y < n -> raw p x = raw p y -> raw q x = raw q y
}.

Lemma raw_get p x : 0 <= x < zlen p -> p !z x = Some (raw p x).
Proof. intros [c Hc]%zget_is_some. unfold raw. by rewrite Hc. Qed.

Lemma raw_set p x c : 0 <= x < zlen p -> exists p', zset x c p = Some p' /\ zlen p' = zlen p /\
  forall y, raw p' y = if decide (y = x) then c else raw p y.
Proof.
  intros Hx. destruct (zset_some p x c Hx) as [p' E]. exists p'. split; [done|]. split; [by eapply zset_len|].
  intros y. unfold raw. destruct (decide (y = x)) as [->|Hne]; [by rewrite (zset_get_eq _ _ _ _ E)|].
  by rewrite (zset_get_ne _ _ _ _ _ E) by done.
Qed.

(** The edges of a node as a list of edge ids. *)
Lemma range_edges v : 0 <= v < n -> exists range, graph_range g v = Some range /\
  forall e, e ∈ range -> exists x, x ∈ adjacency g v /\ graph_target g e = Some (target x) /\ graph_data g e = Some (data x).
Proof using Hwf.
  intros Hv. destruct (graph_range_ok g v Hwf Hv) as (range & E & HF). exists range. split; [done|].
  intros e [i He]%list_elem_of_lookup_1. destruct (Forall2_lookup_l _ _ _ _ _ HF He) as (x & Hx & Ht & Hd).
  exists x. split; [by eapply list_elem_of_lookup_2|done].
Qed.

Definition ends_ok (range : list Z) : Prop :=
  forall e, e ∈ range -> exists t d, graph_target g e = Some t /\ graph_data g e = Some d /\ 0 <= t < n.

Lemma range_ends v : 0 <= v < n -> exists range, graph_range g v = Some range /\ ends_ok range.
Proof using Hwf Htargets.
  intros Hv. destruct (range_edges v Hv) as (range & E & Hr). exists range. split; [done|].
  intros e He. destruct (Hr e He) as (x & Hx & Ht & Hd). eexists _, _. split; [done|]. split; [done|]. by eapply Htargets.
Qed.

Lemma ends_cons e range : ends_ok (e :: range) ->
  (exists t d, graph_target g e = Some t /\ graph_data g e = Some d /\ 0 <= t < n) /\ ends_ok range.
Proof. intros H. split; [apply H; left|]. intros e' He'. apply H. by right. Qed.

Lemma scan_witnesses_ok p cell range s t ws : zlen p = n -> ends_ok range -> (forall w, w ∈ ws -> 0 <= w < n) ->
  exists s' t' ws', scan_witnesses g p cell range s t ws = Some (s', t', ws') /\ forall w, w ∈ ws' -> 0 <= w < n.
Proof.
  intros Hp. revert s t ws. induction range as [|e range IH]; intros s t ws Hr Hws; [by exists s, t, ws|].
  apply ends_cons in Hr as [(tg & d & Ht & Hd & Htr) Hr]. simpl. rewrite Hd. cbn [mbind option_bind]. rewrite Ht. cbn [mbind option_bind].
  rewrite raw_get by (by rewrite Hp). cbn [mbind option_bind]. destruct (raw p tg =? cell); apply IH; try done.
  intros w [Hw| ->%list_elem_of_singleton]%elem_of_app; [by apply Hws|done].
Qed.

Lemma same_parent_ok p v ws : zlen p = n -> 0 <= v < n -> (forall w, w ∈ ws -> 0 <= w < n) ->
  exists ws', same_parent p v ws = Some ws' /\ forall w, w ∈ ws' -> w ∈ ws /\ raw p v = raw p w.
Proof.
  intros Hp Hv. induction ws as [|w ws IH]; intros Hws; [exists []; split; [done|]; by intros w ?%not_elem_of_nil|].
  destruct IH as (ws' & E & H'); [intros x Hx; apply Hws; by right|]. assert (0 <= w < n) by (apply Hws; left).
  simpl. do 2 (rewrite raw_get by (by rewrite Hp); cbn [mbind option_bind]). rewrite E. cbn [mbind option_bind].
  eexists. split; [done|]. intros x. destruct (Z.eqb_spec (raw p v) (raw p w)) as [Heq|Hne].
  - intros [->|Hx]%elem_of_cons; [split; [left|done]|]. destruct (H' x Hx). split; [by right|done].
  - intros Hx. destruct (H' x Hx). split; [by right|done].
Qed.

Definition lens_ok ps : Prop := forall i p, ps !! i = Some p -> zlen p = n.

Lemma differing_levels_ok ps level a b : lens_ok ps -> (level < length ps)%nat -> 0 <= a < n -> 0 <= b < n ->
  exists k, differing_levels ps level a b = Some k.
Proof.
  intros Hl. induction level as [|level IH]; intros Hlv Ha Hb; simpl;
    destruct (lookup_lt_is_Some_2 ps _ Hlv) as [p Hp]; rewrite Hp; cbn [mbind option_bind];
    do 2 (rewrite raw_get by (by rewrite (Hl _ _ Hp)); cbn [mbind option_bind]).
  - eauto.
  - destruct IH as [k ->]; [lia|done..|]. simpl. eauto.
Qed.

Lemma weigh_witnesses_ok ps level range ws : lens_ok ps -> (level < length ps)%nat -> ends_ok range ->
  (forall w, w ∈ ws -> 0 <= w < n) -> exists weighed, weigh_witnesses g ps level range ws = Some weighed /\ weighed.*1 = ws.
Proof.
  intros Hl Hlv Hr. assert (forall w, 0 <= w < n -> exists k, induced_border_edges g ps level range w = Some k) as Hk.
  { intros w Hw. induction range as [|e range IH]; [by exists 0|]. apply ends_cons in Hr as [(tg & d & Ht & _ & Htr) Hr].
    simpl. rewrite Ht. cbn [mbind option_bind]. destruct (differing_levels_ok ps level tg w) as [k ->]; [done..|].
    cbn [mbind option_bind]. destruct (IH Hr) as [k' ->]. simpl. eauto. }
  induction ws as [|w ws IH]; intros Hws; [by exists []|]. destruct (Hk w) as [k Ek]; [apply Hws; left|].
  destruct IH as (weighed & E & Hf); [intros x Hx; apply Hws; by right|]. simpl. rewrite Ek. cbn [mbind option_bind].
  rewrite E. cbn [mbind option_bind]. eexists. split; [done|]. simpl. by f_equal.
Qed.

Lemma min_witness_elem w ws : min_witness w ws ∈ w :: ws.
Proof.
  revert w. induction ws as [|x ws IH]; intros w; simpl; [left|]. specialize (IH (if x.2 <? w.2 then x else w)).
  destruct (x.2 <? w.2); set_solver.
Qed.

Lemma move_node_ok ps level v b : lens_ok ps -> (level < length ps)%nat -> 0 <= v < n -> 0 <= b < n ->
  exists ps', move_node ps level v b = Some ps' /\ length ps' = length ps /\
    forall i p', ps' !! i = Some p' -> exists p, ps !! i = Some p /\ zlen p' = n /\
      forall x, raw p' x = if decide ((i <= level)%nat /\ x = v) then raw p b else raw p x.
Proof.
  revert ps. induction level as [|level IH]; intros ps Hl Hlv Hv Hb; simpl;
    destruct (lookup_lt_is_Some_2 ps _ Hlv) as [p0 Hp0]; rewrite Hp0; cbn [mbind option_bind]; pose proof (Hl _ _ Hp0) as Hlen0;
    rewrite raw_get by (by rewrite Hlen0); cbn [mbind option_bind];
    destruct (raw_set p0 v (raw p0 b)) as (p1 & -> & Hl1 & H1); [by rewrite Hlen0| |by rewrite Hlen0|]; cbn [mbind option_bind].
  - eexists. split; [done|]. split; [by rewrite length_insert|]. intros i p' Hp'. destruct (decide (i = 0%nat)) as [->|Hne].
    + rewrite list_lookup_insert_eq in Hp' by lia. injection Hp' as <-. exists p0. split; [done|]. split; [lia|].
      intros x. rewrite H1. repeat case_decide; try done; exfalso; lia.
    + rewrite list_lookup_insert_ne in Hp' by done. exists p'. split; [done|]. split; [by eapply Hl|].
      intros x. by rewrite decide_False by lia.
  - destruct (IH (<[S level:=p1]> ps)) as (ps' & E & Hlen & H'); [|rewrite length_insert; lia|done..|].
    { intros i p Hp. destruct (decide (i = S level)) as [->|Hne]; [|rewrite list_lookup_insert_ne in Hp by done; by eapply Hl].
      rewrite list_lookup_insert_eq in Hp by lia. injection Hp as <-. lia. }
    exists ps'. split; [done|]. rewrite length_insert in Hlen. split; [done|]. intros i p' Hp'.
    destruct (H' i p' Hp') as (p & Hp & Hlp & Hr). destruct (decide (i = S level)) as [->|Hne].
    + rewrite list_lookup_insert_eq in Hp by lia. injection Hp as <-. exists p0. split; [done|]. split; [done|].
      intros x. rewrite Hr, decide_False, H1 by lia. repeat case_decide; try done; exfalso; lia.
    + rewrite list_lookup_insert_ne in Hp by done. exists p. split; [done|]. split; [done|].
      intros x. rewrite Hr. repeat case_decide; try done; exfalso; lia.
Qed.

(** Moving a node below a common parent keeps the partitions nested. *)
Lemma move_node_partitions ps nums level v b ps' : partitions_ok ps nums -> 0 <= v < n -> 0 <= b < n ->
  (forall q, ps !! S level = Some q -> raw q v = raw q b) -> length ps' = length ps ->
  (forall i p', ps' !! i = Some p' -> exists p, ps !! i = Some p /\ zlen p' = n /\
      forall x, raw p' x = if decide ((i <= level)%nat /\ x = v) then raw p b else raw p x) -> partitions_ok ps' nums.
Proof.
  intros Hok Hv Hb Hparent Hlen H'. split.
  - intros i p' Hp'. by destruct (H' i p' Hp') as (p & _ & ? & _).
  - rewrite Hlen. apply Hok.
  - intros i p' m x Hp' Hm Hx. destruct (H' i p' Hp') as (p & Hp & _ & ->). case_decide; by apply (po_range _ _ Hok i p m).
  - intros i p' q' x y Hp' Hq' Hx Hy. destruct (H' i p' Hp') as (p & Hp & _ & Hrp). destruct (H' (S i) q' Hq') as (q & Hq & _ & Hrq).
    rewrite !Hrp, !Hrq. intros Heq. pose proof (po_nested _ _ Hok i p q) as Hnest.
    assert (forall z, 0 <= z < n -> raw p (if decide ((i <= level)%nat /\ z = v) then b else z) =
      if decide ((i <= level)%nat /\ z = v) then raw p b else raw p z) as Hp1 by (intros z _; by destruct (decide ((i <= level)%nat /\ z = v))).
    assert (raw q (if decide ((i <= level)%nat /\ x = v) then b else x) = raw q (if decide ((i <= level)%nat /\ y = v) then b else y)) as Hqq.
    { apply Hnest; try done; [by destruct (decide ((i <= level)%nat /\ x = v))|by destruct (decide ((i <= level)%nat /\ y = v))|]. by rewrite !Hp1. }
    assert (forall z, (if decide ((S i <= level)%nat /\ z = v) then raw q b else raw q z) =
      raw q (if decide ((i <= level)%nat /\ z = v) then b else z)) as Hq1.
    { intros z. destruct (decide ((i <= level)%nat /\ z = v)) as [[Hi ->]|Hn]; [|by rewrite decide_False by lia].
      destruct (decide ((S i <= level)%nat /\ v = v)) as [?|Hd]; [done|]. apply Hparent. assert (i = level) as -> by lia. done. }
    by rewrite !Hq1.
Qed.

Lemma fix_node_ok ps nums level v k : partitions_ok ps nums -> (level < length ps)%nat -> 0 <= v < n ->
  exists ps' k', fix_node g ps level v k = Some (ps', k') /\ partitions_ok ps' nums /\ length ps' = length ps.
Proof using Hwf Htargets.
  intros Hok Hlv Hv. pose proof (po_len _ _ Hok) as Hl. unfold fix_node.
  destruct (lookup_lt_is_Some_2 ps _ Hlv) as [p Hp]. rewrite Hp. cbn [mbind option_bind].
  rewrite raw_get by (by rewrite (Hl _ _ Hp)). cbn [mbind option_bind].
  destruct (range_ends v Hv) as (range & -> & Hr). cbn [mbind option_bind].
  destruct (scan_witnesses_ok p (raw p v) range false false [] (Hl _ _ Hp) Hr) as (s & t & ws & -> & Hws); [by intros w ?%not_elem_of_nil|].
  cbn [mbind option_bind]. destruct ((0 <? zlen ws) && _ && _); [|by exists ps, k]. unfold reassign.
  assert (exists ws', match ps !! S level with Some parents => same_parent parents v ws | None => Some ws end = Some ws' /\
    (forall w, w ∈ ws' -> 0 <= w < n) /\ forall q w, ps !! S level = Some q -> w ∈ ws' -> raw q v = raw q w) as (ws' & -> & Hws' & Hpar).
  { destruct (ps !! S level) as [q|] eqn:Eq; [|exists ws; split_and!; try done].
    destruct (same_parent_ok q v ws (Hl _ _ Eq) Hv Hws) as (ws' & E & H'). exists ws'. split; [done|].
    split; [intros w [Hw _]%H'; by apply Hws|]. intros q' w [= <-] [_ Hw]%H'. done. }
  cbn [mbind option_bind]. destruct (weigh_witnesses_ok ps level range ws' Hl Hlv Hr Hws') as (weighed & -> & Hfst). cbn [mbind option_bind].
  destruct weighed as [|w rest]; [by exists ps, (k + 1)|]. pose proof (min_witness_elem w rest) as Hmin.
  assert ((min_witness w rest).1 ∈ ws') as Hin by (rewrite <- Hfst; by apply list_elem_of_fmap_2).
  destruct (move_node_ok ps level v (min_witness w rest).1 Hl Hlv Hv (Hws' _ Hin)) as (ps' & -> & Hlen & H').
  cbn [mbind option_bind]. exists ps', (k + 1). split; [done|]. split; [|done].
  eapply (move_node_partitions ps nums level v (min_witness w rest).1); try done; [by apply Hws'|]. intros q Hq. by apply Hpar.
Qed.

Lemma removeUnconnected_ok ps nums : partitions_ok ps nums ->
  exists ps' k, removeUnconnectedBoundaryNodes g ps = Some (ps', k) /\ partitions_ok ps' nums /\ length ps' = length ps.
Proof using Hwf Htargets.
  intros Hok. unfold removeUnconnectedBoundaryNodes.
  assert (forall vs level ps k, partitions_ok ps nums -> (level < length ps)%nat -> (forall v, v ∈ vs -> 0 <= v < n) ->
    exists ps' k', fix_nodes g ps level vs k = Some (ps', k') /\ partitions_ok ps' nums /\ length ps' = length ps) as Hnodes.
  { induction vs as [|v vs IH]; intros level ps0 k Hok0 Hlv Hvs; [by exists ps0, k|].
    destruct (fix_node_ok ps0 nums level v k Hok0 Hlv) as (ps1 & k1 & E1 & Hok1 & Hl1); [apply Hvs; left|].
    destruct (IH level ps1 k1 Hok1) as (ps2 & k2 & E2 & Hok2 & Hl2); [lia|intros x Hx; apply Hvs; by right|].
    exists ps2, k2. simpl. rewrite E1. cbn [mbind option_bind]. split; [done|]. split; [done|lia]. }
  assert (forall levels ps k, partitions_ok ps nums -> (levels <= length ps)%nat ->
    exists ps' k', fix_levels g ps levels k = Some (ps', k') /\ partitions_ok ps' nums /\ length ps' = length ps) as Hlevels.
  { induction levels as [|level IH]; intros ps0 k Hok0 Hlv; [by exists ps0, k|].
    destruct (Hnodes (seqZ 0 n) level ps0 k Hok0) as (ps1 & k1 & E1 & Hok1 & Hl1); [lia|intros v Hv%elem_of_seqZ; lia|].
    destruct (IH ps1 k1 Hok1) as (ps2 & k2 & E2 & Hok2 & Hl2); [lia|].
    exists ps2, k2. simpl. rewrite E1. cbn [mbind option_bind]. split; [done|]. split; [done|lia]. }
  by apply Hlevels.
Qed.
End repair.

(** ** Border levels *)

Section order.
Context {G : Type} `{!Graph G EdgeData, !GraphLaws G EdgeData} (g : G).
Abbreviation n := (graph_nodes g).
Context (Hwf : graph_wf g) (Htargets : forall v x, 0 <= v < n -> x ∈ adjacency g v -> 0 <= target x < n).
Implicit Types (ps : list (list Z)) (p bl : list Z).

Definition has_edge (u w : Z) : Prop := 0 <= u < n /\ exists x, x ∈ adjacency g u /\ target x = w.

(** An edge of [v], in one direction or the other, leaves the cell of [v]. *)
Definition crossing p (v : Z) : Prop := exists w, (has_edge v w \/ has_edge w v) /\ raw p v <> raw p w.

(** What marking the ends of the crossing edges among [E] does. *)
Definition marked (E : Z -> Z -> Prop) p (level : Z) bl bl' : Prop :=
  zlen bl' = zlen bl /\ forall v, let hit := exists u w, E u w /\ raw p u <> raw p w /\ (v = u \/ v = w) in
    (hit -> raw bl' v = level) /\ (raw bl' v = raw bl v \/ (hit /\ raw bl' v = level)).

Lemma marked_trans E1 E2 p level bl1 bl2 bl3 : marked E1 p level bl1 bl2 -> marked E2 p level bl2 bl3 ->
  marked (fun u w => E1 u w \/ E2 u w) p level bl1 bl3.
Proof.
  intros [L1 H1] [L2 H2]. split; [lia|]. intros v. destruct (H1 v) as [H1a H1b], (H2 v) as [H2a H2b]. split.
  - intros (u & w & [He|He] & Hne & Hv); [|apply H2a; eauto 10]. destruct H2b as [->|[_ ?]]; [apply H1a; eauto 10|done].
  - destruct H2b as [->|[(u & w & ? & ? & ?) ?]]; [|right; split; [exists u, w; tauto|done]].
    destruct H1b as [?|[(u & w & ? & ? & ?) ?]]; [by left|right; split; [exists u, w; tauto|done]].
Qed.

Lemma marked_ext (E1 E2 : Z -> Z -> Prop) p level bl bl' : (forall u w, E1 u w <-> E2 u w) -> marked E1 p level bl bl' -> marked E2 p level bl bl'.
Proof.
  intros HE [L H]. split; [done|]. intros v. destruct (H v) as [Ha Hb]. split.
  - intros (u & w & He & ?). apply Ha. exists u, w. by rewrite HE.
  - destruct Hb as [?|[(u & w & He & ?) ?]]; [by left|right]. split; [|done]. exists u, w. by rewrite <- HE.
Qed.

Lemma mark_border_ok p level u range bl : zlen p = n -> zlen bl = n -> 0 <= u < n -> ends_ok g range ->
  exists bl', mark_border g p level u range bl = Some bl' /\
    marked (fun a w => a = u /\ exists e, e ∈ range /\ graph_target g e = Some w) p level bl bl'.
Proof.
  intros Hp. revert bl. induction range as [|e range IH]; intros bl Hbl Hu Hr.
  { exists bl. split; [done|]. split; [done|]. intros v. split; [|by left]. by intros (? & ? & (_ & ? & ?%not_elem_of_nil & _) & _). }
  apply ends_cons in Hr as [(t & d & Ht & _ & Htr) Hr]. simpl. rewrite Ht. cbn [mbind option_bind].
  do 2 (rewrite raw_get by (by rewrite Hp); cbn [mbind option_bind]).
  assert (exists bl1, (if raw p u =? raw p t then Some bl else b ← zset u level bl; zset t level b) = Some bl1 /\
    marked (fun a w => a = u /\ w = t) p level bl bl1) as (bl1 & -> & Hm1).
  { destruct (Z.eqb_spec (raw p u) (raw p t)) as [Heq|Hne].
    - exists bl. split; [done|]. split; [done|]. intros v. split; [|by left]. by intros (? & ? & [-> ->] & ? & _).
    - destruct (raw_set bl u level) as (b1 & -> & L1 & H1); [by rewrite Hbl|]. cbn [mbind option_bind].
      destruct (raw_set b1 t level) as (b2 & -> & L2 & H2); [by rewrite L1, Hbl|]. exists b2. split; [done|].
      split; [lia|]. intros v. rewrite H2, H1. destruct (decide (v = t)) as [->|Hvt]; [split; [done|right; split; [eauto 10|done]]|].
      destruct (decide (v = u)) as [->|Hvu]; [split; [done|right; split; [eauto 10|done]]|].
      split; [|by left]. by intros (? & ? & [-> ->] & _ & [?|?]). }
  cbn [mbind option_bind]. destruct (IH bl1) as (bl' & -> & Hm); [by rewrite (proj1 Hm1)|done..|]. exists bl'. split; [done|].
  eapply marked_ext; [|exact (marked_trans _ _ _ _ _ _ _ Hm1 Hm)]. intros a w. simpl. split.
  - intros [[-> ->]|(-> & e' & He' & ?)]; (split; [done|]); [exists e|exists e']; (split; [set_solver|done]).
  - intros (-> & e' & [->|He']%elem_of_cons & Hw); [left; split; [done|congruence]|right; eauto 10].
Qed.

Lemma mark_border_nodes_ok p level us bl : zlen p = n -> zlen bl = n -> (forall u, u ∈ us -> 0 <= u < n) ->
  exists bl', mark_border_nodes g p level us bl = Some bl' /\ marked (fun u w => u ∈ us /\ has_edge u w) p level bl bl'.
Proof using Hwf Htargets.
  intros Hp. revert bl. induction us as [|u us IH]; intros bl Hbl Hus.
  { exists bl. split; [done|]. split; [done|]. intros v. split; [|by left]. by intros (? & ? & [?%not_elem_of_nil _] & _). }
  assert (0 <= u < n) as Hu by (apply Hus; left). destruct (graph_range_ok g u Hwf Hu) as (range & Er & HF).
  destruct (range_ends g Hwf Htargets u Hu) as (range' & Er' & Hends). assert (range' = range) as -> by congruence.
  simpl. rewrite Er. cbn [mbind option_bind]. destruct (mark_border_ok p level u range bl Hp Hbl Hu Hends) as (bl1 & -> & Hm1).
  cbn [mbind option_bind]. destruct (IH bl1) as (bl' & -> & Hm); [by rewrite (proj1 Hm1)|intros w Hw; apply Hus; by right|].
  exists bl'. split; [done|]. eapply marked_ext; [|exact (marked_trans _ _ _ _ _ _ _ Hm1 Hm)]. intros a w. simpl.
  assert ((exists e, e ∈ range /\ graph_target g e = Some w) <-> exists x, x ∈ adjacency g u /\ target x = w) as Hedge.
  { split.
    - intros (e & [i He]%list_elem_of_lookup_1 & Hw). destruct (Forall2_lookup_l _ _ _ _ _ HF He) as (x & Hx & Ht & _).
      exists x. split; [by eapply list_elem_of_lookup_2|congruence].
    - intros (x & [i Hx]%list_elem_of_lookup_1 & <-). destruct (Forall2_lookup_r _ _ _ _ _ HF Hx) as (e & He & Ht & _).
      exists e. split; [by eapply list_elem_of_lookup_2|done]. }
  unfold has_edge. rewrite elem_of_cons. split.
  - intros [[-> He%Hedge]|[? ?]]; [by auto|]. split; [by right|done].
  - intros [[->|?] [? He]]; [left; split; [done|by apply Hedge]|right; by auto].
Qed.

Lemma mark_border_levels_ok ps level bl : (forall i p, ps !! i = Some p -> zlen p = n) -> zlen bl = n ->
  0 <= level -> level + zlen ps <= 256 ->
  exists bl', mark_border_levels g ps level bl = Some bl' /\ zlen bl' = n /\ forall v,
    (forall i p, ps !! i = Some p -> crossing p v -> level + Z.of_nat i <= raw bl' v) /\
    (raw bl' v = raw bl v \/ exists i p, ps !! i = Some p /\ crossing p v /\ raw bl' v = level + Z.of_nat i).
Proof using Hwf Htargets.
  revert level bl. induction ps as [|p ps IH]; intros level bl Hps Hbl Hlevel Hmax.
  { exists bl. split; [done|]. split; [done|]. intros v. split; [done|by left]. }
  rewrite zlen_cons in Hmax. pose proof (zlen_nonneg ps). simpl. rewrite wrap_small by (unfold in_word; lia).
  destruct (mark_border_nodes_ok p level (seqZ 0 n) bl (Hps 0%nat p eq_refl) Hbl) as (bl1 & -> & L1 & H1); [by intros u Hu%elem_of_seqZ; lia|].
  cbn [mbind option_bind]. destruct (IH (level + 1) bl1) as (bl' & -> & L & H'); [by intros i q Hq; apply (Hps (S i))|lia..|].
  exists bl'. split; [done|]. split; [done|]. intros v. destruct (H1 v) as [H1a H1b], (H' v) as [Ha Hb].
  assert (crossing p v <-> exists u w, (u ∈ seqZ 0 n /\ has_edge u w) /\ raw p u <> raw p w /\ (v = u \/ v = w)) as Hcr.
  { split.
    - intros (w & [He|He] & Hne); [exists v, w|exists w, v]; (split; [split; [apply elem_of_seqZ; destruct He; lia|done]|]); auto.
    - intros (u & w & [_ He] & Hne & [->| ->]); [exists w|exists u]; auto. }
  rewrite <- Hcr in H1a, H1b. split.
  - intros [|i] q Hq Hc; simpl in Hq; [injection Hq as <-|pose proof (Ha i q Hq Hc); lia].
    specialize (H1a Hc). destruct Hb as [->|(i & q & _ & _ & ->)]; lia.
  - destruct Hb as [->|(i & q & Hq & Hc & ->)]; [|right; exists (S i), q; split_and!; [done|done|lia]].
    destruct H1b as [?|[Hc ->]]; [by left|]. right. exists 0%nat, p. split_and!; [done|done|lia].
Qed.

(** The level of a node: the highest one at which an edge leaves its cell. *)
Definition highest_border_level ps v (l : Z) : Prop :=
  (forall i p, ps !! i = Some p -> crossing p v -> Z.of_nat i + 1 <= l) /\
  (l = 0 \/ exists i p, ps !! i = Some p /\ crossing p v /\ l = Z.of_nat i + 1).

(** The permutation puts nodes with a higher border level first. *)
Lemma makePermutation_ok ps : 0 <= n -> (forall i p, ps !! i = Some p -> zlen p = n) -> zlen ps < 255 ->
  exists perm bl, makePermutation g ps = Some perm /\ is_permutation n perm /\
    (forall v, highest_border_level ps v (raw bl v)) /\
    forall a b i j, perm !z a = Some i -> perm !z b = Some j -> raw bl b < raw bl a -> i < j.
Proof using Hwf Htargets.
  intros Hn Hps Hmax. destruct (mark_border_levels_ok ps 1 (replicate (Z.to_nat n) 0)) as (bl & Ebl & Lbl & Hbl); [done| |lia..|].
  { unfold zlen. rewrite length_replicate. lia. }
  assert (forall v, raw (replicate (Z.to_nat n) 0) v = 0) as H0.
  { intros v. unfold raw, zget. destruct (0 <=? v); [|done]. destruct (replicate _ _ !! _) as [z|] eqn:E; [|done].
    by apply lookup_replicate in E as [-> _]. }
  unfold makePermutation, getHighestBorderLevel. rewrite Ebl. cbn [mbind option_bind].
  set (ordering := stable_sort _ [] _).
  assert (is_permutation n ordering) as Hperm.
  { unfold is_permutation, ordering. rewrite stable_sort_Permutation. simpl. apply sort_nodes_Permutation. }
  assert (zlen ordering = n) as Hlen by (by apply perm_len).
  destruct (orderingToPermutation_ok ordering) as (perm & E & Hp & Hinv); [by rewrite Hlen|]. rewrite Hlen in Hp.
  exists perm, bl. split; [done|]. split; [done|]. split.
  { intros v. destruct (Hbl v) as [Ha Hb]. rewrite H0 in Hb. split.
    - intros i p Hi Hc. specialize (Ha i p Hi Hc). lia.
    - destruct Hb as [?|(i & p & ? & ? & ?)]; [by left|right]. exists i, p. split_and!; [done|done|lia]. }
  assert (StronglySorted (refine (fun v => - raw bl v) (fun _ _ => True)) ordering) as Hsorted.
  { apply stable_sort_sorted; [constructor| |done]. clear. generalize (sort_nodes ps (seqZ 0 n)). intros l.
    induction l; constructor; [done|]. by apply Forall_forall. }
  assert (forall a i, perm !z a = Some i -> ordering !z i = Some a) as Hback.
  { intros a i Ha. pose proof (zget_some _ _ _ Ha) as Hr. rewrite (perm_len n perm Hn Hp) in Hr.
    destruct (perm_surj n ordering Hperm a Hr) as [k Hk]. pose proof (Hinv k a Hk). congruence. }
  intros a b i j Ha%Hback Hb%Hback Hless. destruct (Z.lt_trichotomy i j) as [?|[->|Hlt]]; [done|simplify_eq; lia|].
  pose proof (zget_some _ _ _ Ha). pose proof (zget_some _ _ _ Hb). unfold zget in Ha, Hb.
  destruct (Z.leb_spec 0 i), (Z.leb_spec 0 j); try lia.
  destruct (StronglySorted_lookup _ _ _ _ _ _ Hsorted Hb Ha ltac:(lia)) as [Hk|[Hk _]]; simpl in Hk; lia.
Qed.
End order.

(** ** The run succeeds *)

Lemma renumber_partitions_ok n ps perm : is_permutation n perm -> 0 <= n -> (forall i p, ps !! i = Some p -> zlen p = n) ->
  exists ps', renumber_partitions ps perm = Some ps' /\ length ps' = length ps /\
    forall i p', ps' !! i = Some p' -> exists p, ps !! i = Some p /\ zlen p' = n /\
      forall a b, perm !z a = Some b -> raw p' b = raw p a.
Proof.
  intros Hperm Hn. induction ps as [|p ps IH]; intros Hps; [by exists []|].
  destruct IH as (ps' & E & Hl & H'); [intros i q Hq; by apply (Hps (S i))|]. pose proof (Hps 0%nat p eq_refl) as Hp.
  destruct (inplacePermutation_ok perm p) as (p' & Ep & Hlp & Hget); [by rewrite Hp|].
  exists (p' :: ps'). simpl. rewrite Ep. cbn [mbind option_bind]. rewrite E. cbn [mbind option_bind]. split; [done|].
  split; [simpl; lia|]. intros [|i] q Hq; simpl in Hq; [|by apply H']. injection Hq as <-. exists p. split; [done|].
  split; [lia|]. intros a b Hab. unfold raw. by rewrite (Hget a b Hab).
Qed.

Lemma distinct_le p m : 0 <= m -> (forall c, c ∈ p -> 0 <= c < m) -> distinct p <= m.
Proof.
  intros Hm Hp. unfold distinct. transitivity (Z.of_nat (size (list_to_set (seqZ 0 m) : gset Z))).
  - apply inj_le, subseteq_size. intros c Hc%elem_of_list_to_set%Hp. apply elem_of_list_to_set, elem_of_seqZ. lia.
  - rewrite size_list_to_set by apply NoDup_seqZ. rewrite length_seqZ. lia.
Qed.

Section run.
Context (part : (Z -> bool) -> list Z -> list Z) `{!StdPartition part} (parallel_sort : sort_function) `{!ParallelSort parallel_sort}.
Context (graph : DynamicGraph EdgeData) (ids sizes : list Z).
Abbreviation n := (zlen ids).

(** An edge-based graph with a bisection id per node and the sizes of the
    levels; the cells of the levels fit 64 bits. *)
Record run_input : Prop := {
  ri_graph : dg_wf graph;
  ri_nodes : number_of_nodes graph = n;
  ri_targets v x : x ∈ adj graph v -> 0 <= target x < n;
  ri_edges : zlen (edge_list graph) < UINT32_MAX;
  ri_some : 0 < n;
  ri_ids : Forall (in_word 32) ids;
  ri_levels : 0 < zlen sizes;
  ri_size : zlen sizes * (n + 2) < 2 ^ 32;
  ri_fit ps nums : bisectionToPartition part ids sizes = Some (ps, nums) -> counts_ok nums
}.
Context (Hin : run_input).

Lemma graph_targets v x : 0 <= v < graph_nodes graph -> x ∈ adjacency graph v -> 0 <= target x < graph_nodes graph.
Proof using Hin. intros _ Hx. change (graph_nodes graph) with (number_of_nodes graph). rewrite (ri_nodes Hin). by apply (ri_targets Hin v). Qed.

Lemma bisection_partitions : exists ps nums, bisectionToPartition part ids sizes = Some (ps, nums) /\ levels_spec ids sizes ps nums /\
  partitions_ok graph ps nums /\ zlen ps = zlen sizes /\ counts_ok nums.
Proof using All.
  pose proof (ri_some Hin). pose proof (ri_levels Hin). pose proof (ri_size Hin).
  destruct (bisectionToPartition_ok ids (ri_ids Hin) ltac:(nia) part sizes) as (ps & nums & E & Hspec). exists ps, nums.
  split; [done|]. split; [done|]. destruct Hspec as (Hl1 & Hl2 & Hlevel & Hnest). split; [|split; [done|by eapply (ri_fit Hin)]].
  assert (graph_nodes graph = n) as Hn by exact (ri_nodes Hin).
  assert (forall i p, ps !! i = Some p -> exists max num, nums !! i = Some num /\ level_spec ids max p num) as Hspec.
  { intros i p Hp. rewrite <- zget_nat in Hp. pose proof (zget_some _ _ _ Hp).
    destruct (zget_is_some nums (Z.of_nat i)) as [num Hnum]; [lia|]. destruct (zget_is_some sizes (Z.of_nat i)) as [max Hmax]; [lia|].
    exists max, num. rewrite <- zget_nat. split; [done|]. by eapply Hlevel. }
  split; rewrite ?Hn.
  - intros i p Hp. destruct (Hspec i p Hp) as (? & ? & _ & Hs). apply Hs.
  - unfold zlen in *. lia.
  - intros i p m x Hp Hm Hx. destruct (Hspec i p Hp) as (? & ? & Hm' & Hs). simplify_eq. by apply Hs.
  - intros i p q x y Hp Hq. apply (Hnest (Z.of_nat i)); [by rewrite zget_nat|]. rewrite <- zget_nat in Hq.
    by replace (Z.of_nat i + 1) with (Z.of_nat (S i)) by lia.
Qed.

(** The renumbered partitions are a valid input of the packed partition. *)
Lemma renumbered_input ps nums perm ps' : partitions_ok graph ps nums -> zlen ps = zlen sizes -> counts_ok nums -> is_permutation n perm ->
  length ps' = length ps -> (forall i p', ps' !! i = Some p' -> exists p, ps !! i = Some p /\ zlen p' = n /\
      forall a b, perm !z a = Some b -> raw p' b = raw p a) -> input_ok ps' nums n.
Proof using Hin.
  intros Hok Hlen Hcounts Hperm Hl H'. pose proof (ri_some Hin). assert (graph_nodes graph = n) as Hn by exact (ri_nodes Hin).
  assert (zlen ps' = zlen sizes) as Hl' by (unfold zlen in *; lia).
  assert (forall i p', ps' !z i = Some p' -> exists p, ps !! Z.to_nat i = Some p /\ zlen p' = n /\ forall b, 0 <= b < n ->
    exists a, 0 <= a < n /\ raw p' b = raw p a /\ perm !z a = Some b) as Hget.
  { intros i p' Hp'. pose proof (zget_some _ _ _ Hp'). unfold zget in Hp'. destruct (Z.leb_spec 0 i); [|lia].
    destruct (H' _ _ Hp') as (p & Hp & Hlp & Hr). exists p. split; [done|]. split; [done|]. intros b Hb.
    destruct (perm_surj n perm Hperm b Hb) as [a Ha]. exists a. split; [|split; [by apply Hr|done]].
    rewrite <- (perm_len n perm ltac:(lia) Hperm). by eapply zget_some. }
  split.
  - rewrite Hl'. apply Hin.
  - done.
  - intros i p' Hp'. by destruct (Hget i p' Hp') as (? & _ & ? & _).
  - intros i p' q' a b Hp' Hq' Ha Hb Heq. pose proof (zget_some _ _ _ Hp').
    destruct (H' (Z.to_nat i) p') as (p & Hp & _ & Hrp); [by rewrite <- zget_nat, Z2Nat.id by lia|].
    destruct (H' (S (Z.to_nat i)) q') as (q & Hq & _ & Hrq); [rewrite <- zget_nat; by replace (Z.of_nat (S (Z.to_nat i))) with (i + 1) by lia|].
    destruct (perm_surj n perm Hperm a Ha) as [a0 Ha0], (perm_surj n perm Hperm b Hb) as [b0 Hb0].
    rewrite (Hrp _ _ Ha0), (Hrp _ _ Hb0) in Heq. rewrite (Hrq _ _ Ha0), (Hrq _ _ Hb0). pose proof (zget_some _ _ _ Ha0).
    pose proof (zget_some _ _ _ Hb0). rewrite (perm_len n perm ltac:(lia) Hperm) in *.
    apply (po_nested _ _ _ Hok (Z.to_nat i) p q); rewrite ?Hn; done.
  - unfold zlen in *. rewrite (po_nums _ _ _ Hok). lia.
  - done.
  - intros i p' m Hp' Hm. destruct (Hget i p' Hp') as (p & Hp & Hlp & Hr). pose proof (zget_some _ _ _ Hp').
    unfold zget in Hm. destruct (Z.leb_spec 0 i); [|done]. destruct Hcounts as (_ & _ & HF). rewrite Forall_forall in HF.
    apply distinct_le; [apply HF; by eapply list_elem_of_lookup_2|]. intros c [b Hb]%elem_zget. pose proof (zget_some _ _ _ Hb).
    destruct (Hr b) as (a & Ha & E & _); [lia|]. unfold raw at 1 in E. rewrite Hb in E. simpl in E. rewrite E.
    by apply (po_range _ _ _ Hok (Z.to_nat i) p m a Hp Hm); rewrite Hn.
  - rewrite Hl'. apply Hin.
Qed.

Lemma distinct_len p : distinct p <= zlen p.
Proof.
  unfold distinct. replace (list_to_set p : gset Z) with (list_to_set (remove_dups p) : gset Z)
    by (apply set_eq; intros c; by rewrite !elem_of_list_to_set, elem_of_remove_dups).
  rewrite size_list_to_set by apply NoDup_remove_dups. apply inj_le. induction p as [|c p IH]; simpl; [lia|]. case_decide; simpl; lia.
Qed.

(** The renumbered graph and the packed partition are a valid input of the storage. *)
Lemma run_storage_input ps' nums mlp perm graph' : input_ok ps' nums n -> zlen ps' = zlen sizes ->
  MultiLevelPartition_new ps' nums = Some (Some mlp) ->
  (forall l p, ps' !z (l - 1) = Some p -> GetNumberOfCells mlp l = Some (distinct p) /\
      forall a b, 0 <= a < n -> 0 <= b < n -> exists ca cb, GetCell mlp l a = Some ca /\ GetCell mlp l b = Some cb /\
          0 <= ca < distinct p /\ (ca = cb <-> raw p a = raw p b)) ->
  is_permutation n perm -> dg_wf graph' -> number_of_nodes graph' = n ->
  (forall v v', perm !z v = Some v' -> Forall2 (fun x y => perm !z target x = Some (target y) /\ data y = data x) (adj graph v) (adj graph' v')) ->
  storage_input mlp graph' (zlen sizes).
Proof using Hin.
  intros Hinput Hlen Emlp Hcells Hperm Hwf Hn Hadj. pose proof (ri_some Hin). pose proof (ri_levels Hin). pose proof (ri_size Hin) as Hsize.
  assert (graph_nodes graph' = n) as Hgn by exact Hn.
  assert (forall l, 1 <= l <= zlen sizes -> exists p, ps' !z (l - 1) = Some p /\ num_cells mlp l = distinct p /\ 0 <= distinct p <= n) as Hnum.
  { intros l Hl. destruct (zget_is_some ps' (l - 1)) as [p Hp]; [lia|]. exists p. split; [done|]. destruct (Hcells l p Hp) as [E _].
    unfold num_cells. rewrite E. split; [done|]. pose proof (distinct_len p). rewrite (in_len _ _ _ Hinput _ _ Hp) in *. unfold distinct in *. lia. }
  split; rewrite ?Hgn.
  - lia.
  - rewrite <- Hlen. by eapply constructor_num_levels.
  - intros l Hl. destruct (Hnum l Hl) as (p & Hp & _). destruct (Hcells l p Hp) as [E Hc]. exists (distinct p). split; [done|].
    intros v Hv. destruct (Hc v v Hv Hv) as (ca & _ & Ec & _ & Hr & _). by exists ca.
  - intros l Hl. destruct (Hnum l Hl) as (p & _ & -> & ?). lia.
  - done.
  - intros v y Hv Hy. destruct (perm_surj n perm Hperm v Hv) as [u Hu]. apply list_elem_of_lookup_1 in Hy as [i Hy].
    destruct (Forall2_lookup_r _ _ _ _ _ (Hadj u v Hu) Hy) as (x & _ & Ht & _). by apply (perm_range n perm Hperm _ _ Ht).
  - nia.
  - assert (forall k, (k <= Z.to_nat (zlen sizes))%nat -> level_start mlp k <= Z.of_nat k * n) as Hstart.
    { induction k as [|k IH]; intros Hk; simpl; [lia|]. destruct (Hnum (Z.of_nat k + 1)) as (p & _ & -> & ?); [lia|].
      specialize (IH ltac:(lia)). lia. }
    specialize (Hstart (Z.to_nat (zlen sizes)) ltac:(lia)). nia.
Qed.

(** ** Claims *)

(** C5: the partitioner.  On an edge-based graph with a bisection id per node,
    whatever order the library's partition and sort leave open, the steps of the
    run succeed: the partitions of the bisection are repaired and stay nested;
    the nodes are renumbered by a permutation that puts nodes with a higher
    border level first and carries the edges along; two nodes share a packed
    cell exactly when they share a cell of the repaired partition; and the
    storage lists the boundary nodes of every cell of the new graph. *)
Theorem partitioner_run dflt :
  exists ps nums ps1 k r bl, bisectionToPartition part ids sizes = Some (ps, nums) /\
    removeUnconnectedBoundaryNodes graph ps = Some (ps1, k) /\
    Partitioner_Run part parallel_sort dflt graph ids sizes = Some (Some r) /\
    partitions_ok graph ps1 nums /\ is_permutation n (pr_permutation r) /\
    (forall v, highest_border_level graph ps1 v (raw bl v)) /\
    (forall a b i j, pr_permutation r !z a = Some i -> pr_permutation r !z b = Some j -> raw bl b < raw bl a -> i < j) /\
    (forall v v', pr_permutation r !z v = Some v' ->
       Forall2 (fun x y => pr_permutation r !z target x = Some (target y) /\ data y = data x) (adj graph v) (adj (pr_graph r) v')) /\
    nested_cells (pr_partition r) (zlen sizes) /\
    (forall l p a b a' b', ps1 !z (l - 1) = Some p -> pr_permutation r !z a = Some a' -> pr_permutation r !z b = Some b' ->
       (GetCell (pr_partition r) l a' = GetCell (pr_partition r) l b' <-> raw p a = raw p b)) /\
    (forall l c, 1 <= l <= zlen sizes -> 0 <= c < num_cells (pr_partition r) l ->
       exists cell, GetCellData (pr_storage r) l c = Some cell /\
         GetSourceNodes (pr_storage r) cell = Some (source_nodes forward (pr_partition r) (pr_graph r) l c) /\
         GetDestinationNodes (pr_storage r) cell = Some (destination_nodes forward backward (pr_partition r) (pr_graph r) l c)).
Proof using All.
  destruct bisection_partitions as (ps & nums & Eb & _ & Hok & Hlen & Hcounts).
  assert (graph_nodes graph = n) as Hn by exact (ri_nodes Hin). pose proof (ri_some Hin). pose proof (ri_levels Hin). pose proof (ri_size Hin).
  assert (graph_wf graph) as Hgw by exact (ri_graph Hin).
  destruct (removeUnconnected_ok graph Hgw graph_targets ps nums Hok) as (ps1 & k & Er & Hok1 & Hl1).
  assert (forall i p, ps1 !! i = Some p -> zlen p = n) as Hlens by (intros i p Hp; rewrite <- Hn; by eapply (po_len _ _ _ Hok1)).
  destruct (makePermutation_ok graph Hgw graph_targets ps1) as (perm & bl & Em & Hperm & Hbl & Hborder);
    [lia|by rewrite Hn|destruct Hcounts as (Hc & _); pose proof (po_nums _ _ _ Hok); unfold zlen in *; lia|]. rewrite Hn in Hperm.
  destruct (Renumber_ok perm dflt graph (ri_graph Hin)) as (graph' & Eg & Hwf' & Hn' & _ & Hadj).
  { by rewrite (ri_nodes Hin). } { rewrite (ri_nodes Hin). unfold UINT32_MAX. nia. } { apply Hin. } { intros v x. rewrite (ri_nodes Hin). apply Hin. }
  destruct (renumber_partitions_ok n ps1 perm Hperm ltac:(lia) Hlens) as (ps2 & Ep & Hl2 & H2).
  assert (zlen ps1 = zlen sizes) as Hlen1 by (unfold zlen in *; lia).
  pose proof (renumbered_input ps1 nums perm ps2 Hok1 Hlen1 Hcounts Hperm Hl2 H2) as Hinput.
  destruct (constructor_cells ps2 nums n Hinput) as (mlp & Emlp & _ & Hnested & _ & Hcells).
  assert (zlen ps2 = zlen sizes) as Hlen2 by (unfold zlen in *; lia). rewrite Hlen2 in Hnested.
  pose proof (run_storage_input ps2 nums mlp perm graph' Hinput Hlen2 Emlp Hcells Hperm Hwf' (eq_trans Hn' (ri_nodes Hin)) Hadj) as Hsi.
  destruct (storage_lists forward backward mlp graph' (zlen sizes) Hsi parallel_sort) as (st & Est & Hst).
  exists ps, nums, ps1, k, (mkPartitionerResult graph' mlp st perm), bl. split; [done|]. split; [done|]. split.
  { unfold Partitioner_Run. rewrite Eb. cbn [mbind option_bind]. rewrite Er. cbn [mbind option_bind]. rewrite Em. cbn [mbind option_bind].
    rewrite Eg. cbn [mbind option_bind]. rewrite Ep. cbn [mbind option_bind]. rewrite Emlp. cbn [mbind option_bind]. by rewrite Est. }
  do 6 (split; [done|]). split; [|done]. simpl. intros l p a b a' b' Hp Ha Hb. pose proof (zget_some _ _ _ Hp) as Hl.
  destruct (zget_is_some ps2 (l - 1)) as [p2 Hp2]; [unfold zlen in *; lia|]. pose proof (perm_range n perm Hperm _ _ Ha).
  pose proof (perm_range n perm Hperm _ _ Hb). destruct (Hcells l p2 Hp2) as [_ Hc].
  destruct (Hc a' b') as (ca & cb & -> & -> & _ & Hiff); [done..|]. unfold zget in Hp, Hp2. destruct (Z.leb_spec 0 (l - 1)); [|lia].
  destruct (H2 _ _ Hp2) as (q & Hq & _ & Hr). simplify_eq. rewrite (Hr _ _ Ha), (Hr _ _ Hb) in Hiff. rewrite <- Hiff. naive_solver.
Qed.
End run.

(** ** An example *)

(** Six nodes on two parallel streets, every edge stored at both ends. *)
Definition town_edges : list (InputEdge EdgeData) :=
  (fun e => mkInputEdge e.1 e.2 (example_data 1 true true)) <$>
  [(0, 2); (0, 5); (1, 3); (1, 4); (2, 0); (2, 3); (3, 1); (3, 2); (4, 1); (5, 0)].

Definition town : DynamicGraph EdgeData := DynamicGraph_new 6 town_edges.

Lemma town_ok : dg_wf town /\ forall v, 0 <= v < 6 -> adj town v = edge_of_input <$> filter (fun e => ie_source e = v) town_edges.
Proof.
  apply DynamicGraph_new_ok; [lia|by vm_compute|by vm_compute|]. apply (proj1 (Forall_forall (fun e => 0 <= ie_target e < UINT32_MAX) town_edges)).
  by repeat (constructor; [done|]).
Qed.

Lemma town_input : run_input stable_partition town example_ids [1; 4].
Proof.
  destruct town_ok as [Hwf Hadj]. split.
  - exact Hwf.
  - done.
  - intros v x Hx. assert (0 <= v < 6) as Hv.
    { unfold adj in Hx. destruct (node_array town !z v) as [nd|] eqn:E; [by apply zget_some in E|by apply elem_of_nil in Hx]. }
    rewrite Hadj in Hx by done. apply list_elem_of_fmap in Hx as (e & -> & [_ He]%list_elem_of_filter). revert e He.
    apply (proj1 (Forall_forall (fun e => 0 <= target (edge_of_input e) < zlen example_ids) town_edges)).
    by repeat (constructor; [done|]).
  - by vm_compute.
  - done.
  - exact example_ids_words.
  - done.
  - by vm_compute.
  - intros ps nums E. vm_compute in E. injection E as <- <-. split; [done|]. split; [by vm_compute|]. repeat constructor; done.
Qed.

Lemma partitioner_run_witness :
  exists r, Partitioner_Run stable_partition sequential_sort (mkDynamicEdge 0 (example_data 0 false false)) town example_ids [1; 4]
    = Some (Some r) /\ is_permutation 6 (pr_permutation r) /\ nested_cells (pr_partition r) 2.
Proof.
  destruct (partitioner_run stable_partition sequential_sort town example_ids [1; 4] town_input
    (mkDynamicEdge 0 (example_data 0 false false))) as (ps & nums & ps1 & k & r & bl & _ & _ & E & _ & Hp & _ & _ & _ & Hn & _).
  exists r. split; [exact E|]. split; [exact Hp|exact Hn].
Defined.
