(* ===== verification/TrafficProtobuf.v ===== *)
(** * Traffic batches on the wire

    Model of include/engine/traffic_protobuf.hpp and of the part of the
    vendored protozero reader and writer it uses: varints, tags, wire types,
    fixed-width values and length-delimited submessages.

    Bytes are integers in [[0, 256)]; a buffer is the list of bytes that are
    still to be read.  Floating-point fields are carried as the 32 or 64 bits
    that go over the wire.  The accessors do not look at the wire type, as in
    a build without assertions. *)
From S2P Require Import Prelude.

(** ** Exceptions *)

Inductive exn : Type :=
| end_of_buffer_exception
| varint_too_long_exception
| invalid_tag_exception
| unknown_pbf_wire_type_exception
| fuel_exhausted.  (** never raised: [parse_total] *)

Inductive res (A : Type) : Type :=
| Ok (a : A)
| Throw (e : exn).
Arguments Ok {A}.
Arguments Throw {A}.

#[export] Instance res_bind : MBind res :=
  fun A B f m => match m with Ok a => f a | Throw e => Throw e end.
#[export] Instance res_ret : MRet res := fun A a => Ok a.

(** ** Varints *)

Definition max_varint_length : Z := 10.

(** The unrolled fast path; the tenth byte contributes a single bit. *)
Fixpoint decode_fast (k : nat) (shift val : Z) (data : list Z) : res (Z * list Z) :=
  match k, data with
  | O, _ => Throw varint_too_long_exception
  | S k, [] => Throw end_of_buffer_exception
  | S k, b :: data =>
      let val := Z.lor val (Z.shiftl (Z.land b (if shift =? 63 then 1 else 127)) shift) in
      if b <? 128 then Ok (val, data) else decode_fast k (shift + 7) val data
  end.

Fixpoint decode_slow (shift val : Z) (data : list Z) : res (Z * list Z) :=
  match data with
  | [] => Throw end_of_buffer_exception
  | b :: data =>
      if 128 <=? b then decode_slow (shift + 7) (Z.lor val (wrap 64 (Z.shiftl (Z.land b 127) shift))) data
      else Ok (Z.lor val (wrap 64 (Z.shiftl b shift)), data)
  end.

Definition decode_varint_impl (data : list Z) : res (Z * list Z) :=
  if max_varint_length <=? zlen data then decode_fast 10 0 0 data else decode_slow 0 0 data.

Definition decode_varint (data : list Z) : res (Z * list Z) :=
  match data with
  | b :: rest => if b <? 128 then Ok (b, rest) else decode_varint_impl data
  | [] => decode_varint_impl data
  end.

Fixpoint skip_continued (data : list Z) : Z * list Z :=
  match data with
  | b :: rest => if 128 <=? b then let '(n, r) := skip_continued rest in (n + 1, r) else (0, data)
  | [] => (0, [])
  end.

Definition skip_varint (data : list Z) : res (list Z) :=
  let '(n, rest) := skip_continued data in
  if max_varint_length <=? n then Throw varint_too_long_exception
  else match rest with [] => Throw end_of_buffer_exception | _ :: rest => Ok rest end.

(** The bytes of a varint; ten rounds are enough for 64 bits. *)
Fixpoint varint_bytes (fuel : nat) (value : Z) : list Z :=
  match fuel with
  | O => [value]
  | S fuel =>
      if 128 <=? value then Z.lor (Z.land value 127) 128 :: varint_bytes fuel (Z.shiftr value 7)
      else [value]
  end.

Definition add_varint_to_buffer (buffer : list Z) (value : Z) : list Z := buffer ++ varint_bytes 10 value.

(** ** The reader *)

Record pbf_reader : Type := mkReader { m_data : list Z; m_wire_type : Z; m_tag : Z }.

Definition pbf_reader_new (data : list Z) : pbf_reader := mkReader data 99 0.

Definition with_data (r : pbf_reader) (data : list Z) : pbf_reader :=
  mkReader data (m_wire_type r) (m_tag r).

(** [get_varint<T>] before the cast to [T]. *)
Definition get_varint (r : pbf_reader) : res (Z * pbf_reader) :=
  '(v, data) ← decode_varint (m_data r); Ok (v, with_data r data).

Definition get_length (r : pbf_reader) : res (Z * pbf_reader) :=
  '(v, r) ← get_varint r; Ok (wrap 32 v, r).

Definition skip_bytes (r : pbf_reader) (len : Z) : res pbf_reader :=
  if zlen (m_data r) <? len then Throw end_of_buffer_exception
  else Ok (with_data r (drop (Z.to_nat len) (m_data r))).

(** Value of bytes in little-endian order. *)
Fixpoint le_value (bytes : list Z) : Z :=
  match bytes with [] => 0 | b :: bytes => b + 256 * le_value bytes end.

Definition get_fixed (size : Z) (r : pbf_reader) : res (Z * pbf_reader) :=
  r' ← skip_bytes r size; Ok (le_value (take (Z.to_nat size) (m_data r)), r').

Definition known_wire_type (t : Z) : bool := (t =? 0) || (t =? 1) || (t =? 2) || (t =? 5).

(** [None]: the end of the message. *)
Definition next (r : pbf_reader) : res (option pbf_reader) :=
  match m_data r with
  | [] => Ok None
  | _ =>
      '(v, r') ← get_varint r;
      let value := wrap 32 v in
      let tag := Z.shiftr value 3 in
      if (tag =? 0) || ((19000 <=? tag) && (tag <=? 19999)) then Throw invalid_tag_exception
      else
        let wire := Z.land value 7 in
        if known_wire_type wire then Ok (Some (mkReader (m_data r') wire tag))
        else Throw unknown_pbf_wire_type_exception
  end.

Definition skip (r : pbf_reader) : res pbf_reader :=
  if m_wire_type r =? 0 then data ← skip_varint (m_data r); Ok (with_data r data)
  else if m_wire_type r =? 1 then skip_bytes r 8
  else if m_wire_type r =? 2 then '(len, r) ← get_length r; skip_bytes r len
  else if m_wire_type r =? 5 then skip_bytes r 4
  else Ok r.

Definition get_uint64 (r : pbf_reader) : res (Z * pbf_reader) := get_varint r.
Definition get_int64 (r : pbf_reader) : res (Z * pbf_reader) :=
  '(v, r) ← get_varint r; Ok (swrap 64 v, r).
Definition get_double : pbf_reader -> res (Z * pbf_reader) := get_fixed 8.
Definition get_float : pbf_reader -> res (Z * pbf_reader) := get_fixed 4.

Definition get_message (r : pbf_reader) : res (pbf_reader * pbf_reader) :=
  '(len, r1) ← get_length r;
  r2 ← skip_bytes r1 len;
  Ok (pbf_reader_new (take (Z.to_nat len) (m_data r1)), r2).

(** ** The writer *)

Fixpoint le_bytes (n : nat) (v : Z) : list Z :=
  match n with O => [] | S n => v mod 256 :: le_bytes n (v / 256) end.

Definition add_field (buffer : list Z) (tag wire : Z) : list Z :=
  add_varint_to_buffer buffer (wrap 32 (Z.lor (wrap 32 (Z.shiftl tag 3)) wire)).

Definition add_uint64 (buffer : list Z) (tag v : Z) : list Z := add_varint_to_buffer (add_field buffer tag 0) v.
Definition add_int64 (buffer : list Z) (tag v : Z) : list Z :=
  add_varint_to_buffer (add_field buffer tag 0) (wrap 64 v).
Definition add_double (buffer : list Z) (tag v : Z) : list Z := add_field buffer tag 1 ++ le_bytes 8 v.
Definition add_float (buffer : list Z) (tag v : Z) : list Z := add_field buffer tag 5 ++ le_bytes 4 v.
Definition add_message (buffer : list Z) (tag : Z) (msg : list Z) : list Z :=
  add_varint_to_buffer (add_field buffer tag 2) (wrap 32 (zlen msg)) ++ msg.

(** ** Packets *)

Record TrafficPacketMsg : Type := mkPacket {
  user_id : Z;
  latitude : Z;       (** bits of a double *)
  longitude : Z;      (** bits of a double *)
  speed_kmh : Z;      (** bits of a float *)
  bearing_deg : Z;    (** bits of a float *)
  timestamp_ms : Z
}.

#[export] Instance TrafficPacketMsg_eq_dec : EqDecision TrafficPacketMsg.
Proof. solve_decision. Defined.

Definition empty_packet : TrafficPacketMsg := mkPacket 0 0 0 0 0 0.

(** One round of the loop of [parseTrafficPacket] after [next]. *)
Definition packet_field (r : pbf_reader) (out : TrafficPacketMsg) (has_coords : bool)
  : res (pbf_reader * TrafficPacketMsg * bool) :=
  let '(mkPacket u la lo s b t) := out in
  if m_tag r =? 1 then '(v, r) ← get_uint64 r; Ok (r, mkPacket v la lo s b t, has_coords)
  else if m_tag r =? 2 then '(v, r) ← get_double r; Ok (r, mkPacket u v lo s b t, true)
  else if m_tag r =? 3 then '(v, r) ← get_double r; Ok (r, mkPacket u la v s b t, true)
  else if m_tag r =? 4 then '(v, r) ← get_float r; Ok (r, mkPacket u la lo v b t, has_coords)
  else if m_tag r =? 5 then '(v, r) ← get_float r; Ok (r, mkPacket u la lo s v t, has_coords)
  else if m_tag r =? 6 then '(v, r) ← get_int64 r; Ok (r, mkPacket u la lo s b v, has_coords)
  else r ← skip r; Ok (r, out, has_coords).

Fixpoint packet_loop (fuel : nat) (r : pbf_reader) (out : TrafficPacketMsg) (has_coords : bool)
  : res (TrafficPacketMsg * bool) :=
  match fuel with
  | O => Throw fuel_exhausted
  | S fuel =>
      n ← next r;
      match n with
      | None => Ok (out, has_coords)
      | Some r => '(r, out, has_coords) ← packet_field r out has_coords; packet_loop fuel r out has_coords
      end
  end.

Definition parseTrafficPacket (r : pbf_reader) (out : TrafficPacketMsg) : res (TrafficPacketMsg * bool) :=
  packet_loop (S (length (m_data r))) r out false.

(** The batch loop: the packets handed to the consumer, in order, and the
    exception that ended the loop, if any. *)
Fixpoint batch_loop (fuel : nat) (r : pbf_reader) : list TrafficPacketMsg * option exn :=
  match fuel with
  | O => ([], Some fuel_exhausted)
  | S fuel =>
      match next r with
      | Throw e => ([], Some e)
      | Ok None => ([], None)
      | Ok (Some r) =>
          if negb (m_tag r =? 1) then
            match skip r with Throw e => ([], Some e) | Ok r => batch_loop fuel r end
          else
            match get_message r with
            | Throw e => ([], Some e)
            | Ok (pr, r) =>
                match parseTrafficPacket pr empty_packet with
                | Throw e => ([], Some e)
                | Ok (_, false) => batch_loop fuel r
                | Ok (packet, true) => let '(ps, e) := batch_loop fuel r in (packet :: ps, e)
                end
            end
      end
  end.

(** The consumer calls and the returned count. *)
Definition parseTrafficBatch (data : list Z) : list TrafficPacketMsg * Z :=
  let '(ps, e) := batch_loop (S (length data)) (pbf_reader_new data) in
  (ps, match e with None => zlen ps | Some _ => 0 end).

Definition encode_packet (p : TrafficPacketMsg) : list Z :=
  let b := add_uint64 [] 1 (user_id p) in
  let b := add_double b 2 (latitude p) in
  let b := add_double b 3 (longitude p) in
  let b := add_float b 4 (speed_kmh p) in
  let b := add_float b 5 (bearing_deg p) in
  add_int64 b 6 (timestamp_ms p).

Definition encodeTrafficBatch (packets : list TrafficPacketMsg) : list Z :=
  foldl (fun buffer p => add_message buffer 1 (encode_packet p)) [] packets.

Example encode_decode :
  let p := mkPacket 300 4636737291354636288 4613937818241073152 1092616192 0 (-5) in
  parseTrafficBatch (encodeTrafficBatch [p; p]) = ([p; p], 2).
Proof. vm_compute. reflexivity. Qed.

(** ** Varints round trip *)

Lemma lor_continuation_land b : 0 <= b < 128 -> Z.land (Z.lor b 128) 127 = b.
Proof.
  intros Hb. apply bits_inj_nonneg. intros j Hj.
  change 127 with (2 ^ 7 - 1). change 128 with (2 ^ 7).
  rewrite Z.land_spec, Z.lor_spec, testbit_ones, Z.pow2_bits_eqb by lia.
  destruct (Z.eqb_spec 7 j) as [<-|Hne].
  - rewrite (testbit_in_word 7 b 7); [done|split; lia|lia].
  - rewrite orb_false_r. destruct (Z.ltb_spec j 7); simpl; [by replace (0 <=? j) with true by lia; rewrite andb_true_r|].
    rewrite (testbit_in_word 7 b j); [done|split; lia|lia].
Qed.

Lemma lor_continuation_ge b : 0 <= b < 128 -> 128 <= Z.lor b 128 < 256.
Proof.
  intros Hb. split.
  - assert (Z.testbit (Z.lor b 128) 7 = true) as Ht by (rewrite Z.lor_spec; apply orb_true_r).
    destruct (decide (128 <= Z.lor b 128)) as [|Hn]; [done|].
    rewrite (testbit_in_word 7) in Ht; [done| |lia]. split; [apply Z.lor_nonneg; lia|lia].
  - apply (in_word_bits 8); [lia|apply Z.lor_nonneg; lia|]. intros j Hj.
    rewrite Z.lor_spec, (testbit_in_word 8 b j), (testbit_in_word 8 128 j); [done|split; lia|lia|split; lia|lia].
Qed.

(** Low seven bits and the rest of a value, put back together. *)
Lemma split_7 v s : 0 <= v -> 0 <= s ->
  Z.lor (Z.shiftl (Z.land v 127) s) (Z.shiftl (Z.shiftr v 7) (s + 7)) = Z.shiftl v s.
Proof.
  intros Hv Hs. apply bits_inj_nonneg. intros j Hj.
  rewrite Z.lor_spec, !Z.shiftl_spec by lia. change 127 with (2 ^ 7 - 1).
  rewrite Z.land_spec, testbit_ones by lia.
  destruct (decide (j < s)).
  { rewrite !(Z.testbit_neg_r _ (j - s)), (Z.testbit_neg_r _ (j - (s + 7))) by lia. done. }
  destruct (decide (j < s + 7)).
  - rewrite (Z.testbit_neg_r _ (j - (s + 7))) by lia. replace (0 <=? j - s) with true by lia.
    replace (j - s <? 7) with true by lia. by rewrite andb_true_r, orb_false_r.
  - rewrite Z.shiftr_spec by lia. replace (j - s <? 7) with false by lia.
    rewrite andb_false_r, andb_false_r. simpl. f_equal. lia.
Qed.

Lemma land_127_range v : 0 <= v -> 0 <= Z.land v 127 < 128.
Proof. intros Hv. change 127 with (Z.ones 7). rewrite Z.land_ones by lia. by apply Z.mod_pos_bound. Qed.

Lemma shiftr_7_bound v w : 0 <= v < 2 ^ w -> 7 <= w -> 0 <= Z.shiftr v 7 < 2 ^ (w - 7).
Proof.
  intros Hv Hw. rewrite Z.shiftr_div_pow2 by lia. split; [apply Z.div_pos; lia|].
  apply Z.div_lt_upper_bound; [lia|]. rewrite <- Z.pow_add_r by lia. replace (7 + (w - 7)) with w by lia. lia.
Qed.

Lemma decode_fast_bytes k fuel s acc v rest :
  (k <= fuel)%nat -> s = 7 * (10 - Z.of_nat k) -> 0 <= s -> 0 <= v < 2 ^ (64 - s) -> (1 <= k)%nat ->
  decode_fast k s acc (varint_bytes fuel v ++ rest) = Ok (Z.lor acc (Z.shiftl v s), rest).
Proof.
  revert fuel s acc v. induction k as [|k IH]; intros fuel s acc v Hf Hs H0 Hv Hk; [lia|].
  destruct fuel as [|fuel]; [lia|]. cbn [varint_bytes]. destruct (Z.leb_spec 128 v).
  - assert (1 <= k)%nat as Hk1.
    { destruct k as [|k]; [|lia]. replace (64 - s) with 1 in Hv by lia. lia. }
    pose proof (land_127_range v ltac:(lia)) as Hl. pose proof (lor_continuation_ge _ Hl).
    cbn [app decode_fast]. replace (s =? 63) with false by lia.
    rewrite lor_continuation_land by done. replace (_ <? 128) with false by lia.
    rewrite IH; [|lia|lia|lia| |lia].
    + rewrite <- Z.lor_assoc, split_7 by lia. done.
    + replace (64 - (s + 7)) with (64 - s - 7) by lia. apply shiftr_7_bound; lia.
  - cbn [app]. cbn [decode_fast].
    replace (Z.land v (if s =? 63 then 1 else 127)) with v.
    { by replace (v <? 128) with true by lia. }
    destruct (Z.eqb_spec s 63) as [->|].
    + change 1 with (Z.ones 1). rewrite Z.land_ones, Z.mod_small by lia. done.
    + change 127 with (Z.ones 7). rewrite Z.land_ones, Z.mod_small by lia. done.
Qed.

Lemma shiftl_in_word v s : 0 <= s <= 64 -> 0 <= v < 2 ^ (64 - s) -> in_word 64 (Z.shiftl v s).
Proof.
  intros Hs Hv. rewrite Z.shiftl_mul_pow2 by lia. pose proof (Z.pow_pos_nonneg 2 s).
  assert (2 ^ 64 = 2 ^ (64 - s) * 2 ^ s) as E by (rewrite <- Z.pow_add_r by lia; f_equal; lia).
  split; [nia|]. rewrite E. nia.
Qed.

Lemma decode_slow_bytes fuel s acc v rest :
  0 <= s <= 63 -> 64 - s <= 7 * Z.of_nat fuel -> 0 <= v < 2 ^ (64 - s) ->
  decode_slow s acc (varint_bytes fuel v ++ rest) = Ok (Z.lor acc (Z.shiftl v s), rest).
Proof.
  revert s acc v. induction fuel as [|fuel IH]; intros s acc v Hs Hf Hv; [lia|].
  cbn [varint_bytes]. destruct (Z.leb_spec 128 v).
  - pose proof (land_127_range v ltac:(lia)) as Hl. pose proof (lor_continuation_ge _ Hl).
    cbn [app decode_slow]. replace (128 <=? _) with true by lia. rewrite lor_continuation_land by done.
    assert (7 < 64 - s) as Hs7.
    { destruct (decide (7 < 64 - s)) as [|Hn]; [done|]. pose proof (Z.pow_le_mono_r 2 (64 - s) 7). lia. }
    assert (Z.land v 127 < 2 ^ (64 - s)).
    { pose proof (Z.pow_le_mono_r 2 7 (64 - s)). change (2 ^ 7) with 128 in *. lia. }
    rewrite (wrap_small 64) by (apply shiftl_in_word; lia).
    rewrite IH; [|lia|lia|].
    + rewrite <- Z.lor_assoc, split_7 by lia. done.
    + replace (64 - (s + 7)) with (64 - s - 7) by lia. apply shiftr_7_bound; lia.
  - cbn [app decode_slow]. replace (128 <=? v) with false by lia.
    by rewrite (wrap_small 64) by (apply shiftl_in_word; lia).
Qed.

Lemma decode_varint_bytes v rest :
  in_word 64 v -> decode_varint (varint_bytes 10 v ++ rest) = Ok (v, rest).
Proof.
  intros Hv. unfold decode_varint.
  assert (decode_varint_impl (varint_bytes 10 v ++ rest) = Ok (v, rest)) as H.
  { unfold decode_varint_impl. destruct (_ <=? _).
    - rewrite decode_fast_bytes; [by rewrite Z.shiftl_0_r|lia|lia|lia|exact Hv|lia].
    - rewrite decode_slow_bytes; [by rewrite Z.shiftl_0_r|lia|lia|exact Hv]. }
  cbn [varint_bytes] in *. destruct (Z.leb_spec 128 v).
  - cbn [app] in *. pose proof (land_127_range v ltac:(lia)) as Hl. pose proof (lor_continuation_ge _ Hl).
    by replace (Z.lor _ _ <? 128) with false by lia.
  - cbn [app]. by replace (v <? 128) with true by lia.
Qed.

Lemma le_value_bytes n v : 0 <= v < 256 ^ Z.of_nat n -> le_value (le_bytes n v) = v.
Proof.
  revert v. induction n as [|n IH]; intros v Hv; simpl; [simpl in Hv; lia|].
  rewrite Nat2Z.inj_succ, Z.pow_succ_r in Hv by lia. rewrite IH.
  - pose proof (Z.div_mod v 256). lia.
  - split; [apply Z.div_pos; lia|]. apply Z.div_lt_upper_bound; lia.
Qed.

Lemma le_bytes_len n v : length (le_bytes n v) = n.
Proof. revert v. induction n; intros v; simpl; [done|]. by rewrite IHn. Qed.

(** ** Packets round trip *)

(** Values that fit the types of the fields. *)
Definition packet_ok (p : TrafficPacketMsg) : Prop :=
  in_word 64 (user_id p) /\ in_word 64 (latitude p) /\ in_word 64 (longitude p) /\
  in_word 32 (speed_kmh p) /\ in_word 32 (bearing_deg p) /\ - 2 ^ 63 <= timestamp_ms p < 2 ^ 63.

Lemma encode_packet_bytes p :
  encode_packet p =
    [8] ++ varint_bytes 10 (user_id p) ++ [17] ++ le_bytes 8 (latitude p) ++ [25] ++ le_bytes 8 (longitude p)
    ++ [37] ++ le_bytes 4 (speed_kmh p) ++ [45] ++ le_bytes 4 (bearing_deg p)
    ++ [48] ++ varint_bytes 10 (wrap 64 (timestamp_ms p)).
Proof.
  unfold encode_packet, add_int64, add_float, add_double, add_uint64, add_field, add_varint_to_buffer.
  rewrite <- !app_assoc. reflexivity.
Qed.

Lemma next_small b data w t :
  0 <= b < 128 -> 1 <= b / 8 -> known_wire_type (Z.land b 7) = true ->
  next (mkReader (b :: data) w t) = Ok (Some (mkReader data (Z.land b 7) (b / 8))).
Proof.
  intros Hb Ht Hw. unfold next, get_varint. cbn [m_data decode_varint].
  replace (b <? 128) with true by lia. cbn [mbind res_bind]. rewrite wrap_small by (split; lia).
  rewrite Z.shiftr_div_pow2 by lia. change (2 ^ 3) with 8.
  assert (b / 8 < 16) by (apply Z.div_lt_upper_bound; lia).
  replace ((b / 8 =? 0) || _) with false by lia. by rewrite Hw.
Qed.

Lemma get_varint_bytes v rest w t :
  in_word 64 v -> get_varint (mkReader (varint_bytes 10 v ++ rest) w t) = Ok (v, mkReader rest w t).
Proof. intros Hv. unfold get_varint. cbn [m_data]. by rewrite decode_varint_bytes. Qed.

Lemma skip_bytes_app xs rest w t n :
  zlen xs = n -> skip_bytes (mkReader (xs ++ rest) w t) n = Ok (mkReader rest w t).
Proof.
  intros <-. unfold skip_bytes. cbn [m_data]. rewrite zlen_app. pose proof (zlen_nonneg rest).
  replace (_ <? _) with false by lia. unfold with_data, zlen. cbn. by rewrite Nat2Z.id, drop_app_length.
Qed.

Lemma get_fixed_bytes (n : nat) v rest w t :
  0 <= v < 256 ^ Z.of_nat n ->
  get_fixed (Z.of_nat n) (mkReader (le_bytes n v ++ rest) w t) = Ok (v, mkReader rest w t).
Proof.
  intros Hv. unfold get_fixed. rewrite skip_bytes_app by (unfold zlen; by rewrite le_bytes_len).
  cbn [mbind res_bind m_data]. rewrite Nat2Z.id.
  rewrite take_app_length' by (symmetry; apply le_bytes_len). by rewrite le_value_bytes.
Qed.

Lemma swrap_wrap z : - 2 ^ 63 <= z < 2 ^ 63 -> swrap 64 (wrap 64 z) = z.
Proof.
  intros Hz. unfold swrap, wrap. rewrite Zplus_mod_idemp_l. fold (swrap 64 z). by apply swrap_small.
Qed.

Lemma varint_bytes_nonempty fuel v : (1 <= length (varint_bytes fuel v))%nat.
Proof. destruct fuel; simpl; [lia|]. destruct (_ <=? _); simpl; lia. Qed.

Lemma varint_bytes_len v : (length (varint_bytes 10 v) <= 11)%nat.
Proof.
  assert (forall n v, (length (varint_bytes n v) <= n + 1)%nat) as H.
  { clear. induction n as [|n IH]; intros v; simpl; [lia|]. destruct (_ <=? _); simpl; [|lia].
    specialize (IH (Z.shiftr v 7)). lia. }
  apply (H 10%nat).
Qed.

(** One round of the packet loop for a one-byte tag. *)
Lemma packet_step n b tag wire data w t out h :
  0 <= b < 128 -> b / 8 = tag -> Z.land b 7 = wire -> 1 <= tag -> known_wire_type wire = true ->
  packet_loop (S n) (mkReader (b :: data) w t) out h =
    ('(r, out, h) ← packet_field (mkReader data wire tag) out h; packet_loop n r out h).
Proof. intros Hb <- <- Ht Hw. cbn [packet_loop]. by rewrite next_small. Qed.

Lemma packet_loop_encoded n p w t :
  packet_ok p -> packet_loop (7 + n) (mkReader (encode_packet p) w t) empty_packet false = Ok (p, true).
Proof.
  intros (Hu & Hla & Hlo & Hs & Hb & Ht). rewrite encode_packet_bytes.
  assert (in_word 64 (wrap 64 (timestamp_ms p))) as Hts by (apply wrap_in_word; lia).
  change (7 + n)%nat with (S (S (S (S (S (S (S n))))))). unfold empty_packet.
  cbn [app].
  rewrite (packet_step _ 8 1 0) by (lia || reflexivity). unfold packet_field. cbn [m_tag Z.eqb Pos.eqb]. unfold get_uint64.
  rewrite get_varint_bytes by done. cbn [mbind res_bind].
  rewrite (packet_step _ 17 2 1) by (lia || reflexivity). unfold packet_field. cbn [m_tag Z.eqb Pos.eqb]. unfold get_double.
  rewrite (get_fixed_bytes 8) by exact Hla. cbn [mbind res_bind].
  rewrite (packet_step _ 25 3 1) by (lia || reflexivity). unfold packet_field. cbn [m_tag Z.eqb Pos.eqb]. unfold get_double.
  rewrite (get_fixed_bytes 8) by exact Hlo. cbn [mbind res_bind].
  rewrite (packet_step _ 37 4 5) by (lia || reflexivity). unfold packet_field. cbn [m_tag Z.eqb Pos.eqb]. unfold get_float.
  rewrite (get_fixed_bytes 4) by exact Hs. cbn [mbind res_bind].
  rewrite (packet_step _ 45 5 5) by (lia || reflexivity). unfold packet_field. cbn [m_tag Z.eqb Pos.eqb]. unfold get_float.
  rewrite (get_fixed_bytes 4) by exact Hb. cbn [mbind res_bind].
  rewrite (packet_step _ 48 6 0) by (lia || reflexivity). unfold packet_field. cbn [m_tag Z.eqb Pos.eqb]. unfold get_int64.
  rewrite <- (app_nil_r (varint_bytes 10 (wrap 64 _))), get_varint_bytes by done. cbn [mbind res_bind].
  rewrite swrap_wrap by done. cbn [packet_loop next m_data mbind res_bind]. by destruct p.
Qed.

Lemma encode_packet_len p : 32 <= zlen (encode_packet p) <= 56.
Proof.
  rewrite encode_packet_bytes. unfold zlen. rewrite !length_app, !le_bytes_len. simpl length at 1 3 4 5 6 7.
  pose proof (varint_bytes_nonempty 10 (user_id p)). pose proof (varint_bytes_len (user_id p)).
  pose proof (varint_bytes_nonempty 10 (wrap 64 (timestamp_ms p))). pose proof (varint_bytes_len (wrap 64 (timestamp_ms p))).
  cbn [length]. lia.
Qed.

Lemma parse_encoded_packet p : packet_ok p -> parseTrafficPacket (pbf_reader_new (encode_packet p)) empty_packet = Ok (p, true).
Proof.
  intros Hp. unfold parseTrafficPacket, pbf_reader_new. cbn [m_data].
  pose proof (encode_packet_len p) as [Hl _]. unfold zlen in Hl.
  replace (S (length (encode_packet p))) with (7 + (length (encode_packet p) - 6))%nat by lia.
  by apply packet_loop_encoded.
Qed.

(** The bytes of one packet inside a batch. *)
Definition packet_message (p : TrafficPacketMsg) : list Z :=
  10 :: varint_bytes 10 (zlen (encode_packet p)) ++ encode_packet p.

Lemma encodeTrafficBatch_bytes ps : encodeTrafficBatch ps = concat (packet_message <$> ps).
Proof.
  assert (forall b, foldl (fun buffer p => add_message buffer 1 (encode_packet p)) b ps = b ++ concat (packet_message <$> ps)) as H.
  { induction ps as [|p ps IH]; intros b; cbn [foldl fmap list_fmap concat]; [by rewrite app_nil_r|]. rewrite IH.
    unfold add_message, add_field, add_varint_to_buffer, packet_message. rewrite <- !app_assoc.
    pose proof (encode_packet_len p). rewrite (wrap_small 32 (zlen _)) by (split; lia).
    change (varint_bytes 10 (wrap 32 (Z.lor (wrap 32 (Z.shiftl 1 3)) 2))) with [10].
    cbn [app]. by rewrite <- app_assoc. }
  apply H.
Qed.

Lemma batch_loop_encoded fuel ps w t :
  (length (encodeTrafficBatch ps) < fuel)%nat -> Forall packet_ok ps ->
  batch_loop fuel (mkReader (encodeTrafficBatch ps) w t) = (ps, None).
Proof.
  rewrite encodeTrafficBatch_bytes. intros Hf Hps. revert fuel w t Hf.
  induction Hps as [|p ps Hp Hps IH]; intros fuel w t Hf; (destruct fuel as [|fuel]; [lia|]); [done|].
  cbn [fmap list_fmap concat] in *. unfold packet_message at 1 in Hf. cbn [app length] in Hf.
  cbn [batch_loop]. unfold packet_message at 1. rewrite <- app_comm_cons, next_small by (lia || reflexivity).
  change (10 / 8) with 1. cbn [m_tag Z.eqb Pos.eqb negb]. unfold get_message, get_length.
  pose proof (encode_packet_len p). rewrite <- app_assoc, get_varint_bytes by (split; lia).
  cbn [mbind res_bind]. rewrite (wrap_small 32) by (split; lia). rewrite skip_bytes_app by done.
  cbn [mbind res_bind m_data]. unfold zlen. rewrite Nat2Z.id, take_app_length, parse_encoded_packet by done.
  rewrite IH; [done|]. rewrite !length_app in Hf. lia.
Qed.

Lemma parse_encoded_batch ps :
  Forall packet_ok ps -> parseTrafficBatch (encodeTrafficBatch ps) = (ps, zlen ps).
Proof.
  intros Hps. unfold parseTrafficBatch, pbf_reader_new. by rewrite batch_loop_encoded by (lia || done).
Qed.

(** C22: a batch of packets encoded with encodeTrafficBatch is decoded by
    parseTrafficBatch into the same packets in the same order, and the
    returned count is their number. *)
Theorem batch_roundtrip ps :
  Forall packet_ok ps -> parseTrafficBatch (encodeTrafficBatch ps) = (ps, zlen ps).
Proof. apply parse_encoded_batch. Qed.

(** ** Arbitrary input *)

Definition is_byte (b : Z) : Prop := 0 <= b < 256.
Definition bytes (data : list Z) : Prop := Forall is_byte data.

(** Partial correctness of a computation that never runs out of fuel. *)
Definition post {A} (m : res A) (Q : A -> Prop) : Prop :=
  match m with Ok a => Q a | Throw e => e <> fuel_exhausted end.

Lemma post_bind {A B} (m : res A) (f : A -> res B) Q R :
  post m Q -> (forall a, Q a -> post (f a) R) -> post (m ≫= f) R.
Proof. destruct m as [a|e]; cbn; auto. Qed.

Lemma post_mono {A} (m : res A) (Q R : A -> Prop) : post m Q -> (forall a, Q a -> R a) -> post m R.
Proof. destruct m as [a|e]; cbn; auto. Qed.

(** [rest] is left of [data] after at least [n] bytes. *)
Definition left_of (n : nat) (data rest : list Z) : Prop := bytes rest /\ (length rest + n <= length data)%nat.

Lemma left_of_trans m n a b c : left_of m a b -> left_of n b c -> left_of (m + n) a c.
Proof. unfold left_of. intros [_ ?] [? ?]. split; [done|lia]. Qed.

Lemma left_of_le m n a b : left_of m a b -> (n <= m)%nat -> left_of n a b.
Proof. unfold left_of. intros [? ?] ?. split; [done|lia]. Qed.

Lemma lor_in_word w x y : 0 <= w -> in_word w x -> in_word w y -> in_word w (Z.lor x y).
Proof.
  intros Hw Hx Hy. apply in_word_bits; [done|apply Z.lor_nonneg; unfold in_word in *; lia|].
  intros j Hj. by rewrite Z.lor_spec, !(testbit_in_word w) by done.
Qed.

Lemma decode_fast_post k s val data :
  bytes data -> s = 7 * (10 - Z.of_nat k) -> 0 <= s -> in_word 64 val ->
  post (decode_fast k s val data) (fun '(v, rest) => in_word 64 v /\ left_of 1 data rest).
Proof.
  intros Hb. revert s val data Hb. induction k as [|k IH]; intros s val data Hb Hs H0 Hv; [done|].
  destruct data as [|b data]; [done|]. apply Forall_cons in Hb as [Hb0 Hb]. cbn [decode_fast].
  assert (in_word 64 (Z.lor val (Z.shiftl (Z.land b (if s =? 63 then 1 else 127)) s))) as Hw.
  { apply lor_in_word; [lia|done|]. unfold is_byte in Hb0. apply shiftl_in_word; [lia|].
    destruct (Z.eqb_spec s 63) as [->|].
    - change 1 with (Z.ones 1). rewrite Z.land_ones by lia. apply Z.mod_pos_bound. lia.
    - pose proof (land_127_range b ltac:(lia)). pose proof (Z.pow_le_mono_r 2 7 (64 - s)).
      change (2 ^ 7) with 128 in *. lia. }
  destruct (b <? 128).
  - cbn. split; [done|]. split; [done|]. simpl. lia.
  - eapply post_mono; [apply IH; [done|lia|lia|done]|]. intros [v rest] [Hv' [Hr Hl]].
    split; [done|]. split; [done|]. simpl in *. lia.
Qed.

Lemma decode_slow_post s val data :
  bytes data -> in_word 64 val ->
  post (decode_slow s val data) (fun '(v, rest) => in_word 64 v /\ left_of 1 data rest).
Proof.
  intros Hb. revert s val. induction Hb as [|b data Hb0 Hb IH]; intros s val Hv; [done|]. cbn [decode_slow].
  assert (forall x, in_word 64 (Z.lor val (wrap 64 x))) as Hw by (intros; apply lor_in_word; [lia|done|apply wrap_in_word; lia]).
  destruct (128 <=? b).
  - eapply post_mono; [apply IH; apply Hw|]. intros [v rest] [Hv' [Hr Hl]]. split; [done|]. split; [done|]. simpl. lia.
  - cbn. split; [apply Hw|]. split; [done|]. simpl. lia.
Qed.

Lemma decode_varint_post data :
  bytes data -> post (decode_varint data) (fun '(v, rest) => in_word 64 v /\ left_of 1 data rest).
Proof.
  intros Hb.
  assert (post (decode_varint_impl data) (fun '(v, rest) => in_word 64 v /\ left_of 1 data rest)) as H.
  { unfold decode_varint_impl. destruct (_ <=? _);
      [apply (decode_fast_post 10)|apply decode_slow_post]; try done; lia. }
  destruct data as [|b data]; cbn [decode_varint]; [done|]. destruct (Z.ltb_spec b 128); [|done].
  apply Forall_cons in Hb as [Hb0 Hb]. unfold is_byte in Hb0. cbn. split; [split; lia|]. split; [done|]. simpl. lia.
Qed.

Lemma get_varint_post r :
  bytes (m_data r) -> post (get_varint r) (fun '(v, r') => in_word 64 v /\ left_of 1 (m_data r) (m_data r')).
Proof.
  intros Hb. unfold get_varint. eapply post_bind; [by apply decode_varint_post|]. by intros [v rest].
Qed.

Lemma get_length_post r :
  bytes (m_data r) -> post (get_length r) (fun '(v, r') => in_word 32 v /\ left_of 1 (m_data r) (m_data r')).
Proof.
  intros Hb. unfold get_length. eapply post_bind; [by apply get_varint_post|]. intros [v r'] [_ Hr].
  cbn. split; [apply wrap_in_word; lia|done].
Qed.

Lemma skip_bytes_post r len :
  bytes (m_data r) -> 0 <= len -> post (skip_bytes r len) (fun r' => left_of (Z.to_nat len) (m_data r) (m_data r')).
Proof.
  intros Hb Hl. unfold skip_bytes. destruct (Z.ltb_spec (zlen (m_data r)) len); [done|]. cbn.
  unfold zlen in *. split; [by apply Forall_drop|]. rewrite length_drop. lia.
Qed.

Lemma skip_continued_left data : bytes data -> left_of 0 data (skip_continued data).2.
Proof.
  induction 1 as [|b data Hb0 Hb IH]; [by split; [constructor|]|]. cbn [skip_continued]. destruct (128 <=? b).
  - destruct (skip_continued data) as [n r]. cbn in *. destruct IH. split; [done|]. simpl. lia.
  - cbn. split; [by constructor|]. lia.
Qed.

Lemma skip_varint_post data : bytes data -> post (skip_varint data) (fun rest => left_of 1 data rest).
Proof.
  intros Hb. unfold skip_varint. pose proof (skip_continued_left data Hb) as Hl.
  destruct (skip_continued data) as [n rest]. cbn in Hl. destruct (_ <=? _); [done|].
  destruct rest as [|x rest]; [done|]. destruct Hl as [Hr Hl]. apply Forall_cons in Hr as [_ Hr].
  cbn. split; [done|]. simpl in Hl. lia.
Qed.

Lemma skip_post r : bytes (m_data r) -> post (skip r) (fun r' => left_of 0 (m_data r) (m_data r')).
Proof.
  intros Hb. unfold skip. repeat (destruct (_ =? _)).
  - eapply post_bind; [by apply skip_varint_post|]. intros d Hd. eapply left_of_le; [exact Hd|lia].
  - eapply post_mono; [apply skip_bytes_post; [done|lia]|]. intros d Hd. eapply left_of_le; [exact Hd|lia].
  - eapply post_bind; [by apply get_length_post|]. intros [len r'] [Hlen Hr].
    eapply post_mono; [apply skip_bytes_post; [apply Hr|apply Hlen]|]. intros d Hd.
    eapply left_of_le; [eapply left_of_trans; [exact Hr|exact Hd]|lia].
  - eapply post_mono; [apply skip_bytes_post; [done|lia]|]. intros d Hd. eapply left_of_le; [exact Hd|lia].
  - cbn. split; [done|lia].
Qed.

Lemma le_value_range l : bytes l -> 0 <= le_value l < 256 ^ zlen l.
Proof.
  induction 1 as [|b l Hb0 Hb IH]; [done|]. rewrite zlen_cons, Z.add_1_l, Z.pow_succ_r by apply zlen_nonneg.
  cbn [le_value]. unfold is_byte in Hb0. lia.
Qed.

Lemma get_fixed_post size r :
  bytes (m_data r) -> 0 < size ->
  post (get_fixed size r) (fun '(v, r') => 0 <= v < 256 ^ size /\ left_of 1 (m_data r) (m_data r')).
Proof.
  intros Hb Hs. unfold get_fixed, skip_bytes. destruct (Z.ltb_spec (zlen (m_data r)) size); [done|]. cbn.
  assert (zlen (take (Z.to_nat size) (m_data r)) = size) as Hl.
  { unfold zlen in *. rewrite length_take. lia. }
  pose proof (le_value_range (take (Z.to_nat size) (m_data r)) ltac:(by apply Forall_take)) as Hv.
  rewrite Hl in Hv. split; [done|].
  split; [by apply Forall_drop|]. rewrite length_drop. unfold zlen in *. lia.
Qed.

Lemma next_post r :
  bytes (m_data r) -> post (next r) (fun n => forall r', n = Some r' -> left_of 1 (m_data r) (m_data r')).
Proof.
  intros Hb. unfold next. destruct (m_data r) eqn:E; [done|]. rewrite <- E in *.
  eapply post_bind; [by apply get_varint_post|]. intros [v r'] [_ Hr]. destruct (_ || _); [done|].
  destruct (known_wire_type _); [|done]. cbn. by intros ? [= <-].
Qed.

Lemma packet_field_post r out h :
  bytes (m_data r) -> packet_ok out ->
  post (packet_field r out h) (fun '(r', out', _) => left_of 0 (m_data r) (m_data r') /\ packet_ok out').
Proof.
  intros Hb Hp. destruct out as [u la lo s b t]. unfold packet_field.
  assert (forall (m : res (Z * pbf_reader)) (P : Z -> Prop) (f : Z -> TrafficPacketMsg * bool),
    post m (fun '(v, r') => P v /\ left_of 1 (m_data r) (m_data r')) ->
    (forall v, P v -> packet_ok (f v).1) ->
    post ('(v, r') ← m; Ok (r', (f v).1, (f v).2)) (fun '(r', out', _) => left_of 0 (m_data r) (m_data r') /\ packet_ok out')) as Hstep.
  { intros m P f Hm Hf. eapply post_bind; [exact Hm|]. intros [v r'] [HP Hl]. cbn.
    split; [eapply left_of_le; [exact Hl|lia]|by apply Hf]. }
  unfold packet_ok in Hp. cbn in Hp. destruct Hp as (H1 & H2 & H3 & H4 & H5 & H6).
  destruct (m_tag r =? 1); [|destruct (m_tag r =? 2); [|destruct (m_tag r =? 3);
    [|destruct (m_tag r =? 4); [|destruct (m_tag r =? 5); [|destruct (m_tag r =? 6)]]]]].
  - apply (Hstep _ (in_word 64) (fun v => (mkPacket v la lo s b t, h))); [by apply get_varint_post|done].
  - apply (Hstep _ (in_word 64) (fun v => (mkPacket u v lo s b t, true))); [|done].
    apply (get_fixed_post 8); [done|lia].
  - apply (Hstep _ (in_word 64) (fun v => (mkPacket u la v s b t, true))); [|done].
    apply (get_fixed_post 8); [done|lia].
  - apply (Hstep _ (in_word 32) (fun v => (mkPacket u la lo v b t, h))); [|done].
    apply (get_fixed_post 4); [done|lia].
  - apply (Hstep _ (in_word 32) (fun v => (mkPacket u la lo s v t, h))); [|done].
    apply (get_fixed_post 4); [done|lia].
  - apply (Hstep _ (fun v => - 2 ^ 63 <= v < 2 ^ 63) (fun v => (mkPacket u la lo s b v, h))); [|done].
    unfold get_int64. eapply post_bind; [by apply get_varint_post|]. intros [v r'] [_ Hl]. cbn. split; [|done].
    unfold swrap. pose proof (Z.mod_pos_bound (v + 2 ^ (64 - 1)) (2 ^ 64)). lia.
  - eapply post_bind; [by apply skip_post|]. intros r' Hl. cbn. done.
Qed.

Lemma packet_loop_post fuel r out h :
  bytes (m_data r) -> packet_ok out -> (length (m_data r) < fuel)%nat ->
  post (packet_loop fuel r out h) (fun '(out', _) => packet_ok out').
Proof.
  revert r out h. induction fuel as [|fuel IH]; intros r out h Hb Hp Hf; [lia|]. cbn [packet_loop].
  eapply post_bind; [by apply next_post|]. intros [r1|] Hn; [|done]. destruct (Hn r1 eq_refl) as [Hb1 Hl1].
  eapply post_bind; [by apply packet_field_post|]. intros [[r2 out2] h2] [[Hb2 Hl2] Hp2]. apply IH; [done|done|lia].
Qed.

Lemma get_message_post r :
  bytes (m_data r) ->
  post (get_message r) (fun '(sub, r') => bytes (m_data sub) /\ left_of 0 (m_data r) (m_data r')).
Proof.
  intros Hb. unfold get_message. eapply post_bind; [by apply get_length_post|]. intros [len r1] [Hlen Hr].
  eapply post_bind; [apply skip_bytes_post; [apply Hr|apply Hlen]|]. intros r2 Hr2. cbn.
  split; [by apply Forall_take, Hr|]. eapply left_of_le; [eapply left_of_trans; [exact Hr|exact Hr2]|lia].
Qed.

Lemma batch_loop_post fuel r :
  bytes (m_data r) -> (length (m_data r) < fuel)%nat ->
  (batch_loop fuel r).2 <> Some fuel_exhausted /\ Forall packet_ok (batch_loop fuel r).1 /\
  (length (batch_loop fuel r).1 <= length (m_data r))%nat.
Proof.
  assert (packet_ok empty_packet) as Hempty by (repeat split; cbn; lia).
  revert r. induction fuel as [|fuel IH]; intros r Hb Hf; [lia|]. cbn [batch_loop].
  pose proof (next_post r Hb) as Hn. destruct (next r) as [[r1|]|e]; cbn in Hn.
  2:{ cbn. split; [done|]. split; [done|]. lia. }
  2:{ cbn. split; [congruence|]. split; [done|]. lia. }
  destruct (Hn r1 eq_refl) as [Hb1 Hl1]. destruct (negb _).
  { pose proof (skip_post r1 Hb1) as Hs. destruct (skip r1) as [r2|e]; cbn in Hs.
    - destruct Hs as [Hb2 Hl2]. destruct (IH r2 Hb2 ltac:(lia)) as (? & ? & ?). split; [done|]. split; [done|]. lia.
    - cbn. split; [congruence|]. split; [done|]. lia. }
  pose proof (get_message_post r1 Hb1) as Hg. destruct (get_message r1) as [[sub r2]|e]; cbn in Hg.
  2:{ cbn. split; [congruence|]. split; [done|]. lia. }
  destruct Hg as [Hsub [Hb2 Hl2]]. destruct (IH r2 Hb2 ltac:(lia)) as (H1 & H2 & H3).
  pose proof (packet_loop_post (S (length (m_data sub))) sub empty_packet false Hsub Hempty ltac:(lia)) as Hp.
  unfold parseTrafficPacket. destruct (packet_loop _ sub empty_packet false) as [[p [|]]|e]; cbn in Hp.
  - destruct (batch_loop fuel r2) as [ps e]. cbn in *. split; [done|]. split; [by constructor|]. lia.
  - split; [done|]. split; [done|]. lia.
  - cbn. split; [congruence|]. split; [done|]. lia.
Qed.

(** C23: parseTrafficBatch terminates on every datagram, well-formed or not:
    the loops never exhaust their fuel, every packet handed to the consumer
    has fields in the range of their types, there are at most as many packets
    as bytes, and the result is the number of packets handed over, or 0 when
    an exception ended the loop. *)
Theorem parse_total data :
  bytes data ->
  exists ps e, batch_loop (S (length data)) (pbf_reader_new data) = (ps, e) /\ e <> Some fuel_exhausted /\
    parseTrafficBatch data = (ps, match e with None => zlen ps | Some _ => 0 end) /\
    Forall packet_ok ps /\ zlen ps <= zlen data.
Proof.
  intros Hb. destruct (batch_loop_post (S (length data)) (pbf_reader_new data)) as (He & Hps & Hl); [done|cbn; lia|].
  unfold parseTrafficBatch. destruct (batch_loop _ _) as [ps e]. exists ps, e.
  split; [done|]. split; [done|]. split; [done|]. split; [done|]. cbn in Hl. unfold zlen. lia.
Qed.

(** ** Witnesses *)

Definition example_packet : TrafficPacketMsg :=
  mkPacket 300 4636737291354636288 4613937818241073152 1092616192 0 (-5).

Lemma batch_roundtrip_witness :
  parseTrafficBatch (encodeTrafficBatch [example_packet; example_packet]) = ([example_packet; example_packet], 2).
Proof.
  apply (batch_roundtrip [example_packet; example_packet]).
  repeat constructor; cbn; lia.
Defined.

Lemma parse_total_witness :
  exists ps e, batch_loop 4 (pbf_reader_new [10; 200; 1]) = (ps, e) /\ e <> Some fuel_exhausted.
Proof.
  destruct (parse_total [10; 200; 1]) as (ps & e & H & He & _); [repeat constructor; lia|].
  exists ps, e. split; [exact H|exact He].
Defined.

(** Packets decoded before a malformed part of the datagram have been
    handed to the consumer, but the returned count is 0: the receiver counts
    such a datagram as dropped although its samples were stored. *)
Theorem parse_error_after_delivery :
  exists data, bytes data /\ parseTrafficBatch data = ([example_packet], 0).
Proof.
  exists (encodeTrafficBatch [example_packet] ++ [0]). split; [|by vm_compute].
  apply (bool_decide_unpack _). by vm_compute.
Qed.
