(* ===== verification/LiveTraffic.v ===== *)
(** * Live traffic

    Model of the real-time traffic path: include/engine/live_data_store.hpp,
    traffic_updater.hpp, traffic_aggregator.hpp and api/traffic_api.hpp.
    Datagrams are decoded and validated into pending samples; the samples are
    snapped to road geometries and averaged per geometry, one sample per
    user; the averages scale segment weights and fill the traffic response.

    Doubles and floats are [spec_float]s (a float converts to double
    exactly), clocks and the data facade are parameters, and [None] is
    undefined behaviour: signed overflow, or the conversion of a double that
    does not fit the integer type.  The store is guarded by one mutex and
    every operation on it is one step. *)
From Stdlib Require Import SpecFloat.
From S2P Require Import Prelude TrafficProtobuf.

(** ** Floating point *)

Definition double : Type := spec_float.

(** The value of the bits of an IEEE number with [mw] mantissa and [ew] exponent bits. *)
Definition float_of_bits (mw ew : Z) (b : Z) : spec_float :=
  let sign := Z.testbit b (mw + ew) in
  let e := field b mw ew in
  let m := field b 0 mw in
  let emin := 3 - 2 ^ (ew - 1) - (mw + 1) in
  if e =? 0 then match m with Zpos p => S754_finite sign p emin | _ => S754_zero sign end
  else if e =? 2 ^ ew - 1 then if m =? 0 then S754_infinity sign else S754_nan
  else match m + 2 ^ mw with Zpos p => S754_finite sign p (e - 1 + emin) | _ => S754_nan end.

Definition double_of_bits : Z -> double := float_of_bits 52 11.

(** A float converts to double exactly; comparisons need the normal form. *)
Definition widen (x : spec_float) : double :=
  match x with
  | S754_finite s m e => binary_normalize 53 1024 (if s then Zneg m else Zpos m) e s
  | _ => x
  end.
Definition single_of_bits (b : Z) : double := widen (float_of_bits 23 8 b).

Definition dadd (x y : double) : double := SFadd 53 1024 x y.
Definition dmul (x y : double) : double := SFmul 53 1024 x y.
Definition ddiv (x y : double) : double := SFdiv 53 1024 x y.
Definition double_of_Z (z : Z) : double := binary_normalize 53 1024 z 0 false.

(** [std::round] and conversion to an integer; [None] for infinities and NaN. *)
Definition round_magnitude (m : positive) (e : Z) : Z :=
  if 0 <=? e then Z.shiftl (Zpos m) e
  else Z.shiftr (Zpos m + Z.shiftl 1 (- e - 1)) (- e).

Definition round_to_Z (x : double) : option Z :=
  match x with
  | S754_zero _ => Some 0
  | S754_finite s m e => Some (if s then - round_magnitude m e else round_magnitude m e)
  | _ => None
  end.

Definition checked (lo hi z : Z) : option Z := if (lo <=? z) && (z <=? hi) then Some z else None.
Definition checked_int64 : Z -> option Z := checked (- 2 ^ 63) (2 ^ 63 - 1).
Definition checked_int32 : Z -> option Z := checked (- 2 ^ 31) (2 ^ 31 - 1).
Definition checked_uint32 : Z -> option Z := checked 0 (2 ^ 32 - 1).

(** [static_cast<std::int32_t>(std::round(x * COORDINATE_PRECISION))] *)
Definition COORDINATE_PRECISION : double := double_of_Z 1000000.
Definition toFixed (x : double) : option Z := z ← round_to_Z (dmul x COORDINATE_PRECISION); checked_int32 z.

Example single_ten : single_of_bits 1092616192 = double_of_Z 10.
Proof. vm_compute. reflexivity. Qed.
Example double_fifty : double_of_bits 4632233691727265792 = double_of_Z 50.
Proof. vm_compute. reflexivity. Qed.
Example round_half : round_to_Z (ddiv (double_of_Z 5) (double_of_Z 2)) = Some 3.
Proof. vm_compute. reflexivity. Qed.

(** ** The store *)

Record TrafficSample : Type := mkSample {
  s_user_id : Z;
  s_latitude : double;
  s_longitude : double;
  s_speed_kmh : double;
  s_bearing_deg : double;
  s_timestamp_ms : Z
}.

Record TrafficEdgeData : Type := mkEdgeData {
  e_speed_kmh : double;
  e_weight_factor : double;
  e_bearing_deg : double;
  e_latitude : double;
  e_longitude : double;
  e_timestamp_ms : Z;
  e_sample_count : Z;
  e_source : string
}.

Record LiveDataStore : Type := mkStore {
  segments : gmap Z TrafficEdgeData;
  pending_samples : list TrafficSample;
  stale_seconds : Z
}.

Definition empty_store : LiveDataStore := mkStore ∅ [] 120.

Definition addSample (st : LiveDataStore) (s : TrafficSample) : LiveDataStore :=
  mkStore (segments st) (pending_samples st ++ [s]) (stale_seconds st).

Definition takePendingSamples (st : LiveDataStore) : list TrafficSample * LiveDataStore :=
  (pending_samples st, mkStore (segments st) [] (stale_seconds st)).

Definition update (st : LiveDataStore) (geometry_id : Z) (data : TrafficEdgeData) : LiveDataStore :=
  mkStore (<[geometry_id := data]> (segments st)) (pending_samples st) (stale_seconds st).

Definition get (st : LiveDataStore) (geometry_id : Z) : option TrafficEdgeData := segments st !! geometry_id.

Definition getAllSegments (st : LiveDataStore) : list (Z * TrafficEdgeData) := map_to_list (segments st).

Definition max_age_ms (stale : Z) : Z := stale * 1000.

(** Overflow of [now_ms - timestamp_ms] is undefined. *)
Definition age_ok (now_ms : Z) (e : TrafficEdgeData) : bool :=
  bool_decide (- 2 ^ 63 <= now_ms - e_timestamp_ms e < 2 ^ 63).

Definition is_fresh (now_ms stale : Z) (e : TrafficEdgeData) : bool :=
  negb (max_age_ms stale <? now_ms - e_timestamp_ms e).

Definition removeStaleSegments (st : LiveDataStore) (stale now_ms : Z) : option LiveDataStore :=
  if bool_decide (map_Forall (fun _ e => age_ok now_ms e = true) (segments st)) then
    Some (mkStore (filter (fun kv => is_fresh now_ms stale kv.2 = true) (segments st))
                  (pending_samples st) (stale_seconds st))
  else None.

Definition size (st : LiveDataStore) : Z := Z.of_nat (base.size (segments st)).
Definition pendingSampleCount (st : LiveDataStore) : Z := zlen (pending_samples st).
Definition clear (st : LiveDataStore) : LiveDataStore := mkStore ∅ [] (stale_seconds st).
Definition setStaleSeconds (st : LiveDataStore) (s : Z) : LiveDataStore :=
  mkStore (segments st) (pending_samples st) s.

(** ** The receiver *)

Record TrafficUpdater : Type := mkUpdater {
  u_stale_seconds : Z;
  u_min_speed_kmh : double;
  packets_received : Z;
  packets_dropped : Z;
  batches_received : Z
}.

Definition D300 : double := double_of_Z 300.
Definition D90 : double := double_of_Z 90.
Definition D180 : double := double_of_Z 180.

(** The checks of [processPacket]: true when the packet is dropped. *)
Definition invalid_packet (u : TrafficUpdater) (speed lat lon : double) : bool :=
  SFltb speed (u_min_speed_kmh u) || SFltb D300 speed
  || (SFltb lat (SFopp D90) || SFltb D90 lat)
  || (SFltb lon (SFopp D180) || SFltb D180 lon).

Definition processPacket (u : TrafficUpdater) (now_ms : Z) (pkt : TrafficPacketMsg) (st : LiveDataStore)
  : option LiveDataStore :=
  let speed := single_of_bits (speed_kmh pkt) in
  let lat := double_of_bits (latitude pkt) in
  let lon := double_of_bits (longitude pkt) in
  if invalid_packet u speed lat lon then Some st
  else
    stale ← (if 0 <? timestamp_ms pkt then
               age ← checked_int64 (now_ms - timestamp_ms pkt);
               Some (max_age_ms (u_stale_seconds u) <? age)
             else Some false);
    if (stale : bool) then Some st
    else
      let ts := if 0 <? timestamp_ms pkt then timestamp_ms pkt else now_ms in
      Some (addSample st (mkSample (user_id pkt) lat lon speed (single_of_bits (bearing_deg pkt)) ts)).

(** The consumer calls of a datagram; [clock i] is the time at the i-th call. *)
Fixpoint processPackets (u : TrafficUpdater) (clock : nat -> Z) (ps : list TrafficPacketMsg) (st : LiveDataStore)
  : option LiveDataStore :=
  match ps with
  | [] => Some st
  | p :: ps => st' ← processPacket u (clock O) p st; processPackets u (fun i => clock (S i)) ps st'
  end.

(** One round of [receiveLoop]; [None] as input is a failed or timed-out
    [recvfrom]. *)
Definition receive (u : TrafficUpdater) (clock : nat -> Z) (datagram : option (list Z)) (st : LiveDataStore)
  : option (TrafficUpdater * LiveDataStore) :=
  let '(mkUpdater s m received dropped batches) := u in
  match datagram with
  | None => Some (u, st)
  | Some [] => Some (mkUpdater s m received (wrap 64 (dropped + 1)) batches, st)
  | Some data =>
      let '(ps, parsed) := parseTrafficBatch data in
      st' ← processPackets u clock ps st;
      if parsed =? 0 then Some (mkUpdater s m received (wrap 64 (dropped + 1)) batches, st')
      else Some (mkUpdater s m (wrap 64 (received + parsed)) dropped (wrap 64 (batches + 1)), st')
  end.

(** ** Weights *)

Definition D0_5 : double := binary_normalize 53 1024 1 (-1) false.
Definition D10 : double := double_of_Z 10.
Definition REFERENCE_SPEED : double := double_of_Z 50.

Definition ComputeTrafficWeightFactor (speed : double) : double :=
  if SFleb speed D0_5 then D10
  else let factor := ddiv REFERENCE_SPEED speed in
       if SFltb D10 factor then D10 else factor.

Definition SpeedToColor (speed : double) : string :=
  if SFleb (double_of_Z 50) speed then "#22c55e"
  else if SFleb (double_of_Z 30) speed then "#eab308"
  else if SFleb (double_of_Z 15) speed then "#f97316"
  else "#ef4444".

Definition scale_weight (factor : double) (weight : Z) : option Z :=
  z ← round_to_Z (dmul (double_of_Z weight) factor); checked_uint32 z.

Definition is_live (e : TrafficEdgeData) : bool := bool_decide (e_source e = "live"%string).

Definition ApplyLiveTrafficToSegmentWeights (st : LiveDataStore) (geometry_id : Z) (weights : list Z)
  : option (list Z) :=
  match get st geometry_id with
  | Some live => if is_live live then mapM (scale_weight (e_weight_factor live)) weights else Some weights
  | None => Some weights
  end.

Definition ApplyLiveTrafficToSegmentWeight (st : LiveDataStore) (geometry_id weight : Z) : option Z :=
  match get st geometry_id with
  | Some live => if is_live live then scale_weight (e_weight_factor live) weight else Some weight
  | None => Some weight
  end.

(** ** Aggregation *)

(** What the code uses of the data facade: the nearest phantom node of a
    coordinate (fixed longitude and latitude) as its forward segment id and
    whether that is enabled, the geometry of a segment, and the geometry's
    nodes with their coordinates. *)
Record Facade : Type := mkFacade {
  NearestPhantomNode : Z -> Z -> option (Z * bool);
  GetGeometryIndex : Z -> Z;
  GetUncompressedForwardGeometry : Z -> list Z;
  GetCoordinateOfNode : Z -> Z * Z
}.

Abbreviation user_map := (gmap Z TrafficSample).

Section aggregator.
Context (facade : Facade).

(** Iteration over the users of a geometry: the order of an unordered map. *)
Context (iterate : user_map -> list (Z * TrafficSample)).

(** The geometry a sample counts for; the inner [None]: none. *)
Definition snap (s : TrafficSample) : option (option Z) :=
  lon ← toFixed (s_longitude s);
  lat ← toFixed (s_latitude s);
  Some (match NearestPhantomNode facade lon lat with
        | Some (id, true) => Some (GetGeometryIndex facade id)
        | _ => None
        end).

(** Keep the newest sample of a user, the later one of equals. *)
Definition insert_user (m : user_map) (s : TrafficSample) : user_map :=
  match m !! s_user_id s with
  | Some old => if s_timestamp_ms old <=? s_timestamp_ms s then <[s_user_id s := s]> m else m
  | None => <[s_user_id s := s]> m
  end.

Definition insert_grouped (grouped : gmap Z user_map) (g : Z) (s : TrafficSample) : gmap Z user_map :=
  <[g := insert_user (default ∅ (grouped !! g)) s]> grouped.

Fixpoint group_samples (now_ms stale : Z) (samples : list TrafficSample) (grouped : gmap Z user_map)
  : option (gmap Z user_map) :=
  match samples with
  | [] => Some grouped
  | s :: samples =>
      expiry ← checked_int64 (s_timestamp_ms s + max_age_ms stale);
      if expiry <? now_ms then group_samples now_ms stale samples grouped
      else
        g ← snap s;
        match g with
        | None => group_samples now_ms stale samples grouped
        | Some g => group_samples now_ms stale samples (insert_grouped grouped g s)
        end
  end.

Definition sum_samples (f : TrafficSample -> double) (us : list (Z * TrafficSample)) : double :=
  foldl (fun acc u => dadd acc (f u.2)) (S754_zero false) us.

Definition latest_timestamp (us : list (Z * TrafficSample)) : Z :=
  foldl (fun acc u => Z.max acc (s_timestamp_ms u.2)) 0 us.

(** The average over the users of one geometry. *)
Definition summarize (users : user_map) : TrafficEdgeData :=
  let us := iterate users in
  let count := double_of_Z (Z.of_nat (base.size users)) in
  let speed := ddiv (sum_samples s_speed_kmh us) count in
  mkEdgeData speed (ComputeTrafficWeightFactor speed)
    (ddiv (sum_samples s_bearing_deg us) count)
    (ddiv (sum_samples s_latitude us) count)
    (ddiv (sum_samples s_longitude us) count)
    (latest_timestamp us) (wrap 32 (Z.of_nat (base.size users))) "live".

(** The updates have different keys, so their order does not matter. *)
Definition store_groups (st : LiveDataStore) (grouped : list (Z * user_map)) : LiveDataStore :=
  foldl (fun st gu => update st gu.1 (summarize gu.2)) st grouped.

(** [now_ms] is read before grouping, [now_ms'] in [removeStaleSegments]. *)
Definition AggregatePendingTrafficSamples (st : LiveDataStore) (stale now_ms now_ms' : Z) : option LiveDataStore :=
  let '(samples, st1) := takePendingSamples st in
  match samples with
  | [] => Some st1
  | _ =>
      grouped ← group_samples now_ms stale samples ∅;
      removeStaleSegments (store_groups st1 (map_to_list grouped)) stale now_ms'
  end.

(** ** The traffic response *)

Inductive GeometriesType : Type := Polyline6 | GeoJSON.

Record TrafficParameters : Type := mkTrafficParameters {
  south_west : option (Z * Z);   (** lon, lat *)
  north_east : option (Z * Z);
  geometries : GeometriesType
}.

Definition TrafficParameters_IsValid (base_valid : bool) (p : TrafficParameters) : bool :=
  if negb base_valid then false
  else match south_west p, north_east p with
  | None, None => true
  | Some _, Some _ => true
  | _, _ => false
  end.

Definition buildCoordinates (geometry_id : Z) : list (Z * Z) :=
  GetCoordinateOfNode facade <$> GetUncompressedForwardGeometry facade (wrap 32 geometry_id).

Definition in_box (sw ne c : Z * Z) : bool :=
  (sw.2 <=? c.2) && (c.2 <=? ne.2) && (sw.1 <=? c.1) && (c.1 <=? ne.1).

Definition segmentInBBox (p : TrafficParameters) (geometry_id : Z) (data : TrafficEdgeData) : option bool :=
  match south_west p, north_east p with
  | Some sw, Some ne =>
      match buildCoordinates geometry_id with
      | [] =>
          lon ← toFixed (e_longitude data);
          lat ← toFixed (e_latitude data);
          Some (in_box sw ne (lon, lat))
      | cs => Some (existsb (in_box sw ne) cs)
      end
  | _, _ => Some true
  end.

(** An entry of the response; the geometry is rendered as a polyline or as
    GeoJSON from these coordinates. *)
Record SegmentEntry : Type := mkSegmentEntry {
  r_geometry_id : Z;
  r_speed_kmh : double;
  r_avg_speed_kmh : double;
  r_sample_count : Z;
  r_weight_factor : double;
  r_color : string;
  r_timestamp_ms : Z;
  r_geometry : GeometriesType * list (Z * Z)
}.

Definition segment_entry (p : TrafficParameters) (g : Z) (e : TrafficEdgeData) : SegmentEntry :=
  mkSegmentEntry g (e_speed_kmh e) (e_speed_kmh e) (e_sample_count e) (e_weight_factor e)
    (SpeedToColor (e_speed_kmh e)) (wrap 64 (e_timestamp_ms e)) (geometries p, buildCoordinates g).

Fixpoint response_segments (p : TrafficParameters) (all : list (Z * TrafficEdgeData)) : option (list SegmentEntry) :=
  match all with
  | [] => Some []
  | (g, e) :: all =>
      if negb (is_live e) then response_segments p all
      else
        inside ← segmentInBBox p g e;
        if negb inside then response_segments p all
        else
          match buildCoordinates g with
          | [] => response_segments p all
          | _ => rest ← response_segments p all; Some (segment_entry p g e :: rest)
          end
  end.

Definition MakeResponse (p : TrafficParameters) (st : LiveDataStore) (now_ms now_ms' : Z)
  : option (LiveDataStore * list SegmentEntry) :=
  st' ← AggregatePendingTrafficSamples st (stale_seconds st) now_ms now_ms';
  segs ← response_segments p (getAllSegments st');
  Some (st', segs).
End aggregator.

(** The table of the guide and of the unit test. *)
Example factor_table :
  ComputeTrafficWeightFactor (double_of_Z 50) = double_of_Z 1 /\
  ComputeTrafficWeightFactor (double_of_Z 25) = double_of_Z 2 /\
  ComputeTrafficWeightFactor (double_of_Z 5) = double_of_Z 10 /\
  ComputeTrafficWeightFactor (double_of_Z 1) = double_of_Z 10 /\
  ComputeTrafficWeightFactor (S754_zero false) = double_of_Z 10.
Proof. vm_compute. done. Qed.

(** ** The weight factor *)

Lemma shr_1_nonneg r : 0 <= shr_m r -> 0 <= shr_m (shr_1 r).
Proof. destruct r as [[|[]|[]] ? ?]; simpl; lia. Qed.

Lemma shr_nonneg r e n : 0 <= shr_m r -> 0 <= shr_m (shr r e n).1.
Proof.
  intros H. destruct n as [|p|p]; simpl; [done| |done].
  assert (forall (q : positive) (s : shr_record), 0 <= shr_m s -> 0 <= shr_m (SpecFloat.iter_pos shr_1 q s)) as Hi.
  { induction q as [q IH|q IH|]; intros s Hs; simpl; auto using shr_1_nonneg. }
  by apply Hi.
Qed.

Lemma shr_record_nonneg m l : 0 <= m -> 0 <= shr_m (shr_record_of_loc m l).
Proof. by destruct l as [|[]]. Qed.

(** Rounding keeps the sign and gives no NaN. *)
Lemma binary_round_aux_sign s m e l :
  0 <= m -> match binary_round_aux 53 1024 s m e l with
            | S754_zero s' | S754_infinity s' | S754_finite s' _ _ => s' = s
            | S754_nan => False
            end.
Proof.
  intros Hm. unfold binary_round_aux, shr_fexp.
  set (n1 := _ - _). pose proof (shr_nonneg (shr_record_of_loc m l) e n1 (shr_record_nonneg _ _ Hm)) as H1.
  destruct (shr (shr_record_of_loc m l) e n1) as [r1 e1]. simpl in H1.
  assert (0 <= round_nearest_even (shr_m r1) (loc_of_shr_record r1)) as H2.
  { destruct (loc_of_shr_record r1) as [|[]]; simpl; try destruct (Z.even _); lia. }
  set (n2 := _ - e1).
  pose proof (shr_nonneg (shr_record_of_loc (round_nearest_even (shr_m r1) (loc_of_shr_record r1)) loc_Exact) e1 n2 H2) as H3.
  destruct (shr _ e1 n2) as [r2 e2]. simpl in H3. destruct (shr_m r2); [done|by destruct (_ <=? _)|lia].
Qed.

Lemma SFdiv_sign s m e s' m' e' :
  match SFdiv 53 1024 (S754_finite s m e) (S754_finite s' m' e') with
  | S754_zero t | S754_infinity t | S754_finite t _ _ => t = xorb s s'
  | S754_nan => False
  end.
Proof.
  unfold SFdiv. destruct (SFdiv_core_binary 53 1024 (Zpos m) e (Zpos m') e') as [[q ez] l] eqn:E.
  apply binary_round_aux_sign. unfold SFdiv_core_binary in E.
  match type of E with context [Z.div_eucl ?a ?b] =>
    assert (0 <= a) as Ha by (match goal with |- 0 <= match ?n with _ => _ end => destruct n end;
                               try lia; apply Z.shiftl_nonneg; lia);
    assert (0 <= a / b) as Hq by (apply Z.div_pos; lia);
    unfold Z.div in Hq; destruct (Z.div_eucl a b) as [q' r']
  end.
  by injection E as <- _ _.
Qed.

(** Two numbers that are no NaN are ordered one way or the other. *)
Lemma SFltb_SFleb x y : x <> S754_nan -> y <> S754_nan -> SFltb x y = false -> SFleb y x = true.
Proof.
  unfold SFltb, SFleb. intros Hx Hy.
  destruct x as [sx|[]| |[] mx ex], y as [sy|[]| |[] my ey]; try done; simpl;
    try (by destruct sx || by destruct sy); rewrite (Z.compare_antisym ex ey);
    destruct (Z.compare ex ey) eqn:E; simpl; try done;
    change (Pos.compare_cont Eq) with Pos.compare; rewrite (Pos.compare_antisym mx my);
    destruct (Pos.compare mx my); done.
Qed.

Lemma weight_factor_range speed :
  speed <> S754_nan ->
  ComputeTrafficWeightFactor speed <> S754_nan /\
  SFleb (ComputeTrafficWeightFactor speed) D10 = true /\
  SFleb (S754_zero false) (ComputeTrafficWeightFactor speed) = true.
Proof.
  intros Hn. unfold ComputeTrafficWeightFactor. destruct (SFleb speed D0_5) eqn:E.
  { split; [done|]. by vm_compute. }
  assert (ddiv REFERENCE_SPEED speed <> S754_nan /\ SFleb (S754_zero false) (ddiv REFERENCE_SPEED speed) = true) as [Hd Hp].
  { destruct speed as [s|[]| |[] m e]; try done.
    change (ddiv REFERENCE_SPEED (S754_finite false m e)) with (SFdiv 53 1024 (S754_finite false 7036874417766400 (-47)) (S754_finite false m e)).
    pose proof (SFdiv_sign false 7036874417766400 (-47) false m e) as H.
    destruct (SFdiv _ _ _ _) as [t|t| |t m' e']; try done; by rewrite H. }
  destruct (SFltb D10 _) eqn:L.
  - split; [done|]. by vm_compute.
  - split; [done|]. split; [by apply SFltb_SFleb|done].
Qed.

(** C27: the traffic weight factor of any speed but NaN is a number between 0
    and 10, the cap of the guide; it is exactly 10 for speeds up to 0.5 km/h. *)
Theorem weight_factor_bounded speed :
  speed <> S754_nan ->
  ComputeTrafficWeightFactor speed <> S754_nan /\
  SFleb (ComputeTrafficWeightFactor speed) D10 = true /\
  SFleb (S754_zero false) (ComputeTrafficWeightFactor speed) = true /\
  (SFleb speed D0_5 = true -> ComputeTrafficWeightFactor speed = D10).
Proof.
  intros H. destruct (weight_factor_range speed H) as (H1 & H2 & H3). do 3 (split; [done|]).
  intros E. unfold ComputeTrafficWeightFactor. by rewrite E.
Qed.

Lemma weight_factor_bounded_witness :
  SFleb (ComputeTrafficWeightFactor (double_of_Z 7)) D10 = true.
Proof. apply (weight_factor_bounded (double_of_Z 7)). by vm_compute. Defined.

(** ** Grouping *)

Section group.
Context (facade : Facade) (now_ms stale : Z).

(** The nearest road of a position lies on geometry [g]. *)
Definition on_geometry (g : Z) (s : TrafficSample) : Prop :=
  exists lon lat id, toFixed (s_longitude s) = Some lon /\ toFixed (s_latitude s) = Some lat /\
    NearestPhantomNode facade lon lat = Some (id, true) /\ GetGeometryIndex facade id = g.

Lemma snap_on_geometry s g : snap facade s = Some (Some g) <-> on_geometry g s.
Proof.
  unfold snap, on_geometry. split.
  - intros H. destruct (toFixed (s_longitude s)) as [lon|]; [|done]. destruct (toFixed (s_latitude s)) as [lat|]; [|done]. cbn [mbind option_bind] in H.
    destruct (NearestPhantomNode facade lon lat) as [[id []]|] eqn:E; [|done..]. injection H as <-. by exists lon, lat, id.
  - intros (lon & lat & id & -> & -> & E & <-). cbn [mbind option_bind]. by rewrite E.
Qed.

(** The sample is at most [stale] seconds old and counts for geometry [g] and user [u]. *)
Definition relevant (g u : Z) (s : TrafficSample) : Prop :=
  now_ms - s_timestamp_ms s <= stale * 1000 /\ on_geometry g s /\ s_user_id s = u.

(** The newest relevant sample, the last of equally new ones. *)
Definition newest (samples : list TrafficSample) (g u : Z) (s : TrafficSample) : Prop :=
  relevant g u s /\ exists l1 l2, samples = l1 ++ s :: l2 /\
    (forall x, x ∈ l1 -> relevant g u x -> s_timestamp_ms x <= s_timestamp_ms s) /\
    (forall x, x ∈ l2 -> relevant g u x -> s_timestamp_ms x < s_timestamp_ms s).

Definition lookup_user (m : gmap Z user_map) (g u : Z) : option TrafficSample := m !! g ≫= fun us => us !! u.

Lemma group_samples_app l1 l2 m :
  group_samples facade now_ms stale (l1 ++ l2) m =
    group_samples facade now_ms stale l1 m ≫= group_samples facade now_ms stale l2.
Proof.
  revert m. induction l1 as [|s l1 IH]; intros m; [done|]. cbn [app group_samples].
  destruct (checked_int64 _) as [x|]; [|done]. cbn [mbind option_bind]. destruct (x <? now_ms); [apply IH|].
  destruct (snap facade s) as [[g|]|]; cbn [mbind option_bind]; auto.
Qed.

Lemma newest_snoc_irrelevant l x g u s : ~ relevant g u x -> newest (l ++ [x]) g u s <-> newest l g u s.
Proof.
  intros Hx. split; intros (Hs & l1 & l2 & E & H1 & H2).
  - split; [done|]. destruct l2 as [|y l2 _] using rev_ind.
    { apply app_inj_tail in E as [_ ->]. done. }
    rewrite app_comm_cons, app_assoc in E. apply app_inj_tail in E as [-> ->].
    exists l1, l2. split; [done|]. split; [done|]. intros z Hz. apply H2. rewrite elem_of_app. by left.
  - split; [done|]. exists l1, (l2 ++ [x]). rewrite E, <- app_assoc. split; [done|]. split; [done|].
    intros z. rewrite elem_of_app, list_elem_of_singleton. intros [Hz| ->]; [by apply H2|done].
Qed.

Lemma newest_snoc_new l x g u s :
  relevant g u x ->
  newest (l ++ [x]) g u s <->
    (s = x /\ forall y, y ∈ l -> relevant g u y -> s_timestamp_ms y <= s_timestamp_ms x) \/
    (newest l g u s /\ s_timestamp_ms x < s_timestamp_ms s).
Proof.
  intros Hx. split.
  - intros (Hs & l1 & l2 & E & H1 & H2). destruct l2 as [|y l2 _] using rev_ind.
    + apply app_inj_tail in E as [-> ->]. by left.
    + rewrite app_comm_cons, app_assoc in E. apply app_inj_tail in E as [-> ->]. right. split.
      * split; [done|]. exists l1, l2. split; [done|]. split; [done|]. intros z Hz. apply H2. rewrite elem_of_app. by left.
      * apply H2; [|done]. rewrite elem_of_app, list_elem_of_singleton. by right.
  - intros [[-> Hm]|[(Hs & l1 & l2 & E & H1 & H2) Hlt]].
    + split; [done|]. exists l, []. split; [done|]. split; [done|]. intros z Hz. by apply elem_of_nil in Hz.
    + split; [done|]. exists l1, (l2 ++ [x]). rewrite E, <- app_assoc. split; [done|]. split; [done|].
      intros z. rewrite elem_of_app, list_elem_of_singleton. intros [Hz| ->]; [by apply H2|done].
Qed.

Lemma lookup_insert_grouped m g x g' u' :
  lookup_user (insert_grouped m g x) g' u' =
    if decide (g' = g /\ u' = s_user_id x) then
      match lookup_user m g' u' with
      | Some old => if s_timestamp_ms old <=? s_timestamp_ms x then Some x else Some old
      | None => Some x
      end
    else lookup_user m g' u'.
Proof.
  unfold lookup_user, insert_grouped, insert_user.
  destruct (decide (g' = g)) as [->|Hg].
  2:{ rewrite lookup_insert_ne by done. by rewrite decide_False by (by intros [? ?]). }
  rewrite lookup_insert_eq. cbn [mbind option_bind].
  assert (forall us : user_map, m !! g = Some us \/ (m !! g = None /\ us = ∅) ->
    (match us !! s_user_id x with
     | Some old => if s_timestamp_ms old <=? s_timestamp_ms x then <[s_user_id x:=x]> us else us
     | None => <[s_user_id x:=x]> us
     end) !! u' = if decide (g = g /\ u' = s_user_id x) then
      match us !! u' with
      | Some old => if s_timestamp_ms old <=? s_timestamp_ms x then Some x else Some old
      | None => Some x
      end else us !! u') as H.
  { intros us _. destruct (decide (u' = s_user_id x)) as [->|Hu].
    - rewrite decide_True by done. destruct (us !! s_user_id x) as [old|] eqn:E; [|by rewrite lookup_insert_eq].
      destruct (_ <=? _); [by rewrite lookup_insert_eq|done].
    - rewrite decide_False by (by intros [_ ?]). destruct (us !! s_user_id x) as [old|]; [destruct (_ <=? _)|];
        by rewrite ?lookup_insert_ne. }
  destruct (m !! g) as [us|] eqn:E; cbn [mbind option_bind]; (rewrite H; [|by auto]).
  - done.
  - cbn [default]. change (default ∅ (@None (gmap Z TrafficSample))) with (∅ : gmap Z TrafficSample). by rewrite lookup_empty.
Qed.

Lemma newest_max l g u s y : newest l g u s -> y ∈ l -> relevant g u y -> s_timestamp_ms y <= s_timestamp_ms s.
Proof.
  intros (Hs & l1 & l2 & -> & H1 & H2). rewrite elem_of_app, elem_of_cons.
  intros [Hy|[->|Hy]] Hr; [by apply H1|lia|]. specialize (H2 y Hy Hr). lia.
Qed.

Lemma newest_unique l g u s s' : newest l g u s -> newest l g u s' -> s = s'.
Proof.
  intros H H'. assert (s ∈ l /\ s' ∈ l) as [Hs Hs'] by (destruct H as (_ & l1 & l2 & -> & _), H' as (_ & k1 & k2 & E & _); split; [set_solver|rewrite E; set_solver]).
  pose proof (newest_max _ _ _ _ _ H Hs' ltac:(apply H')). pose proof (newest_max _ _ _ _ _ H' Hs ltac:(apply H)).
  destruct H as (Hr & l1 & l2 & E & _ & H2), H' as (Hr' & k1 & k2 & E' & _ & H2').
  destruct (Nat.lt_trichotomy (length l1) (length k1)) as [Hlt|[Heq|Hlt]].
  - assert (s' ∈ l2); [|specialize (H2 s' ltac:(done) Hr'); lia]. apply (list_elem_of_lookup_2 _ (length k1 - S (length l1))).
    assert (l !! length k1 = Some s') as Hk by (rewrite E'; by apply list_lookup_middle). rewrite E, lookup_app_r in Hk by lia.
    by replace (length k1 - length l1)%nat with (S (length k1 - S (length l1))) in Hk by lia.
  - rewrite E in E'. by apply app_inj_1 in E' as [_ [= -> _]].
  - assert (s ∈ k2); [|specialize (H2' s ltac:(done) Hr); lia]. apply (list_elem_of_lookup_2 _ (length l1 - S (length k1))).
    assert (l !! length l1 = Some s) as Hk by (rewrite E; by apply list_lookup_middle). rewrite E', lookup_app_r in Hk by lia.
    by replace (length l1 - length k1)%nat with (S (length l1 - S (length k1))) in Hk by lia.
Qed.

(** What a geometry and a user hold after a run over [l]. *)
Definition group_holds (l : list TrafficSample) (m : gmap Z user_map) (g u : Z) : Prop :=
  match lookup_user m g u with
  | Some s => newest l g u s
  | None => forall y, y ∈ l -> ~ relevant g u y
  end.

Lemma group_holds_irrelevant l m x g u :
  ~ relevant g u x -> group_holds l m g u -> group_holds (l ++ [x]) m g u.
Proof.
  unfold group_holds. intros Hx. destruct (lookup_user m g u); [by apply newest_snoc_irrelevant|].
  intros H y. rewrite elem_of_app, list_elem_of_singleton. intros [Hy| ->]; [by apply H|done].
Qed.

Lemma group_holds_insert l m x g g' u' :
  relevant g (s_user_id x) x -> group_holds l m g' u' -> group_holds (l ++ [x]) (insert_grouped m g x) g' u'.
Proof.
  intros Hx Hold. destruct (decide (g' = g /\ u' = s_user_id x)) as [[-> ->]|Hne].
  - unfold group_holds in *. rewrite lookup_insert_grouped, decide_True by done.
    destruct (lookup_user m g (s_user_id x)) as [old|].
    + destruct (Z.leb_spec (s_timestamp_ms old) (s_timestamp_ms x)); apply newest_snoc_new; try done.
      * left. split; [done|]. intros y Hy Hr. pose proof (newest_max _ _ _ _ _ Hold Hy Hr). lia.
      * by right.
    + apply newest_snoc_new; [done|]. left. split; [done|]. intros y Hy Hr. by destruct (Hold y Hy).
  - assert (~ relevant g' u' x) as Hx'.
    { intros (_ & Hs%snap_on_geometry & Hu). destruct Hx as (_ & Hs'%snap_on_geometry & _). apply Hne. split; congruence. }
    apply (group_holds_irrelevant l m x g' u' Hx') in Hold. unfold group_holds in *.
    by rewrite lookup_insert_grouped, decide_False.
Qed.

Lemma group_samples_holds l m :
  group_samples facade now_ms stale l ∅ = Some m -> forall g u, group_holds l m g u.
Proof.
  revert m. induction l as [|x l IH] using rev_ind; intros m H g u.
  { injection H as <-. unfold group_holds, lookup_user. rewrite lookup_empty. cbn.
    intros y Hy. by apply elem_of_nil in Hy. }
  rewrite group_samples_app in H. apply bind_Some in H as (m0 & H0 & H). specialize (IH m0 H0).
  cbn [group_samples] in H. unfold checked_int64, checked in H.
  destruct (_ && _); [|done]. cbn [mbind option_bind] in H.
  destruct (Z.ltb_spec (s_timestamp_ms x + max_age_ms stale) now_ms).
  { injection H as <-. apply group_holds_irrelevant; [|apply IH]. intros (Hr & _). unfold max_age_ms in *. lia. }
  destruct (snap facade x) as [[g0|]|] eqn:Hs; [| |done]; injection H as <-.
  - apply group_holds_insert; [|apply IH]. split_and!; [unfold max_age_ms in *; lia|by apply snap_on_geometry|done].
  - apply group_holds_irrelevant; [|apply IH]. intros (_ & Hr%snap_on_geometry & _). congruence.
Qed.

(** Every geometry in the result has a user. *)
Lemma group_samples_nonempty l m g us :
  group_samples facade now_ms stale l ∅ = Some m -> m !! g = Some us -> us <> ∅.
Proof.
  assert (forall m0, (forall g us, m0 !! g = Some us -> us <> (∅ : user_map)) ->
    group_samples facade now_ms stale l m0 = Some m -> m !! g = Some us -> us <> ∅) as H.
  { induction l as [|x l IH]; intros m0 Hm0 H Hg; [injection H as <-; by eapply Hm0|].
    cbn [group_samples] in H. destruct (checked_int64 _) as [e|]; [|done]. cbn [mbind option_bind] in H.
    destruct (e <? now_ms); [by eapply IH|]. destruct (snap facade x) as [[g0|]|]; [|by eapply IH|done].
    eapply IH; [|exact H|done]. intros g1 us1. unfold insert_grouped. rewrite lookup_insert. case_decide; [|apply Hm0].
    intros [= <-]. unfold insert_user. destruct (default ∅ (m0 !! g0) !! s_user_id x) as [old|] eqn:E.
    - destruct (_ <=? _); [apply insert_non_empty|]. intros Ee. by rewrite Ee, lookup_empty in E.
    - apply insert_non_empty. }
  intros Hl Hg. eapply H; [|exact Hl|done]. intros g1 us1. by rewrite lookup_empty.
Qed.
End group.

(** ** Aggregation *)

Section aggregation.
Context (facade : Facade) (iterate : user_map -> list (Z * TrafficSample)).
Context (Hiterate : forall m, iterate m ≡ₚ map_to_list m).

Lemma store_groups_lookup l st g :
  NoDup l.*1 ->
  (forall us, (g, us) ∈ l -> segments (store_groups iterate st l) !! g = Some (summarize iterate us)) /\
  (g ∉ l.*1 -> segments (store_groups iterate st l) !! g = segments st !! g) /\
  pending_samples (store_groups iterate st l) = pending_samples st /\
  stale_seconds (store_groups iterate st l) = stale_seconds st.
Proof.
  revert st. induction l as [|[g0 us0] l IH]; intros st Hnd.
  { split; [intros us Hin; by apply elem_of_nil in Hin|done]. }
  change (store_groups iterate st ((g0, us0) :: l))
    with (store_groups iterate (update st g0 (summarize iterate us0)) l).
  cbn [fmap list_fmap fst] in *. apply NoDup_cons in Hnd as [Hnin Hnd].
  destruct (IH (update st g0 (summarize iterate us0)) Hnd) as (H1 & H2 & H3 & H4).
  split; [|split; [|done]].
  - intros us. rewrite elem_of_cons. intros [[= -> ->]|Hin]; [|by apply H1].
    rewrite H2 by done. cbn. by rewrite lookup_insert_eq.
  - rewrite not_elem_of_cons. intros [Hne Hg]. rewrite H2 by done. cbn. by rewrite lookup_insert_ne.
Qed.

Lemma store_groups_map st (m : gmap Z user_map) g :
  segments (store_groups iterate st (map_to_list m)) !! g =
    match m !! g with Some us => Some (summarize iterate us) | None => segments st !! g end.
Proof.
  destruct (store_groups_lookup (map_to_list m) st g (NoDup_fst_map_to_list m)) as (H1 & H2 & _).
  destruct (m !! g) as [us|] eqn:E; [apply H1; by apply elem_of_map_to_list|].
  apply H2. intros Hin. apply list_elem_of_fmap in Hin as ([g' us] & -> & Hin).
  apply elem_of_map_to_list in Hin. cbn in E. congruence.
Qed.

(** Times far from the ends of the 64-bit range. *)
Definition sane_time (t : Z) : Prop := 0 <= t <= 2 ^ 62.

(** Samples and segments as they come out of the receiver when clients send
    sane times and finite coordinates. *)
Definition sane_sample (s : TrafficSample) : Prop :=
  sane_time (s_timestamp_ms s) /\ is_Some (toFixed (s_longitude s)) /\ is_Some (toFixed (s_latitude s)).

#[global] Instance sane_sample_dec s : Decision (sane_sample s).
Proof. unfold sane_sample, sane_time. apply _. Defined.

Definition sane_store (st : LiveDataStore) : Prop :=
  Forall sane_sample (pending_samples st) /\ map_Forall (fun _ e => sane_time (e_timestamp_ms e)) (segments st).

Lemma group_samples_total now_ms stale l m0 :
  0 <= stale < 2 ^ 31 -> Forall sane_sample l -> is_Some (group_samples facade now_ms stale l m0).
Proof.
  intros Hs Hl. revert m0. induction Hl as [|x l [Ht [[lon Hlon] [lat Hlat]]] Hl IH]; intros m0; [by eexists|].
  cbn [group_samples]. unfold checked_int64, checked, max_age_ms, sane_time in *.
  replace (_ && _) with true by lia. cbn [mbind option_bind]. destruct (_ <? _); [apply IH|].
  unfold snap. rewrite Hlon. cbn [mbind option_bind]. rewrite Hlat. cbn [mbind option_bind].
  destruct (NearestPhantomNode facade lon lat) as [[id []]|]; apply IH.
Qed.

Lemma latest_timestamp_sane us t0 :
  sane_time t0 -> Forall (fun u : Z * TrafficSample => sane_time (s_timestamp_ms u.2)) us ->
  sane_time (foldl (fun acc u => Z.max acc (s_timestamp_ms u.2)) t0 us).
Proof.
  intros H0 H. revert t0 H0. induction H as [|u us Hu H IH]; intros t0 H0; [done|]. cbn. apply IH.
  unfold sane_time in *. lia.
Qed.

Lemma summarize_sane l now_ms stale m g us :
  Forall sane_sample l -> group_samples facade now_ms stale l ∅ = Some m -> m !! g = Some us ->
  sane_time (e_timestamp_ms (summarize iterate us)).
Proof using Hiterate.
  intros Hl Hm Hg. cbn. unfold latest_timestamp. apply latest_timestamp_sane; [unfold sane_time; lia|].
  rewrite Hiterate. rewrite Forall_forall. intros [u s] Hin%elem_of_map_to_list. cbn.
  pose proof (group_samples_holds facade now_ms stale l m Hm g u) as H. unfold group_holds, lookup_user in H.
  rewrite Hg in H. cbn in H. rewrite Hin in H. destruct H as (_ & l1 & l2 & -> & _).
  rewrite Forall_app, Forall_cons in Hl. apply Hl.
Qed.

(** *** What the averages are

    The specification of the data of a geometry: the sums of the fields of the
    samples in some order, in double precision, divided by their number. *)

Inductive summed : list double -> double -> Prop :=
  | summed_nil : summed [] (S754_zero false)
  | summed_snoc l x sum : summed l sum -> summed (l ++ [x]) (SFadd 53 1024 sum x).

Definition average_of (l : list double) (x : double) : Prop :=
  exists sum, summed l sum /\ x = SFdiv 53 1024 sum (binary_normalize 53 1024 (zlen l) 0 false).

Record averaged (samples : list TrafficSample) (e : TrafficEdgeData) : Prop := {
  av_speed : average_of (s_speed_kmh <$> samples) (e_speed_kmh e);
  av_latitude : average_of (s_latitude <$> samples) (e_latitude e);
  av_longitude : average_of (s_longitude <$> samples) (e_longitude e);
  av_bearing : average_of (s_bearing_deg <$> samples) (e_bearing_deg e);
  av_factor : e_weight_factor e = ComputeTrafficWeightFactor (e_speed_kmh e);
  av_latest : exists s, s ∈ samples /\ e_timestamp_ms e = s_timestamp_ms s;
  av_all_before s : s ∈ samples -> s_timestamp_ms s <= e_timestamp_ms e;
  av_count : e_sample_count e = wrap 32 (zlen samples);
  av_source : e_source e = "live"%string
}.

Lemma sum_samples_summed f us : summed (f <$> us.*2) (sum_samples f us).
Proof.
  unfold sum_samples. induction us as [|u us IH] using rev_ind; [constructor|].
  rewrite foldl_snoc, !fmap_app. by constructor.
Qed.

Lemma latest_timestamp_spec (us : list (Z * TrafficSample)) : us <> [] -> (forall u, u ∈ us -> 0 <= s_timestamp_ms u.2) ->
  (exists u, u ∈ us /\ latest_timestamp us = s_timestamp_ms u.2) /\ forall u, u ∈ us -> s_timestamp_ms u.2 <= latest_timestamp us.
Proof.
  unfold latest_timestamp. induction us as [|v us IH] using rev_ind; [done|]. intros _ Hpos. rewrite foldl_snoc.
  destruct (decide (us = [])) as [->|Hne].
  { simpl. specialize (Hpos v ltac:(apply elem_of_app; right; left)). split; [exists v; split; [by left|lia]|].
    intros u ->%list_elem_of_singleton. lia. }
  destruct IH as [(u & Hu & E) Hle]; [done|intros u Hu; apply Hpos; set_solver|]. split.
  - destruct (decide (s_timestamp_ms v.2 <= s_timestamp_ms u.2)); [exists u|exists v]; (split; [set_solver|lia]).
  - intros w [Hw| ->%list_elem_of_singleton]%elem_of_app; [specialize (Hle w Hw); lia|lia].
Qed.

Lemma summarize_averaged users : users <> ∅ -> (forall u s, users !! u = Some s -> 0 <= s_timestamp_ms s) -> averaged (iterate users).*2 (summarize iterate users).
Proof using Hiterate.
  intros Hne Hpos. assert (zlen (iterate users).*2 = Z.of_nat (base.size users)) as Hlen.
  { unfold zlen. by rewrite length_fmap, Hiterate, length_map_to_list. }
  assert (forall f, average_of (f <$> (iterate users).*2) (ddiv (sum_samples f (iterate users)) (double_of_Z (Z.of_nat (base.size users))))) as Hav.
  { intros f. eexists. split; [apply sum_samples_summed|]. unfold zlen in *. rewrite length_fmap. by rewrite Hlen. }
  assert (forall u, u ∈ iterate users -> 0 <= s_timestamp_ms u.2) as Hp.
  { intros [u s] Hin. rewrite Hiterate, elem_of_map_to_list in Hin. by eapply Hpos. }
  assert (iterate users <> []) as Hni.
  { intros E. apply Hne. apply map_to_list_empty_iff. apply Permutation_nil_r. by rewrite <- Hiterate, E. }
  destruct (latest_timestamp_spec (iterate users) Hni Hp) as [(u & Hu & E) Hle].
  constructor; try apply Hav; try done.
  - exists u.2. split; [by apply list_elem_of_fmap_2|exact E].
  - intros s (u' & -> & Hu')%list_elem_of_fmap. by apply Hle.
  - simpl. by rewrite Hlen.
Qed.

(** The samples that count for a geometry: the newest one of every user, each user once. *)
Record contributors (samples : list TrafficSample) (now_ms stale g : Z) (l : list TrafficSample) : Prop := {
  co_some : l <> [];
  co_users : NoDup (s_user_id <$> l);
  co_newest s : s ∈ l <-> exists u, newest facade now_ms stale samples g u s
}.

Lemma group_contributors samples now_ms stale grouped g users : group_samples facade now_ms stale samples ∅ = Some grouped -> grouped !! g = Some users ->
  contributors samples now_ms stale g (iterate users).*2.
Proof using Hiterate.
  intros Hg Hu. assert (forall u s, users !! u = Some s <-> newest facade now_ms stale samples g u s) as Hnew.
  { intros u s. pose proof (group_samples_holds facade now_ms stale samples grouped Hg g u) as H. unfold group_holds, lookup_user in H. rewrite Hu in H. cbn in H.
    split; [intros E; by rewrite E in H|]. intros Hs. destruct (users !! u) as [s'|].
    - f_equal. by eapply newest_unique.
    - destruct Hs as (Hr & l1 & l2 & -> & _). exfalso. apply (H s); [set_solver|done]. }
  assert (forall u s, (u, s) ∈ iterate users -> s_user_id s = u /\ newest facade now_ms stale samples g u s) as Hin.
  { intros u s Hin. rewrite Hiterate, elem_of_map_to_list in Hin. apply Hnew in Hin as Hs. split; [apply Hs|done]. }
  split.
  - intros E. apply (group_samples_nonempty facade now_ms stale samples grouped g users Hg Hu). apply map_to_list_empty_iff, Permutation_nil_r.
    rewrite <- Hiterate. by apply fmap_nil_inv in E as ->.
  - assert (s_user_id <$> (iterate users).*2 = (iterate users).*1) as ->.
    { rewrite <- list_fmap_compose. apply list_fmap_ext. intros _ [u s] Hus%list_elem_of_lookup_2. by apply Hin. }
    rewrite Hiterate. apply NoDup_fst_map_to_list.
  - intros s. rewrite list_elem_of_fmap. split; [intros ([u x] & -> & Hx); apply Hin in Hx as [_ Hx]; by exists u|].
    intros (u & Hs%Hnew). exists (u, s). by rewrite Hiterate, elem_of_map_to_list.
Qed.

(** The two cases of a geometry. *)
Definition untouched (st st' : LiveDataStore) (now_ms now_ms' stale g : Z) : Prop :=
  (forall s u, s ∈ pending_samples st -> ~ relevant facade now_ms stale g u s) /\
  forall e, segments st' !! g = Some e <-> segments st !! g = Some e /\ now_ms' - e_timestamp_ms e <= stale * 1000.

Definition refreshed (st st' : LiveDataStore) (now_ms now_ms' stale g : Z) : Prop :=
  exists samples e, contributors (pending_samples st) now_ms stale g samples /\ averaged samples e /\
    segments st' !! g = if decide (now_ms' - e_timestamp_ms e <= stale * 1000) then Some e else None.

Lemma is_fresh_spec now_ms stale e : is_fresh now_ms stale e = true <-> now_ms - e_timestamp_ms e <= stale * 1000.
Proof. unfold is_fresh, max_age_ms. rewrite negb_true_iff, Z.ltb_ge. lia. Qed.

Lemma aggregate_ok st stale now_ms now_ms' :
  0 <= stale < 2 ^ 31 -> sane_store st -> sane_time now_ms' -> pending_samples st <> [] ->
  exists st', AggregatePendingTrafficSamples facade iterate st stale now_ms now_ms' = Some st' /\
    pending_samples st' = [] /\ stale_seconds st' = stale_seconds st /\
    forall g, untouched st st' now_ms now_ms' stale g \/ refreshed st st' now_ms now_ms' stale g.
Proof using Hiterate.
  intros Hs [Hp Hseg] Hnow Hne. unfold AggregatePendingTrafficSamples, takePendingSamples.
  destruct (group_samples_total now_ms stale (pending_samples st) ∅ Hs Hp) as [grouped Hg].
  set (st1 := mkStore (segments st) [] (stale_seconds st)).
  set (st2 := store_groups iterate st1 (map_to_list grouped)).
  destruct (store_groups_lookup (map_to_list grouped) st1 0 (NoDup_fst_map_to_list grouped)) as (_ & _ & H3 & H4).
  fold st2 in H3, H4.
  assert (map_Forall (fun _ e => sane_time (e_timestamp_ms e)) (segments st2)) as Hsane.
  { intros g e He. unfold st2 in He. rewrite store_groups_map in He.
    destruct (grouped !! g) as [us|] eqn:E; [injection He as <-; by eapply summarize_sane|by eapply Hseg]. }
  exists (mkStore (filter (fun kv => is_fresh now_ms' stale kv.2 = true) (segments st2)) (pending_samples st2) (stale_seconds st2)).
  split.
  { destruct (pending_samples st) eqn:E; [done|]. rewrite <- E in *. rewrite Hg. cbn [mbind option_bind].
    unfold removeStaleSegments. fold st1 st2. rewrite bool_decide_true; [done|].
    intros g e He. apply Hsane in He. unfold age_ok, sane_time in *. apply bool_decide_true. lia. }
  cbn [pending_samples stale_seconds]. rewrite H3, H4. split; [done|]. split; [done|]. intros g.
  assert (forall e, filter (fun kv => is_fresh now_ms' stale kv.2 = true) (segments st2) !! g = Some e <->
    segments st2 !! g = Some e /\ now_ms' - e_timestamp_ms e <= stale * 1000) as Hfil by (intros e; rewrite map_lookup_filter_Some, is_fresh_spec; done).
  pose proof (store_groups_map st1 grouped g) as Hst2. fold st2 in Hst2.
  pose proof (group_samples_holds facade now_ms stale (pending_samples st) grouped Hg g) as Hholds.
  destruct (grouped !! g) as [us|] eqn:E.
  - right. exists (iterate us).*2, (summarize iterate us). split; [by eapply group_contributors|]. split.
    + apply summarize_averaged; [by apply (group_samples_nonempty facade now_ms stale (pending_samples st) grouped g us)|].
      intros u s Hus. specialize (Hholds u). unfold group_holds, lookup_user in Hholds. rewrite E in Hholds. cbn in Hholds. rewrite Hus in Hholds.
      destruct Hholds as (_ & l1 & l2 & El & _). rewrite El, Forall_app, Forall_cons in Hp. apply Hp.
    + cbn [segments]. case_decide as Hf; [by apply Hfil|]. apply eq_None_not_Some. intros [e [Ee ?]%Hfil]. rewrite Hst2 in Ee. by injection Ee as <-.
  - left. split; [|intros e; cbn [segments]; rewrite Hfil, Hst2; done]. intros s u Hin Hr. specialize (Hholds u).
    unfold group_holds, lookup_user in Hholds. rewrite E in Hholds. by apply (Hholds s).
Qed.

(** C24: aggregation of a non-empty queue of samples.  For a store whose times
    are not near the ends of the 64-bit range and whose positions fit fixed
    coordinates, aggregation succeeds and empties the queue.  Of every
    geometry, either no recent sample has its nearest road on it, and it keeps
    its data while that is not older than the limit; or it has, unless that is
    too old, the averages in double precision of the positions, speeds and
    bearings of the newest such sample of every user, with the factor of the
    average speed, the newest time and the number of users. *)
Theorem aggregate_pending st stale now_ms now_ms' :
  0 <= stale < 2 ^ 31 -> sane_store st -> sane_time now_ms' -> pending_samples st <> [] ->
  exists st', AggregatePendingTrafficSamples facade iterate st stale now_ms now_ms' = Some st' /\
    pending_samples st' = [] /\ stale_seconds st' = stale_seconds st /\
    forall g, untouched st st' now_ms now_ms' stale g \/ refreshed st st' now_ms now_ms' stale g.
Proof using Hiterate. apply aggregate_ok. Qed.

(** What aggregation leaves of the store, when there may be no samples. *)
Definition aggregated (st st' : LiveDataStore) (now_ms now_ms' : Z) : Prop := forall g,
  (pending_samples st = [] /\ segments st' !! g = segments st !! g) \/
  untouched st st' now_ms now_ms' (stale_seconds st) g \/ refreshed st st' now_ms now_ms' (stale_seconds st) g.

Lemma aggregation_defined st now_ms now_ms' : 0 <= stale_seconds st < 2 ^ 31 -> sane_store st -> sane_time now_ms' ->
  exists st', AggregatePendingTrafficSamples facade iterate st (stale_seconds st) now_ms now_ms' = Some st' /\ aggregated st st' now_ms now_ms'.
Proof using Hiterate.
  intros Hstale Hst Hnow. destruct (decide (pending_samples st = [])) as [Ep|Ep].
  - unfold AggregatePendingTrafficSamples, takePendingSamples. rewrite Ep. eexists. split; [done|]. intros g. by left.
  - destruct (aggregate_ok st (stale_seconds st) now_ms now_ms' Hstale Hst Hnow Ep) as (st' & E & _ & _ & Hg).
    exists st'. split; [done|]. intros g. right. apply Hg.
Qed.
End aggregation.

(** ** Reception *)

(** What a packet has to satisfy, on its decoded values; a comparison with NaN
    is false, and a time in the future is never too old. *)
Record valid_packet (u : TrafficUpdater) (now_ms : Z) (pkt : TrafficPacketMsg) : Prop := {
  vp_slow : SFltb (single_of_bits (speed_kmh pkt)) (u_min_speed_kmh u) = false;
  vp_fast : SFltb (double_of_Z 300) (single_of_bits (speed_kmh pkt)) = false;
  vp_south : SFltb (double_of_bits (latitude pkt)) (double_of_Z (-90)) = false;
  vp_north : SFltb (double_of_Z 90) (double_of_bits (latitude pkt)) = false;
  vp_west : SFltb (double_of_bits (longitude pkt)) (double_of_Z (-180)) = false;
  vp_east : SFltb (double_of_Z 180) (double_of_bits (longitude pkt)) = false;
  vp_age : timestamp_ms pkt <= 0 \/ now_ms - timestamp_ms pkt <= u_stale_seconds u * 1000
}.

(** The sample of a packet received at [now_ms]. *)
Record sample_of (now_ms : Z) (pkt : TrafficPacketMsg) (s : TrafficSample) : Prop := {
  so_user : s_user_id s = user_id pkt;
  so_latitude : s_latitude s = double_of_bits (latitude pkt);
  so_longitude : s_longitude s = double_of_bits (longitude pkt);
  so_speed : s_speed_kmh s = single_of_bits (speed_kmh pkt);
  so_bearing : s_bearing_deg s = single_of_bits (bearing_deg pkt);
  so_time : 0 < timestamp_ms pkt -> s_timestamp_ms s = timestamp_ms pkt;
  so_clock : timestamp_ms pkt <= 0 -> s_timestamp_ms s = now_ms
}.

(** The samples that a batch adds to the queue, in the order of its packets. *)
Inductive queued (u : TrafficUpdater) : (nat -> Z) -> list TrafficPacketMsg -> list TrafficSample -> Prop :=
  | queued_nil clock : queued u clock [] []
  | queued_valid clock p ps s l : valid_packet u (clock O) p -> sample_of (clock O) p s ->
      queued u (fun i => clock (S i)) ps l -> queued u clock (p :: ps) (s :: l)
  | queued_invalid clock p ps l : ~ valid_packet u (clock O) p -> queued u (fun i => clock (S i)) ps l -> queued u clock (p :: ps) l.

(** The sample of a packet that passes the checks. *)
Definition accepted (u : TrafficUpdater) (now_ms : Z) (pkt : TrafficPacketMsg) : option TrafficSample :=
  let speed := single_of_bits (speed_kmh pkt) in
  let lat := double_of_bits (latitude pkt) in
  let lon := double_of_bits (longitude pkt) in
  if invalid_packet u speed lat lon then None
  else if (0 <? timestamp_ms pkt) && (max_age_ms (u_stale_seconds u) <? now_ms - timestamp_ms pkt) then None
  else Some (mkSample (user_id pkt) lat lon speed (single_of_bits (bearing_deg pkt))
               (if 0 <? timestamp_ms pkt then timestamp_ms pkt else now_ms)).

Definition add_samples (st : LiveDataStore) (l : list TrafficSample) : LiveDataStore :=
  mkStore (segments st) (pending_samples st ++ l) (stale_seconds st).

Lemma processPacket_accepted u now_ms pkt st :
  0 <= now_ms < 2 ^ 63 -> packet_ok pkt ->
  processPacket u now_ms pkt st = Some (add_samples st (option_list (accepted u now_ms pkt))).
Proof.
  intros Hnow (_ & _ & _ & _ & _ & Hts). unfold processPacket, accepted, add_samples.
  assert (Some st = Some (mkStore (segments st) (pending_samples st ++ []) (stale_seconds st))) as Hst
    by (rewrite app_nil_r; by destruct st).
  destruct (invalid_packet _ _ _ _); [exact Hst|].
  destruct (Z.ltb_spec 0 (timestamp_ms pkt)).
  - unfold checked_int64, checked. replace ((_ <=? _) && (_ <=? _)) with true by lia.
    cbn [mbind option_bind]. destruct (_ <? _); simpl; [exact Hst|done].
  - cbn [mbind option_bind]. done.
Qed.

Lemma accepted_spec u now_ms pkt :
  match accepted u now_ms pkt with
  | Some s => valid_packet u now_ms pkt /\ sample_of now_ms pkt s
  | None => ~ valid_packet u now_ms pkt
  end.
Proof.
  unfold accepted, invalid_packet. change (SFopp D90) with (double_of_Z (-90)). change (SFopp D180) with (double_of_Z (-180)).
  unfold D300, D90, D180, max_age_ms. set (bad := _ || _ || _ || _). destruct bad eqn:Eb.
  { intros [H1 H2 H3 H4 H5 H6 _]. unfold bad in Eb. by rewrite H1, H2, H3, H4, H5, H6 in Eb. }
  unfold bad in Eb. rewrite !orb_false_iff in Eb. destruct Eb as [[[H1 H2] [H3 H4]] [H5 H6]].
  destruct (Z.ltb_spec 0 (timestamp_ms pkt)) as [Ht|Ht]; cbn [andb].
  - destruct (Z.ltb_spec (u_stale_seconds u * 1000) (now_ms - timestamp_ms pkt)).
    + intros [_ _ _ _ _ _ Ha]. lia.
    + split; [split; try done; lia|split; try done; simpl; lia].
  - split; [split; try done; lia|split; try done; simpl; lia].
Qed.

(** The samples accepted from a batch. *)
Definition accepted_batch (u : TrafficUpdater) (clock : nat -> Z) (ps : list TrafficPacketMsg) : list TrafficSample :=
  concat (imap (fun i p => option_list (accepted u (clock i) p)) ps).

Lemma processPackets_accepted u clock ps st :
  (forall i, 0 <= clock i < 2 ^ 63) -> Forall packet_ok ps ->
  processPackets u clock ps st = Some (add_samples st (accepted_batch u clock ps)).
Proof.
  intros Hclock Hps. revert clock Hclock st.
  induction Hps as [|p ps Hp Hps IH]; intros clock Hclock st; cbn [processPackets].
  - unfold add_samples, accepted_batch. cbn. rewrite app_nil_r. by destruct st.
  - rewrite processPacket_accepted by done. cbn [mbind option_bind]. rewrite IH by done.
    unfold add_samples, accepted_batch. cbn. by rewrite <- app_assoc.
Qed.

Lemma accepted_queued u clock ps : queued u clock ps (accepted_batch u clock ps).
Proof.
  revert clock. induction ps as [|p ps IH]; intros clock; [constructor|]. pose proof (accepted_spec u (clock O) p) as Ha.
  change (accepted_batch u clock (p :: ps)) with (option_list (accepted u (clock O) p) ++ accepted_batch u (fun i => clock (S i)) ps).
  destruct (accepted u (clock O) p) as [s|]; cbn [option_list app]; [destruct Ha; by constructor|by apply queued_invalid].
Qed.


(** ** The response *)

(** A segment is shown when there is no box, or a vertex of its geometry lies in the box. *)
Definition shown (facade : Facade) (p : TrafficParameters) (g : Z) : Prop :=
  forall sw ne, south_west p = Some sw -> north_east p = Some ne ->
  exists node lon lat, node ∈ GetUncompressedForwardGeometry facade (wrap 32 g) /\ GetCoordinateOfNode facade node = (lon, lat) /\
    sw.1 <= lon <= ne.1 /\ sw.2 <= lat <= ne.2.

(** Green from 50 km/h on, yellow from 30, orange from 15, and red. *)
Definition colour_of (speed : double) (colour : string) : Prop :=
  (SFleb (double_of_Z 50) speed = true /\ colour = "#22c55e"%string) \/
  (SFleb (double_of_Z 50) speed = false /\ SFleb (double_of_Z 30) speed = true /\ colour = "#eab308"%string) \/
  (SFleb (double_of_Z 30) speed = false /\ SFleb (double_of_Z 50) speed = false /\ SFleb (double_of_Z 15) speed = true /\ colour = "#f97316"%string) \/
  (SFleb (double_of_Z 15) speed = false /\ SFleb (double_of_Z 30) speed = false /\ SFleb (double_of_Z 50) speed = false /\ colour = "#ef4444"%string).

Record entry_of (facade : Facade) (p : TrafficParameters) (g : Z) (e : TrafficEdgeData) (x : SegmentEntry) : Prop := {
  en_geometry_id : r_geometry_id x = g;
  en_speed : r_speed_kmh x = e_speed_kmh e;
  en_average : r_avg_speed_kmh x = e_speed_kmh e;
  en_count : r_sample_count x = e_sample_count e;
  en_factor : r_weight_factor x = e_weight_factor e;
  en_colour : colour_of (e_speed_kmh e) (r_color x);
  en_time : r_timestamp_ms x = e_timestamp_ms e mod 2 ^ 64;
  en_coordinates : r_geometry x = (geometries p, GetCoordinateOfNode facade <$> GetUncompressedForwardGeometry facade (wrap 32 g))
}.

Lemma segment_entry_ok facade p g e : entry_of facade p g e (segment_entry facade p g e).
Proof.
  split; try done. unfold colour_of, segment_entry, SpeedToColor. cbn [r_color]. destruct (SFleb (double_of_Z 50) (e_speed_kmh e)); [left; by split|right].
  destruct (SFleb (double_of_Z 30) (e_speed_kmh e)); [left; by split_and!|right]. destruct (SFleb (double_of_Z 15) (e_speed_kmh e)); [left; by split_and!|right; by split_and!].
Qed.

Lemma entry_of_unique facade p g e x : entry_of facade p g e x -> x = segment_entry facade p g e.
Proof.
  intros [H1 H2 H3 H4 H5 H6 H7 H8]. destruct x. simpl in *. unfold segment_entry. subst. f_equal.
  unfold SpeedToColor. destruct H6 as [[-> ->]|[(-> & -> & ->)|[(-> & -> & -> & ->)|(-> & -> & -> & ->)]]]; done.
Qed.

Lemma segmentInBBox_shown facade p g e : GetUncompressedForwardGeometry facade (wrap 32 g) <> [] ->
  exists b, segmentInBBox facade p g e = Some b /\ (b = true <-> shown facade p g).
Proof.
  intros Hne. unfold segmentInBBox, shown, buildCoordinates. destruct (south_west p) as [sw|], (north_east p) as [ne|].
  - assert (GetCoordinateOfNode facade <$> GetUncompressedForwardGeometry facade (wrap 32 g) <> []) as Hc by (by intros ?%fmap_nil_inv).
    exists (existsb (in_box sw ne) (GetCoordinateOfNode facade <$> GetUncompressedForwardGeometry facade (wrap 32 g))).
    split; [by destruct (GetCoordinateOfNode facade <$> _)|]. rewrite existsb_exists. unfold in_box. split.
    + intros ([lon lat] & Hin & Hb) sw' ne' [= <-] [= <-]. apply list_elem_of_In, list_elem_of_fmap in Hin as (node & E & Hnode).
      exists node, lon, lat. split; [done|]. split; [done|]. simpl in Hb. lia.
    + intros H. destruct (H sw ne eq_refl eq_refl) as (node & lon & lat & Hnode & E & Hlon & Hlat). exists (lon, lat).
      split; [apply list_elem_of_In, list_elem_of_fmap; by exists node|]. simpl. lia.
  - exists true. by split; [|split].
  - exists true. by split; [|split].
  - exists true. by split; [|split].
Qed.

Lemma response_segments_ok facade p all : (forall g, GetUncompressedForwardGeometry facade (wrap 32 g) <> []) -> NoDup all.*1 ->
  exists entries, response_segments facade p all = Some entries /\ NoDup (r_geometry_id <$> entries) /\
    forall x, x ∈ entries <-> exists g e, (g, e) ∈ all /\ e_source e = "live"%string /\ shown facade p g /\ entry_of facade p g e x.
Proof.
  intros Hne. induction all as [|[g e] all IH]; intros Hnd.
  { exists []. split; [done|]. split; [constructor|]. intros x. split; [by intros ?%elem_of_nil|by intros (? & ? & ?%elem_of_nil & _)]. }
  apply NoDup_cons in Hnd as [Hg Hnd]. destruct (IH Hnd) as (entries & E & Hnd' & Hx). cbn [response_segments].
  assert (~ (e_source e = "live"%string /\ shown facade p g) ->
    forall x, (exists g' e', (g', e') ∈ (g, e) :: all /\ e_source e' = "live"%string /\ shown facade p g' /\ entry_of facade p g' e' x) <-> x ∈ entries) as Hskip.
  { intros Hno x. rewrite Hx. split.
    - intros (g' & e' & [[= -> ->]|Hin]%elem_of_cons & H1 & H2 & H3); [tauto|]. by exists g', e'.
    - intros (g' & e' & Hin & H). exists g', e'. split; [by right|done]. }
  unfold is_live. case_bool_decide as Hl; cbn [negb]; [|exists entries; split; [done|]; split; [done|]; intros x; symmetry; apply Hskip; tauto].
  destruct (segmentInBBox_shown facade p g e (Hne g)) as (b & -> & Hb). cbn [mbind option_bind].
  destruct b; cbn [negb]; [|exists entries; split; [done|]; split; [done|]; intros x; symmetry; apply Hskip; intros [_ Hs]; by apply Hb in Hs].
  assert (exists c cs, buildCoordinates facade g = c :: cs) as (c & cs & ->).
  { unfold buildCoordinates. specialize (Hne g). destruct (GetUncompressedForwardGeometry facade (wrap 32 g)); [done|]. by eexists _, _. }
  rewrite E. cbn [mbind option_bind]. exists (segment_entry facade p g e :: entries). split; [done|]. split.
  - cbn [fmap list_fmap]. apply NoDup_cons. split; [|done]. intros (x & Ex & Hin)%list_elem_of_fmap. apply Hx in Hin as (g' & e' & Hin & _ & _ & Hent).
    apply Hg. rewrite (en_geometry_id _ _ _ _ _ Hent) in Ex. simpl in Ex. subst g'. by apply (list_elem_of_fmap_2 fst) in Hin.
  - intros x. rewrite elem_of_cons, Hx. split.
    + intros [->|(g' & e' & Hin & H)]; [exists g, e; split; [left|]; split; [done|]; split; [by apply Hb|apply segment_entry_ok]|].
      exists g', e'. split; [by right|done].
    + intros (g' & e' & [[= -> ->]|Hin]%elem_of_cons & H1 & H2 & H3); [left; by apply entry_of_unique|right]. by exists g', e'.
Qed.

(** C26: the traffic response.  On a facade whose geometries have nodes and a
    store as in the aggregation, [MakeResponse] succeeds: it aggregates the
    pending samples, and lists every live geometry of the resulting store
    once, provided that there is no box or a vertex of the geometry lies in
    it, with its speed, count, factor, time, the colour of its speed and the
    coordinates of its nodes. *)
Theorem response_exact facade iterate p st now_ms now_ms' (Hit : forall m, iterate m ≡ₚ map_to_list m)
    (Hgeo : forall g, GetUncompressedForwardGeometry facade (wrap 32 g) <> [])
    (Hstale : 0 <= stale_seconds st < 2 ^ 31) (Hst : sane_store st) (Hnow : sane_time now_ms') :
  exists st' entries, MakeResponse facade iterate p st now_ms now_ms' = Some (st', entries) /\ aggregated facade st st' now_ms now_ms' /\
    NoDup (r_geometry_id <$> entries) /\
    forall x, x ∈ entries <-> exists g e, segments st' !! g = Some e /\ e_source e = "live"%string /\ shown facade p g /\ entry_of facade p g e x.
Proof.
  destruct (aggregation_defined facade iterate Hit st now_ms now_ms' Hstale Hst Hnow) as (st' & E & Hst').
  destruct (response_segments_ok facade p (getAllSegments st') Hgeo (NoDup_fst_map_to_list _)) as (entries & Er & Hnd & Hx).
  exists st', entries. unfold MakeResponse. rewrite E. cbn [mbind option_bind]. rewrite Er. split; [done|]. split; [done|]. split; [done|].
  intros x. rewrite Hx. unfold getAllSegments. by setoid_rewrite elem_of_map_to_list.
Qed.

(** ** Malformed input *)

Lemma dadd_nan_l x : dadd S754_nan x = S754_nan.
Proof. done. Qed.

Lemma dadd_nan_r x : dadd x S754_nan = S754_nan.
Proof. by destruct x. Qed.

Lemma sum_samples_nan f us : (exists u, u ∈ us /\ f u.2 = S754_nan) -> sum_samples f us = S754_nan.
Proof.
  unfold sum_samples. generalize (S754_zero false) as acc.
  induction us as [|v us IH]; intros acc (u & Hu & Hf); [by apply elem_of_nil in Hu|]. cbn.
  apply elem_of_cons in Hu as [->|Hu]; [|apply IH; by exists u].
  rewrite Hf, dadd_nan_r. clear. induction us as [|v us IH]; [done|]. cbn. apply IH.
Qed.

(** A packet with a NaN speed passes the checks, and one such sample makes the
    weight factor of its geometry NaN, so that the conversion of every scaled
    weight is undefined. *)
Theorem nan_speed_poisons u now_ms pkt :
  single_of_bits (speed_kmh pkt) = S754_nan ->
  (double_of_bits (latitude pkt) = S754_zero false /\ double_of_bits (longitude pkt) = S754_zero false) ->
  timestamp_ms pkt = 0 ->
  exists s, accepted u now_ms pkt = Some s /\ s_speed_kmh s = S754_nan /\
    forall iterate (users : user_map) uid, (forall m, iterate m ≡ₚ map_to_list m) -> users !! uid = Some s ->
      e_weight_factor (summarize iterate users) = S754_nan /\
      forall w, scale_weight (e_weight_factor (summarize iterate users)) w = None.
Proof.
  intros Hs [Hla Hlo] Ht. unfold accepted. rewrite Hs, Hla, Hlo, Ht.
  assert (invalid_packet u S754_nan (S754_zero false) (S754_zero false) = false) as -> by reflexivity.
  change (0 <? 0) with false. cbn [andb]. eexists. split; [reflexivity|]. split; [reflexivity|].
  intros iterate users uid Hit Hu.
  assert (e_weight_factor (summarize iterate users) = S754_nan) as ->.
  { cbn. rewrite sum_samples_nan; [done|]. eexists (uid, _). rewrite Hit, elem_of_map_to_list. split; [exact Hu|done]. }
  split; [done|]. intros w. unfold scale_weight, dmul. by destruct (double_of_Z w).
Qed.

(** A timestamp far in the future passes the check of its age; adding the
    limit to it in the aggregation then overflows. *)
Theorem future_timestamp_overflows facade u now_ms pkt stale m :
  invalid_packet u (single_of_bits (speed_kmh pkt)) (double_of_bits (latitude pkt)) (double_of_bits (longitude pkt)) = false ->
  timestamp_ms pkt = 2 ^ 63 - 1 -> 0 <= now_ms < 2 ^ 63 -> 0 <= u_stale_seconds u -> 0 < stale ->
  exists s, accepted u now_ms pkt = Some s /\ group_samples facade now_ms stale [s] m = None.
Proof.
  intros Hv Ht Hnow Hu Hst. unfold accepted. rewrite Hv, Ht. unfold max_age_ms.
  replace ((0 <? 2 ^ 63 - 1) && (u_stale_seconds u * 1000 <? now_ms - (2 ^ 63 - 1))) with false by lia.
  eexists. split; [done|]. cbn [group_samples s_timestamp_ms]. unfold checked_int64, checked, max_age_ms.
  change (0 <? 2 ^ 63 - 1) with true. cbv iota.
  by replace ((_ <=? _) && (_ <=? _)) with false by lia.
Qed.

(** Without a pending sample nothing is removed, however old the segments are. *)
Theorem stale_segments_survive facade iterate st stale now_ms now_ms' g :
  pending_samples st = [] ->
  exists st', AggregatePendingTrafficSamples facade iterate st stale now_ms now_ms' = Some st' /\
    get st' g = get st g.
Proof.
  intros H. unfold AggregatePendingTrafficSamples, takePendingSamples. rewrite H. by eexists.
Qed.

(** ** Witnesses *)

Definition example_facade : Facade :=
  mkFacade (fun lon _ => if 0 <=? lon then Some (lon, true) else None) (fun id => id / 1000000)
    (fun g => [g; g + 1]) (fun n => (n * 10, n * 10)).

(** A packet of user [u] at longitude 28.86, latitude 47.01 with 25 km/h. *)
Definition moving_packet (u t : Z) : TrafficPacketMsg :=
  mkPacket u 4631671561134329364 4628812087218988483 1103626240 0 t.

Definition example_updater : TrafficUpdater := mkUpdater 120 (double_of_Z 1) 0 0 0.


Definition example_samples : list TrafficSample :=
  omap (accepted example_updater 1000000) [moving_packet 1 999000; moving_packet 2 999500; moving_packet 1 999900].

Lemma aggregate_pending_witness :
  exists st', AggregatePendingTrafficSamples example_facade map_to_list (mkStore ∅ example_samples 120) 120 1000000 1000000 = Some st' /\
    refreshed example_facade (mkStore ∅ example_samples 120) st' 1000000 1000000 120 28 /\
    e_sample_count <$> get st' 28 = Some 2 /\ e_speed_kmh <$> get st' 28 = Some (double_of_Z 25).
Proof.
  destruct (aggregate_pending example_facade map_to_list (fun m => reflexivity _) (mkStore ∅ example_samples 120) 120 1000000 1000000)
    as (st' & H & _ & _ & Hg).
  - lia.
  - split; [|apply map_Forall_empty]. apply (bool_decide_unpack _). vm_compute. exact I.
  - unfold sane_time. lia.
  - by vm_compute.
  - exists st'. split; [exact H|]. destruct (Hg 28) as [[_ Hu]|Hr].
    + vm_compute in H. injection H as <-. exfalso. destruct (proj1 (Hu _) eq_refl) as [Hn _]. done.
    + split; [exact Hr|]. vm_compute in H. injection H as <-. by vm_compute.
Defined.

Lemma response_exact_witness :
  exists st' entries, MakeResponse example_facade map_to_list (mkTrafficParameters (Some (0, 0)) (Some (1000, 1000)) GeoJSON)
      (mkStore ∅ example_samples 120) 1000000 1000000 = Some (st', entries) /\
    (r_geometry_id <$> entries) = [28] /\ (r_color <$> entries) = ["#f97316"%string] /\ NoDup (r_geometry_id <$> entries).
Proof.
  destruct (response_exact example_facade map_to_list (mkTrafficParameters (Some (0, 0)) (Some (1000, 1000)) GeoJSON) (mkStore ∅ example_samples 120) 1000000 1000000
    (fun m => reflexivity _)) as (st' & entries & E & _ & Hnd & _).
  - done.
  - done.
  - split; [|apply map_Forall_empty]. apply (bool_decide_unpack _). vm_compute. exact I.
  - unfold sane_time. lia.
  - exists st', entries. split; [exact E|]. vm_compute in E. injection E as <- <-. split; [reflexivity|]. split; [reflexivity|exact Hnd].
Defined.
