(* ===== verification/Doubles.v ===== *)
(** * Integers in double precision

    [MakePhantomNode] takes a part of a weight as the product of a double for
    the weight and a ratio between 0 and 1, cut off to an integer, and polylines
    take a tenth of a coordinate, rounded to an integer; live traffic scales
    weights by a factor up to 10, which comes from an average of speeds.  The theorems
    say that rounding does not carry a number past a short fraction, because
    such fractions are doubles, and that sums and products of integers are
    exact. *)
From S2P Require Import Prelude.
From S2P Require Import LiveTraffic.
Import SpecFloat.

(** Conversion of a double to [std::int32_t]: the fraction is dropped; the
    value must fit. *)
Definition trunc_magnitude (m : positive) (e : Z) : Z := if 0 <=? e then Z.shiftl (Zpos m) e else Z.shiftr (Zpos m) (- e).

Definition trunc_to_Z (x : double) : option Z :=
  match x with
  | S754_zero _ => Some 0
  | S754_finite s m e => Some (if s then - trunc_magnitude m e else trunc_magnitude m e)
  | _ => None
  end.

Definition to_int32 (x : double) : option Z := z ← trunc_to_Z x; checked_int32 z.

(** [std::min(1.0, std::max(0.0, ratio))] *)
Definition clamp_ratio (ratio : double) : double :=
  let r := if SFltb (S754_zero false) ratio then ratio else S754_zero false in
  if SFltb r (double_of_Z 1) then r else double_of_Z 1.

(** ** Digits *)

Lemma digits2_pos_spec p : 2 ^ (Zpos (digits2_pos p) - 1) <= Zpos p < 2 ^ Zpos (digits2_pos p).
Proof.
  induction p as [p IH|p IH|]; cbn [digits2_pos]; [..|by vm_compute];
    rewrite Pos2Z.inj_succ; replace (Z.succ (Zpos (digits2_pos p)) - 1) with (Z.succ (Zpos (digits2_pos p) - 1)) by lia;
    rewrite !Z.pow_succ_r by lia; lia.
Qed.

Lemma digits2_pos_le p n : Zpos p < 2 ^ n -> Zpos (digits2_pos p) <= n.
Proof.
  intros Hp. destruct (digits2_pos_spec p) as [Hd _]. assert (0 <= n) by (destruct (decide (0 <= n)); [done|]; rewrite Z.pow_neg_r in Hp; lia).
  assert (2 ^ (Zpos (digits2_pos p) - 1) < 2 ^ n) as Hlt%Z.pow_lt_mono_r_iff by lia; lia.
Qed.

Lemma digits2_le m n : 0 <= m < 2 ^ n -> 0 <= n -> Zdigits2 m <= n.
Proof. destruct m as [|p|p]; cbn [Zdigits2]; [lia| |lia]. intros [_ Hp] _. by apply digits2_pos_le. Qed.

Lemma digits2_pos_eq p n : 2 ^ (n - 1) <= Zpos p < 2 ^ n -> Zpos (digits2_pos p) = n.
Proof.
  intros [H1 H2]. pose proof (digits2_pos_le p n H2). destruct (digits2_pos_spec p) as [_ Hd].
  assert (2 ^ (n - 1) < 2 ^ Zpos (digits2_pos p)) as Hlt%Z.pow_lt_mono_r_iff by lia; lia.
Qed.

(** ** Shifting right *)

(** The bits that are shifted out are remembered, whatever they were. *)
Lemma shr_1_spec m r s : 0 <= m -> let t := shr_1 (Build_shr_record m r s) in
  shr_m t = m / 2 /\ (shr_r t || shr_s t = negb (m mod 2 =? 0) || (r || s)).
Proof.
  intros Hm. destruct m as [|[p|p|]|p]; [by split..| | | |lia]; simpl.
  - split; [|rewrite Pos2Z.inj_xI, Z.add_comm, Z.mul_comm, Z.mod_add by lia; done]. apply (Z.div_unique _ _ _ 1); lia.
  - split; [|rewrite Pos2Z.inj_xO, Z.mul_comm, Z.mod_mul by lia; done]. apply (Z.div_unique _ _ _ 0); lia.
  - done.
Qed.

Lemma shr_iter_spec (p : positive) m : 0 <= m -> forall t0, shr_m t0 = m ->
  let t := iter_pos shr_1 p t0 in
  shr_m t = m / 2 ^ Zpos p /\ shr_r t || shr_s t = negb (m mod 2 ^ Zpos p =? 0) || (shr_r t0 || shr_s t0).
Proof.
  revert m. assert (forall (p : positive) (f : shr_record -> shr_record) x, iter_pos f p x = Pos.iter f x p) as Hiter.
  { clear. intros p f x. revert x. induction p as [p IH|p IH|]; intros x; cbn [iter_pos Pos.iter]; [..|done].
    - rewrite !IH. by rewrite <- Pos.iter_swap, <- Pos.iter_swap.
    - by rewrite !IH. }
  intros m Hm t0 Ht. cbv zeta. rewrite Hiter. induction p as [|p IH] using Pos.peano_ind.
  - destruct t0 as [m0 r s]. simpl in Ht. subst m0. exact (shr_1_spec m r s Hm).
  - rewrite Pos.iter_succ. destruct (Pos.iter shr_1 t0 p) as [m1 r1 s1]. simpl in IH. destruct IH as [-> Hrs].
    assert (0 < 2 ^ Zpos p) as Hpos by (apply Z.pow_pos_nonneg; lia).
    destruct (shr_1_spec (m / 2 ^ Zpos p) r1 s1) as [E1 E2]; [by apply Z.div_pos|]. rewrite E1, E2, Hrs, Pos2Z.inj_succ, Z.pow_succ_r by lia.
    rewrite Z.div_div, (Z.mul_comm (2 ^ Zpos p)) by lia. split; [done|]. rewrite orb_assoc. f_equal.
    rewrite (Z.mul_comm 2), Z.rem_mul_r by lia. pose proof (Z.mod_pos_bound m (2 ^ Zpos p) Hpos). pose proof (Z.mod_pos_bound (m / 2 ^ Zpos p) 2 ltac:(lia)).
    destruct (Z.eqb_spec (m mod 2 ^ Zpos p) 0), (Z.eqb_spec (m / 2 ^ Zpos p mod 2) 0), (Z.eqb_spec (m mod 2 ^ Zpos p + 2 ^ Zpos p * ((m / 2 ^ Zpos p) mod 2)) 0); try done; nia.
Qed.

(** ** Rounding between fractions

    Fractions with [g] binary digits after the point and a numerator below 2^53
    are doubles, so rounding does not carry a number past them. *)

Section within.
Context (lo hi g : Z) (Hlo : 0 <= lo <= hi) (Hhi : hi < 2 ^ 53) (Hg : 0 <= g <= 1000).

(** The number [m * 2 ^ e] has at least [g] fraction digits and lies between
    [lo / 2 ^ g] and [hi / 2 ^ g]. *)
Definition within (m e : Z) : Prop := e <= - g /\ lo * 2 ^ (- g - e) <= m <= hi * 2 ^ (- g - e).

Lemma within_nonneg m e : within m e -> 0 <= m.
Proof using Hlo. intros (He & Hm & _). assert (0 < 2 ^ (- g - e)) by (apply Z.pow_pos_nonneg; lia). nia. Qed.

Lemma within_digits m e : within m e -> fexp 53 1024 (Zdigits2 m + e) <= - g.
Proof using Hlo Hhi Hg.
  intros Hw. pose proof (within_nonneg m e Hw) as H0. destruct Hw as (He & _ & Hm). unfold fexp, emin. assert (Zdigits2 m <= 53 + (- g - e)); [|lia].
  apply digits2_le; [|lia]. split; [done|]. rewrite Z.pow_add_r by lia. assert (0 < 2 ^ (- g - e)) by (apply Z.pow_pos_nonneg; lia). nia.
Qed.

(** Rounding does not pass the bounds, which are multiples of the last digit. *)
Lemma shr_fexp_within m e : within m e -> exists t e', shr_fexp 53 1024 m e loc_Exact = (t, e') /\ within (shr_m t) e' /\
  within (round_nearest_even (shr_m t) (loc_of_shr_record t)) e'.
Proof using Hlo Hhi Hg.
  intros Hw. pose proof (within_digits m e Hw) as Hf. pose proof (within_nonneg m e Hw) as H0. destruct Hw as (He & Hl & Hm). unfold shr_fexp, shr.
  destruct (fexp 53 1024 (Zdigits2 m + e) - e) as [|p|p] eqn:En; [by eexists _, _..| |by eexists _, _].
  eexists _, _. split; [done|]. simpl shr_record_of_loc.
  destruct (shr_iter_spec p m H0 (Build_shr_record m false false) eq_refl) as [Em Ers]. simpl in Ers. rewrite orb_false_r in Ers.
  set (t := iter_pos shr_1 p {| shr_m := m; shr_r := false; shr_s := false |}) in *. rewrite Em.
  assert (0 < 2 ^ Zpos p) as Hp by (apply Z.pow_pos_nonneg; lia). set (k := 2 ^ (- g - (e + Zpos p))).
  assert (2 ^ (- g - e) = k * 2 ^ Zpos p) as Ek by (unfold k; rewrite <- Z.pow_add_r by lia; f_equal; lia).
  rewrite Ek, Z.mul_assoc in Hm, Hl. assert (lo * k <= m / 2 ^ Zpos p) as Hd0 by (apply Z.div_le_lower_bound; lia).
  assert (m / 2 ^ Zpos p <= hi * k) as Hd by (apply Z.div_le_upper_bound; lia).
  assert (m mod 2 ^ Zpos p <> 0 -> m / 2 ^ Zpos p < hi * k) as Hup.
  { intros Hne. pose proof (Z.div_mod m (2 ^ Zpos p) ltac:(lia)). pose proof (Z.mod_pos_bound m (2 ^ Zpos p) Hp). nia. }
  split; [split; [lia|by split]|]. split; [lia|]. fold k.
  assert (m / 2 ^ Zpos p <= round_nearest_even (m / 2 ^ Zpos p) (loc_of_shr_record t) <= m / 2 ^ Zpos p + 1) as Hr.
  { destruct t as [mt [] []]; simpl; try destruct (Z.even _); lia. }
  destruct (Z.eqb_spec (m mod 2 ^ Zpos p) 0) as [E|E]; [|specialize (Hup E); lia].
  by destruct t as [mt [] []].
Qed.

(** A double between the bounds. *)
Definition double_within (s : bool) (x : double) : Prop :=
  (x = S754_zero s /\ lo = 0) \/ exists m e, x = S754_finite s m e /\ within (Zpos m) e.

Lemma round_within s m e : within m e -> double_within s (binary_round_aux 53 1024 s m e loc_Exact).
Proof using Hlo Hhi Hg.
  intros Hb. unfold binary_round_aux. destruct (shr_fexp_within m e Hb) as (t & e' & -> & _ & Hb').
  destruct (shr_fexp_within _ e' Hb') as (t2 & e2 & -> & Hw & _). destruct (shr_m t2) as [|p|p] eqn:Ep.
  - left. split; [done|]. destruct Hw as (He & Hl & _). assert (0 < 2 ^ (- g - e2)) by (apply Z.pow_pos_nonneg; lia). nia.
  - right. destruct Hw as (He & Hw). rewrite (proj2 (Z.leb_le e2 (1024 - 53))) by lia. exists p, e2. split; [done|by split].
  - pose proof (within_nonneg _ _ Hw). lia.
Qed.
End within.

(** Rounding below an integer. *)
Lemma round_below w m e : 0 <= w < 2 ^ 53 -> e <= 0 -> 0 <= m <= w * 2 ^ (- e) ->
  exists z, trunc_to_Z (binary_round_aux 53 1024 false m e loc_Exact) = Some z /\ 0 <= z <= w.
Proof.
  intros Hw He Hm. destruct (round_within 0 w 0 ltac:(lia) ltac:(lia) ltac:(lia) false m e) as [[-> _]|(p & e2 & -> & He2 & _ & Hp)].
  { split; [lia|]. replace (- 0 - e) with (- e) by lia. lia. }
  { exists 0. split; [done|lia]. }
  cbn [trunc_to_Z]. eexists. split; [done|]. unfold trunc_magnitude. replace (- 0 - e2) with (- e2) in Hp by lia.
  destruct (Z.leb_spec 0 e2); [assert (e2 = 0) as -> by lia; rewrite Z.shiftl_0_r; change (2 ^ (- 0)) with 1 in Hp; lia|].
  assert (0 < 2 ^ (- e2)) by (apply Z.pow_pos_nonneg; lia). rewrite Z.shiftr_div_pow2 by lia. split; [apply Z.div_pos; lia|].
  apply Z.div_le_upper_bound; [done|]. lia.
Qed.

(** ** The product with a ratio *)

Lemma shift_left_value (p d : positive) : Zpos (Pos.iter xO p d) = Zpos p * 2 ^ Zpos d.
Proof.
  induction d as [|d IH] using Pos.peano_ind; [simpl; lia|]. rewrite Pos.iter_succ, Pos2Z.inj_succ, Z.pow_succ_r by lia. simpl. lia.
Qed.

(** Integers below 2^53 are doubles. *)
Lemma binary_round_small s p : Zpos p < 2 ^ 53 -> exists m e, binary_round 53 1024 s p 0 = S754_finite s m e /\ e <= 0 /\ Zpos m = Zpos p * 2 ^ (- e).
Proof.
  intros Hp. unfold binary_round. rewrite Z.add_0_r.
  pose proof (digits2_pos_le p 53 Hp) as Hd. destruct (digits2_pos_spec p) as [D1 D2]. set (n := Zpos (digits2_pos p)) in *.
  assert (fexp 53 1024 n = n - 53) as Ef by (unfold fexp, emin; lia). rewrite Ef.
  assert (exists mz ez, shl_align p 0 (n - 53) = (mz, ez) /\ ez = n - 53 /\ Zpos mz = Zpos p * 2 ^ (- ez)) as (mz & ez & -> & -> & Hmz).
  { unfold shl_align. rewrite Z.sub_0_r. destruct (n - 53) as [|d|d] eqn:E; [exists p, 0; split_and!; [done..|simpl; lia]|lia|].
    exists (Pos.iter xO p d), (Z.neg d). split_and!; [done..|]. by rewrite shift_left_value. }
  assert (Zpos (digits2_pos mz) = 53) as Edig.
  { apply digits2_pos_eq. rewrite Hmz. assert (0 < 2 ^ (- (n - 53))) by (apply Z.pow_pos_nonneg; lia).
    assert (2 ^ (53 - 1) = 2 ^ (n - 1) * 2 ^ (- (n - 53))) as -> by (rewrite <- Z.pow_add_r by lia; f_equal; lia).
    assert (2 ^ 53 = 2 ^ n * 2 ^ (- (n - 53))) as -> by (rewrite <- Z.pow_add_r by lia; f_equal; lia). nia. }
  assert (shr_fexp 53 1024 (Zpos mz) (n - 53) loc_Exact = (Build_shr_record (Zpos mz) false false, n - 53)) as Eshr.
  { unfold shr_fexp. cbn [Zdigits2]. rewrite Edig. replace (53 + (n - 53)) with n by lia. rewrite Ef, Z.sub_diag. done. }
  exists mz, (n - 53). split; [|split; [lia|done]]. unfold binary_round_aux. rewrite Eshr. simpl shr_m. simpl loc_of_shr_record. cbn [round_nearest_even].
  rewrite Eshr. simpl shr_m. by rewrite (proj2 (Z.leb_le (n - 53) (1024 - 53))) by lia.
Qed.

Lemma double_of_small w : 0 < w < 2 ^ 53 -> exists m e, double_of_Z w = S754_finite false m e /\ e <= 0 /\ Zpos m = w * 2 ^ (- e).
Proof. destruct w as [|p|p]; [lia| |lia]. intros [_ Hp]. by apply binary_round_small. Qed.

Lemma compare_cont_lt m c : match Pos.compare_cont Eq m c with Lt => true | _ => false end = true -> (m < c)%positive.
Proof. change (Pos.compare_cont Eq m c) with (Pos.compare m c). by destruct (Pos.compare_spec m c). Qed.

(** A clamped ratio: zero, or a fraction not above 1. *)
Lemma clamp_ratio_spec r : valid_binary 53 1024 r = true ->
  clamp_ratio r = S754_zero false \/ exists m e, clamp_ratio r = S754_finite false m e /\ e <= 0 /\ Zpos m <= 2 ^ (- e).
Proof.
  intros Hv. assert (double_of_Z 1 = S754_finite false 4503599627370496 (-52)) as E1 by by vm_compute.
  assert (exists m e, double_of_Z 1 = S754_finite false m e /\ e <= 0 /\ Zpos m <= 2 ^ (- e)) as Hone by (eexists _, _; split; [exact E1|]; split; [lia|by vm_compute]).
  unfold clamp_ratio. destruct r as [s|s| |s m e]; [by left|destruct s; [by left|by right]|by left|]. destruct s; [by left|].
  change (SFltb (S754_zero false) (S754_finite false m e)) with true. cbv iota. destruct (SFltb (S754_finite false m e) (double_of_Z 1)) eqn:E; [|by right].
  right. exists m, e. split; [done|]. rewrite E1 in E. unfold SFltb, SFcompare in E. destruct (Z.compare_spec e (-52)) as [->|He|He]; [| |done].
  - split; [lia|]. change (2 ^ (- -52)) with 4503599627370496. apply compare_cont_lt in E. by apply Pos2Z.pos_le_pos, Pos.lt_le_incl.
  - split; [lia|]. cbn [valid_binary] in Hv. unfold bounded, canonical_mantissa in Hv. apply andb_true_iff in Hv as [Hc%Z.eqb_eq _].
    unfold fexp, emin in Hc. destruct (digits2_pos_spec m) as [_ Hm]. etransitivity; [apply Z.lt_le_incl, Hm|]. apply Z.pow_le_mono_r; lia.
Qed.

(** The part of an integer is an integer between 0 and it. *)
Lemma integer_part w r : 0 <= w < 2 ^ 53 -> valid_binary 53 1024 r = true ->
  exists z, trunc_to_Z (dmul (double_of_Z w) (clamp_ratio r)) = Some z /\ 0 <= z <= w.
Proof.
  intros Hw Hr. destruct (decide (w = 0)) as [->|Hne].
  { exists 0. split; [|lia]. by destruct (clamp_ratio_spec r Hr) as [->|(m & e & -> & _)]. }
  destruct (double_of_small w) as (mw & ew & -> & Hew & Hmw); [lia|].
  destruct (clamp_ratio_spec r Hr) as [->|(m & e & -> & He & Hm)]; [exists 0; split; [done|lia]|].
  unfold dmul, SFmul. cbn [xorb]. apply (round_below w _ _ Hw); [lia|]. split; [lia|]. rewrite Pos2Z.inj_mul, Hmw.
  replace (- (ew + e)) with (- ew + - e) by lia. rewrite Z.pow_add_r by lia. assert (0 < 2 ^ (- ew)) by (apply Z.pow_pos_nonneg; lia). nia.
Qed.

Lemma integer_part_int32 w r : 0 <= w < 2 ^ 31 -> valid_binary 53 1024 r = true ->
  exists z, to_int32 (dmul (double_of_Z w) (clamp_ratio r)) = Some z /\ 0 <= z <= w.
Proof.
  intros Hw Hr. destruct (integer_part w r ltac:(lia) Hr) as (z & E & Hz). exists z. split; [|done]. unfold to_int32. rewrite E. cbn [mbind option_bind].
  unfold checked_int32, checked. rewrite (proj2 (Z.leb_le (- 2 ^ 31) z)), (proj2 (Z.leb_le z (2 ^ 31 - 1))) by lia. done.
Qed.

(** ** Whole numbers

    [integral x v]: the double [x] is the integer [v]; zero may have a sign. *)
Definition integral (x : double) (v : Z) : Prop :=
  match x with
  | S754_zero _ => v = 0
  | S754_finite s m e => e <= 0 /\ cond_Zopp s (Zpos m) = v * 2 ^ (- e)
  | _ => False
  end.

(** [std::round]: to the nearest integer, halves away from zero. *)
Definition dround (x : double) : double :=
  match x with
  | S754_finite s m e => binary_normalize 53 1024 (cond_Zopp s (round_magnitude m e)) 0 s
  | _ => x
  end.

Definition dsub (x y : double) : double := SFsub 53 1024 x y.

Lemma integral_normalize v szero : Z.abs v < 2 ^ 53 -> integral (binary_normalize 53 1024 v 0 szero) v.
Proof.
  intros Hv. destruct v as [|p|p]; [done|..]; simpl binary_normalize; destruct (binary_round_small false p ltac:(lia)) as (m & e & E & He & Hm) || idtac.
  - rewrite E. split; [done|]. simpl. by rewrite Hm.
  - destruct (binary_round_small true p ltac:(lia)) as (m' & e' & -> & He' & Hm'). split; [done|]. simpl cond_Zopp. nia.
Qed.

Lemma integral_double v : Z.abs v < 2 ^ 53 -> integral (double_of_Z v) v.
Proof. apply integral_normalize. Qed.

Lemma integral_trunc x v : integral x v -> trunc_to_Z x = Some v.
Proof.
  destruct x as [s|s| |s m e]; simpl; [by intros ->|done..|]. intros [He Hm]. f_equal. unfold trunc_magnitude.
  destruct (Z.leb_spec 0 e) as [H0|H0].
  - assert (e = 0) as -> by lia. rewrite Z.shiftl_0_r. change (2 ^ (- 0)) with 1 in Hm. destruct s; simpl in Hm; lia.
  - assert (0 < 2 ^ (- e)) by (apply Z.pow_pos_nonneg; lia). rewrite Z.shiftr_div_pow2 by lia.
    assert (Zpos m = (if s then - v else v) * 2 ^ (- e)) as -> by (destruct s; simpl in Hm; lia). rewrite Z.div_mul by lia. destruct s; lia.
Qed.

Lemma integral_int32 x v : integral x v -> - 2 ^ 31 <= v < 2 ^ 31 -> to_int32 x = Some v.
Proof.
  intros H Hv. unfold to_int32. rewrite (integral_trunc x v H). cbn [mbind option_bind]. unfold checked_int32, checked.
  rewrite (proj2 (Z.leb_le (- 2 ^ 31) v)), (proj2 (Z.leb_le v (2 ^ 31 - 1))) by lia. done.
Qed.

(** A product of whole numbers, and a difference, is a whole number. *)
Lemma double_within_integral s x w : 0 <= w < 2 ^ 53 -> double_within w w 0 s x -> integral x (if s then - w else w).
Proof.
  intros Hw [[-> ->]|(m & e & -> & He & Hm)]; [by destruct s|]. replace (- 0 - e) with (- e) in Hm by lia. split; [lia|].
  destruct s; simpl cond_Zopp; nia.
Qed.

Lemma shl_align_value p e e' : exists m e2, shl_align p e e' = (m, e2) /\ e2 <= e /\ Zpos m = Zpos p * 2 ^ (e - e2) /\ e2 = Z.min e e'.
Proof.
  unfold shl_align. destruct (e' - e) as [|q|q] eqn:E; [exists p, e; rewrite Z.sub_diag; split_and!; [done..|lia|lia]| |].
  - exists p, e. rewrite Z.sub_diag. split_and!; [done..|lia|lia].
  - exists (Pos.iter xO p q), e'. rewrite shift_left_value. split_and!; [done|lia| |lia]. do 2 f_equal. lia.
Qed.

Lemma normalize_exact v e : e <= 0 -> Z.abs v < 2 ^ 53 -> integral (binary_normalize 53 1024 (v * 2 ^ (- e)) e false) v.
Proof.
  intros He Hv. assert (0 < 2 ^ (- e)) as Hp by (apply Z.pow_pos_nonneg; lia).
  assert (forall s p, Zpos p = Z.abs v * 2 ^ (- e) -> integral (binary_round 53 1024 s p e) (if s then - Z.abs v else Z.abs v)) as Hround.
  { intros s p Ep. unfold binary_round. destruct (shl_align_value p e (fexp 53 1024 (Zpos (digits2_pos p) + e))) as (m & e2 & -> & He2 & Hm & _).
    apply double_within_integral; [lia|]. apply (round_within (Z.abs v) (Z.abs v) 0); [lia..|]. split; [lia|]. replace (- 0 - e2) with (- e + (e - e2)) by lia.
    rewrite Z.pow_add_r, Hm, Ep by lia. lia. }
  destruct (v * 2 ^ (- e)) as [|p|p] eqn:Ep; simpl binary_normalize.
  - simpl. nia.
  - specialize (Hround false p ltac:(nia)). simpl in Hround. by rewrite Z.abs_eq in Hround by nia.
  - specialize (Hround true p ltac:(nia)). simpl in Hround. by replace (- Z.abs v) with v in Hround by nia.
Qed.

Lemma integral_sub x y a b : integral x a -> integral y b -> Z.abs a < 2 ^ 52 -> Z.abs b < 2 ^ 52 -> integral (dsub x y) (a - b).
Proof.
  intros Hx Hy Ha Hb. unfold dsub. destruct x as [sx|sx| |sx mx ex], y as [sy|sy| |sy my ey]; try done; simpl in Hx, Hy.
  - subst. by destruct sx, sy.
  - subst. destruct Hy as [He Hm]. simpl. split; [done|]. destruct sy; simpl in *; lia.
  - subst. by rewrite Z.sub_0_r.
  - destruct Hx as [Hex Hmx], Hy as [Hey Hmy]. unfold SFsub. cbv zeta. set (ez := Z.min ex ey).
    destruct (shl_align_value mx ex ez) as (m1 & e1 & -> & _ & H1 & He1). destruct (shl_align_value my ey ez) as (m2 & e2 & -> & _ & H2 & He2). cbn [fst].
    assert (e1 = ez) as -> by lia. assert (e2 = ez) as -> by lia.
    assert (cond_Zopp sx (Zpos m1) = a * 2 ^ (- ez)) as ->.
    { replace (- ez) with (- ex + (ex - ez)) by lia. rewrite Z.pow_add_r, Z.mul_assoc, <- Hmx by lia. destruct sx; simpl cond_Zopp in *; lia. }
    assert (cond_Zopp sy (Zpos m2) = b * 2 ^ (- ez)) as ->.
    { replace (- ez) with (- ey + (ey - ez)) by lia. rewrite Z.pow_add_r, Z.mul_assoc, <- Hmy by lia. destruct sy; simpl cond_Zopp in *; lia. }
    rewrite <- Z.mul_sub_distr_r. apply normalize_exact; lia.
Qed.

Lemma integral_magnitude s m e v : integral (S754_finite s m e) v -> Zpos m = Z.abs v * 2 ^ (- e) /\ cond_Zopp s (Z.abs v) = v.
Proof. intros [He Hm]. assert (0 < 2 ^ (- e)) by (apply Z.pow_pos_nonneg; lia). destruct s; simpl cond_Zopp in *; split; nia. Qed.

Lemma integral_mul x y a b : integral x a -> integral y b -> Z.abs (a * b) < 2 ^ 53 -> integral (dmul x y) (a * b).
Proof.
  intros Hx Hy Hab. unfold dmul. destruct x as [sx|sx| |sx mx ex], y as [sy|sy| |sy my ey]; try done; simpl in Hx, Hy; try (subst; simpl; lia).
  destruct (integral_magnitude _ _ _ _ Hx) as [Hmx Ea], (integral_magnitude _ _ _ _ Hy) as [Hmy Eb]. destruct Hx as [Hex _], Hy as [Hey _]. unfold SFmul.
  assert (Zpos (mx * my) = Z.abs (a * b) * 2 ^ (- (ex + ey))) as Hm.
  { replace (- (ex + ey)) with (- ex + - ey) by lia. rewrite Z.pow_add_r, Pos2Z.inj_mul, Hmx, Hmy, Z.abs_mul by lia. lia. }
  assert ((if xorb sx sy then - Z.abs (a * b) else Z.abs (a * b)) = a * b) as <-.
  { rewrite Z.abs_mul. clear -Ea Eb. revert Ea Eb. generalize (Z.abs a) as A, (Z.abs b) as B. intros A B <- <-. destruct sx, sy; cbn [cond_Zopp xorb]; lia. }
  apply double_within_integral; [lia|]. apply round_within; [lia..|]. split; [lia|]. rewrite Hm. replace (- 0 - (ex + ey)) with (- (ex + ey)) by lia. lia.
Qed.

(** A double next to an integer is rounded to it. *)
Lemma round_near s x q : 0 <= q -> 16 * q + 7 < 2 ^ 53 -> double_within (Z.max 0 (16 * q - 8)) (16 * q + 7) 4 s x -> integral (dround x) (if s then - q else q).
Proof.
  intros Hq Hb [[-> H0]|(m & e & -> & He & Hl & Hm)]; [simpl; destruct s; lia|]. cbn [dround].
  assert (round_magnitude m e = q) as ->.
  { unfold round_magnitude. rewrite (proj2 (Z.leb_gt 0 e)), Z.shiftl_mul_pow2, Z.shiftr_div_pow2 by lia. change (- (4)) with (-4) in *.
    set (k := 2 ^ (-4 - e)) in *. assert (0 < k) by (apply Z.pow_pos_nonneg; lia).
    assert (2 ^ (- e) = 16 * k) as -> by (change 16 with (2 ^ 4); unfold k; rewrite <- Z.pow_add_r by lia; f_equal; lia).
    assert (2 ^ (- e - 1) = 8 * k) as -> by (change 8 with (2 ^ 3); unfold k; rewrite <- Z.pow_add_r by lia; f_equal; lia).
    symmetry. apply (Z.div_unique_pos _ _ _ (Zpos m + 8 * k - 16 * k * q)); [|lia]. assert ((16 * q - 8) * k <= Zpos m) by (etransitivity; [|exact Hl]; apply Z.mul_le_mono_nonneg_r; lia). lia. }
  replace (if s then - q else q) with (cond_Zopp s q) by by destruct s. apply integral_normalize. destruct s; simpl; lia.
Qed.

(** ** Factors of traffic

    A weight times the factor of a speed is rounded to an integer. *)

Definition not_negative (x : double) : Prop := SFleb (S754_zero false) x = true.

Definition digits_ok (x : double) : Prop := match x with S754_finite _ m _ => Zpos m < 2 ^ 53 | _ => True end.

(** A number between 0 and 10, with the digits of a double. *)
Record factor_ok (f : double) : Prop := {
  fo_low : not_negative f;
  fo_high : SFleb f (double_of_Z 10) = true;
  fo_digits : digits_ok f
}.

Lemma digits2_bound m : 0 <= m -> m < 2 ^ Zdigits2 m.
Proof. destruct m as [|p|p]; [done| |lia]. intros _. cbn [Zdigits2]. by destruct (digits2_pos_spec p). Qed.

Lemma shr_fexp_small m e l : 0 <= m -> 0 <= shr_m (shr_fexp 53 1024 m e l).1 < 2 ^ 53.
Proof.
  intros Hm. unfold shr_fexp, shr. set (t0 := shr_record_of_loc m l). assert (shr_m t0 = m) as Et by (unfold t0; by destruct l as [|[]]).
  pose proof (digits2_bound m Hm) as Hd.
  destruct (fexp 53 1024 (Zdigits2 m + e) - e) as [|p|p] eqn:En; simpl fst.
  - rewrite Et. split; [done|]. assert (Zdigits2 m <= 53) by (unfold fexp, emin in En; lia). eapply Z.lt_le_trans; [exact Hd|]. apply Z.pow_le_mono_r; lia.
  - destruct (shr_iter_spec p m Hm t0 Et) as [-> _]. assert (Zdigits2 m - Zpos p <= 53) as Hle by (unfold fexp, emin in En; lia).
    assert (0 < 2 ^ Zpos p) by (apply Z.pow_pos_nonneg; lia). split; [apply Z.div_pos; lia|]. apply Z.div_lt_upper_bound; [done|].
    rewrite <- Z.pow_add_r by lia. eapply Z.lt_le_trans; [exact Hd|]. apply Z.pow_le_mono_r; lia.
  - rewrite Et. split; [done|]. assert (Zdigits2 m <= 53) by (unfold fexp, emin in En; lia). eapply Z.lt_le_trans; [exact Hd|]. apply Z.pow_le_mono_r; lia.
Qed.

Lemma round_digits s m e l : 0 <= m -> digits_ok (binary_round_aux 53 1024 s m e l).
Proof.
  intros Hm. unfold binary_round_aux. pose proof (shr_fexp_small m e l Hm) as H1. destruct (shr_fexp 53 1024 m e l) as [t e']. simpl in H1.
  assert (0 <= round_nearest_even (shr_m t) (loc_of_shr_record t)) as H2.
  { destruct (loc_of_shr_record t) as [|[]]; simpl; try destruct (Z.even _); lia. }
  pose proof (shr_fexp_small _ e' loc_Exact H2) as H3. destruct (shr_fexp 53 1024 _ e' loc_Exact) as [t2 e2]. simpl in H3.
  destruct (shr_m t2) as [|p|p]; [done| |lia]. destruct (_ <=? _); [apply H3|done].
Qed.

Lemma div_digits s m e s' m' e' : digits_ok (SFdiv 53 1024 (S754_finite s m e) (S754_finite s' m' e')).
Proof.
  unfold SFdiv. destruct (SFdiv_core_binary 53 1024 (Zpos m) e (Zpos m') e') as [[q ez] l] eqn:E.
  apply round_digits. unfold SFdiv_core_binary in E.
  match type of E with context [Z.div_eucl ?a ?b] =>
    assert (0 <= a) as Ha by (match goal with |- 0 <= match ?n with _ => _ end => destruct n end;
                               try lia; apply Z.shiftl_nonneg; lia);
    assert (0 <= a / b) as Hq by (apply Z.div_pos; lia);
    unfold Z.div in Hq; destruct (Z.div_eucl a b) as [q' r']
  end.
  by injection E as <- _ _.
Qed.

Lemma factor_of_speed speed : speed <> S754_nan -> factor_ok (ComputeTrafficWeightFactor speed).
Proof.
  intros Hn. destruct (weight_factor_range speed Hn) as (_ & H10 & H0). split; [exact H0|exact H10|].
  unfold ComputeTrafficWeightFactor. destruct (SFleb speed D0_5); [by vm_compute|]. destruct (SFltb D10 _); [by vm_compute|].
  destruct speed as [s|s| |s m e]; try done. exact (div_digits false 7036874417766400 (-47) s m e).
Qed.

(** The value of a factor. *)
Lemma factor_value f : factor_ok f -> (exists s, f = S754_zero s) \/ exists m e, f = S754_finite false m e /\ e <= 0 /\ Zpos m <= 10 * 2 ^ (- e).
Proof.
  intros [H0 H10 Hd]. assert (double_of_Z 10 = S754_finite false 5629499534213120 (-49)) as E10 by by vm_compute. rewrite E10 in H10.
  destruct f as [s|s| |s m e]; [left; by exists s|by destruct s|done|right]. destruct s; [done|]. exists m, e. split; [done|].
  simpl in Hd. unfold SFleb, SFcompare in H10. destruct (Z.compare_spec e (-49)) as [->|He|He]; [| |done].
  - split; [lia|]. change (10 * 2 ^ (- -49)) with 5629499534213120. change (Pos.compare_cont Eq m) with (Pos.compare m) in H10.
    apply Pos2Z.pos_le_pos. intros E. rewrite E in H10. discriminate H10.
  - split; [lia|]. assert (2 ^ 50 <= 2 ^ (- e)) by (apply Z.pow_le_mono_r; lia). lia.
Qed.

(** A weight scaled by a factor: defined and at most ten times as heavy. *)
Lemma scale_weight_ok f w : factor_ok f -> 0 <= w -> 10 * w < 2 ^ 32 -> exists z, scale_weight f w = Some z /\ 0 <= z <= 10 * w.
Proof.
  intros Hf Hw Hb. assert (exists z, round_to_Z (dmul (double_of_Z w) f) = Some z /\ 0 <= z <= 10 * w) as (z & E & Hz).
  { destruct (decide (w = 0)) as [->|Hne]; [exists 0; split; [|lia]; by destruct (factor_value f Hf) as [[s ->]|(m & e & -> & _)]|].
    destruct (double_of_small w) as (mw & ew & -> & Hew & Hmw); [lia|].
    destruct (factor_value f Hf) as [[s ->]|(m & e & -> & He & Hm)]; [exists 0; split; [done|lia]|].
    unfold dmul, SFmul. cbn [xorb]. destruct (round_within 0 (10 * w) 0 ltac:(lia) ltac:(lia) ltac:(lia) false (Zpos (mw * m)) (ew + e)) as [[-> _]|(p & e2 & -> & He2 & _ & Hp)].
    { split; [lia|]. split; [lia|]. rewrite Pos2Z.inj_mul, Hmw. replace (- 0 - (ew + e)) with (- ew + - e) by lia. rewrite Z.pow_add_r by lia.
      assert (0 < 2 ^ (- ew)) by (apply Z.pow_pos_nonneg; lia). nia. }
    { exists 0. split; [done|lia]. }
    eexists. split; [done|]. unfold round_magnitude. replace (- 0 - e2) with (- e2) in Hp by lia.
    destruct (Z.leb_spec 0 e2); [assert (e2 = 0) as -> by lia; rewrite Z.shiftl_0_r; change (2 ^ (- 0)) with 1 in Hp; lia|].
    assert (0 < 2 ^ (- e2 - 1)) by (apply Z.pow_pos_nonneg; lia).
    assert (2 ^ (- e2) = 2 * 2 ^ (- e2 - 1)) as E2 by (rewrite <- (Z.pow_succ_r 2) by lia; f_equal; lia).
    rewrite Z.shiftl_mul_pow2, Z.shiftr_div_pow2, E2 by lia. rewrite E2 in Hp. split; [apply Z.div_pos; lia|]. apply Z.lt_succ_r, Z.div_lt_upper_bound; lia. }
  exists z. split; [|done]. unfold scale_weight. rewrite E. cbn [mbind option_bind]. unfold checked_uint32, checked.
  rewrite (proj2 (Z.leb_le 0 z)), (proj2 (Z.leb_le z (2 ^ 32 - 1))) by lia. done.
Qed.

(** *** Averages of speeds are numbers *)

Lemma not_negative_cases x : not_negative x <-> (exists s, x = S754_zero s) \/ x = S754_infinity false \/ exists m e, x = S754_finite false m e.
Proof.
  unfold not_negative. destruct x as [s|[]| |[] m e]; split; try done; try (by intros [[? ?]|[?|(? & ? & ?)]]).
  - intros _. left. by exists s.
  - intros _. right; by left.
  - intros _. right; right. by exists m, e.
Qed.

Lemma add_not_negative x y : not_negative x -> not_negative y -> not_negative (SFadd 53 1024 x y).
Proof.
  intros Hx Hy. destruct (proj1 (not_negative_cases x) Hx) as [[s ->]|[->|(m & e & ->)]], (proj1 (not_negative_cases y) Hy) as [[s' ->]|[->|(m' & e' & ->)]];
    try done; [by destruct s, s'|].
  unfold SFadd. cbv zeta. set (ez := Z.min e e'). destruct (shl_align m e ez) as [m1 e1], (shl_align m' e' ez) as [m2 e2]. simpl. unfold binary_round.
  destruct (shl_align _ _ _) as [mz ez']. pose proof (binary_round_aux_sign false (Zpos mz) ez' loc_Exact ltac:(lia)) as H.
  destruct (binary_round_aux _ _ _ _ _ _) as [s|s| |s m3 e3]; try done; by subst s.
Qed.

Lemma summed_not_negative l x : Forall not_negative l -> summed l x -> not_negative x.
Proof.
  intros Hl Hs. induction Hs as [|l x sum Hs IH]; [done|]. apply Forall_app in Hl as [Hl Hx]. apply Forall_cons in Hx as [Hx _]. apply add_not_negative; [by apply IH|]. exact Hx.
Qed.

Lemma average_number l x : Forall not_negative l -> 0 < zlen l < 2 ^ 53 -> average_of l x -> x <> S754_nan.
Proof.
  intros Hl Hn (sum & Hs & ->). pose proof (summed_not_negative l sum Hl Hs) as Hsum.
  destruct (double_of_small (zlen l) Hn) as (m & e & E & _). unfold double_of_Z in E. rewrite E.
  destruct (proj1 (not_negative_cases sum) Hsum) as [[s ->]|[->|(m' & e' & ->)]]; [done..|].
  pose proof (SFdiv_sign false m' e' false m e) as H. by destruct (SFdiv _ _ _ _).
Qed.
