(* ===== verification/SegmentData.v ===== *)
(** * Geometries of roads and places on them

    Model of include/extractor/segment_data_container.hpp, the weights, durations
    and vertices of compressed geometries in both directions, and of
    [MakePhantomNode] of include/engine/geospatial_query.hpp, which turns a
    place on a segment into the end of a route with the live weights of the
    traffic store. *)
From S2P Require Import Prelude QueryHeap.
From S2P Require Import LiveTraffic Doubles.
From S2P Require Import RoutingBase.
Import SpecFloat.

(** ** Geometries *)

(** The vertices of geometry [id] are the entries of [nodes] from [index[id]] to [index[id + 1]];
    its segments lie between them, so the first forward weight and the last
    reverse weight of a geometry are not used. *)
Record SegmentDataContainer : Type := mkSegmentDataContainer {
  index : list Z;
  nodes : list Z;
  fwd_weights : list Z;
  rev_weights : list Z;
  fwd_durations : list Z;
  rev_durations : list Z;
  fwd_datasources : list Z;
  rev_datasources : list Z
}.

(** An iterator range inside an array. *)
Definition make_iterator_range (l : list Z) (first last : Z) : option (list Z) :=
  if (0 <=? first) && (first <=? last) && (last <=? zlen l) then Some (zslice l first (last - first)) else None.

Definition forward_range (d : SegmentDataContainer) (l : list Z) (id : Z) : option (list Z) :=
  first ← index d !z id;
  last ← index d !z (id + 1);
  make_iterator_range l (first + 1) last.

Definition reverse_range (d : SegmentDataContainer) (l : list Z) (id : Z) : option (list Z) :=
  first ← index d !z id;
  last ← index d !z (id + 1);
  range ← make_iterator_range l first (last - 1);
  Some (reverse range).

Definition GetForwardGeometry (d : SegmentDataContainer) (id : Z) : option (list Z) :=
  first ← index d !z id;
  last ← index d !z (id + 1);
  make_iterator_range (nodes d) first last.

Definition GetReverseGeometry (d : SegmentDataContainer) (id : Z) : option (list Z) :=
  range ← GetForwardGeometry d id;
  Some (reverse range).

Definition GetForwardDurations (d : SegmentDataContainer) (id : Z) : option (list Z) := forward_range d (fwd_durations d) id.
Definition GetReverseDurations (d : SegmentDataContainer) (id : Z) : option (list Z) := reverse_range d (rev_durations d) id.
Definition GetForwardWeights (d : SegmentDataContainer) (id : Z) : option (list Z) := forward_range d (fwd_weights d) id.
Definition GetReverseWeights (d : SegmentDataContainer) (id : Z) : option (list Z) := reverse_range d (rev_weights d) id.
Definition GetForwardDatasources (d : SegmentDataContainer) (id : Z) : option (list Z) := forward_range d (fwd_datasources d) id.
Definition GetReverseDatasources (d : SegmentDataContainer) (id : Z) : option (list Z) := reverse_range d (rev_datasources d) id.

(** ** Numbers *)

Definition INVALID_SEGMENT_WEIGHT : Z := 2 ^ 22 - 1.
Definition SPECIAL_SEGMENTID : Z := Z.shiftr UINT32_MAX 1.

(** [std::accumulate] over [SegmentWeight]s or [SegmentDuration]s. *)
Definition accumulate (l : list Z) : Z := foldl (fun a w => wrap 32 (a + w)) 0 l.

(** ** Phantom nodes *)

(** [EdgeBasedNodeSegment]: the fields that are used here. *)
Record EdgeBasedNodeSegment : Type := mkEdgeBasedNodeSegment {
  forward_segment : SegmentID;
  reverse_segment : SegmentID;
  segment_position : Z
}.

(** The geometry of an edge-based node and its direction. *)
Record GeometryID : Type := mkGeometryID { geometry_id : Z; geometry_forward : bool }.

Definition areSegmentsValid (l : list Z) : bool := negb (bool_decide (INVALID_SEGMENT_WEIGHT ∈ l)).

Section phantom.
Context (segment_data : SegmentDataContainer) (geometry_index : list GeometryID).

(** The rest of [MakePhantomNode] after the aggregation of the traffic; the
    ratio is that of [perpendicularDistance].  Distances, the component and
    the locations are left out. *)
Definition phantom_of (live : LiveDataStore) (data : EdgeBasedNodeSegment) (ratio : double) : option PhantomNode :=
  geometry ← geometry_index !z segment_id (forward_segment data);
  let id := geometry_id geometry in
  let position := segment_position data in
  forward_weights ← GetForwardWeights segment_data id;
  reverse_weights ← GetReverseWeights segment_data id;
  live_forward_weights ← ApplyLiveTrafficToSegmentWeights live id forward_weights;
  live_reverse_weights ← ApplyLiveTrafficToSegmentWeights live id reverse_weights;
  forward_durations ← GetForwardDurations segment_data id;
  reverse_durations ← GetReverseDurations segment_data id;
  before ← make_iterator_range live_forward_weights 0 position;
  forward_weight ← live_forward_weights !z position;
  forward_duration ← forward_durations !z position;
  after ← make_iterator_range live_reverse_weights 0 (zlen live_reverse_weights - position - 1);
  reverse_weight ← live_reverse_weights !z (zlen live_reverse_weights - position - 1);
  reverse_duration ← reverse_durations !z (zlen reverse_durations - position - 1);
  let forward_weight := swrap 32 forward_weight in
  let reverse_weight := swrap 32 reverse_weight in
  let forward_duration := swrap 32 forward_duration in
  let reverse_duration := swrap 32 reverse_duration in
  let ratio := clamp_ratio ratio in
  let forward_special := segment_id (forward_segment data) =? SPECIAL_SEGMENTID in
  let reverse_special := segment_id (reverse_segment data) =? SPECIAL_SEGMENTID in
  forward_weight ← (if forward_special then Some forward_weight else to_int32 (dmul (double_of_Z forward_weight) ratio));
  forward_duration ← (if forward_special then Some forward_duration else to_int32 (dmul (double_of_Z forward_duration) ratio));
  reverse_weight ← (if reverse_special then Some reverse_weight
                    else x ← to_int32 (dmul (double_of_Z reverse_weight) ratio); Some (swrap 32 (reverse_weight - x)));
  reverse_duration ← (if reverse_special then Some reverse_duration
                      else x ← to_int32 (dmul (double_of_Z reverse_duration) ratio); Some (swrap 32 (reverse_duration - x)));
  reverse_target ← make_iterator_range reverse_weights 0 (zlen reverse_weights - position);
  forward_target ← make_iterator_range forward_weights 0 (position + 1);
  Some (mkPhantomNode (forward_segment data) (reverse_segment data) forward_weight reverse_weight
          (swrap 32 (accumulate before)) (swrap 32 (accumulate after)) forward_duration reverse_duration position
          (areSegmentsValid forward_weights) (areSegmentsValid forward_target)
          (areSegmentsValid reverse_weights) (areSegmentsValid reverse_target)).

(** [facade] is what the aggregation reads of the data; the clock is read twice. *)
Definition MakePhantomNode (facade : Facade) (iterate : user_map -> list (Z * TrafficSample)) (live : LiveDataStore) (now_ms now_ms' : Z)
    (data : EdgeBasedNodeSegment) (ratio : double) : option (PhantomNode * LiveDataStore) :=
  live' ← AggregatePendingTrafficSamples facade iterate live (stale_seconds live) now_ms now_ms';
  phantom ← phantom_of live' data ratio;
  Some (phantom, live').
End phantom.

(** ** Reading geometries *)

Abbreviation total := (zsum (fun w : Z => w)).

Lemma total_take_drop l n : total (take n l) + total (drop n l) = total l.
Proof. rewrite <- zsum_app. by rewrite take_drop. Qed.

Lemma total_take l n : (forall w, w ∈ l -> 0 <= w) -> 0 <= total (take n l) <= total l.
Proof.
  intros Hl%Forall_forall. rewrite <- (total_take_drop l n). assert (forall k, Forall (fun w => 0 <= w) k -> 0 <= total k) as Hk
    by (intros k Hk; apply zsum_nonneg; by apply Forall_forall).
  pose proof (Hk _ (Forall_take _ n _ Hl)). pose proof (Hk _ (Forall_drop _ n _ Hl)). lia.
Qed.

Lemma accumulate_total l : (forall w, w ∈ l -> 0 <= w) -> total l < 2 ^ 32 -> accumulate l = total l.
Proof.
  unfold accumulate. intros Hl Hs. assert (forall a, 0 <= a -> a + total l < 2 ^ 32 -> foldl (fun a w => wrap 32 (a + w)) a l = a + total l) as H; [|by apply (H 0)].
  clear Hs. induction l as [|w l IH]; intros a Ha Hs; cbn [foldl zsum foldr] in *; [lia|].
  pose proof (Hl w ltac:(by left)). pose proof (zsum_nonneg (fun w : Z => w) l ltac:(intros x Hx; apply Hl; by right)) as Hn. unfold zsum in *.
  rewrite wrap_small by (unfold in_word; lia). rewrite IH; [lia| |lia|lia]. intros x Hx. apply Hl. by right.
Qed.

Lemma range_take (l : list Z) n : 0 <= n <= zlen l -> make_iterator_range l 0 n = Some (take (Z.to_nat n) l).
Proof.
  intros Hn. unfold make_iterator_range. rewrite (proj2 (Z.leb_le 0 n)), (proj2 (Z.leb_le n (zlen l))) by lia. simpl.
  f_equal. unfold zslice. rewrite Z.sub_0_r. done.
Qed.

(** Every geometry has a segment, and all arrays cover it. *)
Record container_ok (d : SegmentDataContainer) : Prop := {
  sc_index id : 0 <= id < zlen (index d) - 1 -> exists first last, index d !z id = Some first /\ index d !z (id + 1) = Some last /\
    0 <= first /\ first + 2 <= last <= zlen (nodes d);
  sc_fwd_weights : zlen (fwd_weights d) = zlen (nodes d);
  sc_rev_weights : zlen (rev_weights d) = zlen (nodes d);
  sc_fwd_durations : zlen (fwd_durations d) = zlen (nodes d);
  sc_rev_durations : zlen (rev_durations d) = zlen (nodes d);
  sc_fwd_datasources : zlen (fwd_datasources d) = zlen (nodes d);
  sc_rev_datasources : zlen (rev_datasources d) = zlen (nodes d)
}.

(** What a reader of a geometry sees in one direction. *)
Record geometry_read (d : SegmentDataContainer) (id : Z) (fwd : bool) (vertices weights durations datasources : list Z) : Prop := {
  gr_vertices : (if fwd then GetForwardGeometry d id else GetReverseGeometry d id) = Some vertices;
  gr_weights : (if fwd then GetForwardWeights d id else GetReverseWeights d id) = Some weights;
  gr_durations : (if fwd then GetForwardDurations d id else GetReverseDurations d id) = Some durations;
  gr_datasources : (if fwd then GetForwardDatasources d id else GetReverseDatasources d id) = Some datasources;
  gr_segments : 0 < zlen weights;
  gr_len_vertices : zlen vertices = zlen weights + 1;
  gr_len_durations : zlen durations = zlen weights;
  gr_len_datasources : zlen datasources = zlen weights
}.

Lemma zlen_reverse {A} (l : list A) : zlen (reverse l) = zlen l.
Proof. unfold zlen. by rewrite length_reverse. Qed.

Lemma iterator_range_ok (l : list Z) first last : 0 <= first <= last -> last <= zlen l ->
  exists r, make_iterator_range l first last = Some r /\ zlen r = last - first.
Proof.
  intros H1 H2. unfold make_iterator_range. rewrite (proj2 (Z.leb_le 0 first)), (proj2 (Z.leb_le first last)), (proj2 (Z.leb_le last (zlen l))) by lia.
  simpl. eexists. split; [done|]. apply zslice_len; lia.
Qed.

(** Every geometry can be read in both directions, with as many segments. *)
Lemma geometry_reads d id : container_ok d -> 0 <= id < zlen (index d) - 1 -> exists n, 0 < n /\
  forall fwd, exists vertices weights durations datasources, geometry_read d id fwd vertices weights durations datasources /\ zlen weights = n.
Proof.
  intros Hd Hid. destruct (sc_index _ Hd id Hid) as (first & last & E1 & E2 & Hf & Hl). exists (last - first - 1). split; [lia|].
  destruct (iterator_range_ok (nodes d) first last) as (vs & Evs & Lvs); [lia|lia|].
  assert (forall l, zlen l = zlen (nodes d) -> exists r, forward_range d l id = Some r /\ zlen r = last - first - 1) as Hfwd.
  { intros l Hlen. destruct (iterator_range_ok l (first + 1) last) as (r & Er & Lr); [lia|lia|]. exists r. split; [|lia].
    unfold forward_range. rewrite E1, E2. exact Er. }
  assert (forall l, zlen l = zlen (nodes d) -> exists r, reverse_range d l id = Some r /\ zlen r = last - first - 1) as Hrev.
  { intros l Hlen. destruct (iterator_range_ok l first (last - 1)) as (r & Er & Lr); [lia|lia|]. exists (reverse r). split; [|rewrite zlen_reverse; lia].
    unfold reverse_range. rewrite E1, E2. cbn [mbind option_bind]. by rewrite Er. }
  intros [].
  - destruct (Hfwd _ (sc_fwd_weights _ Hd)) as (ws & Ews & Lws). destruct (Hfwd _ (sc_fwd_durations _ Hd)) as (ds & Eds & Lds).
    destruct (Hfwd _ (sc_fwd_datasources _ Hd)) as (ss & Ess & Lss). exists vs, ws, ds, ss. split; [|lia].
    split; try done; try lia. unfold GetForwardGeometry. by rewrite E1, E2.
  - destruct (Hrev _ (sc_rev_weights _ Hd)) as (ws & Ews & Lws). destruct (Hrev _ (sc_rev_durations _ Hd)) as (ds & Eds & Lds).
    destruct (Hrev _ (sc_rev_datasources _ Hd)) as (ss & Ess & Lss). exists (reverse vs), ws, ds, ss. split; [|lia].
    split; try done; try lia; [|rewrite zlen_reverse; lia]. unfold GetReverseGeometry, GetForwardGeometry. rewrite E1, E2. cbn [mbind option_bind]. by rewrite Evs.
Qed.

Lemma live_weights_len live id ws ws' : ApplyLiveTrafficToSegmentWeights live id ws = Some ws' -> zlen ws' = zlen ws.
Proof.
  unfold ApplyLiveTrafficToSegmentWeights. destruct (get live id) as [e|]; [destruct (is_live e)|]; [|by intros [= ->]..].
  intros E%length_mapM. unfold zlen. by rewrite E.
Qed.

(** ** Places on segments *)

(** Weights that add up inside an [EdgeWeight]. *)
Definition summable (l : list Z) : Prop := (forall w, w ∈ l -> 0 <= w) /\ total l < 2 ^ 31.

Lemma summable_get l i w : summable l -> l !z i = Some w -> 0 <= w < 2 ^ 31.
Proof.
  intros [Hl Hs] Hw%zget_elem. split; [by apply Hl|]. apply list_elem_of_split in Hw as (l1 & l2 & ->). rewrite zsum_app in Hs. simpl in Hs.
  pose proof (zsum_nonneg (fun w : Z => w) l1 ltac:(intros x Hx; apply Hl; set_solver)). pose proof (zsum_nonneg (fun w : Z => w) l2 ltac:(intros x Hx; apply Hl; set_solver)). lia.
Qed.

Lemma summable_before l n : summable l -> swrap 32 (accumulate (take n l)) = total (take n l).
Proof.
  intros [Hl Hs]. pose proof (total_take l n Hl). rewrite accumulate_total; [apply swrap_small; lia| |lia].
  intros w Hw. apply Forall_forall with (l := take n l); [|done]. by apply Forall_take, Forall_forall.
Qed.

(** *** Traffic on the segments *)

(** A store that scales weights: its times and positions are in range, its
    speeds are numbers and its factors lie between 0 and 10, as
    [ComputeTrafficWeightFactor] makes them of numbers. *)
Record traffic_ok (st : LiveDataStore) : Prop := {
  to_sane : sane_store st;
  to_stale : 0 <= stale_seconds st < 2 ^ 31;
  to_speeds s : s ∈ pending_samples st -> not_negative (s_speed_kmh s);
  to_count : zlen (pending_samples st) < 2 ^ 53;
  to_factors g e : LiveTraffic.segments st !! g = Some e -> factor_ok (e_weight_factor e)
}.

Lemma aggregated_factors facade st st' now_ms now_ms' g e : traffic_ok st -> aggregated facade st st' now_ms now_ms' ->
  LiveTraffic.segments st' !! g = Some e -> factor_ok (e_weight_factor e).
Proof.
  intros Hok Hag He. destruct (Hag g) as [[_ E]|[[_ E]|(samples & e0 & [Hne Hus Hnew] & Hav & E)]].
  - apply (to_factors _ Hok g). congruence.
  - apply E in He as [He _]. by apply (to_factors _ Hok g).
  - rewrite E in He. destruct (decide _); [|done]. injection He as <-. rewrite (av_factor _ _ Hav). apply factor_of_speed.
    assert (forall s, s ∈ samples -> s ∈ pending_samples st) as Hin.
    { intros s (u & _ & l1 & l2 & -> & _)%Hnew. set_solver. }
    eapply average_number; [| |exact (av_speed _ _ Hav)].
    + apply Forall_forall. intros x (s & -> & Hs)%list_elem_of_fmap. by apply (to_speeds _ Hok), Hin.
    + unfold zlen. rewrite length_fmap. pose proof (to_count _ Hok) as Hc. unfold zlen in Hc.
      assert (length samples <= length (pending_samples st))%nat by (apply submseteq_length, NoDup_submseteq; [by eapply NoDup_fmap_1|done]).
      destruct samples; [done|simpl in *; lia].
Qed.

(** Scaled weights are at most ten times as heavy. *)
Definition scaled (ws ws' : list Z) : Prop := Forall2 (fun w w' => 0 <= w' <= 10 * w) ws ws'.

Lemma scaled_total ws ws' : scaled ws ws' -> 0 <= total ws' <= 10 * total ws /\ forall w', w' ∈ ws' -> 0 <= w'.
Proof.
  induction 1 as [|w w' ws ws' Hw Hs [IH IH']]; [split; [simpl; lia|by intros w' ?%elem_of_nil]|]. split; [unfold zsum in *; simpl; lia|].
  intros x [->|Hx]%elem_of_cons; [lia|by apply IH'].
Qed.

Lemma scaled_refl ws : (forall w, w ∈ ws -> 0 <= w) -> scaled ws ws.
Proof. intros Hw%Forall_forall. apply Forall_Forall2_diag. eapply Forall_impl; [exact Hw|]. simpl. lia. Qed.

(** Weights that can be scaled. *)
Definition scalable (ws : list Z) : Prop := (forall w, w ∈ ws -> 0 <= w) /\ 10 * total ws < 2 ^ 31.

Lemma live_weights_ok live id ws : (forall g e, LiveTraffic.segments live !! g = Some e -> factor_ok (e_weight_factor e)) -> scalable ws ->
  exists ws', ApplyLiveTrafficToSegmentWeights live id ws = Some ws' /\ scaled ws ws' /\ summable ws'.
Proof.
  intros Hf [Hw Ht]. assert (exists ws', ApplyLiveTrafficToSegmentWeights live id ws = Some ws' /\ scaled ws ws') as (ws' & E & Hs).
  { unfold ApplyLiveTrafficToSegmentWeights, get. destruct (LiveTraffic.segments live !! id) as [e|] eqn:E; [|exists ws; split; [done|by apply scaled_refl]].
    destruct (is_live e); [|exists ws; split; [done|by apply scaled_refl]]. specialize (Hf _ _ E). clear E.
    induction ws as [|w ws IH]; [exists []; split; [done|constructor]|]. pose proof (Hw w ltac:(by left)) as Hw0.
    pose proof (zsum_nonneg (fun w : Z => w) ws ltac:(intros x Hx; apply Hw; by right)). unfold zsum in *. simpl in Ht.
    destruct (scale_weight_ok (e_weight_factor e) w Hf Hw0 ltac:(lia)) as (z & Ez & Hz).
    destruct IH as (ws' & E & Hs); [intros x Hx; apply Hw; by right|lia|]. exists (z :: ws'). cbn [mapM]. rewrite Ez. cbn [mbind option_bind].
    rewrite E. split; [done|by constructor]. }
  exists ws'. split; [done|]. split; [done|]. destruct (scaled_total _ _ Hs). split; [done|lia].
Qed.

(** A value and the part of it that a ratio leaves. *)
Lemma part_int32 (special : bool) w r : 0 <= w < 2 ^ 31 -> SpecFloat.valid_binary 53 1024 r = true ->
  exists z, (if special then Some (swrap 32 w) else to_int32 (dmul (double_of_Z (swrap 32 w)) (clamp_ratio r))) = Some z /\ 0 <= z <= w.
Proof.
  intros Hw Hr. rewrite swrap_small by lia. destruct special; [exists w; split; [done|lia]|]. by apply integer_part_int32.
Qed.

Lemma rest_int32 (special : bool) w r : 0 <= w < 2 ^ 31 -> SpecFloat.valid_binary 53 1024 r = true ->
  exists z, (if special then Some (swrap 32 w)
             else x ← to_int32 (dmul (double_of_Z (swrap 32 w)) (clamp_ratio r)); Some (swrap 32 (swrap 32 w - x))) = Some z /\ 0 <= z <= w.
Proof.
  intros Hw Hr. rewrite swrap_small by lia. destruct special; [exists w; split; [done|lia]|].
  destruct (integer_part_int32 w r Hw Hr) as (z & -> & Hz). cbn [mbind option_bind]. rewrite swrap_small by lia. exists (w - z). split; [done|lia].
Qed.

(** The place of a phantom node in one direction: the weights before its
    segment and a part of the weight of the segment. *)
Record place (weights : list Z) (position offset part : Z) : Prop := {
  pl_offset : offset = total (take (Z.to_nat position) weights);
  pl_part : exists w, weights !z position = Some w /\ 0 <= part <= w
}.

Lemma place_bounds weights position offset part : (forall w, w ∈ weights -> 0 <= w) -> 0 <= position -> place weights position offset part ->
  0 <= offset + part <= total weights.
Proof.
  intros Hw Hp [-> (w & Hg & Hpart)]. pose proof (total_take weights (Z.to_nat position) Hw) as [H0 _]. split; [lia|].
  rewrite <- (total_take_drop weights (Z.to_nat position)). assert (w <= total (drop (Z.to_nat position) weights)); [|lia].
  unfold zget in Hg. rewrite (proj2 (Z.leb_le 0 position)) in Hg by done. erewrite drop_S by done. simpl.
  pose proof (zsum_nonneg (fun w : Z => w) (drop (S (Z.to_nat position)) weights)) as Hn. unfold zsum in *. assert (0 <= foldr (fun x a => x + a) 0 (drop (S (Z.to_nat position)) weights)); [|lia].
  apply Hn. intros x Hx. apply Forall_forall with (l := drop (S (Z.to_nat position)) weights); [|done]. by apply Forall_drop, Forall_forall.
Qed.

Section places.
Context (d : SegmentDataContainer) (geometry_index : list GeometryID) (live : LiveDataStore).
Context (data : EdgeBasedNodeSegment) (g : GeometryID) (Hg : geometry_index !z segment_id (forward_segment data) = Some g).
Abbreviation id := (geometry_id g).
Context (fvs fws fds fss rvs rws rds rss : list Z).
Context (Hf : geometry_read d id true fvs fws fds fss) (Hr : geometry_read d id false rvs rws rds rss) (Hn : zlen rws = zlen fws).
Context (lfws lrws : list Z).
Context (Ef : ApplyLiveTrafficToSegmentWeights live id fws = Some lfws) (Er : ApplyLiveTrafficToSegmentWeights live id rws = Some lrws).
Context (Sf : summable lfws) (Sr : summable lrws) (Sfd : summable fds) (Srd : summable rds).
Abbreviation position := (segment_position data).
Context (Hpos : 0 <= position < zlen fws) (ratio : double) (Hratio : SpecFloat.valid_binary 53 1024 ratio = true).

Lemma phantom_of_ok : exists p, phantom_of d geometry_index live data ratio = Some p /\
  forward_segment_id p = forward_segment data /\ reverse_segment_id p = reverse_segment data /\ fwd_segment_position p = position /\
  place lfws position (forward_weight_offset p) (forward_weight p) /\
  place lrws (zlen fws - position - 1) (reverse_weight_offset p) (reverse_weight p) /\
  (exists t, fds !z position = Some t /\ 0 <= forward_duration p <= t) /\
  (exists t, rds !z (zlen fws - position - 1) = Some t /\ 0 <= reverse_duration p <= t).
Proof using Hg Hf Hr Hn Ef Er Sf Sr Sfd Srd Hpos Hratio.
  pose proof (live_weights_len _ _ _ _ Ef) as Lf. pose proof (live_weights_len _ _ _ _ Er) as Lr.
  pose proof (gr_len_durations _ _ _ _ _ _ _ Hf) as Lfd. pose proof (gr_len_durations _ _ _ _ _ _ _ Hr) as Lrd.
  destruct (zget_is_some lfws position) as [fw Efw]; [lia|]. destruct (zget_is_some lrws (zlen fws - position - 1)) as [rw Erw]; [lia|].
  destruct (zget_is_some fds position) as [fd Efd]; [lia|]. destruct (zget_is_some rds (zlen fws - position - 1)) as [rd Erd]; [lia|].
  set (sf := segment_id (forward_segment data) =? SPECIAL_SEGMENTID). set (sr := segment_id (reverse_segment data) =? SPECIAL_SEGMENTID).
  destruct (part_int32 sf fw ratio (summable_get _ _ _ Sf Efw) Hratio) as (pf & Epf & Bpf).
  destruct (part_int32 sf fd ratio (summable_get _ _ _ Sfd Efd) Hratio) as (pfd & Epfd & Bpfd).
  destruct (rest_int32 sr rw ratio (summable_get _ _ _ Sr Erw) Hratio) as (pr & Epr & Bpr).
  destruct (rest_int32 sr rd ratio (summable_get _ _ _ Srd Erd) Hratio) as (prd & Eprd & Bprd).
  exists (mkPhantomNode (forward_segment data) (reverse_segment data) pf pr (swrap 32 (accumulate (take (Z.to_nat position) lfws)))
    (swrap 32 (accumulate (take (Z.to_nat (zlen fws - position - 1)) lrws))) pfd prd position (areSegmentsValid fws)
    (areSegmentsValid (take (Z.to_nat (position + 1)) fws)) (areSegmentsValid rws) (areSegmentsValid (take (Z.to_nat (zlen rws - position)) rws))).
  split; [|split; [reflexivity|]; split; [reflexivity|]; split; [reflexivity|]; cbn [forward_weight_offset forward_weight reverse_weight_offset reverse_weight forward_duration reverse_duration];
    split; [split; [by apply summable_before|by exists fw]|]; split; [split; [by apply summable_before|by exists rw]|]; split; [by exists fd|by exists rd]].
  unfold phantom_of. rewrite Hg. cbn [mbind option_bind]. cbv zeta.
  rewrite (gr_weights _ _ _ _ _ _ _ Hf : GetForwardWeights d id = _), (gr_weights _ _ _ _ _ _ _ Hr : GetReverseWeights d id = _). cbn [mbind option_bind].
  rewrite Ef, Er. cbn [mbind option_bind].
  rewrite (gr_durations _ _ _ _ _ _ _ Hf : GetForwardDurations d id = _), (gr_durations _ _ _ _ _ _ _ Hr : GetReverseDurations d id = _). cbn [mbind option_bind].
  rewrite Lr, Lrd, Hn. rewrite (range_take lfws position), (range_take lrws (zlen fws - position - 1)) by lia. cbn [mbind option_bind].
  rewrite Efw, Efd, Erw, Erd. cbn [mbind option_bind]. fold sf sr. rewrite Epf, Epfd. cbn [mbind option_bind]. rewrite Epr. cbn [mbind option_bind].
  rewrite Eprd. cbn [mbind option_bind]. rewrite (range_take rws), (range_take fws) by lia. cbn [mbind option_bind]. reflexivity.
Qed.
End places.

(** C36: phantom nodes lie on their geometry.  For a container whose geometries are
    covered by all arrays, weights that fit an [EdgeWeight] also ten times as heavy and
    durations that add up inside one, a position on the geometry and any ratio, and a
    store whose times, positions, speeds and factors are in range (a NaN speed or a time in the far
    future leads out of it), [MakePhantomNode] is defined: it aggregates the
    samples of the store, and the live traffic scales every weight to at most ten times
    as much.  In both directions the
    offset of the phantom node is the sum of the live weights before its segment, its
    weight is a part of the weight of the segment whatever the ratio and the rounding of the
    product, and both together stay between 0 and the live weight of the geometry. *)
Theorem phantom_places d geometry_index facade iterate live now_ms now_ms' data g ratio fws rws fds rds :
  (forall m, iterate m ≡ₚ map_to_list m) -> traffic_ok live -> sane_time now_ms' ->
  container_ok d -> geometry_index !z segment_id (forward_segment data) = Some g -> 0 <= geometry_id g < zlen (index d) - 1 ->
  GetForwardWeights d (geometry_id g) = Some fws -> GetReverseWeights d (geometry_id g) = Some rws ->
  GetForwardDurations d (geometry_id g) = Some fds -> GetReverseDurations d (geometry_id g) = Some rds ->
  scalable fws -> scalable rws -> summable fds -> summable rds ->
  0 <= segment_position data < zlen fws -> valid_binary 53 1024 ratio = true ->
  exists p live' lfws lrws, MakePhantomNode d geometry_index facade iterate live now_ms now_ms' data ratio = Some (p, live') /\
    aggregated facade live live' now_ms now_ms' /\
    ApplyLiveTrafficToSegmentWeights live' (geometry_id g) fws = Some lfws /\ ApplyLiveTrafficToSegmentWeights live' (geometry_id g) rws = Some lrws /\
    scaled fws lfws /\ scaled rws lrws /\
    forward_segment_id p = forward_segment data /\ reverse_segment_id p = reverse_segment data /\ fwd_segment_position p = segment_position data /\
    place lfws (segment_position data) (forward_weight_offset p) (forward_weight p) /\
    place lrws (zlen fws - segment_position data - 1) (reverse_weight_offset p) (reverse_weight p) /\
    0 <= GetForwardWeightPlusOffset p <= total lfws /\ 0 <= GetReverseWeightPlusOffset p <= total lrws.
Proof.
  intros Hit Hok Hnow Hd Hg Hid Ef Er Efd Erd Cf Cr Sfd Srd Hpos Hratio.
  destruct (aggregation_defined facade iterate Hit live now_ms now_ms' (to_stale _ Hok) (to_sane _ Hok) Hnow) as (live' & Ea & Hag).
  pose proof (fun g e => aggregated_factors facade live live' now_ms now_ms' g e Hok Hag) as Hfac.
  destruct (live_weights_ok live' (geometry_id g) fws Hfac Cf) as (lfws & Elf & Scf & Sf).
  destruct (live_weights_ok live' (geometry_id g) rws Hfac Cr) as (lrws & Elr & Scr & Sr).
  destruct (geometry_reads d _ Hd Hid) as (n & Hn & Hread).
  destruct (Hread true) as (fvs & fws' & fds' & fss & Hf & Lf). destruct (Hread false) as (rvs & rws' & rds' & rss & Hr & Lr).
  pose proof (gr_weights _ _ _ _ _ _ _ Hf) as Gf. pose proof (gr_weights _ _ _ _ _ _ _ Hr) as Gr. pose proof (gr_durations _ _ _ _ _ _ _ Hf) as Gfd.
  pose proof (gr_durations _ _ _ _ _ _ _ Hr) as Grd. simpl in Gf, Gr, Gfd, Grd.
  assert (fws' = fws) as -> by congruence. assert (rws' = rws) as -> by congruence. assert (fds' = fds) as -> by congruence. assert (rds' = rds) as -> by congruence.
  destruct (phantom_of_ok d geometry_index live' data g Hg fvs fws fds fss rvs rws rds rss Hf Hr ltac:(lia) lfws lrws Elf Elr Sf Sr Sfd Srd Hpos ratio Hratio)
    as (p & Ep & P1 & P2 & P3 & Pf & Pr & _). exists p, live', lfws, lrws.
  split; [unfold MakePhantomNode; rewrite Ea; cbn [mbind option_bind]; by rewrite Ep|]. do 10 (split; [done|]).
  pose proof (place_bounds _ _ _ _ (proj1 Sf) (proj1 Hpos) Pf) as Bf. assert (0 <= zlen fws - segment_position data - 1) as Hpos' by lia.
  pose proof (place_bounds _ _ _ _ (proj1 Sr) Hpos' Pr) as Br.
  destruct Sf as [_ Sf], Sr as [_ Sr]. unfold GetForwardWeightPlusOffset, GetReverseWeightPlusOffset, weight_add. split; rewrite swrap_small; lia.
Qed.

(** ** Concrete geometries *)

(** Two geometries of two segments each; the unused entries are 0. *)
Definition two_roads : SegmentDataContainer :=
  mkSegmentDataContainer [0; 3; 6] [10; 11; 12; 20; 21; 22] [0; 30; 70; 0; 5; 6] [30; 70; 0; 5; 6; 0] [0; 3; 7; 0; 1; 1] [3; 7; 0; 1; 1; 0]
    [0; 1; 1; 0; 2; 2] [1; 1; 0; 2; 2; 0].

Definition two_roads_index : list GeometryID := [mkGeometryID 0 true; mkGeometryID 0 false; mkGeometryID 1 true; mkGeometryID 1 false].
Definition half : double := SpecFloat.S754_finite false 4503599627370496 (-53).
Definition on_first_road : EdgeBasedNodeSegment := mkEdgeBasedNodeSegment (mkSegmentID 0 true) (mkSegmentID 1 true) 1.

Lemma two_roads_ok : container_ok two_roads.
Proof.
  split; try done. intros id Hid. change (zlen (index two_roads) - 1) with 2 in Hid.
  assert (id = 0 \/ id = 1) as [->| ->] by lia; (eexists _, _; split; [reflexivity|]; split; [reflexivity|]; change (zlen (nodes two_roads)) with 6; lia).
Qed.

Lemma summable_small l : Forall (fun w => 0 <= w) l -> total l < 2 ^ 31 -> summable l.
Proof. rewrite Forall_forall. by split. Qed.

(** A queue with one sample of 5 km/h on the first road. *)
Definition queued_sample : TrafficSample := mkSample 7 (double_of_Z 1) (double_of_Z 2) (double_of_Z 5) (double_of_Z 0) 1000.
Definition waiting : LiveDataStore := addSample empty_store queued_sample.
Definition flat_facade : Facade := mkFacade (fun _ _ => Some (0, true)) (fun id => id) (fun _ => [0; 1]) (fun _ => (0, 0)).

Lemma waiting_ok : traffic_ok waiting.
Proof.
  split; [|done| |done|].
  - split; [|by intros g e He]. apply Forall_singleton. split; [done|]. split; eexists; by vm_compute.
  - intros s ->%list_elem_of_singleton. by vm_compute.
  - by intros g e He.
Qed.

Lemma scalable_small l : Forall (fun w => 0 <= w) l -> 10 * total l < 2 ^ 31 -> scalable l.
Proof. rewrite Forall_forall. by split. Qed.

Lemma phantom_places_witness :
  exists p live', MakePhantomNode two_roads two_roads_index flat_facade map_to_list waiting 2000 2000 on_first_road half = Some (p, live') /\
    forward_weight_offset p = 300 /\ 0 <= GetForwardWeightPlusOffset p <= 1000.
Proof.
  destruct (phantom_places two_roads two_roads_index flat_facade map_to_list waiting 2000 2000 on_first_road (mkGeometryID 0 true) half [30; 70] [70; 30] [3; 7] [7; 3]
    ltac:(done) waiting_ok ltac:(done) two_roads_ok eq_refl ltac:(by vm_compute) eq_refl eq_refl eq_refl eq_refl
    ltac:(apply scalable_small; [by repeat constructor|by vm_compute]) ltac:(apply scalable_small; [by repeat constructor|by vm_compute])
    ltac:(apply summable_small; [by repeat constructor|by vm_compute]) ltac:(apply summable_small; [by repeat constructor|by vm_compute])
    ltac:(by vm_compute) ltac:(by vm_compute)) as (p & live' & lfws & lrws & Ep & _ & Elf & _ & _ & _ & _ & _ & _ & Pf & _ & Bf & _).
  exists p, live'. split; [exact Ep|].
  assert (option_map (fun r => (forward_weight_offset (fst r), ApplyLiveTrafficToSegmentWeights (snd r) 0 [30; 70])) (MakePhantomNode two_roads two_roads_index flat_facade map_to_list waiting 2000 2000 on_first_road half)
    = Some (300, Some [300; 700])) as Ev by (vm_compute; reflexivity).
  rewrite Ep in Ev. cbn [option_map fst snd] in Ev. injection Ev as Eo El. split; [exact Eo|].
  simpl in Elf. rewrite El in Elf. injection Elf as <-. exact Bf.
Defined.

(** Traffic makes the place on a road heavier than the road: with a factor of
    ten the place in the middle of the second segment weighs 650, the road 100. *)
Definition jam : LiveDataStore :=
  update empty_store 0 (mkEdgeData (double_of_Z 5) (ComputeTrafficWeightFactor (double_of_Z 5)) (double_of_Z 0) (double_of_Z 0) (double_of_Z 0) 0 1 "live").

Theorem jam_phantom : exists p, phantom_of two_roads two_roads_index jam on_first_road half = Some p /\
  GetForwardWeightPlusOffset p = 650 /\ GetForwardWeights two_roads 0 = Some [30; 70].
Proof. eexists. split; [vm_compute; reflexivity|]. by split. Qed.
