(* ===== verification/RequestParser.v ===== *)
(** * The HTTP request parser

    Model of src/server/request_parser.cpp: a state machine that consumes a
    request one character at a time, possibly over several reads of the
    connection.  Characters are bytes; [char] is signed, so that bytes from
    128 up are negative integers for the classification functions. *)
From S2P Require Import Prelude.

(** ** Characters *)

Definition as_int (c : Z) : Z := if c <? 128 then c else c - 256.

Definition is_char (c : Z) : bool := (0 <=? as_int c) && (as_int c <=? 127).
Definition is_CTL (c : Z) : bool := ((0 <=? as_int c) && (as_int c <=? 31)) || (as_int c =? 127).
Definition is_digit (c : Z) : bool := (48 <=? as_int c) && (as_int c <=? 57).

(** The separators of the switch, as character codes. *)
Definition special_characters : list Z :=
  [40; 41; 60; 62; 64; 44; 59; 58; 92; 34; 47; 91; 93; 63; 61; 123; 125; 32; 9].
Definition is_special (c : Z) : bool := bool_decide (as_int c ∈ special_characters).

Definition is_token (c : Z) : bool := negb (negb (is_char c) || is_CTL c || is_special c).

(** Comparison without case, as [boost::iequals] and [boost::icontains] in the
    classic locale. *)
Definition to_upper (c : Z) : Z := if (97 <=? c) && (c <=? 122) then c - 32 else c.
Definition iequals (a b : list Z) : bool := bool_decide ((to_upper <$> a) = (to_upper <$> b)).

Fixpoint starts_with (s p : list Z) : bool :=
  match p, s with
  | [], _ => true
  | c :: p, d :: s => (to_upper c =? to_upper d) && starts_with s p
  | _ :: _, [] => false
  end.

Fixpoint icontains (s p : list Z) : bool :=
  starts_with s p || match s with [] => false | _ :: s => icontains s p end.

Definition CR : Z := 13.
Definition LF : Z := 10.
Definition SP : Z := 32.
Definition TAB : Z := 9.

(** ** State *)

Inductive internal_state : Type :=
| method_start | method | uri_start | uri
| http_version_h | http_version_t_1 | http_version_t_2 | http_version_p | http_version_slash
| http_version_major_start | http_version_major | http_version_minor_start | http_version_minor
| expecting_newline_1 | header_line_start | header_lws | header_name | header_value
| expecting_newline_2 | expecting_newline_3.

Inductive RequestStatus : Type := valid | invalid | indeterminate.

Inductive compression_type : Type := no_compression | gzip_rfc1952 | deflate_rfc1951.

Record header : Type := mkHeader { h_name : list Z; h_value : list Z }.

Record request : Type := mkRequest {
  r_uri : list Z;
  r_referrer : list Z;
  r_agent : list Z;
  r_connection : list Z
}.

Record RequestParser : Type := mkParser {
  state : internal_state;
  current_header : header;
  selected_compression : compression_type
}.

Definition RequestParser_new : RequestParser := mkParser method_start (mkHeader [] []) no_compression.
Definition empty_request : request := mkRequest [] [] [] [].

(** The extraction of a finished header at the start of the next line. *)
Definition finish_compression (h : header) (c : compression_type) : compression_type :=
  if iequals (h_name h) (str "Accept-Encoding") then
    let c := if icontains (h_value h) (str "deflate") then deflate_rfc1951 else c in
    if icontains (h_value h) (str "gzip") then gzip_rfc1952 else c
  else c.

Definition finish_header (h : header) (r : request) : request :=
  let '(mkRequest u re ag co) := r in
  mkRequest u
    (if iequals (h_name h) (str "Referer") then h_value h else re)
    (if iequals (h_name h) (str "User-Agent") then h_value h else ag)
    (if iequals (h_name h) (str "Connection") then h_value h else co).

Definition push_uri (r : request) (c : Z) : request :=
  mkRequest (r_uri r ++ [c]) (r_referrer r) (r_agent r) (r_connection r).

Definition step (p : RequestParser) (r : request) (q : internal_state) : RequestStatus * RequestParser * request :=
  (indeterminate, mkParser q (current_header p) (selected_compression p), r).

(** Go to [q] if [ok], reject otherwise. *)
Definition expect (p : RequestParser) (r : request) (ok : bool) (q : internal_state) :=
  if ok then step p r q else (invalid, p, r).

(** The states of the header lines. *)
Definition consume_header_line (p : RequestParser) (r : request) (input : Z) : RequestStatus * RequestParser * request :=
  let bad := negb (is_char input) || is_CTL input || is_special input in
  match state p with
  | header_line_start =>
      let p := mkParser (state p) (current_header p) (finish_compression (current_header p) (selected_compression p)) in
      let r := finish_header (current_header p) r in
      if input =? CR then step p r expecting_newline_3
      else if bad then (invalid, p, r)
      else (indeterminate, mkParser header_name (mkHeader [input] []) (selected_compression p), r)
  | header_lws =>
      if input =? CR then step p r expecting_newline_2
      else if (input =? SP) || (input =? TAB) then step p r header_lws
      else if is_CTL input then (invalid, p, r)
      else step p r header_value
  | header_name =>
      if input =? 58 then step p r header_value
      else if bad then (invalid, p, r)
      else (indeterminate,
            mkParser header_name (mkHeader (h_name (current_header p) ++ [input]) (h_value (current_header p)))
              (selected_compression p), r)
  | header_value =>
      if input =? SP then step p r header_value
      else if input =? CR then step p r expecting_newline_2
      else if is_CTL input then (invalid, p, r)
      else (indeterminate,
            mkParser header_value (mkHeader (h_name (current_header p)) (h_value (current_header p) ++ [input]))
              (selected_compression p), r)
  | expecting_newline_2 => expect p r (input =? LF) header_line_start
  | _ => (if input =? LF then valid else invalid, p, r)
  end.

Definition consume (p : RequestParser) (r : request) (input : Z) : RequestStatus * RequestParser * request :=
  let bad := negb (is_char input) || is_CTL input || is_special input in
  match state p with
  | method_start => expect p r (negb bad) method
  | method => if input =? SP then step p r uri else expect p r (negb bad) method
  | uri_start => if is_CTL input then (invalid, p, r) else step p (push_uri r input) uri
  | uri =>
      if input =? SP then step p r http_version_h
      else if is_CTL input then (invalid, p, r) else step p (push_uri r input) uri
  | http_version_h => expect p r (input =? 72) http_version_t_1
  | http_version_t_1 => expect p r (input =? 84) http_version_t_2
  | http_version_t_2 => expect p r (input =? 84) http_version_p
  | http_version_p => expect p r (input =? 80) http_version_slash
  | http_version_slash => expect p r (input =? 47) http_version_major_start
  | http_version_major_start => expect p r (is_digit input) http_version_major
  | http_version_major =>
      if input =? 46 then step p r http_version_minor_start else expect p r (is_digit input) http_version_major
  | http_version_minor_start => expect p r (is_digit input) http_version_minor
  | http_version_minor =>
      if input =? CR then step p r expecting_newline_1 else expect p r (is_digit input) http_version_minor
  | expecting_newline_1 => expect p r (input =? LF) header_line_start
  | _ => consume_header_line p r input
  end.

(** The loop over one buffer; the characters after the deciding one are left. *)
Fixpoint run (p : RequestParser) (r : request) (buffer : list Z) : RequestStatus * RequestParser * request * list Z :=
  match buffer with
  | [] => (indeterminate, p, r, [])
  | c :: buffer =>
      match consume p r c with
      | (indeterminate, p, r) => run p r buffer
      | (st, p, r) => (st, p, r, buffer)
      end
  end.

Definition parse (p : RequestParser) (r : request) (buffer : list Z)
  : RequestStatus * compression_type * RequestParser * request :=
  let '(st, p, r, _) := run p r buffer in (st, selected_compression p, p, r).

Definition example_request : list Z :=
  str "GET /route/v1/driving/1,2;3,4 HTTP/1.1" ++ [CR; LF]
  ++ str "User-Agent: Mozilla Firefox" ++ [CR; LF]
  ++ str "accept-encoding: deflate, gzip" ++ [CR; LF] ++ [CR; LF].

Example parse_example :
  exists p r, parse RequestParser_new empty_request example_request = (valid, gzip_rfc1952, p, r) /\
    r_uri r = str "/route/v1/driving/1,2;3,4" /\ r_agent r = str "MozillaFirefox".
Proof. eexists _, _. split; [vm_compute; reflexivity|]. by vm_compute. Qed.

(** ** The language of requests *)

Definition token (s : list Z) : Prop := s <> [] /\ Forall (fun c => is_token c = true) s.
Definition digits (s : list Z) : Prop := s <> [] /\ Forall (fun c => is_digit c = true) s.

(** Characters of a target and of a header value. *)
Definition uri_ok (s : list Z) : Prop := Forall (fun c => is_CTL c = false /\ c <> SP) s.
Definition value_ok (s : list Z) : Prop := Forall (fun c => is_CTL c = false) s.

Definition render_header (h : header) : list Z := h_name h ++ [58] ++ h_value h ++ [CR; LF].

Definition render (m u major minor : list Z) (hs : list header) : list Z :=
  m ++ [SP] ++ u ++ [SP] ++ [72; 84; 84; 80; 47] ++ major ++ [46] ++ minor ++ [CR; LF]
  ++ concat (render_header <$> hs) ++ [CR; LF].

(** The parser drops the spaces of a header value. *)
Definition stored_header (h : header) : header :=
  mkHeader (h_name h) (filter (fun c => c <> SP) (h_value h)).

(** What the headers make of the request and the compression. *)
Definition apply_headers (hs : list header) (r : request) : request :=
  foldl (fun r h => finish_header (stored_header h) r) r hs.
Definition apply_compression (hs : list header) (c : compression_type) : compression_type :=
  foldl (fun c h => finish_compression (stored_header h) c) c hs.

(** *** What the headers say

    The same letters up to case, as the standard writes names of headers. *)
Definition same_letter (c d : Z) : Prop := c = d \/ (65 <= c <= 90 /\ d = c + 32) \/ (97 <= c <= 122 /\ d = c - 32).
Definition same_name (a b : list Z) : Prop := Forall2 same_letter a b.

(** [word] occurs in [value] when its spaces are left out. *)
Definition mentions (value word : list Z) : Prop :=
  exists before occurrence after, filter (fun c => c <> SP) value = before ++ occurrence ++ after /\ same_name occurrence word.

(** The last header that decides [P] decides it; [d] if there is none. *)
Definition last_deciding {B} (P : header -> B -> Prop) (hs : list header) (d b : B) : Prop :=
  (exists hs1 h hs2, hs = hs1 ++ h :: hs2 /\ P h b /\ forall h' b', h' ∈ hs2 -> ~ P h' b') \/
  (b = d /\ forall h' b', h' ∈ hs -> ~ P h' b').

(** A header of this name has this value, without its spaces. *)
Definition says (name : list Z) (h : header) (v : list Z) : Prop :=
  same_name (h_name h) name /\ v = filter (fun c => c <> SP) (h_value h).

(** A header accepts an encoding: gzip rather than deflate. *)
Definition accepts_encoding (h : header) (c : compression_type) : Prop :=
  same_name (h_name h) (str "Accept-Encoding") /\
  ((c = gzip_rfc1952 /\ mentions (h_value h) (str "gzip")) \/
   (c = deflate_rfc1951 /\ mentions (h_value h) (str "deflate") /\ ~ mentions (h_value h) (str "gzip"))).

Record stores (u : list Z) (hs : list header) (r : request) (c : compression_type) : Prop := {
  st_uri : r_uri r = u;
  st_referrer : last_deciding (says (str "Referer")) hs [] (r_referrer r);
  st_agent : last_deciding (says (str "User-Agent")) hs [] (r_agent r);
  st_connection : last_deciding (says (str "Connection")) hs [] (r_connection r);
  st_compression : last_deciding accepts_encoding hs no_compression c
}.

Lemma same_letter_upper c d : to_upper c = to_upper d <-> same_letter c d.
Proof. unfold to_upper, same_letter. destruct (Z.leb_spec 97 c), (Z.leb_spec c 122), (Z.leb_spec 97 d), (Z.leb_spec d 122); simpl; lia. Qed.

Lemma iequals_spec a b : iequals a b = true <-> same_name a b.
Proof.
  unfold iequals, same_name. rewrite bool_decide_eq_true. revert b. induction a as [|c a IH]; intros [|d b]; cbn [fmap list_fmap];
    [done|split; [done|inversion 1]..|]. rewrite Forall2_cons, <- IH, <- same_letter_upper. split; [by intros [= -> ->]|by intros [-> ->]].
Qed.

Lemma starts_with_spec s p : starts_with s p = true <-> exists a b, s = a ++ b /\ same_name a p.
Proof.
  revert s. induction p as [|c p IH]; intros s; cbn [starts_with].
  - split; [intros _; exists [], s; split; [done|constructor]|by destruct s].
  - destruct s as [|d s]; [split; [done|]|].
    + intros (a & b & E & Ha). destruct a; [inversion Ha|done].
    + cbn [starts_with]. rewrite andb_true_iff, Z.eqb_eq, IH, (eq_comm (to_upper c)), same_letter_upper. split.
      * intros (Hc & a & b & -> & Ha). exists (d :: a), b. split; [done|]. by constructor.
      * intros (a & b & E & Ha). destruct a as [|x a]; [inversion Ha|]. apply Forall2_cons in Ha as [Hxy Ha]. injection E as -> ->. split; [done|]. by exists a, b.
Qed.

Lemma icontains_spec s p : icontains s p = true <-> exists a b c, s = a ++ b ++ c /\ same_name b p.
Proof.
  induction s as [|d s IH]; cbn [icontains]; rewrite orb_true_iff, starts_with_spec.
  - split; [|intros (a & b & c & E & Hb); left; exists b, c; split; [by destruct a|done]].
    intros [(a & b & -> & Ha)|?]; [by exists [], a, b|done].
  - rewrite IH. split.
    + intros [(a & b & -> & Ha)|(a & b & c & -> & Hb)]; [by exists [], a, b|by exists (d :: a), b, c].
    + intros ([|x a] & b & c & E & Hb); [left; by exists b, c|right]. injection E as <- ->. by exists a, b, c.
Qed.

(** A fold keeps what the last deciding header says. *)
Lemma last_deciding_fold {B} (P : header -> B -> Prop) (f : header -> option B) (Hf : forall h b, P h b <-> f h = Some b) hs d b :
  last_deciding P hs d b <-> b = foldl (fun b h => default b (f h)) d hs.
Proof.
  revert b. induction hs as [|h hs IH] using rev_ind; intros b.
  { simpl. split; [|intros ->; right; split; [done|]; by intros ? ? ?%elem_of_nil]. intros [(hs1 & h & hs2 & E & _)|[-> _]]; [by destruct hs1|done]. }
  rewrite foldl_app. cbn [foldl]. destruct (f h) as [b0|] eqn:E; simpl.
  - split; [|intros ->; left; exists hs, h, []; split; [done|]; split; [by apply Hf|by intros ? ? ?%elem_of_nil]].
    intros [(hs1 & h1 & hs2 & Eh & Hp & Hno)|[_ Hno]]; [|destruct (Hno h b0); [set_solver|by apply Hf]].
    destruct hs2 as [|x hs2 _] using rev_ind.
    + apply app_inj_tail in Eh as [-> ->]. apply Hf in Hp. congruence.
    + rewrite app_comm_cons, app_assoc in Eh. apply app_inj_tail in Eh as [_ ->]. destruct (Hno x b0); [set_solver|by apply Hf].
  - rewrite <- IH. split.
    + intros [(hs1 & h1 & hs2 & Eh & Hp & Hno)|[-> Hno]]; [|right; split; [done|]; intros h' b' Hh; apply Hno; set_solver].
      destruct hs2 as [|x hs2 _] using rev_ind; [apply app_inj_tail in Eh as [-> ->]; apply Hf in Hp; congruence|].
      rewrite app_comm_cons, app_assoc in Eh. apply app_inj_tail in Eh as [-> ->]. left. exists hs1, h1, hs2. split; [done|]. split; [done|].
      intros h' b' Hh. apply Hno. set_solver.
    + assert (forall b', ~ P h b') as Hh by (intros b' Hb%Hf; congruence).
      intros [(hs1 & h1 & hs2 & -> & Hp & Hno)|[-> Hno]].
      * left. exists hs1, h1, (hs2 ++ [h]). split; [by rewrite <- app_assoc|]. split; [done|].
        intros h' b' [Hin|Hin%list_elem_of_singleton]%elem_of_app; [by apply Hno|subst h'; apply Hh].
      * right. split; [done|]. intros h' b' [Hin|Hin%list_elem_of_singleton]%elem_of_app; [by apply Hno|subst h'; apply Hh].
Qed.

(** The folds of the model. *)
Definition value_of (name : list Z) (h : header) : option (list Z) :=
  if iequals (h_name h) name then Some (h_value (stored_header h)) else None.

Definition encoding_of (h : header) : option compression_type :=
  if iequals (h_name h) (str "Accept-Encoding") then
    if icontains (h_value (stored_header h)) (str "gzip") then Some gzip_rfc1952
    else if icontains (h_value (stored_header h)) (str "deflate") then Some deflate_rfc1951 else None
  else None.

Lemma says_value name h v : says name h v <-> value_of name h = Some v.
Proof.
  unfold says, value_of. rewrite <- iequals_spec. destruct (iequals (h_name h) name); [|split; [by intros [? _]|done]].
  split; [by intros [_ ->]|]. by intros [= <-].
Qed.

Lemma encoding_of_spec h c : accepts_encoding h c <-> encoding_of h = Some c.
Proof.
  unfold accepts_encoding, encoding_of, mentions. rewrite <- iequals_spec. destruct (iequals (h_name h) _); [|split; [by intros [? _]|done]].
  change (filter (fun c => c <> SP) (h_value h)) with (h_value (stored_header h)). rewrite <- !icontains_spec.
  destruct (icontains _ (str "gzip")), (icontains _ (str "deflate")); naive_solver.
Qed.

Lemma apply_headers_fold hs u re ag co : apply_headers hs (mkRequest u re ag co) =
  mkRequest u (foldl (fun b h => default b (value_of (str "Referer") h)) re hs) (foldl (fun b h => default b (value_of (str "User-Agent") h)) ag hs)
    (foldl (fun b h => default b (value_of (str "Connection") h)) co hs).
Proof.
  revert re ag co. induction hs as [|h hs IH]; intros re ag co; [done|]. cbn [apply_headers foldl]. unfold apply_headers in IH. unfold finish_header at 2.
  rewrite IH. unfold value_of. cbn [stored_header h_name]. f_equal; f_equal; by destruct (iequals _ _).
Qed.

Lemma apply_compression_fold hs c : apply_compression hs c = foldl (fun b h => default b (encoding_of h)) c hs.
Proof.
  revert c. induction hs as [|h hs IH]; intros c; [done|]. cbn [apply_compression foldl]. unfold apply_compression in IH. rewrite IH. f_equal.
  unfold finish_compression, encoding_of. cbn [stored_header h_name]. destruct (iequals _ _); [|done].
  set (v := h_value (stored_header h)). change (h_value _) with v. by destruct (icontains v (str "gzip")), (icontains v (str "deflate")).
Qed.

Lemma stores_fold u hs r c : stores u hs r c <-> r = apply_headers hs (mkRequest u [] [] []) /\ c = apply_compression hs no_compression.
Proof.
  rewrite apply_headers_fold, apply_compression_fold. split.
  - intros [<- H1 H2 H3 H4]. rewrite (last_deciding_fold _ _ (says_value _)) in H1. rewrite (last_deciding_fold _ _ (says_value _)) in H2.
    rewrite (last_deciding_fold _ _ (says_value _)) in H3. rewrite (last_deciding_fold _ _ encoding_of_spec) in H4.
    rewrite <- H1, <- H2, <- H3, <- H4. by destruct r.
  - intros [-> ->]. split; simpl; [done|by apply (last_deciding_fold _ _ (says_value _))..|by apply (last_deciding_fold _ _ encoding_of_spec)].
Qed.

Definition header_ok (h : header) : Prop := token (h_name h) /\ value_ok (h_value h).

Definition push_uris (r : request) (u : list Z) : request :=
  mkRequest (r_uri r ++ u) (r_referrer r) (r_agent r) (r_connection r).

(** A run that stays in one state over a sequence of characters. *)
Lemma run_stay (Q : Z -> Prop) p0 r0 (f : list Z -> RequestParser * request) s rest :
  f [] = (p0, r0) ->
  (forall l c, Q c -> consume (f l).1 (f l).2 c = (indeterminate, (f (l ++ [c])).1, (f (l ++ [c])).2)) ->
  Forall Q s -> run p0 r0 (s ++ rest) = run (f s).1 (f s).2 rest.
Proof.
  intros H0 Hf Hs.
  assert (forall l, run (f l).1 (f l).2 (s ++ rest) = run (f (l ++ s)).1 (f (l ++ s)).2 rest) as H.
  { induction Hs as [|c s Hc Hs IH]; intros l; [by rewrite app_nil_r|].
    cbn [app run]. rewrite Hf by done. rewrite IH. by rewrite <- app_assoc. }
  specialize (H []). rewrite H0 in H. exact H.
Qed.

(** *** Character classes *)

Lemma token_not c : is_token c = true ->
  (negb (is_char c) || is_CTL c || is_special c) = false /\ c <> SP /\ c <> CR /\ c <> 58.
Proof.
  unfold is_token. intros H. apply negb_true_iff in H. split; [done|].
  split; [|split]; intros ->; vm_compute in H; discriminate H.
Qed.

Lemma digit_not c : is_digit c = true -> c <> 46 /\ c <> CR.
Proof. intros H. split; intros ->; vm_compute in H; discriminate H. Qed.

Lemma not_CTL c : is_CTL c = false -> c <> CR.
Proof. intros H ->. vm_compute in H. discriminate H. Qed.

Ltac neq H := apply Z.eqb_neq in H; rewrite ?H.

(** *** Requests of the language are accepted *)

Lemma run_method m h c r s : token m ->
  run (mkParser method_start h c) r (m ++ SP :: s) = run (mkParser uri h c) r s.
Proof.
  intros [Hne Hm]. destruct m as [|x m]; [done|]. apply Forall_cons in Hm as [Hx Hm].
  destruct (token_not x Hx) as [Hb _]. cbn [app run consume consume_header_line state]. rewrite Hb. cbn [negb expect step].
  rewrite (run_stay (fun c => is_token c = true) (mkParser method h c) r (fun _ => (mkParser method h c, r))); [|done| |done].
  - done.
  - intros l y Hy. destruct (token_not y Hy) as (Hb' & Hs & _). cbn [fst snd consume consume_header_line state]. neq Hs. by rewrite Hb'.
Qed.

Lemma run_uri u h c r s : uri_ok u ->
  run (mkParser uri h c) r (u ++ SP :: s) = run (mkParser http_version_h h c) (push_uris r u) s.
Proof.
  intros Hu. rewrite (run_stay (fun c => is_CTL c = false /\ c <> SP) _ r (fun l => (mkParser uri h c, push_uris r l))).
  - done.
  - unfold push_uris. rewrite app_nil_r. by destruct r.
  - intros l y [Hy Hs]. cbn [fst snd consume consume_header_line state]. neq Hs. rewrite Hy. unfold step, push_uri, push_uris. cbn.
    by rewrite <- app_assoc.
  - done.
Qed.

Lemma run_version major minor h c r s : digits major -> digits minor ->
  run (mkParser http_version_h h c) r ([72; 84; 84; 80; 47] ++ major ++ [46] ++ minor ++ [CR; LF] ++ s)
    = run (mkParser header_line_start h c) r s.
Proof.
  intros [Hj Hmaj] [Hi Hmin]. cbn [app run consume consume_header_line state expect step Z.eqb Pos.eqb].
  destruct major as [|x major]; [done|]. apply Forall_cons in Hmaj as [Hx Hmaj].
  cbn [app run consume consume_header_line state]. rewrite Hx. cbn [expect step current_header selected_compression].
  rewrite (run_stay (fun c => is_digit c = true) _ r (fun _ => (mkParser http_version_major h c, r))); [|done| |done].
  2:{ intros l y Hy. destruct (digit_not y Hy) as [Hd _]. cbn [fst snd consume consume_header_line state]. neq Hd. by rewrite Hy. }
  cbn [app run consume consume_header_line state Z.eqb Pos.eqb step fst snd current_header selected_compression].
  destruct minor as [|y minor]; [done|]. apply Forall_cons in Hmin as [Hy Hmin].
  cbn [app run consume consume_header_line state]. rewrite Hy. cbn [expect step current_header selected_compression].
  rewrite (run_stay (fun c => is_digit c = true) _ r (fun _ => (mkParser http_version_minor h c, r))); [|done| |done].
  2:{ intros l z Hz. destruct (digit_not z Hz) as [_ Hd]. cbn [fst snd consume consume_header_line state]. neq Hd. by rewrite Hz. }
  done.
Qed.

Lemma run_header hd h c r s : header_ok hd ->
  run (mkParser header_line_start h c) r (render_header hd ++ s)
    = run (mkParser header_line_start (stored_header hd) (finish_compression h c)) (finish_header h r) s.
Proof.
  destruct hd as [name value]. intros [[Hne Hn] Hv]. unfold render_header. cbn [h_name h_value] in *.
  destruct name as [|x name]; [done|]. apply Forall_cons in Hn as [Hx Hn].
  destruct (token_not x Hx) as (Hb & _ & Hcr & _). cbn [app run consume consume_header_line state]. neq Hcr. rewrite Hb.
  cbn [current_header selected_compression].
  rewrite <- app_assoc. cbn [app]. rewrite <- app_assoc. cbn [app].
  rewrite (run_stay (fun c => is_token c = true) _ _
    (fun l => (mkParser header_name (mkHeader (x :: l) []) (finish_compression h c), finish_header h r))); [|done| |done].
  2:{ intros l y Hy. destruct (token_not y Hy) as (Hb' & _ & _ & Hc). cbn [fst snd consume consume_header_line state]. neq Hc. rewrite Hb'. done. }
  cbn [run consume consume_header_line state Z.eqb Pos.eqb step fst snd current_header selected_compression].
  rewrite (run_stay (fun c => is_CTL c = false) _ _
    (fun l => (mkParser header_value (mkHeader (x :: name) (filter (fun c => c <> SP) l)) (finish_compression h c),
               finish_header h r))); [|done| |done].
  2:{ intros l y Hy. cbn [fst snd consume consume_header_line state]. rewrite filter_app. destruct (Z.eqb_spec y SP) as [->|Hs].
      - rewrite (filter_cons_False _ SP) by (intros H; by apply H). cbn. by rewrite app_nil_r.
      - pose proof (not_CTL y Hy) as Hcr'. neq Hcr'. rewrite Hy. rewrite (filter_cons_True _ y) by done. done. }
  done.
Qed.

Lemma run_headers hs h c r s : Forall header_ok hs ->
  exists p, run (mkParser header_line_start h c) r (concat (render_header <$> hs) ++ [CR; LF] ++ s)
    = (valid, p, apply_headers hs (finish_header h r), s) /\
    selected_compression p = apply_compression hs (finish_compression h c).
Proof.
  intros Hhs. revert h c r. induction Hhs as [|hd hs Hh Hhs IH]; intros h c r.
  - eexists. split; [reflexivity|done].
  - cbn [fmap list_fmap concat]. rewrite <- app_assoc, run_header by done. apply IH.
Qed.

Lemma parse_render m u major minor hs s :
  token m -> uri_ok u -> digits major -> digits minor -> Forall header_ok hs ->
  exists p, run RequestParser_new empty_request (render m u major minor hs ++ s)
    = (valid, p, apply_headers hs (mkRequest u [] [] []), s) /\
    selected_compression p = apply_compression hs no_compression.
Proof.
  intros Hm Hu Hj Hi Hhs. unfold render, RequestParser_new.
  destruct (run_headers hs (mkHeader [] []) no_compression (mkRequest u [] [] []) s Hhs) as (p & Hp & Hc).
  change (finish_header (mkHeader [] []) (mkRequest u [] [] [])) with (mkRequest u [] [] []) in Hp.
  exists p. split; [|done]. rewrite <- Hp. rewrite <- !app_assoc. cbn [app]. rewrite run_method, run_uri by done.
  pose proof (run_version major minor (mkHeader [] []) no_compression (push_uris empty_request u)
    (concat (render_header <$> hs) ++ [CR; LF] ++ s) Hj Hi) as Hv. cbn [app] in Hv. exact Hv.
Qed.

(** *** Accepted requests are in the language *)

Section inversion.
Context (V : RequestParser * request * list Z).

(** The run ends with status valid and [V]. *)
Definition accepts (p : RequestParser) (r : request) (s : list Z) : Prop :=
  run p r s = (valid, V.1.1, V.1.2, V.2).

Lemma accepts_cons p r s :
  accepts p r s -> exists c s', s = c :: s' /\
    match consume p r c with
    | (indeterminate, p', r') => accepts p' r' s'
    | (st, p', r') => st = valid /\ p' = V.1.1 /\ r' = V.1.2 /\ s' = V.2
    end.
Proof.
  unfold accepts. destruct s as [|c s]; cbn [run]; [done|]. intros H. exists c, s. split; [done|].
  destruct (consume p r c) as [[[] p'] r']; [|done|done]. by injection H as <- <- <-.
Qed.

(** A state in which exactly the characters [ok] lead on, all to [q]. *)
Lemma accepts_expect p r s (ok : Z -> bool) q :
  (forall c, consume p r c = expect p r (ok c) q) ->
  accepts p r s -> exists c s', s = c :: s' /\ ok c = true /\
    accepts (mkParser q (current_header p) (selected_compression p)) r s'.
Proof.
  intros Hc (c & s' & -> & H)%accepts_cons. rewrite Hc in H. unfold expect in H.
  exists c, s'. destruct (ok c); [done|]. by destruct H.
Qed.

(** A state left by the character [stop], which repeats on [ok]. *)
Lemma accepts_loop (f : list Z -> RequestParser * request) (ok : Z -> bool) stop q s : forall l,
  (forall l c, consume (f l).1 (f l).2 c =
     if c =? stop then step (f l).1 (f l).2 q
     else if ok c then (indeterminate, (f (l ++ [c])).1, (f (l ++ [c])).2) else (invalid, (f l).1, (f l).2)) ->
  accepts (f l).1 (f l).2 s ->
  exists m s', s = m ++ stop :: s' /\ Forall (fun c => ok c = true /\ c <> stop) m /\
    accepts (mkParser q (current_header (f (l ++ m)).1) (selected_compression (f (l ++ m)).1)) (f (l ++ m)).2 s'.
Proof.
  induction s as [|c s IH]; intros l Hc H; [by apply accepts_cons in H as (? & ? & ? & _)|].
  apply accepts_cons in H as (c' & s' & [= <- <-] & H). rewrite Hc in H.
  destruct (Z.eqb_spec c stop) as [->|Hne].
  - exists [], s. rewrite app_nil_r. split; [done|]. split; [done|exact H].
  - destruct (ok c) eqn:E; [|by destruct H].
    destruct (IH _ Hc H) as (m & s' & -> & Hm & Ha). exists (c :: m), s'. rewrite <- app_assoc in Ha.
    split; [done|]. split; [by constructor|exact Ha].
Qed.

Lemma accepts_method h c r s :
  accepts (mkParser method_start h c) r s ->
  exists m s', s = m ++ SP :: s' /\ token m /\ accepts (mkParser uri h c) r s'.
Proof.
  intros H. apply (accepts_expect _ _ _ is_token method) in H as (x & s1 & -> & Hx & H); [|done].
  destruct (accepts_loop (fun _ => (mkParser method h c, r)) is_token SP uri s1 []) as (m & s2 & -> & Hm & Ha);
    [intros l y; cbn [fst snd consume consume_header_line state]; unfold is_token, expect, step;
       destruct (y =? SP); [done|by destruct (_ || _)]|exact H|].
  exists (x :: m), s2. split; [done|]. split; [|exact Ha]. split; [done|].
  constructor; [done|]. eapply Forall_impl; [exact Hm|]. by intros ? [? _].
Qed.

Lemma accepts_uri h c r s :
  accepts (mkParser uri h c) r s ->
  exists u s', s = u ++ SP :: s' /\ uri_ok u /\ accepts (mkParser http_version_h h c) (push_uris r u) s'.
Proof.
  intros H.
  destruct (accepts_loop (fun l => (mkParser uri h c, push_uris r l)) (fun c => negb (is_CTL c)) SP http_version_h s [])
    as (u & s2 & -> & Hu & Ha).
  - intros l y. cbn [fst snd consume consume_header_line state]. destruct (y =? SP); [done|]. destruct (is_CTL y); [done|].
    unfold step, push_uri, push_uris. cbn. by rewrite <- app_assoc.
  - unfold push_uris. rewrite app_nil_r. destruct r. exact H.
  - exists u, s2. split; [done|]. split; [|exact Ha]. eapply Forall_impl; [exact Hu|]. intros x [Hx Hs].
    split; [by apply negb_true_iff|done].
Qed.

Lemma accepts_digits h c r s q1 q2 stop q :
  (forall x, consume (mkParser q1 h c) r x = expect (mkParser q1 h c) r (is_digit x) q2) ->
  (forall x, consume (mkParser q2 h c) r x =
     if x =? stop then step (mkParser q2 h c) r q else expect (mkParser q2 h c) r (is_digit x) q2) ->
  accepts (mkParser q1 h c) r s ->
  exists d s', s = d ++ stop :: s' /\ digits d /\ accepts (mkParser q h c) r s'.
Proof.
  intros H1 H2 H. apply (accepts_expect _ _ _ is_digit q2) in H as (x & s1 & -> & Hx & H); [|done].
  destruct (accepts_loop (fun _ => (mkParser q2 h c, r)) is_digit stop q s1 []) as (d & s2 & -> & Hd & Ha);
    [intros l y; cbn [fst snd]; rewrite H2; unfold expect, step; by destruct (y =? stop), (is_digit y)|exact H|].
  exists (x :: d), s2. split; [done|]. split; [|exact Ha]. split; [done|].
  constructor; [done|]. eapply Forall_impl; [exact Hd|]. by intros ? [? _].
Qed.

Lemma accepts_const p r s c q :
  (forall x, consume p r x = expect p r (x =? c) q) -> accepts p r s ->
  exists s', s = c :: s' /\ accepts (mkParser q (current_header p) (selected_compression p)) r s'.
Proof.
  intros Hc H. apply (accepts_expect _ _ _ (fun x => x =? c) q) in H as (x & s' & -> & Hx & H); [|done].
  apply Z.eqb_eq in Hx as ->. by exists s'.
Qed.

Lemma accepts_version h c r s :
  accepts (mkParser http_version_h h c) r s ->
  exists major minor s', s = [72; 84; 84; 80; 47] ++ major ++ [46] ++ minor ++ [CR; LF] ++ s' /\
    digits major /\ digits minor /\ accepts (mkParser header_line_start h c) r s'.
Proof.
  intros H.
  apply (accepts_const _ _ _ 72 http_version_t_1) in H as (s1 & -> & H); [|done].
  apply (accepts_const _ _ _ 84 http_version_t_2) in H as (s2 & -> & H); [|done].
  apply (accepts_const _ _ _ 84 http_version_p) in H as (s3 & -> & H); [|done].
  apply (accepts_const _ _ _ 80 http_version_slash) in H as (s4 & -> & H); [|done].
  apply (accepts_const _ _ _ 47 http_version_major_start) in H as (s5 & -> & H); [|done].
  apply (accepts_digits h c r s5 http_version_major_start http_version_major 46 http_version_minor_start) in H
    as (major & s6 & -> & Hj & H); [|done|done].
  apply (accepts_digits h c r s6 http_version_minor_start http_version_minor CR expecting_newline_1) in H
    as (minor & s7 & -> & Hi & H); [|done|done].
  apply (accepts_const _ _ _ LF header_line_start) in H as (s8 & -> & H); [|done].
  by exists major, minor, s8.
Qed.

Lemma accepts_header_rest c r name s :
  accepts (mkParser header_name (mkHeader name []) c) r s ->
  exists n v s', s = n ++ [58] ++ v ++ [CR; LF] ++ s' /\ Forall (fun c => is_token c = true) n /\ value_ok v /\
    accepts (mkParser header_line_start (stored_header (mkHeader (name ++ n) v)) c) r s'.
Proof.
  intros H.
  destruct (accepts_loop (fun l => (mkParser header_name (mkHeader (name ++ l) []) c, r)) is_token 58 header_value s [])
    as (n & s1 & -> & Hn & Ha).
  { intros l y. cbn [fst snd consume consume_header_line state]. unfold is_token, step. destruct (y =? 58); [done|].
    destruct (_ || _); [done|]. cbn. by rewrite <- app_assoc. }
  { rewrite app_nil_r. exact H. }
  cbn in Ha.
  destruct (accepts_loop (fun l => (mkParser header_value (mkHeader (name ++ n) (filter (fun c => c <> SP) l)) c, r))
    (fun c => negb (is_CTL c)) CR expecting_newline_2 s1 []) as (v & s2 & -> & Hv & Hb).
  { intros l y. cbn [fst snd consume consume_header_line state]. rewrite filter_app. destruct (Z.eqb_spec y SP) as [->|Hs].
    - rewrite (filter_cons_False _ SP) by (intros E; by apply E). cbn. by rewrite app_nil_r.
    - rewrite (filter_cons_True _ y) by done. destruct (y =? CR); [done|]. by destruct (is_CTL y). }
  { exact Ha. }
  apply (accepts_const _ _ _ LF header_line_start) in Hb as (s3 & -> & Hb); [|done].
  exists n, v, s3. split; [done|]. split; [|split; [|exact Hb]].
  - eapply Forall_impl; [exact Hn|]. by intros ? [? _].
  - eapply Forall_impl; [exact Hv|]. intros x [Hx _]. by apply negb_true_iff.
Qed.

Lemma accepts_headers n : forall h c r s, (length s < n)%nat ->
  accepts (mkParser header_line_start h c) r s ->
  exists hs, s = concat (render_header <$> hs) ++ [CR; LF] ++ V.2 /\ Forall header_ok hs /\
    V.1.2 = apply_headers hs (finish_header h r) /\
    selected_compression V.1.1 = apply_compression hs (finish_compression h c).
Proof.
  induction n as [|n IH]; intros h c r s Hn H; [lia|].
  apply accepts_cons in H as (x & s1 & -> & H). cbn [consume consume_header_line state current_header selected_compression] in H.
  destruct (Z.eqb_spec x CR) as [->|Hcr].
  - cbn in H. apply accepts_cons in H as (y & s2 & -> & H). cbn [consume consume_header_line state] in H.
    destruct (Z.eqb_spec y LF) as [->|Hlf]; [|by destruct H]. destruct H as (_ & Hp & Hr & Hs).
    exists []. rewrite <- Hs, <- Hp, <- Hr. done.
  - destruct (negb (is_char x) || is_CTL x || is_special x) eqn:Hb; [by destruct H|].
    apply accepts_header_rest in H as (nm & v & s' & -> & Hnm & Hv & H).
    apply IH in H as (hs & -> & Hhs & HR & HC).
    2:{ rewrite length_cons, !length_app in Hn. simpl in Hn. rewrite ?length_app in Hn. simpl in Hn. lia. }
    exists (mkHeader (x :: nm) v :: hs). cbn [fmap list_fmap concat].
    change (render_header (mkHeader (x :: nm) v)) with ((x :: nm) ++ [58] ++ v ++ [CR; LF]).
    split; [rewrite <- !app_assoc; cbn [app]; rewrite <- ?app_assoc; reflexivity|]. split; [|by split].
    constructor; [|done]. split; [|done]. split; [done|]. constructor; [|done]. unfold is_token. by rewrite Hb.
Qed.
End inversion.

(** C28: the parser accepts exactly the requests of the grammar: a method
    token, a target without spaces and controls, HTTP/digits.digits, header
    lines of a token, a colon and a value without controls, and an empty line.
    The stored target is the one of the request; referrer, agent and connection
    are the values, without spaces, of the last Referer, User-Agent and Connection
    header, in any case of letters, and empty without one; the compression is
    that of the last Accept-Encoding header whose value, without spaces, contains
    gzip, which is preferred, or deflate, and none without one. *)
Theorem parse_language s c r :
  (exists p, parse RequestParser_new empty_request s = (valid, c, p, r)) <->
  exists m u major minor hs rest,
    token m /\ uri_ok u /\ digits major /\ digits minor /\ Forall header_ok hs /\
    s = render m u major minor hs ++ rest /\ stores u hs r c.
Proof.
  split.
  - intros (p & H). unfold parse in H. destruct (run RequestParser_new empty_request s) as [[[st p'] r'] rest] eqn:E.
    injection H as -> Hc -> ->. assert (accepts (p, r, rest) RequestParser_new empty_request s) as Ha by exact E.
    apply accepts_method in Ha as (m & s1 & -> & Hm & Ha). apply accepts_uri in Ha as (u & s2 & -> & Hu & Ha).
    apply accepts_version in Ha as (major & minor & s3 & -> & Hj & Hi & Ha).
    apply (accepts_headers _ (S (length s3))) in Ha as (hs & -> & Hhs & HR & HC); [|lia]. cbn [fst snd] in *.
    exists m, u, major, minor, hs, rest. do 5 (split; [done|]). split; [|apply stores_fold; split; [exact HR|rewrite <- Hc; exact HC]].
    unfold render. rewrite <- !app_assoc. cbn [app]. by rewrite <- ?app_assoc.
  - intros (m & u & major & minor & hs & rest & Hm & Hu & Hj & Hi & Hhs & -> & [-> ->]%stores_fold).
    destruct (parse_render m u major minor hs rest Hm Hu Hj Hi Hhs) as (p & Hp & Hc).
    exists p. unfold parse. rewrite Hp, Hc. done.
Qed.

Lemma parse_language_witness :
  exists m u major minor hs rest,
    token m /\ example_request = render m u major minor hs ++ rest /\ u = str "/route/v1/driving/1,2;3,4" /\
    last_deciding (says (str "User-Agent")) hs [] (str "MozillaFirefox").
Proof.
  destruct (proj1 (parse_language example_request gzip_rfc1952
    (mkRequest (str "/route/v1/driving/1,2;3,4") [] (str "MozillaFirefox") []))) as
    (m & u & major & minor & hs & rest & Hm & _ & _ & _ & _ & Hs & [Hu _ Ha _ _]).
  - eexists. vm_compute. reflexivity.
  - exists m, u, major, minor, hs, rest. split; [exact Hm|]. split; [exact Hs|]. split; [rewrite <- Hu; reflexivity|exact Ha].
Defined.

(** A tab in a header value, which HTTP allows, makes the request invalid. *)
Lemma tab_in_value_invalid :
  exists c p r, parse RequestParser_new empty_request
    (str "GET / HTTP/1.1" ++ [CR; LF] ++ str "Accept:" ++ [TAB] ++ str "x" ++ [CR; LF; CR; LF]) = (invalid, c, p, r).
Proof. eexists _, _, _. vm_compute. reflexivity. Qed.
