(* ===== verification/ContractorSearch.v ===== *)
(** * The witness search of the contraction

    Model of include/contractor/contractor_graph.hpp, contractor_heap.hpp and
    src/contractor/contractor_search.cpp: a Dijkstra search from one node that
    avoids the node under contraction, bounded by a number of settled nodes, a
    weight and a number of targets.  The proofs use the contract of the queue
    only, so they hold for every index storage. *)
From Stdlib Require Import SpecFloat.
From S2P Require Import Prelude Walks QueryHeap DynamicGraph.

(** ** Data *)

Record ContractorHeapData : Type := mkContractorHeapData { hop : Z; is_target : bool }.

Record ContractorEdgeData : Type := mkContractorEdgeData {
  weight : Z;
  duration : Z;
  distance : float32;
  edge_id : Z;
  originalEdges : Z;
  shortcut : bool;
  forward : bool;
  backward : bool
}.

(** The constructor clamps the 29-bit counter. *)
Definition ContractorEdgeData_new (weight duration : Z) (distance : float32)
    (original_edges id : Z) (shortcut forward backward : bool) : ContractorEdgeData :=
  mkContractorEdgeData weight duration distance id
    (Z.min (2 ^ 29 - 1) original_edges) shortcut forward backward.

Abbreviation ContractorGraph := (DynamicGraph ContractorEdgeData).
Abbreviation ContractorEdge := (InputEdge ContractorEdgeData).

(** ** The search *)

Section search.
Context {St H Handle : Type} `{IndexStorage St, MutableHeap H Handle}.
Abbreviation ContractorHeap := (QueryHeap St H Handle ContractorHeapData).
Implicit Types (heap : ContractorHeap) (graph : ContractorGraph).

(** One iteration of the loop over the edges of a node, for a forward edge to
    a node that is not forbidden. *)
Definition relax_to heap (to to_weight current_hop : Z) : option ContractorHeap :=
  toHeapNode ← GetHeapNodeIfWasInserted heap to;
  match toHeapNode with
  | None => Insert heap to to_weight (mkContractorHeapData current_hop false)
  | Some i =>
      hn ← inserted_nodes heap !z i;
      if to_weight <? hn_weight hn then
        h1 ← (h0 ← set_weight_at heap i to_weight; DecreaseKey_node h0 i);
        hn' ← inserted_nodes h1 !z i;
        set_data_at h1 i (mkContractorHeapData current_hop (is_target (hn_data hn')))
      else Some heap
  end.

Fixpoint relax_edges heap graph (range : list Z) (node_weight current_hop forbidden_node : Z)
  : option ContractorHeap :=
  match range with
  | [] => Some heap
  | edge :: range =>
      data ← GetEdgeData graph edge;
      if negb (forward data)
      then relax_edges heap graph range node_weight current_hop forbidden_node
      else
        to ← GetTarget graph edge;
        if forbidden_node =? to
        then relax_edges heap graph range node_weight current_hop forbidden_node
        else
          heap' ← relax_to heap to (weight_add node_weight (weight data)) current_hop;
          relax_edges heap' graph range node_weight current_hop forbidden_node
  end.

Definition relaxNode heap graph (node node_weight forbidden_node : Z) : option ContractorHeap :=
  data ← GetData heap node;
  let current_hop := swrap 16 (hop data + 1) in
  range ← GetAdjacentEdgeRange graph node;
  relax_edges heap graph range node_weight current_hop forbidden_node.

(** The [while] loop; [nodes] and [found] are its two counters. *)
Fixpoint search_loop (fuel : nat) heap graph
    (number_of_targets node_limit weight_limit forbidden_node nodes found : Z)
  : option ContractorHeap :=
  match fuel with
  | O => None
  | S fuel =>
      if Empty heap then Some heap
      else
        '(node, heap) ← DeleteMin heap;
        node_weight ← GetKey heap node;
        let nodes := nodes + 1 in
        if node_limit <? nodes then Some heap
        else if weight_limit <? node_weight then Some heap
        else
          data ← GetData heap node;
          let found := if is_target data then found + 1 else found in
          if is_target data && (number_of_targets <=? found) then Some heap
          else
            heap' ← relaxNode heap graph node node_weight forbidden_node;
            search_loop fuel heap' graph number_of_targets node_limit weight_limit
              forbidden_node nodes found
  end.

Definition search heap graph (number_of_targets node_limit weight_limit forbidden_node : Z)
  : option ContractorHeap :=
  search_loop (S (Z.to_nat (node_limit + 1))) heap graph number_of_targets node_limit
    weight_limit forbidden_node 0 0.
End search.

(** ** Arcs *)

(** Directed edges of a contractor graph: the [forward] entries. *)
Definition arc (g : ContractorGraph) (u v w : Z) : Prop :=
  exists x, x ∈ adj g u /\ target x = v /\ forward (data x) = true /\ weight (data x) = w.

(** Arcs that do not enter [f]. *)
Definition arc_avoiding (g : ContractorGraph) (f u v w : Z) : Prop := arc g u v w /\ v <> f.

(** ** The search on the abstract queue *)

Abbreviation qmap := (gmap Z (qentry ContractorHeapData)).

Definition relax_map (M : qmap) (to w current_hop : Z) : qmap :=
  match M !! to with
  | None => <[to := mkQentry w (mkContractorHeapData current_hop false) false]> M
  | Some e =>
      if w <? qe_weight e
      then <[to := mkQentry w (mkContractorHeapData current_hop (is_target (qe_data e))) false]> M
      else M
  end.

Fixpoint relax_all (M : qmap) (es : list (DynamicEdge ContractorEdgeData))
    (node_weight current_hop f : Z) : qmap :=
  match es with
  | [] => M
  | x :: es =>
      if forward (data x) && negb (f =? target x)
      then relax_all (relax_map M (target x) (node_weight + weight (data x)) current_hop) es
             node_weight current_hop f
      else relax_all M es node_weight current_hop f
  end.

Section relax.
Implicit Types (M : qmap).

Definition live (e : qentry ContractorHeapData) : Prop := qe_removed e = false.

(** Entries only get lighter. *)
Definition lowers M M' : Prop :=
  forall n e, M !! n = Some e -> exists e', M' !! n = Some e' /\ qe_weight e' <= qe_weight e /\
    qe_removed e' = qe_removed e /\ is_target (qe_data e') = is_target (qe_data e).

Lemma lowers_refl M : lowers M M.
Proof. intros n e Hn. exists e. split_and!; try done. Qed.

Lemma lowers_trans M1 M2 M3 : lowers M1 M2 -> lowers M2 M3 -> lowers M1 M3.
Proof.
  intros H1 H2 n e Hn. destruct (H1 n e Hn) as (e1 & E1 & W1 & R1 & T1).
  destruct (H2 n e1 E1) as (e2 & E2 & W2 & R2 & T2).
  exists e2. split; [done|]. split; [lia|]. split; congruence.
Qed.

Lemma relax_map_ok M to w h :
  (forall e, M !! to = Some e -> qe_removed e = true -> qe_weight e <= w) ->
  lowers M (relax_map M to w h) /\
  (exists e, relax_map M to w h !! to = Some e /\ qe_weight e <= w) /\
  (forall n e, relax_map M to w h !! n = Some e ->
     M !! n = Some e \/ (n = to /\ live e /\ qe_weight e = w)) /\
  (forall n e, M !! n = Some e -> qe_removed e = true -> relax_map M to w h !! n = Some e) /\
  (size (relax_map M to w h) <= S (size M))%nat.
Proof.
  intros Hrem. unfold relax_map. destruct (M !! to) as [e|] eqn:E.
  - destruct (Z.ltb_spec w (qe_weight e)) as [Hlt|Hge].
    2:{ split_and!; [apply lowers_refl|by exists e|by left|done|lia]. }
    assert (qe_removed e = false) as Hl.
    { destruct (qe_removed e) eqn:Er; [|done]. specialize (Hrem e eq_refl Er). lia. }
    split_and!.
    + intros n e' Hn. destruct (decide (n = to)) as [->|Hne].
      * rewrite lookup_insert_eq. eexists. split; [done|]. assert (e' = e) as -> by congruence.
        simpl. split; [lia|]. by rewrite Hl.
      * rewrite lookup_insert_ne by done. exists e'. split_and!; try done.
    + rewrite lookup_insert_eq. eexists. split; [done|]. simpl. lia.
    + intros n e'. destruct (decide (n = to)) as [->|Hne].
      * rewrite lookup_insert_eq. intros [= <-]. by right.
      * rewrite lookup_insert_ne by done. by left.
    + intros n e' Hn Hr. rewrite lookup_insert_ne; [done|]. intros ->. congruence.
    + rewrite map_size_insert_Some; eauto.
  - split_and!.
    + intros n e' Hn. rewrite lookup_insert_ne by congruence. exists e'. split_and!; try done.
    + rewrite lookup_insert_eq. eexists. split; [done|]. simpl. lia.
    + intros n e'. destruct (decide (n = to)) as [->|Hne].
      * rewrite lookup_insert_eq. intros [= <-]. by right.
      * rewrite lookup_insert_ne by done. by left.
    + intros n e' Hn Hr. rewrite lookup_insert_ne; [done|]. congruence.
    + by rewrite map_size_insert_None.
Qed.

Lemma relax_all_ok M es w h f :
  (forall n e, M !! n = Some e -> qe_removed e = true -> qe_weight e <= w) ->
  (forall x, x ∈ es -> forward (data x) = true -> 0 <= weight (data x)) ->
  lowers M (relax_all M es w h f) /\
  (forall x, x ∈ es -> forward (data x) = true -> target x <> f ->
     exists e, relax_all M es w h f !! target x = Some e /\ qe_weight e <= w + weight (data x)) /\
  (forall n e, relax_all M es w h f !! n = Some e -> M !! n = Some e \/
     (live e /\ exists x, x ∈ es /\ forward (data x) = true /\ target x = n /\ n <> f /\
        qe_weight e = w + weight (data x))) /\
  (forall n e, M !! n = Some e -> qe_removed e = true -> relax_all M es w h f !! n = Some e) /\
  (size (relax_all M es w h f) <= size M + length es)%nat.
Proof.
  revert M. induction es as [|x es IH]; intros M Hrem Hpos; cbn [relax_all].
  { split_and!; [apply lowers_refl|by intros x Hx%elem_of_nil|by left|done|simpl; lia]. }
  assert (forall y, y ∈ es -> forward (data y) = true -> 0 <= weight (data y)) as Hpos'
    by (intros y Hy; apply Hpos; by right).
  destruct (forward (data x)) eqn:Ef; simpl.
  2:{ destruct (IH M Hrem Hpos') as (A & B & C & D & F). split_and!; try done; [| |lia].
      - intros y [->|Hy]%elem_of_cons; [congruence|by apply B].
      - intros n e Hn. destruct (C n e Hn) as [?|(L & y & Hy & ?)]; [by left|].
        right. split; [done|]. exists y. split; [by right|done]. }
  destruct (Z.eqb_spec f (target x)) as [Et|Et]; simpl.
  { destruct (IH M Hrem Hpos') as (A & B & C & D & F). split_and!; try done; [| |lia].
    - intros y [->|Hy]%elem_of_cons; [congruence|by apply B].
    - intros n e Hn. destruct (C n e Hn) as [?|(L & y & Hy & ?)]; [by left|].
      right. split; [done|]. exists y. split; [by right|done]. }
  assert (0 <= weight (data x)) as Hx by (apply Hpos; [by left|done]).
  destruct (relax_map_ok M (target x) (w + weight (data x)) h) as (A1 & (e1 & E1 & W1) & C1 & D1 & F1).
  { intros e He Hr. specialize (Hrem _ _ He Hr). lia. }
  set (M1 := relax_map M (target x) (w + weight (data x)) h) in *.
  destruct (IH M1) as (A & B & C & D & F); [|done|].
  { intros n e Hn Hr. destruct (C1 n e Hn) as [Ho|(_ & Hl & _)]; [by eapply Hrem|]. unfold live in Hl. congruence. }
  split_and!.
  - by eapply lowers_trans.
  - intros y [->|Hy]%elem_of_cons Hf Hn; [|by apply B].
    destruct (A _ _ E1) as (e & E & W & _). exists e. split; [done|lia].
  - intros n e Hn. destruct (C n e Hn) as [Ho|(L & y & Hy & ?)].
    + destruct (C1 n e Ho) as [?|(-> & Hl & Hw)]; [by left|]. right. split; [done|].
      exists x. split_and!; try done. by left.
    + right. split; [done|]. exists y. split; [by right|done].
  - intros n e Hn Hr. apply D; [|done]. by apply D1.
  - lia.
Qed.
End relax.

(** ** The implementation relaxes as the abstract queue does *)

Section refinement.
Context {St H Handle : Type}.
Context `{SL : IndexStorageLaws St, HL : MutableHeapLaws H Handle}.
Context (num : Z).
Implicit Types (q : QueryHeap St H Handle ContractorHeapData) (M : qmap).

Lemma relax_to_ok q M c r to w h :
  good num q M c r -> 0 <= to < num -> Z.of_nat (size M) + 1 < r ->
  (forall e, M !! to = Some e -> qe_removed e = true -> qe_weight e <= w) ->
  exists q', relax_to q to w h = Some q' /\ good num q' (relax_map M to w h) c r.
Proof.
  intros G Hto Hsz Hrem. pose proof G as [R V Rm]. unfold relax_to, relax_map.
  pose proof (GetHeapNodeIfWasInserted_spec q M to R (V to Hto)) as Hget.
  destruct (M !! to) as [e|] eqn:E.
  - destruct Hget as (i & hn & Hg & Hi & Hnode & He). rewrite Hg. cbn [mbind option_bind].
    rewrite Hi. cbn [mbind option_bind]. subst to e. cbn [entry_of qe_weight].
    destruct (Z.ltb_spec w (hn_weight hn)) as [Hlt|Hge]; [|by exists q].
    assert (qe_removed (entry_of hn) = false) as Hl.
    { destruct (qe_removed (entry_of hn)) eqn:Er; [|done].
      specialize (Hrem _ eq_refl Er). simpl in Hrem. lia. }
    destruct (set_weight_DecreaseKey_spec q M i hn w R Hi Hl) as (q1 & hn1 & E1 & R1 & Hi1 & Hn1 & He1 & Hni1);
      [lia|].
    rewrite E1. cbn [mbind option_bind]. rewrite Hi1. cbn [mbind option_bind].
    destruct (set_data_at_spec q1 _ i hn1 (mkContractorHeapData h (is_target (hn_data hn1))) R1 Hi1)
      as (q2 & E2 & R2 & Hni2).
    rewrite E2. exists q2. split; [done|]. rewrite Hn1, He1, insert_insert_eq in R2. cbn [qe_removed] in R2.
    unfold entry_of in He1. injection He1 as Hw1 Hd1 _. rewrite Hw1, Hd1 in R2.
    eapply good_keep; [exact G|exact R2|congruence].
  - rewrite Hget. cbn [mbind option_bind]. by apply good_Insert.
Qed.

Context (g : ContractorGraph) (maxw : Z).
Context (Hwf : dg_wf g) (Hnum : number_of_nodes g = num).
Context (Hclosed : forall n x, x ∈ adj g n -> 0 <= target x < num).
Context (Hpos : forall n x, x ∈ adj g n -> 0 <= weight (data x) <= maxw).

Lemma relax_edges_ok node range es q M c r w h f :
  (forall i e, range !! i = Some e -> exists x, es !! i = Some x /\ edge_list g !z e = Some x) ->
  length range = length es -> es ⊆ adj g node ->
  good num q M c r -> Z.of_nat (size M) + Z.of_nat (length es) + 1 < r ->
  0 <= w -> w + maxw < 2 ^ 31 ->
  (forall n e, M !! n = Some e -> qe_removed e = true -> qe_weight e <= w) ->
  exists q', relax_edges q g range w h f = Some q' /\ good num q' (relax_all M es w h f) c r.
Proof using Hclosed Hpos.
  revert range q M. induction es as [|x es IH]; intros [|e range] q M Hr Hlen Hsub G Hsz Hw Hmax Hrem;
    try (simpl in Hlen; lia); cbn [relax_edges relax_all]; [by exists q|].
  destruct (Hr 0%nat e eq_refl) as (y & [= <-] & Hy). unfold GetEdgeData, GetTarget. rewrite Hy.
  cbn [mbind option_bind]. cbn [length] in Hlen, Hsz.
  assert (x ∈ adj g node) as Hx by (apply Hsub; by left).
  assert (es ⊆ adj g node) as Hsub' by (intros z Hz; apply Hsub; by right).
  assert (forall i e, range !! i = Some e -> exists x, es !! i = Some x /\ edge_list g !z e = Some x) as Hr'
    by (intros i e'; apply (Hr (S i))).
  destruct (forward (data x)) eqn:Ef; simpl; [|by apply IH; auto; lia].
  destruct (Z.eqb_spec f (target x)) as [Et|Et]; simpl; [by apply IH; auto; lia|].
  specialize (Hpos _ _ Hx) as Hwx. unfold weight_add. rewrite swrap_small by lia.
  destruct (relax_to_ok q M c r (target x) (w + weight (data x)) h G) as (q1 & -> & G1);
    [by eapply Hclosed|lia|intros e1 He1 Hr1; specialize (Hrem _ _ He1 Hr1); lia|].
  cbn [mbind option_bind].
  destruct (relax_map_ok M (target x) (w + weight (data x)) h) as (_ & _ & C1 & _ & F1);
    [intros e1 He1 Hr1; specialize (Hrem _ _ He1 Hr1); lia|].
  apply IH; [done|lia|done|done|lia|done|done|].
  intros n e1 Hn Hr1. destruct (C1 n e1 Hn) as [Ho|(_ & Hl & _)]; [by eapply Hrem|]. unfold live in Hl. congruence.
Qed.

Lemma relaxNode_ok q M c r node e f :
  good num q M c r -> M !! node = Some e -> 0 <= node < num ->
  Z.of_nat (size M) + zlen (adj g node) + 1 < r -> 0 <= qe_weight e -> qe_weight e + maxw < 2 ^ 31 ->
  (forall n e', M !! n = Some e' -> qe_removed e' = true -> qe_weight e' <= qe_weight e) ->
  exists q' h, relaxNode q g node (qe_weight e) f = Some q' /\
    good num q' (relax_all M (adj g node) (qe_weight e) h f) c r.
Proof using Hclosed Hpos Hwf Hnum.
  intros G He Hn Hsz Hw Hmax Hrem. unfold relaxNode.
  rewrite (GetData_spec _ _ _ _ (gd_repr _ _ _ _ _ G) He). cbn [mbind option_bind].
  pose proof (dw_nodes _ Hwf) as Ln. destruct (zget_is_some (node_array g) node) as [nd Hnd]; [lia|].
  rewrite (adjacent_range _ _ _ Hwf Hnd). cbn [mbind option_bind].
  destruct (dw_range _ Hwf _ _ Hnd) as (R1 & R2 & R3).
  assert (adj g node = zslice (edge_list g) (first_edge nd) (edges nd)) as Ea by (unfold adj; by rewrite Hnd).
  assert (length (adj g node) = Z.to_nat (edges nd)) as La.
  { rewrite Ea. pose proof (zslice_len (edge_list g) (first_edge nd) (edges nd)). unfold zlen in *. lia. }
  destruct (relax_edges_ok node (seqZ (first_edge nd) (edges nd)) (adj g node) q M c r (qe_weight e)
    (swrap 16 (hop (qe_data e) + 1)) f) as (q' & E & G'); try done; try lia.
  - intros i e' Hi. apply lookup_seqZ in Hi as [-> Hi].
    destruct (zget_is_some (edge_list g) (first_edge nd + Z.of_nat i)) as [x Hx]; [lia|].
    exists x. split; [|done]. rewrite Ea, <- zget_nat, zslice_get by lia. done.
  - rewrite length_seqZ. lia.
  - eexists _, _. split; [exact E|exact G'].
Qed.
End refinement.

(** ** Correctness of the search *)

Section search_correct.
Context (g : ContractorGraph) (s f : Z).
Context (Hpos : forall n x, x ∈ adj g n -> 0 <= weight (data x)).
Implicit Types (M : qmap).

Lemma arc_avoiding_nonneg u v w : arc_avoiding g f u v w -> 0 <= w.
Proof using Hpos. intros [(x & Hx & _ & _ & <-) _]. by eapply Hpos. Qed.

(** Every finite key is the weight of a walk that avoids [f]. *)
Definition keys_sound M : Prop :=
  forall n e, M !! n = Some e ->
    qe_weight e = INVALID_EDGE_WEIGHT \/ walk (arc_avoiding g f) s n (qe_weight e).

(** The keys of settled nodes are least. *)
Definition settled_exact M : Prop :=
  forall n e, M !! n = Some e -> qe_removed e = true ->
    forall p, walk (arc_avoiding g f) s n p -> qe_weight e <= p.

(** Loop invariant: all settled nodes are relaxed. *)
Record searching M : Prop := {
  sr_sound : keys_sound M;
  sr_start : exists e, M !! s = Some e /\ qe_weight e <= 0;
  sr_order : forall n e n' e', M !! n = Some e -> M !! n' = Some e' ->
    qe_removed e = true -> live e' -> qe_weight e <= qe_weight e';
  sr_relaxed : forall n e x, M !! n = Some e -> qe_removed e = true -> x ∈ adj g n ->
    forward (data x) = true -> target x <> f ->
    exists e', M !! target x = Some e' /\ qe_weight e' <= qe_weight e + weight (data x)
}.

Lemma keys_nonneg M n e : keys_sound M -> M !! n = Some e -> 0 <= qe_weight e.
Proof using Hpos.
  intros HS Hn. destruct (HS n e Hn) as [->|Hw]; [done|].
  eapply walk_nonneg; [|done]. apply arc_avoiding_nonneg.
Qed.

(** A walk ends in a settled node that is at least as close, or some queued
    node is at least as close as its end. *)
Lemma walk_frontier M v p :
  searching M -> walk (arc_avoiding g f) s v p ->
  (exists e, M !! v = Some e /\ qe_removed e = true /\ qe_weight e <= p) \/
  (exists u e, M !! u = Some e /\ live e /\ qe_weight e <= p).
Proof using Hpos.
  intros [_ (e0 & He0 & Hw0) _ Hrel] Hw. remember s as s0 eqn:Es in Hw.
  induction Hw as [n|s0 u t w w' Hw IH He]; subst.
  - destruct (qe_removed e0) eqn:E; [left|right]; eauto.
  - pose proof (arc_avoiding_nonneg _ _ _ He). destruct (IH eq_refl) as [(e & Hu & Hr & Hle)|(u' & e & Hu & Hl & Hle)].
    + destruct He as [(x & Hx & <- & Hf & <-) Hne].
      destruct (Hrel u e x Hu Hr Hx Hf Hne) as (e' & He' & Hle').
      destruct (qe_removed e') eqn:E; [left|right]; [exists e'|exists (target x), e'];
        (split; [done|]); (split; [done|lia]).
    + right. exists u', e. split; [done|]. split; [done|lia].
Qed.

Lemma searching_exact M : searching M -> settled_exact M.
Proof using Hpos.
  intros HS n e Hn Hr p Hp. destruct (walk_frontier M n p HS Hp) as [(e' & Hn' & _ & Hle)|(u & e' & Hu & Hl & Hle)].
  - congruence.
  - pose proof (sr_order _ HS _ _ _ _ Hn Hu Hr Hl). lia.
Qed.

Section pop.
Context (M : qmap) (n : Z) (e : qentry ContractorHeapData).
Context (HS : searching M) (Hn : M !! n = Some e) (Hl : live e).
Context (Hmin : forall n' e', M !! n' = Some e' -> qe_removed e' = false -> qe_weight e <= qe_weight e').
Let M1 : qmap := <[n := mkQentry (qe_weight e) (qe_data e) true]> M.

Lemma pop_lookup n' e' :
  M1 !! n' = Some e' -> (n' = n /\ e' = mkQentry (qe_weight e) (qe_data e) true) \/ (n' <> n /\ M !! n' = Some e').
Proof.
  unfold M1. destruct (decide (n' = n)) as [->|Hne].
  - rewrite lookup_insert_eq. intros [= <-]. by left.
  - rewrite lookup_insert_ne by done. by right.
Qed.

Lemma pop_has n' e' : M !! n' = Some e' -> exists e'', M1 !! n' = Some e'' /\ qe_weight e'' = qe_weight e'.
Proof using Hn.
  intros Hn'. unfold M1. destruct (decide (n' = n)) as [->|Hne].
  - rewrite lookup_insert_eq. eexists. split; [done|]. by assert (e' = e) as -> by congruence.
  - rewrite lookup_insert_ne by done. eauto.
Qed.

Lemma pop_sound : keys_sound M1.
Proof using HS Hn.
  intros n' e' [[-> ->]|[_ Hn']]%pop_lookup; [exact (sr_sound _ HS n e Hn)|exact (sr_sound _ HS n' e' Hn')].
Qed.

Lemma pop_exact : settled_exact M1.
Proof using HS Hn Hl Hmin Hpos.
  intros n' e' Hn' Hr p Hp. destruct (walk_frontier M n' p HS Hp) as [(e1 & H1 & Hr1 & Hle)|(u & e1 & Hu & Hl1 & Hle)].
  - apply pop_lookup in Hn' as [[-> ->]|[_ Hn']]; [unfold live in Hl; congruence|congruence].
  - apply pop_lookup in Hn' as [[-> ->]|[_ Hn']]; simpl.
    + specialize (Hmin _ _ Hu Hl1). lia.
    + pose proof (sr_order _ HS _ _ _ _ Hn' Hu Hr Hl1). lia.
Qed.

Lemma pop_removed n' e' : M1 !! n' = Some e' -> qe_removed e' = true -> qe_weight e' <= qe_weight e.
Proof using HS Hn Hl.
  intros [[-> ->]|[_ Hn']]%pop_lookup Hr; [simpl; lia|]. by eapply (sr_order _ HS n' e' n e).
Qed.

Lemma pop_live n' e' : M1 !! n' = Some e' -> live e' -> qe_weight e <= qe_weight e'.
Proof using Hmin. intros [[-> ->]|[_ Hn']]%pop_lookup Hr; [done|]. by eapply Hmin. Qed.

(** Settling and relaxing the closest queued node keeps the invariant. *)
Lemma pop_relax_searching h :
  qe_weight e < INVALID_EDGE_WEIGHT -> searching (relax_all M1 (adj g n) (qe_weight e) h f).
Proof using HS Hn Hl Hmin Hpos.
  intros Hfin. assert (walk (arc_avoiding g f) s n (qe_weight e)) as Hwn.
  { destruct (sr_sound _ HS n e Hn) as [E|Hw]; [lia|done]. }
  destruct (relax_all_ok M1 (adj g n) (qe_weight e) h f) as (A & B & C & D & _);
    [apply pop_removed|intros x Hx _; by eapply Hpos|].
  constructor.
  - intros n' e' Hn'. destruct (C n' e' Hn') as [Ho|(_ & x & Hx & Hf & Ht & Hne & Hw)];
      [by apply pop_sound|]. right. rewrite Hw. econstructor; [exact Hwn|]. split; [by exists x|done].
  - destruct (sr_start _ HS) as (e0 & He0 & Hw0). destruct (pop_has _ _ He0) as (e1 & He1 & Hw1).
    destruct (A _ _ He1) as (e2 & He2 & Hw2 & _). exists e2. split; [done|lia].
  - intros n1 e1 n2 e2 H1 H2 Hr1 Hl2.
    assert (qe_weight e1 <= qe_weight e) as Hle.
    { destruct (C n1 e1 H1) as [Ho|(Hl1 & _)]; [by eapply pop_removed|]. unfold live in Hl1. congruence. }
    destruct (C n2 e2 H2) as [Ho|(_ & x & Hx & _ & _ & _ & ->)].
    + pose proof (pop_live _ _ Ho Hl2). lia.
    + pose proof (Hpos _ _ Hx). lia.
  - intros n1 e1 x H1 Hr1 Hx Hf Ht.
    destruct (C n1 e1 H1) as [Ho|(Hl1 & _)]; [|unfold live in Hl1; congruence].
    apply pop_lookup in Ho as [[-> ->]|[Hne Ho]]; [by apply B|].
    destruct (sr_relaxed _ HS n1 e1 x Ho Hr1 Hx Hf Ht) as (e2 & He2 & Hw2).
    destruct (pop_has _ _ He2) as (e3 & He3 & Hw3). destruct (A _ _ He3) as (e4 & He4 & Hw4 & _).
    exists e4. split; [done|lia].
Qed.
End pop.
End search_correct.

Section search_run.
Context {St H Handle : Type}.
Context `{SL : IndexStorageLaws St, HL : MutableHeapLaws H Handle}.
Context (g : ContractorGraph) (s f maxw deg : Z).
Let num : Z := number_of_nodes g.
Context (Hwf : dg_wf g).
Context (Hclosed : forall n x, x ∈ adj g n -> 0 <= target x < num).
Context (Hpos : forall n x, x ∈ adj g n -> 0 <= weight (data x) <= maxw).
Context (Hdeg : forall n, zlen (adj g n) <= deg).
Implicit Types (q : QueryHeap St H Handle ContractorHeapData) (M : qmap).

(** The queue a search leaves behind. *)
Record searched M M' : Prop := {
  sd_sound : keys_sound g s f M';
  sd_exact : settled_exact g s f M';
  sd_has : forall n, is_Some (M !! n) -> is_Some (M' !! n)
}.

Lemma search_loop_ok fuel q M c r targets node_limit weight_limit nodes found :
  good num q M c r -> searching g s f M -> (forall n e, M !! n = Some e -> 0 <= n < num) ->
  0 <= nodes <= node_limit ->
  Z.of_nat (size M) + 1 + (node_limit - nodes) * deg < r ->
  weight_limit + maxw < INT32_MAX -> 0 <= maxw -> (Z.to_nat (node_limit - nodes) < fuel)%nat ->
  exists q' M', search_loop fuel q g targets node_limit weight_limit f nodes found = Some q' /\
    good num q' M' c r /\ searched M M'.
Proof using Hwf Hclosed Hpos Hdeg.
  assert (forall n x, x ∈ adj g n -> 0 <= weight (data x)) as Hpos0
    by (intros n x Hx; by apply (Hpos n)).
  revert q M nodes found. induction fuel as [|fuel IH]; intros q M nodes found G HS Hdom Hnodes Hroom Hlim Hmw Hfuel; [lia|].
  cbn [search_loop]. pose proof (gd_repr _ _ _ _ _ G) as R. destruct (Empty q) eqn:Eq.
  { exists q, M. split; [done|]. split; [done|]. constructor; [apply HS|by apply searching_exact|done]. }
  destruct (DeleteMin_spec q M R) as (n & e & q1 & E1 & Hn & Hl & Hmin & R1 & Hni & _).
  { apply dec_stable. intros Hno. apply not_true_iff_false in Eq. apply Eq, (Empty_spec _ _ R).
    intros n e Hn. destruct (qe_removed e) eqn:Er; [done|]. destruct Hno. eauto. }
  rewrite E1. cbn [mbind option_bind].
  set (M1 := <[n := mkQentry (qe_weight e) (qe_data e) true]> M) in *.
  assert (good num q1 M1 c r) as G1 by (by eapply good_keep).
  assert (M1 !! n = Some (mkQentry (qe_weight e) (qe_data e) true)) as Hn1 by apply lookup_insert_eq.
  rewrite (GetKey_spec _ _ _ _ R1 Hn1). cbn [mbind option_bind qe_weight].
  assert (searched M M1) as Hstop.
  { constructor; [by eapply pop_sound|by eapply pop_exact|]. intros m [e' Hm].
    destruct (pop_has M n e Hn m e' Hm) as (e'' & E'' & _). by exists e''. }
  destruct (Z.ltb_spec node_limit (nodes + 1)) as [Hnl|Hnl]; [by exists q1, M1|].
  destruct (Z.ltb_spec weight_limit (qe_weight e)) as [Hwl|Hwl]; [by exists q1, M1|].
  rewrite (GetData_spec _ _ _ _ R1 Hn1). cbn [mbind option_bind qe_data].
  destruct (is_target (qe_data e) && _); [by exists q1, M1|].
  pose proof (keys_nonneg g s f Hpos0 M n e (sr_sound _ _ _ _ HS) Hn) as Hw0.
  assert (size M1 = size M) as Hsz1 by (apply map_size_insert_Some; eauto).
  assert (0 <= deg) as Hd0 by (pose proof (Hdeg n); pose proof (zlen_nonneg (adj g n)); lia).
  destruct (relaxNode_ok num g maxw Hwf eq_refl Hclosed Hpos q1 M1 c r n _ f G1 Hn1)
    as (q2 & h & E2 & G2); simpl.
  - by eapply Hdom.
  - pose proof (Hdeg n). nia.
  - done.
  - unfold INT32_MAX in Hlim. lia.
  - intros n' e' Hn' Hr'. by eapply (pop_removed g s f M n e HS Hn Hl).
  - simpl in E2, G2. rewrite E2. cbn [mbind option_bind].
    set (M2 := relax_all M1 (adj g n) (qe_weight e) h f) in *.
    destruct (relax_all_ok M1 (adj g n) (qe_weight e) h f) as (A & _ & C & _ & F).
    { intros n' e' Hn' Hr'. by eapply (pop_removed g s f M n e HS Hn Hl). }
    { intros x Hx _. by eapply Hpos0. }
    fold M2 in A, C, F.
    destruct (IH q2 M2 (nodes + 1) (if is_target (qe_data e) then found + 1 else found) G2) as (q' & M' & E' & G' & S');
      try lia.
    + apply (pop_relax_searching g s f Hpos0 M n e); try done. unfold INVALID_EDGE_WEIGHT. lia.
    + intros n' e' Hn'. destruct (C n' e' Hn') as [Ho|(_ & x & Hx & _ & <- & _)]; [|by eapply Hclosed].
      apply pop_lookup in Ho as [[-> _]|[_ Ho]]; by eapply Hdom.
    + pose proof (Hdeg n). unfold zlen in *. nia.
    + exists q', M'. split; [exact E'|]. split; [done|].
      destruct S' as [S1 S2 S3]. constructor; [done|done|]. intros m Hm. apply S3.
      destruct (sd_has _ _ Hstop m Hm) as [e' Hm1]. destruct (A _ _ Hm1) as (e2 & He2 & _). by exists e2.
Qed.

(** The queue before a search: [s] at weight 0, the targets without a weight. *)
Definition search_start M : Prop :=
  (exists e, M !! s = Some e /\ qe_weight e = 0 /\ live e) /\
  forall n e, M !! n = Some e -> 0 <= n < num /\ live e /\
    (n <> s -> qe_weight e = INVALID_EDGE_WEIGHT).

Lemma search_start_searching M : search_start M -> searching g s f M.
Proof.
  intros [(e0 & He0 & Hw0 & Hl0) Hall]. constructor.
  - intros n e Hn. destruct (decide (n = s)) as [->|Hne].
    + assert (e = e0) as -> by congruence. rewrite Hw0. right. constructor.
    + left. by apply (Hall n e Hn).
  - exists e0. split; [done|lia].
  - intros n e n' e' Hn _ Hr. destruct (Hall n e Hn) as (_ & Hl & _). unfold live in Hl. congruence.
  - intros n e x Hn Hr. destruct (Hall n e Hn) as (_ & Hl & _). unfold live in Hl. congruence.
Qed.

Lemma search_ok q M c r targets node_limit weight_limit :
  good num q M c r -> search_start M -> 0 <= node_limit ->
  Z.of_nat (size M) + 1 + node_limit * deg < r -> 0 <= maxw -> weight_limit + maxw < INT32_MAX ->
  exists q' M', search q g targets node_limit weight_limit f = Some q' /\
    good num q' M' c r /\ searched M M'.
Proof using Hwf Hclosed Hpos Hdeg.
  intros G Hs Hnl Hroom Hmw Hlim. unfold search. apply search_loop_ok; try done; try lia.
  - by apply search_start_searching.
  - intros n e Hn. by apply (proj2 Hs n e).
Qed.

(** C11: The bounded witness search terminates without undefined behaviour over
    any index storage with enough room: every finite key it leaves is the
    weight of a walk from the source that never enters the forbidden node, and
    the keys of the settled nodes are the least such weights. *)
Theorem contractor_search_exact q M c r targets node_limit weight_limit
    (Hq : good num q M c r) (Hstart : search_start M) (Hlimit : 0 <= node_limit)
    (Hroom : Z.of_nat (size M) + 1 + node_limit * deg < r) (Hmax : 0 <= maxw)
    (Hweight : weight_limit + maxw < INT32_MAX) :
  exists q' M', search q g targets node_limit weight_limit f = Some q' /\ qh_repr q' M' /\
    (forall n, is_Some (M !! n) -> is_Some (M' !! n)) /\
    forall n e, M' !! n = Some e ->
      GetKey q' n = Some (qe_weight e) /\ WasRemoved q' n = Some (qe_removed e) /\
      (qe_weight e = INVALID_EDGE_WEIGHT \/ walk (arc_avoiding g f) s n (qe_weight e)) /\
      (qe_removed e = true -> forall p, walk (arc_avoiding g f) s n p -> qe_weight e <= p).
Proof using Hwf Hclosed Hpos Hdeg.
  destruct (search_ok q M c r targets node_limit weight_limit) as (q' & M' & E & [R _ _] & [S1 S2 S3]); try done.
  exists q', M'. split; [done|]. split; [done|]. split; [done|]. intros n e Hn.
  split; [by eapply GetKey_spec|]. split; [by eapply WasRemoved_spec|].
  split; [by apply S1|]. by apply S2.
Qed.
End search_run.

(** A square [0 -> 1 -> 3], [0 -> 2 -> 3]; the search from 0 to 3 avoids 1. *)
Definition demo_arc (w : Z) : ContractorEdgeData :=
  mkContractorEdgeData w w (S754_zero false) 0 1 false true false.

Definition square : ContractorGraph :=
  DynamicGraph_new 4 [mkInputEdge 0 1 (demo_arc 1); mkInputEdge 0 2 (demo_arc 2);
    mkInputEdge 1 3 (demo_arc 1); mkInputEdge 2 3 (demo_arc 2)].

Lemma square_wf : dg_wf square.
Proof.
  apply DynamicGraph_new_ok; [lia|cbn; lia|done|]. intros e He. set_unfold. unfold UINT32_MAX.
  by destruct He as [->|[->|[->|[->|[]]]]].
Qed.

Lemma square_edges n x : x ∈ adj square n ->
  x ∈ [mkDynamicEdge 1 (demo_arc 1); mkDynamicEdge 2 (demo_arc 2);
       mkDynamicEdge 3 (demo_arc 1); mkDynamicEdge 3 (demo_arc 2)].
Proof. intros (e & nd & _ & _ & He)%edge_of_adj; [|exact square_wf]. by apply zget_elem in He. Qed.

Lemma contractor_search_exact_witness :
  exists (q q' : QueryHeap ArrayStorage RefHeap Z ContractorHeapData) k,
    search q square 1 2000 4 1 = Some q' /\ GetKey q' 3 = Some k /\
    (k = INVALID_EDGE_WEIGHT \/ walk (arc_avoiding square 1) 0 3 k).
Proof.
  destruct (good_Insert 4 (QueryHeap_new (ArrayStorage_new 4) : QueryHeap ArrayStorage RefHeap Z _)
    ∅ 0 10000 0 0 (mkContractorHeapData 0 false)) as (q1 & _ & G1).
  { constructor; [apply qh_repr_nil|..]; simpl; try done; repeat constructor; done. }
  { done. }
  { lia. }
  { rewrite map_size_empty. lia. }
  destruct (good_Insert 4 q1 _ 0 10000 3 INVALID_EDGE_WEIGHT (mkContractorHeapData 0 true) G1) as (q2 & _ & G2);
    [done|lia|by vm_compute|].
  destruct (contractor_search_exact (St := ArrayStorage) (H := RefHeap) square 0 1 2 4 square_wf) with (q := q2) (c := 0) (r := 10000)
    (targets := 1) (node_limit := 2000) (weight_limit := 4)
    (M := <[3 := mkQentry INVALID_EDGE_WEIGHT (mkContractorHeapData 0 true) false]>
            (<[0 := mkQentry 0 (mkContractorHeapData 0 false) false]> (∅ : qmap)))
    as (q' & M' & E & _ & Hhas & Hkeys).
  - intros n x Hx%square_edges. change (number_of_nodes square) with 4. set_unfold.
    by destruct Hx as [->|[->|[->|[->|[]]]]].
  - intros n x Hx%square_edges. set_unfold. by destruct Hx as [->|[->|[->|[->|[]]]]].
  - intros n. destruct (decide (0 <= n < 4)) as [Hn|Hn].
    + assert (n = 0 \/ n = 1 \/ n = 2 \/ n = 3) as [->|[->|[->| ->]]] by lia; by vm_compute.
    + unfold adj. rewrite (zget_none (node_array square)) by exact Hn. by vm_compute.
  - exact G2.
  - split; [by eexists|]. intros n e Hn. change (number_of_nodes square) with 4.
    apply lookup_insert_Some in Hn as [[<- <-]|[_ Hn]]; [by repeat split|].
    apply lookup_insert_Some in Hn as [[<- <-]|[_ Hn]]; [by repeat split|done].
  - lia.
  - by vm_compute.
  - lia.
  - by vm_compute.
  - destruct (Hhas 3) as [e He]; [by eexists|]. destruct (Hkeys 3 e He) as (Hk & _ & Hw & _).
    exists q2, q', (qe_weight e). split; [exact E|]. split; [exact Hk|exact Hw].
Defined.
