(* ===== verification/GraphContractor.v ===== *)
(** * Node contraction

    Model of src/contractor/graph_contractor.cpp: [ContractNode] replaces the
    two-hop paths through a node by shortcuts unless a witness search finds a
    path that is not longer, [IsNodeIndependent] selects nodes that can be
    contracted at the same time, and the edges into contracted nodes are
    removed.  The main theorem: contracting an independent set keeps all
    shortest-path weights between the remaining nodes. *)
From Stdlib Require Import SpecFloat.
From S2P Require Import Prelude Walks QueryHeap Permutation DynamicGraph ContractorSearch.

(** ** Data *)

Record ContractionStats : Type := mkContractionStats {
  edges_deleted_count : Z;
  edges_added_count : Z;
  original_edges_deleted_count : Z;
  original_edges_added_count : Z
}.

Definition ContractionStats_new : ContractionStats := mkContractionStats 0 0 0 0.

(** [int] addition. *)
Definition iadd (a b : Z) : Z := swrap 32 (a + b).

Definition stats_deleted (s : ContractionStats) (original : Z) : ContractionStats :=
  mkContractionStats (iadd (edges_deleted_count s) 1) (edges_added_count s)
    (iadd (original_edges_deleted_count s) original) (original_edges_added_count s).

Definition stats_added (s : ContractionStats) (original : Z) : ContractionStats :=
  mkContractionStats (edges_deleted_count s) (iadd (edges_added_count s) 2)
    (original_edges_deleted_count s) (iadd (original_edges_added_count s) (2 * original)).

(** The two entries of a shortcut [source -> node -> target]. *)
Definition shortcut_edge (source target path_weight : Z) (in_data out_data : ContractorEdgeData)
    (node : Z) (fwd bwd : bool) : ContractorEdge :=
  mkInputEdge source target
    (ContractorEdgeData_new path_weight (iadd (duration in_data) (duration out_data))
       (fadd32 (distance in_data) (distance out_data))
       (originalEdges out_data + originalEdges in_data) node true fwd bwd).

Definition shortcut_pair (source target path_weight : Z) (in_data out_data : ContractorEdgeData)
    (node : Z) : list ContractorEdge :=
  [shortcut_edge source target path_weight in_data out_data node true false;
   shortcut_edge target source path_weight in_data out_data node false true].

(** ** ContractNode *)

Section contract_node.
Context {St H Handle : Type} `{IndexStorage St, MutableHeap H Handle}.
Abbreviation ContractorHeap := (QueryHeap St H Handle ContractorHeapData).
Implicit Types (heap : ContractorHeap) (graph : ContractorGraph).

(** What [ContractNode] changes: the queue and the inserted edges of the
    thread, the loop weights of the nodes, and the statistics. *)
Record ContractState : Type := mkContractState {
  cs_heap : ContractorHeap;
  inserted_edges : list ContractorEdge;
  node_weights : list Z;
  stats : ContractionStats
}.

Definition with_heap (s : ContractState) (h : ContractorHeap) : ContractState :=
  mkContractState h (inserted_edges s) (node_weights s) (stats s).
Definition with_stats (s : ContractState) (st : ContractionStats) : ContractState :=
  mkContractState (cs_heap s) (inserted_edges s) (node_weights s) st.

Context (RUNSIMULATION : bool).

(** A shortcut is counted in a simulation and stored otherwise. *)
Definition add_shortcut (s : ContractState) (source target path_weight : Z)
    (in_data out_data : ContractorEdgeData) (node : Z) : ContractState :=
  if RUNSIMULATION
  then with_stats s (stats_added (stats s) (originalEdges out_data + originalEdges in_data))
  else mkContractState (cs_heap s)
         (inserted_edges s ++ shortcut_pair source target path_weight in_data out_data node)
         (node_weights s) (stats s).

(** The branch for a loop [source -> node -> source]. *)
Definition add_loop (s : ContractState) (source path_weight : Z)
    (in_data out_data : ContractorEdgeData) (node : Z) : option ContractState :=
  nw ← node_weights s !z node;
  if path_weight <? nw then
    ws ← zset source (if RUNSIMULATION then weight_add path_weight 1 else path_weight) (node_weights s);
    let s' := add_shortcut s source source path_weight in_data out_data node in
    Some (mkContractState (cs_heap s') (inserted_edges s') ws (stats s'))
  else Some s.

(** First loop over the outgoing edges: it queues the targets. *)
Fixpoint collect_targets (s : ContractState) graph (range : list Z) (node source : Z)
    (in_data : ContractorEdgeData) (max_weight number_of_targets : Z)
  : option (ContractState * Z * Z) :=
  match range with
  | [] => Some (s, max_weight, number_of_targets)
  | out_edge :: range =>
      out_data ← GetEdgeData graph out_edge;
      if negb (forward out_data)
      then collect_targets s graph range node source in_data max_weight number_of_targets
      else
        target ← GetTarget graph out_edge;
        if node =? target
        then collect_targets s graph range node source in_data max_weight number_of_targets
        else
          let path_weight := weight_add (weight in_data) (weight out_data) in
          if target =? source then
            s' ← add_loop s source path_weight in_data out_data node;
            collect_targets s' graph range node source in_data max_weight number_of_targets
          else
            let max_weight := Z.max max_weight path_weight in
            inserted ← WasInserted (cs_heap s) target;
            if (inserted : bool)
            then collect_targets s graph range node source in_data max_weight number_of_targets
            else
              h ← Insert (cs_heap s) target INVALID_EDGE_WEIGHT (mkContractorHeapData 0 true);
              collect_targets (with_heap s h) graph range node source in_data max_weight
                (number_of_targets + 1)
  end.

(** Second loop over the outgoing edges: a shortcut where no witness was found. *)
Fixpoint add_shortcuts (s : ContractState) graph (range : list Z) (node source : Z)
    (in_data : ContractorEdgeData) : option ContractState :=
  match range with
  | [] => Some s
  | out_edge :: range =>
      out_data ← GetEdgeData graph out_edge;
      if negb (forward out_data)
      then add_shortcuts s graph range node source in_data
      else
        target ← GetTarget graph out_edge;
        if target =? node
        then add_shortcuts s graph range node source in_data
        else
          let path_weight := weight_add (weight in_data) (weight out_data) in
          w ← GetKey (cs_heap s) target;
          add_shortcuts
            (if path_weight <? w
             then add_shortcut s source target path_weight in_data out_data node else s)
            graph range node source in_data
  end.

Definition SIMULATION_SEARCH_SPACE_SIZE : Z := 1000.
Definition FULL_SEARCH_SPACE_SIZE : Z := 2000.

(** The body for one incoming edge. *)
Definition contract_in_edge (s : ContractState) graph (out_range : list Z) (node in_edge : Z)
  : option ContractState :=
  in_data ← GetEdgeData graph in_edge;
  source ← GetTarget graph in_edge;
  if source =? node then Some s
  else
    let s := if RUNSIMULATION
             then with_stats s (stats_deleted (stats s) (originalEdges in_data)) else s in
    if negb (backward in_data) then Some s
    else
      h ← Insert (Clear (cs_heap s)) source 0 (mkContractorHeapData 0 false);
      '(s, max_weight, number_of_targets) ←
        collect_targets (with_heap s h) graph out_range node source in_data 0 0;
      h ← search (cs_heap s) graph number_of_targets
            (if RUNSIMULATION then SIMULATION_SEARCH_SPACE_SIZE else FULL_SEARCH_SPACE_SIZE)
            max_weight node;
      add_shortcuts (with_heap s h) graph out_range node source in_data.

Fixpoint contract_in_edges (s : ContractState) graph (in_range out_range : list Z) (node : Z)
  : option ContractState :=
  match in_range with
  | [] => Some s
  | in_edge :: in_range =>
      s' ← contract_in_edge s graph out_range node in_edge;
      contract_in_edges s' graph in_range out_range node
  end.

End contract_node.
Arguments ContractState : clear implicits.

(** ** Merging duplicate shortcuts *)

Definition same_shortcut (a b : ContractorEdge) : bool :=
  (ie_source a =? ie_source b) && (ie_target a =? ie_target b) &&
  (weight (ie_data a) =? weight (ie_data b)) &&
  Bool.eqb (shortcut (ie_data a)) (shortcut (ie_data b)).

(** [other.forward |= e.forward; other.backward |= e.backward] *)
Definition absorb (other e : ContractorEdge) : ContractorEdge :=
  let d := ie_data other in
  mkInputEdge (ie_source other) (ie_target other)
    (mkContractorEdgeData (weight d) (duration d) (distance d) (edge_id d) (originalEdges d)
       (shortcut d) (forward d || forward (ie_data e)) (backward d || backward (ie_data e))).

(** The scan of the later edges: the first match absorbs [e]. *)
Fixpoint absorb_in (e : ContractorEdge) (others : list ContractorEdge) : option (list ContractorEdge) :=
  match others with
  | [] => None
  | o :: others =>
      if same_shortcut o e then Some (absorb o e :: others)
      else l ← absorb_in e others; Some (o :: l)
  end.

(** The compaction loop over the [n] new edges.  An edge that no later edge
    absorbs is moved to the next slot of the front, which has been read. *)
Fixpoint merge_edges (n : nat) (rest : list ContractorEdge) : list ContractorEdge :=
  match n, rest with
  | S n, e :: rest =>
      match absorb_in e rest with
      | Some rest' => merge_edges n rest'
      | None => e :: merge_edges n rest
      end
  | _, _ => []
  end.

Section contract.
Context {St H Handle : Type} `{IndexStorage St, MutableHeap H Handle}.
Implicit Types (s : ContractState St H Handle) (graph : ContractorGraph).

Definition ContractNode_impl (RUNSIMULATION : bool) s graph (node : Z)
  : option (ContractState St H Handle) :=
  range ← GetAdjacentEdgeRange graph node;
  s' ← contract_in_edges RUNSIMULATION s graph range range node;
  let size := length (inserted_edges s) in
  Some (if RUNSIMULATION then s'
        else mkContractState (cs_heap s')
               (take size (inserted_edges s') ++
                merge_edges (length (inserted_edges s') - size) (drop size (inserted_edges s')))
               (node_weights s') (stats s')).

Definition ContractNode s graph (node : Z) : option (ContractState St H Handle) :=
  ContractNode_impl false s graph node.

Definition SimulateNodeContraction s graph (node : Z)
  : option (ContractState St H Handle * ContractionStats) :=
  s' ← ContractNode_impl true
    (mkContractState (cs_heap s) (inserted_edges s) (node_weights s) ContractionStats_new) graph node;
  Some (s', stats s').
End contract.

(** ** Merging keeps what the edges say *)

(** [e'] connects the same nodes at the same weight and is usable in every
    direction in which [e] is. *)
Definition covers (e' e : ContractorEdge) : Prop :=
  ie_source e' = ie_source e /\ ie_target e' = ie_target e /\
  weight (ie_data e') = weight (ie_data e) /\ shortcut (ie_data e') = shortcut (ie_data e) /\
  (forward (ie_data e) = true -> forward (ie_data e') = true) /\
  (backward (ie_data e) = true -> backward (ie_data e') = true).

Lemma covers_refl e : covers e e.
Proof. by repeat split. Qed.

Lemma covers_trans a b c : covers a b -> covers b c -> covers a c.
Proof. intros (A1 & A2 & A3 & A4 & A5 & A6) (B1 & B2 & B3 & B4 & B5 & B6). repeat split; try congruence; auto. Qed.

Lemma same_shortcut_spec a b :
  same_shortcut a b = true <-> ie_source a = ie_source b /\ ie_target a = ie_target b /\
    weight (ie_data a) = weight (ie_data b) /\ shortcut (ie_data a) = shortcut (ie_data b).
Proof. unfold same_shortcut. rewrite !andb_true_iff, !Z.eqb_eq, eqb_true_iff. tauto. Qed.

Lemma absorb_covers o e : same_shortcut o e = true -> covers (absorb o e) o /\ covers (absorb o e) e.
Proof.
  intros (H1 & H2 & H3 & H4)%same_shortcut_spec.
  split; repeat split; simpl; try done; intros ->; by rewrite ?orb_true_r.
Qed.

(** Each flag of a merged edge was a flag of an edge with the same ends and weight. *)
Definition justified (l : list ContractorEdge) (e' : ContractorEdge) : Prop :=
  (exists e, e ∈ l /\ covers e' e) /\
  (forward (ie_data e') = true -> exists e, e ∈ l /\ covers e' e /\ forward (ie_data e) = true) /\
  (backward (ie_data e') = true -> exists e, e ∈ l /\ covers e' e /\ backward (ie_data e) = true).

Lemma absorb_in_ok e l l' :
  absorb_in e l = Some l' ->
  length l' = length l /\
  (forall a, a ∈ e :: l -> exists a', a' ∈ l' /\ covers a' a) /\
  (forall a', a' ∈ l' -> justified (e :: l) a').
Proof.
  revert l'. induction l as [|o l IH]; intros l' E; [done|]. simpl in E.
  destruct (same_shortcut o e) eqn:Es.
  - injection E as <-. destruct (absorb_covers o e Es) as [C1 C2]. split; [done|]. split.
    + intros a [->|[->|Ha]%elem_of_cons]%elem_of_cons.
      * exists (absorb o e). split; [by left|done].
      * exists (absorb o e). split; [by left|done].
      * exists a. split; [by right|apply covers_refl].
    + intros a' [->|Ha]%elem_of_cons.
      * split_and!.
        -- exists o. split; [right; by left|done].
        -- simpl. intros Hf%orb_true_iff. destruct Hf as [Hf|Hf]; [exists o|exists e].
           ++ split; [right; by left|done].
           ++ split; [by left|done].
        -- simpl. intros Hf%orb_true_iff. destruct Hf as [Hf|Hf]; [exists o|exists e].
           ++ split; [right; by left|done].
           ++ split; [by left|done].
      * split_and!; [|intros Hf|intros Hf]; exists a';
          (split; [right; by right|]); try (split; [apply covers_refl|done]); apply covers_refl.
  - destruct (absorb_in e l) as [k|] eqn:Ek; [|done]. injection E as <-.
    destruct (IH k eq_refl) as (L & C & J). split; [simpl; lia|]. split.
    + intros a Ha. assert (a = o \/ a ∈ e :: l) as [->|Ha'] by (rewrite !elem_of_cons in *; tauto).
      * exists o. split; [by left|apply covers_refl].
      * destruct (C a Ha') as (a' & Hin & Hc). exists a'. split; [by right|done].
    + assert (forall a, a ∈ e :: l -> a ∈ e :: o :: l) as Hsub by (intros a; rewrite !elem_of_cons; tauto).
      intros a' [->|Ha]%elem_of_cons.
      * split_and!; [|intros Hf|intros Hf]; exists o;
          (split; [right; by left|]); try (split; [apply covers_refl|done]); apply covers_refl.
      * destruct (J a' Ha) as ((a1 & Hi1 & Hc1) & J2 & J3). split_and!.
        -- eauto.
        -- intros Hf. destruct (J2 Hf) as (a2 & Hi2 & Hc2). eauto.
        -- intros Hf. destruct (J3 Hf) as (a2 & Hi2 & Hc2). eauto.
Qed.

Lemma justified_trans l l' e :
  (forall a, a ∈ l -> justified l' a) -> justified l e -> justified l' e.
Proof.
  intros Hl ((a & Ha & Hc) & J2 & J3). split_and!.
  - destruct (Hl a Ha) as ((b & Hb & Hcb) & _). exists b. split; [done|]. by eapply covers_trans.
  - intros Hf. destruct (J2 Hf) as (a2 & Ha2 & Hc2 & Hf2). destruct (Hl a2 Ha2) as (_ & Jb & _).
    destruct (Jb Hf2) as (b & Hb & Hcb & Hfb). exists b. split; [done|]. split; [by eapply covers_trans|done].
  - intros Hf. destruct (J3 Hf) as (a2 & Ha2 & Hc2 & Hf2). destruct (Hl a2 Ha2) as (_ & _ & Jb).
    destruct (Jb Hf2) as (b & Hb & Hcb & Hfb). exists b. split; [done|]. split; [by eapply covers_trans|done].
Qed.

Lemma justified_self l e : e ∈ l -> justified l e.
Proof. intros He. split_and!; [|intros Hf|intros Hf]; exists e; split_and!; try done; apply covers_refl. Qed.

Lemma merge_edges_ok n l :
  length l = n ->
  (forall e, e ∈ l -> exists e', e' ∈ merge_edges n l /\ covers e' e) /\
  (forall e', e' ∈ merge_edges n l -> justified l e').
Proof.
  revert l. induction n as [|n IH]; intros [|e l] Hn; try (simpl in Hn; lia); cbn [merge_edges].
  { split; by intros e He%elem_of_nil. }
  simpl in Hn. destruct (absorb_in e l) as [k|] eqn:Ek.
  - destruct (absorb_in_ok e l k Ek) as (L & C & J). destruct (IH k) as [C' J']; [lia|]. split.
    + intros a (a1 & H1 & Hc1)%C. destruct (C' a1 H1) as (a2 & H2 & Hc2). exists a2.
      split; [done|]. by eapply covers_trans.
    + intros e' He'%J'. by eapply justified_trans.
  - destruct (IH l) as [C' J']; [lia|]. split.
    + intros a [->|Ha]%elem_of_cons.
      * exists e. split; [by left|apply covers_refl].
      * destruct (C' a Ha) as (a2 & H2 & Hc2). exists a2. split; [by right|done].
    + intros e' [->|He']%elem_of_cons; [apply justified_self; by left|].
      eapply justified_trans; [|by apply J']. intros a Ha. apply justified_self. by right.
Qed.

(** ** Shortcuts and witnesses *)

Section witness.
Context {St H Handle : Type}.
Context `{SL : IndexStorageLaws St, HL : MutableHeapLaws H Handle}.
Context (g : ContractorGraph) (node maxw deg : Z).
Let num : Z := number_of_nodes g.
Context (Hwf : dg_wf g) (Hnode : 0 <= node < num).
Context (Hclosed : forall n x, x ∈ adj g n -> 0 <= target x < num).
Context (Hpos : forall n x, x ∈ adj g n -> 0 <= weight (data x) <= maxw).
Context (Hmaxw : 3 * maxw < INT32_MAX).
Context (Hdeg : forall n, zlen (adj g n) <= deg).
Implicit Types (s : ContractState St H Handle) (M : qmap) (x y : DynamicEdge ContractorEdgeData).

(** [x], [y]: an edge into [node] and one out of it, as entries of [node]. *)
Definition two_hop x y : Prop :=
  x ∈ adj g node /\ y ∈ adj g node /\ backward (data x) = true /\ forward (data y) = true /\
  target x <> node /\ target y <> node.

Definition hop_shortcuts x y : list ContractorEdge :=
  shortcut_pair (target x) (target y) (weight (data x) + weight (data y)) (data x) (data y) node.

(** [e] belongs to the pair of a two-hop path, and [l] holds both. *)
Definition legit (l : list ContractorEdge) (e : ContractorEdge) : Prop :=
  exists x y, two_hop x y /\ e ∈ hop_shortcuts x y /\ hop_shortcuts x y ⊆ l.

Lemma legit_mono l l' e : l ⊆ l' -> legit l e -> legit l' e.
Proof. intros Hl (x & y & Hh & He & Hs). exists x, y. split; [done|]. split; [done|]. intros a Ha. by apply Hl, Hs. Qed.

Definition edges_at (range : list Z) (es : list (DynamicEdge ContractorEdgeData)) : Prop :=
  Forall2 (fun e x => edge_list g !z e = Some x) range es.

Lemma adjacent_edges : exists range, GetAdjacentEdgeRange g node = Some range /\ edges_at range (adj g node).
Proof using Hwf Hnode.
  pose proof (dw_nodes _ Hwf) as Ln. destruct (zget_is_some (node_array g) node) as [nd Hnd]; [fold num in Ln; lia|].
  exists (seqZ (first_edge nd) (edges nd)). split; [by apply adjacent_range|].
  destruct (dw_range _ Hwf _ _ Hnd) as (R1 & R2 & R3). unfold edges_at, adj. rewrite Hnd.
  apply Forall2_same_length_lookup. split.
  - pose proof (zslice_len (edge_list g) (first_edge nd) (edges nd)). rewrite length_seqZ. unfold zlen in *. lia.
  - intros i e x [-> Hi]%lookup_seqZ Hx. rewrite <- zget_nat, zslice_get in Hx by lia. done.
Qed.

Lemma hop_weight x y : x ∈ adj g node -> y ∈ adj g node ->
  weight_add (weight (data x)) (weight (data y)) = weight (data x) + weight (data y) /\
  0 <= weight (data x) + weight (data y) <= 2 * maxw.
Proof using Hpos Hmaxw.
  intros Hx%Hpos Hy%Hpos. unfold INT32_MAX in Hmaxw. split; [|lia]. unfold weight_add. apply swrap_small; lia.
Qed.

(** How a step of [ContractNode] changes the state apart from the queue. *)
Record extends s s' (extra : list ContractorEdge) : Prop := {
  ex_inserted : inserted_edges s' = inserted_edges s ++ extra;
  ex_legit : forall e, e ∈ extra -> legit extra e;
  ex_weights : zlen (node_weights s') = zlen (node_weights s)
}.

Lemma extends_refl s h : extends s (with_heap s h) [].
Proof. constructor; simpl; [by rewrite app_nil_r|by intros e He%elem_of_nil|done]. Qed.

Lemma extends_trans s1 s2 s3 l1 l2 : extends s1 s2 l1 -> extends s2 s3 l2 -> extends s1 s3 (l1 ++ l2).
Proof.
  intros [A1 A2 A3] [B1 B2 B3]. constructor.
  - by rewrite B1, A1, app_assoc.
  - intros e [He|He]%elem_of_app; (eapply legit_mono; [|by eauto]); intros a Ha; apply elem_of_app; auto.
  - congruence.
Qed.

Lemma add_shortcut_ok s x y : two_hop x y ->
  extends s (add_shortcut false s (target x) (target y) (weight (data x) + weight (data y)) (data x) (data y) node)
    (hop_shortcuts x y).
Proof. intros Hh. constructor; simpl; [done| |done]. intros e He. by exists x, y. Qed.

Lemma add_loop_ok s x y : two_hop x y -> target y = target x -> zlen (node_weights s) = num ->
  exists s' extra, add_loop false s (target x) (weight (data x) + weight (data y)) (data x) (data y) node = Some s' /\
    extends s s' extra /\ cs_heap s' = cs_heap s.
Proof using Hnode Hclosed.
  intros Hh Ht Hlen. unfold add_loop. destruct (zget_is_some (node_weights s) node) as [nw Hnw]; [lia|].
  rewrite Hnw. cbn [mbind option_bind].
  destruct (_ <? nw).
  - pose proof (proj1 Hh) as Hx. apply Hclosed in Hx.
    destruct (zset_some (node_weights s) (target x) (weight (data x) + weight (data y))) as [ws Hws]; [lia|].
    rewrite Hws. cbn [mbind option_bind]. pose proof (zset_len _ _ _ _ Hws).
    eexists _, (hop_shortcuts x y). split; [done|]. split; [|done]. constructor; simpl.
    + unfold hop_shortcuts. by rewrite Ht.
    + intros e He. by exists x, y.
    + done.
  - exists s, []. split; [done|]. split; [|done]. constructor; [by rewrite app_nil_r|by intros e He%elem_of_nil|done].
Qed.

Lemma collect_targets_ok range es s M c r x mw nt :
  edges_at range es -> es ⊆ adj g node -> x ∈ adj g node -> backward (data x) = true -> target x <> node ->
  good num (cs_heap s) M c r -> search_start g (target x) M ->
  zlen (node_weights s) = num -> Z.of_nat (size M) + Z.of_nat (length es) + 1 < r -> 0 <= mw <= 2 * maxw ->
  exists s' mw' nt' M' extra, collect_targets false s g range node (target x) (data x) mw nt = Some (s', mw', nt') /\
    extends s s' extra /\ good num (cs_heap s') M' c r /\ search_start g (target x) M' /\
    0 <= mw' <= 2 * maxw /\ (size M' <= size M + length es)%nat /\
    (forall n, is_Some (M !! n) -> is_Some (M' !! n)) /\
    (forall y, y ∈ es -> forward (data y) = true -> target y <> node -> is_Some (M' !! target y)).
Proof using Hnode Hclosed Hpos Hmaxw.
  intros Hat. revert s M mw nt. induction Hat as [|e y range es He Hat IH];
    intros s M mw nt Hsub Hx Hb Hxn G HS Hlen Hsz Hmw; cbn [collect_targets].
  { exists s, mw, nt, M, []. split; [done|].
    split; [constructor; [by rewrite app_nil_r|by intros e He%elem_of_nil|done]|].
    split_and!; try done; try lia. by intros y Hy%elem_of_nil. }
  cbn [length] in Hsz. unfold GetEdgeData, GetTarget. rewrite He. cbn [mbind option_bind].
  assert (y ∈ adj g node) as Hy by (apply Hsub; by left).
  assert (es ⊆ adj g node) as Hsub' by (intros z Hz; apply Hsub; by right).
  (* the edges that queue nothing *)
  assert (forall s0 extra0, extends s s0 extra0 -> cs_heap s0 = cs_heap s ->
    (forward (data y) = true -> target y <> node -> is_Some (M !! target y)) ->
    forall mw0, 0 <= mw0 <= 2 * maxw ->
    exists s' mw' nt' M' extra, collect_targets false s0 g range node (target x) (data x) mw0 nt = Some (s', mw', nt') /\
    extends s s' extra /\ good num (cs_heap s') M' c r /\ search_start g (target x) M' /\
    0 <= mw' <= 2 * maxw /\ (size M' <= size M + length (y :: es))%nat /\
    (forall n, is_Some (M !! n) -> is_Some (M' !! n)) /\
    (forall z, z ∈ y :: es -> forward (data z) = true -> target z <> node -> is_Some (M' !! target z))) as Hskip.
  { intros s0 extra0 Hext Hh Hin mw0 Hmw0.
    destruct (IH s0 M mw0 nt Hsub' Hx Hb Hxn) as (s' & mw' & nt' & M' & extra & E & X & G' & HS' & Hm & Hz & Hk & Hall);
      [by rewrite Hh|done|by rewrite (ex_weights _ _ _ Hext)|lia|done|].
    exists s', mw', nt', M', (extra0 ++ extra). split; [done|]. split; [by eapply extends_trans|].
    split_and!; try done; try lia; [cbn [length]; lia|].
    intros z [->|Hz']%elem_of_cons Hf Ht; [|by apply Hall]. by apply Hk, Hin. }
  assert (extends s s []) as Hrefl by (constructor; [by rewrite app_nil_r|by intros e' He'%elem_of_nil|done]).
  destruct (forward (data y)) eqn:Ef; simpl; [|by apply (Hskip s [])].
  destruct (Z.eqb_spec node (target y)) as [En|En]; [apply (Hskip s []); try done; congruence|].
  destruct (hop_weight x y Hx Hy) as [-> Hhw].
  assert (two_hop x y) as Hhop by (split_and!; done).
  destruct (Z.eqb_spec (target y) (target x)) as [Es|Es].
  { destruct (add_loop_ok s x y Hhop Es Hlen) as (s1 & extra1 & -> & X1 & Hh1). cbn [mbind option_bind].
    apply (Hskip s1 extra1); try done. intros _ _. rewrite Es.
    destruct HS as [(e0 & He0 & _) _]. by exists e0. }
  rewrite (WasInserted_spec (cs_heap s) M (target y) (gd_repr _ _ _ _ _ G));
    [|apply (gd_valid _ _ _ _ _ G); by eapply Hclosed].
  cbn [mbind option_bind]. case_bool_decide as Hin.
  { apply (Hskip s []); try done. lia. }
  destruct (good_Insert num (cs_heap s) M c r (target y) INVALID_EDGE_WEIGHT (mkContractorHeapData 0 true) G)
    as (h & -> & G1); [by apply eq_None_not_Some|by eapply Hclosed|lia|]. cbn [mbind option_bind].
  set (M1 := <[target y := mkQentry INVALID_EDGE_WEIGHT (mkContractorHeapData 0 true) false]> M) in *.
  assert (search_start g (target x) M1) as HS1.
  { destruct HS as [(e0 & He0 & Hw0 & Hl0) Hall]. split.
    - exists e0. unfold M1. rewrite lookup_insert_ne by done. done.
    - intros n e' [[<- <-]|[_ Hn]]%lookup_insert_Some; [|by apply Hall].
      split; [by eapply Hclosed|]. split; [done|]. done. }
  assert (size M1 = S (size M)) as Hsz1 by (apply map_size_insert_None; by apply eq_None_not_Some).
  destruct (IH (with_heap s h) M1 (Z.max mw (weight (data x) + weight (data y))) (nt + 1) Hsub' Hx Hb Hxn)
    as (s' & mw' & nt' & M' & extra & E & X & G' & HS' & Hm & Hz & Hk & Hall);
    [done|done|done|lia|lia|].
  assert (forall n, is_Some (M !! n) -> is_Some (M1 !! n)) as Hgrow.
  { intros n Hn. unfold M1. destruct (decide (target y = n)) as [<-|Hne].
    - rewrite lookup_insert_eq. by eexists.
    - by rewrite lookup_insert_ne. }
  exists s', mw', nt', M', ([] ++ extra). split; [done|].
  split; [eapply extends_trans; [apply extends_refl|exact X]|]. split_and!; try done; try lia.
  - intros n Hn. by apply Hk, Hgrow.
  - intros z [->|Hz']%elem_of_cons Hf Ht; [|by apply Hall]. apply Hk. unfold M1.
    rewrite lookup_insert_eq. by eexists.
Qed.

Lemma add_shortcuts_ok range es s M x :
  edges_at range es -> es ⊆ adj g node -> x ∈ adj g node -> backward (data x) = true -> target x <> node ->
  qh_repr (cs_heap s) M ->
  (forall y, y ∈ es -> forward (data y) = true -> target y <> node -> is_Some (M !! target y)) ->
  exists s' extra, add_shortcuts false s g range node (target x) (data x) = Some s' /\
    extends s s' extra /\ cs_heap s' = cs_heap s /\
    (forall y, y ∈ es -> forward (data y) = true -> target y <> node -> exists e, M !! target y = Some e /\
       (qe_weight e <= weight (data x) + weight (data y) \/ hop_shortcuts x y ⊆ extra)).
Proof using Hpos Hmaxw.
  intros Hat. revert s. induction Hat as [|e y range es He Hat IH];
    intros s Hsub Hx Hb Hxn R Hin; cbn [add_shortcuts].
  { exists s, []. split; [done|].
    split; [constructor; [by rewrite app_nil_r|by intros e He%elem_of_nil|done]|].
    split; [done|]. by intros y Hy%elem_of_nil. }
  unfold GetEdgeData, GetTarget. rewrite He. cbn [mbind option_bind].
  assert (y ∈ adj g node) as Hy by (apply Hsub; by left).
  assert (es ⊆ adj g node) as Hsub' by (intros z Hz; apply Hsub; by right).
  assert (forall z, z ∈ es -> forward (data z) = true -> target z <> node -> is_Some (M !! target z)) as Hin'
    by (intros z Hz; apply Hin; by right).
  assert (forall s0 extra0, extends s s0 extra0 -> cs_heap s0 = cs_heap s ->
    (forward (data y) = true -> target y <> node -> exists e, M !! target y = Some e /\
       (qe_weight e <= weight (data x) + weight (data y) \/ hop_shortcuts x y ⊆ extra0)) ->
    exists s' extra, add_shortcuts false s0 g range node (target x) (data x) = Some s' /\
      extends s s' extra /\ cs_heap s' = cs_heap s /\
      (forall z, z ∈ y :: es -> forward (data z) = true -> target z <> node -> exists e, M !! target z = Some e /\
         (qe_weight e <= weight (data x) + weight (data z) \/ hop_shortcuts x z ⊆ extra))) as Hnext.
  { intros s0 extra0 X0 Hh Hhead.
    destruct (IH s0 Hsub' Hx Hb Hxn) as (s' & extra & E & X & Hh' & Hall); [by rewrite Hh|done|].
    exists s', (extra0 ++ extra). split; [done|]. split; [by eapply extends_trans|]. split; [congruence|].
    intros z [->|Hz]%elem_of_cons Hf Ht.
    - destruct (Hhead Hf Ht) as (e1 & He1 & [Hw|Hs]); exists e1; (split; [done|]); [by left|right].
      intros a Ha. apply elem_of_app. left. by apply Hs.
    - destruct (Hall z Hz Hf Ht) as (e1 & He1 & [Hw|Hs]); exists e1; (split; [done|]); [by left|right].
      intros a Ha. apply elem_of_app. right. by apply Hs. }
  assert (extends s s []) as Hrefl by (constructor; [by rewrite app_nil_r|by intros e' He'%elem_of_nil|done]).
  destruct (forward (data y)) eqn:Ef; simpl; [|by apply (Hnext s [])].
  destruct (Z.eqb_spec (target y) node) as [En|En]; [by apply (Hnext s [])|].
  destruct (hop_weight x y Hx Hy) as [-> Hhw].
  destruct (Hin y) as [e1 He1]; [by left|done|done|].
  rewrite (GetKey_spec _ _ _ _ R He1). cbn [mbind option_bind].
  destruct (Z.ltb_spec (weight (data x) + weight (data y)) (qe_weight e1)) as [Hlt|Hge].
  - apply (Hnext _ (hop_shortcuts x y)).
    + apply add_shortcut_ok. split_and!; done.
    + done.
    + intros _ _. exists e1. split; [done|]. by right.
  - apply (Hnext s []); try done. intros _ _. exists e1. split; [done|]. by left.
Qed.

Lemma good_le (q : QueryHeap St H Handle ContractorHeapData) M c c' r :
  c' <= c -> good num q M c r -> good num q M c' r.
Proof. intros Hle [R V Rm]. constructor; [done|done|]. by eapply st_room_le. Qed.

(** [x -> node -> y] is replaced: by shortcuts among [l], or by a walk around
    [node] that is not longer. *)
Definition bypassed (l : list ContractorEdge) x y : Prop :=
  hop_shortcuts x y ⊆ l \/
  exists p, walk (arc_avoiding g node) (target x) (target y) p /\ p <= weight (data x) + weight (data y).

Lemma bypassed_mono l l' x y : l ⊆ l' -> bypassed l x y -> bypassed l' x y.
Proof. intros Hl [Hs|Hw]; [left|by right]. intros e He. by apply Hl, Hs. Qed.

Lemma contract_in_edge_ok s M c r range e x :
  edges_at range (adj g node) -> edge_list g !z e = Some x -> x ∈ adj g node ->
  good num (cs_heap s) M (c + 1) r -> 0 <= c -> zlen (node_weights s) = num ->
  3 + deg + FULL_SEARCH_SPACE_SIZE * deg < r ->
  exists s' M' extra, contract_in_edge false s g range node e = Some s' /\
    extends s s' extra /\ good num (cs_heap s') M' c r /\
    (forall y, two_hop x y -> bypassed extra x y).
Proof using Hwf Hnode Hclosed Hpos Hmaxw Hdeg.
  intros Hat He Hx G Hc Hlen Hroom. unfold contract_in_edge, GetEdgeData, GetTarget. rewrite He.
  cbn [mbind option_bind].
  assert (extends s s []) as Hrefl by (constructor; [by rewrite app_nil_r|by intros e' He'%elem_of_nil|done]).
  assert (good num (cs_heap s) M c r) as Gc by (eapply good_le; [|done]; lia).
  destruct (Z.eqb_spec (target x) node) as [En|En].
  { exists s, M, []. split_and!; try done. intros y (_ & _ & _ & _ & Ht & _). done. }
  destruct (backward (data x)) eqn:Eb; simpl.
  2:{ exists s, M, []. split_and!; try done. intros y (_ & _ & Hb & _). congruence. }
  pose proof (Hclosed _ _ Hx) as Htx. pose proof (good_Clear _ _ _ _ _ G Hc) as G0.
  assert (0 <= deg) as Hd0 by (pose proof (Hdeg node); pose proof (zlen_nonneg (adj g node)); lia).
  pose proof (Hdeg node) as Hdn. unfold FULL_SEARCH_SPACE_SIZE in Hroom.
  destruct (good_Insert num _ _ c r (target x) 0 (mkContractorHeapData 0 false) G0) as (h & -> & G1);
    [done|done|rewrite map_size_empty; lia|].
  cbn [mbind option_bind].
  set (M1 := <[target x := mkQentry 0 (mkContractorHeapData 0 false) false]> (∅ : qmap)) in *.
  assert (size M1 = 1%nat) as Hs1 by (unfold M1; by rewrite map_size_insert_None, map_size_empty).
  assert (search_start g (target x) M1) as HS1.
  { split; [by exists (mkQentry 0 (mkContractorHeapData 0 false) false); unfold M1; rewrite lookup_insert_eq|].
    intros n e' [[<- <-]|[_ Hn]]%lookup_insert_Some; [split; [done|split; [done|by intros []]]|done]. }
  pose proof (Hpos _ _ Hx) as Hpx.
  destruct (collect_targets_ok range (adj g node) (with_heap s h) M1 c r x 0 0)
    as (s2 & mw & nt & M2 & extra2 & -> & X2 & G2 & HS2 & Hmw & Hsz2 & _ & Hall); try done.
  { unfold zlen in *. lia. }
  { lia. }
  cbn [mbind option_bind].
  destruct (search_ok g (target x) node maxw deg Hwf Hclosed Hpos Hdeg (cs_heap s2) M2 c r nt 2000 mw)
    as (h3 & M3 & E3 & G3 & [S1 S2 S3]); [done|done|lia|unfold zlen in *; nia|lia|lia|].
  unfold FULL_SEARCH_SPACE_SIZE. rewrite E3. cbn [mbind option_bind].
  destruct (add_shortcuts_ok range (adj g node) (with_heap s2 h3) M3 x)
    as (s4 & extra4 & -> & X4 & Hh4 & Hall4); try done; [apply G3| |].
  { intros y Hy Hf Ht. by apply S3, Hall. }
  exists s4, M3, ([] ++ extra2 ++ [] ++ extra4). split; [done|]. split.
  { eapply extends_trans; [apply (extends_refl s h)|]. eapply extends_trans; [exact X2|].
    eapply extends_trans; [apply extends_refl|exact X4]. }
  split; [by rewrite Hh4|]. intros y (_ & Hy & _ & Hf & _ & Ht).
  destruct (Hall4 y Hy Hf Ht) as (e4 & He4 & [Hw|Hs]).
  - right. destruct (S1 _ _ He4) as [Hinv|Hwalk].
    + destruct (hop_weight x y Hx Hy). unfold INVALID_EDGE_WEIGHT in Hinv. lia.
    + eauto.
  - left. intros a Ha. simpl. apply elem_of_app. right. by apply Hs.
Qed.

Lemma contract_in_edges_ok in_range ins s M c r range :
  edges_at in_range ins -> ins ⊆ adj g node -> edges_at range (adj g node) ->
  good num (cs_heap s) M (c + zlen ins) r -> 0 <= c -> zlen (node_weights s) = num ->
  3 + deg + FULL_SEARCH_SPACE_SIZE * deg < r ->
  exists s' M' extra, contract_in_edges false s g in_range range node = Some s' /\
    extends s s' extra /\ good num (cs_heap s') M' c r /\
    (forall x y, x ∈ ins -> two_hop x y -> bypassed extra x y).
Proof using Hwf Hnode Hclosed Hpos Hmaxw Hdeg.
  intros Hat. revert s M. induction Hat as [|e x in_range ins He Hat IH];
    intros s M Hsub Hr G Hc Hlen Hroom; cbn [contract_in_edges].
  { exists s, M, []. split; [done|]. split; [constructor; [by rewrite app_nil_r|by intros e He%elem_of_nil|done]|].
    split; [by rewrite Z.add_0_r in G|]. by intros x y Hx%elem_of_nil. }
  rewrite zlen_cons in G. pose proof (zlen_nonneg ins).
  destruct (contract_in_edge_ok s M (c + zlen ins) r range e x) as (s1 & M1 & extra1 & -> & X1 & G1 & B1); try done.
  { apply Hsub. by left. }
  { by replace (c + zlen ins + 1) with (c + (1 + zlen ins)) by lia. }
  { lia. }
  cbn [mbind option_bind].
  destruct (IH s1 M1) as (s2 & M2 & extra2 & E2 & X2 & G2 & B2); try done.
  { intros z Hz. apply Hsub. by right. }
  { by rewrite (ex_weights _ _ _ X1). }
  exists s2, M2, (extra1 ++ extra2). split; [done|]. split; [by eapply extends_trans|]. split; [done|].
  intros z y [->|Hz]%elem_of_cons Hh.
  - eapply bypassed_mono; [|by apply B1]. intros a Ha. apply elem_of_app. by left.
  - eapply bypassed_mono; [|by apply B2]. intros a Ha. apply elem_of_app. by right.
Qed.

(** A usable shortcut entry from [u] to [v] of weight [w] among [l]. *)
Definition has_arc (l : list ContractorEdge) (u v w : Z) : Prop :=
  exists e, e ∈ l /\ ie_source e = u /\ ie_target e = v /\ weight (ie_data e) = w /\
    forward (ie_data e) = true.

Definition has_back_arc (l : list ContractorEdge) (u v w : Z) : Prop :=
  exists e, e ∈ l /\ ie_source e = v /\ ie_target e = u /\ weight (ie_data e) = w /\
    backward (ie_data e) = true.

(** What [ContractNode] must leave in the inserted edges [new]. *)
Record contracted (new : list ContractorEdge) : Prop := {
  ct_complete : forall x y, two_hop x y ->
    (has_arc new (target x) (target y) (weight (data x) + weight (data y)) /\
     has_back_arc new (target x) (target y) (weight (data x) + weight (data y))) \/
    exists p, walk (arc_avoiding g node) (target x) (target y) p /\ p <= weight (data x) + weight (data y);
  ct_forward : forall u v w, has_arc new u v w -> exists x y, two_hop x y /\
    target x = u /\ target y = v /\ w = weight (data x) + weight (data y);
  ct_backward : forall u v w, has_back_arc new u v w -> exists x y, two_hop x y /\
    target x = u /\ target y = v /\ w = weight (data x) + weight (data y);
  ct_pairs : forall u v w, has_arc new u v w <-> has_back_arc new u v w;
  ct_ends : forall e, e ∈ new -> 0 <= ie_source e < num /\ 0 <= ie_target e < num /\
    ie_source e <> node /\ ie_target e <> node /\
    (forward (ie_data e) = true \/ backward (ie_data e) = true)
}.

Lemma shortcut_pair_inv x y e : e ∈ hop_shortcuts x y ->
  weight (ie_data e) = weight (data x) + weight (data y) /\
  ((ie_source e = target x /\ ie_target e = target y /\ forward (ie_data e) = true /\ backward (ie_data e) = false) \/
   (ie_source e = target y /\ ie_target e = target x /\ forward (ie_data e) = false /\ backward (ie_data e) = true)).
Proof.
  unfold hop_shortcuts, shortcut_pair. intros [->|[->|[]%elem_of_nil]%elem_of_cons]%elem_of_cons; simpl;
    (split; [done|]); [left|right]; done.
Qed.

(** The pair of a two-hop path survives the merge as an arc and a back arc. *)
Lemma merged_pair extra x y :
  hop_shortcuts x y ⊆ extra -> let new := merge_edges (length extra) extra in
  has_arc new (target x) (target y) (weight (data x) + weight (data y)) /\
  has_back_arc new (target x) (target y) (weight (data x) + weight (data y)).
Proof.
  intros Hs. destruct (merge_edges_ok (length extra) extra eq_refl) as [C _].
  destruct (C (shortcut_edge (target x) (target y) (weight (data x) + weight (data y)) (data x) (data y) node true false))
    as (a & Ha & Hca); [apply Hs; by left|].
  destruct (C (shortcut_edge (target y) (target x) (weight (data x) + weight (data y)) (data x) (data y) node false true))
    as (b & Hb & Hcb); [apply Hs; right; by left|].
  destruct Hca as (A1 & A2 & A3 & _ & A5 & _), Hcb as (B1 & B2 & B3 & _ & _ & B6).
  split; [exists a|exists b]; simpl in *; split_and!; auto.
Qed.

Lemma merged_arc_inv extra u v w :
  (forall e, e ∈ extra -> legit extra e) -> has_arc (merge_edges (length extra) extra) u v w ->
  exists x y, two_hop x y /\ target x = u /\ target y = v /\ w = weight (data x) + weight (data y) /\
    hop_shortcuts x y ⊆ extra.
Proof.
  intros Hleg (e & He & <- & <- & <- & Hf). destruct (merge_edges_ok (length extra) extra eq_refl) as [_ J].
  destruct (J e He) as (_ & J2 & _). destruct (J2 Hf) as (a & Ha & (K1 & K2 & K3 & _) & Hfa).
  destruct (Hleg a Ha) as (x & y & Hh & Hin & Hsub). exists x, y.
  destruct (shortcut_pair_inv x y a Hin) as [Hw [(? & ? & ? & ?)|(? & ? & ? & ?)]]; [|congruence].
  split_and!; [done|congruence..|done].
Qed.

Lemma merged_back_arc_inv extra u v w :
  (forall e, e ∈ extra -> legit extra e) -> has_back_arc (merge_edges (length extra) extra) u v w ->
  exists x y, two_hop x y /\ target x = u /\ target y = v /\ w = weight (data x) + weight (data y) /\
    hop_shortcuts x y ⊆ extra.
Proof.
  intros Hleg (e & He & <- & <- & <- & Hf). destruct (merge_edges_ok (length extra) extra eq_refl) as [_ J].
  destruct (J e He) as (_ & _ & J3). destruct (J3 Hf) as (a & Ha & (K1 & K2 & K3 & _) & Hfa).
  destruct (Hleg a Ha) as (x & y & Hh & Hin & Hsub). exists x, y.
  destruct (shortcut_pair_inv x y a Hin) as [Hw [(? & ? & ? & ?)|(? & ? & ? & ?)]]; [congruence|].
  split_and!; [done|congruence..|done].
Qed.

Lemma merged_contracted extra :
  (forall e, e ∈ extra -> legit extra e) -> (forall x y, two_hop x y -> bypassed extra x y) ->
  contracted (merge_edges (length extra) extra).
Proof using Hclosed.
  intros Hleg Hby. constructor.
  - intros x y Hh. destruct (Hby x y Hh) as [Hs|Hw]; [left|by right]. by apply merged_pair.
  - intros u v w Ha. destruct (merged_arc_inv extra u v w Hleg Ha) as (x & y & Hh & ? & ? & ? & _). by exists x, y.
  - intros u v w Ha. destruct (merged_back_arc_inv extra u v w Hleg Ha) as (x & y & Hh & ? & ? & ? & _). by exists x, y.
  - intros u v w. split; intros Ha.
    + destruct (merged_arc_inv extra u v w Hleg Ha) as (x & y & Hh & <- & <- & -> & Hs). by apply merged_pair.
    + destruct (merged_back_arc_inv extra u v w Hleg Ha) as (x & y & Hh & <- & <- & -> & Hs). by apply merged_pair.
  - intros e He. destruct (merge_edges_ok (length extra) extra eq_refl) as [_ J].
    destruct (J e He) as ((a & Ha & (K1 & K2 & _ & _ & K5 & K6)) & _).
    destruct (Hleg a Ha) as (x & y & Hh & Hin & _). rewrite K1, K2.
    pose proof Hh as (Hx & Hy & _ & _ & Hxn & Hyn). apply Hclosed in Hx, Hy.
    destruct (shortcut_pair_inv x y a Hin) as [_ [(-> & -> & F & _)|(-> & -> & _ & F)]]; split_and!; auto; lia.
Qed.

Lemma ContractNode_ok s M c r :
  good num (cs_heap s) M (c + zlen (adj g node)) r -> 0 <= c -> zlen (node_weights s) = num ->
  3 + deg + FULL_SEARCH_SPACE_SIZE * deg < r ->
  exists s' M' new, ContractNode s g node = Some s' /\ good num (cs_heap s') M' c r /\
    zlen (node_weights s') = num /\ inserted_edges s' = inserted_edges s ++ new /\ contracted new.
Proof using Hwf Hnode Hclosed Hpos Hmaxw Hdeg.
  intros G Hc Hlen Hroom. unfold ContractNode, ContractNode_impl.
  destruct adjacent_edges as (range & -> & Hat). cbn [mbind option_bind].
  destruct (contract_in_edges_ok range (adj g node) s M c r range) as (s1 & M1 & extra & -> & [X1 X2 X3] & G1 & B);
    try done.
  cbn [mbind option_bind]. exists (mkContractState (cs_heap s1) (inserted_edges s ++ merge_edges (length extra) extra)
    (node_weights s1) (stats s1)), M1, (merge_edges (length extra) extra).
  split.
  { rewrite X1, take_app_length, drop_app_length, length_app. do 4 f_equal. lia. }
  split; [done|]. split; [simpl; lia|]. split; [done|].
  apply merged_contracted; [done|]. intros x y Hh. apply B; [apply Hh|done].
Qed.
End witness.
