(* ===== verification/Contraction.v ===== *)
(** * Rounds of contraction

    Model of the second half of src/contractor/graph_contractor.cpp: node
    priorities, the choice of independent nodes, removal of the edges into
    contracted nodes, insertion of the shortcuts, renumbering, and the loop of
    [contractGraph].  Parallel loops run on one thread here: their iterations
    work on different nodes, and the theorem needs the nodes of a round to be
    independent, as the code does. *)
From Stdlib Require Import SpecFloat.
From stdpp Require Import sorting.
From S2P Require Import Prelude Walks QueryHeap Permutation DynamicGraph XorFastHash ContractorSearch GraphContractor.

(** ** Floating point

    [float] is binary32, [double] binary64. *)

Definition fsub32 (x y : float32) : float32 := SFsub 24 128 x y.
Definition fmul32 (x y : float32) : float32 := SFmul 24 128 x y.
Definition fdiv32 (x y : float32) : float32 := SFdiv 24 128 x y.
Definition float_of_int (z : Z) : float32 := binary_normalize 24 128 z 0 false.
Definition FLT_EPSILON : float32 := S754_finite false 8388608 (-46).
Definition FLT_MAX : float32 := S754_finite false 16777215 104.

(** Conversion of a non-negative finite [double] to an integer. *)
Definition trunc64 (x : spec_float) : Z :=
  match x with
  | S754_finite false m e => Z.shiftl (Zpos m) e
  | _ => 0
  end.

(** ** Priorities *)

Definition EvaluateNodePriority (stats : ContractionStats) (node_depth : Z) : float32 :=
  let depth_term := fmul32 (float_of_int 1) (float_of_int node_depth) in
  if 0 =? swrap 32 (edges_deleted_count stats * original_edges_deleted_count stats)
  then depth_term
  else
    fadd32
      (fadd32
         (fmul32 (float_of_int 2)
            (fdiv32 (float_of_int (edges_added_count stats)) (float_of_int (edges_deleted_count stats))))
         (fmul32 (float_of_int 4)
            (fdiv32 (float_of_int (original_edges_added_count stats))
               (float_of_int (original_edges_deleted_count stats)))))
      depth_term.

(** ** Node data *)

Record ContractorNodeData : Type := mkContractorNodeData {
  is_core : list bool;
  contractable : list bool;
  priorities : list float32;
  weights : list Z;
  depths : list Z
}.

Definition ContractorNodeData_new (number_of_nodes : Z) (uncontracted_nodes contractable_ : list bool)
    (weights_ : list Z) : ContractorNodeData :=
  let all := replicate (Z.to_nat number_of_nodes) true in
  mkContractorNodeData
    (match uncontracted_nodes with [] => all | _ => uncontracted_nodes end)
    (match contractable_ with [] => all | _ => contractable_ end)
    (replicate (Z.to_nat number_of_nodes) (S754_zero false)) weights_
    (replicate (Z.to_nat number_of_nodes) 0).

Definition NodeData_Renumber (nd : ContractorNodeData) (old_to_new : list Z) : option ContractorNodeData :=
  p ← inplacePermutation old_to_new (priorities nd);
  w ← inplacePermutation old_to_new (weights nd);
  c ← inplacePermutation old_to_new (is_core nd);
  k ← inplacePermutation old_to_new (contractable nd);
  d ← inplacePermutation old_to_new (depths nd);
  Some (mkContractorNodeData c k p w d).

Record RemainingNodeData : Type := mkRemainingNodeData { rn_id : Z; is_independent : bool }.

(** [Bias]: ties are broken by the hashes, then by the ids. *)
Definition Bias (fast_hash : Z -> option Z) (a b : Z) : option bool :=
  hasha ← fast_hash a;
  hashb ← fast_hash b;
  Some (if negb (hasha =? hashb) then hasha <? hashb else a <? b).

(** ** Neighbours *)

(** [std::unique] on a sorted vector. *)
Fixpoint unique (l : list Z) : list Z :=
  match l with
  | x :: (y :: _) as l' => if x =? y then unique l' else x :: unique l'
  | l => l
  end.

(** Sorting a vector of integers and dropping the duplicates. *)
Definition sort_unique (l : list Z) : list Z := unique (merge_sort Z.le l).

Section rounds.
Implicit Types (graph : ContractorGraph).

(** The targets of the edges in [range] other than [node]. *)
Fixpoint neighbour_targets graph (range : list Z) (node : Z) : option (list Z) :=
  match range with
  | [] => Some []
  | e :: range =>
      u ← GetTarget graph e;
      l ← neighbour_targets graph range node;
      Some (if u =? node then l else u :: l)
  end.

Fixpoint delete_edges_to_node graph (neighbours : list Z) (node : Z) : option ContractorGraph :=
  match neighbours with
  | [] => Some graph
  | u :: neighbours =>
      '(_, graph') ← DeleteEdgesTo graph u node;
      delete_edges_to_node graph' neighbours node
  end.

Definition DeleteIncomingEdges graph (node : Z) : option ContractorGraph :=
  range ← GetAdjacentEdgeRange graph node;
  neighbours ← neighbour_targets graph range node;
  delete_edges_to_node graph (sort_unique neighbours) node.

(** The test of a node against a node at most two hops away: [false] when that
    node has to be contracted first. *)
Definition goes_first (fast_hash : Z -> option Z) (priorities : list float32)
    (new_to_old_node_id : list Z) (priority : float32) (node target : Z) : option bool :=
  target_priority ← priorities !z target;
  if SFltb target_priority priority then Some false
  else if SFltb (SFabs (fsub32 priority target_priority)) FLT_EPSILON then
    a ← new_to_old_node_id !z node;
    b ← new_to_old_node_id !z target;
    bias ← Bias fast_hash a b;
    Some (negb bias)
  else Some true.

(** The edges of one node in the check; [true] when none of their targets
    objects. *)
Fixpoint check_edges (fast_hash : Z -> option Z) (priorities : list float32)
    (new_to_old_node_id : list Z) graph (priority : float32) (node : Z) (range : list Z)
  : option bool :=
  match range with
  | [] => Some true
  | e :: range =>
      target ← GetTarget graph e;
      ok ← (if node =? target then Some true
            else goes_first fast_hash priorities new_to_old_node_id priority node target);
      if (ok : bool)
      then check_edges fast_hash priorities new_to_old_node_id graph priority node range
      else Some false
  end.

Fixpoint check_neighbours (fast_hash : Z -> option Z) (priorities : list float32)
    (new_to_old_node_id : list Z) graph (priority : float32) (node : Z) (neighbours : list Z)
  : option bool :=
  match neighbours with
  | [] => Some true
  | u :: neighbours =>
      range ← GetAdjacentEdgeRange graph u;
      ok ← check_edges fast_hash priorities new_to_old_node_id graph priority node range;
      if (ok : bool)
      then check_neighbours fast_hash priorities new_to_old_node_id graph priority node neighbours
      else Some false
  end.

Definition IsNodeIndependent (fast_hash : Z -> option Z) (priorities : list float32)
    (new_to_old_node_id : list Z) graph (node : Z) : option bool :=
  priority ← priorities !z node;
  range ← GetAdjacentEdgeRange graph node;
  ok ← check_edges fast_hash priorities new_to_old_node_id graph priority node range;
  if (ok : bool) then
    neighbours ← neighbour_targets graph range node;
    check_neighbours fast_hash priorities new_to_old_node_id graph priority node (sort_unique neighbours)
  else Some false.

(** ** Inserting the shortcuts of a round *)

Definition dflt_edge : DynamicEdge ContractorEdgeData :=
  mkDynamicEdge 0 (mkContractorEdgeData 0 0 (S754_zero false) 0 0 false false false).

Definition insert_new_edge graph (edge : ContractorEdge) : option ContractorGraph :=
  current_edge_ID ← FindEdge graph (ie_source edge) (ie_target edge);
  duplicate ←
    (if negb (current_edge_ID =? SPECIAL_EDGEID) then
       current_data ← GetEdgeData graph current_edge_ID;
       Some (if shortcut current_data &&
                Bool.eqb (forward (ie_data edge)) (forward current_data) &&
                Bool.eqb (backward (ie_data edge)) (backward current_data)
             then Some (weight current_data) else None)
     else Some None);
  match duplicate with
  | Some w =>
      if weight (ie_data edge) <? w
      then SetEdgeData graph current_edge_ID (ie_data edge)
      else Some graph
  | None =>
      '(_, graph') ← InsertEdge dflt_edge graph (ie_source edge) (ie_target edge) (ie_data edge);
      Some graph'
  end.

Fixpoint insert_new_edges graph (edges : list ContractorEdge) : option ContractorGraph :=
  match edges with
  | [] => Some graph
  | e :: edges => graph' ← insert_new_edge graph e; insert_new_edges graph' edges
  end.

Fixpoint delete_incoming graph (nodes : list Z) : option ContractorGraph :=
  match nodes with
  | [] => Some graph
  | n :: nodes => graph' ← DeleteIncomingEdges graph n; delete_incoming graph' nodes
  end.

(** ** Renumbering *)

Fixpoint renumber_ids graph (range : list Z) (old_to_new : list Z) : option ContractorGraph :=
  match range with
  | [] => Some graph
  | e :: range =>
      d ← GetEdgeData graph e;
      if shortcut d then
        id ← old_to_new !z edge_id d;
        graph' ← SetEdgeData graph e
          (mkContractorEdgeData (weight d) (duration d) (distance d) id (originalEdges d)
             (shortcut d) (forward d) (backward d));
        renumber_ids graph' range old_to_new
      else renumber_ids graph range old_to_new
  end.

Fixpoint renumber_all_ids graph (nodes : list Z) (old_to_new : list Z) : option ContractorGraph :=
  match nodes with
  | [] => Some graph
  | n :: nodes =>
      range ← GetAdjacentEdgeRange graph n;
      graph' ← renumber_ids graph range old_to_new;
      renumber_all_ids graph' nodes old_to_new
  end.

Definition RenumberGraph graph (old_to_new : list Z) : option (option ContractorGraph) :=
  r ← Renumber dflt_edge graph old_to_new;
  match r with
  | None => Some None
  | Some graph' =>
      graph'' ← renumber_all_ids graph' (seqZ 0 (GetNumberOfNodes graph')) old_to_new;
      Some (Some graph'')
  end.

Fixpoint renumber_remaining (remaining : list RemainingNodeData) (id : Z)
    (current_to_new to_orig new_to_old : list Z)
  : option (list RemainingNodeData * list Z * list Z * Z) :=
  match remaining with
  | [] => Some ([], current_to_new, new_to_old, id)
  | r :: remaining =>
      c ← zset (rn_id r) id current_to_new;
      o ← to_orig !z rn_id r;
      n ← zset id o new_to_old;
      '(rs, c', n', id') ← renumber_remaining remaining (wrap 32 (id + 1)) c to_orig n;
      Some (mkRemainingNodeData id (is_independent r) :: rs, c', n', id')
  end.

Fixpoint renumber_contracted (current_ids : list Z) (id : Z) (current_to_new to_orig new_to_old : list Z)
  : option (list Z * list Z * Z) :=
  match current_ids with
  | [] => Some (current_to_new, new_to_old, id)
  | current_id :: current_ids =>
      x ← current_to_new !z current_id;
      if x =? SPECIAL_NODEID then
        c ← zset current_id id current_to_new;
        o ← to_orig !z current_id;
        n ← zset id o new_to_old;
        renumber_contracted current_ids (wrap 32 (id + 1)) c to_orig n
      else renumber_contracted current_ids id current_to_new to_orig new_to_old
  end.

Definition RenumberData (remaining : list RemainingNodeData) (new_to_old : list Z)
    (node_data : ContractorNodeData) graph
  : option (option (list RemainingNodeData * list Z * ContractorNodeData * ContractorGraph)) :=
  let n := GetNumberOfNodes graph in
  '(rs, c, o, id) ← renumber_remaining remaining 0
      (replicate (Z.to_nat n) SPECIAL_NODEID) new_to_old new_to_old;
  '(c', o', _) ← renumber_contracted (seqZ 0 n) id c new_to_old o;
  nd ← NodeData_Renumber node_data c';
  g ← RenumberGraph graph c';
  Some (graph' ← g; Some (rs, o', nd, graph')).

End rounds.

(** ** Contracting an independent set keeps distances

    The argument, on arcs only: [E] are the arcs before, [E'] the arcs after,
    [I] the contracted nodes. *)

Section independent.
Context (E E' : Z -> Z -> Z -> Prop) (I : list Z).
Context (Hpos : forall u v w, E u v w -> 0 < w).
(** No two contracted nodes are adjacent or have a common predecessor. *)
Context (Hnonadj : forall a b w, a ∈ I -> b ∈ I -> E a b w -> False).
Context (Hcommon : forall u a b w w', a ∈ I -> b ∈ I -> E u a w -> E u b w' -> a = b).
(** Arcs between the remaining nodes survive, at most lighter. *)
Context (Hkeep : forall u v w, u ∉ I -> v ∉ I -> E u v w -> exists w', E' u v w' /\ w' <= w).
(** Every two-hop path is replaced by an arc, or avoided by a walk. *)
Context (Hbypass : forall a u v w1 w2, a ∈ I -> u ∉ I -> v ∉ I -> u <> v -> E u a w1 -> E a v w2 ->
  (exists w', E' u v w' /\ w' <= w1 + w2) \/
  (exists p, walk (fun x y w => E x y w /\ y <> a) u v p /\ p <= w1 + w2)).

Lemma walk_pos_nonneg s t p : walk E s t p -> 0 <= p.
Proof using Hpos. apply walk_nonneg. intros u v w He%Hpos. lia. Qed.

Lemma walk_zero s t p : walk E s t p -> p = 0 -> s = t.
Proof using Hpos.
  intros Hw. destruct Hw as [|s u t w w' Hw He]; [done|]. intros Hz.
  pose proof (walk_pos_nonneg _ _ _ Hw). pose proof (Hpos _ _ _ He). lia.
Qed.

(** A walk that visits a contracted node visits it between two remaining ones. *)
Definition passes (s t p a : Z) : Prop :=
  exists u v p1 w1 w2 p2, a ∈ I /\ (u ∉ I) /\ (v ∉ I) /\ walk E s u p1 /\ E u a w1 /\ E a v w2 /\
    walk E v t p2 /\ p = p1 + w1 + w2 + p2.

Lemma walk_split (F : Z -> Z -> Z -> Prop) s t p :
  (forall u v w, F u v w -> E u v w) -> (forall a b w, a ∈ I -> b ∈ I -> F a b w -> False) ->
  walk F s t p -> s ∉ I ->
  ((t ∉ I) /\ walk (fun x y w => F x y w /\ (x ∉ I) /\ y ∉ I) s t p) \/
  (t ∈ I /\ exists u p1 w1, (u ∉ I) /\ walk E s u p1 /\ F u t w1 /\ p = p1 + w1) \/
  (exists a x w, F x a w /\ passes s t p a).
Proof.
  intros HF Hind Hw Hs. assert (forall s t p, walk F s t p -> walk E s t p) as HFE by (intros ???; by apply walk_mono).
  induction Hw as [n|s u t w w' Hw IH He]; [left; split; [done|constructor]|].
  specialize (IH Hs). destruct (decide (t ∈ I)) as [Ht|Ht].
  - destruct (decide (u ∈ I)) as [Hu|Hu]; [by destruct (Hind u t w')|].
    right. left. split; [done|]. exists u, w, w'. split_and!; try done. by apply HFE.
  - destruct IH as [[Hu IH]|[[Hu (u' & p1 & w1 & Hu' & Hp1 & Hw1 & ->)]|(a & x & wx & Hx & Hp)]].
    + left. split; [done|]. econstructor; [done|]. done.
    + right. right. exists u, u', w1. split; [done|].
      exists u', t, p1, w1, w', 0. split_and!; auto; [constructor|lia].
    + right. right. exists a, x, wx. split; [done|].
      destruct Hp as (u1 & v & p1 & w1 & w2 & p2 & Ha & Hu1 & Hv & W1 & E1 & E2 & W2 & ->).
      exists u1, v, p1, w1, w2, (p2 + w'). split_and!; auto; [|lia]. econstructor; eauto.
Qed.

Definition reached (s t p : Z) : Prop := exists p', walk E' s t p' /\ p' <= p.

Lemma reached_app s u t p q : reached s u p -> reached u t q -> reached s t (p + q).
Proof. intros (p' & W1 & L1) (q' & W2 & L2). exists (p' + q'). split; [by eapply walk_app|lia]. Qed.

Lemma reached_le s t p q : reached s t p -> p <= q -> reached s t q.
Proof. intros (p' & W & L) Hle. exists p'. split; [done|lia]. Qed.

(** A walk among the remaining nodes is still there. *)
Lemma reached_remaining (F : Z -> Z -> Z -> Prop) s t p :
  (forall u v w, F u v w -> E u v w) ->
  walk (fun x y w => F x y w /\ (x ∉ I) /\ y ∉ I) s t p -> reached s t p.
Proof using Hkeep.
  intros HF. induction 1 as [n|s u t w w' Hw IH (He & Hu & Ht)].
  - exists 0. split; [constructor|lia].
  - eapply reached_app; [done|]. destruct (Hkeep u t w' Hu Ht (HF _ _ _ He)) as (w2 & He' & Hle).
    exists w2. split; [by apply walk_edge|done].
Qed.

(** The pieces of a walk around a contracted node are lighter than the walk,
    unless it consists of the two hops only. *)
Lemma passes_pieces s t p a :
  passes s t p a -> s ∉ I -> t ∉ I ->
  (forall s' t' p', p' < p -> s' ∉ I -> t' ∉ I -> walk E s' t' p' -> reached s' t' p') ->
  reached s t p \/ (exists w1 w2, s <> t /\ E s a w1 /\ E a t w2 /\ p = w1 + w2).
Proof using Hpos.
  intros (u & v & p1 & w1 & w2 & p2 & Ha & Hu & Hv & W1 & E1 & E2 & W2 & ->) Hs Ht IH.
  pose proof (Hpos _ _ _ E1). pose proof (Hpos _ _ _ E2).
  pose proof (walk_pos_nonneg _ _ _ W1). pose proof (walk_pos_nonneg _ _ _ W2).
  destruct (decide (u = v)) as [->|Hne].
  { left. apply (reached_le _ _ (p1 + p2)); [|lia]. apply IH; [lia|done|done|]. by eapply walk_app. }
  destruct (decide (p1 = 0 /\ p2 = 0)) as [[-> ->]|Hnz].
  - right. pose proof (walk_zero _ _ _ W1 eq_refl) as <-. pose proof (walk_zero _ _ _ W2 eq_refl) as ->.
    exists w1, w2. split_and!; try done. lia.
  - left. replace (p1 + w1 + w2 + p2) with (p1 + (w1 + w2) + p2) by lia.
    apply reached_app with (u := v); [apply reached_app with (u := u)|]; apply IH; try done; try lia.
    eapply walk_app; by apply walk_edge.
Qed.

Lemma independent_reached p s t : s ∉ I -> t ∉ I -> walk E s t p -> reached s t p.
Proof using Hpos Hnonadj Hcommon Hkeep Hbypass.
  intros Hs Ht Hw. pose proof (walk_pos_nonneg _ _ _ Hw) as Hp0. revert p Hp0 s t Hs Ht Hw.
  refine (Z_lt_induction _ _). intros p IHp s t Hs Ht Hw.
  assert (forall s' t' p', p' < p -> s' ∉ I -> t' ∉ I -> walk E s' t' p' -> reached s' t' p') as IH.
  { intros s' t' p' Hlt Hs' Ht' Hw'. apply IHp; try done. split; [|done]. by eapply walk_pos_nonneg. }
  destruct (walk_split E s t p (fun _ _ _ H => H) Hnonadj Hw Hs) as [[_ Hr]|[[Ht' _]|(a & _ & _ & _ & Hpass)]].
  - by eapply reached_remaining.
  - done.
  - destruct (passes_pieces s t p a Hpass Hs Ht IH) as [Hr|(w1 & w2 & Hne & E1 & E2 & ->)]; [done|].
    assert (a ∈ I) as Ha by (by destruct Hpass as (? & ? & ? & ? & ? & ? & ? & _)).
    destruct (Hbypass a s t w1 w2 Ha Hs Ht Hne E1 E2) as [(w' & He' & Hle)|(q & Hq & Hle)].
    + exists w'. split; [by apply walk_edge|done].
    + apply (reached_le _ _ q); [|done]. destruct (decide (q < w1 + w2)) as [Hlt|Hge].
      * apply IH; try done. eapply walk_mono; [|exact Hq]. by intros x y w [? _].
      * assert (q = w1 + w2) as -> by lia.
        destruct (walk_split (fun x y w => E x y w /\ y <> a) s t (w1 + w2)) as [[_ Hr]|[[Ht' _]|(b & x & wx & [_ Hba] & Hpass')]];
          try done.
        -- by intros x y w [? _].
        -- intros x y w Hx Hy [He _]. exact (Hnonadj x y w Hx Hy He).
        -- eapply (reached_remaining (fun x y w => E x y w /\ y <> a)); [|exact Hr]. by intros x y w [? _].
        -- destruct (passes_pieces s t _ b Hpass' Hs Ht IH) as [Hr|(z1 & z2 & _ & Z1 & _ & _)]; [done|].
           destruct Hba. assert (b ∈ I) as Hb by (by destruct Hpass' as (? & ? & ? & ? & ? & ? & ? & _)).
           by eapply Hcommon.
Qed.
End independent.

(** ** Removing the edges into contracted nodes *)

Lemma unique_elem l x : x ∈ unique l <-> x ∈ l.
Proof.
  induction l as [|a [|b l] IH]; [done|done|]. cbn [unique].
  destruct (Z.eqb_spec a b) as [->|Hne].
  - rewrite IH, !elem_of_cons. tauto.
  - rewrite !(elem_of_cons _ x a), IH. tauto.
Qed.

Lemma sort_unique_elem l x : x ∈ sort_unique l <-> x ∈ l.
Proof. unfold sort_unique. rewrite unique_elem. by rewrite merge_sort_Permutation. Qed.

Section deletion.
Implicit Types (g : ContractorGraph).

Lemma neighbour_targets_ok g range es node :
  edges_at g range es -> exists l, neighbour_targets g range node = Some l /\
    forall u, u ∈ l <-> u <> node /\ exists x, x ∈ es /\ target x = u.
Proof.
  induction 1 as [|e x range es He Hat IH]; cbn [neighbour_targets].
  { exists []. split; [done|]. intros u. split; [by intros Hu%elem_of_nil|]. by intros (_ & x & Hx%elem_of_nil & _). }
  unfold GetTarget. rewrite He. cbn [mbind option_bind]. destruct IH as (l & -> & Hl). cbn [mbind option_bind].
  eexists. split; [done|]. intros u. destruct (Z.eqb_spec (target x) node) as [Hx|Hx].
  - rewrite Hl. split; intros (Hne & y & Hy & Ht); (split; [done|]); exists y; (split; [|done]).
    + by right.
    + apply elem_of_cons in Hy as [->|Hy]; [congruence|done].
  - rewrite elem_of_cons, Hl. split.
    + intros [->|(Hne & y & Hy & Ht)]; [split; [done|]; exists x; split; [by left|done]|].
      split; [done|]. exists y. split; [by right|done].
    + intros (Hne & y & [->|Hy]%elem_of_cons & Ht); [by left|]. right. split; [done|]. by exists y.
Qed.

(** No more slots, and no longer adjacency lists. *)
Definition shrunk g g' : Prop :=
  zlen (edge_list g') = zlen (edge_list g) /\ forall u, zlen (adj g' u) <= zlen (adj g u).

Lemma shrunk_refl g : shrunk g g.
Proof. by split. Qed.

Lemma shrunk_trans g1 g2 g3 : shrunk g1 g2 -> shrunk g2 g3 -> shrunk g1 g3.
Proof. intros [A1 A2] [B1 B2]. split; [congruence|]. intros u. specialize (A2 u). specialize (B2 u). lia. Qed.

Lemma delete_edges_to_node_ok g nbs node :
  dg_wf g -> (forall u, u ∈ nbs -> 0 <= u < number_of_nodes g) ->
  exists g', delete_edges_to_node g nbs node = Some g' /\ dg_wf g' /\
    number_of_nodes g' = number_of_nodes g /\ shrunk g g' /\
    forall u x, x ∈ adj g' u <-> x ∈ adj g u /\ (u ∈ nbs -> target x <> node).
Proof.
  revert g. induction nbs as [|v nbs IH]; intros g Hwf Hr; cbn [delete_edges_to_node].
  { exists g. split_and!; try done; try apply shrunk_refl. intros u x. split; [|by intros [? _]].
    intros Hx. split; [done|]. by intros Hu%elem_of_nil. }
  pose proof (dw_nodes _ Hwf) as Ln.
  destruct (zget_is_some (node_array g) v) as [nd Hnd]; [rewrite Ln; apply Hr; by left|].
  destruct (DeleteEdgesTo_ok g v nd node Hwf Hnd) as (k & g1 & -> & Hwf1 & Hn1 & _ & Ha & Ho & _ & Hl1).
  cbn [mbind option_bind]. destruct (IH g1 Hwf1) as (g2 & -> & Hwf2 & Hn2 & Hsh & Hadj).
  { intros u Hu. rewrite Hn1. apply Hr. by right. }
  exists g2. split; [done|]. split; [done|]. split; [congruence|]. split.
  { eapply shrunk_trans; [|exact Hsh]. split; [done|]. intros u. destruct (decide (u = v)) as [->|Hne].
    - unfold zlen. rewrite Ha. apply inj_le, length_filter.
    - by rewrite Ho. }
  intros u x. rewrite Hadj, elem_of_cons.
  destruct (decide (u = v)) as [->|Hne].
  - rewrite Ha, list_elem_of_filter. tauto.
  - rewrite Ho by done. tauto.
Qed.

Lemma DeleteIncomingEdges_ok g node :
  dg_wf g -> 0 <= node < number_of_nodes g ->
  (forall x, x ∈ adj g node -> 0 <= target x < number_of_nodes g) ->
  exists g', DeleteIncomingEdges g node = Some g' /\ dg_wf g' /\
    number_of_nodes g' = number_of_nodes g /\ shrunk g g' /\
    forall u x, x ∈ adj g' u <-> x ∈ adj g u /\
      (u <> node -> (exists y, y ∈ adj g node /\ target y = u) -> target x <> node).
Proof.
  intros Hwf Hn Hc. unfold DeleteIncomingEdges.
  destruct (adjacent_edges g node Hwf Hn) as (range & -> & Hat). cbn [mbind option_bind].
  destruct (neighbour_targets_ok g range (adj g node) node Hat) as (l & -> & Hl). cbn [mbind option_bind].
  destruct (delete_edges_to_node_ok g (sort_unique l) node Hwf) as (g' & -> & Hwf' & Hn' & Hsh & Hadj).
  { intros u Hu. apply sort_unique_elem, Hl in Hu as (_ & x & Hx & <-). by apply Hc. }
  exists g'. split_and!; [done..|]. intros u x. rewrite Hadj, sort_unique_elem, Hl. tauto.
Qed.

(** All nodes of a round: entries from neighbours to contracted nodes go, all
    others stay. *)
Lemma delete_incoming_ok g nodes :
  dg_wf g -> (forall n, n ∈ nodes -> 0 <= n < number_of_nodes g) ->
  (forall n x, x ∈ adj g n -> 0 <= target x < number_of_nodes g) ->
  exists g', delete_incoming g nodes = Some g' /\ dg_wf g' /\
    number_of_nodes g' = number_of_nodes g /\ shrunk g g' /\
    (forall u x, x ∈ adj g' u -> x ∈ adj g u) /\
    (forall u x, x ∈ adj g u -> (target x ∈ nodes -> u <> target x -> forall y, y ∈ adj g (target x) -> target y <> u) ->
       x ∈ adj g' u) /\
    (forall a u x, a ∈ nodes -> u ∉ nodes -> (exists y, y ∈ adj g a /\ target y = u) ->
       x ∈ adj g' u -> target x <> a).
Proof.
  revert g. induction nodes as [|a nodes IH]; intros g Hwf Hr Hc; cbn [delete_incoming].
  { exists g. split_and!; try done; try apply shrunk_refl. by intros b u x Hb%elem_of_nil. }
  destruct (DeleteIncomingEdges_ok g a Hwf) as (g1 & -> & Hwf1 & Hn1 & Hsh1 & Hadj1); [apply Hr; by left|apply Hc|].
  cbn [mbind option_bind].
  destruct (IH g1 Hwf1) as (g2 & -> & Hwf2 & Hn2 & Hsh2 & Hsub & Hkeep & Hdel).
  { intros n Hn. rewrite Hn1. apply Hr. by right. }
  { intros n x [Hx _]%Hadj1. rewrite Hn1. by eapply Hc. }
  exists g2. split; [done|]. split; [done|]. split; [congruence|]. split; [by eapply shrunk_trans|]. split_and!.
  - intros u x Hx%Hsub. by apply Hadj1 in Hx as [Hx _].
  - intros u x Hx Ht. apply Hkeep.
    + apply Hadj1. split; [done|]. intros Hne (y & Hy & Ty) Etx. rewrite Etx in Ht.
      assert (a ∈ a :: nodes) as Ha by left. by apply (Ht Ha Hne y Hy).
    + intros Hin Hne y [Hy _]%Hadj1. apply Ht; [by right|done|done].
  - intros b u x Hb Hu (y & Hy & Hty) Hx. rewrite not_elem_of_cons in Hu. destruct Hu as [Hu1 Hu2].
    destruct (decide (b = a)) as [->|Hne].
    + apply Hsub, Hadj1 in Hx as [_ Hx]. apply Hx; [done|]. by exists y.
    + apply elem_of_cons in Hb as [->|Hb]; [done|]. apply (Hdel b u); try done.
      exists y. split; [|done]. apply Hadj1. split; [done|]. congruence.
Qed.
End deletion.

(** ** Inserting shortcuts *)

Section insertion.
Implicit Types (g : ContractorGraph) (x : DynamicEdge ContractorEdgeData).

(** The same connection in the same directions, at most as heavy. *)
Definition entry_le (x' x : DynamicEdge ContractorEdgeData) : Prop :=
  target x' = target x /\ forward (data x') = forward (data x) /\
  backward (data x') = backward (data x) /\ weight (data x') <= weight (data x).

Lemma entry_le_refl x : entry_le x x.
Proof. by repeat split. Qed.

Lemma entry_le_trans x y z : entry_le x y -> entry_le y z -> entry_le x z.
Proof. intros (A1 & A2 & A3 & A4) (B1 & B2 & B3 & B4). repeat split; try congruence. lia. Qed.

(** [g'] holds the entries of [g] and of the edges [L], perhaps lighter, and no others. *)
Record absorbed g (L : list ContractorEdge) g' : Prop := {
  ab_old : forall u x, x ∈ adj g u -> exists x', x' ∈ adj g' u /\ entry_le x' x;
  ab_new : forall e, e ∈ L -> exists x', x' ∈ adj g' (ie_source e) /\ entry_le x' (edge_of_input e);
  ab_only : forall u x, x ∈ adj g' u -> x ∈ adj g u \/ exists e, e ∈ L /\ ie_source e = u /\ x = edge_of_input e
}.

(** Room for [k] more edges, no node having more than [d] now. *)
Definition capacity g (d k : Z) : Prop :=
  (forall u, zlen (adj g u) <= d) /\ zlen (edge_list g) + k * (2 * (d + k) + 2) < 2 ^ 32.

Lemma insert_new_edge_ok g e d k :
  dg_wf g -> 0 <= ie_source e < number_of_nodes g -> 0 <= ie_target e < UINT32_MAX ->
  capacity g d (k + 1) -> 0 <= k ->
  exists g', insert_new_edge g e = Some g' /\ dg_wf g' /\ number_of_nodes g' = number_of_nodes g /\
    absorbed g [e] g' /\ capacity g' (d + 1) k.
Proof.
  intros Hwf Hs Ht [Hdeg Hcap] Hk. pose proof (dw_nodes _ Hwf) as Ln.
  destruct (zget_is_some (node_array g) (ie_source e)) as [nd Hnd]; [lia|].
  destruct (dw_range _ Hwf _ _ Hnd) as (R1 & R2 & R3).
  assert (zlen (adj g (ie_source e)) = edges nd) as La by (unfold adj; rewrite Hnd; by apply zslice_len).
  pose proof (Hdeg (ie_source e)) as Hds. rewrite La in Hds.
  assert (capacity g (d + 1) k) as Hcap'.
  { split; [intros u; specialize (Hdeg u); lia|]. nia. }
  (* inserting *)
  assert (exists g', ('(_, graph') ← InsertEdge dflt_edge g (ie_source e) (ie_target e) (ie_data e); Some graph') = Some g' /\
    dg_wf g' /\ number_of_nodes g' = number_of_nodes g /\ absorbed g [e] g' /\ capacity g' (d + 1) k) as Hinsert.
  { assert (11 * edges nd / 10 <= 2 * edges nd) as Hdiv by (apply Z.div_le_upper_bound; lia).
    destruct (InsertEdge_ok dflt_edge g (ie_source e) nd (ie_target e) (ie_data e) Hwf Hnd Ht) as
      (i & g' & -> & Hwf' & Hn' & _ & Ha & Ho & Hl); [nia|].
    cbn [mbind option_bind]. exists g'. split; [done|]. split; [done|]. split; [done|].
    assert (forall x, x ∈ adj g' (ie_source e) <-> x = edge_of_input e \/ x ∈ adj g (ie_source e)) as Hin.
    { intros x. rewrite Ha, elem_of_cons. done. }
    split.
    - constructor.
      + intros u x Hx. exists x. split; [|apply entry_le_refl].
        destruct (decide (u = ie_source e)) as [->|Hne]; [apply Hin; by right|by rewrite Ho].
      + intros e' [->|He'%elem_of_nil]%elem_of_cons; [|done]. eexists. split; [apply Hin; by left|apply entry_le_refl].
      + intros u x Hx. destruct (decide (u = ie_source e)) as [->|Hne].
        * apply Hin in Hx as [->|Hx]; [right|by left]. exists e. split; [by left|done].
        * left. by rewrite <- Ho.
    - split; [|nia]. intros u. destruct (decide (u = ie_source e)) as [->|Hne].
      + unfold zlen. rewrite Ha. change (zlen (edge_of_input e :: adj g (ie_source e)) <= d + 1).
        rewrite zlen_cons. lia.
      + rewrite Ho by done. specialize (Hdeg u). lia. }
  unfold insert_new_edge.
  destruct (FindEdge_ok g (ie_source e) nd (ie_target e) Hwf Hnd) as [(i & x & -> & Hx & Hxt)|[-> Hno]];
    cbn [mbind option_bind]; [|exact Hinsert].
  pose proof (edge_of_not_special _ _ _ _ Hwf Hx) as Hns.
  rewrite (proj2 (Z.eqb_neq _ _) Hns). cbn [negb].
  assert (edge_list g !z i = Some x) as Hix by (by destruct Hx as (? & _ & _ & ?)).
  unfold GetEdgeData at 1. rewrite Hix. cbn [mbind option_bind].
  destruct (shortcut (data x) && _ && _) eqn:Edup; [|exact Hinsert].
  rewrite !andb_true_iff, !eqb_true_iff in Edup. destruct Edup as [[_ Hf] Hb].
  assert (x ∈ adj g (ie_source e)) as Hxin by (apply edge_of_adj; eauto).
  destruct (Z.ltb_spec (weight (ie_data e)) (weight (data x))) as [Hlt|Hge].
  - destruct (SetEdgeData_ok g (ie_source e) i x (ie_data e) Hwf Hx) as (g' & -> & Hwf' & Hn' & Hl & Ha & Ho & Hna).
    exists g'. split; [done|]. split; [done|]. split; [done|].
    assert (mkDynamicEdge (target x) (ie_data e) = edge_of_input e) as Heq by (unfold edge_of_input; by rewrite Hxt).
    rewrite Heq in Ha.
    assert (edge_of_input e ∈ adj g' (ie_source e)) as Hnew.
    { assert (edge_of_input e ∈ x :: adj g' (ie_source e)) as Hin by (rewrite Ha; by left).
      apply elem_of_cons in Hin as [Hin|Hin]; [|done].
      assert (weight (data x) = weight (ie_data e)) by (by rewrite <- Hin). lia. }
    assert (entry_le (edge_of_input e) x) as Hle by (repeat split; simpl; try congruence; lia).
    split.
    + constructor.
      * intros u y Hy. destruct (decide (u = ie_source e)) as [->|Hne];
          [|exists y; split; [by rewrite Ho|apply entry_le_refl]].
        assert (y ∈ edge_of_input e :: adj g (ie_source e)) as Hin by (by right).
        rewrite <- Ha in Hin. apply elem_of_cons in Hin as [->|Hin]; [by exists (edge_of_input e)|].
        exists y. split; [done|apply entry_le_refl].
      * intros e' [->|He'%elem_of_nil]%elem_of_cons; [|done]. eexists. split; [exact Hnew|apply entry_le_refl].
      * intros u y Hy. destruct (decide (u = ie_source e)) as [->|Hne]; [|left; by rewrite <- Ho].
        assert (y ∈ x :: adj g' (ie_source e)) as Hin by (by right).
        rewrite Ha in Hin. apply elem_of_cons in Hin as [->|Hin]; [right|by left].
        exists e. split; [by left|done].
    + destruct Hcap' as [Hd' Hc']. split; [|by rewrite Hl]. intros u.
      destruct (decide (u = ie_source e)) as [->|Hne]; [|rewrite Ho by done; apply Hd'].
      assert (length (x :: adj g' (ie_source e)) = length (edge_of_input e :: adj g (ie_source e))) as Hlen by (by rewrite Ha).
      simpl in Hlen. specialize (Hdeg (ie_source e)). unfold zlen in *. lia.
  - exists g. split; [done|]. split; [done|]. split; [done|]. split; [|done]. constructor.
    + intros u y Hy. exists y. split; [done|apply entry_le_refl].
    + intros e' [->|He'%elem_of_nil]%elem_of_cons; [|done]. exists x. split; [done|].
      repeat split; simpl; congruence || lia.
    + intros u y Hy. by left.
Qed.

Lemma insert_new_edges_ok g L d :
  dg_wf g -> (forall e, e ∈ L -> 0 <= ie_source e < number_of_nodes g /\ 0 <= ie_target e < UINT32_MAX) ->
  capacity g d (zlen L) ->
  exists g', insert_new_edges g L = Some g' /\ dg_wf g' /\ number_of_nodes g' = number_of_nodes g /\ absorbed g L g'.
Proof.
  revert g d. induction L as [|e L IH]; intros g d Hwf Hr Hcap; cbn [insert_new_edges].
  { exists g. split_and!; try done. constructor.
    - intros u x Hx. exists x. split; [done|apply entry_le_refl].
    - by intros e He%elem_of_nil.
    - intros u x Hx. by left. }
  rewrite zlen_cons, Z.add_comm in Hcap. destruct (Hr e) as [Hs Ht]; [by left|].
  destruct (insert_new_edge_ok g e d (zlen L) Hwf Hs Ht Hcap) as (g1 & -> & Hwf1 & Hn1 & [A1 B1 C1] & Hcap1);
    [eauto with osrm|].
  cbn [mbind option_bind]. destruct (IH g1 (d + 1) Hwf1) as (g2 & E2 & Hwf2 & Hn2 & [A2 B2 C2]); [|done|].
  { intros e' He'. rewrite Hn1. apply Hr. by right. }
  exists g2. split; [done|]. split; [done|]. split; [congruence|]. constructor.
  - intros u x (x1 & Hx1 & Hle1)%A1. destruct (A2 u x1 Hx1) as (x2 & Hx2 & Hle2). exists x2.
    split; [done|]. by eapply entry_le_trans.
  - intros e' [->|He']%elem_of_cons; [|by apply B2].
    destruct (B1 e) as (x1 & Hx1 & Hle1); [by left|]. destruct (A2 _ _ Hx1) as (x2 & Hx2 & Hle2).
    exists x2. split; [done|]. by eapply entry_le_trans.
  - intros u x Hx. destruct (C2 u x Hx) as [Hx1|(e' & He' & Hs' & Hx')].
    + destruct (C1 u x Hx1) as [Hx0|(e' & [->|He'%elem_of_nil]%elem_of_cons & Hs' & Hx')]; [by left| |done].
      right. exists e. split; [by left|done].
    + right. exists e'. split; [by right|done].
Qed.
End insertion.

(** ** One round of the loop of [contractGraph] *)

Section round.
Context {St H Handle : Type} `{IndexStorage St, MutableHeap H Handle}.
Implicit Types (s : ContractState St H Handle) (graph : ContractorGraph).

(** All independent nodes are contracted in the same graph. *)
Fixpoint contract_nodes s graph (nodes : list Z) : option (ContractState St H Handle) :=
  match nodes with
  | [] => Some s
  | n :: nodes => s' ← ContractNode s graph n; contract_nodes s' graph nodes
  end.

(** [parallel_sort] is the sort of the thread library: an argument here. *)
Definition contract_round (parallel_sort : list ContractorEdge -> list ContractorEdge)
    s graph (independent : list Z) : option (ContractState St H Handle * ContractorGraph) :=
  s1 ← contract_nodes s graph independent;
  g1 ← delete_incoming graph independent;
  g2 ← insert_new_edges g1 (parallel_sort (inserted_edges s1));
  Some (mkContractState (cs_heap s1) [] (node_weights s1) (stats s1), g2).
End round.

(** The graph between rounds: [A] are the nodes not contracted yet. *)
Record contractible (g : ContractorGraph) (A : Z -> Prop) (maxw : Z) : Prop := {
  cg_wf : dg_wf g;
  cg_num : number_of_nodes g <= UINT32_MAX;
  cg_nodes : forall n, A n -> 0 <= n < number_of_nodes g;
  cg_closed : forall n x, x ∈ adj g n -> 0 <= target x < number_of_nodes g;
  cg_active : forall u x, A u -> x ∈ adj g u -> A (target x);
  cg_weight : forall n x, x ∈ adj g n -> 0 < weight (data x) <= maxw;
  cg_back : forall u x, A u -> x ∈ adj g u -> exists y, y ∈ adj g (target x) /\ target y = u;
  cg_forward : forall u x, A u -> x ∈ adj g u -> forward (data x) = true ->
    exists y, y ∈ adj g (target x) /\ target y = u /\ backward (data y) = true /\
      weight (data y) <= weight (data x);
  cg_backward : forall u x, A u -> x ∈ adj g u -> backward (data x) = true ->
    exists y, y ∈ adj g (target x) /\ target y = u /\ forward (data y) = true /\
      weight (data y) <= weight (data x)
}.

(** No two nodes of [I] are adjacent or share a neighbour. *)
Definition independent_set (g : ContractorGraph) (I : list Z) : Prop :=
  (forall a x, a ∈ I -> x ∈ adj g a -> target x ∈ I -> target x = a) /\
  (forall a b x y, a ∈ I -> b ∈ I -> x ∈ adj g a -> y ∈ adj g b ->
     target x = target y -> target x <> a -> target y <> b -> a = b).

(** Same shortest-path weights between the nodes that satisfy [A]. *)
Definition same_distances (A : Z -> Prop) (g g' : ContractorGraph) : Prop :=
  forall s t, A s -> A t ->
    (forall p, walk (arc g) s t p -> exists p', walk (arc g') s t p' /\ p' <= p) /\
    (forall p, walk (arc g') s t p -> exists p', walk (arc g) s t p' /\ p' <= p).

Section round_correct.
Context (g : ContractorGraph) (A : Z -> Prop) (maxw : Z) (I : list Z).
Context (Hg : contractible g A maxw).
Context (HI : forall a, a ∈ I -> A a) (Hind : independent_set g I).

(** Arcs of active nodes without loops. *)
Definition active_arc (u v w : Z) : Prop := A u /\ u <> v /\ arc g u v w.

Lemma walk_active (P : Z -> Z -> Z -> Prop) s t p :
  (forall u v w, P u v w -> arc g u v w) -> A s -> walk P s t p ->
  A t /\ exists p', walk (fun u v w => active_arc u v w /\ P u v w) s t p' /\ p' <= p.
Proof using Hg.
  intros HP Hs. induction 1 as [n|s u t w w' Hw IH He].
  - split; [done|]. exists 0. split; [constructor|lia].
  - destruct (IH Hs) as [Hu (p' & Hw' & Hle)]. destruct (HP _ _ _ He) as (x & Hx & Ht & Hf & Hwx).
    split; [rewrite <- Ht; by eapply cg_active|].
    destruct (decide (u = t)) as [<-|Hne].
    + exists p'. split; [done|]. pose proof (cg_weight _ _ _ Hg _ _ Hx). lia.
    + exists (p' + w'). split; [|lia]. econstructor; [done|]. split; [|done].
      split; [done|]. split; [done|]. by exists x.
Qed.

(** The entry of a contracted node for an arc that enters it. *)
Lemma arc_entry u a w : A u -> arc g u a w ->
  exists x, x ∈ adj g a /\ target x = u /\ backward (data x) = true /\ weight (data x) <= w.
Proof using Hg.
  intros Hu (x & Hx & <- & Hf & <-). by apply (cg_forward _ _ _ Hg u x).
Qed.

Section after.
Context (g1 g2 : ContractorGraph) (L : list ContractorEdge).
Context (Hwf2 : dg_wf g2) (Hn2 : number_of_nodes g2 = number_of_nodes g).
Context (Hsub : forall u x, x ∈ adj g1 u -> x ∈ adj g u).
Context (Hkeep : forall u x, x ∈ adj g u ->
  (target x ∈ I -> u <> target x -> forall y, y ∈ adj g (target x) -> target y <> u) -> x ∈ adj g1 u).
Context (Hgone : forall a u x, a ∈ I -> u ∉ I -> (exists y, y ∈ adj g a /\ target y = u) ->
  x ∈ adj g1 u -> target x <> a).
Context (Habs : absorbed g1 L g2).
(** [L] are the shortcuts of the nodes of [I]. *)
Context (Hcomplete : forall a, a ∈ I -> exists new, contracted g a new /\ new ⊆ L).
Context (Honly : forall e, e ∈ L -> exists a new, a ∈ I /\ contracted g a new /\ e ∈ new /\ new ⊆ L).

Definition remaining (u : Z) : Prop := A u /\ u ∉ I.

Lemma stay u x : x ∈ adj g u -> target x ∉ I -> x ∈ adj g1 u.
Proof using Hkeep. intros Hx Hn. apply Hkeep; [done|]. by intros Hin. Qed.

Lemma new_arc u v w : has_arc L u v w -> exists w', arc g2 u v w' /\ w' <= w.
Proof using Habs.
  intros (e & He & <- & <- & <- & Hf). destruct (ab_new _ _ _ Habs e He) as (x & Hx & T & F & B & W).
  exists (weight (data x)). split; [|done]. exists x. by rewrite F.
Qed.

(** A shortcut among [L] stands for a path through a node of [I]. *)
Lemma shortcut_hops e : e ∈ L -> exists a u v w1 w2 x y new, a ∈ I /\ new ⊆ L /\ contracted g a new /\ e ∈ new /\
  x ∈ adj g a /\ y ∈ adj g a /\ target x = u /\ target y = v /\ u <> a /\ v <> a /\
  backward (data x) = true /\ forward (data y) = true /\ weight (data x) = w1 /\ weight (data y) = w2 /\
  weight (ie_data e) = w1 + w2 /\ has_arc new u v (w1 + w2) /\ has_back_arc new u v (w1 + w2) /\
  ((forward (ie_data e) = true /\ ie_source e = u /\ ie_target e = v) \/
   (backward (ie_data e) = true /\ ie_source e = v /\ ie_target e = u)).
Proof using Honly.
  intros (a & new & Ha & Hc & Hen & Hnew)%Honly.
  destruct (ct_ends _ _ _ Hc e Hen) as (_ & _ & _ & _ & [Hf|Hb]).
  - assert (has_arc new (ie_source e) (ie_target e) (weight (ie_data e))) as Harc by (by exists e).
    destruct (ct_forward _ _ _ Hc _ _ _ Harc) as (x & y & Hh & Hx & Hy & Hw).
    pose proof Hh as (Hxa & Hya & Hbx & Hfy & Hxn & Hyn).
    exists a, (target x), (target y), (weight (data x)), (weight (data y)), x, y, new.
    rewrite <- Hw, Hx, Hy. split_and!; try done; [congruence..|by apply (ct_pairs _ _ _ Hc)|by left].
  - assert (has_back_arc new (ie_target e) (ie_source e) (weight (ie_data e))) as Harc by (by exists e).
    destruct (ct_backward _ _ _ Hc _ _ _ Harc) as (x & y & Hh & Hx & Hy & Hw).
    pose proof Hh as (Hxa & Hya & Hbx & Hfy & Hxn & Hyn).
    exists a, (target x), (target y), (weight (data x)), (weight (data y)), x, y, new.
    rewrite <- Hw, Hx, Hy. split_and!; try done; [congruence..|by apply (ct_pairs _ _ _ Hc)|by right].
Qed.

(** Neighbours of contracted nodes remain. *)
Lemma neighbour_remaining a x : a ∈ I -> x ∈ adj g a -> target x <> a -> remaining (target x).
Proof using Hg HI Hind.
  intros Ha Hx Hne. split; [eapply cg_active; eauto|]. intros Hin. apply Hne. by apply (proj1 Hind a x).
Qed.

Lemma kept_entry u x : remaining u -> x ∈ adj g1 u -> target x ∉ I.
Proof using Hg Hsub Hgone.
  intros [HA Hu] Hx Hin. apply (Hgone (target x) u x Hin Hu); [|done|done].
  apply (cg_back _ _ _ Hg u x HA). by apply Hsub.
Qed.

Lemma kept_arc u v w : u ∉ I -> v ∉ I -> active_arc u v w -> exists w', arc g2 u v w' /\ w' <= w.
Proof using Hkeep Habs.
  intros Hu Hv (HA & Hne & x & Hx & <- & Hf & <-).
  destruct (ab_old _ _ _ Habs u x (stay u x Hx Hv)) as (x' & Hx' & T & F & B & W).
  exists (weight (data x')). split; [|done]. exists x'. by rewrite F.
Qed.

Lemma distances_down s t p :
  remaining s -> remaining t -> walk (arc g) s t p -> exists p', walk (arc g2) s t p' /\ p' <= p.
Proof using Hg HI Hind Hkeep Habs Hcomplete.
  intros [HAs Hs] [HAt Ht] Hw. destruct (walk_active (arc g) s t p) as [_ (p1 & Hw1 & Hle1)]; [done..|].
  assert (walk active_arc s t p1) as Hw2 by (eapply walk_mono; [|exact Hw1]; by intros u v w [? _]).
  destruct (independent_reached active_arc (arc g2) I) with (p := p1) (s := s) (t := t) as (p2 & Hp2 & Hle2); try done.
  - intros u v w (_ & _ & x & Hx & _ & _ & <-). by apply (cg_weight _ _ _ Hg u).
  - intros a b w Ha Hb (_ & Hne & x & Hx & <- & _). apply Hne. symmetry. by apply (proj1 Hind a x).
  - intros u a b w w' Ha Hb (HAu & Hne & H1) (_ & Hne' & H2).
    destruct (arc_entry u a w HAu H1) as (x & Hx & Tx & _). destruct (arc_entry u b w' HAu H2) as (y & Hy & Ty & _).
    apply (proj2 Hind a b x y); try done; congruence.
  - intros u v w Hu Hv Ha. by apply kept_arc.
  - intros a u v w1 w2 Ha Hu Hv Huv (HAu & Hua & H1) (_ & Hav & y & Hy & Ty & Hfy & Wy).
    destruct (arc_entry u a w1 HAu H1) as (x & Hx & Tx & Hbx & Wx).
    destruct (Hcomplete a Ha) as (new & Hc & Hnew).
    assert (two_hop g a x y) as Hh by (split_and!; try done; congruence).
    destruct (ct_complete _ _ _ Hc x y Hh) as [[(e & He & Hes & Het & Hew & Hef) _]|(q & Hq & Hle)].
    + left. destruct (new_arc u v (weight (data x) + weight (data y))) as (w' & Ha' & Hle').
      { exists e. split; [by apply Hnew|]. split_and!; try congruence. }
      exists w'. split; [done|lia].
    + right. rewrite Tx, Ty in Hq.
      destruct (walk_active (arc_avoiding g a) u v q) as [_ (q' & Hq' & Hle')]; [by intros ??? [? _]|done|done|].
      exists q'. split; [|lia]. eapply walk_mono; [|exact Hq']. intros x' y' w' [H3 [_ H4]]. done.
  - exists p2. split; [done|lia].
Qed.

Lemma arc_up u v w : remaining u -> arc g2 u v w -> exists p, walk (arc g) u v p /\ p <= w.
Proof using Hg HI Hsub Habs Honly.
  intros [HAu Hu] (x & Hx & <- & Hf & <-). destruct (ab_only _ _ _ Habs u x Hx) as [Hx1|(e & He & Hes & ->)].
  - exists (weight (data x)). split; [|lia]. apply walk_edge. exists x. split; [by apply Hsub|done].
  - apply Honly in He as (a & new & Ha & Hc & Hen & _).
    destruct (ct_forward _ _ _ Hc (ie_source e) (ie_target e) (weight (ie_data e))) as (z & y & Hh & Hz & Hy & Hw);
      [by exists e|].
    destruct Hh as (Hza & Hya & Hbz & Hfy & _ & _).
    destruct (cg_backward _ _ _ Hg a z (HI a Ha) Hza Hbz) as (z' & Hz' & Tz' & Fz' & Wz').
    exists (weight (data z') + weight (data y)). simpl. split; [|lia].
    rewrite Hz, Hes in Hz'. apply (walk_app _ u a).
    + apply walk_edge. by exists z'.
    + apply walk_edge. exists y. by rewrite Hy.
Qed.

Lemma new_entry_ends e : e ∈ L -> remaining (ie_source e) /\ remaining (ie_target e) /\
  0 < weight (ie_data e) <= 2 * maxw.
Proof using Hg HI Hind Honly.
  intros He. destruct (shortcut_hops e He) as (a & u & v & w1 & w2 & x & y & new & Ha & _ & _ & _ & Hx & Hy & Tx & Ty &
    Hua & Hva & _ & _ & W1 & W2 & We & _ & _ & Hdir).
  assert (remaining u) as Ru by (rewrite <- Tx; apply (neighbour_remaining a); try done; congruence).
  assert (remaining v) as Rv by (rewrite <- Ty; apply (neighbour_remaining a); try done; congruence).
  pose proof (cg_weight _ _ _ Hg _ _ Hx). pose proof (cg_weight _ _ _ Hg _ _ Hy).
  destruct Hdir as [(_ & -> & ->)|(_ & -> & ->)]; (split; [done|]); (split; [done|]); lia.
Qed.

Lemma after_target u x : remaining u -> x ∈ adj g2 u -> remaining (target x).
Proof using Hg HI Hind Hsub Hgone Habs Honly.
  intros Hu Hx. destruct (ab_only _ _ _ Habs u x Hx) as [Hx1|(e & He & Hes & ->)].
  - split; [|by eapply kept_entry]. destruct Hu as [HA _]. eapply cg_active; [done..|]. by apply Hsub.
  - simpl. by apply new_entry_ends.
Qed.

Lemma distances_up s t p :
  remaining s -> walk (arc g2) s t p -> exists p', walk (arc g) s t p' /\ p' <= p.
Proof using Hg HI Hind Hsub Hgone Habs Honly.
  intros Hs Hw. assert (remaining t /\ exists p', walk (arc g) s t p' /\ p' <= p) as [_ Hr]; [|done].
  induction Hw as [n|s u t w w' Hw IH He].
  - split; [done|]. exists 0. split; [constructor|lia].
  - destruct (IH Hs) as [Hu (p1 & Hp1 & Hle1)]. split.
    + destruct He as (x & Hx & <- & _). by apply (after_target u).
    + destruct (arc_up u t w' Hu He) as (p2 & Hp2 & Hle2). exists (p1 + p2). split; [by eapply walk_app|lia].
Qed.

(** The counterpart of a kept entry in the new graph. *)
Lemma kept_counterpart u x y : remaining u -> x ∈ adj g1 u -> y ∈ adj g (target x) -> target y = u ->
  exists y', y' ∈ adj g2 (target x) /\ entry_le y' y.
Proof using Hkeep Habs.
  intros [_ Hu] Hx Hy Ty. apply (ab_old _ _ _ Habs). apply stay; [done|by rewrite Ty].
Qed.

Lemma new_counterpart e : e ∈ L ->
  (exists y, y ∈ adj g2 (ie_target e) /\ target y = ie_source e) /\
  (forward (ie_data e) = true -> exists y, y ∈ adj g2 (ie_target e) /\ target y = ie_source e /\
     backward (data y) = true /\ weight (data y) <= weight (ie_data e)) /\
  (backward (ie_data e) = true -> exists y, y ∈ adj g2 (ie_target e) /\ target y = ie_source e /\
     forward (data y) = true /\ weight (data y) <= weight (ie_data e)).
Proof using Habs Honly.
  intros He. assert (exists a new, contracted g a new /\ e ∈ new /\ new ⊆ L) as (a & new & Hc & Hen & Hnew).
  { destruct (Honly e He) as (a & new & _ & H1 & H2 & H3). eauto. }
  assert (forward (ie_data e) = true -> exists y, y ∈ adj g2 (ie_target e) /\ target y = ie_source e /\
     backward (data y) = true /\ weight (data y) <= weight (ie_data e)) as Hfwd.
  { intros Hf. assert (has_arc new (ie_source e) (ie_target e) (weight (ie_data e))) as Ha by (by exists e).
    apply (ct_pairs _ _ _ Hc) in Ha as (e' & He' & Hs' & Ht' & Hw' & Hb').
    destruct (ab_new _ _ _ Habs e' (Hnew _ He')) as (y & Hy & T & F & B & W). rewrite Hs' in Hy. simpl in *.
    exists y. split_and!; [done|congruence|congruence|lia]. }
  assert (backward (ie_data e) = true -> exists y, y ∈ adj g2 (ie_target e) /\ target y = ie_source e /\
     forward (data y) = true /\ weight (data y) <= weight (ie_data e)) as Hbwd.
  { intros Hf. assert (has_back_arc new (ie_target e) (ie_source e) (weight (ie_data e))) as Ha by (by exists e).
    apply (ct_pairs _ _ _ Hc) in Ha as (e' & He' & Hs' & Ht' & Hw' & Hb').
    destruct (ab_new _ _ _ Habs e' (Hnew _ He')) as (y & Hy & T & F & B & W). rewrite Hs' in Hy. simpl in *.
    exists y. split_and!; [done|congruence|congruence|lia]. }
  split; [|done]. destruct (ct_ends _ _ _ Hc e Hen) as (_ & _ & _ & _ & [Hf|Hb]).
  - destruct (Hfwd Hf) as (y & Hy & T & _). eauto.
  - destruct (Hbwd Hb) as (y & Hy & T & _). eauto.
Qed.

Lemma after_contractible : contractible g2 remaining (2 * maxw).
Proof using Hg HI Hind Hwf2 Hn2 Hsub Hkeep Hgone Habs Honly.
  constructor.
  - done.
  - rewrite Hn2. apply Hg.
  - intros n [HA _]. rewrite Hn2. by eapply cg_nodes.
  - intros n x Hx. rewrite Hn2. destruct (ab_only _ _ _ Habs n x Hx) as [Hx1|(e & He & _ & ->)].
    + by eapply cg_closed, Hsub.
    + simpl. destruct (new_entry_ends e He) as (_ & [HA _] & _). by eapply cg_nodes.
  - by apply after_target.
  - intros n x Hx. destruct (ab_only _ _ _ Habs n x Hx) as [Hx1|(e & He & _ & ->)].
    + pose proof (cg_weight _ _ _ Hg n x (Hsub _ _ Hx1)). lia.
    + simpl. by apply new_entry_ends.
  - intros u x Hu Hx. destruct (ab_only _ _ _ Habs u x Hx) as [Hx1|(e & He & <- & ->)].
    + destruct (cg_back _ _ _ Hg u x (proj1 Hu) (Hsub _ _ Hx1)) as (y & Hy & Ty).
      destruct (kept_counterpart u x y Hu Hx1 Hy Ty) as (y' & Hy' & T & _). exists y'. split; [done|congruence].
    + by apply new_counterpart.
  - intros u x Hu Hx Hf. destruct (ab_only _ _ _ Habs u x Hx) as [Hx1|(e & He & <- & ->)].
    + destruct (cg_forward _ _ _ Hg u x (proj1 Hu) (Hsub _ _ Hx1) Hf) as (y & Hy & Ty & By & Wy).
      destruct (kept_counterpart u x y Hu Hx1 Hy Ty) as (y' & Hy' & T & F & B & W). exists y'.
      split_and!; [done|congruence|congruence|lia].
    + by apply new_counterpart.
  - intros u x Hu Hx Hf. destruct (ab_only _ _ _ Habs u x Hx) as [Hx1|(e & He & <- & ->)].
    + destruct (cg_backward _ _ _ Hg u x (proj1 Hu) (Hsub _ _ Hx1) Hf) as (y & Hy & Ty & By & Wy).
      destruct (kept_counterpart u x y Hu Hx1 Hy Ty) as (y' & Hy' & T & F & B & W). exists y'.
      split_and!; [done|congruence|congruence|lia].
    + by apply new_counterpart.
Qed.

(** The entries of nodes that are contracted, now or before, stay as they are. *)
Lemma frame_old u x : ~ remaining u -> x ∈ adj g u -> exists x', x' ∈ adj g2 u /\ entry_le x' x.
Proof using Hg HI Hind Hkeep Habs.
  intros Hu Hx. apply (ab_old _ _ _ Habs). apply Hkeep; [done|]. intros Hin Hne y Hy Ty.
  destruct (decide (u ∈ I)) as [HuI|HuI]; [apply Hne; symmetry; by apply (proj1 Hind u x)|].
  apply Hu. split; [|done]. rewrite <- Ty. by apply (cg_active _ _ _ Hg (target x) y (HI _ Hin)).
Qed.

Lemma frame_new u x : ~ remaining u -> x ∈ adj g2 u -> x ∈ adj g u.
Proof using Hg HI Hind Hsub Habs Honly.
  intros Hu Hx. destruct (ab_only _ _ _ Habs u x Hx) as [Hx1|(e & He & <- & ->)]; [by apply Hsub|].
  destruct Hu. by apply new_entry_ends.
Qed.

(** Every other entry stands for two entries of a contracted node. *)
Lemma entry_origin u x : x ∈ adj g2 u -> x ∈ adj g u \/
  ((forward (data x) = true -> exists a y z, a ∈ I /\ two_hop g a y z /\ target y = u /\ target z = target x /\
      weight (data x) = weight (data y) + weight (data z)) /\
   (backward (data x) = true -> exists a y z, a ∈ I /\ two_hop g a y z /\ target y = target x /\ target z = u /\
      weight (data x) = weight (data y) + weight (data z))).
Proof using Hsub Habs Honly.
  intros Hx. destruct (ab_only _ _ _ Habs u x Hx) as [Hx1|(e & He & <- & ->)]; [left; by apply Hsub|right].
  apply Honly in He as (a & new & Ha & Hc & Hen & _). simpl. split; intros Hf.
  - destruct (ct_forward _ _ _ Hc (ie_source e) (ie_target e) (weight (ie_data e))) as (y & z & ?); [by exists e|].
    exists a, y, z. tauto.
  - destruct (ct_backward _ _ _ Hc (ie_target e) (ie_source e) (weight (ie_data e))) as (y & z & ?); [by exists e|].
    exists a, y, z. tauto.
Qed.
End after.

(** The contracted nodes of a round, one after the other in the same graph. *)
Context {St H Handle : Type}.
Context `{SL : IndexStorageLaws St, HL : MutableHeapLaws H Handle}.
Context (deg : Z) (Hdeg : forall n, zlen (adj g n) <= deg) (Hmaxw : 3 * maxw < INT32_MAX).
Implicit Types (s : ContractState St H Handle).

Lemma contract_nodes_ok nodes s M c r :
  nodes ⊆ I -> good (number_of_nodes g) (cs_heap s) M (c + zlen nodes * deg) r -> 0 <= c ->
  zlen (node_weights s) = number_of_nodes g -> 3 + deg + FULL_SEARCH_SPACE_SIZE * deg < r ->
  exists s' M' new, contract_nodes s g nodes = Some s' /\ good (number_of_nodes g) (cs_heap s') M' c r /\
    zlen (node_weights s') = number_of_nodes g /\ inserted_edges s' = inserted_edges s ++ new /\
    (forall a, a ∈ nodes -> exists mine, contracted g a mine /\ mine ⊆ new) /\
    (forall e, e ∈ new -> exists a mine, a ∈ nodes /\ contracted g a mine /\ e ∈ mine /\ mine ⊆ new).
Proof using Hg HI Hdeg Hmaxw.
  revert s M. induction nodes as [|a nodes IH]; intros s M Hsub G Hc Hlen Hroom; cbn [contract_nodes].
  { exists s, M, []. split; [done|]. split; [by rewrite Z.add_0_r in G|]. split; [done|].
    split; [by rewrite app_nil_r|]. split; [by intros a Ha%elem_of_nil|by intros e He%elem_of_nil]. }
  rewrite zlen_cons in G. pose proof (zlen_nonneg nodes). pose proof (Hdeg a) as Hda.
  pose proof (zlen_nonneg (adj g a)).
  assert (A a) as HAa by (apply HI, Hsub; by left).
  destruct (ContractNode_ok g a maxw deg) with (s := s) (M := M) (c := c + zlen nodes * deg) (r := r)
    as (s1 & M1 & new1 & -> & G1 & Hl1 & Hi1 & Hc1); try done.
  - by eapply cg_wf.
  - by eapply cg_nodes.
  - by eapply cg_closed.
  - intros n x Hx. pose proof (cg_weight _ _ _ Hg n x Hx). lia.
  - eapply good_le; [|exact G]. nia.
  - nia.
  - cbn [mbind option_bind]. destruct (IH s1 M1) as (s2 & M2 & new2 & E2 & G2 & Hl2 & Hi2 & Hall & Hon); try done.
    { intros b Hb. apply Hsub. by right. }
    assert (new1 ⊆ new1 ++ new2) as S1 by (intros e He; apply elem_of_app; by left).
    assert (new2 ⊆ new1 ++ new2) as S2 by (intros e He; apply elem_of_app; by right).
    exists s2, M2, (new1 ++ new2). split; [done|]. split; [done|]. split; [done|].
    split; [by rewrite Hi2, Hi1, app_assoc|]. split.
    + intros b [->|Hb]%elem_of_cons; [by exists new1|]. destruct (Hall b Hb) as (mine & Hm & Hs).
      exists mine. split; [done|]. intros e He. by apply S2, Hs.
    + intros e [He|He]%elem_of_app.
      * exists a, new1. split; [by left|done].
      * destruct (Hon e He) as (b & mine & Hb & Hm & Hem & Hs). exists b, mine. split; [by right|].
        split; [done|]. split; [done|]. intros e' He'. by apply S2, Hs.
Qed.


(** What a round makes of the graph. *)
Record round_result (g' : ContractorGraph) : Prop := {
  rr_num : number_of_nodes g' = number_of_nodes g;
  rr_contractible : contractible g' remaining (2 * maxw);
  rr_distances : same_distances remaining g g';
  rr_frame_old u x : ~ remaining u -> x ∈ adj g u -> exists x', x' ∈ adj g' u /\ entry_le x' x;
  rr_frame_new u x : ~ remaining u -> x ∈ adj g' u -> x ∈ adj g u;
  rr_origin u x : x ∈ adj g' u -> x ∈ adj g u \/
    ((forward (data x) = true -> exists a y z, a ∈ I /\ two_hop g a y z /\ target y = u /\ target z = target x /\
        weight (data x) = weight (data y) + weight (data z)) /\
     (backward (data x) = true -> exists a y z, a ∈ I /\ two_hop g a y z /\ target y = target x /\ target z = u /\
        weight (data x) = weight (data y) + weight (data z)))
}.

Lemma contract_round_ok parallel_sort s M c r d :
  (forall l, parallel_sort l ≡ₚ l) -> inserted_edges s = [] ->
  good (number_of_nodes g) (cs_heap s) M (c + zlen I * deg) r -> 0 <= c ->
  zlen (node_weights s) = number_of_nodes g -> 3 + deg + FULL_SEARCH_SPACE_SIZE * deg < r ->
  (forall u, zlen (adj g u) <= d) ->
  (forall s1, contract_nodes s g I = Some s1 ->
     zlen (edge_list g) + zlen (inserted_edges s1) * (2 * (d + zlen (inserted_edges s1)) + 2) < 2 ^ 32) ->
  exists s' g', contract_round parallel_sort s g I = Some (s', g') /\ inserted_edges s' = [] /\ round_result g' /\
    exists M', good (number_of_nodes g') (cs_heap s') M' c r.
Proof using Hg HI Hind Hdeg Hmaxw.
  intros Hsort Hins G Hc Hlen Hroom Hd Hcap. unfold contract_round.
  destruct (contract_nodes_ok I s M c r) as (s1 & M1 & new & E1 & G1 & Hl1 & Hi1 & Hall & Hon); try done.
  specialize (Hcap s1 E1). rewrite E1. cbn [mbind option_bind]. rewrite Hins in Hi1. simpl in Hi1.
  destruct (delete_incoming_ok g I) as (g1 & -> & Hwf1 & Hn1 & [Hsl Hsd] & Hsub & Hstay & Hgone);
    [by eapply cg_wf|intros n Hn; eapply cg_nodes; eauto|by eapply cg_closed|].
  cbn [mbind option_bind].
  assert (forall e, e ∈ parallel_sort (inserted_edges s1) <-> e ∈ new) as Hsrt by (intros e; by rewrite Hsort, Hi1).
  destruct (insert_new_edges_ok g1 (parallel_sort (inserted_edges s1)) d Hwf1) as (g2 & -> & Hwf2 & Hn2 & Habs).
  { intros e He. apply Hsrt, Hon in He as (a & mine & Ha & Hm & Hem & _).
    destruct (ct_ends _ _ _ Hm e Hem) as (K1 & K2 & _). rewrite Hn1. pose proof (cg_num _ _ _ Hg). lia. }
  { split; [intros u; specialize (Hsd u); specialize (Hd u); lia|].
    assert (zlen (parallel_sort (inserted_edges s1)) = zlen (inserted_edges s1)) as -> by (unfold zlen; by rewrite Hsort).
    by rewrite Hsl. }
  cbn [mbind option_bind]. eexists _, g2. split; [reflexivity|]. split; [done|].
  assert (forall a, a ∈ I -> exists mine, contracted g a mine /\ mine ⊆ parallel_sort (inserted_edges s1)) as Hall'.
  { intros a Ha. destruct (Hall a Ha) as (mine & Hm & Hs). exists mine. split; [done|]. intros e He. by apply Hsrt, Hs. }
  assert (forall e, e ∈ parallel_sort (inserted_edges s1) -> exists a mine, a ∈ I /\ contracted g a mine /\ e ∈ mine /\
    mine ⊆ parallel_sort (inserted_edges s1)) as Hon'.
  { intros e He. apply Hsrt, Hon in He as (a & mine & Ha & Hm & Hem & Hs). exists a, mine. split_and!; try done.
    intros e' He'. by apply Hsrt, Hs. }
  split; [|exists M1; rewrite Hn2, Hn1; exact G1]. constructor; [congruence|..].
  - eapply (after_contractible g1 g2); eauto; congruence.
  - intros s0 t0 Hs Ht. split; intros p Hp; [eapply (distances_down g1 g2); eauto|eapply (distances_up g1 g2); eauto].
  - intros u x. eapply (frame_old g1 g2); eauto.
  - intros u x. eapply (frame_new g1 g2); eauto.
  - intros u x. eapply (entry_origin g1 g2); eauto.
Qed.
End round_correct.

(** ** Independent nodes *)

(** [x] and [y] not ordered by the float comparison, both finite: their
    difference is zero. *)
Definition finite32 (x : float32) : Prop :=
  match x with S754_zero _ => True | S754_finite _ _ _ => True | _ => False end.

Lemma float_tie x y :
  finite32 x -> finite32 y -> SFltb x y = false -> SFltb y x = false ->
  SFltb (SFabs (fsub32 x y)) FLT_EPSILON = true.
Proof.
  intros Hx Hy. destruct x as [sx| | |sx mx ex], y as [sy| | |sy my ey]; try done; unfold SFltb.
  - intros _ _. by destruct sx, sy.
  - by destruct sx, sy.
  - by destruct sx, sy.
  - intros H1 H2. assert (sx = sy /\ mx = my /\ ex = ey) as (<- & <- & <-).
    { simpl in H1, H2. change (Pos.compare_cont Eq mx my) with (mx ?= my)%positive in H1.
      change (Pos.compare_cont Eq my mx) with (my ?= mx)%positive in H2.
      destruct sx, sy; try done;
        destruct (Z.compare_spec ex ey), (Z.compare_spec ey ex); try lia; try done;
        destruct (Pos.compare_spec mx my), (Pos.compare_spec my mx); try lia; try done. }
    unfold fsub32, SFsub. rewrite Z.min_id.
    destruct sx; unfold cond_Zopp; rewrite ?Z.sub_diag, ?Z.add_opp_diag_r; try done.
Qed.

Section independence.
Context (fast_hash : Z -> option Z) (priorities : list float32) (new_to_old : list Z).
Context (g : ContractorGraph).
Implicit Types (x y : DynamicEdge ContractorEdgeData).

Lemma check_edges_true priority node range es :
  edges_at g range es ->
  check_edges fast_hash priorities new_to_old g priority node range = Some true ->
  forall x, x ∈ es -> target x <> node ->
    goes_first fast_hash priorities new_to_old priority node (target x) = Some true.
Proof.
  induction 1 as [|e x range es He Hat IH]; cbn [check_edges]; [by intros _ x Hx%elem_of_nil|].
  unfold GetTarget. rewrite He. cbn [mbind option_bind].
  destruct (Z.eqb_spec node (target x)) as [Ht|Ht]; cbn [mbind option_bind].
  - intros Hc y [->|Hy]%elem_of_cons Hne; [congruence|by apply IH].
  - destruct (goes_first _ _ _ _ _ _) as [[|]|] eqn:Eg; try done. cbn [mbind option_bind].
    intros Hc y [->|Hy]%elem_of_cons Hne; [done|by apply IH].
Qed.

Lemma check_neighbours_true priority node nbs :
  dg_wf g -> (forall u, u ∈ nbs -> 0 <= u < number_of_nodes g) ->
  check_neighbours fast_hash priorities new_to_old g priority node nbs = Some true ->
  forall u y, u ∈ nbs -> y ∈ adj g u -> target y <> node ->
    goes_first fast_hash priorities new_to_old priority node (target y) = Some true.
Proof.
  intros Hwf. induction nbs as [|v nbs IH]; intros Hr; cbn [check_neighbours]; [by intros _ u y Hu%elem_of_nil|].
  destruct (adjacent_edges g v Hwf) as (range & -> & Hat); [apply Hr; by left|]. cbn [mbind option_bind].
  destruct (check_edges _ _ _ _ _ _ _) as [[|]|] eqn:Ec; try done. cbn [mbind option_bind].
  intros Hc u y [->|Hu]%elem_of_cons Hy Hne.
  - by eapply check_edges_true.
  - apply (IH ltac:(intros w Hw; apply Hr; by right) Hc u); done.
Qed.

(** What a positive answer of [IsNodeIndependent] says. *)
Lemma IsNodeIndependent_true node :
  dg_wf g -> 0 <= node < number_of_nodes g ->
  (forall n x, x ∈ adj g n -> 0 <= target x < number_of_nodes g) ->
  IsNodeIndependent fast_hash priorities new_to_old g node = Some true ->
  exists priority, priorities !z node = Some priority /\
    (forall x, x ∈ adj g node -> target x <> node ->
       goes_first fast_hash priorities new_to_old priority node (target x) = Some true) /\
    (forall x y, x ∈ adj g node -> target x <> node -> y ∈ adj g (target x) -> target y <> node ->
       goes_first fast_hash priorities new_to_old priority node (target y) = Some true).
Proof.
  intros Hwf Hn Hc. unfold IsNodeIndependent.
  destruct (priorities !z node) as [priority|]; [|done]. cbn [mbind option_bind].
  destruct (adjacent_edges g node Hwf Hn) as (range & -> & Hat). cbn [mbind option_bind].
  destruct (check_edges _ _ _ _ _ _ _) as [[|]|] eqn:Ec; try done. cbn [mbind option_bind].
  destruct (neighbour_targets_ok g range (adj g node) node Hat) as (l & -> & Hl). cbn [mbind option_bind].
  intros Hk. exists priority. split; [done|]. split; [by eapply check_edges_true|].
  intros x y Hx Hxn Hy Hyn. eapply check_neighbours_true; try done.
  - intros u Hu. apply sort_unique_elem, Hl in Hu as (_ & z & Hz & <-). by eapply Hc.
  - apply sort_unique_elem, Hl. split; [done|]. by exists x.
Qed.

Lemma Bias_total a b : Bias fast_hash a b = Some false -> Bias fast_hash b a = Some false -> a = b.
Proof.
  unfold Bias. intros H1 H2. inv_opt. simplify_eq. 
  destruct (Z.eqb_spec r1 r2), (Z.eqb_spec r2 r1); simpl in *; lia.
Qed.

Context (Hfinite : forall n p, priorities !z n = Some p -> finite32 p).
Context (Hinj : forall n m o, new_to_old !z n = Some o -> new_to_old !z m = Some o -> n = m).

(** Two nodes cannot both go first. *)
Lemma goes_first_asym a b pa pb :
  priorities !z a = Some pa -> priorities !z b = Some pb ->
  goes_first fast_hash priorities new_to_old pa a b = Some true ->
  goes_first fast_hash priorities new_to_old pb b a = Some true -> a = b.
Proof using Hfinite Hinj.
  intros Ha Hb. unfold goes_first. rewrite Ha, Hb. cbn [mbind option_bind].
  destruct (SFltb pb pa) eqn:L1; [done|]. destruct (SFltb pa pb) eqn:L2; [done|].
  rewrite (float_tie pa pb), (float_tie pb pa); eauto. intros H1 H2. inv_opt.
  apply negb_true_iff in H1, H2. subst. simplify_eq.
  match goal with H1 : Bias _ ?x ?y = _, H2 : Bias _ ?y ?x = _ |- _ =>
    pose proof (Bias_total _ _ H1 H2) end. subst. by eapply Hinj.
Qed.

Lemma independent_nodes_set A maxw I :
  contractible g A maxw -> (forall a, a ∈ I -> A a) ->
  (forall a, a ∈ I -> IsNodeIndependent fast_hash priorities new_to_old g a = Some true) ->
  independent_set g I.
Proof using Hfinite Hinj.
  intros Hg HA Hi.
  assert (forall a, a ∈ I -> exists priority, priorities !z a = Some priority /\
    (forall x, x ∈ adj g a -> target x <> a ->
       goes_first fast_hash priorities new_to_old priority a (target x) = Some true) /\
    (forall x y, x ∈ adj g a -> target x <> a -> y ∈ adj g (target x) -> target y <> a ->
       goes_first fast_hash priorities new_to_old priority a (target y) = Some true)) as Hall.
  { intros a Ha. apply IsNodeIndependent_true; [by eapply cg_wf|eapply cg_nodes; eauto|by eapply cg_closed|by apply Hi]. }
  split.
  - intros a x Ha Hx Hb. apply dec_stable. intros Hne. apply Hne.
    destruct (Hall a Ha) as (pa & Hpa & Ha1 & _). destruct (Hall _ Hb) as (pb & Hpb & Hb1 & _).
    destruct (cg_back _ _ _ Hg a x (HA a Ha) Hx) as (y & Hy & Hya).
    symmetry. eapply (goes_first_asym a (target x)); eauto. rewrite <- Hya. apply Hb1; congruence.
  - intros a b x y Ha Hb Hx Hy Hxy Hxa Hyb. apply dec_stable. intros Hne. apply Hne.
    destruct (Hall a Ha) as (pa & Hpa & _ & Ha2). destruct (Hall b Hb) as (pb & Hpb & _ & Hb2).
    destruct (cg_back _ _ _ Hg a x (HA a Ha) Hx) as (x' & Hx' & Hx'a).
    destruct (cg_back _ _ _ Hg b y (HA b Hb) Hy) as (y' & Hy' & Hy'b).
    eapply (goes_first_asym a b); eauto.
    + rewrite <- Hy'b. apply (Ha2 x); try done; congruence.
    + rewrite <- Hx'a. apply (Hb2 y); try done; congruence.
Qed.
End independence.

(** ** The loop of [contractGraph] *)

Section contract_graph.
Context {St H Handle : Type} `{IndexStorage St, MutableHeap H Handle}.
Implicit Types (s : ContractState St H Handle) (graph : ContractorGraph).

(** [node_data.depths[u] = max(node_data.depths[node] + 1, node_data.depths[u])] for the neighbours. *)
Fixpoint raise_depths (ds : list Z) graph (range : list Z) (node : Z) : option (list Z) :=
  match range with
  | [] => Some ds
  | e :: range =>
      u ← GetTarget graph e;
      if u =? node then raise_depths ds graph range node
      else
        dn ← ds !z node;
        du ← ds !z u;
        ds' ← zset u (Z.max (iadd dn 1) du) ds;
        raise_depths ds' graph range node
  end.

(** New priority of a node from a simulated contraction; the simulation also
    lowers loop weights. *)
Definition update_priority (nd : ContractorNodeData) s graph (u : Z)
  : option (ContractorNodeData * ContractState St H Handle) :=
  '(s', stats) ← SimulateNodeContraction
    (mkContractState (cs_heap s) (inserted_edges s) (weights nd) (stats s)) graph u;
  d ← depths nd !z u;
  ps ← zset u (EvaluateNodePriority stats d) (priorities nd);
  Some (mkContractorNodeData (is_core nd) (contractable nd) ps (node_weights s') (depths nd), s').

Fixpoint update_priorities (nd : ContractorNodeData) s graph (nodes : list Z)
  : option (ContractorNodeData * ContractState St H Handle) :=
  match nodes with
  | [] => Some (nd, s)
  | u :: nodes =>
      c ← contractable nd !z u;
      if (c : bool) then
        '(nd', s') ← update_priority nd s graph u;
        update_priorities nd' s' graph nodes
      else update_priorities nd s graph nodes
  end.

Definition UpdateNodeNeighbours (nd : ContractorNodeData) s graph (node : Z)
  : option (ContractorNodeData * ContractState St H Handle) :=
  range ← GetAdjacentEdgeRange graph node;
  ds ← raise_depths (depths nd) graph range node;
  neighbours ← neighbour_targets graph range node;
  update_priorities (mkContractorNodeData (is_core nd) (contractable nd) (priorities nd) (weights nd) ds)
    s graph (sort_unique neighbours).

Fixpoint update_all_neighbours (nd : ContractorNodeData) s graph (nodes : list Z)
  : option (ContractorNodeData * ContractState St H Handle) :=
  match nodes with
  | [] => Some (nd, s)
  | n :: nodes =>
      '(nd', s') ← UpdateNodeNeighbours nd s graph n;
      update_all_neighbours nd' s' graph nodes
  end.

Fixpoint mark_independent (hash : Z -> option Z) (ps : list float32) (new_to_old : list Z) graph
    (remaining : list RemainingNodeData) : option (list RemainingNodeData) :=
  match remaining with
  | [] => Some []
  | r :: remaining =>
      b ← IsNodeIndependent hash ps new_to_old graph (rn_id r);
      rs ← mark_independent hash ps new_to_old graph remaining;
      Some (mkRemainingNodeData (rn_id r) b :: rs)
  end.

Fixpoint clear_core (core : list bool) (nodes : list Z) : option (list bool) :=
  match nodes with
  | [] => Some core
  | n :: nodes => c ← zset n false core; clear_core c nodes
  end.

Record GraphState : Type := mkGraphState {
  gs_remaining : list RemainingNodeData;
  gs_new_to_old : list Z;
  gs_data : ContractorNodeData;
  gs_graph : ContractorGraph;
  gs_thread : ContractState St H Handle
}.

(** The body of the [while] loop after the renumbering. *)
Definition contract_step (parallel_sort : list ContractorEdge -> list ContractorEdge)
    (hash : Z -> option Z) (gs : GraphState) : option GraphState :=
  let nd := gs_data gs in
  marked ← mark_independent hash (priorities nd) (gs_new_to_old gs) (gs_graph gs) (gs_remaining gs);
  let independent := rn_id <$> filter (fun r => is_independent r = true) marked in
  let rest := filter (fun r => is_independent r = false) marked in
  let t := gs_thread gs in
  '(t', g') ← contract_round parallel_sort
    (mkContractState (cs_heap t) (inserted_edges t) (weights nd) (stats t)) (gs_graph gs) independent;
  core ← clear_core (is_core nd) independent;
  '(nd', t'') ← update_all_neighbours
    (mkContractorNodeData core (contractable nd) (priorities nd) (node_weights t') (depths nd)) t' g' independent;
  Some (mkGraphState rest (gs_new_to_old gs) nd' g' t'').

(** [None] is undefined behaviour or no fuel, [Some None] the exception of [Renumber]. *)
Fixpoint contract_loop (fuel : nat) (parallel_sort : list ContractorEdge -> list ContractorEdge)
    (hash : Z -> option Z) (number_of_core_nodes next_renumbering : Z) (gs : GraphState)
  : option (option GraphState) :=
  match fuel with
  | O => None
  | S fuel =>
      if zlen (gs_remaining gs) <=? number_of_core_nodes then Some (Some gs)
      else if zlen (gs_remaining gs) <? next_renumbering then
        r ← RenumberData (gs_remaining gs) (gs_new_to_old gs) (gs_data gs) (gs_graph gs);
        match r with
        | None => Some None
        | Some (rs, o, nd, g) =>
            gs' ← contract_step parallel_sort hash (mkGraphState rs o nd g (gs_thread gs));
            contract_loop fuel parallel_sort hash number_of_core_nodes 0 gs'
        end
      else
        gs' ← contract_step parallel_sort hash gs;
        contract_loop fuel parallel_sort hash number_of_core_nodes next_renumbering gs'
  end.

(** Priorities and remaining nodes before the loop. *)
Fixpoint initial_nodes (nodes : list Z) (nd : ContractorNodeData)
  : option (list RemainingNodeData * ContractorNodeData) :=
  match nodes with
  | [] => Some ([], nd)
  | n :: nodes =>
      core ← is_core nd !z n;
      can ← contractable nd !z n;
      if (core && can : bool) then
        '(rs, nd') ← initial_nodes nodes nd;
        Some (mkRemainingNodeData n false :: rs, nd')
      else
        ps ← zset n (if (core : bool) then FLT_MAX else S754_zero false) (priorities nd);
        initial_nodes nodes (mkContractorNodeData (is_core nd) (contractable nd) ps (weights nd) (depths nd))
  end.

Fixpoint initial_priorities (nd : ContractorNodeData) s graph (rs : list RemainingNodeData)
  : option (ContractorNodeData * ContractState St H Handle) :=
  match rs with
  | [] => Some (nd, s)
  | r :: rs => '(nd', s') ← update_priority nd s graph (rn_id r); initial_priorities nd' s' graph rs
  end.

(** 0.35 in binary64. *)
Definition renumbering_factor : spec_float := S754_finite false 6305039478318694 (-54).
Definition double_of_int (z : Z) : spec_float := binary_normalize 53 1024 z 0 false.

Definition contractGraph (fuel : nat) (parallel_sort : list ContractorEdge -> list ContractorEdge)
    (hash : Z -> option Z) (heap : QueryHeap St H Handle ContractorHeapData) graph
    (node_is_uncontracted node_is_contractable : list bool) (ws : list Z) (core_factor : spec_float)
  : option (option (ContractorGraph * list bool)) :=
  let n := GetNumberOfNodes graph in
  '(rs, nd) ← initial_nodes (seqZ 0 n) (ContractorNodeData_new n node_is_uncontracted node_is_contractable ws);
  '(nd, s) ← initial_priorities nd (mkContractState heap [] ws ContractionStats_new) graph rs;
  let number_of_core_nodes :=
    trunc64 (SFmul 53 1024 (SFsub 53 1024 (double_of_int 1) core_factor) (double_of_int n)) in
  let next_renumbering := trunc64 (SFmul 53 1024 (double_of_int n) renumbering_factor) in
  r ← contract_loop fuel parallel_sort hash number_of_core_nodes next_renumbering
        (mkGraphState rs (seqZ 0 n) nd graph s);
  match r with
  | None => Some None
  | Some gs =>
      nd' ← NodeData_Renumber (gs_data gs) (gs_new_to_old gs);
      g ← RenumberGraph (gs_graph gs) (gs_new_to_old gs);
      Some (g' ← g; Some (g', is_core nd'))
  end.
End contract_graph.

(** ** Claims *)

Section claims.
Context {St H Handle : Type}.
Context `{SL : IndexStorageLaws St, HL : MutableHeapLaws H Handle}.
Implicit Types (s : ContractState St H Handle) (g : ContractorGraph).

(** C16: Nodes that [IsNodeIndependent] accepts in the same graph are pairwise
    neither adjacent nor neighbours of a common node: the order by priority
    with its tie-breaking by hash and id admits only one of two such nodes. *)
Theorem independent_nodes_are_independent (fast_hash : Z -> option Z) (ps : list float32)
    (new_to_old : list Z) g A maxw I
    (Hg : contractible g A maxw) (HI : forall a, a ∈ I -> A a)
    (Hfinite : forall n p, ps !z n = Some p -> finite32 p)
    (Hinj : forall n m o, new_to_old !z n = Some o -> new_to_old !z m = Some o -> n = m)
    (Hind : forall a, a ∈ I -> IsNodeIndependent fast_hash ps new_to_old g a = Some true) :
  independent_set g I.
Proof. by eapply independent_nodes_set. Qed.

(** C15: [ContractNode] terminates within the limits of its searches and leaves
    the old inserted edges alone; for every path [u -> node -> v] it adds a
    forward entry at [u] and a backward entry at [v] of that weight, or the
    graph has a walk from [u] to [v] around [node] that is not longer; and it
    adds nothing else. *)
Theorem contract_node_bypasses g node maxw deg s M c r
    (Hwf : dg_wf g) (Hnode : 0 <= node < number_of_nodes g)
    (Hclosed : forall n x, x ∈ adj g n -> 0 <= target x < number_of_nodes g)
    (Hpos : forall n x, x ∈ adj g n -> 0 <= weight (data x) <= maxw) (Hmaxw : 3 * maxw < INT32_MAX)
    (Hdeg : forall n, zlen (adj g n) <= deg)
    (Hq : good (number_of_nodes g) (cs_heap s) M (c + zlen (adj g node)) r) (Hc : 0 <= c)
    (Hweights : zlen (node_weights s) = number_of_nodes g)
    (Hroom : 3 + deg + FULL_SEARCH_SPACE_SIZE * deg < r) :
  exists s' new, ContractNode s g node = Some s' /\ inserted_edges s' = inserted_edges s ++ new /\
    (forall x y, two_hop g node x y ->
      (has_arc new (target x) (target y) (weight (data x) + weight (data y)) /\
       has_back_arc new (target x) (target y) (weight (data x) + weight (data y))) \/
      exists p, walk (arc_avoiding g node) (target x) (target y) p /\
        p <= weight (data x) + weight (data y)) /\
    (forall u v w, has_arc new u v w \/ has_back_arc new u v w -> exists x y, two_hop g node x y /\
       target x = u /\ target y = v /\ w = weight (data x) + weight (data y)).
Proof.
  destruct (ContractNode_ok g node maxw deg Hwf Hnode Hclosed Hpos Hmaxw Hdeg s M c r)
    as (s' & M' & new & E & _ & _ & Hi & [C1 C2 C3 _ _]); try done.
  exists s', new. split; [done|]. split; [done|]. split; [done|].
  intros u v w [Ha|Ha]; [by apply C2|by apply C3].
Qed.

(** C3: A round of contraction (all nodes that [IsNodeIndependent] accepts are
    contracted, the edges into them removed, the sorted shortcuts inserted)
    keeps every shortest-path weight between the nodes that remain, and leaves
    a graph with the same invariants for the next round. *)
Theorem contraction_round_keeps_distances (fast_hash : Z -> option Z) (ps : list float32)
    (new_to_old : list Z) g A maxw I deg s M c r parallel_sort
    (Hg : contractible g A maxw) (HI : forall a, a ∈ I -> A a)
    (Hfinite : forall n p, ps !z n = Some p -> finite32 p)
    (Hinj : forall n m o, new_to_old !z n = Some o -> new_to_old !z m = Some o -> n = m)
    (Hind : forall a, a ∈ I -> IsNodeIndependent fast_hash ps new_to_old g a = Some true)
    (Hsort : forall l, parallel_sort l ≡ₚ l)
    (Hdeg : forall n, zlen (adj g n) <= deg) (Hmaxw : 3 * maxw < INT32_MAX)
    (Hq : good (number_of_nodes g) (cs_heap s) M (c + zlen I * deg) r) (Hc : 0 <= c)
    (Hempty : inserted_edges s = []) (Hweights : zlen (node_weights s) = number_of_nodes g)
    (Hroom : 3 + deg + FULL_SEARCH_SPACE_SIZE * deg < r)
    (Hcap : forall s1, contract_nodes s g I = Some s1 ->
      zlen (edge_list g) + zlen (inserted_edges s1) * (2 * (deg + zlen (inserted_edges s1)) + 2) < 2 ^ 32) :
  exists s' g', contract_round parallel_sort s g I = Some (s', g') /\
    contractible g' (fun u => A u /\ (u ∉ I)) (2 * maxw) /\
    same_distances (fun u => A u /\ (u ∉ I)) g g'.
Proof.
  destruct (contract_round_ok g A maxw I Hg HI (independent_nodes_set _ _ _ g Hfinite Hinj A maxw I Hg HI Hind)
    deg Hdeg Hmaxw parallel_sort s M c r deg) as (s' & g' & E & _ & Hr & _); try done.
  exists s', g'. split; [done|]. split; [apply (rr_contractible _ _ _ _ _ Hr)|apply (rr_distances _ _ _ _ _ Hr)].
Qed.
End claims.

(** ** Concrete runs *)

Definition street (w : Z) : ContractorEdgeData :=
  mkContractorEdgeData w w (S754_zero false) 0 1 false true true.

(** A street [0 - 1 - 2] in both directions. *)
Definition line : ContractorGraph :=
  DynamicGraph_new 3 [mkInputEdge 0 1 (street 2); mkInputEdge 1 0 (street 2);
    mkInputEdge 1 2 (street 3); mkInputEdge 2 1 (street 3)].

Lemma line_wf : dg_wf line.
Proof.
  apply DynamicGraph_new_ok; [lia|cbn; lia|done|]. intros e He. set_unfold. unfold UINT32_MAX.
  by destruct He as [->|[->|[->|[->|[]]]]].
Qed.

Lemma line_adj n x : x ∈ adj line n ->
  (n = 0 /\ x = mkDynamicEdge 1 (street 2)) \/ (n = 1 /\ x = mkDynamicEdge 0 (street 2)) \/
  (n = 1 /\ x = mkDynamicEdge 2 (street 3)) \/ (n = 2 /\ x = mkDynamicEdge 1 (street 3)).
Proof.
  intros Hx. assert (0 <= n < 3) as Hn.
  { unfold adj in Hx. destruct (node_array line !z n) as [nd|] eqn:E; [by apply zget_some in E|].
    by apply elem_of_nil in Hx. }
  assert (n = 0 \/ n = 1 \/ n = 2) as [->|[->| ->]] by lia; vm_compute in Hx; set_unfold;
    destruct Hx as [->|Hx]; try destruct Hx as [->|Hx]; try done; tauto.
Qed.

Lemma line_deg n : zlen (adj line n) <= 2.
Proof.
  destruct (decide (0 <= n < 3)) as [Hn|Hn].
  - assert (n = 0 \/ n = 1 \/ n = 2) as [->|[->| ->]] by lia; by vm_compute.
  - unfold adj. rewrite (zget_none (node_array line)) by exact Hn. by vm_compute.
Qed.

Lemma line_contractible : contractible line (fun n => 0 <= n < 3) 3.
Proof.
  constructor.
  - exact line_wf.
  - by vm_compute.
  - done.
  - intros n x [[-> ->]|[[-> ->]|[[-> ->]|[-> ->]]]]%line_adj; by vm_compute.
  - intros n x _ [[-> ->]|[[-> ->]|[[-> ->]|[-> ->]]]]%line_adj; by vm_compute.
  - intros n x [[-> ->]|[[-> ->]|[[-> ->]|[-> ->]]]]%line_adj; by vm_compute.
  - intros n x _ [[-> ->]|[[-> ->]|[[-> ->]|[-> ->]]]]%line_adj; simpl;
      [exists (mkDynamicEdge 0 (street 2))|exists (mkDynamicEdge 1 (street 2))
      |exists (mkDynamicEdge 1 (street 3))|exists (mkDynamicEdge 2 (street 3))];
      (split; [|done]); vm_compute; set_unfold; tauto.
  - intros n x _ [[-> ->]|[[-> ->]|[[-> ->]|[-> ->]]]]%line_adj _; simpl;
      [exists (mkDynamicEdge 0 (street 2))|exists (mkDynamicEdge 1 (street 2))
      |exists (mkDynamicEdge 1 (street 3))|exists (mkDynamicEdge 2 (street 3))];
      (split; [vm_compute; set_unfold; tauto|by vm_compute]).
  - intros n x _ [[-> ->]|[[-> ->]|[[-> ->]|[-> ->]]]]%line_adj _; simpl;
      [exists (mkDynamicEdge 0 (street 2))|exists (mkDynamicEdge 1 (street 2))
      |exists (mkDynamicEdge 1 (street 3))|exists (mkDynamicEdge 2 (street 3))];
      (split; [vm_compute; set_unfold; tauto|by vm_compute]).
Qed.

Definition demo_state (n : Z) : ContractState ArrayStorage RefHeap Z :=
  mkContractState (QueryHeap_new (ArrayStorage_new n)) [] (replicate (Z.to_nat n) INVALID_EDGE_WEIGHT)
    ContractionStats_new.

Lemma demo_state_good n c r : 0 <= n -> good n (cs_heap (demo_state n)) ∅ c r.
Proof.
  intros Hn. constructor; [apply qh_repr_nil|..]; simpl.
  - apply Forall_forall. intros k [-> _]%elem_of_replicate. done.
  - intros m Hm. unfold zlen. rewrite length_replicate. lia.
  - done.
Qed.

Definition demo_priorities : list float32 := [float_of_int 5; float_of_int 1; float_of_int 4].

Lemma demo_finite n p : demo_priorities !z n = Some p -> finite32 p.
Proof. intros Hn%zget_elem. unfold demo_priorities in Hn. set_unfold. by destruct Hn as [->|[->|[->|[]]]]. Qed.

Lemma demo_ids n m o : [0; 1; 2] !z n = Some o -> [0; 1; 2] !z m = Some o -> n = m.
Proof. apply (perm_inj 3). unfold is_permutation. done. Qed.

Lemma demo_independent a : a ∈ [1] -> IsNodeIndependent (fun n => Some n) demo_priorities [0; 1; 2] line a = Some true.
Proof. intros ->%list_elem_of_singleton. by vm_compute. Qed.

Lemma independent_nodes_are_independent_witness : independent_set line [1].
Proof.
  apply (independent_nodes_are_independent (fun n => Some n) demo_priorities [0; 1; 2] line
    (fun n => 0 <= n < 3) 3 [1] line_contractible).
  - intros a ->%list_elem_of_singleton. lia.
  - exact demo_finite.
  - exact demo_ids.
  - exact demo_independent.
Defined.

Lemma contract_node_bypasses_witness :
  exists s' new, ContractNode (demo_state 3) line 1 = Some s' /\ inserted_edges s' = [] ++ new.
Proof.
  destruct (contract_node_bypasses line 1 3 2 (demo_state 3) ∅ 0 10000) as (s' & new & E & Hi & _).
  - exact line_wf.
  - by vm_compute.
  - exact (cg_closed _ _ _ line_contractible).
  - intros n x [[-> ->]|[[-> ->]|[[-> ->]|[-> ->]]]]%line_adj; by vm_compute.
  - by vm_compute.
  - exact line_deg.
  - by apply demo_state_good.
  - lia.
  - by vm_compute.
  - by vm_compute.
  - exists s', new. split; [exact E|exact Hi].
Defined.

Lemma contraction_round_keeps_distances_witness :
  exists s' g', contract_round (fun l => l) (demo_state 3) line [1] = Some (s', g') /\
    same_distances (fun u => 0 <= u < 3 /\ (u ∉ [1])) line g'.
Proof.
  destruct (contraction_round_keeps_distances (fun n => Some n) demo_priorities [0; 1; 2] line
    (fun n => 0 <= n < 3) 3 [1] 2 (demo_state 3) ∅ 0 10000 (fun l => l) line_contractible)
    as (s' & g' & E & _ & Hd).
  - intros a ->%list_elem_of_singleton. lia.
  - exact demo_finite.
  - exact demo_ids.
  - exact demo_independent.
  - done.
  - exact line_deg.
  - by vm_compute.
  - by apply demo_state_good.
  - lia.
  - done.
  - by vm_compute.
  - by vm_compute.
  - intros s1 E1. vm_compute in E1. injection E1 as <-. by vm_compute.
  - exists s', g'. split; [exact E|exact Hd].
Defined.

(** The whole loop on the street: all three nodes are contracted. *)
Example contractGraph_line :
  exists g core, contractGraph 10 (fun l => l) (fun n => Some n) (cs_heap (demo_state 3)) line [] []
    (node_weights (demo_state 3)) (double_of_int 1) = Some (Some (g, core)) /\ core = [false; false; false].
Proof. eexists _, _. split; [vm_compute; reflexivity|reflexivity]. Qed.

(** ** A tie that is not a tie

    [IsNodeIndependent] rejects a node whose priority is larger, by any
    amount, than that of a node nearby, and breaks "ties" closer than
    [FLT_EPSILON] by hash, also against a node of larger priority.  Two
    neighbours can then reject each other. *)

Definition close_stats1 : ContractionStats := mkContractionStats 10 2 20 2.
Definition close_stats2 : ContractionStats := mkContractionStats 15 2 15 2.

Definition pair_graph : ContractorGraph :=
  DynamicGraph_new 2 [mkInputEdge 0 1 (street 1); mkInputEdge 1 0 (street 1)].

Definition stalled : GraphState :=
  mkGraphState [mkRemainingNodeData 0 false; mkRemainingNodeData 1 false] [0; 1]
    (mkContractorNodeData [true; true] [true; true]
       [EvaluateNodePriority close_stats1 0; EvaluateNodePriority close_stats2 0]
       [INVALID_EDGE_WEIGHT; INVALID_EDGE_WEIGHT] [0; 0])
    pair_graph (demo_state 2).

(** The tie-breaking of [IsNodeIndependent] can reject every remaining node:
    with the priorities 0.8000000119 and 0.8000000715, which
    [EvaluateNodePriority] computes for two counts of edges, two neighbours
    reject each other, the round contracts nothing, and the loop of
    [contractGraph] runs forever (no fuel is enough). *)
Theorem contraction_can_stall :
  (forall n, n = 0 \/ n = 1 -> IsNodeIndependent (fun k => Some k) (priorities (gs_data stalled))
     (gs_new_to_old stalled) (gs_graph stalled) n = Some false) /\
  forall fuel, contract_loop fuel (fun l => l) (fun k => Some k) 0 0 stalled = None.
Proof.
  split; [intros n [->| ->]; by vm_compute|].
  induction fuel as [|fuel IH]; [done|]. cbn [contract_loop].
  change (zlen (gs_remaining stalled) <=? 0) with false.
  change (zlen (gs_remaining stalled) <? 0) with false. cbv iota.
  assert (contract_step (fun l => l) (fun k => Some k) stalled = Some stalled) as ->
    by (vm_compute; reflexivity).
  exact IH.
Qed.

Lemma contraction_can_stall_witness :
  contract_loop 1000 (fun l => l) (fun k => Some k) 0 0 stalled = None.
Proof. exact (proj2 contraction_can_stall 1000%nat). Defined.
