(* ===== verification/Hierarchy.v ===== *)
(** * Contraction builds a hierarchy

    A run of the rounds of src/contractor/graph_contractor.cpp leaves at every
    contracted node the entries that lead to nodes contracted later.  Here:
    whatever the order, every walk of the graph before the run can be replaced
    by one that climbs these entries from both of its ends, and no entry is
    lighter than the walk it stands for.  This is what the search of
    src/engine/routing_algorithms/routing_base_ch.cpp relies on. *)
From S2P Require Import Prelude Walks QueryHeap Permutation DynamicGraph ContractorSearch GraphContractor Contraction.

(** ** Climbing *)

(** The [backward] entries of a node. *)
Definition back_arc (g : ContractorGraph) (u v w : Z) : Prop :=
  exists x, x ∈ adj g u /\ target x = v /\ backward (data x) = true /\ weight (data x) = w.

Definition entry (g : ContractorGraph) (DIRECTION : bool) (u v w : Z) : Prop :=
  if DIRECTION then arc g u v w else back_arc g u v w.

(** Entries of contracted nodes; [A] are the others. *)
Definition low (g : ContractorGraph) (A : Z -> Prop) (DIRECTION : bool) (u v w : Z) : Prop := ~ A u /\ entry g DIRECTION u v w.

(** A walk that climbs from both ends to nodes that are not contracted and
    goes on between these, or whose ends climb to the same node. *)
Definition overlay (g : ContractorGraph) (A : Z -> Prop) (s t p : Z) : Prop :=
  exists u v pu pm pd, walk (low g A true) s u pu /\ walk (low g A false) t v pd /\
    ((u = v /\ pm = 0) \/ (A u /\ A v /\ walk (arc g) u v pm)) /\ pu + pm + pd <= p.

(** Every entry of [g] stands for a walk of [g0] that is not heavier. *)
Definition sound (g0 g : ContractorGraph) : Prop := forall u x, x ∈ adj g u ->
  (forward (data x) = true -> exists p, walk (arc g0) u (target x) p /\ p <= weight (data x)) /\
  (backward (data x) = true -> exists p, walk (arc g0) (target x) u p /\ p <= weight (data x)).

(** Every entry of [g] has the weight of a walk over [E]. *)
Definition realized (E : Z -> Z -> Z -> Prop) (g : ContractorGraph) : Prop := forall u x, x ∈ adj g u ->
  (forward (data x) = true -> walk E u (target x) (weight (data x))) /\
  (backward (data x) = true -> walk E (target x) u (weight (data x))).

Section round.
Context (g g' : ContractorGraph) (A : Z -> Prop) (maxw : Z) (I : list Z).
Context (Hg : contractible g A maxw) (HI : forall a, a ∈ I -> A a) (Hind : independent_set g I).
Context (Hround : round_result g A maxw I g').

Lemma entry_kept DIRECTION u v w : ~ remaining A I u -> entry g DIRECTION u v w ->
  exists w', entry g' DIRECTION u v w' /\ w' <= w.
Proof using Hround.
  intros Hu. destruct DIRECTION; intros (x & Hx & <- & Hf & <-);
    destruct (rr_frame_old _ _ _ _ _ Hround u x Hu Hx) as (x' & Hx' & T & F & B & W); exists (weight (data x')); (split; [|done]); exists x';
    (split; [done|]); (split; [done|]); (split; [congruence|done]).
Qed.

(** Contracted nodes keep the ways up. *)
Lemma low_kept DIRECTION s u p : walk (low g A DIRECTION) s u p ->
  exists p', walk (low g' (remaining A I) DIRECTION) s u p' /\ p' <= p.
Proof using Hround.
  induction 1 as [v|s u t p w Hw (p' & Hp' & Hle) [Hn He]]; [exists 0; split; [constructor|lia]|].
  assert (~ remaining A I u) as Hn' by (by intros [? _]).
  destruct (entry_kept DIRECTION u t w Hn' He) as (w' & He' & Hle'). exists (p' + w'). split; [|lia]. econstructor; [done|by split].
Qed.

(** The node [u] and the first node of a walk from it that remains. *)
Definition leaves (DIRECTION : bool) (u u' a : Z) : Prop :=
  remaining A I u' /\ ((u' = u /\ a = 0) \/ (u ∈ I /\ exists a0, entry g DIRECTION u u' a0 /\ a0 <= a)).

Lemma walk_arc_active u v p : A u -> walk (arc g) u v p -> exists p', walk (active_arc g A) u v p' /\ p' <= p.
Proof using Hg.
  intros Hu Hw. destruct (walk_active g A maxw Hg (arc g) u v p (fun _ _ _ E => E) Hu Hw) as [_ (p' & Hw' & Hle)].
  exists p'. split; [|done]. eapply walk_mono; [|exact Hw']. by intros a b w [? _].
Qed.

Lemma active_walk u v p : walk (active_arc g A) u v p -> walk (arc g) u v p.
Proof. apply walk_mono. by intros a b w (_ & _ & ?). Qed.

Lemma leave_start u v p : A u -> walk (active_arc g A) u v p ->
  u = v \/ exists u' a p', leaves true u u' a /\ walk (active_arc g A) u' v p' /\ a + p' <= p.
Proof using Hg HI Hind.
  intros Hu Hw. destruct (decide (u ∈ I)) as [HuI|HuI].
  2:{ right. exists u, 0, p. split; [|split; [done|lia]]. split; [done|by left]. }
  destruct (walk_first _ _ _ _ Hw) as [[-> _]|(u' & w & p' & (_ & Hne & x & Hx & <- & Hf & <-) & Hw' & ->)]; [by left|].
  right. exists (target x), (weight (data x)), p'. split; [|split; [done|lia]]. split.
  - by apply (neighbour_remaining g A maxw I Hg HI Hind u x); [..|congruence].
  - right. split; [done|]. exists (weight (data x)). split; [by exists x|lia].
Qed.

Lemma leave_end u v p : remaining A I u -> A v -> walk (active_arc g A) u v p ->
  exists v' b p', leaves false v v' b /\ walk (active_arc g A) u v' p' /\ p' + b <= p.
Proof using Hg HI Hind.
  intros [Hu HuI] Hv Hw. destruct (decide (v ∈ I)) as [HvI|HvI].
  2:{ exists v, 0, p. split; [|split; [done|lia]]. split; [done|by left]. }
  destruct Hw as [n|s u' t p w Hw (HAu & Hne & Ha)]; [done|].
  destruct (arc_entry g A maxw Hg u' t w HAu Ha) as (x & Hx & Tx & Hb & Hle).
  exists u', w, p. split; [|split; [done|lia]]. split.
  - rewrite <- Tx. by apply (neighbour_remaining g A maxw I Hg HI Hind t x); [..|congruence].
  - right. split; [done|]. exists (weight (data x)). split; [|done]. by exists x.
Qed.

Lemma leaves_low DIRECTION s u pu u' a : walk (low g A DIRECTION) s u pu -> leaves DIRECTION u u' a ->
  exists p', walk (low g' (remaining A I) DIRECTION) s u' p' /\ p' <= pu + a.
Proof using Hround.
  intros Hw [_ [[-> ->]|(HuI & a0 & He & Hle)]].
  - destruct (low_kept DIRECTION s u pu Hw) as (p' & Hp' & ?). exists p'. split; [done|lia].
  - destruct (low_kept DIRECTION s u pu Hw) as (p' & Hp' & ?).
    assert (~ remaining A I u) as Hn by (by intros [_ ?]). destruct (entry_kept DIRECTION u u' a0 Hn He) as (w' & He' & ?).
    exists (p' + w'). split; [|lia]. econstructor; [done|by split].
Qed.

Lemma round_overlay s t p : overlay g A s t p -> overlay g' (remaining A I) s t p.
Proof using Hg HI Hind Hround.
  intros (u & v & pu & pm & pd & Hu & Hv & Hm & Hle).
  assert (u = v -> 0 <= pm -> overlay g' (remaining A I) s t p) as Hsame.
  { intros <- Hpm. destruct (low_kept true s u pu Hu) as (pu' & Hu' & ?). destruct (low_kept false t u pd Hv) as (pd' & Hv' & ?).
    exists u, u, pu', 0, pd'. split_and!; [done|done|by left|lia]. }
  destruct Hm as [[-> ->]|(HAu & HAv & Hm)]; [by apply Hsame|].
  destruct (walk_arc_active u v pm HAu Hm) as (p1 & Hm1 & Hle1).
  assert (0 <= p1) as Hp1.
  { eapply walk_nonneg; [|exact Hm1]. intros a b w (_ & _ & x & Hx & _ & _ & <-). pose proof (cg_weight _ _ _ Hg _ _ Hx). lia. }
  destruct (leave_start u v p1 HAu Hm1) as [Huv|(u' & a & p2 & Hl1 & Hw2 & Hle2)]; [apply Hsame; [done|lia]|].
  destruct (leave_end u' v p2 (proj1 Hl1) HAv Hw2) as (v' & b & p3 & Hl2 & Hw3 & Hle3).
  destruct (leaves_low true s u pu u' a Hu Hl1) as (pu' & Hu' & ?). destruct (leaves_low false t v pd v' b Hv Hl2) as (pd' & Hv' & ?).
  destruct (rr_distances _ _ _ _ _ Hround u' v' (proj1 Hl1) (proj1 Hl2)) as [Hdown _].
  destruct (Hdown p3 (active_walk _ _ _ Hw3)) as (p4 & Hw4 & ?).
  exists u', v', pu', p4, pd'. split; [done|]. split; [done|]. split; [|lia]. right. split; [apply Hl1|]. split; [apply Hl2|done].
Qed.

Lemma round_sound g0 : sound g0 g -> sound g0 g'.
Proof using Hround.
  intros Hs u x Hx. destruct (rr_origin _ _ _ _ _ Hround u x Hx) as [Hx'|[Hf Hb]]; [by apply Hs|].
  assert (forall a y z, two_hop g a y z -> exists p, walk (arc g0) (target y) (target z) p /\ p <= weight (data y) + weight (data z)) as Hhop.
  { intros a y z (Hy & Hz & Hby & Hfz & _). destruct (Hs a y Hy) as [_ Hy']. destruct (Hs a z Hz) as [Hz' _].
    destruct (Hy' Hby) as (p1 & Hp1 & ?), (Hz' Hfz) as (p2 & Hp2 & ?). exists (p1 + p2). split; [by eapply walk_app|lia]. }
  split; intros Hd.
  - destruct (Hf Hd) as (a & y & z & _ & Hh & <- & <- & ->). by eapply Hhop.
  - destruct (Hb Hd) as (a & y & z & _ & Hh & <- & <- & ->). by eapply Hhop.
Qed.

Lemma round_realized E : realized E g -> realized E g'.
Proof using Hround.
  intros Hs u x Hx. destruct (rr_origin _ _ _ _ _ Hround u x Hx) as [Hx'|[Hf Hb]]; [by apply Hs|].
  assert (forall a y z, two_hop g a y z -> walk E (target y) (target z) (weight (data y) + weight (data z))) as Hhop.
  { intros a y z (Hy & Hz & Hby & Hfz & _). eapply walk_app; [by apply (Hs a y)|by apply (Hs a z)]. }
  split; intros Hd.
  - destruct (Hf Hd) as (a & y & z & _ & Hh & <- & <- & ->). by eapply Hhop.
  - destruct (Hb Hd) as (a & y & z & _ & Hh & <- & <- & ->). by eapply Hhop.
Qed.
End round.

(** ** Runs *)

Section runs.
Context {St H Handle : Type} `{SL : IndexStorageLaws St, HL : MutableHeapLaws H Handle}.
Implicit Types (g : ContractorGraph) (A : Z -> Prop).

(** What a round starts with: the nodes [I] are accepted by
    [IsNodeIndependent], the priorities are numbers, the queue of the thread has
    room, and weights, degrees and edges stay in their ranges. *)
Record round_input (maxw : Z) (s : ContractState St H Handle) g A (I : list Z) : Prop := {
  ri_nodes a : a ∈ I -> A a;
  ri_independent : exists hash ps new_to_old,
    (forall n p, ps !z n = Some p -> finite32 p) /\
    (forall n m o, new_to_old !z n = Some o -> new_to_old !z m = Some o -> n = m) /\
    forall a, a ∈ I -> IsNodeIndependent hash ps new_to_old g a = Some true;
  ri_weights n x : x ∈ adj g n -> weight (data x) <= maxw;
  ri_empty : inserted_edges s = [];
  ri_node_weights : zlen (node_weights s) = number_of_nodes g;
  ri_room : exists deg M c r, (forall n, zlen (adj g n) <= deg) /\ 0 <= c /\
    good (number_of_nodes g) (cs_heap s) M (c + zlen I * deg) r /\ 3 + deg + FULL_SEARCH_SPACE_SIZE * deg < r /\
    forall s1, contract_nodes s g I = Some s1 ->
      zlen (edge_list g) + zlen (inserted_edges s1) * (2 * (deg + zlen (inserted_edges s1)) + 2) < 2 ^ 32
}.

(** [contracted_to maxw g A g' A']: rounds lead from [g], where the nodes [A] are
    not contracted, to [g'] with [A']. *)
Inductive contracted_to (maxw : Z) g A : ContractorGraph -> (Z -> Prop) -> Prop :=
| contracted_none : contracted_to maxw g A g A
| contracted_round g1 A1 g2 I s s' parallel_sort : contracted_to maxw g A g1 A1 -> round_input maxw s g1 A1 I ->
    (forall l, parallel_sort l ≡ₚ l) -> contract_round parallel_sort s g1 I = Some (s', g2) ->
    contracted_to maxw g A g2 (remaining A1 I).

Lemma contractible_weights g A m m' : contractible g A m -> (forall n x, x ∈ adj g n -> weight (data x) <= m') -> contractible g A m'.
Proof.
  intros [W1 W2 W3 W4 W5 W6 W7 W8 W9] Hw. constructor; try done. intros n x Hx. split; [|by eapply Hw]. by apply (W6 n).
Qed.

(** Every round computes what the previous sections assume. *)
Lemma round_runs maxw s g A I parallel_sort : contractible g A maxw -> round_input maxw s g A I -> 3 * maxw < INT32_MAX ->
  (forall l, parallel_sort l ≡ₚ l) ->
  independent_set g I /\ exists s' g', contract_round parallel_sort s g I = Some (s', g') /\ round_result g A maxw I g'.
Proof.
  intros Hg [K1 (hash & ps & n2o & Hf & Hinj & Hi) K3 K4 K5 (deg & M & c & r & Hd & Hc & Hq & Hr & Hcap)] Hmax Hsort.
  assert (independent_set g I) as Hind by (by eapply independent_nodes_set). split; [done|].
  destruct (contract_round_ok g A maxw I Hg K1 Hind deg Hd Hmax parallel_sort s M c r deg) as (s' & g' & E & _ & Hrr & _); try done.
  by exists s', g'.
Qed.

Lemma run_ok maxw g A g' A' : 3 * maxw < INT32_MAX -> contractible g A maxw -> contracted_to maxw g A g' A' ->
  contractible g' A' (2 * maxw) /\ number_of_nodes g' = number_of_nodes g /\
  (forall s t p, overlay g A s t p -> overlay g' A' s t p) /\ (forall g0, sound g0 g -> sound g0 g') /\
  (forall E, realized E g -> realized E g').
Proof.
  intros Hmax Hg. induction 1 as [|g1 A1 g2 I s s' sort Hrun (Hg1 & Hn & Ho & Hs & Hr0) Hin Hsort E].
  { split; [|done]. eapply contractible_weights; [exact Hg|]. intros n x Hx. pose proof (cg_weight _ _ _ Hg n x Hx). lia. }
  assert (contractible g1 A1 maxw) as Hg1' by (eapply contractible_weights; [exact Hg1|apply Hin]).
  destruct (round_runs maxw s g1 A1 I sort Hg1' Hin Hmax Hsort) as [Hind (s2 & g3 & E3 & Hr)]. rewrite E in E3. injection E3 as <- <-.
  split; [apply (rr_contractible _ _ _ _ _ Hr)|]. split; [rewrite (rr_num _ _ _ _ _ Hr); done|]. split; [|split].
  - intros a b p Hab. eapply (round_overlay g1 g2 A1 maxw I Hg1'); [apply Hin|done|done|by apply Ho].
  - intros g0 Hg0. eapply round_sound; [exact Hr|by apply Hs].
  - intros E0 HE0. eapply round_realized; [exact Hr|by apply Hr0].
Qed.

(** All nodes of a graph. *)
Definition all_nodes g (n : Z) : Prop := 0 <= n < number_of_nodes g.

Lemma adj_node g n x : dg_wf g -> x ∈ adj g n -> all_nodes g n.
Proof.
  intros Hwf Hx. unfold adj in Hx. destruct (node_array g !z n) eqn:E; [|by apply elem_of_nil in Hx].
  apply zget_some in E. rewrite (dw_nodes _ Hwf) in E. exact E.
Qed.

Lemma all_nodes_overlay g maxw s t p : contractible g (all_nodes g) maxw -> walk (arc g) s t p -> overlay g (all_nodes g) s t p.
Proof.
  intros Hg Hw. assert (s = t /\ p = 0 \/ (all_nodes g s /\ all_nodes g t)) as [[-> ->]|[Hs Ht]].
  { induction Hw as [n|s u t p w Hw IH (x & Hx & <- & _)]; [by left|]. right. pose proof (cg_closed _ _ _ Hg u x Hx) as Ht.
    split; [|exact Ht]. destruct IH as [[-> ->]|[? _]]; [|done]. eapply adj_node; [apply Hg|exact Hx]. }
  - exists t, t, 0, 0, 0. split_and!; [constructor|constructor|by left|lia].
  - exists s, t, 0, p, 0. split_and!; [constructor|constructor|by right|lia].
Qed.

Lemma all_nodes_sound g maxw : contractible g (all_nodes g) maxw -> sound g g.
Proof.
  intros Hg u x Hx. pose proof (adj_node g u x (cg_wf _ _ _ Hg) Hx) as Hu. split; intros Hd.
  - exists (weight (data x)). split; [|lia]. apply walk_edge. by exists x.
  - destruct (cg_backward _ _ _ Hg u x Hu Hx Hd) as (y & Hy & Ty & Fy & Wy). exists (weight (data y)). split; [|done].
    apply walk_edge. by exists y.
Qed.

(** What remains of an overlay when the nodes that are not contracted count as climbed. *)
Lemma overlay_climbs g A s t p : overlay g A s t p ->
  exists m pu pd, walk (entry g true) s m pu /\ walk (entry g false) t m pd /\ pu + pd <= p.
Proof.
  intros (u & v & pu & pm & pd & Hu & Hv & Hm & Hle).
  assert (walk (entry g true) s u pu) as Hu' by (eapply walk_mono; [|exact Hu]; by intros a b w [_ ?]).
  assert (walk (entry g false) t v pd) as Hv' by (eapply walk_mono; [|exact Hv]; by intros a b w [_ ?]).
  destruct Hm as [[-> ->]|(_ & _ & Hm)].
  - exists v, pu, pd. split_and!; [done|done|lia].
  - exists v, (pu + pm), pd. split_and!; [eapply walk_app; [exact Hu'|exact Hm]|done|lia].
Qed.

(** Climbing entries and walks of the graph before the run. *)
Lemma hierarchy_ok maxw g g' A' (Hmax : 3 * maxw < INT32_MAX)
    (Hg : contractible g (all_nodes g) maxw) (Hrun : contracted_to maxw g (all_nodes g) g' A') :
  (forall s t p, walk (arc g) s t p ->
     exists m pu pd, walk (entry g' true) s m pu /\ walk (entry g' false) t m pd /\ pu + pd <= p) /\
  (forall u v w, entry g' true u v w -> exists p, walk (arc g) u v p /\ p <= w) /\
  (forall u v w, entry g' false u v w -> exists p, walk (arc g) v u p /\ p <= w).
Proof.
  destruct (run_ok maxw g (all_nodes g) g' A' Hmax Hg Hrun) as (_ & _ & Ho & Hs & _).
  pose proof (Hs g (all_nodes_sound g maxw Hg)) as Hsound. split; [|split].
  - intros s t p Hw. by eapply overlay_climbs, Ho, all_nodes_overlay.
  - intros u v w (x & Hx & <- & Hf & <-). by apply (Hsound u x Hx).
  - intros u v w (x & Hx & <- & Hf & <-). by apply (Hsound u x Hx).
Qed.

(** C8: contraction builds a hierarchy.  However many rounds are run on a graph
    whose entries are paired, and whichever independent nodes they take: every
    walk of the graph can be replaced by one that climbs entries of the
    contracted graph from both ends and is not heavier, and every entry of
    the contracted graph, forward or backward, stands for a walk of the graph
    that is not heavier. *)
Theorem contraction_hierarchy maxw g g' A' (Hmax : 3 * maxw < INT32_MAX)
    (Hg : contractible g (all_nodes g) maxw) (Hrun : contracted_to maxw g (all_nodes g) g' A') :
  (forall s t p, walk (arc g) s t p ->
     exists m pu pd, walk (entry g' true) s m pu /\ walk (entry g' false) t m pd /\ pu + pd <= p) /\
  (forall u v w, entry g' true u v w -> exists p, walk (arc g) u v p /\ p <= w) /\
  (forall u v w, entry g' false u v w -> exists p, walk (arc g) v u p /\ p <= w).
Proof. eauto using hierarchy_ok. Qed.
End runs.

(** ** An example *)

(** The middle of the street [0 - 1 - 2] is contracted. *)
Lemma line_round_input : round_input 3 (demo_state 3) line (all_nodes line) [1].
Proof.
  constructor.
  - intros a ->%list_elem_of_singleton. by vm_compute.
  - exists (fun n => Some n), demo_priorities, [0; 1; 2]. split; [exact demo_finite|]. split; [exact demo_ids|exact demo_independent].
  - intros n x [[-> ->]|[[-> ->]|[[-> ->]|[-> ->]]]]%line_adj; by vm_compute.
  - done.
  - by vm_compute.
  - exists 2, ∅, 0, 10000. split; [exact line_deg|]. split; [lia|]. split; [by apply demo_state_good|]. split; [by vm_compute|].
    intros s1 E1. vm_compute in E1. injection E1 as <-. by vm_compute.
Qed.

Lemma line_contracted : exists g', contracted_to (St := ArrayStorage) (H := RefHeap) 3 line (all_nodes line) g' (remaining (all_nodes line) [1]).
Proof.
  destruct (round_runs 3 (demo_state 3) line (all_nodes line) [1] (fun l => l)) as [_ (s' & g' & E & _)].
  - exact line_contractible.
  - exact line_round_input.
  - by vm_compute.
  - done.
  - exists g'. apply (contracted_round 3 line (all_nodes line) line (all_nodes line) g' [1] (demo_state 3) s' (fun l => l));
      [constructor|exact line_round_input|intros l; reflexivity|exact E].
Qed.

Lemma contraction_hierarchy_witness : exists g' m pu pd,
  contracted_to (St := ArrayStorage) (H := RefHeap) 3 line (all_nodes line) g' (remaining (all_nodes line) [1]) /\
  walk (entry g' true) 0 m pu /\ walk (entry g' false) 2 m pd /\ pu + pd <= 5.
Proof.
  destruct line_contracted as (g' & Hrun).
  destruct (contraction_hierarchy (St := ArrayStorage) (H := RefHeap) 3 line g' _ eq_refl line_contractible Hrun) as (Hc & _).
  destruct (Hc 0 2 5) as (m & pu & pd & Hu & Hd & Hle).
  - apply (walk_snoc (arc line) 0 1 2 2 3).
    + apply walk_edge. exists (mkDynamicEdge 1 (street 2)). split; [vm_compute; set_unfold; tauto|done].
    + exists (mkDynamicEdge 2 (street 3)). split; [vm_compute; set_unfold; tauto|done].
  - exists g', m, pu, pd. split; [exact Hrun|]. split; [exact Hu|]. split; [exact Hd|exact Hle].
Defined.
