(* ===== verification/ChSearch.v ===== *)
(** * The search on the contraction hierarchy

    Model of include/contractor/query_edge.hpp, of the search of
    include/engine/routing_algorithms/routing_base_ch.hpp and
    src/engine/routing_algorithms/routing_base_ch.cpp: two Dijkstra searches that only climb the hierarchy, one
    from the sources and one from the targets, with stalling, and the path
    through the node where they meet.  The graph and the queues are used
    through their contracts only. *)
From S2P Require Import Prelude Walks QueryHeap Relaxing RoutingBase DynamicGraph StaticGraph GraphInterface.

Module Ch.

(** ** Data *)

(** The data of an edge of the query graph; [turn_id] is the middle node of a
    shortcut and the turn of any other edge. *)
Record EdgeData : Type := mkEdgeData {
  turn_id : Z; shortcut : bool; weight : Z; duration : Z; forward : bool; backward : bool; distance : float32 }.

Record HeapData : Type := mkHeapData { parent : Z }.

#[global] Instance HeapData_HasParent : HasParent HeapData := {| of_parent := mkHeapData; parent_of := parent |}.

(** ** The search *)

Section search.
Context {G St H Handle : Type} `{!Graph G EdgeData, IndexStorage St, MutableHeap H Handle}.
Abbreviation Heap := (QueryHeap St H Handle HeapData).
Implicit Types (facade : G) (heap forward_heap reverse_heap : Heap).

(** Is an edge usable in a direction? *)
Definition usable (DIRECTION : bool) (data : EdgeData) : bool :=
  if DIRECTION then forward data else backward data.

(** The loop of [stallAtNode] over the edges of a node of weight [node_weight]. *)
Fixpoint stall_edges (DIRECTION : bool) facade (range : list Z) (node_weight : Z) heap : option bool :=
  match range with
  | [] => Some false
  | edge :: range =>
      data ← graph_data facade edge;
      if usable (negb DIRECTION) data then
        to ← graph_target facade edge;
        toHeapNode ← GetHeapNodeIfWasInserted heap to;
        match toHeapNode with
        | Some i =>
            hn ← inserted_nodes heap !z i;
            if weight_add (hn_weight hn) (weight data) <? node_weight then Some true
            else stall_edges DIRECTION facade range node_weight heap
        | None => stall_edges DIRECTION facade range node_weight heap
        end
      else stall_edges DIRECTION facade range node_weight heap
  end.

Definition stallAtNode (DIRECTION : bool) facade (heapNode : HeapNode Handle HeapData) heap : option bool :=
  range ← graph_range facade (hn_node heapNode);
  stall_edges DIRECTION facade range (hn_weight heapNode) heap.

(** A node reached over an edge: new, or closer than before. *)
Definition relax_to heap (to to_weight node : Z) : option Heap := relax heap to to_weight (mkHeapData node).

Fixpoint relax_edges (DIRECTION : bool) facade (range : list Z) (node node_weight : Z) heap : option Heap :=
  match range with
  | [] => Some heap
  | edge :: range =>
      data ← graph_data facade edge;
      if usable DIRECTION data then
        to ← graph_target facade edge;
        heap' ← relax_to heap to (weight_add node_weight (weight data)) node;
        relax_edges DIRECTION facade range node node_weight heap'
      else relax_edges DIRECTION facade range node node_weight heap
  end.

Definition relaxOutgoingEdges (DIRECTION : bool) facade (heapNode : HeapNode Handle HeapData) heap : option Heap :=
  range ← graph_range facade (hn_node heapNode);
  relax_edges DIRECTION facade range (hn_node heapNode) (hn_weight heapNode) heap.

(** The loop at a node where a path through it is not allowed: the node is
    left and entered again. *)
Fixpoint loop_edges (DIRECTION : bool) facade (range : list Z) (node new_weight middle upper_bound : Z)
  : option (Z * Z) :=
  match range with
  | [] => Some (middle, upper_bound)
  | edge :: range =>
      data ← graph_data facade edge;
      if usable DIRECTION data then
        to ← graph_target facade edge;
        let loop_weight := weight_add new_weight (weight data) in
        if (to =? node) && (0 <=? loop_weight) && (loop_weight <? upper_bound)
        then loop_edges DIRECTION facade range node new_weight node loop_weight
        else loop_edges DIRECTION facade range node new_weight middle upper_bound
      else loop_edges DIRECTION facade range node new_weight middle upper_bound
  end.

(** The node [heapNode] of one search was reached by the other one at
    [reverse_weight]. *)
Definition meet (DIRECTION : bool) facade (heapNode : HeapNode Handle HeapData) (reverse_weight middle upper_bound : Z)
    (force_loop_forward_nodes force_loop_reverse_nodes : list Z) : option (Z * Z) :=
  let new_weight := weight_add reverse_weight (hn_weight heapNode) in
  if new_weight <? upper_bound then
    if force_loop force_loop_forward_nodes heapNode || force_loop force_loop_reverse_nodes heapNode || (new_weight <? 0)
    then range ← graph_range facade (hn_node heapNode);
         loop_edges DIRECTION facade range (hn_node heapNode) new_weight middle upper_bound
    else Some (hn_node heapNode, new_weight)
  else Some (middle, upper_bound).

(** One step of one of the searches: its queue, the middle node and the bound. *)
Definition routingStep (DIRECTION STALLING : bool) facade forward_heap reverse_heap (middle upper_bound min_edge_offset : Z)
    (force_loop_forward_nodes force_loop_reverse_nodes : list Z) : option (Heap * Z * Z) :=
  '(heapNode, forward_heap) ← DeleteMinGetHeapNode forward_heap;
  reverseHeapNode ← GetHeapNodeIfWasInserted reverse_heap (hn_node heapNode);
  '(middle, upper_bound) ←
    match reverseHeapNode with
    | Some i =>
        hn ← inserted_nodes reverse_heap !z i;
        meet DIRECTION facade heapNode (hn_weight hn) middle upper_bound force_loop_forward_nodes force_loop_reverse_nodes
    | None => Some (middle, upper_bound)
    end;
  if upper_bound <? weight_add (hn_weight heapNode) min_edge_offset
  then Some (DeleteAll forward_heap, middle, upper_bound)
  else
    stalled ← (if STALLING then stallAtNode DIRECTION facade heapNode forward_heap else Some false);
    if (stalled : bool) then Some (forward_heap, middle, upper_bound)
    else
      heap ← relaxOutgoingEdges DIRECTION facade heapNode forward_heap;
      Some (heap, middle, upper_bound).

(** The [while] loop of [search]. *)
Fixpoint search_loop (fuel : nat) facade forward_heap reverse_heap (middle weight min_edge_offset : Z)
    (force_loop_forward_nodes force_loop_reverse_nodes : list Z) : option (Heap * Heap * Z * Z) :=
  match fuel with
  | O => None
  | S fuel =>
      if 0 <? Size forward_heap + Size reverse_heap then
        '(forward_heap, middle, weight) ←
          (if Empty forward_heap then Some (forward_heap, middle, weight)
           else routingStep FORWARD_DIRECTION true facade forward_heap reverse_heap middle weight min_edge_offset
                  force_loop_forward_nodes force_loop_reverse_nodes);
        '(reverse_heap, middle, weight) ←
          (if Empty reverse_heap then Some (reverse_heap, middle, weight)
           else routingStep REVERSE_DIRECTION true facade reverse_heap forward_heap middle weight min_edge_offset
                  force_loop_reverse_nodes force_loop_forward_nodes);
        search_loop fuel facade forward_heap reverse_heap middle weight min_edge_offset
          force_loop_forward_nodes force_loop_reverse_nodes
      else Some (forward_heap, reverse_heap, middle, weight)
  end.

(** The nodes on the way back from a node, which is not among them. *)
Fixpoint retrievePackedPathFromSingleHeap (fuel : nat) (search_heap : Heap) (current_node_id : Z) : option (list Z) :=
  match fuel with
  | O => None
  | S fuel =>
      data ← GetData search_heap current_node_id;
      if current_node_id =? parent data then Some []
      else
        inserted ← WasInserted search_heap (parent data);
        if (inserted : bool) then
          path ← retrievePackedPathFromSingleHeap fuel search_heap (parent data);
          Some (parent data :: path)
        else Some []
  end.

Definition retrievePackedPathFromHeap (fuel : nat) forward_heap reverse_heap (middle_node_id : Z) : option (list Z) :=
  from ← retrievePackedPathFromSingleHeap fuel forward_heap middle_node_id;
  to ← retrievePackedPathFromSingleHeap fuel reverse_heap middle_node_id;
  Some (reverse from ++ [middle_node_id] ++ to).

(** Every round settles a node of one of the two searches. *)
Definition search_fuel facade : nat := S (Z.to_nat (2 * graph_nodes facade)).

(** The queues afterwards, the weight and the packed leg, which is empty before. *)
Definition search facade forward_heap reverse_heap (force_loop_forward_nodes force_loop_reverse_nodes : list Z)
    (weight_upper_bound : Z) : option (Heap * Heap * Z * list Z) :=
  if Empty forward_heap || Empty reverse_heap then Some (forward_heap, reverse_heap, INVALID_EDGE_WEIGHT, [])
  else
    min_key ← MinKey forward_heap;
    let min_edge_offset := Z.min 0 min_key in
    '(forward_heap, reverse_heap, middle, weight) ←
      search_loop (search_fuel facade) facade forward_heap reverse_heap SPECIAL_NODEID weight_upper_bound min_edge_offset
        force_loop_forward_nodes force_loop_reverse_nodes;
    if (weight_upper_bound <=? weight) || (SPECIAL_NODEID =? middle)
    then Some (forward_heap, reverse_heap, INVALID_EDGE_WEIGHT, [])
    else
      f ← GetKey forward_heap middle;
      r ← GetKey reverse_heap middle;
      if negb (weight =? weight_add f r) then Some (forward_heap, reverse_heap, weight, [middle; middle])
      else
        packed_leg ← retrievePackedPathFromHeap (search_fuel facade) forward_heap reverse_heap middle;
        Some (forward_heap, reverse_heap, weight, packed_leg).
End search.

(** ** Relaxing on the abstract queue *)

Abbreviation qmap := (gmap Z (qentry HeapData)).

(** The arcs of edges in the direction of a search. *)
Definition out_arcs (DIRECTION : bool) (es : list (DynamicEdge EdgeData)) : list (Z * Z) :=
  (fun x => (target x, weight (data x))) <$> filter (fun x => usable DIRECTION (data x) = true) es.

Definition relax_usable (M : qmap) (DIRECTION : bool) (es : list (DynamicEdge EdgeData)) (node w : Z) : qmap :=
  relax_all M (out_arcs DIRECTION es) w (mkHeapData node).

Lemma relax_usable_cons M DIRECTION x es node w : relax_usable M DIRECTION (x :: es) node w =
  if usable DIRECTION (data x) then relax_usable (relax_map M (target x) (w + weight (data x)) (mkHeapData node)) DIRECTION es node w
  else relax_usable M DIRECTION es node w.
Proof. unfold relax_usable, out_arcs. rewrite filter_cons. by destruct (usable DIRECTION (data x)). Qed.

(** What relaxing from [node] leaves: lighter entries for the targets [T], settled ones as they were. *)
Definition relaxed_from (M M' : qmap) (node : Z) (T : Z -> Z -> Prop) : Prop :=
  relaxed M M' (fun v w d => d = mkHeapData node /\ T v w).

(** The targets of usable edges, at the weight of [w] and the edge. *)
Definition edge_targets (DIRECTION : bool) (es : list (DynamicEdge EdgeData)) (w v wv : Z) : Prop :=
  exists x, x ∈ es /\ usable DIRECTION (data x) = true /\ target x = v /\ wv = w + weight (data x).

Lemma elem_of_out_arcs DIRECTION es v w : (v, w) ∈ out_arcs DIRECTION es <->
  exists x, x ∈ es /\ usable DIRECTION (data x) = true /\ target x = v /\ weight (data x) = w.
Proof.
  unfold out_arcs. rewrite list_elem_of_fmap. split.
  - intros (x & [= -> ->] & [Hu Hx]%list_elem_of_filter). by exists x.
  - intros (x & Hx & Hu & <- & <-). exists x. split; [done|]. by apply list_elem_of_filter.
Qed.

Lemma relax_usable_relaxed DIRECTION es node w : (forall x, x ∈ es -> 0 < weight (data x)) -> forall M,
  (forall v e, M !! v = Some e -> qe_removed e = true -> qe_weight e <= w) ->
  relaxed_from M (relax_usable M DIRECTION es node w) node (edge_targets DIRECTION es w).
Proof.
  intros Hpos M Hrem. eapply relaxed_iff; [apply relax_all_relaxed; [|done]|].
  - intros [v x] (y & Hy & _ & _ & <-)%elem_of_out_arcs. by apply Hpos.
  - intros v wv d. unfold offered, edge_targets. split.
    + intros (-> & x & (y & Hy & Hu & <- & <-)%elem_of_out_arcs & ->). split; [done|]. by exists y.
    + intros (-> & y & Hy & Hu & <- & ->). split; [done|]. exists (weight (data y)). split; [|done]. apply elem_of_out_arcs. by exists y.
Qed.

(** ** Arcs of the hierarchy *)

Section hierarchy.
Context {G : Type} `{!Graph G EdgeData, !GraphLaws G EdgeData} (g : G).

(** An edge the search of a direction climbs: it is stored at its lower end. *)
Definition up (DIRECTION : bool) (u v w : Z) : Prop :=
  0 <= u < graph_nodes g /\ exists x, x ∈ adjacency g u /\ target x = v /\ usable DIRECTION (data x) = true /\ weight (data x) = w.

(** The arcs the graph stands for. *)
Definition arc (u v w : Z) : Prop := up true u v w \/ up false v u w.

(** The arcs in the direction of a search. *)
Definition step (DIRECTION : bool) (u v w : Z) : Prop := if DIRECTION then arc u v w else arc v u w.

Lemma up_step DIRECTION u v w : up DIRECTION u v w -> step DIRECTION u v w.
Proof. destruct DIRECTION; [by left|by right]. Qed.

Lemma down_step DIRECTION u v w : up (negb DIRECTION) u v w -> step DIRECTION v u w.
Proof. destruct DIRECTION; [by right|by left]. Qed.

(** Every walk can be replaced by one that climbs from both of its ends. *)
Definition is_hierarchy : Prop := forall s t p, walk arc s t p ->
  exists m pu pd, walk (up true) s m pu /\ walk (up false) t m pd /\ pu + pd <= p.

(** Walks in the direction of a search, as walks along the arcs. *)
Lemma walk_reverse (E E' : Z -> Z -> Z -> Prop) s t p :
  (forall u v w, E u v w -> E' v u w) -> walk E s t p -> walk E' t s p.
Proof.
  intros HE. induction 1 as [n|s u t p w Hw IH He]; [constructor|].
  rewrite Z.add_comm. eapply walk_app; [apply walk_edge; by apply HE|done].
Qed.

Lemma walk_steps DIRECTION s t p : walk (step DIRECTION) s t p <-> if DIRECTION then walk arc s t p else walk arc t s p.
Proof. destruct DIRECTION; [done|]. split; apply walk_reverse; done. Qed.
End hierarchy.

(** ** One of the two searches *)

Section sides.
Context {G : Type} `{!Graph G EdgeData, !GraphLaws G EdgeData} (g : G).
Abbreviation n := (graph_nodes g).
Context (start : bool -> Z -> Z -> Prop) (off maxw bound : Z).
Context (Hwf : graph_wf g) (Htargets : forall v x, 0 <= v < n -> x ∈ adjacency g v -> 0 <= target x < n).
Context (Hweights : forall v x, 0 <= v < n -> x ∈ adjacency g v -> 0 < weight (data x) <= maxw).
Context (Hoff : off <= 0) (Hstart : forall DIRECTION s w, start DIRECTION s w -> 0 <= s < n /\ off <= w).
Implicit Types (M : qmap) (DIRECTION : bool).

(** The state of the search of a direction when paths of weight [ub] are
    known.  A node is settled and not relaxed only if it is too far away, or if
    it is stalled: a lighter way to it leads over another node. *)
Record side DIRECTION M (ub : Z) : Prop := {
  sd_dom v e : M !! v = Some e -> 0 <= v < n;
  sd_low v e : M !! v = Some e -> off <= qe_weight e;
  sd_tree v e : M !! v = Some e -> (start DIRECTION v (qe_weight e) /\ parent (qe_data e) = v) \/
    exists u eu w, M !! u = Some eu /\ qe_removed eu = true /\ parent (qe_data e) = u /\ up g DIRECTION u v w /\
      qe_weight e = qe_weight eu + w;
  sd_start s w : start DIRECTION s w -> exists e, M !! s = Some e /\ qe_weight e <= w;
  sd_order v e v' e' : M !! v = Some e -> M !! v' = Some e' -> qe_removed e = true -> qe_removed e' = false ->
    qe_weight e <= qe_weight e';
  sd_done v e : M !! v = Some e -> qe_removed e = true ->
    ub < qe_weight e + off \/
    (exists u eu w, M !! u = Some eu /\ step g DIRECTION u v w /\ qe_weight eu + w < qe_weight e) \/
    (forall t w, up g DIRECTION v t w -> exists et, M !! t = Some et /\ qe_weight et <= qe_weight e + w)
}.

Lemma up_weight DIRECTION u v w : up g DIRECTION u v w -> 0 <= u < n /\ 0 <= v < n /\ 0 < w <= maxw.
Proof using Htargets Hweights. intros (Hu & x & Hx & <- & _ & <-). split; [done|]. by split; [eapply Htargets|eapply Hweights]. Qed.

Lemma side_ub DIRECTION M ub ub' : ub' <= ub -> side DIRECTION M ub -> side DIRECTION M ub'.
Proof.
  intros Hle [A1 A2 A3 A4 A5 A6]. constructor; [done..|]. intros v e Hv Hr. destruct (A6 v e Hv Hr) as [?|?]; [left; lia|by right].
Qed.

(** The way back from a node to a start, nearest node first. *)
Inductive traced DIRECTION M : Z -> list Z -> Prop :=
| traced_start v e : M !! v = Some e -> parent (qe_data e) = v -> start DIRECTION v (qe_weight e) -> traced DIRECTION M v [v]
| traced_step u v eu e w L : traced DIRECTION M u L -> M !! u = Some eu -> M !! v = Some e -> parent (qe_data e) = u ->
    up g DIRECTION u v w -> qe_weight e = qe_weight eu + w -> traced DIRECTION M v (v :: L).

Lemma side_traced DIRECTION M ub v e : side DIRECTION M ub -> M !! v = Some e -> exists L, traced DIRECTION M v L.
Proof using Htargets Hweights.
  intros HS. remember (Z.to_nat (qe_weight e - off)) as k eqn:Ek. revert v e Ek.
  induction (lt_wf k) as [k _ IH]. intros v e Ek Hv. pose proof (sd_low _ _ _ HS v e Hv).
  destruct (sd_tree _ _ _ HS v e Hv) as [[Hs Hp]|(u & eu & w & Hu & _ & Hp & Hup & Hw)]; [by exists [v]; eapply traced_start|].
  pose proof (up_weight _ _ _ _ Hup) as (_ & _ & Hpos). pose proof (sd_low _ _ _ HS u eu Hu).
  destruct (IH (Z.to_nat (qe_weight eu - off))) with (v := u) (e := eu) as [L HL]; [lia|done|done|].
  exists (v :: L). by eapply traced_step.
Qed.

(** It is a path of the weight of the node. *)
Lemma traced_path DIRECTION M v L e : traced DIRECTION M v L -> M !! v = Some e ->
  exists s ws p, start DIRECTION s ws /\ path (up g DIRECTION) s L v p /\ qe_weight e = ws + p /\
    forall x, x ∈ L -> exists ex, M !! x = Some ex /\ qe_weight ex <= qe_weight e.
Proof using Htargets Hweights.
  intros HT. revert e. induction HT as [v e0 Hv Hp Hs|u v eu e0 w L HT IH Hu Hv Hp Hup Hw]; intros e He; assert (e0 = e) as -> by congruence.
  - exists v, (qe_weight e), 0. split; [done|]. split; [constructor|]. split; [lia|].
    intros x [->|Hx%elem_of_nil]%elem_of_cons; [by exists e|done].
  - destruct (IH eu Hu) as (s & ws & p & Hs & HP & Ep & Hx). pose proof (up_weight _ _ _ _ Hup) as (_ & _ & Hpos).
    exists s, ws, (p + w). split; [done|]. split.
    { econstructor; [done|done|]. intros (ex & Hex & Hle)%Hx. simplify_eq. lia. }
    split; [lia|]. intros x [->|(ex & Hex & Hle)%Hx]%elem_of_cons; [by exists e|]. exists ex. split; [done|lia].
Qed.

Lemma side_walk DIRECTION M ub v e : side DIRECTION M ub -> M !! v = Some e ->
  exists s ws p, start DIRECTION s ws /\ walk (step g DIRECTION) s v p /\ qe_weight e = ws + p.
Proof using Htargets Hweights.
  intros HS Hv. destruct (side_traced _ _ _ _ _ HS Hv) as [L HT].
  destruct (traced_path _ _ _ _ _ HT Hv) as (s & ws & p & Hs & HP & Ep & _). exists s, ws, p. split; [done|]. split; [|done].
  eapply walk_mono; [|by eapply path_walk]. intros *. apply up_step.
Qed.

Context (Hbound : forall DIRECTION s ws L v p, start DIRECTION s ws -> path (up g DIRECTION) s L v p -> ws + p <= bound).

Lemma side_bound DIRECTION M ub v e : side DIRECTION M ub -> M !! v = Some e -> qe_weight e <= bound.
Proof using Htargets Hweights Hbound.
  intros HS Hv. destruct (side_traced _ _ _ _ _ HS Hv) as [L HT].
  destruct (traced_path _ _ _ _ _ HT Hv) as (s & ws & p & Hs & HP & -> & _). by eapply Hbound.
Qed.

(** Settling the closest node [v] of the queue. *)
Section settle.
Context (DIRECTION : bool) (M : qmap) (v : Z) (e : qentry HeapData) (ub : Z).
Context (HS : side DIRECTION M ub) (Hv : M !! v = Some e) (Hlive : qe_removed e = false).
Context (Hmin : forall v' e', M !! v' = Some e' -> qe_removed e' = false -> qe_weight e <= qe_weight e').
Let M1 : qmap := <[v := mkQentry (qe_weight e) (qe_data e) true]> M.

Lemma ch_settle_lookup v' e' : M1 !! v' = Some e' ->
  exists e0, M !! v' = Some e0 /\ qe_weight e' = qe_weight e0 /\ qe_data e' = qe_data e0 /\
    (v' = v /\ qe_removed e' = true \/ v' <> v /\ e' = e0).
Proof using Hv.
  intros [[<- <-]|[Hne Hm]]%lookup_insert_Some; [exists e|exists e']; split_and!; try done; [by left|right; by split].
Qed.

Lemma ch_settle_has v' e' : M !! v' = Some e' -> exists e1, M1 !! v' = Some e1 /\ qe_weight e1 = qe_weight e' /\
  (qe_removed e' = true -> e1 = e').
Proof using Hv Hlive.
  intros Hv'. unfold M1. destruct (decide (v' = v)) as [->|Hne].
  - rewrite lookup_insert_eq. simplify_eq. eexists. split; [done|]. split; [done|]. congruence.
  - rewrite lookup_insert_ne by done. by exists e'.
Qed.

Lemma settle_removed v' e' : M1 !! v' = Some e' -> qe_removed e' = true -> qe_weight e' <= qe_weight e.
Proof using HS Hv Hlive.
  intros (e0 & H0 & -> & _ & [[-> _]|[_ ->]])%ch_settle_lookup Hr; [simplify_eq; lia|]. by eapply (sd_order _ _ _ HS v' e0 v e).
Qed.

Lemma settle_live v' e' : M1 !! v' = Some e' -> qe_removed e' = false -> qe_weight e <= qe_weight e'.
Proof using Hv Hmin. intros (e0 & H0 & -> & _ & [[-> Hr]|[_ ->]])%ch_settle_lookup Hl; [congruence|by eapply Hmin]. Qed.

Lemma settle_tree v' e' : M1 !! v' = Some e' -> (start DIRECTION v' (qe_weight e') /\ parent (qe_data e') = v') \/
  exists u eu w, M1 !! u = Some eu /\ qe_removed eu = true /\ parent (qe_data e') = u /\ up g DIRECTION u v' w /\
    qe_weight e' = qe_weight eu + w.
Proof using HS Hv Hlive.
  intros (e0 & H0 & -> & -> & _)%ch_settle_lookup. destruct (sd_tree _ _ _ HS v' e0 H0) as [?|(u & eu & w & Hu & Hr & Hp & Hup & Hw)]; [by left|].
  right. exists u, eu, w. split; [|done]. destruct (ch_settle_has u eu Hu) as (e1 & H1 & _ & He1). by rewrite He1 in H1.
Qed.

(** The node is settled and what [Hdone] says has been done with it. *)
Lemma settle_side M2 (T : Z -> Z -> Prop) ub' : relaxed_from M1 M2 v T -> ub' <= ub ->
  (forall t w, T t w -> exists x, up g DIRECTION v t x /\ w = qe_weight e + x) ->
  (ub' < qe_weight e + off \/ (exists u eu w, M2 !! u = Some eu /\ step g DIRECTION u v w /\ qe_weight eu + w < qe_weight e) \/
    (forall t w, up g DIRECTION v t w -> exists et, M2 !! t = Some et /\ qe_weight et <= qe_weight e + w)) ->
  side DIRECTION M2 ub'.
Proof using HS Hv Hlive Hmin Htargets Hweights.
  intros [R1 R2 R3 R4] Hub HT Hdone. pose proof (sd_low _ _ _ HS v e Hv) as Hlow.
  assert (forall t w, T t w -> 0 <= t < n /\ qe_weight e < w) as HT'.
  { intros t w (x & Hx & ->)%HT. apply up_weight in Hx. lia. }
  constructor.
  - intros v' e' Hv'. destruct (R3 v' e' Hv') as [(e0 & H0 & _)%ch_settle_lookup|(_ & (_ & Ht%HT'))]; [by eapply (sd_dom _ _ _ HS)|lia].
  - intros v' e' Hv'. destruct (R3 v' e' Hv') as [(e0 & H0 & -> & _)%ch_settle_lookup|(_ & (_ & Ht%HT'))]; [by eapply (sd_low _ _ _ HS)|lia].
  - intros v' e' Hv'. destruct (R3 v' e' Hv') as [H1|(_ & (Hp & Ht))].
    + destruct (settle_tree v' e' H1) as [?|(u & eu & w & Hu & Hr & ?)]; [by left|]. right. exists u, eu, w. split; [by apply R4|done].
    + destruct (HT _ _ Ht) as (x & Hx & Hw). right. exists v, (mkQentry (qe_weight e) (qe_data e) true), x.
      split; [|by rewrite Hp]. apply R4; [apply lookup_insert_eq|done].
  - intros s w Hs. destruct (sd_start _ _ _ HS s w Hs) as (e0 & H0 & Hw). destruct (ch_settle_has s e0 H0) as (e1 & H1 & Hw1 & _).
    destruct (R1 s e1 H1) as (e2 & H2 & Hw2 & _). exists e2. split; [done|lia].
  - intros a ea b eb Ha Hb Hra Hrb. assert (qe_weight ea <= qe_weight e) as Hle.
    { destruct (R3 a ea Ha) as [H1|(? & _)]; [by eapply settle_removed|congruence]. }
    destruct (R3 b eb Hb) as [H1|(_ & (_ & Ht%HT'))]; [pose proof (settle_live b eb H1 Hrb)|]; lia.
  - intros a ea Ha Hra. destruct (R3 a ea Ha) as [H1|(? & _)]; [|congruence].
    apply ch_settle_lookup in H1 as (e0 & H0 & Hw & _ & [[-> _]|[Hne ->]]); [rewrite Hw; by simplify_eq|].
    destruct (sd_done _ _ _ HS a e0 H0 Hra) as [?|[(u & eu & w & Hu & Hst & Hlt)|Hrel]]; [left; lia|right; left|right; right].
    + destruct (ch_settle_has u eu Hu) as (e1 & H1 & Hw1 & _). destruct (R1 u e1 H1) as (e2 & H2 & Hw2 & _). exists u, e2, w. split; [done|]. split; [done|lia].
    + intros t w Hup. destruct (Hrel t w Hup) as (et & Ht & Hle). destruct (ch_settle_has t et Ht) as (e1 & H1 & Hw1 & _).
      destruct (R1 t e1 H1) as (e2 & H2 & Hw2 & _). exists e2. split; [done|lia].
Qed.
End settle.
End sides.

(** ** Both searches *)

Section run.
Context {G : Type} `{!Graph G EdgeData, !GraphLaws G EdgeData} (g : G).
Context {St H Handle : Type} `{SL : IndexStorageLaws St, HL : MutableHeapLaws H Handle}.
Abbreviation n := (graph_nodes g).
Context (start : bool -> Z -> Z -> Prop) (off maxw bound top : Z).
Implicit Types (q : QueryHeap St H Handle HeapData) (M : qmap) (DIRECTION : bool).

(** A way from a source to a target, and what it costs. *)
Definition route (W : Z) : Prop := exists s t ws wt p,
  start true s ws /\ start false t wt /\ walk (arc g) s t p /\ W = ws + p + wt.

Context (Hwf : graph_wf g) (Htargets : forall v x, 0 <= v < n -> x ∈ adjacency g v -> 0 <= target x < n).
Context (Hweights : forall v x, 0 <= v < n -> x ∈ adjacency g v -> 0 < weight (data x) <= maxw).
Context (Hoff : - 2 ^ 30 <= off <= 0) (Hstart : forall DIRECTION s w, start DIRECTION s w -> 0 <= s < n /\ off <= w).
Context (Hbound : forall DIRECTION s ws L v p, start DIRECTION s ws -> path (up g DIRECTION) s L v p -> ws + p <= bound).
Context (Hsmall : bound < 2 ^ 30) (Hsum : bound + maxw < 2 ^ 31) (Hnodes : 0 <= n <= SPECIAL_NODEID).
Context (Htop : top <= INT32_MAX).
(** Only a target behind its source on the same road makes the sum of offsets and weights negative. *)
Context (Hroute : forall s t ws wt p, start true s ws -> start false t wt -> walk (arc g) s t p -> 0 < p -> 0 <= ws + p + wt).

Definition edges_of (range : list Z) (es : list (DynamicEdge EdgeData)) : Prop :=
  Forall2 (fun e x => graph_target g e = Some (target x) /\ graph_data g e = Some (data x)) range es.

Lemma stall_edges_ok DIRECTION range es q M c r w :
  edges_of range es -> (forall x, x ∈ es -> 0 <= target x < n /\ 0 < weight (data x) <= maxw) -> good n q M c r ->
  (forall v e, M !! v = Some e -> - 2 ^ 30 <= qe_weight e <= bound) ->
  exists b, stall_edges DIRECTION g range w q = Some b /\
    (b = true -> exists x e, x ∈ es /\ usable (negb DIRECTION) (data x) = true /\ M !! target x = Some e /\
       qe_weight e + weight (data x) < w).
Proof using Hsum.
  intros HF. induction HF as [|e x range es [Ht Hd] HF IH]; intros Hes Hq Hlab; cbn [stall_edges]; [by exists false|].
  destruct IH as (b & Eb & Hb); [intros y Hy; apply Hes; by right|done..|].
  assert (exists b0, stall_edges DIRECTION g range w q = Some b0 /\ (b0 = true -> exists x0 e0, x0 ∈ x :: es /\
    usable (negb DIRECTION) (data x0) = true /\ M !! target x0 = Some e0 /\ qe_weight e0 + weight (data x0) < w)) as Hrest.
  { exists b. split; [done|]. intros (y & ey & Hy & ?)%Hb. exists y, ey. split; [by right|done]. }
  rewrite Hd. cbn [mbind option_bind]. destruct (usable (negb DIRECTION) (data x)) eqn:Eu; [|exact Hrest].
  rewrite Ht. cbn [mbind option_bind]. destruct (Hes x) as [Hx Hw]; [by left|].
  pose proof (GetHeapNodeIfWasInserted_spec q M (target x) (gd_repr _ _ _ _ _ Hq) (gd_valid _ _ _ _ _ Hq _ Hx)) as Hget.
  destruct (M !! target x) as [ex|] eqn:E; [|rewrite Hget; exact Hrest].
  destruct Hget as (i & hn & Hg & Hi & _ & He). rewrite Hg. cbn [mbind option_bind]. rewrite Hi. cbn [mbind option_bind].
  pose proof (Hlab _ _ E). assert (hn_weight hn = qe_weight ex) as -> by (by subst ex).
  unfold weight_add. rewrite swrap_small by lia.
  destruct (Z.ltb_spec (qe_weight ex + weight (data x)) w); [|exact Hrest]. exists true. split; [done|].
  intros _. exists x, ex. split; [by left|done].
Qed.

Lemma ch_relax_edges_ok DIRECTION node w range es q M c r :
  edges_of range es -> (forall x, x ∈ es -> 0 <= target x < n /\ 0 < weight (data x) <= maxw) ->
  - 2 ^ 30 <= w <= bound -> n + 1 < r -> good n q M c r -> (forall v e, M !! v = Some e -> 0 <= v < n) ->
  (forall v e, M !! v = Some e -> qe_removed e = true -> qe_weight e <= w) ->
  exists q', relax_edges DIRECTION g range node w q = Some q' /\ good n q' (relax_usable M DIRECTION es node w) c r.
Proof using Hsum Hnodes.
  intros HF. revert q M. induction HF as [|e x range es [Ht Hd] HF IH]; intros q M Hes Hw Hr Hq Hdom Hrem;
    cbn [relax_edges]; [by exists q|].
  rewrite Hd. cbn [mbind option_bind]. destruct (Hes x) as [Hx Hwx]; [by left|].
  assert (forall y, y ∈ es -> 0 <= target y < n /\ 0 < weight (data y) <= maxw) as Hes' by (intros y Hy; apply Hes; by right).
  rewrite relax_usable_cons. destruct (usable DIRECTION (data x)) eqn:Eu; [|by apply IH]. rewrite Ht. cbn [mbind option_bind].
  unfold weight_add. rewrite swrap_small by lia.
  assert (forall e0, M !! target x = Some e0 -> qe_removed e0 = true -> qe_weight e0 <= w + weight (data x)) as Hle
    by (intros e0 He0 Hr0; pose proof (Hrem _ _ He0 Hr0); lia).
  destruct (relax_ok n q M c r (target x) (w + weight (data x)) (mkHeapData node) Hq Hx) as (q1 & E1 & Hq1); [|done|].
  { assert (0 <= n) as Hn by lia. pose proof (size_bound n M Hn Hdom). lia. }
  unfold relax_to. rewrite E1. cbn [mbind option_bind]. pose proof (relax_map_relaxed M (target x) _ (mkHeapData node) Hle) as HR.
  apply IH; [done|done|done|done| |].
  - intros v e0 Hv. destruct (rx_new _ _ _ HR v e0 Hv) as [Ho|(_ & -> & _)]; [by eapply Hdom|done].
  - intros v e0 Hv Hr0. destruct (rx_new _ _ _ HR v e0 Hv) as [Ho|(? & _)]; [by eapply Hrem|congruence].
Qed.

(** The edges of a node. *)
Lemma node_edges v : 0 <= v < n -> exists range, graph_range g v = Some range /\ edges_of range (adjacency g v) /\
  forall x, x ∈ adjacency g v -> 0 <= target x < n /\ 0 < weight (data x) <= maxw.
Proof using Hwf Htargets Hweights.
  intros Hv. destruct (graph_range_ok g v Hwf Hv) as (range & E & HF). exists range. split; [done|]. split; [done|].
  intros x Hx. split; [by eapply Htargets|by eapply Hweights].
Qed.

Abbreviation side := (side g start off).

Lemma side_labels DIRECTION M ub : side DIRECTION M ub -> forall v e, M !! v = Some e -> - 2 ^ 30 <= qe_weight e <= bound.
Proof using Htargets Hweights Hbound Hoff.
  intros HS v e Hv. pose proof (sd_low _ _ _ _ _ _ HS v e Hv).
  pose proof (side_bound g start off maxw bound Htargets Hweights Hbound _ _ _ _ _ HS Hv). lia.
Qed.

(** A node both searches have reached is on a route; when its weight is
    negative, the node is a source and a target. *)
Lemma meeting_negative DIRECTION M M' ub ub' v e e' : side DIRECTION M ub -> side (negb DIRECTION) M' ub' ->
  M !! v = Some e -> M' !! v = Some e' -> qe_weight e + qe_weight e' < 0 ->
  start DIRECTION v (qe_weight e) /\ start (negb DIRECTION) v (qe_weight e').
Proof using Htargets Hweights Hroute.
  intros HS HS' Hv Hv' Hneg.
  destruct (side_walk g start off maxw Htargets Hweights _ _ _ _ _ HS Hv) as (s & ws & p & Hs & Hw & E).
  destruct (side_walk g start off maxw Htargets Hweights _ _ _ _ _ HS' Hv') as (t & wt & p' & Ht & Hw' & E').
  assert (forall D a b w, step g D a b w -> 0 < w) as Hpos.
  { intros D a b w Hst. destruct D, Hst as [Hx|Hx]; apply (up_weight g maxw Htargets Hweights) in Hx; lia. }
  pose proof (walk_positive _ _ _ _ (Hpos DIRECTION) Hw) as Hp. pose proof (walk_positive _ _ _ _ (Hpos (negb DIRECTION)) Hw') as Hp'.
  assert (p + p' <= 0) as Hle.
  { apply Z.nlt_ge. intros Hgt. apply walk_steps in Hw, Hw'. destruct DIRECTION; simpl in *.
    - pose proof (Hroute s t ws wt (p + p') Hs Ht (walk_app _ _ _ _ _ _ Hw Hw') Hgt). lia.
    - pose proof (Hroute t s wt ws (p' + p) Ht Hs (walk_app _ _ _ _ _ _ Hw' Hw) ltac:(lia)). lia. }
  destruct Hp as [[<- ->]|?], Hp' as [[<- ->]|?]; [|lia..]. by rewrite E, E', !Z.add_0_r.
Qed.

(** All starts have labels. *)
Definition started DIRECTION M : Prop := forall s w, start DIRECTION s w -> exists e, M !! s = Some e /\ qe_weight e <= w.

(** So a label that is lowered to a negative sum was as low before. *)
Lemma lowered_negative DIRECTION M M2 M' ub2 ub' v e e2 e' : started DIRECTION M -> side DIRECTION M2 ub2 -> side (negb DIRECTION) M' ub' ->
  M !! v = Some e -> M2 !! v = Some e2 -> M' !! v = Some e' -> qe_weight e2 <= qe_weight e -> qe_weight e2 + qe_weight e' < 0 ->
  qe_weight e2 = qe_weight e.
Proof using Htargets Hweights Hroute.
  intros HS HS2 HS' Hv Hv2 Hv' Hle Hneg. destruct (meeting_negative _ _ _ _ _ _ _ _ HS2 HS' Hv2 Hv' Hneg) as [Hst _].
  destruct (HS _ _ Hst) as (e0 & K0 & ?). simplify_eq. lia.
Qed.

(** What a settled node [v] of weight [sum] offers: the sum, or, when that is
    negative, a loop at [v] on top of it. *)
Definition loop_at (v l : Z) : Prop := up g true v v l /\ up g false v v l.

Definition offers (v sum W : Z) : Prop := (0 <= sum /\ W = sum) \/ (sum < 0 /\ exists l, loop_at v l /\ W = sum + l /\ 0 <= W).

(** The bound [ub] and the node [middle] it comes from. *)
Record met M M' (ub middle : Z) : Prop := {
  mt_least v e e' W : M !! v = Some e -> M' !! v = Some e' -> qe_removed e = true -> qe_removed e' = true ->
    offers v (qe_weight e + qe_weight e') W -> ub <= W;
  mt_middle : (ub = top /\ middle = SPECIAL_NODEID) \/
    (0 <= ub < top /\ exists e e', M !! middle = Some e /\ M' !! middle = Some e' /\
       (0 <= qe_weight e + qe_weight e' -> qe_weight e + qe_weight e' <= ub) /\
       (qe_weight e + qe_weight e' < 0 -> exists l, arc g middle middle l /\ ub = qe_weight e + qe_weight e' + l))
}.

Lemma met_sym M M' ub middle : met M M' ub middle -> met M' M ub middle.
Proof.
  intros [L D]. constructor.
  - intros v e e' W Hv Hv' Hr Hr' Ho. apply (L v e' e W Hv' Hv Hr' Hr). by rewrite Z.add_comm.
  - destruct D as [?|(? & e & e' & ? & ? & Hs)]; [by left|right]. split; [done|]. exists e', e. by rewrite Z.add_comm.
Qed.

Lemma met_ub M M' ub middle : met M M' ub middle -> ub <= top.
Proof. intros [_ [[-> _]|[? _]]]; lia. Qed.

(** The middle stays one when labels of one search are lowered. *)
Lemma met_lowered DIRECTION M M2 M' ub2 ub' ub middle : started DIRECTION M -> side DIRECTION M2 ub2 -> side (negb DIRECTION) M' ub' ->
  met M M' ub middle ->
  (forall v e, M !! v = Some e -> exists e2, M2 !! v = Some e2 /\ qe_weight e2 <= qe_weight e) ->
  (forall v e2 e' W, M2 !! v = Some e2 -> M' !! v = Some e' -> qe_removed e2 = true -> qe_removed e' = true ->
    offers v (qe_weight e2 + qe_weight e') W -> ub <= W) -> met M2 M' ub middle.
Proof using Htargets Hweights Hroute.
  intros HS HS2 HS' [_ D] Hlow L. constructor; [exact L|]. destruct D as [?|(? & e & e' & He & He' & Hs1 & Hs2)]; [by left|right].
  split; [done|]. destruct (Hlow _ _ He) as (e2 & He2 & Hle). exists e2, e'. split; [done|]. split; [done|].
  destruct (Z.lt_ge_cases (qe_weight e2 + qe_weight e') 0) as [Hneg|Hpos].
  - rewrite (lowered_negative _ _ _ _ _ _ _ _ _ _ HS HS2 HS' He He2 He' Hle Hneg) in Hneg |- *. split; [lia|]. intros _. by apply Hs2.
  - split; [intros _; specialize (Hs1 ltac:(lia)); lia|lia].
Qed.

(** The loops at a node whose sum is negative. *)
Lemma loop_edges_ok DIRECTION v new range es : edges_of range es -> new < 0 -> - 2 ^ 31 <= new ->
  (forall x, x ∈ es -> 0 < weight (data x) <= maxw) -> new + maxw < 2 ^ 31 -> forall mid ub,
  exists mid' ub', loop_edges DIRECTION g range v new mid ub = Some (mid', ub') /\ ub' <= ub /\
    (forall x, x ∈ es -> usable DIRECTION (data x) = true -> target x = v -> 0 <= new + weight (data x) -> ub' <= new + weight (data x)) /\
    ((mid' = mid /\ ub' = ub) \/
     (mid' = v /\ 0 <= ub' < ub /\ exists x, x ∈ es /\ usable DIRECTION (data x) = true /\ target x = v /\ ub' = new + weight (data x))).
Proof.
  intros HF Hneg Hlow Hw Hmax. induction HF as [|e x range es [Ht Hd] HF IH]; intros mid ub; cbn [loop_edges].
  { exists mid, ub. split; [done|]. split; [lia|]. split; [by intros x ?%elem_of_nil|by left]. }
  rewrite Hd. cbn [mbind option_bind]. pose proof (Hw x ltac:(by left)).
  specialize (IH (fun y Hy => Hw y ltac:(by right))).
  assert (forall mid1 ub1, ub1 <= ub ->
    (usable DIRECTION (data x) = true -> target x = v -> 0 <= new + weight (data x) -> ub1 <= new + weight (data x)) ->
    ((mid1 = mid /\ ub1 = ub) \/ (mid1 = v /\ 0 <= ub1 < ub /\ usable DIRECTION (data x) = true /\ target x = v /\ ub1 = new + weight (data x))) ->
    exists mid' ub', loop_edges DIRECTION g range v new mid1 ub1 = Some (mid', ub') /\ ub' <= ub /\
    (forall y, y ∈ x :: es -> usable DIRECTION (data y) = true -> target y = v -> 0 <= new + weight (data y) -> ub' <= new + weight (data y)) /\
    ((mid' = mid /\ ub' = ub) \/
     (mid' = v /\ 0 <= ub' < ub /\ exists y, y ∈ x :: es /\ usable DIRECTION (data y) = true /\ target y = v /\ ub' = new + weight (data y)))) as Hnext.
  { intros mid1 ub1 Hle Hx Hsrc. destruct (IH mid1 ub1) as (mid' & ub' & E & Hle' & Hall & Hfrom). exists mid', ub'. split; [done|]. split; [lia|]. split.
    - intros y [->|Hy]%elem_of_cons Hu Hty Hge0; [specialize (Hx Hu Hty Hge0); lia|by apply Hall].
    - destruct Hfrom as [[-> ->]|(-> & Hb & y & Hy & Hy')].
      + destruct Hsrc as [?|(-> & ? & ? & ? & ?)]; [by left|right]. split; [done|]. split; [done|]. exists x. split; [by left|done].
      + right. split; [done|]. split; [lia|]. exists y. split; [by right|done]. }
  destruct (usable DIRECTION (data x)) eqn:Eu; [|apply Hnext; [lia|done|by left]].
  rewrite Ht. cbn [mbind option_bind]. unfold weight_add. rewrite swrap_small by lia.
  destruct (Z.eqb_spec (target x) v) as [Hv|Hv]; cbn [andb]; [|apply Hnext; [lia|done|by left]].
  destruct (Z.leb_spec 0 (new + weight (data x))); cbn [andb]; [|apply Hnext; [lia|lia|by left]].
  destruct (Z.ltb_spec (new + weight (data x)) ub); (apply Hnext; [lia|lia|]); [right; split_and!; [done|lia|lia|done|done|done]|by left].
Qed.

(** [routingStep] with the node it settles. *)
Section routing_step.
Context DIRECTION M M' (v : Z) (e : qentry HeapData) (ub middle : Z).
Context (HS : side DIRECTION M ub) (HS' : side (negb DIRECTION) M' ub) (Hmet : met M M' ub middle).
Context (Hv : M !! v = Some e) (Hlive : qe_removed e = false).
Context (Hmin : forall v' e', M !! v' = Some e' -> qe_removed e' = false -> qe_weight e <= qe_weight e').
Let M1 : qmap := <[v := mkQentry (qe_weight e) (qe_data e) true]> M.

(** The new bound and middle after the other search has been asked for [v]. *)
Lemma meet_ok (hn : HeapNode Handle HeapData) q' c' r' :
  good n q' M' c' r' -> hn_node hn = v -> entry_of hn = mkQentry (qe_weight e) (qe_data e) true ->
  exists i mid ub', GetHeapNodeIfWasInserted q' v = Some i /\
    match i with
    | Some i => hn' ← inserted_nodes q' !z i; meet DIRECTION g hn (hn_weight hn') middle ub [] []
    | None => Some (middle, ub)
    end = Some (mid, ub') /\ ub' <= ub /\ met M1 M' ub' mid.
Proof using HS HS' Hmet Hv Hlive Hwf Htargets Hweights Hbound Hoff Hsmall Hsum Htop Hroute.
  intros Hq' Hn He. pose proof (sd_dom _ _ _ _ _ _ HS v e Hv) as Hvn.
  pose proof (GetHeapNodeIfWasInserted_spec q' M' v (gd_repr _ _ _ _ _ Hq') (gd_valid _ _ _ _ _ Hq' _ Hvn)) as Hget.
  assert (hn_weight hn = qe_weight e) as Hwe by (unfold entry_of in He; congruence).
  assert (forall ub' mid, ub' <= ub -> (forall e' W, M' !! v = Some e' -> offers v (qe_weight e + qe_weight e') W -> ub' <= W) ->
    ((mid = middle /\ ub' = ub) \/ (mid = v /\ 0 <= ub' < ub /\ exists e', M' !! v = Some e' /\
       (0 <= qe_weight e + qe_weight e' -> ub' = qe_weight e + qe_weight e') /\
       (qe_weight e + qe_weight e' < 0 -> exists l, arc g v v l /\ ub' = qe_weight e + qe_weight e' + l))) ->
    met M1 M' ub' mid) as Hnew.
  { intros ub' mid Hle Hl Hm. pose proof (met_ub _ _ _ _ Hmet). constructor.
    - intros v' e1 e' W (e0 & K0 & -> & _ & [[-> _]|[Hne ->]])%(ch_settle_lookup M v e Hv) Hv' Hr Hr' Ho.
      + simplify_eq. by eapply Hl.
      + pose proof (mt_least _ _ _ _ Hmet v' e0 e' W K0 Hv' Hr Hr' Ho). lia.
    - destruct Hm as [[-> ->]|(-> & Hlt & e' & Hv' & Hs1 & Hs2)].
      + destruct (mt_middle _ _ _ _ Hmet) as [?|(? & e1 & e2 & K1 & K2 & Hs)]; [by left|right]. split; [done|].
        destruct (ch_settle_has M v e Hv Hlive middle e1 K1) as (e3 & K3 & Hw3 & _). exists e3, e2. by rewrite Hw3.
      + right. split; [lia|]. exists (mkQentry (qe_weight e) (qe_data e) true), e'. split; [apply lookup_insert_eq|]. split; [done|].
        simpl. split; [|done]. intros Hp%Hs1. lia. }
  destruct (M' !! v) as [e'|] eqn:E'.
  2:{ exists None, middle, ub. split; [done|]. split; [done|]. split; [lia|]. apply Hnew; [lia|done|by left]. }
  destruct Hget as (i & hn' & Hg & Hi & _ & He'). exists (Some i).
  assert (hn_weight hn' = qe_weight e') as Hw' by (by subst e'). rewrite Hi. cbn [mbind option_bind]. unfold meet. rewrite Hw', Hwe.
  pose proof (side_labels _ _ _ HS v e Hv). pose proof (side_labels _ _ _ HS' v e' E').
  unfold weight_add. rewrite swrap_small by lia.
  destruct (Z.ltb_spec (qe_weight e' + qe_weight e) ub) as [Hlt|Hge].
  2:{ exists middle, ub. split; [done|]. split; [done|]. split; [lia|]. apply Hnew; [lia| |by left].
      intros e0 W [= <-] [[_ ->]|(_ & l & [Hl _] & -> & _)]; [lia|]. apply (up_weight g maxw Htargets Hweights) in Hl. lia. }
  rewrite !force_loop_nil, Hn. simpl. destruct (Z.ltb_spec (qe_weight e' + qe_weight e) 0) as [Hneg|Hpos].
  - destruct (node_edges v Hvn) as (range & -> & HF & Hes). cbn [mbind option_bind].
    destruct (loop_edges_ok DIRECTION v (qe_weight e' + qe_weight e) range (adjacency g v) HF Hneg ltac:(lia)
      (fun x Hx => proj2 (Hes x Hx)) ltac:(lia) middle ub) as (mid & ub' & E & Hle & Hall & Hfrom).
    exists mid, ub'. split; [done|]. split; [done|]. split; [done|]. apply Hnew; [done| |].
    + intros e0 W [= <-] [[? _]|(_ & l & [Hf Hb] & -> & Hge0)]; [lia|]. assert (up g DIRECTION v v l) as (_ & x & Hx & Ht & Hu & <-) by (by destruct DIRECTION).
      rewrite (Z.add_comm (qe_weight e)) in *. by apply Hall.
    + destruct Hfrom as [?|(-> & Hb & x & Hx & Hu & Ht & ->)]; [by left|right]. split; [done|]. split; [done|]. exists e'. split; [done|].
      split; [lia|]. intros _. exists (weight (data x)). split; [|lia].
      assert (step g DIRECTION v v (weight (data x))) as Hst by (apply up_step; split; [done|by exists x]). by destruct DIRECTION.
  - exists v, (qe_weight e' + qe_weight e). split; [done|]. split; [done|]. split; [lia|].
    apply Hnew; [lia|intros e0 W [= <-] [[_ ->]|[? _]]; lia|]. right. split; [done|]. split; [lia|]. exists e'. split; [done|]. split; lia.
Qed.

(** Relaxing the edges of the settled node keeps the bound. *)
Lemma met_relaxed M2 T ub' mid : relaxed_from M1 M2 v T -> side DIRECTION M2 ub' -> met M1 M' ub' mid -> met M2 M' ub' mid.
Proof using HS HS' Hv Hlive Htargets Hweights Hroute.
  intros [R1 R2 R3 R4] HS2 HM. eapply met_lowered; [|exact HS2|exact HS'|exact HM|..].
  - intros s w Hs. destruct (sd_start _ _ _ _ _ _ HS s w Hs) as (e0 & K0 & ?).
    destruct (ch_settle_has M v e Hv Hlive s e0 K0) as (e1 & K1 & Hw1 & _). exists e1. split; [done|lia].
  - intros a ea Ha. destruct (R1 a ea Ha) as (e2 & K2 & Hle & _). by exists e2.
  - intros a ea e' W Ha Ha' Hr Hr'. destruct (R3 a ea Ha) as [K1|(? & _)]; [by apply (mt_least _ _ _ _ HM a ea e' W)|congruence].
Qed.

Definition all_removed M : qmap := (fun e => mkQentry (qe_weight e) (qe_data e) true) <$> M.

Lemma all_removed_lookup M0 a ea : all_removed M0 !! a = Some ea <-> exists e0, M0 !! a = Some e0 /\ ea = mkQentry (qe_weight e0) (qe_data e0) true.
Proof. unfold all_removed. rewrite lookup_fmap, fmap_Some. naive_solver. Qed.

(** Giving up: all nodes that are still queued are too far away. *)
Lemma queue_abandoned ub' mid : ub' <= ub -> met M1 M' ub' mid -> ub' < qe_weight e + off ->
  side DIRECTION (all_removed M1) ub' /\ met (all_removed M1) M' ub' mid.
Proof using HS HS' Hv Hlive Hmin Htargets Hweights Hoff Hstart Hnodes.
  intros Hub HM Hfar.
  assert (side DIRECTION M1 ub') as [A1 A2 A3 A4 A5 A6].
  { eapply (settle_side g start off maxw Htargets Hweights DIRECTION M v e ub HS Hv Hlive Hmin M1 (fun _ _ => False));
      [apply relaxed_refl; by intros ? ? ? [_ []]|done|by intros ? ? []|by left]. }
  split; [constructor|constructor].
  - intros a ea (e0 & K0 & ->)%all_removed_lookup. by eapply A1.
  - intros a ea (e0 & K0 & ->)%all_removed_lookup. exact (A2 a e0 K0).
  - intros a ea (e0 & K0 & ->)%all_removed_lookup. destruct (A3 a e0 K0) as [?|(u & eu & w & Hu & Hr & ?)]; [by left|right].
    exists u, (mkQentry (qe_weight eu) (qe_data eu) true), w. split; [apply all_removed_lookup; by exists eu|done].
  - intros s w Hs. destruct (A4 s w Hs) as (e0 & K0 & ?). exists (mkQentry (qe_weight e0) (qe_data e0) true).
    split; [apply all_removed_lookup; by exists e0|done].
  - by intros a ea b eb _ (e0 & _ & ->)%all_removed_lookup.
  - intros a ea (e0 & K0 & ->)%all_removed_lookup _. simpl. destruct (qe_removed e0) eqn:Er.
    + destruct (A6 a e0 K0 Er) as [?|[(u & eu & w & Hu & ?)|Hrel]]; [by left|right; left|right; right].
      * exists u, (mkQentry (qe_weight eu) (qe_data eu) true), w. split; [apply all_removed_lookup; by exists eu|done].
      * intros t w Hup. destruct (Hrel t w Hup) as (et & Ht & ?). exists (mkQentry (qe_weight et) (qe_data et) true).
        split; [apply all_removed_lookup; by exists et|done].
    + left. pose proof (settle_live M v e Hv Hmin a e0 K0 Er). lia.
  - intros a ea e' W (e0 & K0 & ->)%all_removed_lookup Ha' _ Hr'. simpl. destruct (qe_removed e0) eqn:Er; [by apply (mt_least _ _ _ _ HM a e0 e' W)|].
    pose proof (settle_live M v e Hv Hmin a e0 K0 Er). pose proof (sd_low _ _ _ _ _ _ HS' a e' Ha').
    intros [[_ ->]|(_ & l & [Hl _] & -> & _)]; [lia|]. apply (up_weight g maxw Htargets Hweights) in Hl. lia.
  - destruct (mt_middle _ _ _ _ HM) as [?|(? & e1 & e2 & K1 & K2 & ?)]; [by left|right]. split; [done|].
    exists (mkQentry (qe_weight e1) (qe_data e1) true), e2. split; [apply all_removed_lookup; by exists e1|done].
Qed.
End routing_step.

Lemma routingStep_ok DIRECTION q q' M M' c r c' r' ub middle :
  good n q M c r -> good n q' M' c' r' -> n + 1 < r -> side DIRECTION M ub -> side (negb DIRECTION) M' ub -> met M M' ub middle ->
  Empty q = false ->
  exists q2 M2 mid ub', routingStep DIRECTION true g q q' middle ub off [] [] = Some (q2, mid, ub') /\ good n q2 M2 c r /\
    side DIRECTION M2 ub' /\ side (negb DIRECTION) M' ub' /\ met M2 M' ub' mid /\ (size (settled_set M) < size (settled_set M2))%nat.
Proof using Hwf Htargets Hweights Hoff Hstart Hbound Hsmall Hsum Hnodes Htop Hroute.
  intros Hq Hq' Hroom HS HS' Hmet Hne. pose proof (gd_repr _ _ _ _ _ Hq) as R.
  destruct (DeleteMinGetHeapNode_spec q M R) as (hn & e & q1 & E1 & Hv & Hlive & Hen & Hmin & R1 & Hni).
  { by apply (nonempty_live q). }
  unfold routingStep. rewrite E1. cbn [mbind option_bind]. rewrite Hen in R1.
  set (v := hn_node hn) in *. set (M1 := <[v := mkQentry (qe_weight e) (qe_data e) true]> M) in *.
  assert (good n q1 M1 c r) as Hq1 by (by eapply good_keep).
  destruct (meet_ok DIRECTION M M' v e ub middle HS HS' Hmet Hv Hlive hn q' c' r' Hq' eq_refl Hen) as (i & mid & ub' & Ei & Em & Hub & Hmet1).
  rewrite Ei. cbn [mbind option_bind]. rewrite Em. cbn [mbind option_bind].
  assert (side (negb DIRECTION) M' ub') as HS1' by (by eapply side_ub).
  pose proof (sd_dom _ _ _ _ _ _ HS v e Hv) as Hvn. pose proof (side_labels _ _ _ HS v e Hv) as Hlab.
  assert (hn_weight hn = qe_weight e) as -> by (unfold entry_of in Hen; congruence).
  unfold weight_add at 1. rewrite swrap_small by lia. destruct (Z.ltb_spec ub' (qe_weight e + off)) as [Hfar|Hnear].
  { exists (DeleteAll q1), (all_removed M1), mid, ub'. split; [done|].
    destruct (queue_abandoned DIRECTION M M' v e ub HS HS' Hv Hlive Hmin ub' mid Hub Hmet1 Hfar) as [HS2 Hmet2].
    split; [by eapply good_keep; [exact Hq1|apply DeleteAll_spec; apply Hq1|done]|]. do 3 (split; [done|]).
    apply (settled_grows M _ v e Hv Hlive). intros a ea Ha _. eexists. split; [apply all_removed_lookup; by exists ea|done]. }
  destruct (node_edges v Hvn) as (range & Er & HF & Hes).
  assert (forall a ea, M1 !! a = Some ea -> - 2 ^ 30 <= qe_weight ea <= bound) as Hlab1.
  { intros a ea (e0 & K0 & -> & _)%(ch_settle_lookup M v e Hv). by eapply (side_labels _ _ _ HS). }
  destruct (stall_edges_ok DIRECTION range (adjacency g v) q1 M1 c r (qe_weight e) HF Hes Hq1 Hlab1) as (b & Eb & Hb).
  unfold stallAtNode. fold v. rewrite Er. cbn [mbind option_bind].
  assert (hn_weight hn = qe_weight e) as Ewn by (unfold entry_of in Hen; congruence).
  rewrite Ewn, Eb. cbn [mbind option_bind]. destruct b.
  - exists q1, M1, mid, ub'. split; [done|]. split; [done|]. split.
    { eapply (settle_side g start off maxw Htargets Hweights DIRECTION M v e ub HS Hv Hlive Hmin M1 (fun _ _ => False));
        [apply relaxed_refl; by intros ? ? ? [_ []]|done|by intros ? ? []|].
      right; left. destruct (Hb eq_refl) as (x & ex & Hx & Hu & Hex & Hlt). exists (target x), ex, (weight (data x)).
      split; [done|]. split; [|done]. apply down_step. split; [done|]. by exists x. }
    split; [done|]. split; [done|]. apply (settled_grows M _ v e Hv Hlive). intros a ea Ha Hra. by exists ea.
  - unfold relaxOutgoingEdges. fold v. rewrite Er, Ewn. cbn [mbind option_bind].
    assert (forall a ea, M1 !! a = Some ea -> qe_removed ea = true -> qe_weight ea <= qe_weight e) as Hrem
      by (intros a ea; apply (settle_removed g start off DIRECTION M v e ub HS Hv Hlive)).
    destruct (ch_relax_edges_ok DIRECTION v (qe_weight e) range (adjacency g v) q1 M1 c r) as (q2 & E2 & Hq2); try done.
    { intros a ea (e0 & K0 & _)%(ch_settle_lookup M v e Hv). by eapply (sd_dom _ _ _ _ _ _ HS). }
    rewrite E2. cbn [mbind option_bind]. set (M2 := relax_usable M1 DIRECTION (adjacency g v) v (qe_weight e)) in *.
    pose proof (relax_usable_relaxed DIRECTION (adjacency g v) v (qe_weight e) (fun x Hx => proj1 (proj2 (Hes x Hx))) M1 Hrem) as HR. fold M2 in HR.
    assert (side DIRECTION M2 ub') as HS2.
    { eapply (settle_side g start off maxw Htargets Hweights DIRECTION M v e ub HS Hv Hlive Hmin M2); [exact HR|done|..].
      - intros t w (x & Hx & Hu & <- & ->). exists (weight (data x)). split; [|done]. split; [done|]. by exists x.
      - right; right. intros t w (_ & x & Hx & <- & Hu & <-). apply (rx_reached _ _ _ HR _ _ (mkHeapData v)). split; [done|]. by exists x. }
    exists q2, M2, mid, ub'. split; [done|]. split; [done|]. split; [done|]. split; [done|]. split.
    { by eapply (met_relaxed DIRECTION M M' v e ub HS HS' Hv Hlive M2). }
    apply (settled_grows M _ v e Hv Hlive). intros a ea Ha Hra. exists ea. split; [|done]. by apply (rx_settled _ _ _ HR).
Qed.

(** Both searches with what they have found. *)
Record searching (F R : qmap) (ub middle : Z) : Prop := {
  sr_forward : side true F ub; sr_reverse : side false R ub; sr_met : met F R ub middle }.

Definition unsettled (F R : qmap) : Z := 2 * n - Z.of_nat (size (settled_set F)) - Z.of_nat (size (settled_set R)).

Lemma step_forward q q' F R c r c' r' ub middle :
  good n q F c r -> good n q' R c' r' -> n + 1 < r -> searching F R ub middle ->
  exists q2 F2 mid ub', (if Empty q then Some (q, middle, ub)
     else routingStep FORWARD_DIRECTION true g q q' middle ub off [] []) = Some (q2, mid, ub') /\
    good n q2 F2 c r /\ searching F2 R ub' mid /\ unsettled F2 R + (if Empty q then 0 else 1) <= unsettled F R.
Proof using Hwf Htargets Hweights Hoff Hstart Hbound Hsmall Hsum Hnodes Htop Hroute.
  intros Hq Hq' Hroom [HF HR Hm]. destruct (Empty q) eqn:E; [exists q, F, middle, ub; split_and!; [done|done|done|lia]|].
  destruct (routingStep_ok true q q' F R c r c' r' ub middle) as (q2 & F2 & mid & ub' & E2 & Hq2 & S1 & S2 & Hm2 & Hsz); try done.
  exists q2, F2, mid, ub'. split; [done|]. split; [done|]. split; [done|]. unfold unsettled. lia.
Qed.

Lemma step_reverse q q' F R c r c' r' ub middle :
  good n q R c r -> good n q' F c' r' -> n + 1 < r -> searching F R ub middle ->
  exists q2 R2 mid ub', (if Empty q then Some (q, middle, ub)
     else routingStep REVERSE_DIRECTION true g q q' middle ub off [] []) = Some (q2, mid, ub') /\
    good n q2 R2 c r /\ searching F R2 ub' mid /\ unsettled F R2 + (if Empty q then 0 else 1) <= unsettled F R.
Proof using Hwf Htargets Hweights Hoff Hstart Hbound Hsmall Hsum Hnodes Htop Hroute.
  intros Hq Hq' Hroom [HF HR Hm]. destruct (Empty q) eqn:E; [exists q, R, middle, ub; split_and!; [done|done|done|lia]|].
  destruct (routingStep_ok false q q' R F c r c' r' ub middle) as (q2 & R2 & mid & ub' & E2 & Hq2 & S1 & S2 & Hm2 & Hsz); try done.
  { by apply met_sym. }
  exists q2, R2, mid, ub'. split; [done|]. split; [done|]. split; [constructor; [done|done|by apply met_sym]|]. unfold unsettled. lia.
Qed.

Lemma ch_search_loop_ok fuel : forall q q' F R c r c' r' ub middle,
  good n q F c r -> good n q' R c' r' -> n + 1 < r -> n + 1 < r' -> searching F R ub middle ->
  unsettled F R < Z.of_nat fuel ->
  exists q2 q2' F2 R2 mid ub', search_loop fuel g q q' middle ub off [] [] = Some (q2, q2', mid, ub') /\
    good n q2 F2 c r /\ good n q2' R2 c' r' /\ searching F2 R2 ub' mid /\
    (forall v e, F2 !! v = Some e -> qe_removed e = true) /\ (forall v e, R2 !! v = Some e -> qe_removed e = true).
Proof using Hwf Htargets Hweights Hoff Hstart Hbound Hsmall Hsum Hnodes Htop Hroute.
  induction fuel as [|fuel IH]; intros q q' F R c r c' r' ub middle Hq Hq' Hr Hr' HS Hfuel.
  { destruct HS as [HF HR _]. unfold unsettled in Hfuel. assert (0 <= n) as Hn by lia.
    pose proof (settled_set_size n F Hn (sd_dom _ _ _ _ _ _ HF)). pose proof (settled_set_size n R Hn (sd_dom _ _ _ _ _ _ HR)). lia. }
  cbn [search_loop]. destruct (Size_Empty q F (gd_repr _ _ _ _ _ Hq)) as [Hs1 Hs2]. destruct (Size_Empty q' R (gd_repr _ _ _ _ _ Hq')) as [Hs1' Hs2'].
  destruct (Z.ltb_spec 0 (Size q + Size q')) as [Hgo|Hstop].
  2:{ exists q, q', F, R, middle, ub. split; [done|]. do 3 (split; [done|]).
      split; [apply (Empty_spec q F (gd_repr _ _ _ _ _ Hq))|apply (Empty_spec q' R (gd_repr _ _ _ _ _ Hq'))]; [apply Hs2|apply Hs2']; lia. }
  destruct (step_forward q q' F R c r c' r' ub middle) as (q2 & F2 & mid & ub1 & -> & Hq2 & HS2 & Hd2); try done. cbn [mbind option_bind].
  destruct (step_reverse q' q2 F2 R c' r' c r ub1 mid) as (q3 & R3 & mid3 & ub3 & -> & Hq3 & HS3 & Hd3); try done. cbn [mbind option_bind].
  apply (IH q2 q3 F2 R3 c r c' r' ub3 mid3); try done. assert (Empty q = false \/ Empty q' = false) as Hor.
  { destruct (Empty q), (Empty q'); try (by left); try (by right). assert (Size q = 0) by (by apply Hs2). assert (Size q' = 0) by (by apply Hs2'). lia. }
  destruct Hor as [E|E]; rewrite E in *; [destruct (Empty q')|destruct (Empty q)]; lia.
Qed.

(** ** The path *)

Lemma traced_head DIRECTION M v L : traced g start DIRECTION M v L -> exists L', L = v :: L'.
Proof. destruct 1; eauto. Qed.

Lemma traced_len DIRECTION M ub v L : side DIRECTION M ub -> traced g start DIRECTION M v L -> zlen L <= n.
Proof using Htargets Hweights Hnodes.
  intros HS HT. assert (exists e, M !! v = Some e) as [e Hv] by (destruct HT; eauto).
  destruct (traced_path g start maxw Htargets Hweights _ _ _ _ _ HT Hv) as (s & ws & p & _ & HP & _ & Hx).
  apply nodup_range_len; [lia| |].
  - by eapply (path_weight (up g DIRECTION) n maxw); [..|exact HP]; intros a b w Hw; apply (up_weight g maxw Htargets Hweights) in Hw; lia.
  - intros x (ex & Hex & _)%Hx. by eapply (sd_dom _ _ _ _ _ _ HS).
Qed.

(** Walking back finds the traced nodes. *)
Lemma retrieve_traced DIRECTION M ub q c r v L fuel : side DIRECTION M ub -> good n q M c r -> traced g start DIRECTION M v L ->
  zlen L <= Z.of_nat fuel -> retrievePackedPathFromSingleHeap fuel q v = Some (tail L).
Proof using Htargets Hweights.
  intros HS Hq HT. revert fuel. pose proof (gd_repr _ _ _ _ _ Hq) as R.
  induction HT as [v e Hv Hp Hs|u v eu e w L HT IH Hu Hv Hp Hup Hw]; intros [|fuel] Hf;
    try (rewrite zlen_cons in Hf; pose proof (zlen_nonneg L); lia); try (unfold zlen in Hf; simpl in Hf; lia);
    cbn [retrievePackedPathFromSingleHeap]; rewrite (GetData_spec _ _ _ _ R Hv); cbn [mbind option_bind]; rewrite Hp.
  - by rewrite Z.eqb_refl.
  - pose proof (up_weight g maxw Htargets Hweights _ _ _ _ Hup) as (_ & _ & Hpos).
    destruct (Z.eqb_spec v u) as [->|Hne]; [simplify_eq; lia|].
    rewrite (WasInserted_spec q M u R) by (apply (gd_valid _ _ _ _ _ Hq); by eapply (sd_dom _ _ _ _ _ _ HS)).
    rewrite (bool_decide_eq_true_2 (is_Some (M !! u))) by eauto. cbn [mbind option_bind].
    rewrite IH by (rewrite zlen_cons in Hf; lia). cbn [mbind option_bind]. by destruct (traced_head _ _ _ _ HT) as [L' ->].
Qed.

Lemma traced_chain DIRECTION M v L e : traced g start DIRECTION M v L -> M !! v = Some e ->
  exists s ws p, start DIRECTION s ws /\ last L = Some s /\ qe_weight e = ws + p /\
    chain (fun a b => step g DIRECTION b a) L p.
Proof.
  intros HT. revert e. induction HT as [v e0 Hv Hp Hs|u v eu e0 w L HT IH Hu Hv Hp Hup Hw]; intros e He; assert (e0 = e) as -> by congruence.
  - exists v, (qe_weight e), 0. split_and!; [done|done|lia|constructor].
  - destruct (IH eu Hu) as (s & ws & p & Hs & Hl & Ep & Hc). destruct (traced_head _ _ _ _ HT) as [L' ->].
    exists s, ws, (w + p). split; [done|]. split; [done|]. split; [lia|]. constructor; [by apply up_step|done].
Qed.

(** A route with the nodes it leads over. *)
Definition route_along (leg : list Z) (W : Z) : Prop := exists s t ws wt p,
  start true s ws /\ start false t wt /\ head leg = Some s /\ last leg = Some t /\ chain (arc g) leg p /\ W = ws + p + wt.

Lemma retrieve_ok F R ub ub' q q' c r c' r' v e e' : side true F ub -> side false R ub' -> good n q F c r -> good n q' R c' r' ->
  F !! v = Some e -> R !! v = Some e' ->
  exists leg, retrievePackedPathFromHeap (search_fuel g) q q' v = Some leg /\ route_along leg (qe_weight e + qe_weight e').
Proof using Htargets Hweights Hnodes.
  intros HF HR Hq Hq' Hv Hv'.
  destruct (side_traced g start off maxw Htargets Hweights _ _ _ _ _ HF Hv) as [L HT].
  destruct (side_traced g start off maxw Htargets Hweights _ _ _ _ _ HR Hv') as [L' HT'].
  pose proof (traced_len _ _ _ _ _ HF HT). pose proof (traced_len _ _ _ _ _ HR HT').
  unfold retrievePackedPathFromHeap. rewrite (retrieve_traced true F ub q c r v L) by (done || unfold search_fuel; lia).
  rewrite (retrieve_traced false R ub' q' c' r' v L') by (done || unfold search_fuel; lia). cbn [mbind option_bind].
  destruct (traced_chain _ _ _ _ _ HT Hv) as (s & ws & p & Hs & Hl & -> & Hc).
  destruct (traced_chain _ _ _ _ _ HT' Hv') as (t & wt & p' & Ht & Hl' & -> & Hc').
  destruct (traced_head _ _ _ _ HT) as [K ->]. destruct (traced_head _ _ _ _ HT') as [K' ->]. simpl tail in *.
  eexists. split; [done|]. exists s, t, ws, wt, (p + p'). split; [done|]. split; [done|].
  apply chain_reverse in Hc. rewrite reverse_cons in Hc. split; [|split; [|split; [|lia]]].
  - by rewrite app_assoc, <- reverse_cons, head_app, head_reverse, Hl.
  - rewrite last_app. change ([v] ++ K') with (v :: K'). by rewrite Hl'.
  - by apply (chain_app (arc g) (reverse K) v K').
Qed.

(** ** Nothing lighter exists *)

Section least.
(** On the way up to [m], which is lightest for [s], all nodes have been
    relaxed unless they are too far away. *)
Lemma climb DIRECTION M ub s ws m : side DIRECTION M ub -> (forall v e, M !! v = Some e -> qe_removed e = true) -> start DIRECTION s ws ->
  forall u p, walk (up g DIRECTION) s u p -> forall pr, walk (step g DIRECTION) u m pr ->
  (forall s' ws' p', start DIRECTION s' ws' -> walk (step g DIRECTION) s' m p' -> ws + (p + pr) <= ws' + p') ->
  ws + (p + pr) + off <= ub -> exists e, M !! u = Some e /\ qe_weight e <= ws + p.
Proof using Htargets Hweights.
  intros HS Hall Hs u p Hw.
  assert (forall a b w, step g DIRECTION a b w -> 0 <= w) as Hnn.
  { intros a b w Hst. destruct DIRECTION, Hst as [Hx|Hx]; apply (up_weight g maxw Htargets Hweights) in Hx; lia. }
  induction Hw as [v|s u t p w Hw IH Hup]; intros pr Hpr Hleast Hlim.
  { destruct (sd_start _ _ _ _ _ _ HS _ _ Hs) as (e & He & Hle). exists e. split; [done|lia]. }
  pose proof (up_weight g maxw Htargets Hweights _ _ _ _ Hup) as (_ & _ & Hpos).
  pose proof (walk_nonneg _ _ _ _ Hnn Hpr).
  destruct (IH Hs (w + pr)) as (e & He & Hle).
  { eapply walk_app; [apply walk_edge, up_step; exact Hup|done]. }
  { intros s' ws' p' Hs' Hp'. pose proof (Hleast s' ws' p' Hs' Hp'). lia. }
  { lia. }
  destruct (sd_done _ _ _ _ _ _ HS u e He (Hall u e He)) as [Hfar|[(x & ex & w' & Hx & Hst & Hlt)|Hrel]]; [lia| |].
  - exfalso. destruct (side_walk g start off maxw Htargets Hweights _ _ _ _ _ HS Hx) as (s' & ws' & p' & Hs' & Hp' & Ex).
    assert (ws + (p + w + pr) <= ws' + (p' + w' + w + pr)); [|lia]. apply (Hleast s'); [done|].
    eapply walk_app; [|exact Hpr]. eapply walk_snoc; [|apply up_step; exact Hup]. by eapply walk_snoc.
  - destruct (Hrel t w Hup) as (et & Ht & Hle'). exists et. split; [done|lia].
Qed.

(** Two climbing walks that meet in [m], both of them lightest, offer the sum
    of their weights, or that and a loop at [m] when the sum is negative. *)
Definition peak (m wf wr : Z) : Prop :=
  (exists s ws pu, start true s ws /\ walk (up g true) s m pu /\ wf = ws + pu) /\
  (exists t wt pd, start false t wt /\ walk (up g false) t m pd /\ wr = wt + pd) /\
  (forall s' ws' p', start true s' ws' -> walk (arc g) s' m p' -> wf <= ws' + p') /\
  (forall t' wt' p', start false t' wt' -> walk (arc g) m t' p' -> wr <= wt' + p').

Definition offered (W : Z) : Prop := exists m wf wr, peak m wf wr /\ offers m (wf + wr) W.

(** A climbing walk that is lightest has been followed. *)
Lemma peak_label DIRECTION M ub s ws m pu : side DIRECTION M ub -> (forall v e, M !! v = Some e -> qe_removed e = true) ->
  start DIRECTION s ws -> walk (up g DIRECTION) s m pu ->
  (forall s' ws' p', start DIRECTION s' ws' -> walk (step g DIRECTION) s' m p' -> ws + pu <= ws' + p') ->
  ws + pu + off <= ub -> exists e, M !! m = Some e /\ qe_weight e = ws + pu.
Proof using Htargets Hweights.
  intros HS Hall Hs Hw Hleast Hlim. destruct (climb DIRECTION M ub s ws m HS Hall Hs m pu Hw 0) as (e & He & Hle); [constructor| |lia|].
  { intros s' ws' p' Hs' Hp'. rewrite Z.add_0_r. by apply (Hleast s'). }
  exists e. split; [done|]. destruct (side_walk g start off maxw Htargets Hweights _ _ _ _ _ HS He) as (s' & ws' & p' & Hs' & Hp' & Ee).
  specialize (Hleast s' ws' p' Hs' Hp'). lia.
Qed.

Lemma least_offered F R ub middle : searching F R ub middle ->
  (forall v e, F !! v = Some e -> qe_removed e = true) -> (forall v e, R !! v = Some e -> qe_removed e = true) ->
  forall W, offered W -> ub <= W.
Proof using Htargets Hweights Hstart.
  intros [HF HR HM] HallF HallR W (m & wf & wr & ((s & ws & pu & Hs & Hu & Ef) & (t & wt & pd & Ht & Hd & Er) & Hlf & Hlr) & Ho).
  destruct (Z.le_gt_cases ub W) as [?|Hlt]; [done|]. exfalso.
  assert (forall D a b w, up g D a b w -> 0 <= w) as Hnn by (intros D a b w Hx%(up_weight g maxw Htargets Hweights); lia).
  pose proof (walk_nonneg _ _ _ _ (Hnn true) Hu). pose proof (walk_nonneg _ _ _ _ (Hnn false) Hd).
  destruct (Hstart _ _ _ Hs) as [_ Hos], (Hstart _ _ _ Ht) as [_ Hot].
  assert (wf + off <= ub /\ wr + off <= ub) as [Hb1 Hb2] by (destruct Ho as [[? ->]|(? & l & _ & -> & ?)]; lia).
  destruct (peak_label true F ub s ws m pu HF HallF Hs Hu) as (e & He & Ee); [|lia|].
  { intros s' ws' p' Hs' Hp'. apply walk_steps in Hp'. rewrite <- Ef. by apply (Hlf s'). }
  destruct (peak_label false R ub t wt m pd HR HallR Ht Hd) as (e' & He' & Ee'); [|lia|].
  { intros t' wt' p' Ht' Hp'. apply walk_steps in Hp'. rewrite <- Er. by apply (Hlr t'). }
  pose proof (mt_least _ _ _ _ HM m e e' W He He' (HallF _ _ He) (HallR _ _ He')) as Hle. rewrite Ee, Ee', <- Ef, <- Er in Hle.
  specialize (Hle Ho). lia.
Qed.

(** On a hierarchy without routes of negative weight, a lightest route is offered. *)
Lemma lightest_offered (Hhier : is_hierarchy g) (Hpos : forall W, route W -> 0 <= W) W : route W -> (forall W', route W' -> W <= W') -> offered W.
Proof using Htargets Hweights.
  intros HW Hmin. pose proof (Hpos W HW) as HW0. destruct HW as (s & t & ws & wt & p & Hs & Ht & Hw & ->).
  destruct (Hhier s t p Hw) as (m & pu & pd & Hu & Hd & Hle).
  assert (walk (step g true) s m pu) as Hu' by (eapply walk_mono; [|exact Hu]; intros *; apply up_step).
  assert (walk (step g false) t m pd) as Hd' by (eapply walk_mono; [|exact Hd]; intros *; apply up_step).
  apply walk_steps in Hu', Hd'. simpl in Hu', Hd'.
  assert (forall s' t' ws' wt' p1 p2, start true s' ws' -> start false t' wt' -> walk (arc g) s' m p1 -> walk (arc g) m t' p2 ->
    ws + p + wt <= ws' + p1 + p2 + wt') as Hall.
  { intros s' t' ws' wt' p1 p2 Hs' Ht' H1' H2'. assert (ws + p + wt <= ws' + (p1 + p2) + wt'); [|lia]. apply Hmin.
    exists s', t', ws', wt', (p1 + p2). split_and!; [done|done| |done]. by eapply walk_app. }
  pose proof (Hall s t ws wt pu pd Hs Ht Hu' Hd').
  exists m, (ws + pu), (wt + pd). split; [|left; lia]. split; [by exists s, ws, pu|]. split; [by exists t, wt, pd|]. split.
  - intros s' ws' p' Hs' Hp'. pose proof (Hall s' t ws' wt p' pd Hs' Ht Hp' Hd'). lia.
  - intros t' wt' p' Ht' Hp'. pose proof (Hall s t' ws wt' pu p' Hs Ht' Hu' Hp'). lia.
Qed.

Lemma least_route (Hhier : is_hierarchy g) ub : (forall W, offered W -> ub <= W) -> (forall W, route W -> 0 <= W) -> forall W, route W -> ub <= W.
Proof using Htargets Hweights.
  intros Hoff' Hpos W HW. pose proof (Hpos W HW) as HW0.
  revert W HW0 HW. refine (Z_lt_induction (fun W => route W -> ub <= W) _). intros W IH HW.
  destruct (Z.le_gt_cases ub W) as [?|Hlt]; [done|]. exfalso.
  assert (forall W', route W' -> W <= W') as Hmin.
  { intros W' HW'. destruct (Z.le_gt_cases W W') as [?|Hl]; [done|]. pose proof (Hpos W' HW'). pose proof (IH W' ltac:(lia) HW'). lia. }
  pose proof (Hoff' W (lightest_offered Hhier Hpos W HW Hmin)). lia.
Qed.
End least.
End run.

(** ** Claim *)

(** The sources and the targets a search starts from. *)
Definition entries (F R : qmap) (DIRECTION : bool) : qmap := if DIRECTION then F else R.

Definition start_at (F R : qmap) (DIRECTION : bool) (s w : Z) : Prop :=
  exists e, entries F R DIRECTION !! s = Some e /\ qe_weight e = w.

Section claim.
Context {G : Type} `{!Graph G EdgeData, !GraphLaws G EdgeData} (g : G).
Context {St H Handle : Type} `{SL : IndexStorageLaws St, HL : MutableHeapLaws H Handle}.
Implicit Types (q : QueryHeap St H Handle HeapData) (F R : qmap).

(** What a query starts with: a hierarchy with positive weights, queues that
    hold sources and targets with themselves as parents, offsets that are
    negative at sources only, where they are undone by the first edge of a
    route, and weights of climbing paths that fit an [EdgeWeight].  A source
    that is a target may be ahead of it: the sum of their offsets is then negative. *)
Record search_input F R (maxw bound top : Z) : Prop := {
  si_graph : graph_wf g;
  si_nodes : 0 <= graph_nodes g <= SPECIAL_NODEID;
  si_targets v x : 0 <= v < graph_nodes g -> x ∈ adjacency g v -> 0 <= target x < graph_nodes g;
  si_weights v x : 0 <= v < graph_nodes g -> x ∈ adjacency g v -> 0 < weight (data x) <= maxw;
  si_hierarchy : is_hierarchy g;
  si_entries DIRECTION s e : entries F R DIRECTION !! s = Some e ->
    0 <= s < graph_nodes g /\ qe_removed e = false /\ parent (qe_data e) = s;
  si_offsets DIRECTION s w : start_at F R DIRECTION s w -> (if DIRECTION then - 2 ^ 30 else 0) <= w;
  si_bound DIRECTION s ws L v p : start_at F R DIRECTION s ws -> path (up g DIRECTION) s L v p -> ws + p <= bound;
  si_small : bound < 2 ^ 30 /\ bound + maxw < 2 ^ 31;
  si_routes s t ws wt p : start_at F R true s ws -> start_at F R false t wt -> walk (arc g) s t p -> 0 < p -> 0 <= ws + p + wt;
  si_top : top <= INT32_MAX
}.

Lemma initial_side F R maxw bound top off DIRECTION : search_input F R maxw bound top ->
  (forall D s w, start_at F R D s w -> off <= w) -> side g (start_at F R) off DIRECTION (entries F R DIRECTION) top.
Proof.
  intros Hin Hoff. constructor.
  - intros v e Hv. by apply (si_entries _ _ _ _ _ Hin DIRECTION v e).
  - intros v e Hv. apply (Hoff DIRECTION v). by exists e.
  - intros v e Hv. left. split; [by exists e|]. by apply (si_entries _ _ _ _ _ Hin DIRECTION v e).
  - intros s w (e & He & <-). exists e. by split.
  - intros v e v' e' Hv _ Hr. destruct (si_entries _ _ _ _ _ Hin _ _ _ Hv) as (_ & ? & _). congruence.
  - intros v e Hv Hr. destruct (si_entries _ _ _ _ _ Hin _ _ _ Hv) as (_ & ? & _). congruence.
Qed.

(** An empty queue has no starts. *)
Lemma empty_queue F R maxw bound top q c r DIRECTION : search_input F R maxw bound top -> good (graph_nodes g) q (entries F R DIRECTION) c r ->
  Empty q = true -> forall s w, ~ start_at F R DIRECTION s w.
Proof.
  intros Hin Hq He s w (e & Hs & _). destruct (si_entries _ _ _ _ _ Hin DIRECTION s e Hs) as (_ & Hl & _).
  pose proof (proj1 (Empty_spec q _ (gd_repr _ _ _ _ _ Hq)) He s e Hs). congruence.
Qed.

(** What a search says: nothing, or the weight and the nodes of a route, which
    is not negative.  All that climbing walks offer weighs at least as much as
    the answer, or the bound when there is none, and so does every route if
    none is negative. *)
Definition search_answer F R (top weight : Z) (leg : list Z) : Prop := exists least,
  ((weight = INVALID_EDGE_WEIGHT /\ leg = [] /\ least = top) \/
   (0 <= weight < top /\ route_along g (start_at F R) leg weight /\ least = weight)) /\
  (forall W, offered g (start_at F R) W -> least <= W) /\
  ((forall W, route g (start_at F R) W -> 0 <= W) -> forall W, route g (start_at F R) W -> least <= W).

Lemma empty_answer F R top DIRECTION : (forall s w, ~ start_at F R DIRECTION s w) -> search_answer F R top INVALID_EDGE_WEIGHT [].
Proof.
  intros Hn. exists top. split; [by left|]. split.
  - intros W (m & wf & wr & ((s & ws & pu & Hs & _) & (t & wt & pd & Ht & _) & _) & _). destruct DIRECTION; [by apply Hn in Hs|by apply Hn in Ht].
  - intros _ W (s & t & ws & wt & p & Hs & Ht & _). destruct DIRECTION; [by apply Hn in Hs|by apply Hn in Ht].
Qed.

(** The loop of a search that has sources, from the offset to the empty queues. *)
Lemma loop_run q q' F R c r c' r' maxw bound top : search_input F R maxw bound top ->
  good (graph_nodes g) q F c r -> good (graph_nodes g) q' R c' r' -> graph_nodes g + 1 < r -> graph_nodes g + 1 < r' -> Empty q = false ->
  exists k q2 q2' F2 R2 mid ub, MinKey q = Some k /\ - 2 ^ 30 <= Z.min 0 k <= 0 /\
    (forall D s w, start_at F R D s w -> 0 <= s < graph_nodes g /\ Z.min 0 k <= w) /\
    search_loop (search_fuel g) g q q' SPECIAL_NODEID top (Z.min 0 k) [] [] = Some (q2, q2', mid, ub) /\
    good (graph_nodes g) q2 F2 c r /\ good (graph_nodes g) q2' R2 c' r' /\ searching g (start_at F R) (Z.min 0 k) top F2 R2 ub mid /\
    (forall v e, F2 !! v = Some e -> qe_removed e = true) /\ (forall v e, R2 !! v = Some e -> qe_removed e = true).
Proof.
  intros Hin Hq Hq' Hroom Hroom' E1. pose proof (gd_repr _ _ _ _ _ Hq) as HR.
  destruct (DeleteMin_spec q F HR) as (v & e & _ & _ & Hv & _ & Hmin & _ & _ & _ & Emin).
  { by apply (nonempty_live q). }
  exists (qe_weight e). set (off := Z.min 0 (qe_weight e)). pose proof (si_offsets _ _ _ _ _ Hin) as Hoffs.
  assert (- 2 ^ 30 <= off <= 0) as Hoff by (pose proof (Hoffs true v (qe_weight e) ltac:(by exists e)) as Hw; simpl in Hw; unfold off; lia).
  assert (forall D s w, start_at F R D s w -> off <= w) as Hlow.
  { intros [] s w Hs; [|pose proof (Hoffs false s w Hs) as Hw; simpl in Hw; unfold off; lia]. destruct Hs as (e0 & He0 & <-).
    pose proof (Hmin s e0 He0 (proj1 (proj2 (si_entries _ _ _ _ _ Hin true s e0 He0)))). unfold off. lia. }
  assert (forall D s w, start_at F R D s w -> 0 <= s < graph_nodes g /\ off <= w) as Hst.
  { intros D s w Hs. split; [|by eapply Hlow]. destruct Hs as (e0 & He0 & _). by apply (si_entries _ _ _ _ _ Hin D s e0). }
  assert (searching g (start_at F R) off top F R top SPECIAL_NODEID) as HS0.
  { constructor; [exact (initial_side F R maxw bound top off true Hin Hlow)|exact (initial_side F R maxw bound top off false Hin Hlow)|].
    constructor; [|by left]. intros a ea ea' W Ha _ Hr. destruct (si_entries _ _ _ _ _ Hin true a ea Ha) as (_ & ? & _). congruence. }
  destruct Hin as [I1 I2 I3 I4 I5 I6 I7 I8 [I9 I9'] I10 I11].
  destruct (ch_search_loop_ok g (start_at F R) off maxw bound top I1 I3 I4 Hoff Hst I8 I9 I9' I2 I11 I10 (search_fuel g) q q' F R c r c' r' top SPECIAL_NODEID)
    as (q2 & q2' & F2 & R2 & mid & ub & E3 & Hrest); [done..|unfold unsettled, search_fuel; lia|].
  by exists q2, q2', F2, R2, mid, ub.
Qed.

(** The search, from its input to its answer. *)
Lemma ch_search_ok q q' F R c r c' r' maxw bound top (Hin : search_input F R maxw bound top)
    (Hq : good (graph_nodes g) q F c r) (Hq' : good (graph_nodes g) q' R c' r')
    (Hroom : graph_nodes g + 1 < r) (Hroom' : graph_nodes g + 1 < r') :
  exists q2 q2' weight leg, search g q q' [] [] top = Some (q2, q2', weight, leg) /\ search_answer F R top weight leg.
Proof.
  unfold search. destruct (Empty q) eqn:E1; cbn [orb].
  { exists q, q', INVALID_EDGE_WEIGHT, []. split; [done|]. apply (empty_answer F R top true). by eapply empty_queue. }
  destruct (Empty q') eqn:E2.
  { exists q, q', INVALID_EDGE_WEIGHT, []. split; [done|]. apply (empty_answer F R top false). by eapply (empty_queue F R maxw bound top q'). }
  destruct (loop_run q q' F R c r c' r' maxw bound top Hin Hq Hq' Hroom Hroom' E1)
    as (k & q2 & q2' & F2 & R2 & mid & ub & Ek & Hoff & Hst & E3 & Hq2 & Hq2' & [SF SR SM] & HallF & HallR).
  rewrite Ek. cbn [mbind option_bind]. cbv zeta. rewrite E3. cbn [mbind option_bind]. set (off := Z.min 0 k) in *.
  destruct Hin as [I1 I2 I3 I4 I5 I6 I7 I8 [I9 I9'] I10 I11].
  pose proof (least_offered g (start_at F R) off maxw top I3 I4 Hst F2 R2 ub mid (Build_searching _ _ _ _ _ _ _ _ SF SR SM) HallF HallR) as Hleast.
  pose proof (least_route g (start_at F R) maxw I3 I4 I5 ub Hleast) as Hall.
  destruct (mt_middle _ _ _ _ _ _ SM) as [[-> ->]|([Hpos Hlt] & em & em' & Hm & Hm' & Hs1 & Hs2)].
  { rewrite (proj2 (Z.leb_le top top)) by lia. exists q2, q2', INVALID_EDGE_WEIGHT, []. split; [done|]. exists top. split; [by left|done]. }
  pose proof (sd_dom _ _ _ _ _ _ SF mid em Hm) as Hmid. rewrite (proj2 (Z.leb_gt top ub)) by lia. rewrite (proj2 (Z.eqb_neq SPECIAL_NODEID mid)) by lia.
  cbn [orb]. rewrite (GetKey_spec _ _ _ _ (gd_repr _ _ _ _ _ Hq2) Hm). cbn [mbind option_bind].
  rewrite (GetKey_spec _ _ _ _ (gd_repr _ _ _ _ _ Hq2') Hm'). cbn [mbind option_bind].
  pose proof (side_labels g (start_at F R) off maxw bound I3 I4 Hoff I8 _ _ _ SF mid em Hm).
  pose proof (side_labels g (start_at F R) off maxw bound I3 I4 Hoff I8 _ _ _ SR mid em' Hm').
  unfold weight_add. rewrite swrap_small by lia.
  destruct (Z.lt_ge_cases (qe_weight em + qe_weight em') 0) as [Hneg|Hnn].
  - rewrite (proj2 (Z.eqb_neq _ _)) by lia. cbn [negb]. exists q2, q2', ub, [mid; mid]. split; [done|]. exists ub. split; [|done]. right.
    split; [done|]. split; [|done]. destruct (Hs2 Hneg) as (l & Hl & ->).
    destruct (meeting_negative g (start_at F R) off maxw I3 I4 I10 true _ _ _ _ _ _ _ SF SR Hm Hm' Hneg) as [Hsf Hsr].
    exists mid, mid, (qe_weight em), (qe_weight em'), (l + 0). split_and!; [done..| |lia].
    exact (chain_cons _ mid mid [] l 0 Hl (chain_one _ mid)).
  - pose proof (mt_least _ _ _ _ _ _ SM mid em em' _ Hm Hm' (HallF _ _ Hm) (HallR _ _ Hm') (or_introl (conj Hnn eq_refl))). specialize (Hs1 Hnn).
    assert (ub = qe_weight em + qe_weight em') as Eub by lia. rewrite <- Eub, Z.eqb_refl. cbn [negb].
    destruct (retrieve_ok g (start_at F R) off maxw I3 I4 I2 F2 R2 ub ub q2 q2' c r c' r' mid em em') as (leg & -> & Hleg); try done.
    cbn [mbind option_bind]. exists q2, q2', ub, leg. split; [done|]. exists ub. split; [|done]. right. rewrite <- Eub in Hleg. by split.
Qed.

(** C7: the search on a contraction hierarchy.  For every graph whose walks
    can be replaced by climbing ones, and whatever sources and targets the
    queues hold, with offsets that are negative only at sources and undone by the
    first edge of a route, the search without forced loops terminates.  It
    answers with a route and the nodes it leads over, whose weight is not
    negative and below the bound it was given, or with the invalid weight and no nodes.  When no
    route is negative, the answer is a lightest route, or all routes are as
    heavy as the bound: stalled nodes and the early stop lose nothing.  When a
    target is behind a source of the same road, so that the sum at a node is
    negative, the answer is still not heavier than any non-negative sum of the
    lightest climbing walks to a node, nor than any negative sum with a loop
    at the node that makes it non-negative. *)
Theorem ch_search_exact q q' F R c r c' r' maxw bound top (Hin : search_input F R maxw bound top)
    (Hq : good (graph_nodes g) q F c r) (Hq' : good (graph_nodes g) q' R c' r')
    (Hroom : graph_nodes g + 1 < r) (Hroom' : graph_nodes g + 1 < r') :
  exists q2 q2' weight leg, search g q q' [] [] top = Some (q2, q2', weight, leg) /\ search_answer F R top weight leg.
Proof. eauto using ch_search_ok. Qed.
End claim.

(** ** An example *)

(** Two streets that meet in node 1, the top of the hierarchy. *)
Definition street (w : Z) : EdgeData := mkEdgeData 0 false w w true true (SpecFloat.S754_zero false).
Definition crossing_edges : list (InputEdge EdgeData) := [mkInputEdge 0 1 (street 3); mkInputEdge 2 1 (street 4)].
Definition crossing : Static.StaticGraph EdgeData := Static.InitializeFromSortedEdgeRange 3 crossing_edges.

Definition climb_weight (v : Z) : Z := if v =? 0 then 3 else if v =? 2 then 4 else 0.

Lemma crossing_adj v x : 0 <= v < 3 -> x ∈ adjacency crossing v ->
  (v = 0 /\ x = mkDynamicEdge 1 (street 3)) \/ (v = 2 /\ x = mkDynamicEdge 1 (street 4)).
Proof.
  intros Hv. assert (v = 0 \/ v = 1 \/ v = 2) as [->|[->| ->]] by lia; vm_compute adjacency; intros Hx; set_unfold; naive_solver.
Qed.

Lemma crossing_up D u v w : up crossing D u v w <-> (u = 0 \/ u = 2) /\ v = 1 /\ w = climb_weight u.
Proof.
  split.
  - intros (Hu & x & Hx & <- & _ & <-). destruct (crossing_adj u x Hu Hx) as [[-> ->]|[-> ->]]; simpl; auto.
  - intros ([->| ->] & -> & ->); (split; [done|]); [exists (mkDynamicEdge 1 (street 3))|exists (mkDynamicEdge 1 (street 4))];
      (split; [vm_compute; by left|by destruct D]).
Qed.

Lemma crossing_walk s t p : walk (arc crossing) s t p -> 0 <= p /\ (s = t \/ climb_weight s + climb_weight t <= p).
Proof.
  induction 1 as [v|s u t p w Hw [Hp IH] Ha]; [split; [lia|by left]|].
  assert (0 <= climb_weight u /\ 0 <= climb_weight t /\ w = climb_weight u + climb_weight t) as (? & ? & ->).
  { destruct Ha as [([->| ->] & -> & ->)%crossing_up|([->| ->] & -> & ->)%crossing_up]; done. }
  split; [lia|]. right. destruct IH as [->|IH]; lia.
Qed.

Lemma crossing_climb D s : s = 0 \/ s = 1 \/ s = 2 -> walk (up crossing D) s 1 (climb_weight s).
Proof. intros [->|[->| ->]]; [|constructor|]; apply walk_edge, crossing_up; auto. Qed.

Lemma crossing_arc_ends u v w : arc crossing u v w -> (u = 0 \/ u = 1 \/ u = 2) /\ (v = 0 \/ v = 1 \/ v = 2).
Proof. intros [(Hu & -> & _)%crossing_up|(Hv & -> & _)%crossing_up]; tauto. Qed.

Lemma crossing_hierarchy : is_hierarchy crossing.
Proof.
  intros s t p Hw. destruct (crossing_walk s t p Hw) as [Hp [->|Hle]].
  - exists t, 0, 0. split_and!; [constructor..|lia].
  - destruct (decide (s = t)) as [->|Hne]; [exists t, 0, 0; split_and!; [constructor..|lia]|].
    assert ((s = 0 \/ s = 1 \/ s = 2) /\ (t = 0 \/ t = 1 \/ t = 2)) as [Hs Ht].
    { clear Hp Hle. induction Hw as [v|s u t p w Hw IH Ha]; [done|]. apply crossing_arc_ends in Ha as [Hu Ht].
      split; [|done]. destruct (decide (s = u)) as [->|Hsu]; [done|by apply IH]. }
    exists 1, (climb_weight s), (climb_weight t). split_and!; [by apply crossing_climb..|done].
Qed.

Definition crossing_queue (node weight : Z) : option (QueryHeap ArrayStorage RefHeap Z HeapData) :=
  Insert (QueryHeap_new (ArrayStorage_new 3)) node weight (mkHeapData node).

Definition crossing_entry (node weight : Z) : qmap := <[node := mkQentry weight (mkHeapData node) false]> ∅.

Lemma crossing_queue_ok node weight : 0 <= node < 3 -> exists q, crossing_queue node weight = Some q /\
  good 3 q (crossing_entry node weight) 0 10.
Proof.
  intros Hn. apply good_Insert; [|done|done|by rewrite map_size_empty].
  constructor; [apply qh_repr_nil|..]; simpl; try done; repeat constructor; done.
Qed.

Lemma crossing_input : search_input crossing (crossing_entry 0 (-1)) (crossing_entry 2 2) 4 100 INVALID_EDGE_WEIGHT.
Proof.
  assert (forall D s w, start_at (crossing_entry 0 (-1)) (crossing_entry 2 2) D s w -> s = (if D then 0 else 2) /\ w = (if D then -1 else 2)) as Hst.
  { unfold start_at, entries, crossing_entry. intros [] s w (e & He & <-); apply lookup_insert_Some in He as [[<- <-]|[_ Hn]]; done. }
  constructor.
  - apply Static.construct_ok; [done|cbn; lia|done].
  - done.
  - intros v x Hv Hx. by destruct (crossing_adj v x Hv Hx) as [[_ ->]|[_ ->]].
  - intros v x Hv Hx. by destruct (crossing_adj v x Hv Hx) as [[_ ->]|[_ ->]].
  - exact crossing_hierarchy.
  - unfold entries, crossing_entry. intros [] s e He; apply lookup_insert_Some in He as [[<- <-]|[_ Hn]]; done.
  - intros [] s w [-> ->]%Hst; done.
  - intros D s ws L v p [_ ->]%Hst HP. assert (p <= 8); [|destruct D; lia]. remember 4 as m eqn:Em.
    destruct (path_weight (up crossing D) 3 m) with (s := s) (L := L) (t := v) (p := p) as [Hnd [[_ ->]|[Hle Hx]]]; [..|done|lia|].
    + intros a b w ([->| ->] & -> & _)%crossing_up; lia.
    + intros a b w ([->| ->] & _ & ->)%crossing_up; subst m; done.
    + pose proof (nodup_range_len L 3 ltac:(lia) Hnd Hx). nia.
  - done.
  - intros s t ws wt p [_ ->]%Hst [_ ->]%Hst _ Hp. simpl. lia.
  - done.
Qed.

(** A road that can only be left and entered again, in a loop. *)
Definition roundabout : Static.StaticGraph EdgeData := Static.InitializeFromSortedEdgeRange 1 [mkInputEdge 0 0 (street 5)].

Lemma roundabout_adj v x : 0 <= v < 1 -> x ∈ adjacency roundabout v -> x = mkDynamicEdge 0 (street 5).
Proof. intros Hv. assert (v = 0) as -> by lia. vm_compute adjacency. intros Hx. set_unfold. naive_solver. Qed.

Lemma roundabout_up D u v w : up roundabout D u v w <-> u = 0 /\ v = 0 /\ w = 5.
Proof.
  split.
  - intros (Hu & x & Hx & <- & _ & <-). cbn in Hu. rewrite (roundabout_adj u x) by (done || lia). split; [lia|done].
  - intros (-> & -> & ->). split; [done|]. exists (mkDynamicEdge 0 (street 5)). split; [vm_compute; by left|by destruct D].
Qed.

Definition roundabout_queue (node weight : Z) : option (QueryHeap ArrayStorage RefHeap Z HeapData) :=
  Insert (QueryHeap_new (ArrayStorage_new 1)) node weight (mkHeapData node).

Lemma roundabout_queue_ok node weight : 0 <= node < 1 -> exists q, roundabout_queue node weight = Some q /\
  good 1 q (crossing_entry node weight) 0 10.
Proof.
  intros Hn. apply good_Insert; [|done|done|by rewrite map_size_empty].
  constructor; [apply qh_repr_nil|..]; simpl; try done; repeat constructor; done.
Qed.

(** The target is 2 behind the source. *)
Lemma roundabout_input : search_input roundabout (crossing_entry 0 (-3)) (crossing_entry 0 1) 5 100 INVALID_EDGE_WEIGHT.
Proof.
  assert (forall D s w, start_at (crossing_entry 0 (-3)) (crossing_entry 0 1) D s w -> s = 0 /\ w = (if D then -3 else 1)) as Hst.
  { unfold start_at, entries, crossing_entry. intros [] s w (e & He & <-); apply lookup_insert_Some in He as [[<- <-]|[_ Hn]]; done. }
  assert (forall u v w, arc roundabout u v w -> v = u /\ w = 5) as Harc by (intros u v w [(-> & -> & ->)%roundabout_up|(-> & -> & ->)%roundabout_up]; done).
  constructor.
  - apply Static.construct_ok; [done|cbn; lia|done].
  - done.
  - intros v x Hv ->%roundabout_adj; done.
  - intros v x Hv ->%roundabout_adj; done.
  - intros s t p Hw. assert (t = s /\ 0 <= p) as [-> Hp] by (induction Hw as [|s u t p w Hw [-> ?] [-> ->]%Harc]; [done|split; [done|lia]]).
    exists s, 0, 0. split_and!; [constructor..|lia].
  - unfold entries, crossing_entry. intros [] s e He; apply lookup_insert_Some in He as [[<- <-]|[_ Hn]]; done.
  - intros [] s w [-> ->]%Hst; done.
  - intros D s ws L v p [_ ->]%Hst HP. destruct (path_weight (up roundabout D) 1 5) with (s := s) (L := L) (t := v) (p := p) as [Hnd [[_ ->]|[Hle Hx]]]; [..|done| |].
    + intros a b w (-> & -> & _)%roundabout_up; lia.
    + intros a b w (_ & _ & ->)%roundabout_up; lia.
    + destruct D; lia.
    + pose proof (nodup_range_len L 1 ltac:(lia) Hnd Hx). destruct D; nia.
  - done.
  - intros s t ws wt p [_ ->]%Hst [_ ->]%Hst Hw Hp. assert (5 <= p); [|simpl; lia].
    destruct Hw as [|s u t p w Hw [_ ->]%Harc]; [lia|]. assert (0 <= p); [|lia]. eapply (walk_nonneg (arc roundabout)); [|exact Hw]. intros a b x [_ ->]%Harc. lia.
  - done.
Qed.

Definition answer_of (g : Static.StaticGraph EdgeData) (q q' : option (QueryHeap ArrayStorage RefHeap Z HeapData)) : option (Z * list Z) :=
  q ← q; q' ← q'; r ← search g q q' [] [] INVALID_EDGE_WEIGHT; Some (r.1.2, r.2).

Lemma ch_search_exact_witness :
  (exists q q' q2 q2',
    crossing_queue 0 (-1) = Some q /\ crossing_queue 2 2 = Some q' /\
    search crossing q q' [] [] INVALID_EDGE_WEIGHT = Some (q2, q2', 8, [0; 1; 2]) /\
    search_answer crossing (crossing_entry 0 (-1)) (crossing_entry 2 2) INVALID_EDGE_WEIGHT 8 [0; 1; 2]) /\
  (exists q q' q2 q2',
    roundabout_queue 0 (-3) = Some q /\ roundabout_queue 0 1 = Some q' /\
    search roundabout q q' [] [] INVALID_EDGE_WEIGHT = Some (q2, q2', 3, [0; 0]) /\
    search_answer roundabout (crossing_entry 0 (-3)) (crossing_entry 0 1) INVALID_EDGE_WEIGHT 3 [0; 0]).
Proof.
  split.
  - destruct (crossing_queue_ok 0 (-1) ltac:(lia)) as (q & E & Hq). destruct (crossing_queue_ok 2 2 ltac:(lia)) as (q' & E' & Hq').
    destruct (ch_search_exact crossing q q' _ _ 0 10 0 10 4 100 INVALID_EDGE_WEIGHT crossing_input Hq Hq' eq_refl eq_refl)
      as (q2 & q2' & w & leg & Es & Ha).
    exists q, q', q2, q2'. split; [exact E|]. split; [exact E'|].
    assert (answer_of crossing (crossing_queue 0 (-1)) (crossing_queue 2 2) = Some (8, [0; 1; 2])) as Ev by (by vm_compute).
    unfold answer_of in Ev. rewrite E, E' in Ev. cbn [mbind option_bind] in Ev. rewrite Es in Ev. cbn in Ev. injection Ev as -> ->.
    split; [exact Es|exact Ha].
  - destruct (roundabout_queue_ok 0 (-3) ltac:(lia)) as (q & E & Hq). destruct (roundabout_queue_ok 0 1 ltac:(lia)) as (q' & E' & Hq').
    destruct (ch_search_exact roundabout q q' _ _ 0 10 0 10 5 100 INVALID_EDGE_WEIGHT roundabout_input Hq Hq' eq_refl eq_refl)
      as (q2 & q2' & w & leg & Es & Ha).
    exists q, q', q2, q2'. split; [exact E|]. split; [exact E'|].
    assert (answer_of roundabout (roundabout_queue 0 (-3)) (roundabout_queue 0 1) = Some (3, [0; 0])) as Ev by (by vm_compute).
    unfold answer_of in Ev. rewrite E, E' in Ev. cbn [mbind option_bind] in Ev. rewrite Es in Ev. cbn in Ev. injection Ev as -> ->.
    split; [exact Es|exact Ha].
Defined.
End Ch.
