(* ===== verification/ContractorAdaptors.v ===== *)
(** * Between edge lists and contractor graphs

    Model of include/contractor/graph_contractor_adaptors.hpp:
    [toContractorGraph] stores every edge of the edge-based graph at both of its
    ends, sorts, drops loops and merges parallel edges; [toEdges] turns the
    contracted graph into the sorted edges of the query graph. *)
From stdpp Require Import sorting.
From S2P Require Import Prelude Sorting Walks EdgeBasedEdge EdgeBasedGraphReader QueryHeap Permutation DynamicGraph StaticGraph GraphInterface ContractorSearch GraphContractor Contraction Hierarchy ChSearch.

(** ** Before the contraction *)

Definition MAXIMAL_EDGE_DURATION : Z := INT32_MAX.
Definition MAXIMAL_EDGE_DISTANCE : float32 := FLT_MAX.

(** [InputEdge::operator<] *)
Definition edge_less {D} (a b : InputEdge D) : bool := lex2 (ie_source a, ie_target a) (ie_source b, ie_target b).

(** The entries of one edge at its two ends. *)
Definition both_ends (e : InputEdge EdgeBasedEdge.EdgeData) : list ContractorEdge :=
  let d := ie_data e in
  if EdgeBasedEdge.weight d =? INVALID_EDGE_WEIGHT then []
  else
    let entry := ContractorEdgeData_new (Z.max (EdgeBasedEdge.weight d) 1) (EdgeBasedEdge.duration d)
                   (EdgeBasedEdge.distance d) 1 (EdgeBasedEdge.turn_id d) false in
    [mkInputEdge (ie_source e) (ie_target e) (entry (EdgeBasedEdge.forward d) (EdgeBasedEdge.backward d));
     mkInputEdge (ie_target e) (ie_source e) (entry (EdgeBasedEdge.backward d) (EdgeBasedEdge.forward d))].

(** [std::min] on floats: the second argument only if it is smaller. *)
Definition fmin32 (a b : float32) : float32 := if flt32 b a then b else a.

(** [d] takes the smaller weight, duration and distance. *)
Definition lighten (e d : ContractorEdgeData) : ContractorEdgeData :=
  mkContractorEdgeData (Z.min (weight e) (weight d)) (Z.min (duration e) (duration d)) (fmin32 (distance e) (distance d))
    (edge_id d) (originalEdges d) (shortcut d) (forward d) (backward d).

(** The two edges that collect parallel edges. *)
Definition unweighted (id : Z) (fwd bwd : bool) : ContractorEdgeData :=
  mkContractorEdgeData INVALID_EDGE_WEIGHT MAXIMAL_EDGE_DURATION MAXIMAL_EDGE_DISTANCE id 1 false fwd bwd.

(** The inner loop: it takes the edges from [source] to [target] off the list. *)
Fixpoint merge_parallel (source target : Z) (forward_edge reverse_edge : ContractorEdgeData) (edges : list ContractorEdge)
  : ContractorEdgeData * ContractorEdgeData * list ContractorEdge :=
  match edges with
  | e :: rest =>
      if (ie_source e =? source) && (ie_target e =? target) then
        merge_parallel source target
          (if forward (ie_data e) then lighten (ie_data e) forward_edge else forward_edge)
          (if backward (ie_data e) then lighten (ie_data e) reverse_edge else reverse_edge) rest
      else (forward_edge, reverse_edge, edges)
  | [] => (forward_edge, reverse_edge, [])
  end.

Definition both_directions (d : ContractorEdgeData) : ContractorEdgeData :=
  mkContractorEdgeData (weight d) (duration d) (distance d) (edge_id d) (originalEdges d) (shortcut d) (forward d) true.

(** The edges written back for one pair of ends. *)
Definition merged (source target : Z) (forward_edge reverse_edge : ContractorEdgeData) : list ContractorEdge :=
  let valid d := negb (weight d =? INVALID_EDGE_WEIGHT) in
  let edge d := mkInputEdge source target d in
  if weight forward_edge =? weight reverse_edge
  then if valid forward_edge then [edge (both_directions forward_edge)] else []
  else (if valid forward_edge then [edge forward_edge] else []) ++ (if valid reverse_edge then [edge reverse_edge] else []).

(** The outer loop.  It writes to the front of the vector it reads: no more
    edges than it has read, see [merged_len]. *)
Fixpoint merge_edge_list (fuel : nat) (edges : list ContractorEdge) : list ContractorEdge :=
  match fuel, edges with
  | S fuel, e :: rest =>
      if ie_source e =? ie_target e then merge_edge_list fuel rest
      else
        let id := edge_id (ie_data e) in
        let '(f, r, rest') :=
          merge_parallel (ie_source e) (ie_target e) (unweighted id true false) (unweighted id false true) edges in
        merged (ie_source e) (ie_target e) f r ++ merge_edge_list fuel rest'
  | _, _ => []
  end.

Definition tidy_edges (parallel_sort : sort_function) (input : list (InputEdge EdgeBasedEdge.EdgeData)) : list ContractorEdge :=
  let edges := parallel_sort _ edge_less (input ≫= both_ends) in
  merge_edge_list (length edges) edges.

Definition toContractorGraph (parallel_sort : sort_function) (number_of_nodes : Z)
    (input : list (InputEdge EdgeBasedEdge.EdgeData)) : ContractorGraph :=
  DynamicGraph_new number_of_nodes (tidy_edges parallel_sort input).

(** ** After the contraction *)

Abbreviation QueryEdge := (InputEdge Ch.EdgeData).
Abbreviation QueryGraph := (Static.StaticGraph Ch.EdgeData).

Definition QueryEdge_new : QueryEdge :=
  mkInputEdge SPECIAL_NODEID SPECIAL_NODEID (Ch.mkEdgeData 0 false 0 0 false false (SpecFloat.S754_zero false)).

(** The bit-fields take 31 bits of the id and 30 bits of the duration. *)
Definition query_data (d : ContractorEdgeData) : Ch.EdgeData :=
  Ch.mkEdgeData (wrap 31 (edge_id d)) (shortcut d) (weight d) (swrap 30 (duration d)) (forward d) (backward d) (distance d).

Fixpoint write_edges (graph : ContractorGraph) (node : Z) (range : list Z) (edges : list QueryEdge) (edge_index : Z)
  : option (list QueryEdge * Z) :=
  match range with
  | [] => Some (edges, edge_index)
  | edge :: range =>
      t ← GetTarget graph edge;
      d ← GetEdgeData graph edge;
      edges' ← zset edge_index (mkInputEdge node t (query_data d)) edges;
      write_edges graph node range edges' (edge_index + 1)
  end.

Fixpoint write_nodes (graph : ContractorGraph) (nodes : list Z) (edges : list QueryEdge) (edge_index : Z)
  : option (list QueryEdge * Z) :=
  match nodes with
  | [] => Some (edges, edge_index)
  | node :: nodes =>
      range ← GetAdjacentEdgeRange graph node;
      '(edges', edge_index') ← write_edges graph node range edges edge_index;
      write_nodes graph nodes edges' edge_index'
  end.

Definition toEdges (parallel_sort : sort_function) (graph : ContractorGraph) : option (list QueryEdge) :=
  '(edges, _) ← write_nodes graph (seqZ 0 (GetNumberOfNodes graph))
                  (replicate (Z.to_nat (GetNumberOfEdges graph)) QueryEdge_new) 0;
  Some (parallel_sort _ edge_less edges).

(** ** Merging parallel edges *)

Definition same_ends (e e' : ContractorEdge) : Prop := ie_source e = ie_source e' /\ ie_target e = ie_target e'.

(** [d'] is [d] with the least weight of [d] and the edges of [run] usable in a direction. *)
Record lightest (usable : ContractorEdgeData -> bool) (run : list ContractorEdge) (d d' : ContractorEdgeData) : Prop := {
  lt_flags : forward d' = forward d /\ backward d' = backward d;
  lt_bound e : e ∈ run -> usable (ie_data e) = true -> weight d' <= weight (ie_data e);
  lt_le : weight d' <= weight d;
  lt_attained : weight d' = weight d \/ exists e, e ∈ run /\ usable (ie_data e) = true /\ weight d' = weight (ie_data e)
}.

Lemma lightest_cons usable e run d d' :
  lightest usable run (if usable (ie_data e) then lighten (ie_data e) d else d) d' -> lightest usable (e :: run) d d'.
Proof.
  intros [[F B] Hb Hle Ha]. destruct (usable (ie_data e)) eqn:Eu.
  - simpl in *. constructor; [done| |lia|].
    + intros a [->|Hx]%elem_of_cons Hu; [lia|by apply Hb].
    + destruct Ha as [Ha|(a & Hx & Hu & Ha)]; [|right; exists a; split; [by right|done]].
      destruct (Z.min_spec (weight (ie_data e)) (weight d)) as [[_ Hm]|[_ Hm]]; [right|left; lia].
      exists e. split; [by left|]. split; [done|lia].
  - constructor; [done| |done|].
    + intros a [->|Hx]%elem_of_cons Hu; [congruence|by apply Hb].
    + destruct Ha as [Ha|(a & Hx & Hu & Ha)]; [by left|right]. exists a. split; [by right|done].
Qed.

Lemma merge_parallel_ok source target f r l : exists run rest f' r', merge_parallel source target f r l = (f', r', rest) /\
  l = run ++ rest /\ (forall e, e ∈ run -> ie_source e = source /\ ie_target e = target) /\
  lightest forward run f f' /\ lightest backward run r r' /\
  (length run = 1%nat -> forall e, e ∈ run -> forward (ie_data e) = true -> backward (ie_data e) = true ->
     weight f = weight r -> weight f' = weight r').
Proof.
  assert (forall usable d, lightest usable [] d d) as Hnil.
  { intros usable d. constructor; [done|by intros e He%elem_of_nil|lia|by left]. }
  revert f r. induction l as [|e l IH]; intros f r; cbn [merge_parallel].
  { exists [], [], f, r. split_and!; try done. by intros e He%elem_of_nil. }
  destruct (Z.eqb_spec (ie_source e) source) as [Hs|Hs]; simpl; [destruct (Z.eqb_spec (ie_target e) target) as [Ht|Ht]|].
  2,3: exists [], (e :: l), f, r; split_and!; try done; by intros a Ha%elem_of_nil.
  destruct (IH (if forward (ie_data e) then lighten (ie_data e) f else f) (if backward (ie_data e) then lighten (ie_data e) r else r))
    as (run & rest & f' & r' & E & -> & Hrun & Lf & Lr & _).
  exists (e :: run), rest, f', r'. rewrite E. split; [done|]. split; [done|]. split.
  { intros a [->|Ha]%elem_of_cons; [done|by apply Hrun]. }
  split; [by apply lightest_cons|]. split; [by apply lightest_cons|].
  intros Hlen a Ha Hf Hb Hw. destruct run; [|done]. apply list_elem_of_singleton in Ha as ->. rewrite Hf in Lf. rewrite Hb in Lr.
  destruct (lt_attained _ _ _ _ Lf) as [Wf|(x & Hx%elem_of_nil & _)]; [|done].
  destruct (lt_attained _ _ _ _ Lr) as [Wr|(x & Hx%elem_of_nil & _)]; [|done]. simpl in *. lia.
Qed.

Lemma merged_spec source target f r :
  forward f = true -> backward f = false -> forward r = false -> backward r = true ->
  (forall e, e ∈ merged source target f r -> ie_source e = source /\ ie_target e = target /\ weight (ie_data e) <> INVALID_EDGE_WEIGHT /\
     (forward (ie_data e) = true \/ backward (ie_data e) = true) /\
     (forward (ie_data e) = true -> weight (ie_data e) = weight f) /\ (backward (ie_data e) = true -> weight (ie_data e) = weight r)) /\
  (weight f <> INVALID_EDGE_WEIGHT -> exists e, e ∈ merged source target f r /\ forward (ie_data e) = true /\ weight (ie_data e) = weight f) /\
  (weight r <> INVALID_EDGE_WEIGHT -> exists e, e ∈ merged source target f r /\ backward (ie_data e) = true /\ weight (ie_data e) = weight r).
Proof.
  intros Ff Bf Fr Br. unfold merged. destruct (Z.eqb_spec (weight f) (weight r)) as [E|E].
  - destruct (Z.eqb_spec (weight f) INVALID_EDGE_WEIGHT) as [Ei|Ei]; simpl.
    { split; [by intros e He%elem_of_nil|]. split; intros ?; congruence. }
    split; [intros e ->%list_elem_of_singleton; simpl; rewrite Ff; tauto|]. split; intros _; eexists; (split; [by left|done]).
  - split.
    + intros e He. apply elem_of_app in He as [He|He].
      * destruct (Z.eqb_spec (weight f) INVALID_EDGE_WEIGHT); simpl in He; [by apply elem_of_nil in He|].
        apply list_elem_of_singleton in He as ->. simpl. rewrite Ff, Bf. split_and!; try done. by left.
      * destruct (Z.eqb_spec (weight r) INVALID_EDGE_WEIGHT); simpl in He; [by apply elem_of_nil in He|].
        apply list_elem_of_singleton in He as ->. simpl. rewrite Fr, Br. split_and!; try done. by right.
    + split; intros Hv; apply Z.eqb_neq in Hv; rewrite Hv; eexists; (split; [apply elem_of_app|]).
      * left. by left.
      * done.
      * right. by left.
      * done.
Qed.

(** What merging keeps and leaves: lightest edges between different nodes. *)
Record tidied (l l' : list ContractorEdge) : Prop := {
  td_ends e : e ∈ l' -> ie_source e <> ie_target e /\ weight (ie_data e) <> INVALID_EDGE_WEIGHT /\
    (forward (ie_data e) = true \/ backward (ie_data e) = true) /\ exists x, x ∈ l /\ same_ends x e;
  td_forward e : e ∈ l' -> forward (ie_data e) = true ->
    exists x, x ∈ l /\ same_ends x e /\ forward (ie_data x) = true /\ weight (ie_data x) = weight (ie_data e);
  td_backward e : e ∈ l' -> backward (ie_data e) = true ->
    exists x, x ∈ l /\ same_ends x e /\ backward (ie_data x) = true /\ weight (ie_data x) = weight (ie_data e);
  td_keeps_forward x : x ∈ l -> ie_source x <> ie_target x -> forward (ie_data x) = true -> weight (ie_data x) < INVALID_EDGE_WEIGHT ->
    exists e, e ∈ l' /\ same_ends x e /\ forward (ie_data e) = true /\ weight (ie_data e) <= weight (ie_data x);
  td_keeps_backward x : x ∈ l -> ie_source x <> ie_target x -> backward (ie_data x) = true -> weight (ie_data x) < INVALID_EDGE_WEIGHT ->
    exists e, e ∈ l' /\ same_ends x e /\ backward (ie_data e) = true /\ weight (ie_data e) <= weight (ie_data x)
}.

Lemma tidied_app l1 l1' l2 l2' : tidied l1 l1' -> tidied l2 l2' -> tidied (l1 ++ l2) (l1' ++ l2').
Proof.
  intros [A1 A2 A3 A4 A5] [B1 B2 B3 B4 B5]. constructor.
  - intros e [He|He]%elem_of_app; [destruct (A1 e He) as (? & ? & ? & x & Hx & ?)|destruct (B1 e He) as (? & ? & ? & x & Hx & ?)];
      split_and!; try done; exists x; (split; [apply elem_of_app; tauto|done]).
  - intros e [He|He]%elem_of_app Hf; [destruct (A2 e He Hf) as (x & Hx & ?)|destruct (B2 e He Hf) as (x & Hx & ?)];
      exists x; (split; [apply elem_of_app; tauto|done]).
  - intros e [He|He]%elem_of_app Hf; [destruct (A3 e He Hf) as (x & Hx & ?)|destruct (B3 e He Hf) as (x & Hx & ?)];
      exists x; (split; [apply elem_of_app; tauto|done]).
  - intros e [He|He]%elem_of_app H1 H2 H3; [destruct (A4 e He H1 H2 H3) as (x & Hx & ?)|destruct (B4 e He H1 H2 H3) as (x & Hx & ?)];
      exists x; (split; [apply elem_of_app; tauto|done]).
  - intros e [He|He]%elem_of_app H1 H2 H3; [destruct (A5 e He H1 H2 H3) as (x & Hx & ?)|destruct (B5 e He H1 H2 H3) as (x & Hx & ?)];
      exists x; (split; [apply elem_of_app; tauto|done]).
Qed.

(** One run of parallel edges. *)
Lemma merged_tidied source target id run f r : run <> [] -> source <> target ->
  (forall e, e ∈ run -> ie_source e = source /\ ie_target e = target) ->
  lightest forward run (unweighted id true false) f -> lightest backward run (unweighted id false true) r ->
  tidied run (merged source target f r).
Proof.
  intros Hne Hst Hrun Lf Lr. destruct (lt_flags _ _ _ _ Lf) as [Ff Bf]. destruct (lt_flags _ _ _ _ Lr) as [Fr Br]. simpl in *.
  destruct (merged_spec source target f r Ff Bf Fr Br) as (Hm & Hf & Hr).
  assert (forall x e, x ∈ run -> e ∈ merged source target f r -> same_ends x e) as Hsame.
  { intros x e Hx He. unfold same_ends. destruct (Hm e He) as (E1 & E2 & _). destruct (Hrun x Hx). split; congruence. }
  assert (exists x0, x0 ∈ run) as [x0 Hx0] by (destruct run as [|x0 ?]; [done|]; exists x0; by left). constructor.
  - intros e He. destruct (Hm e He) as (H1 & H2 & H3 & H4 & _). split; [congruence|]. split; [done|]. split; [done|]. exists x0. split; [done|by apply Hsame].
  - intros e He Hd. destruct (Hm e He) as (_ & _ & H3 & _ & Hw & _). rewrite (Hw Hd) in *.
    destruct (lt_attained _ _ _ _ Lf) as [Ha|(x & Hx & Hu & Ha)]; [done|]. exists x. split_and!; [done|by apply Hsame|done|done].
  - intros e He Hd. destruct (Hm e He) as (_ & _ & H3 & _ & _ & Hw). rewrite (Hw Hd) in *.
    destruct (lt_attained _ _ _ _ Lr) as [Ha|(x & Hx & Hu & Ha)]; [done|]. exists x. split_and!; [done|by apply Hsame|done|done].
  - intros x Hx _ Hd Hw. pose proof (lt_bound _ _ _ _ Lf x Hx Hd). destruct Hf as (e & He & Fe & We); [lia|].
    exists e. split_and!; [done|by apply Hsame|done|lia].
  - intros x Hx _ Hd Hw. pose proof (lt_bound _ _ _ _ Lr x Hx Hd). destruct Hr as (e & He & Fe & We); [lia|].
    exists e. split_and!; [done|by apply Hsame|done|lia].
Qed.

(** One run starts with the edge [e]. *)
Lemma merge_step e rest : ie_source e <> ie_target e ->
  exists run rest' f r, merge_parallel (ie_source e) (ie_target e) (unweighted (edge_id (ie_data e)) true false)
      (unweighted (edge_id (ie_data e)) false true) (e :: rest) = (f, r, rest') /\ rest = run ++ rest' /\
    tidied (e :: run) (merged (ie_source e) (ie_target e) f r) /\ (forall x, x ∈ run -> same_ends x e) /\
    (length (merged (ie_source e) (ie_target e) f r) <= length (e :: run))%nat.
Proof.
  intros Hne. set (id := edge_id (ie_data e)).
  destruct (merge_parallel_ok (ie_source e) (ie_target e) (unweighted id true false) (unweighted id false true) (e :: rest))
    as (run & rest' & f & r & E & El & Hrun & Lf & Lr & Hone).
  destruct run as [|e' run].
  { exfalso. simpl in El. rewrite <- El in E. cbn [merge_parallel] in E. rewrite !Z.eqb_refl in E. cbn [andb] in E.
    destruct (merge_parallel_ok (ie_source e) (ie_target e)
      (if forward (ie_data e) then lighten (ie_data e) (unweighted id true false) else unweighted id true false)
      (if backward (ie_data e) then lighten (ie_data e) (unweighted id false true) else unweighted id false true) rest)
      as (run2 & rest2 & f2 & r2 & E2 & El2 & _). rewrite E2 in E. injection E as _ _ E.
    apply (f_equal length) in El2. rewrite length_app, E in El2. simpl in El2. lia. }
  injection El as <- ->. exists run, rest', f, r. split; [done|]. split; [done|].
  split; [by eapply merged_tidied|]. split; [intros x Hx; apply Hrun; by right|].
  unfold merged. destruct (Z.eqb_spec (weight f) (weight r)) as [Ew|Ew]; [destruct (negb _); simpl; lia|].
  destruct run; [|rewrite length_app; destruct (negb _), (negb _); simpl; lia].
  assert (forward (ie_data e) = false \/ backward (ie_data e) = false) as [Hd|Hd].
  { destruct (forward (ie_data e)) eqn:Ef; [|by left]. destruct (backward (ie_data e)) eqn:Eb; [|by right].
    exfalso. apply Ew. apply (Hone eq_refl e); [by left|done..]. }
  - assert (weight f = INVALID_EDGE_WEIGHT) as -> by (destruct (lt_attained _ _ _ _ Lf) as [->|(x & ->%list_elem_of_singleton & ? & _)]; [done|congruence]).
    rewrite Z.eqb_refl. simpl. destruct (negb _); simpl; lia.
  - assert (weight r = INVALID_EDGE_WEIGHT) as -> by (destruct (lt_attained _ _ _ _ Lr) as [->|(x & ->%list_elem_of_singleton & ? & _)]; [done|congruence]).
    rewrite Z.eqb_refl. simpl. destruct (negb _); simpl; lia.
Qed.

Lemma tidied_loop e : ie_source e = ie_target e -> tidied [e] [].
Proof.
  intros He. constructor; try (by intros x Hx%elem_of_nil); intros x ->%list_elem_of_singleton; done.
Qed.

Lemma tidied_nil : tidied [] [].
Proof. constructor; by intros x Hx%elem_of_nil. Qed.

Lemma merge_edge_list_tidied fuel l : (length l <= fuel)%nat -> tidied l (merge_edge_list fuel l).
Proof.
  revert l. induction fuel as [|fuel IH]; intros [|e l] Hl; cbn [merge_edge_list]; try apply tidied_nil; [simpl in Hl; lia|].
  simpl in Hl. destruct (Z.eqb_spec (ie_source e) (ie_target e)) as [He|He].
  - apply (tidied_app [e] [] l (merge_edge_list fuel l)); [by apply tidied_loop|apply IH; lia].
  - destruct (merge_step e l He) as (run & rest' & f & r & -> & -> & Ht & _ & _).
    apply (tidied_app (e :: run) _ rest' _); [done|]. apply IH. rewrite length_app in Hl. lia.
Qed.

(** No write overtakes the reads. *)
Lemma merge_edge_list_len fuel l : (length (merge_edge_list fuel l) <= length l)%nat.
Proof.
  revert l. induction fuel as [|fuel IH]; intros [|e l]; cbn [merge_edge_list]; try (simpl; lia).
  destruct (Z.eqb_spec (ie_source e) (ie_target e)) as [He|He]; [specialize (IH l); simpl; lia|].
  destruct (merge_step e l He) as (run & rest' & f & r & -> & -> & _ & _ & Hlen).
  specialize (IH rest'). rewrite length_app in *. simpl in *. rewrite length_app. lia.
Qed.

(** ** Sorted edges *)

Lemma edge_less_strict_weak {D} : strict_weak (@edge_less D).
Proof. destruct lex2_strict_weak as [Ha Hs]. split; unfold edge_less; [intros x y; apply Ha|intros x y z; apply Hs]. Qed.

Lemma ordered_sources {D} (l : list (InputEdge D)) lo hi :
  ordered edge_less l -> (forall e, e ∈ l -> lo <= ie_source e < hi) -> sources_sorted lo hi l.
Proof. apply ordered_sources_by. intros x y. unfold edge_less, lex2. lia. Qed.

Lemma merge_edge_list_sorted fuel l lo hi : sources_sorted lo hi l -> sources_sorted lo hi (merge_edge_list fuel l).
Proof.
  revert l lo. induction fuel as [|fuel IH]; intros [|e l] lo Hs; cbn [merge_edge_list]; try done.
  destruct Hs as [He Hs]. destruct (Z.eqb_spec (ie_source e) (ie_target e)) as [Hl|Hl].
  - apply IH. eapply sources_sorted_weaken; [|done]. lia.
  - destruct (merge_step e l Hl) as (run & rest' & f & r & -> & -> & Ht & Hrun & _).
    apply (sources_sorted_app _ _ _ (ie_source e)); [done| |].
    + intros x Hx. destruct (td_ends _ _ Ht x Hx) as (_ & _ & _ & y & [->|Hy]%elem_of_cons & [Hy1 _]); [done|].
      rewrite <- Hy1. by apply Hrun.
    + apply IH. by eapply sources_sorted_drop.
Qed.

(** ** The contractor's graph *)

(** The arcs of the input between different nodes, with the weight floor of 1. *)
Definition input_arc (input : list (InputEdge EdgeBasedEdge.EdgeData)) (u v w : Z) : Prop :=
  u <> v /\ exists e, e ∈ input /\ EdgeBasedEdge.weight (ie_data e) <> INVALID_EDGE_WEIGHT /\ w = Z.max (EdgeBasedEdge.weight (ie_data e)) 1 /\
    ((ie_source e = u /\ ie_target e = v /\ EdgeBasedEdge.forward (ie_data e) = true) \/
     (ie_target e = u /\ ie_source e = v /\ EdgeBasedEdge.backward (ie_data e) = true)).

Definition usable_in (DIRECTION : bool) (d : ContractorEdgeData) : bool := if DIRECTION then forward d else backward d.

(** An edge as its other end has it. *)
Definition turned (x y : ContractorEdge) : Prop :=
  ie_source y = ie_target x /\ ie_target y = ie_source x /\ forward (ie_data y) = backward (ie_data x) /\
  backward (ie_data y) = forward (ie_data x) /\ weight (ie_data y) = weight (ie_data x).

Lemma both_ends_turned input x : x ∈ input ≫= both_ends -> exists y, y ∈ input ≫= both_ends /\ turned x y.
Proof.
  intros (e & Hx & He)%list_elem_of_bind. unfold both_ends in Hx.
  destruct (EdgeBasedEdge.weight (ie_data e) =? INVALID_EDGE_WEIGHT) eqn:Ew; [by apply elem_of_nil in Hx|].
  assert (forall y, y ∈ both_ends e -> y ∈ input ≫= both_ends) as Hin by (intros y Hy; apply list_elem_of_bind; by exists e).
  apply elem_of_cons in Hx as [->|Hx%list_elem_of_singleton]; [|subst x];
    eexists; (split; [apply Hin; unfold both_ends; rewrite Ew|]).
  - apply list_elem_of_further, list_elem_of_here.
  - by split_and!.
  - apply list_elem_of_here.
  - by split_and!.
Qed.

Lemma both_ends_input input x DIRECTION : x ∈ input ≫= both_ends -> ie_source x <> ie_target x -> usable_in DIRECTION (ie_data x) = true ->
  if DIRECTION then input_arc input (ie_source x) (ie_target x) (weight (ie_data x))
  else input_arc input (ie_target x) (ie_source x) (weight (ie_data x)).
Proof.
  intros (e & Hx & He)%list_elem_of_bind Hne Hu. unfold both_ends in Hx.
  destruct (Z.eqb_spec (EdgeBasedEdge.weight (ie_data e)) INVALID_EDGE_WEIGHT) as [|Ew]; [by apply elem_of_nil in Hx|].
  apply elem_of_cons in Hx as [->|Hx%list_elem_of_singleton]; [|subst x]; destruct DIRECTION; simpl in *;
    (split; [congruence|]); exists e; (split; [done|]); (split; [done|]); (split; [done|]); tauto.
Qed.

Lemma input_both_ends input u v w : input_arc input u v w ->
  exists x, x ∈ input ≫= both_ends /\ ie_source x = u /\ ie_target x = v /\ forward (ie_data x) = true /\ weight (ie_data x) = w.
Proof.
  intros (_ & e & He & Hw & -> & Hd).
  assert (forall y, y ∈ both_ends e -> y ∈ input ≫= both_ends) as Hin by (intros y Hy; apply list_elem_of_bind; by exists e).
  destruct Hd as [(<- & <- & Hf)|(<- & <- & Hf)]; eexists; (split; [apply Hin; unfold both_ends; rewrite (proj2 (Z.eqb_neq _ _) Hw)|]).
  - apply list_elem_of_here.
  - done.
  - apply list_elem_of_further, list_elem_of_here.
  - done.
Qed.

Section contractor_graph.
Context (parallel_sort : sort_function) `{!ParallelSort parallel_sort} (n maxw : Z) (input : list (InputEdge EdgeBasedEdge.EdgeData)).

(** What the edge-based graph promises: nodes in range, ids and weights that fit. *)
Record input_ok : Prop := {
  io_nodes : 0 <= n <= UINT32_MAX;
  io_ends e : e ∈ input -> 0 <= ie_source e < n /\ 0 <= ie_target e < n;
  io_weights e : e ∈ input -> EdgeBasedEdge.weight (ie_data e) <= maxw \/ EdgeBasedEdge.weight (ie_data e) = INVALID_EDGE_WEIGHT;
  io_maxw : 1 <= maxw < INVALID_EDGE_WEIGHT;
  io_size : 2 * zlen input < 2 ^ 32
}.
Context (Hin : input_ok).

Local Abbreviation stored := (input ≫= both_ends).
Local Abbreviation graph := (toContractorGraph parallel_sort n input).

Lemma stored_range x : x ∈ stored -> 0 <= ie_source x < n /\ 0 <= ie_target x < n /\ 0 < weight (ie_data x) <= maxw.
Proof using Hin.
  intros (e & Hx & He)%list_elem_of_bind. unfold both_ends in Hx.
  destruct (io_ends Hin e He) as [Hs Ht]. pose proof (io_maxw Hin).
  destruct (Z.eqb_spec (EdgeBasedEdge.weight (ie_data e)) INVALID_EDGE_WEIGHT) as [|Ew]; [by apply elem_of_nil in Hx|].
  destruct (io_weights Hin e He) as [Hw|]; [|done].
  apply elem_of_cons in Hx as [->|Hx%list_elem_of_singleton]; [|subst x]; simpl; lia.
Qed.

Lemma stored_len : zlen stored <= 2 * zlen input.
Proof.
  unfold zlen. induction input as [|e l IH]; [done|]. cbn [mbind list_bind]. rewrite length_app.
  assert (length (both_ends e) <= 2)%nat; [|simpl; lia]. unfold both_ends. destruct (_ =? _); simpl; lia.
Qed.

Lemma stored_tidied : tidied stored (tidy_edges parallel_sort input).
Proof using All.
  pose proof (merge_edge_list_tidied (length (parallel_sort _ edge_less stored)) (parallel_sort _ edge_less stored) ltac:(lia)) as Ht.
  assert (forall x, x ∈ parallel_sort _ edge_less stored <-> x ∈ stored) as Hp by (intros x; by rewrite (parallel_sort_Permutation edge_less stored)).
  destruct Ht as [T1 T2 T3 T4 T5]. constructor.
  - intros e He. destruct (T1 e He) as (? & ? & ? & x & Hx%Hp & ?). split_and!; try done. by exists x.
  - intros e He Hf. destruct (T2 e He Hf) as (x & Hx%Hp & ?). by exists x.
  - intros e He Hf. destruct (T3 e He Hf) as (x & Hx%Hp & ?). by exists x.
  - intros x Hx%Hp. by apply T4.
  - intros x Hx%Hp. by apply T5.
Qed.

Lemma tidy_sorted : sources_sorted 0 n (tidy_edges parallel_sort input).
Proof using All.
  apply merge_edge_list_sorted, ordered_sources; [apply parallel_sort_ordered, edge_less_strict_weak|].
  intros e He. rewrite (parallel_sort_Permutation edge_less stored) in He. by apply stored_range.
Qed.

Lemma tidy_len : zlen (tidy_edges parallel_sort input) < 2 ^ 32.
Proof using All.
  pose proof stored_len. pose proof (io_size Hin). unfold tidy_edges.
  pose proof (merge_edge_list_len (length (parallel_sort _ edge_less stored)) (parallel_sort _ edge_less stored)) as Hl.
  pose proof (Permutation_length (parallel_sort_Permutation edge_less stored)). unfold zlen in *. lia.
Qed.

Lemma graph_built : dg_wf graph /\ number_of_nodes graph = n /\
  forall u x, x ∈ adj graph u <-> 0 <= u < n /\ exists e, e ∈ tidy_edges parallel_sort input /\ ie_source e = u /\ edge_of_input e = x.
Proof using All.
  destruct (DynamicGraph_new_ok n (tidy_edges parallel_sort input)) as [Hwf Hadj].
  - apply (io_nodes Hin).
  - exact tidy_sorted.
  - exact tidy_len.
  - intros e He. destruct (td_ends _ _ stored_tidied e He) as (_ & _ & _ & x & Hx & _ & <-).
    destruct (stored_range x Hx) as (_ & ? & _). pose proof (io_nodes Hin). lia.
  - split; [done|]. assert (number_of_nodes graph = n) as En by (unfold toContractorGraph, DynamicGraph_new; by destruct (build_nodes _ _ _ _)). split; [done|].
    intros u x. split.
    + intros Hx. pose proof (adj_node _ _ _ Hwf Hx) as Hu. unfold all_nodes in Hu. unfold toContractorGraph in En. rewrite En in Hu.
      unfold toContractorGraph in Hx. rewrite Hadj in Hx by done. split; [done|]. apply list_elem_of_fmap in Hx as (e & -> & [Hs He]%list_elem_of_filter). by exists e.
    + intros (Hu & e & He & Hs & <-). unfold toContractorGraph. rewrite Hadj by done. apply list_elem_of_fmap. exists e. split; [done|]. by apply list_elem_of_filter.
Qed.

(** An entry of the graph has its counterpart at the other end. *)
Lemma entry_turned u x DIRECTION : x ∈ adj graph u -> usable_in DIRECTION (data x) = true ->
  exists y, y ∈ adj graph (target x) /\ target y = u /\ usable_in (negb DIRECTION) (data y) = true /\ weight (data y) <= weight (data x).
Proof using All.
  destruct graph_built as (_ & _ & Hadj). pose proof stored_tidied as Ht. intros (Hu & e & He & Hs & <-)%Hadj Hd. simpl.
  destruct (td_ends _ _ Ht e He) as (Hne & _).
  assert (exists z, z ∈ stored /\ same_ends z e /\ usable_in DIRECTION (ie_data z) = true /\ weight (ie_data z) = weight (ie_data e))
    as (z & Hz & [Z1 Z2] & Zd & Zw) by (destruct DIRECTION; [by apply (td_forward _ _ Ht)|by apply (td_backward _ _ Ht)]).
  destruct (both_ends_turned input z Hz) as (y & Hy & Y1 & Y2 & Y3 & Y4 & Y5).
  pose proof (stored_range y Hy) as (Ys & Yt & Yw). pose proof (io_maxw Hin).
  assert (exists e', e' ∈ tidy_edges parallel_sort input /\ same_ends y e' /\ usable_in (negb DIRECTION) (ie_data e') = true /\
    weight (ie_data e') <= weight (ie_data y)) as (e' & He' & [E1 E2] & Ed & Ew).
  { destruct DIRECTION; simpl in *; [apply (td_keeps_backward _ _ Ht)|apply (td_keeps_forward _ _ Ht)]; try done; try congruence; lia. }
  exists (edge_of_input e'). split; [|split; [simpl; congruence|split; [done|simpl; lia]]].
  apply Hadj. split; [lia|]. exists e'. split; [done|]. split; [congruence|done].
Qed.

(** The graph of [toContractorGraph]. *)
Lemma contractor_graph_ok :
  contractible graph (all_nodes graph) maxw /\ number_of_nodes graph = n /\
  (forall u v w, arc graph u v w -> input_arc input u v w) /\
  (forall u v w, input_arc input u v w -> exists w', arc graph u v w' /\ w' <= w).
Proof using All.
  destruct graph_built as (Hwf & En & Hadj). pose proof stored_tidied as Ht.
  assert (forall u x, x ∈ adj graph u -> 0 <= target x < n /\ 0 < weight (data x) <= maxw /\ exists D, usable_in D (data x) = true) as Hr.
  { intros u x (Hu & e & He & Hs & <-)%Hadj. destruct (td_ends _ _ Ht e He) as (_ & _ & Hd & z & Hz & _ & Et).
    destruct (stored_range z Hz) as (_ & Hz2 & _). split; [simpl; congruence|]. destruct Hd as [Hd|Hd].
    - destruct (td_forward _ _ Ht e He Hd) as (z' & Hz' & _ & _ & Ew). destruct (stored_range z' Hz') as (_ & _ & ?).
      split; [simpl; lia|by exists true].
    - destruct (td_backward _ _ Ht e He Hd) as (z' & Hz' & _ & _ & Ew). destruct (stored_range z' Hz') as (_ & _ & ?).
      split; [simpl; lia|by exists false]. }
  split; [|split; [done|split]].
  - constructor; unfold all_nodes; rewrite ?En; try done.
    + apply (io_nodes Hin).
    + intros u x Hx. by apply (Hr u).
    + intros u x _ Hx. by apply (Hr u).
    + intros u x Hx. by apply (Hr u).
    + intros u x _ Hx. destruct (Hr u x Hx) as (_ & _ & D & Hd). destruct (entry_turned u x D Hx Hd) as (y & Hy & Ty & _). by exists y.
    + intros u x _ Hx Hd. by apply (entry_turned u x true Hx Hd).
    + intros u x _ Hx Hd. by apply (entry_turned u x false Hx Hd).
  - intros u v w (x & (Hu & e & He & Hs & <-)%Hadj & <- & Hf & <-). simpl in *.
    destruct (td_forward _ _ Ht e He Hf) as (z & Hz & [Z1 Z2] & Zf & <-). rewrite <- Hs, <- Z1, <- Z2.
    apply (both_ends_input input z true Hz); [|done]. rewrite Z1, Z2. by apply (td_ends _ _ Ht e He).
  - intros u v w Ha. destruct (input_both_ends input u v w Ha) as (z & Hz & <- & <- & Zf & <-).
    pose proof (stored_range z Hz) as (Hs & _ & Hw). pose proof (io_maxw Hin).
    destruct (td_keeps_forward _ _ Ht z Hz) as (e & He & [E1 E2] & Ef & Ew); [apply Ha|done|lia|].
    exists (weight (ie_data e)). split; [|done]. exists (edge_of_input e). split; [|done]. apply Hadj. split; [done|]. by exists e.
Qed.

(** Its entries are arcs of the input, as both of their ends have them. *)
Lemma contractor_graph_realized : realized (input_arc input) graph.
Proof using All.
  destruct graph_built as (Hwf & En & Hadj). pose proof stored_tidied as Ht. intros u x (Hu & e & He & Hs & <-)%Hadj. simpl.
  pose proof (proj1 (td_ends _ _ Ht e He)) as Hne. split; intros Hd; apply walk_edge.
  - destruct (td_forward _ _ Ht e He Hd) as (z & Hz & [Z1 Z2] & Zf & <-). rewrite <- Hs, <- Z1, <- Z2.
    apply (both_ends_input input z true Hz); [by rewrite Z1, Z2|done].
  - destruct (td_backward _ _ Ht e He Hd) as (z & Hz & [Z1 Z2] & Zf & <-). rewrite <- Hs, <- Z1, <- Z2.
    apply (both_ends_input input z false Hz); [by rewrite Z1, Z2|done].
Qed.

(** [toContractorGraph] builds the graph the contractor works on: every
    entry has its counterpart at its other end, weights are positive, no
    loops; its arcs are arcs of the input and of two parallel arcs a lightest
    one is kept, so the distances of the input are those of the graph. *)
Theorem contractor_graph_built :
  contractible graph (all_nodes graph) maxw /\ number_of_nodes graph = n /\
  (forall u v w, arc graph u v w -> input_arc input u v w) /\
  (forall u v w, input_arc input u v w -> exists w', arc graph u v w' /\ w' <= w).
Proof using All. eauto using contractor_graph_ok. Qed.
End contractor_graph.

(** ** The count of edges *)

Definition node_total (ns : list DynamicNode) : Z := foldr Z.add 0 (edges <$> ns).

(** The graph knows how many edges it has. *)
Definition counted {D} (g : DynamicGraph D) : Prop :=
  in_word 32 (number_of_edges g) /\ wrap 32 (number_of_edges g) = wrap 32 (node_total (node_array g)).

#[export] Instance node_total_Proper : Proper ((≡ₚ) ==> eq) node_total.
Proof. unfold node_total. intros l l' Hp. induction Hp; csimpl; lia. Qed.

Lemma node_total_set ns ns' i nd nd' : ns !z i = Some nd -> zset i nd' ns = Some ns' ->
  node_total ns' = node_total ns - edges nd + edges nd'.
Proof.
  intros Hi Hs. pose proof (node_total_Proper _ _ (zset_Permutation _ _ _ _ _ Hi Hs)) as Hp. unfold node_total in *. csimpl in Hp. lia.
Qed.

Lemma counted_step (m t k a : Z) : wrap 32 m = wrap 32 t -> wrap 32 (wrap 32 (m + k)) = wrap 32 (t - a + wrap 32 (a + k)).
Proof. unfold wrap. intros E. Z.div_mod_to_equations. lia. Qed.

Section counting.
Context {D : Type}.
Implicit Types (g : DynamicGraph D).

Lemma counted_node g ns k i nd first (l : list (DynamicEdge D)) : counted g -> node_array g !z i = Some nd ->
  zset i (mkDynamicNode first (wrap 32 (edges nd + k))) (node_array g) = Some ns ->
  counted (mkDynamicGraph (number_of_nodes g) (wrap 32 (number_of_edges g + k)) ns l).
Proof.
  intros [Hw He] Hi Hs. split; [by apply wrap_in_word|]. simpl. rewrite (node_total_set _ _ _ _ _ Hi Hs). by apply counted_step.
Qed.

Lemma InsertEdge_counted dflt g from to d e g' : InsertEdge dflt g from to d = Some (e, g') -> counted g -> counted g'.
Proof. unfold InsertEdge. intros E Hc. inv_opt. destruct r0. inv_opt. by eapply counted_node. Qed.

Lemma DeleteEdgesTo_counted g source tgt k g' : DeleteEdgesTo g source tgt = Some (k, g') -> counted g -> counted g'.
Proof. unfold DeleteEdgesTo. intros E Hc. inv_opt. destruct r1. inv_opt. by eapply (counted_node _ _ (- k)). Qed.

Lemma SetEdgeData_counted g e d g' : SetEdgeData g e d = Some g' -> counted g -> counted g'.
Proof. unfold SetEdgeData. intros E Hc. inv_opt. done. Qed.

(** A well-formed graph has as many edges as it says. *)
Lemma node_total_adj g : dg_wf g -> node_total (node_array g) = zlen (seqZ 0 (number_of_nodes g) ≫= adj g).
Proof.
  intros Hwf.
  assert (edges <$> node_array g = (fun n => zlen (adj g n)) <$> seqZ 0 (number_of_nodes g)) as E.
  { apply list_eq. intros i. rewrite !list_lookup_fmap. pose proof (dw_nodes _ Hwf) as Ln. unfold zlen in Ln.
    destruct (decide (i < length (node_array g))%nat) as [Hi|Hi].
    - destruct (lookup_lt_is_Some_2 _ _ Hi) as [nd Hnd]. rewrite Hnd, (lookup_seqZ_lt 0 _ i) by lia. simpl. f_equal.
      rewrite Z.add_0_l. rewrite <- zget_nat in Hnd. unfold adj. rewrite Hnd. symmetry. by apply zslice_len; apply (dw_range _ Hwf _ _ Hnd).
    - rewrite lookup_ge_None_2 by lia. rewrite lookup_seqZ_ge by lia. done. }
  unfold node_total. rewrite E. clear E. generalize (seqZ 0 (number_of_nodes g)). intros l.
  induction l as [|u l IH]; [done|]. cbn [fmap list_fmap foldr mbind list_bind]. rewrite IH. unfold zlen. rewrite length_app. lia.
Qed.

(** The slots of the nodes are disjoint. *)
Lemma node_total_bound g : dg_wf g -> node_total (node_array g) <= zlen (edge_list g).
Proof.
  intros Hwf. set (slots nd := seqZ (first_edge nd) (edges nd)).
  assert (node_total (node_array g) = zlen (node_array g ≫= slots)) as ->.
  { assert (forall nd, nd ∈ node_array g -> 0 <= edges nd) as Hp.
    { intros nd [i Hi]%list_elem_of_lookup. rewrite <- zget_nat in Hi. by apply (dw_range _ Hwf _ _ Hi). }
    induction (node_array g) as [|nd l IH]; [done|]. cbn [mbind list_bind]. unfold node_total, zlen in *. csimpl.
    rewrite length_app, IH by (intros; apply Hp; by right). assert (length (slots nd) = Z.to_nat (edges nd)) as -> by apply length_seqZ. pose proof (Hp nd ltac:(by left)). lia. }
  apply nodup_range_len; [apply zlen_nonneg| |].
  - assert (forall i j nd md k, node_array g !! i = Some nd -> node_array g !! j = Some md -> i <> j -> k ∈ slots nd -> k ∈ slots md -> False) as Hd.
    { intros i j nd md k Hi Hj Hne [A1 A2]%elem_of_seqZ [B1 B2]%elem_of_seqZ. rewrite <- zget_nat in Hi, Hj.
      apply (dw_disjoint _ Hwf _ _ nd md k Hi Hj); [lia|split; lia..]. }
    induction (node_array g) as [|nd l IH]; [constructor|]. cbn [mbind list_bind]. apply NoDup_app. split; [apply NoDup_seqZ|]. split.
    + intros k Hk (md & Hk' & [j Hj]%list_elem_of_lookup)%list_elem_of_bind. by apply (Hd 0%nat (S j) nd md k).
    + apply IH. intros i j a b k Hi Hj Hne. apply (Hd (S i) (S j)); [done..|lia].
  - intros k (nd & Hk & [i Hi]%list_elem_of_lookup)%list_elem_of_bind. rewrite <- zget_nat in Hi.
    apply elem_of_seqZ in Hk. destruct (dw_range _ Hwf _ _ Hi). lia.
Qed.

Lemma counted_edges g : dg_wf g -> counted g -> number_of_edges g = zlen (seqZ 0 (number_of_nodes g) ≫= adj g).
Proof.
  intros Hwf [Hw He]. rewrite <- node_total_adj by done. pose proof (node_total_bound g Hwf). pose proof (dw_size _ Hwf).
  rewrite (wrap_small _ (number_of_edges g)), wrap_small in He; [done| |done]. split; [|lia]. rewrite node_total_adj by done. apply zlen_nonneg.
Qed.

Lemma layout_total pos ns fin : layout pos ns fin -> node_total ns = fin - pos.
Proof. revert pos. induction ns as [|nd ns IH]; intros pos; simpl; unfold node_total in *; csimpl; [lia|]. intros (_ & _ & Hl%IH). lia. Qed.

Lemma DynamicGraph_new_counted nodes (es : list (InputEdge D)) : 0 <= nodes -> sources_sorted 0 nodes es -> zlen es < 2 ^ 32 ->
  counted (DynamicGraph_new nodes es).
Proof.
  intros Hn Hs Hlen. unfold DynamicGraph_new.
  destruct (build_nodes_ok (Z.to_nat nodes) 0 0 es) as (ns & -> & _ & Hl & _); [lia|by replace (0 + Z.of_nat (Z.to_nat nodes)) with nodes by lia|].
  pose proof (zlen_nonneg es). split; [split; simpl; lia|]. simpl. rewrite (layout_total _ _ _ Hl). f_equal. lia.
Qed.
End counting.

Section counted_rounds.
Context {St H Handle : Type} `{SL : IndexStorageLaws St, HL : MutableHeapLaws H Handle}.
Implicit Types (g : ContractorGraph).

Lemma delete_incoming_counted g nodes g' : delete_incoming g nodes = Some g' -> counted g -> counted g'.
Proof.
  revert g. induction nodes as [|n nodes IH]; intros g; cbn [delete_incoming]; [by intros [= <-]|].
  intros E Hc. inv_opt. apply (IH _ E). unfold DeleteIncomingEdges in *. inv_opt.
  match goal with K : delete_edges_to_node _ _ _ = Some _ |- _ => revert K end. generalize (sort_unique r1). intros nbs. clear -Hc.
  revert g Hc. induction nbs as [|u nbs IH]; intros g Hc; cbn [delete_edges_to_node]; [by intros [= <-]|].
  destruct (DeleteEdgesTo g u n) as [[k g1]|] eqn:E1; [|done]. cbn [mbind option_bind]. apply IH. by eapply DeleteEdgesTo_counted.
Qed.

Lemma insert_new_edge_counted g e g' : insert_new_edge g e = Some g' -> counted g -> counted g'.
Proof.
  unfold insert_new_edge. intros E Hc. inv_opt. destruct r0 as [w|].
  - destruct (_ <? _); [by eapply SetEdgeData_counted|by injection E as <-].
  - destruct (InsertEdge _ _ _ _ _) as [[i g1]|] eqn:E1; [|done]. injection E as <-. by eapply InsertEdge_counted.
Qed.

Lemma insert_new_edges_counted g L g' : insert_new_edges g L = Some g' -> counted g -> counted g'.
Proof.
  revert g. induction L as [|e L IH]; intros g; cbn [insert_new_edges]; [by intros [= <-]|].
  intros E Hc. inv_opt. apply (IH _ E). by eapply insert_new_edge_counted.
Qed.

(** Rounds keep the count right. *)
Lemma contracted_counted maxw g A g' A' : contracted_to maxw g A g' A' -> counted g -> counted g'.
Proof.
  intros Hrun Hc. induction Hrun as [|g1 A1 g2 I s s' sort Hrun IH Hin Hsort E]; [done|].
  unfold contract_round in E. inv_opt. eapply insert_new_edges_counted; [done|]. by eapply delete_incoming_counted.
Qed.
End counted_rounds.

(** ** The edges of the query graph *)

Section query_graph.
Context (parallel_sort : sort_function) `{!ParallelSort parallel_sort}.
Implicit Types (g : ContractorGraph).

Definition query_edge (u : Z) (x : DynamicEdge ContractorEdgeData) : QueryEdge := mkInputEdge u (target x) (query_data (data x)).

Definition query_edges g : list QueryEdge := seqZ 0 (number_of_nodes g) ≫= fun u => query_edge u <$> adj g u.

Lemma query_edges_len g : length (query_edges g) = length (seqZ 0 (number_of_nodes g) ≫= adj g).
Proof.
  unfold query_edges. induction (seqZ 0 (number_of_nodes g)) as [|u l IH]; [done|]. cbn [mbind list_bind]. by rewrite !length_app, length_fmap, IH.
Qed.

Lemma write_edges_ok g node range es pre junk : edges_at g range es -> (length range <= length junk)%nat ->
  write_edges g node range (pre ++ junk) (zlen pre) = Some ((pre ++ (query_edge node <$> es)) ++ drop (length range) junk, zlen (pre ++ (query_edge node <$> es))).
Proof.
  unfold edges_at. intros Hes. revert pre junk. induction Hes as [|e x range es Hx Hes IH]; intros pre junk Hj; cbn [write_edges].
  { by rewrite app_nil_r, drop_0. }
  destruct junk as [|y junk]; [simpl in Hj; lia|]. unfold GetTarget, GetEdgeData. rewrite Hx. cbn [mbind option_bind].
  assert (zset (zlen pre) (query_edge node x) (pre ++ y :: junk) = Some ((pre ++ [query_edge node x]) ++ junk)) as Es.
  { destruct (zset_some (pre ++ y :: junk) (zlen pre) (query_edge node x)) as [l El].
    { rewrite zlen_app, zlen_cons. pose proof (zlen_nonneg junk). pose proof (zlen_nonneg pre). lia. }
    rewrite El. f_equal. apply zset_inv in El as [_ ->]. unfold zlen. rewrite Nat2Z.id.
    replace (length pre) with (length pre + 0)%nat by lia. rewrite insert_app_r. simpl. by rewrite <- app_assoc. }
  unfold query_edge in Es. rewrite Es. cbn [mbind option_bind]. fold (query_edge node x).
  replace (zlen pre + 1) with (zlen (pre ++ [query_edge node x])) by (rewrite zlen_app; done).
  rewrite IH by (simpl in Hj; lia). cbn [fmap list_fmap length drop]. by rewrite <- !app_assoc.
Qed.

Lemma write_nodes_ok g nodes pre junk : dg_wf g -> (forall u, u ∈ nodes -> 0 <= u < number_of_nodes g) ->
  let new := nodes ≫= fun u => query_edge u <$> adj g u in (length new <= length junk)%nat ->
  write_nodes g nodes (pre ++ junk) (zlen pre) = Some ((pre ++ new) ++ drop (length new) junk, zlen (pre ++ new)).
Proof.
  intros Hwf. revert pre junk. induction nodes as [|u nodes IH]; intros pre junk Hr new Hj; cbn [write_nodes].
  { unfold new. cbn. by rewrite app_nil_r, drop_0. }
  destruct (adjacent_edges g u Hwf (Hr u ltac:(by left))) as (range & -> & Hat). cbn [mbind option_bind].
  pose proof (Forall2_length _ _ _ Hat) as Hlen. unfold new in *. cbn [mbind list_bind] in *. rewrite length_app, length_fmap in Hj.
  rewrite (write_edges_ok g u range (adj g u)) by (done || lia). cbn [mbind option_bind].
  rewrite IH; [|intros v Hv; apply Hr; by right|rewrite length_drop; lia].
  rewrite drop_drop, length_app, length_fmap, Hlen. by rewrite <- !app_assoc.
Qed.

(** Every edge of a counted graph is written once and no other. *)
Lemma toEdges_ok g : dg_wf g -> counted g -> toEdges parallel_sort g = Some (parallel_sort _ edge_less (query_edges g)).
Proof using Type.
  intros Hwf Hc. unfold toEdges, GetNumberOfNodes, GetNumberOfEdges. rewrite (counted_edges g Hwf Hc).
  pose proof (query_edges_len g) as Hlen.
  unfold zlen. rewrite Nat2Z.id.
  pose proof (write_nodes_ok g (seqZ 0 (number_of_nodes g)) [] (replicate (length (seqZ 0 (number_of_nodes g) ≫= adj g)) QueryEdge_new) Hwf) as E.
  cbn [app] in E. change (zlen []) with 0 in E. rewrite E.
  - cbn [mbind option_bind]. fold (query_edges g). by rewrite Hlen, drop_replicate, Nat.sub_diag, app_nil_r.
  - intros u Hu%elem_of_seqZ. lia.
  - rewrite length_replicate, <- Hlen. done.
Qed.

(** The graph of the queries, over the nodes of [g]. *)
Definition query_graph g : option QueryGraph :=
  edges ← toEdges parallel_sort g; Some (Static.InitializeFromSortedEdgeRange (GetNumberOfNodes g) edges).

(** Its adjacency lists the converted entries. *)
Lemma query_graph_ok g : dg_wf g -> counted g -> number_of_nodes g < UINT32_MAX -> zlen (edge_list g) < UINT32_MAX ->
  exists Q, query_graph g = Some Q /\ Static.sg_wf Q /\ Static.GetNumberOfNodes Q = number_of_nodes g /\
    forall u x, 0 <= u < number_of_nodes g -> x ∈ Static.sadj Q u <-> exists y, y ∈ adj g u /\ x = mkDynamicEdge (target y) (query_data (data y)).
Proof using All.
  intros Hwf Hc Hn Hl. unfold query_graph. rewrite (toEdges_ok g Hwf Hc). cbn [mbind option_bind].
  pose proof (zlen_nonneg (node_array g)). pose proof (dw_nodes _ Hwf) as Ln.
  assert (forall e, e ∈ parallel_sort _ edge_less (query_edges g) <-> exists u y, 0 <= u < number_of_nodes g /\ y ∈ adj g u /\ e = query_edge u y) as He.
  { intros e. rewrite (parallel_sort_Permutation edge_less (query_edges g)). unfold query_edges. rewrite list_elem_of_bind. split.
    - intros (u & (y & -> & Hy)%list_elem_of_fmap & Hu%elem_of_seqZ). exists u, y. split; [lia|done].
    - intros (u & y & Hu & Hy & ->). exists u. split; [apply list_elem_of_fmap; by exists y|apply elem_of_seqZ; lia]. }
  destruct (Static.construct_ok (number_of_nodes g) (parallel_sort _ edge_less (query_edges g))) as [Hsw Hadj].
  - unfold GetNumberOfNodes. lia.
  - apply ordered_sources; [apply parallel_sort_ordered, edge_less_strict_weak|]. intros e (u & y & Hu & _ & ->)%He. done.
  - pose proof (counted_edges g Hwf Hc) as Ec. pose proof (node_total_bound g Hwf) as Hb. rewrite node_total_adj in Hb by done.
    pose proof (query_edges_len g) as Hlen.
    pose proof (Permutation_length (parallel_sort_Permutation edge_less (query_edges g))). unfold zlen in *. lia.
  - eexists. split; [reflexivity|]. split; [exact Hsw|]. split; [done|]. intros u x Hu. unfold GetNumberOfNodes. rewrite (Hadj u Hu).
    rewrite list_elem_of_fmap. split.
    + intros (e & -> & [Hs (v & y & _ & Hy & ->)%He]%list_elem_of_filter). simpl in Hs. subst v. by exists y.
    + intros (y & Hy & ->). exists (query_edge u y). split; [done|]. apply list_elem_of_filter. split; [done|]. apply He. by exists u, y.
Qed.
End query_graph.

(** ** From the input to the answers of queries *)

(** Routes between the sources and targets of a query along arcs of the input. *)
Definition input_route (input : list (InputEdge EdgeBasedEdge.EdgeData)) (start : bool -> Z -> Z -> Prop) (W : Z) : Prop :=
  exists s t ws wt p, start true s ws /\ start false t wt /\ walk (input_arc input) s t p /\ W = ws + p + wt.

Section composition.
Context (parallel_sort : sort_function) `{!ParallelSort parallel_sort}.
Context {St H Handle : Type} `{SL : IndexStorageLaws St, HL : MutableHeapLaws H Handle}.
Context (n maxw : Z) (input : list (InputEdge EdgeBasedEdge.EdgeData)) (Hinput : input_ok n maxw input).
Context (g' : ContractorGraph) (A' : Z -> Prop).
Local Abbreviation graph := (toContractorGraph parallel_sort n input).
Context (Hrun : contracted_to (St := St) (H := H) (Handle := Handle) maxw graph (all_nodes graph) g' A').
Context (Hmax : 3 * maxw < INT32_MAX) (Hn : n < UINT32_MAX) (Hsize : zlen (edge_list g') < UINT32_MAX).

Lemma graph_counted : counted graph.
Proof using Hinput ParallelSort0.
  apply DynamicGraph_new_counted; [apply (io_nodes _ _ _ Hinput)|by eapply tidy_sorted|by eapply tidy_len].
Qed.

(** The query graph of the run: its arcs upwards are the entries of the contracted graph. *)
Lemma query_graph_run : exists Q, query_graph parallel_sort g' = Some Q /\ graph_wf Q /\ graph_nodes Q = n /\
  (forall v x, 0 <= v < n -> x ∈ adjacency Q v -> 0 <= target x < n /\ 0 < Ch.weight (data x) <= 2 * maxw) /\
  forall D u v w, Ch.up Q D u v w <-> entry g' D u v w.
Proof using All.
  destruct (contractor_graph_ok parallel_sort n maxw input Hinput) as (Hg & En & _).
  destruct (run_ok maxw graph (all_nodes graph) g' A' Hmax Hg Hrun) as (Hg' & En' & _). rewrite En in En'.
  pose proof (cg_wf _ _ _ Hg') as Hwf. pose proof (contracted_counted _ _ _ _ _ Hrun graph_counted) as Hc.
  destruct (query_graph_ok parallel_sort g' Hwf Hc) as (Q & EQ & Hsw & Hnum & Hadj); [lia|done|]. rewrite En' in *.
  exists Q. split; [done|]. split; [done|]. split; [done|]. split.
  { intros v x Hv (y & Hy & ->)%(Hadj v x Hv). simpl. rewrite <- En'. split; [by eapply (cg_closed _ _ _ Hg')|by eapply (cg_weight _ _ _ Hg')]. }
  intros D u v w. unfold Ch.up. change (graph_nodes Q) with (Static.GetNumberOfNodes Q). rewrite Hnum. split.
  - intros (Hu & x & (y & Hy & ->)%(Hadj u x Hu) & <- & Hd & <-). destruct D; by exists y.
  - intros He. assert (exists y, y ∈ adj g' u /\ target y = v /\ usable_in D (data y) = true /\ weight (data y) = w) as (y & Hy & <- & Hd & <-)
      by (destruct D; destruct He as (y & ?); by exists y).
    pose proof (adj_node _ _ _ Hwf Hy) as Hu. unfold all_nodes in Hu. rewrite En' in Hu. split; [done|].
    eexists. split; [apply (Hadj u _ Hu); by exists y|]. by destruct D.
Qed.

Section walks.
Context (Q : QueryGraph) (Hup : forall D u v w, Ch.up Q D u v w <-> entry g' D u v w).

Lemma query_walk_input s t p : walk (Ch.arc Q) s t p -> exists p', walk (arc graph) s t p' /\ p' <= p.
Proof using All.
  destruct (contractor_graph_ok parallel_sort n maxw input Hinput) as (Hg & _).
  destruct (hierarchy_ok maxw graph g' A' Hmax Hg Hrun) as (_ & Hf & Hb).
  induction 1 as [v|s u t p w Hw (p' & Hp' & Hle) He]; [exists 0; split; [constructor|lia]|].
  assert (exists p2, walk (arc graph) u t p2 /\ p2 <= w) as (p2 & Hp2 & Hle2) by (destruct He as [He%Hup|He%Hup]; [by apply Hf|by apply Hb]).
  exists (p' + p2). split; [by eapply walk_app|lia].
Qed.

Lemma query_hierarchy : Ch.is_hierarchy Q.
Proof using All.
  destruct (contractor_graph_ok parallel_sort n maxw input Hinput) as (Hg & _).
  destruct (hierarchy_ok maxw graph g' A' Hmax Hg Hrun) as (Hc & _).
  intros s t p (p' & Hp' & Hle)%query_walk_input. destruct (Hc s t p' Hp') as (m & pu & pd & Hu & Hd & Hle').
  exists m, pu, pd. split; [|split; [|lia]].
  - eapply walk_mono; [|exact Hu]. intros a b w ?. by apply Hup.
  - eapply walk_mono; [|exact Hd]. intros a b w ?. by apply Hup.
Qed.

(** Input walks have walks of the query graph that are not heavier. *)
Lemma input_walk_query s t p : walk (input_arc input) s t p -> exists p', walk (Ch.arc Q) s t p' /\ p' <= p.
Proof using All.
  destruct (contractor_graph_ok parallel_sort n maxw input Hinput) as (Hg & _ & _ & Hin).
  destruct (hierarchy_ok maxw graph g' A' Hmax Hg Hrun) as (Hc & _).
  intros Hw. assert (exists p', walk (arc graph) s t p' /\ p' <= p) as (p1 & Hp1 & Hle1).
  { induction Hw as [v|s u t p w Hw (p' & Hp' & Hle) He]; [exists 0; split; [constructor|lia]|].
    destruct (Hin u t w He) as (w' & He' & Hle'). exists (p' + w'). split; [by econstructor|lia]. }
  destruct (Hc s t p1 Hp1) as (m & pu & pd & Hu & Hd & Hle). exists (pu + pd). split; [|lia]. eapply walk_app.
  - eapply walk_mono; [|exact Hu]. intros a b w ?. left. by apply Hup.
  - eapply Ch.walk_reverse; [|exact Hd]. intros a b w ?. right. by apply Hup.
Qed.

(** Walks of the query graph are walks of the input. *)
Lemma query_input_walk s t p : walk (Ch.arc Q) s t p -> walk (input_arc input) s t p.
Proof using All.
  destruct (contractor_graph_ok parallel_sort n maxw input Hinput) as (Hg & _).
  destruct (run_ok maxw graph (all_nodes graph) g' A' Hmax Hg Hrun) as (_ & _ & _ & _ & Hr).
  specialize (Hr _ (contractor_graph_realized parallel_sort n maxw input Hinput)).
  induction 1 as [v|s u t p w Hw IH He]; [constructor|]. eapply walk_app; [exact IH|].
  destruct He as [(x & Hx & <- & Hf & <-)%Hup|(x & Hx & <- & Hf & <-)%Hup]; by apply (Hr _ x Hx).
Qed.
End walks.

(** What a query starts with: sources and targets in the graph, offsets that
    are negative at sources only, where they are undone by the first edge of a
    route, and climbing paths whose weights fit. *)
Record query_input (Q : QueryGraph) (F R : Ch.qmap) (bound top : Z) : Prop := {
  qi_entries DIRECTION s e : Ch.entries F R DIRECTION !! s = Some e -> 0 <= s < n /\ qe_removed e = false /\ Ch.parent (qe_data e) = s;
  qi_offsets DIRECTION s w : Ch.start_at F R DIRECTION s w -> (if DIRECTION then - 2 ^ 30 else 0) <= w;
  qi_bound DIRECTION s ws L v p : Ch.start_at F R DIRECTION s ws -> path (Ch.up Q DIRECTION) s L v p -> ws + p <= bound;
  qi_small : bound < 2 ^ 30 /\ bound + 2 * maxw < 2 ^ 31;
  qi_routes s t ws wt p : Ch.start_at F R true s ws -> Ch.start_at F R false t wt -> walk (input_arc input) s t p -> 0 < p -> 0 <= ws + p + wt;
  qi_top : top <= INT32_MAX
}.

(** No answer, or the weight of a route of the input, which is not negative;
    no route is lighter than the answer, or the bound without one, if none is negative. *)
Definition query_answer (F R : Ch.qmap) (top weight : Z) : Prop := exists least,
  ((weight = INVALID_EDGE_WEIGHT /\ least = top) \/
   (0 <= weight < top /\ input_route input (Ch.start_at F R) weight /\ least = weight)) /\
  ((forall W, input_route input (Ch.start_at F R) W -> 0 <= W) -> forall W, input_route input (Ch.start_at F R) W -> least <= W).

Lemma answer_input (Q : QueryGraph) F R top weight leg : (forall D u v w, Ch.up Q D u v w <-> entry g' D u v w) ->
  Ch.search_answer Q F R top weight leg -> query_answer F R top weight.
Proof using All.
  intros Hup (least & Hw & _ & Hall). exists least. split.
  - destruct Hw as [(-> & _ & ->)|(Hb & (s & t & ws & wt & p & Hs & Ht & Hh & Hl & Hch & ->) & ->)]; [by left|right].
    split; [done|]. split; [|done]. exists s, t, ws, wt, p. split_and!; [done|done| |done]. apply (query_input_walk Q Hup). by eapply chain_walk.
  - intros Hpos W (s & t & ws & wt & p & Hs & Ht & (p' & Hp' & Hle)%(input_walk_query Q Hup) & ->).
    assert (least <= ws + p' + wt); [|lia]. apply Hall; [|by exists s, t, ws, wt, p'].
    intros W (s1 & t1 & ws1 & wt1 & p1 & Hs1 & Ht1 & Hp1%(query_input_walk Q Hup) & ->). apply Hpos. by exists s1, t1, ws1, wt1, p1.
Qed.

Context {Index Heap Node : Type} `{SL' : IndexStorageLaws Index, HL' : MutableHeapLaws Heap Node}.

(** C2: preprocessing and query together answer with routes of the input.  The
    edges of the edge-based graph, made into the contractor's graph, contracted
    by any number of rounds and written out as the query graph: a search on
    it whose negative offsets are undone by the first edge of a route
    terminates.  It answers with the invalid weight or with the weight of a
    route along edges of the input that is below the bound and not negative, also when
    a target is behind its source on the same road.  When no route
    is negative, it is the weight of a lightest route, and the invalid weight means that
    no route is lighter than the bound. *)
Theorem ch_query_exact : exists Q, query_graph parallel_sort g' = Some Q /\
  forall (q q' : QueryHeap Index Heap Node Ch.HeapData) F R c r c' r' bound top, query_input Q F R bound top ->
    good n q F c r -> good n q' R c' r' -> n + 1 < r -> n + 1 < r' ->
    exists q2 q2' weight leg, Ch.search Q q q' [] [] top = Some (q2, q2', weight, leg) /\ query_answer F R top weight.
Proof using All.
  destruct query_graph_run as (Q & EQ & Hwf & Hnum & Hadj & Hup). exists Q. split; [done|].
  intros q q' F R c r c' r' bound top [I1 I2 I3 I4 I5 I6] Hq Hq' Hr Hr'. rewrite <- Hnum in Hq, Hq', Hr, Hr'.
  destruct (Ch.ch_search_ok Q q q' F R c r c' r' (2 * maxw) bound top) as (q2 & q2' & w & leg & E & Ha); [|done..|].
  - constructor; rewrite ?Hnum; try done.
    + pose proof (io_nodes _ _ _ Hinput). unfold SPECIAL_NODEID. lia.
    + intros v x Hv Hx. by apply (Hadj v x Hv Hx).
    + intros v x Hv Hx. by apply (Hadj v x Hv Hx).
    + by apply query_hierarchy.
    + intros s t ws wt p Hs Ht Hp%(query_input_walk Q Hup). by apply (I5 s t).
  - exists q2, q2', w, leg. split; [done|]. by eapply answer_input.
Qed.
End composition.

(** ** An example *)

(** The street [0 - 1 - 2], usable both ways, with a heavier parallel edge, a
    loop and a closed edge. *)
Definition street_edge (u v w : Z) : InputEdge EdgeBasedEdge.EdgeData :=
  mkInputEdge u v (EdgeBasedEdge.mkEdgeData 0 w (SpecFloat.S754_zero false) w true true).

Definition street_input : list (InputEdge EdgeBasedEdge.EdgeData) :=
  [street_edge 1 2 3; street_edge 0 1 2; street_edge 1 0 3; street_edge 1 1 1; street_edge 0 2 INVALID_EDGE_WEIGHT].

Lemma street_input_ok : input_ok 3 3 street_input.
Proof.
  constructor; [done|..|done|done]; intros e He; unfold street_input in He; set_unfold in He; destruct_or!; try done; subst e; simpl; lia.
Qed.

Lemma contractor_graph_built_witness : contractible line (all_nodes line) 3 /\ input_arc street_input 0 1 2.
Proof.
  destruct (contractor_graph_built sequential_sort 3 3 street_input street_input_ok) as (Hg & _ & Ha & _).
  assert (toContractorGraph sequential_sort 3 street_input = line) as E by (vm_compute; reflexivity). rewrite E in Hg, Ha.
  split; [exact Hg|]. apply Ha. exists (mkDynamicEdge 1 (street 2)). split; [vm_compute; set_unfold; tauto|]. split; [reflexivity|]. split; reflexivity.
Defined.

(** Its middle contracted, and the queries' graph. *)
Definition street_contracted : ContractorGraph :=
  match contract_round (fun l => l) (demo_state 3) line [1] with Some (_, g) => g | None => line end.

Definition street_query : QueryGraph :=
  match query_graph sequential_sort street_contracted with Some Q => Q | None => Static.InitializeFromSortedEdgeRange 0 [] end.

Lemma street_run : contracted_to (St := ArrayStorage) (H := RefHeap) 3 line (all_nodes line) street_contracted (remaining (all_nodes line) [1]).
Proof.
  destruct (contract_round (fun l => l) (demo_state 3) line [1]) as [[s' g']|] eqn:E; [|vm_compute in E; done].
  apply (contracted_round 3 line (all_nodes line) line (all_nodes line) _ [1] (demo_state 3) s' (fun l => l));
    [constructor|exact line_round_input|by intros l|]. unfold street_contracted. by rewrite E.
Qed.

Lemma street_up D u v w : Ch.up street_query D u v w -> 0 <= u < 3 /\ 0 <= v < 3 /\ 0 < w <= 6.
Proof.
  intros (Hu & x & Hx & <- & _ & <-). change (0 <= u < 3) in Hu.
  assert (u = 0 \/ u = 1 \/ u = 2) as [->|[->| ->]] by lia; vm_compute in Hx; set_unfold in Hx; destruct_or!; try done; subst x; simpl; lia.
Qed.

Lemma street_query_input a ws b : 0 <= a < 3 -> 0 <= b < 3 -> -1 <= ws <= 0 ->
  query_input 3 3 street_input street_query (Ch.crossing_entry a ws) (Ch.crossing_entry b 0) 100 INVALID_EDGE_WEIGHT.
Proof.
  intros Ha Hb Hws.
  assert (forall D s w, Ch.start_at (Ch.crossing_entry a ws) (Ch.crossing_entry b 0) D s w -> w = (if D then ws else 0)) as Hst.
  { unfold Ch.start_at, Ch.entries, Ch.crossing_entry. intros [] s w (e & He & <-); apply lookup_insert_Some in He as [[<- <-]|[_ Hn]]; done. }
  constructor; [..|done].
  - unfold Ch.entries, Ch.crossing_entry. intros [] s e He; apply lookup_insert_Some in He as [[<- <-]|[_ Hn]]; done.
  - intros [] s w ->%Hst; lia.
  - intros D s w L v p ->%Hst HP. remember 6 as m eqn:Em.
    destruct (path_weight (Ch.up street_query D) 3 m) with (s := s) (L := L) (t := v) (p := p) as [Hnd [[_ ->]|[Hle Hx]]]; [..|done|destruct D; lia|].
    + intros u b' w (? & ? & _)%street_up; lia.
    + intros u b' w (_ & _ & ?)%street_up; lia.
    + pose proof (nodup_range_len L 3 ltac:(lia) Hnd Hx). destruct D; nia.
  - lia.
  - intros s t w wt p ->%Hst ->%Hst _ Hp. lia.
Qed.

(** From one end of the street to the other, and to a target that is 1
    behind the source, over the loop that stands for the way along the street and back. *)
Lemma ch_query_exact_witness : exists q q1 q1' q' q2 q2' q3 q3' leg leg',
  Ch.crossing_queue 0 0 = Some q /\ Ch.crossing_queue 2 0 = Some q1 /\ Ch.crossing_queue 0 (-1) = Some q' /\ Ch.crossing_queue 0 0 = Some q1' /\
  Ch.search street_query q q1 [] [] INVALID_EDGE_WEIGHT = Some (q2, q2', 5, leg) /\
  query_answer street_input (Ch.crossing_entry 0 0) (Ch.crossing_entry 2 0) INVALID_EDGE_WEIGHT 5 /\
  Ch.search street_query q' q1' [] [] INVALID_EDGE_WEIGHT = Some (q3, q3', 3, leg') /\
  query_answer street_input (Ch.crossing_entry 0 (-1)) (Ch.crossing_entry 0 0) INVALID_EDGE_WEIGHT 3.
Proof.
  assert (toContractorGraph sequential_sort 3 street_input = line) as El by (vm_compute; reflexivity). pose proof street_run as Hrun. rewrite <- El in Hrun.
  assert (zlen (edge_list street_contracted) < UINT32_MAX) as Hsize by (vm_compute; reflexivity).
  destruct (Ch.crossing_queue_ok 0 0 ltac:(lia)) as (q & E & Hq). destruct (Ch.crossing_queue_ok 2 0 ltac:(lia)) as (q1 & E1 & Hq1).
  destruct (Ch.crossing_queue_ok 0 (-1) ltac:(lia)) as (q' & E' & Hq').
  destruct (ch_query_exact (Index := ArrayStorage) (Heap := RefHeap) sequential_sort 3 3 street_input street_input_ok street_contracted _ Hrun eq_refl eq_refl Hsize) as (Q & EQ & Hall).
  assert (Q = street_query) as -> by (unfold street_query; rewrite EQ; reflexivity).
  destruct (Hall q q1 _ _ 0 10 0 10 100 INVALID_EDGE_WEIGHT (street_query_input 0 0 2 ltac:(lia) ltac:(lia) ltac:(lia)) Hq Hq1 eq_refl eq_refl) as (q2 & q2' & w & leg & Es & Ha).
  destruct (Hall q' q _ _ 0 10 0 10 100 INVALID_EDGE_WEIGHT (street_query_input 0 (-1) 0 ltac:(lia) ltac:(lia) ltac:(lia)) Hq' Hq eq_refl eq_refl) as (q3 & q3' & w' & leg' & Es' & Ha').
  exists q, q1, q, q', q2, q2', q3, q3', leg, leg'. split; [exact E|]. split; [exact E1|]. split; [exact E'|]. split; [exact E|].
  assert (Ch.answer_of street_query (Ch.crossing_queue 0 0) (Ch.crossing_queue 2 0) = Some (5, [0; 2])) as Ev by (vm_compute; reflexivity).
  assert (Ch.answer_of street_query (Ch.crossing_queue 0 (-1)) (Ch.crossing_queue 0 0) = Some (3, [0; 0])) as Ev' by (vm_compute; reflexivity).
  unfold Ch.answer_of in Ev, Ev'. rewrite E, E1 in Ev. rewrite E', E in Ev'. cbn [mbind option_bind] in Ev, Ev'.
  rewrite Es in Ev. rewrite Es' in Ev'. cbn in Ev, Ev'. injection Ev as -> ->. injection Ev' as -> ->.
  split; [exact Es|]. split; [exact Ha|]. split; [exact Es'|exact Ha'].
Defined.
