(* ===== verification/Excludable.v ===== *)
(** * One hierarchy for all excludable classes

    Model of include/contractor/contracted_edge_container.hpp,
    include/contractor/contract_excludable_graph.hpp and of the driver in
    src/contractor/contractor.cpp.  A profile can name combinations of classes of
    roads that requests may exclude; each gives a filter of nodes
    ([excludeFlagsToNodeFilter], in Classes).  Nodes that every filter allows are
    contracted once, up to a core; the core is contracted again for every
    filter.  All edges end up in one container, with a byte of flags per edge that
    says under which filters it exists; the flags become filters of edges, and a
    query runs on the view (FilteredGraph) of its filter. *)
From stdpp Require Import sorting.
From S2P Require Import Prelude Sorting Permutation QueryHeap DynamicGraph StaticGraph GraphInterface FilteredGraph.
From S2P Require Import ContractorSearch GraphContractor Contraction Hierarchy Classes ChSearch ContractorAdaptors.

Module Excludable.

(** ** The container *)

Record ContractedEdgeContainer : Type := mkContainer {
  index : Z;
  flags : list Z;
  edges : list QueryEdge
}.

Definition ContractedEdgeContainer_new : ContractedEdgeContainer := mkContainer 0 [] [].

Definition ALL_FLAGS : Z := 255.

(** What [std::tie] compares; the distance is not part of it. *)
Definition merge_key (e : QueryEdge) : list Z :=
  [ie_source e; ie_target e; Z.b2z (Ch.shortcut (ie_data e)); Ch.turn_id (ie_data e); Ch.weight (ie_data e);
   Ch.duration (ie_data e); Z.b2z (Ch.forward (ie_data e)); Z.b2z (Ch.backward (ie_data e))].

Definition mergeCompare (lhs rhs : QueryEdge) : bool := lexb (merge_key lhs) (merge_key rhs).

Definition mergable (lhs rhs : QueryEdge) : bool := negb (mergeCompare lhs rhs) && negb (mergeCompare rhs lhs).

(** [1 << index] as a byte; a shift by 32 or more is undefined. *)
Definition flag_of (index : Z) : option Z := if (0 <=? index) && (index <? 32) then Some (wrap 8 (Z.shiftl 1 index)) else None.

Definition Insert (c : ContractedEdgeContainer) (new_edges : list QueryEdge) : ContractedEdgeContainer :=
  mkContainer (index c) (resize (length new_edges) ALL_FLAGS (flags c)) new_edges.

(** The loop of [Filter] over the edges and their flags. *)
Fixpoint filter_flags (filter : list bool) (flag : Z) (edges : list QueryEdge) (flags : list Z) : option (list Z) :=
  match edges, flags with
  | [], _ => Some flags
  | _ :: _, [] => None
  | edge :: edges, f :: flags =>
      from ← filter !z ie_source edge;
      allowed ← (if (from : bool) then filter !z ie_target edge else Some false);
      rest ← filter_flags filter flag edges flags;
      Some ((if (allowed : bool) then Z.lor f flag else wrap 8 (Z.land f (Z.lnot flag))) :: rest)
  end.

Definition Filter (c : ContractedEdgeContainer) (filter : list bool) (index_ : Z) : option ContractedEdgeContainer :=
  flag ← flag_of index_;
  flags' ← filter_flags filter flag (edges c) (flags c);
  Some (mkContainer (index c) flags' (edges c)).

(** The [while] loop: the first old edge from [edge_iter] on that does not sort before [edge]. *)
Fixpoint first_not_before (edge : QueryEdge) (rest : list QueryEdge) (edge_iter : Z) : Z :=
  match rest with
  | old :: rest => if mergeCompare old edge then first_not_before edge rest (edge_iter + 1) else edge_iter
  | [] => edge_iter
  end.

(** The predicate of [remove_if], with the position of both iterators and the flags. *)
Definition is_contained (edges : list QueryEdge) (flag : Z) (edge : QueryEdge) (edge_iter : Z) (flags : list Z) : option (bool * Z * list Z) :=
  match edges !z edge_iter with
  | None => Some (false, edge_iter, flags)
  | Some old =>
      if mergeCompare edge old then Some (false, edge_iter, flags)
      else
        let edge_iter := first_not_before edge (drop (Z.to_nat edge_iter) edges) edge_iter in
        match edges !z edge_iter with
        | None => Some (false, edge_iter, flags)
        | Some old =>
            if mergable edge old
            then f ← flags !z edge_iter; flags' ← zset edge_iter (Z.lor f flag) flags; Some (true, edge_iter, flags')
            else Some (false, edge_iter, flags)
        end
  end.

(** [remove_if] over the new edges. *)
Fixpoint remove_contained (edges : list QueryEdge) (flag : Z) (new_edges : list QueryEdge) (edge_iter : Z) (flags : list Z)
  : option (list QueryEdge * list Z) :=
  match new_edges with
  | [] => Some ([], flags)
  | edge :: new_edges =>
      '(removed, edge_iter', flags') ← is_contained edges flag edge edge_iter flags;
      '(kept, flags'') ← remove_contained edges flag new_edges edge_iter' flags';
      Some (if (removed : bool) then kept else edge :: kept, flags'')
  end.

Section merge.
Context (parallel_sort : sort_function).

Definition edge_at (edges : list QueryEdge) (i : Z) : QueryEdge := default QueryEdge_new (edges !z i).

Definition Merge (c : ContractedEdgeContainer) (new_edges : list QueryEdge) : option ContractedEdgeContainer :=
  flag ← flag_of (index c);
  '(kept, flags1) ← remove_contained (edges c) flag new_edges 0 (flags c);
  let edges1 := edges c ++ kept in
  let flags2 := take (length edges1 - length kept) (resize (length edges1) 0 flags1) ++ replicate (length kept) flag in
  let ordering := parallel_sort Z (fun lhs_idx rhs_idx => mergeCompare (edge_at edges1 lhs_idx) (edge_at edges1 rhs_idx))
                    (wrap 32 <$> seqZ 0 (zlen edges1)) in
  permutation ← orderingToPermutation ordering;
  edges' ← inplacePermutation permutation edges1;
  flags' ← inplacePermutation permutation flags2;
  Some (mkContainer (index c + 1) flags' edges').
End merge.

Fixpoint make_edge_filters (flags : list Z) (indices : list Z) : option (list (list bool)) :=
  match indices with
  | [] => Some []
  | flag_index :: indices =>
      mask ← flag_of flag_index;
      rest ← make_edge_filters flags indices;
      Some (((fun flag => negb (Z.land flag mask =? 0)) <$> flags) :: rest)
  end.

Definition MakeEdgeFilters (c : ContractedEdgeContainer) : option (list (list bool)) := make_edge_filters (flags c) (seqZ 0 (index c)).

(** ** Contraction *)

Section contract.
Context {St H Handle : Type} `{IS : IndexStorage St, MH : MutableHeap H Handle}.
Context (parallel_sort : sort_function) (fuel : nat) (sort_edges : list ContractorEdge -> list ContractorEdge).
Context (hash : Z -> option Z) (heap : Z -> QueryHeap St H Handle ContractorHeapData).

(** The results of functions that may be undefined (or out of fuel) or throw. *)
Abbreviation result A := (option (option A)).

Definition GraphAndFilter : Type := QueryGraph * list (list bool).

(** The queue of a contraction is made for the nodes of its graph. *)
Definition contract (graph : ContractorGraph) (node_is_uncontracted node_is_contractable : list bool) (node_weights : list Z)
    (core_factor : SpecFloat.spec_float) : result (ContractorGraph * list bool) :=
  contractGraph fuel sort_edges hash (heap (GetNumberOfNodes graph)) graph node_is_uncontracted node_is_contractable node_weights core_factor.

Definition contractFullGraph (contractor_graph : ContractorGraph) (node_weights : list Z) : result GraphAndFilter :=
  let num_nodes := GetNumberOfNodes contractor_graph in
  r ← contract contractor_graph [] [] node_weights (double_of_int 1);
  match r with
  | None => Some None
  | Some (contractor_graph, _) =>
      edges ← toEdges parallel_sort contractor_graph;
      Some (Some (Static.InitializeFromSortedEdgeRange num_nodes edges, [replicate (length edges) true]))
  end.

(** [always_allowed]: the nodes of one filter, then of all filters. *)
Fixpoint allow_nodes (filter : list bool) (nodes : list Z) (always_allowed : list bool) : option (list bool) :=
  match nodes with
  | [] => Some always_allowed
  | node :: nodes =>
      before ← always_allowed !z node;
      now ← (if (before : bool) then filter !z node else Some false);
      always_allowed' ← zset node now always_allowed;
      allow_nodes filter nodes always_allowed'
  end.

Fixpoint allow_all (filters : list (list bool)) (num_nodes : Z) (always_allowed : list bool) : option (list bool) :=
  match filters with
  | [] => Some always_allowed
  | filter :: filters => a ← allow_nodes filter (seqZ 0 num_nodes) always_allowed; allow_all filters num_nodes a
  end.

(** [remove_if] of the edges inside the core. *)
Fixpoint remove_core_edges (is_shared_core : list bool) (edges : list QueryEdge) : option (list QueryEdge) :=
  match edges with
  | [] => Some []
  | edge :: edges =>
      from ← is_shared_core !z ie_source edge;
      inside ← (if (from : bool) then is_shared_core !z ie_target edge else Some false);
      rest ← remove_core_edges is_shared_core edges;
      Some (if (inside : bool) then rest else edge :: rest)
  end.

Fixpoint filter_all (filters : list (list bool)) (filter_index : Z) (c : ContractedEdgeContainer) : option ContractedEdgeContainer :=
  match filters with
  | [] => Some c
  | filter :: filters => c' ← Filter c filter filter_index; filter_all filters (filter_index + 1) c'
  end.

(** [filter[node]] in the predicates of [DynamicGraph::Filter]. *)
Definition bit (filter : list bool) (node : Z) : bool := default false (filter !z node).

(** The loop over the filters. *)
Fixpoint merge_filtered (shared_core_graph : ContractorGraph) (is_shared_core : list bool) (node_weights : list Z)
    (filters : list (list bool)) (c : ContractedEdgeContainer) : result ContractedEdgeContainer :=
  match filters with
  | [] => Some (Some c)
  | filter :: filters =>
      r ← contract (DynamicGraph.Filter shared_core_graph (bit filter)) is_shared_core is_shared_core node_weights (double_of_int 1);
      match r with
      | None => Some None
      | Some (filtered_core_graph, _) =>
          new_edges ← toEdges parallel_sort filtered_core_graph;
          c' ← Merge parallel_sort c new_edges;
          merge_filtered shared_core_graph is_shared_core node_weights filters c'
      end
  end.

(** 0.9f, the share of the nodes that the shared contraction may contract. *)
Definition BASE_CORE : SpecFloat.spec_float := SpecFloat.binary_normalize 53 1024 15099494 (-24) false.

Definition all_true (filters : list (list bool)) : bool :=
  match filters with [filter] => forallb id filter | _ => false end.

Definition contractExcludableGraph (contractor_graph : ContractorGraph) (node_weights : list Z) (filters : list (list bool))
  : result GraphAndFilter :=
  if all_true filters then contractFullGraph contractor_graph node_weights
  else
    let num_nodes := GetNumberOfNodes contractor_graph in
    always_allowed ← allow_all filters num_nodes (replicate (Z.to_nat num_nodes) true);
    r ← contract contractor_graph [] always_allowed node_weights BASE_CORE;
    match r with
    | None => Some None
    | Some (contractor_graph, is_shared_core) =>
        contracted_edges ← toEdges parallel_sort contractor_graph;
        non_core_edges ← remove_core_edges is_shared_core contracted_edges;
        c ← filter_all filters 0 (Insert ContractedEdgeContainer_new non_core_edges);
        let shared_core_graph := DynamicGraph.Filter contractor_graph (bit is_shared_core) in
        r ← merge_filtered shared_core_graph is_shared_core node_weights filters c;
        match r with
        | None => Some None
        | Some c =>
            edge_filters ← MakeEdgeFilters c;
            Some (Some (Static.InitializeFromSortedEdgeRange num_nodes (edges c), edge_filters))
        end
    end.

(** ** The driver *)

(** Weights of nodes with the top bit, which marks one-way streets. *)
Definition oneway_weights (node_weights : list Z) : list Z :=
  (fun weight => if negb (Z.land (wrap 32 weight) 0x80000000 =? 0) then INVALID_EDGE_WEIGHT else weight) <$> node_weights.

(** [Contractor::Run] on what the files and the updater provide. *)
Definition Run (number_of_edge_based_nodes : Z) (edge_based_edge_list : list (InputEdge EdgeBasedEdge.EdgeData)) (node_weights : list Z)
    (class_data : list Z) (properties : ProfileProperties) : result GraphAndFilter :=
  node_filters ← excludeFlagsToNodeFilter number_of_edge_based_nodes class_data properties;
  contractExcludableGraph (toContractorGraph parallel_sort number_of_edge_based_nodes edge_based_edge_list)
    (oneway_weights node_weights) node_filters.
End contract.

(** ** Flags *)

Lemma flag_of_ok i : 0 <= i < 8 -> flag_of i = Some (2 ^ i).
Proof.
  intros Hi. unfold flag_of. replace ((0 <=? i) && (i <? 32)) with true by (symmetry; split_bool; lia).
  rewrite Z.shiftl_1_l, wrap_small; [done|]. unfold in_word. pose proof (Z.pow_lt_mono_r 2 i 8). lia.
Qed.

(** The bit of a flag, as the filters test it. *)
Lemma flag_tested f i : 0 <= i -> negb (Z.land f (2 ^ i) =? 0) = Z.testbit f i.
Proof.
  intros Hi. assert (Z.land f (2 ^ i) = if Z.testbit f i then 2 ^ i else 0) as ->.
  { apply Z.bits_inj'. intros j Hj. rewrite Z.land_spec, Z.pow2_bits_eqb by done. destruct (Z.eqb_spec i j) as [<-|Hne].
    - rewrite andb_true_r. destruct (Z.testbit f i); [by rewrite Z.pow2_bits_true|by rewrite Z.bits_0].
    - rewrite andb_false_r. destruct (Z.testbit f i); [by rewrite Z.pow2_bits_false|by rewrite Z.bits_0]. }
  pose proof (Z.pow_pos_nonneg 2 i). destruct (Z.testbit f i); [|done]. replace (2 ^ i =? 0) with false by lia. done.
Qed.

(** The edges that exist under a filter. *)
Definition bits (i : Z) (flags : list Z) : list bool := (fun f => Z.testbit f i) <$> flags.
Definition visible (i : Z) (c : ContractedEdgeContainer) : list QueryEdge := masked (edges c) (bits i (flags c)).

Definition container_ok (c : ContractedEdgeContainer) : Prop := length (flags c) = length (edges c).

Lemma MakeEdgeFilters_ok c : 0 <= index c <= 8 -> exists filters, MakeEdgeFilters c = Some filters /\ zlen filters = index c /\
  forall i, 0 <= i < index c -> filters !z i = Some (bits i (flags c)).
Proof.
  intros Hi. exists ((fun i => bits i (flags c)) <$> seqZ 0 (index c)). split; [|split].
  - unfold MakeEdgeFilters. assert (forall i, i ∈ seqZ 0 (index c) -> 0 <= i < 8) as Hr by (intros i Hx%elem_of_seqZ; lia).
    induction (seqZ 0 (index c)) as [|i l IH]; [done|]. cbn [make_edge_filters]. rewrite flag_of_ok by (apply Hr; left). cbn [mbind option_bind].
    rewrite IH by (intros; apply Hr; by right). cbn [mbind option_bind fmap list_fmap]. do 2 f_equal.
    apply list_fmap_ext. intros _ f _. apply flag_tested. specialize (Hr i). set_solver.
  - unfold zlen. rewrite length_fmap, length_seqZ. lia.
  - intros i Hx. rewrite zget_fmap. unfold zget. replace (0 <=? i) with true by lia. rewrite lookup_seqZ_lt by lia. simpl. do 2 f_equal. lia.
Qed.

(** ** Equal edges *)

Lemma mergeCompare_strict_weak : strict_weak mergeCompare.
Proof. by apply (lexb_strict_weak merge_key). Qed.

Lemma mergable_key e e' : mergable e e' = true <-> merge_key e = merge_key e'.
Proof.
  unfold mergable, mergeCompare. split.
  - rewrite andb_true_iff, !negb_true_iff. intros [H1 H2]. by destruct (lexb_total (merge_key e) (merge_key e') eq_refl H1) as [?|?]; [|congruence].
  - intros ->. by rewrite lexb_irrefl.
Qed.

(** ** Merging

    Edges are told apart by their keys: [keys] of a list.  A flag set at a slot
    makes the edge of that slot visible. *)

Definition keys (l : list QueryEdge) : list (list Z) := merge_key <$> l.

Lemma bits_set i j f flags flags' p : 0 <= i -> 0 <= j -> flags !z p = Some f -> zset p (Z.lor f (2 ^ i)) flags = Some flags' ->
  bits j flags' = if decide (i = j) then <[Z.to_nat p := true]> (bits j flags) else bits j flags.
Proof.
  intros Hi Hj Hf (Hp & ->)%zset_inv. unfold bits. rewrite list_fmap_insert, Z.lor_spec, Z.pow2_bits_eqb by done. unfold zget in Hf.
  replace (0 <=? p) with true in Hf by lia. case_decide as E.
  - subst j. by rewrite Z.eqb_refl, orb_true_r.
  - replace (i =? j) with false by lia. rewrite orb_false_r. apply list_insert_id. by rewrite list_lookup_fmap, Hf.
Qed.

Lemma masked_set {A} (l : list A) f p x : l !! p = Some x -> length f = length l ->
  forall y, y ∈ masked l (<[p := true]> f) <-> y = x \/ y ∈ masked l f.
Proof.
  intros Hp Hl y. rewrite !masked_elem. pose proof (lookup_lt_Some _ _ _ Hp) as Hlt. split.
  - intros (k & H1 & H2). destruct (decide (k = p)) as [->|Hne]; [left; congruence|].
    right. exists k. by rewrite list_lookup_insert_ne in H2.
  - intros [->|(k & H1 & H2)]; [exists p; by rewrite list_lookup_insert_eq by lia|]. exists k. split; [done|].
    destruct (decide (k = p)) as [->|Hne]; [by rewrite list_lookup_insert_eq by lia|by rewrite list_lookup_insert_ne].
Qed.

(** The scan over the new edges. *)
Record scanned (es : list QueryEdge) (i : Z) (new kept : list QueryEdge) (fs fs' : list Z) : Prop := {
  sc_len : length fs' = length fs;
  sc_kept : kept ⊆ new;
  sc_size : (length kept <= length new)%nat;
  sc_other j : 0 <= j -> j <> i -> bits j fs' = bits j fs;
  sc_keys k : k ∈ keys (masked es (bits i fs')) \/ k ∈ keys kept <-> k ∈ keys (masked es (bits i fs)) \/ k ∈ keys new
}.

Lemma is_contained_ok es i edge iter fs : 0 <= i -> 0 <= iter -> length fs = length es ->
  exists removed iter' fs', is_contained es (2 ^ i) edge iter fs = Some (removed, iter', fs') /\ 0 <= iter' /\
    scanned es i [edge] (if (removed : bool) then [] else [edge]) fs fs'.
Proof.
  intros Hi Hiter Hl. assert (scanned es i [edge] [edge] fs fs) as Hsame by (by constructor).
  unfold is_contained. destruct (es !z iter) as [old|]; [|by exists false, iter, fs].
  destruct (mergeCompare edge old); [by exists false, iter, fs|].
  assert (forall rest it, 0 <= it -> 0 <= first_not_before edge rest it) as Hfirst.
  { intros rest. induction rest as [|o rest IH]; intros it Hit; simpl; [done|]. case_match; [apply IH; lia|done]. }
  specialize (Hfirst (drop (Z.to_nat iter) es) iter Hiter). set (p := first_not_before _ _ _) in *.
  destruct (es !z p) as [old'|] eqn:Ep; [|by exists false, p, fs].
  destruct (mergable edge old') eqn:Em; [|by exists false, p, fs].
  apply mergable_key in Em. pose proof (zget_some _ _ _ Ep) as Hp.
  destruct (zget_is_some fs p) as [f Hf]; [unfold zlen in *; lia|]. destruct (zset_some fs p (Z.lor f (2 ^ i))) as [fs' Hfs']; [unfold zlen in *; lia|].
  rewrite Hf. cbn [mbind option_bind]. rewrite Hfs'. exists true, p, fs'. split; [done|]. split; [done|].
  pose proof (zset_len _ _ _ _ Hfs') as Hlen. unfold zlen in Hlen. constructor; [lia|set_solver|simpl; lia|..].
  - intros j Hj Hne. rewrite (bits_set i j f fs fs' p) by done. by rewrite decide_False.
  - intros k. rewrite (bits_set i i f fs fs' p), decide_True by done. unfold keys, zget in *. replace (0 <=? p) with true in Ep by lia.
    rewrite !list_elem_of_fmap. setoid_rewrite (masked_set es _ _ old' Ep); [|unfold bits; by rewrite length_fmap].
    split.
    + intros [(x & -> & [->|Hx])|(x & _ & []%elem_of_nil)]; [right; exists edge; by rewrite list_elem_of_singleton|left; by exists x].
    + intros [(x & -> & Hx)|(x & -> & ->%list_elem_of_singleton)]; left; [exists x; by auto|exists old'; by auto].
Qed.

Lemma remove_contained_ok es i new : 0 <= i -> forall iter fs, 0 <= iter -> length fs = length es ->
  exists kept fs', remove_contained es (2 ^ i) new iter fs = Some (kept, fs') /\ scanned es i new kept fs fs'.
Proof.
  intros Hi. induction new as [|edge new IH]; intros iter fs Hiter Hl; [exists [], fs; split; [done|]; by constructor|].
  destruct (is_contained_ok es i edge iter fs Hi Hiter Hl) as (removed & iter' & fs1 & E & Hiter' & H1). destruct H1 as [L1 S1 Z1 O1 K1].
  destruct (IH iter' fs1 Hiter') as (kept & fs' & E' & [L2 S2 Z2 O2 K2]); [lia|]. cbn [remove_contained]. rewrite E. cbn [mbind option_bind].
  rewrite E'. cbn [mbind option_bind]. eexists _, fs'. split; [done|].
  assert ((if removed then kept else edge :: kept) = (if removed then [] else [edge]) ++ kept) as -> by (by destruct removed).
  assert (forall a b : list QueryEdge, keys (a ++ b) = keys a ++ keys b) as Happ by (intros; apply fmap_app).
  constructor; [lia|set_solver|destruct removed; simpl in *; lia|..].
  - intros j Hj Hne. by rewrite O2, O1.
  - intros k. specialize (K1 k). specialize (K2 k). change (edge :: new) with ([edge] ++ new). rewrite !Happ, !elem_of_app. tauto.
Qed.

(** Moving two lists by one permutation moves their pairs. *)
Lemma moved_zip {A B} (p : list Z) (l l' : list A) (k k' : list B) : length k = length l -> is_permutation (zlen l) p ->
  zlen l' = zlen l -> zlen k' = zlen k -> (forall i j, p !z i = Some j -> l' !z j = l !z i) -> (forall i j, p !z i = Some j -> k' !z j = k !z i) ->
  zip l' k' ≡ₚ zip l k.
Proof.
  intros Hl Hp Hl' Hk' Gl Gk. symmetry. unfold zlen in *.
  assert (forall (a : list A) (b : list B) i, zip a b !z i = (x ← a !z i; y ← b !z i; Some (x, y))) as Hz.
  { intros a b i. unfold zget. destruct (0 <=? i); [|done]. destruct (zip a b !! Z.to_nat i) as [[x y]|] eqn:E.
    - apply lookup_zip_with_Some in E as (x' & y' & [= <- <-] & -> & ->). done.
    - destruct (a !! Z.to_nat i) as [x|] eqn:Ex; [|done]. destruct (b !! Z.to_nat i) as [y|] eqn:Ey; [|done]. exfalso.
      apply eq_None_not_Some in E. apply E. eexists. apply lookup_zip_with_Some. by exists x, y. }
  apply (moved_Permutation p).
  - unfold zlen. rewrite length_zip_with_l_eq by lia. done.
  - unfold zlen. rewrite !length_zip_with_l_eq by lia. lia.
  - intros i j Hij. by rewrite !Hz, (Gl i j Hij), (Gk i j Hij).
Qed.

Section merging.
Context (parallel_sort : sort_function) `{!ParallelSort parallel_sort}.

(** What [Merge] does to the container, for edges in any order. *)
Record merged_with (c : ContractedEdgeContainer) (new : list QueryEdge) (c' : ContractedEdgeContainer) : Prop := {
  mg_ok : container_ok c';
  mg_index : index c' = index c + 1;
  mg_sorted : ordered mergeCompare (edges c');
  mg_size : (length (edges c') <= length (edges c) + length new)%nat;
  mg_from : edges c' ⊆ edges c ++ new;
  mg_other j : 0 <= j -> j <> index c -> visible j c' ≡ₚ visible j c;
  mg_own k : k ∈ keys (visible (index c) c') <-> k ∈ keys (visible (index c) c) \/ k ∈ keys new
}.

Lemma sorted_by_edges (es : list QueryEdge) : zlen es <= 2 ^ 32 ->
  let lt := fun l r => mergeCompare (edge_at es l) (edge_at es r) in
  let ordering := parallel_sort Z lt (wrap 32 <$> seqZ 0 (zlen es)) in
  is_permutation (zlen es) ordering /\ ordered mergeCompare (edge_at es <$> ordering).
Proof using All.
  intros Hlen lt ordering. assert (wrap 32 <$> seqZ 0 (zlen es) = seqZ 0 (zlen es)) as E.
  { rewrite <- (list_fmap_id (seqZ 0 (zlen es))) at 2. apply list_fmap_ext. intros _ i Hi%list_elem_of_lookup_2%elem_of_seqZ. apply wrap_small. split; simpl; lia. }
  unfold ordering. rewrite E. split; [apply parallel_sort_Permutation|].
  apply (StronglySorted_fmap (edge_at es) (fun x y => lt y x = false)); [done|]. apply parallel_sort_ordered.
  destruct mergeCompare_strict_weak as [Ha Hs]. split; unfold lt; intros *; [apply Ha|apply Hs].
Qed.

Lemma visible_appended i flag fs (es kept : list QueryEdge) : length fs = length es ->
  masked (es ++ kept) (bits i (fs ++ replicate (length kept) flag)) = masked es (bits i fs) ++ (if Z.testbit flag i then kept else []).
Proof.
  intros Hl. unfold bits. rewrite fmap_app, fmap_replicate, masked_app by (by rewrite length_fmap). f_equal. by apply masked_all.
Qed.

Lemma Merge_ok c new : container_ok c -> 0 <= index c < 8 -> zlen (edges c) + zlen new <= 2 ^ 32 ->
  exists c', Merge parallel_sort c new = Some c' /\ merged_with c new c'.
Proof using All.
  intros Hc Hi Hsize. unfold Merge. rewrite flag_of_ok by done. cbn [mbind option_bind].
  destruct (remove_contained_ok (edges c) (index c) new ltac:(lia) 0 (flags c) ltac:(lia) Hc) as (kept & fs1 & E & [L1 S1 Z1 O1 K1]).
  rewrite E. cbn [mbind option_bind]. set (es1 := edges c ++ kept). rewrite Hc in L1.
  assert (take (length es1 - length kept) (resize (length es1) 0 fs1) = fs1) as ->.
  { unfold es1. rewrite length_app, resize_ge, take_app_le, take_ge by lia. done. }
  set (fs2 := fs1 ++ _). assert (length fs2 = length es1) as L2 by (unfold fs2, es1; rewrite !length_app, length_replicate; lia).
  destruct (sorted_by_edges es1) as [Hperm Hord]; [unfold es1, zlen in *; rewrite length_app; lia|]. set (ordering := parallel_sort _ _ _) in *.
  pose proof (perm_len _ _ (zlen_nonneg es1) Hperm) as Hpl. destruct (orderingToPermutation_ok ordering) as (p & Ep & Hp & Hinv); [by rewrite Hpl|]. rewrite Hpl in Hp.
  rewrite Ep. cbn [mbind option_bind]. destruct (inplacePermutation_ok p es1 Hp) as (es' & Ees & Les & Ges). rewrite Ees. cbn [mbind option_bind].
  assert (zlen fs2 = zlen es1) as L3 by (unfold zlen; lia). destruct (inplacePermutation_ok p fs2) as (fs' & Efs & Lfs & Gfs); [by rewrite L3|].
  rewrite Efs. cbn [mbind option_bind]. eexists. split; [done|].
  pose proof (moved_zip p es1 es' fs2 fs' L2 Hp Les Lfs Ges Gfs) as Hzip.
  assert (forall i, masked es' (bits i fs') ≡ₚ masked es1 (bits i fs2)) as Hvis.
  { intros i. apply masked_Permutation. unfold bits. rewrite !zip_with_fmap_r, !(zip_with_zip (fun x y => (x, Z.testbit y i))). by rewrite Hzip. }
  assert (es1 ≡ₚ es') as Hes by (eapply moved_Permutation; [done|done|done]).
  constructor; cbn [edges flags index].
  - unfold container_ok. cbn. unfold zlen in *. lia.
  - done.
  - assert (es' = edge_at es1 <$> ordering) as ->; [|done]. apply zlist_eq; [unfold zlen in *; rewrite length_fmap; lia|]. intros k Hk. rewrite zget_fmap.
    destruct (zget_is_some ordering k) as [o Ho]; [lia|]. rewrite Ho. simpl. rewrite (Ges _ _ (Hinv _ _ Ho)). unfold edge_at.
    destruct (zget_is_some es1 o) as [x Hx]; [exact (perm_range _ _ Hperm _ _ Ho)|]. by rewrite Hx.
  - rewrite <- (Permutation_length Hes). unfold es1. rewrite length_app. lia.
  - rewrite <- Hes. unfold es1. set_solver.
  - intros j Hj Hne. unfold visible. cbn [edges flags]. rewrite Hvis. unfold es1, fs2. rewrite visible_appended by done.
    rewrite Z.pow2_bits_false, app_nil_r by lia. by rewrite O1.
  - intros k. unfold visible, keys. cbn [edges flags]. rewrite Hvis. unfold es1, fs2. rewrite visible_appended by done.
    rewrite Z.pow2_bits_true by lia. rewrite fmap_app, elem_of_app. apply K1.
Qed.
End merging.

(** ** The filters of the shared edges *)

(** Are both ends of an edge allowed? *)
Definition inside (filter : list bool) (e : QueryEdge) : bool := bit filter (ie_source e) && bit filter (ie_target e).

Definition covers (filter : list bool) (es : list QueryEdge) : Prop :=
  forall e, e ∈ es -> 0 <= ie_source e < zlen filter /\ 0 <= ie_target e < zlen filter.

Lemma bit_get filter v : 0 <= v < zlen filter -> filter !z v = Some (bit filter v).
Proof. intros [b Hb]%zget_is_some. unfold bit. by rewrite Hb. Qed.

(** Reading both ends, the second one only when the first is allowed. *)
Lemma inside_read {B} filter e (f : bool -> option B) : covers filter [e] ->
  (from ← filter !z ie_source e; x ← (if (from : bool) then filter !z ie_target e else Some false); f x) = f (inside filter e).
Proof.
  intros Hc. destruct (Hc e) as [H1 H2]; [by left|]. unfold inside. rewrite !bit_get by done. cbn [mbind option_bind].
  by destruct (bit filter (ie_source e)).
Qed.

Lemma covers_cons filter e es : covers filter (e :: es) -> covers filter [e] /\ covers filter es.
Proof. intros H. split; intros x Hx; apply H; set_solver. Qed.

Lemma filter_flags_ok filter i es : 0 <= i < 8 -> covers filter es -> forall fs, length fs = length es ->
  exists fs', filter_flags filter (2 ^ i) es fs = Some fs' /\ length fs' = length fs /\
    forall j, 0 <= j < 8 -> bits j fs' = if decide (i = j) then inside filter <$> es else bits j fs.
Proof.
  intros Hi. induction es as [|e es IH]; intros Hc [|f fs] Hl; try done.
  { exists []. split; [done|]. split; [done|]. intros j _. by case_decide. }
  apply covers_cons in Hc as [He Hc]. destruct (IH Hc fs) as (fs' & E & L & Hb); [simpl in Hl; lia|].
  cbn [filter_flags]. rewrite inside_read by done. rewrite E. cbn [mbind option_bind]. eexists. split; [done|]. split; [simpl; by rewrite L|].
  intros j Hj. cbn [bits fmap list_fmap]. specialize (Hb j Hj). unfold bits in Hb. rewrite Hb.
  assert (Z.testbit (if inside filter e then Z.lor f (2 ^ i) else wrap 8 (Z.land f (Z.lnot (2 ^ i)))) j
    = if decide (i = j) then inside filter e else Z.testbit f j) as ->; [|by case_decide].
  destruct (inside filter e).
  - rewrite Z.lor_spec, Z.pow2_bits_eqb by lia. case_decide; [subst; by rewrite Z.eqb_refl, orb_true_r|].
    replace (i =? j) with false by lia. apply orb_false_r.
  - rewrite testbit_wrap, Z.land_spec, Z.lnot_spec, Z.pow2_bits_eqb by lia. replace (j <? 8) with true by lia. cbn [andb].
    case_decide; [subst; by rewrite Z.eqb_refl, andb_false_r|]. replace (i =? j) with false by lia. apply andb_true_r.
Qed.

Lemma filter_all_ok filters : forall i c, 0 <= i -> i + zlen filters <= 8 -> container_ok c -> (forall f, f ∈ filters -> covers f (edges c)) ->
  exists c', filter_all filters i c = Some c' /\ edges c' = edges c /\ index c' = index c /\ container_ok c' /\
    (forall j, 0 <= j < i -> bits j (flags c') = bits j (flags c)) /\
    forall k f, filters !! k = Some f -> bits (i + Z.of_nat k) (flags c') = inside f <$> edges c.
Proof.
  induction filters as [|f filters IH]; intros i c Hi Hn Hc Hcov; [by exists c|]. rewrite zlen_cons in Hn. pose proof (zlen_nonneg filters).
  destruct (filter_flags_ok f i (edges c) ltac:(lia) (Hcov f ltac:(left)) (flags c) Hc) as (fs & E & L & Hb).
  destruct (IH (i + 1) (mkContainer (index c) fs (edges c))) as (c' & E' & He & Hx & Hok & Hlow & Hk); [lia|lia|unfold container_ok in *; simpl; lia| |].
  { intros f' Hf'. apply Hcov. by right. }
  cbn [edges index flags] in *. exists c'. cbn [filter_all]. unfold Filter. rewrite flag_of_ok by lia. cbn [mbind option_bind]. rewrite E. cbn [mbind option_bind].
  split_and!; try done.
  - intros j Hj. rewrite Hlow, Hb by lia. by rewrite decide_False by lia.
  - intros [|k] f' Hk'; simpl in Hk'.
    + injection Hk' as ->. replace (i + Z.of_nat 0) with i by lia. rewrite Hlow, Hb by lia. by rewrite decide_True.
    + replace (i + Z.of_nat (S k)) with (i + 1 + Z.of_nat k) by lia. by apply Hk.
Qed.

Lemma masked_by {A} (b : A -> bool) (l : list A) : masked l (b <$> l) = filter (fun x => b x = true) l.
Proof. induction l as [|x l IH]; [done|]. cbn [fmap list_fmap masked]. rewrite filter_cons, <- IH. by destruct (b x). Qed.

Lemma remove_core_edges_ok core es : covers core es -> remove_core_edges core es = Some (filter (fun e => inside core e = false) es).
Proof.
  induction es as [|e es IH]; [done|]. intros [He Hc]%covers_cons. cbn [remove_core_edges]. rewrite inside_read by done. rewrite IH by done.
  cbn [mbind option_bind]. rewrite filter_cons. by destruct (inside core e).
Qed.

(** ** The nodes of all filters *)

Lemma allow_nodes_ok f nodes : (forall v, v ∈ nodes -> 0 <= v < zlen f) -> NoDup nodes -> forall al, zlen al = zlen f ->
  exists al', allow_nodes f nodes al = Some al' /\ zlen al' = zlen al /\
    forall v, 0 <= v < zlen al -> bit al' v = if decide (v ∈ nodes) then bit al v && bit f v else bit al v.
Proof.
  intros Hr Hnd. induction Hnd as [|v nodes Hv Hnd IH]; intros al Hl.
  { exists al. split; [done|]. split; [done|]. intros v _. rewrite decide_False; [done|]. apply not_elem_of_nil. }
  assert (0 <= v < zlen f) as Hvr by (apply Hr; left). destruct (zset_some al v (bit al v && bit f v)) as [al1 E1]; [lia|]. pose proof (zset_len _ _ _ _ E1) as L1.
  destruct (IH (fun w Hw => Hr w ltac:(by right)) al1) as (al' & E & L & Hb); [lia|]. exists al'. cbn [allow_nodes]. rewrite !bit_get by lia. cbn [mbind option_bind].
  assert ((if bit al v then Some (bit f v) else Some false) = Some (bit al v && bit f v)) as -> by (by destruct (bit al v)). cbn [mbind option_bind].
  rewrite E1. cbn [mbind option_bind]. split; [done|]. split; [lia|]. intros w Hw. rewrite Hb by lia.
  assert (bit al1 w = if decide (v = w) then bit al v && bit f v else bit al w) as -> by (unfold bit at 1; rewrite (zset_get _ _ _ _ _ E1); by case_decide).
  destruct (decide (v = w)) as [->|Hne].
  - rewrite decide_False by done. rewrite decide_True by left. done.
  - destruct (decide (w ∈ nodes)); [rewrite decide_True by (by right)|rewrite decide_False by set_solver]; done.
Qed.

Definition allowed_always (filters : list (list bool)) (n : Z) : list bool := (fun v => forallb (fun f => bit f v) filters) <$> seqZ 0 n.

Lemma allow_all_ok filters n : 0 <= n -> (forall f, f ∈ filters -> zlen f = n) -> forall al, zlen al = n ->
  exists al', allow_all filters n al = Some al' /\ zlen al' = n /\ forall v, 0 <= v < n -> bit al' v = bit al v && forallb (fun f => bit f v) filters.
Proof.
  intros Hn. induction filters as [|f filters IH]; intros Hf al Hl.
  { exists al. split; [done|]. split; [done|]. intros v _. by rewrite andb_true_r. }
  assert (zlen f = n) as Lf by (apply Hf; left). destruct (allow_nodes_ok f (seqZ 0 n)) with (al := al) as (al1 & E1 & L1 & H1).
  - intros v Hv%elem_of_seqZ. lia.
  - apply NoDup_seqZ.
  - lia.
  - destruct (IH (fun g Hg => Hf g ltac:(by right)) al1) as (al' & E & L & H2); [lia|]. exists al'. cbn [allow_all]. rewrite E1. cbn [mbind option_bind].
    split; [done|]. split; [done|]. intros v Hv. rewrite H2, H1 by lia. rewrite decide_True by (apply elem_of_seqZ; lia). cbn [forallb]. by rewrite andb_assoc.
Qed.

Lemma allow_all_always filters n : 0 <= n -> (forall f, f ∈ filters -> zlen f = n) ->
  allow_all filters n (replicate (Z.to_nat n) true) = Some (allowed_always filters n).
Proof.
  intros Hn Hf. assert (zlen (replicate (Z.to_nat n) true) = n) as Lr by (unfold zlen; rewrite length_replicate; lia).
  destruct (allow_all_ok filters n Hn Hf _ Lr) as (al & -> & L & Hb). f_equal. apply zlist_eq.
  { unfold allowed_always, zlen in *. rewrite length_fmap, length_seqZ. lia. }
  intros v Hv. rewrite bit_get, Hb by lia. unfold allowed_always. rewrite zget_fmap. unfold bit at 1, zget. replace (0 <=? v) with true by lia.
  rewrite lookup_replicate_2, lookup_seqZ_lt by lia. simpl. by rewrite Z2Nat.id by lia.
Qed.

(** The filters of the driver: at most one for each mask of the profile, and a bit per node. *)
Lemma node_filter_len class_data nodes mask f : node_filter class_data nodes mask = Some f -> length f = length nodes.
Proof. revert f. induction nodes as [|v nodes IH]; intros f E; simpl in E; inv_opt; simpl; [done|]. by erewrite IH by done. Qed.

Lemma node_filters_shape n class_data masks filters : 0 <= n -> node_filters n class_data masks = Some filters ->
  zlen filters <= zlen masks /\ forall f, f ∈ filters -> zlen f = n.
Proof.
  intros Hn. revert filters. induction masks as [|mask masks IH]; intros filters E; cbn [node_filters] in E.
  { injection E as <-. split; [done|]. by intros f ?%elem_of_nil. }
  rewrite zlen_cons. case_match; inv_opt.
  - match goal with E : node_filters _ _ masks = Some _ |- _ => destruct (IH _ E) as [Hl Hf] end. rewrite zlen_cons. split; [lia|]. intros x [->|Hx]%elem_of_cons; [|by apply Hf].
    unfold zlen. erewrite node_filter_len by done. rewrite length_seqZ. lia.
  - destruct (IH _ E) as [Hl Hf]. split; [lia|done].
Qed.

(** The eight masks of the properties give filters that fit the byte of flags. *)
Theorem filters_fit_flags n class_data p filters (Hn : 0 <= n) (Hp : zlen (excludable_classes p) = 8)
    (Hf : excludeFlagsToNodeFilter n class_data p = Some filters) :
  zlen filters <= 8 /\ forall f, f ∈ filters -> zlen f = n.
Proof. rewrite <- Hp. by eapply node_filters_shape. Qed.

(** ** Views of the merged edges *)

(** The edges of a list that the search of a direction climbs. *)
Definition up_in (l : list QueryEdge) (DIRECTION : bool) (u v w : Z) : Prop :=
  exists e, e ∈ l /\ ie_source e = u /\ ie_target e = v /\ Ch.usable DIRECTION (ie_data e) = true /\ Ch.weight (ie_data e) = w.

Lemma up_in_keys l l' DIRECTION u v w : (forall k, k ∈ keys l -> k ∈ keys l') -> up_in l DIRECTION u v w -> up_in l' DIRECTION u v w.
Proof.
  intros Hk (e & He & Hrest). destruct (proj1 (list_elem_of_fmap _ _ _) (Hk _ (list_elem_of_fmap_2 merge_key l e He))) as (e' & Ek & He').
  exists e'. split; [done|]. injection Ek as E1 E2 E3 E4 E5 E6 E7 E8. apply Z.b2z_inj in E7, E8. rewrite <- E1, <- E2, <- E5.
  unfold Ch.usable in *. by rewrite <- E7, <- E8.
Qed.

Lemma up_in_app l l' DIRECTION u v w : up_in (l ++ l') DIRECTION u v w <-> up_in l DIRECTION u v w \/ up_in l' DIRECTION u v w.
Proof. unfold up_in. setoid_rewrite elem_of_app. naive_solver. Qed.

Lemma merge_sources (l : list QueryEdge) n : (forall e, e ∈ l -> 0 <= ie_source e < n) -> ordered mergeCompare l -> sources_sorted 0 n l.
Proof.
  generalize 0 as lo. intros lo Hlo Hs. revert lo Hlo. induction Hs as [|e l Hs IH Hx]; intros lo Hlo; [done|].
  rewrite Forall_forall in Hx. split; [apply Hlo; left|]. apply IH. intros x Hin. split; [|apply Hlo; by right].
  apply Hx in Hin. unfold mergeCompare, merge_key in Hin. simpl in Hin. apply orb_false_iff in Hin as [Hin _]. lia.
Qed.

(** The view of the finished graph under a filter shows the edges with its flag. *)
Lemma view_ok n c i : 0 <= n < UINT32_MAX -> container_ok c -> ordered mergeCompare (edges c) -> (forall e, e ∈ edges c -> 0 <= ie_source e < n) ->
  zlen (edges c) < UINT32_MAX ->
  let view := Filtered.mkFilteredGraph (Static.InitializeFromSortedEdgeRange n (edges c)) (bits i (flags c)) in
  Filtered.fg_wf view /\ Filtered.GetNumberOfNodes view = n /\
  forall DIRECTION u v w, Ch.up view DIRECTION u v w <-> 0 <= u < n /\ up_in (visible i c) DIRECTION u v w.
Proof.
  intros Hn Hc Hs Hpos Hsize view. destruct (Filtered.construct_filtered n (edges c) (bits i (flags c))) as (Hwf & Hnodes & Hadj);
    [done|by apply merge_sources|done|unfold bits; by rewrite length_fmap|].
  split; [exact Hwf|]. split; [exact Hnodes|]. intros DIRECTION u v w. unfold Ch.up.
  change (graph_nodes view) with n. change (adjacency view u) with (Filtered.adjacency view u). split.
  - intros (Hu & x & Hx & <- & Hr). split; [done|]. rewrite Hadj in Hx by done. apply list_elem_of_fmap in Hx as (e & -> & [Hsrc He]%list_elem_of_filter).
    by exists e.
  - intros (Hu & e & He & Hsrc & <- & Hr). split; [done|]. exists (edge_of_input e). split; [|done]. rewrite Hadj by done. apply list_elem_of_fmap_2.
    by apply list_elem_of_filter.
Qed.

(** ** The contraction for all filters *)

Section excludable.
Context {St H Handle : Type} `{IS : IndexStorage St, MH : MutableHeap H Handle}.
Context (parallel_sort : sort_function) `{!ParallelSort parallel_sort} (fuel : nat) (sort_edges : list ContractorEdge -> list ContractorEdge).
Context (hash : Z -> option Z) (heap : Z -> QueryHeap St H Handle ContractorHeapData) (node_weights : list Z).

(** The contraction of the core for one filter and its edges. *)
Definition core_run (core_graph : ContractorGraph) (core f : list bool) (g : ContractorGraph) : Prop :=
  exists core', contract fuel sort_edges hash heap (DynamicGraph.Filter core_graph (bit f)) core core node_weights (double_of_int 1) = Some (Some (g, core')).

Record merged_all (c : ContractedEdgeContainer) (news : list (list QueryEdge)) (c' : ContractedEdgeContainer) : Prop := {
  ma_ok : container_ok c';
  ma_index : index c' = index c + zlen news;
  ma_sorted : ordered mergeCompare (edges c) \/ news <> [] -> ordered mergeCompare (edges c');
  ma_size : zlen (edges c') <= zlen (edges c) + zlen (mjoin news);
  ma_from : edges c' ⊆ edges c ++ mjoin news;
  ma_other j : 0 <= j -> j < index c \/ index c + zlen news <= j -> visible j c' ≡ₚ visible j c;
  ma_own m new k : news !! m = Some new ->
    k ∈ keys (visible (index c + Z.of_nat m) c') <-> k ∈ keys (visible (index c + Z.of_nat m) c) \/ k ∈ keys new
}.

Lemma merged_all_nil c : container_ok c -> merged_all c [] c.
Proof.
  intros Hc. constructor; rewrite ?zlen_nil; [done|lia|by intros [?|?]|change (zlen (mjoin [])) with 0; lia|set_solver|done|done].
Qed.

Lemma merged_all_cons c new c1 news c' : 0 <= index c -> merged_with c new c1 -> merged_all c1 news c' -> merged_all c (new :: news) c'.
Proof.
  intros Hi [O1 I1 S1 Z1 F1 V1 K1] [O2 I2 S2 Z2 F2 V2 K2]. pose proof (zlen_nonneg news).
  change (mjoin (new :: news)) with (new ++ mjoin news) in *.
  constructor; rewrite ?zlen_cons; change (mjoin (new :: news)) with (new ++ mjoin news); [done|lia|..].
  - intros _. apply S2. by left.
  - rewrite zlen_app. unfold zlen in *. lia.
  - intros x Hx%F2. rewrite app_assoc. apply elem_of_app in Hx as [Hx%F1|Hx]; apply elem_of_app; [by left|by right].
  - intros j Hj Hr. rewrite V2, V1 by lia. done.
  - intros [|m] new' k Hm; simpl in Hm.
    + injection Hm as ->. rewrite Z.add_0_r, <- K1. unfold keys. by rewrite V2 by lia.
    + replace (index c + Z.of_nat (S m)) with (index c1 + Z.of_nat m) by lia. rewrite (K2 m new' k Hm). unfold keys. by rewrite V1 by lia.
Qed.

Lemma merge_filtered_ok core_graph core filters gs news :
  Forall2 (core_run core_graph core) filters gs -> Forall2 (fun g new => toEdges parallel_sort g = Some new) gs news ->
  forall c, container_ok c -> 0 <= index c -> index c + zlen filters <= 8 -> zlen (edges c) + zlen (mjoin news) <= 2 ^ 32 ->
  exists c', merge_filtered parallel_sort fuel sort_edges hash heap core_graph core node_weights filters c = Some (Some c') /\ merged_all c news c'.
Proof using All.
  intros Hrun. revert news. induction Hrun as [|f g filters gs [core' Eg] Hrun IH]; intros news Hnew c Hc Hi H8 Hsize.
  { inversion Hnew; subst. exists c. split; [done|]. by apply merged_all_nil. }
  inversion Hnew as [|? new ? news' Hg Hnew']; subst. change (mjoin (new :: news')) with (new ++ mjoin news') in Hsize.
  rewrite zlen_app in Hsize. rewrite zlen_cons in H8. pose proof (zlen_nonneg filters). pose proof (zlen_nonneg (mjoin news')).
  destruct (Merge_ok parallel_sort c new Hc ltac:(lia) ltac:(lia)) as (c1 & E1 & M1). pose proof (mg_size _ _ _ M1) as Z1. pose proof (mg_index _ _ _ M1).
  destruct (IH news' Hnew' c1) as (c' & E' & H'); [apply M1|lia|lia|unfold zlen in *; lia|]. exists c'. split; [|by eapply merged_all_cons].
  cbn [merge_filtered]. rewrite Eg. cbn [mbind option_bind]. rewrite Hg. cbn [mbind option_bind]. rewrite E1. cbn [mbind option_bind]. exact E'.
Qed.

(** The graph [g0] of [n] nodes with its filters; [g] and [core] are the result
    of the shared contraction, [gs] those of the core for each filter, which
    are assumed to return and to keep the invariant of the graph. *)
Record excludable_runs (n : Z) (g0 : ContractorGraph) (filters : list (list bool)) (g : ContractorGraph) (core : list bool) (gs : list ContractorGraph) : Prop := {
  er_nodes : number_of_nodes g0 = n /\ 0 <= n < UINT32_MAX;
  er_filters f : f ∈ filters -> zlen f = n;
  er_count : zlen filters <= 8;
  er_several : all_true filters = false;
  er_shared : contract fuel sort_edges hash heap g0 [] (allowed_always filters n) node_weights BASE_CORE = Some (Some (g, core));
  er_core : zlen core = n;
  er_graph : dg_wf g /\ counted g /\ number_of_nodes g = n;
  er_targets u x : x ∈ adj g u -> 0 <= target x < n;
  er_cores : Forall2 (core_run (DynamicGraph.Filter g (bit core)) core) filters gs;
  er_graphs h : h ∈ gs -> dg_wf h /\ counted h /\ number_of_nodes h = n;
  er_size : number_of_edges g + zsum number_of_edges gs < UINT32_MAX
}.

Lemma up_in_query g DIRECTION u v w : up_in (query_edges g) DIRECTION u v w <-> 0 <= u < number_of_nodes g /\ entry g DIRECTION u v w.
Proof.
  unfold up_in, query_edges. setoid_rewrite list_elem_of_bind. split.
  - intros (e & (u' & (x & -> & Hx)%list_elem_of_fmap & Hu%elem_of_seqZ) & <- & <- & Hd & <-). split; [simpl; lia|]. destruct DIRECTION; by exists x.
  - intros [Hu Hx]. assert (exists x, x ∈ adj g u /\ target x = v /\ Ch.usable DIRECTION (query_data (data x)) = true /\ weight (data x) = w) as (x & Hin & <- & Hd & <-)
      by (destruct DIRECTION; exact Hx).
    exists (query_edge u x). split; [|done]. exists u. split; [by apply list_elem_of_fmap_2|apply elem_of_seqZ; lia].
Qed.

Lemma up_in_filter (b : QueryEdge -> bool) (c : Z -> Z -> bool) l DIRECTION u v w : (forall e, b e = c (ie_source e) (ie_target e)) ->
  up_in (filter (fun e => b e = true) l) DIRECTION u v w <-> c u v = true /\ up_in l DIRECTION u v w.
Proof.
  intros Hb. unfold up_in. setoid_rewrite list_elem_of_filter. split.
  - intros (e & [Hc He] & <- & <- & Hr). rewrite Hb in Hc. split; [done|]. by exists e.
  - intros (Hc & e & He & <- & <- & Hr). exists e. by rewrite Hb.
Qed.

Lemma up_in_Permutation l l' DIRECTION u v w : l ≡ₚ l' -> up_in l DIRECTION u v w <-> up_in l' DIRECTION u v w.
Proof. intros Hp. unfold up_in. by setoid_rewrite Hp. Qed.

(** The edges of a contracted graph. *)
Lemma contracted_edges n g : dg_wf g -> counted g -> number_of_nodes g = n ->
  exists l, toEdges parallel_sort g = Some l /\ l ≡ₚ query_edges g /\ zlen l = number_of_edges g /\ (forall e, e ∈ l -> 0 <= ie_source e < n) /\
    forall DIRECTION u v w, up_in l DIRECTION u v w <-> 0 <= u < n /\ entry g DIRECTION u v w.
Proof using All.
  intros Hwf Hcnt Hn. exists (parallel_sort _ edge_less (query_edges g)). pose proof (parallel_sort_Permutation edge_less (query_edges g)) as Hp.
  split; [by apply toEdges_ok|]. split; [done|]. split; [|split].
  - rewrite (counted_edges g Hwf Hcnt). unfold zlen. by rewrite Hp, query_edges_len.
  - intros e. rewrite Hp. unfold query_edges. intros (u & (x & -> & _)%list_elem_of_fmap & Hu%elem_of_seqZ)%list_elem_of_bind. simpl. lia.
  - intros DIRECTION u v w. by rewrite (up_in_Permutation _ _ DIRECTION u v w Hp), up_in_query, Hn.
Qed.

Lemma core_edges n gs : (forall h, h ∈ gs -> dg_wf h /\ counted h /\ number_of_nodes h = n) ->
  exists news, Forall2 (fun g new => toEdges parallel_sort g = Some new) gs news /\ zlen (mjoin news) = zsum number_of_edges gs /\
    (forall e, e ∈ mjoin news -> 0 <= ie_source e < n) /\
    Forall2 (fun g new => forall DIRECTION u v w, up_in new DIRECTION u v w <-> 0 <= u < n /\ entry g DIRECTION u v w) gs news.
Proof using All.
  induction gs as [|g gs IH]; intros Hg.
  { exists []. split; [constructor|]. split; [done|]. split; [by intros e ?%elem_of_nil|constructor]. }
  destruct IH as (news & H1 & H2 & H3 & H4); [intros h Hh; apply Hg; by right|]. destruct (Hg g) as (Hwf & Hcnt & Hn); [by left|].
  destruct (contracted_edges n g Hwf Hcnt Hn) as (l & E & _ & L & Hsrc & Hup). exists (l :: news). split; [by constructor|].
  change (mjoin (l :: news)) with (l ++ mjoin news). change (zsum number_of_edges (g :: gs)) with (number_of_edges g + zsum number_of_edges gs).
  split; [rewrite zlen_app; lia|]. split; [|by constructor]. intros e [He|He]%elem_of_app; [by apply Hsrc|by apply H3].
Qed.

(** The edges of the shared contraction outside of its core, with the flags of the filters. *)
Lemma shared_edges n filters g core : dg_wf g -> counted g -> number_of_nodes g = n -> zlen core = n ->
  (forall u x, x ∈ adj g u -> 0 <= target x < n) -> (forall f, f ∈ filters -> zlen f = n) -> zlen filters <= 8 ->
  exists es outer c, toEdges parallel_sort g = Some es /\ remove_core_edges core es = Some outer /\
    filter_all filters 0 (Insert ContractedEdgeContainer_new outer) = Some c /\ container_ok c /\ index c = 0 /\
    zlen (edges c) <= number_of_edges g /\ (forall e, e ∈ edges c -> 0 <= ie_source e < n) /\
    forall k f, filters !! k = Some f -> forall DIRECTION u v w, up_in (visible (Z.of_nat k) c) DIRECTION u v w <->
      0 <= u < n /\ entry g DIRECTION u v w /\ bit f u && bit f v = true /\ bit core u && bit core v = false.
Proof using All.
  intros Hwf Hcnt Hng Lcore Htgt Hf H8. destruct (contracted_edges n g Hwf Hcnt Hng) as (es & Ees & Hes & Les & Hsrc & Hup).
  set (outer := filter (fun e => inside core e = false) es).
  assert (forall e, e ∈ es -> 0 <= ie_source e < n /\ 0 <= ie_target e < n) as Hends.
  { intros e He. split; [by apply Hsrc|]. rewrite Hes in He. unfold query_edges in He.
    apply list_elem_of_bind in He as (u & (x & -> & Hx)%list_elem_of_fmap & Hu%elem_of_seqZ). by apply (Htgt u). }
  assert (forall e, e ∈ outer -> e ∈ es) as Hsub by (intros e [_ He]%list_elem_of_filter; done).
  destruct (filter_all_ok filters 0 (Insert ContractedEdgeContainer_new outer)) as (c & Ec & Hce & Hci & Hcok & _ & Hcb); [lia|lia| | |].
  { unfold container_ok. cbn. by rewrite length_resize. }
  { intros f Hfin e He%Hsub%Hends. by rewrite (Hf f Hfin). }
  cbn [edges index Insert ContractedEdgeContainer_new] in Hce, Hci, Hcb. exists es, outer, c. split; [done|].
  split; [apply remove_core_edges_ok; intros e He%Hends; by rewrite Lcore|]. split_and!; try done.
  - rewrite Hce, <- Les. unfold zlen. pose proof (length_filter (fun e => inside core e = false) es). unfold outer. lia.
  - intros e He. rewrite Hce in He. by apply Hsub, Hends in He as [? _].
  - intros k f Hk DIRECTION u v w. specialize (Hcb k f Hk). rewrite Z.add_0_l in Hcb. unfold visible. rewrite Hcb, Hce, masked_by.
    rewrite (up_in_filter (inside f) (fun u v => bit f u && bit f v)) by done.
    assert (outer = filter (fun e => negb (inside core e) = true) es) as -> by (apply list_filter_iff; intros x; by rewrite negb_true_iff).
    rewrite (up_in_filter (fun e => negb (inside core e)) (fun u v => negb (bit core u && bit core v))), negb_true_iff by done.
    rewrite Hup. tauto.
Qed.

(** C9: one hierarchy serves all filters, if its contractions return.  For
    up to eight filters of nodes, one of which excludes a node, assume that the
    shared contraction and the one of its core under each filter return - they
    need not, see [contraction_can_stall] - graphs of the same nodes that keep
    the invariant and the count of edges, of less than 2^32 - 1 edges together.  Then
    [contractExcludableGraph] merges the edges of these
    graphs into one sorted graph with a
    filter of edges per filter of nodes; the scan that finds edges already
    stored relies on no order of the new edges.  The view of filter [i] has
    exactly the arcs that search [i] needs: those of the shared contraction
    that are not inside the core and whose ends the filter allows, and those of
    its own contraction of the core. *)
Theorem excludable_views n g0 filters g core gs (Hrun : excludable_runs n g0 filters g core gs) :
  exists Q edge_filters, contractExcludableGraph parallel_sort fuel sort_edges hash heap g0 node_weights filters = Some (Some (Q, edge_filters)) /\
    zlen edge_filters = zlen filters /\
    forall i f h, filters !z i = Some f -> gs !z i = Some h ->
    exists edge_filter, edge_filters !z i = Some edge_filter /\
      let view := Filtered.mkFilteredGraph Q edge_filter in
      graph_wf view /\ graph_nodes view = n /\
      forall DIRECTION u v w, Ch.up view DIRECTION u v w <-> 0 <= u < n /\
        ((entry g DIRECTION u v w /\ bit f u && bit f v = true /\ bit core u && bit core v = false) \/ entry h DIRECTION u v w).
Proof using All.
  destruct Hrun as [[Hn0 Hn] Hf H8 Hsev Hsh Lcore (Hwf & Hcnt & Hng) Htgt Hcores Hgs Hsize].
  destruct (shared_edges n filters g core) as (es & outer & c & E1 & E2 & E3 & Hcok & Hci & Hcz & Hcpos & Hcup); [done..|].
  destruct (core_edges n gs Hgs) as (news & Hnews & Lnews & Hpos & Hups).
  assert (zlen (edges c) + zlen (mjoin news) < UINT32_MAX) as Htotal by lia. unfold UINT32_MAX in Htotal.
  destruct (merge_filtered_ok _ core filters gs news Hcores Hnews c Hcok ltac:(lia) ltac:(lia) ltac:(lia)) as (c' & E4 & [O' I' S' Z' F' _ K']).
  assert (zlen news = zlen filters) as L3 by (unfold zlen; by rewrite (Forall2_length _ _ _ Hcores), (Forall2_length _ _ _ Hnews)).
  pose proof (zlen_nonneg filters). destruct (MakeEdgeFilters_ok c') as (efs & E5 & Lefs & Hefs); [lia|].
  exists (Static.InitializeFromSortedEdgeRange n (edges c')), efs. split; [|split; [lia|]].
  { unfold contractExcludableGraph. rewrite Hsev. unfold GetNumberOfNodes. rewrite Hn0, allow_all_always by (done || lia).
    cbn [mbind option_bind]. rewrite Hsh. cbn [mbind option_bind]. rewrite E1. cbn [mbind option_bind]. rewrite E2. cbn [mbind option_bind].
    rewrite E3. cbn [mbind option_bind]. rewrite E4. cbn [mbind option_bind]. by rewrite E5. }
  intros i f h Hi Hh. pose proof (zget_some _ _ _ Hi) as Hir. exists (bits i (flags c')). split; [apply Hefs; lia|].
  destruct (view_ok n c' i Hn O') as (V1 & V2 & V3).
  - apply S'. right. intros ->. rewrite zlen_nil in L3. lia.
  - intros e He%F'. apply elem_of_app in He as [He|He]; [by apply Hcpos|by apply Hpos].
  - unfold UINT32_MAX. lia.
  - split; [exact V1|]. split; [exact V2|]. intros DIRECTION u v w. rewrite V3.
    assert (exists k, i = Z.of_nat k) as [k ->] by (exists (Z.to_nat i); lia). rewrite zget_nat in Hi. rewrite zget_nat in Hh.
    destruct (Forall2_lookup_l _ _ _ _ _ Hups Hh) as (new & Hk & Hnew). specialize (Hcup k f Hi DIRECTION u v w).
    assert (forall x, x ∈ keys (visible (Z.of_nat k) c') <-> x ∈ keys (visible (Z.of_nat k) c ++ new)) as Hkeys.
    { intros x. pose proof (K' k new x Hk) as Hx. rewrite Hci, Z.add_0_l in Hx. unfold keys in *. rewrite fmap_app, elem_of_app. exact Hx. }
    assert (up_in (visible (Z.of_nat k) c') DIRECTION u v w <-> up_in (visible (Z.of_nat k) c ++ new) DIRECTION u v w) as ->
      by (split; apply up_in_keys; intros x Hx; by apply Hkeys).
    rewrite up_in_app. specialize (Hnew DIRECTION u v w). tauto.
Qed.
End excludable.

(** ** A town with a toll road and a ferry

    Node 1 is a street from 0 to 2, node 3 a faster toll road between the same
    ends, which are the landing places of a ferry.  A profile lets requests
    exclude the toll road or the ferry. *)

Definition road (u v w : Z) : InputEdge EdgeBasedEdge.EdgeData :=
  mkInputEdge u v (EdgeBasedEdge.mkEdgeData 0 w (SpecFloat.S754_zero false) w true true).

Definition town : list (InputEdge EdgeBasedEdge.EdgeData) := [road 0 1 2; road 1 2 2; road 0 3 1; road 3 2 1].

(** The first class is the toll road, the second the ferry. *)
Definition town_classes : list Z := [2; 0; 2; 1].
Definition town_properties : ProfileProperties := mkProfileProperties [] ([0; 1; 2] ++ replicate 5 INAVLID_CLASS_DATA).
Definition town_filters : list (list bool) := [[true; true; true; true]; [true; true; true; false]; [false; true; false; true]].

Definition town_graph : ContractorGraph := toContractorGraph sequential_sort 4 town.
Definition town_heap {Data} (n : Z) : QueryHeap ArrayStorage RefHeap Z Data := QueryHeap_new (ArrayStorage_new n).
Definition town_weights : list Z := [1; 1; 1; 1].

(** The shared contraction takes out node 1 without a shortcut. *)
Definition town_shared : ContractorGraph := DynamicGraph_new 4
  [mkInputEdge 0 3 (street 1); mkInputEdge 1 0 (street 2); mkInputEdge 1 2 (street 2); mkInputEdge 2 3 (street 1); mkInputEdge 3 0 (street 1); mkInputEdge 3 2 (street 1)].
Definition town_core : list bool := [true; false; true; true].
Definition town_cores : list ContractorGraph := [DynamicGraph_new 4 [mkInputEdge 0 3 (street 1); mkInputEdge 2 3 (street 1)]; DynamicGraph_new 4 []; DynamicGraph_new 4 []].

Lemma built_ok (es : list (InputEdge ContractorEdgeData)) : sources_sorted 0 4 es -> zlen es < 2 ^ 32 -> Forall (fun e => 0 <= ie_target e < 4) es ->
  let g := DynamicGraph_new 4 es in
  dg_wf g /\ counted g /\ number_of_nodes g = 4.
Proof.
  intros Hs Hz Ht g. rewrite Forall_forall in Ht. split; [apply DynamicGraph_new_ok; [lia|exact Hs|exact Hz|intros e He%Ht; unfold UINT32_MAX; lia]|].
  split; [apply DynamicGraph_new_counted; [lia|exact Hs|exact Hz]|]. unfold g, DynamicGraph_new. by destruct (build_nodes (Z.to_nat 4) 0 0 es).
Qed.

Lemma town_runs : excludable_runs 100 id Some town_heap town_weights 4 town_graph town_filters town_shared town_core town_cores.
Proof.
  constructor.
  - by vm_compute.
  - intros f Hf. repeat (apply elem_of_cons in Hf as [->|Hf]; [done|]). by apply elem_of_nil in Hf.
  - by vm_compute.
  - done.
  - vm_compute. reflexivity.
  - done.
  - apply built_ok; [cbn; lia|done|repeat constructor; simpl; lia].
  - intros u x Hx. destruct (decide (0 <= u < 4)) as [Hu|Hu].
    + assert (u = 0 \/ u = 1 \/ u = 2 \/ u = 3) as [->|[->|[->| ->]]] by lia; vm_compute in Hx; repeat (apply elem_of_cons in Hx as [->|Hx]; [simpl; lia|]); by apply elem_of_nil in Hx.
    + unfold adj in Hx. rewrite zget_none in Hx by exact Hu. by apply elem_of_nil in Hx.
  - repeat constructor; eexists; vm_compute; reflexivity.
  - intros h Hh. repeat (apply elem_of_cons in Hh as [->|Hh]; [apply built_ok; [cbn; lia|done|repeat constructor; simpl; lia]|]). by apply elem_of_nil in Hh.
  - by vm_compute.
Qed.

Lemma excludable_views_witness : exists Q edge_filters,
  contractExcludableGraph sequential_sort 100 id Some town_heap town_graph town_weights town_filters = Some (Some (Q, edge_filters)) /\
  exists edge_filter, edge_filters !z 1 = Some edge_filter /\ Ch.up (Filtered.mkFilteredGraph Q edge_filter) true 1 0 2.
Proof.
  destruct (excludable_views sequential_sort 100 id Some town_heap town_weights 4 town_graph town_filters town_shared town_core town_cores town_runs)
    as (Q & efs & E & _ & Hall).
  exists Q, efs. split; [exact E|]. destruct (Hall 1 [true; true; true; false] (DynamicGraph_new 4 []) eq_refl eq_refl) as (ef & Eef & _ & _ & Hup).
  exists ef. split; [exact Eef|]. apply Hup. split; [lia|]. left.
  split; [|split; reflexivity]. exists (mkDynamicEdge 0 (street 2)). split_and!; [vm_compute; constructor|reflexivity..].
Defined.

(** The search from 0 to 2 on a view. *)
Definition town_query (index : Z) (graph : QueryGraph) (edge_filters : list (list bool)) : option Z :=
  edge_filter ← edge_filters !z index;
  forward_heap ← QueryHeap.Insert (town_heap 4) 0 0 (Ch.mkHeapData 0);
  reverse_heap ← QueryHeap.Insert (town_heap 4) 2 0 (Ch.mkHeapData 2);
  '(_, _, weight, _) ← Ch.search (Filtered.mkFilteredGraph graph edge_filter) forward_heap reverse_heap [] [] INVALID_EDGE_WEIGHT;
  Some weight.

(** Excluding a class can lose a route.  The search for witnesses of the shared
    contraction passes through nodes that some filter excludes: the toll road
    makes the shortcut over the street needless, and no contraction under a
    filter brings it back.  The query without exclusions finds the toll road; the
    query that excludes it finds no route, although the street is there. *)
Theorem exclude_loses_route : exists Q edge_filters,
  Run sequential_sort 100 id Some town_heap 4 town town_weights town_classes town_properties = Some (Some (Q, edge_filters)) /\
  excludeFlagsToNodeFilter 4 town_classes town_properties = Some town_filters /\
  town_query 0 Q edge_filters = Some 2 /\ town_query 1 Q edge_filters = Some INVALID_EDGE_WEIGHT /\
  input_arc town 0 1 2 /\ input_arc town 1 2 2 /\ [bit [true; true; true; false] 0; bit [true; true; true; false] 1; bit [true; true; true; false] 2] = [true; true; true].
Proof.
  eexists _, _. split; [vm_compute; reflexivity|]. split; [vm_compute; reflexivity|]. split; [vm_compute; reflexivity|]. split; [vm_compute; reflexivity|].
  split; [|split; [|done]].
  - split; [done|]. exists (road 0 1 2). split; [by repeat constructor|]. split; [done|]. split; [done|]. by left.
  - split; [done|]. exists (road 1 2 2). split; [by repeat constructor|]. split; [done|]. split; [done|]. by left.
Qed.

(** Edges that differ in their distance count as equal. *)
Theorem mergable_ignores_distance (e : QueryEdge) distance :
  mergable e (mkInputEdge (ie_source e) (ie_target e) (let d := ie_data e in
    Ch.mkEdgeData (Ch.turn_id d) (Ch.shortcut d) (Ch.weight d) (Ch.duration d) (Ch.forward d) (Ch.backward d) distance)) = true.
Proof. by apply mergable_key. Qed.
End Excludable.
