(* ===== verification/MldSearch.v ===== *)
(** * The multi-level search

    Model of include/customizer/edge_based_graph.hpp, of the operations of the
    data facade on it and of
    include/engine/routing_algorithms/routing_base_mld.hpp: two Dijkstra searches
    that skip cells, one from the sources and one from the targets.  At every
    node they use the highest level at which the node lies in no cell of an end
    of the route: the matrix of the cell, unless it led to the node, and the
    edges between cells of that level.  An arc of a matrix on the path found is
    unpacked by a search inside its cell, one level below. *)
From S2P Require Import Prelude Walks QueryHeap Relaxing RoutingBase DynamicGraph StaticGraph GraphInterface EdgeBasedEdge MultiLevelPartition.
From S2P Require Import MultiLevelGraph CellStorage.
Import Static Multi.

Module Mld.

(** ** The graph of the queries *)

Record EdgeBasedGraphEdgeData : Type := mkEdgeBasedGraphEdgeData { turn_id : Z }.

Record QueryGraph : Type := mkQueryGraph {
  super : MultiLevelGraph EdgeBasedGraphEdgeData;
  node_weights : list Z;
  node_durations : list Z;
  node_distances : list float32;
  is_forward_edge : list bool;
  is_backward_edge : list bool
}.

(** The graph of the customizer without the weights of its edges.  The counters
    of the static graph are those of the constructor from arrays, which reads
    the finished graph. *)
Definition QueryGraph_new (graph : MultiLevelGraph EdgeBasedEdge.EdgeData) (node_weights_ node_durations_ : list Z)
    (node_distances_ : list float32) : option QueryGraph :=
  b ← StaticGraph_from_arrays (node_array (base graph))
        ((fun edge => mkDynamicEdge (target edge) (mkEdgeBasedGraphEdgeData (EdgeBasedEdge.turn_id (data edge)))) <$> edge_array (base graph));
  Some (mkQueryGraph (mkMultiLevelGraph b (node_to_edge_offset graph) (connectivity_checksum graph))
          node_weights_ node_durations_ node_distances_
          ((fun edge => EdgeBasedEdge.forward (data edge)) <$> edge_array (base graph))
          ((fun edge => EdgeBasedEdge.backward (data edge)) <$> edge_array (base graph))).

Definition GetNodeWeight (g : QueryGraph) (node : Z) : option Z := node_weights g !z node.
Definition IsForwardEdge (g : QueryGraph) (edge : Z) : option bool := is_forward_edge g !z edge.
Definition IsBackwardEdge (g : QueryGraph) (edge : Z) : option bool := is_backward_edge g !z edge.

(** What the search uses of the data facade. *)
Record DataFacade : Type := mkDataFacade {
  query_graph : QueryGraph;
  mld_partition : MultiLevelPartition;
  mld_cell_storage : CellStorage;
  mld_cell_metric : CellMetric;
  turn_weight_penalties : list Z;
  class_data : list Z;
  exclude_mask : Z
}.

Definition ExcludeNode (facade : DataFacade) (node : Z) : option bool :=
  c ← class_data facade !z node; Some (0 <? Z.land c (exclude_mask facade)).

Definition GetWeightPenaltyForEdgeID (facade : DataFacade) (id : Z) : option Z := turn_weight_penalties facade !z id.

(** ** Levels *)

(** [PhantomEndpointCandidates], or the level and the cell a search is restricted to. *)
Inductive Args : Type :=
| Candidates (source_phantoms target_phantoms : list PhantomNode)
| Restricted (level parent : Z).

Definition INVALID_LEVEL_ID : Z := 255.

Definition segment_level (partition : MultiLevelPartition) (node : Z) (source target : SegmentID) : option Z :=
  if enabled source && enabled target then GetQueryLevel partition (segment_id source) (segment_id target) node
  else Some INVALID_LEVEL_ID.

Definition phantom_level (partition : MultiLevelPartition) (node : Z) (source target : PhantomNode) : option Z :=
  ff ← segment_level partition node (forward_segment_id source) (forward_segment_id target);
  fr ← segment_level partition node (forward_segment_id source) (reverse_segment_id target);
  rf ← segment_level partition node (reverse_segment_id source) (forward_segment_id target);
  rr ← segment_level partition node (reverse_segment_id source) (reverse_segment_id target);
  Some (Z.min (Z.min ff fr) (Z.min rf rr)).

(** The two [std::accumulate]. *)
Fixpoint target_levels (partition : MultiLevelPartition) (node : Z) (source : PhantomNode) (targets : list PhantomNode) (level : Z)
  : option Z :=
  match targets with
  | [] => Some level
  | target :: targets =>
      l ← phantom_level partition node source target;
      target_levels partition node source targets (Z.min level l)
  end.

Fixpoint source_levels (partition : MultiLevelPartition) (node : Z) (sources targets : list PhantomNode) (level : Z) : option Z :=
  match sources with
  | [] => Some level
  | source :: sources =>
      l ← target_levels partition node source targets level;
      source_levels partition node sources targets (Z.min level l)
  end.

Definition getNodeQueryLevel (partition : MultiLevelPartition) (node : Z) (args : Args) : option Z :=
  match args with
  | Candidates sources targets => source_levels partition node sources targets INVALID_LEVEL_ID
  | Restricted level _ => Some level
  end.

(** May the search enter the cell of [to] above [level]?  Only a restricted
    search looks at it. *)
Definition checkParentCellRestriction (partition : MultiLevelPartition) (level to : Z) (args : Args) : option bool :=
  match args with
  | Candidates _ _ => Some true
  | Restricted _ parent => cell ← GetCell partition (level + 1) to; Some (cell =? parent)
  end.

(** ** The search *)

Record HeapData : Type := mkHeapData { parent : Z; from_clique_arc : bool }.

#[global] Instance HeapData_HasParent : HasParent HeapData := {| of_parent p := mkHeapData p false; parent_of := parent |}.

Section search.
Context {St H Handle : Type} `{IndexStorage St, MutableHeap H Handle}.
Abbreviation Heap := (QueryHeap St H Handle HeapData).
Implicit Types (facade : DataFacade) (heap forward_heap reverse_heap : Heap) (args : Args).

(** A node reached over an arc: new, or closer than before. *)
Definition relax_to heap (to to_weight : Z) (d : HeapData) : option Heap := relax heap to to_weight d.

(** The loop over the row or the column of the node in the matrix of its cell;
    [nodes] is what the iterator over the boundary nodes has left. *)
Fixpoint relax_shortcuts heap (ws nodes : list Z) (node weight : Z) : option Heap :=
  match ws with
  | [] => Some heap
  | shortcut_weight :: ws =>
      to ← head nodes;
      heap' ← (if negb (shortcut_weight =? INVALID_EDGE_WEIGHT) && negb (node =? to)
               then relax_to heap to (weight_add weight shortcut_weight) (mkHeapData node true)
               else Some heap);
      relax_shortcuts heap' ws (tail nodes) node weight
  end.

Definition usable (DIRECTION : bool) facade (edge : Z) : option bool :=
  if DIRECTION then IsForwardEdge (query_graph facade) edge else IsBackwardEdge (query_graph facade) edge.

Fixpoint relax_border (DIRECTION : bool) facade args (level : Z) heap (range : list Z) (node weight : Z) : option Heap :=
  match range with
  | [] => Some heap
  | edge :: range =>
      edge_data ← GetEdgeData (base (super (query_graph facade))) edge;
      used ← usable DIRECTION facade edge;
      if (used : bool) then
        to ← GetTarget (base (super (query_graph facade))) edge;
        excluded ← ExcludeNode facade to;
        inside ← (if excluded : bool then Some false else checkParentCellRestriction (mld_partition facade) level to args);
        if (inside : bool) then
          node_weight ← GetNodeWeight (query_graph facade) (if DIRECTION then node else to);
          turn_penalty ← GetWeightPenaltyForEdgeID facade (turn_id edge_data);
          heap' ← relax_to heap to (weight_add (weight_add weight node_weight) turn_penalty) (mkHeapData node false);
          relax_border DIRECTION facade args level heap' range node weight
        else relax_border DIRECTION facade args level heap range node weight
      else relax_border DIRECTION facade args level heap range node weight
  end.

(** The shortcuts of the cell of the node, forward or backward, unless one of
    them led to the node. *)
Definition relax_cell (DIRECTION : bool) facade (level : Z) heap (heapNode : HeapNode Handle HeapData) : option Heap :=
  if (1 <=? level) && negb (from_clique_arc (hn_data heapNode)) then
    id ← GetCell (mld_partition facade) level (hn_node heapNode);
    cell ← GetCellData (mld_cell_storage facade) level id;
    nodes ← (if DIRECTION then GetDestinationNodes (mld_cell_storage facade) cell else GetSourceNodes (mld_cell_storage facade) cell);
    ws ← (if DIRECTION then GetOutWeight (mld_cell_storage facade) (mld_cell_metric facade) cell (hn_node heapNode)
          else GetInWeight (mld_cell_storage facade) (mld_cell_metric facade) cell (hn_node heapNode));
    relax_shortcuts heap ws nodes (hn_node heapNode) (hn_weight heapNode)
  else Some heap.

Definition relaxOutgoingEdges (DIRECTION : bool) facade args heap (heapNode : HeapNode Handle HeapData) : option Heap :=
  let node := hn_node heapNode in
  level ← getNodeQueryLevel (mld_partition facade) node args;
  heap' ← relax_cell DIRECTION facade level heap heapNode;
  range ← GetBorderEdgeRange (super (query_graph facade)) level node;
  relax_border DIRECTION facade args level heap' range node (hn_weight heapNode).

(** The new middle node and bound when the other search has been asked for the node. *)
Definition meet reverse_heap (heapNode : HeapNode Handle HeapData) (reverseHeapNode : option Z) (middle_node path_upper_bound : Z)
    (force_loop_forward_nodes force_loop_reverse_nodes : list Z) : option (Z * Z) :=
  match reverseHeapNode with
  | Some i =>
      hn ← inserted_nodes reverse_heap !z i;
      let path_weight := weight_add (hn_weight heapNode) (hn_weight hn) in
      if negb (force_loop force_loop_forward_nodes heapNode) && negb (force_loop force_loop_reverse_nodes heapNode) &&
         (0 <=? path_weight) && (path_weight <? path_upper_bound)
      then Some (hn_node heapNode, path_weight) else Some (middle_node, path_upper_bound)
  | None => Some (middle_node, path_upper_bound)
  end.

(** One step of one of the searches: its queue, the middle node and the bound. *)
Definition routingStep (DIRECTION : bool) facade args forward_heap reverse_heap (middle_node path_upper_bound : Z)
    (force_loop_forward_nodes force_loop_reverse_nodes : list Z) : option (Heap * Z * Z) :=
  '(heapNode, forward_heap) ← DeleteMinGetHeapNode forward_heap;
  reverseHeapNode ← GetHeapNodeIfWasInserted reverse_heap (hn_node heapNode);
  '(middle_node, path_upper_bound) ← meet reverse_heap heapNode reverseHeapNode middle_node path_upper_bound
                                       force_loop_forward_nodes force_loop_reverse_nodes;
  heap ← relaxOutgoingEdges DIRECTION facade args forward_heap heapNode;
  Some (heap, middle_node, path_upper_bound).

(** A step of a search whose queue is not empty, and the key at its front. *)
Definition search_step (DIRECTION : bool) facade args forward_heap reverse_heap (middle weight heap_min : Z)
    (force_loop_forward_nodes force_loop_reverse_nodes : list Z) : option (Heap * Z * Z * Z) :=
  if Empty forward_heap then Some (forward_heap, middle, weight, heap_min)
  else
    '(heap, middle, weight) ← routingStep DIRECTION facade args forward_heap reverse_heap middle weight
                                force_loop_forward_nodes force_loop_reverse_nodes;
    heap_min ← (if Empty heap then Some heap_min else MinKey heap);
    Some (heap, middle, weight, heap_min).

(** The [while] loop of [search]. *)
Fixpoint search_loop (fuel : nat) facade args forward_heap reverse_heap (middle weight forward_heap_min reverse_heap_min : Z)
    (force_loop_forward_nodes force_loop_reverse_nodes : list Z) : option (Heap * Heap * Z * Z) :=
  match fuel with
  | O => None
  | S fuel =>
      if (0 <? Size forward_heap + Size reverse_heap) && (weight_add forward_heap_min reverse_heap_min <? weight) then
        '(forward_heap, middle, weight, forward_heap_min) ←
          search_step FORWARD_DIRECTION facade args forward_heap reverse_heap middle weight forward_heap_min
            force_loop_forward_nodes force_loop_reverse_nodes;
        '(reverse_heap, middle, weight, reverse_heap_min) ←
          search_step REVERSE_DIRECTION facade args reverse_heap forward_heap middle weight reverse_heap_min
            force_loop_reverse_nodes force_loop_forward_nodes;
        search_loop fuel facade args forward_heap reverse_heap middle weight forward_heap_min reverse_heap_min
          force_loop_forward_nodes force_loop_reverse_nodes
      else Some (forward_heap, reverse_heap, middle, weight)
  end.

(** [PackedEdge]: from, to, and whether the arc comes from a matrix. *)
Abbreviation PackedPath := (list (Z * Z * bool)).

Fixpoint retrievePackedPathFromSingleHeap (DIRECTION : bool) (fuel : nat) heap (current : Z) : option PackedPath :=
  match fuel with
  | O => None
  | S fuel =>
      d ← GetData heap current;
      if current =? parent d then Some []
      else
        path ← retrievePackedPathFromSingleHeap DIRECTION fuel heap (parent d);
        Some ((if DIRECTION then (parent d, current, from_clique_arc d) else (current, parent d, from_clique_arc d)) :: path)
  end.

Definition retrievePackedPathFromHeap (fuel : nat) forward_heap reverse_heap (middle : Z) : option PackedPath :=
  from ← retrievePackedPathFromSingleHeap FORWARD_DIRECTION fuel forward_heap middle;
  to ← retrievePackedPathFromSingleHeap REVERSE_DIRECTION fuel reverse_heap middle;
  Some (reverse from ++ to).

(** What a search returns: the queues it used, the weight, the nodes and the edges. *)
Abbreviation Found := (Heap * Heap * Z * list Z * list Z)%type.

(** The loop over the packed path; [search_below] is the search inside a cell. *)
Fixpoint unpack_path (search_below : Heap -> Heap -> Args -> option Found) facade args forward_heap reverse_heap (packed : PackedPath)
    (unpacked_nodes unpacked_edges : list Z) : option (Heap * Heap * list Z * list Z) :=
  match packed with
  | [] => Some (forward_heap, reverse_heap, unpacked_nodes, unpacked_edges)
  | (source, target, overlay_edge) :: packed =>
      if negb overlay_edge then
        edge ← FindEdge (base (super (query_graph facade))) source target;
        unpack_path search_below facade args forward_heap reverse_heap packed (unpacked_nodes ++ [target]) (unpacked_edges ++ [edge])
      else
        level ← getNodeQueryLevel (mld_partition facade) source args;
        parent_cell_id ← GetCell (mld_partition facade) level source;
        forward_heap ← Insert (Clear forward_heap) source 0 (mkHeapData source false);
        reverse_heap ← Insert (Clear reverse_heap) target 0 (mkHeapData target false);
        '(forward_heap, reverse_heap, _, subpath_nodes, subpath_edges) ←
          search_below forward_heap reverse_heap (Restricted (wrap 8 (level - 1)) parent_cell_id);
        match subpath_nodes with
        | [] => None
        | _ :: rest =>
            unpack_path search_below facade args forward_heap reverse_heap packed (unpacked_nodes ++ rest)
              (unpacked_edges ++ subpath_edges)
        end
  end.

(** Every round settles a node of one of the two searches. *)
Definition search_fuel facade : nat := S (Z.to_nat (2 * GetNumberOfNodes (base (super (query_graph facade))))).

(** [depth] bounds the nesting of searches inside cells: one per level. *)
Fixpoint search (depth : nat) facade forward_heap reverse_heap (force_loop_forward_nodes force_loop_reverse_nodes : list Z)
    (weight_upper_bound : Z) args : option Found :=
  match depth with
  | O => None
  | S depth =>
      if Empty forward_heap || Empty reverse_heap then Some (forward_heap, reverse_heap, INVALID_EDGE_WEIGHT, [], [])
      else
        forward_heap_min ← MinKey forward_heap;
        reverse_heap_min ← MinKey reverse_heap;
        '(forward_heap, reverse_heap, middle, weight) ←
          search_loop (search_fuel facade) facade args forward_heap reverse_heap SPECIAL_NODEID weight_upper_bound
            forward_heap_min reverse_heap_min force_loop_forward_nodes force_loop_reverse_nodes;
        if (weight_upper_bound <=? weight) || (SPECIAL_NODEID =? middle)
        then Some (forward_heap, reverse_heap, INVALID_EDGE_WEIGHT, [], [])
        else
          packed_path ← retrievePackedPathFromHeap (search_fuel facade) forward_heap reverse_heap middle;
          let source_node := match packed_path with [] => middle | (from, _, _) :: _ => from end in
          '(forward_heap, reverse_heap, unpacked_nodes, unpacked_edges) ←
            unpack_path (fun f r a => search depth facade f r force_loop_forward_nodes force_loop_reverse_nodes INVALID_EDGE_WEIGHT a)
              facade args forward_heap reverse_heap packed_path [source_node] [];
          Some (forward_heap, reverse_heap, weight, unpacked_nodes, unpacked_edges)
  end.

(** One search per level, and level 0. *)
Definition search_depth facade : nat := Z.to_nat (MultiLevelPartition.GetNumberOfLevels (mld_partition facade)).
End search.
End Mld.
