(* ===== verification/MldLabels.v ===== *)
(** * The labels of the multi-level search

    The search of routing_base_mld.hpp over any graph of arcs of two kinds,
    those of matrices and those between cells: what a step leaves behind, that the loop ends
    and that no route is lighter than the one it ends with.  A node that an arc
    of a matrix led to does not use the matrix again; by the triangle
    inequality of the matrices nothing is lost. *)
From S2P Require Import Prelude Walks QueryHeap Relaxing DynamicGraph StaticGraph GraphInterface EdgeBasedEdge MultiLevelPartition.
From S2P Require Import MultiLevelGraph CellStorage RoutingBase MldSearch.
Import Static Multi Mld.

(** ** Arcs *)

Section arcs.
Context (Jc Jb : Z -> Z -> Z -> Prop).

Definition along (DIRECTION : bool) (E : Z -> Z -> Z -> Prop) (u v w : Z) : Prop := if DIRECTION then E u v w else E v u w.

Definition kind (clique : bool) : Z -> Z -> Z -> Prop := if clique then Jc else Jb.

Definition joint (u v w : Z) : Prop := exists clique, kind clique u v w.

Lemma along_negb DIRECTION E u v w : along (negb DIRECTION) E u v w <-> along DIRECTION E v u w.
Proof. by destruct DIRECTION. Qed.

Lemma along_joint DIRECTION u v w : along DIRECTION joint u v w <-> exists clique, along DIRECTION (kind clique) u v w.
Proof. by destruct DIRECTION. Qed.

Lemma walk_turned (E E' : Z -> Z -> Z -> Prop) s t p : (forall u v w, E u v w -> E' v u w) -> walk E s t p -> walk E' t s p.
Proof.
  intros HE. induction 1 as [n|s u t p w Hw IH He]; [constructor|].
  rewrite Z.add_comm. eapply walk_app; [apply walk_edge; by apply HE|done].
Qed.

Lemma walk_along DIRECTION E s t p : walk (along DIRECTION E) s t p <-> along DIRECTION (walk E) s t p.
Proof. destruct DIRECTION; [done|]. split; apply walk_turned; done. Qed.

(** A path of arcs as the search packs it: from, to, and the kind. *)
Inductive packed_path : list (Z * Z * bool) -> Z -> Z -> Z -> Prop :=
| packed_nil v : packed_path [] v v 0
| packed_cons u v t clique w p L : kind clique u v w -> packed_path L v t p -> packed_path ((u, v, clique) :: L) u t (w + p).

Lemma packed_app L L' s u t p p' : packed_path L s u p -> packed_path L' u t p' -> packed_path (L ++ L') s t (p + p').
Proof. induction 1 as [v|s v u clique w p L Hk HL IH]; intros H'; simpl; [done|]. rewrite <- Z.add_assoc. econstructor; eauto. Qed.

Lemma packed_snoc L s u v clique p w : packed_path L s u p -> kind clique u v w -> packed_path (L ++ [(u, v, clique)]) s v (p + w).
Proof. intros HL Hk. eapply packed_app; [done|]. rewrite <- (Z.add_0_r w). econstructor; [done|constructor]. Qed.

Lemma packed_walk L s t p : packed_path L s t p -> walk joint s t p.
Proof.
  induction 1 as [v|s v u clique w p L Hk HL IH]; [constructor|]. eapply walk_app; [|done]. apply walk_edge. by exists clique.
Qed.
End arcs.

(** ** What the labels promise *)

(** Arcs between nodes, and the ends of routes with their weights.  The
    triangle inequality holds for the arcs of matrices; a node that can be reached
    can be reached with weight [reach]. *)
Record arc_laws (Jc Jb : Z -> Z -> Z -> Prop) (node : Z -> Prop) (start : bool -> Z -> Z -> Prop) (n low reach maxw : Z) : Prop := {
  al_node v : node v -> 0 <= v < n;
  al_arc u v w : joint Jc Jb u v w -> node u /\ node v /\ 0 < w <= maxw;
  al_triangle u v t w1 w2 : Jc u v w1 -> Jc v t w2 -> t = u \/ exists w, Jc u t w /\ w <= w1 + w2;
  al_start DIRECTION s w : start DIRECTION s w -> node s /\ low <= w <= reach;
  al_reach DIRECTION s ws v p : start DIRECTION s ws -> walk (along DIRECTION (joint Jc Jb)) s v p ->
    exists s' ws' p', start DIRECTION s' ws' /\ walk (along DIRECTION (joint Jc Jb)) s' v p' /\ ws' + p' <= reach;
  al_nodes : n <= SPECIAL_NODEID;
  al_low : - 2 ^ 30 <= low;
  al_maxw : 0 <= maxw;
  al_small : reach + maxw < 2 ^ 30
}.

Section sides.
Context (Jc Jb : Z -> Z -> Z -> Prop) (node : Z -> Prop) (start : bool -> Z -> Z -> Prop) (n low reach maxw : Z).
Context (Hlaws : arc_laws Jc Jb node start n low reach maxw).
Abbreviation J := (joint Jc Jb).
Abbreviation qmap := (gmap Z (qentry HeapData)).
Implicit Types (M : qmap) (DIRECTION : bool).

(** One of the two searches.  A node that an arc of a matrix led to comes from
    a node that no such arc led to. *)
Record side DIRECTION M : Prop := {
  sd_node v e : M !! v = Some e -> node v;
  sd_low v e : M !! v = Some e -> low <= qe_weight e;
  sd_tree v e : M !! v = Some e -> (start DIRECTION v (qe_weight e) /\ qe_data e = mkHeapData v false) \/
    exists u eu w, M !! u = Some eu /\ qe_removed eu = true /\ parent (qe_data e) = u /\
      along DIRECTION (kind Jc Jb (from_clique_arc (qe_data e))) u v w /\ qe_weight e = qe_weight eu + w /\
      (from_clique_arc (qe_data e) = true -> from_clique_arc (qe_data eu) = false);
  sd_start s w : start DIRECTION s w -> exists e, M !! s = Some e /\ qe_weight e <= w;
  sd_order v e v' e' : M !! v = Some e -> M !! v' = Some e' -> qe_removed e = true -> qe_removed e' = false ->
    qe_weight e <= qe_weight e';
  sd_done v e t w : M !! v = Some e -> qe_removed e = true -> along DIRECTION J v t w ->
    exists et, M !! t = Some et /\ qe_weight et <= qe_weight e + w
}.

Lemma along_arc DIRECTION u v w : along DIRECTION J u v w -> node u /\ node v /\ 0 < w <= maxw.
Proof using Hlaws. destruct DIRECTION; intros H%(al_arc _ _ _ _ _ _ _ _ Hlaws); tauto. Qed.

Lemma along_kind DIRECTION clique u v w : along DIRECTION (kind Jc Jb clique) u v w -> along DIRECTION J u v w.
Proof. intros Hk. apply along_joint. by exists clique. Qed.

Lemma along_walk_nonneg DIRECTION s t p : walk (along DIRECTION J) s t p -> 0 <= p.
Proof using Hlaws. apply walk_nonneg. intros u v w H%along_arc. lia. Qed.

Lemma along_triangle DIRECTION u v t w1 w2 : along DIRECTION Jc u v w1 -> along DIRECTION Jc v t w2 ->
  t = u \/ exists w, along DIRECTION Jc u t w /\ w <= w1 + w2.
Proof using Hlaws.
  destruct DIRECTION; simpl; intros H1 H2; [by eapply (al_triangle _ _ _ _ _ _ _ _ Hlaws)|].
  destruct (al_triangle _ _ _ _ _ _ _ _ Hlaws _ _ _ _ _ H2 H1) as [->|(w & Hw & Hle)]; [by left|right].
  exists w. split; [done|lia].
Qed.

(** A label is the weight of a walk. *)
Lemma mld_side_walk DIRECTION M v e : side DIRECTION M -> M !! v = Some e ->
  exists s ws p, start DIRECTION s ws /\ walk (along DIRECTION J) s v p /\ qe_weight e = ws + p.
Proof using Hlaws.
  intros HS. remember (Z.to_nat (qe_weight e - low)) as k eqn:Ek. revert v e Ek.
  induction (lt_wf k) as [k _ IH]. intros v e Ek Hv. pose proof (sd_low _ _ HS v e Hv).
  destruct (sd_tree _ _ HS v e Hv) as [[Hs Hp]|(u & eu & w & Hu & _ & Hp & Hup & Hw & _)].
  { exists v, (qe_weight e), 0. split; [done|]. split; [constructor|lia]. }
  pose proof (along_arc _ _ _ _ (along_kind _ _ _ _ _ Hup)) as (_ & _ & Hpos). pose proof (sd_low _ _ HS u eu Hu).
  destruct (IH (Z.to_nat (qe_weight eu - low))) with (v := u) (e := eu) as (s & ws & p & Hs & Hp' & E); [lia|done|done|].
  exists s, ws, (p + w). split; [done|]. split; [econstructor; [done|by eapply along_kind]|lia].
Qed.

(** On a walk from a start every node is settled, or a first one is queued. *)
Lemma front DIRECTION M s ws u p : side DIRECTION M -> start DIRECTION s ws -> walk (along DIRECTION J) s u p ->
  (exists e, M !! u = Some e /\ qe_removed e = true /\ qe_weight e <= ws + p) \/
  exists x p1 p2 e, walk (along DIRECTION J) s x p1 /\ walk (along DIRECTION J) x u p2 /\ p = p1 + p2 /\
    M !! x = Some e /\ qe_removed e = false /\ qe_weight e <= ws + p1.
Proof using Hlaws.
  intros HS Hs Hw. induction Hw as [v|s u t p w Hw IH He].
  - destruct (sd_start _ _ HS v ws Hs) as (e & He & Hle). destruct (qe_removed e) eqn:Er; [left|right].
    + exists e. split_and!; [done|done|lia].
    + exists v, 0, 0, e. split_and!; [constructor|constructor|done|done|done|lia].
  - destruct (IH Hs) as [(e & Hu & Hr & Hle)|(x & p1 & p2 & e & W1 & W2 & -> & Hx & Hl & Hle)].
    + destruct (sd_done _ _ HS u e t w Hu Hr He) as (et & Ht & Hlt). destruct (qe_removed et) eqn:Er; [left|right].
      * exists et. split_and!; [done|done|lia].
      * exists t, (p + w), 0, et. split_and!; [by econstructor|constructor|lia|done|done|lia].
    + right. exists x, p1, (p2 + w), e. split_and!; [done|by econstructor|lia|done..].
Qed.

(** Settled labels and the first one that is queued are lightest. *)
Lemma front_least DIRECTION M v e s ws p : side DIRECTION M -> M !! v = Some e ->
  (qe_removed e = false -> forall v' e', M !! v' = Some e' -> qe_removed e' = false -> qe_weight e <= qe_weight e') ->
  start DIRECTION s ws -> walk (along DIRECTION J) s v p -> qe_weight e <= ws + p.
Proof using Hlaws.
  intros HS Hv Hmin Hs Hw. destruct (front _ _ _ _ _ _ HS Hs Hw) as [(e' & Hv' & _ & Hle)|(x & p1 & p2 & ex & _ & W2 & -> & Hx & Hl & Hle)].
  - by simplify_eq.
  - pose proof (along_walk_nonneg _ _ _ _ W2). destruct (qe_removed e) eqn:Er.
    + pose proof (sd_order _ _ HS v e x ex Hv Hx Er Hl). lia.
    + pose proof (Hmin eq_refl x ex Hx Hl). lia.
Qed.

Lemma front_reach DIRECTION M v e : side DIRECTION M -> M !! v = Some e ->
  (qe_removed e = false -> forall v' e', M !! v' = Some e' -> qe_removed e' = false -> qe_weight e <= qe_weight e') ->
  qe_weight e <= reach.
Proof using Hlaws.
  intros HS Hv Hmin. destruct (mld_side_walk _ _ _ _ HS Hv) as (s & ws & p & Hs & Hw & _).
  destruct (al_reach _ _ _ _ _ _ _ _ Hlaws _ _ _ _ _ Hs Hw) as (s' & ws' & p' & Hs' & Hw' & Hle).
  pose proof (front_least _ _ _ _ _ _ _ HS Hv Hmin Hs' Hw'). lia.
Qed.

Lemma mld_side_bound DIRECTION M v e : side DIRECTION M -> M !! v = Some e -> - 2 ^ 30 <= qe_weight e < 2 ^ 30.
Proof using Hlaws.
  intros HS Hv. pose proof (sd_low _ _ HS v e Hv). pose proof (al_low _ _ _ _ _ _ _ _ Hlaws). pose proof (al_small _ _ _ _ _ _ _ _ Hlaws).
  destruct (sd_tree _ _ HS v e Hv) as [[Hs _]|(u & eu & w & Hu & Hr & _ & Hup & Hw & _)].
  - apply (al_start _ _ _ _ _ _ _ _ Hlaws) in Hs as (Hs & Hw).
    pose proof (al_maxw _ _ _ _ _ _ _ _ Hlaws). lia.
  - pose proof (along_arc _ _ _ _ (along_kind _ _ _ _ _ Hup)) as (_ & _ & Hpos).
    pose proof (front_reach _ _ _ _ HS Hu ltac:(congruence)). lia.
Qed.

(** ** Settling a node *)

Section settle.
Context (DIRECTION : bool) (M : qmap) (v : Z) (e : qentry HeapData).
Context (HS : side DIRECTION M) (Hv : M !! v = Some e) (Hlive : qe_removed e = false).
Context (Hmin : forall v' e', M !! v' = Some e' -> qe_removed e' = false -> qe_weight e <= qe_weight e').
Let M1 : qmap := <[v := mkQentry (qe_weight e) (qe_data e) true]> M.

(** What the arcs of [v] offer; those of its matrix only when no such arc led to it. *)
Definition offers (t w : Z) (d : HeapData) : Prop :=
  exists clique x, along DIRECTION (kind Jc Jb clique) v t x /\ w = qe_weight e + x /\ d = mkHeapData v clique /\
    (clique = true -> from_clique_arc (qe_data e) = false).

Lemma marked_lookup v' e' : M1 !! v' = Some e' ->
  exists e0, M !! v' = Some e0 /\ qe_weight e' = qe_weight e0 /\ qe_data e' = qe_data e0 /\
    (v' = v /\ qe_removed e' = true \/ v' <> v /\ e' = e0).
Proof using Hv.
  intros [[<- <-]|[Hne Hm]]%lookup_insert_Some; [exists e|exists e']; split_and!; try done; [by left|right; by split].
Qed.

Lemma marked_has v' e' : M !! v' = Some e' -> exists e1, M1 !! v' = Some e1 /\ qe_weight e1 = qe_weight e' /\ qe_data e1 = qe_data e' /\
  (qe_removed e' = true -> e1 = e').
Proof using Hv Hlive.
  intros Hv'. unfold M1. destruct (decide (v' = v)) as [->|Hne].
  - rewrite lookup_insert_eq. simplify_eq. eexists. split; [done|]. split; [done|]. split; [done|]. congruence.
  - rewrite lookup_insert_ne by done. by exists e'.
Qed.

Lemma marked_removed v' e' : M1 !! v' = Some e' -> qe_removed e' = true -> qe_weight e' <= qe_weight e.
Proof using HS Hv Hlive.
  intros (e0 & K0 & -> & _ & [[-> _]|[_ ->]])%marked_lookup Hr; [simplify_eq; lia|]. by eapply (sd_order _ _ HS v' e0 v e).
Qed.

Lemma marked_live v' e' : M1 !! v' = Some e' -> qe_removed e' = false -> qe_weight e <= qe_weight e'.
Proof using Hv Hmin. intros (e0 & K0 & -> & _ & [[-> Hr]|[_ ->]])%marked_lookup Hl; [congruence|by eapply Hmin]. Qed.

Lemma marked_node v' e' : M1 !! v' = Some e' -> node v'.
Proof using HS Hv. intros (e0 & K0 & _)%marked_lookup. by eapply (sd_node _ _ HS). Qed.

Lemma offers_pos t w d : offers t w d -> node t /\ qe_weight e < w.
Proof using Hlaws. intros (cq & x & Hx%along_kind%along_arc & -> & _). split; [tauto|lia]. Qed.

Context (M2 : qmap) (HR : relaxed M1 M2 offers).

Lemma settled_keeps a ea : M !! a = Some ea -> exists e2, M2 !! a = Some e2 /\ qe_weight e2 <= qe_weight ea.
Proof using Hv Hlive HR.
  intros Ha. destruct (marked_has a ea Ha) as (e1 & K1 & Hw1 & _). destruct (rx_old _ _ _ HR a e1 K1) as (e2 & K2 & Hw2 & _).
  exists e2. split; [done|lia].
Qed.

Lemma settled_same a ea : M !! a = Some ea -> qe_removed ea = true -> M2 !! a = Some ea.
Proof using Hv Hlive HR.
  intros Ha Hr. destruct (marked_has a ea Ha) as (e1 & K1 & _ & _ & E1). rewrite (E1 Hr) in K1. by apply (rx_settled _ _ _ HR).
Qed.

Lemma settled_self : M2 !! v = Some (mkQentry (qe_weight e) (qe_data e) true).
Proof using HR. apply (rx_settled _ _ _ HR); [apply lookup_insert_eq|done]. Qed.

(** All arcs of the node have been relaxed now or with its parent. *)
Lemma settled_done t w : along DIRECTION J v t w -> exists et, M2 !! t = Some et /\ qe_weight et <= qe_weight e + w.
Proof using Hlaws HS Hv Hlive HR.
  intros [cq Hk]%along_joint. destruct (decide (cq = true /\ from_clique_arc (qe_data e) = true)) as [[-> Hf]|Hno].
  - destruct (sd_tree _ _ HS v e Hv) as [[_ Hd]|(u & eu & w0 & Hu & Hr & _ & Hup & Hw & Hflag)]; [by rewrite Hd in Hf|].
    rewrite Hf in Hup. destruct (along_triangle _ _ _ _ _ _ Hup Hk) as [->|(w' & Hw' & Hle)].
    + exists eu. split; [by apply settled_same|].
      pose proof (along_arc _ _ _ _ (along_kind _ true _ _ _ Hup)). pose proof (along_arc _ _ _ _ (along_kind _ true _ _ _ Hk)). lia.
    + destruct (sd_done _ _ HS u eu t w' Hu Hr (along_kind _ true _ _ _ Hw')) as (et & Ht & Hlt).
      destruct (settled_keeps t et Ht) as (e2 & K2 & Hw2). exists e2. split; [done|lia].
  - apply (rx_reached _ _ _ HR t _ (mkHeapData v cq)). exists cq, w. split_and!; [done..|].
    intros ->. destruct (from_clique_arc (qe_data e)); [destruct Hno|]; done.
Qed.

Lemma mld_settle_side : side DIRECTION M2.
Proof using Hlaws HS Hv Hlive Hmin HR.
  constructor.
  - intros a ea Ha. destruct (rx_new _ _ _ HR a ea Ha) as [K1%marked_node|(_ & Ho%offers_pos)]; [done|tauto].
  - intros a ea Ha. pose proof (sd_low _ _ HS v e Hv).
    destruct (rx_new _ _ _ HR a ea Ha) as [(e0 & K0 & -> & _)%marked_lookup|(_ & Ho%offers_pos)]; [by eapply (sd_low _ _ HS)|lia].
  - intros a ea Ha. destruct (rx_new _ _ _ HR a ea Ha) as [(e0 & K0 & -> & -> & _)%marked_lookup|(_ & cq & x & Hx & -> & -> & Hf)].
    + destruct (sd_tree _ _ HS a e0 K0) as [?|(u & eu & w & Hu & Hr & ?)]; [by left|right].
      exists u, eu, w. split; [by apply settled_same|done].
    + right. exists v, (mkQentry (qe_weight e) (qe_data e) true), x. split; [apply settled_self|done].
  - intros s w Hs. destruct (sd_start _ _ HS s w Hs) as (e0 & K0 & Hw). destruct (settled_keeps s e0 K0) as (e2 & K2 & Hw2).
    exists e2. split; [done|lia].
  - intros a ea b eb Ha Hb Hra Hrb. assert (qe_weight ea <= qe_weight e) as Hle.
    { destruct (rx_new _ _ _ HR a ea Ha) as [K1|(? & _)]; [by eapply marked_removed|congruence]. }
    destruct (rx_new _ _ _ HR b eb Hb) as [K1|(_ & Ho%offers_pos)]; [pose proof (marked_live b eb K1 Hrb)|]; lia.
  - intros a ea t w Ha Hra Hal. destruct (rx_new _ _ _ HR a ea Ha) as [K1|(? & _)]; [|congruence].
    apply marked_lookup in K1 as (e0 & K0 & Hw & _ & [[-> _]|[Hne ->]]).
    + simplify_eq. destruct (settled_done t w Hal) as (et & Ht & Hle). exists et. split; [done|lia].
    + destruct (sd_done _ _ HS a e0 t w K0 Hra Hal) as (et & Ht & Hle). destruct (settled_keeps t et Ht) as (e2 & K2 & Hw2).
      exists e2. split; [done|lia].
Qed.
End settle.

(** ** Both searches *)

(** Ways from a source to a target, and what they cost. *)
Definition route (W : Z) : Prop := exists s t ws wt p,
  start true s ws /\ start false t wt /\ walk J s t p /\ W = ws + p + wt.

(** A node that both searches have reached is on a route. *)
Lemma mld_meeting_route DIRECTION M M' v e e' : side DIRECTION M -> side (negb DIRECTION) M' ->
  M !! v = Some e -> M' !! v = Some e' -> route (qe_weight e + qe_weight e').
Proof using Hlaws.
  intros HS HS' Hv Hv'. destruct (mld_side_walk _ _ _ _ HS Hv) as (s & ws & p & Hs & Hw & ->).
  destruct (mld_side_walk _ _ _ _ HS' Hv') as (t & wt & p' & Ht & Hw' & ->). apply walk_along in Hw, Hw'. destruct DIRECTION; simpl in *.
  - exists s, t, ws, wt, (p + p'). split_and!; [done|done|by eapply walk_app|lia].
  - exists t, s, wt, ws, (p' + p). split_and!; [done|done|by eapply walk_app|lia].
Qed.

(** A target behind its source on the same road makes a route of negative
    weight, which the search refuses. *)
Definition no_negative : Prop := forall W, route W -> 0 <= W.

(** The bound [ub] and the node [middle] it comes from: when no route is negative,
    no node that one search has settled and the other has reached is on a lighter one. *)
Record met M M' (top ub middle : Z) : Prop := {
  mt_least : no_negative -> forall v e e', M !! v = Some e -> M' !! v = Some e' -> qe_removed e = true \/ qe_removed e' = true ->
    ub <= qe_weight e + qe_weight e';
  mt_middle : (ub = top /\ middle = SPECIAL_NODEID) \/
    (0 <= ub < top /\ exists e e', M !! middle = Some e /\ M' !! middle = Some e' /\ qe_weight e + qe_weight e' <= ub)
}.

Lemma mld_met_sym M M' top ub middle : met M M' top ub middle -> met M' M top ub middle.
Proof.
  intros [L D]. constructor.
  - intros Hpos v e e' Hv Hv' Hr. specialize (L Hpos v e' e Hv' Hv ltac:(tauto)). lia.
  - destruct D as [?|(? & e & e' & ? & ? & ?)]; [by left|right]. split; [done|]. exists e', e. split_and!; [done|done|lia].
Qed.

(** A settled node and its arcs: the other search has been asked for the node. *)
Lemma met_settle DIRECTION M M' M2 v e top ub middle ub' mid :
  side DIRECTION M -> side (negb DIRECTION) M' -> met M M' top ub middle -> M !! v = Some e -> qe_removed e = false ->
  relaxed (<[v := mkQentry (qe_weight e) (qe_data e) true]> M) M2 (offers DIRECTION v e) ->
  ub' <= ub -> (no_negative -> forall e', M' !! v = Some e' -> ub' <= qe_weight e + qe_weight e') ->
  ((mid = middle /\ ub' = ub) \/ (mid = v /\ exists e', M' !! v = Some e' /\ ub' = qe_weight e + qe_weight e' /\ 0 <= ub' < ub)) ->
  met M2 M' top ub' mid.
Proof using Hlaws.
  intros HS HS' [L D] Hv Hlive HR Hle Hl Hm. constructor.
  - intros Hpos a ea e' Ha Ha' Hr. specialize (L Hpos). specialize (Hl Hpos). destruct (rx_new _ _ _ HR a ea Ha) as [(e0 & K0 & -> & _ & [[-> _]|[Hne ->]])%(marked_lookup M v e Hv)|(Hn & cq & x & Hx & Hw & _)].
    + simplify_eq. by apply Hl.
    + pose proof (L a e0 e' K0 Ha' Hr). lia.
    + destruct Hr as [Hr|Hr]; [congruence|].
      destruct (sd_done _ _ HS' a e' v x Ha' Hr) as (ev & Hev & Hlt); [apply along_negb; by eapply along_kind|].
      pose proof (Hl ev Hev). lia.
  - pose proof (settled_keeps DIRECTION M v e Hv Hlive M2 HR) as Hk. pose proof (settled_self DIRECTION M v e M2 HR) as Hself.
    destruct Hm as [[-> ->]|(-> & e' & Hv' & -> & Hlt)].
    + destruct D as [?|(? & e1 & e2 & K1 & K2 & ?)]; [by left|right]. split; [done|].
      destruct (Hk middle e1 K1) as (e3 & K3 & Hw3). exists e3, e2. split; [done|]. split; [done|lia].
    + right. split; [destruct D as [[? _]|[? _]]; lia|]. exists (mkQentry (qe_weight e) (qe_data e) true), e'.
      split; [done|]. split; [done|simpl; lia].
Qed.

(** When the queues are empty, or their first keys are as heavy as the bound
    together, no route is lighter. *)
Lemma mld_least_route F R top ub middle fmin rmin : side true F -> side false R -> met F R top ub middle ->
  (forall v e, F !! v = Some e -> qe_removed e = false -> fmin <= qe_weight e) ->
  (forall v e, R !! v = Some e -> qe_removed e = false -> rmin <= qe_weight e) ->
  (ub <= fmin + rmin \/ ((forall v e, F !! v = Some e -> qe_removed e = true) /\ forall v e, R !! v = Some e -> qe_removed e = true)) ->
  no_negative -> forall W, route W -> ub <= W.
Proof using Hlaws.
  intros HF HR HM Hf Hr Hend Hpos W (s & t & ws & wt & p & Hs & Ht & Hw & ->).
  destruct (front true F s ws t p HF Hs Hw) as [(e & He & Hre & Hle)|(x & p1 & p2 & e & W1 & W2 & -> & Hx & Hl & Hle)].
  { destruct (sd_start _ _ HR t wt Ht) as (e' & He' & Hle'). pose proof (mt_least _ _ _ _ _ HM Hpos t e e' He He' (or_introl Hre)). lia. }
  assert (walk (along false J) t x p2) as W2' by (by apply walk_along).
  destruct (front false R t wt x p2 HR Ht W2') as [(e' & He' & Hre & Hle')|(y & p3 & p4 & e' & W3 & W4 & -> & Hy & Hl' & Hle')].
  - pose proof (mt_least _ _ _ _ _ HM Hpos x e e' Hx He' (or_intror Hre)). lia.
  - pose proof (along_walk_nonneg _ _ _ _ W4). pose proof (Hf x e Hx Hl). pose proof (Hr y e' Hy Hl').
    destruct Hend as [?|[Hall _]]; [lia|]. rewrite (Hall x e Hx) in Hl. done.
Qed.

(** ** The way back *)

Definition below M (w : Z) : gset Z := dom (filter (fun p => qe_weight (snd p) < w) M).

Lemma elem_of_below M w u : u ∈ below M w <-> exists e, M !! u = Some e /\ qe_weight e < w.
Proof.
  unfold below. rewrite elem_of_dom. split.
  - intros [e [Hm Hr]%map_lookup_filter_Some]. by exists e.
  - intros (e & Hm & Hr). exists e. by apply map_lookup_filter_Some.
Qed.

Lemma below_size M w w' u : u ∈ below M w' -> u ∉ below M w -> w <= w' -> (size (below M w) < size (below M w'))%nat.
Proof.
  intros Hu Hn Hle. apply subset_size. split.
  - intros x (e & He & Hx)%elem_of_below. apply elem_of_below. exists e. split; [done|lia].
  - intros Hs. apply Hn, Hs, Hu.
Qed.

Section queues.
Context {St H Handle : Type} `{SL : IndexStorageLaws St, HL : MutableHeapLaws H Handle}.
Implicit Types (q : QueryHeap St H Handle HeapData).

Lemma below_all DIRECTION M w : side DIRECTION M -> 0 <= n -> Z.of_nat (size (below M w)) <= n.
Proof using Hlaws.
  intros HS Hn. etransitivity; [|apply (size_bound n M Hn)].
  - rewrite <- size_dom. apply inj_le, subseteq_size. intros x (e & He & _)%elem_of_below. apply elem_of_dom. by exists e.
  - intros v e Hv. apply (al_node _ _ _ _ _ _ _ _ Hlaws). by eapply (sd_node _ _ HS).
Qed.

(** Following the parents leads to a start, over the arcs of the label. *)
Lemma mld_retrieve_ok DIRECTION M q c r : side DIRECTION M -> good n q M c r -> forall k v e,
  M !! v = Some e -> (size (below M (qe_weight e)) < k)%nat ->
  exists L s ws p, retrievePackedPathFromSingleHeap DIRECTION k q v = Some L /\ start DIRECTION s ws /\ qe_weight e = ws + p /\
    (if DIRECTION then packed_path Jc Jb (reverse L) s v p else packed_path Jc Jb L v s p) /\ (length L < k)%nat.
Proof using Hlaws.
  intros HS Hq. pose proof (gd_repr _ _ _ _ _ Hq) as R. induction k as [|k IH]; intros v e Hv Hk; [lia|].
  cbn [retrievePackedPathFromSingleHeap]. rewrite (GetData_spec _ _ _ _ R Hv). cbn [mbind option_bind].
  destruct (sd_tree _ _ HS v e Hv) as [[Hs Hd]|(u & eu & w & Hu & Hr & Hp & Hup & Hw & _)].
  { rewrite Hd. cbn [parent]. rewrite Z.eqb_refl. exists [], v, (qe_weight e), 0. split; [done|]. split; [done|]. split; [lia|].
    split; [destruct DIRECTION; constructor|simpl; lia]. }
  pose proof (along_arc _ _ _ _ (along_kind _ _ _ _ _ Hup)) as (_ & _ & Hpos). rewrite Hp.
  destruct (Z.eqb_spec v u) as [->|Hne]; [simplify_eq; lia|].
  assert (size (below M (qe_weight eu)) < size (below M (qe_weight e)))%nat as Hlt.
  { apply (below_size _ _ _ u); [apply elem_of_below; exists eu; split; [done|lia]| |lia].
    intros (e0 & He0 & Hlt)%elem_of_below. simplify_eq. lia. }
  destruct (IH u eu Hu ltac:(lia)) as (L & s & ws & p & -> & Hs & E & HP & Hlen). cbn [mbind option_bind].
  eexists _, s, ws, (p + w). split; [done|]. split; [done|]. split; [lia|]. split; [|simpl; lia].
  destruct DIRECTION; simpl in Hup.
  - rewrite reverse_cons. by eapply packed_snoc.
  - rewrite Z.add_comm. by econstructor.
Qed.

Lemma retrieve_both F R q q' c r c' r' k v e e' : side true F -> side false R -> good n q F c r -> good n q' R c' r' -> 0 <= n ->
  F !! v = Some e -> R !! v = Some e' -> n < Z.of_nat k ->
  exists L s t ws wt p, retrievePackedPathFromHeap k q q' v = Some L /\ start true s ws /\ start false t wt /\
    packed_path Jc Jb L s t p /\ qe_weight e + qe_weight e' = ws + p + wt /\ (length L < 2 * k)%nat /\ (L = [] -> s = v).
Proof using Hlaws.
  intros HF HR Hq Hq' Hn Hv Hv' Hk. pose proof (below_all true F (qe_weight e) HF Hn). pose proof (below_all false R (qe_weight e') HR Hn).
  destruct (mld_retrieve_ok true F q c r HF Hq k v e Hv ltac:(lia)) as (L & s & ws & p & E1 & Hs & Ew & HP & Hl1).
  destruct (mld_retrieve_ok false R q' c' r' HR Hq' k v e' Hv' ltac:(lia)) as (L' & t & wt & p' & E2 & Ht & Ew' & HP' & Hl2).
  unfold retrievePackedPathFromHeap, FORWARD_DIRECTION, REVERSE_DIRECTION. rewrite E1, E2. cbn [mbind option_bind].
  exists (reverse L ++ L'), s, t, ws, wt, (p + p'). split; [done|]. split; [done|]. split; [done|]. split; [by eapply packed_app|].
  split; [lia|]. rewrite length_app, length_reverse. split; [lia|]. intros [E _]%app_nil. rewrite E in HP. by inversion HP.
Qed.

(** ** The queues follow the labels *)

Context (facade : DataFacade) (args : Args) (top : Z).

(** The arcs of a node are what [relaxOutgoingEdges] relaxes. *)
Context (Hrelax : forall DIRECTION q M c r (hn : HeapNode Handle HeapData) e,
  good n q M c r -> node (hn_node hn) -> entry_of hn = e -> low <= qe_weight e <= reach -> n + 1 < r ->
  (forall v e', M !! v = Some e' -> 0 <= v < n) -> (forall v e', M !! v = Some e' -> qe_removed e' = true -> qe_weight e' <= qe_weight e) ->
  exists q' M', relaxOutgoingEdges DIRECTION facade args q hn = Some q' /\ good n q' M' c r /\
    relaxed M M' (offers DIRECTION (hn_node hn) e)).
Context (Hn : 0 <= n) (Htop : top <= INT32_MAX).

(** Asking the other search for the node. *)
Lemma mld_meet_ok DIRECTION q' M M' c' r' v e (hn : HeapNode Handle HeapData) ub middle :
  good n q' M' c' r' -> side DIRECTION M -> side (negb DIRECTION) M' -> M !! v = Some e -> hn_node hn = v -> hn_weight hn = qe_weight e ->
  exists i mid ub', GetHeapNodeIfWasInserted q' v = Some i /\
    meet q' hn i middle ub [] [] = Some (mid, ub') /\ ub' <= ub /\ (no_negative -> forall e', M' !! v = Some e' -> ub' <= qe_weight e + qe_weight e') /\
    ((mid = middle /\ ub' = ub) \/ (mid = v /\ exists e', M' !! v = Some e' /\ ub' = qe_weight e + qe_weight e' /\ 0 <= ub' < ub)).
Proof using Hlaws.
  intros Hq' HS HS' Hv Hn' Hw. pose proof (al_node _ _ _ _ _ _ _ _ Hlaws v (sd_node _ _ HS v e Hv)) as Hvn.
  pose proof (GetHeapNodeIfWasInserted_spec q' M' v (gd_repr _ _ _ _ _ Hq') (gd_valid _ _ _ _ _ Hq' _ Hvn)) as Hget.
  destruct (M' !! v) as [e'|] eqn:E'; [|exists None, middle, ub; split_and!; [done|done|lia|done|by left]].
  destruct Hget as (i & hn' & Hg & Hi & _ & He'). exists (Some i). assert (hn_weight hn' = qe_weight e') as Hw' by (by subst e').
  unfold meet. rewrite Hi. cbn [mbind option_bind]. rewrite Hw', Hw. pose proof (mld_side_bound _ _ _ _ HS Hv). pose proof (mld_side_bound _ _ _ _ HS' E').
  unfold weight_add. rewrite swrap_small by lia. cbv zeta. rewrite !force_loop_nil. cbn [andb negb].
  destruct (Z.leb_spec 0 (qe_weight e + qe_weight e')) as [Hpos|Hneg]; cbn [andb].
  2:{ exists middle, ub. split_and!; [done|done|lia| |by left]. intros Hnn. pose proof (Hnn _ (mld_meeting_route _ _ _ _ _ _ HS HS' Hv E')). lia. }
  destruct (Z.ltb_spec (qe_weight e + qe_weight e') ub) as [Hlt|Hge].
  - exists v, (qe_weight e + qe_weight e'). rewrite Hn'. split_and!; [done|done|lia|intros _ ? [= <-]; lia|right]. split; [done|]. by exists e'.
  - exists middle, ub. split_and!; [done|done|lia|intros _ ? [= <-]; lia|by left].
Qed.

Lemma mld_routingStep_ok DIRECTION q q' M M' c r c' r' ub middle :
  good n q M c r -> good n q' M' c' r' -> n + 1 < r -> side DIRECTION M -> side (negb DIRECTION) M' -> met M M' top ub middle ->
  Empty q = false ->
  exists q2 M2 mid ub', routingStep DIRECTION facade args q q' middle ub [] [] = Some (q2, mid, ub') /\
    good n q2 M2 c r /\ side DIRECTION M2 /\ met M2 M' top ub' mid /\ ub' <= ub /\
    (size (settled_set M) < size (settled_set M2))%nat.
Proof using Hlaws Hrelax.
  intros Hq Hq' Hroom HS HS' Hmet Hne. pose proof (gd_repr _ _ _ _ _ Hq) as R.
  destruct (DeleteMinGetHeapNode_spec q M R (nonempty_live q M R Hne)) as (hn & e & q1 & E1 & Hv & Hlive & Hen & Hmin & R1 & Hni).
  unfold routingStep. rewrite E1. cbn [mbind option_bind]. rewrite Hen in R1.
  assert (hn_weight hn = qe_weight e) as Hw by (unfold entry_of in Hen; congruence).
  destruct (mld_meet_ok DIRECTION q' M M' c' r' _ e hn ub middle Hq' HS HS' Hv eq_refl Hw) as (i & mid & ub' & -> & Em & Hub & Hl & Hm).
  cbn [mbind option_bind]. rewrite Em. cbn [mbind option_bind].
  assert (good n q1 (<[hn_node hn := mkQentry (qe_weight e) (qe_data e) true]> M) c r) as Hq1 by (by eapply good_keep).
  destruct (Hrelax DIRECTION q1 _ c r hn _ Hq1 (sd_node _ _ HS _ _ Hv) Hen) as (q2 & M2 & E2 & Hq2 & HR); cbn [qe_weight].
  { split; [by eapply (sd_low _ _ HS)|]. exact (front_reach _ _ _ _ HS Hv (fun _ => Hmin)). }
  { done. }
  { intros v e' (e0 & K0 & _)%(marked_lookup M _ e Hv). apply (al_node _ _ _ _ _ _ _ _ Hlaws). by eapply (sd_node _ _ HS). }
  { intros v e'. by apply (marked_removed DIRECTION M _ e HS Hv Hlive). }
  assert (relaxed (<[hn_node hn := mkQentry (qe_weight e) (qe_data e) true]> M) M2 (offers DIRECTION (hn_node hn) e)) as HR' by exact HR.
  rewrite E2. cbn [mbind option_bind]. exists q2, M2, mid, ub'. split; [done|]. split; [done|].
  split; [exact (mld_settle_side DIRECTION M _ e HS Hv Hlive Hmin M2 HR')|]. split; [exact (met_settle DIRECTION M M' M2 _ e top ub middle ub' mid HS HS' Hmet Hv Hlive HR' Hub Hl Hm)|]. split; [done|].
  apply (settled_grows M _ _ e Hv Hlive). intros a ea Ha Hra. exists ea. split; [|done]. by apply (rx_settled _ _ _ HR).
Qed.

(** ** The loop *)

(** Both searches with what they have found and the keys in front. *)
Record searching (F R : qmap) (ub middle fmin rmin : Z) : Prop := {
  sr_forward : side true F; sr_reverse : side false R; sr_met : met F R top ub middle;
  sr_fmin v e : F !! v = Some e -> qe_removed e = false -> fmin <= qe_weight e;
  sr_rmin v e : R !! v = Some e -> qe_removed e = false -> rmin <= qe_weight e;
  sr_keys : - 2 ^ 30 <= fmin < 2 ^ 30 /\ - 2 ^ 30 <= rmin < 2 ^ 30
}.

Definition unsettled (F R : qmap) : Z := 2 * n - Z.of_nat (size (settled_set F)) - Z.of_nat (size (settled_set R)).

(** A step of one of the searches and the new key in front. *)
Lemma search_step_ok DIRECTION q q' M M' c r c' r' ub middle kmin :
  good n q M c r -> good n q' M' c' r' -> n + 1 < r -> side DIRECTION M -> side (negb DIRECTION) M' -> met M M' top ub middle ->
  (forall v e, M !! v = Some e -> qe_removed e = false -> kmin <= qe_weight e) -> - 2 ^ 30 <= kmin < 2 ^ 30 ->
  exists q2 M2 mid ub' kmin', search_step DIRECTION facade args q q' middle ub kmin [] [] = Some (q2, mid, ub', kmin') /\
    good n q2 M2 c r /\ side DIRECTION M2 /\ met M2 M' top ub' mid /\
    (forall v e, M2 !! v = Some e -> qe_removed e = false -> kmin' <= qe_weight e) /\ - 2 ^ 30 <= kmin' < 2 ^ 30 /\
    (size (settled_set M) + (if Empty q then 0 else 1) <= size (settled_set M2))%nat.
Proof using Hlaws Hrelax.
  intros Hq Hq' Hroom HS HS' Hmet Hk Hkb. unfold search_step. destruct (Empty q) eqn:E.
  { exists q, M, middle, ub, kmin. split_and!; try done; lia. }
  destruct (mld_routingStep_ok DIRECTION q q' M M' c r c' r' ub middle) as (q2 & M2 & mid & ub' & E2 & Hq2 & HS2 & Hm2 & _ & Hsz); try done.
  rewrite E2. cbn [mbind option_bind]. pose proof (gd_repr _ _ _ _ _ Hq2) as R2. destruct (Empty q2) eqn:Ee.
  - exists q2, M2, mid, ub', kmin. split; [done|]. split; [done|]. split; [done|]. split; [done|]. split; [|split; [done|lia]].
    intros v e Hv Hl. rewrite (proj1 (Empty_spec _ _ R2) Ee v e Hv) in Hl. done.
  - destruct (MinKey_least q2 M2 R2 Ee) as (v & e & Hv & Hl & -> & Hmin). cbn [mbind option_bind].
    exists q2, M2, mid, ub', (qe_weight e). split; [done|]. split; [done|]. split; [done|]. split; [done|]. split; [done|].
    split; [by eapply mld_side_bound|lia].
Qed.

Lemma mld_search_loop_ok fuel : forall q q' F R c r c' r' ub middle fmin rmin,
  good n q F c r -> good n q' R c' r' -> n + 1 < r -> n + 1 < r' -> searching F R ub middle fmin rmin ->
  unsettled F R < Z.of_nat fuel ->
  exists q2 q2' F2 R2 mid ub', search_loop fuel facade args q q' middle ub fmin rmin [] [] = Some (q2, q2', mid, ub') /\
    good n q2 F2 c r /\ good n q2' R2 c' r' /\ side true F2 /\ side false R2 /\ met F2 R2 top ub' mid /\
    (no_negative -> forall W, route W -> ub' <= W).
Proof using Hlaws Hrelax Hn.
  induction fuel as [|fuel IH]; intros q q' F R c r c' r' ub middle fmin rmin Hq Hq' Hr Hr' HS Hfuel; pose proof HS as [HF HR HM Hf Hrm [Hb1 Hb2]].
  { unfold unsettled in Hfuel.
    assert (forall D M, side D M -> Z.of_nat (size (settled_set M)) <= n) as Hsz; [|pose proof (Hsz _ _ HF); pose proof (Hsz _ _ HR); lia].
    intros D M HD. apply settled_set_size; [done|]. intros m e Hm. apply (al_node _ _ _ _ _ _ _ _ Hlaws). by eapply (sd_node _ _ HD). }
  cbn [search_loop]. destruct (Size_Empty q F (gd_repr _ _ _ _ _ Hq)) as [Hs1 Hs2]. destruct (Size_Empty q' R (gd_repr _ _ _ _ _ Hq')) as [Hs1' Hs2'].
  assert (forall b, (0 <? Size q + Size q') && b = false -> b = true -> (forall v e, F !! v = Some e -> qe_removed e = true) /\
    forall v e, R !! v = Some e -> qe_removed e = true) as Hdry.
  { intros b Hb ->. rewrite andb_true_r in Hb. apply Z.ltb_ge in Hb.
    split; [apply (Empty_spec q F (gd_repr _ _ _ _ _ Hq)), Hs2|apply (Empty_spec q' R (gd_repr _ _ _ _ _ Hq')), Hs2']; lia. }
  unfold weight_add at 1. rewrite swrap_small by lia.
  destruct ((0 <? Size q + Size q') && (fmin + rmin <? ub)) eqn:Ego.
  2:{ exists q, q', F, R, middle, ub. split; [done|]. do 5 (split; [done|]).
      apply (mld_least_route F R top ub middle fmin rmin HF HR HM Hf Hrm).
      destruct (Z.ltb_spec (fmin + rmin) ub) as [Hlt|Hge]; [right; by eapply Hdry|by left]. }
  apply andb_true_iff in Ego as [Ego%Z.ltb_lt _].
  destruct (search_step_ok true q q' F R c r c' r' ub middle fmin) as (q2 & F2 & mid & ub1 & fmin2 & E2 & Hq2 & HF2 & HM2 & Hf2 & Hb3 & Hd2); try done.
  unfold FORWARD_DIRECTION. rewrite E2. cbn [mbind option_bind].
  destruct (search_step_ok false q' q2 R F2 c' r' c r ub1 mid rmin) as (q3 & R3 & mid3 & ub3 & rmin3 & E3 & Hq3 & HR3 & HM3 & Hr3 & Hb4 & Hd3); try done.
  { by apply mld_met_sym. }
  unfold REVERSE_DIRECTION. rewrite E3. cbn [mbind option_bind].
  apply (IH q2 q3 F2 R3 c r c' r' ub3 mid3 fmin2 rmin3); try done.
  { constructor; try done. by apply mld_met_sym. }
  unfold unsettled in *. assert (Empty q = false \/ Empty q' = false) as Hor.
  { destruct (Empty q), (Empty q'); try (by left); try (by right). assert (Size q = 0) by (by apply Hs2). assert (Size q' = 0) by (by apply Hs2'). lia. }
  destruct Hor as [E|E]; rewrite E in *; [destruct (Empty q')|destruct (Empty q)]; lia.
Qed.
End queues.
End sides.
