(* ===== verification/MldOverlay.v ===== *)
(** * The overlay

    The arcs the multi-level search uses are enough.  Every node has a level;
    at level 0 the search uses the edges of the node, above it the matrix of
    the cell of the node and the edges that leave the cell.  A way between nodes on the
    border of their cells splits where it leaves a cell, so that the arcs of the
    overlay keep all distances; and [relaxOutgoingEdges] relaxes these arcs
    and nothing else. *)
From S2P Require Import Prelude Walks Sorting QueryHeap Permutation DynamicGraph StaticGraph MultiLevelPartition.
From S2P Require Import MultiLevelGraph GraphInterface EdgeBasedEdge CellStorage CellCustomizer Customization Relaxing RoutingBase MldSearch MldLabels.
Import Static Multi.

Section overlay.
Context {G : Type} `{!Graph G EdgeData} `{!GraphLaws G EdgeData}.
Context (gp : G) (graph : MultiLevelGraph EdgeData).
Context (mlp : MultiLevelPartition) (st : CellStorage) (allowed : list bool) (levels num bound : Z) (m : CellMetric).
Context (Hcu : customizable gp graph mlp st allowed levels num bound) (Hcm : customized_metric gp graph mlp st allowed levels m).

Abbreviation cell_of := (CellStorage.cell_of mlp).
Abbreviation ss := (source_nodes forward mlp gp).
Abbreviation ds := (destination_nodes forward backward mlp gp).
Abbreviation crosses := (CellStorage.crosses mlp gp).
Abbreviation is_allowed := (is_allowed allowed).
Abbreviation inner := (inner graph mlp allowed).

(** ** Levels *)

(** The nodes a search may visit, and their levels: a cell of the level of a
    node is visited as a whole and at that level. *)
Record levelled (node : Z -> Prop) (lv : Z -> Z) : Prop := {
  lo_allowed v : node v -> is_allowed v;
  lo_range v : node v -> 0 <= lv v <= levels;
  lo_cell u v : node u -> is_allowed v -> 1 <= lv u -> cell_of (lv u) u = cell_of (lv u) v -> node v /\ lv v = lv u
}.

Context (node : Z -> Prop) (lv : Z -> Z) (Hlv : levelled node lv).

(** Edges between nodes of the search. *)
Definition road (u v w : Z) : Prop := node u /\ node v /\
  exists x, x ∈ sadj (base graph) u /\ target x = v /\ forward (data x) = true /\ weight (data x) = w.

Definition apart (l u v : Z) : Prop := l = 0 \/ cell_of l u <> cell_of l v.

#[local] Instance apart_dec l u v : Decision (apart l u v).
Proof. unfold apart. apply _. Defined.

(** The two kinds of arcs. *)
Definition border_arc (u v w : Z) : Prop := road u v w /\ apart (lv u) u v.

Definition clique_arc (u v w : Z) : Prop := node u /\ node v /\ u <> v /\ 1 <= lv u /\ cell_of (lv u) u = cell_of (lv u) v /\
  u ∈ ss (lv u) (cell_of (lv u) u) /\ v ∈ ds (lv u) (cell_of (lv u) u) /\ w <> INVALID_EDGE_WEIGHT /\
  exists d x, entry gp mlp st m (lv u) (cell_of (lv u) u) u v w d x.

Abbreviation J := (joint clique_arc border_arc).

(** Nodes on the border of their cells. *)
Definition gate (v : Z) : Prop := lv v = 0 \/ crosses (lv v) v = true.

(** An edge leaves the cells of both of its ends, or of none. *)
Lemma apart_both u v : node u -> node v -> apart (lv u) u v -> apart (lv v) u v.
Proof using Hlv.
  intros Hu Hv Ha. destruct (decide (apart (lv v) u v)) as [?|Hn]; [done|exfalso]. unfold apart in *.
  pose proof (lo_range _ _ Hlv v Hv). assert (1 <= lv v /\ cell_of (lv v) v = cell_of (lv v) u) as [Hl He].
  { split; [lia|]. destruct (decide (cell_of (lv v) u = cell_of (lv v) v)); [done|tauto]. }
  destruct (lo_cell _ _ Hlv v u Hv (lo_allowed _ _ Hlv u Hu) Hl He) as [_ E]. rewrite E in Ha. destruct Ha; [lia|congruence].
Qed.

Lemma node_range v : node v -> 0 <= v < num.
Proof using Hcu Hlv. intros Hv. eapply (allowed_range _ _ _ _ _ _ _ _ Hcu). by apply (lo_allowed _ _ Hlv). Qed.

Lemma border_gates u v w : border_arc u v w -> gate u /\ gate v.
Proof using Hcu Hlv.
  intros [(Hu & Hv & x & Hx & Ht & Hf & Hw) Ha]. unfold gate. pose proof (apart_both u v Hu Hv Ha) as Ha'. split.
  - destruct Ha as [?|Ha]; [by left|right]. eapply (crosses_intro _ _ _ _ _ _ _ _ Hcu); [exact Hx|congruence].
  - destruct Ha' as [?|Ha']; [by left|right]. destruct (cu_symmetric _ _ _ _ _ _ _ _ Hcu u x (node_range u Hu) Hx Hf) as (y & Hy & Hty & _).
    rewrite Ht in Hy. eapply (crosses_intro _ _ _ _ _ _ _ _ Hcu); [exact Hy|congruence].
Qed.

Lemma clique_gates u v w : clique_arc u v w -> gate u /\ gate v.
Proof using Hcu Hlv.
  intros (Hu & Hv & _ & Hl & Hc & Hs & Hd & _). destruct (lo_cell _ _ Hlv u v Hu (lo_allowed _ _ Hlv v Hv) Hl Hc) as [_ El].
  split; right; [by apply (elem_of_sources _ _ _ _ _ _ _ _ Hcu) in Hs as (_ & ? & _)|].
  rewrite El. by apply (elem_of_destinations _ _ _ _ _ _ _ _ Hcu) in Hd as (_ & ? & _).
Qed.

Lemma joint_gates u v w : J u v w -> gate u /\ gate v.
Proof using Hcu Hlv. intros [[] Hk]; [by eapply clique_gates|by eapply border_gates]. Qed.

(** ** Arcs of the overlay are ways *)

Lemma inner_road u x p : node u -> 1 <= lv u -> walk (inner (lv u)) u x p -> node x /\ cell_of (lv u) u = cell_of (lv u) x /\ walk road u x p.
Proof using Hlv.
  intros Hu Hl Hw. remember (inner (lv u)) as E eqn:HE. induction Hw as [n|s y t p w Hw IH He]; subst E; [split_and!; [done|done|constructor]|].
  destruct (IH Hu Hl eq_refl) as (Hy & Hc & Hr). destruct He as (_ & Ht & Hc' & Hx). split; [|split; [congruence|]].
  - by apply (lo_cell _ _ Hlv s t Hu Ht Hl ltac:(congruence)).
  - econstructor; [done|]. split; [done|]. split; [|done]. by apply (lo_cell _ _ Hlv s t Hu Ht Hl ltac:(congruence)).
Qed.

(** An entry of a matrix is a distance. *)
Lemma entry_distance l u v w d x : 1 <= l <= levels -> is_allowed u -> u ∈ ss l (cell_of l u) -> v ∈ ds l (cell_of l u) ->
  entry gp mlp st m l (cell_of l u) u v w d x -> is_distance graph mlp allowed l u v w.
Proof using Hcu Hcm.
  intros Hl Hu Hs Hd He. destruct (cell_get _ _ _ _ _ _ _ _ Hcu l u Hl (allowed_range _ _ _ _ _ _ _ _ Hcu _ Hu)) as [_ Hc].
  destruct (cm_exact _ _ _ _ _ _ _ Hcm l Hl _ u Hc Hs Hu v Hd) as (w' & d' & x' & He' & Hdist & _).
  by destruct (entry_unique _ _ _ _ _ _ _ _ _ _ _ _ _ _ He He') as (-> & _).
Qed.

Lemma clique_distance u v w : clique_arc u v w -> walk (inner (lv u)) u v w /\ forall p, walk (inner (lv u)) u v p -> w <= p.
Proof using Hcu Hcm Hlv.
  intros (Hu & Hv & _ & Hl & Hc & Hs & Hd & Hw & d & x & He). pose proof (lo_range _ _ Hlv u Hu).
  destruct (entry_distance (lv u) u v w d x ltac:(lia) (lo_allowed _ _ Hlv u Hu) Hs Hd He) as [[? _]|(_ & ?)]; done.
Qed.

Lemma joint_road u v w : J u v w -> walk road u v w.
Proof using Hcu Hcm Hlv.
  intros [[] Hk]; [|apply walk_edge; apply Hk]. destruct (clique_distance _ _ _ Hk) as [Hw _].
  destruct Hk as (Hu & _ & _ & Hl & _). by apply inner_road.
Qed.

Lemma mld_overlay_sound s t p : walk J s t p -> walk road s t p.
Proof using Hcu Hcm Hlv. induction 1 as [n|s u t p w Hw IH He]; [constructor|]. eapply walk_app; [done|by apply joint_road]. Qed.

(** ** Ways are found in the overlay *)

(** A way inside the cell between two of its gates. *)
Lemma inner_clique u v p : node u -> 1 <= lv u -> walk (inner (lv u)) u v p -> crosses (lv u) u = true -> crosses (lv u) v = true ->
  exists p', walk J u v p' /\ p' <= p.
Proof using Hcu Hcm Hlv.
  intros Hu Hl Hw Hcu' Hcv. pose proof (lo_range _ _ Hlv u Hu) as Hr.
  destruct (decide (u = v)) as [->|Hne]; [exists 0; split; [constructor|by eapply (inner_walk_nonneg _ _ _ _ _ _ _ _ Hcu)]|].
  destruct (walk_ends _ _ _ _ _ _ _ _ Hcu (lv u) u v p Hw) as [[? _]|(_ & Ha & Hb & Hc & (a & wa & Hfirst) & b & wb & Hlast)]; [done|].
  assert (u ∈ ss (lv u) (cell_of (lv u) u)) as Hs.
  { apply (elem_of_sources _ _ _ _ _ _ _ _ Hcu). split; [by apply node_range|]. split; [exact Hcu'|]. split; [|done].
    destruct Hfirst as (_ & _ & Hca & x & Hx & Ht & Hf & _). eapply (connected_intro _ _ _ _ _ _ _ _ Hcu); [by left|exact Hx|congruence|done]. }
  assert (v ∈ ds (lv u) (cell_of (lv u) u)) as Hd.
  { rewrite Hc. apply (destination_intro _ _ _ _ _ _ _ _ Hcu); [by eapply (allowed_range _ _ _ _ _ _ _ _ Hcu)|done|].
    destruct Hlast as (Hab & _ & Hcb & x & Hx & Ht & Hf & _).
    destruct (cu_symmetric _ _ _ _ _ _ _ _ Hcu b x (allowed_range _ _ _ _ _ _ _ _ Hcu _ Hab) Hx Hf) as (y & Hy & Hty & Hback).
    rewrite Ht in Hy. eapply (connected_intro _ _ _ _ _ _ _ _ Hcu); [by right|exact Hy|congruence|done]. }
  destruct (cell_get _ _ _ _ _ _ _ _ Hcu (lv u) u ltac:(lia) (allowed_range _ _ _ _ _ _ _ _ Hcu _ Ha)) as [_ Hcr].
  destruct (cm_exact _ _ _ _ _ _ _ Hcm (lv u) ltac:(lia) _ u Hcr Hs Ha v Hd) as (w & d & x & He & Hdist & _).
  destruct Hdist as [[_ Hno]|(Hw' & Hwalk & Hleast)]; [destruct (Hno p Hw)|].
  exists w. split; [|by apply Hleast]. apply walk_edge. exists true. split; [done|]. split; [by apply (inner_road u v p)|].
  split_and!; try done. by exists d, x.
Qed.

(** The first edge that leaves the cell of the level of the start. *)
Lemma first_exit l s t p : walk road s t p -> is_allowed s -> walk (inner l) s t p \/
  exists x y p1 w p2, walk (inner l) s x p1 /\ road x y w /\ cell_of l x <> cell_of l y /\ walk road y t p2 /\ p = p1 + w + p2.
Proof using Hlv.
  intros Hw Hs. induction Hw as [n|s u t p w Hw IH He]; [left; constructor|].
  destruct (IH Hs) as [Hin|(x & y & p1 & w1 & p2 & W1 & Hr & Hc & W2 & ->)].
  - destruct (decide (cell_of l u = cell_of l t)) as [Hc|Hc].
    + left. econstructor; [done|]. destruct He as (Hu & Ht & Hx). split; [by apply (lo_allowed _ _ Hlv)|]. split; [by apply (lo_allowed _ _ Hlv)|done].
    + right. exists u, t, p, w, 0. split_and!; [done|done|done|constructor|lia].
  - right. exists x, y, p1, w1, (p2 + w). split_and!; [done|done|done|by econstructor|lia].
Qed.

Lemma road_positive u v w : road u v w -> 1 <= w <= bound.
Proof using Hcu. intros (_ & _ & x & Hx & _ & Hf & <-). by eapply (cu_weights _ _ _ _ _ _ _ _ Hcu). Qed.

Lemma road_walk_nonneg u v p : walk road u v p -> 0 <= p.
Proof using Hcu. apply walk_nonneg. intros ? ? ? ?%road_positive. lia. Qed.

Lemma mld_overlay_complete s t p : walk road s t p -> node s -> gate s -> gate t -> exists p', walk J s t p' /\ p' <= p.
Proof using Hcu Hcm Hlv.
  intros Hw. remember (Z.to_nat p) as k eqn:Ek. revert s p Hw Ek. induction (lt_wf k) as [k _ IH]. intros s p Hw Ek Hs Hgs Hgt.
  pose proof (road_walk_nonneg _ _ _ Hw) as Hp0.
  assert (forall x y p1 w p2, walk J s x p1 -> border_arc x y w -> walk road y t p2 -> p1 + w + p2 <= p -> 0 <= p1 -> exists p', walk J s t p' /\ p' <= p) as Hgo.
  { intros x y p1 w p2 W1 Hb W2 Hle Hp1. pose proof (border_gates _ _ _ Hb) as [_ Hgy]. pose proof Hb as [(Hx & Hy & He) _].
    assert (1 <= w) by (destruct Hb as [Hr _]; apply road_positive in Hr; lia). pose proof (road_walk_nonneg _ _ _ W2).
    destruct (IH (Z.to_nat p2) ltac:(lia) y p2 W2 eq_refl Hy Hgy Hgt) as (p' & W' & Hle').
    exists (p1 + w + p'). split; [|lia]. eapply walk_app; [|done]. econstructor; [done|]. by exists false. }
  destruct (decide (lv s = 0)) as [E0|E0].
  - destruct (walk_first _ _ _ _ Hw) as [[-> ->]|(u & w & p' & He & Hw' & ->)]; [exists 0; split; [constructor|lia]|].
    apply (Hgo s u 0 w p'); [constructor| |done|lia|lia]. split; [done|by left].
  - destruct Hgs as [?|Hcs]; [done|]. pose proof (lo_range _ _ Hlv s Hs).
    destruct (first_exit (lv s) s t p Hw (lo_allowed _ _ Hlv s Hs)) as [Hin|(x & y & p1 & w & p2 & W1 & Hr & Hc & W2 & ->)].
    + apply inner_clique; [done|lia|done|done|]. destruct (inner_road s t p Hs ltac:(lia) Hin) as (Ht & Hct & _).
      destruct (lo_cell _ _ Hlv s t Hs (lo_allowed _ _ Hlv t Ht) ltac:(lia) Hct) as [_ El]. destruct Hgt as [?|Hg]; [lia|by rewrite El in Hg].
    + destruct (inner_road s x p1 Hs ltac:(lia) W1) as (Hx & Hcx & _).
      destruct (lo_cell _ _ Hlv s x Hs (lo_allowed _ _ Hlv x Hx) ltac:(lia) Hcx) as [_ El].
      assert (border_arc x y w) as Hb by (split; [done|right; by rewrite El]).
      destruct (border_gates _ _ _ Hb) as [[?|Hgx] _]; [lia|]. rewrite El in Hgx.
      destruct (inner_clique s x p1 Hs ltac:(lia) W1 Hcs Hgx) as (p1' & W1' & Hle).
      assert (0 <= p1').
      { eapply walk_nonneg; [|exact W1']. intros a b c Hj%joint_road. by apply road_walk_nonneg in Hj. }
      apply (Hgo x y p1' w p2); try done. lia.
Qed.

(** ** The laws of the labels *)

Lemma walk_gate s t p : walk J s t p -> (gate s <-> gate t).
Proof using Hcu Hlv.
  induction 1 as [n|s u t p w Hw IH He]; [done|]. rewrite IH. pose proof (joint_gates _ _ _ He). tauto.
Qed.

Lemma walk_node s t p : walk J s t p -> node s <-> node t.
Proof using.
  induction 1 as [n|s u t p w Hw IH He]; [done|]. rewrite IH.
  destruct He as [[] Hk]; simpl in Hk; unfold clique_arc, border_arc, road in Hk; tauto.
Qed.

Lemma clique_triangle u v t w1 w2 : clique_arc u v w1 -> clique_arc v t w2 -> t = u \/ exists w, clique_arc u t w /\ w <= w1 + w2.
Proof using Hcu Hcm Hlv.
  intros H1 H2. destruct (clique_distance _ _ _ H1) as [W1 _]. destruct (clique_distance _ _ _ H2) as [W2 _].
  destruct H1 as (Hu & Hv & _ & Hl & Hc & Hs & Hd & _). destruct H2 as (_ & Ht & _ & _ & Hc' & _ & Hdt & _).
  destruct (lo_cell _ _ Hlv u v Hu (lo_allowed _ _ Hlv v Hv) Hl Hc) as [_ El]. rewrite El in *. rewrite <- Hc in *.
  destruct (decide (t = u)) as [?|Hne]; [by left|right]. pose proof (lo_range _ _ Hlv u Hu). pose proof (lo_allowed _ _ Hlv u Hu) as Ha.
  destruct (cell_get _ _ _ _ _ _ _ _ Hcu (lv u) u ltac:(lia) (node_range u Hu)) as [_ Hcr].
  destruct (cm_exact _ _ _ _ _ _ _ Hcm (lv u) ltac:(lia) _ u Hcr Hs Ha t Hdt) as (w & d & x & He & Hdist & _).
  pose proof (walk_app _ _ _ _ _ _ W1 W2) as W.
  destruct Hdist as [[_ Hno]|(Hw & _ & Hleast)]; [destruct (Hno _ W)|]. exists w. split; [|by apply Hleast].
  split_and!; try done. by exists d, x.
Qed.

Section starts.
Context (start : bool -> Z -> Z -> Prop) (low high : Z).
Context (Hstart : forall DIRECTION s w, start DIRECTION s w -> node s /\ gate s /\ low <= w <= high).
(** Nodes that are joined at all are not further apart than [bound]. *)
Context (Hdistances : forall u v p, walk road u v p -> exists p', walk road u v p' /\ p' <= bound).

Lemma light_overlay s t p : node s -> gate s -> walk J s t p -> exists p', walk J s t p' /\ p' <= bound.
Proof using Hcu Hcm Hlv Hdistances.
  intros Hs Hg Hw. destruct (Hdistances s t p (mld_overlay_sound _ _ _ Hw)) as (p1 & W1 & Hle).
  destruct (mld_overlay_complete s t p1 W1 Hs Hg) as (p2 & W2 & Hle2); [by apply (walk_gate _ _ _ Hw)|]. exists p2. split; [done|lia].
Qed.

Lemma joint_weight u v w : J u v w -> 0 < w <= bound.
Proof using Hcu Hcm Hlv.
  intros [[] Hk]; [|destruct Hk as [Hk _]; apply road_positive in Hk; lia].
  pose proof (clique_distance _ _ _ Hk) as [Hw Hleast]. destruct Hk as (Hu & _ & Hne & Hl & _). pose proof (lo_range _ _ Hlv u Hu).
  destruct (cu_distances _ _ _ _ _ _ _ _ Hcu (lv u) u v w ltac:(lia) Hw) as (p' & W' & Hle). pose proof (Hleast p' W').
  destruct (walk_ends _ _ _ _ _ _ _ _ Hcu (lv u) u v w Hw) as [[? _]|[? _]]; [done|lia].
Qed.

Lemma overlay_laws : num <= SPECIAL_NODEID -> - 2 ^ 30 <= low -> high + bound + bound < 2 ^ 30 -> 0 <= bound ->
  arc_laws clique_arc border_arc node start num low (high + bound) bound.
Proof using Hcu Hcm Hlv Hstart Hdistances.
  intros Hnum Hlow Hsmall Hb. split.
  - exact node_range.
  - intros u v w Hj. pose proof (joint_weight _ _ _ Hj). destruct Hj as [[] Hk]; simpl in Hk; unfold clique_arc, border_arc, road in Hk; tauto.
  - exact clique_triangle.
  - intros D s w Hs%Hstart. destruct Hs as (? & _ & ?). split; [done|lia].
  - intros D s ws v p Hs Hw. destruct (Hstart _ _ _ Hs) as (Hn & Hg & Hws). apply walk_along in Hw. destruct D; simpl in Hw.
    + destruct (light_overlay s v p Hn Hg Hw) as (p' & W' & Hle). exists s, ws, p'. split; [done|]. split; [done|lia].
    + destruct (light_overlay v s p) as (p' & W' & Hle); [by apply (walk_node _ _ _ Hw)|by apply (walk_gate _ _ _ Hw)|done|].
      exists s, ws, p'. split; [done|]. split; [by apply walk_along|lia].
  - done.
  - done.
  - done.
  - done.
Qed.

(** Routes of the overlay and of the graph. *)
Definition road_route (W : Z) : Prop := exists s t ws wt p,
  start true s ws /\ start false t wt /\ walk road s t p /\ W = ws + p + wt.

Lemma route_sound W : route clique_arc border_arc start W -> road_route W.
Proof using Hcu Hcm Hlv.
  intros (s & t & ws & wt & p & Hs & Ht & Hw & ->). exists s, t, ws, wt, p. split_and!; [done|done|by apply mld_overlay_sound|done].
Qed.

Lemma route_complete W : road_route W -> exists W', route clique_arc border_arc start W' /\ W' <= W.
Proof using Hcu Hcm Hlv Hstart.
  intros (s & t & ws & wt & p & Hs & Ht & Hw & ->). destruct (Hstart _ _ _ Hs) as (Hn & Hg & _). destruct (Hstart _ _ _ Ht) as (_ & Hg' & _).
  destruct (mld_overlay_complete s t p Hw Hn Hg Hg') as (p' & W' & Hle). exists (ws + p' + wt). split; [|lia].
  by exists s, t, ws, wt, p'.
Qed.
End starts.

(** ** Relaxing the arcs of a node *)

Import Mld.

(** An edge of the query graph. *)
Definition edge_read (facade : DataFacade) (e : Z) (x : DynamicEdge EdgeData) : Prop :=
  GetTarget (base (super (query_graph facade))) e = Some (target x) /\
  GetEdgeData (base (super (query_graph facade))) e = Some (mkEdgeBasedGraphEdgeData (EdgeBasedEdge.turn_id (data x))) /\
  IsForwardEdge (query_graph facade) e = Some (forward (data x)) /\ IsBackwardEdge (query_graph facade) e = Some (backward (data x)).

Definition flag (DIRECTION : bool) (x : DynamicEdge EdgeData) : bool := if DIRECTION then forward (data x) else backward (data x).

(** The data of the facade: the graph without weights, which are the weight of
    a node and the penalty of a turn, edges stored at both of their ends,
    and the classes of nodes that are excluded. *)
Record facade_ok (facade : DataFacade) : Prop := {
  fo_partition : mld_partition facade = mlp;
  fo_cells : mld_cell_storage facade = st;
  fo_metric : mld_cell_metric facade = m;
  fo_border l u : 0 <= l <= levels -> 0 <= u < num -> exists range xs, GetBorderEdgeRange (super (query_graph facade)) l u = Some range /\
    Forall2 (edge_read facade) range xs /\
    forall x, x ∈ xs <-> x ∈ sadj (base graph) u /\ apart l u (target x);
  fo_edges u : 0 <= u < num -> exists range xs, GetAdjacentEdgeRange (base (super (query_graph facade))) u = Some range /\
    Forall2 (edge_read facade) range xs /\ forall x, x ∈ xs <-> x ∈ sadj (base graph) u;
  fo_excluded v b : allowed !z v = Some b -> ExcludeNode facade v = Some (negb b);
  fo_weight u x : 0 <= u < num -> x ∈ sadj (base graph) u -> forward (data x) = true ->
    exists node_weight penalty, GetNodeWeight (query_graph facade) u = Some node_weight /\
      GetWeightPenaltyForEdgeID facade (EdgeBasedEdge.turn_id (data x)) = Some penalty /\ weight (data x) = node_weight + penalty;
  fo_forward u x : 0 <= u < num -> x ∈ sadj (base graph) u -> forward (data x) = true ->
    exists y, y ∈ sadj (base graph) (target x) /\ target y = u /\ backward (data y) = true /\
      GetWeightPenaltyForEdgeID facade (EdgeBasedEdge.turn_id (data y)) = GetWeightPenaltyForEdgeID facade (EdgeBasedEdge.turn_id (data x));
  fo_backward u y : 0 <= u < num -> y ∈ sadj (base graph) u -> backward (data y) = true ->
    exists x, x ∈ sadj (base graph) (target y) /\ target x = u /\ forward (data x) = true /\
      GetWeightPenaltyForEdgeID facade (EdgeBasedEdge.turn_id (data x)) = GetWeightPenaltyForEdgeID facade (EdgeBasedEdge.turn_id (data y))
}.

(** The arguments of the search say which nodes it visits at which level. *)
Record args_ok (args : Args) : Prop := {
  ao_level v : node v -> getNodeQueryLevel mlp v args = Some (lv v);
  ao_inside u v : node u -> is_allowed v -> exists b, checkParentCellRestriction mlp (lv u) v args = Some b /\ (b = true <-> node v)
}.

Section relaxing.
Context {St H Handle : Type} `{SL : IndexStorageLaws St, HL : MutableHeapLaws H Handle}.
Context (facade : DataFacade) (args : Args) (Hfo : facade_ok facade) (Hao : args_ok args).
Implicit Types (q : QueryHeap St H Handle HeapData).

Lemma weight_add_assoc a b c : weight_add (weight_add a b) c = weight_add a (b + c).
Proof.
  unfold weight_add, swrap. set (k := 2 ^ (32 - 1)). replace ((a + b + k) mod 2 ^ 32 - k + c + k) with ((a + b + k) mod 2 ^ 32 + c) by lia.
  rewrite Z.add_mod_idemp_l by done. do 2 f_equal. lia.
Qed.

(** What an edge in the border of a node costs in the direction of the search. *)
Definition priced (DIRECTION : bool) (u : Z) (x : DynamicEdge EdgeData) (w : Z) : Prop :=
  forall node_weight penalty, GetNodeWeight (query_graph facade) (if DIRECTION then u else target x) = Some node_weight ->
    GetWeightPenaltyForEdgeID facade (EdgeBasedEdge.turn_id (data x)) = Some penalty -> w = node_weight + penalty.

Lemma border_cost DIRECTION u x : node u -> x ∈ sadj (base graph) u -> flag DIRECTION x = true -> node (target x) ->
  exists node_weight penalty, GetNodeWeight (query_graph facade) (if DIRECTION then u else target x) = Some node_weight /\
    GetWeightPenaltyForEdgeID facade (EdgeBasedEdge.turn_id (data x)) = Some penalty /\
    along DIRECTION road u (target x) (node_weight + penalty).
Proof using Hcu Hlv Hfo.
  intros Hu Hx Hf Ht. destruct DIRECTION; simpl in *.
  - destruct (fo_weight _ Hfo u x (node_range u Hu) Hx Hf) as (nw & pen & K1 & K2 & K3). exists nw, pen. split; [done|]. split; [done|].
    split; [done|]. split; [done|]. exists x. by split_and!.
  - destruct (fo_backward _ Hfo u x (node_range u Hu) Hx Hf) as (y & Hy & Hty & Hfy & Hid).
    destruct (fo_weight _ Hfo _ y (node_range _ Ht) Hy Hfy) as (nw & pen & K1 & K2 & K3). rewrite Hid in K2. exists nw, pen.
    split; [done|]. split; [done|]. split; [done|]. split; [done|]. exists y. by split_and!.
Qed.

Lemma border_cost_inv DIRECTION u v w : along DIRECTION road u v w ->
  exists x, x ∈ sadj (base graph) u /\ target x = v /\ flag DIRECTION x = true /\ priced DIRECTION u x w.
Proof using Hcu Hlv Hfo.
  destruct DIRECTION; simpl; intros (Hu & Hv & x & Hx & Ht & Hf & Hw).
  - exists x. split_and!; [done..|]. intros nw pen E1 E2. destruct (fo_weight _ Hfo u x (node_range u Hu) Hx Hf) as (nw' & pen' & K1 & K2 & K3).
    simplify_eq. congruence.
  - destruct (fo_forward _ Hfo v x (node_range v Hu) Hx Hf) as (y & Hy & Hty & Hb & Hid). rewrite Ht in Hy. exists y. split_and!; [done..|].
    intros nw pen E1 E2. destruct (fo_weight _ Hfo v x (node_range v Hu) Hx Hf) as (nw' & pen' & K1 & K2 & K3). rewrite Hid in E2.
    rewrite Hty in E1. congruence.
Qed.

(** The arcs that the loop over a range of edges relaxes. *)
Record border_list (DIRECTION : bool) (u : Z) (range : list Z) (xs : list (DynamicEdge EdgeData)) (arcs : list (Z * Z)) : Prop := {
  bl_relaxed q w : relax_border DIRECTION facade args (lv u) q range u w = relax_each q arcs w (mkHeapData u false);
  bl_roads v w : (v, w) ∈ arcs -> along DIRECTION road u v w /\ exists x, x ∈ xs /\ target x = v;
  bl_all x w : x ∈ xs -> flag DIRECTION x = true -> node (target x) -> priced DIRECTION u x w -> (target x, w) ∈ arcs
}.

Lemma border_list_skip DIRECTION u range xs arcs e x : border_list DIRECTION u range xs arcs ->
  ~ (node (target x) /\ flag DIRECTION x = true) ->
  (forall q w, relax_border DIRECTION facade args (lv u) q (e :: range) u w = relax_border DIRECTION facade args (lv u) q range u w) ->
  border_list DIRECTION u (e :: range) (x :: xs) arcs.
Proof.
  intros [Eq Hin Hout] Hno Es. split; [intros q w; by rewrite Es| |].
  - intros v w Hvw. destruct (Hin v w Hvw) as (? & y & Hy & ?). split; [done|]. exists y. split; [by right|done].
  - intros y w [->|Hy]%elem_of_cons K1 K2 K3; [destruct Hno; by split|by apply Hout].
Qed.

Lemma relax_border_arcs DIRECTION u range xs : node u -> Forall2 (edge_read facade) range xs ->
  (forall x, x ∈ xs -> x ∈ sadj (base graph) u) -> exists arcs, border_list DIRECTION u range xs arcs.
Proof using Hcu Hlv Hfo Hao.
  intros Hu HF. induction HF as [|e x range xs (Ht & Hd & Hf & Hb) HF IH]; intros Hsub.
  { exists []. split; [done| |]; [by intros v w ?%elem_of_nil|by intros x w ?%elem_of_nil]. }
  destruct IH as (arcs & HB); [intros y Hy; apply Hsub; by right|]. assert (x ∈ sadj (base graph) u) as Hx by (apply Hsub; by left).
  assert (usable DIRECTION facade e = Some (flag DIRECTION x)) as Hus by (by destruct DIRECTION).
  destruct (zget_is_some allowed (target x)) as [b Hal]; [rewrite (cu_allowed _ _ _ _ _ _ _ _ Hcu); by eapply (cu_targets _ _ _ _ _ _ _ _ Hcu)|].
  pose proof (fo_excluded _ Hfo _ _ Hal) as Hex. destruct (flag DIRECTION x) eqn:Efl.
  2:{ exists arcs. apply border_list_skip; [done|by rewrite Efl; intros [_ ?]|]. intros q w. cbn [relax_border]. by rewrite Hd, Hus. }
  destruct b.
  2:{ exists arcs. apply border_list_skip; [done| |].
      - intros [Hn _]. apply (lo_allowed _ _ Hlv) in Hn. unfold Customization.is_allowed in Hn. congruence.
      - intros q w. cbn [relax_border]. rewrite Hd, Hus. cbn [mbind option_bind]. rewrite Ht. cbn [mbind option_bind]. by rewrite Hex. }
  destruct (ao_inside _ Hao u (target x) Hu Hal) as (b & Eb & Hbn). rewrite <- (fo_partition _ Hfo) in Eb. destruct b.
  2:{ exists arcs. apply border_list_skip; [done|intros [Hn _]; by apply Hbn in Hn|]. intros q w. cbn [relax_border].
      rewrite Hd, Hus. cbn [mbind option_bind]. rewrite Ht. cbn [mbind option_bind]. rewrite Hex. cbn [mbind option_bind negb]. by rewrite Eb. }
  destruct (border_cost DIRECTION u x Hu Hx Efl (proj1 Hbn eq_refl)) as (nw & pen & E1 & E2 & Hroad). destruct HB as [Eq Hin Hout].
  exists ((target x, nw + pen) :: arcs). split.
  - intros q w. cbn [relax_border]. rewrite Hd, Hus. cbn [mbind option_bind]. rewrite Ht. cbn [mbind option_bind]. rewrite Hex.
    cbn [mbind option_bind negb]. rewrite Eb. cbn [mbind option_bind]. rewrite E1. cbn [mbind option_bind turn_id]. rewrite E2.
    cbn [mbind option_bind]. unfold relax_to. rewrite weight_add_assoc. cbn [relax_each fst snd].
    destruct (relax q (target x) (weight_add w (nw + pen)) (mkHeapData u false)); [|done]. cbn [mbind option_bind]. apply Eq.
  - intros v w [[= -> ->]|Hvw]%elem_of_cons; [split; [done|]; exists x; split; [by left|done]|].
    destruct (Hin v w Hvw) as (? & y & Hy & ?). split; [done|]. exists y. split; [by right|done].
  - intros y w [->|Hy]%elem_of_cons Hfy Hny Hwy; [|right; by apply Hout]. rewrite (Hwy nw pen E1 E2). by left.
Qed.

(** All border arcs of a node, at its level. *)
Lemma border_arcs DIRECTION u : node u -> exists range arcs,
  GetBorderEdgeRange (super (query_graph facade)) (lv u) u = Some range /\
  (forall q w, relax_border DIRECTION facade args (lv u) q range u w = relax_each q arcs w (mkHeapData u false)) /\
  forall v w, (v, w) ∈ arcs <-> along DIRECTION border_arc u v w.
Proof using Hcu Hlv Hfo Hao.
  intros Hu. pose proof (node_range u Hu) as Hur. destruct (fo_border _ Hfo (lv u) u (lo_range _ _ Hlv u Hu) Hur) as (range & xs & Er & HF & Hxs).
  destruct (relax_border_arcs DIRECTION u range xs Hu HF (fun x Hx => proj1 (proj1 (Hxs x) Hx))) as (arcs & [Eq Hin Hout]).
  exists range, arcs. split; [done|]. split; [done|]. intros v w. split.
  - intros Hvw. destruct (Hin v w Hvw) as (Hroad & x & Hx & <-). apply Hxs in Hx as [_ Ha]. destruct DIRECTION; simpl in *; [by split|].
    split; [done|]. destruct Hroad as (Hv & _). apply apart_both in Ha; [|done..]. unfold apart in *. destruct Ha; [by left|right; congruence].
  - intros Hk. assert (along DIRECTION road u v w /\ apart (lv u) u v) as [Hroad Ha].
    { destruct DIRECTION; simpl in *; [done|]. destruct Hk as [Hr Ha]. split; [done|]. destruct Hr as (Hv & _).
      apply apart_both in Ha; [|done..]. unfold apart in *. destruct Ha; [by left|right; congruence]. }
    destruct (border_cost_inv _ _ _ _ Hroad) as (x & Hx & <- & Hf & Hp). apply Hout; [by apply Hxs|done| |done].
    destruct DIRECTION; simpl in Hroad; apply Hroad.
Qed.

(** The row or the column of a node as arcs. *)
Lemma relax_shortcuts_arcs u ws : forall nodes, (length ws <= length nodes)%nat ->
  exists arcs, (forall q w, relax_shortcuts q ws nodes u w = relax_each q arcs w (mkHeapData u true)) /\
    forall v x, (v, x) ∈ arcs <-> exists j, ws !z j = Some x /\ nodes !z j = Some v /\ x <> INVALID_EDGE_WEIGHT /\ u <> v.
Proof.
  induction ws as [|w0 ws IH]; intros nodes Hlen.
  { exists []. split; [done|]. intros v x. split; [by intros ?%elem_of_nil|]. by intros (j & Hj%zget_elem%elem_of_nil & _). }
  destruct nodes as [|v0 nodes]; [simpl in Hlen; lia|]. destruct (IH nodes) as (arcs & Eq & Hel); [simpl in Hlen; lia|].
  assert (forall v x, (exists j, (w0 :: ws) !z j = Some x /\ (v0 :: nodes) !z j = Some v /\ x <> INVALID_EDGE_WEIGHT /\ u <> v) <->
    (x = w0 /\ v = v0 /\ w0 <> INVALID_EDGE_WEIGHT /\ u <> v0) \/ (v, x) ∈ arcs) as Hcons.
  { intros v x. rewrite Hel. split.
    - intros (j & [[-> ->]|[Hj0 Hj]]%zget_cons_inv & Hv & K1 & K2); [rewrite zget_cons_0 in Hv; simplify_eq; by left|right].
      exists (j - 1). rewrite zget_cons_S in Hv by lia. by split_and!.
    - intros [(-> & -> & K1 & K2)|(j & K0 & K1 & K2 & K3)]; [by exists 0|]. pose proof (zget_some _ _ _ K0). exists (j + 1).
      rewrite !zget_cons_S by lia. by replace (j + 1 - 1) with j by lia. }
  destruct (negb (w0 =? INVALID_EDGE_WEIGHT) && negb (u =? v0)) eqn:E.
  - exists ((v0, w0) :: arcs). split.
    + intros q w. cbn [relax_shortcuts head mbind option_bind tail relax_each fst snd]. rewrite E. unfold relax_to.
      destruct (relax q v0 (weight_add w w0) (mkHeapData u true)); [|done]. cbn [mbind option_bind]. apply Eq.
    + intros v x. rewrite Hcons, elem_of_cons. apply andb_true_iff in E as [E1 E2]. split.
      * intros [[= -> ->]|?]; [left; split_and!; try done; lia|by right].
      * intros [(-> & -> & _)|?]; [by left|by right].
  - exists arcs. split.
    + intros q w. cbn [relax_shortcuts head mbind option_bind tail]. rewrite E. cbn [mbind option_bind]. apply Eq.
    + intros v x. rewrite Hcons. split; [by right|]. intros [(-> & -> & K1 & K2)|?]; [|done]. exfalso.
      apply andb_false_iff in E as [E|E]; apply negb_false_iff in E; lia.
Qed.

(** The column of a destination node. *)
Lemma column_read l c cell v j : 1 <= l <= levels -> 0 <= c < num_cells mlp l -> GetCellData st l c = Some cell -> ds l c !z j = Some v ->
  exists ws, GetInWeight st m cell v = Some ws /\ zlen ws = zlen (ss l c) /\
    forall i x, ws !z i = Some x <-> 0 <= i < zlen (ss l c) /\ weights m !z (value_offset cell + zlen (ds l c) * i + j) = Some x.
Proof using Hcu Hcm.
  intros Hl Hc Hcell Hj. destruct (cu_cells _ _ _ _ _ _ _ _ Hcu l c Hl Hc) as (cell' & Hcell' & Hat & Hvo & Hfit & _).
  assert (cell' = cell) as -> by congruence. rewrite (cell_size_product _ _ _ _ Hat) in Hfit.
  unfold GetInWeight. rewrite (in_range _ _ _ _ Hat j v Hj). cbn [mbind option_bind].
  destruct (cm_ok _ _ _ _ _ _ _ Hcm) as (Hlen & _ & _). pose proof (zget_some _ _ _ Hj). pose proof (zlen_nonneg (ss l c)).
  assert (forall k, 0 <= k < zlen (ss l c) -> exists x, weights m !z (value_offset cell + j + k * zlen (ds l c)) = Some x) as Hk
    by (intros k Hk; apply zget_is_some; nia).
  destruct (mapM (zget (weights m)) ((fun k => value_offset cell + j + k * zlen (ds l c)) <$> seqZ 0 (zlen (ss l c)))) as [ws|] eqn:E.
  2:{ apply mapM_None_1, Exists_exists in E as (i & Hi & E). apply list_elem_of_fmap in Hi as (k & -> & Hk'%elem_of_seqZ).
      destruct (Hk k ltac:(lia)). congruence. }
  exists ws. split; [done|]. apply mapM_Some in E.
  assert (zlen ws = zlen (ss l c)) as Hws.
  { apply Forall2_length in E. rewrite length_fmap, length_seqZ in E. unfold zlen in *. lia. }
  split; [done|]. intros i x. rewrite Forall2_fmap_l in E. rewrite Forall2_lookup in E.
  assert (forall i x, 0 <= i < zlen (ss l c) -> ws !z i = Some x -> weights m !z (value_offset cell + zlen (ds l c) * i + j) = Some x) as Hget.
  { intros i' x' Hi Hx. specialize (E (Z.to_nat i')). unfold zget in Hx. rewrite (proj2 (Z.leb_le 0 i')) in Hx by lia. rewrite Hx in E.
    rewrite (proj2 (lookup_seqZ 0 (zlen (ss l c)) (Z.to_nat i') i')) in E by lia. inversion E as [? ? Hw|]; subst.
    rewrite <- Hw. f_equal. lia. }
  split; [intros Hx; pose proof (zget_some _ _ _ Hx); split; [lia|apply Hget; [lia|done]]|].
  intros [Hi Hx]. destruct (zget_is_some ws i) as [y Hy]; [lia|]. rewrite Hy. rewrite <- Hx. symmetry. by apply Hget.
Qed.

Lemma GetInRange_none cell L R v : cell_at st cell L R -> v ∉ R -> GetInRange st cell v = Some [].
Proof.
  intros Hat Hv. unfold GetInRange. rewrite (ca_destinations _ _ _ _ Hat). cbn [mbind option_bind].
  destruct (find_node_get v R) as (K1 & K2 & K3 & _). rewrite (ca_num_destinations _ _ _ _ Hat).
  destruct (Z.eqb_spec (find_node v R) (zlen R)); [done|]. destruct Hv. eapply zget_elem, K3. lia.
Qed.

(** The positions of an entry that is a weight. *)
Lemma entry_weight l c cell u v i j w : 1 <= l <= levels -> 0 <= c < num_cells mlp l -> GetCellData st l c = Some cell ->
  ss l c !z i = Some u -> ds l c !z j = Some v -> weights m !z (value_offset cell + zlen (ds l c) * i + j) = Some w ->
  exists d x, entry gp mlp st m l c u v w d x.
Proof using Hcu Hcm.
  intros Hl Hc Hcell Hi Hj Hw. destruct (cm_ok _ _ _ _ _ _ _ Hcm) as (L1 & L2 & L3). pose proof (zget_some _ _ _ Hw) as Hk.
  destruct (zget_is_some (durations m) (value_offset cell + zlen (ds l c) * i + j)) as [d Hd]; [lia|].
  destruct (zget_is_some (distances m) (value_offset cell + zlen (ds l c) * i + j)) as [x Hx]; [lia|].
  exists d, x, cell, i, j. by split_and!.
Qed.

(** A weight in the row of a node of the search. *)
Lemma row_clique u v w d x : node u -> 1 <= lv u -> u ∈ ss (lv u) (cell_of (lv u) u) -> v ∈ ds (lv u) (cell_of (lv u) u) ->
  w <> INVALID_EDGE_WEIGHT -> u <> v -> entry gp mlp st m (lv u) (cell_of (lv u) u) u v w d x -> clique_arc u v w.
Proof using Hcu Hcm Hlv.
  intros Hu Hl Hs Hd Hw Hne He. pose proof (lo_range _ _ Hlv u Hu). pose proof (lo_allowed _ _ Hlv u Hu) as Ha.
  destruct (entry_distance (lv u) u v w d x ltac:(lia) Ha Hs Hd He) as [[? _]|(_ & Hwalk & _)]; [done|].
  destruct (inner_road u v w Hu Hl Hwalk) as (Hv & Hc & _). split_and!; try done. by exists d, x.
Qed.

(** A weight in its column. *)
Lemma column_clique u v w d x : node u -> 1 <= lv u -> v ∈ ss (lv u) (cell_of (lv u) u) -> u ∈ ds (lv u) (cell_of (lv u) u) ->
  w <> INVALID_EDGE_WEIGHT -> u <> v -> entry gp mlp st m (lv u) (cell_of (lv u) u) v u w d x -> clique_arc v u w.
Proof using Hcu Hcm Hlv.
  intros Hu Hl Hs Hd Hw Hne He. pose proof (lo_range _ _ Hlv u Hu) as Hr. pose proof (lo_allowed _ _ Hlv u Hu) as Ha.
  destruct (cell_get _ _ _ _ _ _ _ _ Hcu (lv u) u ltac:(lia) (node_range u Hu)) as [_ Hcr].
  assert (is_allowed v) as Hav.
  { destruct (decide (is_allowed v)) as [?|Hn]; [done|]. destruct Hw. exact (cm_excluded _ _ _ _ _ _ _ Hcm (lv u) _ v u w d x ltac:(lia) Hcr Hn Hs Hd He). }
  assert (cell_of (lv u) v = cell_of (lv u) u) as Hc by (by apply (elem_of_sources _ _ _ _ _ _ _ _ Hcu) in Hs as (_ & _ & _ & ?)).
  destruct (lo_cell _ _ Hlv u v Hu Hav Hl (eq_sym Hc)) as [Hv El]. apply (row_clique v u w d x); by rewrite ?El, ?Hc.
Qed.

(** What the loop over a row or a column relaxes. *)
Record shortcut_list (DIRECTION : bool) (u : Z) (nodes ws : list Z) : Prop := {
  sl_length : (length ws <= length nodes)%nat;
  sl_arcs v w : (exists j, ws !z j = Some w /\ nodes !z j = Some v /\ w <> INVALID_EDGE_WEIGHT /\ u <> v) <-> along DIRECTION clique_arc u v w
}.

Section matrix.
Context (u : Z) (cell : CellData) (Hu : node u) (Hl : 1 <= lv u) (c : Z) (Ec : c = cell_of (lv u) u).
Context (Hcr : 0 <= c < num_cells mlp (lv u)) (Hcell : GetCellData st (lv u) c = Some cell) (Hat : cell_at st cell (ss (lv u) c) (ds (lv u) c)).

Lemma level_range : 1 <= lv u <= levels.
Proof using Hlv Hu Hl. pose proof (lo_range _ _ Hlv u Hu). lia. Qed.

Lemma empty_list DIRECTION nodes : (forall v w, ~ along DIRECTION clique_arc u v w) -> shortcut_list DIRECTION u nodes [].
Proof.
  intros Hno. split; [simpl; lia|]. intros v w. split; [by intros (j & Hj%zget_elem%elem_of_nil & _)|by intros ?%Hno].
Qed.

Lemma row_arcs_read : exists ws, GetOutWeight st m cell u = Some ws /\ shortcut_list true u (ds (lv u) c) ws.
Proof using Hcu Hcm Hlv Hu Hl Ec Hcr Hcell Hat.
  pose proof level_range as Hr. pose proof (cm_ok _ _ _ _ _ _ _ Hcm) as Hm. destruct (decide (u ∈ ss (lv u) c)) as [Hs|Hs].
  2:{ exists []. split; [by unfold GetOutWeight; rewrite (GetOutRange_none _ _ _ _ _ Hat Hs)|]. apply empty_list. subst c.
      by intros v w (_ & _ & _ & _ & _ & ? & _). }
  pose proof Hs as [i Hi]%elem_zget.
  destruct (row_read _ _ _ _ _ _ _ _ Hcu m (lv u) c cell u i Hm Hr Hcr Hcell Hi) as (Hk0 & Hk1 & _ & _ & Hw & _).
  destruct Hm as (Hlen & _). pose proof (zlen_nonneg (ds (lv u) c)) as Hz.
  pose proof (zslice_len (weights m) _ _ Hk0 Hz ltac:(lia)) as Lw. eexists. split; [exact Hw|]. split; [unfold zlen in *; lia|].
  intros v w. split.
  - intros (j & Kw & Kv & K1 & K2). pose proof (zget_some _ _ _ Kv). rewrite zslice_get in Kw by lia.
    destruct (entry_weight (lv u) c cell u v i j w Hr Hcr Hcell Hi Kv Kw) as (d & x & He). apply zget_elem in Kv.
    subst c. by apply (row_clique u v w d x).
  - intros (_ & _ & Hne & _ & _ & _ & Hd & Hinv & d & x & He). rewrite <- Ec in Hd, He. apply elem_zget in Hd as [j Hj]. exists j.
    by apply (entry_row _ _ _ m (lv u) c cell u v i j Hcell Hi Hj Hk0) in He as (Kw & _).
Qed.

Lemma column_arcs_read : exists ws, GetInWeight st m cell u = Some ws /\ shortcut_list false u (ss (lv u) c) ws.
Proof using Hcu Hcm Hlv Hu Hl Ec Hcr Hcell Hat.
  pose proof level_range as Hr.
  assert (forall v w, clique_arc v u w -> lv v = lv u /\ cell_of (lv v) v = c) as Hsame.
  { intros v w (Hv & _ & _ & Hlv' & Hc & _). destruct (lo_cell _ _ Hlv v u Hv (lo_allowed _ _ Hlv u Hu) Hlv' Hc) as [_ El].
    split; [done|]. subst c. by rewrite Hc, El. }
  destruct (decide (u ∈ ds (lv u) c)) as [Hd|Hd].
  2:{ exists []. split; [by unfold GetInWeight; rewrite (GetInRange_none _ _ _ _ Hat Hd)|]. apply empty_list.
      intros v w Hk. simpl in Hk. destruct (Hsame v w Hk) as [El E]. destruct Hk as (_ & _ & _ & _ & _ & _ & Hd' & _).
      rewrite E, El in Hd'. done. }
  pose proof Hd as [j Hj]%elem_zget. destruct (column_read (lv u) c cell u j Hr Hcr Hcell Hj) as (ws & Ews & Lw & Hws).
  exists ws. split; [done|]. split; [unfold zlen in *; lia|]. intros v w. split.
  - intros (i & [_ Kw]%Hws & Kv & K1 & K2). destruct (entry_weight (lv u) c cell v u i j w Hr Hcr Hcell Kv Hj Kw) as (d & x & He).
    apply zget_elem in Kv. subst c. by apply (column_clique u v w d x).
  - intros Hk. simpl in Hk. destruct (Hsame v w Hk) as [El E]. destruct Hk as (_ & _ & Hne & _ & _ & Hs & _ & Hinv & d & x & He).
    rewrite E, El in Hs, He. destruct He as (cell' & i & j' & Hcell' & Ki & Kj & Kw & _). assert (cell' = cell) as -> by congruence.
    rewrite (NoDup_zget _ _ _ _ (destination_nodes_NoDup _ _ _ _) Kj Hj) in Kw. exists i. split; [|done].
    apply Hws. split; [by eapply zget_some|done].
Qed.
End matrix.

(** The arcs of the matrix of the cell of a node. *)
Lemma clique_arcs (DIRECTION : bool) u : node u -> 1 <= lv u -> exists cell nodes ws arcs,
  GetCell mlp (lv u) u = Some (cell_of (lv u) u) /\ GetCellData st (lv u) (cell_of (lv u) u) = Some cell /\
  (if DIRECTION then GetDestinationNodes st cell else GetSourceNodes st cell) = Some nodes /\
  (if DIRECTION then GetOutWeight st m cell u else GetInWeight st m cell u) = Some ws /\
  (forall q w, relax_shortcuts q ws nodes u w = relax_each q arcs w (mkHeapData u true)) /\
  forall v w, (v, w) ∈ arcs <-> along DIRECTION clique_arc u v w.
Proof using Hcu Hcm Hlv.
  intros Hu Hl. pose proof (level_range u Hu Hl) as Hr.
  destruct (cell_get _ _ _ _ _ _ _ _ Hcu (lv u) u Hr (node_range u Hu)) as [Eg Hcr].
  destruct (cu_cells _ _ _ _ _ _ _ _ Hcu (lv u) _ Hr Hcr) as (cell & Hcell & Hat & _). exists cell.
  assert (exists nodes ws, (if DIRECTION then GetDestinationNodes st cell else GetSourceNodes st cell) = Some nodes /\
    (if DIRECTION then GetOutWeight st m cell u else GetInWeight st m cell u) = Some ws /\ shortcut_list DIRECTION u nodes ws)
    as (nodes & ws & En & Ew & [Hlen Hel]).
  { destruct DIRECTION.
    - destruct (row_arcs_read u cell Hu Hl _ eq_refl Hcr Hcell Hat) as (ws & Ew & HL'). exists (ds (lv u) (cell_of (lv u) u)), ws.
      split; [apply (ca_destinations _ _ _ _ Hat)|done].
    - destruct (column_arcs_read u cell Hu Hl _ eq_refl Hcr Hcell Hat) as (ws & Ew & HL'). exists (ss (lv u) (cell_of (lv u) u)), ws.
      split; [apply (ca_sources _ _ _ _ Hat)|done]. }
  destruct (relax_shortcuts_arcs u ws nodes Hlen) as (arcs & Eq & Ha). exists nodes, ws, arcs. do 5 (split; [done|]).
  intros v w. rewrite Ha. apply Hel.
Qed.

Section labels.
Context (DIRECTION : bool) (hn : HeapNode Handle HeapData).

Lemma arcs_range clique (arcs : list (Z * Z)) :
  (forall v w, (v, w) ∈ arcs -> along DIRECTION (kind clique_arc border_arc clique) (hn_node hn) v w) ->
  forall v x, (v, x) ∈ arcs -> 0 <= v < num /\ 0 < x <= bound.
Proof using Hcu Hcm Hlv.
  intros Ha v x Hv. apply Ha in Hv.
  assert (joint clique_arc border_arc (hn_node hn) v x \/ joint clique_arc border_arc v (hn_node hn) x) as Hj
    by (destruct DIRECTION; [left|right]; by exists clique).
  assert (node v) as Hnv by (destruct DIRECTION, clique; simpl in Hv; unfold clique_arc, border_arc, road in Hv; tauto).
  split; [by apply node_range|]. destruct Hj as [Hj|Hj]; by apply joint_weight in Hj.
Qed.

Context (low reach : Z) (Hlow : - 2 ^ 30 <= low) (Hsmall : reach + bound < 2 ^ 30) (Hnum : 0 <= num).
Context (Hu : node (hn_node hn)) (Hw : low <= hn_weight hn <= reach).

Lemma relax_cell_ok q M c r : good num q M c r -> num + 1 < r -> (forall v e', M !! v = Some e' -> 0 <= v < num) ->
  (forall v e', M !! v = Some e' -> qe_removed e' = true -> qe_weight e' <= hn_weight hn) ->
  exists q1 M1 arcs, relax_cell DIRECTION facade (lv (hn_node hn)) q hn = Some q1 /\ good num q1 M1 c r /\
    relaxed M M1 (offered arcs (hn_weight hn) (mkHeapData (hn_node hn) true)) /\ (forall v e', M1 !! v = Some e' -> 0 <= v < num) /\
    forall v w, (v, w) ∈ arcs <-> from_clique_arc (hn_data hn) = false /\ along DIRECTION clique_arc (hn_node hn) v w.
Proof using Hcu Hcm Hlv Hfo Hlow Hsmall Hnum Hu Hw.
  intros Hq Hr Hdom Hrem. unfold relax_cell. rewrite (fo_partition _ Hfo), (fo_cells _ Hfo), (fo_metric _ Hfo). set (u := hn_node hn) in *.
  destruct ((1 <=? lv u) && negb (from_clique_arc (hn_data hn))) eqn:Eg.
  - apply andb_true_iff in Eg as [Eg1%Z.leb_le Eg2%negb_true_iff].
    destruct (clique_arcs DIRECTION u Hu Eg1) as (cell & nodes & ws & arcs & K1 & K2 & K3 & K4 & K5 & K6).
    rewrite K1. cbn [mbind option_bind]. rewrite K2. cbn [mbind option_bind]. rewrite K3. cbn [mbind option_bind]. rewrite K4.
    cbn [mbind option_bind]. rewrite K5.
    destruct (relax_each_ok num arcs (hn_weight hn) (mkHeapData u true) bound c r Hnum Hr ltac:(lia) ltac:(lia)
      (arcs_range true arcs (fun v w => proj1 (K6 v w))) q M Hq Hdom Hrem) as (q1 & M1 & E1 & Hq1 & HR1 & Hd1).
    exists q1, M1, arcs. do 4 (split; [done|]). intros v w. rewrite K6. tauto.
  - exists q, M, []. split; [done|]. split; [done|]. split; [apply relaxed_refl; by intros v w d (_ & x & Hx%elem_of_nil & _)|]. split; [done|].
    intros v w. split; [by intros ?%elem_of_nil|]. intros [Hf Hk]. exfalso. rewrite Hf in Eg. simpl in Eg. rewrite andb_true_r in Eg.
    apply Z.leb_gt in Eg. assert (1 <= lv u); [|lia]. destruct DIRECTION; simpl in Hk; [apply Hk|].
    destruct Hk as (Hv & _ & _ & Hlv' & Hc & _). by destruct (lo_cell _ _ Hlv v u Hv (lo_allowed _ _ Hlv u Hu) Hlv' Hc) as [_ ->].
Qed.

(** [relaxOutgoingEdges] relaxes the arcs of the node and nothing else. *)
Lemma relaxOutgoingEdges_ok q M c r : good num q M c r -> num + 1 < r -> (forall v e', M !! v = Some e' -> 0 <= v < num) ->
  (forall v e', M !! v = Some e' -> qe_removed e' = true -> qe_weight e' <= hn_weight hn) ->
  exists q' M', relaxOutgoingEdges DIRECTION facade args q hn = Some q' /\ good num q' M' c r /\
    relaxed M M' (offers clique_arc border_arc DIRECTION (hn_node hn) (entry_of hn)).
Proof using Hcu Hcm Hlv Hfo Hao Hlow Hsmall Hnum Hu Hw.
  intros Hq Hr Hdom Hrem. unfold relaxOutgoingEdges. rewrite (fo_partition _ Hfo), (ao_level _ Hao _ Hu). cbn [mbind option_bind].
  destruct (relax_cell_ok q M c r Hq Hr Hdom Hrem) as (q1 & M1 & carcs & E1 & Hq1 & HR1 & Hdom1 & Hcarcs).
  destruct (border_arcs DIRECTION _ Hu) as (range & arcs & Er & Eb & Harcs).
  rewrite E1. cbn [mbind option_bind]. rewrite Er. cbn [mbind option_bind]. rewrite Eb.
  destruct (relax_each_ok num arcs (hn_weight hn) (mkHeapData (hn_node hn) false) bound c r Hnum Hr ltac:(lia) ltac:(lia)
    (arcs_range false arcs (fun v w => proj1 (Harcs v w))) q1 M1 Hq1 Hdom1) as (q2 & M2 & E2 & Hq2 & HR2 & _).
  { intros v e' Hv Hrm. destruct (rx_new _ _ _ HR1 v e' Hv) as [?|(? & _)]; [by eapply Hrem|congruence]. }
  exists q2, M2. split; [done|]. split; [done|]. eapply relaxed_trans; [exact HR1|exact HR2|]. intros v w d. unfold offers, offered. split.
  - intros ([] & x & Hk & -> & -> & Hf); [left|right]; (split; [done|]); exists x; (split; [|done]); [apply Hcarcs; split; [by apply Hf|done]|by apply Harcs].
  - intros [(-> & x & Hx & ->)|(-> & x & Hx & ->)]; [apply Hcarcs in Hx as [Hf Hx]; exists true, x|apply Harcs in Hx; exists false, x]; by split_and!.
Qed.
End labels.
End relaxing.
End overlay.
