(* ===== verification/MldQuery.v ===== *)
(** * Multi-level queries

    The search of routing_base_mld.hpp finds a lightest route.  An arc of a
    matrix on the path that was found is unpacked by a search inside its cell, one level
    below, which finds a path of the weight of the arc, so that at last
    only edges of the graph are left.  With the levels that
    [getNodeQueryLevel] gives to nodes this holds for the search between
    phantom nodes. *)
From S2P Require Import Prelude Walks Sorting QueryHeap Permutation DynamicGraph StaticGraph MultiLevelPartition.
From S2P Require Import MultiLevelGraph GraphInterface EdgeBasedEdge CellStorage CellCustomizer Customization Relaxing RoutingBase MldSearch MldLabels MldOverlay.
Import Static Multi Mld.

(** ** Edges along a list of nodes *)

(** Every edge is one of its node and leads to the next node. *)
Inductive joined (g : StaticGraph EdgeBasedGraphEdgeData) : list Z -> list Z -> Prop :=
| joined_one v : joined g [v] []
| joined_cons u v L e es range : GetAdjacentEdgeRange g u = Some range -> e ∈ range -> GetTarget g e = Some v ->
    joined g (v :: L) es -> joined g (u :: v :: L) (e :: es).

Lemma joined_app g L v L' es es' : joined g (L ++ [v]) es -> joined g (v :: L') es' -> joined g (L ++ v :: L') (es ++ es').
Proof.
  revert es. induction L as [|a L IH]; intros es Hj Hj'.
  - inversion Hj; subst. done.
  - destruct L as [|b L]; inversion Hj; subst; simpl in *; (econstructor; [done..|]); by apply IH.
Qed.

Section query.
Context {G : Type} `{!Graph G EdgeData} `{!GraphLaws G EdgeData}.
Context (gp : G) (graph : MultiLevelGraph EdgeData).
Context (mlp : MultiLevelPartition) (st : CellStorage) (allowed : list bool) (levels num bound : Z) (m : CellMetric).
Context (Hcu : customizable gp graph mlp st allowed levels num bound) (Hcm : customized_metric gp graph mlp st allowed levels m).
Context (facade : DataFacade) (Hfo : facade_ok graph mlp st allowed levels num m facade).

Abbreviation cell_of := (CellStorage.cell_of mlp).
Abbreviation is_allowed := (is_allowed allowed).
Abbreviation inner := (inner graph mlp allowed).
Abbreviation levelled := (levelled mlp allowed levels).
Abbreviation args_ok := (args_ok mlp allowed).
Abbreviation road := (road graph).
Abbreviation gate := (gate gp mlp).
Abbreviation clique_arc := (clique_arc gp mlp st m).
Abbreviation border_arc := (border_arc graph mlp).
Abbreviation qg := (base (super (query_graph facade))).
Abbreviation qmap := (gmap Z (qentry HeapData)).

(** ** Inside a cell *)

(** The nodes of a cell and the search one level below. *)
Definition in_cell (l c v : Z) : Prop := is_allowed v /\ cell_of l v = c.

Section inside.
Context (l c : Z) (Hl : 1 <= l <= levels).

Lemma in_cell_levelled : levelled (in_cell l c) (fun _ => l - 1).
Proof using Hcu Hl.
  split; [by intros v [? _]|intros; lia|]. intros u v [Hu Hc] Hv Hl1 He. split; [|done]. split; [done|]. rewrite <- Hc.
  symmetry. apply (cell_of_nested _ _ _ _ _ _ _ _ Hcu); [lia|by eapply (allowed_range _ _ _ _ _ _ _ _ Hcu)..|done].
Qed.

Lemma in_cell_args : args_ok (in_cell l c) (fun _ => l - 1) (Restricted (l - 1) c).
Proof using Hcu Hl.
  split; [done|]. intros u v _ Hv. simpl. replace (l - 1 + 1) with l by lia.
  destruct (cell_get _ _ _ _ _ _ _ _ Hcu l v Hl (allowed_range _ _ _ _ _ _ _ _ Hcu _ Hv)) as [-> _]. cbn [mbind option_bind].
  eexists. split; [done|]. unfold in_cell. rewrite Z.eqb_eq. tauto.
Qed.

Lemma cell_road_inner u v p : walk (road (in_cell l c)) u v p -> walk (inner l) u v p.
Proof.
  apply walk_mono. intros a b w ([Ha Ea] & [Hb Eb] & Hx). split; [done|]. split; [done|]. split; [congruence|done].
Qed.

Lemma inner_cell_road u v p : in_cell l c u -> walk (inner l) u v p -> walk (road (in_cell l c)) u v p.
Proof.
  intros Hu. induction 1 as [n|s x t p w Hw IH He]; [constructor|]. specialize (IH Hu). econstructor; [done|].
  destruct He as (Ha & Hb & Hc & Hx). assert (in_cell l c x) as [_ Ex].
  { clear -IH Hu. induction IH as [|s u t p w _ _ He]; [done|]. by destruct He as (_ & ? & _). }
  split; [done|]. split; [split; [done|congruence]|done].
Qed.

Lemma in_cell_distances u v p : 0 <= bound -> walk (road (in_cell l c)) u v p -> exists p', walk (road (in_cell l c)) u v p' /\ p' <= bound.
Proof using Hcu Hl.
  intros Hb0 Hw. destruct (walk_first _ _ _ _ Hw) as [[-> ->]|(x & w & p' & Hx & _)]; [exists 0; split; [constructor|done]|].
  destruct (cu_distances _ _ _ _ _ _ _ _ Hcu l u v p Hl (cell_road_inner _ _ _ Hw)) as (p2 & W2 & Hle).
  exists p2. split; [|done]. apply inner_cell_road; [apply Hx|done].
Qed.
End inside.

(** The ends of an arc of a matrix, for the search that unpacks it. *)
Lemma clique_inside node lv u v w : levelled node lv -> clique_arc node lv u v w ->
  1 <= lv u <= levels /\ in_cell (lv u) (cell_of (lv u) u) u /\ in_cell (lv u) (cell_of (lv u) u) v /\
  gate (fun _ => lv u - 1) u /\ gate (fun _ => lv u - 1) v /\
  (forall x, in_cell (lv u) (cell_of (lv u) u) x -> node x) /\
  walk (road (in_cell (lv u) (cell_of (lv u) u))) u v w /\
  forall p, walk (road (in_cell (lv u) (cell_of (lv u) u))) u v p -> w <= p.
Proof using Hcu Hcm.
  intros Hlv Hk. pose proof (clique_distance _ _ _ _ _ _ _ _ _ Hcu Hcm node lv Hlv u v w Hk) as [Hw Hleast].
  pose proof (clique_gates _ _ _ _ _ _ _ _ _ Hcu node lv Hlv u v w Hk) as [Hgu Hgv].
  destruct Hk as (Hu & Hv & _ & Hl & Hc & _). pose proof (lo_range _ _ _ _ _ Hlv u Hu). pose proof (lo_allowed _ _ _ _ _ Hlv) as Ha.
  destruct (lo_cell _ _ _ _ _ Hlv u v Hu (Ha v Hv) Hl Hc) as [_ El].
  assert (forall x, node x -> lv x = lv u -> gate lv x -> gate (fun _ => lv u - 1) x) as Hdown.
  { intros x Hx Ex [E|E]; [lia|]. unfold MldOverlay.gate. rewrite Ex in E. destruct (decide (lv u = 1)); [left; lia|right].
    apply (crosses_down _ _ _ _ _ _ _ _ Hcu); [lia|by apply (node_range _ _ _ _ _ _ _ _ Hcu _ _ Hlv)|done]. }
  split; [lia|]. split; [by split; [apply Ha|]|]. split; [by split; [apply Ha|]|]. split; [by apply Hdown|]. split; [by apply Hdown|].
  split; [intros x [Hx Ex]; by apply (lo_cell _ _ _ _ _ Hlv u x Hu Hx Hl)|].
  split; [apply inner_cell_road; [by split; [apply Ha|]|done]|]. intros p Hp%cell_road_inner. by apply Hleast.
Qed.

(** ** The edge of a border arc *)

Lemma FindEdge_road node u v w : (forall x, node x -> 0 <= x < num) -> road node u v w -> exists e range, FindEdge qg u v = Some e /\
  GetAdjacentEdgeRange qg u = Some range /\ e ∈ range /\ GetTarget qg e = Some v.
Proof using Hfo.
  intros Hr (Hu & _ & x & Hx & Ht & _). destruct (fo_edges _ _ _ _ _ _ _ _ Hfo u (Hr u Hu)) as (range & xs & Er & HF & Hxs).
  assert (forall e, e ∈ range -> exists y, edge_array qg !z e = Some y) as Hin.
  { intros e He. apply list_elem_of_lookup in He as [i Hi]. destruct (Forall2_lookup_l _ _ _ _ _ HF Hi) as (y & _ & Hg & _).
    unfold GetTarget in Hg. destruct (edge_array qg !z e) as [y'|]; [by exists y'|done]. }
  unfold FindEdge. rewrite Er. cbn [mbind option_bind].
  destruct (find_edge_loop_ok (edge_array qg) range v) as [(e & y & E & He & Hy & Hty)|(_ & Hno)];
    [intros e [y Hy]%Hin; by eapply zget_some| |].
  - exists e, range. split_and!; try done. unfold GetTarget. rewrite Hy. simpl. congruence.
  - exfalso. apply Hxs in Hx. apply list_elem_of_lookup in Hx as [i Hi]. destruct (Forall2_lookup_r _ _ _ _ _ HF Hi) as (e & He & Hg & _).
    unfold GetTarget in Hg. destruct (edge_array qg !z e) as [y|] eqn:Ey; [|done]. simpl in Hg.
    apply (Hno e y); [by eapply list_elem_of_lookup_2|done|congruence].
Qed.

(** ** One search *)

Context (Hnodes : GetNumberOfNodes qg = num) (Hnum : 0 <= num <= SPECIAL_NODEID) (Hsmall : 2 * bound < 2 ^ 30) (Hb0 : 0 <= bound).

(** The sources and the targets a search starts from. *)
Definition ends (F R : qmap) (DIRECTION : bool) (s w : Z) : Prop := exists e, (if DIRECTION then F else R) !! s = Some e /\ qe_weight e = w.

(** No route from a source to a target is negative. *)
Definition nonneg_routes (node : Z -> Prop) (F R : qmap) : Prop := forall W, road_route graph node (ends F R) W -> 0 <= W.

Record call (args : Args) (node : Z -> Prop) (lv : Z -> Z) (F R : qmap) (low high : Z) : Prop := {
  cl_levelled : levelled node lv;
  cl_args : args_ok node lv args;
  cl_distances u v p : walk (road node) u v p -> exists p', walk (road node) u v p' /\ p' <= bound;
  cl_entries (DIRECTION : bool) s e : (if DIRECTION then F else R) !! s = Some e ->
    node s /\ gate lv s /\ qe_removed e = false /\ qe_data e = mkHeapData s false /\ low <= qe_weight e <= high;
  cl_low : - 2 ^ 30 <= low;
  cl_small : high + bound + bound < 2 ^ 30
}.

Section run.
Context {St H Handle : Type} `{SL : IndexStorageLaws St, HL : MutableHeapLaws H Handle}.
Implicit Types (q : QueryHeap St H Handle HeapData) (F R M : qmap).

Section one_call.
Context (args : Args) (node : Z -> Prop) (lv : Z -> Z) (F R : qmap) (low high : Z) (Hcall : call args node lv F R low high).

Lemma call_laws : arc_laws (clique_arc node lv) (border_arc node lv) node (ends F R) num low (high + bound) bound.
Proof using Hcu Hcm Hcall Hnum Hb0.
  eapply overlay_laws; [exact Hcu|exact Hcm|apply Hcall| |apply Hcall|lia|apply Hcall|apply Hcall|done].
  intros D s w (e & He & <-). destruct (cl_entries _ _ _ _ _ _ _ Hcall D s e He) as (? & ? & _ & _ & ?). done.
Qed.

Lemma mld_initial_side DIRECTION : side (clique_arc node lv) (border_arc node lv) node (ends F R) low DIRECTION (if DIRECTION then F else R).
Proof using Hcall.
  pose proof (cl_entries _ _ _ _ _ _ _ Hcall DIRECTION) as He. split.
  - intros v e Hv. by apply (He v e).
  - intros v e Hv. by apply (He v e).
  - intros v e Hv. left. split; [by exists e|]. by apply (He v e).
  - intros s w (e & Hs & <-). by exists e.
  - intros v e v' e' Hv _ Hr. destruct (He v e Hv) as (_ & _ & ? & _). congruence.
  - intros v e t w Hv Hr. destruct (He v e Hv) as (_ & _ & ? & _). congruence.
Qed.

Lemma call_relax (DIRECTION : bool) q M c r (hn : HeapNode Handle HeapData) e :
  good num q M c r -> node (hn_node hn) -> entry_of hn = e -> low <= qe_weight e <= high + bound -> num + 1 < r ->
  (forall v e', M !! v = Some e' -> 0 <= v < num) -> (forall v e', M !! v = Some e' -> qe_removed e' = true -> qe_weight e' <= qe_weight e) ->
  exists q' M', relaxOutgoingEdges DIRECTION facade args q hn = Some q' /\ good num q' M' c r /\
    relaxed M M' (offers (clique_arc node lv) (border_arc node lv) DIRECTION (hn_node hn) e).
Proof using Hcu Hcm Hfo Hcall Hnum.
  intros Hq Hn <- Hw Hr Hdom Hrem.
  eapply (relaxOutgoingEdges_ok _ _ _ _ _ _ _ _ _ Hcu Hcm node lv (cl_levelled _ _ _ _ _ _ _ Hcall) facade args Hfo (cl_args _ _ _ _ _ _ _ Hcall)
    DIRECTION hn low (high + bound)); try done; [apply Hcall|apply Hcall|lia].
Qed.

(** What the loop finds: the packed path of a route below [top], a lightest one if
    no route is negative. *)
Definition packed_answer q q' (mid top W : Z) : Prop :=
  (W = top /\ mid = SPECIAL_NODEID /\ (nonneg_routes node F R -> forall W', road_route graph node (ends F R) W' -> top <= W')) \/
  (0 <= W < top /\ mid <> SPECIAL_NODEID /\ (nonneg_routes node F R -> forall W', road_route graph node (ends F R) W' -> W <= W') /\
    exists L s t ws wt p, retrievePackedPathFromHeap (search_fuel facade) q q' mid = Some L /\ ends F R true s ws /\ ends F R false t wt /\
      packed_path (clique_arc node lv) (border_arc node lv) L s t p /\ ws + p + wt <= W /\ (nonneg_routes node F R -> W = ws + p + wt) /\ Z.of_nat (length L) <= 4 * num + 2 /\ (L = [] -> s = mid)).

Lemma packed_search q q' c r c' r' top : good num q F c r -> good num q' R c' r' -> num + 1 < r -> num + 1 < r' -> top <= INT32_MAX ->
  Empty q = false -> Empty q' = false ->
  exists fk rk q2 q2' F2 R2 mid W, MinKey q = Some fk /\ MinKey q' = Some rk /\
    search_loop (search_fuel facade) facade args q q' SPECIAL_NODEID top fk rk [] [] = Some (q2, q2', mid, W) /\
    good num q2 F2 c r /\ good num q2' R2 c' r' /\ packed_answer q2 q2' mid top W.
Proof using Hcu Hcm Hfo Hcall Hnum Hnodes Hb0.
  intros Hq Hq' Hr Hr' Htop He He'. pose proof call_laws as Hlaws. pose proof (cl_levelled _ _ _ _ _ _ _ Hcall) as Hlv.
  destruct (MinKey_least q F (gd_repr _ _ _ _ _ Hq) He) as (v & e & Hv & Hl & Ek & Hmin).
  destruct (MinKey_least q' R (gd_repr _ _ _ _ _ Hq') He') as (v' & e' & Hv' & Hl' & Ek' & Hmin').
  pose proof (mld_initial_side true) as HF. pose proof (mld_initial_side false) as HR. simpl in HF, HR.
  exists (qe_weight e), (qe_weight e').
  assert (Hst : forall (D : bool) s w, ends F R D s w -> node s /\ gate lv s /\ low <= w <= high).
  { intros D s w (e0 & He0 & <-). destruct (cl_entries _ _ _ _ _ _ _ Hcall D s e0 He0) as (? & ? & _ & _ & ?). done. }
  assert (Hpos : nonneg_routes node F R -> no_negative (clique_arc node lv) (border_arc node lv) (ends F R)).
  { intros Hnn W HW. apply Hnn. by eapply route_sound. }
  destruct (mld_search_loop_ok _ _ _ _ _ _ _ _ Hlaws facade args top call_relax ltac:(lia) (search_fuel facade) q q' F R c r c' r'
    top SPECIAL_NODEID (qe_weight e) (qe_weight e')) as (q2 & q2' & F2 & R2 & mid & W & E & Hq2 & Hq2' & HF2 & HR2 & HM & Hleast); try done.
  { split; try done.
    - split; [|by left]. intros _ x ex ex' Hx Hx' [Hrx|Hrx].
      + destruct (cl_entries _ _ _ _ _ _ _ Hcall true x ex Hx) as (_ & _ & ? & _). congruence.
      + destruct (cl_entries _ _ _ _ _ _ _ Hcall false x ex' Hx') as (_ & _ & ? & _). congruence.
    - split; [by eapply (mld_side_bound _ _ _ _ _ _ _ _ Hlaws _ _ _ _ HF)|by eapply (mld_side_bound _ _ _ _ _ _ _ _ Hlaws _ _ _ _ HR)]. }
  { unfold unsettled, search_fuel. rewrite Hnodes. lia. }
  exists q2, q2', F2, R2, mid, W. do 5 (split; [done|]).
  assert (Hall : nonneg_routes node F R -> forall W', road_route graph node (ends F R) W' -> W <= W').
  { intros Hnn W' (W0 & HW0 & Hle)%(route_complete _ _ _ _ _ _ _ _ _ Hcu Hcm node lv Hlv _ low high Hst). pose proof (Hleast (Hpos Hnn) W0 HW0). lia. }
  destruct (mt_middle _ _ _ _ _ _ _ _ HM) as [[-> ->]|(Hlt & e1 & e2 & K1 & K2 & Hsum)]; [by left|right]. split; [done|].
  assert (0 <= mid < num) as Hmid by (apply (al_node _ _ _ _ _ _ _ _ Hlaws); by eapply (sd_node _ _ _ _ _ _ _ HF2)).
  split; [lia|]. split; [done|].
  destruct (retrieve_both _ _ _ _ _ _ _ _ Hlaws F2 R2 q2 q2' c r c' r' (search_fuel facade) mid e1 e2 HF2 HR2 Hq2 Hq2' ltac:(lia) K1 K2)
    as (L & s & t & ws & wt & p & EL & Hs & Ht & HL' & Ew & Hlen & Hnil); [unfold search_fuel; rewrite Hnodes; lia|].
  exists L, s, t, ws, wt, p. split; [done|]. split; [done|]. split; [done|]. split; [done|].
  split; [lia|]. split.
  { intros Hnn. pose proof (Hleast (Hpos Hnn) _ (mld_meeting_route _ _ _ _ _ _ _ _ Hlaws true F2 R2 mid e1 e2 HF2 HR2 K1 K2)). lia. }
  split; [|done]. unfold search_fuel in Hlen. rewrite Hnodes in Hlen. lia.
Qed.
End one_call.

(** ** Unpacking *)

(** A list of nodes and edges from [s] to [t] whose edges weigh [p]. *)
Record travelled (node : Z -> Prop) (nodes edges : list Z) (s t p : Z) : Prop := {
  tv_head : head nodes = Some s;
  tv_last : last nodes = Some t;
  tv_chain : chain (road node) nodes p;
  tv_joined : joined qg nodes edges
}.

Lemma travelled_app node nodes edges rest es s u t p p' :
  travelled node nodes edges s u p -> travelled node (u :: rest) es u t p' -> travelled node (nodes ++ rest) (edges ++ es) s t (p + p').
Proof.
  intros [H1' H2' H3' H4'] [_ K2 K3 K4]. apply last_Some in H2' as [pre ->].
  split; rewrite <- ?app_assoc; simpl.
  - destruct pre; [|done]. simpl in *. done.
  - rewrite last_app. by rewrite K2.
  - by apply chain_app.
  - by apply joined_app.
Qed.

Lemma travelled_mono (node node' : Z -> Prop) nodes edges s t p : (forall v, node v -> node' v) -> travelled node nodes edges s t p -> travelled node' nodes edges s t p.
Proof.
  intros Hn [H1' H2' H3' H4']. split; try done. clear -Hn H3'. induction H3' as [|u v L w p (Ha & Hb & Hx) Hc IH]; constructor; [|done].
  split; [by apply Hn|]. split; [by apply Hn|done].
Qed.

Lemma travelled_edge node u v w e range : road node u v w -> GetAdjacentEdgeRange qg u = Some range -> e ∈ range -> GetTarget qg e = Some v ->
  travelled node [u; v] [e] u v w.
Proof.
  intros Hr E He Ht. split; [done|done| |].
  - rewrite <- (Z.add_0_r w). constructor; [done|constructor].
  - econstructor; [done..|constructor].
Qed.

(** The queue with one end. *)
Definition only (s : Z) : qmap := {[s := mkQentry 0 (mkHeapData s false) false]}.

(** What a search inside a cell does for an arc of a matrix; it needs [k] clears. *)
Definition unpacks (search_below : QueryHeap St H Handle HeapData -> QueryHeap St H Handle HeapData -> Args ->
    option (QueryHeap St H Handle HeapData * QueryHeap St H Handle HeapData * Z * list Z * list Z)) node lv (k : Z) : Prop :=
  forall u v w q q' c r c' r', clique_arc node lv u v w -> good num q (only u) (c + k) r -> good num q' (only v) (c' + k) r' ->
    0 <= c -> 0 <= c' -> num + 1 < r -> num + 1 < r' ->
    exists q2 q2' M2 M2' W rest es,
      search_below q q' (Restricted (lv u - 1) (cell_of (lv u) u)) = Some (q2, q2', W, u :: rest, es) /\
      good num q2 M2 c r /\ good num q2' M2' c' r' /\ travelled node (u :: rest) es u v w.

Lemma good_single q M c r s : good num q M (c + 1) r -> 0 <= c -> 1 < r -> 0 <= s < num ->
  exists q', Insert (Clear q) s 0 (mkHeapData s false) = Some q' /\ good num q' (only s) c r.
Proof.
  intros Hq Hc Hr Hs. pose proof (good_Clear num q M c r Hq Hc) as Hq1.
  destruct (good_Insert num (Clear q) ∅ c r s 0 (mkHeapData s false) Hq1) as (q' & E & Hq2); [apply lookup_empty|done|rewrite map_size_empty; lia|].
  exists q'. split; [done|]. unfold only. by rewrite insert_empty in Hq2.
Qed.

Lemma unpack_path_ok search_below args node lv k : levelled node lv -> args_ok node lv args -> levels < 256 -> 0 <= k ->
  unpacks search_below node lv k -> forall L s t p, packed_path (clique_arc node lv) (border_arc node lv) L s t p ->
  forall q q' M M' c r c' r' nodes edges s0 p0,
  good num q M (c + Z.of_nat (length L) * (k + 1)) r -> good num q' M' (c' + Z.of_nat (length L) * (k + 1)) r' -> 0 <= c -> 0 <= c' ->
  num + 1 < r -> num + 1 < r' -> travelled node nodes edges s0 s p0 ->
  exists q2 q2' M2 M2' nodes' edges', unpack_path search_below facade args q q' L nodes edges = Some (q2, q2', nodes', edges') /\
    good num q2 M2 c r /\ good num q2' M2' c' r' /\ travelled node nodes' edges' s0 t (p0 + p).
Proof using Hcu Hfo Hnum.
  intros Hlv Hargs Hlev Hk Hsb L s t p HL'. induction HL' as [v|u v t clique w p L Hkind HL' IH];
    intros q q' M M' c r c' r' nodes edges s0 p0 Hq Hq' Hc Hc' Hr Hr' Htr; cbn [unpack_path].
  { exists q, q', M, M', nodes, edges. simpl in Hq, Hq'. rewrite !Z.add_0_r in *. done. }
  assert (forall x, node x -> 0 <= x < num) as Hrange by (intros x; apply (node_range _ _ _ _ _ _ _ _ Hcu _ _ Hlv)).
  rewrite Z.add_assoc. replace (Z.of_nat (length ((u, v, clique) :: L))) with (1 + Z.of_nat (length L)) in Hq, Hq' by (simpl; lia).
  destruct clique; simpl in Hkind; cbn [negb].
  - pose proof Hkind as (Hu & Hv & _ & Hl & _). rewrite (fo_partition _ _ _ _ _ _ _ _ Hfo), (ao_level _ _ _ _ _ Hargs u Hu). cbn [mbind option_bind].
    pose proof (lo_range _ _ _ _ _ Hlv u Hu) as Hlr.
    destruct (cell_get _ _ _ _ _ _ _ _ Hcu (lv u) u ltac:(lia) (Hrange u Hu)) as [-> _]. cbn [mbind option_bind].
    destruct (good_single q M (c + Z.of_nat (length L) * (k + 1) + k) r u) as (q1 & E1 & Hq1); [|lia|lia|by apply Hrange|].
    { by replace (c + Z.of_nat (length L) * (k + 1) + k + 1) with (c + (1 + Z.of_nat (length L)) * (k + 1)) by lia. }
    destruct (good_single q' M' (c' + Z.of_nat (length L) * (k + 1) + k) r' v) as (q1' & E1' & Hq1'); [|lia|lia|by apply Hrange|].
    { by replace (c' + Z.of_nat (length L) * (k + 1) + k + 1) with (c' + (1 + Z.of_nat (length L)) * (k + 1)) by lia. }
    rewrite E1. cbn [mbind option_bind]. rewrite E1'. cbn [mbind option_bind]. rewrite wrap_small by (split; lia).
    destruct (Hsb u v w q1 q1' _ r _ r' Hkind Hq1 Hq1') as (q2 & q2' & M2 & M2' & W & rest & es & E2 & Hq2 & Hq2' & Htr2); try done; try lia.
    rewrite E2. cbn [mbind option_bind]. by eapply IH; [exact Hq2|exact Hq2'|..|by eapply travelled_app].
  - pose proof Hkind as [Hroad _]. destruct (FindEdge_road node u v w Hrange Hroad) as (e & range & -> & Er & He & Ht). cbn [mbind option_bind].
    eapply IH; [eapply good_fewer; [|exact Hq]; lia|eapply good_fewer; [|exact Hq']; lia|done..|].
    eapply travelled_app; [done|]. by eapply travelled_edge.
Qed.

(** ** The search *)

(** What a search says: no route below the bound, or a route with its nodes and
    edges that weighs at most what is reported, which is not negative.  When no
    route is negative it weighs as much, and none is lighter. *)
Definition answer (node : Z -> Prop) F R (top W : Z) (nodes edges : list Z) : Prop :=
  (W = INVALID_EDGE_WEIGHT /\ nodes = [] /\ edges = [] /\ (nonneg_routes node F R -> forall W', road_route graph node (ends F R) W' -> top <= W')) \/
  (0 <= W < top /\ (nonneg_routes node F R -> forall W', road_route graph node (ends F R) W' -> W <= W') /\
    exists s t ws wt p, ends F R true s ws /\ ends F R false t wt /\ travelled node nodes edges s t p /\ ws + p + wt <= W /\
      (nonneg_routes node F R -> W = ws + p + wt)).

(** The clears that unpacking needs, for every arc of a path its own and those of the search below. *)
Fixpoint clears (depth : nat) : Z :=
  (4 * num + 2) * (match depth with O => 0 | S depth => clears depth end + 1).

Lemma clears_nonneg depth : 0 <= clears depth.
Proof using Hnum. induction depth; simpl; nia. Qed.

Definition search_spec (depth : nat) : Prop :=
  forall args node lv F R low high top q q' c r c' r', call args node lv F R low high -> (forall v, node v -> lv v <= Z.of_nat depth) ->
    top <= INT32_MAX -> good num q F (c + clears depth) r -> good num q' R (c' + clears depth) r' -> 0 <= c -> 0 <= c' -> num + 1 < r -> num + 1 < r' ->
    exists q2 q2' F2 R2 W nodes edges, search (S depth) facade q q' [] [] top args = Some (q2, q2', W, nodes, edges) /\
      good num q2 F2 c r /\ good num q2' R2 c' r' /\ answer node F R top W nodes edges.

(** A search inside a cell unpacks arcs of its matrix. *)
Lemma search_unpacks depth args node lv F R low high : search_spec depth -> call args node lv F R low high ->
  (forall v, node v -> lv v <= Z.of_nat (S depth)) ->
  unpacks (fun f r a => search (S depth) facade f r [] [] INVALID_EDGE_WEIGHT a) node lv (clears depth).
Proof using Hcu Hcm Hsmall Hb0.
  intros Hspec Hcall Hlev u v w q q' c r c' r' Hk Hq Hq' Hc Hc' Hr Hr'. pose proof (cl_levelled _ _ _ _ _ _ _ Hcall) as Hlv.
  destruct (clique_inside node lv u v w Hlv Hk) as (Hl & Hiu & Hiv & Hgu & Hgv & Hsub & Hw & Hleast). pose proof Hk as (Hu & _).
  assert (forall (D : bool) s e, (if D then only u else only v) !! s = Some e ->
    s = (if D then u else v) /\ e = mkQentry 0 (mkHeapData s false) false) as Hends
    by (unfold only; intros [] s e [<- <-]%lookup_singleton_Some; done).
  assert (forall W, road_route graph (in_cell (lv u) (cell_of (lv u) u))
    (ends (only u) (only v)) W <->
    walk (road (in_cell (lv u) (cell_of (lv u) u))) u v W) as Hroute.
  { intros W. split.
    - intros (s & t & ws & wt & p & (e & He & <-) & (e' & He' & <-) & Hp & ->).
      destruct (Hends true s e He) as [-> ->], (Hends false t e' He') as [-> ->]. simpl. by rewrite Z.add_0_r.
    - intros Hp. exists u, v, 0, 0, W. split; [exists (mkQentry 0 (mkHeapData u false) false); split; [apply lookup_singleton_eq|done]|].
      split; [exists (mkQentry 0 (mkHeapData v false) false); split; [apply lookup_singleton_eq|done]|]. split; [done|lia]. }
  destruct (Hspec (Restricted (lv u - 1) (cell_of (lv u) u)) (in_cell (lv u) (cell_of (lv u) u)) (fun _ => lv u - 1) (only u) (only v) 0 0 INVALID_EDGE_WEIGHT
    q q' c r c' r') as (q2 & q2' & F2 & R2 & W & nodes & edges & E & Hq2 & Hq2' & Hans); try done.
  { split; [by apply in_cell_levelled|by apply in_cell_args|intros x y p; by apply in_cell_distances| |lia|lia].
    intros D s e He. destruct (Hends D s e He) as [-> ->]. destruct D; split_and!; try done; lia. }
  { intros x _. specialize (Hlev u Hu). lia. }
  destruct (in_cell_distances _ _ Hl u v w Hb0 Hw) as (p' & W' & Hle).
  assert (nonneg_routes (in_cell (lv u) (cell_of (lv u) u)) (only u) (only v)) as Hnn by (intros W0 HW%Hroute; by eapply road_walk_nonneg).
  destruct Hans as [(_ & _ & _ & Hno)|(_ & Hall & s & t & ws & wt & p & (e & He & <-) & (e' & He' & <-) & Htr & _ & HW)].
  { apply Hroute, (Hno Hnn) in W'. unfold INVALID_EDGE_WEIGHT, INT32_MAX in W'. lia. }
  destruct (Hends true s e He) as [-> ->], (Hends false t e' He') as [-> ->]. simpl in *. rewrite (HW Hnn) in *.
  assert (p = w) as ->.
  { pose proof (Hall Hnn w (proj2 (Hroute w) Hw)). pose proof (Hleast p (chain_walk _ _ _ _ _ (tv_chain _ _ _ _ _ _ Htr) (tv_head _ _ _ _ _ _ Htr) (tv_last _ _ _ _ _ _ Htr))). lia. }
  destruct nodes as [|x rest]; [by destruct Htr|]. assert (x = u) as -> by (destruct Htr as [Hh _ _ _]; by injection Hh).
  exists q2, q2', F2, R2, (w + 0), rest, edges. split; [done|]. split; [done|]. split; [done|]. by eapply travelled_mono.
Qed.

Lemma empty_search_answer args node lv F R low high DIRECTION q c r top : call args node lv F R low high -> good num q (if DIRECTION : bool then F else R) c r ->
  Empty q = true -> answer node F R top INVALID_EDGE_WEIGHT [] [].
Proof.
  intros Hcall Hq He. left. split_and!; [done..|]. intros _ W (s & t & ws & wt & p & (e & Hs & _) & (e' & Ht & _) & _). exfalso.
  pose proof (proj1 (Empty_spec q _ (gd_repr _ _ _ _ _ Hq)) He) as Hall. destruct DIRECTION.
  - destruct (cl_entries _ _ _ _ _ _ _ Hcall true s e Hs) as (_ & _ & Hl & _). rewrite (Hall s e Hs) in Hl. done.
  - destruct (cl_entries _ _ _ _ _ _ _ Hcall false t e' Ht) as (_ & _ & Hl & _). rewrite (Hall t e' Ht) in Hl. done.
Qed.

(** One search, when the searches below unpack. *)
Lemma search_step_depth depth k args node lv F R low high top q q' c r c' r' : levels < 256 -> call args node lv F R low high -> 0 <= k ->
  unpacks (fun f r a => search depth facade f r [] [] INVALID_EDGE_WEIGHT a) node lv k -> top <= INT32_MAX ->
  good num q F (c + (4 * num + 2) * (k + 1)) r -> good num q' R (c' + (4 * num + 2) * (k + 1)) r' -> 0 <= c -> 0 <= c' -> num + 1 < r -> num + 1 < r' ->
  exists q2 q2' F2 R2 W nodes edges, search (S depth) facade q q' [] [] top args = Some (q2, q2', W, nodes, edges) /\
    good num q2 F2 c r /\ good num q2' R2 c' r' /\ answer node F R top W nodes edges.
Proof using Hcu Hcm Hfo Hnodes Hnum Hb0.
  intros Hlv256 Hcall Hk Hun Htop Hq Hq' Hc Hc' Hr Hr'.
  assert (forall q0 M0 c0 r0, good num q0 M0 (c0 + (4 * num + 2) * (k + 1)) r0 -> good num q0 M0 c0 r0) as Hless
    by (intros q0 M0 c0 r0 G0; eapply good_fewer; [|exact G0]; nia).
  cbn [search]. destruct (Empty q) eqn:E1.
  { exists q, q', F, R. do 3 eexists. split; [done|]. split; [by apply Hless|]. split; [by apply Hless|]. by eapply (empty_search_answer _ _ _ _ _ _ _ true). }
  destruct (Empty q') eqn:E2; cbn [orb].
  { exists q, q', F, R. do 3 eexists. split; [done|]. split; [by apply Hless|]. split; [by apply Hless|]. by eapply (empty_search_answer _ _ _ _ _ _ _ false). }
  destruct (packed_search args node lv F R low high Hcall q q' _ r _ r' top Hq Hq' Hr Hr' Htop E1 E2)
    as (fk & rk & q2 & q2' & F2 & R2 & mid & W & -> & -> & E3 & Hq2 & Hq2' & Hans). cbn [mbind option_bind]. rewrite E3. cbn [mbind option_bind].
  destruct Hans as [(-> & -> & Hall)|(Hlt & Hmid & Hall & L & s & t & ws & wt & p & EL & Hs & Ht & HL' & HWle & HW & Hlen & Hnil)].
  { rewrite Z.leb_refl. exists q2, q2', F2, R2. do 3 eexists. split; [done|]. split; [by apply Hless|]. split; [by apply Hless|]. by left. }
  rewrite (proj2 (Z.leb_gt _ _) (proj2 Hlt)). cbn [orb]. destruct (Z.eqb_spec SPECIAL_NODEID mid) as [?|_]; [congruence|].
  rewrite EL. cbn [mbind option_bind].
  assert (match L with [] => mid | (from, _, _) :: _ => from end = s) as ->.
  { destruct L as [|[[a b] cl] L]; [symmetry; by apply Hnil|by inversion HL']. }
  destruct (unpack_path_ok _ args node lv k (cl_levelled _ _ _ _ _ _ _ Hcall) (cl_args _ _ _ _ _ _ _ Hcall) Hlv256 Hk Hun L s t p HL'
    q2 q2' F2 R2 c r c' r' [s] [] s 0) as (q3 & q3' & F3 & R3 & nodes & edges & E4 & Hq3 & Hq3' & Htr); try done.
  { eapply good_fewer; [|exact Hq2]. nia. }
  { eapply good_fewer; [|exact Hq2']. nia. }
  { split; [done|done|constructor|constructor]. }
  rewrite E4. cbn [mbind option_bind]. exists q3, q3', F3, R3. do 3 eexists. split; [done|]. split; [done|]. split; [done|].
  right. split; [done|]. split; [done|]. by exists s, t, ws, wt, p.
Qed.

Lemma mld_search_ok : levels < 256 -> forall depth, search_spec depth.
Proof using Hcu Hcm Hfo Hnodes Hnum Hsmall Hb0.
  intros Hlv256 depth. induction depth as [|depth IH]; intros args node lv F R low high top q q' c r c' r' Hcall Hlev Htop Hq Hq' Hc Hc' Hr Hr'.
  - apply (search_step_depth 0 0 args node lv F R low high top q q' c r c' r'); try done.
    intros u v w q0 q0' c0 r0 c0' r0' (Hu & _ & _ & Hl & _). specialize (Hlev u Hu). lia.
  - apply (search_step_depth (S depth) (clears depth) args node lv F R low high top q q' c r c' r'); try done; [apply clears_nonneg|].
    by apply (search_unpacks depth args node lv F R low high).
Qed.
End run.
End query.
