(* ===== verification/MldPhantoms.v ===== *)
(** * Multi-level queries between phantom nodes

    The levels that [getNodeQueryLevel] gives to the nodes for the segments at
    the ends of a route, the queues that [insertNodesInHeaps] fills, and the
    theorem about the query: it returns a lightest route between the sources and
    the targets, with its nodes and edges. *)
From S2P Require Import Prelude Walks Sorting QueryHeap Permutation DynamicGraph StaticGraph MultiLevelPartition.
From S2P Require Import MultiLevelGraph GraphInterface EdgeBasedEdge CellStorage CellCustomizer Customization Relaxing RoutingBase MldSearch MldLabels MldOverlay MldQuery.
Import Static Multi Mld.

(** ** Levels *)

Section levels.
Context (mlp : MultiLevelPartition) (levels : Z) (Hok : mlp_ok mlp levels) (Hnested : nested_cells mlp levels) (Hlevels : levels < INVALID_LEVEL_ID).

(** The highest level at which two nodes are in different cells. *)
Definition level_apart (a v : Z) : Z := default 0 (GetHighestDifferentLevel mlp a v).

Lemma level_apart_ok a v : is_node mlp a -> is_node mlp v -> GetHighestDifferentLevel mlp a v = Some (level_apart a v) /\
  0 <= level_apart a v <= levels /\ (forall l, level_apart a v < l <= levels -> GetCell mlp l a = GetCell mlp l v) /\
  (0 < level_apart a v -> GetCell mlp (level_apart a v) a <> GetCell mlp (level_apart a v) v).
Proof using Hok.
  unfold is_node. intros Ha Hv. destruct (GetHighestDifferentLevel_ok mlp levels a v Hok) as (L & E & H); [lia|lia|].
  unfold level_apart. rewrite E. by split.
Qed.

Lemma level_apart_self a : is_node mlp a -> level_apart a a = 0.
Proof using Hok.
  intros Ha. destruct (level_apart_ok a a Ha Ha) as (_ & Hr & _ & Hd). destruct (decide (level_apart a a = 0)) as [?|Hne]; [done|].
  destruct Hd; [lia|done].
Qed.

(** Nodes of a cell without [a] are equally far from it. *)
Lemma level_apart_cell a u v l : is_node mlp a -> is_node mlp u -> is_node mlp v -> 1 <= l <= level_apart a u ->
  GetCell mlp l u = GetCell mlp l v -> level_apart a v = level_apart a u.
Proof using Hok Hnested.
  intros Ha Hu Hv Hl Hc. destruct (level_apart_ok a u Ha Hu) as (_ & Hr & Hs & Hd). destruct (level_apart_ok a v Ha Hv) as (_ & Hr' & Hs' & Hd').
  assert (forall k, l <= k <= levels -> GetCell mlp k u = GetCell mlp k v) as Hup
    by (intros k Hk; apply (nested_cells_le mlp levels l k u v Hnested); [done|done|lia|lia|done]).
  destruct (Z.lt_trichotomy (level_apart a v) (level_apart a u)) as [Hlt|[?|Hgt]]; [|done|].
  - destruct Hd; [lia|]. rewrite (Hs' (level_apart a u)) by lia. by rewrite Hup by lia.
  - destruct Hd'; [lia|]. rewrite (Hs (level_apart a v)) by lia. apply Hup. lia.
Qed.

Definition query_level_of (s t v : Z) : Z := Z.min (level_apart s v) (level_apart t v).

Lemma GetQueryLevel_ok s t v : is_node mlp s -> is_node mlp t -> is_node mlp v -> GetQueryLevel mlp s t v = Some (query_level_of s t v).
Proof using Hok.
  intros Hs Ht Hv. unfold GetQueryLevel. destruct (level_apart_ok s v Hs Hv) as (-> & _). destruct (level_apart_ok t v Ht Hv) as (-> & _). done.
Qed.

(** [L] is the least level over the pairs in [P], or invalid without any. *)
Record least_level (P : Z -> Z -> Prop) (v L : Z) : Prop := {
  ll_lower s t : P s t -> L <= query_level_of s t v;
  ll_attained : L = INVALID_LEVEL_ID \/ (L <= INVALID_LEVEL_ID /\ exists s t, P s t /\ L = query_level_of s t v)
}.

Lemma least_level_min (P Q R : Z -> Z -> Prop) v a b : least_level P v a -> least_level Q v b -> (forall s t, R s t <-> P s t \/ Q s t) ->
  least_level R v (Z.min a b).
Proof.
  intros [L1 A1] [L2 A2] HR. split.
  - intros s t [Hp|Hq]%HR; [specialize (L1 s t Hp)|specialize (L2 s t Hq)]; lia.
  - destruct A1 as [A1|(A1 & s & t & Hp & E)], A2 as [A2|(A2 & s' & t' & Hp' & E')].
    + left. lia.
    + right. split; [lia|]. exists s', t'. split; [apply HR; by right|lia].
    + right. split; [lia|]. exists s, t. split; [apply HR; by left|lia].
    + right. split; [lia|]. destruct (Z.min_spec a b) as [[_ ->]|[_ ->]]; [exists s, t|exists s', t']; (split; [apply HR; tauto|done]).
Qed.

Lemma least_level_join P Q v a b : least_level P v a -> least_level Q v b -> least_level (fun s t => P s t \/ Q s t) v (Z.min a b).
Proof. intros H1 H2. by apply (least_level_min P Q). Qed.

Lemma least_level_none v : least_level (fun _ _ => False) v INVALID_LEVEL_ID.
Proof. split; [done|by left]. Qed.

Context (v : Z) (Hv : is_node mlp v).

Lemma segment_level_ok a b : (enabled a = true -> is_node mlp (segment_id a)) -> (enabled b = true -> is_node mlp (segment_id b)) ->
  exists L, segment_level mlp v a b = Some L /\
    least_level (fun s t => enabled a = true /\ enabled b = true /\ s = segment_id a /\ t = segment_id b) v L.
Proof using Hok Hv Hlevels.
  intros Ha Hb. unfold segment_level. destruct (enabled a) eqn:Ea, (enabled b) eqn:Eb; simpl.
  2-4: eexists; (split; [done|]); split; [by intros s t (? & ? & _)|by left].
  specialize (Ha eq_refl). specialize (Hb eq_refl). rewrite (GetQueryLevel_ok _ _ _ Ha Hb Hv). eexists. split; [done|]. split.
  - intros s t (_ & _ & -> & ->). lia.
  - right. destruct (level_apart_ok (segment_id a) v Ha Hv) as (_ & ? & _). split; [unfold query_level_of; lia|]. by eexists _, _.
Qed.

Lemma phantom_level_ok a b : (forall s, s ∈ segments a -> is_node mlp s) -> (forall t, t ∈ segments b -> is_node mlp t) ->
  exists L, phantom_level mlp v a b = Some L /\ least_level (fun s t => s ∈ segments a /\ t ∈ segments b) v L.
Proof using Hok Hv Hlevels.
  intros Ha Hb. setoid_rewrite elem_of_segments in Ha. setoid_rewrite elem_of_segments in Hb.
  assert (forall x y, (x = forward_segment_id a \/ x = reverse_segment_id a) -> (y = forward_segment_id b \/ y = reverse_segment_id b) ->
    exists L, segment_level mlp v x y = Some L /\
      least_level (fun s t => enabled x = true /\ enabled y = true /\ s = segment_id x /\ t = segment_id y) v L) as Hs.
  { intros x y Hx Hy. apply segment_level_ok; intros E; [apply Ha|apply Hb]; destruct Hx, Hy; subst; tauto. }
  unfold phantom_level.
  destruct (Hs _ _ (or_introl eq_refl) (or_introl eq_refl)) as (ff & -> & Lff). destruct (Hs _ _ (or_introl eq_refl) (or_intror eq_refl)) as (fr & -> & Lfr).
  destruct (Hs _ _ (or_intror eq_refl) (or_introl eq_refl)) as (rf & -> & Lrf). destruct (Hs _ _ (or_intror eq_refl) (or_intror eq_refl)) as (rr & -> & Lrr).
  eexists. split; [done|]. refine (least_level_min _ _ _ v _ _ (least_level_join _ _ v _ _ Lff Lfr) (least_level_join _ _ v _ _ Lrf Lrr) _).
  intros s t. rewrite !elem_of_segments. intuition congruence.
Qed.

Lemma target_levels_ok a ts : (forall s, s ∈ segments a -> is_node mlp s) -> (forall t, t ∈ all_segments ts -> is_node mlp t) ->
  forall level P, least_level P v level -> exists L, target_levels mlp v a ts level = Some L /\
    least_level (fun s t => P s t \/ (s ∈ segments a /\ t ∈ all_segments ts)) v L.
Proof using Hok Hv Hlevels.
  intros Ha. induction ts as [|b ts IH]; intros Hts level P HP; cbn [target_levels].
  { exists level. split; [done|]. destruct HP as [L1 A1]. split; [intros s t [Hp|[_ ?%elem_of_nil]]; [by apply L1|done]|].
    destruct A1 as [?|(? & s & t & Hp & ?)]; [by left|right]. split; [done|]. exists s, t. split; [by left|done]. }
  destruct (phantom_level_ok a b Ha) as (L0 & -> & HL0); [intros t Ht; apply Hts, all_segments_cons; by left|]. cbn [mbind option_bind].
  destruct (IH ltac:(intros t Ht; apply Hts, all_segments_cons; by right) _ (fun s t => P s t \/ (s ∈ segments a /\ t ∈ segments b))
    (least_level_join _ _ _ _ _ HP HL0)) as (L & -> & [L1 A1]).
  exists L. split; [done|]. split.
  - intros s t Hst. apply L1. rewrite all_segments_cons in Hst. tauto.
  - destruct A1 as [?|(? & s & t & Hp & ?)]; [by left|right]. split; [done|]. exists s, t. rewrite all_segments_cons. split; [tauto|done].
Qed.

Lemma source_levels_ok ss ts : (forall s, s ∈ all_segments ss -> is_node mlp s) -> (forall t, t ∈ all_segments ts -> is_node mlp t) ->
  forall level P, least_level P v level -> exists L, source_levels mlp v ss ts level = Some L /\
    least_level (fun s t => P s t \/ (s ∈ all_segments ss /\ t ∈ all_segments ts)) v L.
Proof using Hok Hv Hlevels.
  intros Hss Hts. induction ss as [|a ss IH]; intros level P HP; cbn [source_levels].
  { exists level. split; [done|]. destruct HP as [L1 A1]. split; [intros s t [Hp|[?%elem_of_nil _]]; [by apply L1|done]|].
    destruct A1 as [?|(? & s & t & Hp & ?)]; [by left|right]. split; [done|]. exists s, t. split; [by left|done]. }
  destruct (target_levels_ok a ts ltac:(intros t Ht; apply Hss, all_segments_cons; by left) Hts level P HP) as (L0 & -> & HL0). cbn [mbind option_bind].
  assert (least_level (fun s t => P s t \/ (s ∈ segments a /\ t ∈ all_segments ts)) v (Z.min level L0)) as HQ
    by (eapply least_level_min; [exact HP|exact HL0|intros s t; cbv beta; tauto]).
  destruct (IH ltac:(intros t Ht; apply Hss, all_segments_cons; by right) _ _ HQ) as (L & -> & [L1 A1]).
  exists L. split; [done|]. split.
  - intros s t Hst. apply L1. rewrite all_segments_cons in Hst. tauto.
  - destruct A1 as [?|(? & s & t & Hp & ?)]; [by left|right]. split; [done|]. exists s, t. rewrite all_segments_cons. split; [tauto|done].
Qed.
End levels.

(** ** The search between phantom nodes *)

Section phantoms.
Context {G : Type} `{!Graph G EdgeData} `{!GraphLaws G EdgeData}.
Context (gp : G) (graph : MultiLevelGraph EdgeData).
Context (mlp : MultiLevelPartition) (st : CellStorage) (allowed : list bool) (levels num bound : Z) (m : CellMetric).
Context (Hcu : customizable gp graph mlp st allowed levels num bound).
Context (Hok : mlp_ok mlp levels) (Hlevels : levels < INVALID_LEVEL_ID).
Context (sources targets : list PhantomNode).
Context (Hsegments : forall s, s ∈ all_segments sources \/ s ∈ all_segments targets -> 0 <= s < num).
Context (Hsource : exists s, s ∈ all_segments sources) (Htarget : exists t, t ∈ all_segments targets).

Abbreviation is_allowed := (is_allowed allowed).
Abbreviation node_level := (fun v => default 0 (getNodeQueryLevel mlp v (Candidates sources targets))).

Lemma node_of v : 0 <= v < num -> is_node mlp v.
Proof using Hcu. unfold is_node. rewrite (cu_partition _ _ _ _ _ _ _ _ Hcu). lia. Qed.

Lemma node_level_least v : 0 <= v < num -> getNodeQueryLevel mlp v (Candidates sources targets) = Some (node_level v) /\
  least_level mlp (fun s t => s ∈ all_segments sources /\ t ∈ all_segments targets) v (node_level v).
Proof using Hcu Hok Hlevels Hsegments.
  intros Hv. simpl.
  destruct (source_levels_ok mlp levels Hok Hlevels v (node_of v Hv) sources targets ltac:(intros s Hs; apply node_of, Hsegments; by left)
    ltac:(intros t Ht; apply node_of, Hsegments; by right) INVALID_LEVEL_ID (fun _ _ => False) (least_level_none mlp v)) as (L & -> & [L1 A1]).
  split; [done|]. simpl. split; [intros s t Hst; apply L1; by right|].
  destruct A1 as [?|(? & s & t & [[]|Hst] & ?)]; [by left|right]. split; [done|]. by exists s, t.
Qed.

(** The level of a node is the level of some pair of segments. *)
Lemma node_level_pair v : 0 <= v < num -> 0 <= node_level v <= levels /\
  exists s t, s ∈ all_segments sources /\ t ∈ all_segments targets /\ node_level v = query_level_of mlp s t v.
Proof using Hcu Hok Hlevels Hsegments Hsource Htarget.
  intros Hv. destruct (node_level_least v Hv) as [_ [L1 A1]].
  assert (forall s t, s ∈ all_segments sources -> t ∈ all_segments targets -> 0 <= query_level_of mlp s t v <= levels) as Hq.
  { intros s t Hs Ht. destruct (level_apart_ok mlp levels Hok s v (node_of s (Hsegments s (or_introl Hs))) (node_of v Hv)) as (_ & ? & _).
    destruct (level_apart_ok mlp levels Hok t v (node_of t (Hsegments t (or_intror Ht))) (node_of v Hv)) as (_ & ? & _).
    unfold query_level_of. lia. }
  destruct Hsource as [s0 Hs0], Htarget as [t0 Ht0]. pose proof (L1 s0 t0 (conj Hs0 Ht0)). pose proof (Hq s0 t0 Hs0 Ht0).
  destruct A1 as [E|(_ & s & t & [Hs Ht] & E)]; [lia|]. pose proof (Hq s t Hs Ht). split; [lia|]. by exists s, t.
Qed.

Lemma phantom_levelled : levelled mlp allowed levels is_allowed node_level.
Proof using Hcu Hok Hlevels Hsegments Hsource Htarget.
  assert (forall v, is_allowed v -> 0 <= v < num) as Hr by (intros v; apply (allowed_range _ _ _ _ _ _ _ _ Hcu)).
  split; [done|intros v Hv%Hr; by apply node_level_pair|]. intros u v Hu Hv Hl Hc. split; [done|].
  destruct (node_level_pair u (Hr u Hu)) as [Hru (s & t & Hs & Ht & Eu)]. destruct (node_level_pair v (Hr v Hv)) as [_ (s' & t' & Hs' & Ht' & Ev)].
  destruct (node_level_least u (Hr u Hu)) as [_ [Lu _]]. destruct (node_level_least v (Hr v Hv)) as [_ [Lv _]].
  assert (forall s t, s ∈ all_segments sources -> t ∈ all_segments targets -> query_level_of mlp s t v = query_level_of mlp s t u) as Hsame.
  { assert (GetCell mlp (node_level u) u = GetCell mlp (node_level u) v) as Hcell.
    { destruct (cell_get _ _ _ _ _ _ _ _ Hcu (node_level u) u ltac:(lia) (Hr u Hu)) as [-> _].
      destruct (cell_get _ _ _ _ _ _ _ _ Hcu (node_level u) v ltac:(lia) (Hr v Hv)) as [-> _]. by rewrite Hc. }
    intros a b Ha Hb. pose proof (Lu a b (conj Ha Hb)) as Hle. unfold query_level_of in *.
    assert (forall x, 0 <= x < num -> node_level u <= level_apart mlp x u -> level_apart mlp x v = level_apart mlp x u) as Hx.
    { intros x Hx Hxl. apply (level_apart_cell mlp levels Hok (cu_nested _ _ _ _ _ _ _ _ Hcu) x u v (node_level u));
        [by apply node_of|by apply node_of, Hr|by apply node_of, Hr|lia|done]. }
    rewrite (Hx a), (Hx b); [done|apply Hsegments; by right|lia|apply Hsegments; by left|lia]. }
  pose proof (Lv s t (conj Hs Ht)). pose proof (Lu s' t' (conj Hs' Ht')). rewrite Hsame in * by done. lia.
Qed.

Lemma phantom_args : args_ok mlp allowed is_allowed node_level (Candidates sources targets).
Proof using Hcu Hok Hlevels Hsegments.
  split; [intros v Hv; apply node_level_least; by eapply (allowed_range _ _ _ _ _ _ _ _ Hcu)|]. intros u v _ Hv. by exists true.
Qed.

(** The ends are searched at level 0. *)
Lemma segment_gate s : s ∈ all_segments sources \/ s ∈ all_segments targets -> gate gp mlp node_level s.
Proof using Hcu Hok Hlevels Hsegments Hsource Htarget.
  intros Hs. left. pose proof (Hsegments s Hs) as Hsr. destruct (node_level_pair s Hsr) as [Hr _]. destruct (node_level_least s Hsr) as [_ [L1 _]].
  pose proof (level_apart_self mlp levels Hok s (node_of s Hsr)) as E0. destruct Hsource as [s0 Hs0], Htarget as [t0 Ht0]. destruct Hs as [Hs|Hs].
  - pose proof (L1 s t0 (conj Hs Ht0)) as Hle. unfold query_level_of in Hle. lia.
  - pose proof (L1 s0 s (conj Hs0 Hs)) as Hle. unfold query_level_of in Hle. lia.
Qed.

(** ** The query *)

Context (Hcm : customized_metric gp graph mlp st allowed levels m).
Context (facade : DataFacade) (Hfo : facade_ok graph mlp st allowed levels num m facade).
Context (Hnodes : GetNumberOfNodes (base (super (query_graph facade))) = num) (Hnum : 0 <= num <= SPECIAL_NODEID).
Context (Hb0 : 0 <= bound).
Context (Hdistances : forall u v p, walk (road graph is_allowed) u v p -> exists p', walk (road graph is_allowed) u v p' /\ p' <= bound).

(** A way from a source to a target, and what it costs. *)
Definition phantom_route (W : Z) : Prop := exists s t ws wt p, (s, ws) ∈ end_list sources targets true /\ (t, wt) ∈ end_list sources targets false /\
  walk (road graph is_allowed) s t p /\ W = ws + p + wt.

(** The same with its nodes and edges. *)
Definition phantom_route_along (nodes edges : list Z) (W : Z) : Prop := exists s t ws wt p, (s, ws) ∈ end_list sources targets true /\ (t, wt) ∈ end_list sources targets false /\
  travelled graph facade is_allowed nodes edges s t p /\ W = ws + p + wt.

(** No way is negative. *)
Definition nonneg_phantom_routes : Prop := forall W, phantom_route W -> 0 <= W.

(** Ends on allowed segments, each once, with weights that cannot overflow. *)
Record ends_ok (low high : Z) : Prop := {
  eo_once DIRECTION : NoDup (fst <$> end_list sources targets DIRECTION);
  eo_ends DIRECTION s w : (s, w) ∈ end_list sources targets DIRECTION -> is_allowed s /\ low <= w <= high;
  eo_low : - 2 ^ 30 <= low;
  eo_high : 0 <= high /\ high + bound + bound < 2 ^ 30
}.

Section run.
Context {St H Handle : Type} `{SL : IndexStorageLaws St, HL : MutableHeapLaws H Handle}.
Context (low high : Z) (Hends : ends_ok low high).
Implicit Types (q : QueryHeap St H Handle HeapData).

Lemma phantom_ends DIRECTION s w : ends (end_map (end_list sources targets true)) (end_map (end_list sources targets false)) DIRECTION s w <-> (s, w) ∈ end_list sources targets DIRECTION.
Proof using Hends.
  unfold ends. split.
  - intros (e & He & <-). destruct DIRECTION; apply end_map_lookup in He as (w & Hin & ->); try done; apply (eo_once _ _ Hends).
  - intros Hin. exists (mkQentry w (of_parent s) false). split; [|done].
    destruct DIRECTION; apply end_map_lookup; [apply (eo_once _ _ Hends)|by exists w|apply (eo_once _ _ Hends)|by exists w].
Qed.

Lemma phantom_call : call gp graph mlp allowed levels bound (Candidates sources targets) is_allowed node_level
  (end_map (end_list sources targets true)) (end_map (end_list sources targets false)) low high.
Proof using Hcu Hok Hlevels Hsegments Hsource Htarget Hdistances Hends Hnum.
  split; [by apply phantom_levelled|by apply phantom_args|done| |apply Hends|apply Hends].
  - intros D s e He. assert (exists w, (s, w) ∈ end_list sources targets D /\ e = mkQentry w (of_parent s) false) as (w & Hin & ->)
      by (destruct D; apply end_map_lookup in He; try done; apply (eo_once _ _ Hends)).
    destruct (eo_ends _ _ Hends D s w Hin) as [Ha Hw]. split_and!; try done; [|simpl; lia..]. apply segment_gate. by eapply end_list_segment.
Qed.

(** No route is as heavy as the invalid weight. *)
Lemma light_route W : phantom_route W -> exists W', phantom_route W' /\ W' < INVALID_EDGE_WEIGHT.
Proof using Hdistances Hends Hb0.
  intros (s & t & ws & wt & p & Hs & Ht & Hw & ->). destruct (Hdistances s t p Hw) as (p' & W' & Hle). exists (ws + p' + wt).
  split; [by exists s, t, ws, wt, p'|]. destruct (eo_ends _ _ Hends _ _ _ Hs) as [_ ?]. destruct (eo_ends _ _ Hends _ _ _ Ht) as [_ ?].
  destruct (eo_high _ _ Hends) as [? ?]. unfold INVALID_EDGE_WEIGHT, INT32_MAX. lia.
Qed.

Lemma phantom_search_ok q q' c r c' r' : good num q ∅ (c + clears num (Z.to_nat levels)) r -> good num q' ∅ (c' + clears num (Z.to_nat levels)) r' ->
  0 <= c -> 0 <= c' -> num + 1 < r -> num + 1 < r' ->
  exists f rv q2 q2' W nodes edges, insertNodesInHeaps q q' sources targets = Some (f, rv) /\
    search (search_depth facade) facade f rv [] [] INVALID_EDGE_WEIGHT (Candidates sources targets) = Some (q2, q2', W, nodes, edges) /\
    ((W = INVALID_EDGE_WEIGHT /\ nodes = [] /\ edges = [] /\ (nonneg_phantom_routes -> forall W', ~ phantom_route W')) \/
     (0 <= W < INVALID_EDGE_WEIGHT /\ (exists W0, phantom_route_along nodes edges W0 /\ W0 <= W /\ (nonneg_phantom_routes -> W0 = W)) /\
      (nonneg_phantom_routes -> forall W', phantom_route W' -> W <= W'))).
Proof using Hcu Hok Hlevels Hsegments Hsource Htarget Hcm Hfo Hnodes Hnum Hb0 Hdistances Hends.
  intros Hq Hq' Hc Hc' Hr Hr'. pose proof (si_levels _ _ _ (cu_input _ _ _ _ _ _ _ _ Hcu)) as Hlv.
  assert (forall D s w, (s, w) ∈ end_list sources targets D -> 0 <= s < num) as Hrange by (intros D s w Hin%end_list_segment; by apply Hsegments).
  destruct (insert_ends_ok num _ (eo_once _ _ Hends true) (Hrange true) q _ r Hq Hr ltac:(lia)) as (f & E1 & Hf).
  destruct (insert_ends_ok num _ (eo_once _ _ Hends false) (Hrange false) q' _ r' Hq' Hr' ltac:(lia)) as (rv & E2 & Hrv).
  rewrite insertNodesInHeaps_ends, E1, E2. cbn [mbind option_bind].
  destruct (mld_search_ok gp graph mlp st allowed levels num bound m Hcu Hcm facade Hfo Hnodes Hnum ltac:(pose proof (eo_high _ _ Hends); lia) Hb0
    ltac:(unfold INVALID_LEVEL_ID in Hlevels; lia) (Z.to_nat levels) (Candidates sources targets) is_allowed node_level _ _ low high INVALID_EDGE_WEIGHT
    f rv c r c' r' phantom_call) as (q2 & q2' & F2 & R2 & W & nodes & edges & E & _ & _ & Hans); try done.
  { intros v Hv. destruct (lo_range _ _ _ _ _ phantom_levelled v Hv). lia. }
  exists f, rv, q2, q2', W, nodes, edges. split; [done|]. unfold search_depth. rewrite (fo_partition _ _ _ _ _ _ _ _ Hfo), (si_num_levels _ _ _ (cu_input _ _ _ _ _ _ _ _ Hcu)).
  replace (Z.to_nat (levels + 1)) with (S (Z.to_nat levels)) by lia. split; [done|].
  assert (forall W', phantom_route W' -> road_route graph is_allowed (ends (end_map (end_list sources targets true)) (end_map (end_list sources targets false))) W') as Hto.
  { intros W' (s & t & ws & wt & p & Hs & Ht & Hw & ->). exists s, t, ws, wt, p. split_and!; [by apply phantom_ends|by apply phantom_ends|done|done]. }
  assert (nonneg_phantom_routes -> nonneg_routes graph is_allowed (end_map (end_list sources targets true)) (end_map (end_list sources targets false))) as Hnn.
  { intros Hpos W' (s & t & ws & wt & p & Hs & Ht & Hw & ->). apply Hpos. exists s, t, ws, wt, p. split_and!; [by apply phantom_ends|by apply phantom_ends|done|done]. }
  destruct Hans as [(-> & -> & -> & Hno)|(HW0 & Hall & s & t & ws & wt & p & Hs & Ht & Htr & Hle & HW)]; [left|right].
  - split_and!; [done..|]. intros Hpos W' HW'. destruct (light_route W' HW') as (W0 & HW0 & Hlt). pose proof (Hno (Hnn Hpos) W0 (Hto W0 HW0)). lia.
  - split; [done|]. split; [|intros Hpos W' HW'; by apply (Hall (Hnn Hpos)), Hto]. exists (ws + p + wt).
    split; [|split; [done|intros Hpos; symmetry; by apply HW, Hnn]]. exists s, t, ws, wt, p. split_and!; [by apply phantom_ends|by apply phantom_ends|done|done].
Qed.
End run.
End phantoms.
