(* ===== verification/MldBuilt.v ===== *)
(** * Multi-level queries on what the constructors build

    Edges over a nested partition, the graph, the cells and the matrices that
    the constructors and the customization make of them, and the graph of the
    queries: on all of this the search between phantom nodes returns a lightest
    route of the edges. *)
From S2P Require Import Prelude Walks Sorting QueryHeap Permutation DynamicGraph StaticGraph MultiLevelPartition.
From S2P Require Import MultiLevelGraph GraphInterface EdgeBasedEdge CellStorage CellCustomizer Customization Relaxing RoutingBase MldSearch MldLabels MldOverlay MldQuery MldPhantoms.
Import Static Multi Mld.

(** What the queries add to the input of the customization: the weights as the
    sum of the weight of a node and the penalty of a turn, edges at both ends
    with turns of the same penalty, and the classes of the nodes that are excluded. *)
Record query_input (nodes : Z) (edges : list (InputEdge EdgeData)) (allowed : list bool)
    (node_weights penalties classes : list Z) (mask : Z) : Prop := {
  qi_weights e : e ∈ edges -> forward (ie_data e) = true -> exists node_weight penalty,
    node_weights !z ie_source e = Some node_weight /\ penalties !z EdgeBasedEdge.turn_id (ie_data e) = Some penalty /\
    weight (ie_data e) = node_weight + penalty;
  qi_forward e : e ∈ edges -> forward (ie_data e) = true -> exists e', e' ∈ edges /\ ie_source e' = ie_target e /\
    ie_target e' = ie_source e /\ backward (ie_data e') = true /\
    penalties !z EdgeBasedEdge.turn_id (ie_data e') = penalties !z EdgeBasedEdge.turn_id (ie_data e);
  qi_backward e : e ∈ edges -> backward (ie_data e) = true -> exists e', e' ∈ edges /\ ie_source e' = ie_target e /\
    ie_target e' = ie_source e /\ forward (ie_data e') = true /\
    penalties !z EdgeBasedEdge.turn_id (ie_data e') = penalties !z EdgeBasedEdge.turn_id (ie_data e);
  qi_allowed : allowed = (fun c => negb (0 <? Z.land c mask)) <$> classes
}.

(** ** The graph of the queries *)

Section query_graph.
Context (g : MultiLevelGraph EdgeData) (Hwf : sg_wf (base g)) (node_weights node_durations : list Z) (node_distances : list float32).

Lemma QueryGraph_new_ok : exists qg, QueryGraph_new g node_weights node_durations node_distances = Some qg /\
  node_array (base (super qg)) = node_array (base g) /\ node_to_edge_offset (super qg) = node_to_edge_offset g /\
  GetNumberOfNodes (base (super qg)) = GetNumberOfNodes (base g) /\ Mld.node_weights qg = node_weights /\
  (forall i x, edge_array (base g) !z i = Some x ->
    GetTarget (base (super qg)) i = Some (target x) /\
    GetEdgeData (base (super qg)) i = Some (mkEdgeBasedGraphEdgeData (EdgeBasedEdge.turn_id (data x))) /\
    IsForwardEdge qg i = Some (forward (data x)) /\ IsBackwardEdge qg i = Some (backward (data x))).
Proof using Hwf.
  unfold QueryGraph_new, StaticGraph_from_arrays.
  destruct (last (node_array (base g))) as [back|] eqn:E.
  2:{ apply last_None in E. pose proof (sw_nodes _ Hwf). pose proof (sw_num _ Hwf). rewrite E in *. unfold zlen in *. simpl in *. lia. }
  cbn [mbind option_bind]. eexists. split; [done|]. split; [done|]. split; [done|]. split.
  { unfold GetNumberOfNodes. simpl. rewrite (sw_nodes _ Hwf). pose proof (sw_num _ Hwf). rewrite wrap_small; [lia|]. unfold in_word. change UINT32_MAX with (2 ^ 32 - 1) in *. lia. }
  split; [done|]. intros i x Hi. unfold GetTarget, GetEdgeData, IsForwardEdge, IsBackwardEdge. simpl.
  rewrite !zget_fmap, Hi. done.
Qed.
End query_graph.

(** ** The facade *)

Section facade.
Context (parallel_sort : sort_function) `{!ParallelSort parallel_sort}.
Context (mlp : MultiLevelPartition) (levels nodes maxw : Z) (edges : list (InputEdge EdgeData)) (allowed : list bool).
Context (Hci : customization_input mlp levels nodes maxw edges allowed).
Context (node_weights node_durations : list Z) (node_distances : list float32) (penalties classes : list Z) (mask : Z).
Context (Hqi : query_input nodes edges allowed node_weights penalties classes mask).
Context (g : MultiLevelGraph EdgeData) (st : CellStorage) (m : CellMetric) (qg : QueryGraph).
Context (Eg : MultiLevelGraph_new parallel_sort mlp nodes edges = Some g).
Context {G : Type} `{!Graph G EdgeData} `{!GraphLaws G EdgeData} (gp : G).
Context (Hcu : customizable gp g mlp st allowed levels nodes (nodes * maxw)).
Context (Eqg : QueryGraph_new g node_weights node_durations node_distances = Some qg).

Abbreviation facade := (mkDataFacade qg mlp st m penalties classes mask).

(** What the constructor says of the graph. *)
Lemma built_ranges : sg_wf (base g) /\ forall n, 0 <= n < nodes ->
  sadj (base g) n ≡ₚ edge_of_input <$> filter (fun e => ie_source e = n) edges /\
  forall l, 0 <= l <= levels -> exists b m e,
    BeginEdges (base g) n = Some b /\ BeginBorderEdges g l n = Some m /\ EndEdges (base g) n = Some e /\
    b <= m <= e /\ GetInternalEdgeRange g l n = Some (irange b m) /\ GetBorderEdgeRange g l n = Some (irange m e) /\
    forall i x, b <= i < e -> edge_array (base g) !z i = Some x -> (m <= i <-> leaves mlp l n (target x)).
Proof using Hci Eg ParallelSort0.
  destruct (border_ranges parallel_sort mlp levels nodes edges (ci_graph _ _ _ _ _ _ Hci)) as (g' & Eg' & Hwf & Hr).
  assert (g' = g) as -> by congruence. by split.
Qed.

Lemma built_edge u x : x ∈ sadj (base g) u -> exists e, e ∈ edges /\ ie_source e = u /\ ie_target e = target x /\ ie_data e = data x.
Proof using Hci Eg ParallelSort0.
  destruct built_ranges as [Hwf Hr]. intros Hx.
  destruct (sadj_edge parallel_sort mlp nodes edges g Eg Hwf (fun n Hn => proj1 (Hr n Hn)) u x Hx) as (_ & e & He). by exists e.
Qed.

Lemma built_sadj e : e ∈ edges -> edge_of_input e ∈ sadj (base g) (ie_source e).
Proof using Hci Eg ParallelSort0.
  destruct built_ranges as [_ Hr]. by apply (edge_sadj mlp levels nodes maxw edges allowed Hci g (fun n Hn => proj1 (Hr n Hn))).
Qed.

(** A slice of the edges of a node. *)
Lemma slice_read b k : 0 <= b <= k -> k <= zlen (edge_array (base g)) ->
  Forall2 (edge_read facade) (irange b k) (zslice (edge_array (base g)) b (k - b)).
Proof using Hci Eg Eqg ParallelSort0.
  intros Hb Hk. destruct built_ranges as [Hwf _]. destruct (QueryGraph_new_ok g Hwf node_weights node_durations node_distances) as (qg' & Eqg' & _ & _ & _ & _ & Hread).
  assert (qg' = qg) as -> by congruence. eapply Forall2_impl; [by apply range_slice|]. intros i x Hx. exact (Hread i x Hx).
Qed.

Lemma leaves_apart l u v : 0 <= l <= levels -> 0 <= u < nodes -> 0 <= v < nodes -> leaves mlp l u v <-> apart mlp l u v.
Proof using Hcu.
  intros Hl Hu Hv. unfold leaves, apart. destruct (decide (l = 0)) as [->|Hne]; [tauto|].
  destruct (cell_get _ _ _ _ _ _ _ _ Hcu l u ltac:(lia) Hu) as [-> _]. destruct (cell_get _ _ _ _ _ _ _ _ Hcu l v ltac:(lia) Hv) as [-> _].
  split; (intros [?|Hn]; [by left|right]); congruence.
Qed.

(** The ranges of the query graph are those of the graph it was made of. *)
Lemma built_border l u : 0 <= l <= levels -> 0 <= u < nodes -> exists range xs,
  GetBorderEdgeRange (super qg) l u = Some range /\ Forall2 (edge_read facade) range xs /\
  forall x, x ∈ xs <-> x ∈ sadj (base g) u /\ apart mlp l u (target x).
Proof using Hci Hcu Eg Eqg ParallelSort0.
  intros Hl Hu. destruct built_ranges as [Hwf Hr]. destruct (QueryGraph_new_ok g Hwf node_weights node_durations node_distances) as (qg' & Eqg' & Hna & Hoff & _).
  assert (qg' = qg) as -> by congruence. assert (number_of_nodes (base g) = nodes) as Hn by (by eapply new_number_of_nodes).
  destruct (Hr u Hu) as [_ Hru]. destruct (Hru l Hl) as (b & k & e & Hb & Hk & He & Hbe & _ & Hrange & Hiff).
  destruct (adjacent_bounds (base g) u Hwf ltac:(lia)) as (b' & e' & Hb' & He' & Hbe' & Hez & Hadj).
  assert (b' = b) as -> by congruence. assert (e' = e) as -> by congruence.
  exists (irange k e), (zslice (edge_array (base g)) k (e - k)). split; [|split].
  - rewrite <- Hrange. unfold GetBorderEdgeRange, BeginBorderEdges, GetNumberOfLevels, BeginEdges, EndEdges. simpl. by rewrite Hna, Hoff.
  - apply slice_read; lia.
  - intros x. rewrite Hadj. split.
    + intros (i & Hi & Hx)%zslice_elem; [|lia]. assert (x ∈ zslice (edge_array (base g)) b (e - b)) as Hin.
      { apply (zget_elem _ (i - b)). rewrite zslice_get by lia. by replace (b + (i - b)) with i by lia. }
      split; [done|]. apply leaves_apart; [done|done|rewrite <- Hadj in Hin; by eapply (cu_targets _ _ _ _ _ _ _ _ Hcu)|]. apply (Hiff i x); [lia|done|lia].
    + intros [Hin Hap]. pose proof Hin as (i & Hi & Hx)%zslice_elem; [|lia].
      rewrite <- Hadj in Hin. pose proof (cu_targets _ _ _ _ _ _ _ _ Hcu u x Hin) as Ht.
      assert (k <= i) by (apply (Hiff i x); [lia|done|by apply leaves_apart]).
      apply (zget_elem _ (i - k)). rewrite zslice_get by lia. by replace (k + (i - k)) with i by lia.
Qed.

Lemma built_facade : facade_ok g mlp st allowed levels nodes m facade /\ GetNumberOfNodes (base (super qg)) = nodes.
Proof using Hci Hqi Hcu Eg Eqg ParallelSort0.
  destruct built_ranges as [Hwf Hr]. destruct (QueryGraph_new_ok g Hwf node_weights node_durations node_distances) as (qg' & Eqg' & Hna & Hoff & Hnum & Hnw & _).
  assert (qg' = qg) as -> by congruence.
  assert (number_of_nodes (base g) = nodes) as Hn by (by eapply new_number_of_nodes).
  split; [|unfold GetNumberOfNodes in *; congruence].
  split; try done.
  - by apply built_border.
  - intros u Hu. destruct (adjacent_bounds (base g) u Hwf ltac:(lia)) as (b & e & Hb & He & Hbe & Hez & Hadj).
    exists (irange b e), (zslice (edge_array (base g)) b (e - b)). split; [|split; [by apply slice_read|by rewrite Hadj]].
    unfold GetAdjacentEdgeRange, BeginEdges, EndEdges in *. simpl. by rewrite Hna, Hb, He.
  - intros v b Hv. rewrite (qi_allowed _ _ _ _ _ _ _ Hqi), zget_fmap in Hv. unfold ExcludeNode. simpl.
    destruct (classes !z v) as [c|]; [|done]. simpl in Hv |- *. injection Hv as <-. by rewrite negb_involutive.
  - intros u x Hu Hx Hf. destruct (built_edge u x Hx) as (e & He & <- & _ & Hd). rewrite <- Hd in *.
    unfold GetNodeWeight, GetWeightPenaltyForEdgeID. simpl. rewrite Hnw. by apply (qi_weights _ _ _ _ _ _ _ Hqi).
  - intros u x Hu Hx Hf. destruct (built_edge u x Hx) as (e & He & <- & <- & Hd). rewrite <- Hd in *.
    destruct (qi_forward _ _ _ _ _ _ _ Hqi e He Hf) as (e' & He' & Hs & Ht & Hb & Hid). exists (edge_of_input e').
    pose proof (built_sadj e' He') as Hin. rewrite Hs in Hin. by split_and!.
  - intros u x Hu Hx Hf. destruct (built_edge u x Hx) as (e & He & <- & <- & Hd). rewrite <- Hd in *.
    destruct (qi_backward _ _ _ _ _ _ _ Hqi e He Hf) as (e' & He' & Hs & Ht & Hb & Hid). exists (edge_of_input e').
    pose proof (built_sadj e' He') as Hin. rewrite Hs in Hin. by split_and!.
Qed.
End facade.

(** ** The query *)

(** Edges between nodes that are not excluded. *)
Definition drive (edges : list (InputEdge EdgeData)) (allowed : list bool) (u v w : Z) : Prop :=
  is_allowed allowed u /\ is_allowed allowed v /\
  exists e, e ∈ edges /\ ie_source e = u /\ ie_target e = v /\ forward (ie_data e) = true /\ weight (ie_data e) = w.

(** A way from a source to a target, and what it costs. *)
Definition drive_route (edges : list (InputEdge EdgeData)) (allowed : list bool) (sources targets : list PhantomNode) (W : Z) : Prop :=
  exists s t ws wt p, (s, ws) ∈ end_list sources targets true /\ (t, wt) ∈ end_list sources targets false /\
    walk (drive edges allowed) s t p /\ W = ws + p + wt.

(** Sources and targets: phantom nodes on segments of the graph, every
    segment an end at most once and not excluded, with weights that keep
    all sums in an [EdgeWeight]. *)
Record query_ends (edges : list (InputEdge EdgeData)) (allowed : list bool) (nodes far : Z) (sources targets : list PhantomNode) (low high : Z) : Prop := {
  qe_segments s : s ∈ all_segments sources \/ s ∈ all_segments targets -> 0 <= s < nodes;
  qe_source : exists s, s ∈ all_segments sources;
  qe_target : exists t, t ∈ all_segments targets;
  qe_once DIRECTION : NoDup (fst <$> end_list sources targets DIRECTION);
  qe_ends DIRECTION s w : (s, w) ∈ end_list sources targets DIRECTION -> is_allowed allowed s /\ low <= w <= high;
  qe_low : - 2 ^ 30 <= low;
  qe_high : 0 <= high /\ high + far + far < 2 ^ 30
}.

Section claim.
Context (parallel_sort : sort_function) `{!ParallelSort parallel_sort}.
Context (mlp : MultiLevelPartition) (levels nodes maxw : Z) (edges : list (InputEdge EdgeData)) (allowed : list bool).
Context (Hci : customization_input mlp levels nodes maxw edges allowed).
Context (node_weights node_durations : list Z) (node_distances : list float32) (penalties classes : list Z) (mask : Z).
Context (Hqi : query_input nodes edges allowed node_weights penalties classes mask).

Lemma road_drive g : MultiLevelGraph_new parallel_sort mlp nodes edges = Some g ->
  forall u v w, road g (is_allowed allowed) u v w <-> drive edges allowed u v w.
Proof using Hci ParallelSort0.
  intros Eg u v w. unfold road, drive. split; intros (Hu & Hv & x & Hx & Hrest); (split; [done|]); (split; [done|]).
  - destruct (built_edge parallel_sort mlp levels nodes maxw edges allowed Hci g Eg u x Hx) as (e & He & Hs & Ht & Hd). exists e.
    rewrite Ht, Hd. by split_and!; try apply Hrest.
  - destruct Hrest as (Hs & Ht & Hf & Hw). exists (edge_of_input x).
    pose proof (built_sadj parallel_sort mlp levels nodes maxw edges allowed Hci g Eg x Hx) as Hin. rewrite Hs in Hin. by split_and!.
Qed.

Lemma drive_distances u v p : walk (drive edges allowed) u v p -> exists p', walk (drive edges allowed) u v p' /\ p' <= nodes * maxw.
Proof using Hci.
  intros Hw. pose proof (mi_nonempty _ _ _ _ (ci_graph _ _ _ _ _ _ Hci)). pose proof (ci_maxw _ _ _ _ _ _ Hci).
  apply (light_walk (drive edges allowed) nodes maxw) with (p := p); [| |lia|done|done].
  - intros a b w (_ & _ & e & He & <- & <- & _). by apply (mi_ends _ _ _ _ (ci_graph _ _ _ _ _ _ Hci)).
  - intros a b w (_ & _ & e & He & _ & _ & Hf & <-). pose proof (ci_weights _ _ _ _ _ _ Hci e He Hf). lia.
Qed.

Context {St H Handle : Type} `{SL : IndexStorageLaws St, HL : MutableHeapLaws H Handle}.

(** No route is negative; a target behind its source on the same road makes one. *)
Definition nonneg_drives (sources targets : list PhantomNode) : Prop := forall W, drive_route edges allowed sources targets W -> 0 <= W.

(** What the search answers: a route with its nodes and edges, or that there is none.
    The reported weight is not negative and at least that of the route; when no
    route is negative it is the weight of the route and none is lighter. *)
Definition route_answer (qg : QueryGraph) (sources targets : list PhantomNode) (W : Z) (unpacked_nodes unpacked_edges : list Z) : Prop :=
  (W = INVALID_EDGE_WEIGHT /\ unpacked_nodes = [] /\ unpacked_edges = [] /\ (nonneg_drives sources targets -> forall W', ~ drive_route edges allowed sources targets W')) \/
  (0 <= W < INVALID_EDGE_WEIGHT /\ (exists s t ws wt p, (s, ws) ∈ end_list sources targets true /\ (t, wt) ∈ end_list sources targets false /\
     head unpacked_nodes = Some s /\ last unpacked_nodes = Some t /\ chain (drive edges allowed) unpacked_nodes p /\
     joined (base (super qg)) unpacked_nodes unpacked_edges /\ ws + p + wt <= W /\ (nonneg_drives sources targets -> W = ws + p + wt)) /\
   (nonneg_drives sources targets -> forall W', drive_route edges allowed sources targets W' -> W <= W')).

Lemma mld_query_ok {G : Type} `{!Graph G EdgeData} `{!GraphLaws G EdgeData} (gp : G) g st m qg q q' sources targets low high c r c' r' :
  MultiLevelGraph_new parallel_sort mlp nodes edges = Some g -> customizable gp g mlp st allowed levels nodes (nodes * maxw) ->
  customized_metric gp g mlp st allowed levels m -> QueryGraph_new g node_weights node_durations node_distances = Some qg ->
  query_ends edges allowed nodes (nodes * maxw) sources targets low high -> nodes <= SPECIAL_NODEID -> levels < INVALID_LEVEL_ID ->
  good nodes q ∅ (c + clears nodes (Z.to_nat levels)) r -> good nodes q' ∅ (c' + clears nodes (Z.to_nat levels)) r' ->
  0 <= c -> 0 <= c' -> nodes + 1 < r -> nodes + 1 < r' ->
  let facade := mkDataFacade qg mlp st m penalties classes mask in
  exists f rv q2 q2' W ns es, insertNodesInHeaps q q' sources targets = Some (f, rv) /\
    search (search_depth facade) facade f rv [] [] INVALID_EDGE_WEIGHT (Candidates sources targets) = Some (q2, q2', W, ns, es) /\
    route_answer qg sources targets W ns es.
Proof using Hci Hqi ParallelSort0.
  intros Eg Hcu Hcm Eqg Hqe Hsp Hlv Gq Gq' Hc Hc' Hr Hr' facade. pose proof (road_drive g Eg) as Hroad.
  pose proof (mi_nonempty _ _ _ _ (ci_graph _ _ _ _ _ _ Hci)) as Hne. pose proof (ci_maxw _ _ _ _ _ _ Hci) as Hmw.
  destruct (built_facade parallel_sort mlp levels nodes maxw edges allowed Hci node_weights node_durations node_distances penalties classes mask Hqi g st m qg Eg gp Hcu Eqg)
    as [Hfo Hnum].
  assert (forall u v p, walk (road g (is_allowed allowed)) u v p <-> walk (drive edges allowed) u v p) as Hwalk
    by (intros u v p; split; apply walk_mono; intros a b w; by rewrite Hroad).
  assert (forall W, phantom_route g allowed sources targets W <-> drive_route edges allowed sources targets W) as Hroute
    by (intros W; unfold phantom_route, drive_route; by setoid_rewrite Hwalk).
  assert (forall u v p, walk (road g (is_allowed allowed)) u v p -> exists p', walk (road g (is_allowed allowed)) u v p' /\ p' <= nodes * maxw) as Hdist.
  { intros u v p Hw%Hwalk. destruct (drive_distances u v p Hw) as (p' & W' & Hle). exists p'. split; [by apply Hwalk|done]. }
  assert (ends_ok allowed (nodes * maxw) sources targets low high) as Hends.
  { destruct Hqe as [_ _ _ K1 K2 K3 K4]. by split. }
  assert (nonneg_drives sources targets -> nonneg_phantom_routes g allowed sources targets) as Hnn by (intros Hpos W HW%Hroute; by apply Hpos).
  destruct (phantom_search_ok gp g mlp st allowed levels nodes (nodes * maxw) m Hcu (mi_partition _ _ _ _ (ci_graph _ _ _ _ _ _ Hci)) Hlv
    sources targets (qe_segments _ _ _ _ _ _ _ _ Hqe) (qe_source _ _ _ _ _ _ _ _ Hqe) (qe_target _ _ _ _ _ _ _ _ Hqe) Hcm facade Hfo Hnum ltac:(lia) ltac:(nia)
    Hdist low high Hends q q' c r c' r' Gq Gq' Hc Hc' Hr Hr') as (f & rv & q2 & q2' & W & ns & es & E1 & E2 & Hans).
  exists f, rv, q2, q2', W, ns, es. split; [done|]. split; [done|]. destruct Hans as [(-> & -> & -> & Hno)|(HW0 & Hal & Hall)]; [left|right].
  - split_and!; [done..|]. intros Hpos W' HW'%Hroute. by apply (Hno (Hnn Hpos) W').
  - split; [done|]. split; [|intros Hpos W' HW'; by apply (Hall (Hnn Hpos)), Hroute].
    destruct Hal as (W0 & (s & t & ws & wt & p & Hs & Ht & [Hh Hl Hch Hj] & ->) & Hle & HW). exists s, t, ws, wt, p.
    split_and!; try done; [|intros Hpos; symmetry; by apply HW, Hnn]. clear -Hch Hroad. induction Hch as [|a b L w p He Hc IH]; constructor; [by apply Hroad|done].
Qed.

(** Multi-level queries are exact.  For edges over a nested partition the
    constructors of the multi-level graph, of the cells and of the query graph
    succeed, and so does the customization of all cells in any order; on the
    result the query between phantom nodes, the insertion of sources and targets
    into the queues and the bidirectional search over the levels of the partition with the unpacking
    of shortcuts, returns the weight of a lightest route over edges between
    nodes that are not excluded, with the nodes of the route in order and an
    edge of the graph for every pair of neighbours, or INVALID_EDGE_WEIGHT when there is no route;
    with routes of negative weight, some route that weighs at most the reported
    weight, or INVALID_EDGE_WEIGHT. *)
Theorem mld_query_exact (schedule : Z -> list Z) (q0 : QueryHeap St H Handle CellCustomizer.HeapData) M0 r0 :
  (forall l, 1 <= l <= levels -> schedule l ≡ₚ seqZ 0 (num_cells mlp l)) ->
  good nodes q0 M0 (searches mlp nodes (Z.to_nat levels) 1) r0 -> nodes + 1 < r0 -> nodes <= SPECIAL_NODEID -> levels < INVALID_LEVEL_ID ->
  exists g st m qg, MultiLevelGraph_new parallel_sort mlp nodes edges = Some g /\
    CellStorage_new forward backward parallel_sort mlp (base g) = Some st /\
    Customize_all mlp schedule q0 g st allowed (MakeMetric st) = Some m /\
    QueryGraph_new g node_weights node_durations node_distances = Some qg /\
    forall (q q' : QueryHeap St H Handle HeapData) sources targets low high c r c' r',
      query_ends edges allowed nodes (nodes * maxw) sources targets low high ->
      good nodes q ∅ (c + clears nodes (Z.to_nat levels)) r -> good nodes q' ∅ (c' + clears nodes (Z.to_nat levels)) r' ->
      0 <= c -> 0 <= c' -> nodes + 1 < r -> nodes + 1 < r' ->
      let facade := mkDataFacade qg mlp st m penalties classes mask in
      exists f rv q2 q2' W ns es, insertNodesInHeaps q q' sources targets = Some (f, rv) /\
        search (search_depth facade) facade f rv [] [] INVALID_EDGE_WEIGHT (Candidates sources targets) = Some (q2, q2', W, ns, es) /\
        route_answer qg sources targets W ns es.
Proof using Hci Hqi ParallelSort0.
  intros Hsch Gq Hr Hsp Hlv. destruct (constructed_customizable parallel_sort mlp levels nodes maxw edges allowed Hci) as (g & st & Eg & Est & Hcu).
  destruct (Customize_all_ok _ _ _ _ _ _ _ _ Hcu r0 Hr schedule Hsch q0 M0 Gq) as (m & Em & Hcm).
  destruct (built_ranges parallel_sort mlp levels nodes maxw edges allowed Hci g Eg) as [Hwf _].
  destruct (QueryGraph_new_ok g Hwf node_weights node_durations node_distances) as (qg & Eqg & _).
  exists g, st, m, qg. do 4 (split; [done|]). intros. by eapply (mld_query_ok (base g)).
Qed.
End claim.

(** ** Witness *)

(** The start or the end of a route at the beginning of a segment. *)
Definition phantom_at (segment : Z) : PhantomNode :=
  mkPhantomNode (mkSegmentID segment true) (mkSegmentID 0 false) 0 0 0 0 0 0 0 true true false false.

Lemma road_query_input : query_input 6 road_edges (replicate 6 true) (replicate 6 0) [0; 1; 2; 3; 4; 5] (replicate 6 0) 1.
Proof.
  assert (Forall (fun e => existsb (fun e' => (ie_source e' =? ie_target e) && (ie_target e' =? ie_source e) &&
    (negb (forward (ie_data e)) || backward (ie_data e')) && (negb (backward (ie_data e)) || forward (ie_data e')) &&
    (EdgeBasedEdge.turn_id (ie_data e') =? EdgeBasedEdge.turn_id (ie_data e))) road_edges = true) road_edges) as Hrev by (repeat constructor).
  rewrite Forall_forall in Hrev. split.
  - intros e He _. revert e He. apply Forall_forall. repeat constructor; (eexists _, _; split; [reflexivity|]; split; [reflexivity|done]).
  - intros e He Hf. pose proof (Hrev e He) as Hex. rewrite Hf in Hex. apply existsb_exists in Hex as (e' & He' & Hb). exists e'.
    apply list_elem_of_In in He'. repeat rewrite andb_true_iff in Hb. destruct Hb as ((((H1 & H2) & H3) & H4) & ->%Z.eqb_eq). split_and!; try done; lia.
  - intros e He Hf. pose proof (Hrev e He) as Hex. rewrite Hf in Hex. apply existsb_exists in Hex as (e' & He' & Hb). exists e'.
    apply list_elem_of_In in He'. repeat rewrite andb_true_iff in Hb. destruct Hb as ((((H1 & H2) & H3) & H4) & ->%Z.eqb_eq). split_and!; try done; lia.
  - done.
Qed.

Lemma road_query_ends : query_ends road_edges (replicate 6 true) 6 30 [phantom_at 2] [phantom_at 5] 0 0.
Proof.
  assert (end_list [phantom_at 2] [phantom_at 5] true = [(2, 0)]) as E1 by reflexivity.
  assert (end_list [phantom_at 2] [phantom_at 5] false = [(5, 0)]) as E2 by reflexivity. split.
  - intros s [Hs|Hs]; apply list_elem_of_singleton in Hs; simpl in Hs; lia.
  - exists 2. by left.
  - exists 5. by left.
  - intros []; rewrite ?E1, ?E2; apply NoDup_singleton.
  - intros [] s w; rewrite ?E1, ?E2; intros [= -> ->]%list_elem_of_singleton; (split; [reflexivity|lia]).
  - lia.
  - lia.
Qed.

Lemma road_nonneg : nonneg_drives road_edges (replicate 6 true) [phantom_at 2] [phantom_at 5].
Proof.
  intros W (s & t & ws & wt & p & Hs & Ht & Hw & ->). change (end_list _ _ true) with [(2, 0)] in Hs. change (end_list _ _ false) with [(5, 0)] in Ht.
  apply list_elem_of_singleton in Hs as [= -> ->], Ht as [= -> ->]. assert (0 <= p); [|lia].
  eapply walk_nonneg; [|exact Hw]. intros u v x (_ & _ & e & He & _ & _ & _ & <-). revert e He. apply Forall_forall. repeat constructor; done.
Qed.

(** The way over 4 and 3. *)
Lemma road_route_7 : drive_route road_edges (replicate 6 true) [phantom_at 2] [phantom_at 5] 7.
Proof.
  assert (forall i e, road_edges !! i = Some e -> forward (ie_data e) = true -> ie_source e < 6 -> ie_target e < 6 -> 0 <= ie_source e -> 0 <= ie_target e ->
    drive road_edges (replicate 6 true) (ie_source e) (ie_target e) (weight (ie_data e))) as Hd.
  { intros i e He Hf Hs Ht Hs0 Ht0. assert (forall v, 0 <= v < 6 -> is_allowed (replicate 6 true) v) as Ha.
    { intros v Hv. unfold is_allowed, zget. rewrite (proj2 (Z.leb_le 0 v)) by lia. apply lookup_replicate_2. lia. }
    split; [by apply Ha|]. split; [by apply Ha|]. exists e. split; [by eapply list_elem_of_lookup_2|done]. }
  exists 2, 5, 0, 0, 7. split; [by left|]. split; [by left|]. split; [|done].
  apply (chain_walk _ [2; 4; 3; 5]); [|done|done]. change 7 with (2 + (3 + (2 + 0))).
  apply chain_cons; [exact (Hd 2%nat (mkInputEdge 2 4 (road_data 2 true false)) eq_refl eq_refl ltac:(done) ltac:(done) ltac:(done) ltac:(done))|]. apply chain_cons; [exact (Hd 4%nat (mkInputEdge 4 3 (road_data 3 true true)) eq_refl eq_refl ltac:(done) ltac:(done) ltac:(done) ltac:(done))|]. apply chain_cons; [exact (Hd 6%nat (mkInputEdge 3 5 (road_data 2 true true)) eq_refl eq_refl ltac:(done) ltac:(done) ltac:(done) ltac:(done))|]. apply chain_one.
Qed.

Lemma mld_query_exact_witness :
  exists mlp g st m qg q2 q2' f rv W ns es, MultiLevelPartition_new example_partitions [4; 3] = Some (Some mlp) /\
    MultiLevelGraph_new sequential_sort mlp 6 road_edges = Some g /\
    insertNodesInHeaps (QueryHeap_new (ArrayStorage_new 6) : QueryHeap ArrayStorage RefHeap Z HeapData) (QueryHeap_new (ArrayStorage_new 6))
      [phantom_at 2] [phantom_at 5] = Some (f, rv) /\
    (let facade := mkDataFacade qg mlp st m [0; 1; 2; 3; 4; 5] (replicate 6 0) 1 in
     search (search_depth facade) facade f rv [] [] INVALID_EDGE_WEIGHT (Candidates [phantom_at 2] [phantom_at 5]) = Some (q2, q2', W, ns, es)) /\
    route_answer road_edges (replicate 6 true) qg [phantom_at 2] [phantom_at 5] W ns es /\ W <= 7.
Proof.
  destruct example_mlp as (mlp & E & _).
  destruct (mld_query_exact sequential_sort mlp 2 6 5 road_edges (replicate 6 true) (road_input mlp E) (replicate 6 0) [] [] [0; 1; 2; 3; 4; 5]
    (replicate 6 0) 1 road_query_input (St := ArrayStorage) (H := RefHeap) (fun l => seqZ 0 (num_cells mlp l)) (QueryHeap_new (ArrayStorage_new 6)) ∅
    10000 (fun l _ => reflexivity _) (fresh_queue _ _) ltac:(clear; lia) ltac:(clear; by vm_compute) ltac:(clear; by vm_compute))
    as (g & st & m & qg & Eg & _ & _ & _ & Hq).
  destruct (Hq (QueryHeap_new (ArrayStorage_new 6)) (QueryHeap_new (ArrayStorage_new 6)) [phantom_at 2] [phantom_at 5] 0 0 0 10000 0 10000
    road_query_ends (fresh_queue _ _) (fresh_queue _ _) ltac:(clear; lia) ltac:(clear; lia) ltac:(clear; lia) ltac:(clear; lia))
    as (f & rv & q2 & q2' & W & ns & es & E1 & E2 & Hans).
  exists mlp, g, st, m, qg, q2, q2', f, rv, W, ns, es. split; [exact E|]. split; [exact Eg|]. split; [exact E1|]. split; [exact E2|].
  split; [exact Hans|].
  destruct Hans as [(_ & _ & _ & Hno)|(_ & _ & Hall)]; [destruct (Hno road_nonneg 7 road_route_7)|exact (Hall road_nonneg 7 road_route_7)].
Defined.
