(* ===== verification/Customizer.v ===== *)
(** * The customizer and requests on its output

    Model of src/customize/customizer.cpp, without files: the edges that the
    extractor wrote become the multi-level graph, every combination of classes
    that can be excluded gets a metric, and the graph is stripped of its weights
    for the queries.  A request names the classes to exclude, the factory picks
    the facade, and the search runs on it: the theorem follows a request from
    the edges of the extractor to the route. *)
From S2P Require Import Prelude Walks Sorting QueryHeap Permutation DynamicGraph StaticGraph MultiLevelPartition Classes EdgeBasedGraphReader.
From S2P Require Import MultiLevelGraph GraphInterface EdgeBasedEdge CellStorage CellCustomizer Customization Relaxing RoutingBase MldSearch MldLabels MldOverlay MldQuery MldPhantoms MldBuilt.
Import Static Multi Mld Reader.

(** ** The run of the customizer *)

(** The edges are those the updater returns. *)
Definition LoadAndUpdateEdgeExpandedGraph (parallel_sort sort : sort_function) (mlp : MultiLevelPartition) (num_nodes : Z)
    (edge_based_edge_list : list (InputEdge EdgeData)) : option (MultiLevelGraph EdgeData) :=
  let directed := splitBidirectionalEdges edge_based_edge_list in
  let tidied := prepareEdgesForUsageInGraph sort directed in
  MultiLevelGraph_new parallel_sort mlp num_nodes tidied.

Section run.
Context {St H Handle : Type} `{IndexStorage St, MutableHeap H Handle}.

(** One metric per filter. *)
Fixpoint customizeFilteredMetrics (mlp : MultiLevelPartition) (schedule : Z -> list Z) (heap_exemplar : QueryHeap St H Handle CellCustomizer.HeapData)
    (graph : MultiLevelGraph EdgeData) (storage : CellStorage) (node_filters : list (list bool)) : option (list CellMetric) :=
  match node_filters with
  | [] => Some []
  | filter :: node_filters =>
      metric ← Customize_all mlp schedule heap_exemplar graph storage filter (MakeMetric storage);
      metrics ← customizeFilteredMetrics mlp schedule heap_exemplar graph storage node_filters;
      Some (metric :: metrics)
  end.

(** The top bit of a node weight is a flag. *)
Definition clear_flags (node_weights : list Z) : list Z := (fun w => Z.land w 0x7fffffff) <$> node_weights.

(** [Customizer::Run]: the metrics and the graph that are written. *)
Definition Run (parallel_sort sort : sort_function) (schedule : Z -> list Z) (heap_exemplar : QueryHeap St H Handle CellCustomizer.HeapData)
    (mlp : MultiLevelPartition) (num_nodes : Z) (edge_based_edge_list : list (InputEdge EdgeData)) (node_weights node_durations : list Z)
    (node_distances : list float32) (storage : CellStorage) (class_data : list Z) (properties : ProfileProperties)
  : option (list CellMetric * QueryGraph) :=
  graph ← LoadAndUpdateEdgeExpandedGraph parallel_sort sort mlp num_nodes edge_based_edge_list;
  filter ← excludeFlagsToNodeFilter (GetNumberOfNodes (base graph)) class_data properties;
  metrics ← customizeFilteredMetrics mlp schedule heap_exemplar graph storage filter;
  shaved_graph ← QueryGraph_new graph (clear_flags node_weights) node_durations node_distances;
  Some (metrics, shaved_graph).
End run.

(** The facades of the factory: the metric and the mask of an index. *)
Definition facades (qg : QueryGraph) (mlp : MultiLevelPartition) (storage : CellStorage) (metrics : list CellMetric) (penalties class_data : list Z)
    (properties : ProfileProperties) : list DataFacade :=
  zip_with (fun metric mask => mkDataFacade qg mlp storage metric penalties class_data mask) metrics (excludable_classes properties).

(** ** The input *)

(** A partition of the nodes. *)
Record partition_input (mlp : MultiLevelPartition) (levels nodes maxw : Z) : Prop := {
  pi_partition : mlp_ok mlp levels;
  pi_nested : nested_cells mlp levels;
  pi_num_level : num_level (level_data mlp) = levels + 1;
  pi_levels : levels < INVALID_LEVEL_ID;
  pi_nonempty : 0 < nodes;
  pi_nodes : zlen (partition mlp) = nodes + 1;
  pi_index : (nodes + 1) * (levels + 1) < 2 ^ 32;
  pi_cells l : 1 <= l <= levels -> exists m, GetNumberOfCells mlp l = Some m /\ 0 <= m /\
    forall v, 0 <= v < nodes -> exists c, GetCell mlp l v = Some c /\ 0 <= c < m;
  pi_total : level_start mlp (Z.to_nat levels) < 2 ^ 32;
  pi_maxw : 0 <= maxw;
  pi_bound : 2 * (nodes * maxw) < INT32_MAX;
  pi_pairs : nodes * nodes < 2 ^ 32
}.

(** Edges of the extractor: forward edges with the weight of their node and the
    penalty of their turn.  Opposite turns of the same weight are merged, so
    they must agree on the penalty as well. *)
Record extracted (nodes maxw : Z) (edges : list (InputEdge EdgeData)) (node_weights penalties : list Z) : Prop := {
  ex_ends e : e ∈ edges -> 0 <= ie_source e < nodes /\ 0 <= ie_target e < nodes;
  ex_forward e : e ∈ edges -> forward (ie_data e) = true /\ backward (ie_data e) = false;
  ex_weight e : e ∈ edges -> 1 <= weight (ie_data e) <= maxw /\ exists node_weight penalty,
    node_weights !z ie_source e = Some node_weight /\ penalties !z EdgeBasedEdge.turn_id (ie_data e) = Some penalty /\
    0 <= node_weight < 2 ^ 31 /\ weight (ie_data e) = node_weight + penalty;
  ex_opposite e e' : e ∈ edges -> e' ∈ edges -> ie_source e' = ie_target e -> ie_target e' = ie_source e ->
    weight (ie_data e) = weight (ie_data e') -> node_weights !z ie_source e = node_weights !z ie_source e';
  ex_degree n : zlen (filter (fun e => ie_source e = n) (splitBidirectionalEdges edges)) <= 255;
  ex_size : 2 * zlen edges < UINT32_MAX
}.


(** ** Requests *)

(** Edges between nodes that may be used. *)
Definition open_arc (edges : list (InputEdge EdgeData)) (ok : Z -> Prop) (u v w : Z) : Prop :=
  ok u /\ ok v /\ exists e, e ∈ edges /\ ie_source e = u /\ ie_target e = v /\ weight (ie_data e) = w.

Definition request_route (edges : list (InputEdge EdgeData)) (ok : Z -> Prop) (sources targets : list PhantomNode) (W : Z) : Prop :=
  exists s t ws wt p, (s, ws) ∈ end_list sources targets true /\ (t, wt) ∈ end_list sources targets false /\
    walk (open_arc edges ok) s t p /\ W = ws + p + wt.

(** No route is negative; a target behind its source on the same road makes one. *)
Definition nonneg_request (edges : list (InputEdge EdgeData)) (ok : Z -> Prop) (sources targets : list PhantomNode) : Prop :=
  forall W, request_route edges ok sources targets W -> 0 <= W.

(** The ends of a request: as in [query_ends]. *)
Record request_ends (edges : list (InputEdge EdgeData)) (ok : Z -> Prop) (nodes far : Z) (sources targets : list PhantomNode) (low high : Z) : Prop := {
  re_segments s : s ∈ all_segments sources \/ s ∈ all_segments targets -> 0 <= s < nodes;
  re_source : exists s, s ∈ all_segments sources;
  re_target : exists t, t ∈ all_segments targets;
  re_once DIRECTION : NoDup (fst <$> end_list sources targets DIRECTION);
  re_ends DIRECTION s w : (s, w) ∈ end_list sources targets DIRECTION -> ok s /\ low <= w <= high;
  re_low : - 2 ^ 30 <= low;
  re_high : 0 <= high /\ high + far + far < 2 ^ 30
}.

(** The answer: no route, or a route with its nodes and edges and a weight that is
    not negative and at least its own.  When no route is negative it is the weight
    of the route, and none is lighter. *)
Definition request_answer (edges : list (InputEdge EdgeData)) (ok : Z -> Prop) (qg : QueryGraph) (sources targets : list PhantomNode) (W : Z)
    (unpacked_nodes unpacked_edges : list Z) : Prop :=
  (W = INVALID_EDGE_WEIGHT /\ unpacked_nodes = [] /\ unpacked_edges = [] /\
    (nonneg_request edges ok sources targets -> forall W', ~ request_route edges ok sources targets W')) \/
  (0 <= W < INVALID_EDGE_WEIGHT /\ (exists s t ws wt p, (s, ws) ∈ end_list sources targets true /\ (t, wt) ∈ end_list sources targets false /\
     head unpacked_nodes = Some s /\ last unpacked_nodes = Some t /\ chain (open_arc edges ok) unpacked_nodes p /\
     joined (base (super qg)) unpacked_nodes unpacked_edges /\ ws + p + wt <= W /\ (nonneg_request edges ok sources targets -> W = ws + p + wt)) /\
   (nonneg_request edges ok sources targets -> forall W', request_route edges ok sources targets W' -> W <= W')).

(** A node with none of the classes that a request excludes. *)
Definition class_free (class_data : list Z) (m : ClassesMap) (exclude : list (list Z)) (v : Z) : Prop :=
  exists c, class_data !z v = Some c /\ forall name cm, name ∈ exclude -> m !! name = Some cm -> Z.land c cm = 0.
Section input.
Context (sort : sort_function) `{!ParallelSort sort}.
Context (mlp : MultiLevelPartition) (levels nodes maxw : Z) (Hpi : partition_input mlp levels nodes maxw).
Context (edges : list (InputEdge EdgeData)) (node_weights penalties : list Z) (Hex : extracted nodes maxw edges node_weights penalties).

Abbreviation tidied := (prepareEdgesForUsageInGraph sort (splitBidirectionalEdges edges)).

Lemma pi_small : nodes <= UINT32_MAX /\ maxw < INVALID_EDGE_WEIGHT.
Proof using Hpi.
  pose proof (pi_nonempty _ _ _ _ Hpi). pose proof (pi_pairs _ _ _ _ Hpi). pose proof (pi_bound _ _ _ _ Hpi). pose proof (pi_maxw _ _ _ _ Hpi).
  unfold UINT32_MAX, INVALID_EDGE_WEIGHT in *. nia.
Qed.

Lemma extracted_input : input_ok nodes edges.
Proof using Hpi Hex.
  pose proof (pi_nonempty _ _ _ _ Hpi). destruct pi_small. split; [lia|apply Hex| |apply Hex].
  intros e He _. unfold directed. by destruct (ex_forward _ _ _ _ _ Hex e He) as [-> ->].
Qed.

Lemma extracted_one_way e : e ∈ edges -> one_way e.
Proof using Hpi Hex. apply extracted_input. Qed.

(** The arcs of the edges. *)
Lemma extracted_arc u v w : arc edges u v w <-> exists e, e ∈ edges /\ ie_source e = u /\ ie_target e = v /\ weight (ie_data e) = w.
Proof using Hpi Hex.
  destruct pi_small as [_ Hmw]. split.
  - intros (e & He & _ & -> & Hc). destruct (ex_forward _ _ _ _ _ Hex e He) as [_ Hb]. destruct (ex_weight _ _ _ _ _ Hex e He) as [Hw _].
    destruct Hc as [(Hs & Ht & _)|(_ & _ & ?)]; [|congruence]. exists e. split_and!; [done..|lia].
  - intros (e & He & Hs & Ht & <-). destruct (ex_weight _ _ _ _ _ Hex e He) as [Hw _]. destruct (ex_forward _ _ _ _ _ Hex e He) as [Hf _].
    exists e. split; [done|]. split; [lia|]. split; [lia|]. by left.
Qed.

(** The penalty of an entry makes up the weight with the node it leaves. *)
Lemma tidied_penalty dir e : e ∈ tidied -> usable dir e = true -> exists node_weight penalty,
  node_weights !z (if dir then ie_source e else ie_target e) = Some node_weight /\ penalties !z EdgeBasedEdge.turn_id (ie_data e) = Some penalty /\
  0 <= node_weight < 2 ^ 31 /\ weight (ie_data e) = node_weight + penalty.
Proof using Hpi Hex ParallelSort0.
  intros He Hu. destruct (pd_lightest _ _ (tidied_prepared sort edges extracted_one_way) dir e He Hu) as (x & Hx & [Hs Ht] & Hux & Hw & Hid & _).
  unfold splitBidirectionalEdges in Hx. apply list_elem_of_bind in Hx as (e0 & Hx & He0). destruct (split_edge_elem x e0 Hx) as (_ & Hwx & Htx & Hc).
  destruct (ex_forward _ _ _ _ _ Hex e0 He0) as [Hf Hb]. destruct (ex_weight _ _ _ _ _ Hex e0 He0) as (Hw0 & nw & pen & K1 & K2 & K3 & K4).
  assert (ie_source e0 = (if dir then ie_source e else ie_target e) /\ ie_target e0 = (if dir then ie_target e else ie_source e)) as [Es Et].
  { unfold usable in Hux. destruct dir, Hc as [(E1 & E2 & E3 & E4)|(E1 & E2 & E3 & E4)]; try congruence; split; congruence. }
  rewrite Es in K1. destruct Hid as [Hid|[-> Hfe]].
  { exists nw, pen. split_and!; try done; try lia. by rewrite <- Hid, Htx. }
  destruct (pd_lightest _ _ (tidied_prepared sort edges extracted_one_way) true e He Hfe) as (y & Hy & [Hs' Ht'] & Huy & Hw' & Hid' & _).
  destruct Hid' as [Hid'|[? _]]; [|done]. unfold splitBidirectionalEdges in Hy. apply list_elem_of_bind in Hy as (e1 & Hy & He1).
  destruct (split_edge_elem y e1 Hy) as (_ & Hwy & Hty & Hc'). destruct (ex_forward _ _ _ _ _ Hex e1 He1) as [Hf1 Hb1].
  destruct (ex_weight _ _ _ _ _ Hex e1 He1) as (Hw1 & nw' & pen' & L1 & L2 & L3 & L4).
  assert (ie_source e1 = ie_source e /\ ie_target e1 = ie_target e) as [Es1 Et1].
  { unfold usable in Huy. destruct Hc' as [(E1 & E2 & E3 & E4)|(E1 & E2 & E3 & E4)]; try congruence; split; congruence. }
  assert (node_weights !z ie_source e1 = node_weights !z ie_source e0) as Enw by (apply (ex_opposite _ _ _ _ _ Hex); [done|done|congruence|congruence|lia]).
  rewrite Es in Enw. exists nw', pen'. split; [congruence|]. split; [congruence|]. split; [done|lia].
Qed.

(** The entry of the other end has the same penalty. *)
Lemma tidied_mirror dir e : e ∈ tidied -> usable dir e = true -> exists e', e' ∈ tidied /\ ie_source e' = ie_target e /\ ie_target e' = ie_source e /\
  usable (negb dir) e' = true /\ penalties !z EdgeBasedEdge.turn_id (ie_data e') = penalties !z EdgeBasedEdge.turn_id (ie_data e).
Proof using Hpi Hex ParallelSort0.
  intros He Hu. assert (entry tidied dir (ie_source e) (ie_target e) (weight (ie_data e))) as Hen by (by exists e).
  destruct (tidied_least sort edges extracted_one_way _ _ _ _ Hen) as [Hne Hle].
  assert (entry tidied (negb dir) (ie_target e) (ie_source e) (weight (ie_data e))) as (e' & He' & Hs & Ht & Hu' & Hw)
    by (apply (tidied_entries sort edges extracted_one_way); [congruence|]; by destruct dir).
  exists e'. split_and!; try done. destruct (tidied_penalty dir e He Hu) as (nw & pen & K1 & K2 & _ & K4).
  destruct (tidied_penalty (negb dir) e' He' Hu') as (nw' & pen' & L1 & L2 & _ & L4).
  assert (nw' = nw) as -> by (destruct dir; simpl in *; congruence). rewrite K2, L2. f_equal. lia.
Qed.

(** ** The facades *)

Context (class_data : list Z) (Hcd : zlen class_data = nodes) (Hbytes : forall c, c ∈ class_data -> 0 <= c).

Lemma tidied_customization mask : customization_input mlp levels nodes maxw tidied (filter_of class_data mask).
Proof using Hpi Hex Hcd ParallelSort0.
  pose proof extracted_input as Hin. pose proof (tidied_prepared sort edges extracted_one_way) as Hpd. destruct pi_small as [Hsm Hmw].
  pose proof (pi_levels _ _ _ _ Hpi) as Hlv. unfold INVALID_LEVEL_ID in Hlv. split; try apply Hpi.
  - split; try apply Hpi; [lia| | |].
    + intros e He. by destruct (tidied_ends sort nodes edges Hin e He) as [_ ?].
    + intros n. etransitivity; [apply (pd_degree _ _ Hpd)|apply Hex].
    + pose proof (tidied_size sort nodes edges Hin). pose proof (ex_size _ _ _ _ _ Hex). lia.
  - unfold filter_of, zlen in *. by rewrite length_fmap.
  - intros e He Hf. destruct (tidied_least sort edges extracted_one_way true (ie_source e) (ie_target e) (weight (ie_data e))) as [_ [Ha _]]; [by exists e|].
    apply extracted_arc in Ha as (e0 & He0 & _ & _ & <-). by apply (ex_weight _ _ _ _ _ Hex).
  - intros e He Hf. destruct (tidied_mirror true e He Hf) as (e' & He' & Hs & Ht & Hu & _). by exists e'.
Qed.

Lemma clear_flags_get v w : node_weights !z v = Some w -> 0 <= w < 2 ^ 31 -> clear_flags node_weights !z v = Some w.
Proof.
  intros Hv Hw. unfold clear_flags. rewrite zget_fmap, Hv. simpl. f_equal. change 2147483647 with (Z.ones 31). rewrite Z.land_ones by lia. by apply Z.mod_small.
Qed.

Lemma tidied_query mask : 0 <= mask -> query_input nodes tidied (filter_of class_data mask) (clear_flags node_weights) penalties class_data mask.
Proof using Hpi Hex Hbytes ParallelSort0.
  intros Hmask. split.
  - intros e He Hf. destruct (tidied_penalty true e He Hf) as (nw & pen & K1 & K2 & K3 & K4). exists nw, pen. split_and!; try done. by apply clear_flags_get.
  - intros e He Hf. exact (tidied_mirror true e He Hf).
  - intros e He Hb. exact (tidied_mirror false e He Hb).
  - unfold filter_of. apply list_fmap_ext. intros i c Hc%list_elem_of_lookup_2. specialize (Hbytes c Hc).
    assert (0 <= Z.land c mask) by (apply Z.land_nonneg; by left). destruct (Z.eqb_spec (Z.land c mask) 0), (Z.ltb_spec 0 (Z.land c mask)); simpl; lia || done.
Qed.

Lemma loaded_holds : holds_edges nodes tidied (LoadEdgeBasedGraph sort nodes edges).
Proof using Hpi Hex ParallelSort0.
  destruct (loaded_graph sort nodes edges extracted_input) as (Hwf & Hn & Hadj). split; [done|done|]. intros u Hu. simpl. by rewrite (Hadj u Hu).
Qed.

(** The graph, the cells and the metrics of all masks. *)
Context (parallel_sort : sort_function) `{!ParallelSort parallel_sort}.
Context {St H Handle : Type} `{SL : IndexStorageLaws St, HL : MutableHeapLaws H Handle}.
Context (schedule : Z -> list Z) (Hschedule : forall l, 1 <= l <= levels -> schedule l ≡ₚ seqZ 0 (num_cells mlp l)).
Context (q0 : QueryHeap St H Handle CellCustomizer.HeapData) (M0 : gmap Z (qentry CellCustomizer.HeapData)) (r0 : Z).
Context (Hq0 : good nodes q0 M0 (searches mlp nodes (Z.to_nat levels) 1) r0) (Hr0 : nodes + 1 < r0).

Abbreviation gp := (LoadEdgeBasedGraph sort nodes edges).

Lemma loaded_storage : exists g st, LoadAndUpdateEdgeExpandedGraph parallel_sort sort mlp nodes edges = Some g /\
  CellStorage_new forward backward parallel_sort mlp gp = Some st /\
  forall mask, customizable gp g mlp st (filter_of class_data mask) levels nodes (nodes * maxw).
Proof using Hpi Hex Hcd ParallelSort0 ParallelSort1.
  destruct (constructed_customizable_on parallel_sort mlp levels nodes maxw tidied _ (tidied_customization 0) gp loaded_holds) as (g & st & Eg & Est & _).
  exists g, st. split; [done|]. split; [done|]. intros mask.
  destruct (constructed_customizable_on parallel_sort mlp levels nodes maxw tidied _ (tidied_customization mask) gp loaded_holds) as (g' & st' & Eg' & Est' & Hcu).
  assert (g' = g) as -> by congruence. assert (st' = st) as -> by congruence. done.
Qed.

Lemma metrics_ok g st masks : (forall mask, customizable gp g mlp st (filter_of class_data mask) levels nodes (nodes * maxw)) ->
  exists metrics, customizeFilteredMetrics mlp schedule q0 g st (filter_of class_data <$> masks) = Some metrics /\
    Forall2 (fun mask m => customized_metric gp g mlp st (filter_of class_data mask) levels m) masks metrics.
Proof using Hschedule Hq0 Hr0.
  intros Hcu. induction masks as [|mask masks (metrics & E & HF)]; [by exists []|]. cbn [fmap list_fmap customizeFilteredMetrics].
  destruct (Customize_all_ok _ _ _ _ _ _ _ _ (Hcu mask) r0 Hr0 schedule Hschedule q0 M0 Hq0) as (m & -> & Hm). cbn [mbind option_bind].
  rewrite E. cbn [mbind option_bind]. exists (m :: metrics). split; [done|]. by constructor.
Qed.

(** ** From the edges of the extractor to the entries of the graph *)

(** With a lightest entry per pair of nodes, walks over the edges are at least
    as heavy as walks over the entries. *)
Lemma drive_open (mask : Z) (ok : Z -> Prop) : (forall v, is_allowed (filter_of class_data mask) v <-> ok v) ->
  (forall u v w, drive tidied (filter_of class_data mask) u v w -> open_arc edges ok u v w) /\
  forall u v p, walk (open_arc edges ok) u v p -> exists p', walk (drive tidied (filter_of class_data mask)) u v p' /\ p' <= p.
Proof using Hpi Hex ParallelSort0.
  intros Hok. split.
  - intros u v w (Hu & Hv & e & He & <- & <- & Hf & <-). split; [by apply Hok|]. split; [by apply Hok|].
    destruct (tidied_least sort edges extracted_one_way true (ie_source e) (ie_target e) (weight (ie_data e))) as [_ [Ha _]]; [by exists e|].
    by apply extracted_arc in Ha.
  - induction 1 as [n|s u t p w Hw (p' & Hp' & Hle) (Hu & Ht & Ha)]; [by exists 0; split; [constructor|]|].
    apply extracted_arc in Ha. destruct (decide (u = t)) as [->|Hne].
    + exists p'. split; [done|]. apply extracted_arc in Ha as (e & He & _ & _ & <-). destruct (ex_weight _ _ _ _ _ Hex e He) as [? _]. lia.
    + destruct (tidied_keeps sort edges extracted_one_way true u t w Ha Hne) as [w' Hen].
      destruct (tidied_least sort edges extracted_one_way true u t w' Hen) as [_ [_ Hmin]]. exists (p' + w'). split; [|specialize (Hmin w Ha); lia].
      destruct Hen as (e & He & Hs & Htt & Hf & Hwe). eapply walk_snoc; [exact Hp'|]. split; [by apply Hok|]. split; [by apply Hok|]. by exists e.
Qed.

Lemma drive_request mask ok sources targets W : (forall v, is_allowed (filter_of class_data mask) v <-> ok v) ->
  drive_route tidied (filter_of class_data mask) sources targets W -> request_route edges ok sources targets W.
Proof using Hpi Hex ParallelSort0.
  intros Hok (s & t & ws & wt & p & Hs & Ht & Hw & ->). exists s, t, ws, wt, p. split_and!; try done.
  eapply walk_mono; [|exact Hw]. apply (proj1 (drive_open mask ok Hok)).
Qed.

(** The search on the facade of a mask. *)
Lemma request_ok g st mask m qg ok node_durations node_distances (q q' : QueryHeap St H Handle HeapData) sources targets low high c r c' r' :
  LoadAndUpdateEdgeExpandedGraph parallel_sort sort mlp nodes edges = Some g ->
  customizable gp g mlp st (filter_of class_data mask) levels nodes (nodes * maxw) ->
  customized_metric gp g mlp st (filter_of class_data mask) levels m -> 0 <= mask ->
  QueryGraph_new g (clear_flags node_weights) node_durations node_distances = Some qg ->
  (forall v, is_allowed (filter_of class_data mask) v <-> ok v) ->
  request_ends edges ok nodes (nodes * maxw) sources targets low high ->
  good nodes q ∅ (c + clears nodes (Z.to_nat levels)) r -> good nodes q' ∅ (c' + clears nodes (Z.to_nat levels)) r' ->
  0 <= c -> 0 <= c' -> nodes + 1 < r -> nodes + 1 < r' ->
  let facade := mkDataFacade qg mlp st m penalties class_data mask in
  exists f rv q2 q2' W ns es, insertNodesInHeaps q q' sources targets = Some (f, rv) /\
    search (search_depth facade) facade f rv [] [] INVALID_EDGE_WEIGHT (Candidates sources targets) = Some (q2, q2', W, ns, es) /\
    request_answer edges ok qg sources targets W ns es.
Proof using Hpi Hex Hcd Hbytes ParallelSort0 ParallelSort1 SL HL.
  intros Eg Hcu Hcm Hmask Eqg Hok Hre Gq Gq' Hc Hc' Hr Hr' facade. destruct (drive_open mask ok Hok) as [Harc Hwalk].
  assert (query_ends tidied (filter_of class_data mask) nodes (nodes * maxw) sources targets low high) as Hqe.
  { destruct Hre as [K1 K2 K3 K4 K5 K6 K7]. split; try done. intros dir s w Hs. destruct (K5 dir s w Hs). split; [by apply Hok|done]. }
  assert (nonneg_request edges ok sources targets -> nonneg_drives tidied (filter_of class_data mask) sources targets) as Hnn
    by (intros Hpos W HW; by eapply Hpos, drive_request).
  destruct (mld_query_ok parallel_sort mlp levels nodes maxw tidied _ (tidied_customization mask) (clear_flags node_weights) node_durations node_distances
    penalties class_data mask (tidied_query mask Hmask) gp g st m qg q q' sources targets low high c r c' r' Eg Hcu Hcm Eqg Hqe
    (proj1 pi_small) (pi_levels _ _ _ _ Hpi) Gq Gq' Hc Hc' Hr Hr') as (f & rv & q2 & q2' & W & ns & es & E1 & E2 & Hans).
  exists f, rv, q2, q2', W, ns, es. split; [done|]. split; [done|].
  assert (forall W', request_route edges ok sources targets W' -> exists W'', drive_route tidied (filter_of class_data mask) sources targets W'' /\ W'' <= W') as Hdown.
  { intros W' (s & t & ws & wt & p & Hs & Ht & Hw & ->). destruct (Hwalk s t p Hw) as (p' & Hp' & Hle). exists (ws + p' + wt). split; [|lia].
    exists s, t, ws, wt, p'. by split_and!. }
  destruct Hans as [(-> & -> & -> & Hno)|(HW0 & Hal & Hall)]; [left|right].
  - split_and!; [done..|]. intros Hpos W' (W'' & HW & _)%Hdown. by apply (Hno (Hnn Hpos) W'').
  - split; [done|]. split; [|intros Hpos W' (W'' & HW & Hle)%Hdown; specialize (Hall (Hnn Hpos) W'' HW); lia].
    destruct Hal as (s & t & ws & wt & p & Hs & Ht & Hh & Hl & Hch & Hj & Hle & HW). exists s, t, ws, wt, p. split_and!; try done; [|intros Hpos; by apply HW, Hnn].
    clear -Hch Harc. induction Hch as [|a b L w p He Hc IH]; constructor; [by apply Harc|done].
Qed.

(** What [Run] leaves for the requests. *)
Lemma customizer_run_ok g st node_durations node_distances p masks :
  LoadAndUpdateEdgeExpandedGraph parallel_sort sort mlp nodes edges = Some g ->
  (forall mask, customizable gp g mlp st (filter_of class_data mask) levels nodes (nodes * maxw)) ->
  excludeFlagsToNodeFilter (zlen class_data) class_data p = Some (filter_of class_data <$> masks) ->
  exists metrics qg, Run parallel_sort sort schedule q0 mlp nodes edges node_weights node_durations node_distances st class_data p = Some (metrics, qg) /\
    Forall2 (fun mask m => customized_metric gp g mlp st (filter_of class_data mask) levels m) masks metrics /\
    QueryGraph_new g (clear_flags node_weights) node_durations node_distances = Some qg.
Proof using Hpi Hex Hcd Hschedule Hq0 Hr0 ParallelSort0 ParallelSort1.
  intros Eg Hcu Ef. destruct (metrics_ok g st masks Hcu) as (metrics & Em & HF).
  destruct (built_ranges parallel_sort mlp levels nodes maxw tidied _ (tidied_customization 0) g Eg) as [Hwf _].
  destruct (QueryGraph_new_ok g Hwf (clear_flags node_weights) node_durations node_distances) as (qg & Eqg & _).
  exists metrics, qg. split; [|by split]. unfold Run. rewrite Eg. cbn [mbind option_bind].
  rewrite (cu_num _ _ _ _ _ _ _ _ (Hcu 0)), <- Hcd, Ef. cbn [mbind option_bind]. rewrite Em. cbn [mbind option_bind]. by rewrite Eqg.
Qed.

(** The facade of a request and its mask. *)
Lemma facade_of qg st metrics p i f : facades qg mlp st metrics penalties class_data p !! i = Some f -> exists metric mask,
  metrics !! i = Some metric /\ excludable_classes p !! i = Some mask /\ f = mkDataFacade qg mlp st metric penalties class_data mask.
Proof. unfold facades. rewrite lookup_zip_with_Some. intros (x & y & -> & Hx & Hy). by exists x, y. Qed.

Lemma mask_of_nonneg m combinations mask : classes_ok m -> mask ∈ 0 :: masks_of m combinations -> 0 <= mask.
Proof.
  intros Hm [->|Hx]%elem_of_cons; [done|]. unfold masks_of in Hx. apply list_elem_of_filter in Hx as [_ (c & -> & _)%list_elem_of_fmap]. by apply mask_nonneg.
Qed.

Lemma filter_class_free mask m exclude v :
  (forall c, Z.land c mask = 0 <-> forall name cm, name ∈ exclude -> m !! name = Some cm -> Z.land c cm = 0) ->
  is_allowed (filter_of class_data mask) v <-> class_free class_data m exclude v.
Proof.
  intros Hc. unfold is_allowed, filter_of, class_free. rewrite zget_fmap. destruct (class_data !z v) as [c|]; simpl.
  - split; [intros [= E%Z.eqb_eq]; exists c; split; [done|by apply Hc]|]. intros (? & [= <-] & Hx). f_equal. by apply Z.eqb_eq, Hc.
  - split; [done|by intros (? & ? & _)].
Qed.

End input.

(** ** Concrete data *)

(** Turns between the nodes of the example of the partition; every node weighs 1. *)
Definition city_turns : list (InputEdge EdgeData) :=
  [turn 2 4 2 0; turn 4 3 3 1; turn 3 5 2 2; turn 2 0 5 3; turn 0 3 4 4; turn 0 1 2 5; turn 1 0 2 6; turn 3 4 3 7; turn 5 5 9 8].
Definition city_penalties : list Z := [1; 2; 1; 4; 3; 1; 1; 2; 8].
Definition city_classes : list Z := [0; 1; 0; 0; 2; 0].

Lemma city_all (P : InputEdge EdgeData -> Prop) : Forall P city_turns -> forall e, e ∈ city_turns -> P e.
Proof. apply Forall_forall. Qed.

Lemma city_extracted : extracted 6 9 city_turns (replicate 6 1) city_penalties.
Proof.
  split.
  - apply city_all. repeat constructor; simpl; lia.
  - apply city_all. repeat constructor.
  - apply city_all. unfold city_turns. repeat apply Forall_cons_2; [..|apply Forall_nil_2]; (split; [simpl; lia|]; eexists _, _; split; [reflexivity|]; split; [reflexivity|]; simpl; lia).
  - intros e e' He He' _ _ _. assert (forall x, x ∈ city_turns -> replicate 6 1 !z ie_source x = Some 1) as Hc; [|by rewrite !Hc].
    apply city_all. repeat constructor.
  - intros n. etransitivity; [apply filter_length|]. by vm_compute.
  - by vm_compute.
Qed.

Lemma city_partition mlp : MultiLevelPartition_new example_partitions [4; 3] = Some (Some mlp) -> partition_input mlp 2 6 9.
Proof.
  intros E. destruct (road_input mlp E) as [[K1 K2 K3 K4 K5 K6 _ _ _ K7] K8 K9 _ _ _ _ _ K10]. by split.
Qed.

(** Without the classes of 1 and 4. *)
Abbreviation city_free m := (class_free city_classes m [letter 1; letter 0]).

Lemma city_ends m : m !! letter 0 = Some 1 -> m !! letter 1 = Some 2 ->
  request_ends city_turns (city_free m) 6 54 [phantom_at 2] [phantom_at 5] 0 0.
Proof.
  intros H0 H1. assert (forall v c, city_classes !z v = Some c -> Z.land c 1 = 0 -> Z.land c 2 = 0 -> city_free m v) as Hfree.
  { intros v c Hc Hc1 Hc2. exists c. split; [done|]. intros name cm [->|[->|Hn%elem_of_nil]%elem_of_cons]%elem_of_cons Hm; [..|done]; congruence. }
  assert (end_list [phantom_at 2] [phantom_at 5] true = [(2, 0)]) as E1 by reflexivity.
  assert (end_list [phantom_at 2] [phantom_at 5] false = [(5, 0)]) as E2 by reflexivity. split.
  - intros s [Hs|Hs]; apply list_elem_of_singleton in Hs; simpl in Hs; lia.
  - exists 2. by left.
  - exists 5. by left.
  - intros []; rewrite ?E1, ?E2; apply NoDup_singleton.
  - intros [] s w; rewrite ?E1, ?E2; intros [= -> ->]%list_elem_of_singleton; (split; [by apply (Hfree _ 0)|lia]).
  - lia.
  - lia.
Qed.

Lemma city_nonneg m : nonneg_request city_turns (city_free m) [phantom_at 2] [phantom_at 5].
Proof.
  intros W (s & t & ws & wt & p & Hs & Ht & Hw & ->). change (end_list _ _ true) with [(2, 0)] in Hs. change (end_list _ _ false) with [(5, 0)] in Ht.
  apply list_elem_of_singleton in Hs as [= -> ->], Ht as [= -> ->]. assert (0 <= p); [|lia].
  eapply walk_nonneg; [|exact Hw]. intros u v x (_ & _ & e & He & _ & _ & <-). revert e He. apply city_all. repeat constructor; done.
Qed.

(** The way around 4. *)
Lemma city_route m : m !! letter 0 = Some 1 -> m !! letter 1 = Some 2 -> request_route city_turns (city_free m) [phantom_at 2] [phantom_at 5] 11.
Proof.
  intros H0 H1. assert (forall v, v ∈ [2; 0; 3; 5] -> city_free m v) as Hfree.
  { intros v Hv. exists 0. split; [revert v Hv; apply Forall_forall; repeat constructor|]. intros. apply Z.land_0_l. }
  exists 2, 5, 0, 0, 11. split; [by left|]. split; [by left|]. split; [|done].
  assert (forall i e, city_turns !! i = Some e -> ie_source e ∈ [2; 0; 3; 5] -> ie_target e ∈ [2; 0; 3; 5] ->
    open_arc city_turns (city_free m) (ie_source e) (ie_target e) (weight (ie_data e))) as Harc.
  { intros i e He Hs Ht. split; [by apply Hfree|]. split; [by apply Hfree|]. exists e. split; [by eapply list_elem_of_lookup_2|done]. }
  apply (chain_walk _ [2; 0; 3; 5]); [|done|done]. change 11 with (5 + (4 + (2 + 0))).
  apply chain_cons; [apply (Harc 3%nat (turn 2 0 5 3)); (done || set_solver)|]. apply chain_cons; [apply (Harc 4%nat (turn 0 3 4 4)); (done || set_solver)|].
  apply chain_cons; [apply (Harc 2%nat (turn 3 5 2 2)); (done || set_solver)|]. apply chain_one.
Qed.


(** A target behind its source on the road of 4, between them a weight of 1: the
    meeting at 4 itself is refused, and the answer is the way around by 3. *)
Definition city_query (sources targets : list PhantomNode) : option (Z * list Z) :=
  mlp ← (MultiLevelPartition_new example_partitions [4; 3] ≫= id);
  st ← CellStorage_new forward backward sequential_sort mlp (LoadEdgeBasedGraph sequential_sort 6 city_turns);
  '(metrics, qg) ← Run sequential_sort sequential_sort (fun l => seqZ 0 (num_cells mlp l))
    (QueryHeap_new (ArrayStorage_new 6) : QueryHeap ArrayStorage RefHeap Z CellCustomizer.HeapData)
    mlp 6 city_turns (replicate 6 1) [] [] st (replicate 6 0) (mkProfileProperties [] [0]);
  facade ← facades qg mlp st metrics city_penalties (replicate 6 0) (mkProfileProperties [] [0]) !! 0%nat;
  '(f, rv) ← insertNodesInHeaps (QueryHeap_new (ArrayStorage_new 6) : QueryHeap ArrayStorage RefHeap Z HeapData) (QueryHeap_new (ArrayStorage_new 6)) sources targets;
  '(_, _, W, ns, _) ← search (search_depth facade) facade f rv [] [] INVALID_EDGE_WEIGHT (Candidates sources targets);
  Some (W, ns).

Definition end_of (segment : Z) : PhantomNode :=
  mkPhantomNode (mkSegmentID segment true) (mkSegmentID 0 false) 1 0 0 0 0 0 0 true true false false.

Example behind_the_source : end_list [end_of 4] [phantom_at 4] true = [(4, -1)] /\ end_list [end_of 4] [phantom_at 4] false = [(4, 0)] /\
  city_query [end_of 4] [phantom_at 4] = Some (5, [4; 3; 4]).
Proof. by vm_compute. Qed.

(** Opposite turns of the same weight whose nodes weigh differently: 4 + 6
    from 0 to 1 and 7 + 3 back.  Both entries are merged at both ends, and the
    reverse search takes the penalty of the wrong turn. *)
Definition merged_turns : list (InputEdge EdgeData) := [turn 0 1 10 0; turn 1 0 10 1; turn 2 0 5 2].
Definition merged_answer (s t : Z) : option (Z * list Z) :=
  mlp ← (MultiLevelPartition_new example_partitions [4; 3] ≫= id);
  st ← CellStorage_new forward backward sequential_sort mlp (LoadEdgeBasedGraph sequential_sort 6 merged_turns);
  '(metrics, qg) ← Run sequential_sort sequential_sort (fun l => seqZ 0 (num_cells mlp l))
    (QueryHeap_new (ArrayStorage_new 6) : QueryHeap ArrayStorage RefHeap Z CellCustomizer.HeapData)
    mlp 6 merged_turns [4; 7; 5; 0; 0; 0] [] [] st (replicate 6 0) (mkProfileProperties [] [0]);
  facade ← facades qg mlp st metrics [6; 3; 0] (replicate 6 0) (mkProfileProperties [] [0]) !! 0%nat;
  '(f, rv) ← insertNodesInHeaps (QueryHeap_new (ArrayStorage_new 6) : QueryHeap ArrayStorage RefHeap Z HeapData) (QueryHeap_new (ArrayStorage_new 6))
      [phantom_at s] [phantom_at t];
  '(_, _, W, ns, _) ← search (search_depth facade) facade f rv [] [] INVALID_EDGE_WEIGHT (Candidates [phantom_at s] [phantom_at t]);
  Some (W, ns).

Theorem merged_turns_understated : merged_answer 2 1 = Some (12, [2; 0; 1]) /\
  forall p, walk (open_arc merged_turns (fun _ => True)) 2 1 p -> 15 <= p.
Proof.
  split; [by vm_compute|]. assert (forall s t p, walk (open_arc merged_turns (fun _ => True)) s t p ->
    let height v := if v =? 2 then 0 else if v =? 0 then 5 else 15 in height t - height s <= p) as H; [|intros p Hp; exact (H 2 1 p Hp)].
  induction 1 as [n|s u t p w Hw IH (_ & _ & e & He & <- & <- & <-)]; cbv zeta in *; [lia|].
  assert (forall e, e ∈ merged_turns -> let height v := if v =? 2 then 0 else if v =? 0 then 5 else 15 in
    height (ie_target e) - height (ie_source e) <= weight (ie_data e)) as Hall by (apply Forall_forall; repeat constructor; done).
  specialize (Hall e He). cbv zeta in Hall. lia.
Qed.
