(* ===== verification/RouteAnnotation.v ===== *)
(** * From a path to the segments of a route

    Model of [annotatePath] and [extractRoute] of
    include/engine/routing_algorithms/routing_base.hpp, of
    include/engine/internal_route_result.hpp and of the multi-level
    [directShortestPathSearch]: the nodes and edges of a path become the segments
    of the roads between the phantom nodes, with the weights of the live traffic, and legs
    without a waypoint between them are joined.  The theorems say when the
    weights of the segments add up to the weight that the search returned. *)
From S2P Require Import Prelude Walks Sorting QueryHeap.
From S2P Require Import LiveTraffic Doubles.
From S2P Require Import DynamicGraph StaticGraph GraphInterface EdgeBasedEdge MultiLevelPartition MultiLevelGraph CellStorage.
From S2P Require Import RoutingBase SegmentData Relaxing MldSearch Classes EdgeBasedGraphReader CellCustomizer Customization MldBuilt Customizer.
From S2P Require Import LiveTraffic RoutingBase SegmentData.

(** ** Results *)

Record PathData : Type := mkPathData {
  from_edge_based_node : Z;
  turn_via_node : Z;
  weight_until_turn : Z;
  weight_of_turn : Z;
  duration_until_turn : Z;
  duration_of_turn : Z;
  datasource_id : Z;
  turn_edge : option Z
}.

Record PhantomEndpoints : Type := mkPhantomEndpoints { source_phantom : PhantomNode; target_phantom : PhantomNode }.

Record InternalRouteResult : Type := mkInternalRouteResult {
  unpacked_path_segments : list (list PathData);
  leg_endpoints : list PhantomEndpoints;
  source_traversed_in_reverse : list bool;
  target_traversed_in_reverse : list bool;
  shortest_path_weight : Z
}.

Definition InternalRouteResult_new : InternalRouteResult := mkInternalRouteResult [] [] [] [] INVALID_EDGE_WEIGHT.

Definition is_valid (r : InternalRouteResult) : bool := negb (INVALID_EDGE_WEIGHT =? shortest_path_weight r).

Definition is_via_leg (r : InternalRouteResult) (leg : Z) : bool := negb (leg =? wrap 64 (zlen (unpacked_path_segments r) - 1)).

Definition duration (r : InternalRouteResult) : Z :=
  foldl (fun ret leg => foldl (fun ret segment => weight_add ret (duration_until_turn segment)) ret leg) 0 (unpacked_path_segments r).

(** ** Annotation *)

(** What [annotatePath] reads of the data facade; [turn_of_edge] is the turn
    of an edge of the graph of the queries. *)
Record AnnotationFacade : Type := mkAnnotationFacade {
  turn_of_edge : Z -> option Z;
  geometry_index : list GeometryID;
  segment_data : SegmentDataContainer;
  weight_penalties : list Z;
  duration_penalties : list Z
}.

Section annotate.
Context (facade : AnnotationFacade) (live : LiveDataStore).

(** The vertices, weights, durations and sources of a geometry. *)
Definition get_segment_geometry (geometry : GeometryID) : option (list Z * list Z * list Z * list Z) :=
  let id := geometry_id geometry in
  if geometry_forward geometry then
    id_vector ← GetForwardGeometry (segment_data facade) id;
    weights ← GetForwardWeights (segment_data facade) id;
    duration_vector ← GetForwardDurations (segment_data facade) id;
    datasource_vector ← GetForwardDatasources (segment_data facade) id;
    weight_vector ← ApplyLiveTrafficToSegmentWeights live id weights;
    Some (id_vector, weight_vector, duration_vector, datasource_vector)
  else
    id_vector ← GetReverseGeometry (segment_data facade) id;
    weights ← GetReverseWeights (segment_data facade) id;
    duration_vector ← GetReverseDurations (segment_data facade) id;
    datasource_vector ← GetReverseDatasources (segment_data facade) id;
    weight_vector ← ApplyLiveTrafficToSegmentWeights live id weights;
    Some (id_vector, weight_vector, duration_vector, datasource_vector).

(** The segment at an index, which leads to the vertex at [vertex]. *)
Definition segment (node : Z) (geometry : list Z * list Z * list Z * list Z) (segment_idx vertex : Z) : option PathData :=
  let '(id_vector, weight_vector, duration_vector, datasource_vector) := geometry in
  via ← id_vector !z vertex;
  weight ← weight_vector !z segment_idx;
  duration ← duration_vector !z segment_idx;
  datasource ← datasource_vector !z segment_idx;
  Some (mkPathData node via (swrap 32 weight) 0 (swrap 32 duration) 0 datasource None).

(** The segments from one index to another; [fuel] bounds the distance by the
    number of segments, beyond which the first access is undefined. *)
Fixpoint segments_up (fuel : nat) (node : Z) (geometry : list Z * list Z * list Z * list Z) (segment_idx end_index : Z) : option (list PathData) :=
  if segment_idx =? end_index then Some []
  else match fuel with
       | O => None
       | S fuel => s ← segment node geometry segment_idx (segment_idx + 1);
                   rest ← segments_up fuel node geometry (segment_idx + 1) end_index;
                   Some (s :: rest)
       end.

Fixpoint segments_down (fuel : nat) (node : Z) (geometry : list Z * list Z * list Z * list Z) (segment_idx end_index : Z) : option (list PathData) :=
  if segment_idx =? end_index then Some []
  else match fuel with
       | O => None
       | S fuel => s ← segment node geometry segment_idx (segment_idx - 1);
                   rest ← segments_down fuel node geometry (segment_idx - 1) end_index;
                   Some (s :: rest)
       end.

Abbreviation weights_of geometry := (snd (fst (fst geometry))).

(** The turn at the end of the last segment so far. *)
Definition add_turn (unpacked_path : list PathData) (turn_id turn_weight turn_duration : Z) : option (list PathData) :=
  match reverse unpacked_path with
  | [] => None
  | back :: front =>
      Some (reverse (mkPathData (from_edge_based_node back) (turn_via_node back) (weight_add (weight_until_turn back) turn_weight) turn_weight
              (weight_add (duration_until_turn back) turn_duration) turn_duration (datasource_id back) (Some turn_id) :: front))
  end.

(** The position of a phantom node in the direction of travel, as an
    [unsigned short] and as a [std::size_t]. *)
Definition start_position (start_traversed_in_reverse : bool) (source : PhantomNode) (size : Z) : Z :=
  if start_traversed_in_reverse then wrap 16 (size - fwd_segment_position source - 1) else fwd_segment_position source.

Definition end_position (traversed_in_reverse : bool) (phantom : PhantomNode) (size : Z) : Z :=
  if traversed_in_reverse then wrap 64 (size - fwd_segment_position phantom - 1) else fwd_segment_position phantom.

(** The loop over the nodes of the path but the last. *)
Fixpoint annotate_turns (source : PhantomNode) (start_traversed_in_reverse : bool) (unpacked_nodes unpacked_edges : list Z) (unpacked_path : list PathData)
  : option (list PathData) :=
  match unpacked_nodes with
  | node_id :: ((_ :: _) as nodes) =>
      match unpacked_edges with
      | [] => None
      | edge :: edges =>
          turn_id ← turn_of_edge facade edge;
          geometry_id ← geometry_index facade !z node_id;
          geometry ← get_segment_geometry geometry_id;
          let size := zlen (weights_of geometry) in
          let start_index := if bool_decide (unpacked_path = []) then start_position start_traversed_in_reverse source size else 0 in
          segments ← (if start_index <? size then segments_up (length (weights_of geometry)) node_id geometry start_index size else Some []);
          turn_duration ← duration_penalties facade !z turn_id;
          turn_weight ← weight_penalties facade !z turn_id;
          unpacked_path' ← add_turn (unpacked_path ++ segments) turn_id turn_weight turn_duration;
          annotate_turns source start_traversed_in_reverse nodes edges unpacked_path'
      end
  | _ => Some unpacked_path
  end.

(** The segments of the last node, up to that of the target. *)
Definition annotate_target (source target : PhantomNode) (source_node_id target_node_id : Z) (target_traversed_in_reverse : bool)
    (unpacked_path : list PathData) : option (list PathData) :=
  source_geometry ← geometry_index facade !z source_node_id;
  target_geometry ← geometry_index facade !z target_node_id;
  let is_local_path := (geometry_id source_geometry =? geometry_id target_geometry) && bool_decide (unpacked_path = []) in
  geometry ← get_segment_geometry target_geometry;
  let size := zlen (weights_of geometry) in
  let start_index := if is_local_path then end_position target_traversed_in_reverse source size else 0 in
  let end_index := end_position target_traversed_in_reverse target size in
  segments ← (if start_index <? end_index then segments_up (length (weights_of geometry)) target_node_id geometry start_index end_index
              else segments_down (length (weights_of geometry)) target_node_id geometry start_index end_index);
  Some (unpacked_path ++ segments).

(** The first segment begins at the phantom node; nothing becomes negative. *)
Definition trim_front (source : PhantomNode) (start_traversed_in_reverse : bool) (unpacked_path : list PathData) : list PathData :=
  match unpacked_path with
  | [] => []
  | front :: rest =>
      let source_weight := if start_traversed_in_reverse then reverse_weight source else forward_weight source in
      let source_duration := if start_traversed_in_reverse then reverse_duration source else forward_duration source in
      mkPathData (from_edge_based_node front) (turn_via_node front) (Z.max (swrap 32 (weight_until_turn front - source_weight)) 0) (weight_of_turn front)
        (Z.max (swrap 32 (duration_until_turn front - source_duration)) 0) (duration_of_turn front) (datasource_id front) (turn_edge front) :: rest
  end.

(** [annotatePath] after the aggregation of the traffic. *)
Definition annotate (endpoints : PhantomEndpoints) (unpacked_nodes unpacked_edges : list Z) : option (list PathData) :=
  source_node_id ← head unpacked_nodes;
  target_node_id ← last unpacked_nodes;
  let start_traversed_in_reverse := negb (segment_id (forward_segment_id (source_phantom endpoints)) =? source_node_id) in
  let target_traversed_in_reverse := negb (segment_id (forward_segment_id (target_phantom endpoints)) =? target_node_id) in
  turns ← annotate_turns (source_phantom endpoints) start_traversed_in_reverse unpacked_nodes unpacked_edges [];
  unpacked_path ← annotate_target (source_phantom endpoints) (target_phantom endpoints) source_node_id target_node_id target_traversed_in_reverse turns;
  Some (trim_front (source_phantom endpoints) start_traversed_in_reverse unpacked_path).
End annotate.

(** ** The route of a request *)

Section route.
Context (facade : AnnotationFacade) (traffic : Facade) (iterate : user_map -> list (Z * TrafficSample)).

(** The path and the traffic after the aggregation; the clock is read twice. *)
Definition annotatePath (live : LiveDataStore) (now_ms now_ms' : Z) (endpoints : PhantomEndpoints) (unpacked_nodes unpacked_edges : list Z)
  : option (list PathData * LiveDataStore) :=
  live' ← AggregatePendingTrafficSamples traffic iterate live (stale_seconds live) now_ms now_ms';
  path ← annotate facade live' endpoints unpacked_nodes unpacked_edges;
  Some (path, live').

Definition extractRoute (live : LiveDataStore) (now_ms now_ms' weight : Z) (sources targets : list PhantomNode) (unpacked_nodes unpacked_edges : list Z)
  : option (InternalRouteResult * LiveDataStore) :=
  if INVALID_EDGE_WEIGHT =? weight then Some (InternalRouteResult_new, live)
  else
    '(source, target) ← endpointsFromCandidates sources targets unpacked_nodes;
    front ← head unpacked_nodes;
    back ← last unpacked_nodes;
    '(path, live') ← annotatePath live now_ms now_ms' (mkPhantomEndpoints source target) unpacked_nodes unpacked_edges;
    Some (mkInternalRouteResult [path] [mkPhantomEndpoints source target] [negb (front =? segment_id (forward_segment_id source))]
            [negb (back =? segment_id (forward_segment_id target))] weight, live').
End route.

(** What the facade of the multi-level search shows to the annotation. *)
Definition annotation_of (facade : Mld.DataFacade) (geometry_index : list GeometryID) (segment_data : SegmentDataContainer) (duration_penalties : list Z)
  : AnnotationFacade :=
  mkAnnotationFacade (fun edge => d ← Static.GetEdgeData (Multi.base (Mld.super (Mld.query_graph facade))) edge; Some (Mld.turn_id d))
    geometry_index segment_data (Mld.turn_weight_penalties facade) duration_penalties.

(** [directShortestPathSearch] of the multi-level algorithm, with the queues of
    the last search. *)
Definition directShortestPathSearch {St H Handle} `{IndexStorage St, MutableHeap H Handle} (facade : Mld.DataFacade) (geometry_index : list GeometryID)
    (segment_data : SegmentDataContainer) (duration_penalties : list Z) (traffic : Facade) (iterate : user_map -> list (Z * TrafficSample))
    (forward_heap reverse_heap : QueryHeap St H Handle Mld.HeapData) (live : LiveDataStore) (now_ms now_ms' : Z) (sources targets : list PhantomNode)
  : option (InternalRouteResult * LiveDataStore) :=
  '(forward_heap, reverse_heap) ← insertNodesInHeaps (Clear forward_heap) (Clear reverse_heap) sources targets;
  '(_, _, weight, unpacked_nodes, unpacked_edges) ←
    Mld.search (Mld.search_depth facade) facade forward_heap reverse_heap [] [] INVALID_EDGE_WEIGHT (Mld.Candidates sources targets);
  extractRoute (annotation_of facade geometry_index segment_data duration_penalties) traffic iterate live now_ms now_ms' weight sources targets
    unpacked_nodes unpacked_edges.

(** ** Joined legs *)

(** The weights at the source of a leg. *)
Definition source_weight_of (in_reverse : bool) (endpoints : PhantomEndpoints) : Z :=
  if in_reverse then reverse_weight (source_phantom endpoints) else forward_weight (source_phantom endpoints).
Definition source_duration_of (in_reverse : bool) (endpoints : PhantomEndpoints) : Z :=
  if in_reverse then reverse_duration (source_phantom endpoints) else forward_duration (source_phantom endpoints).

(** The first segment of a leg gets back what [annotatePath] took off. *)
Definition restore_front (in_reverse : bool) (endpoints : PhantomEndpoints) (leg : list PathData) : list PathData :=
  match leg with
  | [] => []
  | s :: leg =>
      mkPathData (from_edge_based_node s) (turn_via_node s) (weight_add (weight_until_turn s) (source_weight_of in_reverse endpoints)) (weight_of_turn s)
        (weight_add (duration_until_turn s) (source_duration_of in_reverse endpoints)) (duration_of_turn s) (datasource_id s) (turn_edge s) :: leg
  end.

(** [vector.back()] replaced. *)
Definition set_back {A} (f : A -> A) (l : list A) : option (list A) :=
  match reverse l with [] => None | x :: l => Some (reverse (f x :: l)) end.

(** The loop over the legs; the first argument counts them. *)
Fixpoint collapse_legs (i : Z) (is_waypoint : list bool) (legs : list (list PathData)) (endpoints : list PhantomEndpoints) (sources targets : list bool)
    (collapsed : InternalRouteResult) : option InternalRouteResult :=
  match legs with
  | [] => Some collapsed
  | leg :: legs =>
      waypoint ← is_waypoint !z i;
      e ← head endpoints;
      s ← head sources;
      t ← head targets;
      collapsed' ←
        (if (waypoint : bool) then
           Some (mkInternalRouteResult (unpacked_path_segments collapsed ++ [leg]) (leg_endpoints collapsed ++ [e])
                   (source_traversed_in_reverse collapsed ++ [s]) (target_traversed_in_reverse collapsed ++ [t]) (shortest_path_weight collapsed))
         else
           segments ← set_back (fun last_segment => last_segment ++ restore_front s e leg) (unpacked_path_segments collapsed);
           ends ← set_back (fun e' => mkPhantomEndpoints (source_phantom e') (target_phantom e)) (leg_endpoints collapsed);
           targets' ← set_back (fun _ => t) (target_traversed_in_reverse collapsed);
           Some (mkInternalRouteResult segments ends (source_traversed_in_reverse collapsed) targets' (shortest_path_weight collapsed)));
      collapse_legs (i + 1) is_waypoint legs (tail endpoints) (tail sources) (tail targets) collapsed'
  end.

Definition CollapseInternalRouteResult (leggy_result : InternalRouteResult) (is_waypoint : list bool) : option InternalRouteResult :=
  if zlen (unpacked_path_segments leggy_result) =? 1 then Some leggy_result
  else collapse_legs 0 is_waypoint (unpacked_path_segments leggy_result) (leg_endpoints leggy_result) (source_traversed_in_reverse leggy_result)
         (target_traversed_in_reverse leggy_result) (mkInternalRouteResult [] [] [] [] (shortest_path_weight leggy_result)).

(** ** The whole route as a reference *)

(** A road as it is read for a node. *)
Record Road : Type := mkRoad { r_vertices : list Z; r_weights : list Z; r_durations : list Z; r_sources : list Z }.

(** A node that is left by a turn. *)
Record Stop : Type := mkStop { st_node : Z; st_road : Road; st_turn : Z; st_turn_weight : Z; st_turn_duration : Z }.

(** All segments of a road. *)
Fixpoint zip_segments (node : Z) (vertices weights durations sources : list Z) : list PathData :=
  match vertices, weights, durations, sources with
  | v :: vertices, w :: weights, d :: durations, s :: sources =>
      mkPathData node v (swrap 32 w) 0 (swrap 32 d) 0 s None :: zip_segments node vertices weights durations sources
  | _, _, _, _ => []
  end.

Definition road_segments (node : Z) (r : Road) : list PathData :=
  zip_segments node (tail (r_vertices r)) (r_weights r) (r_durations r) (r_sources r).

(** The last segment with a turn. *)
Definition turned (turn turn_weight turn_duration : Z) (s : PathData) : PathData :=
  mkPathData (from_edge_based_node s) (turn_via_node s) (weight_add (weight_until_turn s) turn_weight) turn_weight
    (weight_add (duration_until_turn s) turn_duration) turn_duration (datasource_id s) (Some turn).

Fixpoint at_last (f : PathData -> PathData) (l : list PathData) : list PathData :=
  match l with [] => [] | [s] => [f s] | s :: l => s :: at_last f l end.

Definition stop_segments (s : Stop) : list PathData :=
  at_last (turned (st_turn s) (st_turn_weight s) (st_turn_duration s)) (road_segments (st_node s) (st_road s)).

(** The stops in full, then the last road up to a position. *)
Definition full_path (stops : list Stop) (node : Z) (r : Road) (position : Z) : list PathData :=
  (stops ≫= stop_segments) ++ take (Z.to_nat position) (road_segments node r).

Lemma at_last_snoc f l s : at_last f (l ++ [s]) = l ++ [f s].
Proof. induction l as [|x l IH]; [done|]. simpl. rewrite IH. by destruct l. Qed.

Lemma at_last_length f l : length (at_last f l) = length l.
Proof. destruct l as [|s l _] using rev_ind; [done|]. by rewrite at_last_snoc, !length_app. Qed.

Lemma at_last_drop f l n : (n < length l)%nat -> at_last f (drop n l) = drop n (at_last f l).
Proof.
  destruct l as [|s l _] using rev_ind; [by intros ?%Nat.nlt_0_r|]. rewrite length_app. simpl. intros Hn.
  rewrite at_last_snoc, !drop_app_le by lia. apply at_last_snoc.
Qed.

Lemma add_turn_ok p l turn tw td : l <> [] -> add_turn (p ++ l) turn tw td = Some (p ++ at_last (turned turn tw td) l).
Proof.
  destruct l as [|s l _] using rev_ind; [done|]. intros _. unfold add_turn. rewrite app_assoc, reverse_snoc, reverse_cons, reverse_involutive, at_last_snoc.
  by rewrite <- app_assoc.
Qed.

(** ** Reading roads *)

Section roads.
Context (facade : AnnotationFacade) (live : LiveDataStore).

(** The road of a node: the geometry of the node in its direction, with the
    weights that the traffic makes of those in the files; they leave room for a turn. *)
Record road_of (node : Z) (r : Road) : Prop := {
  ro_read : exists g ws, geometry_index facade !z node = Some g /\
    geometry_read (segment_data facade) (geometry_id g) (geometry_forward g) (r_vertices r) ws (r_durations r) (r_sources r) /\
    ApplyLiveTrafficToSegmentWeights live (geometry_id g) ws = Some (r_weights r);
  ro_segments : 0 < zlen (r_weights r) < 2 ^ 16;
  ro_vertices : zlen (r_vertices r) = zlen (r_weights r) + 1;
  ro_durations : zlen (r_durations r) = zlen (r_weights r);
  ro_sources : zlen (r_sources r) = zlen (r_weights r);
  ro_weights w : w ∈ r_weights r -> 0 <= w < 2 ^ 30
}.

Lemma road_read node r : road_of node r -> exists g, geometry_index facade !z node = Some g /\
  get_segment_geometry facade live g = Some (r_vertices r, r_weights r, r_durations r, r_sources r).
Proof.
  intros [(g & ws & Hg & [R1 R2 R3 R4 R5 R6 R7 R8] & Hl) _ _ _ _ _]. exists g. split; [done|]. unfold get_segment_geometry. cbv zeta.
  destruct (geometry_forward g); rewrite R1; cbn [mbind option_bind]; rewrite R2; cbn [mbind option_bind]; rewrite R3; cbn [mbind option_bind];
    rewrite R4; cbn [mbind option_bind]; by rewrite Hl.
Qed.

(** A node with a geometry in the files, whose weights fit also when they are ten
    times as heavy. *)
Record drivable (node : Z) (r : Road) : Prop := {
  dr_read : exists g, geometry_index facade !z node = Some g /\
    geometry_read (segment_data facade) (geometry_id g) (geometry_forward g) (r_vertices r) (r_weights r) (r_durations r) (r_sources r);
  dr_segments : zlen (r_weights r) < 2 ^ 16;
  dr_weights w : w ∈ r_weights r -> 0 <= w;
  dr_total : 10 * total (r_weights r) < 2 ^ 30
}.

(** With sound factors every such node has a road. *)
Lemma drivable_road node f : (forall g e, LiveTraffic.segments live !! g = Some e -> factor_ok (e_weight_factor e)) -> drivable node f ->
  exists r, road_of node r /\ r_vertices r = r_vertices f /\ r_durations r = r_durations f /\ r_sources r = r_sources f /\ scaled (r_weights f) (r_weights r).
Proof.
  intros Hfac [(g & Hg & Hread) Hlen Hw Ht].
  destruct (live_weights_ok live (geometry_id g) (r_weights f) Hfac) as (ws & Hl & Hs & Hsum); [split; [done|lia]|].
  exists (mkRoad (r_vertices f) ws (r_durations f) (r_sources f)). split; [|done].
  pose proof (live_weights_len _ _ _ _ Hl) as Ll. destruct (scaled_total _ _ Hs) as [Htot _].
  pose proof (gr_segments _ _ _ _ _ _ _ Hread). pose proof (gr_len_vertices _ _ _ _ _ _ _ Hread). pose proof (gr_len_durations _ _ _ _ _ _ _ Hread).
  pose proof (gr_len_datasources _ _ _ _ _ _ _ Hread). split; simpl; [by exists g, (r_weights f)|lia..|].
  intros w Hin. split; [by apply Hsum|]. apply list_elem_of_split in Hin as (l1 & l2 & ->). rewrite zsum_app in Htot. simpl in Htot.
  pose proof (zsum_nonneg (fun w : Z => w) l1 ltac:(intros x Hx; apply Hsum; set_solver)).
  pose proof (zsum_nonneg (fun w : Z => w) l2 ltac:(intros x Hx; apply Hsum; set_solver)). lia.
Qed.

Lemma zip_segments_length node ws : forall vs ds ss, length vs = length ws -> length ds = length ws -> length ss = length ws ->
  length (zip_segments node vs ws ds ss) = length ws.
Proof. induction ws as [|w ws IH]; intros [|v vs] [|d ds] [|s ss] H1 H2 H3; simpl in *; try done. f_equal. apply IH; lia. Qed.

Lemma zip_segments_get node ws : forall vs ds ss i v w d s, vs !! i = Some v -> ws !! i = Some w -> ds !! i = Some d -> ss !! i = Some s ->
  zip_segments node vs ws ds ss !! i = Some (mkPathData node v (swrap 32 w) 0 (swrap 32 d) 0 s None).
Proof.
  induction ws as [|w0 ws IH]; intros [|v0 vs] [|d0 ds] [|s0 ss] [|i] v w d s; simpl; try done; [by intros [= ->] [= ->] [= ->] [= ->]|by apply IH].
Qed.

Section one.
Context (node : Z) (r : Road) (Hr : road_of node r).
Abbreviation geometry := (r_vertices r, r_weights r, r_durations r, r_sources r).

Lemma road_segments_len : zlen (road_segments node r) = zlen (r_weights r).
Proof using Hr.
  pose proof (ro_segments _ _ Hr). pose proof (ro_vertices _ _ Hr). pose proof (ro_durations _ _ Hr). pose proof (ro_sources _ _ Hr).
  unfold road_segments, zlen in *. rewrite zip_segments_length; [done|destruct (r_vertices r); simpl in *; lia|lia|lia].
Qed.

Lemma segment_ok i : 0 <= i < zlen (r_weights r) -> exists s, segment node geometry i (i + 1) = Some s /\ road_segments node r !z i = Some s.
Proof using Hr.
  intros Hi. pose proof (ro_vertices _ _ Hr). pose proof (ro_durations _ _ Hr). pose proof (ro_sources _ _ Hr).
  destruct (zget_is_some (r_vertices r) (i + 1)) as [v Ev]; [lia|]. destruct (zget_is_some (r_weights r) i) as [w Ew]; [lia|].
  destruct (zget_is_some (r_durations r) i) as [d Ed]; [lia|]. destruct (zget_is_some (r_sources r) i) as [s Es]; [lia|].
  unfold segment. rewrite Ev. cbn [mbind option_bind]. rewrite Ew. cbn [mbind option_bind]. rewrite Ed. cbn [mbind option_bind]. rewrite Es. cbn [mbind option_bind].
  eexists. split; [done|]. unfold zget in *. rewrite (proj2 (Z.leb_le 0 i)) in * by lia. rewrite (proj2 (Z.leb_le 0 (i + 1))) in Ev by lia.
  apply zip_segments_get; [|done..]. rewrite lookup_tail. by replace (Z.to_nat (i + 1)) with (S (Z.to_nat i)) in Ev by lia.
Qed.

Lemma segments_up_ok fuel a b : 0 <= a <= b -> b <= zlen (r_weights r) -> b - a <= Z.of_nat fuel ->
  segments_up fuel node geometry a b = Some (zslice (road_segments node r) a (b - a)).
Proof using Hr.
  pose proof road_segments_len as Hlen. revert a. induction fuel as [|fuel IH]; intros a Ha Hb Hf; cbn [segments_up]; destruct (Z.eqb_spec a b) as [->|Hne];
    try (by rewrite Z.sub_diag); try lia.
  destruct (segment_ok a ltac:(lia)) as (s & -> & Es). cbn [mbind option_bind]. rewrite IH by lia. cbn [mbind option_bind]. f_equal.
  rewrite (zslice_cons _ a (b - a) s) by (done || lia). do 2 f_equal. lia.
Qed.

(** All segments from a position on. *)
Lemma segments_from start : 0 <= start < zlen (r_weights r) ->
  segments_up (length (r_weights r)) node geometry start (zlen (r_weights r)) = Some (drop (Z.to_nat start) (road_segments node r)).
Proof using Hr.
  intros Hs. rewrite segments_up_ok; [|lia|lia|unfold zlen in *; lia]. f_equal. unfold zslice. apply take_ge. rewrite length_drop.
  pose proof road_segments_len. unfold zlen in *. lia.
Qed.
End one.
End roads.

(** ** The annotation is the reference between the positions *)

Section annotation.
Context (facade : AnnotationFacade) (live : LiveDataStore).
Abbreviation road_of := (road_of facade live).

(** An edge of the path is a turn out of its node; penalties are 16-bit
    integers, and may be negative. *)
Record stop_ok (edge : Z) (s : Stop) : Prop := {
  so_turn : turn_of_edge facade edge = Some (st_turn s);
  so_road : road_of (st_node s) (st_road s);
  so_weight : weight_penalties facade !z st_turn s = Some (st_turn_weight s);
  so_duration : duration_penalties facade !z st_turn s = Some (st_turn_duration s);
  so_bound : - 2 ^ 15 <= st_turn_weight s < 2 ^ 15
}.

Lemma stop_segments_len edge s : stop_ok edge s -> zlen (stop_segments s) = zlen (r_weights (st_road s)).
Proof. intros Hs. unfold stop_segments, zlen. rewrite at_last_length. exact (road_segments_len _ _ _ _ (so_road _ _ Hs)). Qed.

(** One node, from a position on. *)
Lemma annotate_stop source rev edge s next nodes edges path start :
  stop_ok edge s -> start = (if bool_decide (path = []) then start_position rev source (zlen (r_weights (st_road s))) else 0) ->
  0 <= start < zlen (r_weights (st_road s)) ->
  annotate_turns facade live source rev (st_node s :: next :: nodes) (edge :: edges) path =
  annotate_turns facade live source rev (next :: nodes) edges (path ++ drop (Z.to_nat start) (stop_segments s)).
Proof.
  intros Hs -> Hstart. pose proof (so_road _ _ Hs) as Hr. pose proof (road_segments_len _ _ _ _ Hr) as Hlen.
  destruct (road_read _ _ _ _ Hr) as (g & Hg & Hread). cbn [annotate_turns]. rewrite (so_turn _ _ Hs). cbn [mbind option_bind].
  rewrite Hg. cbn [mbind option_bind]. rewrite Hread. cbn [mbind option_bind fst snd]. cbv zeta.
  set (start := if bool_decide (path = []) then _ else _) in *.
  rewrite (proj2 (Z.ltb_lt _ _) (proj2 Hstart)), (segments_from _ _ _ _ Hr) by done. cbn [mbind option_bind].
  rewrite (so_duration _ _ Hs). cbn [mbind option_bind]. rewrite (so_weight _ _ Hs). cbn [mbind option_bind].
  rewrite add_turn_ok.
  - cbn [mbind option_bind tail]. unfold stop_segments. rewrite at_last_drop; [done|]. unfold zlen in *. lia.
  - intros E%(f_equal length). rewrite length_drop in E. simpl in E. unfold zlen in *. lia.
Qed.

Lemma annotate_stops source rev edges stops node : Forall2 stop_ok edges stops -> forall path, path <> [] ->
  annotate_turns facade live source rev ((st_node <$> stops) ++ [node]) edges path = Some (path ++ (stops ≫= stop_segments)).
Proof.
  induction 1 as [|edge s edges stops Hs HF IH]; intros path Hne; [by rewrite app_nil_r|].
  pose proof (ro_segments _ _ _ _ (so_road _ _ Hs)) as Hlen. pose proof (stop_segments_len edge s Hs) as Hss. rewrite fmap_cons, bind_cons.
  assert (exists next nodes, (st_node <$> stops) ++ [node] = next :: nodes) as (next & nodes & E) by (destruct stops; simpl; eauto).
  cbn [app]. rewrite E. rewrite (annotate_stop source rev edge s next nodes edges path 0 Hs) by (rewrite ?bool_decide_false by done; done || lia).
  rewrite drop_0, <- E, IH, <- app_assoc; [done|]. intros [? _]%app_eq_nil. done.
Qed.

(** All nodes but the last. *)
Lemma annotate_turns_ok source rev edges stops node start : Forall2 stop_ok edges stops ->
  (forall s, head stops = Some s -> start_position rev source (zlen (r_weights (st_road s))) = start /\ 0 <= start < zlen (r_weights (st_road s))) ->
  annotate_turns facade live source rev ((st_node <$> stops) ++ [node]) edges [] = Some (drop (Z.to_nat start) (stops ≫= stop_segments)).
Proof.
  intros HF Hstart. destruct HF as [|edge s edges stops Hs HF]; [simpl; by rewrite drop_nil|]. destruct (Hstart s eq_refl) as [Es Hs'].
  pose proof (stop_segments_len edge s Hs) as Hss. rewrite fmap_cons, bind_cons.
  assert (exists next nodes, (st_node <$> stops) ++ [node] = next :: nodes) as (next & nodes & E) by (destruct stops; simpl; eauto).
  cbn [app]. rewrite E. rewrite (annotate_stop source rev edge s next nodes edges [] start Hs) by (rewrite ?bool_decide_true by done; done).
  rewrite <- E, annotate_stops by (done || (intros E'%(f_equal length); rewrite length_app, length_drop in E'; simpl in E'; unfold zlen in *; lia)).
  rewrite app_nil_l, drop_app_le by (unfold zlen in *; lia). done.
Qed.

(** A phantom node on the road of a node, in the direction of that road. *)
Record phantom_on (p : PhantomNode) (node : Z) (r : Road) (rev : bool) (position offset part : Z) : Prop := {
  po_rev : rev = negb (segment_id (forward_segment_id p) =? node);
  po_position : position = if rev then zlen (r_weights r) - fwd_segment_position p - 1 else fwd_segment_position p;
  po_range : 0 <= position < zlen (r_weights r);
  po_offset : offset = if rev then reverse_weight_offset p else forward_weight_offset p;
  po_part : part = if rev then reverse_weight p else forward_weight p;
  po_place : place (r_weights r) position offset part
}.

Lemma phantom_positions p node r rev position offset part : road_of node r -> phantom_on p node r rev position offset part ->
  start_position rev p (zlen (r_weights r)) = position /\ end_position rev p (zlen (r_weights r)) = position.
Proof.
  intros Hr Hp. pose proof (ro_segments _ _ _ _ Hr) as Hlen. pose proof (po_range _ _ _ _ _ _ _ Hp) as Hrange.
  pose proof (po_position _ _ _ _ _ _ _ Hp) as Epos. unfold start_position, end_position. destruct rev; [|done].
  rewrite !wrap_small by (unfold in_word; lia). done.
Qed.

(** The first node of a path and its road. *)
Definition first_node (stops : list Stop) (node : Z) : Z := match stops with [] => node | s :: _ => st_node s end.
Definition first_road (stops : list Stop) (r : Road) : Road := match stops with [] => r | s :: _ => st_road s end.

Lemma first_road_ok edges stops node r : Forall2 stop_ok edges stops -> road_of node r -> road_of (first_node stops node) (first_road stops r).
Proof. intros [|e s es ss Hs _] Hr; [done|]. apply Hs. Qed.

Lemma stops_length edges stops r pos : Forall2 stop_ok edges stops -> pos < zlen (r_weights (first_road stops r)) -> stops <> [] -> pos < zlen (stops ≫= stop_segments).
Proof.
  intros [|e s es ss Hs _] Hpos Hne; [done|]. simpl in Hpos. rewrite bind_cons, zlen_app, (stop_segments_len e s Hs).
  pose proof (zlen_nonneg (ss ≫= stop_segments)). lia.
Qed.

Section ends.
Context (source target : PhantomNode) (edges : list Z) (stops : list Stop) (node : Z) (r : Road) (HF : Forall2 stop_ok edges stops) (Hr : road_of node r).
Context (rev_s rev_t : bool) (pos_s off_s part_s pos_t off_t part_t : Z).

Context (Hs : phantom_on source (first_node stops node) (first_road stops r) rev_s pos_s off_s part_s) (Ht : phantom_on target node r rev_t pos_t off_t part_t).
(** On a single road the target lies behind the source. *)
Context (Hlocal : stops = [] -> rev_s = rev_t /\ pos_s <= pos_t).

Lemma stops_start s : head stops = Some s ->
  start_position rev_s source (zlen (r_weights (st_road s))) = pos_s /\ 0 <= pos_s < zlen (r_weights (st_road s)).
Proof using HF Hr Hs.
  intros E. pose proof (first_road_ok _ _ _ _ HF Hr) as Hfr. assert (first_road stops r = st_road s) as Er by (clear -E; destruct stops; naive_solver).
  rewrite <- Er. split; [by apply (phantom_positions _ _ _ _ _ _ _ Hfr Hs)|apply Hs].
Qed.

Lemma annotate_target_ok : annotate_target facade live source target (first_node stops node) node rev_t (drop (Z.to_nat pos_s) (stops ≫= stop_segments)) =
  Some (drop (Z.to_nat pos_s) (full_path stops node r pos_t)).
Proof using HF Hr Hs Ht Hlocal.
  destruct (road_read _ _ _ _ Hr) as (g & Hg & Hread). destruct (road_read _ _ _ _ (first_road_ok _ _ _ _ HF Hr)) as (g0 & Hg0 & _).
  pose proof (po_range _ _ _ _ _ _ _ Ht) as Rt. pose proof (po_range _ _ _ _ _ _ _ Hs) as Rs. pose proof (road_segments_len _ _ _ _ Hr) as Hlen.
  unfold annotate_target. rewrite Hg0. cbn [mbind option_bind]. rewrite Hg. cbn [mbind option_bind]. cbv zeta. rewrite Hread. cbn [mbind option_bind fst snd].
  rewrite (proj2 (phantom_positions _ _ _ _ _ _ _ Hr Ht)). unfold full_path.
  assert (forall a b, 0 <= a <= b -> b <= zlen (r_weights r) -> (if a <? b then segments_up (length (r_weights r)) node (r_vertices r, r_weights r, r_durations r, r_sources r) a b
    else segments_down (length (r_weights r)) node (r_vertices r, r_weights r, r_durations r, r_sources r) a b) = Some (zslice (road_segments node r) a (b - a))) as Hseg.
  { intros a b Ha Hb. destruct (Z.ltb_spec a b); [apply (segments_up_ok facade live); (done || unfold zlen in *; lia)|]. replace b with a by lia.
    rewrite Z.sub_diag. destruct (length (r_weights r)); simpl; by rewrite Z.eqb_refl. }
  destruct (decide (stops = [])) as [E|Hne].
  - destruct (Hlocal E) as [Erev Hle]. assert (phantom_on source node r rev_s pos_s off_s part_s) as Hs' by (rewrite E in Hs; exact Hs).
    rewrite E in Hg0. simpl in Hg0. assert (g0 = g) as -> by congruence. rewrite E. simpl. rewrite drop_nil, Z.eqb_refl, bool_decide_true by done. cbn [andb].
    rewrite <- Erev, (proj2 (phantom_positions _ _ _ _ _ _ _ Hr Hs')). pose proof (po_range _ _ _ _ _ _ _ Hs'). rewrite Hseg by lia. cbn [mbind option_bind app].
    f_equal. unfold zslice. rewrite skipn_firstn_comm. f_equal. lia.
  - pose proof (stops_length _ _ _ _ HF (proj2 Rs) Hne) as Hl. rewrite (bool_decide_false (drop _ _ = [])).
    2:{ intros E%(f_equal length). rewrite length_drop in E. unfold zlen in Hl. simpl in E. lia. }
    rewrite andb_false_r, Hseg by lia. cbn [mbind option_bind]. f_equal. rewrite drop_app_le by (unfold zlen in Hl; lia). f_equal.
    unfold zslice. by rewrite Z.sub_0_r.
Qed.

Lemma annotate_ok : annotate facade live (mkPhantomEndpoints source target) ((st_node <$> stops) ++ [node]) edges =
  Some (trim_front source rev_s (drop (Z.to_nat pos_s) (full_path stops node r pos_t))).
Proof using HF Hr Hs Ht Hlocal.
  assert (head ((st_node <$> stops) ++ [node]) = Some (first_node stops node)) as Eh by (by destruct stops).
  unfold annotate. rewrite Eh, last_snoc. cbn [mbind option_bind source_phantom target_phantom].
  rewrite <- (po_rev _ _ _ _ _ _ _ Hs), <- (po_rev _ _ _ _ _ _ _ Ht), (annotate_turns_ok source rev_s edges stops node pos_s HF stops_start).
  cbn [mbind option_bind]. rewrite annotate_target_ok. done.
Qed.
End ends.
End annotation.

(** ** Sums, vertices and turns of the reference *)

Abbreviation weight_of := (zsum weight_until_turn).

Lemma zsum_fmap {A B} (f : A -> B) (g : B -> Z) l : zsum g (f <$> l) = zsum (fun x => g (f x)) l.
Proof. induction l as [|x l IH]; [done|]. rewrite fmap_cons. simpl. lia. Qed.

Lemma zip_segments_fields node ws : forall vs ds ss, length vs = length ws -> length ds = length ws -> length ss = length ws -> (forall w, w ∈ ws -> 0 <= w < 2 ^ 30) ->
  weight_until_turn <$> zip_segments node vs ws ds ss = ws /\ turn_via_node <$> zip_segments node vs ws ds ss = vs /\
  omap turn_edge (zip_segments node vs ws ds ss) = [].
Proof.
  induction ws as [|w ws IH]; intros [|v vs] [|d ds] [|s ss] H1 H2 H3 Hw; try done. simpl in H1, H2, H3. cbn [zip_segments].
  destruct (IH vs ds ss ltac:(lia) ltac:(lia) ltac:(lia) ltac:(intros x Hx; apply Hw; by right)) as (E1 & E2 & E3).
  rewrite !fmap_cons, E1, E2. cbn [omap list_omap turn_edge weight_until_turn turn_via_node]. rewrite E3, swrap_small; [done|lia|]. pose proof (Hw w ltac:(by left)). lia.
Qed.

Lemma weight_of_fmap l : weight_of l = total (weight_until_turn <$> l).
Proof. by rewrite zsum_fmap. Qed.

Lemma at_last_take f l n : (n < length l)%nat -> take n (at_last f l) = take n l.
Proof.
  destruct l as [|s l _] using rev_ind; [by intros ?%Nat.nlt_0_r|]. rewrite length_app. simpl. intros Hn.
  rewrite at_last_snoc, !take_app_le by lia. done.
Qed.

Section fields.
Context (facade : AnnotationFacade) (live : LiveDataStore).
Abbreviation road_of := (road_of facade live).
Abbreviation stop_ok := (stop_ok facade live).

Lemma road_fields node r : road_of node r -> weight_until_turn <$> road_segments node r = r_weights r /\
  turn_via_node <$> road_segments node r = tail (r_vertices r) /\ omap turn_edge (road_segments node r) = [].
Proof.
  intros [_ H1 H2 H3 H4 H5]. unfold road_segments, zlen in *. apply zip_segments_fields; [destruct (r_vertices r); simpl in *; lia|lia|lia|done].
Qed.

Lemma road_split node r : road_of node r -> exists l s, road_segments node r = l ++ [s] /\ 0 <= weight_until_turn s < 2 ^ 30 /\
  turn_edge s = None /\ omap turn_edge l = [].
Proof.
  intros Hr. destruct (road_fields node r Hr) as (Hw & _ & Ht). pose proof (road_segments_len _ _ _ _ Hr) as Hlen. pose proof (ro_segments _ _ _ _ Hr).
  destruct (road_segments node r) as [|s l _] using rev_ind; [unfold zlen in *; simpl in *; lia|]. exists l, s. split; [done|]. split.
  - apply (ro_weights _ _ _ _ Hr). rewrite <- Hw. apply list_elem_of_fmap_2, elem_of_app. right. by left.
  - rewrite omap_app in Ht. apply app_eq_nil in Ht as [-> Ht]. simpl in Ht. by destruct (turn_edge s).
Qed.

Lemma stop_fields edge s : stop_ok edge s -> weight_of (stop_segments s) = total (r_weights (st_road s)) + st_turn_weight s /\
  turn_via_node <$> stop_segments s = tail (r_vertices (st_road s)) /\ omap turn_edge (stop_segments s) = [st_turn s].
Proof.
  intros Hs. pose proof (so_road _ _ _ _ Hs) as Hr. destruct (road_fields _ _ Hr) as (Hw & Hv & _). destruct (road_split _ _ Hr) as (l & x & E & Hx & _ & Hl).
  pose proof (so_bound _ _ _ _ Hs) as Hb. rewrite <- Hw, <- Hv. unfold stop_segments. rewrite E, at_last_snoc, !fmap_app, omap_app, Hl, !zsum_app. simpl. unfold weight_add. rewrite swrap_small by lia. rewrite (weight_of_fmap l). split; [lia|done].
Qed.

Lemma stops_fields edges stops : Forall2 stop_ok edges stops ->
  weight_of (stops ≫= stop_segments) = zsum (fun s => total (r_weights (st_road s)) + st_turn_weight s) stops /\
  turn_via_node <$> (stops ≫= stop_segments) = stops ≫= (fun s => tail (r_vertices (st_road s))) /\
  omap turn_edge (stops ≫= stop_segments) = st_turn <$> stops.
Proof.
  induction 1 as [|edge s edges stops Hs _ (IH1 & IH2 & IH3)]; [done|]. destruct (stop_fields edge s Hs) as (H1 & H2 & H3).
  rewrite !bind_cons, zsum_app, fmap_app, omap_app, IH1, IH2, IH3, H1, H2, H3. done.
Qed.
End fields.

(** The segments from a point of the first one on; a segment never weighs less
    than nothing. *)
Definition from_source (part time : Z) (path : list PathData) : list PathData :=
  match path with
  | [] => []
  | f :: rest => mkPathData (from_edge_based_node f) (turn_via_node f) (Z.max 0 (swrap 32 (weight_until_turn f - part))) (weight_of_turn f)
                   (Z.max 0 (swrap 32 (duration_until_turn f - time))) (duration_of_turn f) (datasource_id f) (turn_edge f) :: rest
  end.

(** By how much the first segment weighs less than its part before the source:
    not at all, but for a turn with a negative penalty. *)
Definition cut_short (part : Z) (path : list PathData) : Z :=
  match path with [] => 0 | f :: _ => Z.max 0 (part - weight_until_turn f) end.

Section adds_up.
Context (facade : AnnotationFacade) (live : LiveDataStore).
Context (source target : PhantomNode) (edges : list Z) (stops : list Stop) (node : Z) (r : Road).
Context (HF : Forall2 (stop_ok facade live) edges stops) (Hr : road_of facade live node r).
Context (rev_s rev_t : bool) (pos_s off_s part_s pos_t off_t part_t : Z).
Context (Hs : phantom_on source (first_node stops node) (first_road stops r) rev_s pos_s off_s part_s) (Ht : phantom_on target node r rev_t pos_t off_t part_t).
Context (Hlocal : stops = [] -> rev_s = rev_t /\ pos_s <= pos_t).

Abbreviation full := (full_path stops node r pos_t).

Lemma full_weight : weight_of full = zsum (fun s => total (r_weights (st_road s)) + st_turn_weight s) stops + off_t.
Proof using HF Hr Ht.
  unfold full_path. rewrite zsum_app, (proj1 (stops_fields _ _ _ _ HF)), weight_of_fmap, fmap_take, (proj1 (road_fields _ _ _ _ Hr)).
  by rewrite (pl_offset _ _ _ _ (po_place _ _ _ _ _ _ _ Ht)).
Qed.

(** What lies before the source, and the segment of the source. *)
Lemma full_start : weight_of (take (Z.to_nat pos_s) full) = off_s /\ omap turn_edge (take (Z.to_nat pos_s) full) = [] /\
  match drop (Z.to_nat pos_s) full with
  | [] => stops = [] /\ pos_s = pos_t
  | f :: _ => - 2 ^ 15 <= weight_until_turn f < 2 ^ 30 + 2 ^ 15 /\ (Forall (fun s => 0 <= st_turn_weight s) stops -> part_s <= weight_until_turn f)
  end.
Proof using HF Hr Hs Ht Hlocal.
  pose proof (first_road_ok _ _ _ _ _ _ HF Hr) as Hfr. pose proof (road_fields _ _ _ _ Hfr) as (Hw & _ & Hte). pose proof (road_segments_len _ _ _ _ Hfr) as Hlen.
  pose proof (po_range _ _ _ _ _ _ _ Hs) as Rs. pose proof (po_range _ _ _ _ _ _ _ Ht) as Rt. destruct (po_place _ _ _ _ _ _ _ Hs) as [Eoff (w & Ew & Hpart)].
  pose proof (ro_weights _ _ _ _ Hfr w ltac:(by eapply zget_elem)) as Bw.
  set (fs := road_segments (first_node stops node) (first_road stops r)) in *.
  assert (weight_of (take (Z.to_nat pos_s) fs) = off_s /\ omap turn_edge (take (Z.to_nat pos_s) fs) = []) as [W1 T1].
  { split; [by rewrite weight_of_fmap, fmap_take, Hw, Eoff|]. rewrite <- (take_drop (Z.to_nat pos_s) fs), omap_app in Hte. by apply app_eq_nil in Hte as [-> _]. }
  assert (exists f, fs !! Z.to_nat pos_s = Some f /\ weight_until_turn f = w) as (f & Ef & Hf).
  { rewrite <- Hw in Ew. unfold zget in Ew. rewrite (proj2 (Z.leb_le 0 pos_s)), list_lookup_fmap in Ew by lia. destruct (fs !! Z.to_nat pos_s) as [f|]; [|done].
    exists f. split; [done|]. by injection Ew. }
  unfold full_path. subst fs. destruct HF as [|edge s es ss Hstop HF']; simpl in *.
  - destruct (Hlocal eq_refl) as [_ Hle]. rewrite take_take, (Nat.min_l _ (Z.to_nat pos_t)) by lia. split; [done|]. split; [done|].
    rewrite skipn_firstn_comm, (drop_S _ _ _ Ef). destruct (Z.to_nat pos_t - Z.to_nat pos_s)%nat eqn:E; simpl; [split; [done|lia]|]. split; lia.
  - pose proof (stop_segments_len _ _ _ _ Hstop) as Hsl. rewrite <- app_assoc.
    pose proof (at_last_length (turned (st_turn s) (st_turn_weight s) (st_turn_duration s)) (road_segments (st_node s) (st_road s))) as Hal.
    rewrite take_app_le, drop_app_le by (unfold zlen in *; lia). unfold stop_segments. rewrite at_last_take by (unfold zlen in *; lia). split; [done|]. split; [done|].
    rewrite <- at_last_drop by (unfold zlen in *; lia). rewrite (drop_S _ _ _ Ef). pose proof (so_bound _ _ _ _ Hstop).
    destruct (drop (S (Z.to_nat pos_s)) (road_segments (st_node s) (st_road s))); simpl; [unfold weight_add; rewrite swrap_small by lia|];
      (split; [lia|]; intros [Hnn _]%Forall_cons; lia).
Qed.

(** The duration from the start of its segment to the source. *)
Abbreviation time_s := (if rev_s then reverse_duration source else forward_duration source).

Lemma trimmed path : trim_front source rev_s path = from_source part_s time_s path.
Proof using Hs. destruct path as [|f path]; [done|]. simpl. by rewrite <- (po_part _ _ _ _ _ _ _ Hs), !(Z.max_comm 0). Qed.

Lemma from_source_weight : drop (Z.to_nat pos_s) full <> [] ->
  weight_of (from_source part_s time_s (drop (Z.to_nat pos_s) full)) = weight_of (drop (Z.to_nat pos_s) full) - part_s + cut_short part_s (drop (Z.to_nat pos_s) full).
Proof using HF Hr Hs Ht Hlocal.
  destruct full_start as (_ & _ & Hfront). destruct (drop (Z.to_nat pos_s) full) as [|f path]; [done|]. intros _. destruct Hfront as [Hf _]. simpl.
  destruct (po_place _ _ _ _ _ _ _ Hs) as [_ (w & Hw & Hpart)].
  pose proof (ro_weights _ _ _ _ (first_road_ok _ _ _ _ _ _ HF Hr) w ltac:(by eapply zget_elem)). rewrite swrap_small by lia. lia.
Qed.

(** The vertices, the turns and the weight of the reference. *)
Lemma reference_ok : let path := from_source part_s time_s (drop (Z.to_nat pos_s) full) in
  turn_via_node <$> path = drop (Z.to_nat pos_s) ((stops ≫= (fun s => tail (r_vertices (st_road s)))) ++ take (Z.to_nat pos_t) (tail (r_vertices r))) /\
  omap turn_edge path = st_turn <$> stops /\
  (path <> [] -> weight_of path + part_t =
     zsum (fun s => total (r_weights (st_road s)) + st_turn_weight s) stops + (off_t + part_t) - (off_s + part_s) + cut_short part_s (drop (Z.to_nat pos_s) full)) /\
  (path = [] -> stops = [] /\ pos_s = pos_t) /\
  (Forall (fun s => 0 <= st_turn_weight s) stops -> cut_short part_s (drop (Z.to_nat pos_s) full) = 0).
Proof using HF Hr Hs Ht Hlocal.
  destruct full_start as (Hoff & Hno & Hfront). destruct (stops_fields _ _ _ _ HF) as (_ & Hv & Hturns). destruct (road_fields _ _ _ _ Hr) as (_ & Hvr & Htr).
  assert (forall path, turn_via_node <$> from_source part_s time_s path = turn_via_node <$> path /\ omap turn_edge (from_source part_s time_s path) = omap turn_edge path)
    as Htrim by (by intros [|f path]).
  cbv zeta. split; [|split; [|split; [|split]]].
  - rewrite (proj1 (Htrim _)), fmap_drop. unfold full_path. by rewrite fmap_app, Hv, fmap_take, Hvr.
  - rewrite (proj2 (Htrim _)). rewrite <- (app_nil_l (omap turn_edge (drop _ _))), <- Hno, <- omap_app, take_drop. unfold full_path.
    rewrite omap_app, Hturns. rewrite <- (take_drop (Z.to_nat pos_t) (road_segments node r)), omap_app in Htr. apply app_eq_nil in Htr as [-> _]. by rewrite app_nil_r.
  - intros Hne. rewrite from_source_weight by (by destruct (drop (Z.to_nat pos_s) full)).
    assert (weight_of full = weight_of (take (Z.to_nat pos_s) full) + weight_of (drop (Z.to_nat pos_s) full)) as Hsum by (by rewrite <- zsum_app, take_drop).
    rewrite full_weight, Hoff in Hsum. lia.
  - destruct (drop (Z.to_nat pos_s) full); [done|]. done.
  - intros Hnn. destruct (drop (Z.to_nat pos_s) full) as [|f path]; [done|]. simpl. pose proof (proj2 Hfront Hnn). lia.
Qed.
End adds_up.

(** C34: the segments of a route are those of its roads.  Let the store of the
    traffic have times, positions, speeds and factors in range; then
    [annotatePath] aggregates its samples, and every node with a geometry in the files whose
    weights fit also when they are ten times as heavy has a road with the
    weights of the traffic.  For a path of nodes with such roads, edges that are
    turns with any 16-bit penalties, and phantom nodes on the first and on the last
    road (the target not before the source when there is no turn), the
    annotation is defined and equal to the reference, the segments of the roads from the
    source to that of the target with the turns.  So its vertices are those
    between the phantom nodes, its turns those of the edges in order, and the weights of its segments with the
    part of the last segment up to the target add up to the weight of the path,
    the roads and the turns with the target and without the source, and to more than it
    only where a negative penalty makes the first segment weigh less than its
    part before the source. *)
Theorem annotation_adds_up facade traffic iterate live now_ms now_ms' :
  (forall m, iterate m ≡ₚ map_to_list m) -> traffic_ok live -> sane_time now_ms' ->
  exists live', AggregatePendingTrafficSamples traffic iterate live (stale_seconds live) now_ms now_ms' = Some live' /\ aggregated traffic live live' now_ms now_ms' /\
    (forall node f, drivable facade node f -> exists r, road_of facade live' node r /\ r_vertices r = r_vertices f /\ scaled (r_weights f) (r_weights r)) /\
    forall source target edges stops node r rev_s rev_t pos_s off_s part_s pos_t off_t part_t,
      Forall2 (stop_ok facade live') edges stops -> road_of facade live' node r ->
      phantom_on source (first_node stops node) (first_road stops r) rev_s pos_s off_s part_s -> phantom_on target node r rev_t pos_t off_t part_t ->
      (stops = [] -> rev_s = rev_t /\ pos_s <= pos_t) ->
      exists path, annotatePath facade traffic iterate live now_ms now_ms' (mkPhantomEndpoints source target) ((st_node <$> stops) ++ [node]) edges = Some (path, live') /\
        let reference := drop (Z.to_nat pos_s) (full_path stops node r pos_t) in
        path = from_source part_s (if rev_s then reverse_duration source else forward_duration source) reference /\
        turn_via_node <$> path = drop (Z.to_nat pos_s) ((stops ≫= (fun s => tail (r_vertices (st_road s)))) ++ take (Z.to_nat pos_t) (tail (r_vertices r))) /\
        omap turn_edge path = st_turn <$> stops /\
        (path <> [] -> weight_of path + part_t =
           zsum (fun s => total (r_weights (st_road s)) + st_turn_weight s) stops + (off_t + part_t) - (off_s + part_s) + cut_short part_s reference) /\
        (path = [] -> stops = [] /\ pos_s = pos_t) /\
        (Forall (fun s => 0 <= st_turn_weight s) stops -> cut_short part_s reference = 0).
Proof.
  intros Hit Hok Hnow.
  destruct (aggregation_defined traffic iterate Hit live now_ms now_ms' (to_stale _ Hok) (to_sane _ Hok) Hnow) as (live' & Ea & Hag).
  exists live'. split; [done|]. split; [done|]. split.
  - intros node f Hd. destruct (drivable_road facade live' node f) as (r & Hr & Hv & _ & _ & Hs); [|done|by exists r].
    intros g e. exact (aggregated_factors traffic live live' now_ms now_ms' g e Hok Hag).
  - intros source target edges stops node r rev_s rev_t pos_s off_s part_s pos_t off_t part_t HF Hr Hs Ht Hlocal. eexists. split.
    + unfold annotatePath. rewrite Ea. cbn [mbind option_bind].
      rewrite (annotate_ok facade live' source target edges stops node r HF Hr rev_s rev_t pos_s off_s part_s pos_t off_t part_t Hs Ht Hlocal). reflexivity.
    + cbv zeta. erewrite trimmed by exact Hs. split; [done|]. by apply (reference_ok facade live' source target edges stops node r HF Hr rev_s rev_t pos_s off_s part_s pos_t off_t part_t Hs Ht Hlocal).
Qed.

(** ** Joined legs add up *)

(** A leg with the weight of its route. *)
Record Leg : Type := mkLeg { l_path : list PathData; l_ends : PhantomEndpoints; l_source_reverse : bool; l_target_reverse : bool; l_weight : Z }.

(** Legs from one waypoint to the next: the first one and those joined to it. *)
Abbreviation LegGroup := (Leg * list Leg)%type.
Definition group_legs (g : LegGroup) : list Leg := g.1 :: g.2.
Definition group_flags (g : LegGroup) : list bool := true :: replicate (length g.2) false.
Definition last_leg (g : LegGroup) : Leg := List.last g.2 g.1.

(** The leg that a group becomes. *)
Definition joined_path (l : Leg) : list PathData := restore_front (l_source_reverse l) (l_ends l) (l_path l).
Definition group_path (g : LegGroup) : list PathData := l_path g.1 ++ (g.2 ≫= joined_path).
Definition group_ends (g : LegGroup) : PhantomEndpoints := mkPhantomEndpoints (source_phantom (l_ends g.1)) (target_phantom (l_ends (last_leg g))).

Definition leggy (legs : list Leg) (weight : Z) : InternalRouteResult :=
  mkInternalRouteResult (l_path <$> legs) (l_ends <$> legs) (l_source_reverse <$> legs) (l_target_reverse <$> legs) weight.

Definition joined (groups : list LegGroup) (weight : Z) : InternalRouteResult :=
  mkInternalRouteResult (group_path <$> groups) (group_ends <$> groups) ((fun g => l_source_reverse g.1) <$> groups)
    ((fun g => l_target_reverse (last_leg g)) <$> groups) weight.

Lemma set_back_snoc {A} (f : A -> A) l x : set_back f (l ++ [x]) = Some (l ++ [f x]).
Proof. unfold set_back. by rewrite reverse_snoc, reverse_cons, reverse_involutive. Qed.

Lemma last_leg_cons f l rest : last_leg (f, rest ++ [l]) = l.
Proof. unfold last_leg. simpl. apply List.last_last. Qed.

(** The loop over the legs that are joined to the last one. *)
Lemma collapse_rest rest : forall prev f before pre post more weight,
  collapse_legs (zlen pre) (pre ++ replicate (length rest) false ++ post) (l_path <$> rest ++ more) (l_ends <$> rest ++ more)
    (l_source_reverse <$> rest ++ more) (l_target_reverse <$> rest ++ more) (joined (prev ++ [(f, before)]) weight) =
  collapse_legs (zlen pre + zlen rest) (pre ++ replicate (length rest) false ++ post) (l_path <$> more) (l_ends <$> more)
    (l_source_reverse <$> more) (l_target_reverse <$> more) (joined (prev ++ [(f, before ++ rest)]) weight).
Proof.
  induction rest as [|l rest IH]; intros prev f before pre post more weight; [by rewrite app_nil_r, zlen_nil, Z.add_0_r|].
  cbn [app fmap list_fmap collapse_legs length replicate]. rewrite zget_app_r, Z.sub_diag, zget_cons_0 by lia. cbn [mbind option_bind head tail].
  assert (joined (prev ++ [(f, before)]) weight =
    mkInternalRouteResult ((group_path <$> prev) ++ [group_path (f, before)]) ((group_ends <$> prev) ++ [group_ends (f, before)])
      (((fun g => l_source_reverse g.1) <$> prev) ++ [l_source_reverse f]) (((fun g => l_target_reverse (last_leg g)) <$> prev) ++ [l_target_reverse (last_leg (f, before))]) weight) as ->
    by (unfold joined; by rewrite !fmap_app).
  cbn [unpacked_path_segments leg_endpoints source_traversed_in_reverse target_traversed_in_reverse shortest_path_weight].
  rewrite !set_back_snoc. cbn [mbind option_bind].
  specialize (IH prev f (before ++ [l]) (pre ++ [false]) post more weight). rewrite zlen_snoc, <- !app_assoc in IH. cbn [app] in IH.
  rewrite zlen_cons. replace (zlen pre + (1 + zlen rest)) with (zlen pre + 1 + zlen rest) by lia. rewrite <- IH. f_equal.
  unfold joined. rewrite !fmap_app. cbn [fmap list_fmap]. rewrite last_leg_cons. unfold group_path, group_ends. cbn [fst snd]. rewrite last_leg_cons.
  rewrite bind_app, app_assoc. simpl. by rewrite app_nil_r.
Qed.

Lemma collapse_groups groups : forall prev pre post weight,
  collapse_legs (zlen pre) (pre ++ (groups ≫= group_flags) ++ post) (l_path <$> (groups ≫= group_legs)) (l_ends <$> (groups ≫= group_legs))
    (l_source_reverse <$> (groups ≫= group_legs)) (l_target_reverse <$> (groups ≫= group_legs)) (joined prev weight) =
  Some (joined (prev ++ groups) weight).
Proof.
  induction groups as [|[f rest] groups IH]; intros prev pre post weight; [by rewrite app_nil_r|]. rewrite !bind_cons.
  unfold group_legs at 1 3 5 7. unfold group_flags at 1. cbn [fst snd app fmap list_fmap collapse_legs]. rewrite zget_app_r, Z.sub_diag, zget_cons_0 by lia.
  cbn [mbind option_bind head tail].
  pose proof (collapse_rest rest prev f [] (pre ++ [true]) ((groups ≫= group_flags) ++ post) (groups ≫= group_legs) weight) as Hrest.
  rewrite zlen_snoc, <- !app_assoc in Hrest. cbn [app] in Hrest. rewrite <- !app_assoc.
  etransitivity; [|etransitivity; [exact Hrest|]].
  - f_equal. unfold joined. rewrite !fmap_app. unfold group_path, group_ends, last_leg. simpl. rewrite app_nil_r. by destruct (l_ends f).
  - specialize (IH (prev ++ [(f, rest)]) (pre ++ true :: replicate (length rest) false) post weight). rewrite <- !app_assoc in IH. cbn [app] in IH.
    rewrite <- IH. f_equal. rewrite zlen_app, zlen_cons. unfold zlen. rewrite length_replicate. lia.
Qed.

(** The parts of the segments at the ends of a leg that its route does not and
    does cover. *)
Definition source_part (l : Leg) : Z :=
  if l_source_reverse l then reverse_weight (source_phantom (l_ends l)) else forward_weight (source_phantom (l_ends l)).
Definition target_part (l : Leg) : Z :=
  if l_target_reverse l then reverse_weight (target_phantom (l_ends l)) else forward_weight (target_phantom (l_ends l)).

(** The weight of a leg is that of its segments and of the part at its target;
    without segments the ends lie on the same one. *)
Record leg_ok (l : Leg) : Prop := {
  lg_weight : l_path l <> [] -> weight_of (l_path l) + target_part l = l_weight l;
  lg_empty : l_path l = [] -> l_weight l = target_part l - source_part l;
  lg_front s : head (l_path l) = Some s -> 0 <= weight_until_turn s < 2 ^ 30;
  lg_source : 0 <= source_part l < 2 ^ 30
}.

(** Every leg starts where the one before ends. *)
Fixpoint meeting (l : Leg) (rest : list Leg) : Prop :=
  match rest with [] => True | l' :: rest => source_part l' = target_part l /\ meeting l' rest end.

Lemma joined_weight l : leg_ok l -> weight_of (joined_path l) = weight_of (l_path l) + (match l_path l with [] => 0 | _ => source_part l end).
Proof.
  intros Hl. unfold joined_path. pose proof (lg_front _ Hl) as Hf. pose proof (lg_source _ Hl) as Hs. destruct (l_path l) as [|s p]; [done|]. simpl.
  specialize (Hf s eq_refl). change (source_weight_of _ _) with (source_part l). unfold weight_add. rewrite swrap_small by lia. lia.
Qed.

Lemma last_default {A} (l : list A) x d d' : List.last (x :: l) d = List.last (x :: l) d'.
Proof. revert x. induction l as [|y l IH]; intros x; [done|]. exact (IH y). Qed.

Lemma group_weight rest : forall f, Forall leg_ok (f :: rest) -> meeting f rest -> l_path f <> [] ->
  weight_of (group_path (f, rest)) + target_part (last_leg (f, rest)) = zsum l_weight (group_legs (f, rest)).
Proof.
  induction rest as [|l rest IH] using rev_ind; intros f Hall Hm Hne.
  { inversion_clear Hall as [|? ? Hf _]. pose proof (lg_weight _ Hf Hne) as Hw. unfold group_path, last_leg, group_legs, zsum in *. simpl. rewrite app_nil_r. lia. }
  assert (Forall leg_ok (f :: rest) /\ leg_ok l) as [Hall' Hl].
  { rewrite app_comm_cons, Forall_app in Hall. destruct Hall as [? H]. split; [done|]. by inversion_clear H. }
  assert (meeting f rest /\ source_part l = target_part (last_leg (f, rest))) as [Hm' Hmeet].
  { clear -Hm. revert f Hm. induction rest as [|x rest IH]; intros f Hm; [destruct Hm as [Hm _]; by split|]. destruct Hm as [Hx Hm].
    destruct (IH x Hm) as [H1 H2]. split; [done|]. rewrite H2. f_equal. unfold last_leg. cbn [fst snd]. clear.
    destruct rest as [|y rest]; [done|]. by transitivity (List.last (y :: rest) f); [apply last_default|]. }
  specialize (IH f Hall' Hm' Hne). unfold group_path, group_legs in *. simpl fst in *. simpl snd in *. rewrite last_leg_cons, bind_app, app_assoc, zsum_app.
  rewrite app_comm_cons, (zsum_app l_weight), <- IH. simpl. rewrite app_nil_r, (joined_weight l Hl), <- Hmeet.
  pose proof (lg_weight _ Hl) as H1. pose proof (lg_empty _ Hl) as H2. destruct (l_path l) as [|s p]; [rewrite H2 by done; simpl; lia|]. specialize (H1 ltac:(done)). lia.
Qed.

Lemma group_fields rest f : turn_via_node <$> group_path (f, rest) = group_legs (f, rest) ≫= (fun l => turn_via_node <$> l_path l) /\
  omap turn_edge (group_path (f, rest)) = group_legs (f, rest) ≫= (fun l => omap turn_edge (l_path l)).
Proof.
  assert (turn_via_node <$> (rest ≫= joined_path) = rest ≫= (fun l => turn_via_node <$> l_path l) /\
    omap turn_edge (rest ≫= joined_path) = rest ≫= (fun l => omap turn_edge (l_path l))) as [H1 H2].
  { induction rest as [|l rest [IH1 IH2]]; [done|]. rewrite !bind_cons, fmap_app, omap_app, IH1, IH2.
    unfold joined_path. by destruct (l_path l). }
  unfold group_path, group_legs. cbn [fst snd]. by rewrite !bind_cons, fmap_app, omap_app, H1, H2.
Qed.

Lemma collapse_joined groups weight : CollapseInternalRouteResult (leggy (groups ≫= group_legs) weight) ((groups ≫= group_flags) ++ [true]) = Some (joined groups weight).
Proof.
  unfold CollapseInternalRouteResult, leggy. cbn [unpacked_path_segments leg_endpoints source_traversed_in_reverse target_traversed_in_reverse shortest_path_weight].
  destruct (Z.eqb_spec (zlen (l_path <$> (groups ≫= group_legs))) 1) as [E|_]; [|exact (collapse_groups groups [] [] [true] weight)].
  destruct groups as [|[f rest] groups]; [done|]. rewrite bind_cons in E |- *.
  assert (rest = [] /\ groups = []) as [-> ->].
  { unfold zlen in E. rewrite length_fmap, length_app in E. unfold group_legs at 1 in E. simpl in E. destruct rest; [|simpl in E; lia]. split; [done|].
    destruct groups as [|[]]; [done|]. rewrite bind_cons, length_app in E. unfold group_legs at 1 in E. simpl in E. lia. }
  simpl. unfold joined, group_path, group_ends, last_leg. simpl. rewrite app_nil_r. by destruct (l_ends f).
Qed.

(** C35: joined legs add up.  When every leg weighs what its segments and the part
    at its target weigh (without segments, the part at the target less that at the source), with weights
    of first segments and parts at sources between 0 and 2^30, the legs of a route start where the ones
    before end, in the direction in which they leave, and every leg that starts at a waypoint has a segment,
    [CollapseInternalRouteResult] makes one leg of every waypoint's legs: it runs from the
    source of the first to the target of the last over the same vertices and
    turns in order, and its segments with the part at its target weigh as much as the legs together. *)
Theorem collapsed_legs_add_up (groups : list LegGroup) (weight : Z) :
  Forall (fun g => Forall leg_ok (group_legs g) /\ meeting g.1 g.2 /\ l_path g.1 <> []) groups ->
  exists r, CollapseInternalRouteResult (leggy (groups ≫= group_legs) weight) ((groups ≫= group_flags) ++ [true]) = Some r /\
    shortest_path_weight r = weight /\ leg_endpoints r = group_ends <$> groups /\
    source_traversed_in_reverse r = (fun g => l_source_reverse g.1) <$> groups /\
    target_traversed_in_reverse r = (fun g => l_target_reverse (last_leg g)) <$> groups /\
    Forall2 (fun g path => weight_of path + target_part (last_leg g) = zsum l_weight (group_legs g) /\
      turn_via_node <$> path = group_legs g ≫= (fun l => turn_via_node <$> l_path l) /\
      omap turn_edge path = group_legs g ≫= (fun l => omap turn_edge (l_path l))) groups (unpacked_path_segments r).
Proof.
  intros Hall. exists (joined groups weight). split; [apply collapse_joined|]. do 4 (split; [done|]). simpl.
  apply Forall2_fmap_r, Forall_Forall2_diag. eapply Forall_impl; [exact Hall|]. intros [f rest] (H1 & H2 & H3).
  split; [by apply group_weight|]. apply group_fields.
Qed.

(** ** Traffic and the choice of the route *)

(** Between the same phantom nodes the search does not look at the traffic: the
    weight and the ends of the route are the same for all stores. *)
Theorem route_ignores_traffic {St H Handle} `{IndexStorage St, MutableHeap H Handle} facade geometry_index segment_data duration_penalties traffic iterate
    (q q' : QueryHeap St H Handle Mld.HeapData) live1 now1 now1' live2 now2 now2' sources targets r1 r2 l1 l2 :
  directShortestPathSearch facade geometry_index segment_data duration_penalties traffic iterate q q' live1 now1 now1' sources targets = Some (r1, l1) ->
  directShortestPathSearch facade geometry_index segment_data duration_penalties traffic iterate q q' live2 now2 now2' sources targets = Some (r2, l2) ->
  shortest_path_weight r1 = shortest_path_weight r2 /\ leg_endpoints r1 = leg_endpoints r2.
Proof.
  unfold directShortestPathSearch. destruct (insertNodesInHeaps _ _ _ _) as [[f r]|]; [|done]. cbn [mbind option_bind].
  destruct (Mld.search _ _ _ _ _ _ _ _) as [[[[[f2 r2'] weight] ns] es]|]; [|done]. cbn [mbind option_bind]. unfold extractRoute.
  destruct (INVALID_EDGE_WEIGHT =? weight); [by intros [= <- _] [= <- _]|].
  destruct (endpointsFromCandidates sources targets ns) as [[source target]|]; [|done]. cbn [mbind option_bind].
  destruct (head ns); [|done]. destruct (last ns); [|done]. cbn [mbind option_bind].
  destruct (annotatePath _ _ _ live1 _ _ _ _ _) as [[p1 l1']|]; [|done]. destruct (annotatePath _ _ _ live2 _ _ _ _ _) as [[p2 l2']|]; [|done].
  cbn [mbind option_bind]. by intros [= <- _] [= <- _].
Qed.

(** ** Concrete routes *)

(** From the first road over a turn of weight 4 to the second road. *)
Definition roads_facade : AnnotationFacade := mkAnnotationFacade (fun edge => [0] !z edge) two_roads_index two_roads [4] [2].
Definition road_2 : Road := mkRoad [20; 21; 22] [5; 6] [1; 1] [2; 2].
Definition phantom_1 : PhantomNode :=
  mkPhantomNode (mkSegmentID 0 true) (mkSegmentID 1 true) 35 35 30 0 3 4 1 true true true true.
Definition phantom_2 : PhantomNode :=
  mkPhantomNode (mkSegmentID 2 true) (mkSegmentID 3 true) 3 3 5 0 0 1 1 true true true true.

(** A sample of 5 km/h waits on the first road: it weighs ten times as much
    once the sample is aggregated. *)
Definition aggregated_store : LiveDataStore := default empty_store (AggregatePendingTrafficSamples flat_facade map_to_list waiting 120 2000 2000).
Definition slow_road : Road := mkRoad [10; 11; 12] [300; 700] [3; 7] [1; 1].
Definition first_stop : Stop := mkStop 0 slow_road 0 4 2.
Definition slow_phantom : PhantomNode := mkPhantomNode (mkSegmentID 0 true) (mkSegmentID 1 true) 350 350 300 0 3 4 1 true true true true.

Lemma small_weights (ws : list Z) : Forall (fun w => 0 <= w < 2 ^ 30) ws -> forall w, w ∈ ws -> 0 <= w < 2 ^ 30.
Proof. by rewrite Forall_forall. Qed.

Lemma roads_read : road_of roads_facade aggregated_store 0 slow_road /\ road_of roads_facade aggregated_store 2 road_2.
Proof.
  split; (split; [eexists _, _; split; [reflexivity|]; split; [split; reflexivity|by vm_compute]|done|done|done|done|apply small_weights; by repeat constructor]).
Qed.

Lemma annotation_adds_up_witness :
  exists path, annotatePath roads_facade flat_facade map_to_list waiting 2000 2000 (mkPhantomEndpoints slow_phantom phantom_2) [0; 2] [0] = Some (path, aggregated_store) /\
    turn_via_node <$> path = [12; 21] /\ weight_of path + 3 = (1000 + 4) + (5 + 3) - (300 + 350).
Proof.
  destruct (annotation_adds_up roads_facade flat_facade map_to_list waiting 2000 2000 ltac:(done) waiting_ok ltac:(done)) as (live' & Ea & _ & _ & Hpath).
  assert (live' = aggregated_store) as -> by (unfold aggregated_store; change 120 with (stale_seconds waiting); by rewrite Ea).
  destruct (Hpath slow_phantom phantom_2 [0] [first_stop] 2 road_2 false false 1 300 350 1 5 3
    ltac:(constructor; [split; [reflexivity|exact (proj1 roads_read)|reflexivity|reflexivity|simpl; lia]|constructor]) (proj2 roads_read)
    ltac:(split; [reflexivity|reflexivity|by vm_compute|reflexivity|reflexivity|split; [reflexivity|exists 700; split; [reflexivity|lia]]])
    ltac:(split; [reflexivity|reflexivity|by vm_compute|reflexivity|reflexivity|split; [reflexivity|exists 6; split; [reflexivity|lia]]])
    ltac:(intros H; discriminate H)) as (path & E & _ & Hv & _ & Hw & He & Hcut).
  exists path. split; [exact E|]. split; [exact Hv|]. rewrite Hcut in Hw by (repeat constructor; simpl; lia).
  rewrite Z.add_0_r in Hw. apply Hw. intros ->. destruct (He eq_refl) as [H _]. discriminate H.
Defined.

(** With a penalty of -500 at the first turn, on the segment of the source, the segment would weigh
    200 with 350 of it before the source: it is reported with 0, and the
    segments weigh 150 more than the path. *)
Definition reward : AnnotationFacade := mkAnnotationFacade (fun edge => [0] !z edge) two_roads_index two_roads [-500] [2].

Example negative_turn : exists path, annotate reward aggregated_store (mkPhantomEndpoints slow_phantom phantom_2) [0; 2] [0] = Some path /\
  weight_until_turn <$> path = [0; 5] /\ weight_of path + 3 = (1000 - 500) + (5 + 3) - (300 + 350) + 150.
Proof. eexists. split; [vm_compute; reflexivity|]. by vm_compute. Qed.

(** In a jam the segments of the same path weigh 677 with the target, while the
    weight of the path is 47 between these phantom nodes. *)
Theorem jam_annotation : exists path, annotate roads_facade jam (mkPhantomEndpoints phantom_1 phantom_2) [0; 2] [0] = Some path /\
  weight_of path + 3 = 677.
Proof. eexists. split; [vm_compute; reflexivity|]. by vm_compute. Qed.

(** ** Concrete legs *)

Definition via (forward backward : Z) : PhantomNode :=
  mkPhantomNode (mkSegmentID 0 true) (mkSegmentID 1 true) forward backward 0 0 0 0 0 true true true true.
Definition one_segment (w : Z) : PathData := mkPathData 0 11 w 0 0 0 0 None.

(** The second leg leaves the waypoint against the direction of its road, where
    9 lies before it and 3 in the other direction. *)
Definition leg_1 : Leg := mkLeg [one_segment 20] (mkPhantomEndpoints (via 2 1) (via 3 9)) false true 29.
Definition leg_2 : Leg := mkLeg [one_segment 11] (mkPhantomEndpoints (via 3 9) (via 0 4)) true false 11.

Lemma legs_ok : Forall leg_ok [leg_1; leg_2].
Proof. apply Forall_cons. split; [|apply Forall_cons; split; [|by apply Forall_nil]]; (split; [by intros _|done|intros x [= <-]; simpl; lia|by vm_compute]). Qed.

Lemma collapsed_legs_add_up_witness :
  exists r path, CollapseInternalRouteResult (leggy [leg_1; leg_2] 40) [true; false; true] = Some r /\
    unpacked_path_segments r = [path] /\ weight_of path + 0 = 29 + (11 + 0).
Proof.
  destruct (collapsed_legs_add_up [(leg_1, [leg_2])] 40) as (r & E & _ & _ & _ & _ & HF).
  - constructor; [|constructor]. split; [exact legs_ok|]. split; [by split|done].
  - destruct (unpacked_path_segments r) as [|path [|? ?]] eqn:Er; [inversion HF| |inversion HF as [|? ? ? ? ? HF']; inversion HF'].
    exists r, path. split; [exact E|]. split; [exact Er|]. inversion HF as [|? ? ? ? (Hw & _) _]. exact Hw.
Defined.

(** A leg without segments in front: what was taken off at its source is lost.
    The legs weigh 4 and 20, the joined leg 29. *)
Definition empty_leg : Leg := mkLeg [] (mkPhantomEndpoints (via 5 0) (via 9 0)) false false 4.
Definition next_leg : Leg := mkLeg [one_segment 20] (mkPhantomEndpoints (via 9 0) (via 0 0)) false false 20.

Theorem empty_leg_joined : exists r path, leg_ok empty_leg /\ leg_ok next_leg /\
  CollapseInternalRouteResult (leggy [empty_leg; next_leg] 24) [true; false; true] = Some r /\
  unpacked_path_segments r = [path] /\ weight_of path = 29.
Proof.
  eexists _, _. split; [split; [done|done|done|by vm_compute]|]. split; [split; [by intros _|done|intros x [= <-]; simpl; lia|by vm_compute]|].
  split; [vm_compute; reflexivity|]. split; [reflexivity|]. by vm_compute.
Qed.

(** ** A jam at the source *)

(** The road of node 2 of the city: one segment of weight 1. *)
Definition city_road : SegmentDataContainer := mkSegmentDataContainer [0; 2] [10; 11] [0; 1] [1; 0] [0; 1] [1; 0] [0; 0] [0; 0].
Definition end_of_road : EdgeBasedNodeSegment := mkEdgeBasedNodeSegment (mkSegmentID 2 true) (mkSegmentID SPECIAL_SEGMENTID false) 0.

(** From the end of that road to 5. *)
Definition city_answer (live : LiveDataStore) : option (Z * list Z) :=
  source ← phantom_of city_road (replicate 6 (mkGeometryID 0 true)) live end_of_road (double_of_Z 1);
  mlp ← (MultiLevelPartition_new example_partitions [4; 3] ≫= id);
  st ← CellStorage_new EdgeBasedEdge.forward EdgeBasedEdge.backward sequential_sort mlp (Reader.LoadEdgeBasedGraph sequential_sort 6 city_turns);
  '(metrics, qg) ← Run sequential_sort sequential_sort (fun l => seqZ 0 (num_cells mlp l))
    (QueryHeap_new (ArrayStorage_new 6) : QueryHeap ArrayStorage RefHeap Z CellCustomizer.HeapData)
    mlp 6 city_turns (replicate 6 1) [] [] st (replicate 6 0) (mkProfileProperties [] [0]);
  facade ← facades qg mlp st metrics city_penalties (replicate 6 0) (mkProfileProperties [] [0]) !! 0%nat;
  '(f, rv) ← insertNodesInHeaps (QueryHeap_new (ArrayStorage_new 6) : QueryHeap ArrayStorage RefHeap Z Mld.HeapData) (QueryHeap_new (ArrayStorage_new 6))
      [source] [phantom_at 5];
  '(_, _, W, ns, _) ← Mld.search (Mld.search_depth facade) facade f rv [] [] INVALID_EDGE_WEIGHT (Mld.Candidates [source] [phantom_at 5]);
  Some (W, ns).

(** Live weights at the source are subtracted from weights without traffic:
    the lightest route seems to weigh less than nothing and is refused, the
    detour over 0 is taken and reported with weight 1. *)
Theorem jam_detour : city_answer empty_store = Some (6, [2; 4; 3; 5]) /\ city_answer jam = Some (1, [2; 0; 3; 5]).
Proof. by vm_compute. Qed.
