(* ===== verification/NextPermutation.v ===== *)
(** * Enumerating the orders of a sequence

    Model of [std::next_permutation], by which the trip plugin of
    include/engine/trip/trip_brute_force.hpp walks through all orders of its
    locations.  The theorems say that the successor is the next order in the lexicographic
    ordering, so that a walk from the ascending order meets every order. *)
From S2P Require Import Prelude Sorting.
From Stdlib Require Import Factorial.
From stdpp Require Import sorting.
#[local] Open Scope Z_scope.

(** Exchange [x] with the last element that is greater; the result is that
    element and the range with [x] in its place. *)
Fixpoint swap_last_greater (x : Z) (r : list Z) : option (Z * list Z) :=
  match r with
  | [] => None
  | y :: r' =>
      match swap_last_greater x r' with
      | Some (z, k) => Some (z, y :: k)
      | None => if x <? y then Some (y, x :: r') else None
      end
  end.

(** [std::next_permutation]: the longest descending range at the end is
    reversed after the element in front of it was exchanged; [None] is the
    return value [false], given when the whole sequence is descending. *)
Fixpoint next_permutation (l : list Z) : option (list Z) :=
  match l with
  | [] => None
  | x :: r =>
      match next_permutation r with
      | Some r' => Some (x :: r')
      | None => '(y, k) ← swap_last_greater x r; Some (y :: reverse k)
      end
  end.

(** The ascending order is the least one, the descending one the greatest. *)
Lemma ascending_least k q : StronglySorted Z.le k -> q ≡ₚ k -> lexb q k = false.
Proof.
  revert q. induction k as [|x k IH]; intros [|z q] Hs Hp; [done..|]. apply StronglySorted_inv in Hs as [Hs Hx].
  apply not_true_iff_false. rewrite lexb_cons. intros [Hz|[-> Hq]].
  - assert (z ∈ x :: k) as Hin by (rewrite <- Hp; by left). apply elem_of_cons in Hin as [->|Hin]; [lia|].
    rewrite Forall_forall in Hx. specialize (Hx z Hin). lia.
  - apply Permutation_cons_inv in Hp. by rewrite (IH q Hs Hp) in Hq.
Qed.

Lemma descending_greatest k q : StronglySorted Z.ge k -> q ≡ₚ k -> lexb k q = false.
Proof.
  revert q. induction k as [|x k IH]; intros [|z q] Hs Hp; [done..|]. apply StronglySorted_inv in Hs as [Hs Hx].
  apply not_true_iff_false. rewrite lexb_cons. intros [Hz|[-> Hq]].
  - assert (z ∈ x :: k) as Hin by (rewrite <- Hp; by left). apply elem_of_cons in Hin as [->|Hin]; [lia|].
    rewrite Forall_forall in Hx. specialize (Hx z Hin). lia.
  - apply Permutation_cons_inv in Hp. by rewrite (IH q Hs Hp) in Hq.
Qed.

Lemma descending_reverse k : StronglySorted Z.ge k -> StronglySorted Z.le (reverse k).
Proof.
  induction k as [|x k IH]; intros Hs; [constructor|]. apply StronglySorted_inv in Hs as [Hs Hx]. rewrite reverse_cons.
  specialize (IH Hs). assert (Forall (fun y => y <= x) (reverse k)) as Hr.
  { apply Forall_forall. intros y Hy. rewrite elem_of_reverse in Hy. rewrite Forall_forall in Hx. specialize (Hx y Hy). lia. }
  clear Hs Hx. induction IH as [|y l _ IHl Hl]; simpl; [repeat constructor|]. apply Forall_cons in Hr as [Hy Hr].
  constructor; [by apply IHl|]. apply Forall_app. split; [done|by repeat constructor].
Qed.

(** ** The successor *)

Lemma swap_last_greater_none x r : swap_last_greater x r = None -> Forall (fun y => y <= x) r.
Proof.
  induction r as [|y r IH]; simpl; [constructor|]. destruct (swap_last_greater x r) as [[]|]; [done|].
  destruct (Z.ltb_spec x y); [done|]. constructor; [done|by apply IH].
Qed.

Lemma swap_last_greater_some x r y k : swap_last_greater x r = Some (y, k) ->
  exists a b, r = a ++ y :: b /\ k = a ++ x :: b /\ x < y /\ Forall (fun z => z <= x) b.
Proof.
  revert k. induction r as [|z r IH]; intros k; simpl; [done|]. destruct (swap_last_greater x r) as [[z' k']|] eqn:E.
  - intros [= -> <-]. destruct (IH k' eq_refl) as (a & b & -> & -> & H). by exists (z :: a), b.
  - destruct (Z.ltb_spec x z); [|done]. intros [= -> <-]. exists [], r. split_and!; [done..|]. by apply swap_last_greater_none.
Qed.

Lemma next_permutation_none l : next_permutation l = None -> StronglySorted Z.ge l.
Proof.
  induction l as [|x l IH]; simpl; [constructor|]. destruct (next_permutation l); [done|]. destruct (swap_last_greater x l) as [[]|] eqn:E; [done|].
  intros _. constructor; [by apply IH|]. apply swap_last_greater_none in E. apply (Forall_impl _ _ _ E). lia.
Qed.

(** A descending range with [x] in the place of the last greater element. *)
Lemma descending_exchange a b x y : x < y -> StronglySorted Z.ge (a ++ y :: b) -> Forall (fun z => z <= x) b ->
  StronglySorted Z.ge (a ++ x :: b).
Proof.
  intros Hxy. induction a as [|z a IH]; simpl; intros [Hs Hz]%StronglySorted_inv Hb.
  - constructor; [done|]. apply (Forall_impl _ _ _ Hb). lia.
  - constructor; [by apply IH|]. apply Forall_app in Hz as [Ha Hz]. apply Forall_cons in Hz as [Hy Hz].
    apply Forall_app. split; [done|]. constructor; [lia|done].
Qed.

(** The least of the greater elements is the last one of a descending range. *)
Lemma descending_least_greater a b x y z : StronglySorted Z.ge (a ++ y :: b) -> Forall (fun z => z <= x) b ->
  z ∈ a ++ y :: b -> x < z -> y <= z.
Proof.
  intros Hs Hb Hz Hxz. rewrite Forall_forall in Hb. apply elem_of_app in Hz as [Hz|[->|Hz]%elem_of_cons]; [|lia|specialize (Hb z Hz); lia].
  induction a as [|c a IH]; [by apply elem_of_nil in Hz|]. simpl in Hs. apply StronglySorted_inv in Hs as [Hs Hc].
  apply elem_of_cons in Hz as [->|Hz]; [|by apply IH]. rewrite Forall_forall in Hc. specialize (Hc y ltac:(set_solver)). lia.
Qed.

(** The successor is a permutation, is greater, and nothing is between. *)
Lemma next_permutation_spec l l' : next_permutation l = Some l' ->
  l' ≡ₚ l /\ lexb l l' = true /\ forall p, p ≡ₚ l -> lexb l p = true -> lexb p l' = false.
Proof.
  revert l'. induction l as [|x r IH]; intros l'; cbn [next_permutation]; [done|]. destruct (next_permutation r) as [r'|] eqn:En.
  - intros [= <-]. destruct (IH r' eq_refl) as (Hp & Hl & Hb). split_and!; [by rewrite Hp|apply lexb_cons; by right|].
    intros [|z q] Hq; [done|]. rewrite lexb_cons, <- not_true_iff_false, lexb_cons. intros [?|[-> Hz]]; [lia|].
    intros [?|[_ Hqr]]; [lia|]. apply Permutation_cons_inv in Hq. by rewrite (Hb q Hq Hz) in Hqr.
  - destruct (swap_last_greater x r) as [[y k]|] eqn:Es; [|done]. intros [= <-]. apply next_permutation_none in En.
    destruct (swap_last_greater_some x r y k Es) as (a & b & -> & -> & Hxy & Hb). clear IH Es.
    assert (y :: a ++ x :: b ≡ₚ x :: a ++ y :: b) as Hk by (rewrite <- !Permutation_middle; apply Permutation_swap).
    split_and!; [by rewrite reverse_Permutation|apply lexb_cons; by left|].
    intros [|z q] Hq; [done|]. rewrite lexb_cons, <- not_true_iff_false, lexb_cons. intros [Hz|[-> Hz]].
    + assert (z ∈ x :: a ++ y :: b) as Hin by (rewrite <- Hq; by left). apply elem_of_cons in Hin as [->|Hin]; [lia|].
      pose proof (descending_least_greater a b x y z En Hb Hin Hz). intros [?|[-> Hqk]]; [lia|].
      rewrite ascending_least in Hqk; [done|by apply descending_reverse, (descending_exchange a b x y)|].
      rewrite reverse_Permutation. apply (Permutation_cons_inv (a := y)). by rewrite Hq.
    + apply Permutation_cons_inv in Hq. by rewrite (descending_greatest _ q En Hq) in Hz.
Qed.

(** ** How many orders there are *)

Lemma interleave_length {A} (x : A) l : length (interleave x l) = S (length l).
Proof. induction l as [|y l IH]; simpl; [done|]. by rewrite length_fmap, IH. Qed.

Lemma permutations_length {A} (l : list A) : length (permutations l) = fact (length l).
Proof.
  induction l as [|x l IH]; [done|]. change (permutations (x :: l)) with (permutations l ≫= interleave x). change (length (x :: l)) with (S (length l)).
  change (fact (S (length l))) with (S (length l) * fact (length l))%nat. rewrite <- IH. assert (forall p, p ∈ permutations l -> length p = length l) as Hlen.
  { intros p Hp%permutations_Permutation. by rewrite Hp. }
  revert Hlen. generalize (permutations l) as ps. intros ps Hlen. induction ps as [|p ps IHps]; [simpl; lia|].
  change ((p :: ps) ≫= interleave x) with (interleave x p ++ (ps ≫= interleave x)). rewrite length_app, interleave_length, IHps by set_solver.
  rewrite (Hlen p) by set_solver. simpl. lia.
Qed.

(** The orders of [l0] that come after [l]. *)
Definition orders_after (l0 l : list Z) : list (list Z) := filter (fun p => lexb l p = true) (permutations l0).

Lemma orders_after_fact l0 l : (length (orders_after l0 l) <= fact (length l0))%nat.
Proof. unfold orders_after. rewrite <- permutations_length. apply length_filter. Qed.

Lemma orders_after_next l0 l l' : l ≡ₚ l0 -> next_permutation l = Some l' ->
  (length (orders_after l0 l') < length (orders_after l0 l))%nat.
Proof.
  intros Hl0 (Hp & Hl & _)%next_permutation_spec. apply (filter_fewer _ _ _ l').
  - apply permutations_Permutation. by rewrite Hp.
  - done.
  - by rewrite lexb_irrefl.
  - intros y Hy. by apply (lexb_trans l l').
Qed.
