(* ===== verification/Trip.v ===== *)
(** * Trips

    Model of the trip plugin: src/engine/plugins/trip.cpp,
    include/engine/trip/trip_brute_force.hpp,
    include/engine/trip/trip_farthest_insertion.hpp and the table of
    include/util/dist_table_wrapper.hpp.  A trip visits all locations of a request; the table
    of durations is changed so that a search for a round trip also finds trips
    with a fixed start or end.  The theorems say that the order returned is one that was asked
    for and, up to nine locations, that no other order asked for is shorter. *)
From S2P Require Import Prelude Sorting.
From S2P Require Import NextPermutation.
From Stdlib Require Import Factorial Sorted.
#[local] Open Scope Z_scope.

(** ** Tables of durations *)

Definition INVALID_EDGE_DURATION : Z := INT32_MAX.
Definition INVALID_INDEX : Z := 2 ^ 64 - 1.

Record DistTableWrapper : Type := mkDistTable { table_ : list Z; number_of_nodes_ : Z }.

Definition dist_table (t : DistTableWrapper) (from to : Z) : option Z := table_ t !z (from * number_of_nodes_ t + to).

Definition SetValue (from to value : Z) (t : DistTableWrapper) : option DistTableWrapper :=
  table ← zset (from * number_of_nodes_ t + to) value (table_ t); Some (mkDistTable table (number_of_nodes_ t)).

(** A loop over ids. *)
Definition for_ids {T} (f : Z -> T -> option T) (ids : list Z) (t : T) : option T :=
  foldl (fun r i => t' ← r; f i t') (Some t) ids.

Definition ManipulateTableForFSE (source_id destination_id : Z) (t : DistTableWrapper) : option DistTableWrapper :=
  t ← for_ids (fun i t => if i =? source_id then Some t else SetValue i source_id INVALID_EDGE_DURATION t) (seqZ 0 (number_of_nodes_ t)) t;
  t ← for_ids (fun i t => if i =? destination_id then Some t else SetValue destination_id i INVALID_EDGE_DURATION t) (seqZ 0 (number_of_nodes_ t)) t;
  t ← SetValue destination_id source_id 0 t;
  SetValue source_id destination_id INVALID_EDGE_DURATION t.

Definition ManipulateTableForNonRoundtripFS (source_id : Z) (t : DistTableWrapper) : option DistTableWrapper :=
  for_ids (fun i t => SetValue i source_id 0 t) (seqZ 0 (number_of_nodes_ t)) t.

Definition ManipulateTableForNonRoundtripFE (destination_id : Z) (t : DistTableWrapper) : option DistTableWrapper :=
  for_ids (fun i t => SetValue destination_id i 0 t) (seqZ 0 (number_of_nodes_ t)) t.

Definition IsStronglyConnectedComponent (t : DistTableWrapper) : bool := negb (existsb (Z.eqb INVALID_EDGE_DURATION) (table_ t)).

(** ** Trying all orders *)

(** The loop of [ReturnDistance] from [current_index] on. *)
Fixpoint distance_from (fuel : nat) (t : DistTableWrapper) (location_order : list Z) (min_route_dist number_of_locations current_index route_dist : Z) : option Z :=
  match fuel with
  | O => None
  | S fuel' =>
      if (current_index <? zlen location_order) && (route_dist <? min_route_dist) then
        let next_index := (current_index + 1) mod number_of_locations in
        u ← location_order !z current_index; v ← location_order !z next_index;
        edge_weight ← dist_table t u v;
        if edge_weight =? INVALID_EDGE_DURATION then Some INVALID_EDGE_DURATION
        else distance_from fuel' t location_order min_route_dist number_of_locations (current_index + 1) (weight_add route_dist edge_weight)
      else Some route_dist
  end.

Definition ReturnDistance (t : DistTableWrapper) (location_order : list Z) (min_route_dist number_of_locations : Z) : option Z :=
  distance_from (S (length location_order)) t location_order min_route_dist number_of_locations 0 0.

(** The do-while loop of [BruteForceTrip]. *)
Fixpoint try_orders (fuel : nat) (t : DistTableWrapper) (number_of_locations : Z) (node_order route : list Z) (min_route_dist : Z) : option (list Z) :=
  match fuel with
  | O => None
  | S fuel' =>
      new_distance ← ReturnDistance t node_order min_route_dist number_of_locations;
      let '(route, min_route_dist) := if new_distance <? min_route_dist then (node_order, new_distance) else (route, min_route_dist) in
      match next_permutation node_order with
      | Some node_order => try_orders fuel' t number_of_locations node_order route min_route_dist
      | None => Some route
      end
  end.

Definition BruteForceTrip (number_of_locations : Z) (t : DistTableWrapper) : option (list Z) :=
  let node_order := seqZ 0 number_of_locations in
  try_orders (S (fact (length node_order))) t number_of_locations node_order node_order INVALID_EDGE_DURATION.

(** ** Farthest insertion *)

(** The loop of [GetShortestRoundTrip] over the positions of a route; a
    position stands for an iterator, and there is none before the first
    candidate. *)
Definition try_position (new_loc : Z) (t : DistTableWrapper) (route : list Z) (from_node : Z) (best : Z * option Z) : option (Z * option Z) :=
  let to_node := if from_node + 1 =? zlen route then 0 else from_node + 1 in
  u ← route !z from_node; v ← route !z to_node;
  dist_from ← dist_table t u new_loc;
  dist_to ← dist_table t new_loc v;
  if (dist_from =? INVALID_EDGE_DURATION) || (dist_to =? INVALID_EDGE_DURATION) then Some best
  else
    old ← dist_table t u v;
    let trip_dist := swrap 32 (weight_add dist_from dist_to - old) in
    Some (if trip_dist <? best.1 then (trip_dist, Some to_node) else best).

Definition GetShortestRoundTrip (new_loc : Z) (t : DistTableWrapper) (route : list Z) : option (Z * option Z) :=
  for_ids (try_position new_loc t route) (seqZ 0 (zlen route)) (INVALID_EDGE_DURATION, None).

(** The farthest location so far: its distance, the location and where it goes. *)
Definition try_location (t : DistTableWrapper) (visited : list bool) (route : list Z) (id : Z) (best : Z * Z * option Z) : option (Z * Z * option Z) :=
  is_visited ← visited !z id;
  if is_visited : bool then Some best
  else
    insert_candidate ← GetShortestRoundTrip id t route;
    Some (if best.1.1 <? insert_candidate.1 then (insert_candidate.1, id, insert_candidate.2) else best).

(** [route.insert(position, x)] *)
Definition insert_at (position x : Z) (route : list Z) : option (list Z) :=
  if (0 <=? position) && (position <=? zlen route) then Some (take (Z.to_nat position) route ++ x :: drop (Z.to_nat position) route) else None.

Definition add_farthest (number_of_locations : Z) (t : DistTableWrapper) (added_nodes : Z) (s : list bool * list Z) : option (list bool * list Z) :=
  let '(visited, route) := s in
  '(_, next_node, next_insert_point) ← for_ids (try_location t visited route) (seqZ 0 number_of_locations) (- 2 ^ 31, -1, None);
  visited ← zset next_node true visited;
  position ← next_insert_point;
  route ← insert_at position next_node route;
  Some (visited, route).

Definition FindRoute (number_of_locations : Z) (t : DistTableWrapper) (start1 start2 : Z) : option (list Z) :=
  let visited := replicate (Z.to_nat number_of_locations) false in
  visited ← zset start1 true visited;
  visited ← zset start2 true visited;
  s ← for_ids (add_farthest number_of_locations t) (seqZ 2 (number_of_locations - 2)) (visited, [start1; start2]);
  Some s.2.

(** [std::max_element]: the position of the first greatest element. *)
Fixpoint max_index (best best_value i : Z) (l : list Z) : Z :=
  match l with
  | [] => best
  | x :: l' => if best_value <? x then max_index i x (i + 1) l' else max_index best best_value (i + 1) l'
  end.

Definition FarthestInsertionTrip (number_of_locations : Z) (t : DistTableWrapper) : option (list Z) :=
  match table_ t with
  | _ :: x :: rest =>
      let index_of_farthest_distance := max_index 1 x 2 rest in
      FindRoute number_of_locations t (index_of_farthest_distance / number_of_locations) (index_of_farthest_distance mod number_of_locations)
  | _ => None
  end.

(** ** Requests *)

Inductive SourceType : Type := SourceAny | First.
Inductive DestinationType : Type := DestinationAny | Last.

(** A request and what the engine found out about it: whether the algorithms
    have the searches and the options, whether the coordinates are valid, how many locations
    have a segment, and the table of durations between them. *)
Record TripRequest : Type := mkTripRequest {
  HasShortestPathSearch : bool;
  HasManyToManySearch : bool;
  source : SourceType;
  destination : DestinationType;
  roundtrip : bool;
  coordinates_size : Z;
  max_locations_trip : Z;
  CheckAllCoordinates : bool;
  CheckAlgorithms : bool;
  phantom_node_pairs_size : Z;
  durations : list Z
}.

Inductive TripResponse : Type :=
| Error (code : string)
| StatusError
| Ok (duration_trip : list Z) (trip_candidates : list Z).

Definition IsSupportedParameterCombination (fixed_start fixed_end roundtrip : bool) : bool := roundtrip || fixed_start || fixed_end.

(** [std::find]: the position of [x], or the end. *)
Fixpoint find_position (x : Z) (l : list Z) : nat :=
  match l with
  | [] => O
  | y :: l' => if y =? x then O else S (find_position x l')
  end.

(** [std::rotate] *)
Definition rotate_to (position : nat) (l : list Z) : list Z := drop position l ++ take position l.

(** The waypoints of the route: back to the first one for a round trip. *)
Definition ComputeRoute (trip : list Z) (roundtrip : bool) : list Z := if roundtrip then trip ++ take 1 trip else trip.

Definition BF_MAX_FEASIBLE : Z := 10.

Definition manipulate_table (fixed_start fixed_end roundtrip : bool) (source_id destination_id : Z) (t : DistTableWrapper) : option DistTableWrapper :=
  if fixed_start && fixed_end then ManipulateTableForFSE source_id destination_id t
  else if negb roundtrip && fixed_start then ManipulateTableForNonRoundtripFS source_id t
  else if negb roundtrip && fixed_end then ManipulateTableForNonRoundtripFE destination_id t
  else Some t.

Definition find_trip (number_of_locations : Z) (t : DistTableWrapper) : option (list Z) :=
  if number_of_locations <? BF_MAX_FEASIBLE then BruteForceTrip number_of_locations t else FarthestInsertionTrip number_of_locations t.

Definition rotate_trip (fixed_start fixed_end roundtrip : bool) (destination_id : Z) (duration_trip : list Z) : list Z :=
  if negb fixed_end || fixed_start then rotate_to (find_position 0 duration_trip) duration_trip
  else
    let destination_index := find_position destination_id duration_trip in
    if negb roundtrip then
      let destination_index := S destination_index in
      rotate_to (if decide (destination_index = length duration_trip) then O else destination_index) duration_trip
    else rotate_to destination_index duration_trip.

Definition HandleRequest (r : TripRequest) : option TripResponse :=
  if negb (HasShortestPathSearch r) then Some (Error "NotImplemented")
  else if negb (HasManyToManySearch r) then Some (Error "NotImplemented")
  else
    let number_of_locations := coordinates_size r in
    let source_id := match source r with First => 0 | SourceAny => INVALID_INDEX end in
    let destination_id := match destination r with Last => wrap 64 (number_of_locations - 1) | DestinationAny => INVALID_INDEX end in
    let fixed_start := source_id =? 0 in
    let fixed_end := destination_id =? wrap 64 (number_of_locations - 1) in
    if negb (IsSupportedParameterCombination fixed_start fixed_end (roundtrip r)) then Some (Error "NotImplemented")
    else if (0 <? max_locations_trip r) && (max_locations_trip r <? swrap 32 number_of_locations) then Some (Error "TooBig")
    else if negb (CheckAllCoordinates r) then Some (Error "InvalidValue")
    else if negb (CheckAlgorithms r) then Some StatusError
    else if negb (phantom_node_pairs_size r =? number_of_locations) then Some (Error "NoSegment")
    else if fixed_start && fixed_end && ((number_of_locations <=? source_id) || (number_of_locations <=? destination_id)) then Some (Error "InvalidValue")
    else
      let result_duration_table := mkDistTable (durations r) number_of_locations in
      if zlen (durations r) =? 0 then Some StatusError
      else if negb (IsStronglyConnectedComponent result_duration_table) then Some (Error "NoTrips")
      else
        result_duration_table ← manipulate_table fixed_start fixed_end (roundtrip r) source_id destination_id result_duration_table;
        duration_trip ← find_trip number_of_locations result_duration_table;
        let duration_trip := rotate_trip fixed_start fixed_end (roundtrip r) destination_id duration_trip in
        Some (Ok duration_trip (ComputeRoute duration_trip (roundtrip r))).

(** ** Round trips and their durations *)

(** The legs of a round trip and of a trip that does not return. *)
Definition legs (p : list Z) : list (Z * Z) := zip p (drop 1 p ++ take 1 p).
Definition path_legs (p : list Z) : list (Z * Z) := zip p (drop 1 p).

Definition duration_bound : Z := 2 ^ 27.

Section durations.
Context (d : Z -> Z -> Z).

(** The duration of legs, which is invalid if one of them is. *)
Definition trip_duration (ls : list (Z * Z)) : Z :=
  if existsb (fun e => d e.1 e.2 =? INVALID_EDGE_DURATION) ls then INVALID_EDGE_DURATION else zsum (fun e => d e.1 e.2) ls.

#[global] Instance trip_duration_Permutation : Proper ((≡ₚ) ==> (=)) trip_duration.
Proof.
  intros l k H. unfold trip_duration. rewrite (zsum_Permutation _ _ _ H).
  destruct (existsb _ l) eqn:El, (existsb _ k) eqn:Ek; [done| | |done]; exfalso.
  - apply existsb_exists in El as (x & Hx & Ex). apply not_true_iff_false in Ek. apply Ek, existsb_exists. exists x. split; [|done].
    apply list_elem_of_In. rewrite <- H. by apply list_elem_of_In.
  - apply existsb_exists in Ek as (x & Hx & Ex). apply not_true_iff_false in El. apply El, existsb_exists. exists x. split; [|done].
    apply list_elem_of_In. rewrite H. by apply list_elem_of_In.
Qed.

Lemma trip_duration_valid ls : (forall e, e ∈ ls -> d e.1 e.2 <> INVALID_EDGE_DURATION) -> trip_duration ls = zsum (fun e => d e.1 e.2) ls.
Proof.
  intros Hv. unfold trip_duration. destruct (existsb _ ls) eqn:E; [|done]. apply existsb_exists in E as (x & Hx%list_elem_of_In & Ex%Z.eqb_eq).
  by destruct (Hv x Hx).
Qed.

Lemma trip_duration_invalid ls e : e ∈ ls -> d e.1 e.2 = INVALID_EDGE_DURATION -> trip_duration ls = INVALID_EDGE_DURATION.
Proof.
  intros He Hd. unfold trip_duration. assert (existsb (fun e => d e.1 e.2 =? INVALID_EDGE_DURATION) ls = true) as ->; [|done].
  apply existsb_exists. exists e. split; [by apply list_elem_of_In|by apply Z.eqb_eq].
Qed.
End durations.

Lemma legs_length p : length (legs p) = length p.
Proof. unfold legs. rewrite length_zip, length_app, length_drop, length_take. lia. Qed.

(** A table holds [d] for the ids below [n]; its durations are short or invalid. *)
Record table_of (n : Z) (d : Z -> Z -> Z) (t : DistTableWrapper) : Prop := {
  table_nodes : number_of_nodes_ t = n;
  table_size : zlen (table_ t) = n * n;
  table_get : forall u v, 0 <= u < n -> 0 <= v < n -> dist_table t u v = Some (d u v);
}.

Definition short (n : Z) (d : Z -> Z -> Z) : Prop :=
  forall u v, 0 <= u < n -> 0 <= v < n -> d u v = INVALID_EDGE_DURATION \/ 0 <= d u v < duration_bound.

Lemma seqZ_ids n u : u ∈ seqZ 0 n <-> 0 <= u < n.
Proof. rewrite elem_of_seqZ. lia. Qed.

Lemma order_ids n p u : p ≡ₚ seqZ 0 n -> u ∈ p -> 0 <= u < n.
Proof. intros Hp Hu. apply seqZ_ids. by rewrite <- Hp. Qed.

Lemma order_zlen n p : 0 <= n -> p ≡ₚ seqZ 0 n -> zlen p = n.
Proof. intros Hn ->. unfold zlen. rewrite length_seqZ. lia. Qed.

(** The leg that starts at a position. *)
Lemma legs_get p i : 0 <= i < zlen p -> exists u v, p !z i = Some u /\ p !z ((i + 1) mod zlen p) = Some v /\ legs p !! Z.to_nat i = Some (u, v).
Proof.
  intros Hi. destruct (zget_is_some p i Hi) as [u Hu]. destruct (zget_is_some p ((i + 1) mod zlen p)) as [v Hv]; [apply Z.mod_pos_bound; lia|].
  exists u, v. split_and!; [done..|]. unfold legs. apply lookup_zip_Some. split; [by rewrite <- (Z2Nat.id i), zget_nat in Hu by lia|].
  destruct (decide (i + 1 = zlen p)) as [E|E].
  - rewrite E, Z_mod_same_full in Hv. unfold zlen in *. rewrite lookup_app_r by (rewrite length_drop; lia). rewrite length_drop.
    replace (Z.to_nat i - (length p - 1))%nat with O by lia. by destruct p.
  - rewrite Z.mod_small in Hv by lia. unfold zlen in *. rewrite lookup_app_l by (rewrite length_drop; lia). rewrite lookup_drop.
    rewrite <- (Z2Nat.id (i + 1)), zget_nat in Hv by lia. by replace (1 + Z.to_nat i)%nat with (Z.to_nat (i + 1)) by lia.
Qed.

Lemma legs_elem p u v : (u, v) ∈ legs p -> u ∈ p /\ v ∈ p.
Proof.
  unfold legs. intros H. split; [by apply elem_of_zip_l in H|]. apply elem_of_zip_r in H as Hv. rewrite elem_of_app in Hv. destruct Hv as [Hv|Hv].
  - rewrite <- (take_drop 1 p). set_solver.
  - rewrite <- (take_drop 1 p). set_solver.
Qed.

(** ** The shortest of all orders *)

Lemma seqZ_ascending m k : StronglySorted Z.le (seqZ m k).
Proof.
  destruct (decide (0 <= k)) as [Hk|Hk]; [|unfold seqZ; replace (Z.to_nat k) with O by lia; constructor]. revert m. pattern k. revert k Hk.
  apply natlike_ind; [constructor|]. intros k Hk IH m. rewrite seqZ_cons, Z.pred_succ by lia. constructor; [apply IH|].
  apply Forall_forall. intros x Hx%elem_of_seqZ. lia.
Qed.

Section brute.
Context (n : Z) (d : Z -> Z -> Z) (t : DistTableWrapper) (Hn : 1 <= n < BF_MAX_FEASIBLE).
Context (Ht : table_of n d t) (Hd : short n d).

Lemma distance_from_exact fuel p min i acc : p ≡ₚ seqZ 0 n -> min <= INVALID_EDGE_DURATION -> 0 <= i <= n -> 0 <= acc <= i * duration_bound ->
  n - i < Z.of_nat fuel ->
  let total := if existsb (fun e => d e.1 e.2 =? INVALID_EDGE_DURATION) (drop (Z.to_nat i) (legs p)) then INVALID_EDGE_DURATION
    else acc + zsum (fun e => d e.1 e.2) (drop (Z.to_nat i) (legs p)) in
  exists v, distance_from fuel t p min n i acc = Some v /\ (v <? min) = (total <? min) /\ (total < min -> v = total).
Proof using Hn Ht Hd.
  intros Hp Hmin. pose proof (order_zlen n p ltac:(lia) Hp) as Hlen. assert (forall ls, (forall e, e ∈ ls -> e ∈ legs p) -> existsb (fun e => d e.1 e.2 =? INVALID_EDGE_DURATION) ls = false -> 0 <= zsum (fun e => d e.1 e.2) ls) as Hpos.
  { intros ls Hls Hv. apply zsum_nonneg. intros [u v] He. destruct (legs_elem p u v (Hls _ He)) as [Hu Hw].
    apply (order_ids n) in Hu; [|done]. apply (order_ids n) in Hw; [|done]. simpl. destruct (Hd u v Hu Hw) as [E|E]; [|lia].
    exfalso. apply not_true_iff_false in Hv. apply Hv, existsb_exists. exists (u, v). split; [by apply list_elem_of_In|by apply Z.eqb_eq]. }
  revert i acc. induction fuel as [|fuel IH]; intros i acc Hi Hacc Hfuel; cbv zeta; [lia|]. cbn [distance_from]. rewrite Hlen.
  destruct (Z.ltb_spec i n) as [Hin|Hin].
  2:{ simpl. exists acc. split; [done|]. rewrite drop_ge by (rewrite legs_length; unfold zlen in Hlen; lia). simpl. by rewrite Z.add_0_r. }
  destruct (legs_get p i) as (u & v & Hu & Hv & Hl); [lia|]. rewrite Hlen in Hv. destruct (Z.ltb_spec acc min) as [Hm|Hm].
  2:{ simpl. exists acc. split; [done|]. destruct (existsb _ (drop _ _)) eqn:E; [rewrite (proj2 (Z.ltb_ge acc min)), (proj2 (Z.ltb_ge INVALID_EDGE_DURATION min)) by lia; split; [done|lia]|].
    pose proof (Hpos (drop (Z.to_nat i) (legs p)) ltac:(intros e He; rewrite <- (take_drop (Z.to_nat i) (legs p)); set_solver) E).
    rewrite (proj2 (Z.ltb_ge _ min)), (proj2 (Z.ltb_ge _ min)) by lia. split; [done|lia]. }
  simpl andb. cbv iota zeta. step_opt Hu. step_opt Hv. assert (0 <= u < n) as Hun by (apply (order_ids n p); [done|by eapply zget_elem]).
  assert (0 <= v < n) as Hvn by (apply (order_ids n p); [done|by eapply zget_elem]). step_opt (table_get n d t Ht u v Hun Hvn).
  rewrite (drop_S _ _ _ Hl). cbn [existsb zsum foldr fst snd]. destruct (Z.eqb_spec (d u v) INVALID_EDGE_DURATION) as [E|E].
  { exists INVALID_EDGE_DURATION. simpl. split; [done|]. split; [done|lia]. }
  destruct (Hd u v Hun Hvn) as [?|Hb]; [done|]. unfold weight_add. unfold BF_MAX_FEASIBLE, duration_bound in *. rewrite swrap_small by lia. simpl orb.
  destruct (IH (i + 1) (acc + d u v)) as (w & Hw & Hw1 & Hw2); [lia..|]. exists w. split; [done|].
  replace (Z.to_nat (i + 1)) with (S (Z.to_nat i)) in * by lia. destruct (existsb _ _); [done|]. unfold zsum in *. rewrite Z.add_assoc. done.
Qed.

Lemma ReturnDistance_exact p min : p ≡ₚ seqZ 0 n -> min <= INVALID_EDGE_DURATION ->
  exists v, ReturnDistance t p min n = Some v /\ (v <? min) = (trip_duration d (legs p) <? min) /\
    (trip_duration d (legs p) < min -> v = trip_duration d (legs p)).
Proof using Hn Ht Hd.
  intros Hp Hmin. pose proof (order_zlen n p ltac:(lia) Hp) as Hlen. unfold zlen in Hlen. unfold duration_bound in *.
  destruct (distance_from_exact (S (length p)) p min 0 0 Hp Hmin) as (v & Hv); [lia..|]. exists v. exact Hv.
Qed.

(** The loop keeps the shortest of the orders that were tried. *)
Lemma try_orders_shortest fuel p route min : p ≡ₚ seqZ 0 n -> route ≡ₚ seqZ 0 n -> min <= INVALID_EDGE_DURATION ->
  trip_duration d (legs route) <= min -> (forall q, q ≡ₚ seqZ 0 n -> lexb q p = true -> min <= trip_duration d (legs q)) ->
  (length (orders_after (seqZ 0 n) p) < fuel)%nat ->
  exists r, try_orders fuel t n p route min = Some r /\ r ≡ₚ seqZ 0 n /\
    forall q, q ≡ₚ seqZ 0 n -> trip_duration d (legs r) <= trip_duration d (legs q).
Proof using Hn Ht Hd.
  revert p route min. induction fuel as [|fuel IH]; intros p route min Hp Hr Hmin Hle Hq Hf; [lia|]. cbn [try_orders].
  destruct (ReturnDistance_exact p min Hp Hmin) as (v & Hv & Hv1 & Hv2). step_opt Hv. rewrite Hv1.
  set (s := if trip_duration d (legs p) <? min then (p, v) else (route, min)).
  assert (s.1 ≡ₚ seqZ 0 n /\ s.2 <= INVALID_EDGE_DURATION /\ trip_duration d (legs s.1) <= s.2 /\ s.2 <= min /\ s.2 <= trip_duration d (legs p)) as (Hs1 & Hs2 & Hs3 & Hs4 & Hs5).
  { unfold s. destruct (Z.ltb_spec (trip_duration d (legs p)) min) as [H|H]; simpl; [rewrite (Hv2 H); split_and!; [done|lia..]|split_and!; [done|lia..]]. }
  destruct s as [route' min']. simpl in *. assert (forall q, q ≡ₚ seqZ 0 n -> lexb p q = false -> min' <= trip_duration d (legs q)) as Hq'.
  { intros q Hqn Hl. destruct (lexb_total p q) as [<-|H]; [by rewrite Hp, Hqn|done|done|]. specialize (Hq q Hqn H). lia. }
  destruct (next_permutation p) as [p'|] eqn:En.
  - pose proof (orders_after_next (seqZ 0 n) p p' Hp En). destruct (next_permutation_spec p p' En) as (Hp' & Hlex & Hnone).
    apply IH; [by rewrite Hp'|done..| |lia]. intros q Hqn Hl. destruct (lexb p q) eqn:E; [|by apply Hq'].
    rewrite Hnone in Hl; [done|by rewrite Hqn|done].
  - exists route'. split; [done|]. split; [done|]. intros q Hqn. transitivity min'; [done|]. apply Hq'; [done|].
    apply descending_greatest; [by apply next_permutation_none|by rewrite Hqn].
Qed.

Lemma trip_duration_le_invalid p : p ≡ₚ seqZ 0 n -> trip_duration d (legs p) <= INVALID_EDGE_DURATION.
Proof using Hn Ht Hd.
  intros Hp. unfold trip_duration. destruct (existsb _ _) eqn:E; [done|]. pose proof (order_zlen n p ltac:(lia) Hp) as Hlen.
  assert (forall ls, (forall e, e ∈ ls -> e ∈ legs p) -> zsum (fun e => d e.1 e.2) ls <= zlen ls * duration_bound) as H.
  { induction ls as [|[u v] ls IH]; intros Hls; [done|]. rewrite zlen_cons. specialize (IH ltac:(set_solver)).
    change (zsum (fun e => d e.1 e.2) ((u, v) :: ls)) with (d u v + zsum (fun e => d e.1 e.2) ls).
    destruct (legs_elem p u v ltac:(set_solver)) as [Hu%(order_ids n p) Hv%(order_ids n p)]; [|done..].
    destruct (Hd u v Hu Hv) as [E'|E']; [|lia]. exfalso. apply not_true_iff_false in E. apply E, existsb_exists.
    exists (u, v). split; [apply list_elem_of_In; set_solver|by apply Z.eqb_eq]. }
  specialize (H (legs p) ltac:(done)). unfold zlen in H. rewrite legs_length in H. fold (zlen p) in H. rewrite Hlen in H.
  unfold BF_MAX_FEASIBLE, duration_bound, INVALID_EDGE_DURATION, INT32_MAX in *. lia.
Qed.

Lemma brute_force_shortest : exists r, BruteForceTrip n t = Some r /\ r ≡ₚ seqZ 0 n /\
  forall q, q ≡ₚ seqZ 0 n -> trip_duration d (legs r) <= trip_duration d (legs q).
Proof using Hn Ht Hd.
  unfold BruteForceTrip. cbv zeta. apply try_orders_shortest; [done|done|done|by apply trip_duration_le_invalid| |].
  - intros q Hq Hl. by rewrite (ascending_least _ q (seqZ_ascending 0 n) Hq) in Hl.
  - pose proof (orders_after_fact (seqZ 0 n) (seqZ 0 n)). lia.
Qed.
End brute.

(** ** Changed tables *)

Lemma table_of_ext n d d' t : (forall u v, 0 <= u < n -> 0 <= v < n -> d u v = d' u v) -> table_of n d t -> table_of n d' t.
Proof. intros He [H1 H2 H3]. split; [done..|]. intros u v Hu Hv. rewrite <- He by done. by apply H3. Qed.

(** Durations [d] with the value [x] where [b] holds. *)
Definition set_where (b : Z -> Z -> bool) (x : Z) (d : Z -> Z -> Z) : Z -> Z -> Z := fun u v => if b u v then x else d u v.

Lemma SetValue_table n d t u v x : 0 <= u < n -> 0 <= v < n -> table_of n d t ->
  exists t', SetValue u v x t = Some t' /\ table_of n (set_where (fun a b => (a =? u) && (b =? v)) x d) t'.
Proof.
  intros Hu Hv [H1 H2 H3]. unfold SetValue. rewrite H1. destruct (zset_some (table_ t) (u * n + v) x) as [l Hl]; [rewrite H2; nia|].
  step_opt Hl. eexists. split; [done|]. split; [done|cbn [table_]; by rewrite (zset_len _ _ _ _ Hl)|]. intros a b Ha Hb. unfold dist_table. simpl.
  rewrite (zset_get _ _ _ _ _ Hl). unfold set_where. specialize (H3 a b Ha Hb). unfold dist_table in H3. rewrite H1 in H3. case_decide as E.
  - assert (u = a) as -> by (destruct (Z.lt_trichotomy u a) as [?|[?|?]]; nia). assert (v = b) as -> by lia. by rewrite !Z.eqb_refl.
  - rewrite H3. destruct (Z.eqb_spec a u), (Z.eqb_spec b v); simpl; [subst; lia|done..].
Qed.

(** A loop of writes of the same value. *)
Lemma set_loop_table n d t (skip : Z -> bool) (from to : Z -> Z) x ids :
  (forall i, i ∈ ids -> skip i = false -> 0 <= from i < n /\ 0 <= to i < n) -> table_of n d t ->
  exists t', for_ids (fun i t => if skip i then Some t else SetValue (from i) (to i) x t) ids t = Some t' /\
    table_of n (set_where (fun a b => existsb (fun i => negb (skip i) && (from i =? a) && (to i =? b)) ids) x d) t'.
Proof.
  unfold for_ids. revert d t. induction ids as [|i ids IH]; intros d t Hids Ht; [by exists t|]. cbn [foldl mbind option_bind].
  destruct (skip i) eqn:Es.
  - destruct (IH d t) as (t' & Hr & Ht'); [set_solver|done|]. exists t'. split; [done|].
    eapply table_of_ext; [|exact Ht']. intros a b _ _. unfold set_where. simpl. by rewrite Es.
  - destruct (Hids i) as [Hf Hto]; [by left|done|]. destruct (SetValue_table n d t _ _ x Hf Hto Ht) as (t1 & E1 & Ht1). rewrite E1.
    destruct (IH _ t1 ltac:(set_solver) Ht1) as (t' & Hr & Ht'). exists t'. split; [done|]. eapply table_of_ext; [|exact Ht'].
    intros a b _ _. unfold set_where. simpl. rewrite Es. simpl. rewrite (Z.eqb_sym (from i) a), (Z.eqb_sym (to i) b).
    by destruct (existsb _ ids), ((a =? from i) && (b =? to i)).
Qed.

Lemma existsb_id (f : Z -> bool) n a : 0 <= a < n -> existsb (fun i => f i && (i =? a)) (seqZ 0 n) = f a.
Proof.
  intros Ha. apply eq_true_iff_eq. rewrite existsb_exists. split.
  - intros (i & _ & [Hf ->%Z.eqb_eq]%andb_true_iff). done.
  - intros Hf. exists a. split; [apply list_elem_of_In, seqZ_ids; lia|]. by rewrite Hf, Z.eqb_refl.
Qed.

(** Writes in a column and in a row. *)
Lemma set_column_table n d t (skip : Z -> bool) s x : 0 <= s < n -> table_of n d t ->
  exists t', for_ids (fun i t => if skip i then Some t else SetValue i s x t) (seqZ 0 n) t = Some t' /\
    table_of n (set_where (fun a b => negb (skip a) && (b =? s)) x d) t'.
Proof.
  intros Hs Ht. destruct (set_loop_table n d t skip id (fun _ => s) x (seqZ 0 n)) as (t' & Hr & Ht'); [by intros i ?%seqZ_ids|done|].
  exists t'. split; [done|]. eapply table_of_ext; [|exact Ht']. intros a b Ha _. unfold set_where, id.
  rewrite (Z.eqb_sym b s). destruct (Z.eqb_spec s b) as [->|Hne].
  - rewrite andb_true_r. assert (existsb (fun i => negb (skip i) && (i =? a) && true) (seqZ 0 n) = negb (skip a)) as ->; [|done]. rewrite <- (existsb_id (fun i => negb (skip i)) n a Ha).
    apply eq_true_iff_eq. rewrite !existsb_exists. split; intros (i & Hi & H); exists i; (split; [done|]); by rewrite ?andb_true_r in *.
  - rewrite andb_false_r. assert (existsb (fun i => negb (skip i) && (i =? a) && false) (seqZ 0 n) = false) as ->; [|done]. apply not_true_iff_false. rewrite existsb_exists.
    intros (i & _ & Hi). by rewrite andb_false_r in Hi.
Qed.

Lemma set_row_table n d t (skip : Z -> bool) e x : 0 <= e < n -> table_of n d t ->
  exists t', for_ids (fun i t => if skip i then Some t else SetValue e i x t) (seqZ 0 n) t = Some t' /\
    table_of n (set_where (fun a b => (a =? e) && negb (skip b)) x d) t'.
Proof.
  intros He Ht. destruct (set_loop_table n d t skip (fun _ => e) id x (seqZ 0 n)) as (t' & Hr & Ht'); [by intros i ?%seqZ_ids|done|].
  exists t'. split; [done|]. eapply table_of_ext; [|exact Ht']. intros a b _ Hb. unfold set_where, id.
  rewrite (Z.eqb_sym a e). destruct (Z.eqb_spec e a) as [->|Hne].
  - cbn [andb]. assert (existsb (fun i => negb (skip i) && true && (i =? b)) (seqZ 0 n) = negb (skip b)) as ->; [|done]. rewrite <- (existsb_id (fun i => negb (skip i)) n b Hb).
    apply eq_true_iff_eq. rewrite !existsb_exists. split; intros (i & Hi & H); exists i; (split; [done|]); by rewrite ?andb_true_r in *.
  - cbn [andb]. assert (existsb (fun i => negb (skip i) && false && (i =? b)) (seqZ 0 n) = false) as ->; [|done]. apply not_true_iff_false. rewrite existsb_exists.
    intros (i & _ & Hi). by rewrite andb_false_r in Hi.
Qed.

(** The durations that the searches see. *)
Definition fixed_both (s e : Z) (d : Z -> Z -> Z) : Z -> Z -> Z := fun a b =>
  if (a =? s) && (b =? e) then INVALID_EDGE_DURATION
  else if (a =? e) && (b =? s) then 0
  else if ((a =? e) && negb (b =? e)) || (negb (a =? s) && (b =? s)) then INVALID_EDGE_DURATION
  else d a b.

Lemma FSE_table n d t s e : 0 <= s < n -> 0 <= e < n -> table_of n d t ->
  exists t', ManipulateTableForFSE s e t = Some t' /\ table_of n (fixed_both s e d) t'.
Proof.
  intros Hs He Ht. unfold ManipulateTableForFSE. rewrite (table_nodes n d t Ht).
  destruct (set_column_table n d t (fun i => i =? s) s INVALID_EDGE_DURATION Hs Ht) as (t1 & E1 & Ht1). step_opt E1.
  rewrite (table_nodes n _ t1 Ht1). destruct (set_row_table n _ t1 (fun i => i =? e) e INVALID_EDGE_DURATION He Ht1) as (t2 & E2 & Ht2). step_opt E2.
  destruct (SetValue_table n _ t2 e s 0 He Hs Ht2) as (t3 & E3 & Ht3). step_opt E3.
  destruct (SetValue_table n _ t3 s e INVALID_EDGE_DURATION Hs He Ht3) as (t4 & E4 & Ht4). exists t4. split; [done|].
  eapply table_of_ext; [|exact Ht4]. intros a b _ _. unfold set_where, fixed_both.
  destruct (a =? s), (b =? e), (a =? e), (b =? s); done.
Qed.

Lemma FS_table n d t s : 0 <= s < n -> table_of n d t ->
  exists t', ManipulateTableForNonRoundtripFS s t = Some t' /\ table_of n (set_where (fun _ b => b =? s) 0 d) t'.
Proof.
  intros Hs Ht. unfold ManipulateTableForNonRoundtripFS. rewrite (table_nodes n d t Ht).
  destruct (set_column_table n d t (fun _ => false) s 0 Hs Ht) as (t1 & E1 & Ht1). exists t1. by split.
Qed.

Lemma FE_table n d t e : 0 <= e < n -> table_of n d t ->
  exists t', ManipulateTableForNonRoundtripFE e t = Some t' /\ table_of n (set_where (fun a _ => a =? e) 0 d) t'.
Proof.
  intros He Ht. unfold ManipulateTableForNonRoundtripFE. rewrite (table_nodes n d t Ht).
  destruct (set_row_table n d t (fun _ => false) e 0 He Ht) as (t1 & E1 & Ht1). exists t1. split; [done|].
  eapply table_of_ext; [|exact Ht1]. intros a b _ _. unfold set_where. by rewrite andb_true_r.
Qed.

(** ** Rotations *)

Lemma zip_snoc (x w : Z) l : zip (x :: l) (l ++ [w]) = zip (x :: l) l ++ [(default x (last l), w)].
Proof. revert x. induction l as [|y l IH]; intros x; [done|]. rewrite last_cons.
  change (zip (x :: y :: l) ((y :: l) ++ [w])) with ((x, y) :: zip (y :: l) (l ++ [w])). rewrite IH. simpl. by destruct (last l). Qed.

(** A round trip is a trip and the way back. *)
Lemma legs_back x l : legs (x :: l) = path_legs (x :: l) ++ [(default x (last l), x)].
Proof. unfold legs, path_legs. simpl drop. simpl take. apply zip_snoc. Qed.

Lemma legs_rotate_one x l : legs (l ++ [x]) ≡ₚ legs (x :: l).
Proof.
  destruct l as [|y l]; [done|]. transitivity (zip ((y :: l) ++ [x]) ((l ++ [x]) ++ [y])); [unfold legs; simpl; by rewrite ?drop_0|].
  rewrite zip_with_app by (simpl; rewrite length_app; simpl; lia). rewrite Permutation_app_comm. unfold legs. simpl. by rewrite ?drop_0.
Qed.

Lemma rotate_to_S k x l : (k <= length l)%nat -> rotate_to (S k) (x :: l) = rotate_to k (l ++ [x]).
Proof.
  intros Hk. unfold rotate_to. simpl. rewrite drop_app_le, take_app_le by done. by rewrite <- app_assoc.
Qed.

Lemma legs_rotate k l : legs (rotate_to k l) ≡ₚ legs l.
Proof.
  destruct (decide (k <= length l)%nat) as [Hk|Hk]; [|unfold rotate_to; rewrite drop_ge, take_ge by lia; done].
  revert l Hk. induction k as [|k IH]; intros l Hk; [unfold rotate_to; rewrite drop_0; simpl; by rewrite app_nil_r|].
  destruct l as [|x l]; [done|]. simpl in Hk. rewrite rotate_to_S by lia. rewrite IH by (rewrite length_app; lia). apply legs_rotate_one.
Qed.

Lemma rotate_to_Permutation k l : rotate_to k l ≡ₚ l.
Proof. unfold rotate_to. rewrite Permutation_app_comm. by rewrite take_drop. Qed.

Lemma find_position_spec x l : x ∈ l -> l !! find_position x l = Some x.
Proof.
  induction l as [|y l IH]; intros Hx; [by apply elem_of_nil in Hx|]. simpl. destruct (Z.eqb_spec y x) as [->|Hne]; [done|].
  apply IH. set_solver.
Qed.

Lemma rotate_to_head x l : x ∈ l -> head (rotate_to (find_position x l) l) = Some x.
Proof. intros Hx. unfold rotate_to. by rewrite (drop_S _ _ _ (find_position_spec x l Hx)). Qed.

(** The location after [x] comes to the front, so [x] comes last. *)
Lemma rotate_after_last x l : x ∈ l ->
  last (rotate_to (if decide (S (find_position x l) = length l) then O else S (find_position x l)) l) = Some x.
Proof.
  intros Hx. pose proof (find_position_spec x l Hx) as Hl. pose proof (lookup_lt_Some _ _ _ Hl). unfold rotate_to. case_decide as E.
  - rewrite drop_0. simpl. rewrite app_nil_r, last_lookup, <- E. done.
  - rewrite last_app, (take_S_r _ _ _ Hl), last_snoc. done.
Qed.

(** ** Legs of orders without repetition *)

Lemma path_legs_lookup p u v : (u, v) ∈ path_legs p <-> exists i, p !! i = Some u /\ p !! S i = Some v.
Proof.
  unfold path_legs. rewrite list_elem_of_lookup. setoid_rewrite lookup_zip_Some. by setoid_rewrite lookup_drop.
Qed.

Lemma path_legs_ends p u v : NoDup p -> (u, v) ∈ path_legs p -> head p <> Some v /\ last p <> Some u.
Proof.
  intros Hp (i & Hu & Hv)%path_legs_lookup. pose proof (lookup_lt_Some _ _ _ Hv) as Hlt. split; intros H.
  - assert (p !! O = Some v) as H0 by (by destruct p). pose proof (NoDup_lookup p _ _ _ Hp H0 Hv). lia.
  - rewrite last_lookup in H. pose proof (NoDup_lookup p _ _ _ Hp H Hu). lia.
Qed.

(** Only with two locations does the first leg end at the last one. *)
Lemma path_legs_direct p u v : NoDup p -> head p = Some u -> last p = Some v -> (u, v) ∈ path_legs p -> length p = 2%nat.
Proof.
  intros Hp Hu Hv (i & Hi & Hi')%path_legs_lookup. assert (p !! O = Some u) as H0 by (by destruct p). rewrite last_lookup in Hv.
  pose proof (NoDup_lookup p _ _ _ Hp H0 Hi). pose proof (NoDup_lookup p _ _ _ Hp Hv Hi'). pose proof (lookup_lt_Some _ _ _ Hi'). lia.
Qed.

(** What does not come last has a leg. *)
Lemma path_legs_next p u : u ∈ p -> last p <> Some u -> exists v, (u, v) ∈ path_legs p.
Proof.
  intros [i Hi]%list_elem_of_lookup Hl. destruct (p !! S i) as [v|] eqn:E; [exists v; apply path_legs_lookup; by exists i|].
  destruct Hl. rewrite last_lookup. apply lookup_ge_None in E. pose proof (lookup_lt_Some _ _ _ Hi). by replace (pred (length p)) with i by lia.
Qed.

Lemma legs_ends p u v : head p = Some u -> last p = Some v -> legs p = path_legs p ++ [(v, u)].
Proof. destruct p as [|x l]; [done|]. intros [= ->] Hv. rewrite legs_back. rewrite last_cons in Hv. by destruct (last l); simplify_eq/=. Qed.

Lemma path_legs_round p : path_legs (ComputeRoute p true) = legs p.
Proof.
  assert (forall a b c : list Z, length a = length c -> zip (a ++ b) c = zip a c) as Hz.
  { induction a as [|x a IH]; intros b [|y c]; [by destruct b|done..|]. intros [= H]. simpl. f_equal. by apply IH. }
  destruct p as [|x l]; [done|]. unfold ComputeRoute, path_legs, legs. apply (Hz (x :: l) [x]). simpl. rewrite drop_0, length_app. simpl. lia.
Qed.

(** ** What a request asks for *)

Definition starts_first (r : TripRequest) : bool := match source r with First => true | SourceAny => false end.
Definition ends_last (r : TripRequest) : bool := match destination r with Last => true | DestinationAny => false end.

(** The orders of all locations that start and end as the request says; a
    round trip to the last location starts there, one without wishes at the
    first location. *)
Definition asked_for (r : TripRequest) (p : list Z) : Prop :=
  p ≡ₚ seqZ 0 (coordinates_size r) /\
  match source r, destination r with
  | First, Last => head p = Some 0 /\ last p = Some (coordinates_size r - 1)
  | SourceAny, Last => if roundtrip r then head p = Some (coordinates_size r - 1) else last p = Some (coordinates_size r - 1)
  | _, DestinationAny => head p = Some 0
  end.

Definition duration_between (r : TripRequest) (u v : Z) : Z := default 0 (durations r !z (u * coordinates_size r + v)).

(** The duration of the route through the waypoints. *)
Definition route_duration (r : TripRequest) (p : list Z) : Z :=
  zsum (fun e => duration_between r e.1 e.2) (path_legs (ComputeRoute p (roundtrip r))).

(** Nothing stands against the request. *)
Definition accepted (r : TripRequest) : bool :=
  HasShortestPathSearch r && HasManyToManySearch r && IsSupportedParameterCombination (starts_first r) (ends_last r) (roundtrip r) &&
  negb ((0 <? max_locations_trip r) && (max_locations_trip r <? coordinates_size r)) && CheckAllCoordinates r && CheckAlgorithms r &&
  (phantom_node_pairs_size r =? coordinates_size r) && (zlen (durations r) =? coordinates_size r * coordinates_size r) &&
  forallb (fun x => (0 <=? x) && (x <? duration_bound)) (durations r).

Section accepted.
Context (r : TripRequest) (Hacc : accepted r = true) (Hr : 2 <= coordinates_size r < 2 ^ 31).
#[local] Abbreviation n := (coordinates_size r).
#[local] Abbreviation d := (duration_between r).

Lemma accepted_durations : zlen (durations r) = n * n /\ forall x, x ∈ durations r -> 0 <= x < duration_bound.
Proof using Hacc Hr.
  unfold accepted in Hacc. rewrite !andb_true_iff in Hacc. destruct Hacc as [[_ Hz] Hf]. split; [by apply Z.eqb_eq|].
  intros x Hx. rewrite forallb_forall in Hf. specialize (Hf x ltac:(by apply list_elem_of_In)). lia.
Qed.

Lemma accepted_table : table_of n d (mkDistTable (durations r) n).
Proof using Hacc Hr.
  destruct accepted_durations as [Hz _]. split; [done..|]. intros u v Hu Hv. unfold dist_table, duration_between. cbn [table_ number_of_nodes_].
  destruct (zget_is_some (durations r) (u * n + v)) as [x ->]; [rewrite Hz; nia|done].
Qed.

Lemma accepted_short u v : 0 <= u < n -> 0 <= v < n -> 0 <= d u v < duration_bound.
Proof using Hacc Hr.
  intros Hu Hv. destruct accepted_durations as [Hz Hx]. unfold duration_between.
  destruct (zget_is_some (durations r) (u * n + v)) as [x E]; [rewrite Hz; nia|]. rewrite E. simpl. apply Hx. by eapply zget_elem.
Qed.

(** The request gets as far as the search for an order. *)
Lemma accepted_request : HandleRequest r =
  t ← manipulate_table (starts_first r) (ends_last r) (roundtrip r) 0 (n - 1) (mkDistTable (durations r) n);
  trip ← find_trip n t;
  Some (Ok (rotate_trip (starts_first r) (ends_last r) (roundtrip r) (n - 1) trip)
    (ComputeRoute (rotate_trip (starts_first r) (ends_last r) (roundtrip r) (n - 1) trip) (roundtrip r))).
Proof using Hacc Hr.
  destruct accepted_durations as [Hz Hx]. unfold accepted in Hacc. rewrite !andb_true_iff in Hacc.
  destruct Hacc as [[[[[[[[H1 H2] H3] H4] H5] H6] H7] _] _].
  assert (wrap 64 (n - 1) = n - 1) as Hwrap by (apply wrap_small; unfold in_word; lia). unfold HandleRequest.
  assert (IsStronglyConnectedComponent (mkDistTable (durations r) n) = true) as Hscc.
  { unfold IsStronglyConnectedComponent. apply negb_true_iff, not_true_iff_false. rewrite existsb_exists. intros (x & Hin%list_elem_of_In & E%Z.eqb_eq).
    specialize (Hx x Hin). unfold duration_bound, INVALID_EDGE_DURATION, INT32_MAX in *. lia. }
  rewrite H1, H2, H5, H6, H7, Hwrap, Hscc, swrap_small by lia. apply negb_true_iff in H4. rewrite H4.
  unfold starts_first, ends_last in *. rewrite (proj2 (Z.eqb_neq (zlen (durations r)) 0)) by nia.
  destruct (source r), (destination r); rewrite ?Z.eqb_refl, ?(proj2 (Z.eqb_neq INVALID_INDEX 0)) by done;
    rewrite ?(proj2 (Z.eqb_neq INVALID_INDEX (n - 1))) by (unfold INVALID_INDEX; lia); rewrite H3;
    rewrite ?(proj2 (Z.leb_gt n 0)), ?(proj2 (Z.leb_gt n (n - 1))) by lia; by destruct (roundtrip r).
Qed.
End accepted.

(** ** The order returned is the shortest asked for *)

Section shortest.
Context (r : TripRequest) (Hacc : accepted r = true) (Hr : 2 <= coordinates_size r < BF_MAX_FEASIBLE).
#[local] Abbreviation n := (coordinates_size r).
#[local] Abbreviation d := (duration_between r).

#[local] Lemma Hr' : 2 <= n < 2 ^ 31.
Proof using Hr. unfold BF_MAX_FEASIBLE in Hr. lia. Qed.

Lemma trip_order_NoDup p : p ≡ₚ seqZ 0 n -> NoDup p.
Proof. intros ->. apply NoDup_seqZ. Qed.

(** On legs that keep their durations the searches see what the route takes. *)
Lemma trip_duration_kept d' ls p : p ≡ₚ seqZ 0 n -> (forall u v, (u, v) ∈ ls -> u ∈ p /\ v ∈ p /\ d' u v = d u v) ->
  trip_duration d' ls = zsum (fun e => d e.1 e.2) ls.
Proof using Hacc Hr.
  intros Hp Hls. rewrite trip_duration_valid; [apply zsum_ext; intros [u v] He; by apply Hls|]. intros [u v] He. simpl.
  destruct (Hls u v He) as (Hu%(order_ids n p) & Hv%(order_ids n p) & ->); [|done..]. pose proof (accepted_short r Hacc Hr' u v Hu Hv).
  unfold duration_bound, INVALID_EDGE_DURATION, INT32_MAX in *. lia.
Qed.

Lemma path_legs_ids p u v : (u, v) ∈ path_legs p -> u ∈ p /\ v ∈ p.
Proof. intros (i & Hu & Hv)%path_legs_lookup. split; by eapply list_elem_of_lookup_2. Qed.

Lemma round_duration p : p ≡ₚ seqZ 0 n -> trip_duration d (legs p) = zsum (fun e => d e.1 e.2) (legs p).
Proof using Hacc Hr. intros Hp. apply (trip_duration_kept _ _ p Hp). intros u v H. by destruct (legs_elem p u v H). Qed.

(** The way back to the start is free. *)
Lemma start_duration p : p ≡ₚ seqZ 0 n -> head p = Some 0 ->
  trip_duration (set_where (fun _ b => b =? 0) 0 d) (legs p) = zsum (fun e => d e.1 e.2) (path_legs p).
Proof using Hacc Hr.
  intros Hp Hh. destruct (last p) as [z|] eqn:El; [|by apply last_None in El as ->]. rewrite (legs_ends p 0 z Hh El).
  rewrite trip_duration_valid.
  - rewrite zsum_app. simpl. unfold set_where at 2. simpl. rewrite !Z.add_0_r. apply zsum_ext. intros [u v] He. simpl.
    destruct (path_legs_ends p u v (trip_order_NoDup p Hp) He) as [Hv _]. unfold set_where. destruct (Z.eqb_spec v 0) as [?|Hv0]; [congruence|done].
  - intros [u v] He. simpl. unfold set_where. destruct (Z.eqb_spec v 0) as [?|Hv0]; [done|]. apply elem_of_app in He as [He|He]; [|set_solver].
    destruct (path_legs_ids p u v He) as [Hu%(order_ids n p) Hv%(order_ids n p)]; [|done..]. pose proof (accepted_short r Hacc Hr' u v Hu Hv).
    unfold duration_bound, INVALID_EDGE_DURATION, INT32_MAX in *. lia.
Qed.

(** So is the way from the end. *)
Lemma end_duration p e : p ≡ₚ seqZ 0 n -> last p = Some e ->
  trip_duration (set_where (fun a _ => a =? e) 0 d) (legs p) = zsum (fun e => d e.1 e.2) (path_legs p).
Proof using Hacc Hr.
  intros Hp El. destruct (head p) as [z|] eqn:Hh; [|by destruct p]. rewrite (legs_ends p z e Hh El).
  rewrite trip_duration_valid.
  - rewrite zsum_app. simpl. unfold set_where at 2. simpl. rewrite Z.eqb_refl, !Z.add_0_r. apply zsum_ext. intros [u v] He. simpl.
    destruct (path_legs_ends p u v (trip_order_NoDup p Hp) He) as [_ Hv]. unfold set_where. destruct (Z.eqb_spec u e) as [?|Hue]; [congruence|done].
  - intros [u v] He. simpl. unfold set_where. destruct (Z.eqb_spec u e) as [|Hne]; [done|]. apply elem_of_app in He as [He|He]; [|set_solver].
    destruct (path_legs_ids p u v He) as [Hu%(order_ids n p) Hv%(order_ids n p)]; [|done..]. pose proof (accepted_short r Hacc Hr' u v Hu Hv).
    unfold duration_bound, INVALID_EDGE_DURATION, INT32_MAX in *. lia.
Qed.

(** Between fixed ends with a location between them. *)
Lemma both_duration p : 3 <= n -> p ≡ₚ seqZ 0 n -> head p = Some 0 -> last p = Some (n - 1) ->
  trip_duration (fixed_both 0 (n - 1) d) (legs p) = zsum (fun e => d e.1 e.2) (path_legs p).
Proof using Hacc Hr.
  intros Hn Hp Hh El. rewrite (legs_ends p 0 (n - 1) Hh El).
  assert (forall u v, (u, v) ∈ path_legs p -> fixed_both 0 (n - 1) d u v = d u v) as Hkept.
  { intros u v He. destruct (path_legs_ends p u v (trip_order_NoDup p Hp) He) as [Hv Hu]. unfold fixed_both.
    destruct (Z.eqb_spec v 0) as [?|Hv0]; [congruence|]. destruct (Z.eqb_spec u (n - 1)) as [?|Hun1]; [congruence|]. rewrite andb_false_r. simpl.
    destruct (Z.eqb_spec u 0) as [->|Hu0], (Z.eqb_spec v (n - 1)) as [->|Hvn]; try done. pose proof (path_legs_direct p _ _ (trip_order_NoDup p Hp) Hh El He) as H2.
    pose proof (order_zlen n p ltac:(lia) Hp) as H3. unfold zlen in H3. lia. }
  assert (fixed_both 0 (n - 1) d (n - 1) 0 = 0) as Hback.
  { unfold fixed_both. rewrite !Z.eqb_refl. by rewrite (proj2 (Z.eqb_neq (n - 1) 0)) by lia. }
  rewrite trip_duration_valid.
  - rewrite zsum_app. simpl. rewrite Hback, !Z.add_0_r. apply zsum_ext. intros [u v] He. by apply Hkept.
  - intros [u v] [He|He]%elem_of_app; simpl; [rewrite Hkept by done|assert ((u, v) = (n - 1, 0)) as [= -> ->] by set_solver; by rewrite Hback].
    destruct (path_legs_ids p u v He) as [Hu%(order_ids n p) Hv%(order_ids n p)]; [|done..]. pose proof (accepted_short r Hacc Hr' u v Hu Hv).
    unfold duration_bound, INVALID_EDGE_DURATION, INT32_MAX in *. lia.
Qed.

(** An order that does not end at the last location has an invalid leg. *)
Lemma both_invalid p : p ≡ₚ seqZ 0 n -> head p = Some 0 -> last p <> Some (n - 1) ->
  trip_duration (fixed_both 0 (n - 1) d) (legs p) = INVALID_EDGE_DURATION.
Proof using Hacc Hr.
  intros Hp Hh El. assert (n - 1 ∈ p) as Hin by (rewrite Hp; apply seqZ_ids; lia). destruct (path_legs_next p (n - 1) Hin El) as [v He].
  destruct (path_legs_ends p _ _ (trip_order_NoDup p Hp) He) as [Hv _]. destruct (last p) as [z|] eqn:Hl; [|by apply last_None in Hl as ->].
  apply (trip_duration_invalid _ _ (n - 1, v)); [rewrite (legs_ends p 0 z Hh Hl); set_solver|]. simpl. unfold fixed_both.
  destruct (Z.eqb_spec v 0) as [?|Hv0]; [congruence|]. rewrite Z.eqb_refl. simpl. destruct (path_legs_lookup p (n - 1) v) as [(i & H1 & H2) _]; [done|].
  destruct (Z.eqb_spec v (n - 1)) as [->|Hvn]; [pose proof (NoDup_lookup p _ _ _ (trip_order_NoDup p Hp) H1 H2); lia|].
  by destruct (_ && _).
Qed.

Lemma path_sum_small p : p ≡ₚ seqZ 0 n -> zsum (fun e => d e.1 e.2) (path_legs p) < INVALID_EDGE_DURATION.
Proof using Hacc Hr.
  intros Hp. assert (forall ls, (forall e, e ∈ ls -> e ∈ path_legs p) -> zsum (fun e => d e.1 e.2) ls <= zlen ls * duration_bound) as H.
  { induction ls as [|[u v] ls IH]; intros Hls; [done|]. rewrite zlen_cons. specialize (IH ltac:(set_solver)).
    change (zsum (fun e => d e.1 e.2) ((u, v) :: ls)) with (d u v + zsum (fun e => d e.1 e.2) ls).
    destruct (path_legs_ids p u v ltac:(set_solver)) as [Hu%(order_ids n p) Hv%(order_ids n p)]; [|done..].
    pose proof (accepted_short r Hacc Hr' u v Hu Hv). lia. }
  specialize (H _ (fun e He => He)). assert (zlen (path_legs p) <= n) as Hl.
  { pose proof (order_zlen n p ltac:(lia) Hp). unfold zlen, path_legs in *. rewrite length_zip. lia. }
  unfold BF_MAX_FEASIBLE, duration_bound, INVALID_EDGE_DURATION, INT32_MAX in *. lia.
Qed.

(** The searches see durations that are short or invalid. *)
Lemma changed_short (d' : Z -> Z -> Z) : (forall u v, d' u v = d u v \/ d' u v = 0 \/ d' u v = INVALID_EDGE_DURATION) -> short n d'.
Proof using Hacc Hr.
  intros H u v Hu Hv. pose proof (accepted_short r Hacc Hr' u v Hu Hv). destruct (H u v) as [ -> | [ -> | -> ] ]; [by right|right; unfold duration_bound; lia|by left].
Qed.

Lemma brute_order t d' : table_of n d' t -> (forall u v, d' u v = d u v \/ d' u v = 0 \/ d' u v = INVALID_EDGE_DURATION) ->
  exists p, find_trip n t = Some p /\ p ≡ₚ seqZ 0 n /\ forall k q, q ≡ₚ seqZ 0 n -> trip_duration d' (legs (rotate_to k p)) <= trip_duration d' (legs q).
Proof using Hacc Hr.
  intros Ht Hd. unfold find_trip. rewrite (proj2 (Z.ltb_lt n BF_MAX_FEASIBLE)) by lia.
  destruct (brute_force_shortest n d' t ltac:(lia) Ht (changed_short d' Hd)) as (p & E & Hp & Hmin). exists p. split_and!; [done..|].
  intros k q Hq. rewrite legs_rotate. by apply Hmin.
Qed.

Lemma two_orders p : n = 2 -> p ≡ₚ seqZ 0 n -> head p = Some 0 -> p = [0; 1].
Proof.
  intros -> Hp Hh. destruct p as [|x p]; [done|]. simpl in Hh. simplify_eq. change (seqZ 0 2) with [0; 1] in Hp. apply Permutation_cons_inv in Hp.
  f_equal. by apply Permutation_singleton_r.
Qed.

Lemma shortest_fixed_both : source r = First -> destination r = Last -> exists p, HandleRequest r = Some (Ok p (ComputeRoute p (roundtrip r))) /\
  asked_for r p /\ forall q, asked_for r q -> route_duration r p <= route_duration r q.
Proof using Hacc Hr.
  intros Es Ed. rewrite (accepted_request r Hacc Hr'). unfold starts_first, ends_last, asked_for. rewrite Es, Ed. unfold manipulate_table, rotate_trip. simpl negb. simpl andb. simpl orb. cbv iota.
  destruct (FSE_table n d _ 0 (n - 1) ltac:(lia) ltac:(lia) (accepted_table r Hacc Hr')) as (t & Et & Ht). step_opt Et.
  destruct (brute_order t _ Ht) as (p & Ep & Hp & Hmin).
  { intros u v. unfold fixed_both. repeat case_match; auto. }
  step_opt Ep. eexists. split; [done|]. set (k := find_position 0 p). assert (rotate_to k p ≡ₚ seqZ 0 n) as Hpk by (by rewrite rotate_to_Permutation).
  assert (head (rotate_to k p) = Some 0) as Hh by (apply rotate_to_head; rewrite Hp; apply seqZ_ids; lia). specialize (Hmin k).
  destruct (decide (n = 2)) as [E2|E2].
  { rewrite (two_orders _ E2 Hpk Hh), E2. split; [done|]. intros q (Hq & Hqh & _).
    rewrite <- E2 in Hq. by rewrite (two_orders q E2 Hq Hqh). }
  assert (last (rotate_to k p) = Some (n - 1)) as Hl.
  { destruct (decide (last (rotate_to k p) = Some (n - 1))) as [|Hne]; [done|exfalso]. assert (head (seqZ 0 n) = Some 0) as Hs by by rewrite seqZ_cons by lia.
    specialize (Hmin (seqZ 0 n) ltac:(done)). rewrite (both_invalid _ Hpk Hh Hne) in Hmin. rewrite both_duration in Hmin; [|lia|done..|].
    - pose proof (path_sum_small (seqZ 0 n) ltac:(done)). lia.
    - rewrite last_lookup, length_seqZ. apply lookup_seqZ. lia. }
  split; [done|]. intros q (Hq & Hqh & Hql). specialize (Hmin q Hq). rewrite !both_duration in Hmin by (done || lia). unfold route_duration.
  destruct (roundtrip r); [|done]. rewrite !path_legs_round, (legs_ends _ _ _ Hh Hl), (legs_ends _ _ _ Hqh Hql), !zsum_app. simpl. lia.
Qed.

Lemma shortest_round : roundtrip r = true -> starts_first r && ends_last r = false -> exists p, HandleRequest r = Some (Ok p (ComputeRoute p (roundtrip r))) /\
  asked_for r p /\ forall q, asked_for r q -> route_duration r p <= route_duration r q.
Proof using Hacc Hr.
  intros Hround Hfree. rewrite (accepted_request r Hacc Hr'). unfold manipulate_table. rewrite Hfree, Hround. simpl negb. simpl andb. cbv iota. cbn [mbind option_bind].
  destruct (brute_order _ d (accepted_table r Hacc Hr')) as (p & Ep & Hp & Hmin); [auto|]. step_opt Ep. eexists. split; [done|].
  assert (forall k, (rotate_to k p ≡ₚ seqZ 0 n) /\ forall q, asked_for r q -> route_duration r (rotate_to k p) <= route_duration r q) as Hk.
  { intros k. split; [by rewrite rotate_to_Permutation|]. intros q [Hq _]. unfold route_duration. rewrite Hround, !path_legs_round.
    rewrite <- !round_duration by (done || by rewrite rotate_to_Permutation). by apply Hmin. }
  unfold asked_for at 1. rewrite Hround. unfold starts_first, ends_last, rotate_trip in *. simpl negb. cbv iota.
  destruct (source r), (destination r); simpl; try done; (split; [|apply Hk]); (split; [apply Hk|]); apply rotate_to_head; rewrite Hp; apply seqZ_ids; lia.
Qed.

Lemma shortest_one_way : roundtrip r = false -> starts_first r && ends_last r = false -> exists p, HandleRequest r = Some (Ok p (ComputeRoute p (roundtrip r))) /\
  asked_for r p /\ forall q, asked_for r q -> route_duration r p <= route_duration r q.
Proof using Hacc Hr.
  intros Hround Hfree. rewrite (accepted_request r Hacc Hr'). unfold manipulate_table, rotate_trip, route_duration, asked_for. rewrite Hfree, Hround.
  unfold starts_first, ends_last in *. destruct (source r) eqn:Es, (destination r) eqn:Ed; try done; simpl negb; simpl andb; simpl orb; cbv iota; cbn [ComputeRoute].
  - exfalso. unfold accepted, starts_first, ends_last in Hacc. rewrite Es, Ed, Hround in Hacc. simpl in Hacc. by rewrite !andb_false_r in Hacc.
  - destruct (FE_table n d _ (n - 1) ltac:(lia) (accepted_table r Hacc Hr')) as (t & Et & Ht). step_opt Et.
    destruct (brute_order t _ Ht) as (p & Ep & Hp & Hmin); [intros u v; unfold set_where; case_match; auto|]. step_opt Ep. eexists. split; [done|].
    assert (n - 1 ∈ p) as Hin by (rewrite Hp; apply seqZ_ids; lia). pose proof (rotate_after_last (n - 1) p Hin) as Hl.
    set (k := if decide _ then O else _) in *. assert (rotate_to k p ≡ₚ seqZ 0 n) as Hpk by (by rewrite rotate_to_Permutation).
    split; [done|]. intros q [Hq Hql]. specialize (Hmin k q Hq). by rewrite !end_duration in Hmin.
  - destruct (FS_table n d _ 0 ltac:(lia) (accepted_table r Hacc Hr')) as (t & Et & Ht). step_opt Et.
    destruct (brute_order t _ Ht) as (p & Ep & Hp & Hmin); [intros u v; unfold set_where; case_match; auto|]. step_opt Ep. eexists. split; [done|].
    set (k := find_position 0 p). assert (head (rotate_to k p) = Some 0) as Hh by (apply rotate_to_head; rewrite Hp; apply seqZ_ids; lia).
    assert (rotate_to k p ≡ₚ seqZ 0 n) as Hpk by (by rewrite rotate_to_Permutation).
    split; [done|]. intros q [Hq Hqh]. specialize (Hmin k q Hq). by rewrite !start_duration in Hmin.
Qed.
End shortest.

(** C37: A trip request that passes the checks, with two to nine locations and
    durations below 2^27 between them, is answered with an order of all
    locations that starts and ends as the request says, and no such order takes a
    shorter time along the route, back to the start for a round trip. *)
Theorem trip_shortest (r : TripRequest) : accepted r = true -> 2 <= coordinates_size r < BF_MAX_FEASIBLE ->
  exists p, HandleRequest r = Some (Ok p (ComputeRoute p (roundtrip r))) /\
    asked_for r p /\ forall q, asked_for r q -> route_duration r p <= route_duration r q.
Proof.
  intros Hacc Hr. destruct (starts_first r && ends_last r) eqn:E; [|destruct (roundtrip r) eqn:Hround].
  - unfold starts_first, ends_last in E. apply shortest_fixed_both; [done..|by destruct (source r)|by destruct (source r), (destination r)].
  - rewrite <- Hround. by apply shortest_round.
  - rewrite <- Hround. by apply shortest_one_way.
Qed.

Definition example_request (s : SourceType) (e : DestinationType) (round : bool) : TripRequest :=
  mkTripRequest true true s e round 5 100 true true 5
    [0; 15; 36; 34; 30;  15; 0; 25; 30; 34;  36; 25; 0; 18; 32;  34; 30; 18; 0; 15;  30; 34; 32; 15; 0].

Lemma trip_shortest_witness :
  (exists p, HandleRequest (example_request First Last false) = Some (Ok p (ComputeRoute p false)) /\
    asked_for (example_request First Last false) p /\ forall q, asked_for (example_request First Last false) q ->
    route_duration (example_request First Last false) p <= route_duration (example_request First Last false) q) /\
  HandleRequest (example_request First Last false) = Some (Ok [0; 1; 2; 3; 4] [0; 1; 2; 3; 4]) /\
  HandleRequest (example_request SourceAny Last false) = Some (Ok [0; 1; 2; 3; 4] [0; 1; 2; 3; 4]) /\
  HandleRequest (example_request SourceAny Last true) = Some (Ok [4; 0; 1; 2; 3] [4; 0; 1; 2; 3; 4]).
Proof.
  split; [|split_and!; by vm_compute]. apply (trip_shortest (example_request First Last false)); [by vm_compute|split; by vm_compute].
Defined.
