(* ===== verification/TripInsertion.v ===== *)
(** * Trips of many locations

    Ten and more locations are put in order by farthest insertion
    ([FindRoute], [GetShortestRoundTrip] of
    include/engine/trip/trip_farthest_insertion.hpp).  The theorems say that every
    location gets a place, and that the ends which a request fixes stay the
    ends. *)
From S2P Require Import Prelude.
From S2P Require Import NextPermutation.
From S2P Require Import Trip.
#[local] Open Scope Z_scope.

(** ** Farthest insertion visits every location *)

Definition next_position (route : list Z) (i : Z) : Z := if i + 1 =? zlen route then 0 else i + 1.

Section insertion.
Context (n : Z) (d : Z -> Z -> Z) (t : DistTableWrapper) (Hn : 2 <= n).
Context (Ht : table_of n d t) (Hd : short n d).

(** A location can go behind position [i]. *)
Definition fits (route : list Z) (x i : Z) : Prop :=
  exists u v, route !z i = Some u /\ route !z next_position route i = Some v /\ d u x <> INVALID_EDGE_DURATION /\ d x v <> INVALID_EDGE_DURATION.

(** Candidates: nothing yet, or a place that fits. *)
Definition candidate (route : list Z) (x : Z) (best : Z * option Z) : Prop :=
  - 2 ^ 31 < best.1 <= INVALID_EDGE_DURATION /\
  match best.2 with
  | None => best.1 = INVALID_EDGE_DURATION
  | Some position => exists i, 0 <= i < zlen route /\ position = next_position route i /\ fits route x i
  end.

Lemma insertion_position_range route i : 0 <= i < zlen route -> 0 <= next_position route i < zlen route.
Proof. intros Hi. unfold next_position. destruct (Z.eqb_spec (i + 1) (zlen route)); lia. Qed.

Lemma try_position_candidate route x i best : (forall u, u ∈ route -> 0 <= u < n) -> 0 <= x < n -> 0 <= i < zlen route -> candidate route x best ->
  exists best', try_position x t route i best = Some best' /\ candidate route x best' /\ (is_Some best.2 \/ fits route x i -> is_Some best'.2).
Proof using Hn Ht Hd.
  intros Hroute Hx Hi Hbest. unfold try_position. fold (next_position route i). pose proof (insertion_position_range route i Hi) as Hni.
  destruct (zget_is_some route i Hi) as [u Hu]. destruct (zget_is_some route _ Hni) as [v Hv]. step_opt Hu. step_opt Hv.
  assert (0 <= u < n) as Hun by (apply Hroute; by eapply zget_elem). assert (0 <= v < n) as Hvn by (apply Hroute; by eapply zget_elem).
  step_opt (table_get n d t Ht u x Hun Hx). step_opt (table_get n d t Ht x v Hx Hvn).
  destruct (Z.eqb_spec (d u x) INVALID_EDGE_DURATION) as [E1|E1]; [|destruct (Z.eqb_spec (d x v) INVALID_EDGE_DURATION) as [E2|E2]]; cbn [orb].
  - exists best. split_and!; [done..|]. intros [|(u' & v' & Hu' & Hv' & H1 & H2)]; [done|]. congruence.
  - exists best. split_and!; [done..|]. intros [|(u' & v' & Hu' & Hv' & H1 & H2)]; [done|]. congruence.
  - step_opt (table_get n d t Ht u v Hun Hvn). destruct (Hd u x Hun Hx) as [?|B1]; [done|]. destruct (Hd x v Hx Hvn) as [?|B2]; [done|].
    assert (- 2 ^ 31 < d u x + d x v - d u v < INVALID_EDGE_DURATION) as B3.
    { unfold duration_bound, INVALID_EDGE_DURATION, INT32_MAX in *. destruct (Hd u v Hun Hvn) as [B|B]; unfold duration_bound, INVALID_EDGE_DURATION, INT32_MAX in *; lia. }
    unfold weight_add. rewrite (swrap_small 32 (d u x + d x v)) by (unfold duration_bound in *; lia).
    rewrite swrap_small by (unfold INVALID_EDGE_DURATION, INT32_MAX in *; lia). eexists. split; [done|]. destruct (Z.ltb_spec (d u x + d x v - d u v) best.1) as [B|B].
    + split; [|by eexists]. split; simpl; [lia|]. exists i. split; [done|]. split; [done|]. by exists u, v.
    + split; [done|]. intros [|_]; [done|]. destruct Hbest as [_ H]. destruct best as [m [pos|]]; [by eexists|]. simpl in *. lia.
Qed.

Lemma round_trip_candidate route x : (forall u, u ∈ route -> 0 <= u < n) -> 0 <= x < n -> (exists i, 0 <= i < zlen route /\ fits route x i) ->
  exists m position, GetShortestRoundTrip x t route = Some (m, Some position) /\ candidate route x (m, Some position).
Proof using Hn Ht Hd.
  intros Hroute Hx (i & Hi & Hfit). unfold GetShortestRoundTrip.
  assert (forall ids best, (forall j, j ∈ ids -> 0 <= j < zlen route) -> candidate route x best ->
    exists best', for_ids (try_position x t route) ids best = Some best' /\ candidate route x best' /\
      (is_Some best.2 \/ (exists j, j ∈ ids /\ fits route x j) -> is_Some best'.2)) as Hloop.
  { unfold for_ids. induction ids as [|j ids IH]; intros best Hids Hbest.
    - exists best. split_and!; [done..|]. intros [|(j & Hj & _)]; [done|]. by apply elem_of_nil in Hj.
    - cbn [foldl mbind option_bind]. destruct (try_position_candidate route x j best Hroute Hx (Hids j ltac:(by left)) Hbest) as (b1 & -> & Hb1 & Hs1).
      destruct (IH b1 ltac:(set_solver) Hb1) as (b2 & E2 & Hb2 & Hs2). exists b2. split_and!; [done..|]. intros H. apply Hs2.
      destruct H as [H|(j' & [->|Hj']%elem_of_cons & Hf)]; [left; apply Hs1; by left|left; apply Hs1; by right|right; by exists j']. }
  destruct (Hloop (seqZ 0 (zlen route)) (INVALID_EDGE_DURATION, None)) as ([m o] & E & Hc & Hs).
  - intros j Hj%seqZ_ids. done.
  - split; [by vm_compute|done].
  - destruct Hs as [position Hp]; [right; exists i; split; [by apply seqZ_ids|done]|]. simpl in Hp. subst o. by exists m, position.
Qed.

(** Routes that leave every other location a place. *)
Context (ok : list Z -> Prop).
Hypothesis ok_fits : forall route x, ok route -> (forall u, u ∈ route -> 0 <= u < n) -> NoDup route -> 2 <= zlen route -> 0 <= x < n -> x ∉ route -> fits route x 0.
Hypothesis ok_insert : forall route x i, ok route -> 0 <= i < zlen route -> NoDup route -> 0 <= x < n -> x ∉ route -> fits route x i ->
  ok (take (Z.to_nat (next_position route i)) route ++ x :: drop (Z.to_nat (next_position route i)) route).

Record route_state (k : Z) (s : list bool * list Z) : Prop := {
  state_size : zlen s.1 = n;
  state_route : zlen s.2 = k;
  state_visited : forall x, zget s.1 x = Some true <-> x ∈ s.2;
  state_once : NoDup s.2;
  state_ok : ok s.2
}.

Lemma state_ids k s u : route_state k s -> u ∈ s.2 -> 0 <= u < n.
Proof. intros Hs Hu. apply (state_visited k s Hs) in Hu. apply zget_some in Hu. by rewrite (state_size k s Hs) in Hu. Qed.

(** Some location is still missing. *)
Lemma state_unvisited k s : route_state k s -> k < n -> exists x, 0 <= x < n /\ x ∉ s.2.
Proof.
  intros Hs Hk. destruct (decide (Forall (fun x => x ∈ s.2) (seqZ 0 n))) as [H|H].
  - exfalso. rewrite Forall_forall in H. assert (seqZ 0 n ⊆+ s.2) as Hsub by (apply NoDup_submseteq; [apply NoDup_seqZ|done]).
    apply submseteq_length in Hsub. rewrite length_seqZ in Hsub. pose proof (state_route k s Hs) as Hr. unfold zlen in Hr. lia.
  - rewrite <- Exists_Forall_neg in H by (intros x; destruct (decide (x ∈ s.2)); auto). apply Exists_exists in H as (x & Hx%seqZ_ids & Hn'). by exists x.
Qed.

Lemma add_farthest_state k s i : 2 <= k -> k < n -> route_state k s -> exists s', add_farthest n t i s = Some s' /\ route_state (k + 1) s'.
Proof using Hn Ht Hd ok_fits ok_insert.
  intros Hk Hkn Hs. destruct s as [visited route]. pose proof (fun u => state_ids k (visited, route) u Hs) as Hids. simpl in Hids.
  pose proof (state_unvisited k _ Hs Hkn) as Hmore. destruct Hs as [Hsize Hlen Hvis Honce Hok]. cbn [fst snd] in *. unfold add_farthest.
  set (good := fun best : Z * Z * option Z => 
    (best.1.2 = -1 /\ best.1.1 = - 2 ^ 31) \/ (0 <= best.1.2 < n /\ (best.1.2 ∉ route) /\ exists position, best.2 = Some position /\ candidate route best.1.2 (best.1.1, Some position))).
  assert (forall x best, 0 <= x < n -> good best -> exists best', try_location t visited route x best = Some best' /\ good best' /\
    (best.1.2 <> -1 \/ x ∉ route -> best'.1.2 <> -1)) as Hstep.
  { intros x best Hx Hb. unfold try_location. destruct (zget_is_some visited x) as [b Hv]; [by rewrite Hsize|]. step_opt Hv. destruct b.
    - exists best. split_and!; [done..|]. intros [|Hx']; [done|]. destruct Hx'. by apply Hvis.
    - assert (x ∉ route) as Hx' by (intros Hin; apply Hvis in Hin; congruence).
      destruct (round_trip_candidate route x Hids Hx) as (m & position & E & Hc).
      { exists 0. split; [lia|]. apply ok_fits; [done..|lia|done|done]. }
      step_opt E. eexists. split; [done|]. cbn [fst snd]. destruct (Z.ltb_spec best.1.1 m) as [Hm|Hm].
      + split; [right; simpl; split_and!; [lia..|done|by exists position]|]. simpl. lia.
      + split; [done|]. intros _. destruct Hb as [[Hb1 Hb2]|[Hb _]]; [|lia]. destruct Hc as [Hc _]. simpl in Hc. lia. }
  assert (forall ids best, (forall x, x ∈ ids -> 0 <= x < n) -> good best -> exists best', for_ids (try_location t visited route) ids best = Some best' /\ good best' /\
    (best.1.2 <> -1 \/ (exists x, x ∈ ids /\ x ∉ route) -> best'.1.2 <> -1)) as Hloop.
  { unfold for_ids. induction ids as [|x ids IH]; intros best Hids' Hb.
    - exists best. split_and!; [done..|]. intros [|(x & Hx & _)]; [done|]. by apply elem_of_nil in Hx.
    - cbn [foldl mbind option_bind]. destruct (Hstep x best (Hids' x ltac:(by left)) Hb) as (b1 & -> & Hb1 & Hs1).
      destruct (IH b1 ltac:(set_solver) Hb1) as (b2 & E2 & Hb2 & Hs2). exists b2. split_and!; [done..|]. intros H. apply Hs2.
      destruct H as [H|(y & [->|Hy]%elem_of_cons & Hf)]; [left; apply Hs1; by left|left; apply Hs1; by right|right; by exists y]. }
  destruct (Hloop (seqZ 0 n) (- 2 ^ 31, -1, None)) as ([[m x] o] & E & Hg & Hs'); [by intros y Hy%seqZ_ids|by left|]. step_opt E. simpl in Hs'.
  destruct Hmore as (y & Hy & Hyr). destruct Hg as [[Hg _]|(Hx & Hxr & position & Eo & Hc)].
  { simpl in Hg. exfalso. apply Hs'; [right; exists y; split; [by apply seqZ_ids|done]|done]. }
  simpl in Hx, Hxr, Eo, Hc. subst o. destruct (zset_some visited x true) as [visited' Hv']; [by rewrite Hsize|]. step_opt Hv'. cbn [mbind option_bind].
  destruct Hc as [_ (j & Hj & -> & Hfit)]. pose proof (insertion_position_range route j Hj) as Hp. unfold insert_at.
  replace ((0 <=? next_position route j) && (next_position route j <=? zlen route)) with true by lia. cbn [mbind option_bind]. eexists. split; [done|].
  set (p := Z.to_nat (next_position route j)). assert (take p route ++ x :: drop p route ≡ₚ x :: route) as Hperm by (by rewrite <- Permutation_middle, take_drop).
  split; cbn [fst snd].
  - by rewrite (zset_len _ _ _ _ Hv').
  - rewrite Hperm, zlen_cons. lia.
  - intros z. rewrite (zset_get _ _ _ _ _ Hv'), Hperm, elem_of_cons. case_decide as Ez; [subst; naive_solver|].
    rewrite Hvis. naive_solver.
  - rewrite Hperm. apply NoDup_cons. done.
  - by apply ok_insert.
Qed.

Lemma FindRoute_visits a b : 0 <= a < n -> 0 <= b < n -> a <> b -> ok [a; b] ->
  exists p, FindRoute n t a b = Some p /\ p ≡ₚ seqZ 0 n /\ ok p.
Proof using Hn Ht Hd ok_fits ok_insert.
  intros Ha Hb Hab Hok. unfold FindRoute. assert (zlen (replicate (Z.to_nat n) false) = n) as Hlen by (unfold zlen; rewrite length_replicate; lia).
  destruct (zset_some (replicate (Z.to_nat n) false) a true) as [v1 E1]; [lia|]. step_opt E1. pose proof (zset_len _ _ _ _ E1).
  destruct (zset_some v1 b true) as [v2 E2]; [lia|]. step_opt E2. pose proof (zset_len _ _ _ _ E2).
  assert (route_state 2 (v2, [a; b])) as H2.
  { split; cbn [fst snd]; [lia|done| |apply NoDup_cons; split; [set_solver|apply NoDup_singleton]|done]. intros x.
    rewrite (zset_get _ _ _ _ _ E2), (zset_get _ _ _ _ _ E1), !elem_of_cons. case_decide; [naive_solver|]. case_decide; [naive_solver|]. split; [|set_solver].
    unfold zget. destruct (0 <=? x); [|done]. rewrite lookup_replicate. naive_solver. }
  assert (forall k ids s, 2 <= k -> zlen ids = n - k -> route_state k s -> exists s', for_ids (add_farthest n t) ids s = Some s' /\ route_state n s') as Hloop.
  { unfold for_ids. intros k ids. revert k. induction ids as [|i ids IH]; intros k s Hk Hl Hs; [rewrite zlen_nil in Hl; replace n with k by lia; by exists s|].
    rewrite zlen_cons in Hl. pose proof (zlen_nonneg ids). cbn [foldl mbind option_bind]. destruct (add_farthest_state k s i) as (s' & -> & Hs'); [lia..|done|].
    apply (IH (k + 1)); [lia..|done]. }
  destruct (Hloop 2 (seqZ 2 (n - 2)) _ ltac:(lia) ltac:(unfold zlen; rewrite length_seqZ; lia) H2) as (s & Es & Hs). step_opt Es. exists s.2. split; [done|].
  split; [|apply (state_ok n s Hs)]. apply submseteq_length_Permutation.
  - apply NoDup_submseteq; [apply (state_once n s Hs)|]. intros x Hx. apply seqZ_ids. by apply (state_ids n s).
  - pose proof (state_route n s Hs) as Hr. unfold zlen in Hr. rewrite length_seqZ. lia.
Qed.
End insertion.

(** The first of the greatest durations. *)
Lemma max_index_spec l : forall best best_value i pre, zlen pre = i -> 1 <= best < i -> pre !z best = Some best_value ->
  (forall k x, 1 <= k < i -> pre !z k = Some x -> x <= best_value /\ (k < best -> x < best_value)) ->
  exists y, (pre ++ l) !z (max_index best best_value i l) = Some y /\ 1 <= max_index best best_value i l < zlen (pre ++ l) /\
    forall k x, 1 <= k < zlen (pre ++ l) -> (pre ++ l) !z k = Some x -> x <= y /\ (k < max_index best best_value i l -> x < y).
Proof.
  induction l as [|x l IH]; intros best best_value i pre Hi Hb Hv Hmax; [rewrite app_nil_r, Hi; by exists best_value|].
  replace (pre ++ x :: l) with ((pre ++ [x]) ++ l) by by rewrite <- app_assoc. cbn [max_index]. destruct (Z.ltb_spec best_value x) as [E|E].
  - apply IH; [rewrite zlen_snoc; lia|lia|rewrite zget_app_r by lia; by rewrite Hi, Z.sub_diag|]. intros k y Hk Hy.
    destruct (decide (k < i)); [rewrite zget_app_l in Hy by lia; specialize (Hmax k y ltac:(lia) Hy); lia|].
    rewrite zget_app_r in Hy by lia. replace (k - zlen pre) with 0 in Hy by lia. rewrite zget_cons_0 in Hy. simplify_eq. lia.
  - apply IH; [rewrite zlen_snoc; lia|lia|rewrite zget_app_l by lia; done|]. intros k y Hk Hy.
    destruct (decide (k < i)); [rewrite zget_app_l in Hy by lia; apply (Hmax k y ltac:(lia) Hy)|].
    rewrite zget_app_r in Hy by lia. replace (k - zlen pre) with 0 in Hy by lia. rewrite zget_cons_0 in Hy. simplify_eq. lia.
Qed.

(** The start of the insertion: the first of the longest legs but the very first entry. *)
Lemma farthest_start n d t : 2 <= n -> table_of n d t -> exists a b,
  FarthestInsertionTrip n t = FindRoute n t a b /\ 0 <= a < n /\ 0 <= b < n /\ (a, b) <> (0, 0) /\
  forall u v, 0 <= u < n -> 0 <= v < n -> (u, v) <> (0, 0) -> d u v <= d a b /\ (u * n + v < a * n + b -> d u v < d a b).
Proof.
  intros Hn Ht. unfold FarthestInsertionTrip. pose proof (table_size n d t Ht) as Hsize. pose proof (table_nodes n d t Ht) as Hnodes.
  destruct (table_ t) as [|x0 [|x rest]] eqn:Et; [rewrite zlen_nil in Hsize; nia|rewrite zlen_cons, zlen_nil in Hsize; nia|].
  destruct (max_index_spec rest 1 x 2 [x0; x]) as (y & Hy & Hj & Hmax); [done|lia|done| |].
  { intros k z Hk Hz. replace k with 1 in * by lia. change ([x0; x] !z 1) with (Some x) in Hz. simplify_eq. lia. }
  change ([x0; x] ++ rest) with (x0 :: x :: rest) in *. set (j := max_index 1 x 2 rest) in *. rewrite Hsize in Hj, Hmax.
  pose proof (Z.div_mod j n ltac:(lia)) as Hdm. pose proof (Z.mod_pos_bound j n ltac:(lia)) as Hm.
  assert (0 <= j / n < n) as Hq by (split; [apply Z.div_pos; lia|apply Z.div_lt_upper_bound; lia]).
  assert (forall u v, 0 <= u < n -> 0 <= v < n -> (x0 :: x :: rest) !z (u * n + v) = Some (d u v)) as Hget.
  { intros u v Hu Hv. pose proof (table_get n d t Ht u v Hu Hv) as H. unfold dist_table in H. by rewrite Et, Hnodes in H. }
  assert (d (j / n) (j mod n) = y) as Hdj.
  { pose proof (Hget _ _ Hq Hm) as H. replace (j / n * n + j mod n) with j in H by lia. congruence. }
  exists (j / n), (j mod n). split; [done|]. split; [done|]. split; [done|]. split.
  - intros [= E1 E2]. lia.
  - intros u v Hu Hv Hne. rewrite Hdj. replace (j / n * n + j mod n) with j by lia. apply (Hmax (u * n + v)); [|by apply Hget].
    assert (u <> 0 \/ v <> 0) by (destruct (decide (u = 0)), (decide (v = 0)); subst; [done|lia..]). nia.
Qed.

(** Durations that are all valid, with none from a location to itself. *)
Lemma farthest_free n d t : 2 <= n -> table_of n d t -> (forall u v, 0 <= u < n -> 0 <= v < n -> 0 <= d u v < duration_bound) ->
  (forall u, 0 <= u < n -> d u u = 0) -> exists p, FarthestInsertionTrip n t = Some p /\ p ≡ₚ seqZ 0 n.
Proof.
  intros Hn Ht Hd Hdiag. destruct (farthest_start n d t Hn Ht) as (a & b & -> & Ha & Hb & Hab & Hmax).
  assert (short n d) as Hshort by (intros u v Hu Hv; right; by apply Hd).
  destruct (FindRoute_visits n d t Hn Ht Hshort (fun _ => True)) with (a := a) (b := b) as (p & E & Hp & _); [| |done..| | |by exists p].
  - intros route x _ Hids _ Hlen Hx _. pose proof (insertion_position_range route 0 ltac:(lia)) as Hp.
    destruct (zget_is_some route 0 ltac:(lia)) as [u Hu]. destruct (zget_is_some route _ Hp) as [v Hv]. exists u, v. split; [done|]. split; [done|].
    pose proof (Hd u x (Hids u (zget_elem _ _ _ Hu)) Hx). pose proof (Hd x v Hx (Hids v (zget_elem _ _ _ Hv))).
    unfold duration_bound, INVALID_EDGE_DURATION, INT32_MAX in *. lia.
  - done.
  - intros ->. rewrite (Hdiag b Hb) in Hmax. destruct (Hmax 0 1) as [_ H]; [lia..|done|]. pose proof (Hd 0 1 ltac:(lia) ltac:(lia)).
    assert (b <> 0) by (intros ->; by apply Hab). specialize (H ltac:(nia)). lia.
  - done.
Qed.

(** Between fixed ends the insertion never goes past the ends. *)
Section between.
Context (n : Z) (d : Z -> Z -> Z) (t : DistTableWrapper) (Hn : 3 <= n).
Context (Hd : forall u v, 0 <= u < n -> 0 <= v < n -> 0 <= d u v < duration_bound) (Ht : table_of n (fixed_both 0 (n - 1) d) t).
#[local] Definition between (route : list Z) : Prop := head route = Some 0 /\ last route = Some (n - 1).

Lemma fixed_both_inner u v : 0 <= u < n -> 0 <= v < n -> u <> n - 1 -> v <> 0 -> (u, v) <> (0, n - 1) -> fixed_both 0 (n - 1) d u v <> INVALID_EDGE_DURATION.
Proof using Hd Hn.
  intros Hu Hv H1 H2 H3. pose proof (Hd u v Hu Hv). unfold fixed_both. rewrite (proj2 (Z.eqb_neq u (n - 1))), (proj2 (Z.eqb_neq v 0)) by done.
  rewrite !andb_false_r. simpl. destruct (Z.eqb_spec u 0) as [->|], (Z.eqb_spec v (n - 1)) as [->|]; simpl; try done;
    unfold duration_bound, INVALID_EDGE_DURATION, INT32_MAX in *; lia.
Qed.

Lemma between_fits route x : between route -> (forall u, u ∈ route -> 0 <= u < n) -> NoDup route -> 2 <= zlen route -> 0 <= x < n -> x ∉ route ->
  fits (fixed_both 0 (n - 1) d) route x 0.
Proof using Hd Hn.
  intros [Hh Hl] Hids Hnd Hlen Hx Hxr. pose proof (insertion_position_range route 0 ltac:(lia)) as Hp. destruct (zget_is_some route _ Hp) as [v Hv].
  assert (route !z 0 = Some 0) as H0 by (by destruct route). exists 0, v. split; [done|]. split; [done|].
  assert (0 ∈ route) as Hin0 by (by eapply zget_elem). assert (v ∈ route) as Hinv by (by eapply zget_elem).
  assert (n - 1 ∈ route) as Hinl by (rewrite last_lookup in Hl; by eapply list_elem_of_lookup_2).
  assert (v <> 0) as Hv0.
  { intros ->. revert Hp Hv. unfold next_position. destruct (Z.eqb_spec (0 + 1) (zlen route)); [lia|]. intros Hp Hv. destruct route as [|z route]; [done|].
    simpl in Hh. simplify_eq. rewrite zget_cons_S in Hv by lia. apply NoDup_cons in Hnd as [Hz _]. apply Hz. by eapply zget_elem. }
  assert (x <> 0) by (intros ->; by apply Hxr). assert (x <> n - 1) by (intros ->; by apply Hxr). specialize (Hids v Hinv).
  split; apply fixed_both_inner; (done || lia || congruence).
Qed.

Lemma between_insert route x i : between route -> 0 <= i < zlen route -> NoDup route -> 0 <= x < n -> x ∉ route -> fits (fixed_both 0 (n - 1) d) route x i ->
  between (take (Z.to_nat (next_position route i)) route ++ x :: drop (Z.to_nat (next_position route i)) route).
Proof using Hn.
  intros [Hh Hl] Hi Hnd Hx Hxr (u & v & Hu & _ & Hux & _). unfold next_position. destruct (Z.eqb_spec (i + 1) (zlen route)) as [E|E].
  - exfalso. apply Hux. assert (u = n - 1) as ->.
    { rewrite last_lookup in Hl. rewrite <- (Z2Nat.id i), zget_nat in Hu by lia. replace (pred (length route)) with (Z.to_nat i) in Hl by (unfold zlen in *; lia). congruence. }
    assert (0 ∈ route) by (destruct route; [done|]; simpl in Hh; simplify_eq; by left). assert (n - 1 ∈ route) by (by eapply zget_elem).
    unfold fixed_both. rewrite Z.eqb_refl, (proj2 (Z.eqb_neq x 0)), (proj2 (Z.eqb_neq x (n - 1))), andb_false_r by (intros ->; by apply Hxr). done.
  - split.
    + destruct route as [|z route]; [done|]. by replace (Z.to_nat (i + 1)) with (S (Z.to_nat i)) by lia.
    + rewrite last_app, last_cons. rewrite last_lookup, length_drop, lookup_drop. rewrite last_lookup in Hl.
      replace (Z.to_nat (i + 1) + pred (length route - Z.to_nat (i + 1)))%nat with (pred (length route)) by (unfold zlen in *; lia). by rewrite Hl.
Qed.

Lemma farthest_between : exists p, FarthestInsertionTrip n t = Some p /\ p ≡ₚ seqZ 0 n /\ between p.
Proof using Hd Hn Ht.
  assert (short n (fixed_both 0 (n - 1) d)) as Hshort.
  { intros u v Hu Hv. pose proof (Hd u v Hu Hv). unfold fixed_both. repeat case_match; auto. right. by vm_compute. }
  assert (fixed_both 0 (n - 1) d 0 (n - 1) = INVALID_EDGE_DURATION) as Hinv by (unfold fixed_both; by rewrite !Z.eqb_refl).
  destruct (farthest_start n _ t ltac:(lia) Ht) as (a & b & -> & Ha & Hb & Hab & Hmax).
  assert (forall u v, 0 <= u < n -> 0 <= v < n -> fixed_both 0 (n - 1) d u v <= INVALID_EDGE_DURATION) as Hle.
  { intros u v Hu Hv. destruct (Hshort u v Hu Hv) as [->|H]; [done|]. unfold duration_bound, INVALID_EDGE_DURATION, INT32_MAX in *. lia. }
  destruct (Hmax 0 (n - 1)) as [H1 H2]; [lia..|intros [=]; lia|]. rewrite Hinv in H1, H2. pose proof (Hle a b Ha Hb).
  assert (a = 0) as -> by nia. assert (b = n - 1) as ->.
  { destruct (decide (b = n - 1)) as [|Hne]; [done|exfalso]. apply (fixed_both_inner 0 b); [lia..| | |lia]; [intros ->; by apply Hab|congruence]. }
  apply (FindRoute_visits n _ t ltac:(lia) Ht Hshort between between_fits between_insert); [lia..|done].
Qed.
End between.

Section visits.
Context (r : TripRequest) (Hacc : accepted r = true) (Hr : BF_MAX_FEASIBLE <= coordinates_size r < 2 ^ 31).
Hypothesis diagonal : forall u, 0 <= u < coordinates_size r -> duration_between r u u = 0.
#[local] Abbreviation n := (coordinates_size r).
#[local] Abbreviation search := (t ← manipulate_table (starts_first r) (ends_last r) (roundtrip r) 0 (n - 1) (mkDistTable (durations r) n);
  trip ← find_trip n t;
  Some (Ok (rotate_trip (starts_first r) (ends_last r) (roundtrip r) (n - 1) trip)
    (ComputeRoute (rotate_trip (starts_first r) (ends_last r) (roundtrip r) (n - 1) trip) (roundtrip r)))).

#[local] Lemma many : 10 <= n < 2 ^ 31.
Proof using Hr. exact Hr. Qed.

#[local] Lemma many_locations : 2 <= n < 2 ^ 31.
Proof using Hr. pose proof many. lia. Qed.

Lemma find_trip_many t : find_trip n t = FarthestInsertionTrip n t.
Proof using Hr. unfold find_trip. by rewrite (proj2 (Z.ltb_ge n BF_MAX_FEASIBLE)) by lia. Qed.

Lemma visits_between : starts_first r && ends_last r = true -> exists p, search = Some (Ok p (ComputeRoute p (roundtrip r))) /\ asked_for r p.
Proof using Hacc Hr diagonal.
  intros Hb. pose proof many. pose proof (accepted_short r Hacc many_locations) as Hd.
  destruct (FSE_table n _ _ 0 (n - 1) ltac:(lia) ltac:(lia) (accepted_table r Hacc many_locations)) as (t & Et & Ht).
  destruct (farthest_between n _ t ltac:(lia) Hd Ht) as (p & Ep & Hp & Hh & Hl). unfold manipulate_table. rewrite Hb. step_opt Et. rewrite find_trip_many. step_opt Ep.
  exists p. unfold asked_for, starts_first, ends_last in *. destruct (source r), (destination r); try done. split; [|done].
  unfold rotate_trip. simpl. assert (rotate_to (find_position 0 p) p = p) as ->; [|done]. destruct p as [|x p]; [done|]. simpl in Hh. simplify_eq. simpl.
  unfold rotate_to. simpl. by rewrite app_nil_r.
Qed.

(** Tables without invalid entries. *)
Lemma changed_free t (b : Z -> Z -> bool) : table_of n (set_where b 0 (duration_between r)) t ->
  exists p, find_trip n t = Some p /\ p ≡ₚ seqZ 0 n.
Proof using Hacc Hr diagonal.
  intros Ht. pose proof many. rewrite find_trip_many. apply (farthest_free n _ t ltac:(lia) Ht).
  - intros u v Hu Hv. unfold set_where. destruct (b u v); [by vm_compute|by apply (accepted_short r Hacc many_locations)].
  - intros u Hu. unfold set_where. destruct (b u u); [done|by apply diagonal].
Qed.

Lemma visits_free : starts_first r && ends_last r = false -> exists p, search = Some (Ok p (ComputeRoute p (roundtrip r))) /\ asked_for r p.
Proof using Hacc Hr diagonal.
  intros Hb. pose proof many. pose proof (accepted_table r Hacc many_locations) as Ht0.
  assert (exists t p, manipulate_table (starts_first r) (ends_last r) (roundtrip r) 0 (n - 1) (mkDistTable (durations r) n) = Some t /\ find_trip n t = Some p /\ p ≡ₚ seqZ 0 n) as (t & p & Et & Ep & Hp).
  { unfold manipulate_table. rewrite Hb. destruct (negb (roundtrip r) && starts_first r); [|destruct (negb (roundtrip r) && ends_last r)].
    - destruct (FS_table n _ _ 0 ltac:(lia) Ht0) as (t & Et & Ht). destruct (changed_free t _ Ht) as (p & Ep & Hp). by exists t, p.
    - destruct (FE_table n _ _ (n - 1) ltac:(lia) Ht0) as (t & Et & Ht). destruct (changed_free t _ Ht) as (p & Ep & Hp). by exists t, p.
    - destruct (changed_free (mkDistTable (durations r) n) (fun _ _ => false) Ht0) as (p & Ep & Hp). by exists (mkDistTable (durations r) n), p. }
  step_opt Et. step_opt Ep. eexists. split; [done|]. assert (0 ∈ p) as H0 by (rewrite Hp; apply seqZ_ids; lia). assert (n - 1 ∈ p) as Hl by (rewrite Hp; apply seqZ_ids; lia).
  assert (forall k, rotate_to k p ≡ₚ seqZ 0 n) as Hk by (intros k; by rewrite rotate_to_Permutation).
  unfold asked_for, rotate_trip, starts_first, ends_last in *. destruct (source r), (destination r); try done; simpl negb; simpl orb; cbv iota.
  - split; [apply Hk|by apply rotate_to_head].
  - destruct (roundtrip r); simpl negb; cbv iota; (split; [apply Hk|]); [by apply rotate_to_head|by apply rotate_after_last].
  - split; [apply Hk|by apply rotate_to_head].
Qed.
End visits.

(** C38: A trip request that passes the checks, with ten or more locations and
    durations below 2^27 between them, none from a location to itself, is answered
    with an order of all locations that starts and ends as the request says:
    farthest insertion never runs out of places, and between fixed ends it
    never inserts a location outside of them. *)
Theorem trip_visits_all (r : TripRequest) : accepted r = true -> BF_MAX_FEASIBLE <= coordinates_size r < 2 ^ 31 ->
  (forall u, 0 <= u < coordinates_size r -> duration_between r u u = 0) ->
  exists p, HandleRequest r = Some (Ok p (ComputeRoute p (roundtrip r))) /\ asked_for r p.
Proof.
  intros Hacc Hr Hdiag. rewrite accepted_request by (done || unfold BF_MAX_FEASIBLE in Hr; lia). destruct (starts_first r && ends_last r) eqn:Eb.
  - by apply visits_between.
  - by apply visits_free.
Qed.

(** Ten locations on a line, one minute apart. *)
Definition line_request : TripRequest :=
  mkTripRequest true true First Last false 10 100 true true 10 (u ← seqZ 0 10; v ← seqZ 0 10; [600 * Z.abs (u - v)]).

Lemma trip_visits_all_witness :
  (exists p, HandleRequest line_request = Some (Ok p (ComputeRoute p false)) /\ asked_for line_request p) /\
  HandleRequest line_request = Some (Ok (seqZ 0 10) (seqZ 0 10)).
Proof.
  split; [|by vm_compute]. apply (trip_visits_all line_request); [by vm_compute|split; by vm_compute|].
  intros u Hu%seqZ_ids. revert u Hu. apply Forall_forall. vm_compute. repeat (constructor; [done|]). constructor.
Defined.
