(* ===== verification/Polyline.v ===== *)
(** * Polylines

    Model of include/engine/polyline_compressor.hpp and
    src/engine/polyline_compressor.cpp: coordinates are rounded to the precision
    of a polyline, and the differences from one to the next are written with five
    bits per character.  Responses carry geometries in this form, requests their
    coordinates.  The theorem says that decoding gives back the rounded
    coordinates. *)
From S2P Require Import Prelude.
From S2P Require Import LiveTraffic.
From S2P Require Import Doubles.
Import SpecFloat.

(** ** Numbers *)

(** [encode(int)]; the number loses five bits each time, so the loop ends
    within seven rounds. *)
Fixpoint encode_loop (fuel : nat) (number_to_encode : Z) (output : list Z) : option (list Z) :=
  match fuel with
  | O => None
  | S fuel' =>
      if 32 <=? number_to_encode then
        let next_value := Z.lor 32 (Z.land number_to_encode 31) + 63 in
        encode_loop fuel' (Z.shiftr number_to_encode 5) (output ++ [wrap 8 next_value])
      else Some (output ++ [wrap 8 (number_to_encode + 63)])
  end.

Definition encode_number (number_to_encode : Z) : option (list Z) := encode_loop 7 number_to_encode [].

(** The sign goes to the last bit. *)
Definition zigzag (number : Z) : Z :=
  if number <? 0 then
    let binary := wrap 32 (Z.abs number) in
    let twos := wrap 32 (UINT32_MAX - binary + 1) in
    let shl := wrap 32 (Z.shiftl twos 1) in
    swrap 32 (UINT32_MAX - shl)
  else swrap 32 (Z.shiftl number 1).

(** [encode(std::vector<int> &)] *)
Fixpoint encode_all (numbers : list Z) : option (list Z) :=
  match numbers with
  | [] => Some []
  | number :: numbers' => output ← encode_number number; rest ← encode_all numbers'; Some (output ++ rest)
  end.

Definition encode (numbers : list Z) : option (list Z) := encode_all (zigzag <$> numbers).

(** The loop of [decode_polyline_integer] over the rest of the string; a
    character is a signed byte. *)
Fixpoint decode_chunks (value shift result : Z) (s : list Z) : Z * list Z :=
  match s with
  | [] => (result, [])
  | c :: s' =>
      if negb (Z.land value 32 =? 0) && (shift <? 31) then
        let value := wrap 32 (swrap 8 c - 63) in
        decode_chunks value (shift + 5) (Z.lor result (wrap 32 (Z.shiftl (Z.land value 31) shift))) s'
      else (result, s)
  end.

Definition decode_polyline_integer (s : list Z) : Z * list Z :=
  let '(result, rest) := decode_chunks 32 0 0 s in
  let result := if Z.land result 1 =? 1 then UINT32_MAX - Z.shiftr result 1 else Z.shiftr result 1 in
  (swrap 32 result, rest).

(** ** Coordinates *)

Record Coordinate : Type := mkCoordinate { lon : Z; lat : Z }.

(** A coordinate in units of the polyline, less the current one. *)
Definition coordinate_diff (coordinate_to_polyline : double) (coordinate current : Z) : option Z :=
  to_int32 (dsub (dround (dmul (double_of_Z coordinate) coordinate_to_polyline)) (double_of_Z current)).

Fixpoint delta_numbers (coordinate_to_polyline : double) (current_lat current_lon : Z) (cs : list Coordinate) : option (list Z) :=
  match cs with
  | [] => Some []
  | loc :: cs' =>
      lat_diff ← coordinate_diff coordinate_to_polyline (lat loc) current_lat;
      lon_diff ← coordinate_diff coordinate_to_polyline (lon loc) current_lon;
      rest ← delta_numbers coordinate_to_polyline (swrap 32 (current_lat + lat_diff)) (swrap 32 (current_lon + lon_diff)) cs';
      Some (lat_diff :: lon_diff :: rest)
  end.

Definition encodePolyline (POLYLINE_PRECISION : Z) (cs : list Coordinate) : option (list Z) :=
  let coordinate_to_polyline := ddiv (double_of_Z POLYLINE_PRECISION) COORDINATE_PRECISION in
  match cs with
  | [] => Some []
  | _ => numbers ← delta_numbers coordinate_to_polyline 0 0 cs; encode numbers
  end.

Fixpoint decode_loop (fuel : nat) (polyline_to_coordinate : double) (latitude longitude : Z) (s : list Z) (coordinates : list Coordinate) : option (list Coordinate) :=
  match s with
  | [] => Some coordinates
  | _ =>
      match fuel with
      | O => None
      | S fuel' =>
          let '(dlat, s) := decode_polyline_integer s in
          let '(dlon, s) := decode_polyline_integer s in
          let latitude := swrap 32 (latitude + dlat) in
          let longitude := swrap 32 (longitude + dlon) in
          fixed_longitude ← to_int32 (dmul (double_of_Z longitude) polyline_to_coordinate);
          fixed_latitude ← to_int32 (dmul (double_of_Z latitude) polyline_to_coordinate);
          decode_loop fuel' polyline_to_coordinate latitude longitude s (coordinates ++ [mkCoordinate fixed_longitude fixed_latitude])
      end
  end.

Definition decodePolyline (POLYLINE_PRECISION : Z) (polyline : list Z) : option (list Coordinate) :=
  decode_loop (length polyline) (ddiv COORDINATE_PRECISION (double_of_Z POLYLINE_PRECISION)) 0 0 polyline [].

(** The polyline of the tests. *)
Example polyline6_test : let cs := [mkCoordinate (-73990171) 40714701; mkCoordinate (-73991801) 40717571; mkCoordinate (-73985751) 40715651] in
  encodePolyline 1000000 cs = Some (str "y{_tlAt`_clCkrDzdB~vBcyJ") /\
  encodePolyline 100000 cs = Some (str "{aowFperbM}PdI~Jyd@") /\
  (p ← encodePolyline 1000000 cs; decodePolyline 1000000 p) = Some cs.
Proof. by vm_compute. Qed.

(** ** Numbers come back *)

Lemma land_31 n : Z.land n 31 = n mod 32.
Proof. change 31 with (Z.ones 5). by rewrite Z.land_ones by lia. Qed.

(** The character of a chunk, with and without the continuation bit. *)
Lemma chunk_character x : 0 <= x < 32 -> let c := Z.lor 32 x + 63 in
  wrap 32 (swrap 8 (wrap 8 c) - 63) = 32 + x /\ wrap 32 (swrap 8 (wrap 8 (x + 63)) - 63) = x /\
  Z.land (32 + x) 32 = 32 /\ Z.land x 32 = 0.
Proof.
  intros Hx. assert (forallb (fun x => (wrap 32 (swrap 8 (wrap 8 (Z.lor 32 x + 63)) - 63) =? 32 + x) && (wrap 32 (swrap 8 (wrap 8 (x + 63)) - 63) =? x) &&
    (Z.land (32 + x) 32 =? 32) && (Z.land x 32 =? 0)) (seqZ 0 32) = true) as H by by vm_compute.
  rewrite forallb_forall in H. specialize (H x ltac:(apply list_elem_of_In, elem_of_seqZ; lia)). rewrite !andb_true_iff in H. destruct H as [[[H1 H2] H3] H4]. split_and!; by apply Z.eqb_eq.
Qed.

Lemma decode_stop value shift r s : Z.land value 32 = 0 -> decode_chunks value shift r s = (r, s).
Proof. intros H. destruct s as [|c s]; [done|]. cbn [decode_chunks]. by rewrite H. Qed.

Lemma encode_loop_decodes fuel n : (0 < fuel)%nat -> 0 <= n < 2 ^ (5 * Z.of_nat fuel) -> exists o,
  (forall out, encode_loop fuel n out = Some (out ++ o)) /\ o <> [] /\
  forall value shift r rest, Z.land value 32 = 32 -> 0 <= shift < 31 -> 0 <= r < 2 ^ shift -> n * 2 ^ shift < 2 ^ 31 ->
    decode_chunks value shift r (o ++ rest) = (r + n * 2 ^ shift, rest).
Proof.
  revert n. induction fuel as [|fuel IH]; intros n Hf Hn; [lia|]. cbn [encode_loop]. destruct (Z.leb_spec 32 n) as [H|H].
  - assert (0 <= Z.shiftr n 5 < 2 ^ (5 * Z.of_nat fuel)) as Hn'.
    { rewrite Z.shiftr_div_pow2 by lia. split; [apply Z.div_pos; lia|]. apply Z.div_lt_upper_bound; [lia|]. rewrite <- Z.pow_add_r by lia.
      replace (5 + 5 * Z.of_nat fuel) with (5 * Z.of_nat (S fuel)) by lia. lia. }
    assert (0 < fuel)%nat as Hf' by (destruct fuel; [simpl in Hn; lia|lia]). destruct (IH _ Hf' Hn') as (o & Ho & _ & Hdec).
    pose proof (Z.mod_pos_bound n 32 ltac:(lia)) as Hm. pose proof (Z.div_mod n 32 ltac:(lia)) as Hdm. destruct (chunk_character (n mod 32) Hm) as (Hc & _ & Hl & _).
    rewrite land_31. eexists. split_and!; [intros out; rewrite Ho, <- app_assoc; done|done|]. intros value shift r rest Hv Hs Hr Hb.
    cbn [app decode_chunks]. rewrite Hv. rewrite (proj2 (Z.ltb_lt shift 31)) by lia. simpl andb. cbv iota zeta. rewrite Hc, land_31.
    assert (0 < 2 ^ shift) as Hp by (apply Z.pow_pos_nonneg; lia). replace ((32 + n mod 32) mod 32) with (n mod 32) by (apply (Z.mod_unique_pos _ _ 1); lia).
    rewrite wrap_small by (split; rewrite Z.shiftl_mul_pow2 by lia; nia). rewrite lor_shiftl by lia.
    assert (shift < 26) as Hs26.
    { destruct (Z.lt_ge_cases shift 26) as [|Hge]; [done|]. pose proof (Z.pow_le_mono_r 2 26 shift ltac:(lia) Hge). change (2 ^ 26) with 67108864 in *. change (2 ^ 31) with 2147483648 in *. nia. }
    rewrite Hdec; [|done|lia| |].
    + rewrite Z.shiftr_div_pow2 by lia. change (2 ^ 5) with 32. rewrite Z.pow_add_r by lia. change (2 ^ 5) with 32. f_equal. nia.
    + rewrite Z.pow_add_r by lia. change (2 ^ 5) with 32. nia.
    + rewrite Z.shiftr_div_pow2, Z.pow_add_r by lia. change (2 ^ 5) with 32. nia.
  - exists [wrap 8 (n + 63)]. split_and!; [done..|]. intros value shift r rest Hv Hs Hr Hb. cbn [app decode_chunks].
    rewrite Hv, (proj2 (Z.ltb_lt shift 31)) by lia. simpl andb. cbv iota zeta. destruct (chunk_character n ltac:(lia)) as (_ & Hc & _ & Hl).
    rewrite Hc, land_31, Z.mod_small by lia. rewrite decode_stop by done. rewrite wrap_small, lor_shiftl; [done|lia..|].
    split; rewrite Z.shiftl_mul_pow2 by lia; [|lia]. apply Z.mul_nonneg_nonneg; lia.
Qed.

(** Numbers of 30 bits and a sign survive. *)
Lemma zigzag_value z : - 2 ^ 30 <= z < 2 ^ 30 -> zigzag z = if z <? 0 then - 2 * z - 1 else 2 * z.
Proof.
  intros Hz. unfold zigzag, UINT32_MAX. destruct (Z.ltb_spec z 0) as [H|H].
  - rewrite (wrap_small 32 (Z.abs z)) by (unfold in_word; lia). rewrite (wrap_small 32 (2 ^ 32 - 1 - Z.abs z + 1)) by (unfold in_word; lia).
    rewrite Z.shiftl_mul_pow2 by lia. unfold wrap. replace ((2 ^ 32 - 1 - Z.abs z + 1) * 2 ^ 1) with (2 ^ 32 + 2 * z + 1 * 2 ^ 32) by lia.
    rewrite Z.mod_add by lia. rewrite Z.mod_small by lia. rewrite swrap_small; lia.
  - rewrite Z.shiftl_mul_pow2 by lia. rewrite swrap_small; lia.
Qed.

Lemma encode_number_decodes z : - 2 ^ 30 <= z < 2 ^ 30 -> exists o, encode_number (zigzag z) = Some o /\ o <> [] /\
  forall rest, decode_polyline_integer (o ++ rest) = (z, rest).
Proof.
  intros Hz. pose proof (zigzag_value z Hz) as Hzz. assert (0 <= zigzag z < 2 ^ 31) as Hb by (rewrite Hzz; destruct (Z.ltb_spec z 0); lia).
  destruct (encode_loop_decodes 7 (zigzag z)) as (o & Ho & Hne & Hdec); [lia|split; [lia|]; apply (Z.lt_le_trans _ (2 ^ 31)); [lia|by vm_compute]|].
  exists o. split; [apply (Ho [])|]. split; [done|]. intros rest. unfold decode_polyline_integer. rewrite (Hdec 32 0 0 rest) by (done || lia).
  rewrite Z.mul_1_r, Z.add_0_l. f_equal. change 1 with (Z.ones 1) at 1. rewrite Z.land_ones, Z.shiftr_div_pow2 by lia. change (2 ^ 1) with 2. rewrite Hzz.
  destruct (Z.ltb_spec z 0) as [H|H].
  - replace (- 2 * z - 1) with (1 + (- z - 1) * 2) by lia. rewrite Z.mod_add, Z.div_add by lia. change (1 mod 2) with 1. change (1 / 2) with 0. simpl Z.eqb. cbv iota.
    unfold UINT32_MAX, swrap. replace (2 ^ 32 - 1 - (0 + (- z - 1)) + 2 ^ (32 - 1)) with (z + 2 ^ (32 - 1) + 1 * 2 ^ 32) by lia. rewrite Z.mod_add by lia.
    change ((z + 2 ^ (32 - 1)) mod 2 ^ 32 - 2 ^ (32 - 1)) with (swrap 32 z). apply swrap_small; lia.
  - rewrite Z.mul_comm, Z.mod_mul, Z.div_mul by lia. simpl Z.eqb. cbv iota. apply swrap_small; lia.
Qed.

(** Every character is read once, so the length of a polyline is fuel enough. *)
Lemma decode_chunks_shorter value shift r s : (length (decode_chunks value shift r s).2 <= length s)%nat.
Proof.
  revert value shift r. induction s as [|c s IH]; intros value shift r; [done|]. cbn [decode_chunks]. destruct (_ && _); [|done].
  etransitivity; [apply IH|]. simpl. lia.
Qed.

Lemma decode_polyline_integer_shorter c s : (length (decode_polyline_integer (c :: s)).2 <= length s)%nat.
Proof.
  unfold decode_polyline_integer. cbn [decode_chunks]. change (Z.land 32 32) with 32. simpl andb. cbv iota zeta.
  match goal with |- context [decode_chunks ?v ?k ?r s] => pose proof (decode_chunks_shorter v k r s) as H; destruct (decode_chunks v k r s) end. done.
Qed.

Lemma decode_loop_fuel s : forall fuel fuel' k la lo acc, (length s <= fuel)%nat -> (length s <= fuel')%nat ->
  decode_loop fuel k la lo s acc = decode_loop fuel' k la lo s acc.
Proof.
  remember (length s) as n eqn:Hn. revert s Hn. induction n as [n IH] using lt_wf_ind. intros [|c s] -> fuel fuel' k la lo acc Hf Hf'; [by destruct fuel, fuel'|].
  destruct fuel as [|fuel], fuel' as [|fuel']; simpl in Hf, Hf'; [lia..|]. cbn [decode_loop].
  pose proof (decode_polyline_integer_shorter c s) as H1. destruct (decode_polyline_integer (c :: s)) as [dlat s1]. simpl in H1.
  assert (length (decode_polyline_integer s1).2 <= length s1)%nat as H2.
  { destruct s1 as [|c1 s1]; [done|]. etransitivity; [apply decode_polyline_integer_shorter|simpl; lia]. }
  destruct (decode_polyline_integer s1) as [dlon s2]. simpl in H2. destruct (to_int32 _) as [flo|]; [|done]. cbn [mbind option_bind].
  destruct (to_int32 _) as [fla|]; [|done]. cbn [mbind option_bind]. apply (IH (length s2)); [simpl; lia|done|lia..].
Qed.

(** ** Coordinates come back *)

(** [Coordinate::IsValid] *)
Definition IsValid (c : Coordinate) : bool :=
  negb ((90 * 1000000 <? lat c) || (lat c <? -90 * 1000000) || (180 * 1000000 <? lon c) || (lon c <? -180 * 1000000)).

(** A step of a polyline in units of a coordinate, the nearest number of steps
    (halves away from zero), and the coordinate that is written. *)
Definition polyline_unit (POLYLINE_PRECISION : Z) : Z := 1000000 / POLYLINE_PRECISION.
Definition to_units (POLYLINE_PRECISION x : Z) : Z :=
  let u := polyline_unit POLYLINE_PRECISION in Z.sgn x * ((2 * Z.abs x + u) / (2 * u)).
Definition written (POLYLINE_PRECISION : Z) (c : Coordinate) : Coordinate :=
  mkCoordinate (to_units POLYLINE_PRECISION (lon c) * polyline_unit POLYLINE_PRECISION) (to_units POLYLINE_PRECISION (lat c) * polyline_unit POLYLINE_PRECISION).

Section polyline.
Context (P : Z) (HP : P = 100000 \/ P = 1000000).
#[local] Abbreviation to_polyline := (ddiv (double_of_Z P) COORDINATE_PRECISION).
#[local] Abbreviation to_coordinate := (ddiv COORDINATE_PRECISION (double_of_Z P)).

Lemma to_units_bound x : Z.abs x <= 180000000 -> Z.abs (to_units P x) <= 180000000 /\ Z.abs (to_units P x * polyline_unit P) <= 180000005 /\
  Z.abs (to_units P x * polyline_unit P - x) <= polyline_unit P / 2.
Proof using HP.
  intros Hx. unfold to_units. assert (polyline_unit P = 10 \/ polyline_unit P = 1) as Hu by (destruct HP as [-> | ->]; [by left|by right]).
  set (u := polyline_unit P) in *. cbv zeta. assert (0 < 2 * u) as Hu0 by lia. pose proof (Z.div_mod (2 * Z.abs x + u) (2 * u) ltac:(lia)) as Hdm.
  pose proof (Z.mod_pos_bound (2 * Z.abs x + u) (2 * u) Hu0) as Hm. set (q := (2 * Z.abs x + u) / (2 * u)) in *.
  destruct Hu as [Hu|Hu]; rewrite Hu in *; change (10 / 2) with 5; change (1 / 2) with 0; destruct (Z.sgn_spec x) as [[H ->]|[[H ->]|[H ->]]]; lia.
Qed.

(** The product with the double 0.1 is rounded as the tenth is. *)
Lemma units_rounded x : Z.abs x <= 180000000 -> integral (dround (dmul (double_of_Z x) to_polyline)) (to_units P x).
Proof using HP.
  intros Hx. pose proof (integral_double x ltac:(lia)) as Hd. destruct (decide (x = 0)) as [->|Hne].
  { unfold to_units. rewrite Z.mul_0_l. destruct HP as [-> | ->]; by vm_compute. }
  destruct (double_of_Z x) as [s|s| |s m e]; simpl in Hd; [done|done|done|]. destruct (integral_magnitude s m e x Hd) as [Hm Hs]. destruct Hd as [He _].
  assert (0 < 2 ^ (- e)) as Hp by (apply Z.pow_pos_nonneg; lia). set (q := (2 * Z.abs x + polyline_unit P) / (2 * polyline_unit P)).
  assert (to_units P x = if s then - q else q) as ->.
  { unfold to_units. cbv zeta. fold q. destruct s; simpl in Hs; [rewrite Z.sgn_neg|rewrite Z.sgn_pos]; lia. }
  assert (exists mc ec, to_polyline = S754_finite false mc ec /\ ec <= -4 /\ 0 <= q /\ q <= Z.abs x + 1 /\
    Z.max 0 (16 * q - 8) * 2 ^ (- 4 - ec) <= Z.abs x * Zpos mc <= (16 * q + 7) * 2 ^ (- 4 - ec)) as (mc & ec & -> & Hec & Hq & Hqx & Hlo & Hhi).
  { unfold q. destruct HP as [-> | ->].
    - exists 7205759403792794%positive, (-56). split; [by vm_compute|]. split; [lia|]. change (polyline_unit 100000) with 10. change (2 ^ (-4 - -56)) with 4503599627370496.
      pose proof (Z.div_mod (2 * Z.abs x + 10) (2 * 10) ltac:(lia)). pose proof (Z.mod_pos_bound (2 * Z.abs x + 10) (2 * 10) ltac:(lia)). lia.
    - exists 4503599627370496%positive, (-52). split; [by vm_compute|]. split; [lia|]. change (polyline_unit 1000000) with 1. change (2 ^ (-4 - -52)) with 281474976710656.
      pose proof (Z.div_mod (2 * Z.abs x + 1) (2 * 1) ltac:(lia)). pose proof (Z.mod_pos_bound (2 * Z.abs x + 1) (2 * 1) ltac:(lia)). lia. }
  apply round_near; [done|lia|]. unfold dmul, SFmul. rewrite xorb_false_r. apply round_within; [lia..|]. split; [lia|].
  replace (- (4) - (e + ec)) with (- e + (- 4 - ec)) by lia. rewrite Z.pow_add_r, Pos2Z.inj_mul, Hm by lia. nia.
Qed.

Lemma coordinate_diff_units x current : Z.abs x <= 180000000 -> Z.abs current <= 180000000 ->
  coordinate_diff to_polyline x current = Some (to_units P x - current).
Proof using HP.
  intros Hx Hc. unfold coordinate_diff. destruct (to_units_bound x Hx) as [Hb _]. apply integral_int32; [|lia].
  apply integral_sub; [by apply units_rounded|apply integral_double; lia|lia..].
Qed.

Lemma unit_written z : Z.abs z <= 180000000 -> Z.abs (z * polyline_unit P) <= 180000005 -> to_int32 (dmul (double_of_Z z) to_coordinate) = Some (z * polyline_unit P).
Proof using HP.
  intros Hz Hb. apply integral_int32; [|lia]. apply integral_mul; [apply integral_double; lia| |lia].
  assert (to_coordinate = double_of_Z (polyline_unit P)) as -> by (destruct HP as [-> | ->]; by vm_compute).
  apply integral_double. destruct HP as [-> | ->]; by vm_compute.
Qed.

Lemma IsValid_bounds c : IsValid c = true -> Z.abs (lat c) <= 180000000 /\ Z.abs (lon c) <= 180000000.
Proof. unfold IsValid. intros H%negb_true_iff. rewrite !orb_false_iff, !Z.ltb_ge in H. lia. Qed.

(** From a coordinate to the next. *)
Lemma polyline_from cs clat clon : Forall (fun c => IsValid c = true) cs -> Z.abs clat <= 180000000 -> Z.abs clon <= 180000000 ->
  exists o, (numbers ← delta_numbers to_polyline clat clon cs; encode numbers) = Some o /\ (length cs <= length o)%nat /\
    forall fuel acc, (length cs <= fuel)%nat -> decode_loop fuel to_coordinate clat clon o acc = Some (acc ++ (written P <$> cs)).
Proof using HP.
  intros Hcs. revert clat clon. induction Hcs as [|c cs Hc Hcs IH]; intros clat clon Hlat Hlon.
  { exists []. split_and!; [done..|]. intros fuel acc _. simpl. by rewrite app_nil_r; destruct fuel. }
  destruct (IsValid_bounds c Hc) as [Bla Blo]. destruct (to_units_bound _ Bla) as (Ula & Wla & _), (to_units_bound _ Blo) as (Ulo & Wlo & _).
  cbn [delta_numbers]. step_opt (coordinate_diff_units _ _ Bla Hlat). step_opt (coordinate_diff_units _ _ Blo Hlon).
  assert (forall z cur, Z.abs z <= 180000000 -> swrap 32 (cur + (z - cur)) = z) as Hcur by (intros z cur Hz; rewrite swrap_small; lia).
  rewrite !Hcur by done. destruct (IH _ _ Ula Ulo) as (o & Ho & Hlen & Hdec). destruct (delta_numbers to_polyline _ _ cs) as [numbers|]; [|done].
  cbn [mbind option_bind] in *. unfold encode in *. cbn [fmap list_fmap encode_all].
  destruct (encode_number_decodes (to_units P (lat c) - clat)) as (o1 & E1 & N1 & D1); [lia|]. destruct (encode_number_decodes (to_units P (lon c) - clon)) as (o2 & E2 & N2 & D2); [lia|].
  step_opt E1. step_opt E2. rewrite Ho. cbn [mbind option_bind]. eexists. split; [done|]. split.
  { rewrite !length_app. destruct o1, o2; [done..|]. simpl in *. lia. }
  intros fuel acc Hf. destruct fuel as [|fuel]; [simpl in Hf; lia|]. destruct (o1 ++ o2 ++ o) as [|x s] eqn:Es; [by destruct o1|]. cbn [decode_loop]. rewrite <- Es, D1, D2.
  rewrite !Hcur by done. step_opt (unit_written _ Ulo Wlo). step_opt (unit_written _ Ula Wla). rewrite Hdec by (simpl in Hf; lia). by rewrite <- app_assoc.
Qed.
End polyline.

(** C39: Valid coordinates, written as a polyline of five or six digits and read
    again, come back at the nearest step of the polyline, in spite of the product with a
    double that is not exactly a tenth: with six digits they come back as
    they were, with five digits not more than half a step away. *)
Theorem polyline_roundtrip (P : Z) (cs : list Coordinate) : P = 100000 \/ P = 1000000 -> Forall (fun c => IsValid c = true) cs ->
  (exists s, encodePolyline P cs = Some s /\ decodePolyline P s = Some (written P <$> cs)) /\
  Forall (fun c => Z.abs (lat (written P c) - lat c) <= polyline_unit P / 2 /\ Z.abs (lon (written P c) - lon c) <= polyline_unit P / 2) cs.
Proof.
  intros HP Hcs. split.
  - destruct (polyline_from P HP cs 0 0 Hcs) as (o & Ho & Hlen & Hdec); [lia..|]. exists o. unfold encodePolyline, decodePolyline.
    split; [by destruct cs|]. by apply (Hdec (length o) []).
  - apply (Forall_impl _ _ _ Hcs). intros c [Hla Hlo]%IsValid_bounds. split; apply (to_units_bound P HP); done.
Qed.

Lemma polyline_roundtrip_witness : let cs := [mkCoordinate (-73990171) 40714701; mkCoordinate (-73991805) 40717575] in
  ((exists s, encodePolyline 100000 cs = Some s /\ decodePolyline 100000 s = Some (written 100000 <$> cs)) /\
  Forall (fun c => Z.abs (lat (written 100000 c) - lat c) <= polyline_unit 100000 / 2 /\ Z.abs (lon (written 100000 c) - lon c) <= polyline_unit 100000 / 2) cs) /\
  (written 100000 <$> cs) = [mkCoordinate (-73990170) 40714700; mkCoordinate (-73991810) 40717580].
Proof.
  split; [|by vm_compute]. apply (polyline_roundtrip 100000); [by left|]. repeat (constructor; [by vm_compute|]). constructor.
Defined.

(** A polyline of a request can name a latitude that does not fit: ten times
    the number is no [std::int32_t], and the conversion is undefined. *)
Theorem polyline_does_not_fit : decodePolyline 100000 (str "~~~~~~??") = None.
Proof. by vm_compute. Qed.
