(* ===== verification/IndexedData.v ===== *)
(** * Indexed data

    Model of include/util/indexed_data.hpp, in which the extractor stores the names of
    roads and other strings: the strings are put into groups, each with a
    prefix of lengths and a reference to where it starts, and [at] finds a string by
    its number.  The layout of a group is a policy; both policies, with lengths of
    variable and of fixed size, are instances of one interface, and the theorems
    about the container are proved against that interface. *)
From S2P Require Import Prelude.

(** ** The interface of a policy

    A range of offsets stands for the items between them.  [None] of a writer is
    the exception about a length that is too large; a reader gets the bytes, the
    position of an item in its group and the range of the group, and returns the range of the
    item. *)

Class GroupBlock (B : Type) : Type := {
  BLOCK_SIZE : Z;
  BlockReference : Type;
  BlockReference_new : BlockReference;
  offset : BlockReference -> Z;
  WriteBlockReference : list Z -> Z -> option (BlockReference * Z);
  WriteBlockPrefix : list Z -> option (list Z);
  ReadRefrencedBlock : BlockReference -> list Z -> Z -> Z -> Z -> option (Z * Z)
}.
#[global] Arguments BLOCK_SIZE B {_}.
#[global] Arguments BlockReference B {_}.
#[global] Arguments BlockReference_new B {_}.
#[global] Arguments offset {B _}.
#[global] Arguments WriteBlockReference B {_}.
#[global] Arguments WriteBlockPrefix B {_}.
#[global] Arguments ReadRefrencedBlock {B _}.

(** The lengths of the items of a range, as [std::uint32_t]. *)
Fixpoint data_lengths (range : list Z) : list Z :=
  match range with
  | a :: (b :: _) as range' => wrap 32 (b - a) :: data_lengths range'
  | _ => []
  end.

(** ** Lengths of variable size *)

Inductive VariableGroupBlock (N : Z) : Type := .

Module VariableBlock.
Record BlockReference : Type := mkReference { offset : Z; descriptor : Z }.

Definition log256 (value : Z) : Z := if value =? 0 then 0 else if value <? 256 then 1 else if value <? 65536 then 2 else 3.

(** Both iterators after the bytes of a length. *)
Definition var_advance (values : list Z) (data length byte_length : Z) : option (Z * Z) :=
  if byte_length =? 0 then Some (data, length)
  else if byte_length =? 1 then
    b0 ← values !z length; Some (data + b0, length + 1)
  else if byte_length =? 2 then
    b0 ← values !z length; b1 ← values !z (length + 1); Some (data + b0 + Z.shiftl b1 8, length + 2)
  else
    b0 ← values !z length; b1 ← values !z (length + 1); b2 ← values !z (length + 2);
    Some (data + b0 + Z.shiftl b1 8 + Z.shiftl b2 16, length + 3).

Definition sum2bits (value : Z) : Z :=
  let value := wrap 32 (Z.land (Z.shiftr value 2) 0x33333333 + Z.land value 0x33333333) in
  let value := wrap 32 (Z.land (Z.shiftr value 4) 0x0f0f0f0f + Z.land value 0x0f0f0f0f) in
  let value := wrap 32 (Z.land (Z.shiftr value 8) 0x00ff00ff + Z.land value 0x00ff00ff) in
  wrap 32 (Z.land (Z.shiftr value 16) 0x0000ffff + Z.land value 0x0000ffff).

(** The loop over the items of a group, last one first. *)
Fixpoint describe (lengths : list Z) (descriptor prefix_length : Z) : option (Z * Z) :=
  match lengths with
  | [] => Some (descriptor, prefix_length)
  | data_length :: lengths' =>
      if 0x1000000 <=? data_length then None
      else
        let byte_length := log256 data_length in
        describe lengths' (Z.lor (wrap 32 (Z.shiftl descriptor 2)) byte_length) (prefix_length + byte_length)
  end.

Definition WriteBlockReference (range : list Z) (data_offset : Z) : option (BlockReference * Z) :=
  '(descriptor, prefix_length) ← describe (reverse (data_lengths range)) 0 0;
  Some (mkReference (wrap 32 data_offset) descriptor, wrap 64 (data_offset + prefix_length)).

(** The first bytes of a length in memory. *)
Definition length_bytes (data_length : Z) : list Z :=
  take (Z.to_nat (log256 data_length)) [data_length mod 256; data_length / 256 mod 256; data_length / 65536 mod 256; data_length / 16777216].

Definition WriteBlockPrefix (range : list Z) : option (list Z) := Some (concat (length_bytes <$> data_lengths range)).

(** The loop that passes [local_index] items. *)
Fixpoint pass_items (local_index : nat) (values : list Z) (first var_lengths descriptor : Z) : option (Z * Z * Z) :=
  match local_index with
  | O => Some (first, var_lengths, descriptor)
  | S local_index' =>
      '(first, var_lengths) ← var_advance values first var_lengths (Z.land descriptor 3);
      pass_items local_index' values first var_lengths (Z.shiftr descriptor 2)
  end.

Definition ReadRefrencedBlock (N : Z) (reference : BlockReference) (values : list Z) (local_index first last : Z) : option (Z * Z) :=
  let var_lengths := first in
  let first := first + sum2bits (descriptor reference) in
  '(first, var_lengths, descriptor) ← pass_items (Z.to_nat local_index) values first var_lengths (descriptor reference);
  if local_index <? N then
    '(last, _) ← var_advance values first var_lengths (Z.land descriptor 3); Some (first, last)
  else Some (first, last).
End VariableBlock.

#[export] Instance variable_block N : GroupBlock (VariableGroupBlock N) := {
  BLOCK_SIZE := N;
  BlockReference := VariableBlock.BlockReference;
  BlockReference_new := VariableBlock.mkReference 0 0;
  offset := VariableBlock.offset;
  WriteBlockReference := VariableBlock.WriteBlockReference;
  WriteBlockPrefix := VariableBlock.WriteBlockPrefix;
  ReadRefrencedBlock := VariableBlock.ReadRefrencedBlock N
}.

(** ** Lengths of one byte *)

Inductive FixedGroupBlock (N : Z) : Type := .

Module FixedBlock.
Record BlockReference : Type := mkReference { offset : Z }.

Definition WriteBlockReference (N : Z) (range : list Z) (data_offset : Z) : option (BlockReference * Z) :=
  Some (mkReference (wrap 32 data_offset), wrap 64 (data_offset + N)).

(** The loop over the items; [prefix] is an array of [N] bytes. *)
Fixpoint fill_prefix (lengths : list Z) (index : Z) (prefix : list Z) : option (list Z) :=
  match lengths with
  | [] => Some prefix
  | data_length :: lengths' =>
      if 255 <? data_length then None
      else prefix ← zset index (wrap 8 data_length) prefix; fill_prefix lengths' (index + 1) prefix
  end.

Definition WriteBlockPrefix (N : Z) (range : list Z) : option (list Z) := fill_prefix (data_lengths range) 0 (replicate (Z.to_nat N) 0).

Fixpoint pass_items (local_index : nat) (values : list Z) (first fixed_lengths : Z) : option (Z * Z) :=
  match local_index with
  | O => Some (first, fixed_lengths)
  | S local_index' => b ← values !z fixed_lengths; pass_items local_index' values (first + b) (fixed_lengths + 1)
  end.

Definition ReadRefrencedBlock (N : Z) (reference : BlockReference) (values : list Z) (local_index first last : Z) : option (Z * Z) :=
  '(first, fixed_lengths) ← pass_items (Z.to_nat local_index) values (first + N) first;
  if local_index <? N then b ← values !z fixed_lengths; Some (first, first + b) else Some (first, last).
End FixedBlock.

#[export] Instance fixed_block N : GroupBlock (FixedGroupBlock N) := {
  BLOCK_SIZE := N;
  BlockReference := FixedBlock.BlockReference;
  BlockReference_new := FixedBlock.mkReference 0;
  offset := FixedBlock.offset;
  WriteBlockReference := FixedBlock.WriteBlockReference N;
  WriteBlockPrefix := FixedBlock.WriteBlockPrefix N;
  ReadRefrencedBlock := FixedBlock.ReadRefrencedBlock N
}.

(** ** The container *)

Section container.
Context (B : Type) {policy : GroupBlock B}.

Record IndexedDataImpl : Type := mkIndexedData { blocks : list (BlockReference B); values : list Z }.

(** How many items of the rest go into the prefix of a group, and how many into
    the group: one more, if there is one. *)
Definition items_in_prefix (os : list Z) : nat := Z.to_nat (Z.min (BLOCK_SIZE B) (zlen os - 1)).
Definition items_in_block (os : list Z) : nat :=
  let next := items_in_prefix os in (next + Z.to_nat (Z.min 1 (zlen os - 1 - Z.of_nat next)))%nat.

(** [[first, last]] of the loops, and the bytes that a group takes without its
    prefix. *)
Definition prefix_range (os : list Z) : list Z := take (S (items_in_prefix os)) os.
Definition block_begin (os : list Z) : Z := default 0 (os !! 0%nat).
Definition block_end (os : list Z) : Z := default 0 (os !! items_in_block os).

(** The first loop of the constructor: references and the size of the data. *)
Fixpoint write_references (fuel : nat) (os : list Z) (data_size : Z) : option (list (BlockReference B) * Z) :=
  if zlen os <=? 1 then Some ([], data_size)
  else
    match fuel with
    | O => None
    | S fuel' =>
        '(reference, data_size) ← WriteBlockReference B (prefix_range os) data_size;
        '(references, data_size) ← write_references fuel' (drop (items_in_block os) os) (wrap 64 (data_size + (block_end os - block_begin os)));
        Some (reference :: references, data_size)
    end.

(** The second loop: prefixes and items. *)
Fixpoint write_values (fuel : nat) (os data : list Z) : option (list Z) :=
  if zlen os <=? 1 then Some []
  else
    match fuel with
    | O => None
    | S fuel' =>
        prefix ← WriteBlockPrefix B (prefix_range os);
        rest ← write_values fuel' (drop (items_in_block os) os) data;
        Some (prefix ++ zslice data (block_begin os) (block_end os - block_begin os) ++ rest)
    end.

(** A vector of a size, written from its front. *)
Definition written_into {A} (x : A) (size : Z) (l : list A) : option (list A) :=
  if zlen l <=? size then Some (l ++ replicate (Z.to_nat (size - zlen l)) x) else None.

Definition IndexedData (os data : list Z) : option IndexedDataImpl :=
  let number_of_elements := zlen os - 1 in
  let number_of_blocks := wrap 32 (if number_of_elements =? 0 then 0 else 1 + (number_of_elements - 1) / (BLOCK_SIZE B + 1)) in
  '(references, data_size) ← write_references (length os) os 0;
  blocks ← written_into (BlockReference_new B) number_of_blocks references;
  bytes ← write_values (length os) os data;
  values ← written_into 0 data_size bytes;
  Some (mkIndexedData blocks values).

(** [at]: the bytes of an item, empty for a number without one. *)
Definition at_index (d : IndexedDataImpl) (index : Z) : option (list Z) :=
  if zlen (values d) =? 0 then Some []
  else
    let block_idx := index / (BLOCK_SIZE B + 1) in
    let internal_idx := index mod (BLOCK_SIZE B + 1) in
    if zlen (blocks d) <=? block_idx then Some []
    else
      reference ← blocks d !z block_idx;
      let first := offset reference in
      last ← (if block_idx + 1 =? zlen (blocks d) then Some (zlen (values d)) else next ← blocks d !z (block_idx + 1); Some (offset next));
      '(first, last) ← ReadRefrencedBlock reference (values d) internal_idx first last;
      Some (zslice (values d) first (last - first)).
End container.
#[global] Arguments blocks {B policy}.
#[global] Arguments values {B policy}.

(** A container of five strings. *)
Example names : let d := IndexedData (VariableGroupBlock 2) [0; 3; 3; 7; 8; 10] (str "abcdefghij") in
  (d ≫= fun d => mapM (at_index (VariableGroupBlock 2) d) [0; 1; 2; 3; 4; 5; 9]) = Some [str "abc"; []; str "defg"; str "h"; str "ij"; []; []].
Proof. by vm_compute. Qed.

Example fixed_names : let d := IndexedData (FixedGroupBlock 2) [0; 3; 3; 7; 8; 10] (str "abcdefghij") in
  (d ≫= fun d => mapM (at_index (FixedGroupBlock 2) d) [0; 1; 2; 3; 4; 5; 9]) = Some [str "abc"; []; str "defg"; str "h"; str "ij"; []; []].
Proof. by vm_compute. Qed.

(** ** What a policy promises

    Lengths of items that fit can be written, in a prefix of [prefix_size]
    bytes.  From the bytes of a group the reader finds where an item starts,
    and where it ends unless it is the one behind the prefix, which ends with
    the group. *)

Class GroupBlockLaws (B : Type) {policy : GroupBlock B} : Type := {
  item_fits : Z -> bool;
  prefix_size : list Z -> Z;
  prefix_limit : Z;
  prefix_size_limit : forall lengths, zlen lengths <= BLOCK_SIZE B -> 0 <= prefix_size lengths <= prefix_limit;
  block_size_nonneg : 0 <= BLOCK_SIZE B;
  reference_written : forall range data_offset, forallb item_fits (data_lengths range) = true -> zlen (data_lengths range) <= BLOCK_SIZE B ->
    0 <= data_offset < 2 ^ 32 -> data_offset + prefix_size (data_lengths range) < 2 ^ 64 ->
    exists reference, WriteBlockReference B range data_offset = Some (reference, data_offset + prefix_size (data_lengths range)) /\ offset reference = data_offset;
  prefix_written : forall range, forallb item_fits (data_lengths range) = true -> zlen (data_lengths range) <= BLOCK_SIZE B ->
    exists prefix, WriteBlockPrefix B range = Some prefix /\ zlen prefix = prefix_size (data_lengths range);
  item_found : forall range data_offset reference size prefix front back local_index last,
    forallb item_fits (data_lengths range) = true -> zlen (data_lengths range) <= BLOCK_SIZE B ->
    WriteBlockReference B range data_offset = Some (reference, size) -> WriteBlockPrefix B range = Some prefix -> 0 <= local_index <= BLOCK_SIZE B ->
    let first := zlen front + zlen prefix + zsum id (take (Z.to_nat local_index) (data_lengths range)) in
    ReadRefrencedBlock reference (front ++ prefix ++ back) local_index (zlen front) last =
      Some (first, if local_index <? BLOCK_SIZE B then first + default 0 (data_lengths range !z local_index) else last);
  refused : forall range data_offset, forallb item_fits (data_lengths range) = false ->
    WriteBlockReference B range data_offset = None \/ WriteBlockPrefix B range = None
}.

Lemma data_lengths_word range l : l ∈ data_lengths range -> in_word 32 l.
Proof.
  induction range as [|a [|b range] IH]; [by intros ?%elem_of_nil..|]. cbn [data_lengths]. intros [->|H]%elem_of_cons; [by apply wrap_in_word|by apply IH].
Qed.

(** ** Digits *)

(** Digits of [w] bits, the lowest first. *)
Definition digits (w : Z) (ds : list Z) : Z := foldr (fun x v => x + 2 ^ w * v) 0 ds.

Lemma digits_bound w ds : 0 <= w -> Forall (fun x => 0 <= x < 2 ^ w) ds -> 0 <= digits w ds < 2 ^ (w * zlen ds).
Proof.
  intros Hw. induction 1 as [|x ds Hx _ IH]; [change (zlen []) with 0; rewrite Z.mul_0_r; simpl; lia|]. rewrite zlen_cons. change (digits w (x :: ds)) with (x + 2 ^ w * digits w ds).
  replace (w * (1 + zlen ds)) with (w + w * zlen ds) by lia. pose proof (zlen_nonneg ds). rewrite Z.pow_add_r by nia. nia.
Qed.

Lemma digits_zeros w ds k : digits w (ds ++ replicate k 0) = digits w ds.
Proof.
  induction ds as [|x ds IH]; [|change (x + 2 ^ w * digits w (ds ++ replicate k 0) = x + 2 ^ w * digits w ds); by rewrite IH].
  induction k as [|k IH]; [done|]. change (0 + 2 ^ w * digits w (replicate k 0) = 0). simpl in IH. rewrite IH. simpl. lia.
Qed.

(** Bitwise operations work on the digits. *)
Lemma land_split k x y a b : 0 <= k -> 0 <= x < 2 ^ k -> 0 <= a < 2 ^ k ->
  Z.land (x + 2 ^ k * y) (a + 2 ^ k * b) = Z.land x a + 2 ^ k * Z.land y b.
Proof.
  intros Hk Hx Ha. assert (0 <= Z.land x a < 2 ^ k) as Hl.
  { apply (in_word_bits k); [done|by apply Z.land_nonneg; left; lia|]. intros i Hi. rewrite Z.land_spec. by rewrite (testbit_in_word k x i) by done. }
  rewrite !(Z.mul_comm (2 ^ k)), <- !lor_shiftl by done. apply bits_inj_nonneg. intros j Hj. rewrite Z.land_spec, !Z.lor_spec, !Z.shiftl_spec, !Z.land_spec by done.
  destruct (Z.lt_ge_cases j k) as [H|H].
  - rewrite !(Z.testbit_neg_r _ (j - k)) by lia. simpl. by rewrite !orb_false_r.
  - by rewrite (testbit_in_word k x j), (testbit_in_word k a j) by done.
Qed.

Fixpoint pair_sums (ds : list Z) : list Z :=
  match ds with
  | a :: b :: ds' => a + b :: pair_sums ds'
  | _ => []
  end.

(** Every second digit of [w] bits. *)
Definition mask (w : Z) (n : nat) : Z := digits (2 * w) (replicate n (2 ^ w - 1)).

Lemma sum_pairs w n ds : 0 < w -> length ds = (2 * n)%nat -> Forall (fun x => 0 <= x < 2 ^ w) ds ->
  Z.land (Z.shiftr (digits w ds) w) (mask w n) + Z.land (digits w ds) (mask w n) = digits (2 * w) (pair_sums ds).
Proof.
  intros Hw. assert (0 < 2 ^ w) as Hp by (apply Z.pow_pos_nonneg; lia). assert (2 ^ (2 * w) = 2 ^ w * 2 ^ w) as H2 by (rewrite <- Z.pow_add_r by lia; f_equal; lia).
  assert (forall x, 0 <= x < 2 ^ w -> Z.land x (2 ^ w - 1) = x) as Hmask.
  { intros x Hx. replace (2 ^ w - 1) with (Z.ones w) by (rewrite Z.ones_equiv; lia). rewrite Z.land_ones by lia. by apply Z.mod_small. }
  revert ds. induction n as [|n IH]; intros [|a [|b ds]] Hlen Hds; try (simpl in Hlen; lia); [change (digits w []) with 0; by rewrite Z.shiftr_0_l|].
  apply Forall_cons in Hds as [Ha Hds]. apply Forall_cons in Hds as [Hb Hds]. specialize (IH ds ltac:(simpl in Hlen; lia) Hds).
  assert (0 <= digits w ds) as Hd by (apply (digits_bound w ds); [lia|done]).
  change (mask w (S n)) with (2 ^ w - 1 + 2 ^ (2 * w) * mask w n). change (digits w (a :: b :: ds)) with (a + 2 ^ w * (b + 2 ^ w * digits w ds)).
  change (pair_sums (a :: b :: ds)) with (a + b :: pair_sums ds). change (digits (2 * w) (a + b :: pair_sums ds)) with (a + b + 2 ^ (2 * w) * digits (2 * w) (pair_sums ds)).
  rewrite <- IH. clear IH. set (D := digits w ds) in *. set (M := mask w n) in *.
  assert (Z.shiftr (a + 2 ^ w * (b + 2 ^ w * D)) w = b + 2 ^ w * D) as ->.
  { rewrite Z.shiftr_div_pow2 by lia. symmetry. apply (Z.div_unique_pos _ _ _ a); lia. }
  assert (D = D mod 2 ^ w + 2 ^ w * Z.shiftr D w) as HD by (rewrite Z.shiftr_div_pow2 by lia; pose proof (Z.div_mod D (2 ^ w) ltac:(lia)); lia).
  pose proof (Z.mod_pos_bound D (2 ^ w) Hp) as Hm.
  assert (Z.land (b + 2 ^ w * D) (2 ^ w - 1 + 2 ^ (2 * w) * M) = b + 2 ^ (2 * w) * Z.land (Z.shiftr D w) M) as ->.
  { rewrite HD at 1. replace (b + 2 ^ w * (D mod 2 ^ w + 2 ^ w * Z.shiftr D w)) with (b + 2 ^ w * (D mod 2 ^ w) + 2 ^ (2 * w) * Z.shiftr D w) by lia.
    rewrite land_split by (lia || nia). f_equal. replace (2 ^ w - 1) with (2 ^ w - 1 + 2 ^ w * 0) by lia. rewrite land_split by lia. rewrite Hmask, Z.land_0_r by lia. lia. }
  assert (Z.land (a + 2 ^ w * (b + 2 ^ w * D)) (2 ^ w - 1 + 2 ^ (2 * w) * M) = a + 2 ^ (2 * w) * Z.land D M) as ->.
  { replace (a + 2 ^ w * (b + 2 ^ w * D)) with (a + 2 ^ w * b + 2 ^ (2 * w) * D) by lia. rewrite land_split by (lia || nia). f_equal.
    replace (2 ^ w - 1) with (2 ^ w - 1 + 2 ^ w * 0) by lia. rewrite land_split by lia. rewrite Hmask, Z.land_0_r by lia. lia. }
  lia.
Qed.

Lemma pair_sums_spec b n ds : length ds = (2 * n)%nat -> Forall (fun x => 0 <= x <= b) ds ->
  length (pair_sums ds) = n /\ Forall (fun x => 0 <= x <= 2 * b) (pair_sums ds) /\ zsum id (pair_sums ds) = zsum id ds.
Proof.
  revert ds. induction n as [|n IH]; intros [|x [|y ds]] Hlen Hds; try (simpl in Hlen; lia); [done|].
  apply Forall_cons in Hds as [Hx Hds]. apply Forall_cons in Hds as [Hy Hds]. destruct (IH ds ltac:(simpl in Hlen; lia) Hds) as (H1 & H2 & H3).
  simpl pair_sums. split_and!; [simpl; lia|constructor; [lia|done]|]. change (x + y + zsum id (pair_sums ds) = x + (y + zsum id ds)). lia.
Qed.

(** One round of [sum2bits]. *)
Lemma sum_round w n b ds : 0 < w -> length ds = (2 * n)%nat -> Forall (fun x => 0 <= x <= b) ds -> b < 2 ^ w -> 2 * b < 2 ^ (2 * w) -> 2 * w * Z.of_nat n <= 32 ->
  wrap 32 (Z.land (Z.shiftr (digits w ds) w) (mask w n) + Z.land (digits w ds) (mask w n)) = digits (2 * w) (pair_sums ds).
Proof.
  intros Hw Hlen Hds Hb Hb2 Hn. rewrite sum_pairs; [|done|done|apply (Forall_impl _ _ _ Hds); lia]. destruct (pair_sums_spec b n ds Hlen Hds) as (H1 & H2 & _).
  apply wrap_small. destruct (digits_bound (2 * w) (pair_sums ds)) as [D1 D2]; [lia|apply (Forall_impl _ _ _ H2); lia|]. split; [done|].
  apply (Z.lt_le_trans _ _ _ D2). apply Z.pow_le_mono_r; [lia|]. unfold zlen. rewrite H1. done.
Qed.

Lemma sum2bits_digits ds : (length ds <= 16)%nat -> Forall (fun x => 0 <= x <= 3) ds -> VariableBlock.sum2bits (digits 2 ds) = zsum id ds.
Proof.
  intros Hlen Hds. rewrite <- (digits_zeros 2 ds (16 - length ds)). set (e := ds ++ replicate (16 - length ds) 0).
  assert (zsum id ds = zsum id e) as ->.
  { unfold e. rewrite zsum_app. assert (forall k, zsum id (replicate k 0) = 0) as ->; [|lia]. induction k as [|k IH]; [done|]. exact IH. }
  assert (length e = 16%nat) as He by (unfold e; rewrite length_app, length_replicate; lia).
  assert (Forall (fun x => 0 <= x <= 3) e) as Hb by (apply Forall_app; split; [done|]; apply Forall_replicate; lia).
  destruct (pair_sums_spec 3 8 e He Hb) as (L1 & B1 & S1). destruct (pair_sums_spec 6 4 _ L1 B1) as (L2 & B2 & S2).
  destruct (pair_sums_spec 12 2 _ L2 B2) as (L3 & B3 & S3). destruct (pair_sums_spec 24 1 _ L3 B3) as (L4 & B4 & S4).
  unfold VariableBlock.sum2bits. cbv zeta. change 0x33333333 with (mask 2 8). rewrite (sum_round 2 8 3 e) by (done || by vm_compute).
  change 0x0f0f0f0f with (mask 4 4). rewrite (sum_round 4 4 6) by (done || by vm_compute).
  change 0x00ff00ff with (mask 8 2). rewrite (sum_round 8 2 12) by (done || by vm_compute).
  change 0x0000ffff with (mask 16 1). rewrite (sum_round 16 1 24) by (done || by vm_compute).
  rewrite <- S1, <- S2, <- S3, <- S4. revert L4. generalize (pair_sums (pair_sums (pair_sums (pair_sums e)))) as z. intros [|x [|y l]] L4; [done| |done].
  unfold digits, zsum, id. cbn [foldr]. lia.
Qed.

(** ** The policy with lengths of variable size *)

Definition small_length (l : Z) : Prop := 0 <= l < 0x1000000.

Lemma log256_range l : 0 <= VariableBlock.log256 l <= 3.
Proof. unfold VariableBlock.log256. split_bool; lia. Qed.

Definition sizes (ls : list Z) : list Z := VariableBlock.log256 <$> ls.
Definition prefix_bytes (ls : list Z) : list Z := concat (VariableBlock.length_bytes <$> ls).

Lemma prefix_sizes_range ls : Forall (fun x => 0 <= x <= 3) (sizes ls).
Proof. apply Forall_fmap, Forall_true. intros l. apply log256_range. Qed.

Lemma length_bytes_size l : zlen (VariableBlock.length_bytes l) = VariableBlock.log256 l.
Proof. unfold VariableBlock.length_bytes, zlen. rewrite length_take. pose proof (log256_range l). simpl length. lia. Qed.

Lemma prefix_bytes_size ls : zlen (prefix_bytes ls) = zsum id (sizes ls).
Proof.
  induction ls as [|l ls IH]; [done|]. change (prefix_bytes (l :: ls)) with (VariableBlock.length_bytes l ++ prefix_bytes ls).
  rewrite zlen_app, length_bytes_size, IH. done.
Qed.

Lemma describe_app a b d p : VariableBlock.describe (a ++ b) d p = '(d', p') ← VariableBlock.describe a d p; VariableBlock.describe b d' p'.
Proof. revert d p. induction a as [|x a IH]; intros d p; [done|]. simpl. destruct (_ <=? x); [done|]. apply IH. Qed.

Lemma describe_digits ls : (length ls <= 16)%nat -> Forall small_length ls ->
  VariableBlock.describe (reverse ls) 0 0 = Some (digits 2 (sizes ls), zsum id (sizes ls)).
Proof.
  induction ls as [|l ls IH]; intros Hlen Hls; [done|]. apply Forall_cons in Hls as [Hl Hls]. simpl in Hlen. rewrite reverse_cons, describe_app, IH by (done || lia).
  cbn [mbind option_bind VariableBlock.describe]. unfold small_length in Hl. rewrite (proj2 (Z.leb_gt _ l)) by lia. pose proof (log256_range l) as Hr.
  destruct (digits_bound 2 (sizes ls)) as [D1 D2]; [lia|apply (Forall_impl _ _ _ (prefix_sizes_range ls)); simpl; lia|].
  assert (digits 2 (sizes ls) < 2 ^ 30) as D3.
  { apply (Z.lt_le_trans _ _ _ D2). apply Z.pow_le_mono_r; [lia|]. unfold zlen, sizes. rewrite length_fmap. lia. }
  rewrite wrap_small by (split; rewrite Z.shiftl_mul_pow2 by lia; lia). rewrite Z.lor_comm, lor_shiftl by lia.
  change (sizes (l :: ls)) with (VariableBlock.log256 l :: sizes ls). change (digits 2 (?x :: ?ds)) with (x + 2 ^ 2 * digits 2 ds). change (zsum id (?x :: ?ds)) with (x + zsum id ds).
  do 2 f_equal; lia.
Qed.

Lemma describe_some k d p r : VariableBlock.describe k d p = Some r -> Forall (fun l => l < 0x1000000) k.
Proof.
  revert d p. induction k as [|x k IH]; intros d p; [constructor|]. cbn [VariableBlock.describe]. destruct (Z.leb_spec 0x1000000 x); [done|]. intros E.
  constructor; [done|]. by eapply IH.
Qed.

Lemma describe_refused ls : Forall (fun l => 0 <= l) ls -> ~ Forall small_length ls -> VariableBlock.describe (reverse ls) 0 0 = None.
Proof.
  intros Hpos Hbig. destruct (VariableBlock.describe (reverse ls) 0 0) eqn:E; [|done]. destruct Hbig. apply describe_some in E.
  rewrite Forall_forall in *. intros l Hl. split; [by apply Hpos|]. apply E. by rewrite elem_of_reverse.
Qed.

Lemma var_advance_length front l back data : small_length l ->
  VariableBlock.var_advance (front ++ VariableBlock.length_bytes l ++ back) data (zlen front) (VariableBlock.log256 l) = Some (data + l, zlen front + VariableBlock.log256 l).
Proof.
  unfold small_length. intros Hl. assert (forall (k : list Z) i, 0 <= i < zlen k -> (front ++ k ++ back) !z (zlen front + i) = k !z i) as Hget.
  { intros k i Hi. rewrite zget_app_r by lia. replace (zlen front + i - zlen front) with i by lia. by rewrite zget_app_l by lia. }
  unfold VariableBlock.length_bytes, VariableBlock.log256, VariableBlock.var_advance.
  destruct (Z.eqb_spec l 0) as [->|H0]; [simpl; by rewrite !Z.add_0_r|]. destruct (Z.ltb_spec l 256); [|destruct (Z.ltb_spec l 65536)];
    match goal with |- context [take (Z.to_nat ?n) _] => change (Z.to_nat n) with (Pos.to_nat (Z.to_pos n)) end; simpl take; simpl Z.eqb; cbv iota.
  - rewrite <- (Z.add_0_r (zlen front)) at 1. rewrite Hget by (vm_compute; split; congruence). simpl. rewrite Z.mod_small by lia. done.
  - rewrite <- (Z.add_0_r (zlen front)) at 1. rewrite !Hget by (vm_compute; split; congruence). cbn [zget Z.leb Z.compare Z.to_nat lookup list_lookup mbind option_bind].
    simpl. rewrite Z.shiftl_mul_pow2 by lia. change (2 ^ 8) with 256. pose proof (Z.div_mod l 256 ltac:(lia)). assert (0 <= l / 256 < 256) by (split; [apply Z.div_pos; lia|apply Z.div_lt_upper_bound; lia]).
    rewrite (Z.mod_small (l / 256)) by lia. do 2 f_equal. lia.
  - rewrite <- (Z.add_0_r (zlen front)) at 1. rewrite !Hget by (vm_compute; split; congruence). simpl. rewrite !Z.shiftl_mul_pow2 by lia. change (2 ^ 8) with 256. change (2 ^ 16) with 65536.
    assert (0 <= l / 65536 < 256) by (split; [apply Z.div_pos; lia|apply Z.div_lt_upper_bound; lia]). rewrite (Z.mod_small (l / 65536)) by lia.
    pose proof (Z.div_mod l 256 ltac:(lia)). pose proof (Z.div_mod (l / 256) 256 ltac:(lia)) as Hdd. rewrite Z.div_div in Hdd by lia. change (256 * 256) with 65536 in Hdd. do 2 f_equal. lia.
Qed.

Lemma land_3 x ds : 0 <= x <= 3 -> Z.land (digits 2 (x :: ds)) 3 = x /\ Z.shiftr (digits 2 (x :: ds)) 2 = digits 2 ds.
Proof.
  intros Hx. change (digits 2 (x :: ds)) with (x + 4 * digits 2 ds). change 3 with (Z.ones 2). rewrite Z.land_ones, Z.shiftr_div_pow2 by lia. change (2 ^ 2) with 4.
  split; symmetry; [apply (Z.mod_unique_pos _ _ (digits 2 ds)); lia|apply (Z.div_unique_pos _ _ _ x); lia].
Qed.

(** The iterators after some items; past the last one nothing moves. *)
Lemma pass_items_sum ls j : Forall small_length ls -> forall front back data,
  exists front' back', front ++ prefix_bytes ls ++ back = front' ++ prefix_bytes (drop j ls) ++ back' /\
  VariableBlock.pass_items j (front ++ prefix_bytes ls ++ back) data (zlen front) (digits 2 (sizes ls)) =
    Some (data + zsum id (take j ls), zlen front', digits 2 (sizes (drop j ls))).
Proof.
  revert ls. induction j as [|j IH]; intros ls Hls front back data.
  { exists front, back. split; [done|]. simpl. by rewrite Z.add_0_r. }
  destruct ls as [|l ls].
  - cbn [VariableBlock.pass_items]. change (Z.land (digits 2 (sizes [])) 3) with 0. change (Z.shiftr (digits 2 (sizes [])) 2) with (digits 2 (sizes [])).
    cbn [VariableBlock.var_advance Z.eqb mbind option_bind]. destruct (IH [] Hls front back data) as (f & b & E & Hp). rewrite drop_nil, take_nil in *. by exists f, b.
  - apply Forall_cons in Hls as [Hl Hls]. change (sizes (l :: ls)) with (VariableBlock.log256 l :: sizes ls). destruct (land_3 _ (sizes ls) (log256_range l)) as [H1 H2].
    cbn [VariableBlock.pass_items]. rewrite H1, H2. change (prefix_bytes (l :: ls)) with (VariableBlock.length_bytes l ++ prefix_bytes ls). rewrite <- !app_assoc.
    rewrite var_advance_length by done. cbn [mbind option_bind]. destruct (IH ls Hls (front ++ VariableBlock.length_bytes l) back (data + l)) as (f & b & E & Hp).
    exists f, b. rewrite <- app_assoc in E, Hp. simpl drop. split; [done|]. rewrite zlen_app, length_bytes_size in Hp. rewrite Hp. simpl take.
    change (zsum id (l :: take j ls)) with (l + zsum id (take j ls)). do 3 f_equal. lia.
Qed.

#[export] Instance small_length_dec l : Decision (small_length l).
Proof. unfold small_length. apply _. Defined.

Lemma forallb_decide {A} (P : A -> Prop) `{!forall x, Decision (P x)} l : forallb (fun x => bool_decide (P x)) l = true <-> Forall P l.
Proof.
  rewrite forallb_forall, Forall_forall. split; intros Hl x Hx; specialize (Hl x).
  - apply (bool_decide_eq_true (P x)), Hl. by apply list_elem_of_In.
  - apply (bool_decide_eq_true (P x)), Hl. by apply list_elem_of_In.
Qed.

Lemma sizes_sum ls : 0 <= zsum id (sizes ls) <= 3 * zlen ls.
Proof.
  induction ls as [|l ls IH]; [done|]. change (zsum id (sizes (l :: ls))) with (VariableBlock.log256 l + zsum id (sizes ls)). rewrite zlen_cons. pose proof (log256_range l). lia.
Qed.

#[export] Program Instance variable_laws N (HN : 0 <= N <= 16) : GroupBlockLaws (VariableGroupBlock N) := {
  item_fits l := bool_decide (small_length l);
  prefix_limit := 3 * N;
  prefix_size ls := zsum id (sizes ls)
}.
Next Obligation. intros N HN ls Hls. simpl in Hls. pose proof (sizes_sum ls). lia. Qed.
Next Obligation. intros N HN. simpl. lia. Qed.
Next Obligation.
  intros N HN range data_offset Hf%forallb_decide Hlen Ho Hs. simpl in *. unfold VariableBlock.WriteBlockReference. rewrite describe_digits by (done || unfold zlen in Hlen; lia).
  cbn [mbind option_bind]. pose proof (sizes_sum (data_lengths range)).
  rewrite (wrap_small 64) by (unfold in_word; lia). eexists. split; [done|]. simpl. by apply wrap_small.
Qed.
Next Obligation. intros N HN range _ _. exists (prefix_bytes (data_lengths range)). split; [done|]. apply prefix_bytes_size. Qed.
Next Obligation.
  intros N HN range data_offset reference size prefix front back j last Hf%forallb_decide Hlen Hw Hp Hj. simpl in *. assert (length (data_lengths range) <= 16)%nat as H16 by (unfold zlen in Hlen; lia).
  unfold VariableBlock.WriteBlockReference in Hw. rewrite describe_digits in Hw by done. cbn [mbind option_bind] in Hw. injection Hw as <- _. injection Hp as <-.
  fold (prefix_bytes (data_lengths range)). unfold VariableBlock.ReadRefrencedBlock. cbn [VariableBlock.descriptor].
  rewrite sum2bits_digits by (apply prefix_sizes_range || by unfold sizes; rewrite length_fmap). rewrite <- prefix_bytes_size.
  destruct (pass_items_sum (data_lengths range) (Z.to_nat j) Hf front back (zlen front + zlen (prefix_bytes (data_lengths range)))) as (f & b & E & ->). cbn [mbind option_bind].
  destruct (Z.ltb_spec j N) as [HjN|HjN]; [|done]. rewrite E. unfold zget. rewrite (proj2 (Z.leb_le 0 j)) by lia.
  destruct (data_lengths range !! Z.to_nat j) as [l|] eqn:El.
  - rewrite (drop_S _ _ _ El). change (sizes (l :: ?k)) with (VariableBlock.log256 l :: sizes k). change (prefix_bytes (l :: ?k)) with (VariableBlock.length_bytes l ++ prefix_bytes k).
    rewrite <- app_assoc. rewrite (proj1 (land_3 _ _ (log256_range l))), var_advance_length; [done|]. rewrite Forall_forall in Hf. apply Hf. by eapply list_elem_of_lookup_2.
  - rewrite drop_ge by (by apply lookup_ge_None in El). simpl. by rewrite Z.add_0_r.
Qed.
Next Obligation.
  intros N HN range data_offset Hf%not_true_iff_false. rewrite forallb_decide in Hf. left. simpl. unfold VariableBlock.WriteBlockReference. rewrite describe_refused; [done| |done].
  apply Forall_forall. intros l Hl%data_lengths_word. apply Hl.
Qed.

(** ** The policy with lengths of one byte *)

Definition byte_length (l : Z) : Prop := 0 <= l <= 255.
#[export] Instance byte_length_dec l : Decision (byte_length l).
Proof. unfold byte_length. apply _. Defined.

Lemma fill_prefix_bytes ls : Forall byte_length ls -> forall done rest, (length ls <= rest)%nat ->
  FixedBlock.fill_prefix ls (zlen done) (done ++ replicate rest 0) = Some (done ++ ls ++ replicate (rest - length ls) 0).
Proof.
  induction 1 as [|l ls Hl _ IH]; intros pre rest Hr; [simpl; by rewrite Nat.sub_0_r|]. cbn [FixedBlock.fill_prefix]. unfold byte_length in Hl.
  rewrite (proj2 (Z.ltb_ge 255 l)) by lia. simpl in Hr. destruct rest as [|rest]; [lia|]. rewrite (wrap_small 8) by (unfold in_word; lia).
  unfold zset. rewrite length_app, length_replicate. rewrite (proj2 (Z.leb_le 0 (zlen pre))), (proj2 (Z.ltb_lt (zlen pre) _)) by (unfold zlen; lia). simpl andb. cbv iota.
  cbn [mbind option_bind]. replace (Z.to_nat (zlen pre)) with (length pre) by (unfold zlen; lia). rewrite insert_app_r_alt, Nat.sub_diag by lia. change (<[0%nat:=l]> (replicate (S rest) 0)) with (l :: replicate rest 0).
  specialize (IH (pre ++ [l]) rest ltac:(lia)). rewrite zlen_snoc, <- !app_assoc in IH. simpl in IH. exact IH.
Qed.

Lemma fixed_prefix N range : Forall byte_length (data_lengths range) -> zlen (data_lengths range) <= N ->
  FixedBlock.WriteBlockPrefix N range = Some (data_lengths range ++ replicate (Z.to_nat N - length (data_lengths range)) 0).
Proof. intros Hf Hlen. apply (fill_prefix_bytes _ Hf [] (Z.to_nat N)). unfold zlen in Hlen. lia. Qed.

Lemma fill_prefix_some ls : forall index prefix r, FixedBlock.fill_prefix ls index prefix = Some r -> Forall (fun l => l <= 255) ls.
Proof.
  induction ls as [|l ls IH]; intros index prefix r; [constructor|]. cbn [FixedBlock.fill_prefix]. destruct (Z.ltb_spec 255 l); [done|]. intros E. inv_opt.
  constructor; [done|]. by eapply IH.
Qed.

Lemma fixed_pass_items j : forall values first k p ps, zslice values p (zlen ps) = ps -> 0 <= p -> p + zlen ps <= zlen values -> 0 <= k -> k + Z.of_nat j <= zlen ps ->
  FixedBlock.pass_items j values first (p + k) = Some (first + zsum id (take j (drop (Z.to_nat k) ps)), p + k + Z.of_nat j).
Proof.
  induction j as [|j IH]; intros values first k p ps Hs Hp Hv Hk Hl; [simpl; by rewrite !Z.add_0_r|]. cbn [FixedBlock.pass_items].
  destruct (zget_is_some ps k) as [b Hb]; [lia|]. assert (values !z (p + k) = Some b) as Hvb by (rewrite <- Hb; apply zslice_at; [done|lia..]). step_opt Hvb.
  replace (p + k + 1) with (p + (k + 1)) by lia. rewrite (IH values _ (k + 1) p ps) by (done || lia).
  unfold zget in Hb. rewrite (proj2 (Z.leb_le 0 k)) in Hb by lia. rewrite (drop_S _ _ _ Hb). replace (Z.to_nat (k + 1)) with (S (Z.to_nat k)) by lia.
  change (take (S j) (b :: ?l)) with (b :: take j l). change (zsum id (b :: ?l)) with (b + zsum id l). do 2 f_equal; lia.
Qed.

#[export] Program Instance fixed_laws N (HN : 0 <= N) : GroupBlockLaws (FixedGroupBlock N) := {
  item_fits l := bool_decide (byte_length l);
  prefix_limit := N;
  prefix_size ls := N
}.
Next Obligation. simpl. lia. Qed.
Next Obligation. done. Qed.
Next Obligation.
  intros N HN range data_offset _ _ Ho Hs. simpl in *. unfold FixedBlock.WriteBlockReference. rewrite (wrap_small 64) by (unfold in_word; lia).
  eexists. split; [done|]. simpl. by apply wrap_small.
Qed.
Next Obligation.
  intros N HN range Hf%forallb_decide Hlen. simpl in *. rewrite fixed_prefix by done.
  eexists. split; [done|]. unfold zlen in *. rewrite !length_app, length_replicate. simpl. lia.
Qed.
Next Obligation.
  intros N HN range data_offset reference size prefix front back j last Hf%forallb_decide Hlen Hw Hp Hj. simpl in *.
  rewrite fixed_prefix in Hp by done. injection Hp as <-. set (ls := data_lengths range) in *. set (zs := replicate _ 0).
  assert (zlen (ls ++ zs) = N) as HpN by (unfold zs; unfold zlen in *; rewrite length_app, length_replicate; lia).
  assert (zslice (front ++ (ls ++ zs) ++ back) (zlen front) (zlen (ls ++ zs)) = ls ++ zs) as Hs.
  { unfold zslice, zlen. rewrite !Nat2Z.id, drop_app_length, take_app_length. done. }
  assert (forall k, zsum id (take k (ls ++ zs)) = zsum id (take k ls)) as Hsum.
  { intros k. rewrite take_app, zsum_app. unfold zs. rewrite take_replicate. assert (forall m, zsum id (replicate m 0) = 0) as ->; [|lia]. induction m as [|m IH]; [done|exact IH]. }
  assert (zlen front + zlen (ls ++ zs) <= zlen (front ++ (ls ++ zs) ++ back)) as Hfit by (rewrite !zlen_app; pose proof (zlen_nonneg back); lia).
  unfold FixedBlock.ReadRefrencedBlock. pose proof (zlen_nonneg front). replace (FixedBlock.pass_items (Z.to_nat j) (front ++ (ls ++ zs) ++ back) (zlen front + N) (zlen front)) with (FixedBlock.pass_items (Z.to_nat j) (front ++ (ls ++ zs) ++ back) (zlen front + N) (zlen front + 0)) by by rewrite Z.add_0_r.
  rewrite (fixed_pass_items (Z.to_nat j) _ _ 0 (zlen front) (ls ++ zs)) by (done || lia). cbn [mbind option_bind]. change (Z.to_nat 0) with O. rewrite drop_0, Hsum, HpN.
  destruct (Z.ltb_spec j N) as [HjN|HjN]; [|done]. replace (zlen front + 0 + Z.of_nat (Z.to_nat j)) with (zlen front + j) by lia.
  destruct (zget_is_some (ls ++ zs) j) as [b Hb]; [lia|]. assert ((front ++ (ls ++ zs) ++ back) !z (zlen front + j) = Some b) as Hv by (rewrite <- Hb; apply zslice_at; [done|lia..]).
  step_opt Hv. do 3 f_equal. destruct (decide (j < zlen ls)) as [H'|H'].
  - rewrite zget_app_l in Hb by done. by rewrite Hb.
  - rewrite (zget_none ls) by lia. rewrite zget_app_r in Hb by lia. apply zget_elem in Hb. unfold zs in Hb. by apply elem_of_replicate_inv in Hb.
Qed.
Next Obligation.
  intros N HN range data_offset Hf%not_true_iff_false. rewrite forallb_decide in Hf. right. simpl. unfold FixedBlock.WriteBlockPrefix. destruct (FixedBlock.fill_prefix _ _ _) as [r|] eqn:E; [|done].
  destruct Hf. apply fill_prefix_some in E. rewrite Forall_forall in *. intros l Hl. split; [by apply (data_lengths_word range)|by apply E].
Qed.

(** ** Ranges of offsets *)

(** Offsets in ascending order, below 2^32 and inside the data. *)
Definition offsets_ok (os data : list Z) : Prop :=
  (forall i j a b, (i <= j)%nat -> os !! i = Some a -> os !! j = Some b -> a <= b) /\ (forall a, a ∈ os -> 0 <= a <= zlen data) /\ zlen data < 2 ^ 32.

Lemma offsets_ok_drop k os data : offsets_ok os data -> offsets_ok (drop k os) data.
Proof.
  intros (H1 & H2 & H3). split_and!; [|intros a Ha; apply H2; rewrite <- (take_drop k os); set_solver|done].
  intros i j a b Hij. rewrite !lookup_drop. apply H1. lia.
Qed.

Lemma offsets_ok_take k os data : offsets_ok os data -> offsets_ok (take k os) data.
Proof.
  intros (H1 & H2 & H3). split_and!; [|intros a Ha; apply H2; rewrite <- (take_drop k os); set_solver|done].
  intros i j a b Hij Ha Hb. apply lookup_take_Some in Ha as [Ha _], Hb as [Hb _]. by eapply H1.
Qed.

Lemma data_lengths_length range : length (data_lengths range) = pred (length range).
Proof. induction range as [|a [|b range] IH]; [done..|]. cbn [data_lengths]. simpl length in *. lia. Qed.

Lemma data_lengths_get range data i a b : offsets_ok range data -> range !! i = Some a -> range !! S i = Some b -> data_lengths range !! i = Some (b - a).
Proof.
  revert i. induction range as [|x [|y range] IH]; intros i Hok Ha Hb; [done|by destruct i|]. destruct i as [|i].
  - simpl in Ha, Hb. simplify_eq. cbn [data_lengths]. simpl. f_equal. apply wrap_small. destruct Hok as (H1 & H2 & H3).
    pose proof (H1 0%nat 1%nat a b ltac:(lia) eq_refl eq_refl). pose proof (H2 a ltac:(set_solver)). pose proof (H2 b ltac:(set_solver)). unfold in_word. lia.
  - cbn [data_lengths]. simpl lookup. apply IH; [|done|done]. apply (offsets_ok_drop 1 _ _ Hok).
Qed.

(** The lengths of the first items add up to the distance of the offsets. *)
Lemma data_lengths_sum range data j a b : offsets_ok range data -> range !! O = Some a -> range !! j = Some b -> zsum id (take j (data_lengths range)) = b - a.
Proof.
  intros Hok Ha. revert b. induction j as [|j IH]; intros b Hb; [simpl; simplify_eq; lia|].
  destruct (lookup_lt_is_Some_2 range j) as [c Hc]; [apply lookup_lt_Some in Hb; lia|].
  rewrite (take_S_r _ _ _ (data_lengths_get range data j c b Hok Hc Hb)), zsum_app, (IH c Hc). unfold zsum, id. simpl. lia.
Qed.

(** ** What the constructor writes *)

Section container.
Context (B : Type) {policy : GroupBlock B} {laws : GroupBlockLaws B}.
#[local] Abbreviation N := (BLOCK_SIZE B).

Definition number_of_groups (n : Z) : Z := if n =? 0 then 0 else 1 + (n - 1) / (N + 1).

(** Only items in a prefix have to fit; each group has one more. *)
Definition items_fit (os : list Z) : Prop :=
  forall i a b, os !! i = Some a -> os !! S i = Some b -> Z.of_nat i mod (N + 1) < N -> item_fits (b - a) = true.

Lemma group_sizes os : 1 < zlen os -> Z.of_nat (items_in_prefix B os) = Z.min N (zlen os - 1) /\ Z.of_nat (items_in_block B os) = Z.min (N + 1) (zlen os - 1).
Proof. intros Hos. pose proof (block_size_nonneg (B := B)) as HN. unfold items_in_block, items_in_prefix. lia. Qed.

Lemma prefix_range_length os : 1 < zlen os -> zlen (data_lengths (prefix_range B os)) = Z.of_nat (items_in_prefix B os).
Proof.
  intros Hos. destruct (group_sizes os Hos) as [H1 _]. pose proof (block_size_nonneg (B := B)). unfold zlen, prefix_range in *. rewrite data_lengths_length, length_take. lia.
Qed.

Lemma prefix_range_fits os data : 1 < zlen os -> offsets_ok os data -> items_fit os -> forallb item_fits (data_lengths (prefix_range B os)) = true.
Proof.
  intros Hos Hok Hfit. apply forallb_forall. intros l [i Hi]%list_elem_of_In%list_elem_of_lookup. destruct (group_sizes os Hos) as [H1 _].
  pose proof (lookup_lt_Some _ _ _ Hi) as Hlt. pose proof (prefix_range_length os Hos) as Hlen. unfold zlen in Hlen.
  assert (length (prefix_range B os) = S (items_in_prefix B os)) as Hp by (unfold prefix_range; rewrite length_take; unfold zlen in *; lia).
  destruct (lookup_lt_is_Some_2 (prefix_range B os) i) as [a Ha]; [lia|]. destruct (lookup_lt_is_Some_2 (prefix_range B os) (S i)) as [b Hb]; [lia|].
  pose proof (data_lengths_get (prefix_range B os) data i a b (offsets_ok_take _ _ _ Hok) Ha Hb) as Hg. rewrite Hg in Hi. injection Hi as <-. unfold prefix_range in Ha, Hb.
  apply lookup_take_Some in Ha as [Ha _], Hb as [Hb _]. apply (Hfit i a b Ha Hb). rewrite Z.mod_small; lia.
Qed.

Lemma items_fit_drop os : items_fit os -> items_fit (drop (Z.to_nat (N + 1)) os).
Proof.
  intros Hfit i a b. rewrite !lookup_drop. intros Ha Hb Hi. pose proof (block_size_nonneg (B := B)) as HN.
  apply (Hfit (Z.to_nat (N + 1) + i)%nat a b Ha); [by rewrite <- Hb; f_equal; lia|]. rewrite Nat2Z.inj_add, Z2Nat.id by lia.
  replace (N + 1 + Z.of_nat i) with (Z.of_nat i + 1 * (N + 1)) by lia. by rewrite Z.mod_add by lia.
Qed.

Lemma number_of_groups_next m : 0 < m -> number_of_groups m = 1 + number_of_groups (m - Z.min (N + 1) m).
Proof.
  intros Hm. pose proof (block_size_nonneg (B := B)) as HN. unfold number_of_groups. rewrite (proj2 (Z.eqb_neq m 0)) by lia. destruct (Z.le_gt_cases m (N + 1)) as [H|H].
  - rewrite Z.min_r by lia. rewrite Z.sub_diag. simpl. rewrite Z.div_small by lia. done.
  - rewrite Z.min_l by lia. rewrite (proj2 (Z.eqb_neq _ 0)) by lia. replace (m - 1) with (m - (N + 1) - 1 + 1 * (N + 1)) by lia. rewrite Z.div_add by lia. lia.
Qed.

Lemma number_of_groups_nonneg m : 0 <= m -> 0 <= number_of_groups m.
Proof. intros Hm. pose proof (block_size_nonneg (B := B)). unfold number_of_groups. destruct (Z.eqb_spec m 0); [done|]. assert (0 <= (m - 1) / (N + 1)) by (apply Z.div_pos; lia). lia. Qed.

(** A group in the written bytes: its reference, what is in front of it and
    behind it, and where the next group starts. *)
Record group_written (os data : list Z) (off : Z) (refs : list (BlockReference B)) (bytes : list Z) (b : Z) : Prop := {
  group_of : exists reference size front prefix back,
    let os_b := drop (Z.to_nat (b * (N + 1))) os in
    refs !z b = Some reference /\ 1 < zlen os_b /\ offset reference = off + zlen front /\
    WriteBlockReference B (prefix_range B os_b) (offset reference) = Some (reference, size) /\ WriteBlockPrefix B (prefix_range B os_b) = Some prefix /\
    bytes = front ++ prefix ++ zslice data (block_begin os_b) (block_end B os_b - block_begin os_b) ++ back /\
    (b + 1 = zlen refs -> back = []) /\
    (forall next, refs !z (b + 1) = Some next -> offset next = off + zlen front + zlen prefix + (block_end B os_b - block_begin os_b))
}.

(** The offsets of a group are in order. *)
Lemma group_range os data : 1 < zlen os -> offsets_ok os data ->
  os !! O = Some (block_begin os) /\ os !! items_in_block B os = Some (block_end B os) /\ 0 <= block_begin os <= block_end B os /\ block_end B os <= zlen data.
Proof.
  intros Hos (H1 & H2 & H3). destruct (group_sizes os Hos) as [_ Hk]. pose proof (block_size_nonneg (B := B)) as HN. unfold block_begin, block_end.
  destruct (lookup_lt_is_Some_2 os 0) as [a Ha]; [unfold zlen in Hos; lia|]. destruct (lookup_lt_is_Some_2 os (items_in_block B os)) as [b Hb]; [unfold zlen in *; lia|].
  rewrite Ha, Hb. simpl. pose proof (H1 0%nat _ a b ltac:(lia) Ha Hb). pose proof (H2 a ltac:(by eapply list_elem_of_lookup_2)). pose proof (H2 b ltac:(by eapply list_elem_of_lookup_2)). split_and!; done || lia.
Qed.

(** The distance from the first to the last offset. *)
Definition span (os : list Z) : Z := default 0 (last os) - default 0 (head os).

Lemma span_drop os data : 1 < zlen os -> offsets_ok os data -> span os = (block_end B os - block_begin os) + span (drop (items_in_block B os) os) /\ 0 <= span (drop (items_in_block B os) os).
Proof.
  intros Hos Hok. destruct (group_range os data Hos Hok) as (Hb & He & _). destruct (group_sizes os Hos) as [_ Hk]. unfold span.
  assert (head (drop (items_in_block B os) os) = Some (block_end B os)) as Hh by (by rewrite (drop_S _ _ _ He)).
  assert (last (drop (items_in_block B os) os) = last os) as Hl.
  { rewrite !last_lookup, length_drop, lookup_drop. f_equal. unfold zlen in *. lia. }
  assert (head os = Some (block_begin os)) as -> by (by destruct os). rewrite Hh, Hl. simpl. split; [lia|].
  destruct (last os) as [z|] eqn:Ez; [|apply last_None in Ez as ->; by vm_compute in Hos]. simpl. rewrite last_lookup in Ez. destruct Hok as (H1 & _).
  pose proof (H1 (items_in_block B os) (pred (length os)) _ _ ltac:(unfold zlen in *; lia) He Ez). lia.
Qed.

Lemma written_groups fuel os data off : (length os <= S fuel)%nat -> 0 < zlen os -> offsets_ok os data -> items_fit os ->
  0 <= off -> off + number_of_groups (zlen os - 1) * prefix_limit + span os < 2 ^ 32 -> 0 <= prefix_limit ->
  exists refs bytes, write_references B fuel os off = Some (refs, off + zlen bytes) /\ write_values B fuel os data = Some bytes /\
    zlen refs = number_of_groups (zlen os - 1) /\ (forall reference, refs !z 0 = Some reference -> offset reference = off) /\
    forall b, 0 <= b < zlen refs -> group_written os data off refs bytes b.
Proof.
  intros Hf. revert os off Hf. induction fuel as [|fuel IH]; intros os off Hf Hos Hok Hfit Hoff Hsize Hlim.
  { exists [], []. assert (zlen os = 1) as E by (unfold zlen in *; lia). simpl. rewrite E. simpl. split_and!; [do 2 f_equal; rewrite zlen_nil; lia|done..|]. intros b Hb. change (0 <= b < 0) in Hb. lia. }
  destruct (Z.le_gt_cases (zlen os) 1) as [H1|H1].
  { exists [], []. assert (zlen os = 1) as E by lia. simpl. rewrite E. simpl. split_and!; [do 2 f_equal; rewrite zlen_nil; lia|done..|]. intros b Hb. change (0 <= b < 0) in Hb. lia. }
  cbn [write_references write_values]. rewrite (proj2 (Z.leb_gt (zlen os) 1)) by lia. destruct (group_sizes os H1) as [Hpre Hk]. pose proof (block_size_nonneg (B := B)) as HN.
  destruct (group_range os data H1 Hok) as (Hbeg & Hend & Hbe & Hdata). destruct (span_drop os data H1 Hok) as [Hspan Hspan0]. set (k := items_in_block B os) in *.
  assert (zlen (drop k os) = zlen os - Z.of_nat k) as Hrest by (unfold zlen in *; rewrite length_drop; lia).
  pose proof (number_of_groups_next (zlen os - 1) ltac:(lia)) as Hgroups. rewrite <- Hk in Hgroups. replace (zlen os - 1 - Z.of_nat k) with (zlen (drop k os) - 1) in Hgroups by lia.
  pose proof (number_of_groups_nonneg (zlen (drop k os) - 1) ltac:(lia)) as Hg0. set (g := number_of_groups (zlen (drop k os) - 1)) in *.
  pose proof (prefix_range_length os H1) as Hplen. pose proof (prefix_range_fits os data H1 Hok Hfit) as Hpfit.
  assert (zlen (data_lengths (prefix_range B os)) <= N) as HpN by lia. pose proof (prefix_size_limit (data_lengths (prefix_range B os)) HpN) as Hps. set (ps := prefix_size (data_lengths (prefix_range B os))) in *.
  destruct (reference_written (prefix_range B os) off Hpfit HpN) as (reference & Ew & Eoff); [nia|fold ps; nia|]. destruct (prefix_written (prefix_range B os) Hpfit HpN) as (prefix & Ep & Eps).
  fold ps in Ew, Eps. step_opt Ew. step_opt Ep. set (L := block_end B os - block_begin os) in *. rewrite (wrap_small 64) by (unfold in_word; nia).
  destruct (IH (drop k os) (off + ps + L)) as (refs & bytes & Er & Ev & Hlen & Hfirst & Hgw).
  { unfold zlen in *. rewrite length_drop. lia. }
  { lia. }
  { by apply offsets_ok_drop. }
  { destruct (decide (Z.of_nat k = N + 1)) as [E|E]; [replace k with (Z.to_nat (N + 1)) by lia; by apply items_fit_drop|]. assert (zlen (drop k os) = 1) as E1 by lia.
    intros i a b Ha Hb. apply lookup_lt_Some in Hb. unfold zlen in E1. lia. }
  { nia. }
  { fold g. nia. }
  { done. }
  rewrite Er, Ev. cbn [mbind option_bind]. set (D := zslice data (block_begin os) L). assert (zlen D = L) as HD by (apply zslice_len; lia).
  exists (reference :: refs), (prefix ++ D ++ bytes). split_and!; [do 2 f_equal; rewrite !zlen_app; lia|done|rewrite zlen_cons; lia|by intros ? [= <-]|].
  intros b Hb. rewrite zlen_cons in Hb. destruct (decide (b = 0)) as [->|Hb0].
  - constructor. exists reference, (off + ps), [], prefix, bytes. cbv zeta. change (Z.to_nat (0 * (N + 1))) with O. rewrite drop_0. split_and!; [done|lia|rewrite Eoff, zlen_nil; lia|by rewrite Eoff|done|done|..].
    + rewrite zlen_cons. intros E. assert (g = 0) as Eg by lia. assert (zlen (drop k os) = 1) as E1.
      { destruct (Z.eqb_spec (zlen (drop k os) - 1) 0); [lia|]. unfold g, number_of_groups in Eg. rewrite (proj2 (Z.eqb_neq _ 0)) in Eg by done. assert (0 <= (zlen (drop k os) - 1 - 1) / (N + 1)) by (apply Z.div_pos; lia). lia. }
      destruct fuel; simpl in Ev; rewrite E1 in Ev; by simplify_eq/=.
    + intros next Hnext. rewrite Z.add_0_l in Hnext. change ((reference :: refs) !z 1) with (refs !z 0) in Hnext. pose proof (zget_some _ _ _ Hnext) as Hr.
      rewrite (Hfirst next Hnext), zlen_nil, Eps. fold L. lia.
  - destruct (Hgw (b - 1) ltac:(lia)) as [(r' & s' & f' & p' & b' & G1 & G2 & G3 & G4 & G5 & G6 & G7 & G8)]. assert (Z.of_nat k = N + 1) as Ek.
    { destruct (decide (Z.of_nat k = N + 1)) as [|E]; [done|]. assert (zlen (drop k os) = 1) as E1 by lia. unfold g in Hlen. rewrite E1 in Hlen. unfold number_of_groups in Hlen. simpl in Hlen. lia. }
    assert (drop (Z.to_nat ((b - 1) * (N + 1))) (drop k os) = drop (Z.to_nat (b * (N + 1))) os) as Ed by (rewrite drop_drop; f_equal; nia). rewrite Ed in *.
    constructor. exists r', s', (prefix ++ D ++ f'), p', b'. cbv zeta. rewrite zget_cons_S by lia. rewrite !zlen_app, HD, Eps, zlen_cons. split_and!; [done|done|lia|done|done|..].
    + rewrite G6, <- !app_assoc. done.
    + intros E. apply G7. lia.
    + intros next Hn. rewrite zget_cons_S in Hn by lia. replace (b + 1 - 1) with (b - 1 + 1) in Hn by lia. rewrite (G8 next Hn). lia.
Qed.

(** ** What [at] finds *)

(** The item between two offsets, empty behind the last one. *)
Definition item (os data : list Z) (i : nat) : list Z :=
  match os !! i, os !! S i with
  | Some a, Some b => zslice data a (b - a)
  | _, _ => []
  end.

(** Reading an item of a group. *)
Lemma read_item os data reference data_offset size front prefix back j :
  1 < zlen os -> offsets_ok os data -> items_fit os -> 0 <= j <= N ->
  WriteBlockReference B (prefix_range B os) data_offset = Some (reference, size) -> WriteBlockPrefix B (prefix_range B os) = Some prefix ->
  let values := front ++ prefix ++ zslice data (block_begin os) (block_end B os - block_begin os) ++ back in
  exists first last, ReadRefrencedBlock reference values j (zlen front) (zlen front + zlen prefix + (block_end B os - block_begin os)) = Some (first, last) /\
    zslice values first (last - first) = item os data (Z.to_nat j).
Proof.
  intros Hos Hok Hfit Hj Ew Ep. cbv zeta. pose proof (prefix_range_fits os data Hos Hok Hfit) as Hpfit. pose proof (prefix_range_length os Hos) as Hplen.
  destruct (group_sizes os Hos) as [Hpre Hk]. destruct (group_range os data Hos Hok) as (Hbeg & Hend & Hbe & Hdata).
  assert (zlen (data_lengths (prefix_range B os)) <= N) as HpN by lia. set (L := block_end B os - block_begin os) in *. set (D := zslice data (block_begin os) L) in *.
  assert (zlen D = L) as HD by (apply zslice_len; lia). rewrite (item_found _ _ _ _ _ front (D ++ back) j (zlen front + zlen prefix + L) Hpfit HpN Ew Ep Hj).
  eexists _, _. split; [done|].
  assert (forall s n, 0 <= s -> 0 <= n -> s + n <= L -> zslice (front ++ prefix ++ D ++ back) (zlen front + zlen prefix + s) n = zslice data (block_begin os + s) n) as Hslice.
  { intros s n Hs Hn Hsn. rewrite app_assoc, <- zlen_app, zslice_app_r, zslice_app_l by (rewrite ?HD; lia). unfold D. by apply zslice_zslice; [lia..|]. }
  set (lens := data_lengths (prefix_range B os)) in *. pose proof (offsets_ok_take (S (items_in_prefix B os)) os data Hok) as Hokp. fold (prefix_range B os) in Hokp.
  assert (forall i a, (i <= items_in_prefix B os)%nat -> os !! i = Some a -> prefix_range B os !! i = Some a) as Hget.
  { intros i a Hi Ha. unfold prefix_range. rewrite lookup_take_lt by lia. done. }
  assert (forall i a, (i <= items_in_prefix B os)%nat -> os !! i = Some a -> zsum id (take i lens) = a - block_begin os) as Hsum.
  { intros i a Hi Ha. apply (data_lengths_sum _ data i _ _ Hokp); [apply Hget; [lia|done]|by apply Hget]. }
  assert (forall i a b, os !! i = Some a -> os !! S i = Some b -> a <= b) as Hasc by (intros i a b Ha Hb; destruct Hok as (H1 & _); apply (H1 i (S i) a b); [lia|done..]).
  assert (forall i a, (i <= items_in_block B os)%nat -> os !! i = Some a -> block_begin os <= a <= block_end B os) as Hin.
  { intros i a Hi Ha. destruct Hok as (H1 & _). split; [apply (H1 O i _ _ ltac:(lia) Hbeg Ha)|apply (H1 i (items_in_block B os) _ _ ltac:(lia) Ha Hend)]. }
  destruct (decide (j < Z.of_nat (items_in_prefix B os))) as [Hjp|Hjp].
  - rewrite (proj2 (Z.ltb_lt j N)) by lia. destruct (lookup_lt_is_Some_2 os (Z.to_nat j)) as [a Ha]; [unfold zlen in *; lia|].
    destruct (lookup_lt_is_Some_2 os (S (Z.to_nat j))) as [b Hb]; [unfold zlen in *; lia|]. unfold item. rewrite Ha, Hb, (Hsum (Z.to_nat j) a ltac:(lia) Ha).
    assert (lens !z j = Some (b - a)) as ->.
    { unfold zget. rewrite (proj2 (Z.leb_le 0 j)) by lia. apply (data_lengths_get _ data); [done|apply Hget; [lia|done]..]. }
    cbn [from_option id]. pose proof (Hasc _ _ _ Ha Hb). pose proof (Hin (Z.to_nat j) a ltac:(lia) Ha). pose proof (Hin (S (Z.to_nat j)) _ ltac:(lia) Hb).
    match goal with |- zslice _ _ ?n = _ => replace n with (b - a) by lia end. rewrite Hslice by (unfold L; lia). f_equal. lia.
  - destruct (Z.ltb_spec j N) as [HjN|HjN].
    + rewrite (zget_none lens) by lia. cbn [from_option id]. match goal with |- zslice _ _ ?n = _ => replace n with 0 by lia end. unfold item.
      assert (os !! S (Z.to_nat j) = None) as -> by (apply lookup_ge_None; unfold zlen in *; lia). by destruct (os !! Z.to_nat j).
    + assert (j = N) as -> by lia. destruct (decide (N + 1 <= zlen os - 1)) as [Hm|Hm].
      * destruct (lookup_lt_is_Some_2 os (Z.to_nat N)) as [a Ha]; [unfold zlen in *; lia|]. unfold item. rewrite Ha. replace (S (Z.to_nat N)) with (items_in_block B os) by lia. rewrite Hend.
        rewrite (Hsum (Z.to_nat N) a ltac:(lia) Ha). pose proof (Hin (Z.to_nat N) a ltac:(lia) Ha). match goal with |- zslice _ _ ?n = _ => replace n with (block_end B os - a) by lia end.
        rewrite Hslice by (unfold L; lia). f_equal. lia.
      * assert (items_in_prefix B os = items_in_block B os) as Ek by lia. assert (zsum id (take (Z.to_nat N) lens) = L) as ->.
        { rewrite take_ge by (unfold zlen in *; lia). rewrite <- (take_ge lens (items_in_prefix B os)) by (unfold zlen in *; lia). apply Hsum; [lia|]. by rewrite Ek. }
        match goal with |- zslice _ _ ?n = _ => replace n with 0 by lia end. unfold item.
        assert (os !! S (Z.to_nat N) = None) as -> by (apply lookup_ge_None; unfold zlen in *; lia). by destruct (os !! Z.to_nat N).
Qed.

Lemma items_fit_drop_groups b os : 0 <= b -> items_fit os -> items_fit (drop (Z.to_nat (b * (N + 1))) os).
Proof.
  intros Hb Hfit i x y. rewrite !lookup_drop. intros Ha Hy Hi. pose proof (block_size_nonneg (B := B)) as HN.
  apply (Hfit (Z.to_nat (b * (N + 1)) + i)%nat x y Ha); [by rewrite <- Hy; f_equal; lia|]. rewrite Nat2Z.inj_add, Z2Nat.id by nia.
  rewrite Z.add_comm, Z.mod_add by lia. done.
Qed.

Lemma groups_cover m i : 0 <= m -> number_of_groups m <= i / (N + 1) -> 0 <= i -> m <= i.
Proof.
  intros Hm Hg Hi. pose proof (block_size_nonneg (B := B)) as HN. assert (0 < N + 1) as HN1 by lia. destruct (Z.le_gt_cases m i) as [|Hlt]; [done|exfalso].
  unfold number_of_groups in Hg. rewrite (proj2 (Z.eqb_neq m 0)) in Hg by lia. pose proof (Z.div_le_mono i (m - 1) (N + 1) HN1 ltac:(lia)). lia.
Qed.

Lemma written_into_full {A} (x : A) l : written_into x (zlen l) l = Some l.
Proof. unfold written_into. rewrite Z.leb_refl, Z.sub_diag. simpl. by rewrite app_nil_r. Qed.

Lemma container_exact os data : 0 < zlen os -> zlen os <= 2 ^ 32 -> offsets_ok os data -> items_fit os -> 0 <= prefix_limit ->
  number_of_groups (zlen os - 1) * prefix_limit + zlen data < 2 ^ 32 ->
  exists d, IndexedData B os data = Some d /\ forall i, 0 <= i -> at_index B d i = Some (item os data (Z.to_nat i)).
Proof.
  intros Hos Hcount Hok Hfit Hlim Hsize. pose proof (block_size_nonneg (B := B)) as HN. assert (0 < N + 1) as HN1 by lia. assert (N + 1 <> 0) as HN2 by lia.
  assert (span os <= zlen data) as Hspan.
  { unfold span. destruct os as [|a os]; [by vm_compute in Hos|]. destruct Hok as (_ & H2 & _). destruct (last (a :: os)) as [z|] eqn:El; [|by apply last_None in El].
    simpl. rewrite last_lookup in El. pose proof (H2 z ltac:(by eapply list_elem_of_lookup_2)). pose proof (H2 a ltac:(by left)). lia. }
  destruct (written_groups (length os) os data 0) as (refs & bytes & Er & Ev & Hlen & _ & Hgw); [lia|done..|lia|lia|done|].
  assert (0 <= number_of_groups (zlen os - 1) <= zlen os - 1) as Hng.
  { split; [apply number_of_groups_nonneg; lia|]. unfold number_of_groups. destruct (Z.eqb_spec (zlen os - 1) 0); [lia|].
    assert ((zlen os - 1 - 1) / (N + 1) <= zlen os - 1 - 1) by (apply Z.div_le_upper_bound; nia). lia. }
  exists (mkIndexedData B refs bytes). unfold IndexedData. cbv zeta. fold (number_of_groups (zlen os - 1)). rewrite (wrap_small 32) by (unfold in_word; lia).
  step_opt Er. rewrite <- Hlen, written_into_full. cbn [mbind option_bind]. step_opt Ev. rewrite Z.add_0_l, written_into_full. cbn [mbind option_bind]. split; [done|].
  intros i Hi. unfold at_index. cbn [values blocks]. pose proof (Z.div_pos i (N + 1) Hi HN1) as Hb0. pose proof (Z.mod_pos_bound i (N + 1) HN1) as Hj0. pose proof (Z.div_mod i (N + 1) HN2) as Hdm.
  assert (zlen refs <= i / (N + 1) -> item os data (Z.to_nat i) = []) as Hpast.
  { intros Hb. rewrite Hlen in Hb. apply groups_cover in Hb; [|lia..]. unfold item. assert (os !! S (Z.to_nat i) = None) as -> by (apply lookup_ge_None; unfold zlen in *; lia). by destruct (os !! Z.to_nat i). }
  revert Hb0 Hj0 Hdm Hpast. generalize (i / (N + 1)) as b, (i mod (N + 1)) as j. intros b j Hb0 Hj0 Hdm Hpast. assert (0 <= j <= N) as Hj by lia.
  destruct (Z.leb_spec (zlen refs) b) as [Hb|Hb]; [rewrite (Hpast Hb); by destruct (zlen bytes =? 0)|].
  destruct (Hgw b ltac:(lia)) as [(reference & size & front & prefix & back & G1 & G2 & G3 & G4 & G5 & G6 & G7 & G8)]. set (os_b := drop (Z.to_nat (b * (N + 1))) os) in *.
  pose proof (offsets_ok_drop (Z.to_nat (b * (N + 1))) os data Hok) as Hok_b. fold os_b in Hok_b. pose proof (items_fit_drop_groups b os Hb0 Hfit) as Hfit_b. fold os_b in Hfit_b.
  destruct (read_item os_b data reference _ size front prefix back j G2 Hok_b Hfit_b Hj G4 G5) as (first & last & Eread & Eitem). rewrite <- G6 in Eread, Eitem.
  assert (item os_b data (Z.to_nat j) = item os data (Z.to_nat i)) as Eij.
  { unfold item, os_b. rewrite !lookup_drop. 
    replace (Z.to_nat (b * (N + 1)) + S (Z.to_nat j))%nat with (S (Z.to_nat i)) by nia. by replace (Z.to_nat (b * (N + 1)) + Z.to_nat j)%nat with (Z.to_nat i) by nia. }
  destruct (Z.eqb_spec (zlen bytes) 0) as [E0|E0].
  { rewrite <- Eij, <- Eitem. destruct bytes; [|rewrite zlen_cons in E0; pose proof (zlen_nonneg bytes); lia]. unfold zslice. by rewrite drop_nil, take_nil. }
  step_opt G1. rewrite G3, Z.add_0_l. destruct (group_range os_b data G2 Hok_b) as (_ & _ & Hbe & Hdata).
  assert ((if b + 1 =? zlen refs then Some (zlen bytes) else next ← refs !z (b + 1); Some (offset next)) = Some (zlen front + zlen prefix + (block_end B os_b - block_begin os_b))) as ->.
  { destruct (Z.eqb_spec (b + 1) (zlen refs)) as [E|E].
    - rewrite G6, (G7 E), app_nil_r, !zlen_app, zslice_len by lia. f_equal. lia.
    - destruct (zget_is_some refs (b + 1)) as [next Hnext]; [lia|]. step_opt Hnext. by rewrite (G8 next Hnext). }
  cbn [mbind option_bind]. rewrite Eread. cbn [mbind option_bind]. by rewrite Eitem, Eij.
Qed.
End container.

(** ** Lengths that do not fit *)

Section refused.
Context (B : Type) {policy : GroupBlock B} {laws : GroupBlockLaws B}.
#[local] Abbreviation N := (BLOCK_SIZE B).

Lemma item_in_prefix os data i a b : 1 < zlen os -> offsets_ok os data -> (i < items_in_prefix B os)%nat -> os !! i = Some a -> os !! S i = Some b ->
  b - a ∈ data_lengths (prefix_range B os).
Proof.
  intros Hos Hok Hi Ha Hb. apply (list_elem_of_lookup_2 _ i), (data_lengths_get _ data); [by apply offsets_ok_take|..];
    unfold prefix_range; by rewrite lookup_take_lt by lia.
Qed.

Lemma written_fits fuel os data off r bytes : offsets_ok os data -> write_references B fuel os off = Some r -> write_values B fuel os data = Some bytes -> items_fit B os.
Proof.
  revert os off r bytes. induction fuel as [|fuel IH]; intros os off r bytes Hok Er Ev; cbn [write_references write_values] in Er, Ev; destruct (Z.leb_spec (zlen os) 1) as [H1|H1]; try done.
  { intros i a b Ha Hb. apply lookup_lt_Some in Hb. unfold zlen in H1. lia. }
  { intros i a b Ha Hb. apply lookup_lt_Some in Hb. unfold zlen in H1. lia. }
  destruct (WriteBlockReference B (prefix_range B os) off) as [[reference size]|] eqn:Ew; [|done]. destruct (WriteBlockPrefix B (prefix_range B os)) as [prefix|] eqn:Ep; [|done].
  cbn [mbind option_bind] in Er, Ev. destruct (write_references B fuel _ _) as [[refs size']|] eqn:Er'; [|done]. destruct (write_values B fuel _ _) as [rest|] eqn:Ev'; [|done].
  specialize (IH _ _ _ _ (offsets_ok_drop _ _ _ Hok) Er' Ev'). assert (forallb item_fits (data_lengths (prefix_range B os)) = true) as Hfit.
  { destruct (forallb item_fits (data_lengths (prefix_range B os))) eqn:E; [done|]. destruct (refused _ off E); congruence. }
  destruct (group_sizes B os H1) as [Hpre Hk]. pose proof (block_size_nonneg (B := B)) as HN. intros i a b Ha Hb Hi. pose proof (lookup_lt_Some _ _ _ Hb) as Hlt.
  destruct (decide (i < items_in_prefix B os)%nat) as [Hp|Hp].
  { rewrite forallb_forall in Hfit. apply Hfit, list_elem_of_In. by apply (item_in_prefix os data i). }
  assert (Z.of_nat i <> N) as HiN by (intros E; rewrite E, Z.mod_small in Hi by lia; lia). assert (items_in_block B os <= i)%nat as Hge by (unfold zlen in *; lia).
  assert (Z.of_nat (items_in_block B os) = N + 1) as Ek by (unfold zlen in *; lia).
  apply (IH (i - items_in_block B os)%nat a b); [rewrite lookup_drop, <- Ha; f_equal; lia|rewrite lookup_drop, <- Hb; f_equal; lia|].
  assert (Z.of_nat (i - items_in_block B os) = Z.of_nat i + (-1) * (N + 1)) as -> by lia. by rewrite Z.mod_add by lia.
Qed.
End refused.

(** C40: A container built by a policy that keeps the laws gives back every item.
    For offsets in ascending order inside the data, items of a length that fits (the
    item behind the prefix of each group may have any length) and bytes below
    2^32, the constructor succeeds, and [at] of any number returns the bytes
    between the offsets of that number, or nothing behind the last item.  The
    exception is thrown exactly for items that do not fit. *)
Theorem indexed_data_roundtrip (B : Type) (policy : GroupBlock B) (laws : GroupBlockLaws B) (os data : list Z) :
  0 < zlen os -> zlen os <= 2 ^ 32 -> offsets_ok os data -> 0 <= prefix_limit ->
  number_of_groups B (zlen os - 1) * prefix_limit + zlen data < 2 ^ 32 ->
  (items_fit B os -> exists d, IndexedData B os data = Some d /\ forall i, 0 <= i -> at_index B d i = Some (item os data (Z.to_nat i))) /\
  (~ items_fit B os -> IndexedData B os data = None).
Proof.
  intros Hos Hcount Hok Hlim Hsize. split; [intros Hfit; by apply (container_exact B (laws := laws))|]. intros Hfit. unfold IndexedData. cbv zeta.
  destruct (write_references B (length os) os 0) as [[refs size]|] eqn:Er; [|done]. cbn [mbind option_bind]. destruct (written_into _ _ refs); [|done]. cbn [mbind option_bind].
  destruct (write_values B (length os) os data) as [bytes|] eqn:Ev; [|done]. destruct Hfit. by apply (written_fits B (length os) os data 0 (refs, size) bytes).
Qed.

(** Five strings, one of them empty, in groups of three and of one. *)
Definition example_offsets : list Z := [0; 3; 3; 7; 8; 10].
Definition example_data : list Z := str "abcdefghij".

Lemma example_offsets_ok : offsets_ok example_offsets example_data.
Proof.
  split_and!; [|intros a Ha; change (zlen example_data) with 10; unfold example_offsets in Ha; set_unfold in Ha; lia|done].
  intros i j a b Hij. do 6 (destruct i as [|i]; [do 6 (destruct j as [|j]; [try lia; simpl; intros; simplify_eq; lia|]); done|]). done.
Qed.

Lemma example_fits (B : Type) (policy : GroupBlock B) (laws : GroupBlockLaws B) : forallb item_fits [3; 0; 4; 1; 2] = true -> items_fit B example_offsets.
Proof.
  intros H i a b Ha Hb _. rewrite forallb_forall in H. apply H, list_elem_of_In.
  do 5 (destruct i as [|i]; [simpl in Ha, Hb; simplify_eq; set_solver|]). done.
Qed.

Lemma indexed_data_roundtrip_witness :
  (exists d, IndexedData (VariableGroupBlock 2) example_offsets example_data = Some d /\
    forall i, 0 <= i -> at_index (VariableGroupBlock 2) d i = Some (item example_offsets example_data (Z.to_nat i))) /\
  (exists d, IndexedData (FixedGroupBlock 0) example_offsets example_data = Some d /\
    forall i, 0 <= i -> at_index (FixedGroupBlock 0) d i = Some (item example_offsets example_data (Z.to_nat i))).
Proof.
  split.
  - apply (indexed_data_roundtrip _ _ (variable_laws 2 ltac:(lia)) example_offsets example_data); [done|by vm_compute|apply example_offsets_ok|by vm_compute|by vm_compute|].
    by apply (example_fits _ _ (variable_laws 2 _)).
  - apply (indexed_data_roundtrip _ _ (fixed_laws 0 ltac:(lia)) example_offsets example_data); [done|by vm_compute|apply example_offsets_ok|by vm_compute|by vm_compute|].
    by apply (example_fits _ _ (fixed_laws 0 _)).
Defined.

(** ** Names of roads

    The table of include/extractor/name_table.hpp: five strings for each road,
    from the id of its name on. *)

Definition INVALID_NAMEID : Z := UINT32_MAX.
Definition NameTableImpl : Type := IndexedDataImpl (VariableGroupBlock 16).

Definition string_for_id (offset : Z) (t : NameTableImpl) (id : Z) : option (list Z) :=
  if id =? INVALID_NAMEID then Some [] else at_index (VariableGroupBlock 16) t (wrap 32 (id + offset)).

Definition GetNameForID : NameTableImpl -> Z -> option (list Z) := string_for_id 0.
Definition GetDestinationsForID : NameTableImpl -> Z -> option (list Z) := string_for_id 1.
Definition GetPronunciationForID : NameTableImpl -> Z -> option (list Z) := string_for_id 2.
Definition GetRefForID : NameTableImpl -> Z -> option (list Z) := string_for_id 3.
Definition GetExitsForID : NameTableImpl -> Z -> option (list Z) := string_for_id 4.

(** The strings of a road are the items from its id on. *)
Lemma name_table_strings os data id : 0 < zlen os -> zlen os <= 2 ^ 32 -> offsets_ok os data ->
  (forall i a b, os !! i = Some a -> os !! S i = Some b -> b - a < 0x1000000) ->
  number_of_groups (VariableGroupBlock 16) (zlen os - 1) * 48 + zlen data < 2 ^ 32 -> 0 <= id < 2 ^ 32 - 5 ->
  exists t, IndexedData (VariableGroupBlock 16) os data = Some t /\
    GetNameForID t id = Some (item os data (Z.to_nat id)) /\ GetDestinationsForID t id = Some (item os data (Z.to_nat (id + 1))) /\
    GetPronunciationForID t id = Some (item os data (Z.to_nat (id + 2))) /\ GetRefForID t id = Some (item os data (Z.to_nat (id + 3))) /\
    GetExitsForID t id = Some (item os data (Z.to_nat (id + 4))).
Proof.
  intros Hos Hcount Hok Hlen Hsize Hid. assert (0 <= 16 <= 16) as H16 by lia.
  destruct (container_exact (VariableGroupBlock 16) (laws := variable_laws 16 H16) os data Hos Hcount Hok) as (t & E & Hat); [|by vm_compute|exact Hsize|].
  { intros i a b Ha Hb _. apply bool_decide_eq_true. split; [|by eapply Hlen]. destruct Hok as (H1 & _). pose proof (H1 i (S i) a b ltac:(lia) Ha Hb). lia. }
  exists t. split; [done|]. assert (forall k, 0 <= k < 5 -> string_for_id k t id = Some (item os data (Z.to_nat (id + k)))) as Hk.
  { intros k Hk. unfold string_for_id, INVALID_NAMEID, UINT32_MAX. rewrite (proj2 (Z.eqb_neq id _)), wrap_small by (unfold in_word; lia). apply Hat. lia. }
  split_and!; [rewrite <- (Z.add_0_r id) at 2|..]; apply Hk; lia.
Qed.
